(* ===== verification/_CoqProject ===== *)
-Q . S2P
Prelude.v
GoStrings.v
Compare.v
Decimal.v
SemVer.v
Debian.v
Cran.v
NuGet.v
Regex.v
Pep440.v
Maven.v
Glob.v
Names.v
Dialect.v
Rule.v
RuleTheory.v
GoTrim.v
RuleStore.v
Engine.v
EngineTheory.v
Refresh.v
RefreshTheory.v
Middleware.v
Invalidation.v
MutationGate.v
Utf8.v
Sha256.v
StoragePath.v
StoragePathTheory.v
Json.v
AuditChain.v
AuditChainTheory.v
AuditAnchor.v
AuditAnchorTheory.v
Duration.v
Program.v
Retention.v
RetentionTheory.v
AllowList.v
QuarantinePolicy.v
QuarantineStore.v
QuarantineStoreTheory.v
QuarantineCheck.v
QuarantineTheory.v
Http.v
IpAddr.v
Url.v
PackageKey.v
KeyIdentity.v
RequestTarget.v
ResponseMetadata.v
CacheWorld.v
Manager.v
ManagerTheory.v
ManagerRuns.v
ManagerSafety.v
CacheSafety.v
NetGuard.v
NetGuardTheory.v
OriginPathTheory.v
DialRace.v
Cascade.v
Upstream.v
UpstreamTheory.v
Relay.v
RelayTheory.v
Transfer.v
ArtifactKey.v
Checksum.v
CompileWorld.v
CompileCache.v
CompileRestart.v
CompileInvariant.v
CompileSteps.v
CompileStore.v
CompileTheory.v
CompileTransfers.v
CompileRecovery.v
CompileSafety.v
