(* ===== verification/Prelude.v ===== *)
(** * Depsilo: a verification development

    Depsilo is a caching proxy for package registries.  A client asks it for a
    package over the registry's own protocol; the proxy identifies the release
    the request names, decides whether the operator's rules, the blocklist and
    the release-age policy let it through, serves it from its cache or from an
    upstream, and keeps a tamper-evident audit log of what operators changed.
    This library models the parts of the program (Go, under src/internal/) that
    take those decisions and keep that state, and proves what makes them correct.

    ** How the program is modelled

    A Go string is a list of bytes ([gostring]), machine integers are [Z] with
    the wrap-around written out where it can happen ([wrap64], the Int32 bounds
    of NuGet, the words of SHA-256), an [error] is a sentinel or a wrapping
    [fmt.Errorf], and [(T, error)] is [result T].  Structs are records with a
    prefix per type, maps are [gmap], and a method that changes its receiver
    returns the new one.  The body of a critical section is one function on the
    protected state; concurrent components are step relations that interleave
    these functions, with reachability defined inductively.  Loops over
    structures are structural; the loops that are not have fuel:
    [duration_parts] the length of the text (each turn consumes a byte), the
    retry loop of [AppendAuditRows] its [maxChainAppendAttempts], the
    backtracking of [path_match] and of the regular expressions the length of
    the remaining text.

    What the program takes from third-party packages is an argument or a class
    of parameters with the documented behaviour as laws: [UnicodeTables] and
    [EnglishLower] (tables of package unicode and golang.org/x/text),
    [ModulePackage] (golang.org/x/mod/module), [RuleTable] and [DriverErrors]
    (gorm and the SQLite driver).  Answers of the database, the file system, the
    network and the clock are arguments of the operation that asks for them, so
    a theorem that quantifies over them holds for every failure at every point.

    ** The parts

    Foundations.  Prelude (errors, results, tactics, lemmas on lists, counting), GoStrings,
    GoTrim, Utf8 (strings, unicode/utf8), Decimal (decimal strings), Compare
    (the class [ThreeWay] of total preorders given as -1/0/1 functions and how
    they compose), Regex (the fragment of package regexp that PEP 440 uses), Glob
    (path.Match), Sha256, Json, Duration.

    Versions and names (packagepolicy/).  SemVer, Debian, Cran, NuGet, Pep440 and
    Maven model the parsers, orderings and canonical spellings of semver.go,
    debian.go, cran.go, nuget.go, pep440.go and maven.go; Names the package name,
    prefix and glob validators of dialect.go and its siblings, Glob also
    gomoduleidentity/identity.go; Dialect the interface [PackagePolicyDialect],
    its implementations and [dialectForRevision1].  Proved: each parser accepts
    exactly its grammar or is total, each ordering is a total preorder (and
    Maven's is not, which is why that dialect refuses ranges), canonical
    spellings parse back to the same version, Debian's loop implements the block
    ordering of Debian Policy, normalized names are their own normal form.

    Rules (packagepolicy/rule.go, matcher.go, rules/store.go, rules/engine.go,
    rules/middleware.go, rules/adapter_bridge.go, ecosystem/catalog.go).  Rule
    prepares a rule and compiles its version matcher (RuleTheory: a prepared rule
    compiles and means what the operator wrote; comparison selectors partition
    the versions).  RuleStore is the table with its validation (EngineTheory: no
    accepted write can make a refresh fail).  Engine selects the rule for an
    identity (EngineTheory: the winner is the best match, whatever the order of
    the table; the request path and the explanation agree; the decision for an
    incomplete artifact holds for each identity it may have).  Refresh is the
    cached snapshot as a state machine with refreshes, invalidations, writers and
    the clock interleaved (RefreshTheory: a fresh snapshot is the compilation of
    the stored rules, every failure has its outcome, the reported status is
    truthful, the retry back-off ends).  Middleware is the boundary
    (its theory: only the policy lets a request pass, corrupt rules block).

    Cache coherence (cache/invalidation_state.go, cache/key_mutation_gate.go).
    Invalidation is the registry of writers and invalidations (its theory:
    under every interleaving a write commits exactly when no invalidation overtook
    it, and no key is readable while invalidated data may be there).
    MutationGate is the per-key lock with its reference counts as goroutine
    program counters (its theory: exclusion, and neither deadlocks nor
    leaks).

    Audit log (audit/chain.go, audit/anchor.go).  AuditChain is the hash chain
    with its real SHA-256 and JSON rendering (AuditChainTheory: verification
    accepts exactly intact tables, concurrent appenders never fork the chain;
    two verified tables with one head hash have one history, or a
    collision is computed from them).  AuditAnchor are the checkpoint sinks
    (AuditAnchorTheory: the file follows the head of the chain; intact checkpoints
    and an intact chain pin the history the checkpoints were taken of).

    Quarantine (quarantine/policy.go, allowlist.go, store.go, lookup.go,
    checker.go, adapter_bridge.go).  QuarantinePolicy resolves the operator's
    configuration, with the durations of Duration and the entries of AllowList;
    QuarantineStore holds publish times, approvals and events; QuarantineCheck
    looks publish times up and takes the decision on a release.  Proved: which
    durations are read exactly, that an accepted configuration is enforced, what
    the allow-list bypasses, that an approval holds for every spelling of a
    release until it is revoked, when exactly a release is refused, that observe
    mode previews block mode, and what a lookup remembers
    (QuarantineStoreTheory, QuarantineTheory and the files of the definitions).

    Upstreams (internal/upstream).  IpAddr and Url are the parts of net/netip, net,
    net/url and path that the guard relies on.  NetGuard is the guard of request.go:
    the scope of an address, the targets and redirects an exchange may follow, the
    path of a request below its origin, and the dialer whose pin is shared by the
    dialing goroutines (NetGuardTheory: whatever the resolver answers, dials stay in
    the scope of the configured origin; a chain of redirects stays confined.
    OriginPathTheory: an accepted path stays at its origin).  DialRace is the race of
    the attempts (no connection is lost).  Upstream is pool.go with the selectors:
    health, latch, recovery, pools built from records (UpstreamTheory: a protocol
    failure is final, recovery is exclusive and not stuck, what the selectors choose,
    what a rebuilt pool keeps, what health says about the traffic).  Transfer is the
    observed body and the resumed artifact (the outcome is reported once; a resumed
    artifact is the artifact; six steps are enough for a read, [read_fuel]).

    Relays (internal/cascade, internal/relay, upstream/peer_egress.go,
    relay_resolution.go, relay_client.go, config/cascade.go, server/cascade.go).
    Http is http.Header with its canonical keys, Cascade the contract of the
    relay headers, Relay both ends of an exchange: the child's peer transport, and
    the parent's ServeHTTP with its plan, origin request, cached or uncached answer
    and configuration (RelayTheory: no instance relays a request twice, credentials
    and private networks stay where the configuration puts them, the freshness
    budget keeps its bounds).

    Cache storage and retention (cache/storagepath.go, local.go, retention.go).
    StoragePath maps keys to object and staging paths and back (StoragePathTheory:
    no two keys share a file, paths are reversible).  Program is the language of
    the concurrent components: a [program] is a tree of atomic steps, waiting
    requests and returns, a pool interleaves programs on one shared state, any
    request may fail with or without its effect, and [safe] with a protocol of rely
    and guarantee is the proof rule for whole pools; [play] runs a given schedule,
    [runs] an undisturbed program.  Retention are the removal passes over rows,
    objects and staging files (RetentionTheory: no object is orphaned, what a pass
    removes, what its report and its preview say).

    Package identities of requests and keys (adapter/packagekey, rules/
    request_target.go, db/cache_kind.go).  PackageKey reads the release an artifact
    path spells, per protocol; KeyIdentity what a cache key stands for (name,
    version, package file, kind); RequestTarget the identity the rules are asked
    about for a request path (its theory: every artifact URL is read as
    the release it spells, every target is one the rules can judge, no PyPI file
    goes without one).

    The cache manager (cache/manager.go, package_invalidation.go,
    response_metadata.go).  ResponseMetadata decides which headers a row keeps,
    writes them into its JSON column and reads them back (its theory: bounds,
    idempotence, round trip).  CacheWorld is the shared state (rows, objects, gate,
    registry, flights, refreshes, upstream, clock) with each call as one step, and
    a history that no step reads; Manager every operation as a program on it.
    ManagerTheory is the protocol of the gate and the registry and the invariant of
    the world, ManagerSafety shows that each operation keeps it, CacheSafety draws
    the conclusion for any pool of goroutines (what a hit pairs and what it never
    serves) and has schedules for the gaps it leaves; ManagerRuns follows undisturbed
    lookups.  No fuel is needed: the programs are finite trees, but for the list
    of entries of a package, and requests wait as long as the world makes them.

    The compile cache (internal/compilecache).  ArtifactKey are the identities of
    artifacts and their object paths; Checksum the bodies a download reads, which
    hold back the end of an object until its checksum is known.  CompileWorld is the
    shared state (table of entries, queue of deletions, objects, key locks, ledger,
    slots) with each call as one step and a history no step reads, CompileCache the
    service as programs on it.  A transaction that fails was rolled back; capacityMu
    is not held over the calls of an eviction, so that more can happen between them
    than in the code; [pages] bounds how many pages of candidates one eviction lists.
    CompileInvariant is what holds between any two steps and what one goroutine may
    rely on, CompileSteps and CompileStore show it for the single steps, CompileTheory
    (eviction and maintenance) and CompileTransfers for the
    operations.  CompileRestart is what happens between a start and the first request
    (the queue, [Reconcile], the limits); CompileRecovery shows what it makes of what a
    dead process left, with a protocol of its own, where the process is alone but for
    the clock and for whoever changes objects.  There is one page more than there are
    rows, and every page but the last has one, so that the pass always ends.
    CompileSafety concludes for any pool of goroutines after any number of processes
    that died while serving or starting (entries and objects, the bounds of the ledger,
    what uploads and downloads tell, what a start repairs).  That a PUT of a remote store may take effect after it reported
    a failure is not modelled.

    ** Not modelled

    The protocol adapters (adapter/) beyond the identity of a path, the registry
    of upstreams with its database rows, the file operations of the storage
    backends, the chunked pump between upstream, client and storage (its outcome is
    what [read_stream] says), the HTTP exchanges themselves, the blocklist and
    snapshot datasets, the bearer credentials of the compile cache, configuration beyond relays and
    quarantine, schema migrations, servers and API handlers, forwarding of audit
    rows, logging and metrics are I/O around the modelled decisions.  Within the
    modelled parts, log lines, the deadlines of contexts, the coalescing of equal
    concurrent lookups (singleflight), hit counts, scans and progress trackers of
    the cache, the parsing of the checkpoint file and the recovery from panics of
    notification hooks are left out. *)

From stdpp Require Export base tactics option list strings.
From Stdlib Require Export ZArith Lia.

Open Scope Z_scope.

(** ** Errors

    A Go error is either a package-level sentinel ([errors.New] held in a
    variable) or the result of [fmt.Errorf]: its format string together with
    the errors wrapped by [%w].  The arguments rendered by [%v], [%q], [%s] and
    [%d] only contribute text that no code of the program inspects, so they are
    dropped. *)
Inductive error :=
  | Sentinel (text : string)
  | Errorf (format : string) (wraps : list error).

(** [errors.Is]: the target sentinel occurs in the chain of wrapped errors. *)
Fixpoint errors_is (e : error) (target : string) : bool :=
  match e with
  | Sentinel t => String.eqb t target
  | Errorf _ ws => existsb (fun w => errors_is w target) ws
  end.

(** The Go result pair [(T, error)] of a function that returns the zero value
    with a non-nil error. *)
Inductive result (A : Type) :=
  | Ok (a : A)
  | Err (e : error).
Arguments Ok {A} a.
Arguments Err {A} e.

#[global] Instance result_ret : MRet result := @Ok.
#[global] Instance result_bind : MBind result :=
  fun A B f m => match m with Ok a => f a | Err e => Err e end.
#[global] Instance result_fmap : FMap result :=
  fun A B f m => match m with Ok a => Ok (f a) | Err e => Err e end.

(** [if err != nil { return ..., fmt.Errorf("...: %w", err) }] *)
Definition wrap {A} (format : string) (m : result A) : result A :=
  match m with Ok a => Ok a | Err e => Err (Errorf format [e]) end.

(** [if err != nil { return ..., fmt.Errorf("%w: ...: %v", sentinel, err) }] *)
Definition recast {A} (format : string) (sentinels : list error) (m : result A) : result A :=
  match m with Ok a => Ok a | Err _ => Err (Errorf format sentinels) end.

(** [fmt.Errorf] without wrapped errors. *)
Definition fail {A} (format : string) : result A := Err (Errorf format []).

(** A validation step: [if cond { return err }] and go on otherwise. *)
Definition reject_if (cond : bool) (format : string) : result unit :=
  if cond then fail format else Ok ().

Definition is_ok {A} (m : result A) : bool :=
  match m with Ok _ => true | Err _ => false end.

Definition is_err {A} (m : result A) : bool := negb (is_ok m).

(** Left-to-right iteration of a validation over a slice: the first failing
    element stops the loop. *)
Fixpoint for_each {A} (f : A -> result unit) (l : list A) : result unit :=
  match l with
  | [] => Ok ()
  | x :: l => f x ≫= fun _ => for_each f l
  end.

(** Left-to-right [make]-and-[append] loop with an early return. *)
Fixpoint map_result {A B} (f : A -> result B) (l : list A) : result (list B) :=
  match l with
  | [] => Ok []
  | x :: l => f x ≫= fun y => map_result f l ≫= fun ys => Ok (y :: ys)
  end.

(** ** Lemmas of the result type *)

Lemma result_bind_ok {A B} (f : A -> result B) m b :
  (m ≫= f) = Ok b <-> exists a, m = Ok a /\ f a = Ok b.
Proof. destruct m; simpl; naive_solver. Qed.

Lemma wrap_ok {A} format (m : result A) a : wrap format m = Ok a <-> m = Ok a.
Proof. destruct m; simpl; naive_solver. Qed.

Lemma recast_ok {A} format ss (m : result A) a : recast format ss m = Ok a <-> m = Ok a.
Proof. destruct m; simpl; naive_solver. Qed.

Lemma reject_if_ok cond format u : reject_if cond format = Ok u <-> cond = false.
Proof. destruct cond, u; simpl; naive_solver. Qed.

Lemma fail_ok {A} format (a : A) : fail format = Ok a <-> False.
Proof. split; [discriminate | done]. Qed.

Lemma is_ok_true {A} (m : result A) : is_ok m = true <-> exists a, m = Ok a.
Proof. destruct m; simpl; naive_solver. Qed.

Lemma is_ok_false {A} (m : result A) : is_ok m = false <-> exists e, m = Err e.
Proof. destruct m; simpl; naive_solver. Qed.

Lemma for_each_ok {A} (f : A -> result unit) l u :
  for_each f l = Ok u <-> Forall (fun x => f x = Ok ()) l.
Proof.
  induction l as [|x l IH]; simpl.
  - destruct u; split; auto.
  - rewrite Forall_cons, <- IH. destruct (f x) as [[]|]; simpl; naive_solver.
Qed.

Lemma map_result_ok {A B} (f : A -> result B) l ys :
  map_result f l = Ok ys <-> Forall2 (fun x y => f x = Ok y) l ys.
Proof.
  revert ys; induction l as [|x l IH]; intros ys; simpl.
  - split; [by intros [= <-] | by intros ->%Forall2_nil_inv_l].
  - rewrite result_bind_ok. split.
    + intros (y & Hy & Hb). apply result_bind_ok in Hb as (ys' & Hys & [= <-]).
      apply IH in Hys. eauto.
    + intros (y & ys' & Hy & Hys & ->)%Forall2_cons_inv_l. apply IH in Hys.
      exists y; split; [done|]. apply result_bind_ok. eauto.
Qed.

(** A loop whose body succeeds exactly on [P] and then returns [g]. *)
Lemma map_result_spec {A B} (f : A -> result B) (P : A -> Prop) (g : A -> B) l ys :
  (forall x y, f x = Ok y <-> P x /\ y = g x) ->
  map_result f l = Ok ys <-> Forall P l /\ ys = g <$> l.
Proof.
  intros Hf. revert ys. induction l as [|x l IH]; intros ys; simpl.
  - split; [by intros [= <-] | by intros [_ ->]].
  - rewrite result_bind_ok, Forall_cons. split.
    + intros (y & [Hx ->]%Hf & Hb). apply result_bind_ok in Hb as (zs & [Hl ->]%IH & [= <-]).
      auto.
    + intros [[Hx Hl] ->]. exists (g x). split; [by apply Hf|].
      apply result_bind_ok. exists (g <$> l). split; [by apply IH | done].
Qed.

Lemma for_each_spec {A} (f : A -> result unit) (P : A -> Prop) l u :
  (forall x, f x = Ok () <-> P x) -> for_each f l = Ok u <-> Forall P l.
Proof.
  intros Hf. rewrite for_each_ok. split;
    intros HF; eapply Forall_impl; try exact HF; intros x; apply Hf.
Qed.

Lemma forallb_Forall {A} (f : A -> bool) (P : A -> Prop) l :
  (forall x, f x = true <-> P x) -> forallb f l = true <-> Forall P l.
Proof.
  intros Hf. rewrite forallb_forall, Forall_forall. setoid_rewrite Hf.
  by setoid_rewrite list_elem_of_In.
Qed.

Lemma Forall_not_elem {A} (P : A -> Prop) c l : Forall P l -> ~ P c -> c ∉ l.
Proof. rewrite Forall_forall. naive_solver. Qed.

(** ** Tactics *)

(** [go_case] destructs the scrutinee of the first match or conditional. *)
Ltac go_case :=
  match goal with
  | |- context [match ?x with _ => _ end] => destruct x eqn:?
  end.

(** [go_inv] inverts a successful run: it splits binds, wrapped calls and
    rejected conditions in the hypotheses until nothing is left to split. *)
Ltac go_inv_step :=
  match goal with
  | H : _ ≫= _ = Ok _ |- _ => apply result_bind_ok in H as (? & ? & ?)
  | H : wrap _ _ = Ok _ |- _ => apply wrap_ok in H
  | H : recast _ _ _ = Ok _ |- _ => apply recast_ok in H
  | H : reject_if _ _ = Ok _ |- _ => apply reject_if_ok in H
  | H : fail _ = Ok _ |- _ => discriminate H
  | H : for_each _ _ = Ok _ |- _ => apply for_each_ok in H
  | H : map_result _ _ = Ok _ |- _ => apply map_result_ok in H
  | H : Err _ = Ok _ |- _ => discriminate H
  | H : Ok _ = Ok _ |- _ => injection H as H
  | H : (if ?c then _ else _) = Ok _ |- _ => destruct c eqn:?
  | H : match ?m with _ => _ end = Ok _ |- _ => destruct m eqn:?
  end.
Ltac go_inv := repeat (go_inv_step; simplify_eq).

(** Split [Forall P [x1; ...; xn]] into its elements. *)
Ltac forall_list := repeat first [apply Forall_nil_2 | apply Forall_cons_2].

(** Split a boolean condition of the code into its atoms. *)
Ltac go_bool :=
  repeat match goal with
  | H : _ && _ = true |- _ => apply andb_true_iff in H as [? ?]
  | H : _ || _ = false |- _ => apply orb_false_iff in H as [? ?]
  | H : _ || _ = true |- _ => apply orb_true_iff in H
  | H : _ && _ = false |- _ => apply andb_false_iff in H
  | H : negb _ = true |- _ => apply negb_true_iff in H
  | H : negb _ = false |- _ => apply negb_false_iff in H
  end.

(** ** Counting list elements

    The number of elements of a list that satisfy a boolean predicate, as an
    integer: the counters of the concurrent components are compared with it. *)

Definition b2z (b : bool) : Z := if b then 1 else 0.

Fixpoint count {A} (p : A -> bool) (l : list A) : Z :=
  match l with [] => 0 | x :: l => b2z (p x) + count p l end.

Lemma count_perm {A} (p : A -> bool) l l' : l ≡ₚ l' -> count p l = count p l'.
Proof. induction 1; simpl; lia. Qed.

Lemma count_nonneg {A} (p : A -> bool) l : 0 <= count p l.
Proof. induction l as [|x l IH]; simpl; [lia|]. unfold b2z. case_match; lia. Qed.

Lemma count_fmap {A B} (f : A -> B) p l : count p (f <$> l) = count (fun x => p (f x)) l.
Proof. induction l as [|x l IH]; [done|]. rewrite fmap_cons. simpl. by rewrite IH. Qed.

Lemma count_in {A} (p : A -> bool) l x : x ∈ l -> p x = true -> 0 < count p l.
Proof.
  induction 1 as [x l|x y l _ IH]; simpl; intros Hp.
  - rewrite Hp. pose proof (count_nonneg p l). simpl. lia.
  - specialize (IH Hp). unfold b2z. case_match; lia.
Qed.

Lemma count_pos {A} (p : A -> bool) l : 0 < count p l -> exists x, x ∈ l /\ p x = true.
Proof.
  induction l as [|x l IH]; simpl; [lia|]. intros Hc. destruct (p x) eqn:E.
  - exists x. split; [by left | done].
  - destruct (IH Hc) as (y & Hy & Hp). exists y. split; [by right | done].
Qed.

Lemma b2z_same {A} `{EqDecision A} (x : A) : b2z (bool_decide (x = x)) = 1.
Proof. by rewrite bool_decide_true. Qed.

Lemma b2z_other {A} `{EqDecision A} (x y : A) : x <> y -> b2z (bool_decide (x = y)) = 0.
Proof. intros. by rewrite bool_decide_false. Qed.

(** One element replaced. *)
Lemma count_insert {A} (p : A -> bool) l i x y :
  l !! i = Some x -> count p (<[i := y]> l) = count p l - b2z (p x) + b2z (p y).
Proof.
  revert i. induction l as [|z l IH]; intros [|i]; simpl; try done.
  - intros [= ->]. lia.
  - intros Hi. rewrite (IH i Hi). lia.
Qed.

Lemma count_app {A} (p : A -> bool) l l' : count p (l ++ l') = count p l + count p l'.
Proof. induction l as [|x l IH]; simpl; lia. Qed.

(** Two different positions count twice. *)
Lemma count_two {A} (p : A -> bool) l i j x y :
  l !! i = Some x -> l !! j = Some y -> i <> j -> p x = true -> p y = true -> 2 <= count p l.
Proof.
  revert i j. induction l as [|z l IH]; intros [|i] [|j]; simpl; try done.
  - intros [= ->] Hj _ Hx Hy. rewrite Hx. apply list_elem_of_lookup_2 in Hj. pose proof (count_in p l y Hj Hy). simpl. lia.
  - intros Hi [= ->] _ Hx Hy. rewrite Hy. apply list_elem_of_lookup_2 in Hi. pose proof (count_in p l x Hi Hx). simpl. lia.
  - intros Hi Hj Hne Hx Hy. assert (i <> j) by congruence.
    pose proof (IH i j Hi Hj ltac:(done) Hx Hy). unfold b2z. case_match; lia.
Qed.
