(* ===== verification/GoStrings.v ===== *)
(** * Go strings

    Model of the parts of Go's [strings], [unicode], [unicode/utf8] and
    [unicode/utf16] packages the source uses.  A Go string is a sequence of
    bytes, here a list of [Z] in [0, 255]; iterating over a string decodes UTF-8
    and replaces every invalid byte by U+FFFD of width one. *)

From S2P Require Export Prelude.
From Stdlib Require Export Ascii.

Abbreviation gostring := (list Z).

(** Bytes and string literals. *)
Definition ch (a : ascii) : Z := Z.of_N (Ascii.N_of_ascii a).
Arguments ch a%_char_scope.

Fixpoint bs (s : string) : gostring :=
  match s with
  | EmptyString => []
  | String a s => ch a :: bs s
  end.
Arguments bs s%_string_scope.

Definition len {A} (s : list A) : Z := Z.of_nat (length s).

Definition str_eqb (s t : gostring) : bool := bool_decide (s = t).

(** The order of Go strings. *)
Fixpoint bytes_le (s t : gostring) : Prop :=
  match s, t with
  | [], _ => True
  | _, [] => False
  | a :: s, b :: t => a < b \/ (a = b /\ bytes_le s t)
  end.
#[global] Instance bytes_le_dec : RelDecision bytes_le.
Proof. intros s. induction s as [|a s IH]; intros [|b t]; cbn [bytes_le]; apply _. Defined.

Definition in_range (lo hi c : Z) : bool := (lo <=? c) && (c <=? hi).

(** ** UTF-8 *)

Definition rune_error : Z := 65533.

(** Size of the encoding a first byte announces, with the range its second
    byte must lie in. *)
Definition utf8_first (b : Z) : option (nat * Z * Z) :=
  if in_range 0xC2 0xDF b then Some (2%nat, 0x80, 0xBF)
  else if b =? 0xE0 then Some (3%nat, 0xA0, 0xBF)
  else if b =? 0xED then Some (3%nat, 0x80, 0x9F)
  else if in_range 0xE1 0xEF b then Some (3%nat, 0x80, 0xBF)
  else if b =? 0xF0 then Some (4%nat, 0x90, 0xBF)
  else if b =? 0xF4 then Some (4%nat, 0x80, 0x8F)
  else if in_range 0xF1 0xF3 b then Some (4%nat, 0x80, 0xBF)
  else None.

Definition low_bits (b : Z) : Z := Z.land b 0x3F.

(** [utf8.DecodeRuneInString] of a non-empty string: the rune and its width;
    an invalid encoding is [(rune_error, 1)]. *)
Definition decode_rune (s : gostring) : Z * nat :=
  match s with
  | [] => (rune_error, 0%nat)
  | b0 :: s1 =>
    if b0 <? 0x80 then (b0, 1%nat) else
    match utf8_first b0, s1 with
    | Some (2%nat, lo, hi), b1 :: _ =>
      if in_range lo hi b1
      then (Z.lor (Z.shiftl (Z.land b0 0x1F) 6) (low_bits b1), 2%nat)
      else (rune_error, 1%nat)
    | Some (3%nat, lo, hi), b1 :: b2 :: _ =>
      if in_range lo hi b1 && in_range 0x80 0xBF b2
      then (Z.lor (Z.shiftl (Z.land b0 0x0F) 12)
                  (Z.lor (Z.shiftl (low_bits b1) 6) (low_bits b2)), 3%nat)
      else (rune_error, 1%nat)
    | Some (4%nat, lo, hi), b1 :: b2 :: b3 :: _ =>
      if in_range lo hi b1 && in_range 0x80 0xBF b2 && in_range 0x80 0xBF b3
      then (Z.lor (Z.shiftl (Z.land b0 0x07) 18)
                  (Z.lor (Z.shiftl (low_bits b1) 12)
                         (Z.lor (Z.shiftl (low_bits b2) 6) (low_bits b3))), 4%nat)
      else (rune_error, 1%nat)
    | _, _ => (rune_error, 1%nat)
    end
  end.

(** The string cut into the bytes of its successive runes.  Every step takes
    at least one byte, so the length of the string is enough fuel. *)
Fixpoint chunks_fuel (fuel : nat) (s : gostring) : list (Z * gostring) :=
  match fuel, s with
  | S fuel, _ :: _ =>
    let '(r, w) := decode_rune s in
    (r, take w s) :: chunks_fuel fuel (drop w s)
  | _, _ => []
  end.

Definition chunks (s : gostring) : list (Z * gostring) := chunks_fuel (length s) s.

(** [for _, r := range s] and [[]rune(s)]. *)
Definition runes (s : gostring) : list Z := (chunks s).*1.

Definition utf8_encode (r : Z) : gostring :=
  let r := if in_range 0 0x10FFFF r && negb (in_range 0xD800 0xDFFF r) then r else rune_error in
  if r <=? 0x7F then [r]
  else if r <=? 0x7FF then
    [Z.lor 0xC0 (Z.shiftr r 6); Z.lor 0x80 (low_bits r)]
  else if r <=? 0xFFFF then
    [Z.lor 0xE0 (Z.shiftr r 12); Z.lor 0x80 (low_bits (Z.shiftr r 6));
     Z.lor 0x80 (low_bits r)]
  else
    [Z.lor 0xF0 (Z.shiftr r 18); Z.lor 0x80 (low_bits (Z.shiftr r 12));
     Z.lor 0x80 (low_bits (Z.shiftr r 6)); Z.lor 0x80 (low_bits r)].

(** [string(runes)] *)
Definition of_runes (rs : list Z) : gostring := concat (utf8_encode <$> rs).

(** [utf16.Encode] *)
Definition utf16_encode (rs : list Z) : list Z :=
  concat ((fun r =>
    if in_range 0 0xFFFF r then
      (if in_range 0xD800 0xDFFF r then [rune_error] else [r])
    else if in_range 0x10000 0x10FFFF r then
      [0xD800 + Z.shiftr (r - 0x10000) 10; 0xDC00 + Z.land (r - 0x10000) 0x3FF]
    else [rune_error]) <$> rs).

(** ** Character classes *)

Definition is_space (r : Z) : bool :=
  in_range 9 13 r || (r =? 32) || (r =? 0x85) || (r =? 0xA0) || (r =? 0x1680)
  || in_range 0x2000 0x200A r || (r =? 0x2028) || (r =? 0x2029) || (r =? 0x202F)
  || (r =? 0x205F) || (r =? 0x3000).

Definition is_control (r : Z) : bool := in_range 0 0x1F r || in_range 0x7F 0x9F r.

(** The Unicode property tables of the [unicode] package outside ASCII.  The
    ASCII half of each property is written out below. *)
Class UnicodeTables := {
  u_lower : Z -> Z;               (* unicode.ToLower *)
  u_letter : Z -> bool;           (* unicode.IsLetter *)
  u_number : Z -> bool;           (* unicode.IsNumber *)
  u_other_alphabetic : Z -> bool; (* unicode.Other_Alphabetic *)
  u_fold : Z -> Z;                (* one rune for all that unicode.SimpleFold connects *)
}.

(** Tables that know nothing above ASCII, for concrete inputs. *)
Definition ascii_tables : UnicodeTables :=
  {| u_lower := fun r => r; u_letter := fun _ => false; u_number := fun _ => false;
     u_other_alphabetic := fun _ => false; u_fold := fun r => r |}.

Definition byte_lower (c : Z) : Z := if in_range 65 90 c then c + 32 else c.

(** ** Operations that look at bytes only *)

Fixpoint has_prefix (s p : gostring) {struct p} : bool :=
  match p, s with
  | [], _ => true
  | b :: p, a :: s => (a =? b) && has_prefix s p
  | _ :: _, [] => false
  end.

Definition has_suffix (s p : gostring) : bool := has_prefix (rev s) (rev p).

Definition trim_suffix (s p : gostring) : gostring :=
  if has_suffix s p then take (length s - length p) s else s.

Definition mem (c : Z) (s : gostring) : bool := existsb (Z.eqb c) s.

(** [strings.IndexByte] and [strings.LastIndexByte]; [None] is [-1]. *)
Fixpoint index_byte (s : gostring) (c : Z) : option nat :=
  match s with
  | [] => None
  | a :: s => if a =? c then Some O else S <$> index_byte s c
  end.

Fixpoint last_index_byte (s : gostring) (c : Z) : option nat :=
  match s with
  | [] => None
  | a :: s =>
    match last_index_byte s c with
    | Some i => Some (S i)
    | None => if a =? c then Some O else None
    end
  end.

Definition count_byte (s : gostring) (c : Z) : nat := length (filter (fun a => a = c) s).

(** [strings.Contains] with a longer needle. *)
Fixpoint contains (s sub : gostring) : bool :=
  has_prefix s sub || match s with [] => false | _ :: s => contains s sub end.

(** [strings.ContainsAny] with ASCII characters. *)
Definition contains_any (s cs : gostring) : bool := existsb (fun a => mem a cs) s.

(** [strings.Split] and [strings.Join] with a one-byte separator. *)
Fixpoint strings_split (s : gostring) (c : Z) : list gostring :=
  match s with
  | [] => [[]]
  | a :: s =>
    if a =? c then [] :: strings_split s c
    else match strings_split s c with
         | x :: xs => (a :: x) :: xs
         | [] => [[a]]
         end
  end.

Fixpoint strings_join (l : list gostring) (c : Z) : gostring :=
  match l with
  | [] => []
  | [x] => x
  | x :: l => x ++ c :: strings_join l c
  end.

(** [strings.Cut] at a one-byte separator: before, after, found. *)
Definition strings_cut (s : gostring) (c : Z) : gostring * gostring * bool :=
  match index_byte s c with
  | Some i => (take i s, drop (S i) s, true)
  | None => (s, [], false)
  end.

(** [strings.TrimLeft(s, "0")] *)
Fixpoint trim_left_zeros (s : gostring) : gostring :=
  match s with
  | c :: s' => if c =? ch "0" then trim_left_zeros s' else s
  | [] => []
  end.

(** [strings.FieldsFunc] on bytes. *)
Fixpoint fields_go (f : Z -> bool) (s cur : gostring) : list gostring :=
  match s with
  | [] => match cur with [] => [] | _ => [rev cur] end
  | a :: s =>
    if f a then match cur with [] => fields_go f s [] | _ => rev cur :: fields_go f s [] end
    else fields_go f s (a :: cur)
  end.
Definition fields_func (f : Z -> bool) (s : gostring) : list gostring := fields_go f s [].

(** ** Operations that decode runes *)

Definition contains_func (f : Z -> bool) (s : gostring) : bool := existsb f (runes s).

Fixpoint drop_space (l : list (Z * gostring)) : list (Z * gostring) :=
  match l with
  | (r, b) :: l' => if is_space r then drop_space l' else l
  | [] => []
  end.

(** [strings.TrimSpace] *)
Definition trim_space (s : gostring) : gostring :=
  concat (rev (drop_space (rev (drop_space (chunks s))))).*2.

Section tables.
Context `{UnicodeTables}.

Definition rune_lower (r : Z) : Z := if r <? 0x80 then byte_lower r else u_lower r.

(** [strings.ToLower] *)
Definition to_lower (s : gostring) : gostring := of_runes (rune_lower <$> runes s).
End tables.

(** [strings.EqualFold].  The only runes above ASCII that simple case folding
    connects to ASCII letters are U+212A (k) and U+017F (s). *)
Definition fold_rune `{UnicodeTables} (r : Z) : Z :=
  if r =? 0x212A then ch "k" else if r =? 0x17F then ch "s" else if r <? 0x80 then byte_lower r else u_fold r.
Definition equal_fold `{UnicodeTables} (s t : gostring) : bool :=
  bool_decide (fold_rune <$> runes s = fold_rune <$> runes t).

(** The check every version parser opens with:
    [value == "" || strings.TrimSpace(value) != value || ContainsFunc(value, IsControl)
     || ContainsFunc(value, IsSpace)]. *)
Definition blank_or_spaced (s : gostring) : bool :=
  str_eqb s [] || negb (str_eqb (trim_space s) s).
Definition has_space_or_control (s : gostring) : bool :=
  contains_func is_control s || contains_func is_space s.

(** ** Lemmas *)

(** Character tests are decided by arithmetic once the literals are numbers. *)
Ltac go_chars :=
  repeat match goal with
  | |- context [ch ?a] => let v := eval vm_compute in (ch a) in change (ch a) with v in *
  | _ : context [ch ?a] |- _ => let v := eval vm_compute in (ch a) in change (ch a) with v in *
  end.

Lemma str_eqb_eq s t : str_eqb s t = true <-> s = t.
Proof. apply bool_decide_eq_true. Qed.

Lemma str_eqb_neq s t : str_eqb s t = false <-> s <> t.
Proof. apply bool_decide_eq_false. Qed.

Lemma str_eqb_refl s : str_eqb s s = true.
Proof. by apply str_eqb_eq. Qed.

Lemma in_range_true lo hi c : in_range lo hi c = true <-> lo <= c <= hi.
Proof. unfold in_range. lia. Qed.

Lemma in_range_false lo hi c : in_range lo hi c = false <-> ~ lo <= c <= hi.
Proof. unfold in_range. lia. Qed.

Lemma mem_elem c s : mem c s = true <-> c ∈ s.
Proof.
  unfold mem. rewrite existsb_exists. split.
  - intros (x & Hx & ->%Z.eqb_eq). by apply list_elem_of_In.
  - intros Hc. exists c. split; [by apply list_elem_of_In | apply Z.eqb_refl].
Qed.

Lemma has_prefix_app s p : has_prefix s p = true <-> exists r, s = p ++ r.
Proof.
  revert s; induction p as [|b p IH]; intros s; simpl.
  - split; [intros _; by exists s | by intros _].
  - destruct s as [|a s]; [split; [done | by intros [r [=]]]|].
    rewrite andb_true_iff, Z.eqb_eq, IH. split.
    + intros [-> [r ->]]. by exists r.
    + intros [r [= -> ->]]. eauto.
Qed.

Lemma has_suffix_app s p : has_suffix s p = true <-> exists r, s = r ++ p.
Proof.
  unfold has_suffix. rewrite has_prefix_app. split; intros [r Hr].
  - exists (rev r). by rewrite <- (rev_involutive s), Hr, rev_app_distr, rev_involutive.
  - exists (rev r). by rewrite Hr, rev_app_distr.
Qed.

Lemma has_suffix_snoc s p : has_suffix (s ++ p) p = true.
Proof. apply has_suffix_app. eauto. Qed.

Lemma trim_suffix_snoc s p : trim_suffix (s ++ p) p = s.
Proof.
  unfold trim_suffix. rewrite has_suffix_snoc, length_app, Nat.add_sub.
  apply take_app_length.
Qed.

Lemma trim_suffix_none s p : has_suffix s p = false -> trim_suffix s p = s.
Proof. unfold trim_suffix. by intros ->. Qed.

Lemma index_byte_Some s c i :
  index_byte s c = Some i -> s = take i s ++ c :: drop (S i) s /\ c ∉ take i s.
Proof.
  revert i; induction s as [|a s IH]; intros i; simpl; [done|].
  destruct (Z.eqb_spec a c) as [->|Hne].
  - intros [= <-]. by split; [|apply not_elem_of_nil].
  - destruct (index_byte s c) as [j|]; simpl; [|done]. intros [= <-].
    destruct (IH j eq_refl) as [Hs Hc]. simpl. split; [by f_equal|].
    apply not_elem_of_cons. auto.
Qed.

Lemma index_byte_None s c : index_byte s c = None <-> c ∉ s.
Proof.
  induction s as [|a s IH]; simpl; [split; [intros _; apply not_elem_of_nil | done]|].
  rewrite not_elem_of_cons. destruct (Z.eqb_spec a c) as [->|Hne]; [naive_solver|].
  rewrite <- IH. destruct (index_byte s c); naive_solver.
Qed.

Lemma index_byte_app s t c :
  c ∉ s -> index_byte (s ++ c :: t) c = Some (length s).
Proof.
  induction s as [|a s IH]; simpl; intros Hc; [by rewrite Z.eqb_refl|].
  apply not_elem_of_cons in Hc as [Hne Hc].
  rewrite (proj2 (Z.eqb_neq a c)) by congruence. by rewrite (IH Hc).
Qed.

Lemma cut_app s t c : c ∉ s -> strings_cut (s ++ c :: t) c = (s, t, true).
Proof.
  intros Hc. unfold strings_cut. rewrite index_byte_app by done.
  rewrite take_app_length. by rewrite drop_app_ge, Nat.sub_succ_l, Nat.sub_diag by lia.
Qed.

Lemma cut_none s c : c ∉ s -> strings_cut s c = (s, [], false).
Proof. intros Hc. unfold strings_cut. by rewrite (proj2 (index_byte_None s c) Hc). Qed.

Lemma cut_true s c before after :
  strings_cut s c = (before, after, true) -> s = before ++ c :: after /\ c ∉ before.
Proof.
  unfold strings_cut. destruct (index_byte s c) as [i|] eqn:E; intros [= <- <-].
  by apply index_byte_Some.
Qed.

Lemma cut_false s c before after :
  strings_cut s c = (before, after, false) -> s = before /\ c ∉ s.
Proof.
  unfold strings_cut. destruct (index_byte s c) as [i|] eqn:E; intros [= <- <-].
  by rewrite <- index_byte_None.
Qed.

Lemma last_index_byte_Some s c i :
  last_index_byte s c = Some i -> s = take i s ++ c :: drop (S i) s /\ c ∉ drop (S i) s.
Proof.
  revert i; induction s as [|a s IH]; intros i; simpl; [done|].
  destruct (last_index_byte s c) as [j|] eqn:E.
  - intros [= <-]. destruct (IH j eq_refl) as [Hs Hc]. split; [simpl; by f_equal | done].
  - destruct (Z.eqb_spec a c) as [->|]; intros [= <-]. simpl. rewrite drop_0.
    split; [done|]. clear IH. induction s as [|b s IHs]; [apply not_elem_of_nil|].
    simpl in E. destruct (last_index_byte s c); [done|].
    destruct (Z.eqb_spec b c); [done|]. apply not_elem_of_cons. auto.
Qed.

Lemma last_index_byte_app s t c :
  c ∉ t -> last_index_byte (s ++ c :: t) c = Some (length s).
Proof.
  intros Hc.
  assert (Ht : last_index_byte t c = None).
  { induction t as [|a t IH]; simpl; [done|].
    apply not_elem_of_cons in Hc as [Hne Hc]. rewrite (IH Hc).
    by rewrite (proj2 (Z.eqb_neq a c)) by congruence. }
  induction s as [|a s IH]; simpl; [by rewrite Ht, Z.eqb_refl | by rewrite IH].
Qed.

Lemma last_index_byte_None s c : last_index_byte s c = None <-> c ∉ s.
Proof.
  induction s as [|a s IH]; simpl; [split; [intros _; apply not_elem_of_nil | done]|].
  rewrite not_elem_of_cons.
  destruct (last_index_byte s c); [naive_solver|].
  destruct (Z.eqb_spec a c) as [->|]; naive_solver.
Qed.

(** Splitting and joining are inverse to each other. *)
Lemma split_nonempty s c : strings_split s c <> [].
Proof. destruct s as [|a s]; simpl; [done|]. by destruct (a =? c), (strings_split s c). Qed.

Lemma join_split s c : strings_join (strings_split s c) c = s.
Proof.
  induction s as [|a s IH]; simpl; [done|].
  pose proof (split_nonempty s c) as Hne.
  destruct (Z.eqb_spec a c) as [->|]; destruct (strings_split s c) as [|x [|y l]]; try done;
    simpl in *; by rewrite <- IH.
Qed.

Lemma split_no_sep s c : c ∉ s -> strings_split s c = [s].
Proof.
  induction s as [|a s IH]; simpl; intros Hc; [done|].
  apply not_elem_of_cons in Hc as [Hne Hc].
  by rewrite (proj2 (Z.eqb_neq a c)), (IH Hc) by congruence.
Qed.

Lemma split_app s t c : c ∉ s -> strings_split (s ++ c :: t) c = s :: strings_split t c.
Proof.
  induction s as [|a s IH]; simpl; intros Hc; [by rewrite Z.eqb_refl|].
  apply not_elem_of_cons in Hc as [Hne Hc].
  by rewrite (proj2 (Z.eqb_neq a c)), (IH Hc) by congruence.
Qed.

Lemma split_join l c :
  l <> [] -> Forall (fun x => c ∉ x) l -> strings_split (strings_join l c) c = l.
Proof.
  intros Hne HF; induction HF as [|x l Hx HF IH]; [done|].
  destruct l as [|y l]; [by apply split_no_sep|].
  change (strings_join (x :: y :: l) c) with (x ++ c :: strings_join (y :: l) c).
  rewrite split_app by done. f_equal. by apply IH.
Qed.

Lemma split_pieces s c : Forall (fun x => c ∉ x) (strings_split s c).
Proof.
  induction s as [|a s IH]; simpl; [repeat constructor; apply not_elem_of_nil|].
  destruct (Z.eqb_spec a c) as [->|Hne].
  - constructor; [apply not_elem_of_nil | done].
  - destruct (strings_split s c) as [|x l].
    + repeat constructor. apply not_elem_of_cons; split; [congruence | apply not_elem_of_nil].
    + apply Forall_cons in IH as [Hx Hl]. constructor; [|done].
      apply not_elem_of_cons. split; [congruence | done].
Qed.

Lemma Forall_strings_join (P : Z -> Prop) l c :
  P c -> Forall (Forall P) l -> Forall P (strings_join l c).
Proof.
  intros Hc HF; induction HF as [|x l Hx HF IH]; simpl; [done|].
  destruct l as [|y l]; [done|]. apply Forall_app. split; [done | by constructor].
Qed.

Lemma Forall_strings_split (P : Z -> Prop) s c : Forall P s -> Forall (Forall P) (strings_split s c).
Proof.
  intros HF; induction HF as [|a s Ha HF IH]; simpl; [by repeat constructor|].
  destruct (a =? c); [by constructor|].
  destruct (strings_split s c) as [|x l]; [by repeat constructor|].
  apply Forall_cons in IH as [Hx Hl]. by repeat constructor.
Qed.

(** ** ASCII strings *)

Definition ascii_byte (c : Z) : Prop := 0 <= c < 0x80.

Lemma chunks_ascii s : Forall ascii_byte s -> chunks s = (fun c => (c, [c])) <$> s.
Proof.
  unfold chunks. intros HF; induction HF as [|c s Hc HF IH]; simpl; [done|].
  rewrite (proj2 (Z.ltb_lt c 0x80)) by (unfold ascii_byte in Hc; lia).
  simpl. f_equal. by rewrite drop_0.
Qed.

Lemma runes_ascii s : Forall ascii_byte s -> runes s = s.
Proof.
  intros HF. unfold runes. rewrite chunks_ascii, <- list_fmap_compose by done.
  apply list_fmap_id.
Qed.

Lemma of_runes_ascii s : Forall ascii_byte s -> of_runes s = s.
Proof.
  unfold of_runes. intros HF; induction HF as [|c s Hc HF IH]; [done|].
  rewrite fmap_cons; simpl. rewrite IH. unfold ascii_byte in Hc.
  replace (utf8_encode c) with [c]; [done|]. unfold utf8_encode, in_range.
  replace ((0 <=? c) && (c <=? 1114111) && negb ((55296 <=? c) && (c <=? 57343))) with true by lia.
  by replace (c <=? 127) with true by lia.
Qed.

Lemma byte_lower_ascii c : ascii_byte c -> ascii_byte (byte_lower c).
Proof. unfold ascii_byte, byte_lower, in_range. case_match; lia. Qed.

Lemma byte_lower_idem c : byte_lower (byte_lower c) = byte_lower c.
Proof. unfold byte_lower, in_range. repeat case_match; lia. Qed.

Lemma to_lower_ascii `{UnicodeTables} s :
  Forall ascii_byte s -> to_lower s = byte_lower <$> s.
Proof.
  intros HF. unfold to_lower. rewrite runes_ascii by done.
  assert (E : rune_lower <$> s = byte_lower <$> s).
  { apply list_fmap_ext. intros i c Hi. unfold rune_lower.
    pose proof (Forall_lookup_1 _ _ _ _ HF Hi) as Hc. unfold ascii_byte in Hc.
    by rewrite (proj2 (Z.ltb_lt c 0x80)) by lia. }
  rewrite E. apply of_runes_ascii, Forall_fmap.
  eapply Forall_impl; [exact HF | apply byte_lower_ascii].
Qed.

Lemma fmap_byte_lower_idem (s : gostring) : byte_lower <$> (byte_lower <$> s) = byte_lower <$> s.
Proof.
  rewrite <- list_fmap_compose. apply list_fmap_ext.
  intros i c _. apply byte_lower_idem.
Qed.

(** A printable ASCII string has no surrounding or inner space and no control
    character. *)
Definition graphic (c : Z) : Prop := 0x21 <= c < 0x7F.

Lemma graphic_ascii s : Forall graphic s -> Forall ascii_byte s.
Proof. intros HF. eapply Forall_impl; [exact HF|]. unfold graphic, ascii_byte. lia. Qed.

Lemma graphic_not_space c : graphic c -> is_space c = false.
Proof. unfold graphic, is_space, in_range. lia. Qed.

Lemma graphic_not_control c : graphic c -> is_control c = false.
Proof. unfold graphic, is_control, in_range. lia. Qed.

Lemma contains_func_graphic f s :
  (forall c, graphic c -> f c = false) -> Forall graphic s -> contains_func f s = false.
Proof.
  intros Hf HF. unfold contains_func. rewrite runes_ascii by by apply graphic_ascii.
  induction HF as [|c s Hc HF IH]; simpl; [done|]. by rewrite Hf, IH.
Qed.

Lemma has_space_or_control_graphic s :
  Forall graphic s -> has_space_or_control s = false.
Proof.
  intros HF. unfold has_space_or_control.
  by rewrite !contains_func_graphic by auto using graphic_not_control, graphic_not_space.
Qed.

Lemma drop_space_graphic l :
  Forall (fun p => graphic p.1) l -> drop_space l = l.
Proof.
  destruct 1 as [|[r b] l Hr HF]; simpl; [done|]. by rewrite graphic_not_space.
Qed.

Lemma trim_space_graphic s : Forall graphic s -> trim_space s = s.
Proof.
  intros HF. unfold trim_space. rewrite chunks_ascii by by apply graphic_ascii.
  assert (HC : Forall (fun p : Z * gostring => graphic p.1) ((fun c => (c, [c])) <$> s)).
  { by apply Forall_fmap. }
  rewrite (drop_space_graphic _ HC), drop_space_graphic, rev_involutive by by apply Forall_rev.
  rewrite <- list_fmap_compose. clear HC.
  induction HF as [|c s Hc HF IH]; [done|]. simpl. by f_equal.
Qed.

Lemma blank_or_spaced_graphic s :
  s <> [] -> Forall graphic s -> blank_or_spaced s = false.
Proof.
  intros Hne HF. unfold blank_or_spaced. rewrite trim_space_graphic by done.
  rewrite str_eqb_refl. simpl. by rewrite (proj2 (str_eqb_neq s []) Hne).
Qed.

(** A string all of whose runes are ASCII is the sequence of its bytes: every
    multi-byte encoding denotes a rune above 0x7F. *)
Lemma Z_le_lor_l a b : 0 <= a -> 0 <= b -> a <= Z.lor a b.
Proof.
  intros Ha Hb. pose proof (Z.add_lor_land a b).
  rewrite <- (Z2N.id a), <- (Z2N.id b), <- N2Z.inj_lor, <- N2Z.inj_land, <- !N2Z.inj_add in * by done.
  pose proof (N.land_le_r (Z.to_N a) (Z.to_N b)). lia.
Qed.

Lemma Z_le_lor_r a b : 0 <= a -> 0 <= b -> b <= Z.lor a b.
Proof. intros. rewrite Z.lor_comm. by apply Z_le_lor_l. Qed.

Lemma shiftl_ge a n k : 0 <= n -> k <= a -> k * 2 ^ n <= Z.shiftl a n.
Proof. intros Hn Ha. rewrite Z.shiftl_mul_pow2 by done. apply Z.mul_le_mono_nonneg_r; lia. Qed.

Lemma low_bits_range b : 0 <= low_bits b < 64.
Proof. unfold low_bits. change 63 with (Z.ones 6). rewrite Z.land_ones by lia. apply Z.mod_pos_bound. lia. Qed.

Lemma land_ones_sub b n lo :
  0 <= n -> lo mod 2 ^ n = 0 -> lo <= b < lo + 2 ^ n -> Z.land b (Z.ones n) = b - lo.
Proof.
  intros Hn Hlo Hb. rewrite Z.land_ones by done.
  rewrite <- (Z.mod_small (b - lo) (2 ^ n)) by lia.
  rewrite Zminus_mod, Hlo, Z.sub_0_r, Z.mod_mod by lia. done.
Qed.

Ltac range_hyps :=
  repeat match goal with
  | H : in_range _ _ _ = false |- _ => apply in_range_false in H
  | H : in_range _ _ _ = true |- _ => apply in_range_true in H
  | H : (_ =? _) = true |- _ => apply Z.eqb_eq in H
  | H : (_ =? _) = false |- _ => apply Z.eqb_neq in H
  | H : _ && _ = true |- _ => apply andb_true_iff in H as [? ?]
  end.

Lemma utf8_first_inv b n lo hi :
  utf8_first b = Some (n, lo, hi) ->
  (n = 2%nat /\ 0xC2 <= b <= 0xDF /\ lo = 0x80 /\ hi = 0xBF)
  \/ (n = 3%nat /\ 0xE0 <= b <= 0xEF /\ 0x80 <= lo /\ hi <= 0xBF /\ (b = 0xE0 -> lo = 0xA0))
  \/ (n = 4%nat /\ 0xF0 <= b <= 0xF4 /\ 0x80 <= lo /\ hi <= 0xBF /\ (b = 0xF0 -> lo = 0x90)).
Proof.
  unfold utf8_first. intros H.
  repeat (case_match; range_hyps; [injection H as <- <- <-; lia |]). done.
Qed.

Lemma shiftl_nonneg_low b n : 0 <= n -> 0 <= Z.shiftl (low_bits b) n.
Proof. intros. apply Z.shiftl_nonneg, low_bits_range. Qed.

Lemma land_nonneg_r b m : 0 <= m -> 0 <= Z.land b m.
Proof. intros. apply Z.land_nonneg. by right. Qed.

Lemma decode_rune_ascii s r w :
  s <> [] -> decode_rune s = (r, w) -> r < 0x80 -> exists s', s = r :: s' /\ w = 1%nat.
Proof.
  intros Hne. destruct s as [|b0 s1]; [done|]. unfold decode_rune.
  destruct (b0 <? 0x80) eqn:E0; [intros [= <- <-] _; by exists s1|].
  apply Z.ltb_ge in E0.
  destruct (utf8_first b0) as [[[n lo] hi]|] eqn:Ef; [|by intros [= <- <-]].
  apply utf8_first_inv in Ef as [(-> & Hb & -> & ->)|[(-> & Hb & Hlo & Hhi & Hz)|(-> & Hb & Hlo & Hhi & Hz)]].
  - destruct s1 as [|b1 s2]; [by intros [= <- <-]|].
    destruct (in_range _ _ b1); [|by intros [= <- <-]]. intros [= <- <-] Hr. exfalso.
    change 31 with (Z.ones 5) in Hr. rewrite (land_ones_sub b0 5 192) in Hr by (done || lia).
    pose proof (shiftl_ge (b0 - 192) 6 2 ltac:(lia) ltac:(lia)). pose proof (low_bits_range b1).
    pose proof (Z_le_lor_l (Z.shiftl (b0 - 192) 6) (low_bits b1)). lia.
  - destruct s1 as [|b1 [|b2 s3]]; [by intros [= <- <-]..|].
    destruct (in_range lo hi b1 && in_range 128 191 b2) eqn:Er; [|by intros [= <- <-]].
    range_hyps. intros [= <- <-] Hr. exfalso.
    change 15 with (Z.ones 4) in Hr. rewrite (land_ones_sub b0 4 224) in Hr by (done || lia).
    pose proof (low_bits_range b2) as L2. pose proof (low_bits_range b1) as L1.
    pose proof (shiftl_nonneg_low b1 6 ltac:(lia)) as N1.
    pose proof (Z_le_lor_l (Z.shiftl (low_bits b1) 6) (low_bits b2)) as G1.
    assert (N0 : 0 <= Z.shiftl (b0 - 224) 12) by (apply Z.shiftl_nonneg; lia).
    pose proof (Z_le_lor_l (Z.shiftl (b0 - 224) 12) (Z.lor (Z.shiftl (low_bits b1) 6) (low_bits b2))).
    pose proof (Z_le_lor_r (Z.shiftl (b0 - 224) 12) (Z.lor (Z.shiftl (low_bits b1) 6) (low_bits b2))).
    destruct (Z.eq_dec b0 224) as [->|Hn].
    + rewrite (Hz eq_refl) in *.
      assert (32 <= low_bits b1).
      { unfold low_bits. change 63 with (Z.ones 6). rewrite (land_ones_sub b1 6 128) by (done || lia). lia. }
      pose proof (shiftl_ge (low_bits b1) 6 32 ltac:(lia) ltac:(lia)). lia.
    + pose proof (shiftl_ge (b0 - 224) 12 1 ltac:(lia) ltac:(lia)). lia.
  - destruct s1 as [|b1 [|b2 [|b3 s4]]]; [by intros [= <- <-]..|].
    destruct (in_range lo hi b1 && in_range 128 191 b2 && in_range 128 191 b3) eqn:Er;
      [|by intros [= <- <-]].
    range_hyps. intros [= <- <-] Hr. exfalso.
    change 7 with (Z.ones 3) in Hr. rewrite (land_ones_sub b0 3 240) in Hr by (done || lia).
    set (rest := Z.lor (Z.shiftl (low_bits b2) 6) (low_bits b3)) in *.
    assert (Nr : 0 <= rest).
    { apply Z.lor_nonneg. split; [by apply shiftl_nonneg_low | apply low_bits_range]. }
    pose proof (shiftl_nonneg_low b1 12 ltac:(lia)) as N1.
    pose proof (Z_le_lor_l (Z.shiftl (low_bits b1) 12) rest) as G1.
    assert (N0 : 0 <= Z.shiftl (b0 - 240) 18) by (apply Z.shiftl_nonneg; lia).
    pose proof (Z_le_lor_l (Z.shiftl (b0 - 240) 18) (Z.lor (Z.shiftl (low_bits b1) 12) rest)).
    pose proof (Z_le_lor_r (Z.shiftl (b0 - 240) 18) (Z.lor (Z.shiftl (low_bits b1) 12) rest)).
    destruct (Z.eq_dec b0 240) as [->|Hn].
    + rewrite (Hz eq_refl) in *.
      assert (16 <= low_bits b1).
      { unfold low_bits. change 63 with (Z.ones 6). rewrite (land_ones_sub b1 6 128) by (done || lia). lia. }
      pose proof (shiftl_ge (low_bits b1) 12 16 ltac:(lia) ltac:(lia)). lia.
    + pose proof (shiftl_ge (b0 - 240) 18 1 ltac:(lia) ltac:(lia)). lia.
Qed.

Lemma runes_all_ascii s : Forall (fun r => r < 0x80) (runes s) -> runes s = s.
Proof.
  unfold runes, chunks. remember (length s) as n eqn:Hn. assert (Hl : (length s <= n)%nat) by lia.
  clear Hn. revert s Hl; induction n as [|n IH]; intros [|b s] Hl HF; try done; [simpl in Hl; lia|].
  cbn [chunks_fuel] in *. destruct (decode_rune (b :: s)) as [r w] eqn:E.
  rewrite fmap_cons in *. apply Forall_cons in HF as [Hr HF].
  destruct (decode_rune_ascii (b :: s) r w ltac:(done) E Hr) as (s' & [= <- <-] & ->).
  change (drop 1 (b :: s)) with s in *. cbn [fst]. f_equal. simpl in Hl. by apply IH; [lia|].
Qed.
