(* ===== verification/Compare.v ===== *)
(** * Three-way comparison

    Go's comparison functions return -1, 0 or 1.  [ThreeWay cmp] states that
    such a function is a total preorder; the instances below cover the ways the
    source composes comparisons: on a key, lexicographically, element by
    element, and element by element with a default for the shorter list. *)

From S2P Require Export Prelude.

(** [signOf] of [internal/packagepolicy/debian.go]. *)
Definition signOf (value : Z) : Z :=
  if value <? 0 then -1 else if value >? 0 then 1 else 0.

(** [if comparison := c1; comparison != 0 { return comparison }; return c2] *)
Definition or_else (c1 c2 : Z) : Z := if c1 =? 0 then c2 else c1.

Class ThreeWay {A} (cmp : A -> A -> Z) : Prop := {
  cmp_range x y : cmp x y = -1 \/ cmp x y = 0 \/ cmp x y = 1;
  cmp_opp x y : cmp y x = - cmp x y;
  cmp_trans x y z : cmp x y <= 0 -> cmp y z <= 0 -> cmp x z <= 0;
}.

(** ** Consequences of the laws *)
Section laws.
Context {A} (cmp : A -> A -> Z) `{!ThreeWay cmp}.

Definition cmp_equiv (x y : A) : Prop := cmp x y = 0.

Lemma cmp_refl x : cmp x x = 0.
Proof. pose proof (cmp_opp x x). lia. Qed.

Lemma cmp_lt_le_trans x y z : cmp x y < 0 -> cmp y z <= 0 -> cmp x z < 0.
Proof.
  intros Hxy Hyz. pose proof (cmp_trans x y z). pose proof (cmp_trans z x y).
  pose proof (cmp_trans y z x). pose proof (cmp_opp x y). pose proof (cmp_opp y z).
  pose proof (cmp_opp x z). destruct (cmp_range x z) as [|[|]]; lia.
Qed.

Lemma cmp_le_lt_trans x y z : cmp x y <= 0 -> cmp y z < 0 -> cmp x z < 0.
Proof.
  intros Hxy Hyz. pose proof (cmp_trans x y z). pose proof (cmp_trans z x y).
  pose proof (cmp_trans y z x). pose proof (cmp_opp x y). pose proof (cmp_opp y z).
  pose proof (cmp_opp x z). destruct (cmp_range x z) as [|[|]]; lia.
Qed.

#[export] Instance cmp_equiv_equivalence : Equivalence cmp_equiv.
Proof.
  unfold cmp_equiv. split.
  - intros x. apply cmp_refl.
  - intros x y Hxy. rewrite cmp_opp. lia.
  - intros x y z Hxy Hyz. pose proof (cmp_trans x y z). pose proof (cmp_trans z y x).
    pose proof (cmp_opp x y). pose proof (cmp_opp y z). pose proof (cmp_opp x z). lia.
Qed.

Lemma cmp_equiv_left x y z : cmp x y = 0 -> cmp x z = cmp y z.
Proof.
  intros Hxy. pose proof (cmp_opp x y) as Hyx.
  pose proof (cmp_lt_le_trans x z y). pose proof (cmp_lt_le_trans y z x).
  pose proof (cmp_le_lt_trans x y z). pose proof (cmp_le_lt_trans y x z).
  pose proof (cmp_le_lt_trans z x y). pose proof (cmp_le_lt_trans z y x).
  pose proof (cmp_lt_le_trans z x y). pose proof (cmp_lt_le_trans z y x).
  pose proof (cmp_opp x z). pose proof (cmp_opp y z).
  destruct (cmp_range x z) as [|[|]], (cmp_range y z) as [|[|]]; lia.
Qed.

(** Equivalent values are indistinguishable by the comparison. *)
#[export] Instance cmp_proper : Proper (cmp_equiv ==> cmp_equiv ==> eq) cmp.
Proof.
  intros x x' Hx y y' Hy. rewrite (cmp_equiv_left x x' y Hx).
  rewrite (cmp_opp y x'), (cmp_opp y' x'). by rewrite (cmp_equiv_left y y' x' Hy).
Qed.

Lemma or_else_range x y d :
  d = -1 \/ d = 0 \/ d = 1 ->
  or_else (cmp x y) d = -1 \/ or_else (cmp x y) d = 0 \/ or_else (cmp x y) d = 1.
Proof. unfold or_else. pose proof (cmp_range x y). case_match; lia. Qed.

Lemma or_else_opp x y d d' :
  d' = - d -> or_else (cmp y x) d' = - or_else (cmp x y) d.
Proof. unfold or_else. rewrite (cmp_opp (cmp := cmp) x y). intros. repeat case_match; lia. Qed.

Lemma or_else_trans x y z d1 d2 d3 :
  (d1 <= 0 -> d2 <= 0 -> d3 <= 0) ->
  or_else (cmp x y) d1 <= 0 -> or_else (cmp y z) d2 <= 0 -> or_else (cmp x z) d3 <= 0.
Proof.
  unfold or_else. intros Hd.
  destruct (Z.eqb_spec (cmp x y) 0) as [Hxy|Hxy].
  - rewrite (cmp_equiv_left x y z Hxy). repeat case_match; auto; lia.
  - intros H3. destruct (Z.eqb_spec (cmp y z) 0) as [Hyz|Hyz]; intros H4;
      (assert (cmp x z < 0) by (apply (cmp_lt_le_trans x y z); lia));
      rewrite (proj2 (Z.eqb_neq _ _)); lia.
Qed.
End laws.

(** Deriving [cmp_range] and [cmp_opp] after a case analysis. *)
Ltac three_way := unfold or_else, signOf in *; repeat case_match; lia.

(** ** Base comparisons *)

Definition cmp_Z (x y : Z) : Z := signOf (x - y).

#[export] Instance cmp_Z_three_way : ThreeWay cmp_Z.
Proof. split; unfold cmp_Z; intros; three_way. Qed.

Lemma signOf_range v : signOf v = -1 \/ signOf v = 0 \/ signOf v = 1.
Proof. three_way. Qed.

Lemma signOf_id v : v = -1 \/ v = 0 \/ v = 1 -> signOf v = v.
Proof. three_way. Qed.

Lemma cmp_Z_eq x y : cmp_Z x y = 0 <-> x = y.
Proof. unfold cmp_Z, signOf. repeat case_match; lia. Qed.

(** ** Combinators *)

Definition cmp_on {A B} (f : A -> B) (cmp : B -> B -> Z) (x y : A) : Z := cmp (f x) (f y).

#[export] Instance cmp_on_three_way {A B} (f : A -> B) cmp :
  ThreeWay cmp -> ThreeWay (cmp_on f cmp).
Proof.
  intros [Hr Ho Ht]. split; unfold cmp_on; [intros; apply Hr | intros; apply Ho | intros x y z; apply Ht].
Qed.

Definition cmp_then {A} (c1 c2 : A -> A -> Z) (x y : A) : Z := or_else (c1 x y) (c2 x y).

#[export] Instance cmp_then_three_way {A} (c1 c2 : A -> A -> Z) :
  ThreeWay c1 -> ThreeWay c2 -> ThreeWay (cmp_then c1 c2).
Proof.
  intros H1 H2. unfold cmp_then. split; intros x y.
  - apply or_else_range, cmp_range; done.
  - apply or_else_opp, cmp_opp; done.
  - intros z. apply or_else_trans, cmp_trans; done.
Qed.

(** Element by element; the shorter list is smaller. *)
Fixpoint cmp_list {A} (cmp : A -> A -> Z) (l r : list A) : Z :=
  match l, r with
  | [], [] => 0
  | [], _ :: _ => -1
  | _ :: _, [] => 1
  | x :: l, y :: r => or_else (cmp x y) (cmp_list cmp l r)
  end.

#[export] Instance cmp_list_three_way {A} (cmp : A -> A -> Z) :
  ThreeWay cmp -> ThreeWay (cmp_list cmp).
Proof.
  intros Hc. split; intros l; induction l as [|x l IH].
  - intros [|y r]; simpl; lia.
  - intros [|y r]; simpl; [lia|]. apply or_else_range, IH; done.
  - intros [|y r]; simpl; lia.
  - intros [|y r]; simpl; [lia|]. apply or_else_opp, IH; done.
  - intros [|y r] [|z s]; simpl; lia.
  - intros [|y r] [|z s]; simpl; try lia. apply or_else_trans, IH; done.
Qed.

(** Element by element; the shorter list continues with [d]. *)
Fixpoint cmp_default {A} (cmp : A -> A -> Z) (d : A) (r : list A) : Z :=
  match r with
  | [] => 0
  | y :: r => or_else (cmp d y) (cmp_default cmp d r)
  end.

Fixpoint cmp_padded {A} (cmp : A -> A -> Z) (d : A) (l r : list A) : Z :=
  match l, r with
  | [], r => cmp_default cmp d r
  | x :: l, [] => or_else (cmp x d) (cmp_padded cmp d l [])
  | x :: l, y :: r => or_else (cmp x y) (cmp_padded cmp d l r)
  end.

Definition pad {A} (d : A) (n : nat) (l : list A) : list A :=
  l ++ replicate (n - length l) d.

Section padded.
Context {A} (cmp : A -> A -> Z) (d : A) `{!ThreeWay cmp}.

Lemma cmp_list_replicate r n :
  (length r <= n)%nat ->
  cmp_list cmp (replicate n d) (pad d n r) = cmp_default cmp d r.
Proof.
  unfold pad. revert n; induction r as [|y r IH]; intros n Hn; simpl.
  - rewrite Nat.sub_0_r. apply cmp_refl, _.
  - destruct n as [|n]; simpl in *; [lia|]. by rewrite IH by lia.
Qed.

Lemma cmp_padded_pad n l r :
  (length l <= n)%nat -> (length r <= n)%nat ->
  cmp_padded cmp d l r = cmp_list cmp (pad d n l) (pad d n r).
Proof.
  revert n r; induction l as [|x l IH]; intros n r Hl Hr.
  - simpl. rewrite <- (cmp_list_replicate r n) by done.
    unfold pad at 2. simpl. by rewrite Nat.sub_0_r.
  - destruct n as [|n]; simpl in Hl; [lia|]. destruct r as [|y r].
    + simpl. rewrite (IH n []) by (simpl; lia). unfold pad; simpl. by rewrite Nat.sub_0_r.
    + simpl in *. by rewrite (IH n r) by lia.
Qed.

#[export] Instance cmp_padded_three_way : ThreeWay (cmp_padded cmp d).
Proof.
  split.
  - intros l r. rewrite (cmp_padded_pad (length l + length r)) by lia. apply cmp_range.
  - intros l r. rewrite !(cmp_padded_pad (length l + length r)) by lia. apply cmp_opp.
  - intros x y z. rewrite !(cmp_padded_pad (length x + length y + length z)) by lia.
    apply cmp_trans.
Qed.
End padded.

(** ** Byte-wise string comparison

    [strings.Compare], also Go's [<] on strings. *)
Definition strings_compare (l r : list Z) : Z := cmp_list cmp_Z l r.

#[export] Instance strings_compare_three_way : ThreeWay strings_compare.
Proof. apply _. Qed.

Lemma strings_compare_eq l r : strings_compare l r = 0 <-> l = r.
Proof.
  unfold strings_compare. revert r; induction l as [|x l IH]; intros [|y r]; simpl; try done.
  unfold or_else. destruct (Z.eqb_spec (cmp_Z x y) 0) as [Hc|Hc].
  - apply cmp_Z_eq in Hc as ->. rewrite IH. naive_solver.
  - split; [done|]. intros [= -> ->]. by destruct Hc; apply cmp_Z_eq.
Qed.

(** ** Absent values

    An empty list after every non-empty one (a release after its prereleases). *)
Definition cmp_nil_last {A} (cmp : list A -> list A -> Z) (l r : list A) : Z :=
  match l, r with
  | [], [] => 0
  | [], _ :: _ => 1
  | _ :: _, [] => -1
  | _, _ => cmp l r
  end.

#[export] Instance cmp_nil_last_three_way {A} (cmp : list A -> list A -> Z) :
  ThreeWay cmp -> ThreeWay (cmp_nil_last cmp).
Proof.
  intros Hc. split.
  - intros [|x l] [|y r]; simpl; try lia. apply Hc.
  - intros [|x l] [|y r]; simpl; try lia. apply Hc.
  - intros [|x l] [|y r] [|z s]; simpl; try lia. apply Hc.
Qed.

(** A two-sorted comparison: the values with [f x = true] first. *)
Definition cmp_split {A} (f : A -> bool) (c1 c2 : A -> A -> Z) (x y : A) : Z :=
  match f x, f y with
  | true, true => c1 x y
  | true, false => -1
  | false, true => 1
  | false, false => c2 x y
  end.

#[export] Instance cmp_split_three_way {A} (f : A -> bool) (c1 c2 : A -> A -> Z) :
  ThreeWay c1 -> ThreeWay c2 -> ThreeWay (cmp_split f c1 c2).
Proof.
  intros H1 H2. unfold cmp_split. split.
  - intros x y. repeat case_match; try lia; first [apply H1 | apply H2].
  - intros x y. repeat case_match; try lia; first [apply H1 | apply H2].
  - intros x y z. repeat case_match; try lia; first [apply H1 | apply H2].
Qed.

(** Comparisons that agree pointwise obey the same laws. *)
Lemma three_way_ext {A} (c1 c2 : A -> A -> Z) :
  (forall x y, c1 x y = c2 x y) -> ThreeWay c2 -> ThreeWay c1.
Proof.
  intros He H2. split; intros; rewrite ?He in *; [apply H2 | apply H2 | by eapply cmp_trans].
Qed.

(** Equality of lists element by element. *)
Lemma cmp_list_eq {A} (cmp : A -> A -> Z) l r :
  cmp_list cmp l r = 0 <-> Forall2 (fun x y => cmp x y = 0) l r.
Proof.
  revert r; induction l as [|x l IH]; intros [|y r]; simpl.
  - split; [constructor | done].
  - split; [done | by intros ?%Forall2_nil_cons_inv].
  - split; [done | by intros ?%Forall2_cons_nil_inv].
  - rewrite Forall2_cons, <- IH. unfold or_else.
    destruct (Z.eqb_spec (cmp x y) 0); naive_solver.
Qed.

Lemma or_else_zero c1 c2 : or_else c1 c2 = 0 <-> c1 = 0 /\ c2 = 0.
Proof. unfold or_else. destruct (Z.eqb_spec c1 0); naive_solver. Qed.

Lemma cmp_nil_last_list_eq {A} (cmp : A -> A -> Z) l r :
  cmp_nil_last (cmp_list cmp) l r = 0 <-> Forall2 (fun x y => cmp x y = 0) l r.
Proof.
  rewrite <- cmp_list_eq. by destruct l, r.
Qed.

(** An absent value before ([missing = -1]) or after ([missing = 1]) the present
    ones. *)
Definition cmp_option {A} (missing : Z) (cmp : A -> A -> Z) (l r : option A) : Z :=
  match l, r with
  | None, None => 0
  | None, Some _ => missing
  | Some _, None => - missing
  | Some x, Some y => cmp x y
  end.

Lemma cmp_option_three_way {A} missing (cmp : A -> A -> Z) :
  missing = 1 \/ missing = -1 -> ThreeWay cmp -> ThreeWay (cmp_option missing cmp).
Proof.
  intros Hm Hc. split.
  - intros [x|] [y|]; simpl; try lia. apply Hc.
  - intros [x|] [y|]; simpl; try lia. apply Hc.
  - intros [x|] [y|] [z|]; simpl; try lia. apply Hc.
Qed.
#[export] Hint Extern 1 (ThreeWay (cmp_option _ _)) =>
  apply cmp_option_three_way; [lia|] : typeclass_instances.
