(* ===== verification/Decimal.v ===== *)
(** * Decimal strings

    The helpers of [internal/packagepolicy] (debian.go, pep440.go, nuget.go,
    cran.go) for ASCII classes and for numbers kept as decimal strings, with the
    number such a string denotes. *)

From S2P Require Export GoStrings Compare.

(** ** Character classes (debian.go, cran.go) *)

Definition isASCIIDigit (character : Z) : bool :=
  (ch "0" <=? character) && (character <=? ch "9").

Definition isASCIIAlpha (character : Z) : bool :=
  (ch "A" <=? character) && (character <=? ch "Z")
  || (ch "a" <=? character) && (character <=? ch "z").

Definition isASCIIAlphanumeric (character : Z) : bool :=
  isASCIIDigit character
  || (ch "A" <=? character) && (character <=? ch "Z")
  || (ch "a" <=? character) && (character <=? ch "z").

Definition isASCIILowercaseAlphanumeric (character : Z) : bool :=
  isASCIIDigit character || (ch "a" <=? character) && (character <=? ch "z").

Definition allASCIIDigits (value : gostring) : bool :=
  if str_eqb value [] then false else forallb isASCIIDigit value.

(** [lowerASCII] of nuget.go. *)
Definition lowerASCII (value : gostring) : gostring := byte_lower <$> value.

(** ** Decimal comparison (debian.go) and normalization (pep440.go) *)

Definition compareDecimal (left right : gostring) : Z :=
  let left := trim_left_zeros left in
  let right := trim_left_zeros right in
  if len left <? len right then -1
  else if len left >? len right then 1
  else signOf (strings_compare left right).

Definition normalizeDecimal (value : gostring) : gostring :=
  let value := trim_left_zeros value in
  if str_eqb value [] then bs "0" else value.

Fixpoint takeDigits (value : gostring) : gostring * gostring :=
  match value with
  | c :: rest =>
    if isASCIIDigit c then let '(ds, rest) := takeDigits rest in (c :: ds, rest)
    else ([], value)
  | [] => ([], [])
  end.

(** ** strconv *)

(** [strconv.ParseUint(s, 10, bits)] *)
Fixpoint dec_value (s : gostring) : Z :=
  match s with
  | [] => 0
  | c :: s => (c - ch "0") * 10 ^ len s + dec_value s
  end.

Definition parse_uint (s : gostring) (bits : Z) : result Z :=
  if negb (allASCIIDigits s) then fail "invalid syntax"
  else if 2 ^ bits <=? dec_value s then fail "value out of range"
  else Ok (dec_value s).

(** [strconv.FormatUint(n, 10)]; every step removes a digit and at least one
    bit, so the bit length of [n] is enough fuel. *)
Fixpoint format_go (fuel : nat) (n : Z) (acc : gostring) : gostring :=
  let acc := (ch "0" + n mod 10) :: acc in
  match fuel with
  | S fuel => if n / 10 =? 0 then acc else format_go fuel (n / 10) acc
  | O => acc
  end.

Definition format_uint (n : Z) : gostring := format_go (Z.to_nat (Z.log2 n)) n [].

(** [strconv.Itoa] *)
Definition format_int (n : Z) : gostring := if n <? 0 then bs "-" ++ format_uint (- n) else format_uint n.

(** [strconv.ParseInt(s, 10, 64)] *)
Definition parse_int (s : gostring) : result Z :=
  let neg := has_prefix s (bs "-") in
  n ← parse_uint (if neg || has_prefix s (bs "+") then drop 1 s else s) 64;
  if negb neg && (2 ^ 63 <=? n) then fail "value out of range"
  else if neg && (2 ^ 63 <? n) then fail "value out of range"
  else Ok (if neg then - n else n).

(** ** Lemmas *)

Definition digit (c : Z) : Prop := 48 <= c <= 57.
Abbreviation digits s := (Forall digit s).

Ltac byte_tac :=
  unfold isASCIILowercaseAlphanumeric, isASCIIAlphanumeric, isASCIIAlpha, isASCIIDigit,
    digit, graphic, ascii_byte, byte_lower, in_range in *; go_chars; lia.

Ltac digits_tac := repeat constructor; unfold digit in *; go_chars; try lia.

Lemma isASCIIDigit_true c : isASCIIDigit c = true <-> digit c.
Proof. split; byte_tac. Qed.

Lemma isASCIIDigit_false c : isASCIIDigit c = false <-> ~ digit c.
Proof. split; byte_tac. Qed.

Lemma forallb_digits s : forallb isASCIIDigit s = true <-> digits s.
Proof.
  rewrite forallb_forall, Forall_forall. setoid_rewrite isASCIIDigit_true.
  by setoid_rewrite list_elem_of_In.
Qed.

Lemma allASCIIDigits_true s : allASCIIDigits s = true <-> s <> [] /\ digits s.
Proof.
  unfold allASCIIDigits. rewrite <- forallb_digits. destruct (str_eqb s []) eqn:E.
  - apply str_eqb_eq in E as ->. naive_solver.
  - apply str_eqb_neq in E. naive_solver.
Qed.

Lemma len_nonneg {A} (s : list A) : 0 <= len s.
Proof. unfold len. lia. Qed.

Lemma len_cons {A} (c : A) s : len (c :: s) = len s + 1.
Proof. unfold len. simpl. lia. Qed.

Lemma len_app {A} (s t : list A) : len (s ++ t) = len s + len t.
Proof. unfold len. rewrite length_app. lia. Qed.

Lemma trim_left_zeros_spec s :
  exists n, s = replicate n 48 ++ trim_left_zeros s.
Proof.
  induction s as [|c s [n IH]]; simpl; [by exists O|]. go_chars.
  destruct (Z.eqb_spec c 48) as [->|]; [|by exists O]. exists (S n). simpl. by f_equal.
Qed.

Lemma trim_left_zeros_head s c r : trim_left_zeros s = c :: r -> c <> 48.
Proof.
  induction s as [|a s IH]; simpl; [done|]. go_chars.
  destruct (Z.eqb_spec a 48) as [->|]; [done | by intros [= -> ->]].
Qed.

Lemma trim_left_zeros_idem s : trim_left_zeros (trim_left_zeros s) = trim_left_zeros s.
Proof.
  destruct (trim_left_zeros s) as [|c r] eqn:E; [done|].
  apply trim_left_zeros_head in E. simpl. go_chars.
  by rewrite (proj2 (Z.eqb_neq c 48)).
Qed.

Lemma trim_left_zeros_digits s : digits s -> digits (trim_left_zeros s).
Proof.
  intros HF. destruct (trim_left_zeros_spec s) as [n Hn]. rewrite Hn in HF.
  by apply Forall_app in HF as [_ ?].
Qed.

Lemma dec_value_zeros n s : dec_value (replicate n 48 ++ s) = dec_value s.
Proof. induction n as [|n IH]; simpl; [done|]. go_chars. lia. Qed.

Lemma dec_value_trim s : dec_value (trim_left_zeros s) = dec_value s.
Proof.
  destruct (trim_left_zeros_spec s) as [n Hn]. rewrite Hn at 2. by rewrite dec_value_zeros.
Qed.

Lemma pow10_pos {A} (s : list A) : 0 < 10 ^ len s.
Proof. apply Z.pow_pos_nonneg; [lia | apply len_nonneg]. Qed.

Lemma dec_value_bound s : digits s -> 0 <= dec_value s < 10 ^ len s.
Proof.
  intros HF; induction HF as [|c s Hc HF IH]; simpl; [split; done|].
  rewrite len_cons, Z.pow_add_r, Z.pow_1_r by (pose proof (len_nonneg s); lia).
  unfold digit in Hc. go_chars. nia.
Qed.

Lemma dec_value_lower c s : digits (c :: s) -> c <> 48 -> 10 ^ len s <= dec_value (c :: s).
Proof.
  intros [Hc HF]%Forall_cons Hne. simpl. apply dec_value_bound in HF.
  pose proof (pow10_pos s). unfold digit in Hc. go_chars. nia.
Qed.

Lemma dec_value_app s t : dec_value (s ++ t) = dec_value s * 10 ^ len t + dec_value t.
Proof.
  induction s as [|c s IH]; simpl; [lia|]. rewrite IH, len_app.
  rewrite Z.pow_add_r by apply len_nonneg. lia.
Qed.

Lemma dec_value_single c : dec_value [c] = c - 48.
Proof. simpl. go_chars. change (len (@nil Z)) with 0. lia. Qed.

(** Strings of digits of equal length compare as numbers. *)
Lemma strings_compare_value s t :
  digits s -> digits t -> len s = len t ->
  strings_compare s t = cmp_Z (dec_value s) (dec_value t).
Proof.
  unfold strings_compare. intros Hs; revert t; induction Hs as [|c s Hc Hs IH];
    intros t Ht Hlen; destruct Ht as [|d t Hd Ht]; try done.
  rewrite !len_cons in Hlen. simpl. rewrite (IH t Ht) by lia.
  apply dec_value_bound in Hs. apply dec_value_bound in Ht.
  replace (len t) with (len s) in * by lia. unfold digit in *. go_chars.
  unfold or_else, cmp_Z. pose proof (pow10_pos s).
  destruct (Z.lt_trichotomy c d) as [Hcd|[->|Hcd]].
  - replace (signOf (c - d)) with (-1) by three_way. simpl.
    unfold signOf. rewrite (proj2 (Z.ltb_lt _ _)); [done | nia].
  - rewrite Z.sub_diag. simpl. f_equal. lia.
  - replace (signOf (c - d)) with 1 by three_way. simpl. unfold signOf.
    rewrite (proj2 (Z.ltb_ge _ _)) by nia. rewrite (proj2 (Z.gtb_lt _ _)); [done | nia].
Qed.

(** [compareDecimal] is a total preorder on all strings: it compares the length
    and then the bytes of the string without leading zeros. *)
Definition decimal_key_cmp : gostring -> gostring -> Z :=
  cmp_on trim_left_zeros (cmp_then (cmp_on len cmp_Z) strings_compare).

Lemma compareDecimal_key l r : compareDecimal l r = decimal_key_cmp l r.
Proof.
  unfold compareDecimal, decimal_key_cmp, cmp_on, cmp_then, or_else.
  rewrite (signOf_id (strings_compare _ _)) by apply cmp_range.
  unfold cmp_Z, signOf. repeat case_match; lia.
Qed.

#[export] Instance compareDecimal_three_way : ThreeWay compareDecimal.
Proof.
  assert (H : ThreeWay decimal_key_cmp) by apply _.
  split; intros; rewrite ?compareDecimal_key in *; [apply cmp_range | apply cmp_opp | by eapply cmp_trans].
Qed.

(** On strings of digits it is the comparison of the numbers. *)
Lemma compareDecimal_value s t :
  digits s -> digits t -> compareDecimal s t = cmp_Z (dec_value s) (dec_value t).
Proof.
  intros Hs Ht. rewrite <- (dec_value_trim s), <- (dec_value_trim t).
  apply trim_left_zeros_digits in Hs. apply trim_left_zeros_digits in Ht.
  unfold compareDecimal.
  destruct (trim_left_zeros s) as [|c s'] eqn:Es, (trim_left_zeros t) as [|d t'] eqn:Et; [done|..].
  - pose proof (dec_value_lower d t' Ht (trim_left_zeros_head _ _ _ Et)).
    pose proof (pow10_pos t'). pose proof (len_nonneg t').
    rewrite len_cons. change (len (@nil Z)) with 0. change (dec_value []) with 0.
    unfold cmp_Z. three_way.
  - pose proof (dec_value_lower c s' Hs (trim_left_zeros_head _ _ _ Es)).
    pose proof (pow10_pos s'). pose proof (len_nonneg s').
    rewrite len_cons. change (len (@nil Z)) with 0. change (dec_value []) with 0.
    unfold cmp_Z. three_way.
  - pose proof (dec_value_bound _ Hs) as [_ Bs]. pose proof (dec_value_bound _ Ht) as [_ Bt].
    pose proof (dec_value_lower c s' Hs (trim_left_zeros_head _ _ _ Es)) as Ls.
    pose proof (dec_value_lower d t' Ht (trim_left_zeros_head _ _ _ Et)) as Lt.
    destruct (Z.ltb_spec (len (c :: s')) (len (d :: t'))) as [Hlt|Hge].
    + assert (10 ^ len (c :: s') <= 10 ^ len t').
      { apply Z.pow_le_mono_r; [lia|]. rewrite !len_cons in *. lia. }
      unfold cmp_Z. three_way.
    + destruct (Z.gtb_spec (len (c :: s')) (len (d :: t'))) as [Hgt|Hle].
      * assert (10 ^ len (d :: t') <= 10 ^ len s').
        { apply Z.pow_le_mono_r; [lia|]. rewrite !len_cons in *. lia. }
        unfold cmp_Z. three_way.
      * rewrite strings_compare_value by (done || lia). apply signOf_id, cmp_range.
Qed.

(** ** Normalized decimals *)

(** What [normalizeDecimal] produces: no leading zero except in ["0"]. *)
Definition canonical_decimal (s : gostring) : Prop := digits s /\ normalizeDecimal s = s.

Lemma normalizeDecimal_cases s :
  (trim_left_zeros s = [] /\ normalizeDecimal s = [48])
  \/ (trim_left_zeros s <> [] /\ normalizeDecimal s = trim_left_zeros s).
Proof.
  unfold normalizeDecimal. destruct (str_eqb (trim_left_zeros s) []) eqn:E.
  - apply str_eqb_eq in E. by left.
  - apply str_eqb_neq in E. by right.
Qed.

Lemma normalizeDecimal_trim s :
  trim_left_zeros (normalizeDecimal s) = trim_left_zeros s.
Proof.
  destruct (normalizeDecimal_cases s) as [[E ->]|[_ ->]]; [by rewrite E | apply trim_left_zeros_idem].
Qed.

Lemma normalizeDecimal_idem s : normalizeDecimal (normalizeDecimal s) = normalizeDecimal s.
Proof. unfold normalizeDecimal at 1 3. by rewrite normalizeDecimal_trim. Qed.

Lemma normalizeDecimal_nonempty s : normalizeDecimal s <> [].
Proof. by destruct (normalizeDecimal_cases s) as [[_ ->]|[? ->]]. Qed.

Lemma normalizeDecimal_digits s : digits s -> digits (normalizeDecimal s).
Proof.
  intros Hs. destruct (normalizeDecimal_cases s) as [[_ ->]|[_ ->]].
  - digits_tac.
  - by apply trim_left_zeros_digits.
Qed.

Lemma normalizeDecimal_canonical s : digits s -> canonical_decimal (normalizeDecimal s).
Proof. split; [by apply normalizeDecimal_digits | apply normalizeDecimal_idem]. Qed.

Lemma normalizeDecimal_value s : dec_value (normalizeDecimal s) = dec_value s.
Proof. by rewrite <- dec_value_trim, normalizeDecimal_trim, dec_value_trim. Qed.

Lemma compareDecimal_eq s t :
  compareDecimal s t = 0 <-> normalizeDecimal s = normalizeDecimal t.
Proof.
  rewrite compareDecimal_key. unfold decimal_key_cmp, cmp_on, cmp_then, or_else. split.
  - destruct (Z.eqb_spec (cmp_Z (len (trim_left_zeros s)) (len (trim_left_zeros t))) 0); [|done].
    intros Hc%strings_compare_eq. unfold normalizeDecimal. by rewrite Hc.
  - intros Hn. rewrite <- (normalizeDecimal_trim s), Hn, normalizeDecimal_trim.
    by rewrite (cmp_refl strings_compare), (cmp_refl cmp_Z).
Qed.

Lemma compareDecimal_normalize s : compareDecimal (normalizeDecimal s) s = 0.
Proof. apply compareDecimal_eq, normalizeDecimal_idem. Qed.

Lemma canonical_decimal_inj s t :
  canonical_decimal s -> canonical_decimal t -> dec_value s = dec_value t -> s = t.
Proof.
  intros [Hs Es] [Ht Et] Hv. rewrite <- Es, <- Et. apply compareDecimal_eq.
  rewrite compareDecimal_value, Hv by done. by apply cmp_Z_eq.
Qed.

Lemma canonical_decimal_nonempty s : canonical_decimal s -> s <> [].
Proof. intros [_ <-]. apply normalizeDecimal_nonempty. Qed.

(** The condition the parsers test: digits and no superfluous leading zero. *)
Lemma canonical_decimal_intro c s :
  digits (c :: s) -> (0 < length s)%nat -> c <> 48 -> canonical_decimal (c :: s).
Proof.
  intros Hs Hl Hc. split; [done|]. unfold normalizeDecimal. simpl. go_chars.
  by rewrite (proj2 (Z.eqb_neq c 48)).
Qed.

Lemma canonical_decimal_single c : digit c -> canonical_decimal [c].
Proof.
  intros Hc. split; [by apply Forall_singleton|]. unfold normalizeDecimal. simpl. go_chars.
  destruct (Z.eqb_spec c 48) as [->|]; done.
Qed.

(** ** [strconv] round trips *)

Lemma format_go_spec fuel n acc :
  0 <= n -> Z.log2 n <= Z.of_nat fuel ->
  exists d, format_go fuel n acc = d ++ acc /\ canonical_decimal d /\ dec_value d = n.
Proof.
  revert n acc; induction fuel as [|fuel IH]; intros n acc Hn Hf; simpl; go_chars;
    assert (Hd : digit (48 + n mod 10)) by (unfold digit; pose proof (Z.mod_pos_bound n 10); lia).
  - exists [48 + n mod 10]. repeat split; [by apply canonical_decimal_single..|].
    rewrite dec_value_single. destruct (Z.eq_dec n 0) as [->|]; [done|].
    pose proof (Z.log2_null n) as [H0 _]. pose proof (Z.log2_nonneg n).
    rewrite Z.mod_small; lia.
  - destruct (Z.eqb_spec (n / 10) 0) as [H0|H0].
    + exists [48 + n mod 10]. repeat split; [by apply canonical_decimal_single..|].
      rewrite dec_value_single. pose proof (Z.div_mod n 10). lia.
    + assert (Hp : 0 < n / 10) by (pose proof (Z.div_pos n 10); lia).
      assert (Hl : Z.log2 (n / 10) <= Z.of_nat fuel).
      { assert (n / 10 <= n / 2) by (apply Z.div_le_compat_l; lia).
        assert (Z.log2 (n / 10) <= Z.log2 (n / 2)) by (by apply Z.log2_le_mono).
        assert (Z.log2 (n / 2) = Z.max 0 (Z.log2 n - 1)).
        { rewrite <- Z.log2_shiftr; [by rewrite Z.shiftr_div_pow2|].
          pose proof (Z.div_small n 10). lia. }
        lia. }
      destruct (IH (n / 10) ((48 + n mod 10) :: acc)) as (d & -> & [Hds Hdn] & Hv); [lia..|].
      exists (d ++ [48 + n mod 10]). rewrite <- app_assoc. split; [done|]. split.
      * destruct d as [|c d]; [done|].
        simpl. apply canonical_decimal_intro.
        -- change (digits ((c :: d) ++ [48 + n mod 10])).
           apply Forall_app. by rewrite Forall_singleton.
        -- rewrite length_app. simpl. lia.
        -- intros ->. unfold normalizeDecimal in Hdn. simpl in Hdn.
           destruct (trim_left_zeros_spec d) as [k Hk].
           destruct (str_eqb (trim_left_zeros d) []) eqn:E.
           ++ injection Hdn as <-. change (dec_value [48]) with 0 in Hv. lia.
           ++ apply (f_equal length) in Hdn. apply (f_equal length) in Hk.
              rewrite length_app in Hk. simpl in Hdn. lia.
      * rewrite dec_value_app, Hv, dec_value_single. change (len [_]) with 1.
        pose proof (Z.div_mod n 10). lia.
Qed.

Lemma format_uint_spec n :
  0 <= n -> canonical_decimal (format_uint n) /\ dec_value (format_uint n) = n.
Proof.
  intros Hn. unfold format_uint.
  destruct (format_go_spec (Z.to_nat (Z.log2 n)) n []) as (d & -> & Hd & Hv); [done| |].
  - pose proof (Z.log2_nonneg n). lia.
  - by rewrite app_nil_r.
Qed.

Lemma format_dec_value s : canonical_decimal s -> format_uint (dec_value s) = s.
Proof.
  intros Hs. pose proof (dec_value_bound s (proj1 Hs)) as [Hv _].
  destruct (format_uint_spec _ Hv) as [Hc He]. by apply canonical_decimal_inj.
Qed.

Lemma parse_format n bits : 0 <= n < 2 ^ bits -> parse_uint (format_uint n) bits = Ok n.
Proof.
  intros Hn. destruct (format_uint_spec n) as [Hc Hv]; [lia|]. unfold parse_uint.
  rewrite (proj2 (allASCIIDigits_true _)), Hv.
  - simpl. by rewrite (proj2 (Z.leb_gt _ _)) by lia.
  - split; [by apply canonical_decimal_nonempty | apply Hc].
Qed.

Lemma parse_int_format n : 0 <= n < 2 ^ 63 -> parse_int (format_uint n) = Ok n.
Proof.
  intros Hn. pose proof (format_uint_spec n (proj1 Hn)) as [[Hd _] _].
  assert (forall c, c < 48 -> has_prefix (format_uint n) [c] = false) as Hp.
  { intros c Hc. destruct (format_uint n) as [|d s]; [done|]. apply Forall_cons in Hd as [Hd _]. unfold digit in Hd.
    simpl. by destruct (Z.eqb_spec d c); [lia|]. }
  unfold parse_int. change (bs "-") with [45]. change (bs "+") with [43]. rewrite !Hp by lia. cbn [orb negb andb].
  rewrite parse_format by lia. cbn [mbind result_bind]. destruct (Z.leb_spec (2 ^ 63) n); [lia|done].
Qed.

Lemma parse_uint_ok s bits n :
  parse_uint s bits = Ok n <-> s <> [] /\ digits s /\ dec_value s = n /\ n < 2 ^ bits.
Proof.
  unfold parse_uint. destruct (allASCIIDigits s) eqn:E; simpl.
  - apply allASCIIDigits_true in E as [? ?]. destruct (Z.leb_spec (2 ^ bits) (dec_value s)); split.
    + done.
    + intros (_ & _ & <- & ?). lia.
    + intros [= <-]. auto.
    + intros (_ & _ & <- & _). done.
  - split; [done|]. intros (? & ? & _). by rewrite (proj2 (allASCIIDigits_true s)) in E.
Qed.

(** ** [takeDigits] *)

Lemma takeDigits_spec s ds rest :
  takeDigits s = (ds, rest) ->
  s = ds ++ rest /\ digits ds /\ match rest with c :: _ => ~ digit c | [] => True end.
Proof.
  revert ds rest; induction s as [|c s IH]; intros ds rest; simpl.
  - intros [= <- <-]. repeat split; constructor.
  - destruct (isASCIIDigit c) eqn:E.
    + destruct (takeDigits s) as [ds' rest'] eqn:Et. intros [= <- <-].
      destruct (IH _ _ eq_refl) as (-> & Hds & Hr). apply isASCIIDigit_true in E.
      repeat split; [by constructor | done].
    + intros [= <- <-]. apply isASCIIDigit_false in E. repeat split; [constructor | done].
Qed.

(** [part[0] == '0'] of a part known to be non-empty. *)
Definition starts_with_zero (part : gostring) : bool :=
  match part with c :: _ => c =? ch "0" | [] => false end.

Lemma canonical_no_leading_zero p :
  p <> [] -> digits p ->
  (1 <? len p) && starts_with_zero p = false <-> canonical_decimal p.
Proof.
  intros Hne Hp. destruct p as [|c p]; [done|]. simpl. rewrite len_cons. go_chars.
  destruct p as [|d p].
  - split; [|done]. intros _. apply canonical_decimal_single. by apply Forall_cons in Hp as [? _].
  - rewrite len_cons. pose proof (len_nonneg p). rewrite (proj2 (Z.ltb_lt _ _)) by lia. simpl.
    rewrite Z.eqb_neq. split.
    + intros Hc. apply canonical_decimal_intro; [done | simpl; lia | done].
    + intros [_ Hn] ->. unfold normalizeDecimal in Hn.
      destruct (trim_left_zeros_spec (d :: p)) as [k Hk].
      change (trim_left_zeros (48 :: d :: p)) with (trim_left_zeros (d :: p)) in Hn.
      apply (f_equal length) in Hk, Hn. rewrite length_app in Hk.
      destruct (str_eqb (trim_left_zeros (d :: p)) []); simpl in *; lia.
Qed.

Lemma canonical_compare_eq s t :
  canonical_decimal s -> canonical_decimal t -> compareDecimal s t = 0 <-> s = t.
Proof. intros [_ Hs] [_ Ht]. by rewrite compareDecimal_eq, Hs, Ht. Qed.
