(* ===== verification/SemVer.v ===== *)
(** * Strict Semantic Versions (internal/packagepolicy/semver.go)

    Parser and precedence of the SemVer dialects (npm, cargo), with the grammar
    they accept. *)

From S2P Require Export Decimal.

Record semverIdentifier := {
  id_value : gostring;
  id_numeric : bool;
}.

Record strictSemVer := {
  sv_raw : gostring;
  sv_core : gostring * gostring * gostring;
  sv_prerelease : list semverIdentifier;
}.

Definition parseSemVerIdentifier (rejectNumericLeadingZero : bool) (part : gostring)
    : result semverIdentifier :=
  if str_eqb part [] then fail "identifier is empty" else
  if negb (forallb (fun c => isASCIIAlphanumeric c || (c =? ch "-")) part)
  then fail "identifier %q contains invalid character %q" else
  let numeric := forallb isASCIIDigit part in
  if rejectNumericLeadingZero && numeric && (1 <? len part) && starts_with_zero part
  then fail "numeric identifier %q has a leading zero" else
  Ok {| id_value := part; id_numeric := numeric |}.

Definition parseSemVerIdentifiers (value : gostring) (rejectNumericLeadingZero : bool)
    : result (list semverIdentifier) :=
  if str_eqb value [] then fail "identifier list is empty" else
  map_result (parseSemVerIdentifier rejectNumericLeadingZero) (strings_split value (ch ".")).

Definition checkSemVerCore (coreMax part : gostring) : result gostring :=
  if negb (allASCIIDigits part) || (1 <? len part) && starts_with_zero part
  then fail "invalid SemVer release component %q" else
  if compareDecimal part coreMax >? 0
  then fail "%s SemVer release component %q exceeds %s" else
  Ok part.

(** The build metadata: everything after the first ['+'] is checked and
    dropped. *)
Definition semverPublic (value : gostring) : result gostring :=
  match index_byte value (ch "+") with
  | None => Ok value
  | Some plus =>
    let metadata := drop (S plus) value in
    if mem (ch "+") metadata then fail "invalid SemVer build metadata" else
    _ ← wrap "invalid SemVer build metadata: %w" (parseSemVerIdentifiers metadata false);
    Ok (take plus value)
  end.

(** The prerelease: everything after the first ['-'] of the public part. *)
Definition semverPrerelease (public : gostring) : result (gostring * list semverIdentifier) :=
  match index_byte public (ch "-") with
  | None => Ok (public, [])
  | Some dash =>
    prerelease ← wrap "invalid SemVer prerelease: %w"
                   (parseSemVerIdentifiers (drop (S dash) public) true);
    Ok (take dash public, prerelease)
  end.

Definition parseStrictSemVer (value coreMax : gostring) : result strictSemVer :=
  if blank_or_spaced value
  then fail "SemVer must be non-empty and contain no surrounding whitespace" else
  public ← semverPublic value;
  '(coreText, prerelease) ← semverPrerelease public;
  match strings_split coreText (ch ".") with
  | [p0; p1; p2] =>
    major ← checkSemVerCore coreMax p0;
    minor ← checkSemVerCore coreMax p1;
    patch ← checkSemVerCore coreMax p2;
    Ok {| sv_raw := value; sv_core := (major, minor, patch); sv_prerelease := prerelease |}
  | _ => fail "SemVer release must contain major.minor.patch"
  end.

Definition semverCanonical (version : strictSemVer) : gostring := sv_raw version.

Definition compareCore (version other : strictSemVer) : Z :=
  let '(a0, a1, a2) := sv_core version in
  let '(b0, b1, b2) := sv_core other in
  or_else (compareDecimal a0 b0) (or_else (compareDecimal a1 b1) (compareDecimal a2 b2)).

Definition compareIdentifiers (left right : semverIdentifier) : Z :=
  match id_numeric left, id_numeric right with
  | true, true => compareDecimal (id_value left) (id_value right)
  | true, false => -1
  | false, true => 1
  | false, false => signOf (strings_compare (id_value left) (id_value right))
  end.

Fixpoint comparePrereleases (left right : list semverIdentifier) : Z :=
  match left, right with
  | x :: l, y :: r => or_else (compareIdentifiers x y) (comparePrereleases l r)
  | l, r => signOf (len l - len r)
  end.

Definition semverCompare (version other : strictSemVer) : Z :=
  or_else (compareCore version other)
    (match sv_prerelease version, sv_prerelease other with
     | [], [] => 0
     | [], _ :: _ => 1
     | _ :: _, [] => -1
     | l, r => comparePrereleases l r
     end).

Definition hasPrerelease (version : strictSemVer) : bool :=
  negb (len (sv_prerelease version) =? 0).

(** ** The grammar the parser accepts *)

Record semver_ast := {
  ast_major : gostring;
  ast_minor : gostring;
  ast_patch : gostring;
  ast_prerelease : list gostring;
  ast_build : list gostring;
}.

(** ['-'] or ['+'] and a dot-separated list, or nothing. *)
Definition render_list (mark : Z) (ids : list gostring) : gostring :=
  match ids with [] => [] | _ => mark :: strings_join ids (ch ".") end.

Definition render_public (a : semver_ast) : gostring :=
  strings_join [ast_major a; ast_minor a; ast_patch a] (ch ".")
  ++ render_list (ch "-") (ast_prerelease a).

Definition render (a : semver_ast) : gostring :=
  render_public a ++ render_list (ch "+") (ast_build a).

Definition id_char (c : Z) : Prop := isASCIIAlphanumeric c = true \/ c = 45.
Definition semver_id (s : gostring) : Prop := s <> [] /\ Forall id_char s.
Definition semver_core_ok (coreMax s : gostring) : Prop :=
  canonical_decimal s /\ compareDecimal s coreMax <= 0.

Record semver_valid (coreMax : gostring) (a : semver_ast) : Prop := {
  valid_major : semver_core_ok coreMax (ast_major a);
  valid_minor : semver_core_ok coreMax (ast_minor a);
  valid_patch : semver_core_ok coreMax (ast_patch a);
  valid_prerelease :
    Forall (fun s => semver_id s /\ (digits s -> canonical_decimal s)) (ast_prerelease a);
  valid_build : Forall semver_id (ast_build a);
}.

Definition ast_version (a : semver_ast) : strictSemVer :=
  {| sv_raw := render a;
     sv_core := (ast_major a, ast_minor a, ast_patch a);
     sv_prerelease :=
       (fun s => {| id_value := s; id_numeric := forallb isASCIIDigit s |}) <$> ast_prerelease a |}.

(** ** Lemmas *)

Definition mk_id (s : gostring) : semverIdentifier :=
  {| id_value := s; id_numeric := forallb isASCIIDigit s |}.

Lemma id_chars s :
  forallb (fun c => isASCIIAlphanumeric c || (c =? ch "-")) s = true <-> Forall id_char s.
Proof.
  apply forallb_Forall. intros c. unfold id_char. rewrite orb_true_iff. go_chars.
  by rewrite Z.eqb_eq.
Qed.

Lemma parse_id_ok rej p i :
  parseSemVerIdentifier rej p = Ok i <->
  semver_id p /\ (rej = true -> digits p -> canonical_decimal p) /\ i = mk_id p.
Proof.
  unfold parseSemVerIdentifier, semver_id, mk_id. rewrite <- id_chars, <- forallb_digits.
  destruct (str_eqb p []) eqn:Ep; [apply str_eqb_eq in Ep as ->; naive_solver|].
  apply str_eqb_neq in Ep.
  destruct (forallb (fun c => isASCIIAlphanumeric c || (c =? ch "-")) p) eqn:Ec; simpl; [|naive_solver].
  destruct rej, (forallb isASCIIDigit p) eqn:Ed; simpl; try naive_solver.
  apply forallb_digits in Ed. rewrite <- (canonical_no_leading_zero p) by done.
  destruct (1 <? len p), (starts_with_zero p); simpl; naive_solver.
Qed.

Lemma parse_ids_ok value rej ids :
  parseSemVerIdentifiers value rej = Ok ids <->
  Forall (fun p => semver_id p /\ (rej = true -> digits p -> canonical_decimal p))
    (strings_split value (ch "."))
  /\ ids = mk_id <$> strings_split value (ch ".").
Proof.
  unfold parseSemVerIdentifiers. destruct (str_eqb value []) eqn:Ev.
  - apply str_eqb_eq in Ev as ->. split; [done|]. simpl.
    intros [[[[Hne _] _] _]%Forall_cons _]. done.
  - apply map_result_spec. intros p i. rewrite parse_id_ok. naive_solver.
Qed.

Lemma check_core_ok coreMax p q :
  checkSemVerCore coreMax p = Ok q <-> semver_core_ok coreMax p /\ q = p.
Proof.
  unfold checkSemVerCore, semver_core_ok.
  destruct (allASCIIDigits p) eqn:Ep; simpl.
  - apply allASCIIDigits_true in Ep as [Hne Hd].
    rewrite <- (canonical_no_leading_zero p) by done.
    destruct ((1 <? len p) && starts_with_zero p); simpl; [naive_solver|].
    destruct (Z.gtb_spec (compareDecimal p coreMax) 0); naive_solver lia.
  - split; [done|]. intros [[Hc _] _].
    rewrite (proj2 (allASCIIDigits_true p)) in Ep; [done|].
    split; [by apply canonical_decimal_nonempty | apply Hc].
Qed.

Lemma id_char_graphic c : id_char c -> graphic c.
Proof. intros [H|H]; byte_tac. Qed.

Lemma id_char_not c d : id_char c -> d = 43 \/ d = 46 -> c <> d.
Proof. intros [H|H] Hd ->; byte_tac. Qed.

Lemma semver_id_no s d : semver_id s -> d = 43 \/ d = 46 -> d ∉ s.
Proof. intros [_ Hs] Hd. apply (Forall_not_elem id_char); [done|]. intros Hc. by apply (id_char_not d d). Qed.

Lemma digits_id s : digits s -> Forall id_char s.
Proof. intros Hs. eapply Forall_impl; [exact Hs|]. intros c Hc. left. byte_tac. Qed.

Lemma ids_no_sep l d :
  Forall semver_id l -> d = 43 -> d ∉ strings_join l (ch ".").
Proof.
  intros Hl ->. apply (Forall_not_elem (fun c => c <> 43)); [|tauto]. apply Forall_strings_join; [done|].
  eapply Forall_impl; [exact Hl|]. intros s [_ Hs]. eapply Forall_impl; [exact Hs|].
  intros c Hc. apply (id_char_not c 43); auto.
Qed.

Lemma split_ids l :
  l <> [] -> Forall semver_id l -> strings_split (strings_join l (ch ".")) (ch ".") = l.
Proof.
  intros Hne Hl. apply split_join; [done|]. eapply Forall_impl; [exact Hl|].
  intros s Hs. apply semver_id_no; [done | by right].
Qed.

Lemma parse_ids_join l rej ids :
  l <> [] -> Forall semver_id l ->
  parseSemVerIdentifiers (strings_join l (ch ".")) rej = Ok ids <->
  Forall (fun p => rej = true -> digits p -> canonical_decimal p) l /\ ids = mk_id <$> l.
Proof.
  intros Hne Hl. rewrite parse_ids_ok, split_ids by done.
  rewrite Forall_and. naive_solver.
Qed.

(** A mark introduces a list of identifiers: the two directions of the parser's
    [IndexByte] steps. *)
Lemma public_ok s pub :
  semverPublic s = Ok pub <->
  exists build, Forall semver_id build /\ s = pub ++ render_list (ch "+") build /\ ch "+" ∉ pub.
Proof.
  unfold semverPublic. split.
  - destruct (index_byte s (ch "+")) as [i|] eqn:E; intros H; go_inv.
    + apply index_byte_Some in E as [Hs Hn].
      match goal with H : parseSemVerIdentifiers _ _ = _ |- _ =>
        apply parse_ids_ok in H as [Hp _] end.
      exists (strings_split (drop (S i) s) (ch ".")). repeat split; [|..|done].
      * eapply Forall_impl; [exact Hp | naive_solver].
      * pose proof (join_split (drop (S i) s) (ch ".")) as Hj.
        destruct (strings_split (drop (S i) s) (ch ".")) eqn:Es; [by destruct (split_nonempty _ _ Es)|].
        unfold render_list. by rewrite Hj.
    + apply index_byte_None in E. exists []. simpl. by rewrite app_nil_r.
  - intros (build & Hb & -> & Hn). destruct build as [|b build].
    + simpl. rewrite app_nil_r. by rewrite (proj2 (index_byte_None _ _) Hn).
    + unfold render_list. rewrite index_byte_app by done.
      rewrite take_app_length, drop_app_ge, Nat.sub_succ_l, Nat.sub_diag by lia.
      rewrite skipn_cons, drop_0.
      destruct (mem (ch "+") (strings_join (b :: build) (ch "."))) eqn:Em.
      { by apply mem_elem, ids_no_sep in Em. }
      apply result_bind_ok. exists (mk_id <$> b :: build). split; [|done]. apply wrap_ok.
      apply parse_ids_join; [done..|]. split; [by apply Forall_true | done].
Qed.

Lemma prerelease_ok s core pre :
  semverPrerelease s = Ok (core, pre) <->
  exists ids, Forall (fun p => semver_id p /\ (digits p -> canonical_decimal p)) ids
    /\ s = core ++ render_list (ch "-") ids /\ pre = mk_id <$> ids /\ ch "-" ∉ core.
Proof.
  unfold semverPrerelease. split.
  - destruct (index_byte s (ch "-")) as [i|] eqn:E; intros H; go_inv.
    + apply index_byte_Some in E as [Hs Hn].
      match goal with H : parseSemVerIdentifiers _ _ = _ |- _ =>
        apply parse_ids_ok in H as [Hp ->] end.
      exists (strings_split (drop (S i) s) (ch ".")). repeat split; [|..|done].
      * eapply Forall_impl; [exact Hp | naive_solver].
      * pose proof (join_split (drop (S i) s) (ch ".")) as Hj.
        destruct (strings_split (drop (S i) s) (ch ".")) eqn:Es; [by destruct (split_nonempty _ _ Es)|].
        unfold render_list. by rewrite Hj.
    + apply index_byte_None in E. exists []. simpl. by rewrite app_nil_r.
  - intros (ids & Hb & -> & -> & Hn). destruct ids as [|b ids].
    + simpl. rewrite app_nil_r. by rewrite (proj2 (index_byte_None _ _) Hn).
    + unfold render_list. rewrite index_byte_app by done.
      rewrite take_app_length, drop_app_ge, Nat.sub_succ_l, Nat.sub_diag by lia.
      rewrite skipn_cons, drop_0. apply Forall_and in Hb as [Hi Hc].
      apply result_bind_ok. exists (mk_id <$> b :: ids). split; [|done]. apply wrap_ok.
      apply parse_ids_join; [done..|]. split; [|done]. eapply Forall_impl; [exact Hc|]. naive_solver.
Qed.

Lemma core_no_mark coreMax p d :
  semver_core_ok coreMax p -> d = 43 \/ d = 45 \/ d = 46 -> d ∉ p.
Proof.
  intros [[Hp _] _] Hd. apply (Forall_not_elem digit); [done|]. unfold digit. lia.
Qed.

Lemma core_join coreMax p0 p1 p2 d :
  semver_core_ok coreMax p0 -> semver_core_ok coreMax p1 -> semver_core_ok coreMax p2 ->
  d = 43 \/ d = 45 -> d ∉ strings_join [p0; p1; p2] (ch ".").
Proof.
  intros H0 H1 H2 Hd. apply (Forall_not_elem (fun c => c <> d)); [|tauto].
  apply Forall_strings_join; [go_chars; lia|].
  assert (HF : Forall (semver_core_ok coreMax) [p0; p1; p2]) by (forall_list; done).
  eapply Forall_impl; [exact HF|]. intros p [[Hp _] _].
  eapply Forall_impl; [exact Hp|]. unfold digit. lia.
Qed.

Lemma render_graphic coreMax a : semver_valid coreMax a -> Forall graphic (render a).
Proof.
  intros Ha.
  assert (Hids : forall mark l, graphic mark -> Forall semver_id l -> Forall graphic (render_list mark l)).
  { intros mark l Hm Hl. destruct l as [|x l]; [constructor|]. unfold render_list. constructor; [done|].
    apply Forall_strings_join; [done|]. eapply Forall_impl; [exact Hl|].
    intros s [_ Hs]. eapply Forall_impl; [exact Hs|]. apply id_char_graphic. }
  unfold render, render_public. rewrite !Forall_app. repeat split.
  - apply Forall_strings_join; [done|]. destruct Ha as [[[H0 _] _] [[H1 _] _] [[H2 _] _] _ _].
    forall_list; (eapply Forall_impl; [eassumption|]); unfold digit, graphic; lia.
  - apply Hids; [done|]. eapply Forall_impl; [apply Ha | naive_solver].
  - apply Hids; [done | apply Ha].
Qed.

Lemma render_public_no_plus coreMax a :
  semver_valid coreMax a -> ch "+" ∉ render_public a.
Proof.
  intros Ha. unfold render_public. rewrite not_elem_of_app. split.
  - apply (core_join coreMax); [apply Ha.. | by left].
  - unfold render_list. destruct (ast_prerelease a) as [|x l] eqn:E; [apply not_elem_of_nil|].
    apply not_elem_of_cons. split; [done|]. rewrite <- E. apply ids_no_sep; [|done].
    eapply Forall_impl; [apply Ha | naive_solver].
Qed.

Lemma join3_nonempty p0 p1 p2 c : strings_join [p0; p1; p2] c <> [].
Proof. simpl. by destruct p0. Qed.

(** The parser and the grammar agree in both directions. *)
Lemma parse_iff_render coreMax s v :
  parseStrictSemVer s coreMax = Ok v <->
  exists a, semver_valid coreMax a /\ s = render a /\ v = ast_version a.
Proof.
  unfold parseStrictSemVer. split.
  - intros H. destruct (blank_or_spaced s); [done|].
    apply result_bind_ok in H as (pub & (build & Hb & Hs & Hn)%public_ok & H).
    apply result_bind_ok in H as ([core pre] & (ids & Hi & Hpub & -> & Hd)%prerelease_ok & H).
    pose proof (join_split core (ch ".")) as Hj.
    destruct (strings_split core (ch ".")) as [|p0 [|p1 [|p2 [|? ?]]]]; try done.
    apply result_bind_ok in H as (? & [H0 ->]%check_core_ok & H).
    apply result_bind_ok in H as (? & [H1 ->]%check_core_ok & H).
    apply result_bind_ok in H as (? & [H2 ->]%check_core_ok & [= <-]).
    exists {| ast_major := p0; ast_minor := p1; ast_patch := p2; ast_prerelease := ids; ast_build := build |}.
    assert (Hr : s = render {| ast_major := p0; ast_minor := p1; ast_patch := p2;
                               ast_prerelease := ids; ast_build := build |}).
    { rewrite Hs, Hpub, <- Hj. done. }
    split; [by split|]. split; [done|]. unfold ast_version. by rewrite <- Hr.
  - intros (a & Ha & -> & ->).
    rewrite blank_or_spaced_graphic; [| |by eapply render_graphic].
    2: { unfold render, render_public. intros [[H _]%app_eq_nil _]%app_eq_nil. by apply join3_nonempty in H. }
    apply result_bind_ok. exists (render_public a). split.
    { apply public_ok. exists (ast_build a). split; [apply Ha|].
      split; [done | by eapply render_public_no_plus]. }
    apply result_bind_ok.
    exists (strings_join [ast_major a; ast_minor a; ast_patch a] (ch "."), mk_id <$> ast_prerelease a). split.
    { apply prerelease_ok. exists (ast_prerelease a). split; [apply Ha|]. repeat split.
      apply (core_join coreMax); [apply Ha.. | by right]. }
    rewrite split_join; [|done|].
    2: { forall_list; (eapply core_no_mark; [apply Ha | auto]). }
    apply result_bind_ok. exists (ast_major a). split; [apply check_core_ok; split; [apply Ha | done]|].
    apply result_bind_ok. exists (ast_minor a). split; [apply check_core_ok; split; [apply Ha | done]|].
    apply result_bind_ok. exists (ast_patch a). split; [apply check_core_ok; split; [apply Ha | done]|].
    done.
Qed.

(** ** Precedence *)

#[export] Instance compareCore_three_way : ThreeWay compareCore.
Proof.
  apply (three_way_ext _
    (cmp_then (cmp_on (fun v => (sv_core v).1.1) compareDecimal)
       (cmp_then (cmp_on (fun v => (sv_core v).1.2) compareDecimal)
          (cmp_on (fun v => (sv_core v).2) compareDecimal)))); [|apply _].
  intros x y. unfold compareCore, cmp_then, cmp_on. by destruct (sv_core x) as [[??]?], (sv_core y) as [[??]?].
Qed.

#[export] Instance compareIdentifiers_three_way : ThreeWay compareIdentifiers.
Proof.
  apply (three_way_ext _
    (cmp_split id_numeric (cmp_on id_value compareDecimal) (cmp_on id_value strings_compare)));
    [|apply _].
  intros x y. unfold compareIdentifiers, cmp_split, cmp_on.
  by rewrite (signOf_id (strings_compare _ _)) by apply cmp_range.
Qed.

Lemma comparePrereleases_list l r : comparePrereleases l r = cmp_list compareIdentifiers l r.
Proof.
  revert r; induction l as [|x l IH]; intros [|y r]; simpl; [done|..].
  - rewrite len_cons. pose proof (len_nonneg r). change (len (@nil semverIdentifier)) with 0. three_way.
  - rewrite len_cons. pose proof (len_nonneg l). change (len (@nil semverIdentifier)) with 0. three_way.
  - by rewrite IH.
Qed.

Lemma semverCompare_layers v w :
  semverCompare v w =
  cmp_then compareCore (cmp_on sv_prerelease (cmp_nil_last (cmp_list compareIdentifiers))) v w.
Proof.
  unfold semverCompare, cmp_then, cmp_on, cmp_nil_last. f_equal.
  destruct (sv_prerelease v), (sv_prerelease w); try done. apply comparePrereleases_list.
Qed.

#[export] Instance semverCompare_three_way : ThreeWay semverCompare.
Proof. apply (three_way_ext _ _ semverCompare_layers), _. Qed.

Lemma compareIdentifiers_eq s t :
  (digits s -> canonical_decimal s) -> (digits t -> canonical_decimal t) ->
  compareIdentifiers (mk_id s) (mk_id t) = 0 <-> s = t.
Proof.
  intros Hs Ht. split; [|intros ->; by rewrite (cmp_refl compareIdentifiers)].
  unfold compareIdentifiers, mk_id; simpl. rewrite signOf_id by apply cmp_range.
  destruct (forallb isASCIIDigit s) eqn:Es, (forallb isASCIIDigit t) eqn:Et; try done.
  - apply forallb_digits in Es, Et. rewrite compareDecimal_eq.
    intros Hc. destruct (Hs Es) as [_ <-], (Ht Et) as [_ <-]. done.
  - apply strings_compare_eq.
Qed.

Lemma Forall2_ids_eq l r :
  Forall (fun p => semver_id p /\ (digits p -> canonical_decimal p)) l ->
  Forall (fun p => semver_id p /\ (digits p -> canonical_decimal p)) r ->
  Forall2 (fun x y => compareIdentifiers x y = 0) (mk_id <$> l) (mk_id <$> r) <-> l = r.
Proof.
  intros Hl; revert r; induction Hl as [|s l [_ Hs] Hl IH]; intros r Hr;
    destruct Hr as [|t r [_ Ht] Hr]; simpl.
  - split; [done | constructor].
  - split; [by intros ?%Forall2_nil_cons_inv | done].
  - split; [by intros ?%Forall2_cons_nil_inv | done].
  - rewrite Forall2_cons, compareIdentifiers_eq, (IH r Hr) by done. naive_solver.
Qed.

(** Versions of valid syntax trees have equal precedence exactly when they
    differ in the build metadata only. *)
Lemma semverCompare_ast_eq m1 m2 a b :
  semver_valid m1 a -> semver_valid m2 b ->
  semverCompare (ast_version a) (ast_version b) = 0 <-> render_public a = render_public b.
Proof.
  intros Ha Hb. rewrite semverCompare_layers. unfold cmp_then, cmp_on. rewrite or_else_zero.
  rewrite cmp_nil_last_list_eq. simpl. rewrite Forall2_ids_eq by (apply Ha || apply Hb).
  unfold compareCore; simpl. rewrite !or_else_zero.
  rewrite !canonical_compare_eq by (apply Ha || apply Hb). split.
  - intros [(H0 & H1 & H2) H3]. unfold render_public. by rewrite H0, H1, H2, H3.
  - intros Hr.
    assert (Hp : forall m a, semver_valid m a ->
      semverPrerelease (render_public a)
      = Ok (strings_join [ast_major a; ast_minor a; ast_patch a] (ch "."), mk_id <$> ast_prerelease a)).
    { intros m c Hc. apply prerelease_ok. exists (ast_prerelease c). split; [apply Hc|]. repeat split.
      apply (core_join m); [apply Hc.. | by right]. }
    pose proof (Hp _ _ Ha) as E1. rewrite Hr, (Hp _ _ Hb) in E1. injection E1 as Ej Ei.
    assert (Hs : forall m a, semver_valid m a ->
      strings_split (strings_join [ast_major a; ast_minor a; ast_patch a] (ch ".")) (ch ".")
      = [ast_major a; ast_minor a; ast_patch a]).
    { intros m c Hc. apply split_join; [done|]. forall_list; (eapply core_no_mark; [apply Hc | auto]). }
    change (strings_join [ast_major b; ast_minor b; ast_patch b] (ch ".") =
            strings_join [ast_major a; ast_minor a; ast_patch a] (ch ".")) in Ej.
    apply (f_equal (fun s => strings_split s (ch "."))) in Ej.
    rewrite (Hs _ _ Ha), (Hs _ _ Hb) in Ej. injection Ej as -> -> ->.
    split; [done|]. apply (f_equal (fmap id_value)) in Ei.
    rewrite <- !list_fmap_compose in Ei. by rewrite !list_fmap_id in Ei.
Qed.

Definition public_part (s : gostring) : gostring := (strings_cut s (ch "+")).1.1.

Lemma public_part_render m a : semver_valid m a -> public_part (render a) = render_public a.
Proof.
  intros Ha. unfold public_part, render, render_list.
  pose proof (render_public_no_plus m a Ha). destruct (ast_build a).
  - by rewrite app_nil_r, cut_none.
  - by rewrite cut_app.
Qed.

Lemma semver_valid_public m1 m2 a b :
  semver_valid m1 a -> semver_valid m2 b ->
  semverCompare (ast_version a) (ast_version b) = 0 <->
  public_part (render a) = public_part (render b).
Proof.
  intros Ha Hb. rewrite (public_part_render m1), (public_part_render m2) by done.
  by apply (semverCompare_ast_eq m1 m2).
Qed.

(** ** Properties *)

(** The parser accepts exactly the strict SemVer grammar: three decimal
    core components without superfluous zeroes and within the dialect's bound,
    an optional prerelease whose numeric identifiers have no leading zero, an
    optional build.  It returns the version the string spells, with every core
    component numerically at most [coreMax]. *)
Theorem parseStrictSemVer_grammar coreMax s v :
  digits coreMax ->
  (parseStrictSemVer s coreMax = Ok v <->
   exists a, semver_valid coreMax a /\ s = render a /\ v = ast_version a)
  /\ (parseStrictSemVer s coreMax = Ok v ->
      Forall (fun p => 0 <= dec_value p <= dec_value coreMax)
        [(sv_core v).1.1; (sv_core v).1.2; (sv_core v).2]).
Proof.
  intros Hm. split; [apply parse_iff_render|]. intros (a & Ha & _ & ->)%parse_iff_render. simpl.
  assert (Hc : forall p, semver_core_ok coreMax p -> 0 <= dec_value p <= dec_value coreMax).
  { intros p [[Hp _] Hle]. rewrite compareDecimal_value in Hle by done.
    pose proof (dec_value_bound p Hp). unfold cmp_Z, signOf in Hle. repeat case_match; lia. }
  forall_list; apply Hc, Ha.
Qed.

Lemma parseStrictSemVer_grammar_witness :
  Forall (fun p => 0 <= dec_value p <= dec_value (bs "99")) [bs "1"; bs "20"; bs "3"].
Proof.
  refine (proj2 (parseStrictSemVer_grammar (bs "99") (bs "1.20.3-rc.1+b5")
    {| sv_raw := bs "1.20.3-rc.1+b5"; sv_core := (bs "1", bs "20", bs "3");
       sv_prerelease := [mk_id (bs "rc"); mk_id (bs "1")] |} _) _).
  - by apply forallb_digits.
  - reflexivity.
Defined.

(** SemVer precedence is a total preorder whose equality ignores exactly the
    build metadata: two accepted versions compare equal iff their spellings up
    to the first ['+'] coincide. *)
Theorem semverCompare_precedence :
  ThreeWay semverCompare
  /\ forall m1 m2 s t v w,
      parseStrictSemVer s m1 = Ok v -> parseStrictSemVer t m2 = Ok w ->
      semverCompare v w = 0 <-> public_part s = public_part t.
Proof.
  split; [apply _|]. intros m1 m2 s t v w (a & Ha & -> & ->)%parse_iff_render
    (b & Hb & -> & ->)%parse_iff_render. by apply (semver_valid_public m1 m2).
Qed.
