(* ===== verification/Debian.v ===== *)
(** * Debian versions (internal/packagepolicy/debian.go)

    Parser, ordering and canonical spelling of the apt dialect. *)

From S2P Require Export Decimal.

Record debianVersion := {
  deb_epoch : gostring;
  deb_upstream : gostring;
  deb_revision : gostring;
}.

(** The epoch step: everything before the first [':']. *)
Definition debianEpoch (value : gostring) : result (gostring * gostring) :=
  match index_byte value (ch ":") with
  | None => Ok (bs "0", value)
  | Some colon =>
    if (len (take colon value) =? 0) || negb (allASCIIDigits (take colon value))
    then fail "Debian epoch must contain only decimal digits" else
    let remainder := drop (S colon) value in
    if mem (ch ":") remainder
    then fail "Debian version contains more than one epoch separator" else
    Ok (take colon value, remainder)
  end.

(** The revision step: everything after the last ['-']. *)
Definition debianRevision (remainder : gostring) : result (gostring * gostring) :=
  match last_index_byte remainder (ch "-") with
  | None => Ok (remainder, [])
  | Some dash =>
    let revision := drop (S dash) remainder in
    if str_eqb revision [] then fail "Debian revision is empty" else
    Ok (take dash remainder, revision)
  end.

Definition starts_with_digit (s : gostring) : bool :=
  match s with c :: _ => isASCIIDigit c | [] => false end.

Definition parseDebianVersion (value : gostring) : result debianVersion :=
  if blank_or_spaced value
  then fail "Debian version must be non-empty and contain no surrounding whitespace" else
  '(epoch, remainder) ← debianEpoch value;
  '(upstream, revision) ← debianRevision remainder;
  if str_eqb upstream [] || negb (starts_with_digit upstream)
  then fail "Debian upstream version must start with a decimal digit" else
  if negb (forallb (fun c => isASCIIAlphanumeric c || mem c (bs ".+-~")) upstream)
  then fail "Debian upstream version contains invalid character %q" else
  if negb (forallb (fun c => isASCIIAlphanumeric c || mem c (bs "+.~")) revision)
  then fail "Debian revision contains invalid character %q" else
  Ok {| deb_epoch := epoch; deb_upstream := upstream; deb_revision := revision |}.

Definition debianCharacterOrder (character : Z) : Z :=
  if character =? ch "~" then -1
  else if character =? 0 then 0
  else if isASCIIAlpha character then character
  else character + 256.

Definition head_nondigit (s : gostring) : bool :=
  match s with c :: _ => negb (isASCIIDigit c) | [] => false end.

(** The byte one round of the inner loop takes from a side: a non-digit head,
    or nothing, which counts as the byte 0. *)
Definition take_nondigit (s : gostring) : Z * gostring :=
  match s with
  | c :: rest => if negb (isASCIIDigit c) then (c, rest) else (0, s)
  | [] => (0, [])
  end.

(** The inner loop: [inl] is the early return of a comparison, [inr] the two
    remaining strings.  Each round takes a byte, so the total length is enough
    fuel. *)
Fixpoint compareNonDigits (fuel : nat) (left right : gostring) : Z + gostring * gostring :=
  match fuel with
  | O => inr (left, right)
  | S fuel =>
    if head_nondigit left || head_nondigit right then
      let '(leftCharacter, l) := take_nondigit left in
      let '(rightCharacter, r) := take_nondigit right in
      let leftOrder := debianCharacterOrder leftCharacter in
      let rightOrder := debianCharacterOrder rightCharacter in
      if negb (leftOrder =? rightOrder) then inl (signOf (leftOrder - rightOrder))
      else compareNonDigits fuel l r
    else inr (left, right)
  end.

(** The outer loop, with the same measure. *)
Fixpoint compareDebianPart_go (fuel : nat) (left right : gostring) : Z :=
  match fuel with
  | O => 0
  | S fuel =>
    if (len left >? 0) || (len right >? 0) then
      match compareNonDigits (length left + length right) left right with
      | inl comparison => comparison
      | inr (l, r) =>
        let '(leftDigits, leftRest) := takeDigits l in
        let '(rightDigits, rightRest) := takeDigits r in
        or_else (compareDecimal leftDigits rightDigits)
                (compareDebianPart_go fuel leftRest rightRest)
      end
    else 0
  end.

Definition compareDebianPart (left right : gostring) : Z :=
  compareDebianPart_go (S (length left + length right)) left right.

Definition compareDebian (left right : debianVersion) : Z :=
  or_else (compareDecimal (deb_epoch left) (deb_epoch right))
    (or_else (compareDebianPart (deb_upstream left) (deb_upstream right))
       (compareDebianPart (deb_revision left) (deb_revision right))).

Definition debianCompareVersions (a b : gostring) : result Z :=
  left ← wrap "parse left version: %w" (parseDebianVersion a);
  right ← wrap "parse right version: %w" (parseDebianVersion b);
  Ok (compareDebian left right).

Definition renderDebian (parsed : debianVersion) : gostring :=
  let epoch := trim_left_zeros (deb_epoch parsed) in
  (if str_eqb epoch [] then [] else epoch ++ bs ":")
  ++ deb_upstream parsed
  ++ (if str_eqb (deb_revision parsed) [] then [] else bs "-" ++ deb_revision parsed).

Definition debianCanonicalVersion (value : gostring) : result gostring :=
  parsed ← parseDebianVersion value; Ok (renderDebian parsed).

(** ** Reference ordering

    Debian Policy describes a version part as alternating blocks of non-digits
    and digits; two parts compare block by block, a missing block counting as
    empty, non-digits byte by byte under [debianCharacterOrder] with the order
    of "nothing" in place of a missing byte, digits as numbers. *)

Abbreviation block := (list Z * gostring)%type.

Fixpoint span_nondigits (s : gostring) : list Z * gostring :=
  match s with
  | c :: rest =>
    if isASCIIDigit c then ([], s)
    else let '(os, rest) := span_nondigits rest in (debianCharacterOrder c :: os, rest)
  | [] => ([], [])
  end.

Fixpoint debian_blocks (fuel : nat) (s : gostring) : list block :=
  match fuel, s with
  | S fuel, _ :: _ =>
    let '(os, rest) := span_nondigits s in
    let '(ds, rest) := takeDigits rest in
    (os, ds) :: debian_blocks fuel rest
  | _, _ => []
  end.

Definition block_cmp : block -> block -> Z :=
  cmp_then (cmp_on fst (cmp_padded cmp_Z 0)) (cmp_on snd compareDecimal).


(** ** Lemmas: the loops compute the reference ordering *)

Lemma span_length s os rest :
  span_nondigits s = (os, rest) -> (length s = length os + length rest)%nat.
Proof.
  revert os rest; induction s as [|c s IH]; intros os rest; simpl; [by intros [= <- <-]|].
  destruct (isASCIIDigit c); [by intros [= <- <-]|].
  destruct (span_nondigits s) as [os' rest'] eqn:E. intros [= <- <-].
  simpl. by rewrite (IH _ _ eq_refl).
Qed.

Lemma span_head s os rest :
  span_nondigits s = (os, rest) -> head_nondigit rest = false.
Proof.
  revert os rest; induction s as [|c s IH]; intros os rest; simpl; [by intros [= <- <-]|].
  destruct (isASCIIDigit c) eqn:Ed; [intros [= <- <-]; simpl; by rewrite Ed|].
  destruct (span_nondigits s) as [os' rest'] eqn:E. intros [= <- <-]. by eapply IH.
Qed.

(** One round of the inner loop takes the head of the reference block. *)
Lemma take_nondigit_span s os rest :
  span_nondigits s = (os, rest) ->
  let '(c, s') := take_nondigit s in
  debianCharacterOrder c = default 0 (head os) /\ span_nondigits s' = (tail os, rest)
  /\ (length s' = length s - (if head_nondigit s then 1 else 0))%nat
  /\ head_nondigit s = negb (len os =? 0).
Proof.
  destruct s as [|c s]; simpl; [intros [= <- <-]; done|].
  destruct (isASCIIDigit c) eqn:Ed; simpl.
  - intros [= <- <-]. simpl. by rewrite Ed.
  - destruct (span_nondigits s) as [os' rest'] eqn:E. intros [= <- <-].
    rewrite len_cons. pose proof (len_nonneg os'). rewrite (proj2 (Z.eqb_neq _ _)) by lia.
    simpl. rewrite Nat.sub_0_r. done.
Qed.

Lemma cmp_padded_step {A} (cmp : A -> A -> Z) d l r :
  l <> [] \/ r <> [] ->
  cmp_padded cmp d l r
  = or_else (cmp (default d (head l)) (default d (head r))) (cmp_padded cmp d (tail l) (tail r)).
Proof. destruct l as [|x l], r as [|y r]; simpl; naive_solver. Qed.

Lemma compareNonDigits_span fuel l r ol rl orr rr :
  span_nondigits l = (ol, rl) -> span_nondigits r = (orr, rr) ->
  (length l + length r <= fuel)%nat ->
  compareNonDigits fuel l r =
    (if cmp_padded cmp_Z 0 ol orr =? 0 then inr (rl, rr) else inl (cmp_padded cmp_Z 0 ol orr)).
Proof.
  revert l r ol orr; induction fuel as [|fuel IH]; intros l r ol orr Hl Hr Hf.
  - destruct l, r; simpl in Hf; try lia. simpl in *. by injection Hl as <- <-; injection Hr as <- <-.
  - pose proof (take_nondigit_span _ _ _ Hl) as Tl. pose proof (take_nondigit_span _ _ _ Hr) as Tr.
    simpl. destruct (take_nondigit l) as [cl l'] eqn:El, (take_nondigit r) as [cr r'] eqn:Er.
    destruct Tl as (Ol & Sl & Ll & Hhl), Tr as (Or & Sr & Lr & Hhr).
    destruct (head_nondigit l || head_nondigit r) eqn:Eh.
    + assert (Hne : ol <> [] \/ orr <> []).
      { rewrite Hhl, Hhr in Eh. destruct ol, orr; simpl in *; naive_solver. }
      rewrite (cmp_padded_step cmp_Z 0 ol orr Hne), Ol, Or.
      rewrite (IH l' r' (tail ol) (tail orr) Sl Sr).
      * unfold or_else. destruct (Z.eqb_spec (default 0 (head ol)) (default 0 (head orr))) as [->|Hn]; simpl.
        -- by rewrite (cmp_refl cmp_Z).
        -- assert (Hc : cmp_Z (default 0 (head ol)) (default 0 (head orr)) <> 0) by by rewrite cmp_Z_eq.
           apply Z.eqb_neq in Hc. rewrite Hc; cbv iota. by rewrite Hc.
      * destruct l, r; simpl in *; repeat case_match; simpl in *; lia.
    + go_bool. rewrite Hhl, Hhr in *. destruct ol, orr; simpl in *; try done.
      destruct l, r; simpl in *; repeat case_match; naive_solver.
Qed.

(** One round of the outer loop takes the head block of a side. *)
Lemma debian_blocks_nil k : debian_blocks k [] = [].
Proof. by destruct k. Qed.

Lemma block_rest_shorter s os rest ds rest' :
  span_nondigits s = (os, rest) -> takeDigits rest = (ds, rest') ->
  (length rest' <= length s)%nat /\ (s <> [] -> length rest' < length s)%nat.
Proof.
  intros Es Et. pose proof (span_length _ _ _ Es).
  pose proof (takeDigits_spec _ _ _ Et) as (Hr & _ & _).
  apply (f_equal length) in Hr as Hlen. rewrite length_app in Hlen.
  split; [lia|]. intros Hs. destruct s as [|c s]; [done|]. destruct os as [|o os]; [|simpl in *; lia].
  destruct ds as [|d ds]; [|simpl in *; lia]. simpl in Hr. subst rest'. simpl in Es.
  destruct (isASCIIDigit c) eqn:Ed.
  - injection Es as <-. simpl in Et. rewrite Ed in Et. by destruct (takeDigits s).
  - by destruct (span_nondigits s).
Qed.

Lemma debian_blocks_step k s os rest ds rest' :
  (length s <= k)%nat -> span_nondigits s = (os, rest) -> takeDigits rest = (ds, rest') ->
  default ([], []) (head (debian_blocks k s)) = (os, ds)
  /\ tail (debian_blocks k s) = debian_blocks (pred k) rest'
  /\ (debian_blocks k s = [] <-> s = []).
Proof.
  intros Hk Es Et. destruct s as [|c s].
  - injection Es as <- <-. injection Et as <- <-. by rewrite !debian_blocks_nil.
  - destruct k as [|k]; simpl in Hk; [lia|]. cbn [debian_blocks]. by rewrite Es, Et.
Qed.

Lemma compareDebianPart_go_blocks fuel n m l r :
  (length l + length r < fuel)%nat -> (length l <= n)%nat -> (length r <= m)%nat ->
  compareDebianPart_go fuel l r = cmp_padded block_cmp ([], []) (debian_blocks n l) (debian_blocks m r).
Proof.
  revert n m l r; induction fuel as [|fuel IH]; intros n m l r Hf Hn Hm; [lia|].
  simpl compareDebianPart_go.
  destruct (span_nondigits l) as [ol rl] eqn:El, (span_nondigits r) as [orr rr] eqn:Er.
  destruct (takeDigits rl) as [dl rl'] eqn:Tl, (takeDigits rr) as [dr rr'] eqn:Tr.
  destruct (debian_blocks_step n l _ _ _ _ Hn El Tl) as (Bl & Tbl & Nbl).
  destruct (debian_blocks_step m r _ _ _ _ Hm Er Tr) as (Br & Tbr & Nbr).
  destruct (block_rest_shorter _ _ _ _ _ El Tl) as [Ll Sl].
  destruct (block_rest_shorter _ _ _ _ _ Er Tr) as [Lr Sr].
  destruct ((len l >? 0) || (len r >? 0)) eqn:Hne.
  - assert (Hne' : l <> [] \/ r <> []) by (destruct l; [|by left]; destruct r; [done | by right]).
    assert (length rl' + length rr' < length l + length r)%nat.
    { destruct Hne' as [Hl|Hr]; [specialize (Sl Hl) | specialize (Sr Hr)]; lia. }
    assert (length rl' <= pred n /\ length rr' <= pred m)%nat as [? ?].
    { split; [destruct l; [simpl in *; lia | specialize (Sl ltac:(done)); simpl in *; lia]
             | destruct r; [simpl in *; lia | specialize (Sr ltac:(done)); simpl in *; lia]]. }
    rewrite (cmp_padded_step block_cmp).
    2: { destruct Hne'; [left; by rewrite Nbl | right; by rewrite Nbr]. }
    rewrite Bl, Br, Tbl, Tbr, (compareNonDigits_span _ _ _ _ _ _ _ El Er) by lia.
    unfold block_cmp at 1, cmp_then, cmp_on; simpl. unfold or_else.
    destruct (Z.eqb_spec (cmp_padded cmp_Z 0 ol orr) 0) as [E0|E0].
    + rewrite Tl, Tr. by rewrite (IH (pred n) (pred m)) by lia.
    + by rewrite (proj2 (Z.eqb_neq _ _) E0).
  - assert (l = [] /\ r = []) as [-> ->] by (destruct l; [by destruct r | done]).
    by rewrite !debian_blocks_nil.
Qed.


#[export] Instance block_cmp_three_way : ThreeWay block_cmp.
Proof. apply _. Qed.

(** With more fuel the blocks are the same, so the reference ordering is a
    padded comparison of one key. *)
Lemma debian_policy_cmp_key n l r :
  (length l <= n)%nat -> (length r <= n)%nat ->
  compareDebianPart l r = cmp_padded block_cmp ([], []) (debian_blocks n l) (debian_blocks n r).
Proof. intros. apply compareDebianPart_go_blocks; lia. Qed.

#[export] Instance compareDebianPart_three_way : ThreeWay compareDebianPart.
Proof.
  split.
  - intros x y. rewrite (debian_policy_cmp_key (length x + length y)) by lia.
    apply (cmp_range (cmp := cmp_padded block_cmp ([], []))).
  - intros x y. rewrite !(debian_policy_cmp_key (length x + length y)) by lia.
    apply (cmp_opp (cmp := cmp_padded block_cmp ([], []))).
  - intros x y z. rewrite !(debian_policy_cmp_key (length x + length y + length z)) by lia.
    apply (cmp_trans (cmp := cmp_padded block_cmp ([], []))).
Qed.

#[export] Instance compareDebian_three_way : ThreeWay compareDebian.
Proof.
  apply (three_way_ext _
    (cmp_then (cmp_on deb_epoch compareDecimal)
       (cmp_then (cmp_on deb_upstream compareDebianPart) (cmp_on deb_revision compareDebianPart))));
    [done | apply _].
Qed.

(** ** Well-formed versions and their spelling *)

Definition upstream_char (c : Z) : Prop :=
  isASCIIAlphanumeric c = true \/ mem c (bs ".+-~") = true.
Definition revision_char (c : Z) : Prop :=
  isASCIIAlphanumeric c = true \/ mem c (bs "+.~") = true.

Record debian_wf (v : debianVersion) : Prop := {
  wf_epoch : digits (deb_epoch v);
  wf_epoch_ne : deb_epoch v <> [];
  wf_upstream : Forall upstream_char (deb_upstream v);
  wf_upstream_digit : starts_with_digit (deb_upstream v) = true;
  wf_revision : Forall revision_char (deb_revision v);
  wf_revision_sep : deb_revision v = [] -> ch "-" ∉ deb_upstream v;
}.

Lemma upstream_chars s :
  forallb (fun c => isASCIIAlphanumeric c || mem c (bs ".+-~")) s = true <-> Forall upstream_char s.
Proof. apply forallb_Forall. intros c. apply orb_true_iff. Qed.

Lemma revision_chars s :
  forallb (fun c => isASCIIAlphanumeric c || mem c (bs "+.~")) s = true <-> Forall revision_char s.
Proof. apply forallb_Forall. intros c. apply orb_true_iff. Qed.

Lemma upstream_char_inv c : upstream_char c -> graphic c /\ c <> 58.
Proof. intros [H|H]; [split; byte_tac|]. unfold mem in H. simpl in H. split; byte_tac. Qed.

Lemma revision_char_inv c : revision_char c -> graphic c /\ c <> 58 /\ c <> 45.
Proof. intros [H|H]; [repeat split; byte_tac|]. unfold mem in H. simpl in H. repeat split; byte_tac. Qed.

Lemma starts_with_digit_ne s : starts_with_digit s = true -> s <> [].
Proof. by destruct s. Qed.

Lemma debianEpoch_ok value e r :
  debianEpoch value = Ok (e, r) ->
  digits e /\ e <> [] /\ ch ":" ∉ r /\ (value = r /\ e = [48] \/ value = e ++ ch ":" :: r).
Proof.
  unfold debianEpoch. destruct (index_byte value (ch ":")) as [i|] eqn:E; intros H; go_inv; go_bool.
  - apply index_byte_Some in E as [Hs Hn].
    match goal with H : allASCIIDigits _ = true |- _ => apply allASCIIDigits_true in H as [? ?] end.
    repeat split; try done; [|by right].
    match goal with H : mem _ _ = false |- _ => intros Hm%mem_elem; congruence end.
  - apply index_byte_None in E. repeat split; [digits_tac | done | done | by left].
Qed.

Lemma debianRevision_ok value u r :
  debianRevision value = Ok (u, r) ->
  (r = [] /\ value = u /\ ch "-" ∉ u) \/ (r <> [] /\ value = u ++ ch "-" :: r /\ ch "-" ∉ r).
Proof.
  unfold debianRevision. destruct (last_index_byte value (ch "-")) as [i|] eqn:E; intros H; go_inv.
  - apply last_index_byte_Some in E as [Hs Hn]. right. by rewrite <- str_eqb_neq.
  - apply last_index_byte_None in E. by left.
Qed.

Lemma parse_debian_wf s v : parseDebianVersion s = Ok v -> debian_wf v.
Proof.
  unfold parseDebianVersion. intros H. destruct (blank_or_spaced s); [done|].
  apply result_bind_ok in H as ([e rem] & (He & Hne & _ & _)%debianEpoch_ok & H).
  apply result_bind_ok in H as ([u r] & Hr%debianRevision_ok & H). go_inv. go_bool.
  split; simpl; try done.
  - by apply upstream_chars.
  - by apply revision_chars.
  - intros ->. destruct Hr as [(_ & _ & ?)|[? _]]; done.
Qed.

Lemma debianRevision_render u r :
  (r = [] -> ch "-" ∉ u) -> ch "-" ∉ r ->
  debianRevision (u ++ (if str_eqb r [] then [] else bs "-" ++ r)) = Ok (u, r).
Proof.
  intros Hu Hr. unfold debianRevision. destruct (str_eqb r []) eqn:E.
  - apply str_eqb_eq in E as ->. rewrite app_nil_r.
    by rewrite (proj2 (last_index_byte_None _ _) (Hu eq_refl)).
  - change (bs "-" ++ r) with (ch "-" :: r). rewrite last_index_byte_app by done.
    rewrite take_app_length, drop_app_ge, Nat.sub_succ_l, Nat.sub_diag by lia.
    rewrite skipn_cons, drop_0. by rewrite E.
Qed.

Lemma debianEpoch_render e rem :
  digits e -> ch ":" ∉ rem ->
  debianEpoch ((if str_eqb (trim_left_zeros e) [] then [] else trim_left_zeros e ++ bs ":") ++ rem)
  = Ok (normalizeDecimal e, rem).
Proof.
  intros He Hr. unfold debianEpoch, normalizeDecimal.
  destruct (str_eqb (trim_left_zeros e) []) eqn:E; simpl.
  - by rewrite (proj2 (index_byte_None _ _) Hr).
  - apply str_eqb_neq in E. apply trim_left_zeros_digits in He.
    rewrite <- app_assoc. cbn [app bs].
    rewrite index_byte_app.
    2: { apply (Forall_not_elem digit); [done|]. unfold digit. go_chars. lia. }
    rewrite take_app_length, drop_app_ge, Nat.sub_succ_l, Nat.sub_diag by lia.
    rewrite skipn_cons, drop_0. rewrite (proj2 (allASCIIDigits_true _)) by done.
    destruct (trim_left_zeros e); [done|]. rewrite len_cons.
    rewrite (proj2 (Z.eqb_neq _ _)) by (pose proof (len_nonneg l); lia). simpl.
    destruct (mem (ch ":") rem) eqn:Em; [by apply mem_elem in Em | done].
Qed.

Lemma render_debian_graphic v : debian_wf v -> Forall graphic (renderDebian v).
Proof.
  intros Hv. unfold renderDebian. rewrite !Forall_app. repeat split.
  - case_match; [constructor|]. apply Forall_app. split; [|by forall_list].
    eapply Forall_impl; [apply trim_left_zeros_digits, Hv|]. unfold digit, graphic. lia.
  - eapply Forall_impl; [apply Hv|]. intros c Hc. by apply upstream_char_inv.
  - case_match; [constructor|]. apply Forall_app. split; [by forall_list|].
    eapply Forall_impl; [apply Hv|]. intros c Hc. by apply revision_char_inv.
Qed.

Lemma parse_render_debian v :
  debian_wf v ->
  parseDebianVersion (renderDebian v)
  = Ok {| deb_epoch := normalizeDecimal (deb_epoch v);
          deb_upstream := deb_upstream v; deb_revision := deb_revision v |}.
Proof.
  intros Hv. pose proof (starts_with_digit_ne _ (wf_upstream_digit v Hv)) as Hne.
  unfold parseDebianVersion. rewrite blank_or_spaced_graphic.
  2: { unfold renderDebian. intros [_ [H _]%app_eq_nil]%app_eq_nil. done. }
  2: by apply render_debian_graphic.
  unfold renderDebian. rewrite debianEpoch_render; [|apply Hv|].
  2: { apply (Forall_not_elem (fun c => c <> 58)); [|tauto]. apply Forall_app. split.
    - eapply Forall_impl; [apply Hv|]. intros c Hc. by apply upstream_char_inv.
    - case_match; [constructor|]. constructor; [done|].
      eapply Forall_impl; [apply Hv|]. intros c Hc. by apply revision_char_inv. }
  simpl. rewrite debianRevision_render; [|apply Hv|].
  2: { apply (Forall_not_elem (fun c => c <> 45)); [|tauto].
       eapply Forall_impl; [apply Hv|]. intros c Hc. by apply revision_char_inv. }
  simpl. rewrite (proj2 (str_eqb_neq _ []) Hne), (wf_upstream_digit v Hv). simpl.
  rewrite (proj2 (upstream_chars _)) by apply Hv. by rewrite (proj2 (revision_chars _)) by apply Hv.
Qed.

(** ** Properties *)


(** The canonical spelling of an accepted Debian version is accepted, is its
    own canonical spelling, and compares equal to the original. *)
Theorem debian_canonical_roundtrip s c :
  debianCanonicalVersion s = Ok c ->
  debianCanonicalVersion c = Ok c /\ debianCompareVersions s c = Ok 0.
Proof.
  unfold debianCanonicalVersion, debianCompareVersions. intros H.
  apply result_bind_ok in H as (v & Hp & [= <-]). rewrite Hp.
  pose proof (parse_render_debian v (parse_debian_wf _ _ Hp)) as Hr. rewrite Hr. simpl. split.
  - f_equal. unfold renderDebian. simpl. by rewrite normalizeDecimal_trim.
  - f_equal. unfold compareDebian; simpl. rewrite (cmp_refl compareDebianPart).
    rewrite (cmp_opp (normalizeDecimal (deb_epoch v)) (deb_epoch v)), compareDecimal_normalize.
    by rewrite (cmp_refl compareDebianPart).
Qed.

Lemma debian_canonical_roundtrip_witness :
  debianCanonicalVersion (bs "1.2~rc1-3") = Ok (bs "1.2~rc1-3")
  /\ debianCompareVersions (bs "0:1.2~rc1-3") (bs "1.2~rc1-3") = Ok 0.
Proof. apply (debian_canonical_roundtrip (bs "0:1.2~rc1-3")). vm_compute. reflexivity. Defined.
