(* ===== verification/Cran.v ===== *)
(** * CRAN versions (internal/packagepolicy/cran.go)

    The scanning parser of R's package_version, its ordering and the canonical
    spelling of an exact version. *)

From S2P Require Export Decimal.

Record cranVersion := { cran_components : list gostring }.

Definition is_cran_separator (c : Z) : bool := (c =? ch ".") || (c =? ch "-").

(** The scan: [current] is [value[start:index]]. *)
Fixpoint cranScan (value current : gostring) : result (list gostring) :=
  match value with
  | c :: rest =>
    if is_cran_separator c then
      if str_eqb current [] then fail "CRAN version contains an empty numeric component" else
      components ← cranScan rest [];
      Ok (normalizeDecimal current :: components)
    else if negb (isASCIIDigit c) then fail "CRAN version contains invalid character %q"
    else cranScan rest (current ++ [c])
  | [] =>
    if str_eqb current [] then fail "CRAN version contains an empty numeric component"
    else Ok [normalizeDecimal current]
  end.

Definition parseCRANVersion (value : gostring) : result cranVersion :=
  if blank_or_spaced value || has_space_or_control value
  then fail "CRAN version must be non-empty and contain no whitespace or control characters" else
  components ← cranScan value [];
  if len components <? 2
  then fail "CRAN version must contain at least two numeric components"
  else Ok {| cran_components := components |}.

Definition cranValidateVersion (version : gostring) : result unit :=
  _ ← parseCRANVersion version; Ok ().

(** The index loop of [CompareVersions]; a side that ran out reads ["0"]. *)
Definition compareCRAN (a b : cranVersion) : Z :=
  cmp_padded compareDecimal (bs "0") (cran_components a) (cran_components b).

Definition cranCompareVersions (left right : gostring) : result Z :=
  a ← wrap "parse left CRAN version: %w" (parseCRANVersion left);
  b ← wrap "parse right CRAN version: %w" (parseCRANVersion right);
  Ok (compareCRAN a b).

Definition cranSupportsRanges : bool := false.

(** The loop that drops trailing ["0"] components, on the reversed slice. *)
Fixpoint cranTrim_rev (components : list gostring) : list gostring :=
  match components with
  | x :: ((_ :: _ :: _) as rest) => if str_eqb x (bs "0") then cranTrim_rev rest else components
  | _ => components
  end.

Definition cranTrim (components : list gostring) : list gostring :=
  rev (cranTrim_rev (rev components)).

Definition cranCanonicalVersion (value : gostring) : result gostring :=
  version ← parseCRANVersion value;
  Ok (strings_join (cranTrim (cran_components version)) (ch ".")).

(** ** The accepted grammar *)

(** Both separators read as ['.']. *)
Definition dotted (value : gostring) : gostring :=
  (fun c => if c =? ch "-" then ch "." else c) <$> value.

Definition numeral (s : gostring) : Prop := s <> [] /\ digits s.

Lemma digit_not_dot c : digit c -> c <> ch ".".
Proof. byte_tac. Qed.

Lemma digits_no_dot s : digits s -> ch "." ∉ s.
Proof. intros Hs. eapply Forall_not_elem; [exact Hs|]. byte_tac. Qed.

Lemma cranScan_ok value current cs :
  digits current ->
  cranScan value current = Ok cs <->
  Forall numeral (strings_split (current ++ dotted value) (ch "."))
  /\ cs = normalizeDecimal <$> strings_split (current ++ dotted value) (ch ".").
Proof.
  revert current cs; induction value as [|c value IH]; intros current cs Hd; simpl.
  - rewrite app_nil_r, split_no_sep by by apply digits_no_dot.
    rewrite Forall_singleton. unfold numeral.
    destruct (str_eqb current []) eqn:E; [apply str_eqb_eq in E | apply str_eqb_neq in E]; naive_solver.
  - destruct (is_cran_separator c) eqn:Es.
    + assert (Hc : (if c =? ch "-" then ch "." else c) = ch ".").
      { unfold is_cran_separator in Es. go_bool.
        destruct (Z.eqb_spec c (ch "-")); [done|]. by destruct Es as [Es%Z.eqb_eq|?]. }
      rewrite Hc, split_app by by apply digits_no_dot. rewrite Forall_cons, fmap_cons.
      specialize (IH [] ). unfold numeral at 1.
      destruct (str_eqb current []) eqn:E; [apply str_eqb_eq in E as ->; naive_solver|].
      apply str_eqb_neq in E. rewrite result_bind_ok. setoid_rewrite IH; [|constructor].
      simpl. naive_solver.
    + unfold is_cran_separator in Es. apply orb_false_iff in Es as [Ed Em].
      rewrite Em. apply Z.eqb_neq in Ed.
      destruct (isASCIIDigit c) eqn:E; simpl.
      * rewrite IH by (apply Forall_app; split; [done|]; by apply Forall_singleton, isASCIIDigit_true).
        by rewrite <- (assoc_L app).
      * split; [done|]. intros [HF _]. apply isASCIIDigit_false in E.
        assert (Hj : Forall (fun c => digit c \/ c = ch ".") (current ++ c :: dotted value)).
        { rewrite <- (join_split (current ++ c :: dotted value) (ch ".")).
          apply Forall_strings_join; [by right|].
          eapply Forall_impl; [exact HF|]. intros p [_ Hp].
          eapply Forall_impl; [exact Hp|]. by left. }
        apply Forall_app in Hj as [_ [[?|?] _]%Forall_cons]; done.
Qed.

Lemma cran_bytes_graphic s pieces :
  dotted s = strings_join pieces (ch ".") -> Forall numeral pieces -> Forall graphic s.
Proof.
  intros Hs HF.
  assert (Hg : Forall (fun c => digit c \/ c = ch ".") (dotted s)).
  { rewrite Hs. apply Forall_strings_join; [by right|]. eapply Forall_impl; [exact HF|].
    intros p [_ Hp]. eapply Forall_impl; [exact Hp|]. by left. }
  unfold dotted in Hg. apply Forall_fmap in Hg. eapply Forall_impl; [exact Hg|].
  intros c Hc. simpl in Hc. revert Hc. destruct (Z.eqb_spec c (ch "-")); byte_tac.
Qed.

Lemma dotted_nonempty s : dotted s <> [] <-> s <> [].
Proof. by destruct s. Qed.

Lemma parseCRAN_ok s v :
  parseCRANVersion s = Ok v <->
  exists pieces, (2 <= length pieces)%nat /\ Forall numeral pieces
    /\ dotted s = strings_join pieces (ch ".")
    /\ v = {| cran_components := normalizeDecimal <$> pieces |}.
Proof.
  unfold parseCRANVersion. split.
  - intros H. destruct (blank_or_spaced s || has_space_or_control s); [done|].
    apply result_bind_ok in H as (cs & [HF ->]%cranScan_ok & H); [|constructor].
    simpl in *. destruct (Z.ltb_spec (len (normalizeDecimal <$> strings_split (dotted s) (ch "."))) 2);
      [done|]. injection H as <-. unfold len in *. rewrite length_fmap in *.
    exists (strings_split (dotted s) (ch ".")). rewrite join_split. split_and!; auto. lia.
  - intros (ps & Hl & HF & Hs & ->).
    assert (Hg : Forall graphic s) by by eapply cran_bytes_graphic.
    assert (Hsp : strings_split (dotted s) (ch ".") = ps).
    { rewrite Hs. apply split_join; [by destruct ps; simpl in Hl; [lia|]|].
      eapply Forall_impl; [exact HF|]. intros p [_ Hp]. by apply digits_no_dot. }
    assert (s <> []).
    { intros ->. destruct ps as [|p [|q ps]]; simpl in *; try lia.
      apply Forall_cons in HF as [[Hp _] _]. by destruct p. }
    rewrite blank_or_spaced_graphic, has_space_or_control_graphic by done. simpl.
    rewrite (proj2 (cranScan_ok s [] (normalizeDecimal <$> ps) ltac:(constructor))); [|simpl; rewrite Hsp; done].
    simpl. unfold len. rewrite length_fmap. rewrite (proj2 (Z.ltb_ge _ _)) by lia. done.
Qed.

(** ** Ordering and canonical spelling *)

Lemma compareCRAN_three_way : ThreeWay compareCRAN.
Proof. apply (cmp_on_three_way cran_components), _. Qed.
#[export] Existing Instance compareCRAN_three_way.

Definition cran_wf (v : cranVersion) : Prop :=
  (2 <= length (cran_components v))%nat /\ Forall canonical_decimal (cran_components v).

Lemma parseCRAN_wf s v : parseCRANVersion s = Ok v -> cran_wf v.
Proof.
  intros (ps & Hl & HF & _ & ->)%parseCRAN_ok. split; simpl; [by rewrite length_fmap|].
  apply Forall_fmap. eapply Forall_impl; [exact HF|]. intros p [_ Hp]. by apply normalizeDecimal_canonical.
Qed.

Lemma rev_replicate {A} k (x : A) : rev (replicate k x) = replicate k x.
Proof. rewrite rev_alt. apply (reverse_replicate k x). Qed.

Lemma cranTrim_rev_zeros k l :
  (2 <= length l)%nat -> cranTrim_rev (replicate k (bs "0") ++ l) = cranTrim_rev l.
Proof.
  intros Hl. induction k as [|k IH]; [done|].
  rewrite replicate_S. cbn [cranTrim_rev app]. rewrite str_eqb_refl, IH.
  destruct (replicate k _ ++ l) as [|x [|y r]] eqn:E; [| |done];
    apply (f_equal length) in E; rewrite length_app in E; simpl in E; lia.
Qed.

Lemma cranTrim_app k l :
  (2 <= length l)%nat -> cranTrim (l ++ replicate k (bs "0")) = cranTrim l.
Proof.
  intros Hl. unfold cranTrim. rewrite rev_app_distr. f_equal.
  replace (rev (replicate k (bs "0"))) with (replicate k (bs "0")).
  - apply cranTrim_rev_zeros. by rewrite length_rev.
  - by rewrite rev_replicate.
Qed.

Lemma cranTrim_rev_spec l :
  (2 <= length l)%nat ->
  exists k, l = replicate k (bs "0") ++ cranTrim_rev l /\ (2 <= length (cranTrim_rev l))%nat.
Proof.
  induction l as [|x l IH]; [simpl; lia|]. intros Hl.
  destruct l as [|y [|z l]]; [simpl in Hl; lia | by exists O |].
  cbn [cranTrim_rev]. destruct (str_eqb x (bs "0")) eqn:E.
  - apply str_eqb_eq in E as ->. destruct IH as (k & Hk & Hl'); [simpl; lia|].
    exists (S k). split; [|done]. rewrite replicate_S. simpl. f_equal. exact Hk.
  - exists O. simpl. split; [done | lia].
Qed.

Lemma cranTrim_spec l :
  (2 <= length l)%nat ->
  exists k, l = cranTrim l ++ replicate k (bs "0") /\ (2 <= length (cranTrim l))%nat.
Proof.
  intros Hl. destruct (cranTrim_rev_spec (rev l)) as (k & Hk & Hl'); [by rewrite length_rev|].
  exists k. unfold cranTrim. rewrite length_rev. split; [|done].
  rewrite <- (rev_involutive l), Hk at 1. by rewrite rev_app_distr, rev_replicate.
Qed.

Lemma cranTrim_compare l r n :
  (length l <= n)%nat -> (length r <= n)%nat ->
  Forall canonical_decimal l -> Forall canonical_decimal r ->
  cmp_padded compareDecimal (bs "0") l r = 0 <-> pad (bs "0") n l = pad (bs "0") n r.
Proof.
  intros Hl Hr Cl Cr. rewrite (cmp_padded_pad compareDecimal (bs "0") n l r) by done. rewrite cmp_list_eq.
  assert (Hp : forall l, Forall canonical_decimal l -> Forall canonical_decimal (pad (bs "0") n l)).
  { intros k Hk. apply Forall_app. split; [done|]. apply Forall_replicate. by apply canonical_decimal_single. }
  apply Hp in Cl. apply Hp in Cr.
  revert Cl Cr. generalize (pad (bs "0") n l) (pad (bs "0") n r). clear.
  intros l r Hl; revert r; induction Hl as [|x l Hx Hl IH]; intros r Hr.
  - split; [by intros ?%Forall2_nil_inv_l | intros <-; constructor].
  - destruct Hr as [|y r Hy Hr]; [split; [by intros ?%Forall2_cons_nil_inv | done]|].
    rewrite Forall2_cons, (canonical_compare_eq x y), (IH r) by done. naive_solver.
Qed.

Lemma cranTrim_eq v w :
  cran_wf v -> cran_wf w ->
  compareCRAN v w = 0 <-> cranTrim (cran_components v) = cranTrim (cran_components w).
Proof.
  destruct v as [l], w as [r]. intros [Hl Cl] [Hr Cr]. simpl in *. unfold compareCRAN. simpl.
  set (n := (length l + length r)%nat). rewrite (cranTrim_compare l r n) by (unfold n; lia || done).
  split.
  - intros Hp. apply (f_equal cranTrim) in Hp. unfold pad in Hp. by rewrite !cranTrim_app in Hp.
  - intros Ht. destruct (cranTrim_spec l Hl) as (i & Hi & _), (cranTrim_spec r Hr) as (j & Hj & _).
    rewrite <- Ht in Hj. unfold pad. rewrite Hi, Hj at 1 2. rewrite <- !(assoc_L app), <- !replicate_add.
    do 2 f_equal. apply (f_equal length) in Hi. apply (f_equal length) in Hj.
    rewrite length_app, length_replicate in Hi, Hj. unfold n. rewrite Hi, Hj.
    rewrite !length_app, !length_replicate. lia.
Qed.

Lemma cranTrim_idem l : (2 <= length l)%nat -> cranTrim (cranTrim l) = cranTrim l.
Proof.
  intros Hl. destruct (cranTrim_spec l Hl) as (k & Hk & Ht).
  rewrite Hk at 2. by rewrite cranTrim_app.
Qed.

Lemma cranTrim_wf v : cran_wf v -> cran_wf {| cran_components := cranTrim (cran_components v) |}.
Proof.
  intros [Hl Hc]. destruct (cranTrim_spec _ Hl) as (k & Hk & Ht). split; [done|].
  rewrite Hk in Hc. by apply Forall_app in Hc as [? _].
Qed.

Lemma dotted_id s : ch "-" ∉ s -> dotted s = s.
Proof.
  unfold dotted. intros Hs. rewrite <- (list_fmap_id s) at 2. apply list_fmap_ext.
  intros i c Hi. destruct (Z.eqb_spec c (ch "-")) as [->|]; [|done].
  destruct Hs. by eapply list_elem_of_lookup_2.
Qed.

Lemma parse_cran_join v :
  cran_wf v -> parseCRANVersion (strings_join (cran_components v) (ch ".")) = Ok v.
Proof.
  intros [Hl Hc]. apply parseCRAN_ok. exists (cran_components v).
  assert (HF : Forall numeral (cran_components v)).
  { eapply Forall_impl; [exact Hc|]. intros p Hp.
    split; [by apply canonical_decimal_nonempty | apply Hp]. }
  split_and!; try done.
  - apply dotted_id. eapply (Forall_not_elem (fun c => digit c \/ c = ch ".")).
    + apply Forall_strings_join; [by right|]. eapply Forall_impl; [exact HF|].
      intros p [_ Hp]. eapply Forall_impl; [exact Hp|]. by left.
    + byte_tac.
  - destruct v as [l]. simpl in *. f_equal. rewrite <- (list_fmap_id l) at 1.
    apply list_fmap_ext. intros i p Hi. symmetry. eapply Forall_lookup_1 in Hc as [_ Hp]; done.
Qed.

Lemma cranCanonical_ok s v c :
  parseCRANVersion s = Ok v -> cranCanonicalVersion s = Ok c ->
  parseCRANVersion c = Ok {| cran_components := cranTrim (cran_components v) |}.
Proof.
  intros Hp. unfold cranCanonicalVersion. rewrite Hp. intros [= <-].
  apply (parse_cran_join {| cran_components := _ |}), cranTrim_wf. by eapply parseCRAN_wf.
Qed.

(** ** Properties *)

(** A string is an accepted CRAN version exactly when replacing its dashes
    by dots gives at least two non-empty decimal numerals joined by dots; its
    components are then the numerals without superfluous leading zeros. *)
Theorem parseCRANVersion_grammar s v :
  parseCRANVersion s = Ok v <->
  exists pieces, (2 <= length pieces)%nat /\ Forall numeral pieces
    /\ dotted s = strings_join pieces (ch ".")
    /\ v = {| cran_components := normalizeDecimal <$> pieces |}.
Proof. apply parseCRAN_ok. Qed.

(** Canonical spellings of CRAN versions identify exactly the versions that
    compare as equal, and canonicalization is idempotent; the comparison is a
    total preorder although the sides have different lengths. *)
Theorem cran_canonical_identity s t v w cs ct :
  parseCRANVersion s = Ok v -> parseCRANVersion t = Ok w ->
  cranCanonicalVersion s = Ok cs -> cranCanonicalVersion t = Ok ct ->
  (cranCompareVersions s t = Ok 0 <-> cs = ct)
  /\ cranCanonicalVersion cs = Ok cs /\ ThreeWay compareCRAN.
Proof.
  intros Hv Hw Hs Ht. pose proof (cranCanonical_ok _ _ _ Hv Hs) as Hps.
  pose proof (cranCanonical_ok _ _ _ Hw Ht) as Hpt.
  pose proof (parseCRAN_wf _ _ Hv) as Wv. pose proof (parseCRAN_wf _ _ Hw) as Ww.
  split_and!; [| |apply _].
  - unfold cranCompareVersions. rewrite Hv, Hw. simpl.
    transitivity (compareCRAN v w = 0); [split; congruence|]. rewrite cranTrim_eq by done. split.
    + intros He. unfold cranCanonicalVersion in *. rewrite Hv in Hs. rewrite Hw in Ht. simpl in *.
      rewrite He in Hs. congruence.
    + intros ->. congruence.
  - unfold cranCanonicalVersion. rewrite Hps. simpl. rewrite cranTrim_idem by apply Wv.
    unfold cranCanonicalVersion in Hs. rewrite Hv in Hs. simpl in Hs. congruence.
Qed.

Lemma cran_canonical_identity_witness :
  (cranCompareVersions (bs "1.02-0.0") (bs "1-2") = Ok 0 <-> bs "1.2" = bs "1.2")
  /\ cranCanonicalVersion (bs "1.2") = Ok (bs "1.2") /\ ThreeWay compareCRAN.
Proof.
  apply (cran_canonical_identity (bs "1.02-0.0") (bs "1-2")
    {| cran_components := [bs "1"; bs "2"; bs "0"; bs "0"] |} {| cran_components := [bs "1"; bs "2"] |}
    (bs "1.2") (bs "1.2")); vm_compute; reflexivity.
Defined.
