(* ===== verification/NuGet.v ===== *)
(** * NuGet versions (internal/packagepolicy/nuget.go)

    The parser with its Int32 bounds, NuGetVersion's ordering and the canonical
    spelling. *)

From S2P Require Export Decimal.

Record nugetReleaseLabel := {
  lbl_value : gostring;
  lbl_numeric : bool;
  lbl_number : Z;
}.

Record nugetVersion := {
  ng_release : list Z;  (* [4]uint32 *)
  ng_prerelease : list nugetReleaseLabel;
}.

Definition digit_rune (character : Z) : bool := in_range (ch "0") (ch "9") character.

Definition isNuGetIdentifierCharacter (character : Z) : bool :=
  digit_rune character || in_range (ch "A") (ch "Z") character
  || in_range (ch "a") (ch "z") character || (character =? ch "-").

Definition validNuGetIdentifier (allowNumericLeadingZero : bool) (identifier : gostring) : bool :=
  if str_eqb identifier [] then false else
  if negb (forallb isNuGetIdentifierCharacter (runes identifier)) then false else
  let allDigits := forallb digit_rune (runes identifier) in
  negb (negb allowNumericLeadingZero && allDigits && (1 <? len identifier)
        && starts_with_zero identifier).

Definition validNuGetIdentifiers (value : gostring) (allowNumericLeadingZero : bool) : bool :=
  if str_eqb value [] then false else
  forallb (validNuGetIdentifier allowNumericLeadingZero) (strings_split value (ch ".")).

Definition maxInt32 : gostring := bs "2147483647".

Definition parseNuGetReleaseNumber (value : gostring) : result Z :=
  if str_eqb value [] then fail "component is empty" else
  if negb (forallb digit_rune (runes value)) then fail "component must contain only ASCII digits" else
  let canonical := trim_left_zeros value in
  if str_eqb canonical [] then Ok 0 else
  if (len canonical >? len maxInt32)
     || (len canonical =? len maxInt32) && (strings_compare canonical maxInt32 >? 0)
  then fail "component exceeds 2147483647"
  else parse_uint canonical 32.

(** The pair [(number, numeric)]. *)
Definition parseNuGetPrereleaseNumber (value : gostring) : Z * bool :=
  if negb (forallb digit_rune (runes value)) then (0, false) else
  match parse_uint value 31 with
  | Ok number => (number, true)
  | Err _ => (0, false)
  end.

Definition parseNuGetLabel (label : gostring) : nugetReleaseLabel :=
  let canonical := lowerASCII label in
  let '(number, numeric) := parseNuGetPrereleaseNumber canonical in
  {| lbl_value := canonical; lbl_numeric := numeric; lbl_number := number |}.

Definition parseNuGetVersion (value : gostring) : result nugetVersion :=
  if blank_or_spaced value || has_space_or_control value
  then fail "NuGet version must be non-empty and contain no whitespace or control characters" else
  let '(public, metadata, hasMetadata) := strings_cut value (ch "+") in
  _ ← reject_if (hasMetadata && (mem (ch "+") metadata || negb (validNuGetIdentifiers metadata true)))
        "invalid NuGet build metadata";
  let '(core, prerelease, hasPrerelease) := strings_cut public (ch "-") in
  _ ← reject_if (hasPrerelease && negb (validNuGetIdentifiers prerelease false))
        "invalid NuGet prerelease labels";
  let parts := strings_split core (ch ".") in
  _ ← reject_if ((len parts <? 1) || (len parts >? 4))
        "NuGet release must contain one to four numeric components";
  numbers ← map_result (fun part =>
    wrap "invalid NuGet release component %q: %w" (parseNuGetReleaseNumber part)) parts;
  Ok {| ng_release := pad 0 4 numbers;
        ng_prerelease := if hasPrerelease : bool
                         then parseNuGetLabel <$> strings_split prerelease (ch ".") else [] |}.

Definition nugetValidateVersion (value : gostring) : result unit :=
  _ ← parseNuGetVersion value; Ok ().

Definition compareNuGetReleaseLabels (left right : nugetReleaseLabel) : Z :=
  if lbl_numeric left && lbl_numeric right then
    if lbl_number left <? lbl_number right then -1
    else if lbl_number left >? lbl_number right then 1 else 0
  else if lbl_numeric left then -1
  else if lbl_numeric right then 1
  else strings_compare (lbl_value left) (lbl_value right).

(** The loop over the prerelease labels; [nil] on one side is a release. *)
Fixpoint compareNuGetLabels (left right : list nugetReleaseLabel) : Z :=
  match left, right with
  | [], [] => 0
  | [], _ :: _ => -1
  | _ :: _, [] => 1
  | x :: l, y :: r => or_else (compareNuGetReleaseLabels x y) (compareNuGetLabels l r)
  end.

(** [for index := range left.release] over the four-element arrays. *)
Fixpoint compareNuGetRelease (indices : list nat) (left right : list Z) : Z :=
  match indices with
  | index :: indices =>
    let a := nth index left 0 in
    let b := nth index right 0 in
    if a <? b then -1 else if a >? b then 1 else compareNuGetRelease indices left right
  | [] => 0
  end.

Definition compareNuGetVersions (left right : nugetVersion) : Z :=
  or_else (compareNuGetRelease (seq 0 4) (ng_release left) (ng_release right))
    (match ng_prerelease left, ng_prerelease right with
     | [], [] => 0
     | [], _ :: _ => 1
     | _ :: _, [] => -1
     | l, r => compareNuGetLabels l r
     end).

Definition nugetCompareVersions (left right : gostring) : result Z :=
  a ← wrap "parse left NuGet version: %w" (parseNuGetVersion left);
  b ← wrap "parse right NuGet version: %w" (parseNuGetVersion right);
  Ok (compareNuGetVersions a b).

Definition nugetSupportsRanges : bool := false.

Definition nugetCanonical (version : nugetVersion) : gostring :=
  let r := ng_release version in
  let shown := if nth 3 r 0 =? 0 then take 3 r else r in
  strings_join (format_uint <$> shown) (ch ".")
  ++ (if len (ng_prerelease version) =? 0 then []
      else ch "-" :: strings_join (lbl_value <$> ng_prerelease version) (ch ".")).

Definition nugetCanonicalVersion (value : gostring) : result gostring :=
  version ← parseNuGetVersion value;
  Ok (nugetCanonical version).

(** ** Characters *)

Definition nuget_char (c : Z) : Prop :=
  digit c \/ 65 <= c <= 90 \/ 97 <= c <= 122 \/ c = 45.

Lemma isNuGetIdentifierCharacter_true c : isNuGetIdentifierCharacter c = true <-> nuget_char c.
Proof. unfold isNuGetIdentifierCharacter, digit_rune, in_range, nuget_char, digit. go_chars. lia. Qed.

Lemma digit_rune_true c : digit_rune c = true <-> digit c.
Proof. unfold digit_rune, in_range, digit. go_chars. lia. Qed.

(** A test that only accepts graphic ASCII runes is a test of the bytes. *)
Lemma forallb_runes (f : Z -> bool) (P : Z -> Prop) s :
  (forall c, f c = true <-> P c) -> (forall c, P c -> graphic c) ->
  forallb f (runes s) = true <-> Forall P s.
Proof.
  intros Hf Hg. rewrite (forallb_Forall f P) by done. split; intros HF.
  - rewrite <- (runes_all_ascii s); [done|].
    eapply Forall_impl; [exact HF|]. intros c Hc%Hg. unfold graphic in Hc. lia.
  - rewrite runes_ascii; [done|]. apply graphic_ascii. by eapply Forall_impl.
Qed.

Lemma forallb_digit_runes s : forallb digit_rune (runes s) = true <-> digits s.
Proof. apply forallb_runes; [apply digit_rune_true | byte_tac]. Qed.

Lemma forallb_nuget_runes s :
  forallb isNuGetIdentifierCharacter (runes s) = true <-> Forall nuget_char s.
Proof. apply forallb_runes; [apply isNuGetIdentifierCharacter_true|]. unfold nuget_char. byte_tac. Qed.

Lemma nuget_lower_char c : nuget_char c -> nuget_char (byte_lower c).
Proof. unfold nuget_char, byte_lower. case_match; byte_tac. Qed.

Lemma lower_digit c : digit (byte_lower c) <-> digit c.
Proof. unfold byte_lower. case_match; byte_tac. Qed.

Lemma lowerASCII_digits s : digits (lowerASCII s) <-> digits s.
Proof.
  unfold lowerASCII. rewrite Forall_fmap. apply Forall_iff. intros c. apply lower_digit.
Qed.

Lemma lowerASCII_idem s : lowerASCII (lowerASCII s) = lowerASCII s.
Proof. apply fmap_byte_lower_idem. Qed.

(** ** Identifiers and numbers *)

(** A prerelease identifier: no numeral with a superfluous leading zero. *)
Definition nuget_label (s : gostring) : Prop :=
  s <> [] /\ Forall nuget_char s /\ (digits s -> canonical_decimal s).

Lemma validNuGetIdentifier_label s : validNuGetIdentifier false s = true <-> nuget_label s.
Proof.
  unfold validNuGetIdentifier, nuget_label.
  destruct (str_eqb s []) eqn:E; [apply str_eqb_eq in E; naive_solver|]. apply str_eqb_neq in E.
  destruct (forallb isNuGetIdentifierCharacter _) eqn:Ec; simpl.
  2:{ split; [done|]. intros (_ & H%forallb_nuget_runes & _). congruence. }
  apply forallb_nuget_runes in Ec. rewrite negb_true_iff.
  destruct (forallb digit_rune (runes s)) eqn:Ed; simpl.
  - apply forallb_digit_runes in Ed. rewrite canonical_no_leading_zero by done. naive_solver.
  - split; [|done]. intros _. split_and!; [done..|]. intros Hd%forallb_digit_runes. congruence.
Qed.

Lemma validNuGetIdentifiers_ok s :
  validNuGetIdentifiers s false = true <-> Forall nuget_label (strings_split s (ch ".")).
Proof.
  unfold validNuGetIdentifiers. destruct (str_eqb s []) eqn:E.
  - apply str_eqb_eq in E as ->. split; [done|]. by intros [[? _] _]%Forall_cons.
  - apply forallb_Forall, validNuGetIdentifier_label.
Qed.

Lemma lowerASCII_label s : nuget_label s -> nuget_label (lowerASCII s).
Proof.
  intros (Hne & Hc & Hd). split_and!.
  - by destruct s.
  - unfold lowerASCII. apply Forall_fmap. eapply Forall_impl; [exact Hc|]. intros c; apply nuget_lower_char.
  - intros HD. apply (proj1 (lowerASCII_digits s)) in HD. replace (lowerASCII s) with s; [by apply Hd|].
    unfold lowerASCII. rewrite <- (list_fmap_id s) at 1. apply list_fmap_ext.
    intros i c Hi. eapply Forall_lookup_1 in HD; [|exact Hi]. simpl. unfold byte_lower. case_match; byte_tac.
Qed.

Definition int32_max : Z := 2147483647.

Lemma parseNuGetReleaseNumber_ok s n :
  parseNuGetReleaseNumber s = Ok n <->
  s <> [] /\ digits s /\ dec_value s = n /\ n <= int32_max.
Proof.
  unfold parseNuGetReleaseNumber. cbv zeta.
  destruct (str_eqb s []) eqn:E; [apply str_eqb_eq in E; naive_solver|]. apply str_eqb_neq in E.
  destruct (forallb digit_rune (runes s)) eqn:Ed; simpl.
  2:{ split; [done|]. intros (_ & H%forallb_digit_runes & _). congruence. }
  apply forallb_digit_runes in Ed. rewrite <- (dec_value_trim s).
  pose proof (trim_left_zeros_digits s Ed) as Ht.
  destruct (str_eqb (trim_left_zeros s) []) eqn:E0.
  { apply str_eqb_eq in E0 as ->. simpl. unfold int32_max. split; [intros [= <-]; split_and!; done || lia | by intros (_ & _ & <- & _)]. }
  apply str_eqb_neq in E0.
  set (c := trim_left_zeros s) in *.
  assert (Hcmp : ((len c >? 10) || (len c =? 10) && (strings_compare c maxInt32 >? 0))
                 = (dec_value c >? int32_max)).
  { assert (Hv : compareDecimal c maxInt32 = cmp_Z (dec_value c) int32_max).
    { apply compareDecimal_value; [done|]. unfold maxInt32. digits_tac. }
    unfold compareDecimal in Hv. unfold c in Hv. rewrite trim_left_zeros_idem in Hv.
    fold c in Hv. rewrite (signOf_id (strings_compare _ _)) in Hv by apply cmp_range.
    change (trim_left_zeros maxInt32) with maxInt32 in Hv.
    change (len maxInt32) with 10 in Hv.
    generalize dependent (strings_compare c maxInt32). intros v Hv.
    unfold cmp_Z, signOf in Hv. clear -Hv. repeat case_match; lia. }
  change (len maxInt32) with 10. rewrite Hcmp.
  destruct (Z.gtb_spec (dec_value c) int32_max).
  - split; [done|]. intros (_ & _ & <- & ?). lia.
  - rewrite parse_uint_ok. unfold int32_max in *. split; [naive_solver|].
    intros (_ & _ & <- & ?). split_and!; try done. lia.
Qed.

(** ** Well-formed versions *)

Definition nuget_label_wf (l : nugetReleaseLabel) : Prop :=
  nuget_label (lbl_value l) /\ parseNuGetLabel (lbl_value l) = l.

Record nuget_wf (v : nugetVersion) : Prop := {
  nw_release : length (ng_release v) = 4%nat;
  nw_bounds : Forall (fun n => 0 <= n <= int32_max) (ng_release v);
  nw_labels : Forall nuget_label_wf (ng_prerelease v);
}.

Lemma parseNuGetLabel_wf s : nuget_label s -> nuget_label_wf (parseNuGetLabel s).
Proof.
  intros Hs. unfold nuget_label_wf, parseNuGetLabel.
  destruct (parseNuGetPrereleaseNumber (lowerASCII s)) as [n b] eqn:E. simpl.
  rewrite lowerASCII_idem, E. split; [by apply lowerASCII_label | done].
Qed.

Lemma parseNuGet_wf s v : parseNuGetVersion s = Ok v -> nuget_wf v.
Proof.
  unfold parseNuGetVersion. intros H.
  destruct (blank_or_spaced s || has_space_or_control s); [done|].
  destruct (strings_cut s (ch "+")) as [[public metadata] hasMetadata].
  apply result_bind_ok in H as ([] & _ & H).
  destruct (strings_cut public (ch "-")) as [[core prerelease] hasPrerelease].
  apply result_bind_ok in H as ([] & Hpre%reject_if_ok & H).
  apply result_bind_ok in H as ([] & Hlen%reject_if_ok & H).
  apply result_bind_ok in H as (ns & Hns & [= <-]).
  apply map_result_ok in Hns. pose proof (Forall2_length _ _ _ Hns) as Hl.
  apply orb_false_iff in Hlen as [? Hlen]. unfold len in Hlen. rewrite Hl in Hlen.
  split; simpl.
  - unfold pad. rewrite length_app, length_replicate. lia.
  - apply Forall_app. split; [|apply Forall_replicate; unfold int32_max; lia].
    eapply Forall2_Forall_r; [exact Hns|]. apply Forall_true. intros part n.
    rewrite wrap_ok, parseNuGetReleaseNumber_ok. intros (_ & Hd & <- & Hb).
    pose proof (dec_value_bound _ Hd). lia.
  - destruct hasPrerelease; [|done]. simpl in Hpre. apply negb_false_iff in Hpre.
    apply validNuGetIdentifiers_ok in Hpre. apply Forall_fmap.
    eapply Forall_impl; [exact Hpre|]. intros l. apply parseNuGetLabel_wf.
Qed.

Lemma nuget_char_graphic c : nuget_char c -> graphic c.
Proof. unfold nuget_char. byte_tac. Qed.

Lemma format_uint_digits n : 0 <= n -> digits (format_uint n).
Proof. intros Hn. apply (format_uint_spec n Hn). Qed.

Lemma parse_release_format n :
  0 <= n <= int32_max ->
  wrap "invalid NuGet release component %q: %w" (parseNuGetReleaseNumber (format_uint n)) = Ok n.
Proof.
  intros [Hn Hb]. apply wrap_ok, parseNuGetReleaseNumber_ok.
  destruct (format_uint_spec n Hn) as [Hc Hv]. split_and!; try done.
  - by apply canonical_decimal_nonempty.
  - apply Hc.
Qed.

Definition nuget_core_byte (c : Z) : Prop := digit c \/ c = ch ".".

Lemma core_bytes ns :
  Forall (fun n => 0 <= n <= int32_max) ns ->
  Forall nuget_core_byte (strings_join (format_uint <$> ns) (ch ".")).
Proof.
  intros Hb. apply Forall_strings_join; [by right|]. apply Forall_fmap.
  eapply Forall_impl; [exact Hb|]. intros n [Hn _]. simpl.
  eapply Forall_impl; [by apply format_uint_digits|]. by left.
Qed.

Lemma nuget_shown ns :
  length ns = 4%nat ->
  let shown := if nth 3 ns 0 =? 0 then take 3 ns else ns in
  pad 0 4 shown = ns /\ 1 <= len shown <= 4.
Proof.
  destruct ns as [|a [|b [|c [|d [|]]]]]; try done. intros _. simpl.
  destruct (Z.eqb_spec d 0) as [->|]; simpl; unfold len, pad; simpl; split; done || lia.
Qed.

(** The parser on a rendered version: it finds the core and the prerelease the
    rendering joined. *)
Lemma parse_nuget_parts ns labels :
  let core := strings_join (format_uint <$> ns) (ch ".") in
  let text := core ++ (if len labels =? 0 then [] else ch "-" :: strings_join labels (ch ".")) in
  1 <= len ns <= 4 -> Forall (fun n => 0 <= n <= int32_max) ns -> Forall nuget_label labels ->
  parseNuGetVersion text
  = Ok {| ng_release := pad 0 4 ns; ng_prerelease := parseNuGetLabel <$> labels |}.
Proof.
  intros core text Hn Hb Hl. unfold parseNuGetVersion.
  assert (Hcore : Forall nuget_core_byte core) by by apply core_bytes.
  assert (Hjoin : Forall (fun c => nuget_char c \/ c = ch ".") (strings_join labels (ch "."))).
  { apply Forall_strings_join; [by right|]. eapply Forall_impl; [exact Hl|].
    intros l (_ & Hc & _). eapply Forall_impl; [exact Hc|]. by left. }
  assert (Htext : Forall (fun c => nuget_char c \/ c = ch ".") text).
  { apply Forall_app. split.
    - eapply Forall_impl; [exact Hcore|]. intros c [?|?]; [left; by left | by right].
    - destruct (len labels =? 0); [done|]. constructor; [left; unfold nuget_char; byte_tac | done]. }
  assert (Hns : ns <> []) by (destruct ns; simpl in Hn; [unfold len in Hn; simpl in Hn; lia | done]).
  assert (Hdots : Forall (fun x => ch "." ∉ x) (format_uint <$> ns)).
  { apply Forall_fmap. eapply Forall_impl; [exact Hb|]. intros n [H0 _].
    eapply Forall_not_elem; [by apply format_uint_digits|]. byte_tac. }
  assert (Hne : text <> []).
  { unfold text, core. destruct ns as [|n ns]; [done|]. intros [E _]%app_eq_nil.
    apply (f_equal (fun s => strings_split s (ch "."))) in E. rewrite split_join in E by done.
    simpl in E. injection E as E _. apply Forall_cons in Hb as [[H0 _] _].
    by destruct (canonical_decimal_nonempty _ (proj1 (format_uint_spec n H0))). }
  assert (Hg : Forall graphic text).
  { eapply Forall_impl; [exact Htext|]. intros c [Hc| ->]; [by apply nuget_char_graphic | byte_tac]. }
  rewrite blank_or_spaced_graphic, has_space_or_control_graphic by done. simpl orb. cbv iota.
  rewrite (cut_none text).
  2:{ eapply Forall_not_elem; [exact Htext|]. unfold nuget_char. byte_tac. }
  simpl reject_if. cbn [mbind result_bind].
  assert (Hcut : strings_cut text (ch "-")
    = (core, strings_join labels (ch "."), negb (len labels =? 0))).
  { assert (ch "-" ∉ core) by (eapply Forall_not_elem; [exact Hcore|]; unfold nuget_core_byte; byte_tac).
    unfold text. destruct labels as [|l ls].
    - simpl. rewrite app_nil_r. by apply cut_none.
    - assert (len (l :: ls) =? 0 = false) as -> by (rewrite len_cons; pose proof (len_nonneg ls); lia).
      by apply cut_app. }
  rewrite Hcut. unfold core at 1 2 3.
  assert (Hsplit : strings_split (strings_join (format_uint <$> ns) (ch ".")) (ch ".") = format_uint <$> ns).
  { apply split_join; [by destruct ns | done]. }
  rewrite Hsplit.
  assert (Hpre : negb (len labels =? 0) = true ->
    strings_split (strings_join labels (ch ".")) (ch ".") = labels).
  { intros Hz. apply split_join; [by destruct labels|]. eapply Forall_impl; [exact Hl|].
    intros l (_ & Hc & _). eapply Forall_not_elem; [exact Hc|]. unfold nuget_char. byte_tac. }
  replace (negb (len labels =? 0) && negb (validNuGetIdentifiers (strings_join labels (ch ".")) false)) with false.
  2:{ destruct (negb (len labels =? 0)) eqn:E; [|done]. simpl. symmetry. apply negb_false_iff.
      apply validNuGetIdentifiers_ok. by rewrite Hpre. }
  cbn [reject_if mbind result_bind].
  replace ((len (format_uint <$> ns) <? 1) || (len (format_uint <$> ns) >? 4)) with false
    by (unfold len in *; rewrite length_fmap; lia).
  cbn [reject_if mbind result_bind].
  rewrite (proj2 (map_result_ok _ _ ns)).
  - cbn. f_equal. destruct (negb (len labels =? 0)) eqn:E; [by rewrite Hpre|]. by destruct labels.
  - clear -Hb. induction Hb as [|n ns Hn Hb IH]; [constructor|]. rewrite fmap_cons.
    constructor; [by apply parse_release_format | done].
Qed.

(** ** Ordering *)

#[export] Instance compareNuGetRelease_three_way indices : ThreeWay (compareNuGetRelease indices).
Proof.
  induction indices as [|i rest IH]; [by split; intros; simpl; lia|].
  apply (three_way_ext _ (cmp_then (cmp_on (fun l => nth i l 0) cmp_Z) (compareNuGetRelease rest)));
    [|apply _].
  intros l r. unfold cmp_then, cmp_on, cmp_Z. simpl. three_way.
Qed.

Lemma compareNuGetReleaseLabels_split l r :
  compareNuGetReleaseLabels l r
  = cmp_split lbl_numeric (cmp_on lbl_number cmp_Z) (cmp_on lbl_value strings_compare) l r.
Proof.
  unfold compareNuGetReleaseLabels, cmp_split, cmp_on, cmp_Z.
  destruct (lbl_numeric l), (lbl_numeric r); simpl; try done. three_way.
Qed.

#[export] Instance compareNuGetReleaseLabels_three_way : ThreeWay compareNuGetReleaseLabels.
Proof. eapply three_way_ext; [apply compareNuGetReleaseLabels_split | apply _]. Qed.

Lemma compareNuGetLabels_list l r : compareNuGetLabels l r = cmp_list compareNuGetReleaseLabels l r.
Proof. revert r; induction l as [|x l IH]; intros [|y r]; simpl; try done. by rewrite IH. Qed.

Lemma compareNuGetVersions_key v w :
  compareNuGetVersions v w
  = cmp_then (cmp_on ng_release (compareNuGetRelease (seq 0 4)))
      (cmp_on ng_prerelease (cmp_nil_last (cmp_list compareNuGetReleaseLabels))) v w.
Proof.
  unfold compareNuGetVersions, cmp_then, cmp_on. f_equal.
  destruct (ng_prerelease v), (ng_prerelease w); try done. apply compareNuGetLabels_list.
Qed.

#[export] Instance compareNuGetVersions_three_way : ThreeWay compareNuGetVersions.
Proof. eapply three_way_ext; [apply compareNuGetVersions_key | apply _]. Qed.

Lemma compareNuGetRelease_eq l r :
  length l = 4%nat -> length r = 4%nat -> compareNuGetRelease (seq 0 4) l r = 0 -> l = r.
Proof.
  destruct l as [|a0 [|a1 [|a2 [|a3 [|]]]]], r as [|b0 [|b1 [|b2 [|b3 [|]]]]]; try done.
  intros _ _. simpl. repeat case_match; try done. intros _. repeat f_equal; lia.
Qed.

(** A numeric label is the canonical decimal of its number, so equal numbers
    have equal spellings. *)
Lemma nuget_numeric_label l :
  nuget_label_wf l -> lbl_numeric l = true ->
  canonical_decimal (lbl_value l) /\ lbl_number l = dec_value (lbl_value l).
Proof.
  intros [(_ & _ & Hd) <-]. unfold parseNuGetLabel, parseNuGetPrereleaseNumber. simpl.
  set (s := lowerASCII (lbl_value l)).
  assert (Hs : digits s <-> digits (lbl_value l)) by apply lowerASCII_digits.
  assert (Hv : lbl_value l = s -> canonical_decimal (lbl_value l) -> canonical_decimal s) by by intros <-.
  destruct (forallb digit_rune (runes s)) eqn:E; simpl; [|done].
  apply forallb_digit_runes in E.
  destruct (parse_uint s 31) as [n|] eqn:Ep; [|done]. simpl. intros _.
  apply parse_uint_ok in Ep as (_ & _ & <- & _). split; [|done].
  apply Hs in E. pose proof (Hd E) as Hc. unfold s. replace (lowerASCII (lbl_value l)) with (lbl_value l); [done|].
  unfold lowerASCII. rewrite <- (list_fmap_id (lbl_value l)) at 1. apply list_fmap_ext.
  intros i c Hi. eapply Forall_lookup_1 in E; [|exact Hi]. simpl. unfold byte_lower. case_match; byte_tac.
Qed.

Lemma nuget_label_eq l r :
  nuget_label_wf l -> nuget_label_wf r -> compareNuGetReleaseLabels l r = 0 -> l = r.
Proof.
  intros Hl Hr. rewrite compareNuGetReleaseLabels_split. unfold cmp_split, cmp_on.
  assert (He : lbl_value l = lbl_value r -> l = r).
  { intros He. rewrite <- (proj2 Hl), <- (proj2 Hr). by rewrite He. }
  destruct (lbl_numeric l) eqn:El, (lbl_numeric r) eqn:Er; try done.
  - intros Hn. apply (proj1 (cmp_Z_eq _ _)) in Hn. destruct (nuget_numeric_label _ Hl El) as [Cl Vl].
    destruct (nuget_numeric_label _ Hr Er) as [Cr Vr].
    apply He, canonical_decimal_inj; congruence.
  - intros Hs%strings_compare_eq. by apply He.
Qed.

Lemma compareNuGet_eq v w :
  nuget_wf v -> nuget_wf w -> compareNuGetVersions v w = 0 <-> v = w.
Proof.
  intros Hv Hw. split; [|intros <-; apply (cmp_refl compareNuGetVersions)].
  rewrite compareNuGetVersions_key. unfold cmp_then, cmp_on. rewrite or_else_zero.
  intros [Hr Hl]. apply compareNuGetRelease_eq in Hr; [|apply Hv|apply Hw].
  apply cmp_nil_last_list_eq in Hl.
  assert (Hp : ng_prerelease v = ng_prerelease w).
  { destruct Hv as [_ _ Hv], Hw as [_ _ Hw]. revert Hv Hw. clear -Hl.
    induction Hl as [|x y l r Hxy Hl IH]; [done|]. intros [Hx Hv]%Forall_cons [Hy Hw]%Forall_cons.
    f_equal; [by apply nuget_label_eq | by apply IH]. }
  destruct v, w. simpl in *. congruence.
Qed.

Lemma parse_nuget_canonical v : nuget_wf v -> parseNuGetVersion (nugetCanonical v) = Ok v.
Proof.
  intros [Hl Hb Hp]. unfold nugetCanonical. cbv zeta.
  destruct (nuget_shown _ Hl) as [Hpad Hlen]. cbv zeta in Hpad, Hlen.
  replace (len (ng_prerelease v)) with (len (lbl_value <$> ng_prerelease v))
    by (unfold len; by rewrite length_fmap).
  rewrite parse_nuget_parts.
  - rewrite Hpad. destruct v as [r p]. simpl in *. do 2 f_equal. rewrite <- list_fmap_compose.
    rewrite <- (list_fmap_id p) at 2. apply list_fmap_ext. intros i l Hi.
    by eapply Forall_lookup_1 in Hp as [_ ?].
  - exact Hlen.
  - case_match; [by apply Forall_take | done].
  - apply Forall_fmap. eapply Forall_impl; [exact Hp|]. by intros l [? _].
Qed.

(** ** Properties *)

(** Every accepted NuGet version stays within NuGet's Int32 bounds with four
    release numbers, its canonical spelling is accepted and parses to the same
    version, and it is its own canonical spelling. *)
Theorem nuget_canonical_roundtrip s v :
  parseNuGetVersion s = Ok v ->
  length (ng_release v) = 4%nat /\ Forall (fun n => 0 <= n <= int32_max) (ng_release v)
  /\ parseNuGetVersion (nugetCanonical v) = Ok v
  /\ nugetCanonicalVersion (nugetCanonical v) = Ok (nugetCanonical v).
Proof.
  intros Hw%parseNuGet_wf. pose proof (parse_nuget_canonical v Hw) as Hp. destruct Hw as [? ? ?].
  split_and!; [done..|]. unfold nugetCanonicalVersion. by rewrite Hp.
Qed.

Lemma nuget_canonical_roundtrip_witness :
  let v := {| ng_release := [1; 2; 0; 0]; ng_prerelease := [parseNuGetLabel (bs "RC"); parseNuGetLabel (bs "1")] |} in
  length (ng_release v) = 4%nat /\ Forall (fun n => 0 <= n <= int32_max) (ng_release v)
  /\ parseNuGetVersion (nugetCanonical v) = Ok v
  /\ nugetCanonicalVersion (nugetCanonical v) = Ok (nugetCanonical v).
Proof. intros v. apply (nuget_canonical_roundtrip (bs "01.2-RC.1+build.07")). vm_compute. reflexivity. Defined.

(** NuGet's comparison is a total preorder, and two accepted versions compare
    as equal exactly when they have the same canonical spelling (so case of
    labels, omitted components, leading zeros and build metadata do not count). *)
Theorem nuget_compare_identity s t v w :
  parseNuGetVersion s = Ok v -> parseNuGetVersion t = Ok w ->
  (nugetCompareVersions s t = Ok 0 <-> nugetCanonical v = nugetCanonical w)
  /\ ThreeWay compareNuGetVersions.
Proof.
  intros Hv Hw. split; [|apply _]. unfold nugetCompareVersions. rewrite Hv, Hw. simpl.
  apply parseNuGet_wf in Hv. apply parseNuGet_wf in Hw.
  transitivity (compareNuGetVersions v w = 0); [split; congruence|].
  rewrite compareNuGet_eq by done. split; [congruence|]. intros He.
  apply parse_nuget_canonical in Hv. apply parse_nuget_canonical in Hw. congruence.
Qed.

Lemma nuget_compare_identity_witness :
  (nugetCompareVersions (bs "1.0.0-RC") (bs "1-rc+x") = Ok 0
   <-> nugetCanonical {| ng_release := [1; 0; 0; 0]; ng_prerelease := [parseNuGetLabel (bs "RC")] |}
       = nugetCanonical {| ng_release := [1; 0; 0; 0]; ng_prerelease := [parseNuGetLabel (bs "rc")] |})
  /\ ThreeWay compareNuGetVersions.
Proof. apply nuget_compare_identity; vm_compute; reflexivity. Defined.
