(* ===== verification/Regex.v ===== *)
(** * Regular expressions

    The fragment of Go's [regexp] package that the PEP 440 pattern uses, anchored
    at the start of the text: [FindStringSubmatch] returns the leftmost match a
    backtracking search finds first, with one text per group (empty when the
    group took no part). *)

From S2P Require Export GoStrings.

Inductive regex :=
  | REmpty
  | RClass (accepts : Z -> bool)
  | RSeq (r1 r2 : regex)
  | RAlt (r1 r2 : regex)
  | RStar (r : regex)
  | RGroup (name : string) (r : regex)
  | REnd.

Definition ROpt (r : regex) : regex := RAlt r REmpty.
Definition RPlus (r : regex) : regex := RSeq r (RStar r).

(** Under [(?i)], on ASCII text: letters match without regard to case. *)
Definition fold_class (f : Z -> bool) (c : Z) : bool :=
  f c || f (byte_lower c) || (in_range (ch "a") (ch "z") c && f (c - 32)).
Definition RByte (b : Z) : regex := RClass (fold_class (Z.eqb b)).
Fixpoint RLit (s : gostring) : regex :=
  match s with
  | [] => REmpty
  | [c] => RByte c
  | c :: s => RSeq (RByte c) (RLit s)
  end.
Fixpoint RAlts (l : list regex) : regex :=
  match l with
  | [] => RClass (fun _ => false)
  | [r] => r
  | r :: l => RAlt r (RAlts l)
  end.

(** The texts of the groups, the latest first. *)
Definition captures : Type := list (string * gostring).

Fixpoint capture (caps : captures) (name : string) : gostring :=
  match caps with
  | [] => []
  | (n, text) :: caps => if String.eqb n name then text else capture caps name
  end.

Definition first_of {A} (o1 o2 : option A) : option A :=
  match o1 with Some a => Some a | None => o2 end.

(** Backtracking with a continuation.  A round of a star that consumes nothing
    ends it, so the length of the text is enough fuel for the star. *)
Definition continuation : Type := gostring -> captures -> option captures.

Definition rstar (body : gostring -> captures -> continuation -> option captures)
    (k : continuation) : nat -> gostring -> captures -> option captures :=
  fix star fuel s caps :=
    match fuel with
    | O => k s caps
    | S fuel =>
      first_of (body s caps (fun s' caps' =>
        if (length s' <? length s)%nat then star fuel s' caps' else None)) (k s caps)
    end.

Fixpoint rmatch (r : regex) (s : gostring) (caps : captures) (k : continuation)
    : option captures :=
  match r with
  | REmpty => k s caps
  | RClass f => match s with c :: s' => if f c then k s' caps else None | [] => None end
  | RSeq r1 r2 => rmatch r1 s caps (fun s' caps' => rmatch r2 s' caps' k)
  | RAlt r1 r2 => first_of (rmatch r1 s caps k) (rmatch r2 s caps k)
  | RStar r1 => rstar (rmatch r1) k (length s) s caps
  | RGroup name r1 =>
    rmatch r1 s caps (fun s' caps' => k s' ((name, take (length s - length s') s) :: caps'))
  | REnd => match s with [] => k s caps | _ :: _ => None end
  end.

(** [FindStringSubmatch] of a pattern that starts with [^]. *)
Definition find_submatch (r : regex) (s : gostring) : option captures :=
  rmatch r s [] (fun _ caps => Some caps).

(** ** The language of an expression *)

(** [matches r s s' caps caps']: [r] can consume the prefix of [s] that leaves
    [s'], extending the captures. *)
Inductive matches : regex -> gostring -> gostring -> captures -> captures -> Prop :=
  | m_empty s caps : matches REmpty s s caps caps
  | m_class f c s caps : f c = true -> matches (RClass f) (c :: s) s caps caps
  | m_seq r1 r2 s s1 s2 caps caps1 caps2 :
      matches r1 s s1 caps caps1 -> matches r2 s1 s2 caps1 caps2 ->
      matches (RSeq r1 r2) s s2 caps caps2
  | m_alt_l r1 r2 s s' caps caps' : matches r1 s s' caps caps' -> matches (RAlt r1 r2) s s' caps caps'
  | m_alt_r r1 r2 s s' caps caps' : matches r2 s s' caps caps' -> matches (RAlt r1 r2) s s' caps caps'
  | m_star_nil r s caps : matches (RStar r) s s caps caps
  | m_star_cons r s s1 s2 caps caps1 caps2 :
      matches r s s1 caps caps1 -> (length s1 < length s)%nat ->
      matches (RStar r) s1 s2 caps1 caps2 -> matches (RStar r) s s2 caps caps2
  | m_group name r s s' caps caps' :
      matches r s s' caps caps' ->
      matches (RGroup name r) s s' caps ((name, take (length s - length s') s) :: caps')
  | m_end caps : matches REnd [] [] caps caps.

Lemma first_of_Some {A} (o1 o2 : option A) a :
  first_of o1 o2 = Some a <-> o1 = Some a \/ (o1 = None /\ o2 = Some a).
Proof. destruct o1; simpl; naive_solver. Qed.

Lemma first_of_is_Some {A} (o1 o2 : option A) : is_Some (first_of o1 o2) <-> is_Some o1 \/ is_Some o2.
Proof. destruct o1, o2; simpl; rewrite ?is_Some_alt; naive_solver. Qed.

(** Soundness: a result comes from the continuation after a match. *)
Lemma rmatch_sound r s caps k res :
  rmatch r s caps k = Some res ->
  exists s' caps', matches r s s' caps caps' /\ k s' caps' = Some res.
Proof.
  revert s caps k res; induction r as [|f|r1 IH1 r2 IH2|r1 IH1 r2 IH2|r IH|name r IH|]; intros s caps k res.
  - simpl. eauto using matches.
  - simpl. destruct s as [|c s]; [done|]. destruct (f c) eqn:E; [|done]. eauto using matches.
  - simpl. intros (s1 & c1 & H1 & (s2 & c2 & H2 & Hk)%IH2)%IH1. eauto using matches.
  - simpl. intros [H|[_ H]]%first_of_Some; [apply IH1 in H | apply IH2 in H];
      destruct H as (s' & c' & H & Hk); eauto using matches.
  - simpl. generalize (length s). intros n. revert s caps.
    induction n as [|n IHn]; simpl; intros s caps; [eauto using matches|].
    intros [H|[_ H]]%first_of_Some; [|eauto using matches].
    apply IH in H as (s1 & c1 & H1 & H). destruct (Nat.ltb_spec (length s1) (length s)); [|done].
    apply IHn in H as (s2 & c2 & H2 & Hk). eauto using matches.
  - simpl. intros (s' & c' & H & Hk)%IH. eauto using matches.
  - simpl. destruct s; [|done]. eauto using matches.
Qed.

(** Completeness: if some match satisfies the continuation, the search succeeds. *)
Lemma rstar_complete r k s s' caps caps' n :
  (forall s s' caps caps' k, matches r s s' caps caps' -> is_Some (k s' caps') -> is_Some (rmatch r s caps k)) ->
  matches (RStar r) s s' caps caps' -> (length s <= n)%nat -> is_Some (k s' caps') ->
  is_Some (rstar (rmatch r) k n s caps).
Proof.
  intros IH H. remember (RStar r) as q eqn:Hq. revert n.
  induction H; try discriminate Hq; injection Hq as ->; intros n Hn Hk.
  - destruct n; simpl; [done|]. apply first_of_is_Some. by right.
  - destruct n as [|n]; [lia|]. simpl. apply first_of_is_Some. left.
    eapply IH; [done|]. simpl. rewrite (proj2 (Nat.ltb_lt _ _)) by done.
    apply IHmatches2; [done | lia | done].
Qed.

Lemma rmatch_complete r s s' caps caps' k :
  matches r s s' caps caps' -> is_Some (k s' caps') -> is_Some (rmatch r s caps k).
Proof.
  revert s s' caps caps' k; induction r as [|f|r1 IH1 r2 IH2|r1 IH1 r2 IH2|r IH|name r IH|];
    intros s s' caps caps' k H Hk.
  - inversion H; subst. done.
  - inversion H as [|? ? ? ? Hf| | | | | | |]; subst. simpl. by rewrite Hf.
  - inversion H; subst. simpl. eauto.
  - simpl. apply first_of_is_Some. inversion H; subst; eauto.
  - by eapply rstar_complete.
  - inversion H; subst. simpl. eauto.
  - inversion H; subst. done.
Qed.

(** The search over the whole pattern succeeds exactly when the pattern matches,
    and its captures are those of a match. *)
Lemma find_submatch_sound r s caps :
  find_submatch r s = Some caps -> exists s', matches r s s' [] caps.
Proof. intros (s' & c' & H & [= ->])%rmatch_sound. eauto. Qed.

Lemma find_submatch_is_Some r s :
  is_Some (find_submatch r s) <-> exists s' caps, matches r s s' [] caps.
Proof.
  split.
  - intros [caps [s' H]%find_submatch_sound]. eauto.
  - intros (s' & caps & H). eapply rmatch_complete; [exact H | by eexists].
Qed.

(** ** Running the search forwards

    On a text of known shape the search makes its greedy choices: each lemma
    says where it goes when that leads to a result. *)

Definition stops (f : Z -> bool) (s : gostring) : Prop :=
  match s with c :: _ => f c = false | [] => True end.

Lemma take_prefix (t r : gostring) : take (length (t ++ r) - length r) (t ++ r) = t.
Proof. rewrite length_app, Nat.add_sub. apply take_app_length. Qed.

Lemma rmatch_seq r1 r2 s caps k :
  rmatch (RSeq r1 r2) s caps k = rmatch r1 s caps (fun s' caps' => rmatch r2 s' caps' k).
Proof. reflexivity. Qed.

Lemma ropt_skip r s caps k : rmatch r s caps k = None -> rmatch (ROpt r) s caps k = k s caps.
Proof. simpl. by intros ->. Qed.

Lemma ropt_take r s caps k res : rmatch r s caps k = Some res -> rmatch (ROpt r) s caps k = Some res.
Proof. simpl. by intros ->. Qed.

Lemma rgroup_run name r t rest caps caps' (k : continuation) res :
  k rest ((name, t) :: caps') = Some res ->
  (forall k', k' rest caps' = Some res -> rmatch r (t ++ rest) caps k' = Some res) ->
  rmatch (RGroup name r) (t ++ rest) caps k = Some res.
Proof. intros Hk Hr. cbn [rmatch]. apply Hr. by rewrite take_prefix. Qed.

Lemma rstar_class_run f ds rest caps (k : continuation) res n :
  Forall (fun c => f c = true) ds -> stops f rest -> k rest caps = Some res ->
  (length ds <= n)%nat ->
  rstar (rmatch (RClass f)) k n (ds ++ rest) caps = Some res.
Proof.
  intros HF Hs Hk. revert n; induction HF as [|c ds Hc HF IH]; intros n Hn.
  - destruct n as [|n]; [done|]. destruct rest as [|a rest]; simpl; [done|]. simpl in Hs. by rewrite Hs.
  - simpl in Hn. destruct n as [|n]; [lia|]. simpl. rewrite Hc.
    rewrite (proj2 (Nat.ltb_lt _ _)) by lia. by rewrite IH by lia.
Qed.

Lemma rplus_class_run f ds rest caps (k : continuation) res :
  ds <> [] -> Forall (fun c => f c = true) ds -> stops f rest -> k rest caps = Some res ->
  rmatch (RPlus (RClass f)) (ds ++ rest) caps k = Some res.
Proof.
  intros Hne HF Hs Hk. destruct HF as [|c ds Hc HF]; [done|]. cbn [RPlus rmatch app]. rewrite Hc.
  apply rstar_class_run; try done. rewrite length_app. lia.
Qed.

Lemma rplus_class_stop f s caps k : stops f s -> rmatch (RPlus (RClass f)) s caps k = None.
Proof. destruct s as [|c s]; simpl; [done | by intros ->]. Qed.

(** A greedy run whose continuation never succeeds fails. *)
Lemma rstar_class_fail f ds rest caps (k : continuation) n :
  Forall (fun c => f c = true) ds -> stops f rest ->
  (forall d1 d2, ds = d1 ++ d2 -> k (d2 ++ rest) caps = None) ->
  rstar (rmatch (RClass f)) k n (ds ++ rest) caps = None.
Proof.
  intros HF Hs. revert n; induction HF as [|c ds Hc HF IH]; intros n Hk.
  - pose proof (Hk [] [] eq_refl) as Hk0. simpl in Hk0.
    destruct n as [|n]; [done|]. destruct rest as [|a rest]; simpl; [done|]. simpl in Hs. by rewrite Hs.
  - pose proof (Hk [] (c :: ds) eq_refl) as Hk0. simpl in Hk0.
    destruct n as [|n]; [done|]. simpl. rewrite Hc, Hk0.
    rewrite (proj2 (Nat.ltb_lt _ _)) by lia. rewrite IH; [done|].
    intros d1 d2 ->. by apply (Hk (c :: d1)).
Qed.

Lemma rplus_class_fail f ds rest caps (k : continuation) :
  Forall (fun c => f c = true) ds -> stops f rest ->
  (forall d1 d2, ds = d1 ++ d2 -> k (d2 ++ rest) caps = None) ->
  rmatch (RPlus (RClass f)) (ds ++ rest) caps k = None.
Proof.
  intros HF Hs Hk. destruct HF as [|c ds Hc HF]; [by apply rplus_class_stop|].
  cbn [RPlus rmatch app]. rewrite Hc. apply rstar_class_fail; [done..|].
  intros d1 d2 ->. by apply (Hk (c :: d1)).
Qed.

(** Runs of [f] separated by single bytes of [g]. *)
Definition re_list (f g : Z -> bool) : regex :=
  RSeq (RPlus (RClass f)) (RStar (RSeq (RClass g) (RPlus (RClass f)))).

Definition list_stops (f g : Z -> bool) (s : gostring) : Prop :=
  match s with
  | c :: s' => f c = false /\ (g c = true -> stops f s')
  | [] => True
  end.

Definition run_of (f : Z -> bool) (s : gostring) : Prop := s <> [] /\ Forall (fun c => f c = true) s.

Lemma rstar_list_run f g sep l rest caps (k : continuation) res n :
  g sep = true -> f sep = false -> Forall (run_of f) l -> list_stops f g rest ->
  k rest caps = Some res ->
  (length l <= n)%nat ->
  rstar (rmatch (RSeq (RClass g) (RPlus (RClass f)))) k n
    (concat ((fun p => sep :: p) <$> l) ++ rest) caps = Some res.
Proof.
  intros Hg Hf HF Hs Hk. revert n; induction HF as [|p l [Hne Hp] HF IH]; intros n Hn.
  - destruct n as [|n]; [done|]. destruct rest as [|a rest]; [by simpl|]. destruct Hs as [Ha Hs].
    cbn [concat fmap list_fmap app rstar rmatch]. destruct (g a) eqn:E; [|done].
    rewrite rplus_class_stop by by apply Hs. done.
  - simpl in Hn. destruct n as [|n]; [lia|]. rewrite fmap_cons. cbn [concat app]. rewrite <- (assoc_L app).
    cbn [rstar]. cbn [rmatch]. rewrite Hg.
    set (tail := concat _ ++ rest) in *.
    rewrite (rplus_class_run f p tail caps _ res); [done..| |].
    + unfold tail. destruct l as [|q l]; simpl; [|done]. destruct rest as [|a rest]; [done | apply Hs].
    + cbv beta. rewrite (proj2 (Nat.ltb_lt _ _)) by (simpl; rewrite length_app; lia).
      apply IH. lia.
Qed.

Lemma concat_sep_length (sep : Z) (l : list gostring) :
  (length l <= length (concat ((fun p => sep :: p) <$> l)))%nat.
Proof. induction l as [|p l IH]; simpl; [lia|]. rewrite length_app. change (list_fmap gostring gostring _ l) with ((fun p => sep :: p) <$> l). lia. Qed.

Lemma strings_join_concat p l c : strings_join (p :: l) c = p ++ concat ((fun q => c :: q) <$> l).
Proof.
  revert p; induction l as [|q l IH]; intros p; [simpl; by rewrite app_nil_r|].
  change (strings_join (p :: q :: l) c) with (p ++ c :: strings_join (q :: l) c). by rewrite IH.
Qed.

Lemma re_list_run f g sep l rest caps (k : continuation) res :
  g sep = true -> f sep = false -> l <> [] -> Forall (run_of f) l -> list_stops f g rest ->
  k rest caps = Some res ->
  rmatch (re_list f g) (strings_join l sep ++ rest) caps k = Some res.
Proof.
  intros Hg Hf Hne HF Hs Hk. destruct HF as [|p l [Hp HP] HF]; [done|].
  rewrite strings_join_concat, <- (assoc_L app). unfold re_list. cbn [rmatch].
  apply rplus_class_run; try done.
  - destruct HF as [|q l]; simpl; [|done]. destruct rest; [done | apply Hs].
  - cbv beta. eapply rstar_list_run; try done.
    rewrite length_app. pose proof (concat_sep_length sep l). lia.
Qed.
