(* ===== verification/Pep440.v ===== *)
(** * PEP 440 versions (internal/packagepolicy/pep440.go)

    The parser, built on the pattern [pep440VersionPattern], the ordering of
    PyPA's [packaging], the canonical spelling and the projections the ordered
    comparisons of matcher.go use. *)

From S2P Require Export Decimal Regex.

Record pep440Prerelease := {
  pre_kind : gostring;
  pre_number : gostring;
}.

Record pep440LocalSegment := {
  seg_value : gostring;
  seg_numeric : bool;
}.

(** Pointers are options.  The field [canonical] of a parsed version is
    [buildCanonical] of the others; no comparison reads it. *)
Record pep440Version := {
  pv_epoch : gostring;
  pv_release : list gostring;
  pv_pre : option pep440Prerelease;
  pv_post : option gostring;
  pv_dev : option gostring;
  pv_local : list pep440LocalSegment;
}.

(** ** The pattern *)

Definition re_digit : regex := RClass (in_range (ch "0") (ch "9")).
Definition re_digits : regex := RPlus re_digit.
Definition re_sep : regex := RClass (fun c => mem c (bs "._-")).
Definition re_word : regex :=
  RPlus (RClass (fold_class (fun c => in_range (ch "a") (ch "z") c || in_range (ch "0") (ch "9") c))).

Definition re_epoch : regex := ROpt (RSeq (RGroup "epoch" re_digits) (RByte (ch "!"))).
Definition re_release : regex :=
  RGroup "release" (RSeq re_digits (RStar (RSeq (RByte (ch ".")) re_digits))).
Definition re_pre : regex :=
  ROpt (RGroup "pre"
    (RSeq (ROpt re_sep)
    (RSeq (RGroup "pre_l" (RAlts (RLit <$> [bs "alpha"; bs "a"; bs "beta"; bs "b"; bs "preview";
                                              bs "pre"; bs "c"; bs "rc"])))
    (RSeq (ROpt re_sep) (ROpt (RGroup "pre_n" re_digits)))))).
Definition re_post : regex :=
  ROpt (RGroup "post"
    (RAlt (RSeq (RByte (ch "-")) (RGroup "post_n1" re_digits))
          (RSeq (ROpt re_sep)
          (RSeq (RGroup "post_l" (RAlts (RLit <$> [bs "post"; bs "rev"; bs "r"])))
          (RSeq (ROpt re_sep) (ROpt (RGroup "post_n2" re_digits))))))).
Definition re_dev : regex :=
  ROpt (RGroup "dev"
    (RSeq (ROpt re_sep)
    (RSeq (RGroup "dev_l" (RLit (bs "dev")))
    (RSeq (ROpt re_sep) (ROpt (RGroup "dev_n" re_digits)))))).
Definition re_local : regex :=
  ROpt (RSeq (RByte (ch "+")) (RGroup "local" (RSeq re_word (RStar (RSeq re_sep re_word))))).

Definition pep440VersionPattern : regex :=
  RSeq (ROpt (RByte (ch "v")))
  (RSeq re_epoch (RSeq re_release (RSeq re_pre (RSeq re_post (RSeq re_dev (RSeq re_local REnd)))))).

(** ** Parsing *)

Definition pep440_kind (l : gostring) : gostring :=
  if str_eqb l (bs "alpha") then bs "a"
  else if str_eqb l (bs "beta") then bs "b"
  else if str_eqb l (bs "c") || str_eqb l (bs "pre") || str_eqb l (bs "preview") then bs "rc"
  else l.

Definition pep440_segment (component : gostring) : pep440LocalSegment :=
  let numeric := allASCIIDigits component in
  {| seg_value := if numeric then normalizeDecimal component else component; seg_numeric := numeric |}.

Definition is_local_separator (character : Z) : bool :=
  (character =? ch ".") || (character =? ch "-") || (character =? ch "_").

Section parse.
Context `{UnicodeTables}.

Definition pep440_of_groups (groups : string -> gostring) : pep440Version :=
  {| pv_epoch := normalizeDecimal (groups "epoch"%string);
     pv_release := normalizeDecimal <$> strings_split (groups "release"%string) (ch ".");
     pv_pre := if str_eqb (groups "pre"%string) [] then None
               else Some {| pre_kind := pep440_kind (to_lower (groups "pre_l"%string));
                            pre_number := normalizeDecimal (groups "pre_n"%string) |};
     pv_post := if str_eqb (groups "post"%string) [] then None
                else let number := groups "post_n1"%string in
                     let number := if str_eqb number [] then groups "post_n2"%string else number in
                     Some (normalizeDecimal number);
     pv_dev := if str_eqb (groups "dev"%string) [] then None
               else Some (normalizeDecimal (groups "dev_n"%string));
     pv_local := if str_eqb (groups "local"%string) [] then []
                 else pep440_segment <$> fields_func is_local_separator (to_lower (groups "local"%string)) |}.

Definition parsePEP440Version (value : gostring) : result pep440Version :=
  if blank_or_spaced value || has_space_or_control value
  then fail "PEP 440 version must be non-empty and contain no whitespace or control characters" else
  if existsb (fun c => c >? 0x7F) value
  then fail "PEP 440 version must contain ASCII characters only" else
  match find_submatch pep440VersionPattern value with
  | None => fail "invalid PEP 440 version %q"
  | Some matches => Ok (pep440_of_groups (capture matches))
  end.

End parse.

(** ** Ordering *)

Definition buildCanonical (version : pep440Version) : gostring :=
  (if str_eqb (pv_epoch version) (bs "0") then [] else pv_epoch version ++ bs "!")
  ++ strings_join (pv_release version) (ch ".")
  ++ match pv_pre version with Some pre => pre_kind pre ++ pre_number pre | None => [] end
  ++ match pv_post version with Some n => bs ".post" ++ n | None => [] end
  ++ match pv_dev version with Some n => bs ".dev" ++ n | None => [] end
  ++ (if len (pv_local version) =? 0 then []
      else ch "+" :: strings_join (seg_value <$> pv_local version) (ch ".")).

(** The index loop; a side that ran out reads ["0"]. *)
Definition comparePEP440Release (left right : list gostring) : Z :=
  cmp_padded compareDecimal (bs "0") left right.

Definition pep440PreSentinel (version : pep440Version) : Z :=
  match pv_pre version, pv_post version, pv_dev version with
  | Some _, _, _ => 0
  | None, None, Some _ => -1
  | None, _, _ => 1
  end.

(** [map[string]int{"a": 0, "b": 1, "rc": 2}]; a missing key reads 0. *)
Definition preOrder (kind : gostring) : Z :=
  if str_eqb kind (bs "b") then 1 else if str_eqb kind (bs "rc") then 2 else 0.

Definition comparePEP440Pre (left right : pep440Version) : Z :=
  let leftRank := pep440PreSentinel left in
  let rightRank := pep440PreSentinel right in
  if negb (leftRank =? rightRank) then signOf (leftRank - rightRank) else
  if negb (leftRank =? 0) then 0 else
  match pv_pre left, pv_pre right with
  | Some l, Some r =>
    let leftOrder := preOrder (pre_kind l) in
    let rightOrder := preOrder (pre_kind r) in
    if negb (leftOrder =? rightOrder) then signOf (leftOrder - rightOrder)
    else compareDecimal (pre_number l) (pre_number r)
  | _, _ => 0
  end.

Definition compareOptionalDecimal (missingOrder : Z) (left right : option gostring) : Z :=
  match left, right with
  | None, None => 0
  | None, Some _ => missingOrder
  | Some _, None => - missingOrder
  | Some l, Some r => compareDecimal l r
  end.

Definition comparePEP440Segment (left right : pep440LocalSegment) : Z :=
  if negb (Bool.eqb (seg_numeric left) (seg_numeric right)) then
    if seg_numeric left then 1 else -1
  else if seg_numeric left then compareDecimal (seg_value left) (seg_value right)
  else signOf (strings_compare (seg_value left) (seg_value right)).

(** The loop over the shared length, then the lengths. *)
Fixpoint comparePEP440Segments (left right : list pep440LocalSegment) : Z :=
  match left, right with
  | x :: l, y :: r => or_else (comparePEP440Segment x y) (comparePEP440Segments l r)
  | l, r => signOf (len l - len r)
  end.

Definition comparePEP440Local (left right : list pep440LocalSegment) : Z :=
  if (len left =? 0) && (len right =? 0) then 0
  else if len left =? 0 then -1
  else if len right =? 0 then 1
  else comparePEP440Segments left right.

Definition comparePEP440Versions (left right : pep440Version) : Z :=
  or_else (compareDecimal (pv_epoch left) (pv_epoch right))
  (or_else (comparePEP440Release (pv_release left) (pv_release right))
  (or_else (comparePEP440Pre left right)
  (or_else (compareOptionalDecimal (-1) (pv_post left) (pv_post right))
  (or_else (compareOptionalDecimal 1 (pv_dev left) (pv_dev right))
           (comparePEP440Local (pv_local left) (pv_local right)))))).

Section dialect.
Context `{UnicodeTables}.

Definition pep440ValidateVersion (version : gostring) : result unit :=
  _ ← parsePEP440Version version; Ok ().

Definition pep440CompareVersions (left right : gostring) : result Z :=
  leftVersion ← wrap "parse left version: %w" (parsePEP440Version left);
  rightVersion ← wrap "parse right version: %w" (parsePEP440Version right);
  Ok (comparePEP440Versions leftVersion rightVersion).

Definition pep440CanonicalVersion (value : gostring) : result gostring :=
  version ← parsePEP440Version value; Ok (buildCanonical version).

Definition pep440ValidateRangeTarget (value : gostring) : result unit :=
  version ← parsePEP440Version value;
  reject_if (negb (len (pv_local version) =? 0))
    "PEP 440 ordered comparisons do not permit local version targets".

End dialect.

Definition pep440SupportsRanges : bool := true.

(** ** Projections *)

Definition withoutLocal (version : pep440Version) : pep440Version :=
  {| pv_epoch := pv_epoch version; pv_release := pv_release version; pv_pre := pv_pre version;
     pv_post := pv_post version; pv_dev := pv_dev version; pv_local := [] |}.

Definition postBase (version : pep440Version) : pep440Version :=
  {| pv_epoch := pv_epoch version; pv_release := pv_release version; pv_pre := pv_pre version;
     pv_post := None; pv_dev := None; pv_local := [] |}.

Definition earliestPrerelease (version : pep440Version) : pep440Version :=
  {| pv_epoch := pv_epoch version; pv_release := pv_release version; pv_pre := pv_pre version;
     pv_post := pv_post version; pv_dev := Some (bs "0"); pv_local := [] |}.

Definition isPrerelease (version : pep440Version) : bool :=
  match pv_pre version, pv_dev version with None, None => false | _, _ => true end.

Definition isPostrelease (version : pep440Version) : bool :=
  match pv_post version with Some _ => true | None => false end.

(** ** The ordering is a total preorder *)

#[export] Instance compareOptionalDecimal_three_way_first : ThreeWay (compareOptionalDecimal (-1)).
Proof. apply (cmp_option_three_way (-1) compareDecimal); [lia | apply _]. Qed.
#[export] Instance compareOptionalDecimal_three_way_last : ThreeWay (compareOptionalDecimal 1).
Proof. apply (cmp_option_three_way 1 compareDecimal); [lia | apply _]. Qed.

#[export] Instance comparePEP440Release_three_way : ThreeWay comparePEP440Release.
Proof. unfold comparePEP440Release. apply _. Qed.

Definition pre_cmp : pep440Prerelease -> pep440Prerelease -> Z :=
  cmp_then (cmp_on (fun p => preOrder (pre_kind p)) cmp_Z) (cmp_on pre_number compareDecimal).

Lemma comparePEP440Pre_key l r :
  comparePEP440Pre l r
  = cmp_then (cmp_on pep440PreSentinel cmp_Z) (cmp_on pv_pre (cmp_option 1 pre_cmp)) l r.
Proof.
  unfold comparePEP440Pre, cmp_then, cmp_on, pre_cmp, cmp_then, cmp_on, pep440PreSentinel, cmp_Z, or_else.
  destruct (pv_pre l) as [pl|], (pv_pre r) as [pr|]; simpl.
  - destruct (Z.eqb_spec (preOrder (pre_kind pl)) (preOrder (pre_kind pr))) as [->|Hne]; simpl.
    + by rewrite Z.sub_diag.
    + destruct (Z.eqb_spec (signOf (preOrder (pre_kind pl) - preOrder (pre_kind pr))) 0) as [E|]; [|done].
      unfold signOf in E. repeat case_match; lia.
  - by destruct (pv_post r), (pv_dev r).
  - by destruct (pv_post l), (pv_dev l).
  - by destruct (pv_post l), (pv_dev l), (pv_post r), (pv_dev r).
Qed.

#[export] Instance comparePEP440Pre_three_way : ThreeWay comparePEP440Pre.
Proof. eapply three_way_ext; [apply comparePEP440Pre_key|]. unfold pre_cmp. apply _. Qed.

(** A numeric segment sorts after an alphanumeric one. *)
Lemma comparePEP440Segment_key l r :
  comparePEP440Segment l r
  = cmp_split (fun s => negb (seg_numeric s)) (cmp_on seg_value strings_compare)
      (cmp_on seg_value compareDecimal) l r.
Proof.
  unfold comparePEP440Segment, cmp_split, cmp_on.
  destruct (seg_numeric l), (seg_numeric r); simpl; try done.
  by rewrite signOf_id by apply cmp_range.
Qed.

#[export] Instance comparePEP440Segment_three_way : ThreeWay comparePEP440Segment.
Proof. eapply three_way_ext; [apply comparePEP440Segment_key | apply _]. Qed.

Lemma comparePEP440Segments_list l r :
  comparePEP440Segments l r = cmp_list comparePEP440Segment l r.
Proof.
  revert r; induction l as [|x l IH]; intros [|y r]; simpl; rewrite ?IH; try done.
Qed.

Lemma comparePEP440Local_list l r : comparePEP440Local l r = cmp_list comparePEP440Segment l r.
Proof.
  unfold comparePEP440Local. rewrite comparePEP440Segments_list.
  destruct l as [|x l], r as [|y r]; try done;
    rewrite ?len_cons; change (len (@nil pep440LocalSegment)) with 0; simpl;
    rewrite ?(proj2 (Z.eqb_neq _ _)) by (pose proof (len_nonneg l); pose proof (len_nonneg r); lia); done.
Qed.

#[export] Instance comparePEP440Local_three_way : ThreeWay comparePEP440Local.
Proof. eapply three_way_ext; [apply comparePEP440Local_list | apply _]. Qed.

Lemma comparePEP440Versions_key l r :
  comparePEP440Versions l r
  = cmp_then (cmp_on pv_epoch compareDecimal)
    (cmp_then (cmp_on pv_release comparePEP440Release)
    (cmp_then comparePEP440Pre
    (cmp_then (cmp_on pv_post (compareOptionalDecimal (-1)))
    (cmp_then (cmp_on pv_dev (compareOptionalDecimal 1))
              (cmp_on pv_local comparePEP440Local))))) l r.
Proof. reflexivity. Qed.

#[export] Instance comparePEP440Versions_three_way : ThreeWay comparePEP440Versions.
Proof. eapply three_way_ext; [apply comparePEP440Versions_key | apply _]. Qed.

(** ** Well-formed versions *)

Definition pep440_word_byte (c : Z) : Prop := digit c \/ 97 <= c <= 122.

Record segment_wf (s : pep440LocalSegment) : Prop := {
  sw_word : seg_value s <> [] /\ Forall pep440_word_byte (seg_value s);
  sw_segment : pep440_segment (seg_value s) = s;
}.

Definition pre_wf (p : pep440Prerelease) : Prop :=
  (pre_kind p = bs "a" \/ pre_kind p = bs "b" \/ pre_kind p = bs "rc")
  /\ canonical_decimal (pre_number p).

Definition option_all {A} (P : A -> Prop) (o : option A) : Prop :=
  match o with Some a => P a | None => True end.

Record pep440_wf (v : pep440Version) : Prop := {
  pw_epoch : canonical_decimal (pv_epoch v);
  pw_release : pv_release v <> [] /\ Forall canonical_decimal (pv_release v);
  pw_pre : option_all pre_wf (pv_pre v);
  pw_post : option_all canonical_decimal (pv_post v);
  pw_dev : option_all canonical_decimal (pv_dev v);
  pw_local : Forall segment_wf (pv_local v);
}.

(** ** The search on a canonical spelling *)

Abbreviation digit_class := (in_range (ch "0") (ch "9")).
Abbreviation word_class :=
  (fold_class (fun c => in_range (ch "a") (ch "z") c || in_range (ch "0") (ch "9") c)).
Abbreviation sep_class := (fun c => mem c (bs "._-")).

Definition local_text (v : pep440Version) : gostring :=
  if len (pv_local v) =? 0 then [] else ch "+" :: strings_join (seg_value <$> pv_local v) (ch ".").
Definition dev_text (v : pep440Version) : gostring :=
  match pv_dev v with Some n => bs ".dev" ++ n | None => [] end.
Definition post_text (v : pep440Version) : gostring :=
  match pv_post v with Some n => bs ".post" ++ n | None => [] end.
Definition pre_text (v : pep440Version) : gostring :=
  match pv_pre v with Some p => pre_kind p ++ pre_number p | None => [] end.
Definition epoch_text (v : pep440Version) : gostring :=
  if str_eqb (pv_epoch v) (bs "0") then [] else pv_epoch v ++ bs "!".
Definition release_text (v : pep440Version) : gostring := strings_join (pv_release v) (ch ".").

Lemma buildCanonical_texts v :
  buildCanonical v
  = epoch_text v ++ release_text v ++ pre_text v ++ post_text v ++ dev_text v ++ local_text v.
Proof. reflexivity. Qed.

Lemma digit_class_digits ds : digits ds -> Forall (fun c => digit_class c = true) ds.
Proof. intros H. eapply Forall_impl; [exact H|]. intros c Hc. apply in_range_true. by go_chars. Qed.

(** What can follow a number: nothing, [+], [.dev] or [.post]. *)
Inductive tail_shape : gostring -> Prop :=
  | tail_end : tail_shape []
  | tail_local t : tail_shape (43 :: t)
  | tail_dev t : tail_shape (46 :: 100 :: 101 :: 118 :: t)
  | tail_post t : tail_shape (46 :: 112 :: 111 :: 115 :: 116 :: t).

Lemma tail_stops s : tail_shape s -> stops digit_class s.
Proof. by destruct 1. Qed.

Lemma tail_list_stops s : tail_shape s -> list_stops digit_class (fold_class (Z.eqb (ch "."))) s.
Proof. by destruct 1. Qed.

Lemma local_shape v : tail_shape (local_text v).
Proof. unfold local_text. case_match; constructor. Qed.

Lemma dev_shape v : tail_shape (dev_text v ++ local_text v).
Proof. unfold dev_text. destruct (pv_dev v); [constructor | apply local_shape]. Qed.

Lemma post_shape v : tail_shape (post_text v ++ dev_text v ++ local_text v).
Proof. unfold post_text. destruct (pv_post v); [constructor | apply dev_shape]. Qed.

Lemma pre_skip s caps k : tail_shape s -> rmatch re_pre s caps k = k s caps.
Proof. intros H. apply ropt_skip. by destruct H. Qed.

Lemma post_skip v caps k :
  rmatch re_post (dev_text v ++ local_text v) caps k = k (dev_text v ++ local_text v) caps.
Proof.
  apply ropt_skip. unfold dev_text, local_text.
  by destruct (pv_dev v), (len (pv_local v) =? 0).
Qed.

Lemma dev_skip v caps k : rmatch re_dev (local_text v) caps k = k (local_text v) caps.
Proof. apply ropt_skip. unfold local_text. by destruct (len (pv_local v) =? 0). Qed.

(** A numeral at the end of a piece, without a separator. *)
Lemma number_run name n rest caps (k : continuation) res :
  canonical_decimal n -> tail_shape rest -> k rest ((name, n) :: caps) = Some res ->
  rmatch (RSeq (ROpt re_sep) (ROpt (RGroup name re_digits))) (n ++ rest) caps k = Some res.
Proof.
  intros Hn Ht Hk. pose proof (canonical_decimal_nonempty _ Hn) as Hne.
  destruct Hn as [Hd _]. cbn [rmatch]. rewrite ropt_skip.
  - apply ropt_take. apply (rgroup_run _ _ _ _ _ caps); [done|]. intros k' Hk'.
    apply rplus_class_run; [done | by apply digit_class_digits | by apply tail_stops | done].
  - destruct Hd as [|c n Hc Hd]; [done|]. cbn [app re_sep rmatch].
    assert (sep_class c = false) as ->; [|done].
    unfold digit in Hc. unfold mem. simpl. go_chars. lia.
Qed.

Lemma fold_letter_digit b c : 97 <= b <= 122 -> digit c -> fold_class (Z.eqb b) c = false.
Proof. unfold fold_class, digit, byte_lower, in_range. go_chars. case_match; lia. Qed.

Lemma kinds_run p rest caps (k : continuation) res :
  pre_wf p -> k (pre_number p ++ rest) (("pre_l"%string, pre_kind p) :: caps) = Some res ->
  rmatch (RGroup "pre_l" (RAlts (RLit <$> [bs "alpha"; bs "a"; bs "beta"; bs "b"; bs "preview";
            bs "pre"; bs "c"; bs "rc"]))) (pre_kind p ++ pre_number p ++ rest) caps k = Some res.
Proof.
  intros [Hkind Hn] Hk. pose proof (canonical_decimal_nonempty _ Hn) as Hne. destruct Hn as [Hd _].
  apply (rgroup_run _ _ _ _ _ caps); [done|]. clear Hk. intros k' Hk'.
  destruct Hd as [|c n Hc Hd]; [done|].
  assert (Hl : fold_class (Z.eqb (ch "l")) c = false) by by apply fold_letter_digit.
  assert (He : fold_class (Z.eqb (ch "e")) c = false) by by apply fold_letter_digit.
  destruct Hkind as [->|[->| ->]]; simpl in *; rewrite ?Hl, ?He; by simpl; rewrite Hk'.
Qed.

Lemma pre_run v p rest caps (k : continuation) res :
  pre_wf p -> tail_shape rest ->
  k rest (("pre"%string, pre_kind p ++ pre_number p) :: ("pre_n"%string, pre_number p)
          :: ("pre_l"%string, pre_kind p) :: caps) = Some res ->
  pv_pre v = Some p -> rmatch re_pre (pre_text v ++ rest) caps k = Some res.
Proof.
  intros Hp Ht Hk Hv. unfold pre_text. rewrite Hv. apply ropt_take.
  eapply rgroup_run; [exact Hk|]. intros k' Hk'. rewrite <- (assoc_L app).
  rewrite rmatch_seq, ropt_skip.
  - rewrite rmatch_seq. apply kinds_run; [done|]. apply number_run; [apply Hp | done..].
  - by destruct Hp as [[->|[->| ->]] _].
Qed.

Lemma dot_run t caps k : rmatch re_sep (ch "." :: t) caps k = k t caps.
Proof. reflexivity. Qed.

Lemma post_run v n rest caps (k : continuation) res :
  canonical_decimal n -> tail_shape rest ->
  k rest (("post"%string, bs ".post" ++ n) :: ("post_n2"%string, n) :: ("post_l"%string, bs "post") :: caps)
    = Some res ->
  pv_post v = Some n -> rmatch re_post (post_text v ++ rest) caps k = Some res.
Proof.
  intros Hn Ht Hk Hv. unfold post_text. rewrite Hv. apply ropt_take.
  eapply rgroup_run; [exact Hk|]. intros k' Hk'. rewrite <- (assoc_L app).
  change (rmatch (RAlt ?a ?b)) with (fun s c k => first_of (rmatch a s c k) (rmatch b s c k)).
  cbv beta. apply first_of_Some. right. split; [done|].
  rewrite rmatch_seq. apply ropt_take.
  change (bs ".post" ++ n ++ rest) with (ch "." :: bs "post" ++ n ++ rest).
  rewrite dot_run, rmatch_seq.
  eapply (rgroup_run _ _ (bs "post")); [by apply number_run|]. intros k2 Hk2.
  simpl. simpl in Hk2. by rewrite Hk2.
Qed.

Lemma dev_run v n rest caps (k : continuation) res :
  canonical_decimal n -> tail_shape rest ->
  k rest (("dev"%string, bs ".dev" ++ n) :: ("dev_n"%string, n) :: ("dev_l"%string, bs "dev") :: caps)
    = Some res ->
  pv_dev v = Some n -> rmatch re_dev (dev_text v ++ rest) caps k = Some res.
Proof.
  intros Hn Ht Hk Hv. unfold dev_text. rewrite Hv. apply ropt_take.
  eapply rgroup_run; [exact Hk|]. intros k' Hk'. rewrite <- (assoc_L app).
  rewrite rmatch_seq. apply ropt_take.
  change (bs ".dev" ++ n ++ rest) with (ch "." :: bs "dev" ++ n ++ rest).
  rewrite dot_run, rmatch_seq.
  eapply (rgroup_run _ _ (bs "dev")); [by apply number_run|]. intros k2 Hk2.
  simpl. simpl in Hk2. by rewrite Hk2.
Qed.

Lemma canonical_runs l :
  Forall canonical_decimal l -> Forall (run_of digit_class) l.
Proof.
  intros HF. eapply Forall_impl; [exact HF|]. intros d Hd. split.
  - by apply canonical_decimal_nonempty.
  - apply digit_class_digits, Hd.
Qed.

(** What follows the release does not extend it or make it an epoch. *)
Definition after_release (s : gostring) : Prop :=
  list_stops digit_class (fold_class (Z.eqb (ch "."))) s
  /\ match s with c :: _ => c <> ch "!" | [] => True end.

Lemma after_release_tail v :
  pep440_wf v -> after_release (pre_text v ++ post_text v ++ dev_text v ++ local_text v).
Proof.
  intros Hv. pose proof (pw_pre v Hv) as Hp. unfold pre_text. destruct (pv_pre v) as [p|].
  - by destruct Hp as [[->|[->| ->]] _].
  - by destruct (post_shape v).
Qed.

Lemma release_run v rest caps (k : continuation) res :
  pep440_wf v -> after_release rest ->
  k rest (("release"%string, release_text v) :: caps) = Some res ->
  rmatch re_release (release_text v ++ rest) caps k = Some res.
Proof.
  intros Hv Ht Hk. eapply rgroup_run; [exact Hk|]. intros k' Hk'. destruct (pw_release v Hv) as [Hne HF].
  apply (re_list_run digit_class (fold_class (Z.eqb (ch "."))) (ch ".")); try done.
  - by apply canonical_runs.
  - apply Ht.
Qed.

Lemma segment_runs l : Forall segment_wf l -> Forall (run_of word_class) (seg_value <$> l).
Proof.
  intros HF. apply Forall_fmap. eapply Forall_impl; [exact HF|]. intros s [[Hne Hw] _]. split; [done|].
  eapply Forall_impl; [exact Hw|]. intros c Hc. unfold fold_class. apply orb_true_iff. left.
  apply orb_true_iff. left. unfold pep440_word_byte, digit in Hc. unfold in_range. go_chars. lia.
Qed.

Definition local_caps (v : pep440Version) : captures :=
  if len (pv_local v) =? 0 then []
  else [("local"%string, strings_join (seg_value <$> pv_local v) (ch "."))].

Lemma local_run v caps :
  pep440_wf v ->
  rmatch (RSeq re_local REnd) (local_text v) caps (fun _ c => Some c) = Some (local_caps v ++ caps).
Proof.
  intros Hv. unfold local_text, local_caps. rewrite rmatch_seq.
  destruct (Z.eqb_spec (len (pv_local v)) 0) as [|Hl]; [done|]. apply ropt_take. rewrite rmatch_seq.
  change (rmatch (RByte (ch "+")) (ch "+" :: ?t) ?c ?k) with (k t c). cbv beta.
  rewrite <- (app_nil_r (strings_join _ _)) at 1. apply (rgroup_run _ _ _ _ _ caps); [done|].
  intros k' Hk'. apply (re_list_run word_class sep_class (ch ".")); try done.
  - by destruct (pv_local v).
  - apply segment_runs, (pw_local v Hv).
Qed.

Definition pre_caps (v : pep440Version) : captures :=
  match pv_pre v with
  | Some p => [("pre"%string, pre_kind p ++ pre_number p); ("pre_n"%string, pre_number p);
               ("pre_l"%string, pre_kind p)]
  | None => []
  end.
Definition post_caps (v : pep440Version) : captures :=
  match pv_post v with
  | Some n => [("post"%string, bs ".post" ++ n); ("post_n2"%string, n); ("post_l"%string, bs "post")]
  | None => []
  end.
Definition dev_caps (v : pep440Version) : captures :=
  match pv_dev v with
  | Some n => [("dev"%string, bs ".dev" ++ n); ("dev_n"%string, n); ("dev_l"%string, bs "dev")]
  | None => []
  end.
Definition epoch_caps (v : pep440Version) : captures :=
  if str_eqb (pv_epoch v) (bs "0") then [] else [("epoch"%string, pv_epoch v)].

Lemma tail_run v caps :
  pep440_wf v ->
  rmatch (RSeq re_pre (RSeq re_post (RSeq re_dev (RSeq re_local REnd))))
    (pre_text v ++ post_text v ++ dev_text v ++ local_text v) caps (fun _ c => Some c)
  = Some (local_caps v ++ dev_caps v ++ post_caps v ++ pre_caps v ++ caps).
Proof.
  intros Hv.
  assert (Hdev : forall caps, rmatch (RSeq re_dev (RSeq re_local REnd)) (dev_text v ++ local_text v) caps
            (fun _ c => Some c) = Some (local_caps v ++ dev_caps v ++ caps)).
  { intros c. rewrite rmatch_seq. unfold dev_caps. pose proof (pw_dev v Hv) as Hd.
    destruct (pv_dev v) as [n|] eqn:E.
    - eapply dev_run; [exact Hd | apply local_shape | by apply local_run | exact E].
    - unfold dev_text. rewrite E. cbn [app]. rewrite dev_skip. by apply local_run. }
  assert (Hpost : forall caps, rmatch (RSeq re_post (RSeq re_dev (RSeq re_local REnd)))
            (post_text v ++ dev_text v ++ local_text v) caps (fun _ c => Some c)
            = Some (local_caps v ++ dev_caps v ++ post_caps v ++ caps)).
  { intros c. rewrite rmatch_seq. unfold post_caps. pose proof (pw_post v Hv) as Hp.
    destruct (pv_post v) as [n|] eqn:E.
    - eapply post_run; [exact Hp | apply dev_shape | by apply Hdev | exact E].
    - unfold post_text. rewrite E. cbn [app]. rewrite post_skip. by apply Hdev. }
  rewrite rmatch_seq. unfold pre_caps. pose proof (pw_pre v Hv) as Hp.
  destruct (pv_pre v) as [p|] eqn:E.
  - eapply pre_run; [exact Hp | apply post_shape | by apply Hpost | exact E].
  - unfold pre_text. rewrite E. cbn [app]. rewrite pre_skip by apply post_shape. by apply Hpost.
Qed.

(** Without an epoch the leading digits are tried as one and given back. *)
Lemma epoch_skip n s caps k :
  digits n -> (match s with c :: _ => digit_class c = false /\ c <> ch "!" | [] => True end) ->
  rmatch re_epoch (n ++ s) caps k = k (n ++ s) caps.
Proof.
  intros Hn Hs. apply ropt_skip. cbn [rmatch]. apply rplus_class_fail.
  - by apply digit_class_digits.
  - destruct s; [done | apply Hs].
  - intros d1 d2 ->. destruct (d2 ++ s) as [|c t] eqn:E; [done|].
    assert (Hc : fold_class (Z.eqb (ch "!")) c = false); [|cbn [rmatch RByte]; by rewrite Hc].
    unfold fold_class, byte_lower, in_range.
    destruct d2 as [|d d2]; simpl in E.
    + subst s. destruct Hs as [_ Hne]. go_chars. case_match; lia.
    + injection E as -> _. apply Forall_app in Hn as [_ [Hd _]%Forall_cons]. unfold digit in Hd.
      clear Hs. go_chars. case_match; lia.
Qed.

Lemma release_text_head v t :
  pep440_wf v -> after_release t ->
  exists n s, release_text v ++ t = n ++ s /\ n <> [] /\ digits n
    /\ match s with c :: _ => digit_class c = false /\ c <> ch "!" | [] => True end.
Proof.
  intros Hv Ht. destruct (pw_release v Hv) as [Hne HF]. unfold release_text.
  destruct HF as [|n l Hn HF]; [done|]. rewrite strings_join_concat, <- (assoc_L app).
  exists n. eexists. split; [reflexivity|]. split_and!; [by apply canonical_decimal_nonempty | apply Hn |].
  destruct l as [|m l]; simpl; [|done]. destruct t; [done|]. by destruct Ht as [[? _] ?].
Qed.

Lemma epoch_run v t caps (k : continuation) res :
  pep440_wf v -> after_release t -> k (release_text v ++ t) (epoch_caps v ++ caps) = Some res ->
  rmatch re_epoch (epoch_text v ++ release_text v ++ t) caps k = Some res.
Proof.
  intros Hv Ht. unfold epoch_text, epoch_caps.
  destruct (str_eqb (pv_epoch v) (bs "0")) eqn:E; intros Hk.
  - cbn [app] in *. destruct (release_text_head v t Hv Ht) as (n & s & He & _ & Hn & Hs).
    rewrite He in *. by rewrite epoch_skip.
  - apply ropt_take. rewrite rmatch_seq, <- (assoc_L app).
    apply (rgroup_run _ _ _ _ _ caps); [done|]. intros k' Hk'. pose proof (pw_epoch v Hv) as Hn.
    apply rplus_class_run; try done.
    + by apply canonical_decimal_nonempty.
    + by apply digit_class_digits, Hn.
Qed.

Lemma find_canonical v :
  pep440_wf v ->
  find_submatch pep440VersionPattern (buildCanonical v)
  = Some (local_caps v ++ dev_caps v ++ post_caps v ++ pre_caps v
          ++ ("release"%string, release_text v) :: epoch_caps v).
Proof.
  intros Hv. rewrite buildCanonical_texts. unfold find_submatch, pep440VersionPattern.
  rewrite rmatch_seq, ropt_skip.
  - rewrite rmatch_seq. apply epoch_run; [done | by apply after_release_tail|].
    rewrite rmatch_seq. apply release_run; [done | by apply after_release_tail|].
    rewrite (tail_run v _ Hv). by rewrite app_nil_r.
  - assert (Hd : exists c s, buildCanonical v = c :: s /\ digit c).
    { rewrite buildCanonical_texts. unfold epoch_text.
      destruct (str_eqb (pv_epoch v) (bs "0")).
      - destruct (release_text_head v _ Hv (after_release_tail v Hv)) as (n & s & He & Hne & Hn & _).
        cbn [app]. rewrite He. destruct Hn as [|c n Hc Hn]; [done|]. by eexists _, _.
      - pose proof (canonical_decimal_nonempty _ (pw_epoch v Hv)) as Hne.
        destruct (pw_epoch v Hv) as [Hn _]. destruct Hn as [|c n Hc Hn]; [done|]. by eexists _, _. }
    destruct Hd as (c & s & Hd & Hc). rewrite buildCanonical_texts in Hd. rewrite Hd.
    cbn [rmatch RByte]. by rewrite fold_letter_digit by (go_chars; lia || done).
Qed.

(** ** Parsing a canonical spelling *)

Lemma fields_go_run f s cur rest :
  Forall (fun c => f c = false) s -> fields_go f (s ++ rest) cur = fields_go f rest (rev s ++ cur).
Proof.
  intros HF; revert cur; induction HF as [|c s Hc HF IH]; intros cur; simpl; [done|].
  rewrite Hc, IH. f_equal. by rewrite <- (assoc_L app).
Qed.

Lemma fields_func_join f l sep :
  f sep = true -> Forall (fun p => p <> [] /\ Forall (fun c => f c = false) p) l ->
  fields_func f (strings_join l sep) = l.
Proof.
  intros Hsep HF. unfold fields_func.
  assert (Hone : forall p : gostring, p <> [] -> exists c r, rev p ++ [] = c :: r /\ rev r ++ [c] = p).
  { intros p Hp. rewrite app_nil_r. destruct (rev p) as [|c r] eqn:E.
    - apply (f_equal (@rev Z)) in E. by rewrite rev_involutive in E.
    - exists c, r. split; [done|]. change (rev (c :: r) = p). by rewrite <- E, rev_involutive. }
  induction HF as [|p l [Hne Hp] HF IH]; [done|].
  destruct (Hone p Hne) as (c & r & Hr & Hpr). destruct l as [|q l].
  - simpl. rewrite <- (app_nil_r p) at 1. rewrite fields_go_run, Hr by done. simpl. by rewrite Hpr.
  - change (strings_join (p :: q :: l) sep) with (p ++ sep :: strings_join (q :: l) sep).
    rewrite fields_go_run, Hr by done. cbn [fields_go]. rewrite Hsep, IH.
    change (rev (c :: r)) with (rev r ++ [c]). by rewrite Hpr.
Qed.

Lemma captures_canonical v (g := capture (local_caps v ++ dev_caps v ++ post_caps v ++ pre_caps v
          ++ ("release"%string, release_text v) :: epoch_caps v)) :
  g "epoch"%string = (if str_eqb (pv_epoch v) (bs "0") then [] else pv_epoch v)
  /\ g "release"%string = release_text v
  /\ (g "pre"%string, g "pre_l"%string, g "pre_n"%string)
     = match pv_pre v with
       | Some p => (pre_kind p ++ pre_number p, pre_kind p, pre_number p) | None => ([], [], []) end
  /\ (g "post"%string, g "post_n1"%string, g "post_n2"%string)
     = match pv_post v with Some n => (bs ".post" ++ n, [], n) | None => ([], [], []) end
  /\ (g "dev"%string, g "dev_n"%string)
     = match pv_dev v with Some n => (bs ".dev" ++ n, n) | None => ([], []) end
  /\ g "local"%string
     = (if len (pv_local v) =? 0 then [] else strings_join (seg_value <$> pv_local v) (ch ".")).
Proof.
  unfold g, local_caps, dev_caps, post_caps, pre_caps, epoch_caps.
  by destruct (len (pv_local v) =? 0), (pv_dev v), (pv_post v), (pv_pre v), (str_eqb (pv_epoch v) (bs "0")).
Qed.

Section roundtrip.
Context `{UnicodeTables}.

Lemma to_lower_id s : Forall (fun c => ascii_byte c /\ byte_lower c = c) s -> to_lower s = s.
Proof.
  intros HF. rewrite to_lower_ascii by (eapply Forall_impl; [exact HF|]; by intros c [? _]).
  rewrite <- (list_fmap_id s) at 2. apply list_fmap_ext. intros i c Hi.
  by eapply Forall_lookup_1 in HF as [_ ?].
Qed.

Lemma normalize_fmap l : Forall canonical_decimal l -> normalizeDecimal <$> l = l.
Proof. induction 1 as [|d l [_ Hd] HF IH]; [done|]. rewrite fmap_cons. congruence. Qed.

Lemma local_text_bytes l :
  Forall segment_wf l ->
  Forall (fun c => pep440_word_byte c \/ c = ch ".") (strings_join (seg_value <$> l) (ch ".")).
Proof.
  intros HF. apply Forall_strings_join; [by right|]. apply Forall_fmap.
  eapply Forall_impl; [exact HF|]. intros s [[_ Hw] _]. eapply Forall_impl; [exact Hw|]. by left.
Qed.

Lemma local_fields l :
  Forall segment_wf l ->
  pep440_segment <$> fields_func is_local_separator (to_lower (strings_join (seg_value <$> l) (ch "."))) = l.
Proof.
  intros HF. rewrite to_lower_id.
  - rewrite fields_func_join; [|done|].
    + induction HF as [|s l [_ Hs] HF IH]; [done|]. rewrite !fmap_cons. congruence.
    + apply Forall_fmap. eapply Forall_impl; [exact HF|]. intros s [[Hne Hw] _]. split; [done|].
      eapply Forall_impl; [exact Hw|]. intros c Hc. unfold pep440_word_byte, digit in Hc.
      unfold is_local_separator. go_chars. lia.
  - eapply Forall_impl; [by apply local_text_bytes|]. intros c Hc. unfold pep440_word_byte in Hc.
    unfold byte_lower, in_range. split; [byte_tac|]. unfold digit in Hc. go_chars. case_match; lia.
Qed.

Lemma of_groups_canonical v :
  pep440_wf v ->
  pep440_of_groups (capture (local_caps v ++ dev_caps v ++ post_caps v ++ pre_caps v
          ++ ("release"%string, release_text v) :: epoch_caps v)) = v.
Proof.
  intros Hv. pose proof (captures_canonical v) as Hg. cbv zeta in Hg.
  set (g := capture _) in *. clearbody g.
  destruct Hg as (He & Hr & Hpre & Hpost & Hdev & Hlocal). unfold pep440_of_groups.
  rewrite He, Hr, Hlocal. destruct v as [e r pre post dev l]. destruct Hv as [We [Wne Wr] Wp Wpo Wd Wl].
  cbn [pv_epoch pv_release pv_pre pv_post pv_dev pv_local] in *. f_equal.
  - destruct (str_eqb e (bs "0")) eqn:E; [by apply str_eqb_eq in E as -> | apply We].
  - unfold release_text. cbn [pv_release]. rewrite split_join; [by apply normalize_fmap | done |].
    eapply Forall_impl; [exact Wr|]. intros d [Hd _]. eapply Forall_not_elem; [exact Hd|]. byte_tac.
  - destruct pre as [[kind n]|]; injection Hpre as -> -> ->; [|done]. destruct Wp as [Hk [_ Hn]]. simpl in *.
    rewrite Hn. destruct Hk as [->|[->| ->]]; by rewrite to_lower_ascii by digits_tac.
  - destruct post as [n|]; injection Hpost as -> -> ->; [|done]. destruct Wpo as [_ Hn]. simpl in *. by rewrite Hn.
  - destruct dev as [n|]; injection Hdev as -> ->; [|done]. destruct Wd as [_ Hn]. simpl in *. by rewrite Hn.
  - destruct l as [|s l]; [done|]. rewrite len_cons. pose proof (len_nonneg l).
    rewrite (proj2 (Z.eqb_neq _ _)) by lia.
    destruct (str_eqb (strings_join (seg_value <$> s :: l) (ch ".")) []) eqn:E; [|by apply local_fields].
    apply str_eqb_eq in E. rewrite fmap_cons, strings_join_concat in E. apply app_eq_nil in E as [E _].
    apply Forall_cons in Wl as [[[? _] _] _]. done.
Qed.

Lemma canonical_graphic d : canonical_decimal d -> Forall graphic d.
Proof. intros [Hd _]. eapply Forall_impl; [exact Hd|]. byte_tac. Qed.

Lemma buildCanonical_graphic v : pep440_wf v -> Forall graphic (buildCanonical v).
Proof.
  intros Hv. rewrite buildCanonical_texts.
  unfold epoch_text, release_text, pre_text, post_text, dev_text, local_text.
  repeat apply Forall_app_2.
  - case_match; [done|]. apply Forall_app_2; [apply canonical_graphic, Hv|].
    apply Forall_singleton. byte_tac.
  - apply Forall_strings_join; [byte_tac|]. eapply Forall_impl; [apply (pw_release v Hv)|].
    apply canonical_graphic.
  - pose proof (pw_pre v Hv) as Hp. destruct (pv_pre v) as [p|]; [|done]. destruct Hp as [Hk Hn].
    apply Forall_app_2; [|by apply canonical_graphic].
    destruct Hk as [->|[->| ->]]; simpl; forall_list; byte_tac.
  - pose proof (pw_post v Hv) as Hp. destruct (pv_post v) as [n|]; [|done].
    apply Forall_app_2; [simpl; forall_list; byte_tac | by apply canonical_graphic].
  - pose proof (pw_dev v Hv) as Hp. destruct (pv_dev v) as [n|]; [|done].
    apply Forall_app_2; [simpl; forall_list; byte_tac | by apply canonical_graphic].
  - case_match; [done|]. constructor; [byte_tac|].
    eapply Forall_impl; [apply local_text_bytes, (pw_local v Hv)|].
    intros c [Hc| ->]; [|byte_tac]. unfold pep440_word_byte, digit in Hc. unfold graphic. lia.
Qed.

Lemma parse_buildCanonical v : pep440_wf v -> parsePEP440Version (buildCanonical v) = Ok v.
Proof.
  intros Hv. unfold parsePEP440Version. pose proof (buildCanonical_graphic v Hv) as Hg.
  assert (Hne : buildCanonical v <> []).
  { rewrite buildCanonical_texts. intros [_ [E _]%app_eq_nil]%app_eq_nil.
    destruct (pw_release v Hv) as [Hne HF]. unfold release_text in E.
    destruct HF as [|n l Hn HF]; [done|]. rewrite strings_join_concat in E.
    apply app_eq_nil in E as [-> _]. by destruct (canonical_decimal_nonempty _ Hn). }
  rewrite blank_or_spaced_graphic, has_space_or_control_graphic by done. cbn [orb].
  assert (existsb (fun c => c >? 0x7F) (buildCanonical v) = false) as ->.
  { apply not_true_iff_false. intros (c & Hc & Hb)%existsb_exists.
    apply list_elem_of_In in Hc. rewrite Forall_forall in Hg. apply Hg in Hc. unfold graphic in Hc. lia. }
  rewrite find_canonical by done. by rewrite of_groups_canonical.
Qed.

End roundtrip.

(** ** Every accepted version is well-formed *)

Lemma plus_class_inv f s s' caps caps' :
  matches (RPlus (RClass f)) s s' caps caps' ->
  exists t, s = t ++ s' /\ run_of f t /\ caps' = caps.
Proof.
  intros H. inversion H as [| |? ? ? s1 ? ? c1 ? H1 H2| | | | | |]; subst. clear H.
  inversion H1 as [|? c ? ? Hc| | | | | | |]; subst. clear H1.
  assert (Hs : exists t, s1 = t ++ s' /\ Forall (fun c => f c = true) t /\ caps' = c1).
  { remember (RStar (RClass f)) as q eqn:Hq. induction H2; try discriminate Hq; injection Hq as ->.
    - by exists [].
    - inversion H2_; subst. destruct IHmatches2 as (t & -> & Ht & ->); [done|].
      exists (c0 :: t). split_and!; [done | by constructor | done]. }
  destruct Hs as (t & -> & Ht & ->). exists (c :: t). split_and!; [done | split; [done | by constructor] | done].
Qed.

Lemma alt_inv r1 r2 s s' caps caps' :
  matches (RAlt r1 r2) s s' caps caps' -> matches r1 s s' caps caps' \/ matches r2 s s' caps caps'.
Proof. intros H. inversion H; subst; auto. Qed.

Lemma opt_inv r s s' caps caps' :
  matches (ROpt r) s s' caps caps' -> matches r s s' caps caps' \/ (s' = s /\ caps' = caps).
Proof. intros H. inversion H as [| | |? ? ? ? ? ? H1|? ? ? ? ? ? H1| | | |]; subst; [by left|]. inversion H1. by right. Qed.

Lemma seq_inv r1 r2 s s' caps caps' :
  matches (RSeq r1 r2) s s' caps caps' ->
  exists s1 caps1, matches r1 s s1 caps caps1 /\ matches r2 s1 s' caps1 caps'.
Proof. intros H. inversion H; subst. eauto. Qed.

Lemma group_inv name r s s' caps caps' :
  matches (RGroup name r) s s' caps caps' ->
  exists caps1, matches r s s' caps caps1
    /\ caps' = (name, take (length s - length s') s) :: caps1.
Proof. intros H. inversion H; subst. eauto. Qed.

Lemma class_inv f s s' caps caps' :
  matches (RClass f) s s' caps caps' -> exists c, s = c :: s' /\ f c = true /\ caps' = caps.
Proof. intros H. inversion H; subst. eauto. Qed.

Lemma alts_inv l s s' caps caps' :
  matches (RAlts l) s s' caps caps' -> exists r, r ∈ l /\ matches r s s' caps caps'.
Proof.
  induction l as [|r l IH]; [by intros (c & _ & [=] & _)%class_inv|].
  destruct l as [|q l].
  - intros H. exists r. split; [constructor | done].
  - intros H. inversion H; subst; [exists r; split; [constructor | done]|].
    destruct IH as (r' & Hr & Hm); [done|]. exists r'. split; [by constructor | done].
Qed.

Lemma fold_letter b c : 97 <= b <= 122 -> fold_class (Z.eqb b) c = true -> byte_lower c = b.
Proof. unfold fold_class, byte_lower, in_range. go_chars. intros Hb. case_match; lia. Qed.

Lemma lit_inv w s s' caps caps' :
  Forall (fun b => 97 <= b <= 122) w -> matches (RLit w) s s' caps caps' ->
  exists t, s = t ++ s' /\ byte_lower <$> t = w /\ caps' = caps.
Proof.
  intros HF; revert s caps; induction HF as [|b w Hb HF IH]; intros s caps.
  - intros H. inversion H; subst. by exists [].
  - destruct w as [|b2 w].
    + intros (c & -> & Hc%fold_letter & ->)%class_inv; [|done]. exists [c]. simpl. by rewrite Hc.
    + intros (s1 & c1 & H1 & H)%seq_inv. apply class_inv in H1 as (c & -> & Hc & ->).
      apply fold_letter in Hc; [|done].
      apply IH in H as (t & -> & <- & ->). exists (c :: t). rewrite fmap_cons. by rewrite Hc.
Qed.

Lemma run_numeral t : run_of digit_class t -> t <> [] /\ digits t.
Proof.
  intros [Hne Ht]. split; [done|]. eapply Forall_impl; [exact Ht|]. intros c Hc%in_range_true. by go_chars.
Qed.

Lemma group_digits_inv name s s' caps caps' :
  matches (RGroup name re_digits) s s' caps caps' ->
  exists n, s = n ++ s' /\ (n <> [] /\ digits n) /\ caps' = (name, n) :: caps.
Proof.
  intros (c1 & (t & -> & Ht & ->)%plus_class_inv & ->)%group_inv. rewrite take_prefix.
  exists t. split; [done|]. split; [by apply run_numeral | done].
Qed.

Lemma number_inv name s s' caps caps' :
  matches (RSeq (ROpt re_sep) (ROpt (RGroup name re_digits))) s s' caps caps' ->
  caps' = caps \/ exists n, (n <> [] /\ digits n) /\ caps' = (name, n) :: caps.
Proof.
  intros (s1 & c1 & H1 & H2)%seq_inv.
  assert (c1 = caps) as -> by by apply opt_inv in H1 as [(c & _ & _ & ->)%class_inv|[_ ->]].
  apply opt_inv in H2 as [(n & _ & Hn & ->)%group_digits_inv|[_ ->]]; eauto.
Qed.

Definition kind_words : list gostring :=
  [bs "alpha"; bs "a"; bs "beta"; bs "b"; bs "preview"; bs "pre"; bs "c"; bs "rc"].

Lemma pre_inv s s' caps caps' :
  matches re_pre s s' caps caps' ->
  caps' = caps \/ exists t l, byte_lower <$> l ∈ kind_words
    /\ (caps' = ("pre"%string, t) :: ("pre_l"%string, l) :: caps
        \/ exists n, (n <> [] /\ digits n)
           /\ caps' = ("pre"%string, t) :: ("pre_n"%string, n) :: ("pre_l"%string, l) :: caps).
Proof.
  intros [(c1 & H & ->)%group_inv|[_ ->]]%opt_inv; [|by left]. right.
  apply seq_inv in H as (s1 & c2 & H1 & H).
  assert (c2 = caps) as -> by by apply opt_inv in H1 as [(c & _ & _ & ->)%class_inv|[_ ->]].
  apply seq_inv in H as (s2 & c3 & (c4 & (r & Hr & Hm)%alts_inv & ->)%group_inv & H).
  apply list_elem_of_fmap in Hr as (w & -> & Hw).
  assert (Hl : Forall (fun b => 97 <= b <= 122) w).
  { assert (HF : Forall (Forall (fun b => 97 <= b <= 122)) kind_words)
      by (unfold kind_words; simpl; go_chars; forall_list; lia).
    rewrite Forall_forall in HF. by apply HF. }
  apply lit_inv in Hm as (l & -> & <- & ->); [|done]. rewrite take_prefix in H.
  eexists _, l. split; [exact Hw|].
  apply number_inv in H as [->|(n & Hn & ->)]; [by left | right; eauto].
Qed.

Lemma post_inv s s' caps caps' :
  matches re_post s s' caps caps' ->
  caps' = caps \/ exists t l,
    caps' = ("post"%string, t) :: ("post_l"%string, l) :: caps
    \/ exists n, (n <> [] /\ digits n)
       /\ (caps' = ("post"%string, t) :: ("post_n1"%string, n) :: caps
           \/ caps' = ("post"%string, t) :: ("post_n2"%string, n) :: ("post_l"%string, l) :: caps).
Proof.
  intros [(c1 & H & ->)%group_inv|[_ ->]]%opt_inv; [|by left]. right.
  apply alt_inv in H as [H1|H1].
  - apply seq_inv in H1 as (s1 & c2 & (c & _ & _ & ->)%class_inv & (n & _ & Hn & ->)%group_digits_inv).
    eexists _, []. right. eauto.
  - apply seq_inv in H1 as (s1 & c2 & H1 & H).
    assert (c2 = caps) as -> by by apply opt_inv in H1 as [(c & _ & _ & ->)%class_inv|[_ ->]].
    apply seq_inv in H as (s2 & c3 & (c4 & (r & Hr & Hm)%alts_inv & ->)%group_inv & H).
    apply list_elem_of_fmap in Hr as (w & -> & Hw).
    assert (Hl : Forall (fun b => 97 <= b <= 122) w).
    { assert (HF : Forall (Forall (fun b => 97 <= b <= 122)) [bs "post"; bs "rev"; bs "r"])
        by (simpl; go_chars; forall_list; lia).
      rewrite Forall_forall in HF. by apply HF. }
    apply lit_inv in Hm as (l & -> & _ & ->); [|done].
    eexists _, _. apply number_inv in H as [->|(n & Hn & ->)]; [by left | right; eauto].
Qed.

Lemma dev_inv s s' caps caps' :
  matches re_dev s s' caps caps' ->
  caps' = caps \/ exists t l, caps' = ("dev"%string, t) :: ("dev_l"%string, l) :: caps
    \/ exists n, (n <> [] /\ digits n)
       /\ caps' = ("dev"%string, t) :: ("dev_n"%string, n) :: ("dev_l"%string, l) :: caps.
Proof.
  intros [(c1 & H & ->)%group_inv|[_ ->]]%opt_inv; [|by left]. right.
  apply seq_inv in H as (s1 & c2 & H1 & H).
  assert (c2 = caps) as -> by by apply opt_inv in H1 as [(c & _ & _ & ->)%class_inv|[_ ->]].
  apply seq_inv in H as (s2 & c3 & (c4 & Hm & ->)%group_inv & H).
  apply lit_inv in Hm as (l & _ & _ & ->); [|simpl; go_chars; forall_list; lia].
  eexists _, _. apply number_inv in H as [->|(n & Hn & ->)]; [by left | right; eauto].
Qed.

Lemma epoch_inv s s' caps caps' :
  matches re_epoch s s' caps caps' ->
  caps' = caps \/ exists n, (n <> [] /\ digits n) /\ caps' = ("epoch"%string, n) :: caps.
Proof.
  intros [(s1 & c1 & (n & _ & Hn & ->)%group_digits_inv & (c & _ & _ & ->)%class_inv)%seq_inv|[_ ->]]%opt_inv;
    eauto.
Qed.

Lemma re_list_inv f g s s' caps caps' :
  matches (re_list f g) s s' caps caps' ->
  exists p qs, s = (p ++ concat ((fun q => q.1 :: q.2) <$> qs)) ++ s'
    /\ run_of f p /\ Forall (fun q : Z * gostring => g q.1 = true /\ run_of f q.2) qs /\ caps' = caps.
Proof.
  intros (s1 & c1 & (p & -> & Hp & ->)%plus_class_inv & H)%seq_inv.
  assert (Hq : exists qs, s1 = concat ((fun q => q.1 :: q.2) <$> qs) ++ s'
    /\ Forall (fun q : Z * gostring => g q.1 = true /\ run_of f q.2) qs /\ caps' = caps).
  { remember (RStar (RSeq (RClass g) (RPlus (RClass f)))) as r eqn:Hr.
    induction H; try discriminate Hr; injection Hr as ->.
    - by exists [].
    - apply seq_inv in H as (s3 & c3 & (c & -> & Hc & ->)%class_inv & (q & -> & Hq & ->)%plus_class_inv).
      destruct IHmatches2 as (qs & -> & HF & ->); [done..|]. exists ((c, q) :: qs).
      rewrite fmap_cons. cbn [concat fst snd app]. rewrite <- (assoc_L app).
      split; [done|]. split; [by constructor | done]. }
  destruct Hq as (qs & -> & HF & ->). exists p, qs. by rewrite <- (assoc_L app).
Qed.

Lemma release_inv s s' caps caps' :
  matches re_release s s' caps caps' ->
  exists l, l <> [] /\ Forall (fun d => d <> [] /\ digits d) l
    /\ caps' = ("release"%string, strings_join l (ch ".")) :: caps.
Proof.
  intros (c1 & H & ->)%group_inv. apply re_list_inv in H as (p & qs & -> & Hp & HF & ->).
  rewrite take_prefix. exists (p :: qs.*2). split_and!; [done| |].
  - constructor; [by apply run_numeral|]. apply Forall_fmap. eapply Forall_impl; [exact HF|].
    intros q [_ Hq]. by apply run_numeral.
  - do 2 f_equal. rewrite strings_join_concat. f_equal. clear -HF.
    induction HF as [|[c q] qs [Hc _] HF IH]; [done|]. rewrite !fmap_cons. simpl. rewrite IH. do 2 f_equal.
    simpl in Hc. unfold fold_class, byte_lower, in_range in Hc. clear -Hc. go_chars. revert Hc. case_match; lia.
Qed.

Definition local_byte (c : Z) : Prop := word_class c = true \/ sep_class c = true.

Lemma local_inv s s' caps caps' :
  matches re_local s s' caps caps' ->
  caps' = caps \/ exists t, Forall local_byte t /\ caps' = ("local"%string, t) :: caps.
Proof.
  intros [(s1 & c1 & (c & -> & _ & ->)%class_inv & (c2 & H & ->)%group_inv)%seq_inv|[_ ->]]%opt_inv;
    [right | by left].
  apply re_list_inv in H as (p & qs & -> & [_ Hp] & HF & ->). rewrite take_prefix.
  eexists. split; [|done]. apply Forall_app_2; [eapply Forall_impl; [exact Hp|]; by left|].
  apply Forall_concat, Forall_fmap. eapply Forall_impl; [exact HF|]. intros q [Hq [_ Hr]].
  constructor; [by right|]. eapply Forall_impl; [exact Hr|]. by left.
Qed.

(** The texts of the groups after a successful search. *)
Record groups_ok (g : string -> gostring) : Prop := {
  go_epoch : digits (g "epoch"%string);
  go_release : exists l, l <> [] /\ Forall (fun d => d <> [] /\ digits d) l
    /\ g "release"%string = strings_join l (ch ".");
  go_pre : g "pre"%string = [] \/ byte_lower <$> g "pre_l"%string ∈ kind_words;
  go_numbers : digits (g "pre_n"%string) /\ digits (g "post_n1"%string)
    /\ digits (g "post_n2"%string) /\ digits (g "dev_n"%string);
  go_local : Forall local_byte (g "local"%string);
}.

Lemma find_groups_ok s caps :
  find_submatch pep440VersionPattern s = Some caps -> groups_ok (capture caps).
Proof.
  intros (s' & H)%find_submatch_sound. unfold pep440VersionPattern in H.
  apply seq_inv in H as (s1 & c1 & H1 & H).
  assert (c1 = []) as -> by by apply opt_inv in H1 as [(c & _ & _ & ->)%class_inv|[_ ->]].
  apply seq_inv in H as (s2 & c2 & He%epoch_inv & H).
  apply seq_inv in H as (s3 & c3 & (l & Hl & HF & ->)%release_inv & H).
  apply seq_inv in H as (s4 & c4 & Hp%pre_inv & H).
  apply seq_inv in H as (s5 & c5 & Ho%post_inv & H).
  apply seq_inv in H as (s6 & c6 & Hd%dev_inv & H).
  apply seq_inv in H as (s7 & c7 & Hloc%local_inv & H). inversion H; subst. clear H.
  assert (Hnil : digits []) by constructor.
  assert (Hnl : Forall local_byte []) by constructor.
  destruct He as [->|(n1 & [_ ?] & ->)];
    destruct Hp as [->|(t2 & l2 & ? & [->|(n2 & [_ ?] & ->)])];
    destruct Ho as [->|(t3 & l3 & [->|(n3 & [_ ?] & [->| ->])])];
    destruct Hd as [->|(t4 & l4 & [->|(n4 & [_ ?] & ->)])];
    destruct Hloc as [->|(t5 & ? & ->)];
    (split; [by cbn | by exists l | cbn; tauto | by cbn | by cbn]).
Qed.

Lemma fields_go_pieces (P : Z -> Prop) f s cur :
  Forall P s -> Forall P cur -> Forall (fun c => f c = false) cur ->
  Forall (fun p => p <> [] /\ Forall P p /\ Forall (fun c => f c = false) p) (fields_go f s cur).
Proof.
  intros HF; revert cur.
  assert (Hrev : forall cur, cur <> [] -> Forall P cur -> Forall (fun c => f c = false) cur ->
    rev cur <> [] /\ Forall P (rev cur) /\ Forall (fun c => f c = false) (rev cur)).
  { intros cur Hne Hp Hf. split_and!; [|by rewrite rev_alt; apply Forall_reverse..].
    intros E. apply (f_equal (@rev Z)) in E. by rewrite rev_involutive in E. }
  induction HF as [|c s Hc HF IH]; intros cur Hp Hf; cbn [fields_go].
  - destruct cur; [constructor|]. apply Forall_singleton, Hrev; done.
  - destruct (f c) eqn:E.
    + destruct cur; [by apply IH|]. constructor; [by apply Hrev | by apply IH].
    + apply IH; by constructor.
Qed.

Lemma local_byte_lower c :
  local_byte c -> ascii_byte c
  /\ (pep440_word_byte (byte_lower c) \/ is_local_separator (byte_lower c) = true).
Proof.
  unfold local_byte, fold_class, pep440_word_byte, digit, is_local_separator, mem, ascii_byte,
    byte_lower, in_range. simpl. go_chars. intros H. repeat case_match; lia.
Qed.

Lemma pep440_segment_wf s :
  s <> [] -> Forall pep440_word_byte s -> segment_wf (pep440_segment s).
Proof.
  intros Hne Hw. unfold pep440_segment. destruct (allASCIIDigits s) eqn:E.
  - apply allASCIIDigits_true in E as [_ Hd]. pose proof (normalizeDecimal_digits s Hd) as Hn.
    pose proof (normalizeDecimal_nonempty s) as Hn0. split; simpl.
    + split; [done|]. eapply Forall_impl; [exact Hn|]. by left.
    + unfold pep440_segment. rewrite (proj2 (allASCIIDigits_true _)) by done.
      by rewrite normalizeDecimal_idem.
  - split; simpl; [done|]. unfold pep440_segment. by rewrite E.
Qed.

Lemma pep440_kind_wf l : byte_lower <$> l ∈ kind_words ->
  pep440_kind (byte_lower <$> l) = bs "a" \/ pep440_kind (byte_lower <$> l) = bs "b"
  \/ pep440_kind (byte_lower <$> l) = bs "rc".
Proof.
  generalize (byte_lower <$> l). intros w Hw. unfold kind_words in Hw.
  repeat (apply elem_of_cons in Hw as [->|Hw]; [vm_compute; tauto|]). by apply elem_of_nil in Hw.
Qed.

Lemma kind_ascii l : byte_lower <$> l ∈ kind_words -> Forall ascii_byte l.
Proof.
  intros Hl. assert (HF : Forall (Forall (fun b => 97 <= b <= 122)) kind_words)
    by (unfold kind_words; simpl; go_chars; forall_list; lia).
  rewrite Forall_forall in HF. apply HF in Hl. apply Forall_fmap in Hl.
  eapply Forall_impl; [exact Hl|]. intros c. simpl. unfold byte_lower, ascii_byte, in_range.
  case_match; lia.
Qed.

Section properties.
Context `{UnicodeTables}.

Lemma groups_wf g : groups_ok g -> pep440_wf (pep440_of_groups g).
Proof.
  intros [He (l & Hne & HF & Hr) Hp (Hn1 & Hn2 & Hn3 & Hn4) Hl]. split; simpl.
  - by apply normalizeDecimal_canonical.
  - rewrite Hr, split_join; [|done|].
    + split; [by destruct l|]. apply Forall_fmap. eapply Forall_impl; [exact HF|].
      intros d [_ Hd]. by apply normalizeDecimal_canonical.
    + eapply Forall_impl; [exact HF|]. intros d [_ Hd]. eapply Forall_not_elem; [exact Hd|]. byte_tac.
  - destruct (str_eqb (g "pre"%string) []) eqn:E; [done|]. apply str_eqb_neq in E.
    destruct Hp as [?|Hp]; [done|]. split; simpl; [|by apply normalizeDecimal_canonical].
    rewrite to_lower_ascii by by apply kind_ascii. by apply pep440_kind_wf.
  - case_match; [done|]. simpl. apply normalizeDecimal_canonical. by case_match.
  - case_match; [done|]. simpl. by apply normalizeDecimal_canonical.
  - case_match; [constructor|]. apply Forall_fmap.
    assert (Hlow : Forall (fun c => pep440_word_byte c \/ is_local_separator c = true)
                     (to_lower (g "local"%string))).
    { rewrite to_lower_ascii.
      - apply Forall_fmap. eapply Forall_impl; [exact Hl|]. intros c Hc. by apply local_byte_lower.
      - eapply Forall_impl; [exact Hl|]. intros c Hc. by apply local_byte_lower. }
    eapply Forall_impl; [unfold fields_func; apply fields_go_pieces; [exact Hlow | constructor..]|].
    intros s (Hs & Hw & Hf). simpl. apply pep440_segment_wf; [done|].
    rewrite Forall_forall in Hw, Hf |- *. intros c Hc. destruct (Hw c Hc) as [?|Hsep]; [done|].
    by rewrite Hf in Hsep.
Qed.

Lemma parsePEP440_wf s v : parsePEP440Version s = Ok v -> pep440_wf v.
Proof.
  unfold parsePEP440Version. intros H0. go_inv. by eapply groups_wf, find_groups_ok.
Qed.

(** ** Properties *)

(** The canonical spelling of every accepted PEP 440 version is accepted, and
    the pattern search finds in it exactly the fields of the original version, so
    canonicalization is idempotent and equal canonical spellings mean equal
    versions. *)
Theorem pep440_canonical_roundtrip s t v w :
  parsePEP440Version s = Ok v -> parsePEP440Version t = Ok w ->
  parsePEP440Version (buildCanonical v) = Ok v
  /\ pep440CanonicalVersion (buildCanonical v) = Ok (buildCanonical v)
  /\ (buildCanonical v = buildCanonical w <-> v = w).
Proof.
  intros Hv%parsePEP440_wf Hw%parsePEP440_wf. apply parse_buildCanonical in Hv, Hw.
  split_and!; [done | by unfold pep440CanonicalVersion; rewrite Hv|]. split; congruence.
Qed.

End properties.

Lemma pep440_canonical_roundtrip_witness :
  let tables : UnicodeTables := Build_UnicodeTables (fun r => r) (fun _ => false) (fun _ => false) (fun _ => false) (fun r => r) in
  let v := {| pv_epoch := bs "0"; pv_release := [bs "1"; bs "0"];
              pv_pre := Some {| pre_kind := bs "rc"; pre_number := bs "2" |}; pv_post := Some (bs "0");
              pv_dev := None; pv_local := [pep440_segment (bs "ubuntu"); pep440_segment (bs "3")] |} in
  parsePEP440Version (buildCanonical v) = Ok v
  /\ pep440CanonicalVersion (buildCanonical v) = Ok (buildCanonical v)
  /\ (buildCanonical v = buildCanonical v <-> v = v).
Proof.
  intros tables v.
  apply (pep440_canonical_roundtrip (bs "v1.0-Preview_02-r+Ubuntu-03") (bs "1.0c2.post0+ubuntu.3"));
    vm_compute; reflexivity.
Defined.

(** The PEP 440 ordering is a total preorder on all version records: its
    results are -1, 0 and 1, swapping the sides negates them, and it is
    transitive through the release padding, the pre-release sentinels, the
    optional post and dev numbers and the local segments. *)
Theorem pep440_total_preorder : ThreeWay comparePEP440Versions.
Proof. apply _. Qed.
