(* ===== verification/Maven.v ===== *)
(** * Maven versions (internal/packagepolicy/maven.go)

    The port of Maven's ComparableVersion: tokenizer, item tree, normalization
    and comparison.

    The parser appends only to the list it opened last, so in the Go program
    [stack[i+1]] is always the last item of [stack[i]].  The state keeps the
    stack as the items of the open list and those of its ancestors, innermost
    first; closing the stack puts each list at the end of its parent. *)

From S2P Require Export Decimal.

(** [cases.Lower(language.English).String] of golang.org/x/text. *)
Class EnglishLower := {
  english_lower : gostring -> gostring;
  english_lower_ascii s : Forall ascii_byte s -> english_lower s = byte_lower <$> s;
}.

Inductive mavenItem :=
  | mavenNumericItem (digits : gostring)
  | mavenStringItem (value : gostring)
  | mavenListItem (items : list mavenItem).

Definition maven_isNull (item : mavenItem) : bool :=
  match item with
  | mavenNumericItem d => str_eqb d (bs "0")
  | mavenStringItem v => str_eqb v []
  | mavenListItem l => len l =? 0
  end.

(** ** Numbers and qualifiers *)

(** [unicode.Digit.R16]: the ranges of BMP decimal digits, all of stride 1. *)
Definition digit_ranges : list (Z * Z) :=
  [(0x30, 0x39); (0x660, 0x669); (0x6f0, 0x6f9); (0x7c0, 0x7c9); (0x966, 0x96f); (0x9e6, 0x9ef);
   (0xa66, 0xa6f); (0xae6, 0xaef); (0xb66, 0xb6f); (0xbe6, 0xbef); (0xc66, 0xc6f); (0xce6, 0xcef);
   (0xd66, 0xd6f); (0xde6, 0xdef); (0xe50, 0xe59); (0xed0, 0xed9); (0xf20, 0xf29); (0x1040, 0x1049);
   (0x1090, 0x1099); (0x17e0, 0x17e9); (0x1810, 0x1819); (0x1946, 0x194f); (0x19d0, 0x19d9);
   (0x1a80, 0x1a89); (0x1a90, 0x1a99); (0x1b50, 0x1b59); (0x1bb0, 0x1bb9); (0x1c40, 0x1c49);
   (0x1c50, 0x1c59); (0xa620, 0xa629); (0xa8d0, 0xa8d9); (0xa900, 0xa909); (0xa9d0, 0xa9d9);
   (0xa9f0, 0xa9f9); (0xaa50, 0xaa59); (0xabf0, 0xabf9); (0xff10, 0xff19)].

Fixpoint digit_in (ranges : list (Z * Z)) (value : Z) : option Z :=
  match ranges with
  | [] => None
  | (lo, hi) :: ranges =>
    if (value <? lo) || (value >? hi) then digit_in ranges value else Some ((value - lo) mod 10)
  end.

Definition mavenDigitValue (character : Z) : option Z :=
  if character >? 0xffff then None else digit_in digit_ranges (character mod 65536).

Definition isMavenDigit (character : Z) : bool :=
  match mavenDigitValue character with Some _ => true | None => false end.

(** A panic of the source, as an error no other path returns. *)
Definition maven_panic : error := Sentinel "panic: non-digit in Maven numeric item".

Fixpoint normalizeMavenDigits (value : list Z) (leadingZero : bool) : result gostring :=
  match value with
  | [] => Ok []
  | character :: value =>
    match mavenDigitValue character with
    | None => Err maven_panic
    | Some digit =>
      if leadingZero && (digit =? 0) then normalizeMavenDigits value true else
      rest ← normalizeMavenDigits value false;
      Ok (ch "0" + digit :: rest)
    end
  end.

(** [value] is the token as runes. *)
Definition normalizeMavenDecimal (value : list Z) : result gostring :=
  normalized ← normalizeMavenDigits value true;
  Ok (if len normalized =? 0 then bs "0" else normalized).

Definition compareMavenDecimal (left right : gostring) : Z :=
  if negb (len left =? len right) then signOf (len left - len right)
  else signOf (strings_compare left right).

Definition mavenQualifierOrder (value : gostring) : option Z :=
  if str_eqb value (bs "alpha") then Some 0
  else if str_eqb value (bs "beta") then Some 1
  else if str_eqb value (bs "milestone") then Some 2
  else if str_eqb value (bs "rc") then Some 3
  else if str_eqb value (bs "snapshot") then Some 4
  else if str_eqb value [] then Some 5
  else if str_eqb value (bs "sp") then Some 6
  else None.

(** [java.lang.String.compareTo]: UTF-16 code units, then the lengths. *)
Fixpoint compareUnits (left right : list Z) : Z :=
  match left, right with
  | a :: l, b :: r => if a <? b then -1 else if a >? b then 1 else compareUnits l r
  | l, r => signOf (len l - len r)
  end.

Definition compareMavenStrings (left right : gostring) : Z :=
  compareUnits (utf16_encode (runes left)) (utf16_encode (runes right)).

Definition compareMavenQualifiers (left right : gostring) : Z :=
  match mavenQualifierOrder left, mavenQualifierOrder right with
  | Some l, Some r => signOf (l - r)
  | Some _, None => -1
  | None, Some _ => 1
  | None, None => compareMavenStrings left right
  end.

Definition newMavenStringItem (value : gostring) (followedByDigit : bool) : mavenItem :=
  let value :=
    if followedByDigit then
      if str_eqb value (bs "a") then bs "alpha"
      else if str_eqb value (bs "b") then bs "beta"
      else if str_eqb value (bs "m") then bs "milestone"
      else value
    else value in
  let value :=
    if str_eqb value (bs "ga") || str_eqb value (bs "final") || str_eqb value (bs "release") then []
    else if str_eqb value (bs "cr") then bs "rc"
    else value in
  mavenStringItem value.

(** ** Comparison *)

(** [compareTo(nil)] *)
Fixpoint compareToNil (item : mavenItem) : Z :=
  match item with
  | mavenNumericItem d => if str_eqb d (bs "0") then 0 else 1
  | mavenStringItem v => compareMavenQualifiers v []
  | mavenListItem items =>
    (fix go items :=
       match items with
       | [] => 0
       | child :: items => or_else (compareToNil child) (go items)
       end) items
  end.

(** The index loop once the left list ran out. *)
Fixpoint compareNilTo (right : list mavenItem) : Z :=
  match right with
  | [] => 0
  | y :: r => or_else (- compareToNil y) (compareNilTo r)
  end.

Fixpoint compareTo (item other : mavenItem) : Z :=
  match item, other with
  | mavenNumericItem a, mavenNumericItem b => compareMavenDecimal a b
  | mavenNumericItem _, _ => 1
  | mavenStringItem _, mavenNumericItem _ => -1
  | mavenStringItem a, mavenStringItem b => compareMavenQualifiers a b
  | mavenStringItem _, mavenListItem _ => -1
  | mavenListItem _, mavenNumericItem _ => -1
  | mavenListItem _, mavenStringItem _ => 1
  | mavenListItem l, mavenListItem r =>
    (fix go l r :=
       match l, r with
       | [], r => compareNilTo r
       | x :: l, [] => or_else (compareToNil x) (go l [])
       | x :: l, y :: r => or_else (compareTo x y) (go l r)
       end) l r
  end.

(** ** Normalization and rendering *)

(** The loop of [normalize] from the last index down: [suffix] is what it keeps
    behind the index. *)
Fixpoint normalize_from (rev_prefix suffix : list mavenItem) : list mavenItem :=
  match rev_prefix with
  | [] => suffix
  | last :: rest =>
    if maven_isNull last then normalize_from rest suffix
    else match last with
         | mavenListItem _ => normalize_from rest (last :: suffix)
         | _ => rev rest ++ last :: suffix
         end
  end.

Definition maven_normalize (items : list mavenItem) : list mavenItem :=
  normalize_from (rev items) [].

(** [canonical()]: the diagnostic rendering of the tree. *)
Fixpoint maven_item_canonical (item : mavenItem) : gostring :=
  match item with
  | mavenNumericItem d => d
  | mavenStringItem v => v
  | mavenListItem items =>
    (fix go items (canonical : gostring) :=
       match items with
       | [] => canonical
       | child :: items =>
         let separator :=
           if len canonical >? 0 then
             match child with mavenListItem _ => bs "-" | _ => bs "." end
           else [] in
         go items (canonical ++ separator ++ maven_item_canonical child)
       end) items []
  end.

(** ** Parsing *)

Record mavenState := {
  ms_list : list mavenItem;            (* list.items *)
  ms_parents : list (list mavenItem);  (* the rest of the stack, innermost first *)
  ms_isDigit : bool;
  ms_token : list Z;                   (* characters[startIndex:index] *)
}.

Definition maven_push (item : mavenItem) (st : mavenState) : mavenState :=
  {| ms_list := ms_list st ++ [item]; ms_parents := ms_parents st;
     ms_isDigit := ms_isDigit st; ms_token := ms_token st |}.

Definition maven_open (st : mavenState) : mavenState :=
  {| ms_list := []; ms_parents := ms_list st :: ms_parents st;
     ms_isDigit := ms_isDigit st; ms_token := ms_token st |}.

Definition with_token (token : list Z) (isDigit : bool) (st : mavenState) : mavenState :=
  {| ms_list := ms_list st; ms_parents := ms_parents st; ms_isDigit := isDigit; ms_token := token |}.

Definition parseMavenItem (isDigit : bool) (value : list Z) : result mavenItem :=
  if isDigit then digits ← normalizeMavenDecimal value; Ok (mavenNumericItem digits)
  else Ok (newMavenStringItem (of_runes value) false).

Definition no_token (st : mavenState) : bool := len (ms_token st) =? 0.
Definition no_items (st : mavenState) : bool := len (ms_list st) =? 0.

(** The item of the token a separator ends. *)
Definition maven_flush (st : mavenState) : result mavenState :=
  item ← (if no_token st then Ok (mavenNumericItem (bs "0"))
          else parseMavenItem (ms_isDigit st) (ms_token st));
  Ok (with_token [] (ms_isDigit st) (maven_push item st)).

Definition maven_step (st : mavenState) (character : Z) : result mavenState :=
  if character =? ch "." then maven_flush st
  else if character =? ch "-" then
    st ← maven_flush st; Ok (maven_open st)
  else if isMavenDigit character then
    if negb (ms_isDigit st) && negb (no_token st) then
      let token := of_runes (ms_token st) in
      let st := if no_items st then st else maven_open st in
      let st := maven_push (newMavenStringItem token true) st in
      Ok (with_token [character] true (maven_open st))
    else Ok (with_token (ms_token st ++ [character]) true st)
  else
    if ms_isDigit st && negb (no_token st) then
      item ← parseMavenItem true (ms_token st);
      Ok (with_token [character] false (maven_open (maven_push item st)))
    else Ok (with_token (ms_token st ++ [character]) false st).

Fixpoint maven_run (st : mavenState) (characters : list Z) : result mavenState :=
  match characters with
  | [] => Ok st
  | c :: characters => st ← maven_step st c; maven_run st characters
  end.

Definition maven_finish (st : mavenState) : result mavenState :=
  if no_token st then Ok st else
  let st' := if negb (ms_isDigit st) && negb (no_items st) then maven_open st else st in
  item ← parseMavenItem (ms_isDigit st) (ms_token st);
  Ok (maven_push item st').

(** The closing loop over the stack. *)
Fixpoint maven_close (items : list mavenItem) (parents : list (list mavenItem)) : list mavenItem :=
  match parents with
  | [] => maven_normalize items
  | parent :: parents => maven_close (parent ++ [mavenListItem (maven_normalize items)]) parents
  end.

Definition maven_start : mavenState :=
  {| ms_list := []; ms_parents := []; ms_isDigit := false; ms_token := [] |}.

Section maven.
Context `{EnglishLower}.

Definition lowerMavenVersion (value : gostring) : gostring := english_lower value.

Definition parseMavenVersion (value : gostring) : result mavenItem :=
  if blank_or_spaced value || has_space_or_control value
  then fail "Maven version must be non-empty and contain no whitespace or control characters" else
  st ← maven_run maven_start (runes (lowerMavenVersion value));
  st ← maven_finish st;
  Ok (mavenListItem (maven_close (ms_list st) (ms_parents st))).

Definition mavenValidateVersion (version : gostring) : result unit :=
  _ ← parseMavenVersion version; Ok ().

Definition mavenCompareVersions (a b : gostring) : result Z :=
  left ← wrap "parse left version: %w" (parseMavenVersion a);
  right ← wrap "parse right version: %w" (parseMavenVersion b);
  Ok (signOf (compareTo left right)).

Definition mavenSupportsRanges : bool := false.

Definition mavenCanonicalVersion (value : gostring) : result gostring :=
  _ ← parseMavenVersion value;
  Ok (lowerMavenVersion value).
End maven.

(** ** Induction over the item tree *)

Lemma mavenItem_nested_ind (P : mavenItem -> Prop) :
  (forall d, P (mavenNumericItem d)) -> (forall v, P (mavenStringItem v)) ->
  (forall l, Forall P l -> P (mavenListItem l)) -> forall item, P item.
Proof.
  intros Hn Hs Hl. fix IH 1. intros [d|v|l]; [apply Hn | apply Hs | apply Hl].
  induction l as [|x l IHl]; constructor; [apply IH | apply IHl].
Qed.

(** The list cases as recursions over the lists. *)
Fixpoint maven_list_nil (l : list mavenItem) : Z :=
  match l with [] => 0 | x :: l => or_else (compareToNil x) (maven_list_nil l) end.

Fixpoint maven_lists (l r : list mavenItem) : Z :=
  match l, r with
  | [], r => compareNilTo r
  | x :: l, [] => or_else (compareToNil x) (maven_lists l [])
  | x :: l, y :: r => or_else (compareTo x y) (maven_lists l r)
  end.

Lemma compareToNil_list l : compareToNil (mavenListItem l) = maven_list_nil l.
Proof. induction l as [|x l IH]; simpl; [done|]. simpl in IH. by rewrite IH. Qed.

Lemma compareTo_lists l r : compareTo (mavenListItem l) (mavenListItem r) = maven_lists l r.
Proof.
  by destruct l, r.
Qed.

(** ** Range and antisymmetry *)

Lemma or_else_neg a b : or_else (- a) (- b) = - or_else a b.
Proof. unfold or_else. repeat case_match; lia. Qed.

Lemma or_else_in_range a b :
  a = -1 \/ a = 0 \/ a = 1 -> b = -1 \/ b = 0 \/ b = 1 ->
  or_else a b = -1 \/ or_else a b = 0 \/ or_else a b = 1.
Proof. three_way. Qed.

Lemma compareUnits_opp l r : compareUnits r l = - compareUnits l r.
Proof.
  revert r; induction l as [|a l IH]; intros [|b r]; simpl; try done.
  rewrite IH. repeat case_match; lia.
Qed.

Lemma compareUnits_range l r : compareUnits l r = -1 \/ compareUnits l r = 0 \/ compareUnits l r = 1.
Proof.
  revert r; induction l as [|a l IH]; intros [|b r]; simpl; try apply signOf_range.
  repeat case_match; try lia. apply IH.
Qed.

Lemma compareMavenQualifiers_opp l r : compareMavenQualifiers r l = - compareMavenQualifiers l r.
Proof.
  unfold compareMavenQualifiers.
  destruct (mavenQualifierOrder l), (mavenQualifierOrder r); try lia; [three_way | apply compareUnits_opp].
Qed.

Lemma compareMavenQualifiers_range l r :
  compareMavenQualifiers l r = -1 \/ compareMavenQualifiers l r = 0 \/ compareMavenQualifiers l r = 1.
Proof.
  unfold compareMavenQualifiers.
  destruct (mavenQualifierOrder l), (mavenQualifierOrder r);
    try lia; [apply signOf_range | apply compareUnits_range].
Qed.

Lemma compareMavenDecimal_opp l r : compareMavenDecimal r l = - compareMavenDecimal l r.
Proof.
  unfold compareMavenDecimal. rewrite (cmp_opp l r). rewrite (Z.eqb_sym (len r) (len l)).
  destruct (len l =? len r); simpl; three_way.
Qed.

Lemma compareMavenDecimal_range l r :
  compareMavenDecimal l r = -1 \/ compareMavenDecimal l r = 0 \/ compareMavenDecimal l r = 1.
Proof. unfold compareMavenDecimal. case_match; apply signOf_range. Qed.

Lemma compareToNil_range x : compareToNil x = -1 \/ compareToNil x = 0 \/ compareToNil x = 1.
Proof.
  induction x as [d|v|l IH] using mavenItem_nested_ind.
  - simpl. case_match; lia.
  - apply compareMavenQualifiers_range.
  - rewrite compareToNil_list. induction IH as [|x l Hx IH IHl]; simpl; [lia|]. by apply or_else_in_range.
Qed.

Lemma compareNilTo_opp r : compareNilTo r = - maven_list_nil r.
Proof. induction r as [|y r IH]; simpl; [done|]. by rewrite IH, or_else_neg. Qed.

Lemma maven_lists_nil l : maven_lists l [] = maven_list_nil l.
Proof. induction l as [|x l IH]; simpl; [done|]. by rewrite IH. Qed.

Lemma maven_list_nil_range l :
  maven_list_nil l = -1 \/ maven_list_nil l = 0 \/ maven_list_nil l = 1.
Proof.
  induction l as [|x l IH]; simpl; [lia|]. apply or_else_in_range; [apply compareToNil_range | done].
Qed.

Lemma compareTo_opp a b : compareTo b a = - compareTo a b.
Proof.
  revert b; induction a as [d|v|l IH] using mavenItem_nested_ind; intros [e|w|r]; try done.
  - apply compareMavenDecimal_opp.
  - apply compareMavenQualifiers_opp.
  - rewrite !compareTo_lists. revert r; induction IH as [|x l Hx IH IHl]; intros r.
    + rewrite maven_lists_nil. simpl. rewrite compareNilTo_opp. lia.
    + destruct r as [|y r]; cbn [maven_lists].
      * rewrite maven_lists_nil, compareNilTo_opp. cbn [maven_list_nil]. done.
      * by rewrite Hx, IHl, or_else_neg.
Qed.

Lemma compareTo_range a b : compareTo a b = -1 \/ compareTo a b = 0 \/ compareTo a b = 1.
Proof.
  revert b; induction a as [d|v|l IH] using mavenItem_nested_ind; intros [e|w|r]; try (simpl; lia).
  - apply compareMavenDecimal_range.
  - apply compareMavenQualifiers_range.
  - rewrite compareTo_lists. revert r; induction IH as [|x l Hx IH IHl]; intros r.
    + simpl. rewrite compareNilTo_opp. pose proof (maven_list_nil_range r). lia.
    + destruct r as [|y r]; cbn [maven_lists]; apply or_else_in_range;
        [apply compareToNil_range | apply IHl | apply Hx | apply IHl].
Qed.

Lemma compareTo_refl a : compareTo a a = 0.
Proof. pose proof (compareTo_opp a a). lia. Qed.

(** ** The tokenizer never panics *)

Inductive item_wf : mavenItem -> Prop :=
  | wf_numeric d : canonical_decimal d -> item_wf (mavenNumericItem d)
  | wf_string v : item_wf (mavenStringItem v)
  | wf_list l : Forall item_wf l -> item_wf (mavenListItem l).

Definition digit_tokens (token : list Z) : Prop := Forall (fun c => isMavenDigit c = true) token.

Lemma digit_in_range ranges v d : digit_in ranges v = Some d -> 0 <= d < 10.
Proof.
  induction ranges as [|[lo hi] ranges IH]; simpl; [done|]. case_match; [done|].
  intros [= <-]. apply Z.mod_pos_bound. lia.
Qed.

Lemma isMavenDigit_value c : isMavenDigit c = true -> exists d, mavenDigitValue c = Some d /\ 0 <= d < 10.
Proof.
  unfold isMavenDigit. destruct (mavenDigitValue c) as [d|] eqn:E; [|done]. intros _.
  exists d. split; [done|]. unfold mavenDigitValue in E. case_match; [done|]. by eapply digit_in_range.
Qed.

Lemma normalizeMavenDigits_ok value lead :
  digit_tokens value ->
  exists ds, normalizeMavenDigits value lead = Ok ds /\ digits ds
    /\ (lead = true -> match ds with c :: _ => c <> 48 | [] => True end).
Proof.
  intros HF; revert lead; induction HF as [|c value Hc HF IH]; intros lead; simpl.
  - exists []. split_and!; [done | constructor | done].
  - destruct (isMavenDigit_value c Hc) as (d & -> & Hd).
    destruct (lead && (d =? 0)) eqn:E.
    + destruct (IH true) as (ds & -> & Hds & Hl). exists ds. split_and!; try done. intros _. by apply Hl.
    + destruct (IH false) as (ds & -> & Hds & _). simpl. eexists. split; [reflexivity|]. go_chars. split.
      * constructor; [unfold digit; lia | done].
      * intros ->. simpl in E. lia.
Qed.

Lemma normalizeMavenDecimal_ok value :
  digit_tokens value -> exists ds, normalizeMavenDecimal value = Ok ds /\ canonical_decimal ds.
Proof.
  intros HF. unfold normalizeMavenDecimal.
  destruct (normalizeMavenDigits_ok value true HF) as (ds & -> & Hd & Hl). simpl.
  eexists. split; [reflexivity|]. specialize (Hl eq_refl). destruct ds as [|c ds].
  - by apply canonical_decimal_single.
  - rewrite len_cons. pose proof (len_nonneg ds). rewrite (proj2 (Z.eqb_neq _ _)) by lia.
    destruct ds as [|c2 ds]; [apply canonical_decimal_single; by inversion Hd|].
    apply canonical_decimal_intro; [done | simpl; lia | done].
Qed.

(** The class of the token's characters is the one [isDigit] records. *)
Definition state_wf (st : mavenState) : Prop :=
  Forall item_wf (ms_list st) /\ Forall (Forall item_wf) (ms_parents st)
  /\ (ms_isDigit st = true -> digit_tokens (ms_token st)).

Lemma parseMavenItem_ok isDigit token :
  (isDigit = true -> digit_tokens token) ->
  exists item, parseMavenItem isDigit token = Ok item /\ item_wf item.
Proof.
  intros Ht. unfold parseMavenItem. destruct isDigit.
  - destruct (normalizeMavenDecimal_ok token) as (ds & -> & Hd); [by apply Ht|]. simpl.
    eexists. split; [reflexivity | by constructor].
  - eexists. split; [reflexivity | constructor].
Qed.

Lemma push_wf item st : item_wf item -> state_wf st -> state_wf (maven_push item st).
Proof. intros Hi (Hl & Hp & Ht). split_and!; simpl; [|done..]. by apply Forall_app_2; [|apply Forall_singleton]. Qed.

Lemma open_wf st : state_wf st -> state_wf (maven_open st).
Proof. intros (Hl & Hp & Ht). split_and!; simpl; [constructor | by constructor | done]. Qed.

Lemma token_wf token isDigit st :
  (isDigit = true -> digit_tokens token) -> state_wf st -> state_wf (with_token token isDigit st).
Proof. intros Hd (Hl & Hp & Ht). done. Qed.

Lemma maven_flush_ok st : state_wf st -> exists st', maven_flush st = Ok st' /\ state_wf st'.
Proof.
  intros Hw. unfold maven_flush.
  assert (Hi : exists item, (if no_token st then Ok (mavenNumericItem (bs "0"))
      else parseMavenItem (ms_isDigit st) (ms_token st)) = Ok item /\ item_wf item).
  { destruct (no_token st); [|apply parseMavenItem_ok, Hw].
    eexists. split; [done|]. constructor. by apply canonical_decimal_single. }
  destruct Hi as (item & -> & Hi). simpl. eexists. split; [reflexivity|].
  apply token_wf; [intros _; constructor | by apply push_wf].
Qed.

Lemma maven_step_ok st c : state_wf st -> exists st', maven_step st c = Ok st' /\ state_wf st'.
Proof.
  intros Hw. unfold maven_step. destruct (c =? ch "."); [by apply maven_flush_ok|].
  destruct (c =? ch "-").
  { destruct (maven_flush_ok st Hw) as (st' & -> & Hw'). simpl. eexists. split; [done | by apply open_wf]. }
  assert (Htok : isMavenDigit c = true -> digit_tokens [c]) by by intros ?; apply Forall_singleton.
  destruct (isMavenDigit c) eqn:Ec.
  - destruct (negb (ms_isDigit st) && negb (no_token st)) eqn:E.
    + eexists. split; [done|]. apply token_wf; [by intros _; apply Htok|].
      apply open_wf, push_wf; [constructor|]. case_match; [done | by apply open_wf].
    + eexists. split; [done|]. apply token_wf; [|done]. intros _.
      apply Forall_app_2; [|by apply Htok]. destruct (ms_isDigit st) eqn:Ed; [apply Hw, Ed|].
      simpl in E. unfold no_token in E. by destruct (ms_token st).
  - destruct (ms_isDigit st && negb (no_token st)) eqn:E.
    + apply andb_true_iff in E as [Ed _].
      destruct (parseMavenItem_ok true (ms_token st)) as (item & -> & Hi); [intros _; apply Hw, Ed|].
      simpl. eexists. split; [done|]. apply token_wf; [done|]. by apply open_wf, push_wf.
    + eexists. split; [done|]. by apply token_wf.
Qed.

Lemma maven_run_ok st cs : state_wf st -> exists st', maven_run st cs = Ok st' /\ state_wf st'.
Proof.
  revert st; induction cs as [|c cs IH]; intros st Hw; simpl; [eauto|].
  destruct (maven_step_ok st c Hw) as (st' & -> & Hw'). simpl. by apply IH.
Qed.

Lemma maven_finish_ok st : state_wf st -> exists st', maven_finish st = Ok st' /\ state_wf st'.
Proof.
  intros Hw. unfold maven_finish. destruct (no_token st); [eauto|].
  destruct (parseMavenItem_ok (ms_isDigit st) (ms_token st)) as (item & -> & Hi); [apply Hw|].
  simpl. eexists. split; [done|]. apply push_wf; [done|]. case_match; [by apply open_wf | done].
Qed.

Lemma normalize_from_wf r s : Forall item_wf r -> Forall item_wf s -> Forall item_wf (normalize_from r s).
Proof.
  intros HF; revert s; induction HF as [|x r Hx HF IH]; intros s Hs; simpl; [done|].
  case_match; [by apply IH|].
  destruct x; try by apply IH; constructor.
  all: apply Forall_app_2; [by rewrite rev_alt; apply Forall_reverse | by constructor].
Qed.

Lemma maven_normalize_wf l : Forall item_wf l -> Forall item_wf (maven_normalize l).
Proof.
  intros HF. apply normalize_from_wf; [|constructor]. by rewrite rev_alt; apply Forall_reverse.
Qed.

Lemma maven_close_wf ps l :
  Forall item_wf l -> Forall (Forall item_wf) ps -> Forall item_wf (maven_close l ps).
Proof.
  intros Hl HF; revert l Hl; induction HF as [|p ps Hp HF IH]; intros l Hl; simpl.
  - by apply maven_normalize_wf.
  - apply IH, Forall_app_2; [done|]. apply Forall_singleton. constructor. by apply maven_normalize_wf.
Qed.

Section properties.
Context `{EnglishLower}.

Lemma parseMaven_ok value :
  blank_or_spaced value || has_space_or_control value = false ->
  exists items, parseMavenVersion value = Ok (mavenListItem items) /\ Forall item_wf items.
Proof.
  intros Hb. unfold parseMavenVersion. rewrite Hb.
  assert (Hs : state_wf maven_start) by by split_and!; constructor.
  destruct (maven_run_ok maven_start (runes (lowerMavenVersion value)) Hs) as (st & -> & Hw).
  cbn [mbind result_bind]. destruct (maven_finish_ok st Hw) as (st' & -> & Hl & Hp & _). cbn [mbind result_bind].
  eexists. split; [done | by apply maven_close_wf].
Qed.

(** On ASCII text the tokenizer sees the lower-cased bytes. *)
Definition parse_lowered (text : gostring) : result mavenItem :=
  st ← maven_run maven_start text;
  st ← maven_finish st;
  Ok (mavenListItem (maven_close (ms_list st) (ms_parents st))).

Lemma parse_graphic s :
  s <> [] -> Forall graphic s -> parseMavenVersion s = parse_lowered (byte_lower <$> s).
Proof.
  intros Hne Hg. unfold parseMavenVersion, lowerMavenVersion.
  rewrite blank_or_spaced_graphic, has_space_or_control_graphic by done. cbn [orb].
  rewrite english_lower_ascii by by apply graphic_ascii. rewrite runes_ascii; [done|].
  apply Forall_fmap. eapply Forall_impl; [by apply graphic_ascii|]. intros c. apply byte_lower_ascii.
Qed.

Lemma lower_graphic s : Forall graphic s -> Forall graphic (byte_lower <$> s).
Proof.
  intros Hg. apply Forall_fmap. eapply Forall_impl; [exact Hg|]. intros c. simpl.
  unfold graphic, byte_lower, in_range. case_match; lia.
Qed.

Lemma maven_canonical_lower s c :
  Forall graphic s -> mavenCanonicalVersion s = Ok c ->
  c = byte_lower <$> s /\ exists v, parseMavenVersion s = Ok v /\ parseMavenVersion c = Ok v.
Proof.
  intros Hg. unfold mavenCanonicalVersion. intros Hc.
  apply result_bind_ok in Hc as (v & Hp & [= <-]). unfold lowerMavenVersion.
  assert (Hne : s <> []) by (intros ->; vm_compute in Hp; done).
  rewrite english_lower_ascii by by apply graphic_ascii. split; [done|]. exists v. split; [done|].
  rewrite <- Hp, !parse_graphic; [by rewrite fmap_byte_lower_idem | done | done | by destruct s|].
  by apply lower_graphic.
Qed.

Lemma maven_canonical_fixed s c :
  Forall graphic s -> mavenCanonicalVersion s = Ok c -> mavenCanonicalVersion c = Ok c.
Proof.
  intros Hg Hc. destruct (maven_canonical_lower s c Hg Hc) as (-> & v & _ & Hl).
  unfold mavenCanonicalVersion. rewrite Hl. cbn [mbind result_bind]. f_equal. unfold lowerMavenVersion.
  rewrite english_lower_ascii; [apply fmap_byte_lower_idem|]. by apply graphic_ascii, lower_graphic.
Qed.

(** ** Properties *)

(** The Maven parser is total on its inputs: it rejects exactly the blank
    strings and those with white space or control characters, it never reaches
    the panic of [normalizeMavenDecimal], and every number in the item tree it
    builds is a decimal without superfluous zeros. *)
Theorem parseMavenVersion_total value :
  if blank_or_spaced value || has_space_or_control value
  then is_err (parseMavenVersion value) = true /\ parseMavenVersion value <> Err maven_panic
  else exists items, parseMavenVersion value = Ok (mavenListItem items) /\ Forall item_wf items.
Proof.
  destruct (blank_or_spaced value || has_space_or_control value) eqn:E; [|by apply parseMaven_ok].
  unfold parseMavenVersion. by rewrite E.
Qed.

(** Maven's comparison answers -1, 0 or 1, is reflexive and antisymmetric on
    all item trees, but is not transitive on real versions: 1 < 1-sp < 1-0-alpha
    < 1.  The dialect therefore refuses ranges. *)
Theorem maven_compare_not_transitive :
  (forall a b, (compareTo a b = -1 \/ compareTo a b = 0 \/ compareTo a b = 1)
     /\ compareTo a a = 0 /\ compareTo b a = - compareTo a b)
  /\ mavenCompareVersions (bs "1") (bs "1-sp") = Ok (-1)
  /\ mavenCompareVersions (bs "1-sp") (bs "1-0-alpha") = Ok (-1)
  /\ mavenCompareVersions (bs "1-0-alpha") (bs "1") = Ok (-1)
  /\ mavenSupportsRanges = false.
Proof.
  split.
  - intros a b. split_and!; [apply compareTo_range | apply compareTo_refl | apply compareTo_opp].
  - unfold mavenCompareVersions.
    rewrite !parse_graphic by (done || (simpl; forall_list; byte_tac)). by vm_compute.
Qed.

(** For versions made of visible ASCII characters the canonical spelling is
    accepted, parses to the item tree of the original (so it compares equal to
    it) and is its own canonical spelling. *)
Theorem maven_canonical_stable s c :
  Forall graphic s -> mavenCanonicalVersion s = Ok c ->
  parseMavenVersion c = parseMavenVersion s /\ mavenCompareVersions s c = Ok 0
  /\ mavenCanonicalVersion c = Ok c.
Proof.
  intros Hg Hc. destruct (maven_canonical_lower s c Hg Hc) as (-> & v & Hp & Hl).
  split_and!; [congruence | | by apply (maven_canonical_fixed s)].
  unfold mavenCompareVersions. rewrite Hp, Hl. cbn [wrap mbind result_bind]. by rewrite compareTo_refl.
Qed.
End properties.

Definition ascii_lower : EnglishLower :=
  {| english_lower := fun s => byte_lower <$> s; english_lower_ascii := fun s _ => eq_refl |}.

Lemma maven_canonical_stable_witness :
  parseMavenVersion (H := ascii_lower) (bs "1.0-rc1") = parseMavenVersion (H := ascii_lower) (bs "1.0-RC1")
  /\ mavenCompareVersions (H := ascii_lower) (bs "1.0-RC1") (bs "1.0-rc1") = Ok 0
  /\ mavenCanonicalVersion (H := ascii_lower) (bs "1.0-rc1") = Ok (bs "1.0-rc1").
Proof.
  apply (maven_canonical_stable (H := ascii_lower) (bs "1.0-RC1") (bs "1.0-rc1")).
  - simpl; forall_list; byte_tac.
  - vm_compute. reflexivity.
Defined.
