(* ===== verification/Glob.v ===== *)
(** * Package globs

    Go's [path.Match], which decides package globs, and the module path globs,
    prefixes and proxy spellings of internal/gomoduleidentity/identity.go.  The
    functions of golang.org/x/mod/module are parameters. *)

From S2P Require Export GoStrings.

(** ** path.Match *)

Definition ErrBadPattern : error := Sentinel "syntax error in pattern".

Definition head_is (s : gostring) (c : Z) : bool :=
  match s with a :: _ => a =? c | [] => false end.

(** [getEsc]: a possibly escaped rune of a character class. *)
Definition getEsc (chunk : gostring) : result (Z * gostring) :=
  if str_eqb chunk [] || head_is chunk (ch "-") || head_is chunk (ch "]") then Err ErrBadPattern else
  let chunk := if head_is chunk 92 then tail chunk else chunk in
  if str_eqb chunk [] then Err ErrBadPattern else
  let '(r, n) := decode_rune chunk in
  if (r =? rune_error) && (n =? 1)%nat then Err ErrBadPattern else
  let nchunk := drop n chunk in
  if str_eqb nchunk [] then Err ErrBadPattern else Ok (r, nchunk).

(** The loop over the ranges of a class; every round consumes a rune. *)
Fixpoint matchRanges (fuel : nat) (chunk : gostring) (r : Z) (matched first : bool)
    : result (bool * gostring) :=
  match fuel with
  | O => Err ErrBadPattern
  | S fuel =>
    if head_is chunk (ch "]") && negb first then Ok (matched, tail chunk) else
    '(lo, chunk) ← getEsc chunk;
    '(hi, chunk) ← (if head_is chunk (ch "-") then getEsc (tail chunk) else Ok (lo, chunk));
    matchRanges fuel chunk r (matched || in_range lo hi r) false
  end.

(** [matchChunk] with [s] once [failed] is set left alone; [None] is a chunk that
    does not match.  Every round consumes a byte of the chunk. *)
Fixpoint matchChunk_go (fuel : nat) (chunk s : gostring) (failed : bool) : result (option gostring) :=
  match fuel with
  | O => Ok None
  | S fuel =>
    match chunk with
    | [] => Ok (if failed then None else Some s)
    | c :: rest =>
      let failed := failed || str_eqb s [] in
      if c =? ch "[" then
        let '(r, n) := decode_rune s in
        let r := if failed then 0 else r in
        let s := if failed then s else drop n s in
        let negated := head_is rest (ch "^") in
        let rest := if negated then tail rest else rest in
        '(matched, rest) ← matchRanges (S (length rest)) rest r false true;
        matchChunk_go fuel rest s (failed || Bool.eqb matched negated)
      else if c =? ch "?" then
        let '(_, n) := decode_rune s in
        let s' := if failed then s else drop n s in
        matchChunk_go fuel rest s' (failed || head_is s (ch "/"))
      else
        let escaped := c =? 92 in
        if escaped && str_eqb rest [] then Err ErrBadPattern else
        let c := if escaped then hd 0 rest else c in
        let rest := if escaped then tail rest else rest in
        matchChunk_go fuel rest (if failed then s else tail s) (failed || negb (head_is s c))
    end
  end.

Definition matchChunk (chunk s : gostring) : result (option gostring) :=
  matchChunk_go (S (length chunk)) chunk s false.

(** The chunk up to the next unbracketed star. *)
Fixpoint scan_literal (pattern : gostring) (inrange : bool) : gostring * gostring :=
  match pattern with
  | [] => ([], [])
  | c :: rest =>
    if c =? 92 then
      match rest with
      | [] => ([c], [])
      | d :: rest => let '(chunk, tl) := scan_literal rest inrange in (c :: d :: chunk, tl)
      end
    else if (c =? ch "*") && negb inrange then ([], pattern)
    else
      let inrange := if c =? ch "[" then true else if c =? ch "]" then false else inrange in
      let '(chunk, tl) := scan_literal rest inrange in (c :: chunk, tl)
  end.

Fixpoint skip_stars (pattern : gostring) : gostring :=
  match pattern with c :: rest => if c =? ch "*" then skip_stars rest else pattern | [] => [] end.

Definition scanChunk (pattern : gostring) : bool * gostring * gostring :=
  let '(chunk, rest) := scan_literal (skip_stars pattern) false in
  (head_is pattern (ch "*"), chunk, rest).

(** The loop that lets a star skip bytes: the name left after the chunk. *)
Fixpoint star_search (chunk pattern name : gostring) : result (option gostring) :=
  match name with
  | [] => Ok None
  | c :: name =>
    if c =? ch "/" then Ok None else
    m ← matchChunk chunk name;
    match m with
    | Some t => if str_eqb pattern [] && negb (str_eqb t []) then star_search chunk pattern name else Ok (Some t)
    | None => star_search chunk pattern name
    end
  end.

(** The check of the remaining pattern before a mismatch is reported. *)
Fixpoint check_rest (fuel : nat) (pattern : gostring) : result bool :=
  match fuel, pattern with
  | S fuel, _ :: _ =>
    let '(_, chunk, pattern) := scanChunk pattern in
    _ ← matchChunk chunk [];
    check_rest fuel pattern
  | _, _ => Ok false
  end.

(** The outer loop; a round consumes a star or a non-empty chunk, so the length
    of the pattern is enough fuel. *)
Fixpoint path_match_go (fuel : nat) (pattern name : gostring) : result bool :=
  match fuel, pattern with
  | S fuel, _ :: _ =>
    let '(star, chunk, rest) := scanChunk pattern in
    if star && str_eqb chunk [] then Ok (negb (mem (ch "/") name)) else
    m ← matchChunk chunk name;
    match m with
    | Some t =>
      if str_eqb t [] || negb (str_eqb rest []) then path_match_go fuel rest t
      else
        m ← (if star : bool then star_search chunk rest name else Ok None);
        match m with
        | Some t => path_match_go fuel rest t
        | None => check_rest (S (length rest)) rest
        end
    | None =>
      m ← (if star : bool then star_search chunk rest name else Ok None);
      match m with
      | Some t => path_match_go fuel rest t
      | None => check_rest (S (length rest)) rest
      end
    end
  | _, _ => Ok (str_eqb name [])
  end.

Definition path_match (pattern name : gostring) : result bool :=
  path_match_go (S (length pattern)) pattern name.

(** ** Well-formedness of patterns does not depend on the name *)

Lemma decode_rune_width s : s <> [] -> (0 < snd (decode_rune s))%nat.
Proof.
  intros Hne. unfold decode_rune. destruct s as [|b s]; [done|].
  repeat case_match; simpl; lia.
Qed.

Lemma decode_rune_width_max s : (snd (decode_rune s) <= 4)%nat.
Proof. unfold decode_rune. repeat case_match; simpl; lia. Qed.

Lemma getEsc_shorter chunk r rest : getEsc chunk = Ok (r, rest) -> (length rest < length chunk)%nat.
Proof.
  unfold getEsc. intros H. destruct (str_eqb chunk [] || _ || _) eqn:E; [done|].
  assert (Hne : chunk <> []) by (intros ->; by rewrite str_eqb_refl in E).
  set (c2 := if head_is chunk 92 then tail chunk else chunk) in *.
  assert (Hc : (length c2 <= length chunk)%nat).
  { unfold c2. destruct (head_is chunk 92); [|lia]. destruct chunk; simpl; lia. }
  destruct (str_eqb c2 []) eqn:E2; [done|]. apply str_eqb_neq in E2.
  pose proof (decode_rune_width c2 E2) as Hw. destruct (decode_rune c2) as [r0 n]. simpl in Hw.
  go_inv. rewrite length_drop. destruct c2; [done|]. simpl in *. lia.
Qed.

Lemma matchRanges_ok fuel chunk r m f m' rest :
  matchRanges fuel chunk r m f = Ok (m', rest) ->
  forall r2 m2, exists m2', matchRanges fuel chunk r2 m2 f = Ok (m2', rest).
Proof.
  revert chunk m f; induction fuel as [|fuel IH]; intros chunk m f; simpl; [done|].
  destruct (head_is chunk (ch "]") && negb f).
  - intros [= _ <-] r2 m2. eauto.
  - destruct (getEsc chunk) as [[lo c1]|]; simpl; [|done].
    destruct (if head_is c1 (ch "-") then getEsc (tail c1) else Ok (lo, c1)) as [[hi c2]|]; simpl; [|done].
    intros H r2 m2. by eapply IH.
Qed.

(** A round of [matchRanges] shortens the class, so more fuel changes nothing. *)
Lemma matchRanges_fuel n m chunk r b f :
  (length chunk < n)%nat -> (length chunk < m)%nat ->
  matchRanges n chunk r b f = matchRanges m chunk r b f.
Proof.
  revert m chunk b f; induction n as [|n IH]; intros [|m] chunk b f Hn Hm; try lia. simpl.
  destruct (head_is chunk (ch "]") && negb f); [done|].
  destruct (getEsc chunk) as [[lo c1]|] eqn:E; simpl; [|done]. apply getEsc_shorter in E.
  destruct (if head_is c1 (ch "-") then getEsc (tail c1) else Ok (lo, c1)) as [[hi c2]|] eqn:E2; simpl; [|done].
  assert (length c2 <= length c1)%nat.
  { destruct (head_is c1 (ch "-")); [|by injection E2 as _ <-]. apply getEsc_shorter in E2.
    destruct c1; simpl in *; lia. }
  apply IH; lia.
Qed.

Definition chunk_ok (chunk : gostring) : Prop := is_ok (matchChunk chunk []) = true.

Lemma matchChunk_go_ok fuel chunk s failed :
  is_ok (matchChunk_go fuel chunk s failed) = true ->
  forall s2 failed2, is_ok (matchChunk_go fuel chunk s2 failed2) = true.
Proof.
  revert chunk s failed; induction fuel as [|fuel IH]; intros chunk s failed; [done|]. cbn [matchChunk_go].
  destruct chunk as [|c rest]; [done|].
  destruct (c =? ch "[").
  - destruct (decode_rune s) as [r n]. intros H s2 failed2. destruct (decode_rune s2) as [r2 n2].
    set (rest' := if head_is rest (ch "^") then tail rest else rest) in *.
    destruct (matchRanges (S (length rest')) rest' _ false true) as [[m t]|] eqn:E; [|done].
    destruct (matchRanges_ok _ _ _ _ _ _ _ E (if failed2 || str_eqb s2 [] then 0 else r2) false) as [m2 ->].
    cbn [mbind result_bind] in *. by eapply IH.
  - destruct (c =? ch "?").
    + destruct (decode_rune s) as [r n]. intros H s2 failed2. destruct (decode_rune s2). by eapply IH.
    + destruct ((c =? 92) && str_eqb rest []); [done|]. intros H s2 failed2. by eapply IH.
Qed.

Lemma matchChunk_total chunk s : chunk_ok chunk -> exists m, matchChunk chunk s = Ok m.
Proof. intros H. apply is_ok_true. by eapply matchChunk_go_ok. Qed.

Lemma matchChunk_failed fuel chunk s m : matchChunk_go fuel chunk s true = Ok m -> m = None.
Proof.
  revert chunk s; induction fuel as [|fuel IH]; intros chunk s; [by intros [= <-]|]. cbn [matchChunk_go].
  destruct chunk as [|c rest]; [by intros [= <-]|].
  destruct (c =? ch "[").
  - destruct (decode_rune s). intros H. apply result_bind_ok in H as ([b t] & _ & H). by eapply IH.
  - destruct (c =? ch "?"); [destruct (decode_rune s); apply IH|].
    destruct (_ && _); [done|]. apply IH.
Qed.

(** A non-empty chunk does not match the empty name. *)
Lemma matchChunk_empty chunk m : chunk <> [] -> matchChunk chunk [] = Ok m -> m = None.
Proof.
  unfold matchChunk. destruct chunk as [|c rest]; [done|]. intros _. cbn [length].
  generalize (S (length rest)). intros fuel. cbn [matchChunk_go].
  change (false || str_eqb [] []) with true. cbv zeta.
  destruct (c =? ch "[").
  - intros H. apply result_bind_ok in H as ([b t] & _ & H). by eapply matchChunk_failed.
  - destruct (c =? ch "?"); [apply matchChunk_failed|].
    destruct (_ && _); [done|]. apply matchChunk_failed.
Qed.

Lemma scan_literal_app p b chunk rest : scan_literal p b = (chunk, rest) -> p = chunk ++ rest.
Proof.
  remember (length p) as n eqn:Hn. assert (Hl : (length p <= n)%nat) by lia. clear Hn.
  revert p b chunk rest Hl; induction n as [|n IH]; intros [|c p] b chunk rest Hl; simpl;
    try (by intros [= <- <-]); [simpl in Hl; lia|]. simpl in Hl.
  destruct (c =? 92).
  - destruct p as [|d p]; [by intros [= <- <-]|]. destruct (scan_literal p b) as [c1 t1] eqn:E.
    intros [= <- <-]. apply IH in E; [|simpl in *; lia]. by rewrite E.
  - destruct ((c =? ch "*") && negb b); [by intros [= <- <-]|].
    destruct (scan_literal p _) as [c1 t1] eqn:E. intros [= <- <-].
    apply IH in E; [|lia]. by rewrite E.
Qed.

Lemma skip_stars_spec p : exists k, p = replicate k (ch "*") ++ skip_stars p.
Proof.
  induction p as [|c p [k IH]]; simpl; [by exists O|].
  destruct (Z.eqb_spec c (ch "*")) as [->|]; [|by exists O]. exists (S k). simpl. by f_equal.
Qed.

Lemma skip_stars_head p : head_is (skip_stars p) (ch "*") = false.
Proof. induction p as [|c p IH]; simpl; [done|]. destruct (c =? ch "*") eqn:E; [done | by simpl]. Qed.

Lemma scan_literal_nonempty p rest : scan_literal p false = ([], rest) -> p = [] \/ head_is p (ch "*") = true.
Proof.
  destruct p as [|c p]; simpl; [by left|]. destruct (c =? 92).
  - destruct p as [|d p]; [done|]. by destruct (scan_literal p false).
  - destruct (c =? ch "*") eqn:E; simpl; [by right|]. by destruct (scan_literal p _).
Qed.

Lemma scanChunk_shorter p star chunk rest :
  p <> [] -> scanChunk p = (star, chunk, rest) -> (length rest < length p)%nat.
Proof.
  intros Hne. unfold scanChunk. destruct (scan_literal (skip_stars p) false) as [c t] eqn:E.
  intros [= <- <- <-]. destruct (skip_stars_spec p) as [k Hk].
  pose proof (scan_literal_app _ _ _ _ E) as Hs. rewrite Hk, length_app, Hs, length_app, length_replicate.
  destruct k as [|k]; [|lia]. destruct c as [|a c]; [|simpl; lia].
  apply scan_literal_nonempty in E as [E|E].
  - rewrite E in Hk. simpl in Hk. done.
  - by rewrite skip_stars_head in E.
Qed.

(** A star with no chunk after it ends the pattern; a chunk without a star in
    front is not empty. *)
Lemma scanChunk_empty p star rest : p <> [] -> scanChunk p = (star, [], rest) -> star = true /\ rest = [].
Proof.
  intros Hne. unfold scanChunk. destruct (scan_literal (skip_stars p) false) as [c t] eqn:E.
  intros [= <- -> <-]. pose proof (scan_literal_app _ _ _ _ E) as Hs.
  apply scan_literal_nonempty in E as [E|E]; [|by rewrite skip_stars_head in E].
  rewrite E in Hs. split; [|exact (eq_sym Hs)].
  destruct (skip_stars_spec p) as [[|k] Hk]; rewrite E in Hk; [done|]. by rewrite Hk.
Qed.

Lemma check_rest_fuel n m p : (length p < n)%nat -> (length p < m)%nat -> check_rest n p = check_rest m p.
Proof.
  revert m p; induction n as [|n IH]; intros [|m] p Hn Hm; try lia. destruct p as [|c p]; [done|].
  cbn [check_rest]. destruct (scanChunk (c :: p)) as [[star chunk] rest] eqn:E.
  apply scanChunk_shorter in E; [|done]. destruct (matchChunk chunk []); [|done].
  cbn [mbind result_bind]. apply IH; lia.
Qed.

Definition pattern_ok (p : gostring) : Prop := is_ok (check_rest (S (length p)) p) = true.

Lemma pattern_ok_step p star chunk rest :
  p <> [] -> scanChunk p = (star, chunk, rest) -> pattern_ok p <-> chunk_ok chunk /\ pattern_ok rest.
Proof.
  intros Hne E. unfold pattern_ok, chunk_ok. destruct p as [|c p]; [done|].
  remember (length (c :: p)) as n eqn:Hn. cbn [check_rest]. rewrite E.
  apply scanChunk_shorter in E; [|done]. destruct (matchChunk chunk []); cbn [mbind result_bind is_ok]; [|naive_solver].
  rewrite (check_rest_fuel n (S (length rest)) rest) by lia. naive_solver.
Qed.

Lemma star_search_total chunk pattern name :
  chunk_ok chunk -> exists m, star_search chunk pattern name = Ok m.
Proof.
  intros Hc. induction name as [|c name [m IH]]; simpl; [eauto|]. destruct (c =? ch "/"); [eauto|].
  destruct (matchChunk_total chunk name Hc) as [[t|] ->]; cbn [mbind result_bind]; [|eauto].
  case_match; eauto.
Qed.

Lemma check_rest_total p : pattern_ok p -> exists b, check_rest (S (length p)) p = Ok b.
Proof. apply is_ok_true. Qed.

Lemma path_match_go_total fuel p n : pattern_ok p -> exists b, path_match_go fuel p n = Ok b.
Proof.
  revert p n; induction fuel as [|fuel IH]; intros p n Hp; [simpl; eauto|].
  destruct p as [|c p]; [simpl; eauto|]. cbn [path_match_go].
  destruct (scanChunk (c :: p)) as [[star chunk] rest] eqn:E.
  apply (pattern_ok_step (c :: p) star chunk rest ltac:(done) E) in Hp as [Hc Hr].
  destruct (star && str_eqb chunk []); [eauto|].
  assert (Htail : exists b, (m ← (if star then star_search chunk rest n else Ok None);
      match m with Some t => path_match_go fuel rest t | None => check_rest (S (length rest)) rest end) = Ok b).
  { assert (Hs : exists m, (if star then star_search chunk rest n else Ok None) = Ok m).
    { destruct star; [by apply star_search_total | eauto]. }
    destruct Hs as [[t|] ->]; cbn [mbind result_bind]; [by apply IH | by apply check_rest_total]. }
  destruct (matchChunk_total chunk n Hc) as [[t|] ->]; cbn [mbind result_bind]; [|exact Htail].
  destruct (str_eqb t [] || negb (str_eqb rest [])); [by apply IH | exact Htail].
Qed.

Lemma path_match_empty p b : path_match p [] = Ok b -> pattern_ok p.
Proof.
  unfold path_match. destruct p as [|c p]; [done|]. cbn [path_match_go].
  destruct (scanChunk (c :: p)) as [[star chunk] rest] eqn:E. intros H.
  apply (pattern_ok_step (c :: p) star chunk rest ltac:(done) E).
  destruct chunk as [|a chunk].
  - destruct (scanChunk_empty (c :: p) star rest ltac:(done) E) as [-> ->]. by vm_compute.
  - replace (star && str_eqb (a :: chunk) []) with false in H by by destruct star.
    apply result_bind_ok in H as (m & Hm & H).
    pose proof (matchChunk_empty (a :: chunk) m ltac:(done) Hm) as ->.
    replace (if star then star_search (a :: chunk) rest [] else Ok None)
      with (@Ok (option gostring) None) in H by by destruct star.
    cbn [mbind result_bind] in H. unfold chunk_ok, pattern_ok. rewrite Hm, H. done.
Qed.

(** A round of the outer loop shortens the pattern, so more fuel changes
    nothing: the fuel of [path_match] is enough. *)
Lemma path_match_go_fuel n m p name :
  (length p < n)%nat -> (length p < m)%nat -> path_match_go n p name = path_match_go m p name.
Proof.
  revert m p name; induction n as [|n IH]; intros [|m] p name Hn Hm; try lia.
  destruct p as [|c p]; [done|]. cbn [path_match_go].
  destruct (scanChunk (c :: p)) as [[star chunk] rest] eqn:E.
  apply scanChunk_shorter in E; [|done].
  assert (IHr : forall t, path_match_go n rest t = path_match_go m rest t) by (intros t; apply IH; lia).
  destruct (star && str_eqb chunk []); [done|].
  destruct (matchChunk chunk name) as [[t|]|]; cbn [mbind result_bind]; [| |done].
  - rewrite IHr. destruct (str_eqb t [] || negb (str_eqb rest [])); [done|].
    destruct (if star then star_search chunk rest name else Ok None) as [[t'|]|]; cbn [mbind result_bind]; auto.
  - destruct (if star then star_search chunk rest name else Ok None) as [[t'|]|]; cbn [mbind result_bind]; auto.
Qed.

(** ** Literal patterns *)

Definition glob_meta (c : Z) : bool := mem c (bs "*?[" ++ [92]).

Lemma glob_plain c :
  glob_meta c = false ->
  (c =? ch "*") = false /\ (c =? ch "?") = false /\ (c =? ch "[") = false /\ (c =? 92) = false.
Proof. unfold glob_meta, mem. simpl. go_chars. lia. Qed.

Lemma scan_literal_plain p b : Forall (fun c => glob_meta c = false) p -> scan_literal p b = (p, []).
Proof.
  intros HF; revert b; induction HF as [|c p Hc HF IH]; intros b; simpl; [done|].
  destruct (glob_plain c Hc) as (-> & _ & _ & ->). simpl. by rewrite IH.
Qed.

Lemma matchChunk_plain fuel p s :
  Forall (fun c => glob_meta c = false) p -> (length p < fuel)%nat ->
  matchChunk_go fuel p s false = Ok (if has_prefix s p then Some (drop (length p) s) else None).
Proof.
  intros HF; revert fuel s; induction HF as [|c p Hc HF IH]; intros [|fuel] s Hl; try (simpl in Hl; lia).
  - cbn. by rewrite drop_0.
  - simpl in Hl. cbn [matchChunk_go]. destruct (glob_plain c Hc) as (_ & -> & -> & ->). cbn [andb].
    destruct s as [|a s].
    + cbn [has_prefix]. destruct (matchChunk_go fuel p [] true) as [m|] eqn:E.
      * apply matchChunk_failed in E as Hm. subst m. cbn. change (str_eqb [] []) with true. cbn. by rewrite E.
      * exfalso. pose proof (matchChunk_go_ok fuel p [] false) as Ho. rewrite IH in Ho by lia.
        specialize (Ho eq_refl [] true). by rewrite E in Ho.
    + change (false || str_eqb (a :: s) []) with false. cbn [head_is tail has_prefix orb].
      destruct (a =? c) eqn:Ea; cbn [negb andb].
      * rewrite IH by lia. done.
      * destruct (matchChunk_go fuel p s true) as [m|] eqn:E; [by apply matchChunk_failed in E as ->|].
        pose proof (matchChunk_go_ok fuel p [] false) as Ho. rewrite IH in Ho by lia.
        specialize (Ho eq_refl s true). by rewrite E in Ho.
Qed.

Lemma path_match_plain p n :
  Forall (fun c => glob_meta c = false) p -> path_match p n = Ok (str_eqb n p).
Proof.
  intros HF. unfold path_match. destruct p as [|c p]; [done|]. cbn [path_match_go].
  assert (Hc : glob_meta c = false) by by apply Forall_cons in HF as [? _].
  destruct (glob_plain c Hc) as (Hs & _).
  unfold scanChunk. cbn [skip_stars head_is]. rewrite Hs, (scan_literal_plain (c :: p) false HF).
  cbn [andb]. unfold matchChunk. rewrite matchChunk_plain by (done || lia). cbn [mbind result_bind].
  destruct (has_prefix n (c :: p)) eqn:E.
  - apply has_prefix_app in E as [r ->]. rewrite drop_app_length. destruct r as [|a r].
    + rewrite app_nil_r. rewrite !str_eqb_refl. cbn [orb].
      destruct p; [done|]. by cbn.
    + assert (str_eqb (a :: r) [] = false) as -> by by apply str_eqb_neq.
      assert (str_eqb ((c :: p) ++ a :: r) (c :: p) = false) as ->; [|done].
      apply str_eqb_neq. intros He. apply (f_equal length) in He. rewrite length_app in He. simpl in He. lia.
  - assert (str_eqb n (c :: p) = false) as ->; [|done]. apply str_eqb_neq. intros ->.
    rewrite (proj2 (has_prefix_app _ _)) in E; [done|]. exists []. by rewrite app_nil_r.
Qed.

(** ** Go module identities *)

(** golang.org/x/mod/module *)
Class ModulePackage := {
  CheckPath : gostring -> result unit;
  UnescapePath : gostring -> result gostring;
  EscapePath : gostring -> result gostring;
  UnescapeVersion : gostring -> result gostring;
  EscapeVersion : gostring -> result gostring;
}.

Section gomoduleidentity.
Context `{ModulePackage}.

Definition ValidatePath (value : gostring) : result unit :=
  wrap "invalid Go module path %q: %w" (CheckPath value).

Definition DecodeProxyPath (escaped : gostring) : result gostring :=
  value ← UnescapePath escaped;
  canonical ← EscapePath value;
  if negb (str_eqb canonical escaped) then fail "non-canonical escaped Go module path %q" else Ok value.

Definition DecodeProxyVersion (escaped : gostring) : result gostring :=
  if str_eqb escaped [] then fail "empty escaped Go module version" else
  value ← UnescapeVersion escaped;
  canonical ← EscapeVersion value;
  if negb (str_eqb canonical escaped) then fail "non-canonical escaped Go module version %q" else Ok value.

Definition ValidatePrefix (prefix : gostring) : result unit :=
  if is_ok (ValidatePath prefix) then Ok () else
  wrap "invalid Go module path prefix %q: %w" (ValidatePath (prefix ++ bs "x")).

Definition isModulePathByte (character : Z) : bool :=
  in_range (ch "a") (ch "z") character || in_range (ch "A") (ch "Z") character
  || in_range (ch "0") (ch "9") character || mem character (bs "-._~").

(** [closingBracket]: the class up to its closing bracket and the rest. *)
Fixpoint closingBracket (pattern : gostring) : option (gostring * gostring) :=
  match pattern with
  | [] => None
  | c :: rest =>
    if c =? 92 then
      match rest with
      | [] => None
      | d :: rest => match closingBracket rest with Some (cl, tl) => Some (c :: d :: cl, tl) | None => None end
      end
    else if c =? ch "]" then Some ([c], rest)
    else match closingBracket rest with Some (cl, tl) => Some (c :: cl, tl) | None => None end
  end.

Definition class_candidates : gostring :=
  bs "abcdefghijklmnopqrstuvwxyz23456789ABCDEFGHIJKLMNOPQRSTUVWXYZ_-~.01".

Definition classWitness (class : gostring) : option Z :=
  find (fun candidate => match path_match class [candidate] with Ok true => true | _ => false end)
    class_candidates.

(** Every round consumes a byte of the pattern. *)
Fixpoint globWitness_go (fuel : nat) (pattern : gostring) : result gostring :=
  match fuel, pattern with
  | S fuel, character :: rest =>
    if (character =? ch "*") || (character =? ch "?") then
      witness ← globWitness_go fuel rest; Ok (ch "x" :: witness)
    else if character =? ch "[" then
      match closingBracket rest with
      | None => fail "unterminated character class"
      | Some (class, rest) =>
        match classWitness (character :: class) with
        | None => fail "character class contains no valid module path character"
        | Some candidate => witness ← globWitness_go fuel rest; Ok (candidate :: witness)
        end
      end
    else if character =? 92 then
      match rest with
      | [] => fail "trailing escape"
      | escaped :: rest =>
        if negb (isModulePathByte escaped) then fail "escaped character %q is not valid in a module path" else
        witness ← globWitness_go fuel rest; Ok (escaped :: witness)
      end
    else
      if negb (isModulePathByte character) && negb (character =? ch "/")
      then fail "character %q is not valid in a module path" else
      witness ← globWitness_go fuel rest; Ok (character :: witness)
  | _, _ => Ok []
  end.

Definition globWitness (pattern : gostring) : result gostring :=
  globWitness_go (length pattern) pattern.

Definition ValidateGlob (pattern : gostring) : result unit :=
  _ ← wrap "invalid Go module path glob %q: %w" (path_match pattern []);
  if str_eqb pattern [] || has_prefix pattern (bs "/") || has_suffix pattern (bs "/")
     || contains pattern (bs "//")
  then fail "invalid Go module path glob %q: unsafe slash-separated shape" else
  witness ← wrap "invalid Go module path glob %q: %w" (globWitness pattern);
  _ ← wrap "invalid Go module path glob %q: %w" (ValidatePath witness);
  match path_match pattern witness with
  | Ok true => Ok ()
  | _ => fail "invalid Go module path glob %q: cannot construct a valid matching module path"
  end.

(** ** Properties *)

(** A pattern that [path.Match(pattern, "")] accepts, which is how every glob
    is validated when it is stored, never yields a pattern error at request time,
    whatever the name; and a pattern without metacharacters matches itself only. *)
Theorem validated_glob_never_fails pattern b :
  path_match pattern [] = Ok b ->
  (forall name, exists matched, path_match pattern name = Ok matched)
  /\ (existsb glob_meta pattern = false -> forall name, path_match pattern name = Ok (str_eqb name pattern)).
Proof.
  intros Hp%path_match_empty. split; [intros name; by apply path_match_go_total|].
  intros Hm name. apply path_match_plain. apply Forall_forall. intros c Hc.
  apply not_true_iff_false. intros Hg. apply not_true_iff_false in Hm. destruct Hm.
  apply existsb_exists. exists c. by rewrite <- list_elem_of_In.
Qed.

(** Proxy spellings are canonical: a spelling [DecodeProxyPath] or
    [DecodeProxyVersion] accepts is the escaped form of its value, so two accepted
    spellings of one module path or version are the same string, and every
    spelling the module package can both produce and read back is accepted. *)
Theorem decode_proxy_injective e1 e2 v :
  (DecodeProxyPath e1 = Ok v -> EscapePath v = Ok e1
   /\ (DecodeProxyPath e2 = Ok v -> e1 = e2))
  /\ (DecodeProxyVersion e1 = Ok v -> EscapeVersion v = Ok e1
      /\ (DecodeProxyVersion e2 = Ok v -> e1 = e2))
  /\ (EscapePath v = Ok e1 -> UnescapePath e1 = Ok v -> DecodeProxyPath e1 = Ok v).
Proof.
  assert (Hp : forall e, DecodeProxyPath e = Ok v -> EscapePath v = Ok e).
  { unfold DecodeProxyPath. intros e He. go_inv. apply negb_false_iff, str_eqb_eq in Heqb. congruence. }
  assert (Hv : forall e, DecodeProxyVersion e = Ok v -> EscapeVersion v = Ok e).
  { unfold DecodeProxyVersion. intros e He. go_inv. apply negb_false_iff, str_eqb_eq in Heqb0. congruence. }
  split_and!.
  - intros H1%Hp. split; [done|]. intros H2%Hp. congruence.
  - intros H1%Hv. split; [done|]. intros H2%Hv. congruence.
  - intros He Hu. unfold DecodeProxyPath. rewrite Hu. cbn [mbind result_bind]. rewrite He. cbn [mbind result_bind].
    by rewrite str_eqb_refl.
Qed.

(** An accepted module glob matches at least one valid module path and can be
    evaluated on every name. *)
Theorem ValidateGlob_inhabited pattern :
  ValidateGlob pattern = Ok () ->
  (exists witness, ValidatePath witness = Ok () /\ path_match pattern witness = Ok true)
  /\ forall name, exists matched, path_match pattern name = Ok matched.
Proof.
  unfold ValidateGlob. intros Hv. go_inv. split.
  - match goal with Hw : ValidatePath ?w = Ok ?u |- _ => exists w; by destruct u end.
  - intros name. by eapply path_match_go_total, path_match_empty.
Qed.
End gomoduleidentity.

Lemma validated_glob_never_fails_witness :
  (forall name, exists matched, path_match (bs "lib[a-c]*") name = Ok matched)
  /\ (existsb glob_meta (bs "lib[a-c]*") = false ->
      forall name, path_match (bs "lib[a-c]*") name = Ok (str_eqb name (bs "lib[a-c]*"))).
Proof. apply (validated_glob_never_fails (bs "lib[a-c]*") false). vm_compute. reflexivity. Defined.

(** A module package that accepts every path and escapes nothing. *)
Definition permissive_modules : ModulePackage :=
  {| CheckPath := fun _ => Ok (); UnescapePath := Ok; EscapePath := Ok;
     UnescapeVersion := Ok; EscapeVersion := Ok |}.

Lemma ValidateGlob_inhabited_witness :
  (exists witness, ValidatePath (H := permissive_modules) witness = Ok ()
     /\ path_match (bs "example.com/[^a]?*") witness = Ok true)
  /\ forall name, exists matched, path_match (bs "example.com/[^a]?*") name = Ok matched.
Proof.
  apply (ValidateGlob_inhabited (H := permissive_modules) (bs "example.com/[^a]?*")). vm_compute. reflexivity.
Defined.
