(* ===== verification/Names.v ===== *)
(** * Package names (internal/packagepolicy/dialect.go and the name checks of
    pep440.go, debian.go, cran.go, nuget.go and maven.go)

    For every ecosystem: the validator of concrete names, the normalizer of
    names, and the normalizers of prefixes and globs. *)

From S2P Require Export NuGet Glob.

(** ** Shared helpers *)

(** [value[0]] and [value[len(value)-1]] of a non-empty string; the callers
    reject the empty string first. *)
Definition first_byte (value : gostring) : Z := hd 0 value.
Definition last_byte (value : gostring) : Z := List.last value 0.

Definition identity (value : gostring) : gostring := value.

Definition validatePackageNameInput (name : gostring) : result unit :=
  reject_if (blank_or_spaced name || has_space_or_control name)
    "package name must be non-empty and contain no whitespace or control characters".

(** A loop over the bytes that rejects the first one outside a class. *)
Definition all_bytes (accepts : Z -> bool) (value : gostring) (format : string) : result unit :=
  for_each (fun c => reject_if (negb (accepts c)) format) value.

Definition validatePackageGlobInput (pattern : gostring) : result unit :=
  _ ← validatePackageNameInput pattern;
  _ ← wrap "invalid package glob %q: %w" (path_match pattern []);
  Ok ().

Definition glob_syntax : gostring := bs "*?[]" ++ [92] ++ bs "^".

Definition is_upper (c : Z) : bool := in_range (ch "A") (ch "Z") c.

Definition validateGlobCharacters (value punctuation : gostring) (allowUppercase : bool) : result unit :=
  for_each (fun c =>
    if isASCIIAlphanumeric c
    then reject_if (negb allowUppercase && is_upper c) "contains uppercase character %q"
    else reject_if (negb (mem c (punctuation ++ glob_syntax))) "contains invalid character %q") value.

Definition hasGlobMetacharacter (value : gostring) : bool := existsb glob_meta value.

Definition validateSimpleASCIIName (value punctuation : gostring)
    (allowTrailingPunctuation allowUppercase : bool) : result unit :=
  if str_eqb value [] || str_eqb value (bs ".") || str_eqb value (bs "..")
     || negb (isASCIIAlphanumeric (first_byte value))
  then fail "must be a non-empty safe path segment beginning with an ASCII letter or digit" else
  if negb allowTrailingPunctuation && negb (isASCIIAlphanumeric (last_byte value))
  then fail "must end with an ASCII letter or digit" else
  for_each (fun c =>
    if isASCIIAlphanumeric c
    then reject_if (negb allowUppercase && is_upper c) "contains uppercase character %q"
    else reject_if (negb (mem c punctuation)) "contains invalid character %q") value.

Definition exactCoordinateParts (value : gostring) (count : Z) : result (list gostring) :=
  let parts := strings_split value (ch "/") in
  if negb (len parts =? count) then fail "%s must contain exactly %d slash-separated segments" else
  if existsb (fun part => str_eqb part []) parts then fail "%s contains an empty path segment" else
  Ok parts.

(** [for strings.Count(candidate, "/") < totalParts-1 { candidate += "/x" }] *)
Fixpoint complete_candidate (missing : nat) (candidate : gostring) : gostring :=
  match missing with
  | O => candidate
  | S missing => complete_candidate missing (candidate ++ bs "/x")
  end.

Definition validateCompletedCoordinatePrefix (prefix : gostring) (totalParts : nat)
    (validate : gostring -> result unit) : result unit :=
  _ ← validatePackageNameInput prefix;
  let slashes := count_byte prefix (ch "/") in
  if (totalParts <=? slashes)%nat then fail "package prefix contains too many path segments" else
  validate (complete_candidate (totalParts - 1 - slashes) (prefix ++ bs "x")).

Definition validateStructuredPackageGlob (pattern : gostring) (totalParts : Z)
    (punctuation : gostring) (allowUppercase : bool) : result (list gostring) :=
  _ ← wrap "invalid %s package glob: %w" (validatePackageGlobInput pattern);
  let parts := strings_split pattern (ch "/") in
  if negb (len parts =? totalParts)
  then fail "%s package glob must contain exactly %d slash-separated segments" else
  _ ← for_each (fun part =>
    _ ← reject_if (str_eqb part [] || str_eqb part (bs ".") || str_eqb part (bs ".."))
          "%s package glob contains an unsafe path segment %q";
    wrap "invalid %s package glob segment %q: %w"
      (validateGlobCharacters part punctuation allowUppercase)) parts;
  Ok parts.

Section names.
Context `{UnicodeTables}.

(** ** Python names *)

(** The loop of [normalizePythonName]: runs of separators become one dash. *)
Fixpoint python_loop (characters : list Z) (separator : bool) : gostring :=
  match characters with
  | [] => if separator then bs "-" else []
  | c :: characters =>
    if (c =? ch "-") || (c =? ch "_") || (c =? ch ".") then python_loop characters true
    else (if separator then bs "-" else []) ++ utf8_encode c ++ python_loop characters false
  end.

Definition normalizePythonName (value : gostring) : gostring :=
  python_loop (runes (to_lower value)) false.

Definition pypi_byte (c : Z) : bool := isASCIIAlphanumeric c || mem c (bs "._-").

Definition validatePyPIPackageName (name : gostring) : result unit :=
  _ ← validatePackageNameInput name;
  _ ← all_bytes pypi_byte name "PyPI package name contains invalid character %q";
  reject_if (negb (isASCIIAlphanumeric (first_byte name)) || negb (isASCIIAlphanumeric (last_byte name)))
    "PyPI package name must start and end with an ASCII letter or digit".

Definition normalizePyPIPackagePrefix (prefix : gostring) : result gostring :=
  if negb (isASCIIAlphanumeric (first_byte prefix))
  then fail "PyPI package prefix must start with an ASCII letter or digit" else
  _ ← all_bytes pypi_byte prefix "PyPI package prefix contains invalid character %q";
  Ok (normalizePythonName prefix).

(** ** Debian names *)

Definition debian_name_byte (c : Z) : bool := isASCIILowercaseAlphanumeric c || mem c (bs "+-.").

Definition debianNormalizePackageName (name : gostring) : result gostring :=
  _ ← validatePackageNameInput name;
  if (len name <? 2) || negb (isASCIILowercaseAlphanumeric (first_byte name))
  then fail "Debian package name must contain at least two characters and start with a letter or digit" else
  _ ← all_bytes debian_name_byte name "Debian package name contains invalid character %q";
  Ok name.

(** ** CRAN names *)

Definition validateCRANPackageName (name : gostring) : result unit :=
  _ ← validatePackageNameInput name;
  if (len name <? 2) || negb (isASCIIAlpha (first_byte name))
  then fail "CRAN package name must contain at least two characters and start with an ASCII letter" else
  if negb (isASCIIAlphanumeric (last_byte name))
  then fail "CRAN package name must end with an ASCII letter or digit" else
  all_bytes (fun c => isASCIIAlphanumeric c || (c =? ch ".")) name
    "CRAN package name contains invalid character %q".

Definition normalizeCRANPackagePrefix (prefix : gostring) : result gostring :=
  _ ← validatePackageNameInput prefix;
  _ ← (if is_ok (validateCRANPackageName prefix) then Ok () else validateCRANPackageName (prefix ++ bs "x"));
  Ok prefix.

Definition normalizeCRANPackageGlob (pattern : gostring) : result gostring :=
  _ ← wrap "invalid CRAN package glob: %w" (validatePackageGlobInput pattern);
  _ ← wrap "invalid CRAN package glob: %w" (validateGlobCharacters pattern (bs ".") true);
  _ ← (if hasGlobMetacharacter pattern then Ok () else validateCRANPackageName pattern);
  Ok pattern.

(** ** NuGet names *)

Definition isNuGetPackageWord (character : Z) : bool :=
  isASCIIAlphanumeric character || (character =? ch "_").

(** The index loop: a separator must be followed by a word byte. *)
Fixpoint nugetScan (name : gostring) : result unit :=
  match name with
  | [] => Ok ()
  | c :: rest =>
    if isNuGetPackageWord c then nugetScan rest
    else if negb (c =? ch ".") && negb (c =? ch "-")
    then fail "NuGet package ID contains invalid character %q"
    else match rest with
         | d :: _ =>
           if negb (isNuGetPackageWord d)
           then fail "NuGet package ID separator must be followed by an ASCII letter, digit, or underscore"
           else nugetScan rest
         | [] => fail "NuGet package ID separator must be followed by an ASCII letter, digit, or underscore"
         end
  end.

Definition validateNuGetPackageName (name : gostring) : result unit :=
  _ ← validatePackageNameInput name;
  if len name >? 100 then fail "NuGet package ID exceeds 100 characters" else
  if negb (isNuGetPackageWord (first_byte name))
  then fail "NuGet package ID must start with an ASCII letter, digit, or underscore" else
  nugetScan name.

Definition normalizeNuGetPackagePrefix (prefix : gostring) : result gostring :=
  _ ← validatePackageNameInput prefix;
  _ ← (match validateNuGetPackageName prefix with
       | Ok _ => Ok ()
       | Err e => if len prefix >=? 100 then Err e else validateNuGetPackageName (prefix ++ bs "x")
       end);
  Ok (lowerASCII prefix).

Definition normalizeNuGetPackageGlob (pattern : gostring) : result gostring :=
  _ ← wrap "invalid NuGet package glob: %w" (validatePackageGlobInput pattern);
  if len pattern >? 100 then fail "NuGet package glob exceeds 100 characters" else
  _ ← wrap "invalid NuGet package glob: %w" (validateGlobCharacters pattern (bs "_.-") true);
  _ ← (if hasGlobMetacharacter pattern then Ok () else validateNuGetPackageName pattern);
  Ok (lowerASCII pattern).

(** ** Maven coordinates *)

Definition validateMavenID (value : gostring) : result unit :=
  all_bytes pypi_byte value "contains invalid character %q".

Definition validateMavenPackageName (name : gostring) : result unit :=
  _ ← validatePackageNameInput name;
  if negb (count_byte name (ch ":") =? 1)%nat
  then fail "package coordinate must be exactly groupId:artifactId" else
  let '(groupID, artifactID, _) := strings_cut name (ch ":") in
  if str_eqb groupID [] || str_eqb artifactID []
  then fail "package coordinate must have non-empty groupId and artifactId" else
  _ ← for_each (fun segment =>
    _ ← reject_if (str_eqb segment []) "groupId contains an empty dot-separated segment";
    wrap "invalid groupId segment %q: %w" (validateMavenID segment)) (strings_split groupID (ch "."));
  wrap "invalid artifactId: %w" (validateMavenID artifactID).

Definition mavenNormalizePackageName (name : gostring) : result gostring :=
  _ ← wrap "Maven %w" (validateMavenPackageName name); Ok name.

Definition normalizeMavenPackagePrefix (prefix : gostring) : result gostring :=
  _ ← validatePackageNameInput prefix;
  if is_ok (validateMavenPackageName prefix) then Ok prefix else
  if (1 <? count_byte prefix (ch ":"))%nat
  then fail "Maven package prefix contains more than one coordinate separator" else
  let candidate := prefix ++ bs "x" in
  let candidate := if mem (ch ":") prefix then candidate else candidate ++ bs ":x" in
  _ ← wrap "invalid Maven package prefix: %w" (validateMavenPackageName candidate);
  Ok prefix.

Definition normalizeMavenPackageGlob (pattern : gostring) : result gostring :=
  _ ← wrap "invalid Maven package glob: %w" (validatePackageGlobInput pattern);
  _ ← wrap "invalid Maven package glob: %w" (validateGlobCharacters pattern (bs "_.-:") true);
  if (1 <? count_byte pattern (ch ":"))%nat
  then fail "Maven package glob contains more than one coordinate separator" else
  if hasGlobMetacharacter pattern then Ok pattern else mavenNormalizePackageName pattern.

(** ** Cargo crates *)

Definition unicode_letter (r : Z) : bool :=
  if r <? 0x80 then in_range (ch "A") (ch "Z") r || in_range (ch "a") (ch "z") r else u_letter r.
Definition unicode_number (r : Z) : bool :=
  if r <? 0x80 then in_range (ch "0") (ch "9") r else u_number r.
Definition unicode_other_alphabetic (r : Z) : bool := if r <? 0x80 then false else u_other_alphabetic r.

Definition isCargoPackageNameCharacter (character : Z) : bool :=
  unicode_letter character || unicode_number character || unicode_other_alphabetic character
  || (character =? ch "-") || (character =? ch "_").

Definition validateCargoPackageName (name : gostring) : result unit :=
  all_bytes isCargoPackageNameCharacter (runes name) "Cargo package name contains invalid character %q".

Definition normalizeCargoPackageGlob (pattern : gostring) : result gostring :=
  _ ← wrap "invalid Cargo package glob: %w" (validatePackageGlobInput pattern);
  if mem (ch "/") pattern then fail "invalid Cargo package glob %q: crate names cannot contain '/'" else
  _ ← all_bytes (fun c => isCargoPackageNameCharacter c || mem c glob_syntax) (runes pattern)
        "Cargo package glob contains invalid character %q";
  Ok pattern.

(** ** npm names *)

Definition npm_byte (c : Z) : bool := isASCIIAlphanumeric c || mem c (bs "._~!()*'-").

Definition validateNPMURLSafeComponent (value : gostring) : result unit :=
  if str_eqb value [] then fail "must be non-empty" else
  all_bytes npm_byte value "contains non-URL-safe character %q".

Definition validateNPMPackageName (name : gostring) : result unit :=
  if len name >? 214 then fail "npm package name exceeds 214 characters" else
  if has_prefix name (bs "@") then
    match strings_split name (ch "/") with
    | [scope; package] =>
      if (len scope =? 1) || str_eqb package [] then fail "scoped npm package name must be @scope/name" else
      _ ← wrap "invalid npm scope: %w" (validateNPMURLSafeComponent (tail scope));
      if first_byte package =? ch "." then fail "scoped npm package name cannot start with '.'" else
      wrap "invalid npm package: %w" (validateNPMURLSafeComponent package)
    | _ => fail "scoped npm package name must be @scope/name"
    end
  else
  if mem (ch "/") name then fail "unscoped npm package name cannot contain '/'" else
  if mem (first_byte name) (bs "._-") then fail "unscoped npm package name cannot start with %q" else
  if str_eqb (to_lower name) (bs "node_modules") || str_eqb (to_lower name) (bs "favicon.ico")
  then fail "%q is not a valid npm package name" else
  validateNPMURLSafeComponent name.

Definition normalizeNPMPackagePrefix (prefix : gostring) : result gostring :=
  _ ← validatePackageNameInput prefix;
  if is_ok (validateNPMPackageName prefix) then Ok prefix else
  let candidate := prefix ++ bs "x" in
  let candidate :=
    if has_prefix prefix (bs "@") && negb (mem (ch "/") prefix) then candidate ++ bs "/x" else candidate in
  _ ← validateNPMPackageName candidate;
  Ok prefix.

Definition normalizeNPMPackageGlob (pattern : gostring) : result gostring :=
  _ ← wrap "invalid npm package glob: %w" (validatePackageGlobInput pattern);
  let parts := strings_split pattern (ch "/") in
  _ ← (if has_prefix pattern (bs "@") then
         match parts with
         | [scope; package] =>
           if (len scope =? 1) || str_eqb package []
           then fail "scoped npm package glob must be @scope/pattern" else
           if first_byte package =? ch "."
           then fail "scoped npm package glob cannot start its package pattern with '.'" else
           for_each (fun part => wrap "invalid scoped npm package glob: %w"
             (validateGlobCharacters part (bs "._~!()'-") true)) [tail scope; package]
         | _ => fail "scoped npm package glob must be @scope/pattern"
         end
       else if negb (len parts =? 1) then fail "unscoped npm package glob cannot contain '/'"
       else
         _ ← reject_if (mem (first_byte pattern) (bs "._-"))
               "unscoped npm package glob cannot start with %q";
         wrap "invalid npm package glob: %w" (validateGlobCharacters pattern (bs "._~!()'-") true));
  _ ← (if hasGlobMetacharacter pattern then Ok ()
       else wrap "invalid npm package glob: %w" (validateNPMPackageName pattern));
  Ok pattern.

(** ** Composer names *)

Definition isWindowsReservedName (value : gostring) : bool :=
  let base := to_lower value in
  let base := match index_byte base (ch ".") with Some dot => take dot base | None => base end in
  if str_eqb base (bs "con") || str_eqb base (bs "prn") || str_eqb base (bs "aux") || str_eqb base (bs "nul")
  then true
  else if (len base =? 4) && (has_prefix base (bs "com") || has_prefix base (bs "lpt"))
  then in_range (ch "1") (ch "9") (nth 3 base 0)
  else false.

(** The bytes equal to [c] at the front, and the rest. *)
Fixpoint take_run (c : Z) (s : gostring) : gostring * gostring :=
  match s with
  | a :: rest => if a =? c then let '(run, tl) := take_run c rest in (a :: run, tl) else ([], s)
  | [] => ([], [])
  end.

(** The index loop of [validateComposerNamePart]; a round consumes a byte. *)
Fixpoint composerScan (fuel : nat) (maxHyphenRun : Z) (value : gostring) : result unit :=
  match fuel, value with
  | S fuel, c :: rest =>
    if isASCIIAlphanumeric c then composerScan fuel maxHyphenRun rest else
    if negb (c =? ch ".") && negb (c =? ch "_") && negb (c =? ch "-")
    then fail "contains invalid character %q" else
    let '(run, rest) := take_run c value in
    if (negb (c =? ch "-") && (len run >? 1)) || ((c =? ch "-") && (len run >? maxHyphenRun))
    then fail "contains an invalid separator run" else
    match rest with
    | d :: _ =>
      if negb (isASCIIAlphanumeric d) then fail "separator must be followed by an ASCII letter or digit"
      else composerScan fuel maxHyphenRun rest
    | [] => fail "separator must be followed by an ASCII letter or digit"
    end
  | _, _ => Ok ()
  end.

Definition validateComposerNamePart (value : gostring) (maxHyphenRun : Z) : result unit :=
  if negb (isASCIIAlphanumeric (first_byte value)) || negb (isASCIIAlphanumeric (last_byte value))
  then fail "must start and end with an ASCII letter or digit" else
  composerScan (length value) maxHyphenRun value.

Definition validateComposerPackageName (name : gostring) : result unit :=
  parts ← exactCoordinateParts name 2;
  let vendor := nth 0 parts [] in
  let package := nth 1 parts [] in
  _ ← wrap "invalid Composer vendor: %w" (validateComposerNamePart vendor 1);
  _ ← wrap "invalid Composer package: %w" (validateComposerNamePart package 2);
  _ ← for_each (fun part => reject_if (isWindowsReservedName part)
        "Composer package coordinate uses Windows reserved name %q") parts;
  reject_if (has_suffix (to_lower package) (bs ".json")) "Composer package name cannot end in .json".

Definition normalizeComposerPackagePrefix (prefix : gostring) : result gostring :=
  _ ← validateCompletedCoordinatePrefix prefix 2 validateComposerPackageName;
  Ok (to_lower prefix).

(** The loop over the literal segments of a Composer glob. *)
Fixpoint composerGlobParts (index : nat) (parts : list gostring) : result unit :=
  match parts with
  | [] => Ok ()
  | part :: parts =>
    _ ← (if hasGlobMetacharacter part then Ok () else
         let maxHyphenRun := if (index =? 1)%nat then 2 else 1 in
         _ ← wrap "invalid Composer package glob segment %q: %w" (validateComposerNamePart part maxHyphenRun);
         _ ← reject_if (isWindowsReservedName part) "Composer package glob uses Windows reserved name %q";
         reject_if ((index =? 1)%nat && has_suffix (to_lower part) (bs ".json"))
           "Composer package glob cannot end in .json");
    composerGlobParts (S index) parts
  end.

Definition normalizeComposerPackageGlob (pattern : gostring) : result gostring :=
  parts ← validateStructuredPackageGlob pattern 2 (bs "._-") true;
  _ ← composerGlobParts 0 parts;
  Ok (to_lower pattern).

(** ** Conda names *)

(** [name[:slash+1]] and [name[slash+1:]] for the last slash. *)
Definition after_last_slash (name : gostring) : gostring * gostring :=
  match last_index_byte name (ch "/") with
  | Some slash => (take (S slash) name, drop (S slash) name)
  | None => ([], name)
  end.

Definition normalizeCondaPackageName (name : gostring) : gostring :=
  let '(channel, package) := after_last_slash name in channel ++ to_lower package.

Definition validateCondaNamePart (value : gostring) : result unit :=
  if str_eqb value [] || str_eqb value (bs ".") || str_eqb value (bs "..")
  then fail "must be a non-empty safe path segment" else
  if negb (isASCIIAlphanumeric (first_byte value)) && negb (first_byte value =? ch "_")
  then fail "must start with an ASCII letter, digit, or underscore" else
  if negb (isASCIIAlphanumeric (last_byte value)) then fail "must end with an ASCII letter or digit" else
  all_bytes pypi_byte value "contains invalid character %q".

Definition validateCondaChannel (channelPart : gostring) : result unit :=
  validateSimpleASCIIName channelPart (bs "._-") false true.

Definition validateCondaPackageName (name : gostring) : result unit :=
  let parts := strings_split name (ch "/") in
  if len parts <? 2 then fail "Conda package name must contain a channel path and package name" else
  _ ← for_each (fun channelPart => wrap "invalid Conda channel segment %q: %w"
        (validateCondaChannel channelPart)) (removelast parts);
  wrap "invalid Conda package: %w" (validateCondaNamePart (List.last parts [])).

Definition normalizeCondaPackagePrefix (prefix : gostring) : result gostring :=
  _ ← validatePackageNameInput prefix;
  if is_ok (validateCondaPackageName prefix) then Ok (normalizeCondaPackageName prefix) else
  match last_index_byte prefix (ch "/") with
  | None =>
    _ ← wrap "invalid Conda channel prefix: %w" (validateCondaChannel (prefix ++ bs "x")); Ok prefix
  | Some slash =>
    _ ← for_each (fun channelPart => wrap "invalid Conda channel segment %q: %w"
          (validateCondaChannel channelPart)) (strings_split (take slash prefix) (ch "/"));
    let packagePrefix := drop (S slash) prefix in
    if str_eqb packagePrefix [] then Ok prefix else
    _ ← wrap "invalid Conda package prefix: %w" (validateCondaNamePart (packagePrefix ++ bs "x"));
    Ok (take (S slash) prefix ++ to_lower packagePrefix)
  end.

Definition normalizeCondaPackageGlob (pattern : gostring) : result gostring :=
  _ ← wrap "invalid Conda package glob: %w" (validatePackageGlobInput pattern);
  let parts := strings_split pattern (ch "/") in
  if len parts <? 2 then fail "Conda package glob must contain a channel path and package pattern" else
  _ ← for_each (fun channelPart =>
        _ ← wrap "invalid Conda channel glob segment %q: %w"
              (validateGlobCharacters channelPart (bs "._-") true);
        if hasGlobMetacharacter channelPart then Ok () else
        wrap "invalid Conda channel glob segment %q: %w" (validateCondaChannel channelPart)) (removelast parts);
  let packagePattern := List.last parts [] in
  _ ← wrap "invalid Conda package glob: %w" (validateGlobCharacters packagePattern (bs "._-") true);
  _ ← (if hasGlobMetacharacter packagePattern then Ok () else
       wrap "invalid Conda package glob: %w" (validateCondaNamePart packagePattern));
  Ok (strings_join (removelast parts ++ [to_lower packagePattern]) (ch "/")).

(** ** Alpine names *)

Definition validateAlpineSegment (part : gostring) : result unit :=
  validateSimpleASCIIName part (bs "._+-") true true.

Definition validateAlpinePackageName (name : gostring) : result unit :=
  parts ← exactCoordinateParts name 4;
  for_each (fun part => wrap "invalid Alpine package coordinate segment %q: %w"
    (validateAlpineSegment part)) parts.

Definition normalizeAlpinePackagePrefix (prefix : gostring) : result gostring :=
  _ ← validateCompletedCoordinatePrefix prefix 4 validateAlpinePackageName; Ok prefix.

Definition normalizeAlpinePackageGlob (pattern : gostring) : result gostring :=
  parts ← validateStructuredPackageGlob pattern 4 (bs "._+-") true;
  _ ← for_each (fun part => if hasGlobMetacharacter part then Ok () else
        wrap "invalid Alpine package glob segment %q: %w" (validateAlpineSegment part)) parts;
  Ok pattern.

(** ** Hugging Face repositories *)

(** The number of leading segments that are the dataset namespace. *)
Definition huggingFaceRepoIDStart (parts : list gostring) (pattern : bool) : result nat :=
  match parts with
  | [_] => Ok 0%nat
  | [p0; _] =>
    if equal_fold p0 (bs "datasets") && (negb pattern || negb (hasGlobMetacharacter p0)) then Ok 1%nat else Ok 0%nat
  | [p0; _; _] =>
    if negb (equal_fold p0 (bs "datasets")) || pattern && hasGlobMetacharacter p0
    then fail "three-part Hugging Face package identity must start with datasets/" else Ok 1%nat
  | _ => fail "Hugging Face package identity must be repo, owner/repo, datasets/repo, or datasets/owner/repo"
  end.

Definition validateHuggingFaceNamePart (value : gostring) : result unit :=
  if str_eqb value [] || (len value >? 96) then fail "must contain 1 to 96 characters" else
  if (negb (isASCIIAlphanumeric (first_byte value)) && negb (first_byte value =? ch "_"))
     || (negb (isASCIIAlphanumeric (last_byte value)) && negb (last_byte value =? ch "_"))
  then fail "must not start or end with '-' or '.'" else
  if contains value (bs "--") || contains value (bs "..") then fail "must not contain '--' or '..'" else
  all_bytes pypi_byte value "contains invalid character %q".

Definition validateHuggingFacePackageName (name : gostring) : result unit :=
  let parts := strings_split name (ch "/") in
  start ← huggingFaceRepoIDStart parts false;
  if len (strings_join (drop start parts) (ch "/")) >? 96
  then fail "Hugging Face repo_id must not exceed 96 characters" else
  if has_suffix (to_lower (List.last parts [])) (bs ".git")
  then fail "Hugging Face repository name cannot end in .git" else
  for_each (fun part => wrap "invalid Hugging Face repository segment %q: %w"
    (validateHuggingFaceNamePart part)) (drop start parts).

Definition normalizeHuggingFacePackagePrefix (prefix : gostring) : result gostring :=
  _ ← validatePackageNameInput prefix;
  _ ← (if is_ok (validateHuggingFacePackageName prefix) then Ok ()
       else validateHuggingFacePackageName (prefix ++ bs "x"));
  Ok (to_lower prefix).

Definition validateHuggingFaceGlobPart (part : gostring) (repositoryName : bool) : result unit :=
  _ ← validateGlobCharacters part (bs "._-") true;
  if negb (hasGlobMetacharacter part) then
    if repositoryName && has_suffix (to_lower part) (bs ".git")
    then fail "repository name cannot end in .git" else validateHuggingFaceNamePart part
  else
  if mem (first_byte part) (bs "-.") || mem (last_byte part) (bs "-.")
  then fail "literal segment boundary must not be '-' or '.'" else
  if contains part (bs "--") || contains part (bs "..") then fail "must not contain literal '--' or '..'" else
  reject_if (repositoryName && has_suffix (to_lower part) (bs ".git"))
    "repository pattern cannot end in .git".

Fixpoint huggingFaceGlobParts (repoParts : list gostring) : result unit :=
  match repoParts with
  | [] => Ok ()
  | part :: rest =>
    _ ← reject_if (str_eqb part []) "Hugging Face package glob contains an empty path segment";
    _ ← wrap "invalid Hugging Face package glob segment %q: %w"
          (validateHuggingFaceGlobPart part (len rest =? 0));
    huggingFaceGlobParts rest
  end.

Definition normalizeHuggingFacePackageGlob (pattern : gostring) : result gostring :=
  _ ← wrap "invalid Hugging Face package glob: %w" (validatePackageGlobInput pattern);
  let parts := strings_split pattern (ch "/") in
  start ← huggingFaceRepoIDStart parts true;
  if len (strings_join (drop start parts) (ch "/")) >? 96
  then fail "Hugging Face repo_id glob must not exceed 96 characters" else
  _ ← huggingFaceGlobParts (drop start parts);
  Ok (to_lower pattern).

(** ** Docker repositories *)

Fixpoint drop_lower_alnum (value : gostring) : gostring :=
  match value with
  | c :: rest => if isASCIILowercaseAlphanumeric c then drop_lower_alnum rest else value
  | [] => []
  end.

(** The loop behind the first alphanumeric run; a round consumes a separator. *)
Fixpoint dockerScan (fuel : nat) (value : gostring) : result unit :=
  match fuel, value with
  | S fuel, separator :: rest =>
    after ←
      (if (separator =? ch ".") || (separator =? ch "_") then
         Ok (if (separator =? ch "_") && head_is rest (ch "_") then tail rest else rest)
       else if separator =? ch "-" then Ok (snd (take_run (ch "-") value))
       else fail "contains invalid or uppercase character %q");
    match after with
    | d :: _ =>
      if negb (isASCIILowercaseAlphanumeric d)
      then fail "separator must be followed by a lowercase ASCII letter or digit"
      else dockerScan fuel (drop_lower_alnum after)
    | [] => fail "separator must be followed by a lowercase ASCII letter or digit"
    end
  | _, _ => Ok ()
  end.

Definition validateDockerPathComponent (value : gostring) : result unit :=
  if str_eqb value [] || negb (isASCIILowercaseAlphanumeric (first_byte value))
  then fail "must start with a lowercase ASCII letter or digit" else
  dockerScan (length value) (drop_lower_alnum value).

Definition validateDockerRemoteName (name : gostring) : result unit :=
  for_each (fun part => wrap "invalid Docker remote-name component %q: %w"
    (validateDockerPathComponent part)) (strings_split name (ch "/")).

Definition normalizeDockerPackagePrefix (prefix : gostring) : result gostring :=
  _ ← validatePackageNameInput prefix;
  _ ← validateDockerRemoteName (prefix ++ bs "x");
  Ok prefix.

Definition normalizeDockerPackageGlob (pattern : gostring) : result gostring :=
  _ ← wrap "invalid Docker package glob: %w" (validatePackageGlobInput pattern);
  _ ← for_each (fun part =>
        _ ← reject_if (str_eqb part [] || str_eqb part (bs ".") || str_eqb part (bs ".."))
              "Docker package glob contains an unsafe path segment %q";
        _ ← wrap "invalid Docker package glob segment %q: %w" (validateGlobCharacters part (bs "._-") false);
        if hasGlobMetacharacter part then Ok () else
        wrap "invalid Docker package glob segment %q: %w" (validateDockerPathComponent part))
        (strings_split pattern (ch "/"));
  Ok pattern.

(** ** Go modules *)

Section gomodules.
Context `{ModulePackage}.

Definition normalizeGoModulePrefix (prefix : gostring) : result gostring :=
  _ ← validatePackageNameInput prefix;
  _ ← ValidatePrefix prefix;
  Ok prefix.

Definition normalizeGoModuleGlob (pattern : gostring) : result gostring :=
  _ ← wrap "invalid Go module package glob: %w" (validatePackageGlobInput pattern);
  _ ← ValidateGlob pattern;
  Ok pattern.
End gomodules.
End names.

(** ** Names as words and separators

    The grammar that the index loops of the Docker, Composer and NuGet validators
    scan: non-empty runs of word bytes, joined by separators. *)

Inductive words (word : Z -> bool) (sep : gostring -> Prop) : gostring -> Prop :=
  | words_last w : w <> [] -> Forall (fun c => word c = true) w -> words word sep w
  | words_cons w p rest :
      w <> [] -> Forall (fun c => word c = true) w -> sep p -> words word sep rest ->
      words word sep (w ++ p ++ rest).

(** Separators are non-empty and made of bytes that are no word bytes. *)
Definition proper_separators (word : Z -> bool) (sep : gostring -> Prop) : Prop :=
  forall p, sep p -> p <> [] /\ Forall (fun c => word c = false) p.

Lemma words_head word sep s : words word sep s -> exists c r, s = c :: r /\ word c = true.
Proof.
  destruct 1 as [w Hne Hw|w p rest Hne Hw _ _]; (destruct Hw as [|c w Hc Hw]; [done|]); eauto.
Qed.

Lemma words_word word sep c s : word c = true -> words word sep s -> words word sep (c :: s).
Proof.
  intros Hc [w Hne Hw|w p rest Hne Hw Hp Hr].
  - apply words_last; [done | by constructor].
  - apply (words_cons word sep (c :: w)); [done | by constructor | done..].
Qed.

Lemma words_single word sep c : word c = true -> words word sep [c].
Proof. intros Hc. apply words_last; [done | by apply Forall_singleton]. Qed.

Lemma words_step word sep c s :
  word c = true ->
  words word sep (c :: s) <->
  s = [] \/ words word sep s \/ exists p r, sep p /\ s = p ++ r /\ words word sep r.
Proof.
  intros Hc. split.
  - intros H. inversion H as [w Hne Hw Heq|w p rest Hne Hw Hp Hr Heq]; subst.
    + apply Forall_cons in Hw as [_ Hw]. destruct s as [|d s]; [by left|]. right. left. by apply words_last.
    + destruct w as [|a w]; [done|]. injection Heq as -> <-. apply Forall_cons in Hw as [_ Hw].
      destruct w as [|b w]; [right; right; eauto|]. right. left. by apply words_cons.
  - intros [->|[H|(p & r & Hp & -> & Hr)]].
    + by apply words_single.
    + by apply words_word.
    + apply (words_cons word sep [c]); [done | by apply Forall_singleton | done..].
Qed.

(** What can follow a word byte. *)
Definition after_word (word : Z -> bool) (sep : gostring -> Prop) (s : gostring) : Prop :=
  s = [] \/ words word sep s \/ exists p r, sep p /\ s = p ++ r /\ words word sep r.

Section scanning.
Context (word : Z -> bool) (sep : gostring -> Prop) (Hsep : proper_separators word sep).

Lemma sep_head p c s r : sep p -> word c = true -> c :: s <> p ++ r.
Proof using Hsep.
  intros Hp Hc He. destruct (Hsep p Hp) as [Hne HF]. destruct HF as [|d p Hd HF]; [done|].
  injection He as -> _. congruence.
Qed.

Lemma words_after c s : word c = true -> words word sep (c :: s) <-> after_word word sep s.
Proof. apply words_step. Qed.

Lemma after_word_word c s : word c = true -> after_word word sep (c :: s) <-> after_word word sep s.
Proof using Hsep.
  intros Hc. rewrite <- (words_after c s) by done. unfold after_word. split; [|by right; left].
  intros [?|[?|(p & r & Hp & He & _)]]; [done | done | by apply sep_head in He].
Qed.

Lemma after_word_sep c s :
  word c = false ->
  after_word word sep (c :: s) <-> exists p r, sep p /\ c :: s = p ++ r /\ words word sep r.
Proof using Type.
  intros Hc. unfold after_word. split; [|by right; right].
  intros [?|[(d & r & [= <- _] & Hd)%words_head|?]]; [done | congruence | done].
Qed.

(** The scan over the first word. *)
Fixpoint drop_word (s : gostring) : gostring :=
  match s with c :: rest => if word c then drop_word rest else s | [] => [] end.

Lemma drop_word_after s : after_word word sep s <-> after_word word sep (drop_word s).
Proof using Hsep.
  induction s as [|c s IH]; simpl; [done|]. destruct (word c) eqn:E; [|done].
  by rewrite after_word_word.
Qed.

Lemma words_last_byte s : words word sep s -> word (last_byte s) = true.
Proof using Type.
  unfold last_byte. induction 1 as [w Hne Hw|w p rest Hne Hw Hp Hr IH].
  - destruct (exists_last Hne) as (w' & c & ->). rewrite last_last. apply Forall_app in Hw as [_ Hw].
    by apply Forall_cons in Hw as [? _].
  - assert (Hrest : rest <> []) by (destruct (words_head _ _ _ Hr) as (c & r & -> & _); done).
    destruct (exists_last Hrest) as (r & c & ->). rewrite last_last in IH.
    by rewrite !(assoc_L app), last_last.
Qed.

(** A word is where the text starts with a word byte. *)
Lemma words_first c s : word c = true -> words word sep (c :: s) <-> after_word word sep (c :: s).
Proof using Hsep. intros Hc. by rewrite after_word_word, words_after. Qed.

Lemma words_not_first c s : word c = false -> ~ words word sep (c :: s).
Proof using Type. intros Hc (d & r & [= <- _] & Hd)%words_head. congruence. Qed.
End scanning.

Lemma take_run_spec c s :
  exists k, take_run c s = (replicate k c, drop k s) /\ s = replicate k c ++ drop k s
    /\ head_is (drop k s) c = false.
Proof.
  induction s as [|a s (k & Hk & Hs & Hh)]; simpl; [by exists O|].
  destruct (Z.eqb_spec a c) as [->|Hne].
  - exists (S k). rewrite Hk. simpl. split_and!; [done | by f_equal | done].
  - exists O. split_and!; [done..|]. simpl. by apply Z.eqb_neq.
Qed.

(** Two runs of one byte in front of texts that do not continue them. *)
Lemma run_unique c j k s t :
  head_is s c = false -> head_is t c = false ->
  replicate j c ++ s = replicate k c ++ t -> j = k /\ s = t.
Proof.
  intros Hs Ht. revert k; induction j as [|j IH]; intros [|k]; simpl; intros He.
  - done.
  - subst s. simpl in Hs. by rewrite Z.eqb_refl in Hs.
  - subst t. simpl in Ht. by rewrite Z.eqb_refl in Ht.
  - injection He as He. apply IH in He as [-> ->]. done.
Qed.

Lemma words_head_not word sep c s : words word sep s -> word c = false -> head_is s c = false.
Proof.
  intros (d & r & -> & Hd)%words_head Hc. simpl. apply Z.eqb_neq. intros ->. congruence.
Qed.

(** ** Docker path components *)

Definition docker_sep (p : gostring) : Prop :=
  p = bs "." \/ p = bs "_" \/ p = bs "__" \/ exists k, p = replicate (S k) (ch "-").

Lemma docker_sep_proper : proper_separators isASCIILowercaseAlphanumeric docker_sep.
Proof.
  intros p [->|[->|[->|[k ->]]]]; (split; [done|]); try (simpl; forall_list; done).
  apply Forall_replicate. done.
Qed.

Lemma drop_lower_alnum_word s : drop_lower_alnum s = drop_word isASCIILowercaseAlphanumeric s.
Proof. induction s as [|c s IH]; simpl; [done|]. by rewrite IH. Qed.

Lemma drop_lower_alnum_length s : (length (drop_lower_alnum s) <= length s)%nat.
Proof. induction s as [|a s IH]; simpl; [lia|]. case_match; simpl; lia. Qed.

Lemma drop_lower_alnum_head s :
  match drop_lower_alnum s with c :: _ => isASCIILowercaseAlphanumeric c = false | [] => True end.
Proof. induction s as [|a s IH]; simpl; [done|]. by destruct (isASCIILowercaseAlphanumeric a) eqn:E. Qed.

Abbreviation docker_words := (words isASCIILowercaseAlphanumeric docker_sep).
Abbreviation docker_after := (after_word isASCIILowercaseAlphanumeric docker_sep).

Lemma docker_after_drop s : docker_after s <-> docker_after (drop_lower_alnum s).
Proof. rewrite drop_lower_alnum_word. apply drop_word_after, docker_sep_proper. Qed.

Lemma docker_words_first c s : docker_words (c :: s) -> isASCIILowercaseAlphanumeric c = true.
Proof. by intros (d & r & [= -> ->] & ?)%words_head. Qed.

(** The separator the scan takes is the only one that a component can go on with. *)
Lemma docker_after_sep separator rest :
  isASCIILowercaseAlphanumeric separator = false ->
  docker_after (separator :: rest) <->
  (if (separator =? ch ".") || (separator =? ch "_")
   then docker_words (if (separator =? ch "_") && head_is rest (ch "_") then tail rest else rest)
   else if separator =? ch "-" then docker_words (snd (take_run (ch "-") (separator :: rest)))
   else False).
Proof.
  intros Hs. rewrite after_word_sep by done. unfold docker_sep.
  destruct (Z.eqb_spec separator (ch ".")) as [->|Hdot]; [|destruct (Z.eqb_spec separator (ch "_")) as [->|Hund]];
    [| |destruct (Z.eqb_spec separator (ch "-")) as [->|Hdash]]; cbn [orb andb]; cbv iota.
  - split.
    + intros (p & r & [->|[->|[->|[k ->]]]] & [= He] & Hr); by try subst.
    + intros Hr. exists (bs "."), rest. eauto.
  - split.
    + intros (p & r & [->|[->|[->|[k ->]]]] & He & Hr); try discriminate He; injection He as ->; [|done].
      by rewrite (words_head_not _ _ _ _ Hr) by done.
    + destruct (head_is rest (ch "_")) eqn:E; intros Hr.
      * destruct rest as [|a rest]; [done|]. simpl in E. apply Z.eqb_eq in E as ->.
        exists (bs "__"), rest. eauto 6.
      * exists (bs "_"), rest. eauto.
  - destruct (take_run_spec (ch "-") (ch "-" :: rest)) as (k & -> & Hk & Hh). cbn [snd]. split.
    + intros (p & r & [->|[->|[->|[j ->]]]] & He & Hr); try discriminate He.
      pose proof (words_head_not _ _ (ch "-") _ Hr eq_refl) as Hn. rewrite Hk in He.
      apply run_unique in He as [_ ->]; done.
    + intros Hr. destruct k as [|k]; [by apply docker_words_first in Hr|].
      eexists _, _. split; [right; right; right; by exists k|]. split; [exact Hk | done].
  - split; [|done]. intros (p & r & [->|[->|[->|[k ->]]]] & [= He _] & _); congruence.
Qed.

Lemma dockerScan_ok fuel v :
  (length v <= fuel)%nat ->
  match v with c :: _ => isASCIILowercaseAlphanumeric c = false | [] => True end ->
  dockerScan fuel v = Ok () <-> docker_after v.
Proof.
  revert v; induction fuel as [|fuel IH]; intros [|c v] Hl Hc; try (simpl in Hl; lia);
    try (by split; [left | intros _]).
  cbn [dockerScan]. rewrite docker_after_sep by done.
  assert (Hnext : forall after, (length after <= length v)%nat ->
    match after with
    | d :: _ => if negb (isASCIILowercaseAlphanumeric d)
                then fail "separator must be followed by a lowercase ASCII letter or digit"
                else dockerScan fuel (drop_lower_alnum after)
    | [] => fail "separator must be followed by a lowercase ASCII letter or digit" end = Ok ()
    <-> docker_words after).
  { intros after Hla. destruct after as [|d after]; [split; [done | by intros (? & ? & ? & _)%words_head]|].
    destruct (isASCIILowercaseAlphanumeric d) eqn:Ed; cbn [negb].
    - rewrite words_first by (apply docker_sep_proper || done).
      etransitivity; [|symmetry; apply docker_after_drop]. apply IH; [|apply drop_lower_alnum_head].
      pose proof (drop_lower_alnum_length (d :: after)). simpl in *. lia.
    - split; [done|]. intros Hw%docker_words_first. congruence. }
  destruct ((c =? ch ".") || (c =? ch "_")) eqn:E1; cbn [mbind result_bind].
  - apply Hnext. case_match; [|lia]. destruct v; simpl; lia.
  - destruct (c =? ch "-") eqn:E2; cbn [mbind result_bind]; [|done].
    apply Hnext. apply Z.eqb_eq in E2 as ->. simpl. destruct (take_run_spec (ch "-") v) as (k & -> & _).
    cbn [snd]. rewrite length_drop. lia.
Qed.

Lemma docker_component_ok s : validateDockerPathComponent s = Ok () <-> docker_words s.
Proof.
  unfold validateDockerPathComponent. destruct s as [|c s].
  - split; [done | by intros (? & ? & ? & _)%words_head].
  - assert (str_eqb (c :: s) [] = false) as -> by done. cbn [first_byte hd orb].
    destruct (isASCIILowercaseAlphanumeric c) eqn:E; cbn [negb].
    + rewrite words_first by (apply docker_sep_proper || done).
      etransitivity; [|symmetry; apply docker_after_drop].
      apply dockerScan_ok; [apply drop_lower_alnum_length | apply drop_lower_alnum_head].
    + split; [done|]. intros Hw%docker_words_first. congruence.
Qed.

(** ** Composer name parts *)

Definition composer_sep (maxHyphenRun : Z) (p : gostring) : Prop :=
  p = bs "." \/ p = bs "_" \/ exists k, p = replicate (S k) (ch "-") /\ Z.of_nat (S k) <= maxHyphenRun.

Lemma composer_sep_proper m : proper_separators isASCIIAlphanumeric (composer_sep m).
Proof.
  intros p [->|[->|(k & -> & _)]]; (split; [done|]); try (simpl; forall_list; done).
  apply Forall_replicate. done.
Qed.

(** The run the loop takes is the separator of the grammar. *)
Lemma composer_after_sep m c rest k :
  isASCIIAlphanumeric c = false ->
  c :: rest = replicate k c ++ drop k (c :: rest) -> head_is (drop k (c :: rest)) c = false ->
  after_word isASCIIAlphanumeric (composer_sep m) (c :: rest) <->
  ((c = ch "." \/ c = ch "_") /\ k = 1%nat \/ c = ch "-" /\ Z.of_nat k <= m)
  /\ words isASCIIAlphanumeric (composer_sep m) (drop k (c :: rest)).
Proof.
  intros Hc Hk Hh. rewrite after_word_sep by done. split.
  - intros (p & r & Hp & He & Hr).
    assert (Hrun : exists j, p = replicate j c /\ (0 < j)%nat).
    { destruct Hp as [->|[->|(j & -> & _)]]; injection He as -> _;
        [exists 1%nat | exists 1%nat | exists (S j)]; split; done || lia. }
    destruct Hrun as (j & -> & Hj). rewrite Hk in He.
    apply run_unique in He as [-> <-]; [|done | by eapply words_head_not]. split; [|done].
    destruct Hp as [Hp|[Hp|(i & Hp & Hi)]].
    + destruct j as [|[|j]]; [done | injection Hp as ->; auto | discriminate Hp].
    + destruct j as [|[|j]]; [done | injection Hp as ->; auto | discriminate Hp].
    + right. destruct j as [|j]; [lia|]. injection Hp as -> Hp. split; [done|].
      apply (f_equal length) in Hp. rewrite !length_replicate in Hp. lia.
  - intros [Hp Hr]. exists (replicate k c), (drop k (c :: rest)). split_and!; [|done..].
    destruct Hp as [[[->| ->] ->]|[-> Hm]]; [by left | by right; left | right; right].
    destruct k as [|k]; [|by exists k]. simpl in Hh. by vm_compute in Hh.
Qed.

Lemma composerScan_ok fuel m s :
  (length s <= fuel)%nat ->
  composerScan fuel m s = Ok () <-> after_word isASCIIAlphanumeric (composer_sep m) s.
Proof.
  revert s; induction fuel as [|fuel IH]; intros [|c s] Hl; try (simpl in Hl; lia);
    try (by split; [left | intros _]).
  cbn [composerScan]. destruct (isASCIIAlphanumeric c) eqn:Ec.
  { rewrite after_word_word by (apply composer_sep_proper || done). apply IH. simpl in Hl. lia. }
  destruct (take_run_spec c (c :: s)) as (k & -> & Hk & Hh).
  rewrite (composer_after_sep m c s k) by done.
  assert (Hkpos : (0 < k)%nat) by (destruct k; [|lia]; simpl in Hh; by rewrite Z.eqb_refl in Hh).
  assert (Hnext : match drop k (c :: s) with
    | d :: _ => if negb (isASCIIAlphanumeric d) then fail "separator must be followed by an ASCII letter or digit"
                else composerScan fuel m (drop k (c :: s))
    | [] => fail "separator must be followed by an ASCII letter or digit" end = Ok ()
    <-> words isASCIIAlphanumeric (composer_sep m) (drop k (c :: s))).
  { assert (Hld : (length (drop k (c :: s)) <= fuel)%nat) by (rewrite length_drop; simpl in *; lia).
    destruct (drop k (c :: s)) as [|d r]; [split; [done | by intros (? & ? & ? & _)%words_head]|].
    destruct (isASCIIAlphanumeric d) eqn:Ed; cbn [negb].
    - rewrite words_first by (apply composer_sep_proper || done). by apply IH.
    - split; [done|]. intros (a & b & [= <- _] & ?)%words_head. congruence. }
  assert (Hlen : len (replicate k c) = Z.of_nat k) by (unfold len; by rewrite length_replicate).
  destruct (Z.eqb_spec c (ch ".")) as [->|Hdot]; [|destruct (Z.eqb_spec c (ch "_")) as [->|Hund];
    [|destruct (Z.eqb_spec c (ch "-")) as [->|Hdash]]]; cbn [negb andb orb].
  4: { split; [done|]. naive_solver. }
  all: rewrite Hlen; go_chars; match goal with |- context [Z.gtb ?a ?b] => destruct (Z.gtb_spec a b) end;
    cbn [orb andb negb Z.eqb Pos.eqb]; rewrite ?Hnext.
  all: split; [first [done | intros; split; [lia | done]] | intros [? ?]; first [done | lia]].
Qed.

Lemma composer_part_ok m s :
  validateComposerNamePart s m = Ok () <-> words isASCIIAlphanumeric (composer_sep m) s.
Proof.
  unfold validateComposerNamePart. destruct s as [|c s].
  { split; [done | by intros (? & ? & ? & _)%words_head]. }
  cbn [first_byte hd]. destruct (isASCIIAlphanumeric c) eqn:Ec; cbn [negb orb].
  - rewrite words_first by (apply composer_sep_proper || done).
    destruct (isASCIIAlphanumeric (last_byte (c :: s))) eqn:El; cbn [negb].
    + by apply composerScan_ok.
    + split; [done|]. intros Ha. exfalso. rewrite <- words_first in Ha by (apply composer_sep_proper || done).
      apply words_last_byte in Ha. congruence.
  - split; [done|]. intros (a & b & [= <- _] & ?)%words_head. congruence.
Qed.

(** ** NuGet package IDs *)

Definition nuget_sep (p : gostring) : Prop := p = bs "." \/ p = bs "-".

Lemma nuget_sep_proper : proper_separators isNuGetPackageWord nuget_sep.
Proof. intros p [->| ->]; (split; [done|]); simpl; forall_list; done. Qed.

Lemma nugetScan_ok s : nugetScan s = Ok () <-> after_word isNuGetPackageWord nuget_sep s.
Proof.
  induction s as [|c s IH]; [by split; [left|]|]. cbn [nugetScan].
  destruct (isNuGetPackageWord c) eqn:Ec.
  { by rewrite after_word_word by (apply nuget_sep_proper || done). }
  rewrite after_word_sep by done. unfold nuget_sep at 1.
  assert (Hnext : match s with
    | d :: _ => if negb (isNuGetPackageWord d)
        then fail "NuGet package ID separator must be followed by an ASCII letter, digit, or underscore"
        else nugetScan s
    | [] => fail "NuGet package ID separator must be followed by an ASCII letter, digit, or underscore" end = Ok ()
    <-> words isNuGetPackageWord nuget_sep s).
  { destruct s as [|d s]; [split; [done | by intros (? & ? & ? & _)%words_head]|].
    destruct (isNuGetPackageWord d) eqn:Ed; cbn [negb].
    - by rewrite words_first by (apply nuget_sep_proper || done).
    - split; [done|]. intros (a & b & [= <- _] & ?)%words_head. congruence. }
  destruct (Z.eqb_spec c (ch ".")) as [->|Hdot]; [|destruct (Z.eqb_spec c (ch "-")) as [->|Hdash]];
    cbn [negb andb].
  - rewrite Hnext. split; [intros; eexists _, s; split; [by left | done]|].
    intros (p & r & [->| ->] & [= He] & Hr); by subst.
  - rewrite Hnext. split; [intros; eexists _, s; split; [by right | done]|].
    intros (p & r & [->| ->] & [= He] & Hr); by subst.
  - split; [done|]. intros (p & r & [->| ->] & [= He _] & _); congruence.
Qed.

Lemma words_bytes (P : Z -> Prop) word sep s :
  (forall c, word c = true -> P c) -> (forall p, sep p -> Forall P p) -> words word sep s -> Forall P s.
Proof.
  intros Hw Hs. induction 1 as [w Hne HF|w p rest Hne HF Hp Hr IH].
  - eapply Forall_impl; [exact HF|]. apply Hw.
  - repeat apply Forall_app_2; [|by apply Hs | done]. eapply Forall_impl; [exact HF|]. apply Hw.
Qed.

Lemma validatePackageNameInput_graphic s :
  s <> [] -> Forall graphic s -> validatePackageNameInput s = Ok ().
Proof.
  intros Hne Hg. unfold validatePackageNameInput.
  by rewrite blank_or_spaced_graphic, has_space_or_control_graphic.
Qed.

Lemma nuget_name_ok s :
  validateNuGetPackageName s = Ok () <-> words isNuGetPackageWord nuget_sep s /\ len s <= 100.
Proof.
  assert (Hscan : forall c s, isNuGetPackageWord c = true ->
    nugetScan (c :: s) = Ok () <-> words isNuGetPackageWord nuget_sep (c :: s)).
  { intros c t Hc. rewrite nugetScan_ok. by rewrite words_first by (apply nuget_sep_proper || done). }
  unfold validateNuGetPackageName. split.
  - intros Hv. apply result_bind_ok in Hv as (_ & _ & Hv).
    destruct (Z.gtb_spec (len s) 100); [done|]. destruct s as [|c s]; [done|]. cbn [first_byte hd] in Hv.
    destruct (isNuGetPackageWord c) eqn:Ec; cbn [negb] in Hv; [|done]. split; [by apply Hscan | lia].
  - intros [Hw Hl].
    assert (Hg : Forall graphic s).
    { eapply words_bytes; [| |exact Hw].
      - unfold isNuGetPackageWord. intros c Hc. byte_tac.
      - intros p [->| ->]; simpl; forall_list; byte_tac. }
    destruct (words_head _ _ _ Hw) as (c & r & -> & Hc).
    rewrite validatePackageNameInput_graphic by done. cbn [mbind result_bind].
    destruct (Z.gtb_spec (len (c :: r)) 100); [lia|]. cbn [first_byte hd]. rewrite Hc. cbn [negb].
    by apply Hscan.
Qed.

(** ** Properties *)

(** The index loops of the Docker, Composer and NuGet validators accept
    exactly the names of their grammars: words joined by single separators, where
    a Docker separator is a dot, one or two underscores or a run of dashes, a
    Composer separator is a dot, an underscore or a run of at most [m] dashes, and
    a NuGet separator is a dot or a dash (with at most 100 bytes in total). *)
Theorem name_scans_accept_grammars :
  (forall s, validateDockerPathComponent s = Ok ()
     <-> words isASCIILowercaseAlphanumeric docker_sep s)
  /\ (forall m s, validateComposerNamePart s m = Ok () <-> words isASCIIAlphanumeric (composer_sep m) s)
  /\ (forall s, validateNuGetPackageName s = Ok ()
     <-> words isNuGetPackageWord nuget_sep s /\ len s <= 100).
Proof. split_and!; [apply docker_component_ok | apply composer_part_ok | apply nuget_name_ok]. Qed.
