(* ===== verification/Dialect.v ===== *)
(** * Dialects (internal/packagepolicy/dialect.go)

    The interface [PackagePolicyDialect], its implementations and the dispatch
    on the ecosystem.  The type switches of the source are matches on the
    constructor. *)

From S2P Require Export SemVer Debian Cran NuGet Pep440 Maven Names.

Record semverDialect := {
  sd_coreMax : gostring;
  sd_normalizeName : gostring -> gostring;
  sd_validateName : option (gostring -> result unit);
  sd_normalizePrefix : option (gostring -> result gostring);
  sd_normalizeGlob : option (gostring -> result gostring);
}.

Record exactDialect := {
  ed_normalizeName : gostring -> gostring;
  ed_validateName : option (gostring -> result unit);
  ed_normalizePrefix : option (gostring -> result gostring);
  ed_normalizeGlob : option (gostring -> result gostring);
}.

Inductive PackagePolicyDialect :=
  | SemverDialect (d : semverDialect)
  | Pep440Dialect
  | MavenDialect
  | DebianDialect
  | NugetDialect (d : exactDialect)
  | ExactDialect (d : exactDialect)
  | CranDialect.

(** [if f != nil { return f(x) }] for a validator. *)
Definition optional_check (f : option (gostring -> result unit)) (x : gostring) : result unit :=
  match f with Some f => f x | None => Ok () end.

(** ** exactDialect *)

Definition exactNormalizePackageName (d : exactDialect) (name : gostring) : result gostring :=
  _ ← validatePackageNameInput name;
  _ ← optional_check (ed_validateName d) name;
  Ok (ed_normalizeName d name).

Definition exactNormalizePackagePrefix (d : exactDialect) (prefix : gostring) : result gostring :=
  match ed_normalizePrefix d with
  | Some f => f prefix
  | None => exactNormalizePackageName d prefix
  end.

Definition exactNormalizePackageGlob (d : exactDialect) (pattern : gostring) : result gostring :=
  match ed_normalizeGlob d with
  | Some f => f pattern
  | None => _ ← validatePackageGlobInput pattern; Ok (ed_normalizeName d pattern)
  end.

Definition exactValidateVersion (version : gostring) : result unit :=
  reject_if (blank_or_spaced version || has_space_or_control version)
    "exact version must be non-empty and contain no whitespace or control characters".

Definition exactCompareVersions (a b : gostring) : result Z :=
  _ ← wrap "validate left version: %w" (exactValidateVersion a);
  _ ← wrap "validate right version: %w" (exactValidateVersion b);
  Ok (strings_compare a b).

Definition exactCanonicalVersion (value : gostring) : result gostring :=
  _ ← exactValidateVersion value; Ok value.

(** ** semverDialect *)

Definition semverNormalizePackageName (d : semverDialect) (name : gostring) : result gostring :=
  _ ← validatePackageNameInput name;
  _ ← optional_check (sd_validateName d) name;
  Ok (sd_normalizeName d name).

Definition semverNormalizePackagePrefix (d : semverDialect) (prefix : gostring) : result gostring :=
  match sd_normalizePrefix d with
  | Some f => f prefix
  | None => semverNormalizePackageName d prefix
  end.

Definition semverNormalizePackageGlob (d : semverDialect) (pattern : gostring) : result gostring :=
  match sd_normalizeGlob d with
  | Some f => f pattern
  | None => _ ← validatePackageGlobInput pattern; Ok (sd_normalizeName d pattern)
  end.

Definition semverParse (d : semverDialect) (value : gostring) : result strictSemVer :=
  parseStrictSemVer value (sd_coreMax d).

Definition semverCompareVersions (d : semverDialect) (a b : gostring) : result Z :=
  l ← wrap "parse left version: %w" (semverParse d a);
  r ← wrap "parse right version: %w" (semverParse d b);
  Ok (semverCompare l r).

Definition semverCanonicalVersion (d : semverDialect) (value : gostring) : result gostring :=
  version ← semverParse d value; Ok (semverCanonical version).

Section dialects.
Context `{UnicodeTables} `{EnglishLower} `{ModulePackage}.

Definition pep440NormalizePackageName (name : gostring) : result gostring :=
  _ ← validatePyPIPackageName name; Ok (normalizePythonName name).

Definition cranNormalizePackageName (name : gostring) : result gostring :=
  _ ← validateCRANPackageName name; Ok name.

(** ** The methods of the interface *)

Definition NormalizePackageName (dialect : PackagePolicyDialect) (name : gostring) : result gostring :=
  match dialect with
  | SemverDialect d => semverNormalizePackageName d name
  | Pep440Dialect => pep440NormalizePackageName name
  | MavenDialect => mavenNormalizePackageName name
  | DebianDialect => debianNormalizePackageName name
  | NugetDialect d | ExactDialect d => exactNormalizePackageName d name
  | CranDialect => cranNormalizePackageName name
  end.

Definition canonicalVersion (dialect : PackagePolicyDialect) (value : gostring) : result gostring :=
  match dialect with
  | SemverDialect d => semverCanonicalVersion d value
  | Pep440Dialect => pep440CanonicalVersion value
  | MavenDialect => mavenCanonicalVersion value
  | DebianDialect => debianCanonicalVersion value
  | NugetDialect _ => nugetCanonicalVersion value
  | ExactDialect _ => exactCanonicalVersion value
  | CranDialect => cranCanonicalVersion value
  end.

Definition ValidateVersion (dialect : PackagePolicyDialect) (version : gostring) : result unit :=
  match dialect with
  | SemverDialect d => _ ← semverParse d version; Ok ()
  | Pep440Dialect => pep440ValidateVersion version
  | MavenDialect => mavenValidateVersion version
  | DebianDialect => _ ← parseDebianVersion version; Ok ()
  | NugetDialect _ => nugetValidateVersion version
  | ExactDialect _ => exactValidateVersion version
  | CranDialect => cranValidateVersion version
  end.

Definition CompareVersions (dialect : PackagePolicyDialect) (a b : gostring) : result Z :=
  match dialect with
  | SemverDialect d => semverCompareVersions d a b
  | Pep440Dialect => pep440CompareVersions a b
  | MavenDialect => mavenCompareVersions a b
  | DebianDialect => debianCompareVersions a b
  | NugetDialect _ => nugetCompareVersions a b
  | ExactDialect _ => exactCompareVersions a b
  | CranDialect => cranCompareVersions a b
  end.

Definition SupportsRanges (dialect : PackagePolicyDialect) : bool :=
  match dialect with
  | SemverDialect _ | DebianDialect => true
  | Pep440Dialect => pep440SupportsRanges
  | MavenDialect => mavenSupportsRanges
  | NugetDialect _ => nugetSupportsRanges
  | CranDialect => cranSupportsRanges
  | ExactDialect _ => false
  end.

(** [rangeTargetValidator]: only [pep440Dialect] implements it. *)
Definition validateRangeTarget (dialect : PackagePolicyDialect) (target : gostring) : result unit :=
  match dialect with
  | Pep440Dialect => pep440ValidateRangeTarget target
  | _ => Ok ()
  end.

(** ** Globs and prefixes *)

(** [NormalizePackageGlob]; [pep440Dialect] and [debianDialect] are the dialects
    that are no [packagePatternNormalizer]. *)
Definition NormalizePackageGlob (dialect : PackagePolicyDialect) (pattern : gostring) : result gostring :=
  match dialect with
  | SemverDialect d => semverNormalizePackageGlob d pattern
  | NugetDialect d | ExactDialect d => exactNormalizePackageGlob d pattern
  | MavenDialect => normalizeMavenPackageGlob pattern
  | CranDialect => normalizeCRANPackageGlob pattern
  | Pep440Dialect =>
    _ ← validatePackageGlobInput pattern;
    _ ← wrap "invalid PyPI package glob: %w" (validateGlobCharacters pattern (bs "._-") true);
    Ok (normalizePythonName pattern)
  | DebianDialect =>
    _ ← validatePackageGlobInput pattern;
    debianNormalizePackageName pattern
  end.

Definition normalizePackagePrefixWithFiller (dialect : PackagePolicyDialect) (prefix : gostring)
    : result gostring :=
  match NormalizePackageName dialect prefix with
  | Ok normalized => Ok normalized
  | Err _ =>
    let filler := bs "x" in
    normalized ← NormalizePackageName dialect (prefix ++ filler);
    if negb (has_suffix normalized filler)
    then fail "package prefix normalization did not preserve its safe filler"
    else Ok (trim_suffix normalized filler)
  end.

Definition normalizeDialectPackagePrefix (dialect : PackagePolicyDialect) (prefix : gostring)
    : result gostring :=
  _ ← validatePackageNameInput prefix;
  match dialect with
  | Pep440Dialect => normalizePyPIPackagePrefix prefix
  | DebianDialect => normalizePackagePrefixWithFiller dialect prefix
  | SemverDialect d => semverNormalizePackagePrefix d prefix
  | NugetDialect d | ExactDialect d => exactNormalizePackagePrefix d prefix
  | MavenDialect => normalizeMavenPackagePrefix prefix
  | CranDialect => normalizeCRANPackagePrefix prefix
  end.

(** ** The registry *)

Definition npmDialect : semverDialect :=
  {| sd_coreMax := bs "9007199254740991"; sd_normalizeName := identity;
     sd_validateName := Some validateNPMPackageName;
     sd_normalizePrefix := Some normalizeNPMPackagePrefix;
     sd_normalizeGlob := Some normalizeNPMPackageGlob |}.

Definition cargoDialect : semverDialect :=
  {| sd_coreMax := bs "18446744073709551615"; sd_normalizeName := identity;
     sd_validateName := Some validateCargoPackageName; sd_normalizePrefix := None;
     sd_normalizeGlob := Some normalizeCargoPackageGlob |}.

Definition exact_dialect normalizeName validateName normalizePrefix normalizeGlob : exactDialect :=
  {| ed_normalizeName := normalizeName; ed_validateName := Some validateName;
     ed_normalizePrefix := Some normalizePrefix; ed_normalizeGlob := Some normalizeGlob |}.

Definition normalizeEcosystemName (ecosystem : gostring) : gostring := to_lower (trim_space ecosystem).

(** The ecosystems of the registry, after [ToLower] and [TrimSpace]. *)
Definition dialects : list (gostring * PackagePolicyDialect) :=
  [ (bs "npm", SemverDialect npmDialect);
    (bs "cargo", SemverDialect cargoDialect);
    (bs "pypi", Pep440Dialect);
    (bs "maven", MavenDialect);
    (bs "apt", DebianDialect);
    (bs "nuget", NugetDialect (exact_dialect lowerASCII validateNuGetPackageName
                   normalizeNuGetPackagePrefix normalizeNuGetPackageGlob));
    (bs "composer", ExactDialect (exact_dialect to_lower validateComposerPackageName
                      normalizeComposerPackagePrefix normalizeComposerPackageGlob));
    (bs "conda", ExactDialect (exact_dialect normalizeCondaPackageName validateCondaPackageName
                   normalizeCondaPackagePrefix normalizeCondaPackageGlob));
    (bs "alpine", ExactDialect (exact_dialect identity validateAlpinePackageName
                    normalizeAlpinePackagePrefix normalizeAlpinePackageGlob));
    (bs "huggingface", ExactDialect (exact_dialect to_lower validateHuggingFacePackageName
                         normalizeHuggingFacePackagePrefix normalizeHuggingFacePackageGlob));
    (bs "docker", ExactDialect (exact_dialect identity validateDockerRemoteName
                    normalizeDockerPackagePrefix normalizeDockerPackageGlob));
    (bs "go", ExactDialect (exact_dialect identity ValidatePath
                normalizeGoModulePrefix normalizeGoModuleGlob));
    (bs "cran", CranDialect);
    (bs "rubygems", ExactDialect {| ed_normalizeName := identity; ed_validateName := None;
                      ed_normalizePrefix := None; ed_normalizeGlob := None |});
    (bs "helm", ExactDialect {| ed_normalizeName := identity; ed_validateName := None;
                  ed_normalizePrefix := None; ed_normalizeGlob := None |}) ].

Fixpoint dialect_lookup (name : gostring) (l : list (gostring * PackagePolicyDialect))
    : option PackagePolicyDialect :=
  match l with
  | [] => None
  | (n, d) :: l => if str_eqb name n then Some d else dialect_lookup name l
  end.

Definition dialectForRevision1 (ecosystem : gostring) : result PackagePolicyDialect :=
  match dialect_lookup (normalizeEcosystemName ecosystem) dialects with
  | Some d => Ok d
  | None => fail "unsupported package policy ecosystem %q"
  end.

Definition DialectFor (ecosystem : gostring) : result PackagePolicyDialect :=
  dialectForRevision1 ecosystem.

End dialects.

(** ** Normalized names are fixed points *)

Lemma words_map (f : Z -> Z) word word' sep sep' (s : gostring) :
  (forall c, word c = true -> word' (f c) = true) -> (forall p, sep p -> sep' (f <$> p)) ->
  words word sep s -> words word' sep' (f <$> s).
Proof.
  intros Hw Hs. induction 1 as [w Hne HF|w p rest Hne HF Hp Hr IH].
  - apply words_last; [by destruct w|]. apply Forall_fmap. eapply Forall_impl; [exact HF|]. apply Hw.
  - rewrite !fmap_app. apply words_cons; [by destruct w| |by apply Hs | done].
    apply Forall_fmap. eapply Forall_impl; [exact HF|]. apply Hw.
Qed.

Lemma split_fmap_lower (s : gostring) c :
  byte_lower c = c -> (forall a, byte_lower a = c -> a = c) ->
  strings_split (byte_lower <$> s) c = (fun p : gostring => byte_lower <$> p) <$> strings_split s c.
Proof.
  intros Hc Ha. induction s as [|a s IH]; [done|]. rewrite fmap_cons. cbn [strings_split].
  destruct (Z.eqb_spec a c) as [->|Hne].
  - rewrite Hc, Z.eqb_refl, IH. by rewrite fmap_cons.
  - rewrite (proj2 (Z.eqb_neq _ _)) by (intros E; by apply Hne, Ha). rewrite IH.
    by destruct (strings_split s c).
Qed.

Lemma lower_slash_only a : byte_lower a = ch "/" -> a = ch "/".
Proof. unfold byte_lower, in_range. go_chars. case_match; lia. Qed.

Lemma lower_alnum c : isASCIIAlphanumeric c = true -> isASCIIAlphanumeric (byte_lower c) = true.
Proof. unfold byte_lower. case_match; byte_tac. Qed.

Lemma fixed_lower (p : gostring) : Forall (fun c => byte_lower c = c) p -> byte_lower <$> p = p.
Proof. induction 1 as [|c p Hc HF IH]; [done|]. rewrite fmap_cons. congruence. Qed.

Lemma composer_sep_lower m (p : gostring) : composer_sep m p -> composer_sep m (byte_lower <$> p).
Proof.
  intros Hp. rewrite fixed_lower; [done|].
  destruct Hp as [->|[->|(k & -> & _)]]; [by repeat constructor..|]. by apply Forall_replicate.
Qed.

Lemma nuget_sep_lower (p : gostring) : nuget_sep p -> nuget_sep (byte_lower <$> p).
Proof. intros [->| ->]; [by left | by right]. Qed.

Lemma words_composer_graphic m s : words isASCIIAlphanumeric (composer_sep m) s -> Forall graphic s.
Proof.
  apply words_bytes; [byte_tac|]. intros p [->|[->|(k & -> & _)]];
    [simpl; forall_list; byte_tac..|]. apply Forall_replicate. byte_tac.
Qed.

Lemma composer_part_slash m s : words isASCIIAlphanumeric (composer_sep m) s -> ch "/" ∉ s.
Proof.
  intros Hw. eapply (Forall_not_elem (fun c => (c =? ch "/") = false)); [|by vm_compute]. revert Hw.
  apply words_bytes; [byte_tac|].
  intros p [->|[->|(k & -> & _)]]; [simpl; forall_list; byte_tac..|]. by apply Forall_replicate.
Qed.

Lemma exactCoordinateParts_ok value count parts :
  exactCoordinateParts value count = Ok parts <->
  parts = strings_split value (ch "/") /\ len parts = count /\ Forall (fun p => p <> []) parts.
Proof.
  unfold exactCoordinateParts.
  destruct (Z.eqb_spec (len (strings_split value (ch "/"))) count) as [Hc|Hc]; cbn [negb].
  - destruct (existsb (fun part => str_eqb part []) (strings_split value (ch "/"))) eqn:E.
    + split; [done|]. intros (-> & _ & HF). apply existsb_exists in E as (p & Hp & Hb%str_eqb_eq).
      apply list_elem_of_In in Hp. rewrite Forall_forall in HF. by destruct (HF p Hp).
    + split.
      * intros [= <-]. split_and!; [done..|]. apply Forall_forall. intros p Hp ->.
        apply not_true_iff_false in E. destruct E. apply existsb_exists. exists [].
        by rewrite <- list_elem_of_In.
      * by intros (-> & _ & _).
  - split; [done|]. by intros (-> & ? & _).
Qed.

Section fixpoints.
Context `{UnicodeTables}.

Lemma validateInput_ok s u :
  validatePackageNameInput s = Ok u <-> blank_or_spaced s || has_space_or_control s = false.
Proof. unfold validatePackageNameInput. apply reject_if_ok. Qed.

Lemma lowered_graphic s : Forall graphic s -> to_lower s = byte_lower <$> s.
Proof. intros Hg. by apply to_lower_ascii, graphic_ascii. Qed.

Lemma to_lower_idem_graphic s : Forall graphic s -> to_lower (to_lower s) = to_lower s.
Proof.
  intros Hg. rewrite (lowered_graphic s Hg), lowered_graphic by by apply lower_graphic.
  apply fmap_byte_lower_idem.
Qed.

Lemma isWindowsReservedName_lower s :
  Forall graphic s -> isWindowsReservedName (to_lower s) = isWindowsReservedName s.
Proof. intros Hg. unfold isWindowsReservedName. by rewrite to_lower_idem_graphic. Qed.

(** Composer: the two parts of an accepted name. *)
Lemma composer_name_ok name u :
  validateComposerPackageName name = Ok u <->
  exists vendor package, name = vendor ++ ch "/" :: package
    /\ words isASCIIAlphanumeric (composer_sep 1) vendor /\ words isASCIIAlphanumeric (composer_sep 2) package
    /\ isWindowsReservedName vendor = false /\ isWindowsReservedName package = false
    /\ has_suffix (to_lower package) (bs ".json") = false.
Proof.
  unfold validateComposerPackageName. split.
  - intros Hv. apply result_bind_ok in Hv as (parts & (-> & Hl & _)%exactCoordinateParts_ok & Hv).
    pose proof (join_split name (ch "/")) as Hj.
    destruct (strings_split name (ch "/")) as [|vendor [|package [|]]];
      try (unfold len in Hl; simpl in Hl; lia).
    cbn [nth] in Hv. exists vendor, package. go_inv.
    repeat match goal with Hp : validateComposerNamePart _ _ = Ok ?x |- _ =>
      destruct x; apply composer_part_ok in Hp end.
    match goal with Hr : Forall _ [_; _] |- _ => apply Forall_cons in Hr as [Hr1 [Hr2 _]%Forall_cons] end.
    rewrite reject_if_ok in Hr1, Hr2. by split_and!.
  - intros (vendor & package & -> & Hv & Hp & Rv & Rp & Hs).
    pose proof (composer_part_slash _ _ Hv) as Sv. pose proof (composer_part_slash _ _ Hp) as Sp.
    assert (Hsplit : strings_split (vendor ++ ch "/" :: package) (ch "/") = [vendor; package]).
    { rewrite split_app by done. by rewrite split_no_sep. }
    rewrite (proj2 (exactCoordinateParts_ok _ 2 [vendor; package])).
    + cbn [mbind result_bind nth]. rewrite (proj2 (composer_part_ok _ _) Hv), (proj2 (composer_part_ok _ _) Hp).
      cbn [wrap mbind result_bind for_each reject_if]. rewrite Rv, Rp. cbn [reject_if mbind result_bind].
      rewrite Hs. by destruct u.
    + rewrite Hsplit. split_and!; [done..|]. forall_list.
      * intros ->. by apply words_head in Hv as (? & ? & ? & _).
      * intros ->. by apply words_head in Hp as (? & ? & ? & _).
Qed.

Lemma composer_lower_fixed name u :
  validateComposerPackageName name = Ok u ->
  Forall graphic name /\ validateComposerPackageName (to_lower name) = Ok ().
Proof.
  intros (vendor & package & -> & Hv & Hp & Rv & Rp & Hs)%composer_name_ok.
  pose proof (words_composer_graphic _ _ Hv) as Gv. pose proof (words_composer_graphic _ _ Hp) as Gp.
  assert (Hg : Forall graphic (vendor ++ ch "/" :: package)).
  { apply Forall_app_2; [done|]. constructor; [byte_tac | done]. }
  split; [done|]. rewrite lowered_graphic by done. rewrite fmap_app, fmap_cons.
  apply composer_name_ok. exists (byte_lower <$> vendor), (byte_lower <$> package). split_and!.
  - done.
  - eapply words_map; [apply lower_alnum | apply composer_sep_lower | exact Hv].
  - eapply words_map; [apply lower_alnum | apply composer_sep_lower | exact Hp].
  - rewrite <- lowered_graphic by done. by rewrite isWindowsReservedName_lower.
  - rewrite <- lowered_graphic by done. by rewrite isWindowsReservedName_lower.
  - rewrite <- lowered_graphic by done. by rewrite to_lower_idem_graphic.
Qed.

(** Conda: the channel and the package of an accepted name. *)
Lemma split_last_slash a b : ch "/" ∉ b -> strings_split (a ++ ch "/" :: b) (ch "/") = strings_split a (ch "/") ++ [b].
Proof.
  intros Hb. induction a as [|c a IH].
  - simpl. by rewrite split_no_sep.
  - cbn [strings_split app]. destruct (c =? ch "/"); rewrite IH; [done|].
    pose proof (split_nonempty a (ch "/")). by destruct (strings_split a (ch "/")).
Qed.

Lemma after_last_slash_app a b :
  ch "/" ∉ b -> after_last_slash (a ++ ch "/" :: b) = (a ++ [ch "/"], b).
Proof.
  intros Hb. unfold after_last_slash. rewrite last_index_byte_app by done.
  replace (a ++ ch "/" :: b) with ((a ++ [ch "/"]) ++ b) by by rewrite <- (assoc_L app).
  assert (Hl : S (length a) = length (a ++ [ch "/"])) by (rewrite length_app; simpl; lia).
  by rewrite Hl, take_app_length, drop_app_length.
Qed.

Lemma all_bytes_ok f s format u : all_bytes f s format = Ok u <-> Forall (fun c => f c = true) s.
Proof.
  unfold all_bytes. apply for_each_spec. intros c. rewrite reject_if_ok. by destruct (f c).
Qed.

Lemma pypi_byte_lower c : pypi_byte c = true -> pypi_byte (byte_lower c) = true.
Proof. unfold pypi_byte, mem, byte_lower. simpl. case_match; byte_tac. Qed.

Lemma pypi_bytes_graphic s : Forall (fun c => pypi_byte c = true) s -> Forall graphic s.
Proof. intros HF. eapply Forall_impl; [exact HF|]. unfold pypi_byte, mem. simpl. intros c. byte_tac. Qed.

Lemma lower_alnum_eq c : isASCIIAlphanumeric (byte_lower c) = isASCIIAlphanumeric c.
Proof. unfold byte_lower. case_match; byte_tac. Qed.

Lemma last_byte_lower s : s <> [] -> last_byte (byte_lower <$> s) = byte_lower (last_byte s).
Proof.
  intros Hne. destruct (exists_last Hne) as (t & c & ->). unfold last_byte.
  rewrite fmap_app. change (byte_lower <$> [c]) with [byte_lower c]. by rewrite !last_last.
Qed.

Lemma lower_is_dots s (w : gostring) :
  Forall (fun c => c = ch ".") w -> byte_lower <$> s = w -> s = w.
Proof.
  intros HF; revert s; induction HF as [|c w -> HF IH]; intros [|a s]; try done.
  rewrite fmap_cons. intros [= Ha Hs]. f_equal; [|by apply IH].
  unfold byte_lower, in_range in Ha. go_chars. revert Ha. case_match; lia.
Qed.

Lemma conda_part_lower s :
  validateCondaNamePart s = Ok () ->
  validateCondaNamePart (to_lower s) = Ok () /\ Forall (fun c => pypi_byte c = true) s.
Proof.
  unfold validateCondaNamePart. intros Hv.
  destruct (str_eqb s [] || str_eqb s (bs ".") || str_eqb s (bs "..")) eqn:E; [done|].
  destruct (negb (isASCIIAlphanumeric (first_byte s)) && negb (first_byte s =? ch "_")) eqn:E1; [done|].
  destruct (negb (isASCIIAlphanumeric (last_byte s))) eqn:E2; [done|].
  apply all_bytes_ok in Hv. split; [|done]. rewrite lowered_graphic by by apply pypi_bytes_graphic.
  assert (Hne : s <> []) by (intros ->; by rewrite str_eqb_refl in E).
  assert (Hd : str_eqb (byte_lower <$> s) [] || str_eqb (byte_lower <$> s) (bs ".")
               || str_eqb (byte_lower <$> s) (bs "..") = false).
  { apply orb_false_iff in E as [[_ Ed1]%orb_false_iff Ed2]. apply str_eqb_neq in Ed1, Ed2.
    apply orb_false_iff; split; [apply orb_false_iff; split|]; apply str_eqb_neq; [by destruct s| |];
      intros Hw; apply lower_is_dots in Hw; try done; by repeat constructor. }
  rewrite Hd, last_byte_lower, lower_alnum_eq, E2 by done.
  assert (Hf : first_byte (byte_lower <$> s) = byte_lower (first_byte s)) by by destruct s.
  rewrite Hf, lower_alnum_eq.
  assert (Hu : (byte_lower (first_byte s) =? ch "_") = (first_byte s =? ch "_")).
  { unfold byte_lower, in_range. go_chars. case_match; lia. }
  rewrite Hu, E1. apply all_bytes_ok, Forall_fmap. eapply Forall_impl; [exact Hv|].
  intros c. apply pypi_byte_lower.
Qed.

Lemma conda_name_split name :
  2 <= len (strings_split name (ch "/")) ->
  exists a b, name = a ++ ch "/" :: b /\ ch "/" ∉ b.
Proof.
  intros Hl. destruct (last_index_byte name (ch "/")) as [i|] eqn:E.
  - apply last_index_byte_Some in E as [Hn Hi]. eauto.
  - apply last_index_byte_None in E. rewrite split_no_sep in Hl by done. unfold len in Hl. simpl in Hl. lia.
Qed.

Lemma validateConda_app a b :
  ch "/" ∉ b ->
  validateCondaPackageName (a ++ ch "/" :: b) = Ok () <->
  Forall (fun p => validateCondaChannel p = Ok ()) (strings_split a (ch "/"))
  /\ validateCondaNamePart b = Ok ().
Proof.
  intros Hb. unfold validateCondaPackageName. rewrite split_last_slash by done.
  assert (Hl : len (strings_split a (ch "/") ++ [b]) <? 2 = false).
  { unfold len. rewrite length_app. pose proof (split_nonempty a (ch "/")).
    destruct (strings_split a (ch "/")); [done|]. apply Z.ltb_ge. cbn [length]. lia. }
  rewrite Hl, removelast_last, last_last. split.
  - intros Hv. apply result_bind_ok in Hv as ([] & Hc%for_each_ok & Hp%wrap_ok). split; [|done].
    eapply Forall_impl; [exact Hc|]. intros p. apply wrap_ok.
  - intros [Hc Hp]. apply result_bind_ok. exists (). rewrite for_each_ok, Hp. split; [|done].
    eapply Forall_impl; [exact Hc|]. intros p. apply wrap_ok.
Qed.

Lemma conda_lower_fixed name :
  validateCondaPackageName name = Ok () ->
  validateCondaPackageName (normalizeCondaPackageName name) = Ok ()
  /\ normalizeCondaPackageName (normalizeCondaPackageName name) = normalizeCondaPackageName name.
Proof.
  intros Hv. assert (Hl : 2 <= len (strings_split name (ch "/"))).
  { unfold validateCondaPackageName in Hv. destruct (Z.ltb_spec (len (strings_split name (ch "/"))) 2); [done | lia]. }
  destruct (conda_name_split name Hl) as (a & b & -> & Hb). apply validateConda_app in Hv as [Hc Hp]; [|done].
  destruct (conda_part_lower b Hp) as [Hp' Hbytes].
  assert (Hg : Forall graphic b) by by apply pypi_bytes_graphic.
  assert (Hb' : ch "/" ∉ to_lower b).
  { rewrite lowered_graphic by done. intros (c & Hcl & Hin)%list_elem_of_fmap.
    symmetry in Hcl. apply lower_slash_only in Hcl as ->. done. }
  unfold normalizeCondaPackageName. rewrite after_last_slash_app by done.
  replace ((a ++ [ch "/"]) ++ to_lower b) with (a ++ ch "/" :: to_lower b) by by rewrite <- (assoc_L app).
  rewrite after_last_slash_app by done. rewrite to_lower_idem_graphic by done. split.
  - by apply validateConda_app.
  - by rewrite <- (assoc_L app).
Qed.

(** Python: a normalized name is words of lower-case letters and digits joined by
    single dashes. *)
Definition dash_sep (p : gostring) : Prop := p = bs "-".
Abbreviation python_words := (words isASCIILowercaseAlphanumeric dash_sep).

Lemma dash_sep_proper : proper_separators isASCIILowercaseAlphanumeric dash_sep.
Proof. intros p ->. split; [done|]. simpl. by forall_list. Qed.

Definition python_separator (c : Z) : bool := (c =? ch "-") || (c =? ch "_") || (c =? ch ".").

Lemma python_loop_step c cs b :
  ascii_byte c ->
  python_loop (c :: cs) b
  = if python_separator c then python_loop cs true
    else (if b then bs "-" else []) ++ c :: python_loop cs false.
Proof.
  intros Hc. cbn [python_loop]. unfold python_separator. case_match; [done|]. f_equal.
  replace (utf8_encode c) with [c]; [done|]. symmetry.
  rewrite <- (app_nil_r (utf8_encode c)). apply (of_runes_ascii [c]). by apply Forall_singleton.
Qed.

Definition python_char (c : Z) : Prop :=
  isASCIILowercaseAlphanumeric c = true \/ python_separator c = true.

Lemma python_char_ascii c : python_char c -> ascii_byte c.
Proof. unfold python_char, python_separator. byte_tac. Qed.

Lemma python_word_no_sep c : isASCIILowercaseAlphanumeric c = true -> python_separator c = false.
Proof. unfold python_separator. byte_tac. Qed.

Lemma python_loop_words cs :
  cs <> [] -> Forall python_char cs -> isASCIILowercaseAlphanumeric (last_byte cs) = true ->
  exists w, python_words w /\ python_loop cs true = bs "-" ++ w
    /\ (python_loop cs false = w \/ python_loop cs false = bs "-" ++ w)
    /\ (isASCIILowercaseAlphanumeric (first_byte cs) = true -> python_loop cs false = w).
Proof.
  intros Hne HF; revert Hne; induction HF as [|c cs Hc HF IH]; [done|]. intros _ Hlast.
  rewrite !python_loop_step by by apply python_char_ascii. cbn [first_byte hd].
  destruct cs as [|d cs].
  - unfold last_byte in Hlast. simpl in Hlast. rewrite (python_word_no_sep c Hlast).
    exists [c]. split_and!; [by apply words_single | done | by left | done].
  - destruct IH as (w & Hw & Ht & Hf & _); [done | exact Hlast|].
    destruct (python_separator c) eqn:Es.
    + exists w. rewrite Ht. split_and!; [done | done | by right|].
      intros Hcw%python_word_no_sep. congruence.
    + destruct Hc as [Hc|Hc]; [|congruence].
      assert (Hcw : python_words (c :: python_loop (d :: cs) false)).
      { destruct Hf as [->| ->]; [by apply words_word|].
        apply (words_cons _ _ [c] (bs "-")); [done | by apply Forall_singleton | done..]. }
      eexists. split_and!; [exact Hcw | done | by left | done].
Qed.

Lemma python_loop_word w rest :
  Forall (fun c => isASCIILowercaseAlphanumeric c = true) w ->
  python_loop (w ++ rest) false = w ++ python_loop rest false.
Proof.
  induction 1 as [|c w Hc HF IH]; [done|]. cbn [app]. rewrite python_loop_step.
  - by rewrite (python_word_no_sep c Hc), IH.
  - apply python_char_ascii. by left.
Qed.

Lemma python_loop_fixed w : python_words w -> python_loop w false = w.
Proof.
  induction 1 as [w Hne HF|w p rest Hne HF -> Hr IH].
  - rewrite <- (app_nil_r w) at 1. rewrite python_loop_word by done. apply app_nil_r.
  - rewrite python_loop_word by done. f_equal. cbn [app bs]. rewrite python_loop_step by byte_tac.
    change (python_separator (ch "-")) with true. cbv iota.
    destruct (words_head _ _ _ Hr) as (c & r & -> & Hc).
    assert (Ha : ascii_byte c) by (apply python_char_ascii; by left).
    rewrite python_loop_step in IH |- * by done. rewrite (python_word_no_sep c Hc) in IH |- *.
    cbn [app bs] in *. by rewrite IH.
Qed.

Lemma python_words_bytes w : python_words w -> Forall (fun c => pypi_byte c = true /\ byte_lower c = c) w.
Proof.
  apply words_bytes.
  - intros c Hc. unfold pypi_byte, mem, byte_lower. simpl. split; [byte_tac|]. case_match; byte_tac.
  - intros p ->. simpl. by forall_list.
Qed.

Lemma lowercase_alnum c : isASCIILowercaseAlphanumeric c = true -> isASCIIAlphanumeric c = true.
Proof. byte_tac. Qed.

Lemma pypi_name_ok s :
  validatePyPIPackageName s = Ok () <->
  s <> [] /\ Forall (fun c => pypi_byte c = true) s
  /\ isASCIIAlphanumeric (first_byte s) = true /\ isASCIIAlphanumeric (last_byte s) = true.
Proof.
  unfold validatePyPIPackageName. split.
  - intros Hv. apply result_bind_ok in Hv as (u & Hi%validateInput_ok & Hv).
    apply result_bind_ok in Hv as (u2 & Hb%all_bytes_ok & Hv%reject_if_ok).
    apply orb_false_iff in Hv as [H1%negb_false_iff H2%negb_false_iff]. split_and!; [by intros ->|done..].
  - intros (Hne & Hb & H1 & H2).
    rewrite validatePackageNameInput_graphic by (done || by apply pypi_bytes_graphic).
    cbn [mbind result_bind]. rewrite (proj2 (all_bytes_ok _ _ _ ()) Hb). cbn [mbind result_bind].
    by rewrite H1, H2.
Qed.

Lemma pypi_normalize_words s :
  validatePyPIPackageName s = Ok () -> python_words (normalizePythonName s).
Proof.
  intros (Hne & Hb & Hf & Hl)%pypi_name_ok. unfold normalizePythonName.
  assert (Hg : Forall graphic s) by by apply pypi_bytes_graphic.
  rewrite lowered_graphic, runes_ascii by (done || by apply graphic_ascii, lower_graphic).
  destruct (python_loop_words (byte_lower <$> s)) as (w & Hw & _ & _ & Hfirst).
  - by destruct s.
  - apply Forall_fmap. eapply Forall_impl; [exact Hb|]. intros c.
    unfold pypi_byte, mem, python_char, python_separator, byte_lower. simpl. case_match; byte_tac.
  - rewrite last_byte_lower by done. revert Hl. unfold byte_lower. case_match; byte_tac.
  - rewrite Hfirst; [done|]. destruct s as [|c s]; [done|]. revert Hf. cbn [first_byte hd fmap list_fmap].
    unfold byte_lower. case_match; byte_tac.
Qed.

Lemma python_words_fixed w :
  python_words w -> validatePyPIPackageName w = Ok () /\ normalizePythonName w = w.
Proof.
  intros Hw. pose proof (python_words_bytes w Hw) as Hb.
  assert (Hp : Forall (fun c => pypi_byte c = true) w) by (eapply Forall_impl; [exact Hb | by intros c [? _]]).
  assert (Hg : Forall graphic w) by by apply pypi_bytes_graphic. split.
  - apply pypi_name_ok. split_and!; [|done| |].
    + intros ->. by apply words_head in Hw as (? & ? & ? & _).
    + destruct (words_head _ _ _ Hw) as (c & r & -> & Hc). by apply lowercase_alnum.
    + apply words_last_byte in Hw. by apply lowercase_alnum.
  - unfold normalizePythonName. rewrite lowered_graphic by done.
    rewrite fixed_lower by (eapply Forall_impl; [exact Hb | by intros c [_ ?]]).
    rewrite runes_ascii by by apply graphic_ascii. by apply python_loop_fixed.
Qed.

Lemma nuget_lower_fixed s :
  validateNuGetPackageName s = Ok () -> validateNuGetPackageName (lowerASCII s) = Ok ().
Proof.
  rewrite !nuget_name_ok. intros [Hw Hl]. split.
  - eapply words_map; [| apply nuget_sep_lower | exact Hw].
    intros c. unfold isNuGetPackageWord, byte_lower. case_match; byte_tac.
  - unfold len, lowerASCII in *. by rewrite length_fmap.
Qed.
End fixpoints.

(** ** Fixed points for every ecosystem *)

Section name_properties.
Context `{UnicodeTables} `{EnglishLower} `{ModulePackage}.

Definition name_fixed (d : PackagePolicyDialect) : Prop :=
  forall name normalized,
    NormalizePackageName d name = Ok normalized -> NormalizePackageName d normalized = Ok normalized.

Lemma dialect_lookup_elem name l d : dialect_lookup name l = Some d -> (name, d) ∈ l.
Proof.
  induction l as [|[n e] l IH]; simpl; [done|]. destruct (str_eqb name n) eqn:E.
  - apply str_eqb_eq in E as ->. intros [= ->]. constructor.
  - intros Hl%IH. by constructor.
Qed.

(** A dialect that returns the name unchanged. *)
Lemma exact_identity_fixed d : ed_normalizeName d = identity -> name_fixed (ExactDialect d).
Proof.
  intros Hd name normalized Hn. assert (normalized = name) as ->; [|done].
  unfold NormalizePackageName, exactNormalizePackageName in Hn. go_inv. by rewrite Hd.
Qed.

Lemma semver_identity_fixed d : sd_normalizeName d = identity -> name_fixed (SemverDialect d).
Proof.
  intros Hd name normalized Hn. assert (normalized = name) as ->; [|done].
  unfold NormalizePackageName, semverNormalizePackageName in Hn. go_inv. by rewrite Hd.
Qed.

(** A dialect whose normal form is accepted and is its own normal form. *)
Lemma exact_fixed f validate prefix glob :
  (forall name, validatePackageNameInput name = Ok () -> validate name = Ok () ->
     validatePackageNameInput (f name) = Ok () /\ validate (f name) = Ok () /\ f (f name) = f name) ->
  name_fixed (ExactDialect (exact_dialect f validate prefix glob))
  /\ name_fixed (NugetDialect (exact_dialect f validate prefix glob)).
Proof.
  intros Hf. assert (Hx : name_fixed (ExactDialect (exact_dialect f validate prefix glob))); [|done].
  intros name normalized Hn. unfold NormalizePackageName, exactNormalizePackageName, exact_dialect in *.
  cbn [ed_validateName ed_normalizeName optional_check] in *.
  apply result_bind_ok in Hn as ([] & Hi & Hn). apply result_bind_ok in Hn as ([] & Hv & [= <-]).
  destruct (Hf name Hi Hv) as (Hi' & Hv' & Hfix). rewrite Hi'. cbn [mbind result_bind].
  rewrite Hv'. cbn [mbind result_bind]. by rewrite Hfix.
Qed.

Lemma composer_fixed name :
  validatePackageNameInput name = Ok () -> validateComposerPackageName name = Ok () ->
  validatePackageNameInput (to_lower name) = Ok () /\ validateComposerPackageName (to_lower name) = Ok ()
  /\ to_lower (to_lower name) = to_lower name.
Proof.
  intros Hi Hv. destruct (composer_lower_fixed name () Hv) as [Hg Hl]. split_and!; [|done|].
  - rewrite lowered_graphic by done. apply validatePackageNameInput_graphic; [|by apply lower_graphic].
    intros E. destruct name; [done|]. done.
  - by apply to_lower_idem_graphic.
Qed.

Lemma simple_name_bytes p punct tr up :
  validateSimpleASCIIName p punct tr up = Ok () ->
  p <> [] /\ Forall (fun c => isASCIIAlphanumeric c = true \/ mem c punct = true) p.
Proof.
  unfold validateSimpleASCIIName. intros Hv.
  destruct (_ || negb (isASCIIAlphanumeric (first_byte p))) eqn:E; [done|].
  destruct (negb tr && _); [done|]. split.
  - intros ->. by rewrite str_eqb_refl in E.
  - apply for_each_ok in Hv. eapply Forall_impl; [exact Hv|]. intros c Hc. simpl in Hc.
    destruct (isASCIIAlphanumeric c); [by left|]. apply reject_if_ok in Hc. right.
    by apply negb_false_iff.
Qed.

Lemma conda_graphic name : validateCondaPackageName name = Ok () -> Forall graphic name.
Proof.
  intros Hv. assert (Hl : 2 <= len (strings_split name (ch "/"))).
  { unfold validateCondaPackageName in Hv. destruct (Z.ltb_spec (len (strings_split name (ch "/"))) 2); [done | lia]. }
  destruct (conda_name_split name Hl) as (a & b & -> & Hb). apply validateConda_app in Hv as [Hc Hp]; [|done].
  apply conda_part_lower in Hp as [_ Hp]. apply Forall_app_2.
  - rewrite <- (join_split a (ch "/")). apply Forall_strings_join; [byte_tac|].
    eapply Forall_impl; [exact Hc|]. intros p [_ HF]%simple_name_bytes.
    eapply Forall_impl; [exact HF|]. unfold mem. simpl. intros c. byte_tac.
  - constructor; [byte_tac | by apply pypi_bytes_graphic].
Qed.

Lemma conda_fixed name :
  validatePackageNameInput name = Ok () -> validateCondaPackageName name = Ok () ->
  validatePackageNameInput (normalizeCondaPackageName name) = Ok ()
  /\ validateCondaPackageName (normalizeCondaPackageName name) = Ok ()
  /\ normalizeCondaPackageName (normalizeCondaPackageName name) = normalizeCondaPackageName name.
Proof.
  intros _ Hv. destruct (conda_lower_fixed name Hv) as [Hv' Hf]. split_and!; [|done..].
  apply validatePackageNameInput_graphic; [|by apply conda_graphic]. intros E. by rewrite E in Hv'.
Qed.

Lemma nuget_fixed name :
  validatePackageNameInput name = Ok () -> validateNuGetPackageName name = Ok () ->
  validatePackageNameInput (lowerASCII name) = Ok () /\ validateNuGetPackageName (lowerASCII name) = Ok ()
  /\ lowerASCII (lowerASCII name) = lowerASCII name.
Proof.
  intros _ Hv. apply nuget_lower_fixed in Hv. split_and!; [|done | apply lowerASCII_idem].
  unfold validateNuGetPackageName in Hv. by apply result_bind_ok in Hv as ([] & ? & _).
Qed.

Lemma dialects_fixed :
  Forall (fun p => p.1 <> bs "huggingface" -> name_fixed p.2) dialects.
Proof.
  unfold dialects. forall_list; cbn [fst snd]; intros Hne;
    try by (apply exact_identity_fixed || apply semver_identity_fixed).
  - intros name n Hn. unfold NormalizePackageName, pep440NormalizePackageName in *.
    apply result_bind_ok in Hn as ([] & Hv & [= <-]). apply pypi_normalize_words in Hv.
    destruct (python_words_fixed _ Hv) as [Hv' Hf]. by rewrite Hv', <- Hf at 1.
  - intros name n Hn. assert (n = name) as ->; [|done].
    unfold NormalizePackageName, mavenNormalizePackageName in Hn. by go_inv.
  - intros name n Hn. assert (n = name) as ->; [|done].
    unfold NormalizePackageName, debianNormalizePackageName in Hn. by go_inv.
  - apply exact_fixed, nuget_fixed.
  - apply exact_fixed, composer_fixed.
  - apply exact_fixed, conda_fixed.
  - intros name n Hn. assert (n = name) as ->; [|done].
    unfold NormalizePackageName, cranNormalizePackageName in Hn. by go_inv.
Qed.

(** ** Properties *)

(** For every ecosystem but Hugging Face, a normalized package name is
    accepted and is its own normal form, so a name has one identity however often
    it is normalized (rules are normalized when stored, requests when served). *)
Theorem NormalizePackageName_idempotent ecosystem d name normalized :
  dialectForRevision1 ecosystem = Ok d ->
  normalizeEcosystemName ecosystem <> bs "huggingface" ->
  NormalizePackageName d name = Ok normalized ->
  NormalizePackageName d normalized = Ok normalized.
Proof.
  unfold dialectForRevision1. intros Hd Hne Hn.
  destruct (dialect_lookup (normalizeEcosystemName ecosystem) dialects) as [e|] eqn:E; [|done].
  injection Hd as ->. apply dialect_lookup_elem in E.
  pose proof dialects_fixed as HF. rewrite Forall_forall in HF. by eapply (HF _ E).
Qed.
End name_properties.

Lemma NormalizePackageName_idempotent_witness :
  NormalizePackageName (H := ascii_tables) Pep440Dialect (bs "foo-bar") = Ok (bs "foo-bar").
Proof.
  apply (NormalizePackageName_idempotent (H := ascii_tables) (H1 := permissive_modules)
    (bs " PyPI") Pep440Dialect (bs "Foo_.Bar")); vm_compute; done.
Defined.
