(* ===== verification/Rule.v ===== *)
(** * Package rules and version selectors (internal/packagepolicy: rule.go,
    matcher.go, action.go, capability.go; internal/ecosystem/catalog.go)

    Preparation of an operator's rule, the compiled version matchers and the
    catalog of ecosystems. *)

From S2P Require Export Dialect.

(** ** Errors and bounds *)

Definition ErrInvalidRule : error := Sentinel "invalid package rule".
Definition ErrRangesUnsupported : error :=
  Sentinel "version ranges are not supported for this ecosystem".
Definition ErrVersionSelectorsUnsupported : error :=
  Sentinel "version selectors cannot be enforced for this ecosystem".

Definition DialectRevision1 : Z := 1.
Definition CurrentDialectRevision : Z := DialectRevision1.
Definition maxEcosystemLength : Z := 16.
Definition maxPackageLength : Z := 256.
Definition maxVersionLength : Z := 128.

(** [fmt.Errorf("%w: ...", ErrInvalidRule)] *)
Definition invalid_rule {A} (format : string) : result A := Err (Errorf format [ErrInvalidRule]).

Record RawRule := {
  raw_Ecosystem : gostring;
  raw_PackageName : gostring;
  raw_Version : gostring;
}.

Record PreparedRule := {
  pr_Ecosystem : gostring;
  pr_PackageName : gostring;
  pr_Version : gostring;
  pr_NormalizedPackageName : gostring;
  pr_NormalizedVersion : gostring;
  pr_DialectRevision : Z;
}.

(** ** Capabilities (capability.go) *)

Inductive PolicyVersionCapability :=
  | PolicyVersionsPackageOnly
  | PolicyVersionsExactOnly
  | PolicyVersionsRanges.

(** Membership in the labels of a [case]. *)
Definition one_of (value : gostring) (labels : list gostring) : bool := existsb (str_eqb value) labels.

Definition star : gostring := bs "*".

Definition ruleEnforcementRevision1 (ecosystemName : gostring) : bool :=
  one_of ecosystemName
    [bs "pypi"; bs "apt"; bs "npm"; bs "go"; bs "cargo"; bs "maven"; bs "composer"; bs "nuget";
     bs "conda"; bs "cran"; bs "alpine"].

(** [for _, operator := range {"<=", ">=", "<", ">"}] *)
Definition comparison_operators : list gostring := [bs "<="; bs ">="; bs "<"; bs ">"].

Definition splitComparison (value : gostring) : gostring * gostring :=
  match find (has_prefix value) comparison_operators with
  | Some operator => (operator, trim_space (drop (length operator) value))
  | None => ([], value)
  end.

Definition containsControl (value : gostring) : bool := contains_func is_control value.

Section rules.
Context `{UnicodeTables} `{EnglishLower} `{ModulePackage}.

Definition versionCapabilityForRevision1 (ecosystem : gostring) : result PolicyVersionCapability :=
  let normalized := normalizeEcosystemName ecosystem in
  if one_of normalized [bs "apt"; bs "composer"; bs "rubygems"] then Ok PolicyVersionsPackageOnly
  else if one_of normalized [bs "cargo"; bs "npm"; bs "pypi"] then Ok PolicyVersionsRanges
  else if one_of normalized [bs "maven"; bs "go"; bs "nuget"; bs "conda"; bs "cran"; bs "alpine";
                             bs "huggingface"; bs "docker"; bs "helm"] then Ok PolicyVersionsExactOnly
  else _ ← dialectForRevision1 normalized; Ok PolicyVersionsPackageOnly.

(** ** Actions (action.go) *)

Definition NormalizeRuleAction (action : gostring) : result gostring :=
  let normalized := to_lower (trim_space action) in
  if negb (str_eqb normalized (bs "allow")) && negb (str_eqb normalized (bs "deny"))
  then invalid_rule "%w: action %q must be allow or deny" else Ok normalized.

(** ** Preparation (rule.go) *)

Definition out_of_bounds (value : gostring) (maximum : Z) : bool :=
  str_eqb value [] || (len value >? maximum) || containsControl value.

Definition validateRawRuleBounds (ecosystem packageName version : gostring) : result unit :=
  if out_of_bounds ecosystem maxEcosystemLength
  then invalid_rule "%w: ecosystem must be non-empty, at most %d characters, and contain no control characters" else
  if out_of_bounds packageName maxPackageLength
  then invalid_rule "%w: package name must be non-empty, at most %d characters, and contain no control characters" else
  if out_of_bounds version maxVersionLength
  then invalid_rule "%w: version must be non-empty, at most %d characters, and contain no control characters" else
  Ok ().

Definition normalizePackageSelector (dialect : PackagePolicyDialect) (selector : gostring) : result gostring :=
  if str_eqb selector star then Ok selector else
  if (1 <? count_byte selector (ch "*"))%nat || (mem (ch "*") selector && negb (has_suffix selector star))
  then fail "package selector supports only an exact name, *, or one trailing prefix wildcard" else
  let prefix := has_suffix selector star in
  let name := trim_suffix selector star in
  if str_eqb name [] then fail "package prefix is empty" else
  normalized ← (if prefix then normalizeDialectPackagePrefix dialect name else NormalizePackageName dialect name);
  if len normalized >? maxPackageLength then fail "normalized package selector exceeds %d characters" else
  if prefix then
    if len normalized =? maxPackageLength
    then fail "normalized package prefix exceeds %d characters with wildcard"
    else Ok (normalized ++ star)
  else Ok normalized.

Definition normalizeVersionSelector (dialect : PackagePolicyDialect) (selector : gostring) : result gostring :=
  if str_eqb selector star then Ok selector else
  if mem (ch "*") selector then invalid_rule "%w: * is valid only as the complete version wildcard" else
  let '(operator, target) := splitComparison selector in
  if str_eqb operator [] then
    if has_prefix selector (bs "=") || has_prefix selector (bs "!") || has_prefix selector (bs "~")
       || contains_any selector (bs "<>") || contains_func is_space selector
    then invalid_rule "%w: version must be an exact version or one of <, <=, >, >=" else
    recast "%w: invalid exact version %q: %v" [ErrInvalidRule] (canonicalVersion dialect selector)
  else
  if negb (SupportsRanges dialect) then Err (Errorf "%w: %w" [ErrInvalidRule; ErrRangesUnsupported]) else
  if str_eqb target [] then invalid_rule "%w: version comparison requires a target" else
  if contains_any target (bs "<>") || contains_func is_space target
  then invalid_rule "%w: version comparison must contain exactly one operator and one version" else
  _ ← recast "%w: invalid version comparison target %q: %v" [ErrInvalidRule] (validateRangeTarget dialect target);
  canonical ← recast "%w: invalid version comparison target %q: %v" [ErrInvalidRule]
                (canonicalVersion dialect target);
  Ok (operator ++ bs " " ++ canonical).

Definition is_package_only (capability : PolicyVersionCapability) : bool :=
  match capability with PolicyVersionsPackageOnly => true | _ => false end.

Definition PrepareRuleRevision1 (raw : RawRule) : result PreparedRule :=
  let ecosystem := to_lower (trim_space (raw_Ecosystem raw)) in
  let packageName := trim_space (raw_PackageName raw) in
  let version := trim_space (raw_Version raw) in
  let version := if str_eqb version [] then star else version in
  let prepared normalizedPackage normalizedVersion :=
    {| pr_Ecosystem := ecosystem; pr_PackageName := packageName; pr_Version := version;
       pr_NormalizedPackageName := normalizedPackage; pr_NormalizedVersion := normalizedVersion;
       pr_DialectRevision := DialectRevision1 |} in
  _ ← validateRawRuleBounds ecosystem packageName version;
  if str_eqb ecosystem star then
    if negb (str_eqb packageName star) || negb (str_eqb version star)
    then invalid_rule "%w: wildcard ecosystem is valid only for the */*/* rule across supported Package Rule ecosystems"
    else Ok (prepared star star)
  else
  if negb (ruleEnforcementRevision1 ecosystem)
  then invalid_rule "%w: unsupported package rule ecosystem %q" else
  dialect ← recast "%w: %v" [ErrInvalidRule] (dialectForRevision1 ecosystem);
  normalizedPackage ← recast "%w: normalize package selector: %v" [ErrInvalidRule]
                        (normalizePackageSelector dialect packageName);
  capability ← recast "%w: determine version capability: %v" [ErrInvalidRule]
                 (versionCapabilityForRevision1 ecosystem);
  if is_package_only capability && negb (str_eqb version star)
  then Err (Errorf "%w: %w" [ErrInvalidRule; ErrVersionSelectorsUnsupported]) else
  normalizedVersion ← normalizeVersionSelector dialect version;
  Ok (prepared normalizedPackage normalizedVersion).

Definition PrepareRule (raw : RawRule) : result PreparedRule :=
  if CurrentDialectRevision =? DialectRevision1 then PrepareRuleRevision1 raw
  else invalid_rule "%w: unsupported current dialect revision %d".

Definition NormalizeVersion (ecosystem value : gostring) : result gostring :=
  dialect ← DialectFor (normalizeEcosystemName ecosystem);
  canonicalVersion dialect value.

(** ** Matchers (matcher.go) *)

Inductive VersionMatcher :=
  | anyVersionMatcher
  | exactVersionMatcher (dialect : PackagePolicyDialect) (target : gostring)
  | semverComparisonMatcher (dialect : semverDialect) (operator : gostring) (target : strictSemVer)
  | comparisonVersionMatcher (dialect : PackagePolicyDialect) (operator target : gostring)
  | pep440ComparisonMatcher (operator : gostring) (target : pep440Version).

Definition CompileVersionMatcher (ecosystem selector : gostring) : result VersionMatcher :=
  dialect ← DialectFor ecosystem;
  normalized ← normalizeVersionSelector dialect selector;
  if str_eqb normalized star then Ok anyVersionMatcher else
  let '(operator, target) := splitComparison normalized in
  if str_eqb operator [] then Ok (exactVersionMatcher dialect normalized) else
  match dialect with
  | Pep440Dialect =>
    parsedTarget ← wrap "compile PyPI version comparison: %w" (parsePEP440Version target);
    Ok (pep440ComparisonMatcher operator parsedTarget)
  | SemverDialect d =>
    parsedTarget ← wrap "compile %s version comparison: %w" (semverParse d target);
    Ok (semverComparisonMatcher d operator parsedTarget)
  | _ => Ok (comparisonVersionMatcher dialect operator target)
  end.

(** [switch operator] over a comparison result; [None] is an operator no case
    names. *)
Definition operator_holds (operator : gostring) (comparison : Z) : option bool :=
  if str_eqb operator (bs "<") then Some (comparison <? 0)
  else if str_eqb operator (bs "<=") then Some (comparison <=? 0)
  else if str_eqb operator (bs ">") then Some (comparison >? 0)
  else if str_eqb operator (bs ">=") then Some (comparison >=? 0)
  else None.

(** A version that an ordered SemVer requirement does not consider. *)
Definition semver_ineligible (parsed target : strictSemVer) : bool :=
  hasPrerelease parsed && (negb (hasPrerelease target) || negb (compareCore parsed target =? 0)).

Definition semver_match (operator : gostring) (target parsed : strictSemVer) : result bool :=
  if semver_ineligible parsed target then Ok false else
  match operator_holds operator (semverCompare parsed target) with
  | Some matched => Ok matched
  | None => fail "unsupported SemVer comparison operator %q"
  end.

Definition pep440_match (operator : gostring) (target version : pep440Version) : result bool :=
  let comparisonVersion :=
    if str_eqb operator (bs "<=") || str_eqb operator (bs ">=") then withoutLocal version else version in
  let comparison := comparePEP440Versions comparisonVersion target in
  if str_eqb operator (bs "<") then
    if comparison >=? 0 then Ok false else
    if negb (isPrerelease target) && isPrerelease version
       && (comparePEP440Versions version (earliestPrerelease target) >=? 0)
    then Ok false else Ok true
  else if str_eqb operator (bs "<=") then Ok (comparison <=? 0)
  else if str_eqb operator (bs ">") then
    if comparison <=? 0 then Ok false else
    if negb (isPostrelease target) && isPostrelease version
       && (comparePEP440Versions (postBase version) target =? 0)
    then Ok false else
    if negb (len (pv_local version) =? 0)
       && (comparePEP440Versions (withoutLocal version) target =? 0)
    then Ok false else Ok true
  else if str_eqb operator (bs ">=") then Ok (comparison >=? 0)
  else fail "unsupported PEP 440 comparison operator %q".

(** [Match]: the Go pair [(bool, error)].  [exactVersionMatcher] returns the
    comparison with the zero result of a failed parse, so it answers [true]
    beside an error. *)
Definition Match (matcher : VersionMatcher) (version : gostring) : bool * option error :=
  let of_result (m : result bool) : bool * option error :=
    match m with Ok b => (b, None) | Err e => (false, Some e) end in
  match matcher with
  | anyVersionMatcher => (true, None)
  | exactVersionMatcher dialect target =>
    match CompareVersions dialect version target with
    | Ok comparison => (comparison =? 0, None)
    | Err e => (true, Some e)
    end
  | semverComparisonMatcher d operator target =>
    of_result (parsed ← semverParse d version; semver_match operator target parsed)
  | pep440ComparisonMatcher operator target =>
    of_result (parsed ← parsePEP440Version version; pep440_match operator target parsed)
  | comparisonVersionMatcher dialect operator target =>
    of_result (comparison ← CompareVersions dialect version target;
               match operator_holds operator comparison with
               | Some matched => Ok matched
               | None => fail "unsupported comparison operator %q"
               end)
  end.

End rules.

(** ** The catalog (internal/ecosystem/catalog.go) *)

Record Definition_ := {
  def_Name : gostring;
  def_Route : gostring;
  def_StandardUpstreams : bool;
  def_AvailableInSetup : bool;
  def_RuleEnforcement : bool;
  def_OSVName : gostring;
  def_MaliciousDataset : bool;
}.

Definition def (name route : string) (upstreams setup enforced : bool) (osv : string) (malicious : bool)
    : Definition_ :=
  {| def_Name := bs name; def_Route := bs route; def_StandardUpstreams := upstreams;
     def_AvailableInSetup := setup; def_RuleEnforcement := enforced; def_OSVName := bs osv;
     def_MaliciousDataset := malicious |}.

Definition definitions : list Definition_ :=
  [ def "pypi" "/pypi" true true true "PyPI" true;
    def "apt" "/apt" true true true "Debian" false;
    def "npm" "/npm" true true true "npm" true;
    def "go" "/go" true true true "Go" true;
    def "cargo" "/crates" true true true "crates.io" true;
    def "maven" "/maven" true true true "Maven" true;
    def "rubygems" "/rubygems" true true false "RubyGems" true;
    def "composer" "/composer" true true true "Packagist" true;
    def "nuget" "/nuget" true true true "NuGet" true;
    def "conda" "/conda" true true true "" false;
    def "cran" "/cran" true true true "CRAN" false;
    def "alpine" "/alpine" true true true "" false;
    def "helm" "/helm" true true false "" false;
    def "huggingface" "/huggingface" true false false "" false;
    def "docker" "/v2" false false false "" false ].

Definition maliciousDatasetOrder : list gostring :=
  [bs "npm"; bs "pypi"; bs "cargo"; bs "rubygems"; bs "composer"; bs "nuget"; bs "go"; bs "maven"].

Definition Lookup (name : gostring) : option Definition_ :=
  find (fun d => str_eqb (def_Name d) name) definitions.

Definition matching (include : Definition_ -> bool) : list Definition_ := List.filter include definitions.

Definition RuleDefinitions : list Definition_ := matching def_RuleEnforcement.
Definition StandardUpstreamDefinitions : list Definition_ := matching def_StandardUpstreams.
Definition SetupDefinitions : list Definition_ := matching def_AvailableInSetup.

Definition MaliciousDatasetDefinitions : list Definition_ :=
  omap (fun name =>
    match Lookup name with
    | Some d => if def_MaliciousDataset d then Some d else None
    | None => None
    end) maliciousDatasetOrder.

Definition OSVNameFor (name : gostring) : gostring :=
  match Lookup name with Some d => def_OSVName d | None => [] end.

Definition NameForOSV (osvName : gostring) : gostring :=
  match find (fun d => str_eqb (def_OSVName d) osvName && negb (str_eqb osvName [])) definitions with
  | Some d => def_Name d
  | None => []
  end.
