(* ===== verification/RuleTheory.v ===== *)
(** * Theory of rule preparation and version matchers (Rule.v)

    Which errors preparation returns, that a prepared rule always compiles and
    is its own normal form, and how the ordered matchers divide the versions. *)

From S2P Require Export Rule.

(** ** Spellings that are not selectors *)

Definition plain_byte (c : Z) : Prop := graphic c /\ c <> ch "*" /\ c <> ch "<" /\ c <> ch ">".

(** A spelling that a selector can only mean as an exact version. *)
Record plain (s : gostring) : Prop := {
  plain_nonempty : s <> [];
  plain_bytes : Forall plain_byte s;
  plain_head : first_byte s <> ch "=" /\ first_byte s <> ch "!" /\ first_byte s <> ch "~";
}.

Lemma plain_graphic s : plain s -> Forall graphic s.
Proof. intros [_ H _]. eapply Forall_impl; [exact H|]. by intros c [? _]. Qed.

Lemma plain_no_star s : plain s -> mem (ch "*") s = false.
Proof.
  intros [_ H _]. apply not_true_iff_false. rewrite mem_elem.
  eapply Forall_not_elem; [exact H|]. by intros [_ [? _]].
Qed.

Lemma plain_no_comparison s : Forall plain_byte s -> contains_any s (bs "<>") = false.
Proof.
  intros H. unfold contains_any. apply not_true_iff_false.
  intros (c & Hin & Hc)%existsb_exists. apply list_elem_of_In in Hin.
  rewrite Forall_forall in H. destruct (H c Hin) as (_ & _ & H1 & H2).
  unfold mem in Hc. simpl in Hc. go_chars. lia.
Qed.

Lemma plain_no_space s : Forall graphic s -> contains_func is_space s = false.
Proof. intros H. apply contains_func_graphic; [apply graphic_not_space | done]. Qed.

Lemma has_prefix_cons p c s t : has_prefix (c :: s) (p :: t) = (c =? p) && has_prefix s t.
Proof. done. Qed.

Lemma split_plain s : plain s -> splitComparison s = ([], s).
Proof.
  intros [Hne H _]. destruct s as [|c s]; [done|]. apply Forall_cons in H as [(_ & _ & H1 & H2) _].
  unfold splitComparison, comparison_operators. simpl. go_chars.
  rewrite !(proj2 (Z.eqb_neq c _)) by lia. done.
Qed.

Lemma has_prefix_head s c : plain s -> first_byte s <> c -> has_prefix s [c] = false.
Proof.
  intros [Hne _ _]. destruct s as [|a s]; [done|]. simpl. intros Ha. by rewrite (proj2 (Z.eqb_neq a c)).
Qed.

Lemma split_range operator c :
  operator ∈ comparison_operators -> Forall graphic c ->
  splitComparison (operator ++ bs " " ++ c) = (operator, c).
Proof.
  intros Ho Hc. assert (Hs : trim_space (bs " " ++ c) = c).
  { rewrite <- (trim_space_graphic c Hc) at 2. unfold trim_space. simpl. done. }
  unfold comparison_operators in *.
  repeat (apply elem_of_cons in Ho as [->|Ho];
    [unfold splitComparison, comparison_operators; cbn [find]; simpl has_prefix; cbv iota;
     f_equal; rewrite <- Hs at 2; done|]).
  by apply elem_of_nil in Ho.
Qed.

(** ** Canonical spellings

    Every dialect that rewrites a version writes letters, digits and a few
    punctuation marks, the first of them a digit; Maven keeps the characters and
    changes only their case. *)

Definition version_byte (c : Z) : Prop :=
  isASCIIAlphanumeric c = true \/ mem c (bs ".-+_!~:") = true.

Record spelled (s : gostring) : Prop := {
  spelled_head : digit (first_byte s);
  spelled_bytes : Forall version_byte s;
}.

Lemma version_byte_plain c : version_byte c -> plain_byte c.
Proof. unfold version_byte, plain_byte, mem. simpl. byte_tac. Qed.

Lemma spelled_plain s : spelled s -> plain s.
Proof.
  intros [Hh Hb]. split.
  - intros ->. unfold digit in Hh. simpl in Hh. lia.
  - eapply Forall_impl; [exact Hb|]. intros c. apply version_byte_plain.
  - byte_tac.
Qed.

Lemma digits_version s : digits s -> Forall version_byte s.
Proof. intros H. eapply Forall_impl; [exact H|]. unfold version_byte. intros c. byte_tac. Qed.

Lemma spelled_digits d s : d <> [] -> digits d -> Forall version_byte s -> spelled (d ++ s).
Proof.
  intros Hne Hd Hs. split; [|by apply Forall_app_2; [apply digits_version|]].
  destruct Hd as [|c d Hc Hd]; done.
Qed.

Lemma spelled_join l sep rest :
  l <> [] -> Forall canonical_decimal l -> version_byte sep -> Forall version_byte rest ->
  spelled (strings_join l sep ++ rest).
Proof.
  intros Hne Hl Hsep Hrest. assert (Hj : Forall version_byte (strings_join l sep)).
  { apply Forall_strings_join; [done|]. eapply Forall_impl; [exact Hl|]. intros d [Hd _].
    by apply digits_version. }
  split; [|by apply Forall_app_2].
  destruct Hl as [|d l Hd Hl]; [done|]. rewrite strings_join_concat, <- (assoc_L app).
  pose proof (canonical_decimal_nonempty _ Hd). destruct Hd as [Hd _]. by destruct Hd.
Qed.

Lemma render_spelled coreMax a : semver_valid coreMax a -> spelled (render a).
Proof.
  intros Ha.
  assert (Hids : forall mark l, version_byte mark -> Forall semver_id l -> Forall version_byte (render_list mark l)).
  { intros mark l Hm Hl. destruct l as [|x l]; [constructor|]. unfold render_list. constructor; [done|].
    apply Forall_strings_join; [by right|]. eapply Forall_impl; [exact Hl|].
    intros s [_ Hs]. eapply Forall_impl; [exact Hs|]. unfold id_char, version_byte, mem. simpl. intros c. byte_tac. }
  unfold render, render_public. rewrite <- (assoc_L app). apply spelled_join; [done| |by right|].
  - destruct Ha as [[? _] [? _] [? _] _ _]. by forall_list.
  - apply Forall_app_2; apply Hids; try by right.
    + eapply Forall_impl; [apply Ha|]. naive_solver.
    + apply Ha.
Qed.

Lemma pep440_word_version c : pep440_word_byte c \/ c = ch "." -> version_byte c.
Proof. unfold pep440_word_byte, version_byte, mem. simpl. byte_tac. Qed.

Lemma canonical_version d : canonical_decimal d -> Forall version_byte d.
Proof. intros [Hd _]. by apply digits_version. Qed.

Lemma buildCanonical_spelled v : pep440_wf v -> spelled (buildCanonical v).
Proof.
  intros Hv. rewrite buildCanonical_texts.
  set (tail := pre_text v ++ post_text v ++ dev_text v ++ local_text v).
  assert (Hd : forall w : gostring, Forall version_byte w -> forall d, canonical_decimal d -> Forall version_byte (w ++ d)).
  { intros w Hw d Hd. apply Forall_app_2; [done | by apply canonical_version]. }
  assert (Ht : Forall version_byte tail).
  { unfold tail, pre_text, post_text, dev_text, local_text.
    pose proof (pw_pre v Hv) as Hp. pose proof (pw_post v Hv) as Hpo. pose proof (pw_dev v Hv) as Hde.
    repeat apply Forall_app_2.
    - destruct (pv_pre v) as [p|]; [|done]. destruct Hp as [Hk Hn]. apply Hd; [|done].
      destruct Hk as [->|[->| ->]]; by repeat constructor.
    - destruct (pv_post v); [|done]. apply (Hd (bs ".post")); [|done].
      simpl. forall_list; unfold version_byte, mem; simpl; byte_tac.
    - destruct (pv_dev v); [|done]. apply (Hd (bs ".dev")); [|done].
      simpl. forall_list; unfold version_byte, mem; simpl; byte_tac.
    - case_match; [done|]. constructor; [by right|].
      eapply Forall_impl; [apply local_text_bytes, (pw_local v Hv)|]. intros c. apply pep440_word_version. }
  assert (Hr : spelled (release_text v ++ tail)).
  { apply spelled_join; [apply (pw_release v Hv)..|by right|done]. }
  unfold epoch_text. case_match; [done|]. rewrite <- (assoc_L app).
  pose proof (pw_epoch v Hv) as He. apply spelled_digits; [by apply canonical_decimal_nonempty | apply He|].
  constructor; [by right | apply Hr].
Qed.

Lemma renderDebian_spelled v : debian_wf v -> spelled (renderDebian v).
Proof.
  intros Hv. unfold renderDebian. pose proof (wf_upstream_digit v Hv) as Hu.
  assert (Hup : spelled (deb_upstream v)).
  { split.
    - destruct (deb_upstream v) as [|c r]; [done|]. by apply isASCIIDigit_true.
    - eapply Forall_impl; [apply (wf_upstream v Hv)|].
      unfold upstream_char, version_byte, mem. simpl. intros c. byte_tac. }
  assert (Hrest : Forall version_byte (if str_eqb (deb_revision v) [] then [] else bs "-" ++ deb_revision v)).
  { case_match; [done|]. constructor; [by right|]. eapply Forall_impl; [apply (wf_revision v Hv)|].
    unfold revision_char, version_byte, mem. simpl. intros c. byte_tac. }
  assert (Hur : spelled (deb_upstream v ++ (if str_eqb (deb_revision v) [] then [] else bs "-" ++ deb_revision v))).
  { split; [|by apply Forall_app_2; [apply Hup|]]. destruct Hup as [Hh _]. by destruct (deb_upstream v). }
  destruct (str_eqb (trim_left_zeros (deb_epoch v)) []) eqn:E; [done|]. apply str_eqb_neq in E.
  rewrite <- (assoc_L app). apply spelled_digits; [done | apply trim_left_zeros_digits, Hv|].
  constructor; [by right | apply Hur].
Qed.

Lemma nugetCanonical_spelled v : nuget_wf v -> spelled (nugetCanonical v).
Proof.
  intros [Hl Hb Hp]. unfold nugetCanonical. cbv zeta. apply spelled_join.
  - destruct (ng_release v) as [|a [|b [|c [|d [|]]]]]; try done. simpl. by case_match.
  - apply Forall_fmap.
    assert (Hs : Forall (fun n => 0 <= n <= int32_max)
                   (if nth 3 (ng_release v) 0 =? 0 then take 3 (ng_release v) else ng_release v)).
    { case_match; [by apply Forall_take | done]. }
    eapply Forall_impl; [exact Hs|]. intros n [Hn _]. apply (format_uint_spec n Hn).
  - by right.
  - case_match; [done|]. constructor; [by right|]. apply Forall_strings_join; [by right|].
    apply Forall_fmap. eapply Forall_impl; [exact Hp|]. intros l [(_ & Hc & _) _].
    eapply Forall_impl; [exact Hc|]. unfold nuget_char, version_byte, mem. simpl. intros c. byte_tac.
Qed.

Lemma cranJoin_spelled v : cran_wf v -> spelled (strings_join (cranTrim (cran_components v)) (ch ".")).
Proof.
  intros Hv. destruct (cranTrim_wf v Hv) as [Hl Hc]. simpl in Hl, Hc.
  rewrite <- (app_nil_r (strings_join _ _)). apply spelled_join; [|done|by right|constructor].
  intros E. rewrite E in Hl. simpl in Hl. lia.
Qed.

(** ** Canonicalization is idempotent for every dialect *)

Section theory.
Context `{UnicodeTables} `{EnglishLower} `{ModulePackage}.

Definition rewrites (d : PackagePolicyDialect) : bool :=
  match d with MavenDialect | ExactDialect _ => false | _ => true end.

Lemma canonical_spelled d s c :
  canonicalVersion d s = Ok c -> rewrites d = true -> spelled c /\ canonicalVersion d c = Ok c.
Proof.
  unfold canonicalVersion. intros Hc Hd. destruct d; try done.
  - unfold semverCanonicalVersion in *. apply result_bind_ok in Hc as (v & Hp & [= <-]).
    pose proof Hp as (a & Ha & -> & ->)%parse_iff_render.
    change (semverCanonical (ast_version a)) with (render a).
    split; [by eapply render_spelled|]. unfold semverParse in *. by rewrite Hp.
  - unfold pep440CanonicalVersion in *. apply result_bind_ok in Hc as (v & Hp%parsePEP440_wf & [= <-]).
    split; [by apply buildCanonical_spelled|]. by rewrite parse_buildCanonical.
  - unfold debianCanonicalVersion in *. apply result_bind_ok in Hc as (v & Hp%parse_debian_wf & [= <-]).
    split; [by apply renderDebian_spelled|]. rewrite parse_render_debian by done. cbn [mbind result_bind].
    f_equal. unfold renderDebian. simpl. by rewrite normalizeDecimal_trim.
  - unfold nugetCanonicalVersion in *. apply result_bind_ok in Hc as (v & Hp%parseNuGet_wf & [= <-]).
    split; [by apply nugetCanonical_spelled|]. by rewrite parse_nuget_canonical.
  - pose proof Hc as Hc'. unfold cranCanonicalVersion in Hc. apply result_bind_ok in Hc as (v & Hp & [= <-]).
    split; [by eapply cranJoin_spelled, parseCRAN_wf|].
    unfold cranCanonicalVersion at 1. rewrite (cranCanonical_ok _ _ _ Hp Hc'). cbn [mbind result_bind].
    simpl. rewrite cranTrim_idem; [done|]. apply parseCRAN_wf in Hp. apply Hp.
Qed.

Lemma maven_lower_plain s : plain s -> plain (byte_lower <$> s).
Proof.
  intros [Hne Hb Hh]. split.
  - by destruct s.
  - apply Forall_fmap. eapply Forall_impl; [exact Hb|]. unfold plain_byte, byte_lower. intros c. simpl.
    case_match; byte_tac.
  - assert (Hf : first_byte (byte_lower <$> s) = byte_lower (first_byte s)) by by destruct s.
    rewrite Hf. unfold byte_lower. case_match; byte_tac.
Qed.

(** ** The shapes of an accepted selector *)

Lemma star_not_plain : ~ plain star.
Proof. intros Hs%plain_no_star. done. Qed.

Lemma selector_exact d s :
  plain s ->
  normalizeVersionSelector d s = recast "%w: invalid exact version %q: %v" [ErrInvalidRule] (canonicalVersion d s).
Proof.
  intros Hs. unfold normalizeVersionSelector. destruct (str_eqb s star) eqn:E.
  { apply str_eqb_eq in E as ->. by apply star_not_plain in Hs. }
  rewrite plain_no_star, split_plain by done. cbv iota beta.
  change (str_eqb [] []) with true. cbv iota. pose proof (plain_head s Hs) as (? & ? & ?).
  change (bs "=") with [ch "="]. change (bs "!") with [ch "!"]. change (bs "~") with [ch "~"].
  rewrite !has_prefix_head, plain_no_comparison, plain_no_space
    by (done || apply Hs || by apply plain_graphic). done.
Qed.

Lemma selector_range d operator c :
  operator ∈ comparison_operators -> SupportsRanges d = true -> spelled c ->
  validateRangeTarget d c = Ok () -> canonicalVersion d c = Ok c ->
  normalizeVersionSelector d (operator ++ bs " " ++ c) = Ok (operator ++ bs " " ++ c).
Proof.
  intros Ho Hr Hc Hv Hcan. pose proof (spelled_plain c Hc) as Hp.
  pose proof (plain_graphic c Hp) as Hg. unfold normalizeVersionSelector.
  assert (Hop : operator <> [] /\ mem (ch "*") (operator ++ bs " ") = false).
  { unfold comparison_operators in Ho.
    repeat (apply elem_of_cons in Ho as [->|Ho]; [done|]). by apply elem_of_nil in Ho. }
  destruct Hop as [Hne Hstar].
  assert (Hno : mem (ch "*") (operator ++ bs " " ++ c) = false).
  { rewrite (assoc_L app). unfold mem in *. rewrite existsb_app, Hstar. by apply plain_no_star. }
  destruct (str_eqb (operator ++ bs " " ++ c) star) eqn:E.
  { apply str_eqb_eq in E. by rewrite E in Hno. }
  rewrite Hno, split_range by done. rewrite (proj2 (str_eqb_neq operator [])), Hr by done.
  cbn [negb]. rewrite (proj2 (str_eqb_neq c [])) by apply Hp.
  rewrite plain_no_comparison, plain_no_space by (done || apply Hp). cbn [orb].
  rewrite Hv. cbn [recast mbind result_bind]. by rewrite Hcan.
Qed.

Inductive accepted_selector (d : PackagePolicyDialect) (s : gostring) : gostring -> Prop :=
  | accepted_any : s = star -> accepted_selector d s star
  | accepted_exact c :
      s <> star -> mem (ch "*") s = false -> splitComparison s = ([], s) ->
      has_prefix s (bs "=") = false -> has_prefix s (bs "!") = false -> has_prefix s (bs "~") = false ->
      contains_any s (bs "<>") = false -> contains_func is_space s = false ->
      canonicalVersion d s = Ok c -> accepted_selector d s c
  | accepted_range operator target c :
      splitComparison s = (operator, target) -> operator ∈ comparison_operators ->
      SupportsRanges d = true -> validateRangeTarget d target = Ok () ->
      canonicalVersion d target = Ok c -> accepted_selector d s (operator ++ bs " " ++ c).

Lemma split_cases s operator target :
  splitComparison s = (operator, target) ->
  (operator = [] /\ target = s) \/ (operator ∈ comparison_operators /\ operator <> []).
Proof.
  unfold splitComparison. destruct (find (has_prefix s) comparison_operators) as [o|] eqn:E.
  - intros [= <- _]. right. apply find_some in E as [Hin%list_elem_of_In _]. split; [done|].
    intros ->. unfold comparison_operators in Hin. apply list_elem_of_In in Hin. simpl in Hin. naive_solver.
  - intros [= <- <-]. by left.
Qed.

Lemma selector_inv d s n : normalizeVersionSelector d s = Ok n -> accepted_selector d s n.
Proof.
  unfold normalizeVersionSelector. intros Hn. destruct (str_eqb s star) eqn:Es.
  { injection Hn as <-. apply str_eqb_eq in Es as ->. by constructor. }
  apply str_eqb_neq in Es. destruct (mem (ch "*") s) eqn:Em; [done|].
  destruct (splitComparison s) as [operator target] eqn:Ep.
  destruct (split_cases _ _ _ Ep) as [[-> ->]|[Ho Hne]].
  - change (str_eqb [] []) with true in Hn. cbv iota in Hn.
    destruct (_ || _) eqn:Eb in Hn; [done|]. go_bool. apply recast_ok in Hn. by eapply accepted_exact.
  - rewrite (proj2 (str_eqb_neq operator [])) in Hn by done.
    destruct (SupportsRanges d) eqn:Er; [|done]. cbn [negb] in Hn.
    destruct (str_eqb target []); [done|]. destruct (_ || _) in Hn; [done|].
    apply result_bind_ok in Hn as ([] & Hv%recast_ok & Hn).
    apply result_bind_ok in Hn as (c & Hc%recast_ok & [= <-]). by eapply accepted_range.
Qed.

Lemma ranges_rewrite d : SupportsRanges d = true -> rewrites d = true.
Proof. by destruct d. Qed.

Lemma range_target_canonical d t c :
  validateRangeTarget d t = Ok () -> canonicalVersion d t = Ok c -> validateRangeTarget d c = Ok ().
Proof.
  destruct d; try done. simpl. unfold pep440ValidateRangeTarget, pep440CanonicalVersion. intros Hv Hc.
  apply result_bind_ok in Hc as (v & Hp & [= <-]). rewrite Hp in Hv.
  by rewrite parse_buildCanonical by by eapply parsePEP440_wf.
Qed.

(** A selector of visible ASCII characters in the exact branch is plain. *)
Lemma exact_plain s :
  s <> [] -> Forall graphic s -> mem (ch "*") s = false -> contains_any s (bs "<>") = false ->
  has_prefix s (bs "=") = false -> has_prefix s (bs "!") = false -> has_prefix s (bs "~") = false -> plain s.
Proof.
  intros Hne Hg Hm Hc He Hb Ht. split; [done| |].
  - rewrite Forall_forall in Hg |- *. intros c Hin. split; [by apply Hg|].
    assert (c <> ch "*") by (intros ->; apply not_true_iff_false in Hm; by rewrite mem_elem in Hm).
    assert (Hn : mem c (bs "<>") = false).
    { apply not_true_iff_false. intros Hcm. apply not_true_iff_false in Hc. apply Hc.
      apply existsb_exists. exists c. by rewrite <- list_elem_of_In. }
    unfold mem in Hn. simpl in Hn. go_chars. lia.
  - destruct s as [|c s]; [done|]. simpl in *. go_chars. lia.
Qed.

Lemma normalizeVersionSelector_fixed d s n :
  normalizeVersionSelector d s = Ok n -> (d = MavenDialect -> Forall graphic s) ->
  normalizeVersionSelector d n = Ok n.
Proof.
  intros Hn Hg. pose proof (selector_inv d s n Hn) as Ha.
  destruct Ha as [Hs|c Hs Hm _ He Hb Ht Hc Hsp Hcan|operator target c Ho Hop Hr Hv Hcan]; [done|..].
  - destruct (rewrites d) eqn:Er.
    + destruct (canonical_spelled _ _ _ Hcan Er) as [Hp Hf].
      rewrite selector_exact by by apply spelled_plain. by rewrite Hf.
    + destruct d; try done.
      * specialize (Hg eq_refl). destruct (maven_canonical_lower s c Hg Hcan) as (-> & _).
        assert (Hp : plain s). { apply exact_plain; try done. intros ->. by vm_compute in Hcan. }
        rewrite selector_exact by by apply maven_lower_plain.
        apply recast_ok. by apply (maven_canonical_fixed s).
      * assert (c = s) as ->; [|done]. simpl in Hcan. unfold exactCanonicalVersion in Hcan. by go_inv.
  - destruct (canonical_spelled _ _ _ Hcan (ranges_rewrite d Hr)) as [Hp Hf].
    apply selector_range; try done. by eapply range_target_canonical.
Qed.

(** Compilation of an accepted selector. *)
Lemma compile_accepted ecosystem d s n :
  DialectFor ecosystem = Ok d -> normalizeVersionSelector d s = Ok n ->
  (d = MavenDialect -> Forall graphic s) ->
  exists matcher, CompileVersionMatcher ecosystem s = Ok matcher
    /\ CompileVersionMatcher ecosystem n = Ok matcher.
Proof.
  intros Hd Hn Hg. pose proof (normalizeVersionSelector_fixed d s n Hn Hg) as Hf.
  unfold CompileVersionMatcher. rewrite Hd. cbn [mbind result_bind]. rewrite Hn, Hf. cbn [mbind result_bind].
  destruct (str_eqb n star); [by eexists|].
  destruct (splitComparison n) as [operator target] eqn:Es.
  destruct (str_eqb operator []) eqn:Eo; [by eexists|].
  assert (Hcan : canonicalVersion d target = Ok target).
  { pose proof (selector_inv d n n Hf) as Ha.
    inversion Ha as [He Hn'|c ? ? Hs ? ? ? ? ? ? Hn'|o t c Hs Hop Hr Hv Hc Hn'].
    - rewrite <- Hn' in Es. vm_compute in Es. injection Es as <- _. done.
    - rewrite Hs in Es. injection Es as <- _. done.
    - destruct (canonical_spelled _ _ _ Hc (ranges_rewrite d Hr)) as [Hp Hcc].
      rewrite <- Hn', split_range in Es by (done || by apply plain_graphic, spelled_plain).
      by injection Es as <- <-. }
  destruct d; try by eexists.
  - simpl in Hcan. unfold semverCanonicalVersion in Hcan.
    apply result_bind_ok in Hcan as (v & -> & _). by eexists.
  - simpl in Hcan. unfold pep440CanonicalVersion in Hcan.
    apply result_bind_ok in Hcan as (v & -> & _). by eexists.
Qed.

(** ** What a prepared rule is *)

Lemma one_of_true value labels : one_of value labels = true <-> value ∈ labels.
Proof.
  unfold one_of. rewrite existsb_exists. setoid_rewrite str_eqb_eq. setoid_rewrite <- list_elem_of_In.
  naive_solver.
Qed.

(** Case analysis on membership in a concrete list. *)
Ltac elem_cases H :=
  repeat (apply elem_of_cons in H as [->|H]; [|]); [..|by apply elem_of_nil in H].

Definition enforced_labels : list gostring :=
  [bs "pypi"; bs "apt"; bs "npm"; bs "go"; bs "cargo"; bs "maven"; bs "composer"; bs "nuget";
   bs "conda"; bs "cran"; bs "alpine"].

Lemma enforced_normal ecosystem :
  ruleEnforcementRevision1 ecosystem = true -> normalizeEcosystemName ecosystem = ecosystem.
Proof.
  intros He%one_of_true. change (ecosystem ∈ enforced_labels) in He. unfold enforced_labels in He.
  elem_cases He; by vm_compute.
Qed.

Lemma enforced_maven ecosystem :
  ruleEnforcementRevision1 ecosystem = true -> DialectFor ecosystem = Ok MavenDialect ->
  ecosystem = bs "maven".
Proof.
  intros He. pose proof (enforced_normal _ He) as Hn. unfold DialectFor, dialectForRevision1. rewrite Hn.
  apply one_of_true in He. change (ecosystem ∈ enforced_labels) in He. unfold enforced_labels in He. clear Hn.
  elem_cases He; done.
Qed.

Inductive prepared_shape (p : PreparedRule) : Prop :=
  | prepared_global :
      pr_Ecosystem p = star -> pr_PackageName p = star -> pr_Version p = star ->
      pr_NormalizedPackageName p = star -> pr_NormalizedVersion p = star -> prepared_shape p
  | prepared_scoped d capability :
      pr_Ecosystem p <> star -> ruleEnforcementRevision1 (pr_Ecosystem p) = true ->
      DialectFor (pr_Ecosystem p) = Ok d ->
      normalizePackageSelector d (pr_PackageName p) = Ok (pr_NormalizedPackageName p) ->
      versionCapabilityForRevision1 (pr_Ecosystem p) = Ok capability ->
      (is_package_only capability = true -> pr_Version p = star) ->
      normalizeVersionSelector d (pr_Version p) = Ok (pr_NormalizedVersion p) -> prepared_shape p.

Lemma prepare_inv raw p :
  PrepareRule raw = Ok p ->
  validateRawRuleBounds (pr_Ecosystem p) (pr_PackageName p) (pr_Version p) = Ok ()
  /\ pr_DialectRevision p = DialectRevision1 /\ prepared_shape p.
Proof.
  unfold PrepareRule. change (CurrentDialectRevision =? DialectRevision1) with true. cbv iota.
  unfold PrepareRuleRevision1. cbv zeta.
  set (e := to_lower (trim_space (raw_Ecosystem raw))).
  set (n := trim_space (raw_PackageName raw)).
  set (v := if str_eqb (trim_space (raw_Version raw)) [] then star else trim_space (raw_Version raw)).
  intros Hp. apply result_bind_ok in Hp as ([] & Hb & Hp). destruct (str_eqb e star) eqn:Es.
  - apply str_eqb_eq in Es. destruct (_ || _) eqn:Eo in Hp; [done|]. injection Hp as <-. go_bool.
    split_and!; [done..|]. apply prepared_global; try done; by apply str_eqb_eq.
  - apply str_eqb_neq in Es. destruct (ruleEnforcementRevision1 e) eqn:Ee; [|done]. cbn [negb] in Hp.
    apply result_bind_ok in Hp as (d & Hd%recast_ok & Hp).
    apply result_bind_ok in Hp as (np & Hn%recast_ok & Hp).
    apply result_bind_ok in Hp as (cap & Hc%recast_ok & Hp).
    destruct (is_package_only cap && negb (str_eqb v star)) eqn:Ec; [done|].
    apply result_bind_ok in Hp as (nv & Hv & [= <-]). split_and!; [done..|].
    eapply prepared_scoped; try done. intros Hcap. rewrite Hcap in Ec. cbn [andb] in Ec.
    by apply negb_false_iff, str_eqb_eq in Ec.
Qed.

Lemma package_selector_bounded d s n :
  normalizePackageSelector d s = Ok n -> s <> star -> len n <= maxPackageLength.
Proof.
  unfold normalizePackageSelector. intros Hn Hs. rewrite (proj2 (str_eqb_neq s star)) in Hn by done.
  destruct (_ || _) in Hn; [done|]. destruct (str_eqb _ []) in Hn; [done|].
  apply result_bind_ok in Hn as (m & _ & Hn). destruct (len m >? maxPackageLength) eqn:El; [done|].
  destruct (has_suffix s star); [|injection Hn as <-; lia].
  destruct (Z.eqb_spec (len m) maxPackageLength) as [|Hne]; [done|]. injection Hn as <-.
  unfold len in *. rewrite length_app. simpl. lia.
Qed.

(** ** Properties *)

(** A prepared rule is ready for the request path: its stored version
    selector is its own normal form, it compiles, it compiles to the same matcher
    as the operator's spelling, and the stored package selector keeps the column
    bound.  (For Maven the version is assumed to be visible ASCII, because the
    lower-casing of other text is the locale library's.) *)
Theorem prepared_rule_compiles raw p :
  PrepareRule raw = Ok p -> pr_Ecosystem p <> star ->
  (pr_Ecosystem p = bs "maven" -> Forall graphic (pr_Version p)) ->
  exists d matcher,
    DialectFor (pr_Ecosystem p) = Ok d
    /\ normalizeVersionSelector d (pr_NormalizedVersion p) = Ok (pr_NormalizedVersion p)
    /\ CompileVersionMatcher (pr_Ecosystem p) (pr_NormalizedVersion p) = Ok matcher
    /\ CompileVersionMatcher (pr_Ecosystem p) (pr_Version p) = Ok matcher
    /\ len (pr_NormalizedPackageName p) <= maxPackageLength.
Proof.
  intros (_ & _ & Hp)%prepare_inv Hne Hg. destruct Hp as [? _ _ _ _|d cap _ He Hd Hn _ _ Hv]; [done|].
  assert (Hm : d = MavenDialect -> Forall graphic (pr_Version p)).
  { intros ->. by apply Hg, enforced_maven. }
  destruct (compile_accepted _ _ _ _ Hd Hv Hm) as (matcher & Hc & Hc'). exists d, matcher.
  split_and!; try done; [by eapply normalizeVersionSelector_fixed|].
  destruct (decide (pr_PackageName p = star)) as [Es|Es]; [|by eapply package_selector_bounded].
  rewrite Es in Hn. injection Hn as <-. done.
Qed.

(** The trimmed and folded fields a rule is judged by. *)
Definition raw_ecosystem (raw : RawRule) : gostring := to_lower (trim_space (raw_Ecosystem raw)).

Definition is_sentinel (e : error) (text : string) : Prop := errors_is e text = true.

Lemma recast_err {A} format ss (m : result A) e : recast format ss m = Err e -> e = Errorf format ss.
Proof. destruct m; simpl; congruence. Qed.

Lemma result_bind_err {A B} (f : A -> result B) m e :
  (m ≫= f) = Err e -> m = Err e \/ exists a, m = Ok a /\ f a = Err e.
Proof. destruct m; simpl; naive_solver. Qed.

(** The errors of the version selector: [ErrInvalidRule], and beside it
    [ErrRangesUnsupported] for a comparison in a dialect without ranges. *)
Lemma selector_err d s e :
  normalizeVersionSelector d s = Err e ->
  (exists format, e = Errorf format [ErrInvalidRule])
  \/ (e = Errorf "%w: %w" [ErrInvalidRule; ErrRangesUnsupported]
      /\ SupportsRanges d = false /\ fst (splitComparison s) ∈ comparison_operators).
Proof.
  unfold normalizeVersionSelector. intros He. destruct (str_eqb s star); [done|].
  destruct (mem (ch "*") s); [injection He as <-; by left; eexists|].
  destruct (splitComparison s) as [operator target] eqn:Ep.
  destruct (str_eqb operator []) eqn:Eo.
  - destruct (_ || _) in He; [injection He as <-|apply recast_err in He as ->]; by left; eexists.
  - apply str_eqb_neq in Eo. destruct (split_cases _ _ _ Ep) as [[? _]|[Hin _]]; [done|].
    destruct (SupportsRanges d) eqn:Er; cbn [negb] in He; [|injection He as <-; by right].
    left. destruct (str_eqb target []); [injection He as <-; by eexists|].
    destruct (_ || _) in He; [injection He as <-; by eexists|].
    apply result_bind_err in He as [He%recast_err|([] & _ & He)]; [by eexists|].
    apply result_bind_err in He as [He%recast_err|(? & _ & He)]; [by eexists | done].
Qed.

Lemma bounds_err e n v err :
  validateRawRuleBounds e n v = Err err -> exists format, err = Errorf format [ErrInvalidRule].
Proof.
  unfold validateRawRuleBounds, invalid_rule. intros He. repeat case_match; try done;
    injection He as <-; by eexists.
Qed.

(** An error that wraps [ErrInvalidRule] alone is neither of the others. *)
Lemma plain_rejection e (P Q : Prop) :
  (exists format, e = Errorf format [ErrInvalidRule]) ->
  is_sentinel e "invalid package rule"
  /\ (is_sentinel e "version selectors cannot be enforced for this ecosystem" -> P)
  /\ (is_sentinel e "version ranges are not supported for this ecosystem" -> Q).
Proof. by intros [format ->]. Qed.

(** Every rejection of a rule wraps [ErrInvalidRule]; it also wraps
    [ErrVersionSelectorsUnsupported] only for a version selector in an ecosystem
    of package-only capability, and [ErrRangesUnsupported] only for a comparison
    in an ecosystem whose dialect has no ranges. *)
Theorem PrepareRule_errors raw e :
  PrepareRule raw = Err e ->
  is_sentinel e "invalid package rule"
  /\ (is_sentinel e "version selectors cannot be enforced for this ecosystem" ->
      versionCapabilityForRevision1 (raw_ecosystem raw) = Ok PolicyVersionsPackageOnly
      /\ trim_space (raw_Version raw) <> [] /\ trim_space (raw_Version raw) <> star)
  /\ (is_sentinel e "version ranges are not supported for this ecosystem" ->
      exists d, DialectFor (raw_ecosystem raw) = Ok d /\ SupportsRanges d = false
        /\ fst (splitComparison (trim_space (raw_Version raw))) ∈ comparison_operators).
Proof.
  unfold PrepareRule. change (CurrentDialectRevision =? DialectRevision1) with true. cbv iota.
  unfold PrepareRuleRevision1. cbv zeta. fold (raw_ecosystem raw).
  set (ec := raw_ecosystem raw). set (tv := trim_space (raw_Version raw)).
  set (v := if str_eqb tv [] then star else tv). intros Hp.
  apply result_bind_err in Hp as [Hp%bounds_err|([] & _ & Hp)]; [by apply plain_rejection|].
  destruct (str_eqb ec star).
  { destruct (_ || _) in Hp; [|done]. injection Hp as <-. apply plain_rejection. by eexists. }
  destruct (negb (ruleEnforcementRevision1 ec)); [injection Hp as <-; apply plain_rejection; by eexists|].
  apply result_bind_err in Hp as [Hp%recast_err|(d & Hd%recast_ok & Hp)]; [apply plain_rejection; by eexists|].
  apply result_bind_err in Hp as [Hp%recast_err|(np & _ & Hp)]; [apply plain_rejection; by eexists|].
  apply result_bind_err in Hp as [Hp%recast_err|(cap & Hc%recast_ok & Hp)]; [apply plain_rejection; by eexists|].
  destruct (is_package_only cap && negb (str_eqb v star)) eqn:Ec.
  - injection Hp as <-. apply andb_true_iff in Ec as [Ec Ev%negb_true_iff%str_eqb_neq].
    split; [done|]. split; [intros _ | done]. split; [by destruct cap|].
    unfold v in Ev. destruct (str_eqb tv []) eqn:Et; [done|]. by apply str_eqb_neq in Et.
  - apply result_bind_err in Hp as [Hp|(? & _ & Hp)]; [|done].
    apply selector_err in Hp as [Hp|(-> & Hr & Hop)]; [by apply plain_rejection|].
    split; [done|]. split; [done|]. intros _. exists d. split_and!; [done..|].
    revert Hop. unfold v. destruct (str_eqb tv []) eqn:Et; [|done].
    intros Hop. exfalso. revert Hop. vm_compute (splitComparison star). simpl.
    intros Hop%list_elem_of_In. by repeat destruct Hop as [Hop|Hop].
Qed.

(** ** How the ordered matchers divide the versions *)

Lemma operator_holds_lt c : operator_holds (bs "<") c = Some (c <? 0).
Proof. done. Qed.
Lemma operator_holds_le c : operator_holds (bs "<=") c = Some (c <=? 0).
Proof. done. Qed.
Lemma operator_holds_gt c : operator_holds (bs ">") c = Some (c >? 0).
Proof. done. Qed.
Lemma operator_holds_ge c : operator_holds (bs ">=") c = Some (c >=? 0).
Proof. done. Qed.

(** SemVer comparisons with one target divide the versions that parse into
    three parts.  A prerelease the target does not mention (no prerelease in the
    target, or another core version) matches none of the four operators; every
    other version is below, above or equivalent to the target, with [<=] and [>=]
    the complements of [>] and [<]; and the part below is downward closed. *)
Theorem semver_ranges_partition d target version parsed :
  semverParse d version = Ok parsed ->
  let m operator v := Match (semverComparisonMatcher d operator target) v in
  (semver_ineligible parsed target = true ->
     forall operator, operator ∈ comparison_operators -> m operator version = (false, None))
  /\ (semver_ineligible parsed target = false ->
     exists lt gt, lt && gt = false
       /\ m (bs "<") version = (lt, None) /\ m (bs ">=") version = (negb lt, None)
       /\ m (bs ">") version = (gt, None) /\ m (bs "<=") version = (negb gt, None)
       /\ (lt || gt = false <-> semverCompare parsed target = 0)
       /\ forall lower low, semverParse d lower = Ok low -> semver_ineligible low target = false ->
            semverCompare low parsed <= 0 -> lt = true -> m (bs "<") lower = (true, None)).
Proof.
  intros Hv m. unfold m, Match, semver_match. rewrite Hv. cbn [mbind result_bind]. split.
  - intros ->. done.
  - intros ->. pose proof (cmp_range (cmp := semverCompare) parsed target) as Hr.
    exists (semverCompare parsed target <? 0), (semverCompare parsed target >? 0).
    rewrite operator_holds_lt, operator_holds_le, operator_holds_gt, operator_holds_ge.
    split_and!; try lia; try (f_equal; lia).
    + intros lower low Hl Hi Hle Hlt. rewrite Hl. cbn [mbind result_bind]. rewrite Hi, operator_holds_lt.
      f_equal. apply Z.ltb_lt in Hlt. apply Z.ltb_lt. by apply (cmp_le_lt_trans semverCompare low parsed target).
Qed.

(** The comparison of the public parts. *)
Definition comparePublic (left right : pep440Version) : Z :=
  or_else (compareDecimal (pv_epoch left) (pv_epoch right))
  (or_else (comparePEP440Release (pv_release left) (pv_release right))
  (or_else (comparePEP440Pre left right)
  (or_else (compareOptionalDecimal (-1) (pv_post left) (pv_post right))
           (compareOptionalDecimal 1 (pv_dev left) (pv_dev right))))).

Lemma or_else_assoc a b c : or_else (or_else a b) c = or_else a (or_else b c).
Proof. unfold or_else. repeat case_match; lia. Qed.

Lemma compare_public_local v t :
  comparePEP440Versions v t = or_else (comparePublic v t) (comparePEP440Local (pv_local v) (pv_local t)).
Proof. unfold comparePublic. by rewrite !or_else_assoc. Qed.

(** Against a public target the local label counts only on equal public parts,
    and then it raises the version. *)
Lemma compare_public_target v t :
  pv_local t = [] ->
  comparePEP440Versions (withoutLocal v) t = comparePublic v t
  /\ comparePEP440Versions v t = or_else (comparePublic v t) (if len (pv_local v) =? 0 then 0 else 1).
Proof.
  intros Ht. rewrite !compare_public_local, Ht. split.
  - change (comparePublic (withoutLocal v) t) with (comparePublic v t).
    unfold or_else. simpl. by destruct (Z.eqb_spec (comparePublic v t) 0).
  - f_equal. unfold comparePEP440Local. destruct (len (pv_local v) =? 0) eqn:E; [done|].
    by destruct (pv_local v).
Qed.

Lemma pep440_match_lt t v :
  pep440_match (bs "<") t v
  = Ok ((comparePEP440Versions v t <? 0)
        && negb (negb (isPrerelease t) && isPrerelease v
                 && (comparePEP440Versions v (earliestPrerelease t) >=? 0))).
Proof.
  unfold pep440_match. change (str_eqb (bs "<") (bs "<=") || str_eqb (bs "<") (bs ">=")) with false.
  change (str_eqb (bs "<") (bs "<")) with true. cbv iota zeta beta.
  destruct (Z.geb_spec (comparePEP440Versions v t) 0), (Z.ltb_spec (comparePEP440Versions v t) 0); try lia; [done|].
  by destruct (_ && _ && _).
Qed.

Lemma pep440_match_gt t v :
  pep440_match (bs ">") t v
  = Ok ((comparePEP440Versions v t >? 0)
        && negb (negb (isPostrelease t) && isPostrelease v && (comparePEP440Versions (postBase v) t =? 0))
        && negb (negb (len (pv_local v) =? 0) && (comparePEP440Versions (withoutLocal v) t =? 0))).
Proof.
  unfold pep440_match. change (str_eqb (bs ">") (bs "<=") || str_eqb (bs ">") (bs ">=")) with false.
  change (str_eqb (bs ">") (bs "<")) with false. change (str_eqb (bs ">") (bs "<=")) with false.
  change (str_eqb (bs ">") (bs ">")) with true. cbv iota zeta beta.
  destruct (Z.leb_spec (comparePEP440Versions v t) 0), (Z.gtb_spec (comparePEP440Versions v t) 0); try lia; [done|].
  destruct (_ && _ && _); [done|]. by destruct (_ && _).
Qed.

(** PEP 440 comparisons against a target without a local label.  [<] implies
    [<=] and excludes [>=], [>] implies [>=] and excludes [<=], and one of [<=]
    and [>=] always holds, both exactly on equal public versions.  A version
    below the target that [<] leaves out is a prerelease of the target, and a
    version above it that [>] leaves out is a post-release of the target. *)
Theorem pep440_ranges_partition t v :
  pv_local t = [] ->
  exists lt le gt ge,
    pep440_match (bs "<") t v = Ok lt /\ pep440_match (bs "<=") t v = Ok le
    /\ pep440_match (bs ">") t v = Ok gt /\ pep440_match (bs ">=") t v = Ok ge
    /\ (lt = true -> le = true /\ ge = false) /\ (gt = true -> ge = true /\ le = false)
    /\ le || ge = true
    /\ (le && ge = true <-> comparePEP440Versions (withoutLocal v) (withoutLocal t) = 0)
    /\ (ge = false -> lt = false ->
         isPrerelease v = true /\ isPrerelease t = false
         /\ comparePEP440Versions v (earliestPrerelease t) >= 0)
    /\ (le = false -> gt = false ->
         isPostrelease v = true /\ isPostrelease t = false
         /\ comparePEP440Versions (postBase v) t = 0).
Proof.
  intros Ht. destruct (compare_public_target v t Ht) as [Hpub Hfull].
  assert (Hwt : withoutLocal t = t) by (destruct t; simpl in *; by subst). rewrite Hwt.
  assert (Hle : pep440_match (bs "<=") t v = Ok (comparePublic v t <=? 0)) by (rewrite <- Hpub; done).
  assert (Hge : pep440_match (bs ">=") t v = Ok (comparePublic v t >=? 0)) by (rewrite <- Hpub; done).
  rewrite pep440_match_lt, pep440_match_gt, Hle, Hge, Hpub, Hfull.
  set (full := or_else _ _).
  assert (Hp : (full < 0 <-> comparePublic v t < 0)
    /\ (full > 0 <-> comparePublic v t > 0 \/ comparePublic v t = 0 /\ (len (pv_local v) =? 0) = false)).
  { unfold full, or_else. destruct (Z.eqb_spec (comparePublic v t) 0) as [->|], (len (pv_local v) =? 0); lia. }
  clearbody full. generalize dependent (comparePublic v t). intros p Hp.
  do 4 eexists. split_and!; [done..| | | | | |];
    destruct (isPrerelease t), (isPrerelease v), (isPostrelease t), (isPostrelease v), (len (pv_local v) =? 0);
    simpl; lia.
Qed.

(** ** Exact selectors *)

Lemma debian_normal_equal v :
  compareDebian v {| deb_epoch := normalizeDecimal (deb_epoch v);
                     deb_upstream := deb_upstream v; deb_revision := deb_revision v |} = 0.
Proof.
  unfold compareDebian; simpl. rewrite (cmp_refl compareDebianPart).
  rewrite (cmp_opp (normalizeDecimal (deb_epoch v)) (deb_epoch v)), compareDecimal_normalize.
  by rewrite (cmp_refl compareDebianPart).
Qed.

Lemma cran_trim_equal v :
  cran_wf v -> compareCRAN v {| cran_components := cranTrim (cran_components v) |} = 0.
Proof.
  intros Hv. apply cranTrim_eq; [done | by apply cranTrim_wf|]. simpl. by rewrite cranTrim_idem by apply Hv.
Qed.

(** Equivalent right sides give the same comparison. *)
Lemma cmp_equiv_right {A} (cmp : A -> A -> Z) `{!ThreeWay cmp} x y z : cmp y z = 0 -> cmp x y = cmp x z.
Proof.
  intros Hyz. rewrite (cmp_opp y x), (cmp_opp z x). by rewrite (cmp_equiv_left cmp y z x Hyz).
Qed.

(** The canonical spelling of a version compares like the version. *)
Lemma canonical_compares d s c v :
  canonicalVersion d s = Ok c -> (d = MavenDialect -> Forall graphic s) ->
  CompareVersions d v c = CompareVersions d v s.
Proof.
  intros Hc Hg. destruct d; simpl in *.
  - unfold semverCanonicalVersion in Hc. apply result_bind_ok in Hc as (w & Hp & [= <-]).
    by apply parse_iff_render in Hp as (a & _ & -> & ->).
  - unfold pep440CanonicalVersion, pep440CompareVersions in *.
    apply result_bind_ok in Hc as (w & Hp & [= <-]).
    by rewrite Hp, parse_buildCanonical by by eapply parsePEP440_wf.
  - destruct (maven_canonical_lower s c (Hg eq_refl) Hc) as (_ & w & Hs & Hl).
    unfold mavenCompareVersions. by rewrite Hs, Hl.
  - unfold debianCanonicalVersion, debianCompareVersions in *.
    apply result_bind_ok in Hc as (w & Hp & [= <-]).
    rewrite Hp, parse_render_debian by by eapply parse_debian_wf.
    destruct (parseDebianVersion v) as [x|]; [|done]. simpl. f_equal. symmetry.
    apply (cmp_equiv_right compareDebian), debian_normal_equal.
  - unfold nugetCanonicalVersion, nugetCompareVersions in *.
    apply result_bind_ok in Hc as (w & Hp & [= <-]).
    by rewrite Hp, parse_nuget_canonical by by eapply parseNuGet_wf.
  - unfold exactCanonicalVersion in Hc. go_inv. done.
  - pose proof Hc as Hc'. unfold cranCanonicalVersion in Hc. apply result_bind_ok in Hc as (w & Hp & _).
    unfold cranCompareVersions. rewrite (cranCanonical_ok _ _ _ Hp Hc'), Hp.
    destruct (parseCRANVersion v) as [x|]; [|done]. simpl. f_equal. symmetry.
    apply (cmp_equiv_right compareCRAN), cran_trim_equal. by eapply parseCRAN_wf.
Qed.

Lemma compile_exact ecosystem d s c :
  DialectFor ecosystem = Ok d -> normalizeVersionSelector d s = Ok c -> c <> star ->
  splitComparison c = ([], c) -> CompileVersionMatcher ecosystem s = Ok (exactVersionMatcher d c).
Proof.
  intros Hd Hn Hs Hc. unfold CompileVersionMatcher. rewrite Hd. cbn [mbind result_bind]. rewrite Hn.
  cbn [mbind result_bind]. rewrite (proj2 (str_eqb_neq c star)) by done. by rewrite Hc.
Qed.

(** The canonical spelling of an exact selector is again an exact selector. *)
Lemma exact_canonical d s c :
  normalizeVersionSelector d s = Ok c -> fst (splitComparison s) = [] -> s <> star ->
  (d = MavenDialect -> Forall graphic s) ->
  canonicalVersion d s = Ok c /\ c <> star /\ splitComparison c = ([], c).
Proof.
  intros Hn Hs Hne Hg. pose proof (selector_inv d s c Hn) as Ha.
  destruct Ha as [?|c _ Hm Hsp He Hb Ht Hc Hw Hcan|o t c Hsp Hop _ _ _]; [done| |].
  - split; [done|].
    assert (Hp : plain c \/ c = s).
    { destruct (rewrites d) eqn:Er.
      - left. by apply spelled_plain, (canonical_spelled d s).
      - destruct d; try done.
        + left. specialize (Hg eq_refl). destruct (maven_canonical_lower s c Hg Hcan) as (-> & _).
          apply maven_lower_plain, exact_plain; try done. intros ->. by vm_compute in Hcan.
        + right. simpl in Hcan. unfold exactCanonicalVersion in Hcan. by go_inv. }
    destruct Hp as [Hp|Hp]; [|by subst c]. split; [|by apply split_plain].
    intros ->. by apply star_not_plain in Hp.
  - rewrite Hsp in Hs. simpl in Hs. subst o. destruct (split_cases _ _ _ Hsp) as [[_ ->]|[_ ?]]; [|done].
    unfold comparison_operators in Hop. apply list_elem_of_In in Hop. by repeat destruct Hop as [Hop|Hop].
Qed.

(** An exact selector compiles to a matcher that accepts a version exactly
    when the dialect's comparison calls it equal to the operator's own spelling,
    although the matcher stores the canonical one.  A version that does not parse
    makes the matcher answer [true] together with the error. *)
Theorem exact_selector_matches ecosystem d selector c version :
  DialectFor ecosystem = Ok d ->
  normalizeVersionSelector d selector = Ok c ->
  fst (splitComparison selector) = [] -> selector <> star ->
  (d = MavenDialect -> Forall graphic selector) ->
  exists matcher, CompileVersionMatcher ecosystem selector = Ok matcher
    /\ Match matcher version
       = match CompareVersions d version selector with
         | Ok comparison => (comparison =? 0, None)
         | Err e => (true, Some e)
         end.
Proof.
  intros Hd Hn Hs Hne Hg. destruct (exact_canonical d selector c Hn Hs Hne Hg) as (Hc & Hcs & Hsp).
  exists (exactVersionMatcher d c). split; [by eapply compile_exact|].
  unfold Match. by rewrite (canonical_compares d selector c).
Qed.

(** The shape of every [CompareVersions]: parse both sides, compare. *)
Definition compare_with {T} (parse : gostring -> result T) (cmp : T -> T -> Z) (a b : gostring) : result Z :=
  l ← wrap "parse left version: %w" (parse a);
  r ← wrap "parse right version: %w" (parse b);
  Ok (cmp l r).

Lemma compare_with_ok {T} (parse : gostring -> result T) cmp a b x :
  compare_with parse cmp a b = Ok x <-> exists l r, parse a = Ok l /\ parse b = Ok r /\ x = cmp l r.
Proof.
  unfold compare_with. split.
  - intros Hc. apply result_bind_ok in Hc as (l & Hl%wrap_ok & Hc).
    apply result_bind_ok in Hc as (r & Hr%wrap_ok & [= <-]). eauto.
  - intros (l & r & -> & -> & ->). done.
Qed.

Lemma compare_with_preorder {T} (parse : gostring -> result T) cmp `{!ThreeWay cmp} a b c x y :
  compare_with parse cmp a b = Ok x -> compare_with parse cmp b c = Ok y ->
  (x = -1 \/ x = 0 \/ x = 1) /\ compare_with parse cmp b a = Ok (- x)
  /\ exists z, compare_with parse cmp a c = Ok z /\ (x <= 0 -> y <= 0 -> z <= 0).
Proof.
  intros (l & m & Hl & Hm & ->)%compare_with_ok (m' & r & Hm' & Hr & ->)%compare_with_ok.
  assert (m' = m) as -> by congruence. split; [apply cmp_range|]. split.
  - apply compare_with_ok. exists m, l. split_and!; [done..|]. symmetry. apply cmp_opp.
  - exists (cmp l r). split; [apply compare_with_ok; eauto | apply cmp_trans].
Qed.

(** In every dialect that supports ranges the version comparison is a total
    preorder on the versions it accepts: swapping the sides negates the verdict
    and the order is transitive. *)
Theorem range_dialects_ordered d a b c x y :
  SupportsRanges d = true -> CompareVersions d a b = Ok x -> CompareVersions d b c = Ok y ->
  (x = -1 \/ x = 0 \/ x = 1) /\ CompareVersions d b a = Ok (- x)
  /\ exists z, CompareVersions d a c = Ok z /\ (x <= 0 -> y <= 0 -> z <= 0).
Proof.
  intros Hd. destruct d; try done; (apply compare_with_preorder; apply _).
Qed.

(** ** The catalog *)

#[export] Instance definition_eq_dec : EqDecision Definition_.
Proof. solve_decision. Defined.

Lemma lookup_definition name def : Lookup name = Some def -> def ∈ definitions /\ def_Name def = name.
Proof.
  unfold Lookup. intros Hf. apply find_some in Hf as [Hin He]. split; [by apply list_elem_of_In|].
  by apply str_eqb_eq.
Qed.

Lemma lookup_none name : Lookup name = None -> name ∉ (def_Name <$> definitions).
Proof.
  unfold Lookup. intros Hf (def & -> & Hin)%list_elem_of_fmap. apply list_elem_of_In in Hin.
  eapply find_none in Hf; [|exact Hin]. simpl in Hf. by rewrite str_eqb_refl in Hf.
Qed.

(** The catalog and the policy code agree: an ecosystem's catalog entry
    enables rules exactly when revision 1 enforces them, every cataloged
    ecosystem has a dialect, the malicious-package datasets are listed once each
    and completely, and OSV names translate back. *)
Theorem catalog_agrees :
  (forall name, match Lookup name with Some def => def_RuleEnforcement def | None => false end
                = ruleEnforcementRevision1 name)
  /\ (forall def, def ∈ definitions ->
        (exists d, DialectFor (def_Name def) = Ok d)
        /\ Lookup (def_Name def) = Some def
        /\ (def_OSVName def <> [] -> NameForOSV (def_OSVName def) = def_Name def))
  /\ MaliciousDatasetDefinitions ≡ₚ matching def_MaliciousDataset.
Proof.
  split_and!.
  - intros name. destruct (Lookup name) as [def|] eqn:E.
    + apply lookup_definition in E as [Hin <-]. unfold definitions in Hin. elem_cases Hin; done.
    + apply lookup_none in E. destruct (ruleEnforcementRevision1 name) eqn:Er; [|done].
      apply one_of_true in Er. change (name ∈ enforced_labels) in Er. destruct E. unfold enforced_labels in Er.
      elem_cases Er; vm_compute; repeat first [left | right].
  - intros def Hin. unfold definitions in Hin.
    elem_cases Hin; (split_and!; [unfold DialectFor, dialectForRevision1; by eexists | done | done]).
  - apply NoDup_Permutation; try (by apply (bool_decide_unpack _); vm_compute).
    intros def. split; revert def; apply Forall_forall; by apply (bool_decide_unpack _); vm_compute.
Qed.

End theory.

(** ** Witnesses *)

Section witnesses.
#[local] Existing Instances ascii_tables ascii_lower permissive_modules.

Definition pypi_rule : RawRule :=
  {| raw_Ecosystem := bs " PyPI"; raw_PackageName := bs "Foo_*"; raw_Version := bs "<=1.0.RC1 " |}.

Definition pypi_prepared : PreparedRule :=
  {| pr_Ecosystem := bs "pypi"; pr_PackageName := bs "Foo_*"; pr_Version := bs "<=1.0.RC1";
     pr_NormalizedPackageName := bs "foo-*"; pr_NormalizedVersion := bs "<= 1.0rc1"; pr_DialectRevision := 1 |}.

Lemma prepared_rule_compiles_witness :
  exists d matcher,
    DialectFor (bs "pypi") = Ok d
    /\ normalizeVersionSelector d (bs "<= 1.0rc1") = Ok (bs "<= 1.0rc1")
    /\ CompileVersionMatcher (bs "pypi") (bs "<= 1.0rc1") = Ok matcher
    /\ CompileVersionMatcher (bs "pypi") (bs "<=1.0.RC1") = Ok matcher
    /\ len (bs "foo-*") <= maxPackageLength.
Proof.
  apply (prepared_rule_compiles pypi_rule pypi_prepared).
  - vm_compute. reflexivity.
  - vm_compute. discriminate.
  - vm_compute. discriminate.
Defined.

Lemma PrepareRule_errors_witness :
  exists e, PrepareRule {| raw_Ecosystem := bs "apt"; raw_PackageName := bs "curl"; raw_Version := bs "1.0" |} = Err e
    /\ is_sentinel e "invalid package rule".
Proof.
  eexists. split; [vm_compute; reflexivity|].
  apply (PrepareRule_errors {| raw_Ecosystem := bs "apt"; raw_PackageName := bs "curl"; raw_Version := bs "1.0" |}).
  vm_compute. reflexivity.
Defined.

Definition semver_of (s : gostring) : strictSemVer :=
  match semverParse npmDialect s with
  | Ok v => v
  | Err _ => {| sv_raw := []; sv_core := ([], [], []); sv_prerelease := [] |}
  end.

Lemma semver_ranges_partition_witness :
  semverParse npmDialect (bs "1.2.3-rc.1") = Ok (semver_of (bs "1.2.3-rc.1"))
  /\ forall operator, operator ∈ comparison_operators ->
       Match (semverComparisonMatcher npmDialect operator (semver_of (bs "2.0.0"))) (bs "1.2.3-rc.1") = (false, None).
Proof.
  split; [vm_compute; reflexivity|].
  apply (semver_ranges_partition npmDialect (semver_of (bs "2.0.0")) (bs "1.2.3-rc.1")
    (semver_of (bs "1.2.3-rc.1"))); vm_compute; reflexivity.
Defined.

Definition pep440_of (s : gostring) : pep440Version :=
  match parsePEP440Version s with
  | Ok v => v
  | Err _ => {| pv_epoch := []; pv_release := []; pv_pre := None; pv_post := None; pv_dev := None; pv_local := [] |}
  end.

Lemma pep440_ranges_partition_witness :
  exists lt le gt ge,
    pep440_match (bs "<") (pep440_of (bs "1.0")) (pep440_of (bs "1.0rc1")) = Ok lt
    /\ pep440_match (bs "<=") (pep440_of (bs "1.0")) (pep440_of (bs "1.0rc1")) = Ok le
    /\ pep440_match (bs ">") (pep440_of (bs "1.0")) (pep440_of (bs "1.0rc1")) = Ok gt
    /\ pep440_match (bs ">=") (pep440_of (bs "1.0")) (pep440_of (bs "1.0rc1")) = Ok ge.
Proof.
  destruct (pep440_ranges_partition (pep440_of (bs "1.0")) (pep440_of (bs "1.0rc1")))
    as (lt & le & gt & ge & H1 & H2 & H3 & H4 & _); [vm_compute; reflexivity|].
  exists lt, le, gt, ge. exact (conj H1 (conj H2 (conj H3 H4))).
Defined.

Lemma exact_selector_matches_witness :
  exists matcher, CompileVersionMatcher (bs "pypi") (bs "1.0.RC1") = Ok matcher
    /\ Match matcher (bs "1.0c1") = (true, None).
Proof.
  destruct (exact_selector_matches (bs "pypi") Pep440Dialect (bs "1.0.RC1") (bs "1.0rc1") (bs "1.0c1"))
    as (matcher & Hc & Hm); [vm_compute; reflexivity .. | discriminate | discriminate |].
  exists matcher. split; [exact Hc|]. rewrite Hm. vm_compute. reflexivity.
Defined.

Lemma range_dialects_ordered_witness :
  (1 = -1 \/ 1 = 0 \/ 1 = 1) /\ CompareVersions Pep440Dialect (bs "1.0rc1") (bs "1.0") = Ok (- 1)
  /\ exists z, CompareVersions Pep440Dialect (bs "1.0") (bs "2.0") = Ok z /\ (1 <= 0 -> -1 <= 0 -> z <= 0).
Proof.
  apply (range_dialects_ordered Pep440Dialect (bs "1.0") (bs "1.0rc1") (bs "2.0") 1 (-1));
    vm_compute; reflexivity.
Defined.

(** ** Behaviour at the edges *)

(** Preparation bounds the version an operator writes by 128 bytes, but not
    the normalized version it returns: a NuGet version of 128 bytes is prepared
    with a normal form of 132. *)
Theorem prepared_version_exceeds_bound :
  exists raw p, PrepareRule raw = Ok p
    /\ len (pr_Version p) = maxVersionLength /\ len (pr_NormalizedVersion p) = 132.
Proof.
  exists {| raw_Ecosystem := bs "nuget"; raw_PackageName := bs "a"; raw_Version := bs "1-" ++ replicate 126 97 |}.
  eexists. split; [vm_compute; reflexivity|]. split; vm_compute; reflexivity.
Qed.

(** The last segment of a Conda prefix is lower-cased although the channel
    of a package name keeps its case: a prefix rule for the names beginning with
    [Org/Chan] is stored as [Org/chan*], which is not a prefix of the normal form
    of [Org/Chan/numpy]. *)
Theorem conda_prefix_misses_channel :
  exists p name, PrepareRule {| raw_Ecosystem := bs "conda"; raw_PackageName := bs "Org/Chan*"; raw_Version := [] |} = Ok p
    /\ pr_NormalizedPackageName p = bs "Org/chan*"
    /\ (d ← DialectFor (bs "conda"); NormalizePackageName d (bs "Org/Chan/numpy")) = Ok name
    /\ has_prefix name (bs "Org/Chan") = true
    /\ has_prefix name (trim_suffix (pr_NormalizedPackageName p) star) = false.
Proof.
  eexists _, _. split; [vm_compute; reflexivity|]. split; [vm_compute; reflexivity|].
  split; [vm_compute; reflexivity|]. split; vm_compute; reflexivity.
Qed.

(** The Hugging Face namespace test folds case over Unicode, so a spelling of
    [datasets] with a long s (U+017F, two bytes) is accepted as the namespace, and
    its normal form differs from the identity of the repository under
    [datasets]. *)
Theorem huggingface_long_s_identity :
  exists d n1 n2, DialectFor (bs "huggingface") = Ok d
    /\ NormalizePackageName d (bs "data" ++ [0xC5; 0xBF] ++ bs "ets/org/name") = Ok n1
    /\ NormalizePackageName d (bs "datasets/org/name") = Ok n2 /\ n1 <> n2.
Proof.
  eexists _, _, _. split; [reflexivity|]. split; [vm_compute; reflexivity|].
  split; [vm_compute; reflexivity|]. discriminate.
Qed.
End witnesses.
