(* ===== verification/GoTrim.v ===== *)
(** * Trimming (strings.TrimSpace)

    [trim_space] cuts whole runes off both ends; what is left decodes to the
    runes in between, whatever the bytes are, so trimming twice changes nothing. *)

From S2P Require Export GoStrings.

Lemma decode_rune_bounds s : s <> [] -> (1 <= snd (decode_rune s) <= length s)%nat.
Proof.
  destruct s as [|b0 s1]; [done|]. intros _. unfold decode_rune.
  destruct (b0 <? 0x80); [simpl; lia|].
  destruct (utf8_first b0) as [[[n lo] hi]|]; [|simpl; lia].
  destruct n as [|[|[|[|[|n]]]]], s1 as [|b1 [|b2 [|b3 s4]]]; try (simpl; lia); case_match; simpl; lia.
Qed.

(** Decoding depends only on the bytes of the rune; a cut behind the rune does
    not change it. *)
Lemma decode_rune_take s m :
  s <> [] -> (snd (decode_rune s) <= m)%nat -> decode_rune (take m s) = decode_rune s.
Proof.
  intros Hne Hm. pose proof (decode_rune_bounds s Hne) as Hw.
  destruct s as [|b0 s1]; [done|]. destruct m as [|m]; [lia|]. cbn [take]. revert Hm. clear Hw Hne.
  unfold decode_rune. destruct (b0 <? 0x80); [done|].
  destruct (utf8_first b0) as [[[n lo] hi]|]; [|done].
  destruct n as [|[|[|[|[|n]]]]], s1 as [|b1 [|b2 [|b3 s4]]], m as [|[|[|m]]];
    try done; simpl; case_match; simpl; try done; lia.
Qed.

Lemma chunks_fuel_enough n m s :
  (length s <= n)%nat -> (length s <= m)%nat -> chunks_fuel n s = chunks_fuel m s.
Proof.
  revert m s; induction n as [|n IH]; intros [|m] [|b s] Hn Hm; try done; try (simpl in *; lia).
  cbn [chunks_fuel]. pose proof (decode_rune_bounds (b :: s)) as Hw. destruct (decode_rune (b :: s)) as [r w].
  f_equal. apply IH; rewrite length_drop; cbn [length snd] in *; specialize (Hw ltac:(done)); lia.
Qed.

Lemma chunks_step s :
  s <> [] ->
  chunks s = (fst (decode_rune s), take (snd (decode_rune s)) s) :: chunks (drop (snd (decode_rune s)) s).
Proof.
  intros Hne. destruct s as [|b s]; [done|]. unfold chunks at 1. cbn [length chunks_fuel].
  pose proof (decode_rune_bounds (b :: s) Hne) as Hw. destruct (decode_rune (b :: s)) as [r w]. cbn [fst snd] in *.
  f_equal. apply chunks_fuel_enough; rewrite length_drop; cbn [length] in *; lia.
Qed.

Lemma chunks_ind (P : gostring -> Prop) :
  P [] -> (forall s, s <> [] -> P (drop (snd (decode_rune s)) s) -> P s) -> forall s, P s.
Proof.
  intros H0 HS s. remember (length s) as n eqn:Hn. assert (Hl : (length s <= n)%nat) by lia. clear Hn.
  revert s Hl; induction n as [|n IH]; intros s Hl.
  - by destruct s; [|simpl in Hl; lia].
  - destruct (decide (s = [])) as [->|Hne]; [done|]. apply HS; [done|]. apply IH.
    pose proof (decode_rune_bounds s Hne). rewrite length_drop. lia.
Qed.

Abbreviation glue l := (concat (snd <$> (l : list (Z * gostring)))).

Lemma glue_chunks s : glue (chunks s) = s.
Proof.
  induction s as [|s Hne IH] using chunks_ind; [done|]. rewrite chunks_step by done.
  rewrite fmap_cons. cbn [concat snd]. rewrite IH. apply take_drop.
Qed.

(** The runes behind a cut. *)
Lemma chunks_suffix s l1 l2 : chunks s = l1 ++ l2 -> chunks (glue l2) = l2.
Proof.
  revert l1 l2; induction s as [|s Hne IH] using chunks_ind; intros l1 l2 Hs.
  - symmetry in Hs. apply app_eq_nil in Hs as [-> ->]. done.
  - destruct l1 as [|p l1]; [cbn [app] in Hs; by rewrite <- Hs, glue_chunks|].
    rewrite chunks_step in Hs by done. injection Hs as _ Hs. by eapply IH.
Qed.

(** The runes before a cut. *)
Lemma chunks_prefix s l1 l2 : chunks s = l1 ++ l2 -> chunks (glue l1) = l1.
Proof.
  revert l1 l2; induction s as [|s Hne IH] using chunks_ind; intros l1 l2 Hs.
  - symmetry in Hs. by apply app_eq_nil in Hs as [-> ->].
  - destruct l1 as [|p l1]; [done|].
    pose proof (glue_chunks s) as Hg. rewrite Hs in Hg. rewrite fmap_app, concat_app in Hg.
    rewrite chunks_step in Hs by done. injection Hs as <- Hs.
    pose proof (decode_rune_bounds s Hne) as [Hw1 Hw2]. set (w := snd (decode_rune s)) in *.
    rewrite fmap_cons. cbn [concat snd].
    assert (Hlen : length (take w s) = w) by (rewrite length_take; lia).
    assert (Ht : take w s ++ glue l1 = take (w + length (glue l1)) s).
    { rewrite <- Hg at 2. rewrite fmap_cons. cbn [concat snd]. rewrite <- Hlen at 2.
      rewrite <- length_app. symmetry. apply take_app_length. }
    assert (Hd : decode_rune (take w s ++ glue l1) = decode_rune s).
    { rewrite Ht. apply decode_rune_take; [done|]. fold w. lia. }
    assert (Hne' : take w s ++ glue l1 <> []).
    { intros [E _]%app_eq_nil. rewrite E in Hlen. simpl in Hlen. lia. }
    rewrite chunks_step, Hd by done. fold w. rewrite take_app_length', drop_app_length' by lia.
    f_equal. by eapply IH.
Qed.

Lemma drop_space_split l :
  exists l1, l = l1 ++ drop_space l
    /\ match drop_space l with p :: _ => is_space (fst p) = false | [] => True end.
Proof.
  induction l as [|[r b] l (l1 & He & Hh)]; [by exists []|]. simpl. destruct (is_space r) eqn:E.
  - exists ((r, b) :: l1). split; [simpl; by f_equal | done].
  - by exists [].
Qed.

Lemma drop_space_head p l : is_space (fst p) = false -> drop_space (p :: l) = p :: l.
Proof. destruct p as [r b]. simpl. by intros ->. Qed.

Lemma trim_space_idem s : trim_space (trim_space s) = trim_space s.
Proof.
  unfold trim_space. set (l := drop_space (chunks s)).
  destruct (drop_space_split (chunks s)) as (l1 & H1 & Hh1). fold l in H1, Hh1.
  destruct (drop_space_split (rev l)) as (l2 & H2 & Hh2). set (k := drop_space (rev l)) in *.
  assert (Hl : l = rev k ++ rev l2) by by rewrite <- rev_app_distr, <- H2, rev_involutive.
  pose proof (chunks_suffix s l1 l H1) as Hc. rewrite Hl in Hc at 2.
  apply chunks_prefix in Hc. rewrite Hc. do 2 f_equal.
  assert (Hd : drop_space (rev k) = rev k).
  { destruct (rev k) as [|p r] eqn:E; [done|]. apply drop_space_head.
    rewrite Hl in Hh1. done. }
  rewrite Hd, rev_involutive. f_equal. destruct k as [|p k']; [done|]. by apply drop_space_head.
Qed.
