(* ===== verification/RuleStore.v ===== *)
(** * The rule store (internal/rules/store.go, PackageRule of internal/db/models.go)

    Validation of a rule model, the partial update, the four store operations
    over a table of rows, and the classification of read errors.  The database
    library is the interface [RuleTable]: what the store relies on are its laws. *)

From stdpp Require Import gmap.
From S2P Require Export Rule.

Record PackageRule := {
  r_ID : Z;
  r_Ecosystem : gostring;
  r_PackageName : gostring;
  r_Version : gostring;
  r_Action : gostring;
  r_Reason : gostring;
  r_CreatedBy : gostring;
  r_CreatedAt : Z;
  r_UpdatedAt : Z;
  r_NormalizedPackageName : gostring;
  r_NormalizedVersion : gostring;
  r_DialectRevision : Z;
}.

#[export] Instance PackageRule_eq_dec : EqDecision PackageRule.
Proof. solve_decision. Defined.

(** A nil pointer of the patch is [None]. *)
Record RulePatch := {
  patch_Ecosystem : option gostring;
  patch_PackageName : option gostring;
  patch_Version : option gostring;
  patch_Action : option gostring;
  patch_Reason : option gostring;
}.

Definition applyRulePatch (rule : PackageRule) (patch : RulePatch) : PackageRule :=
  {| r_ID := r_ID rule;
     r_Ecosystem := default (r_Ecosystem rule) (patch_Ecosystem patch);
     r_PackageName := default (r_PackageName rule) (patch_PackageName patch);
     r_Version := default (r_Version rule) (patch_Version patch);
     r_Action := default (r_Action rule) (patch_Action patch);
     r_Reason := default (r_Reason rule) (patch_Reason patch);
     r_CreatedBy := r_CreatedBy rule;
     r_CreatedAt := r_CreatedAt rule;
     r_UpdatedAt := r_UpdatedAt rule;
     r_NormalizedPackageName := r_NormalizedPackageName rule;
     r_NormalizedVersion := r_NormalizedVersion rule;
     r_DialectRevision := r_DialectRevision rule |}.

(** The raw identity of a row, as [PrepareRule] takes it. *)
Definition raw_of (rule : PackageRule) : RawRule :=
  {| raw_Ecosystem := r_Ecosystem rule; raw_PackageName := r_PackageName rule; raw_Version := r_Version rule |}.

Definition too_long_or_control (value : gostring) (maximum : Z) : bool :=
  (len value >? maximum) || contains_func is_control value.

(** ** Errors *)

Definition ErrRuleDataIntegrity : error := Sentinel "package rule data integrity failure".
Definition ErrRuleStoreUnavailable : error := Sentinel "package rule store unavailable".
Definition context_Canceled : error := Sentinel "context canceled".
Definition context_DeadlineExceeded : error := Sentinel "context deadline exceeded".

(** What the store asks of the database driver's errors: the SQLite result code
    found in the chain by [errors.As], and whether the chain holds a sentinel of
    the driver or the mapper ([sql.ErrConnDone], [driver.ErrBadConn],
    [gorm.ErrInvalidDB]). *)
Class DriverErrors := {
  sqlite_code : error -> option Z;
  driver_sentinel : error -> bool;
}.

(** The rows of [package_rules] behind the object mapper.  An operation returns
    the table it leaves; a failed one leaves the table unchanged. *)
Class RuleTable (T : Type) := {
  rows : T -> list PackageRule;
  (** [INSERT]: the row as stored, with its key and timestamps assigned. *)
  insert_row : PackageRule -> T -> result (PackageRule * T);
  first_row : Z -> T -> result PackageRule;
  save_row : PackageRule -> T -> result (PackageRule * T);
  (** [DELETE ... WHERE id = ?] with the number of rows affected. *)
  delete_row : Z -> T -> result (Z * T);
}.

Definition ErrRecordNotFound : error := Sentinel "record not found".

(** Two rows with the same columns but for key and timestamps. *)
Record same_columns (r r' : PackageRule) : Prop := {
  sc_raw : raw_of r = raw_of r';
  sc_action : r_Action r = r_Action r';
  sc_reason : r_Reason r = r_Reason r';
  sc_creator : r_CreatedBy r = r_CreatedBy r';
  sc_package : r_NormalizedPackageName r = r_NormalizedPackageName r';
  sc_version : r_NormalizedVersion r = r_NormalizedVersion r';
  sc_revision : r_DialectRevision r = r_DialectRevision r';
}.

(** What the store relies on: a write stores the given columns, a read returns a
    stored row, and no other row changes. *)
Class RuleTableLaws (T : Type) `{RuleTable T} := {
  insert_row_rows rule stored t t' :
    insert_row rule t = Ok (stored, t') ->
    same_columns rule stored /\ forall r, r ∈ rows t' -> r ∈ rows t \/ r = stored;
  first_row_rows id rule t : first_row id t = Ok rule -> rule ∈ rows t /\ r_ID rule = id;
  save_row_rows rule stored t t' :
    save_row rule t = Ok (stored, t') ->
    same_columns rule stored /\ r_ID stored = r_ID rule
    /\ forall r, r ∈ rows t' -> (r ∈ rows t /\ r_ID r <> r_ID rule) \/ r = stored;
  delete_row_rows id n t t' :
    delete_row id t = Ok (n, t') -> forall r, r ∈ rows t' -> r ∈ rows t /\ r_ID r <> id;
}.

(** A table in memory: the rows in order of insertion and the next key. *)
Record memory_table := {
  mt_rows : list PackageRule;
  mt_next : Z;
}.

Definition with_ID (id : Z) (r : PackageRule) : PackageRule :=
  {| r_ID := id; r_Ecosystem := r_Ecosystem r; r_PackageName := r_PackageName r; r_Version := r_Version r;
     r_Action := r_Action r; r_Reason := r_Reason r; r_CreatedBy := r_CreatedBy r; r_CreatedAt := r_CreatedAt r;
     r_UpdatedAt := r_UpdatedAt r; r_NormalizedPackageName := r_NormalizedPackageName r;
     r_NormalizedVersion := r_NormalizedVersion r; r_DialectRevision := r_DialectRevision r |}.

#[export] Instance memory_rows : RuleTable memory_table := {|
  rows := mt_rows;
  insert_row r t :=
    let stored := with_ID (mt_next t) r in
    Ok (stored, {| mt_rows := mt_rows t ++ [stored]; mt_next := mt_next t + 1 |});
  first_row id t :=
    match find (fun r => r_ID r =? id) (mt_rows t) with Some r => Ok r | None => Err ErrRecordNotFound end;
  save_row r t :=
    Ok (r, {| mt_rows := filter (fun x => r_ID x <> r_ID r) (mt_rows t) ++ [r]; mt_next := mt_next t |});
  delete_row id t :=
    let kept := filter (fun x => r_ID x <> id) (mt_rows t) in
    Ok (len (mt_rows t) - len kept, {| mt_rows := kept; mt_next := mt_next t |});
|}.

#[export] Instance memory_laws : RuleTableLaws memory_table.
Proof.
  split.
  - intros rule stored t t' [= <- <-]. split; [by destruct rule|].
    intros r [Hr|Hr%list_elem_of_singleton]%elem_of_app; auto.
  - intros id rule t. unfold first_row, memory_rows. destruct (find _ _) as [r|] eqn:E; [|done].
    intros [= <-]. apply find_some in E as [Hin%list_elem_of_In Hid]. split; [done | lia].
  - intros rule stored t t' [= <- <-]. split; [by split|]. split; [done|].
    intros r [[? ?]%list_elem_of_filter|?%list_elem_of_singleton]%elem_of_app; auto.
  - intros id n t t' [= <- <-] r [? ?]%list_elem_of_filter. done.
Qed.

Section store.
Context `{UnicodeTables} `{EnglishLower} `{ModulePackage} `{DriverErrors} `{RuleTable T}.

Definition prepareRuleModel (rule : option PackageRule) : result PackageRule :=
  match rule with
  | None => Err (Sentinel "package rule is nil")
  | Some rule =>
    prepared ← PrepareRule (raw_of rule);
    action ← NormalizeRuleAction (r_Action rule);
    let reason := trim_space (r_Reason rule) in
    if too_long_or_control reason 512
    then invalid_rule "%w: reason must be at most 512 characters and contain no control characters" else
    let createdBy := trim_space (r_CreatedBy rule) in
    if too_long_or_control createdBy 64
    then invalid_rule "%w: creator must be at most 64 characters and contain no control characters" else
    Ok {| r_ID := r_ID rule;
          r_Ecosystem := pr_Ecosystem prepared;
          r_PackageName := pr_PackageName prepared;
          r_Version := pr_Version prepared;
          r_Action := action;
          r_Reason := reason;
          r_CreatedBy := createdBy;
          r_CreatedAt := r_CreatedAt rule;
          r_UpdatedAt := r_UpdatedAt rule;
          r_NormalizedPackageName := pr_NormalizedPackageName prepared;
          r_NormalizedVersion := pr_NormalizedVersion prepared;
          r_DialectRevision := pr_DialectRevision prepared |}
  end.

(** ** Operations; the write lock makes each of them one step *)

Definition Create (rule : option PackageRule) (t : T) : result (PackageRule * T) :=
  rule ← prepareRuleModel rule;
  insert_row rule t.

Definition Update (id : Z) (patch : RulePatch) (t : T) : result (PackageRule * T) :=
  updated ← first_row id t;
  updated ← prepareRuleModel (Some (applyRulePatch updated patch));
  save_row updated t.

Definition Delete (id : Z) (t : T) : result T :=
  '(affected, t) ← delete_row id t;
  if affected =? 0 then Err ErrRecordNotFound else Ok t.

(** ** Reading *)

Definition isRuleStoreAvailabilityError (e : error) : bool :=
  if errors_is e "context canceled" || errors_is e "context deadline exceeded" || driver_sentinel e
  then true else
  match sqlite_code e with
  | None => false
  | Some code =>
    let primary := Z.land code 0xff in
    existsb (Z.eqb primary) [5; 6; 7; 9; 10; 13; 14; 15; 22]
  end.

Definition isSQLiteRuleStoreAuthorizationError (e : error) : bool :=
  match sqlite_code e with Some code => Z.land code 0xff =? 23 | None => false end.

Definition classifyImmediateRuleStoreReadError (e : error) : option error :=
  if errors_is e "package rule data integrity failure" then Some e else
  if isSQLiteRuleStoreAuthorizationError e
  then Some (Errorf "%w: SQLite authorization denied while reading package rules: %v" [ErrRuleDataIntegrity]) else
  if isRuleStoreAvailabilityError e then Some (Errorf "%w: %v" [ErrRuleStoreUnavailable]) else
  None.

(** [List]: the handle, the first ping, the transaction that counts malformed
    rows and reads the table, and the second ping are the database's answers. *)
Definition List (handle ping : result unit) (invalid : result Z) (found : result (list PackageRule))
    (ping_again : result unit) : result (list PackageRule) :=
  match handle with Err _ => Err (Errorf "%w: access database handle: %v" [ErrRuleStoreUnavailable]) | Ok _ =>
  match ping with Err _ => Err (Errorf "%w: ping database: %v" [ErrRuleStoreUnavailable]) | Ok _ =>
  let transaction :=
    invalid ← invalid;
    if negb (invalid =? 0)
    then Err (Errorf "%w: %d row(s) have invalid SQLite storage types" [ErrRuleDataIntegrity])
    else found in
  match transaction with
  | Ok rules => Ok rules
  | Err e =>
    match classifyImmediateRuleStoreReadError e with
    | Some classified => Err classified
    | None =>
      match ping_again with
      | Err _ => Err (Errorf "%w: read failed (%v); ping failed: %v" [ErrRuleStoreUnavailable])
      | Ok _ => Err (Errorf "%w: read package rules: %v" [ErrRuleDataIntegrity])
      end
    end
  end end end.

End store.
