(* ===== verification/Engine.v ===== *)
(** * Rule evaluation (internal/rules/engine.go)

    Compilation of persisted rules, the precedence tuple, the two selection
    paths (the request path and the explanation), and the check of artifacts
    without a complete identity. *)

From S2P Require Export RuleStore.

Definition ErrPolicyIntegrity : error := Sentinel "package policy integrity failure".
Definition ErrPolicyEvaluation : error := Sentinel "package policy evaluation failure".

(** ** Precedence *)

Record RuleSpecificity := {
  sp_Priority : Z;
  sp_Ecosystem : Z;
  sp_Package : Z;
  sp_Version : Z;
  sp_Action : Z;
  sp_ID : Z;
}.

Definition Compare (s other : RuleSpecificity) : Z :=
  if negb (sp_Priority s =? sp_Priority other) then (if sp_Priority s >? sp_Priority other then 1 else -1) else
  if negb (sp_Ecosystem s =? sp_Ecosystem other) then (if sp_Ecosystem s >? sp_Ecosystem other then 1 else -1) else
  if negb (sp_Package s =? sp_Package other) then (if sp_Package s >? sp_Package other then 1 else -1) else
  if negb (sp_Version s =? sp_Version other) then (if sp_Version s >? sp_Version other then 1 else -1) else
  if negb (sp_Action s =? sp_Action other) then (if sp_Action s >? sp_Action other then 1 else -1) else
  if negb (sp_ID s =? sp_ID other) then (if sp_ID s >? sp_ID other then 1 else -1) else
  0.

(** ** Compiled rules *)

Inductive selectorKind := selectorWildcard | selectorPrefix | selectorRange | selectorExact.

Definition is_wildcard (kind : selectorKind) : bool :=
  match kind with selectorWildcard => true | _ => false end.

Record compiledRule := {
  cr_model : PackageRule;
  cr_packageKind : selectorKind;
  cr_packageValue : gostring;
  cr_versionKind : selectorKind;
  (** a nil interface is [None] *)
  cr_version : option VersionMatcher;
}.

Definition hasComparisonOperator (value : gostring) : bool :=
  existsb (has_prefix value) comparison_operators.

(** The switch on the normalized package name. *)
Definition compile_package (normalized : gostring) : selectorKind * gostring :=
  if str_eqb normalized star then (selectorWildcard, normalized)
  else if has_suffix normalized star then (selectorPrefix, trim_suffix normalized star)
  else (selectorExact, normalized).

(** The switch on the normalized version. *)
Definition compile_version_kind (normalized : gostring) : selectorKind :=
  if str_eqb normalized star then selectorWildcard
  else if hasComparisonOperator normalized then selectorRange
  else selectorExact.

Definition persisted_matches (model : PackageRule) (prepared : PreparedRule) : bool :=
  str_eqb (r_Ecosystem model) (pr_Ecosystem prepared)
  && str_eqb (r_PackageName model) (pr_PackageName prepared)
  && str_eqb (r_Version model) (pr_Version prepared)
  && str_eqb (r_NormalizedPackageName model) (pr_NormalizedPackageName prepared)
  && str_eqb (r_NormalizedVersion model) (pr_NormalizedVersion prepared)
  && (r_DialectRevision model =? pr_DialectRevision prepared).

(** ** Evaluation results *)

Record RuleMatchLevels := {
  lvl_Ecosystem : gostring;
  lvl_Package : gostring;
  lvl_Version : gostring;
}.

Record RuleCandidate := {
  cand_Rule : PackageRule;
  cand_Specificity : RuleSpecificity;
  cand_MatchLevels : RuleMatchLevels;
  cand_Matched : bool;
  cand_Selected : bool;
  cand_Explanation : gostring;
}.

Record Evaluation := {
  ev_Allowed : bool;
  ev_MatchedRule : option PackageRule;
  ev_Reason : gostring;
  ev_WinnerReason : gostring;
  ev_PrecedenceReason : gostring;
  ev_Winner : option RuleCandidate;
  ev_Candidates : list RuleCandidate;
}.

Definition specificity (r : compiledRule) : RuleSpecificity :=
  {| sp_Priority := 0;
     sp_Ecosystem := if str_eqb (r_Ecosystem (cr_model r)) star then 1 else 2;
     sp_Package := match cr_packageKind r with selectorPrefix => 1 | selectorExact => 2 | _ => 0 end;
     sp_Version := match cr_versionKind r with selectorRange => 1 | selectorExact => 2 | _ => 0 end;
     sp_Action := if str_eqb (r_Action (cr_model r)) (bs "deny") then 1 else 0;
     sp_ID := r_ID (cr_model r) |}.

Definition matchLevels (r : compiledRule) : RuleMatchLevels :=
  {| lvl_Ecosystem := if str_eqb (r_Ecosystem (cr_model r)) star then bs "wildcard" else bs "exact";
     lvl_Package := match cr_packageKind r with
                    | selectorPrefix => bs "prefix" | selectorExact => bs "exact" | _ => bs "wildcard" end;
     lvl_Version := match cr_versionKind r with
                    | selectorRange => bs "range" | selectorExact => bs "exact" | _ => bs "wildcard" end |}.

Definition defaultDecisionReason (action : gostring) : gostring :=
  if str_eqb action (bs "deny") then bs "matched deny rule" else bs "matched allow rule".

Definition explainCandidate (specificity : RuleSpecificity) (action : gostring) : gostring :=
  let label := if str_eqb action (bs "deny") then bs " deny=" else bs " allow=" in
  bs "priority=" ++ format_int (sp_Priority specificity)
  ++ bs " ecosystem=" ++ format_int (sp_Ecosystem specificity)
  ++ bs " package=" ++ format_int (sp_Package specificity)
  ++ bs " version=" ++ format_int (sp_Version specificity)
  ++ label ++ format_int (sp_Action specificity)
  ++ bs " id=" ++ format_int (sp_ID specificity).

(** The loop over the losing candidates. *)
Fixpoint precedence_against (winner : RuleSpecificity) (others : list RuleCandidate) : gostring :=
  match others with
  | [] => bs "stable_order"
  | candidate :: rest =>
    let other := cand_Specificity candidate in
    if negb (sp_Priority winner =? sp_Priority other) then bs "priority"
    else if negb (sp_Ecosystem winner =? sp_Ecosystem other) then bs "ecosystem_specificity"
    else if negb (sp_Package winner =? sp_Package other) then bs "package_specificity"
    else if negb (sp_Version winner =? sp_Version other) then bs "version_specificity"
    else if negb (sp_Action winner =? sp_Action other) then bs "deny_tie_break"
    else if negb (sp_ID winner =? sp_ID other) then bs "id_tie_break"
    else precedence_against winner rest
  end.

Definition precedenceReason (candidates : list RuleCandidate) : gostring :=
  match candidates with
  | [] => bs "default_allow"
  | [_] => bs "only_matching_rule"
  | winner :: others => precedence_against (cand_Specificity winner) others
  end.

(** [sort.SliceStable] with [less i j := Compare (i, j) > 0]: insertion from the
    right, which keeps the order of equal elements. *)
Definition sorts_before (c d : RuleCandidate) : bool :=
  Compare (cand_Specificity c) (cand_Specificity d) >? 0.

Fixpoint insert_candidate (c : RuleCandidate) (l : list RuleCandidate) : list RuleCandidate :=
  match l with
  | [] => [c]
  | d :: l' => if sorts_before d c then d :: insert_candidate c l' else c :: l
  end.

Definition sort_candidates (l : list RuleCandidate) : list RuleCandidate := foldr insert_candidate [] l.

Definition select_candidate (c : RuleCandidate) : RuleCandidate :=
  {| cand_Rule := cand_Rule c; cand_Specificity := cand_Specificity c; cand_MatchLevels := cand_MatchLevels c;
     cand_Matched := cand_Matched c; cand_Selected := true; cand_Explanation := cand_Explanation c |}.

Section engine.
Context `{UnicodeTables} `{EnglishLower} `{ModulePackage}.

Definition compilePersistedRule (model : PackageRule) : result compiledRule :=
  prepared ← PrepareRule (raw_of model);
  if negb (persisted_matches model prepared)
  then fail "persisted raw/normalized values do not match dialect revision %d" else
  if negb (str_eqb (r_Action model) (bs "allow")) && negb (str_eqb (r_Action model) (bs "deny"))
  then fail "unsupported action %q" else
  let '(packageKind, packageValue) := compile_package (r_NormalizedPackageName model) in
  let compiled version :=
    {| cr_model := model; cr_packageKind := packageKind; cr_packageValue := packageValue;
       cr_versionKind := compile_version_kind (r_NormalizedVersion model); cr_version := version |} in
  if str_eqb (r_Ecosystem model) star then Ok (compiled None) else
  matcher ← CompileVersionMatcher (r_Ecosystem model) (r_NormalizedVersion model);
  Ok (compiled (Some matcher)).

(** The package switch of [matchSpecificity]; a range is no package selector. *)
Definition package_matches (r : compiledRule) (normalizedPackage : gostring) : bool :=
  match cr_packageKind r with
  | selectorPrefix => has_prefix normalizedPackage (cr_packageValue r)
  | selectorExact => str_eqb normalizedPackage (cr_packageValue r)
  | selectorWildcard | selectorRange => true
  end.

(** [matchSpecificity]: [Ok None] is (zero, false, nil). *)
Definition matchSpecificity (r : compiledRule) (ecosystem normalizedPackage actualVersion : gostring)
    : result (option RuleSpecificity) :=
  if negb (str_eqb (r_Ecosystem (cr_model r)) star) && negb (str_eqb (r_Ecosystem (cr_model r)) ecosystem)
  then Ok None else
  if negb (package_matches r normalizedPackage) then Ok None else
  if is_wildcard (cr_versionKind r) then Ok (Some (specificity r)) else
  if str_eqb actualVersion [] then Ok None else
  match cr_version r with
  | None => Err (Sentinel "version matcher is missing")
  | Some matcher =>
    match Match matcher actualVersion with
    | (_, Some e) => Err e
    | (matched, None) => Ok (if matched then Some (specificity r) else None)
    end
  end.

Definition evaluate_rule (r : compiledRule) (ecosystem normalizedPackage version : gostring)
    : result (option RuleSpecificity) :=
  recast "%w: evaluate rule %d: %v" [ErrPolicyEvaluation] (matchSpecificity r ecosystem normalizedPackage version).

(** ** The request path *)

Abbreviation best := (option (PackageRule * RuleSpecificity)).

Definition improve (current : best) (r : compiledRule) (found : option RuleSpecificity) : best :=
  match found with
  | None => current
  | Some specificity =>
    match current with
    | Some (_, bestSpecificity) =>
      if Compare specificity bestSpecificity <=? 0 then current else Some (cr_model r, specificity)
    | None => Some (cr_model r, specificity)
    end
  end.

Fixpoint select_from (current : best) (rules : list compiledRule)
    (ecosystem normalizedPackage version : gostring) : result best :=
  match rules with
  | [] => Ok current
  | r :: rules =>
    found ← evaluate_rule r ecosystem normalizedPackage version;
    select_from (improve current r found) rules ecosystem normalizedPackage version
  end.

Definition selectBestCompiledRule (rules : list compiledRule)
    (ecosystem normalizedPackage version : gostring) : result (option PackageRule) :=
  b ← select_from None rules ecosystem normalizedPackage version;
  Ok (option_map fst b).

(** ** The explanation *)

Definition candidate_of (r : compiledRule) (s : RuleSpecificity) : RuleCandidate :=
  {| cand_Rule := cr_model r; cand_Specificity := s; cand_MatchLevels := matchLevels r;
     cand_Matched := true; cand_Selected := false;
     cand_Explanation := explainCandidate s (r_Action (cr_model r)) |}.

Fixpoint candidates_from (rules : list compiledRule) (ecosystem normalizedPackage version : gostring)
    : result (list RuleCandidate) :=
  match rules with
  | [] => Ok []
  | r :: rules =>
    found ← evaluate_rule r ecosystem normalizedPackage version;
    rest ← candidates_from rules ecosystem normalizedPackage version;
    Ok (match found with Some s => candidate_of r s :: rest | None => rest end)
  end.

Definition evaluateCompiledRules (rules : list compiledRule) (ecosystem normalizedPackage version : gostring)
    : result Evaluation :=
  candidates ← candidates_from rules ecosystem normalizedPackage version;
  match sort_candidates candidates with
  | [] =>
    Ok {| ev_Allowed := true; ev_MatchedRule := None; ev_Reason := bs "no matching rule; default allow";
          ev_WinnerReason := []; ev_PrecedenceReason := bs "default_allow"; ev_Winner := None;
          ev_Candidates := [] |}
  | first :: losers =>
    let winner := select_candidate first in
    let winningRule := cand_Rule winner in
    let candidates := winner :: losers in
    Ok {| ev_Allowed := str_eqb (r_Action winningRule) (bs "allow"); ev_MatchedRule := Some winningRule;
          ev_Reason := r_Reason winningRule;
          ev_WinnerReason := if str_eqb (r_Reason winningRule) []
                             then defaultDecisionReason (r_Action winningRule) else r_Reason winningRule;
          ev_PrecedenceReason := precedenceReason candidates; ev_Winner := Some winner;
          ev_Candidates := candidates |}
  end.

(** ** Artifacts without a complete identity *)

Definition in_ecosystem (ecosystem : gostring) (r : compiledRule) : bool :=
  str_eqb (r_Ecosystem (cr_model r)) star || str_eqb (r_Ecosystem (cr_model r)) ecosystem.

Definition unconditional (r : compiledRule) : bool :=
  is_wildcard (cr_packageKind r) && is_wildcard (cr_versionKind r).

(** The first loop: the best unconditional rule of the ecosystem. *)
Definition improve_fallback (ecosystem : gostring) (current : best) (r : compiledRule) : best :=
  if negb (in_ecosystem ecosystem r) then current else
  if negb (unconditional r) then current else
  match current with
  | None => Some (cr_model r, specificity r)
  | Some (_, fallbackSpecificity) =>
    if Compare (specificity r) fallbackSpecificity >? 0 then Some (cr_model r, specificity r) else current
  end.

Definition incomplete_fallback (rules : list compiledRule) (ecosystem : gostring) : option PackageRule :=
  option_map fst (fold_left (improve_fallback ecosystem) rules None).

(** The second loop: a more specific rule with another action. *)
Definition may_change (ecosystem fallbackAction : gostring) (r : compiledRule) : bool :=
  in_ecosystem ecosystem r && negb (unconditional r) && negb (str_eqb (r_Action (cr_model r)) fallbackAction).

Definition checkIncomplete (rules : list compiledRule) (ecosystem : gostring)
    : result (bool * option PackageRule) :=
  let fallback := incomplete_fallback rules ecosystem in
  let fallbackAction := match fallback with Some r => r_Action r | None => bs "allow" end in
  if existsb (may_change ecosystem fallbackAction) rules
  then Err (Errorf "%w: incomplete %s artifact identity may select rule %d with action %s instead of %s" [ErrPolicyEvaluation])
  else Ok (str_eqb fallbackAction (bs "allow"), fallback).

(** The preparation of a request shared by [Check] and [Explain]. *)
Definition request_identity (ecosystem packageName : gostring) : result (gostring * gostring) :=
  let ecosystem := to_lower (trim_space ecosystem) in
  let unavailable := Err (Errorf "%w: package rules are unavailable for ecosystem %q" [ErrPolicyEvaluation]) in
  match Lookup ecosystem with
  | None => unavailable
  | Some definition =>
    if negb (def_RuleEnforcement definition) then unavailable else
    dialect ← recast "%w: %v" [ErrPolicyEvaluation] (DialectFor ecosystem);
    normalizedPackage ← recast "%w: normalize %s package %q: %v" [ErrPolicyEvaluation]
                          (NormalizePackageName dialect packageName);
    Ok (ecosystem, normalizedPackage)
  end.

End engine.
