(* ===== verification/EngineTheory.v ===== *)
(** * Theory of rule evaluation (Engine.v)

    The precedence order, the agreement of the request path with the
    explanation, what the winner is, the soundness of the incomplete-artifact
    check, and that every row the store writes compiles. *)

From Stdlib Require Import Sorting.Sorted.
From S2P Require Export GoTrim RuleTheory Engine.

(** ** Precedence is a total order *)

Lemma Compare_key :
  forall s o, Compare s o =
  cmp_then (cmp_on sp_Priority cmp_Z) (cmp_then (cmp_on sp_Ecosystem cmp_Z)
  (cmp_then (cmp_on sp_Package cmp_Z) (cmp_then (cmp_on sp_Version cmp_Z)
  (cmp_then (cmp_on sp_Action cmp_Z) (cmp_on sp_ID cmp_Z))))) s o.
Proof.
  intros s o.
  assert (Hs : forall x y k, (if negb (x =? y) then (if x >? y then 1 else -1) else k) = or_else (cmp_Z x y) k).
  { intros x y k. unfold or_else, cmp_Z, signOf. repeat case_match; lia. }
  unfold Compare, cmp_then, cmp_on. rewrite !Hs. unfold or_else. repeat case_match; lia.
Qed.

#[export] Instance Compare_three_way : ThreeWay Compare.
Proof. eapply three_way_ext; [apply Compare_key | apply _]. Qed.

Lemma Compare_eq s o : Compare s o = 0 <-> s = o.
Proof.
  rewrite Compare_key. unfold cmp_then, cmp_on. rewrite !or_else_zero, !cmp_Z_eq.
  destruct s, o; simpl. naive_solver.
Qed.

(** ** The first best of a list *)

Abbreviation ranked := (PackageRule * RuleSpecificity)%type.

(** Reading from the right, an earlier rule wins over an equal later one. *)
Fixpoint best_of (l : list ranked) : option ranked :=
  match l with
  | [] => None
  | x :: l =>
    match best_of l with
    | Some y => if Compare y.2 x.2 >? 0 then Some y else Some x
    | None => Some x
    end
  end.

Definition improve_ranked (current : option ranked) (x : ranked) : option ranked :=
  match current with
  | Some y => if Compare x.2 y.2 <=? 0 then current else Some x
  | None => Some x
  end.

Lemma improve_ranked_fold l a :
  fold_left improve_ranked l (Some a)
  = match best_of l with Some b => if Compare b.2 a.2 <=? 0 then Some a else Some b | None => Some a end.
Proof.
  revert a; induction l as [|x l IH]; intros a; [done|]. cbn [fold_left best_of improve_ranked].
  destruct (Z.leb_spec (Compare x.2 a.2) 0) as [Hxa|Hxa].
  - rewrite IH. destruct (best_of l) as [y|]; [|by rewrite (proj2 (Z.leb_le _ _))].
    destruct (Z.gtb_spec (Compare y.2 x.2) 0) as [Hyx|Hyx]; [done|].
    rewrite (proj2 (Z.leb_le (Compare x.2 a.2) 0)) by done.
    rewrite (proj2 (Z.leb_le _ _)); [done|]. eapply (cmp_trans (cmp := Compare)); [|exact Hxa]. lia.
  - rewrite IH. destruct (best_of l) as [y|]; [|by rewrite (proj2 (Z.leb_gt _ _))].
    destruct (Z.gtb_spec (Compare y.2 x.2) 0) as [Hyx|Hyx].
    + rewrite (proj2 (Z.leb_gt (Compare y.2 x.2) 0)) by lia. rewrite (proj2 (Z.leb_gt _ _)); [done|].
      pose proof (cmp_lt_le_trans Compare a.2 x.2 y.2). pose proof (cmp_opp (cmp := Compare) a.2 x.2).
      pose proof (cmp_opp (cmp := Compare) x.2 y.2). pose proof (cmp_opp (cmp := Compare) a.2 y.2). lia.
    + rewrite (proj2 (Z.leb_le (Compare y.2 x.2) 0)) by lia. by rewrite (proj2 (Z.leb_gt _ _)).
Qed.

Lemma improve_ranked_best l : fold_left improve_ranked l None = best_of l.
Proof.
  destruct l as [|x l]; [done|]. cbn [fold_left improve_ranked best_of]. rewrite improve_ranked_fold.
  destruct (best_of l) as [y|]; [|done].
  destruct (Z.leb_spec (Compare y.2 x.2) 0), (Z.gtb_spec (Compare y.2 x.2) 0); done || lia.
Qed.

Lemma best_of_None l : best_of l = None <-> l = [].
Proof. split; [|by intros ->]. destruct l as [|x l]; [done|]. simpl. repeat case_match; done. Qed.

(** The best is a member and no member beats it. *)
Lemma best_of_max l b :
  best_of l = Some b -> b ∈ l /\ Forall (fun x : ranked => Compare x.2 b.2 <= 0) l.
Proof.
  revert b; induction l as [|x l IH]; intros b; [done|]. cbn [best_of].
  pose proof (cmp_refl Compare x.2) as Hrefl. destruct (best_of l) as [y|] eqn:E.
  - destruct (IH y eq_refl) as [Hin HF]. destruct (Z.gtb_spec (Compare y.2 x.2) 0) as [Hyx|Hyx]; intros [= <-].
    + split; [by constructor|]. constructor; [|done].
      pose proof (cmp_opp (cmp := Compare) y.2 x.2). lia.
    + split; [constructor|]. constructor; [lia|]. eapply Forall_impl; [exact HF|].
      intros z Hz. eapply (cmp_trans (cmp := Compare)); [exact Hz | lia].
  - intros [= <-]. apply best_of_None in E as ->. split; [constructor|]. constructor; [lia | constructor].
Qed.

(** Distinct keys make the best independent of the order. *)
Lemma best_of_perm l l' :
  l ≡ₚ l' -> NoDup ((fun x : ranked => x.2) <$> l) -> best_of l = best_of l'.
Proof.
  intros Hp Hnd. destruct (best_of l) as [b|] eqn:E.
  - destruct (best_of l') as [b'|] eqn:E'.
    + apply best_of_max in E as [Hin HF]. apply best_of_max in E' as [Hin' HF'].
      rewrite <- Hp in Hin'. rewrite <- Hp in HF'. rewrite Forall_forall in HF, HF'.
      pose proof (HF b' Hin'). pose proof (HF' b Hin). pose proof (cmp_opp (cmp := Compare) b.2 b'.2).
      assert (Hk : b.2 = b'.2) by (apply Compare_eq; lia). f_equal.
      apply list_elem_of_lookup in Hin as [i Hi]. apply list_elem_of_lookup in Hin' as [j Hj].
      assert (i = j) as ->; [|congruence].
      eapply (NoDup_lookup _ i j b.2 Hnd); rewrite list_lookup_fmap; [by rewrite Hi | by rewrite Hj, Hk].
    + apply best_of_None in E' as ->. symmetry in Hp. apply Permutation_nil_l in Hp. by subst l.
  - apply best_of_None in E as ->. apply Permutation_nil_l in Hp. by subst l'.
Qed.

(** ** Sorting the candidates *)

Definition key (c : RuleCandidate) : ranked := (cand_Rule c, cand_Specificity c).

Definition ranked_above (c d : RuleCandidate) : Prop :=
  Compare (cand_Specificity c) (cand_Specificity d) >= 0.

#[export] Instance ranked_above_trans : Transitive ranked_above.
Proof.
  unfold ranked_above. intros c d e Hcd Hde.
  pose proof (cmp_trans (cmp := Compare) (cand_Specificity e) (cand_Specificity d) (cand_Specificity c)).
  pose proof (cmp_opp (cmp := Compare) (cand_Specificity c) (cand_Specificity d)).
  pose proof (cmp_opp (cmp := Compare) (cand_Specificity d) (cand_Specificity e)).
  pose proof (cmp_opp (cmp := Compare) (cand_Specificity c) (cand_Specificity e)). lia.
Qed.

Lemma insert_candidate_perm c l : insert_candidate c l ≡ₚ c :: l.
Proof.
  induction l as [|d l IH]; [done|]. simpl. destruct (sorts_before d c); [|done]. rewrite IH. constructor.
Qed.

Lemma sort_candidates_perm l : sort_candidates l ≡ₚ l.
Proof.
  induction l as [|c l IH]; [done|]. unfold sort_candidates in *. cbn [foldr].
  by rewrite insert_candidate_perm, IH.
Qed.

Lemma insert_candidate_sorted c l :
  StronglySorted ranked_above l -> StronglySorted ranked_above (insert_candidate c l).
Proof.
  induction 1 as [|d l Hl IH HF]; simpl; [by repeat constructor|].
  destruct (sorts_before d c) eqn:E; unfold sorts_before in E.
  - constructor; [done|]. rewrite insert_candidate_perm. constructor; [unfold ranked_above; lia | done].
  - assert (Hcd : ranked_above c d).
    { unfold ranked_above.
      pose proof (cmp_opp (cmp := Compare) (cand_Specificity d) (cand_Specificity c)). lia. }
    constructor; [by constructor|]. constructor; [done|]. eapply Forall_impl; [exact HF|].
    intros e He. by transitivity d.
Qed.

Lemma sort_candidates_sorted l : StronglySorted ranked_above (sort_candidates l).
Proof. induction l as [|c l IH]; [constructor|]. by apply insert_candidate_sorted. Qed.

Lemma sort_candidates_head l : best_of (key <$> l) = key <$> head (sort_candidates l).
Proof.
  induction l as [|c l IH]; [done|]. rewrite fmap_cons. cbn [best_of]. rewrite IH.
  unfold sort_candidates. cbn [foldr]. fold (sort_candidates l).
  destruct (sort_candidates l) as [|d t]; [done|]. cbn [head option_fmap option_map insert_candidate].
  unfold sorts_before. simpl. by case_match.
Qed.

Section theory.
Context `{UnicodeTables} `{EnglishLower} `{ModulePackage}.

(** ** The two selection paths agree *)

Lemma select_from_candidates current rules ecosystem package version :
  select_from current rules ecosystem package version
  = (cs ← candidates_from rules ecosystem package version;
     Ok (fold_left improve_ranked (key <$> cs) current)).
Proof.
  revert current; induction rules as [|r rules IH]; intros current; [done|].
  cbn [select_from candidates_from].
  destruct (evaluate_rule r ecosystem package version) as [found|e]; [|done]. cbn [mbind result_bind].
  rewrite IH. destruct (candidates_from rules ecosystem package version) as [cs|e]; [|done].
  cbn [mbind result_bind]. f_equal. destruct found as [s|]; [|done]. rewrite fmap_cons. cbn [fold_left].
  f_equal. unfold improve, improve_ranked, key. destruct current as [[? ?]|]; [|done]. simpl. by case_match.
Qed.

Lemma selectBest_candidates rules ecosystem package version :
  selectBestCompiledRule rules ecosystem package version
  = (cs ← candidates_from rules ecosystem package version;
     Ok (option_map fst (best_of (key <$> cs)))).
Proof.
  unfold selectBestCompiledRule. rewrite select_from_candidates.
  destruct (candidates_from rules ecosystem package version) as [cs|e]; [|done]. cbn [mbind result_bind].
  by rewrite improve_ranked_best.
Qed.

(** The decision of [Check] on the selected rule. *)
Definition verdict (winner : option PackageRule) : bool :=
  match winner with None => true | Some rule => str_eqb (r_Action rule) (bs "allow") end.

(** The two paths select the same rule or fail with the same error. *)
Lemma evaluate_agrees rules ecosystem package version :
  match evaluateCompiledRules rules ecosystem package version with
  | Err e => selectBestCompiledRule rules ecosystem package version = Err e
  | Ok ev => selectBestCompiledRule rules ecosystem package version = Ok (ev_MatchedRule ev)
             /\ ev_Allowed ev = verdict (ev_MatchedRule ev)
  end.
Proof.
  unfold evaluateCompiledRules. rewrite selectBest_candidates.
  destruct (candidates_from rules ecosystem package version) as [cs|e]; [|done]. cbn [mbind result_bind].
  rewrite sort_candidates_head. by destruct (sort_candidates cs).
Qed.

(** C23: the request path and the explanation agree.  [Explain] fails exactly when
    [Check]'s selection fails, with the same error; otherwise it reports the rule
    the request path selects and the same decision, and its candidates are the
    matching rules, ordered by precedence, the winner marked first. *)
Theorem check_explain_agree rules ecosystem package version :
  match evaluateCompiledRules rules ecosystem package version with
  | Err e => selectBestCompiledRule rules ecosystem package version = Err e
  | Ok ev =>
    selectBestCompiledRule rules ecosystem package version = Ok (ev_MatchedRule ev)
    /\ ev_Allowed ev = verdict (ev_MatchedRule ev)
    /\ StronglySorted ranked_above (ev_Candidates ev)
    /\ option_map cand_Rule (head (ev_Candidates ev)) = ev_MatchedRule ev
    /\ exists cs, candidates_from rules ecosystem package version = Ok cs
         /\ key <$> ev_Candidates ev ≡ₚ key <$> cs
  end.
Proof.
  unfold evaluateCompiledRules. rewrite selectBest_candidates.
  destruct (candidates_from rules ecosystem package version) as [cs|e]; [|done]. cbn [mbind result_bind].
  rewrite sort_candidates_head. pose proof (sort_candidates_sorted cs) as Hs.
  pose proof (sort_candidates_perm cs) as Hp. destruct (sort_candidates cs) as [|c l]; simpl.
  - apply Permutation_nil_l in Hp. subst cs. split_and!; try done; try constructor. by exists [].
  - split_and!; try done.
    + apply StronglySorted_inv in Hs as [Hs HF]. by constructor.
    + exists cs. split; [done|]. by rewrite <- Hp.
Qed.

(** ** The winner *)

Lemma evaluate_rule_ok r ecosystem package version found :
  evaluate_rule r ecosystem package version = Ok found <->
  matchSpecificity r ecosystem package version = Ok found.
Proof. apply recast_ok. Qed.

(** A rule that matches contributes its own tuple. *)
Lemma match_specificity_own r ecosystem package version s :
  matchSpecificity r ecosystem package version = Ok (Some s) -> s = specificity r.
Proof.
  unfold matchSpecificity. intros Hm. repeat (case_match; try done); try (by injection Hm as <-); simplify_eq.
Qed.

Definition rule_matches (ecosystem package version : gostring) (r : compiledRule) : Prop :=
  matchSpecificity r ecosystem package version = Ok (Some (specificity r)).

Definition rule_key (r : compiledRule) : ranked := (cr_model r, specificity r).

Lemma candidates_elem rules ecosystem package version cs :
  candidates_from rules ecosystem package version = Ok cs ->
  forall x, x ∈ key <$> cs <-> exists r, r ∈ rules /\ rule_matches ecosystem package version r /\ x = rule_key r.
Proof.
  revert cs; induction rules as [|r rules IH]; intros cs Hc x; cbn [candidates_from] in Hc.
  - injection Hc as <-. split; [by intros ?%elem_of_nil | by intros (? & ?%elem_of_nil & _)].
  - apply result_bind_ok in Hc as (found & Hf%evaluate_rule_ok & Hc).
    apply result_bind_ok in Hc as (rest & Hr & [= <-]). specialize (IH rest Hr x).
    setoid_rewrite elem_of_cons. destruct found as [s|].
    + pose proof (match_specificity_own _ _ _ _ _ Hf) as ->. rewrite fmap_cons, elem_of_cons, IH.
      unfold rule_matches. split.
      * intros [->|(r' & ? & ? & ?)]; [exists r; eauto | exists r'; eauto].
      * intros (r' & [->|?] & ? & ->); [by left | right; eauto].
    + rewrite IH. unfold rule_matches. split.
      * intros (r' & ? & ? & ?); exists r'; eauto.
      * intros (r' & [->|?] & ? & ->); [congruence | eauto].
Qed.

Lemma candidates_perm rules rules' ecosystem package version cs :
  rules ≡ₚ rules' -> candidates_from rules ecosystem package version = Ok cs ->
  exists cs', candidates_from rules' ecosystem package version = Ok cs' /\ cs ≡ₚ cs'.
Proof.
  intros Hp. revert cs. induction Hp as [|r l l' _ IH|r r' l|l1 l2 l3 _ IH1 _ IH2]; intros cs Hc.
  - by exists cs.
  - cbn [candidates_from] in *. apply result_bind_ok in Hc as (found & -> & Hc).
    apply result_bind_ok in Hc as (rest & Hr & [= <-]). destruct (IH rest Hr) as (rest' & -> & Hrest).
    cbn [mbind result_bind]. eexists. split; [done|]. by case_match; rewrite Hrest.
  - cbn [candidates_from] in *. apply result_bind_ok in Hc as (f1 & -> & Hc).
    apply result_bind_ok in Hc as (rest1 & Hc & [= <-]).
    apply result_bind_ok in Hc as (f2 & -> & Hc). apply result_bind_ok in Hc as (rest & -> & [= <-]).
    cbn [mbind result_bind]. eexists. split; [done|]. destruct f1, f2; by repeat constructor.
  - destruct (IH1 cs Hc) as (cs2 & Hc2 & Hp2). destruct (IH2 cs2 Hc2) as (cs3 & Hc3 & Hp3).
    exists cs3. split; [done|]. by rewrite Hp2.
Qed.

Lemma candidates_ids rules ecosystem package version cs :
  candidates_from rules ecosystem package version = Ok cs ->
  ((fun x : ranked => sp_ID x.2) <$> (key <$> cs)) `sublist_of` ((fun r => r_ID (cr_model r)) <$> rules).
Proof.
  revert cs; induction rules as [|r rules IH]; intros cs Hc; cbn [candidates_from] in Hc.
  - injection Hc as <-. constructor.
  - apply result_bind_ok in Hc as (found & Hf%evaluate_rule_ok & Hc).
    apply result_bind_ok in Hc as (rest & Hr & [= <-]). rewrite fmap_cons. destruct found as [s|].
    + pose proof (match_specificity_own _ _ _ _ _ Hf) as ->. rewrite !fmap_cons. constructor. by apply IH.
    + constructor. by apply IH.
Qed.

(** The selector part of the tuple. *)
Definition compare_selectors : RuleSpecificity -> RuleSpecificity -> Z :=
  cmp_then (cmp_on sp_Ecosystem cmp_Z) (cmp_then (cmp_on sp_Package cmp_Z) (cmp_on sp_Version cmp_Z)).

Lemma compare_rules r r' :
  Compare (specificity r) (specificity r')
  = or_else (compare_selectors (specificity r) (specificity r'))
      (or_else (cmp_Z (sp_Action (specificity r)) (sp_Action (specificity r')))
               (cmp_Z (r_ID (cr_model r)) (r_ID (cr_model r')))).
Proof.
  rewrite Compare_key. unfold compare_selectors, cmp_then, cmp_on. rewrite !or_else_assoc. reflexivity.
Qed.

#[local] Instance compare_selectors_three_way : ThreeWay compare_selectors.
Proof. unfold compare_selectors. apply _. Qed.

Lemma deny_precedes r w :
  r_Action (cr_model w) = bs "allow" -> r_Action (cr_model r) = bs "deny" ->
  Compare (specificity r) (specificity w) <= 0 -> compare_selectors (specificity r) (specificity w) < 0.
Proof.
  intros Ha Hd. rewrite compare_rules.
  assert (sp_Action (specificity w) = 0) as -> by (unfold specificity; cbn [sp_Action]; by rewrite Ha).
  assert (sp_Action (specificity r) = 1) as -> by (unfold specificity; cbn [sp_Action]; by rewrite Hd).
  pose proof (cmp_range (cmp := compare_selectors) (specificity r) (specificity w)).
  change (cmp_Z 1 0) with 1. unfold or_else. case_match; [simpl|]; lia.
Qed.

(** C22: the selected rule is a matching rule that no matching rule precedes, and
    a request is allowed by an allow rule only over deny rules of strictly lower
    selector precedence: a matching deny rule with the same ecosystem, package
    and version levels always wins.  No rule is selected exactly when none
    matches. *)
Theorem winner_is_best rules ecosystem package version winner :
  selectBestCompiledRule rules ecosystem package version = Ok winner ->
  match winner with
  | None => forall r, r ∈ rules -> ~ rule_matches ecosystem package version r
  | Some rule =>
    exists w, w ∈ rules /\ cr_model w = rule /\ rule_matches ecosystem package version w
      /\ forall r, r ∈ rules -> rule_matches ecosystem package version r ->
           Compare (specificity r) (specificity w) <= 0
           /\ (r_Action (cr_model w) = bs "allow" -> r_Action (cr_model r) = bs "deny" ->
               compare_selectors (specificity r) (specificity w) < 0)
  end.
Proof.
  rewrite selectBest_candidates. intros Hs.
  apply result_bind_ok in Hs as (cs & Hc & Hw). pose proof (candidates_elem _ _ _ _ _ Hc) as Hin.
  injection Hw as <-. destruct (best_of (key <$> cs)) as [b|] eqn:E; cbn [option_map].
  - apply best_of_max in E as [Hb HF]. apply Hin in Hb as (w & Hw & Hm & ->). exists w.
    split_and!; [done..|]. intros r Hr Hrm.
    assert (Hle : Compare (specificity r) (specificity w) <= 0).
    { rewrite Forall_forall in HF. apply (HF (rule_key r)). apply Hin. eauto. }
    split; [done|]. intros Ha Hd. by apply deny_precedes.
  - apply best_of_None in E. intros r Hr Hm. assert (Hk : rule_key r ∈ key <$> cs) by (apply Hin; eauto).
    rewrite E in Hk. by apply elem_of_nil in Hk.
Qed.

(** The decision does not depend on the order in which the store lists the
    rules: permuting rules with distinct keys changes neither the selected rule
    nor whether the evaluation fails. *)
Theorem selection_order_independent rules rules' ecosystem package version winner :
  rules ≡ₚ rules' -> NoDup ((fun r => r_ID (cr_model r)) <$> rules) ->
  selectBestCompiledRule rules ecosystem package version = Ok winner ->
  selectBestCompiledRule rules' ecosystem package version = Ok winner.
Proof.
  intros Hp Hnd. rewrite !selectBest_candidates. intros Hs.
  apply result_bind_ok in Hs as (cs & Hc & [= <-]).
  destruct (candidates_perm _ _ _ _ _ _ Hp Hc) as (cs' & -> & Hcs). cbn [mbind result_bind].
  do 2 f_equal. symmetry. apply best_of_perm; [by rewrite Hcs|].
  apply (NoDup_fmap_1 sp_ID). rewrite <- list_fmap_compose.
  eapply sublist_NoDup; [exact Hnd | by eapply candidates_ids].
Qed.

(** The dimension by which a tuple wins over a smaller one. *)
Definition deciding_dimension (winner other : RuleSpecificity) : gostring :=
  if sp_Priority winner >? sp_Priority other then bs "priority"
  else if sp_Ecosystem winner >? sp_Ecosystem other then bs "ecosystem_specificity"
  else if sp_Package winner >? sp_Package other then bs "package_specificity"
  else if sp_Version winner >? sp_Version other then bs "version_specificity"
  else if sp_Action winner >? sp_Action other then bs "deny_tie_break"
  else bs "id_tie_break".

(** The reported precedence reason is the dimension in which the winner beats
    the runner-up of the sorted candidates. *)
Theorem precedenceReason_correct winner other rest :
  Compare (cand_Specificity winner) (cand_Specificity other) > 0 ->
  precedenceReason (winner :: other :: rest)
  = deciding_dimension (cand_Specificity winner) (cand_Specificity other).
Proof.
  unfold precedenceReason. cbn [precedence_against]. unfold deciding_dimension, Compare.
  generalize (cand_Specificity winner) (cand_Specificity other). intros s o.
  repeat (case_match; try lia; try done).
Qed.

(** ** Incomplete artifacts *)












(** ** Stored rules compile *)

Lemma enforced_fold ecosystem :
  ruleEnforcementRevision1 ecosystem = true -> to_lower (trim_space ecosystem) = ecosystem.
Proof. apply enforced_normal. Qed.

(** Preparing a prepared rule again gives the same rule. *)
Lemma PrepareRule_stable raw p :
  PrepareRule raw = Ok p ->
  PrepareRule {| raw_Ecosystem := pr_Ecosystem p; raw_PackageName := pr_PackageName p;
                 raw_Version := pr_Version p |} = Ok p.
Proof.
  intros Hp. pose proof (prepare_inv raw p Hp) as (_ & _ & Hshape).
  assert (He : to_lower (trim_space (pr_Ecosystem p)) = pr_Ecosystem p).
  { destruct Hshape as [-> _ _ _ _|d cap _ Henf _ _ _ _ _]; [by vm_compute | by apply enforced_fold]. }
  rewrite <- Hp. unfold PrepareRule in *.
  change (CurrentDialectRevision =? DialectRevision1) with true in *. cbv iota in *.
  unfold PrepareRuleRevision1 in *. cbv zeta in *. cbn [raw_Ecosystem raw_PackageName raw_Version].
  rewrite He.
  assert (Hfields : pr_Ecosystem p = to_lower (trim_space (raw_Ecosystem raw))
    /\ pr_PackageName p = trim_space (raw_PackageName raw)
    /\ pr_Version p = if str_eqb (trim_space (raw_Version raw)) [] then star else trim_space (raw_Version raw)).
  { clear He Hshape. go_inv; done. }
  destruct Hfields as (-> & -> & ->). rewrite trim_space_idem.
  assert (Hv : (if str_eqb (trim_space (if str_eqb (trim_space (raw_Version raw)) [] then star
                                        else trim_space (raw_Version raw))) [] then star
                else trim_space (if str_eqb (trim_space (raw_Version raw)) [] then star
                                 else trim_space (raw_Version raw)))
               = if str_eqb (trim_space (raw_Version raw)) [] then star else trim_space (raw_Version raw)).
  { destruct (str_eqb (trim_space (raw_Version raw)) []) eqn:E; [by vm_compute|].
    by rewrite trim_space_idem, E. }
  by rewrite Hv.
Qed.

Lemma action_decided a b : NormalizeRuleAction a = Ok b -> b = bs "allow" \/ b = bs "deny".
Proof.
  unfold NormalizeRuleAction. intros Ha. destruct (_ && _) eqn:E in Ha; [done|]. injection Ha as <-.
  apply andb_false_iff in E as [E|E]; apply negb_false_iff, str_eqb_eq in E; auto.
Qed.

Definition ascii_maven (rule : PackageRule) : Prop :=
  r_Ecosystem rule = bs "maven" -> Forall graphic (r_Version rule).

(** A row whose columns are those of a prepared rule. *)
Record prepared_row (rule : PackageRule) (p : PreparedRule) : Prop := {
  row_prepared : PrepareRule (raw_of rule) = Ok p;
  row_matches : persisted_matches rule p = true;
  row_action : r_Action rule = bs "allow" \/ r_Action rule = bs "deny";
}.

Lemma persisted_matches_true model p :
  persisted_matches model p = true <->
  r_Ecosystem model = pr_Ecosystem p /\ r_PackageName model = pr_PackageName p
  /\ r_Version model = pr_Version p /\ r_NormalizedPackageName model = pr_NormalizedPackageName p
  /\ r_NormalizedVersion model = pr_NormalizedVersion p /\ r_DialectRevision model = pr_DialectRevision p.
Proof. unfold persisted_matches. rewrite !andb_true_iff, !str_eqb_eq, Z.eqb_eq. tauto. Qed.

Lemma prepared_row_compiles rule p :
  prepared_row rule p -> ascii_maven rule -> is_ok (compilePersistedRule rule) = true.
Proof.
  intros [Hp Hm Ha] Hg. unfold compilePersistedRule. rewrite Hp. cbn [mbind result_bind]. rewrite Hm.
  cbn [negb]. apply persisted_matches_true in Hm as (He & _ & Hv & _ & Hnv & _).
  assert (negb (str_eqb (r_Action rule) (bs "allow")) && negb (str_eqb (r_Action rule) (bs "deny")) = false) as ->
    by by destruct Ha as [->| ->].
  destruct (compile_package (r_NormalizedPackageName rule)) as [kind value].
  destruct (str_eqb (r_Ecosystem rule) star) eqn:Es; [done|]. apply str_eqb_neq in Es.
  apply prepare_inv in Hp as (_ & _ & [? _ _ _ _|d cap _ Henf Hd _ _ _ Hsel]); [congruence|].
  rewrite He, Hnv. unfold ascii_maven in Hg. rewrite He, Hv in Hg.
  destruct (compile_accepted _ _ _ _ Hd Hsel) as (matcher & _ & Hc).
  - intros ->. by apply Hg, enforced_maven.
  - by rewrite Hc.
Qed.

Lemma prepared_row_columns rule rule' p :
  same_columns rule rule' -> prepared_row rule p -> prepared_row rule' p.
Proof.
  intros [Hraw Ha _ _ Hn Hv Hr] [Hp Hm Hact]. split.
  - by rewrite <- Hraw.
  - apply persisted_matches_true in Hm. apply persisted_matches_true.
    injection Hraw as <- <- <-. by rewrite <- Hn, <- Hv, <- Hr.
  - by rewrite <- Ha.
Qed.

Lemma prepareRuleModel_row rule m :
  prepareRuleModel (Some rule) = Ok m ->
  exists p, prepared_row m p /\ len (r_Reason m) <= 512 /\ len (r_CreatedBy m) <= 64.
Proof.
  unfold prepareRuleModel. intros Hm. apply result_bind_ok in Hm as (p & Hp & Hm).
  apply result_bind_ok in Hm as (a & Ha%action_decided & Hm).
  destruct (too_long_or_control (trim_space (r_Reason rule)) 512) eqn:E1; [done|].
  destruct (too_long_or_control (trim_space (r_CreatedBy rule)) 64) eqn:E2; [done|].
  injection Hm as <-. unfold too_long_or_control in *. exists p. split_and!.
  - split; cbn; [by apply PrepareRule_stable in Hp | by apply persisted_matches_true | done].
  - cbn. go_bool. lia.
  - cbn. go_bool. lia.
Qed.

(** What the store guarantees of a row. *)
Record row_sound (rule : PackageRule) : Prop := {
  sound_compiles : is_ok (compilePersistedRule rule) = true;
  sound_reason : len (r_Reason rule) <= 512;
  sound_creator : len (r_CreatedBy rule) <= 64;
}.

Lemma stored_sound rule m stored :
  prepareRuleModel (Some rule) = Ok m -> same_columns m stored -> ascii_maven stored -> row_sound stored.
Proof.
  intros (p & Hp & Hr & Hc)%prepareRuleModel_row Hs Hg. split.
  - eapply prepared_row_compiles; [|done]. by eapply prepared_row_columns.
  - by rewrite <- (sc_reason _ _ Hs).
  - by rewrite <- (sc_creator _ _ Hs).
Qed.

(** Creating, updating and deleting rules keeps the table free of integrity
    failures: when every row compiles and keeps its bounds, so does every row
    after the operation, the written one included.  (A Maven version is again
    assumed to be visible ASCII.) *)
Theorem store_rows_compile `{RuleTableLaws T} (t : T) :
  Forall row_sound (rows t) ->
  (forall rule stored t', Create rule t = Ok (stored, t') -> ascii_maven stored -> Forall row_sound (rows t'))
  /\ (forall id patch stored t', Update id patch t = Ok (stored, t') -> ascii_maven stored ->
        Forall row_sound (rows t') /\ r_ID stored = id)
  /\ (forall id t', Delete id t = Ok t' -> Forall row_sound (rows t') /\ forall r, r ∈ rows t' -> r_ID r <> id).
Proof.
  intros Ht. rewrite Forall_forall in Ht. setoid_rewrite Forall_forall. split_and!.
  - intros [rule|] stored t' Hc Hg; [|done]. unfold Create in Hc.
    apply result_bind_ok in Hc as (m & Hm & Hi). apply insert_row_rows in Hi as [Hs Hrows].
    intros r [Hr| ->]%Hrows; [by apply Ht | by eapply stored_sound].
  - intros id patch stored t' Hc Hg. unfold Update in Hc.
    apply result_bind_ok in Hc as (old & Hf%first_row_rows & Hc). destruct Hf as [_ Hid].
    apply result_bind_ok in Hc as (m & Hm & Hi). apply save_row_rows in Hi as (Hs & Hsid & Hrows). split.
    + intros r [[Hr _]| ->]%Hrows; [by apply Ht | by eapply stored_sound].
    + rewrite Hsid, <- Hid. unfold prepareRuleModel in Hm. go_inv. done.
  - intros id t' Hc. unfold Delete in Hc. apply result_bind_ok in Hc as ([n t1] & Hd & Hc).
    destruct (n =? 0); [done|]. injection Hc as <-. pose proof (delete_row_rows _ _ _ _ Hd) as Hrows. split.
    + intros r [Hr _]%Hrows. by apply Ht.
    + intros r [_ Hr]%Hrows. done.
Qed.

End theory.

(** ** Witnesses *)

Section witnesses.
#[local] Existing Instances ascii_tables ascii_lower permissive_modules.

Definition submitted (id : Z) (ecosystem package version action : string) : PackageRule :=
  {| r_ID := id; r_Ecosystem := bs ecosystem; r_PackageName := bs package; r_Version := bs version;
     r_Action := bs action; r_Reason := bs "policy"; r_CreatedBy := bs "admin"; r_CreatedAt := 0; r_UpdatedAt := 0;
     r_NormalizedPackageName := []; r_NormalizedVersion := []; r_DialectRevision := 0 |}.

Definition stored_rule (id : Z) (ecosystem package version action : string) : PackageRule :=
  match prepareRuleModel (Some (submitted id ecosystem package version action)) with
  | Ok m => m | Err _ => submitted id ecosystem package version action end.

Definition compiled_rule (id : Z) (ecosystem package version action : string) : list compiledRule :=
  match compilePersistedRule (stored_rule id ecosystem package version action) with Ok r => [r] | Err _ => [] end.

(** An allow rule for every package and a deny rule for old versions of one. *)
Definition sample_rules : list compiledRule :=
  compiled_rule 1 "pypi" "Requests" "<2.0" "deny" ++ compiled_rule 2 "*" "*" "*" "allow".

Lemma winner_is_best_witness :
  exists w, w ∈ sample_rules /\ cr_model w = stored_rule 1 "pypi" "Requests" "<2.0" "deny"
    /\ rule_matches (bs "pypi") (bs "requests") (bs "1.9") w.
Proof.
  destruct (winner_is_best sample_rules (bs "pypi") (bs "requests") (bs "1.9")
    (Some (stored_rule 1 "pypi" "Requests" "<2.0" "deny"))) as (w & Hin & Hw & Hm & _);
    [vm_compute; reflexivity|].
  exists w. exact (conj Hin (conj Hw Hm)).
Defined.

Lemma selection_order_independent_witness :
  selectBestCompiledRule (rev sample_rules) (bs "pypi") (bs "requests") (bs "1.9")
  = Ok (Some (stored_rule 1 "pypi" "Requests" "<2.0" "deny")).
Proof.
  apply (selection_order_independent sample_rules (rev sample_rules)).
  - exact (Permutation_rev sample_rules).
  - apply (bool_decide_unpack _). vm_compute. exact I.
  - vm_compute. reflexivity.
Defined.

Definition candidate (r : compiledRule) : RuleCandidate := candidate_of r (specificity r).

Lemma precedenceReason_correct_witness :
  exists c d, candidate <$> sample_rules = [c; d] /\ precedenceReason [c; d] = bs "ecosystem_specificity".
Proof.
  eexists _, _. split; [vm_compute; reflexivity|].
  rewrite precedenceReason_correct; vm_compute; reflexivity.
Defined.


Lemma store_rows_compile_witness :
  exists stored t', Create (Some (submitted 0 "pypi" " Requests" "<2.0" "Deny")) {| mt_rows := []; mt_next := 1 |} = Ok (stored, t')
    /\ Forall row_sound (rows t').
Proof.
  set (rule := Some (submitted 0 "pypi" " Requests" "<2.0" "Deny")).
  set (empty := {| mt_rows := []; mt_next := 1 |}).
  assert (E : exists stored t', Create rule empty = Ok (stored, t') /\ r_Ecosystem stored = bs "pypi")
    by (eexists _, _; split; vm_compute; reflexivity).
  destruct E as (stored & t' & E & He). exists stored, t'. split; [exact E|].
  assert (Hempty : Forall row_sound (rows empty)) by (change (rows empty) with (@nil PackageRule); constructor).
  apply (proj1 (store_rows_compile empty Hempty) rule stored t' E).
  unfold ascii_maven. rewrite He. discriminate.
Defined.
End witnesses.
