(* ===== verification/Refresh.v ===== *)
(** * The policy snapshot (internal/rules/engine.go)

    The engine's cached snapshot: refreshing it from the store, the retry
    back-off, the configured fallback, invalidation, and the status it reports.
    Each critical section of the engine's mutex is one function on the state; the
    concurrent system of RefreshTheory.v interleaves them. *)

From S2P Require Export Engine.

(** ** Policies and options *)

Inductive OnLoadErrorPolicy :=
  | OnLoadErrorUseStaleThenAllow
  | OnLoadErrorUseStaleThenDeny
  | OnLoadErrorAllow
  | OnLoadErrorDeny.

#[export] Instance OnLoadErrorPolicy_eq_dec : EqDecision OnLoadErrorPolicy.
Proof. solve_decision. Defined.

Definition DefaultOnLoadErrorPolicy : OnLoadErrorPolicy := OnLoadErrorUseStaleThenAllow.

Definition ParseOnLoadErrorPolicy `{UnicodeTables} (value : gostring) : result OnLoadErrorPolicy :=
  let normalized := to_lower (trim_space value) in
  if str_eqb normalized [] then Ok DefaultOnLoadErrorPolicy
  else if str_eqb normalized (bs "use_stale_then_allow") then Ok OnLoadErrorUseStaleThenAllow
  else if str_eqb normalized (bs "use_stale_then_deny") then Ok OnLoadErrorUseStaleThenDeny
  else if str_eqb normalized (bs "allow") then Ok OnLoadErrorAllow
  else if str_eqb normalized (bs "deny") then Ok OnLoadErrorDeny
  else fail "policy.on_load_error must be one of %q, %q, %q, or %q; got %q".

(** Instants and durations in nanoseconds; the zero [time.Time] is [None]. *)
Definition second : Z := 1000000000.

(** The fields of [Engine] that do not change after construction; an empty policy
    string is [None]. *)
Record EngineConfig := {
  cfg_store : bool;
  cfg_cacheTTL : Z;
  cfg_refreshRetryInterval : Z;
  cfg_onLoadError : option OnLoadErrorPolicy;
  cfg_telemetry : bool;
  cfg_optionErr : option error;
}.

Inductive EngineOption :=
  | WithOnLoadErrorPolicy (policy : gostring)
  | WithPolicyTelemetry (telemetry : bool).

(** The option loop of [NewEngine]; a nil option is [None]. *)
Fixpoint apply_options `{UnicodeTables} (options : list (option EngineOption)) (cfg : EngineConfig) : EngineConfig :=
  match options with
  | [] => cfg
  | None :: options => apply_options options cfg
  | Some (WithOnLoadErrorPolicy policy) :: options =>
    match ParseOnLoadErrorPolicy policy with
    | Ok parsed =>
      apply_options options
        {| cfg_store := cfg_store cfg; cfg_cacheTTL := cfg_cacheTTL cfg;
           cfg_refreshRetryInterval := cfg_refreshRetryInterval cfg; cfg_onLoadError := Some parsed;
           cfg_telemetry := cfg_telemetry cfg; cfg_optionErr := cfg_optionErr cfg |}
    | Err e =>
      {| cfg_store := cfg_store cfg; cfg_cacheTTL := cfg_cacheTTL cfg;
         cfg_refreshRetryInterval := cfg_refreshRetryInterval cfg; cfg_onLoadError := cfg_onLoadError cfg;
         cfg_telemetry := cfg_telemetry cfg; cfg_optionErr := Some e |}
    end
  | Some (WithPolicyTelemetry telemetry) :: options =>
    apply_options options
      {| cfg_store := cfg_store cfg; cfg_cacheTTL := cfg_cacheTTL cfg;
         cfg_refreshRetryInterval := cfg_refreshRetryInterval cfg; cfg_onLoadError := cfg_onLoadError cfg;
         cfg_telemetry := telemetry; cfg_optionErr := cfg_optionErr cfg |}
  end.

Definition NewEngine `{UnicodeTables} (store : bool) (options : list (option EngineOption)) : EngineConfig :=
  apply_options options
    {| cfg_store := store; cfg_cacheTTL := 30 * second; cfg_refreshRetryInterval := 5 * second;
       cfg_onLoadError := Some DefaultOnLoadErrorPolicy; cfg_telemetry := false; cfg_optionErr := None |}.

Definition NewEngineWithOptions `{UnicodeTables} (store : bool) (options : list (option EngineOption))
    : result EngineConfig :=
  let engine := NewEngine store options in
  match cfg_optionErr engine with Some e => Err e | None => Ok engine end.

(** ** State *)

Record EngineState := {
  es_cache : option (list compiledRule);
  es_lastLoad : option Z;
  es_lastRefreshAttempt : option Z;
  es_lastRefreshError : option error;
  es_lastRefreshWasFailure : bool;
  es_degraded : bool;
  es_usingStaleSnapshot : bool;
  es_refreshFailures : Z;
  es_forceRefresh : bool;
  es_refreshGeneration : Z;
}.

Definition initial_state : EngineState :=
  {| es_cache := None; es_lastLoad := None; es_lastRefreshAttempt := None; es_lastRefreshError := None;
     es_lastRefreshWasFailure := false; es_degraded := false; es_usingStaleSnapshot := false;
     es_refreshFailures := 0; es_forceRefresh := false; es_refreshGeneration := 0 |}.

(** [uint64] increment *)
Definition increment (n : Z) : Z := (n + 1) mod 2 ^ 64.

Inductive loadOutcome := loadOutcomeFresh | loadOutcomeStale | loadOutcomeAllow | loadOutcomeDeny.

(** A nil slice of rules is the empty list: the callers only iterate. *)
Abbreviation load := (list compiledRule * loadOutcome)%type.

Record PolicyStatus := {
  st_Status : gostring;
  st_Degraded : bool;
  st_UsingStaleSnapshot : bool;
  st_SnapshotLoadedAt : option Z;
  st_SnapshotAge : Z;
  st_RefreshFailures : Z;
  st_OnLoadError : OnLoadErrorPolicy;
}.

Inductive telemetry_event :=
  | PolicySnapshotLoaded (loadedAt : Z)
  | PolicyRefreshFailed
  | PolicyState (degraded usingStaleSnapshot : bool) (snapshotAge : Z).

Definition effective_policy (cfg : EngineConfig) : OnLoadErrorPolicy :=
  default DefaultOnLoadErrorPolicy (cfg_onLoadError cfg).

(** [errors.Is(e.lastRefreshError, target)] *)
Definition error_is (e : option error) (target : string) : bool :=
  match e with Some e => errors_is e target | None => false end.

Definition snapshotFreshLocked (cfg : EngineConfig) (e : EngineState) (now : Z) : bool :=
  match es_cache e, es_lastLoad e with
  | Some _, Some loaded =>
    negb (es_forceRefresh e) && (cfg_cacheTTL cfg >? 0) && (now - loaded <? cfg_cacheTTL cfg)
  | _, _ => false
  end.

Definition retryBackoffActiveLocked (cfg : EngineConfig) (e : EngineState) (now : Z) : bool :=
  match es_lastRefreshAttempt e with
  | Some attempt =>
    es_lastRefreshWasFailure e && error_is (es_lastRefreshError e) "package rule store unavailable"
    && (cfg_refreshRetryInterval cfg >? 0) && (now - attempt <? cfg_refreshRetryInterval cfg)
  | None => false
  end.

Definition uses_stale (policy : OnLoadErrorPolicy) : bool :=
  match policy with OnLoadErrorUseStaleThenAllow | OnLoadErrorUseStaleThenDeny => true | _ => false end.

Definition denies (policy : OnLoadErrorPolicy) : bool :=
  match policy with OnLoadErrorUseStaleThenDeny | OnLoadErrorDeny => true | _ => false end.

Definition fallbackLocked (cfg : EngineConfig) (e : EngineState) : load :=
  let policy := effective_policy cfg in
  match es_cache e with
  | Some rules => if uses_stale policy then (rules, loadOutcomeStale)
                  else if denies policy then ([], loadOutcomeDeny) else ([], loadOutcomeAllow)
  | None => if denies policy then ([], loadOutcomeDeny) else ([], loadOutcomeAllow)
  end.

(** The same choice, written twice in the source for the two lock modes. *)
Definition fallbackReadOnlyLocked (cfg : EngineConfig) (e : EngineState) : load := fallbackLocked cfg e.

Definition fallbackAllowsWithoutSnapshot (cfg : EngineConfig) : bool := negb (denies (effective_policy cfg)).

Definition policyStatusLocked (cfg : EngineConfig) (e : EngineState) (now : Z) : PolicyStatus :=
  {| st_Status := match es_lastLoad e with
                  | None => bs "unavailable"
                  | Some _ => if es_degraded e then bs "degraded" else bs "healthy"
                  end;
     st_Degraded := es_degraded e;
     st_UsingStaleSnapshot := es_usingStaleSnapshot e;
     st_SnapshotLoadedAt := es_lastLoad e;
     st_SnapshotAge := match es_lastLoad e with Some loaded => Z.max 0 (now - loaded) | None => 0 end;
     st_RefreshFailures := es_refreshFailures e;
     st_OnLoadError := effective_policy cfg |}.

(** [PolicyStatus]; a nil engine is [None]. *)
Definition PolicyStatusOf (engine : option (EngineConfig * EngineState)) (now : Z) : PolicyStatus :=
  match engine with
  | None =>
    {| st_Status := bs "unavailable"; st_Degraded := false; st_UsingStaleSnapshot := false;
       st_SnapshotLoadedAt := None; st_SnapshotAge := 0; st_RefreshFailures := 0;
       st_OnLoadError := DefaultOnLoadErrorPolicy |}
  | Some (cfg, e) => policyStatusLocked cfg e now
  end.

Definition emitPolicyState (cfg : EngineConfig) (status : PolicyStatus) : list telemetry_event :=
  if cfg_telemetry cfg
  then [PolicyState (st_Degraded status) (st_UsingStaleSnapshot status) (st_SnapshotAge status)] else [].

Definition InvalidateCache (e : EngineState) : EngineState :=
  {| es_cache := es_cache e; es_lastLoad := es_lastLoad e; es_lastRefreshAttempt := None;
     es_lastRefreshError := None; es_lastRefreshWasFailure := false; es_degraded := es_degraded e;
     es_usingStaleSnapshot := es_usingStaleSnapshot e; es_refreshFailures := es_refreshFailures e;
     es_forceRefresh := true; es_refreshGeneration := increment (es_refreshGeneration e) |}.

(** ** Loading *)

Definition invalid_configuration (e : error) : result load :=
  Err (Errorf "invalid rules engine configuration: %w" [e]).

(** The read-locked fast path; [None] goes on to a refresh. *)
Definition load_fast (cfg : EngineConfig) (e : EngineState) (now : Z) : option (result load) :=
  match cfg_optionErr cfg with
  | Some err => Some (invalid_configuration err)
  | None =>
    if snapshotFreshLocked cfg e now then Some (Ok (default [] (es_cache e), loadOutcomeFresh)) else
    if retryBackoffActiveLocked cfg e now then Some (Ok (fallbackReadOnlyLocked cfg e)) else
    None
  end.

Record refresh_start := {
  start_now : Z;
  start_generation : Z;
}.

(** The first write-locked section: re-check, or record the attempt. *)
Definition load_begin (cfg : EngineConfig) (e : EngineState) (now : Z) : result load + (refresh_start * EngineState) :=
  match cfg_optionErr cfg with
  | Some err => inl (invalid_configuration err)
  | None =>
    if snapshotFreshLocked cfg e now then inl (Ok (default [] (es_cache e), loadOutcomeFresh)) else
    if retryBackoffActiveLocked cfg e now then inl (Ok (fallbackLocked cfg e)) else
    inr ({| start_now := now; start_generation := es_refreshGeneration e |},
         {| es_cache := es_cache e; es_lastLoad := es_lastLoad e; es_lastRefreshAttempt := Some now;
            es_lastRefreshError := es_lastRefreshError e; es_lastRefreshWasFailure := es_lastRefreshWasFailure e;
            es_degraded := es_degraded e; es_usingStaleSnapshot := es_usingStaleSnapshot e;
            es_refreshFailures := es_refreshFailures e; es_forceRefresh := es_forceRefresh e;
            es_refreshGeneration := es_refreshGeneration e |})
  end.

(** What reading and compiling gave, before the state is locked again. *)
Inductive refresh_result :=
  | refresh_failed (e : error) (unavailable : bool)
  | refresh_loaded (rules : list compiledRule).

(** The classification of [Store.List]'s error. *)
Definition classify_list_error `{DriverErrors} (e : error) : refresh_result :=
  if errors_is e "package rule data integrity failure" || errors_is e "package policy integrity failure"
  then refresh_failed (Errorf "%w: %v" [ErrPolicyIntegrity]) false else
  if errors_is e "package rule store unavailable" || isRuleStoreAvailabilityError e
  then refresh_failed
         (if errors_is e "package rule store unavailable" then e else Errorf "%w: %v" [ErrRuleStoreUnavailable])
         true
  else refresh_failed (Errorf "%w: %v" [ErrPolicyIntegrity]) false.

Section refresh.
Context `{UnicodeTables} `{EnglishLower} `{ModulePackage} `{DriverErrors}.

Definition compile_rules (models : list PackageRule) : result (list compiledRule) :=
  map_result (fun model => recast "%w: rule %d: %v" [ErrPolicyIntegrity] (compilePersistedRule model)) models.

(** Between the two locked sections: [store.List] and the compile loop. *)
Definition read_snapshot (cfg : EngineConfig) (listing : result (list PackageRule)) : refresh_result :=
  if negb (cfg_store cfg)
  then refresh_failed (Errorf "%w: rule store is nil" [ErrRuleStoreUnavailable]) true else
  match listing with
  | Err e => classify_list_error e
  | Ok models =>
    match compile_rules models with
    | Ok rules => refresh_loaded rules
    | Err e => refresh_failed e false
    end
  end.

Definition finishRefreshFailureLocked (cfg : EngineConfig) (e : EngineState) (now : Z) (err : error) (unavailable : bool)
    : EngineState * list telemetry_event * result load :=
  let '(rules, outcome) := if unavailable then fallbackLocked cfg e else ([], loadOutcomeAllow) in
  let e' :=
    {| es_cache := es_cache e; es_lastLoad := es_lastLoad e; es_lastRefreshAttempt := Some now;
       es_lastRefreshError := Some err; es_lastRefreshWasFailure := unavailable; es_degraded := true;
       es_usingStaleSnapshot := unavailable && match outcome with loadOutcomeStale => true | _ => false end;
       es_refreshFailures := increment (es_refreshFailures e); es_forceRefresh := es_forceRefresh e;
       es_refreshGeneration := es_refreshGeneration e |} in
  let status := policyStatusLocked cfg e' now in
  (e', (if cfg_telemetry cfg then [PolicyRefreshFailed] else []) ++ emitPolicyState cfg status,
   if unavailable then Ok (rules, outcome) else Err err).

(** Publishing a new snapshot. *)
Definition publish (cfg : EngineConfig) (e : EngineState) (start : refresh_start) (loadedAt : Z)
    (compiled : list compiledRule) : EngineState * list telemetry_event * result load :=
  let e' :=
    {| es_cache := Some compiled; es_lastLoad := Some loadedAt; es_lastRefreshAttempt := Some (start_now start);
       es_lastRefreshError := None; es_lastRefreshWasFailure := false; es_degraded := false;
       es_usingStaleSnapshot := false; es_refreshFailures := es_refreshFailures e;
       es_forceRefresh := if es_refreshGeneration e =? start_generation start then false else es_forceRefresh e;
       es_refreshGeneration := es_refreshGeneration e |} in
  let status := policyStatusLocked cfg e' loadedAt in
  (e', (if cfg_telemetry cfg then [PolicySnapshotLoaded loadedAt] else []) ++ emitPolicyState cfg status,
   Ok (compiled, loadOutcomeFresh)).

(** The second write-locked section. *)
Definition load_finish (cfg : EngineConfig) (e : EngineState) (start : refresh_start) (now : Z)
    (read : refresh_result) : EngineState * list telemetry_event * result load :=
  match read with
  | refresh_failed err unavailable => finishRefreshFailureLocked cfg e now err unavailable
  | refresh_loaded compiled => publish cfg e start now compiled
  end.

(** [loadRulesWithState] without interference: the clock readings of its three
    sections and the store's answer are given. *)
Definition loadRulesWithState (cfg : EngineConfig) (e : EngineState) (now1 now2 now3 : Z)
    (listing : result (list PackageRule)) : EngineState * list telemetry_event * result load :=
  match load_fast cfg e now1 with
  | Some answer => (e, [], answer)
  | None =>
    match load_begin cfg e now2 with
    | inl answer => (e, [], answer)
    | inr (start, e) => load_finish cfg e start now3 (read_snapshot cfg listing)
    end
  end.

End refresh.
