(* ===== verification/RefreshTheory.v ===== *)
(** * Theory of the policy snapshot (Refresh.v)

    The concurrent system of store writers, invalidations, and one refresh at a
    time; its invariants; the outcome of every kind of failure. *)

From S2P Require Export EngineTheory Refresh.

(** ** The concurrent system

    A refresh holds [refreshMu] from its first locked section to its second and
    reads the table in between; writers change the table and then invalidate. *)

Record Refreshing := {
  rf_start : refresh_start;
  (** the number of invalidations before the start *)
  rf_count : Z;
  (** the store's answer, once it is there *)
  rf_read : option (result (list PackageRule));
}.

Record System := {
  sys_now : Z;
  sys_table : list PackageRule;
  (** a completed write whose invalidation is still to come *)
  sys_pending : bool;
  (** the number of invalidations so far *)
  sys_count : Z;
  sys_engine : EngineState;
  sys_refresh : option Refreshing;
}.

Definition initial_system (table : list PackageRule) (now : Z) : System :=
  {| sys_now := now; sys_table := table; sys_pending := false; sys_count := 0;
     sys_engine := initial_state; sys_refresh := None |}.

Section system.
Context `{UnicodeTables} `{EnglishLower} `{ModulePackage} `{DriverErrors}.
Context (cfg : EngineConfig).

Inductive sys_step : System -> System -> Prop :=
  | step_tick s now' :
      sys_now s <= now' ->
      sys_step s {| sys_now := now'; sys_table := sys_table s; sys_pending := sys_pending s; sys_count := sys_count s;
                    sys_engine := sys_engine s; sys_refresh := sys_refresh s |}
  | step_write s table' :
      sys_step s {| sys_now := sys_now s; sys_table := table'; sys_pending := true; sys_count := sys_count s;
                    sys_engine := sys_engine s; sys_refresh := sys_refresh s |}
  | step_invalidate s :
      sys_step s {| sys_now := sys_now s; sys_table := sys_table s; sys_pending := false;
                    sys_count := sys_count s + 1; sys_engine := InvalidateCache (sys_engine s);
                    sys_refresh := sys_refresh s |}
  | step_begin s start e' :
      sys_refresh s = None -> load_begin cfg (sys_engine s) (sys_now s) = inr (start, e') ->
      sys_step s {| sys_now := sys_now s; sys_table := sys_table s; sys_pending := sys_pending s;
                    sys_count := sys_count s; sys_engine := e';
                    sys_refresh := Some {| rf_start := start; rf_count := sys_count s; rf_read := None |} |}
  | step_read s r answer :
      sys_refresh s = Some r -> rf_read r = None ->
      (answer = Ok (sys_table s) \/ exists e, answer = Err e) ->
      sys_step s {| sys_now := sys_now s; sys_table := sys_table s; sys_pending := sys_pending s;
                    sys_count := sys_count s; sys_engine := sys_engine s;
                    sys_refresh := Some {| rf_start := rf_start r; rf_count := rf_count r; rf_read := Some answer |} |}
  | step_finish s r answer :
      sys_refresh s = Some r -> rf_read r = Some answer ->
      sys_step s {| sys_now := sys_now s; sys_table := sys_table s; sys_pending := sys_pending s;
                    sys_count := sys_count s;
                    sys_engine := (load_finish cfg (sys_engine s) (rf_start r) (sys_now s) (read_snapshot cfg answer)).1.1;
                    sys_refresh := None |}.

Inductive reachable (table : list PackageRule) (now : Z) : System -> Prop :=
  | reachable_init : reachable table now (initial_system table now)
  | reachable_step s s' : reachable table now s -> sys_step s s' -> reachable table now s'.

(** ** Invariants of the engine's own fields *)

Record engine_inv (e : EngineState) : Prop := {
  inv_loaded : is_Some (es_cache e) <-> is_Some (es_lastLoad e);
  inv_stale : es_usingStaleSnapshot e = true ->
    es_degraded e = true /\ is_Some (es_cache e) /\ uses_stale (effective_policy cfg) = true;
  inv_failure : es_lastRefreshWasFailure e = true ->
    es_degraded e = true /\ error_is (es_lastRefreshError e) "package rule store unavailable" = true;
  inv_error : is_Some (es_lastRefreshError e) -> es_degraded e = true;
}.

Lemma initial_inv : engine_inv initial_state.
Proof. split; simpl; done. Qed.

Lemma invalidate_inv e : engine_inv e -> engine_inv (InvalidateCache e).
Proof. intros [? ? ? ?]. split; simpl; done. Qed.

Lemma begin_inv e now start e' :
  load_begin cfg e now = inr (start, e') -> engine_inv e -> engine_inv e'.
Proof.
  unfold load_begin. intros Hb [? ? ? ?]. repeat (case_match; try done). injection Hb as <- <-. by split.
Qed.

(** An availability failure carries the store's sentinel. *)
Lemma read_snapshot_unavailable answer e :
  read_snapshot cfg answer = refresh_failed e true -> errors_is e "package rule store unavailable" = true.
Proof.
  unfold read_snapshot. destruct (negb (cfg_store cfg)); [by intros [= <-]|].
  destruct answer as [models|err]; [by destruct (compile_rules models)|].
  unfold classify_list_error. destruct (_ || _); [done|]. destruct (_ || _); [|done].
  destruct (errors_is err "package rule store unavailable") eqn:E; by intros [= <-].
Qed.

Lemma finish_inv e start now answer :
  engine_inv e -> engine_inv (load_finish cfg e start now (read_snapshot cfg answer)).1.1.
Proof.
  intros [Hl Hs Hf He]. unfold load_finish.
  destruct (read_snapshot cfg answer) as [err unavailable|rules] eqn:Er.
  - unfold finishRefreshFailureLocked, fallbackLocked.
    destruct unavailable; [apply read_snapshot_unavailable in Er|]; simpl.
    + destruct (es_cache e) as [c|] eqn:Ec; destruct (uses_stale (effective_policy cfg)) eqn:Eu;
        destruct (denies (effective_policy cfg)); split; simpl; rewrite ?Ec; done.
    + split; simpl; done.
  - split; simpl; done.
Qed.

(** ** The snapshot and the table *)

(** Fewer than 2^64 invalidations, so that generations do not repeat. *)
Definition few (n : Z) : Prop := n < 2 ^ 64.

Record system_inv (s : System) : Prop := {
  si_engine : engine_inv (sys_engine s);
  si_count : 0 <= sys_count s /\ es_refreshGeneration (sys_engine s) = sys_count s mod 2 ^ 64;
  si_start : forall r, sys_refresh s = Some r ->
    0 <= rf_count r <= sys_count s /\ start_generation (rf_start r) = rf_count r mod 2 ^ 64
    /\ (rf_count r < sys_count s -> es_forceRefresh (sys_engine s) = true);
  si_read : forall r models, sys_refresh s = Some r -> rf_read r = Some (Ok models) ->
    rf_count r = sys_count s -> sys_pending s = false -> models = sys_table s;
  si_snapshot : few (sys_count s) -> es_forceRefresh (sys_engine s) = false -> sys_pending s = false ->
    forall rules, es_cache (sys_engine s) = Some rules -> compile_rules (sys_table s) = Ok rules;
}.

Lemma system_inv_initial table now : system_inv (initial_system table now).
Proof. split; simpl; try done. apply initial_inv. Qed.

Lemma begin_fields e now start e' :
  load_begin cfg e now = inr (start, e') ->
  es_cache e' = es_cache e /\ es_forceRefresh e' = es_forceRefresh e
  /\ es_refreshGeneration e' = es_refreshGeneration e /\ start_generation start = es_refreshGeneration e.
Proof.
  unfold load_begin. intros Hb. repeat (case_match; try done). by injection Hb as <- <-.
Qed.

(** A finished refresh keeps the generation; it replaces the snapshot only by
    what it read, and clears the force flag only with the generation it began
    with. *)
Lemma finish_fields e start now answer :
  let e' := (load_finish cfg e start now (read_snapshot cfg answer)).1.1 in
  es_refreshGeneration e' = es_refreshGeneration e
  /\ ((es_cache e' = es_cache e /\ es_forceRefresh e' = es_forceRefresh e)
      \/ exists models rules, answer = Ok models /\ compile_rules models = Ok rules /\ es_cache e' = Some rules
           /\ es_forceRefresh e'
              = if es_refreshGeneration e =? start_generation start then false else es_forceRefresh e).
Proof.
  unfold load_finish. destruct (read_snapshot cfg answer) as [err unavailable|rules] eqn:Er; cbv zeta.
  - unfold finishRefreshFailureLocked. destruct unavailable; [destruct (fallbackLocked cfg e)|]; simpl; auto.
  - split; [done|]. right. unfold read_snapshot in Er. destruct (negb (cfg_store cfg)); [done|].
    destruct answer as [models|err].
    + destruct (compile_rules models) as [rules'|] eqn:Ec; [|done]. injection Er as <-.
      by exists models, rules'.
    + unfold classify_list_error in Er. by repeat case_match.
Qed.

Lemma few_mod m n : 0 <= m -> m <= n -> few n -> m mod 2 ^ 64 = n mod 2 ^ 64 -> m = n.
Proof. unfold few. intros. rewrite !Z.mod_small in * by lia. done. Qed.

Lemma system_inv_step s s' : sys_step s s' -> system_inv s -> system_inv s'.
Proof.
  intros Hstep [He [Hc0 Hc] Hstart Hread Hsnap].
  destruct Hstep as [s now' Hnow|s table'|s|s start e' Hr Hb|s r answer Hr Hrr Hans|s r answer Hr Hrr].
  - by split.
  - split; simpl; try done; congruence.
  - split; simpl.
    + by apply invalidate_inv.
    + split; [lia|]. rewrite Hc. unfold increment. by rewrite Zplus_mod_idemp_l.
    + intros r Hr. destruct (Hstart r Hr) as (? & ? & _). split_and!; [lia | lia | done | done].
    + intros r models Hr _ Heq. destruct (Hstart r Hr) as (? & _). lia.
    + done.
  - destruct (begin_fields _ _ _ _ Hb) as (Hcache & Hforce & Hgen & Hsg). split; simpl.
    + by eapply begin_inv.
    + by rewrite Hgen.
    + intros r [= <-]. simpl. split_and!; [lia | lia | congruence | lia].
    + by intros r models [= <-].
    + intros Hf. rewrite Hcache, Hforce. auto.
  - destruct (Hstart r Hr) as (Hle & Hg & Hforce). split; simpl; try done.
    + by intros r' [= <-].
    + intros r' models [= <-]. simpl. intros [= ->] _ _. destruct Hans as [[= ->]|[e [=]]]. done.
  - destruct (Hstart r Hr) as (Hle & Hg & Hforce).
    destruct (finish_fields (sys_engine s) (rf_start r) (sys_now s) answer) as [Hgen Hcase].
    set (e' := (load_finish _ _ _ _ _).1.1) in *. split; simpl; try done.
    + by apply finish_inv.
    + by rewrite Hgen.
    + intros Hfew Hf Hp rules Hrules.
      destruct Hcase as [[Hcache Hforce']|(models & rules' & -> & Hcomp & Hcache & Hforce')].
      * apply Hsnap; congruence.
      * rewrite Hcache in Hrules. injection Hrules as ->. rewrite Hforce', Hc, Hg in Hf.
        destruct (Z.eqb_spec (sys_count s mod 2 ^ 64) (rf_count r mod 2 ^ 64)) as [Heq|Hne].
        -- assert (rf_count r = sys_count s) by (apply few_mod; lia || done).
           by rewrite <- (Hread r models).
        -- assert (rf_count r < sys_count s); [|rewrite Hforce in Hf; done].
           destruct (decide (rf_count r = sys_count s)); [congruence | lia].
Qed.

Lemma reachable_inv table now s : reachable table now s -> system_inv s.
Proof. induction 1; [apply system_inv_initial | by eapply system_inv_step]. Qed.

Lemma loaded_cases e :
  (is_Some (es_cache e) <-> is_Some (es_lastLoad e)) ->
  (exists l c, es_lastLoad e = Some l /\ es_cache e = Some c) \/ (es_lastLoad e = None /\ es_cache e = None).
Proof.
  intros [Hcl Hlc]. destruct (es_cache e) as [c|], (es_lastLoad e) as [l|]; eauto.
  - by destruct Hcl.
  - by destruct Hlc.
Qed.

(** ** Properties *)

(** C11: an invalidation is never lost, whatever refresh it races: in every
    reachable state in which each completed write has been followed by an
    invalidation, a snapshot the engine takes for fresh is the compilation of the
    rules the store holds at that moment. *)
Theorem fresh_snapshot_is_current table now0 s :
  reachable table now0 s -> few (sys_count s) -> sys_pending s = false ->
  snapshotFreshLocked cfg (sys_engine s) (sys_now s) = true ->
  exists rules loaded, es_cache (sys_engine s) = Some rules
    /\ compile_rules (sys_table s) = Ok rules
    /\ es_lastLoad (sys_engine s) = Some loaded /\ sys_now s - loaded < cfg_cacheTTL cfg.
Proof.
  intros Hr Hfew Hp Hfresh. destruct (reachable_inv _ _ _ Hr) as [_ _ _ _ Hsnap].
  unfold snapshotFreshLocked in Hfresh.
  destruct (es_cache (sys_engine s)) as [rules|] eqn:Ec; [|done].
  destruct (es_lastLoad (sys_engine s)) as [loaded|] eqn:El; [|done]. go_bool. exists rules, loaded.
  split_and!; [done | by apply Hsnap | done | lia].
Qed.

(** The reported status is truthful in every reachable state: it is
    [unavailable] exactly while no snapshot was ever published, [degraded] exactly
    when a snapshot exists and the degraded flag is set, the engine claims to use
    a stale snapshot only when one exists, it is degraded and the policy says so,
    and a back-off is active only after an availability failure. *)
Theorem policy_status_truthful table now0 s now :
  reachable table now0 s ->
  let e := sys_engine s in
  let status := policyStatusLocked cfg e now in
  (st_Status status = bs "unavailable" <-> es_cache e = None)
  /\ (st_Status status = bs "degraded" <-> is_Some (es_cache e) /\ es_degraded e = true)
  /\ (st_UsingStaleSnapshot status = true ->
      st_Degraded status = true /\ is_Some (es_cache e) /\ uses_stale (st_OnLoadError status) = true)
  /\ (retryBackoffActiveLocked cfg e now = true -> st_Degraded status = true)
  /\ 0 <= st_SnapshotAge status.
Proof.
  intros Hr e status. destruct (si_engine _ (reachable_inv _ _ _ Hr)) as [Hl Hs Hf _].
  fold e in Hl, Hs, Hf. unfold status, policyStatusLocked. cbn [st_Status st_UsingStaleSnapshot st_Degraded st_OnLoadError st_SnapshotAge].
  assert (Hcase := loaded_cases e Hl). split_and!.
  - destruct Hcase as [(l & c & -> & ->)|[-> ->]]; [|done]. by destruct (es_degraded e).
  - destruct Hcase as [(l & c & -> & ->)|[-> ->]].
    + destruct (es_degraded e); split; try done; by intros [_ ?].
    + split; [done|]. by intros [[? ?] ?].
  - exact Hs.
  - unfold retryBackoffActiveLocked. destruct (es_lastRefreshAttempt e); [|done]. intros Hb. go_bool.
    by apply Hf.
  - destruct (es_lastLoad e); lia.
Qed.

(** ** Failures *)

Lemma compile_rules_err models err :
  compile_rules models = Err err -> errors_is err "package policy integrity failure" = true.
Proof.
  unfold compile_rules. induction models as [|m models IH]; simpl; [done|].
  intros [He%recast_err|(r & _ & He)]%result_bind_err; [by subst err|].
  apply result_bind_err in He as [He|(rs & _ & He)]; [by apply IH | done].
Qed.

(** The store answers that are neither malformed data nor unknown. *)
Definition available_error (err : error) : bool :=
  negb (errors_is err "package rule data integrity failure")
  && negb (errors_is err "package policy integrity failure")
  && (errors_is err "package rule store unavailable" || isRuleStoreAvailabilityError err).

(** C18: a refresh publishes exactly when every row read compiles.  When the store
    is unavailable the configured policy decides between the old snapshot, denial
    and allowance.  Every other failure - malformed rows, unknown errors, a row
    that does not compile - fails closed: the load is an error wrapping
    [ErrPolicyIntegrity], whatever the policy and even when an older snapshot
    exists, and no back-off delays the next attempt. *)
Theorem refresh_outcomes e start now answer :
  let '(e', _, loaded) := load_finish cfg e start now (read_snapshot cfg answer) in
  match read_snapshot cfg answer with
  | refresh_loaded rules =>
    (exists models, answer = Ok models /\ Forall2 (fun m r => compilePersistedRule m = Ok r) models rules)
    /\ loaded = Ok (rules, loadOutcomeFresh) /\ es_cache e' = Some rules /\ es_degraded e' = false
  | refresh_failed err true =>
    (cfg_store cfg = false \/ exists cause, answer = Err cause /\ available_error cause = true)
    /\ es_cache e' = es_cache e /\ es_degraded e' = true
    /\ loaded = Ok match es_cache e, uses_stale (effective_policy cfg), denies (effective_policy cfg) with
                   | Some rules, true, _ => (rules, loadOutcomeStale)
                   | _, _, true => ([], loadOutcomeDeny)
                   | _, _, false => ([], loadOutcomeAllow)
                   end
  | refresh_failed err false =>
    ((exists models, answer = Ok models /\ is_err (compile_rules models) = true)
     \/ exists cause, answer = Err cause /\ available_error cause = false)
    /\ loaded = Err err /\ errors_is err "package policy integrity failure" = true
    /\ es_cache e' = es_cache e /\ es_degraded e' = true /\ es_usingStaleSnapshot e' = false
    /\ forall later, retryBackoffActiveLocked cfg e' later = false
  end.
Proof.
  unfold load_finish, read_snapshot. destruct (cfg_store cfg) eqn:Hstore; cbn [negb].
  2: { unfold finishRefreshFailureLocked, fallbackLocked. simpl.
       destruct (es_cache e), (uses_stale (effective_policy cfg)), (denies (effective_policy cfg)); simpl; eauto. }
  destruct answer as [models|cause].
  - destruct (compile_rules models) as [rules|err] eqn:Ec.
    + split_and!; try done. exists models. split; [done|]. apply map_result_ok in Ec.
      eapply Forall2_impl; [exact Ec|]. intros m r Hm. by apply recast_ok in Hm.
    + unfold finishRefreshFailureLocked. simpl. split_and!; try done.
      * left. exists models. unfold is_err. by rewrite Ec.
      * by eapply compile_rules_err.
  - unfold classify_list_error.
    destruct (errors_is cause "package rule data integrity failure" || errors_is cause "package policy integrity failure") eqn:Ei.
    + unfold finishRefreshFailureLocked. simpl. split_and!; try done. right. exists cause. split; [done|].
      unfold available_error. by rewrite <- negb_orb, Ei.
    + destruct (errors_is cause "package rule store unavailable" || isRuleStoreAvailabilityError cause) eqn:Ea.
      * unfold finishRefreshFailureLocked, fallbackLocked.
        assert (Hav : available_error cause = true) by (unfold available_error; by rewrite <- negb_orb, Ei, Ea).
        destruct (es_cache e), (uses_stale (effective_policy cfg)), (denies (effective_policy cfg)); simpl; eauto 10.
      * unfold finishRefreshFailureLocked. simpl. split_and!; try done. right. exists cause. split; [done|].
        unfold available_error. by rewrite <- negb_orb, Ei, Ea.
Qed.

(** After an availability failure at [failed] the store is not asked again
    for the retry interval, the requests in between get the fallback, and the
    first request after the interval - or after an invalidation - tries again. *)
Theorem retry_schedule e start failed answer err :
  cfg_optionErr cfg = None -> 0 < cfg_refreshRetryInterval cfg ->
  snapshotFreshLocked cfg e failed = false ->
  read_snapshot cfg answer = refresh_failed err true ->
  let e' := (load_finish cfg e start failed (read_snapshot cfg answer)).1.1 in
  forall now, failed <= now ->
    load_fast cfg e' now
    = (if now - failed <? cfg_refreshRetryInterval cfg then Some (Ok (fallbackLocked cfg e')) else None)
    /\ load_fast cfg (InvalidateCache e') now = None.
Proof.
  intros Hopt Hint Hfresh Hread e' now Hnow. pose proof (read_snapshot_unavailable _ _ Hread) as Herr.
  unfold e'. rewrite Hread. unfold load_finish, finishRefreshFailureLocked.
  destruct (fallbackLocked cfg e) as [rules outcome] eqn:Ef. cbn [fst].
  unfold load_fast. rewrite Hopt.
  assert (Hstill : forall x, es_cache x = es_cache e -> es_lastLoad x = es_lastLoad e ->
            es_forceRefresh x = es_forceRefresh e -> snapshotFreshLocked cfg x now = false).
  { intros x Hc Hl Hf. unfold snapshotFreshLocked in *. rewrite Hc, Hl, Hf.
    destruct (es_cache e), (es_lastLoad e) as [ld|]; try done.
    destruct (es_forceRefresh e), (Z.gtb_spec (cfg_cacheTTL cfg) 0); try done. simpl in *. lia. }
  rewrite Hstill by done. split.
  - unfold retryBackoffActiveLocked. simpl. rewrite Herr. simpl.
    destruct (Z.gtb_spec (cfg_refreshRetryInterval cfg) 0); [|lia]. by destruct (now - failed <? _).
  - assert (snapshotFreshLocked cfg (InvalidateCache _) now = false) as -> by
      (unfold snapshotFreshLocked; simpl; by repeat case_match). done.
Qed.

End system.

(** [Store.List] succeeds exactly when the database is reachable, no row has
    a malformed storage type and the rows were read; each of its errors is either
    an availability failure or an integrity failure; malformed rows and a refused
    authorization are always integrity failures, which the engine never answers
    with its fallback. *)
Theorem list_errors_classified `{DriverErrors} handle ping invalid found ping_again :
  let answer := List handle ping invalid found ping_again in
  let integrity err := errors_is err "package rule data integrity failure" in
  let reachable := is_ok handle && is_ok ping in
  (forall rules, answer = Ok rules <-> reachable = true /\ invalid = Ok 0 /\ found = Ok rules)
  /\ (forall err, answer = Err err -> available_error err = negb (integrity err))
  /\ (reachable = true -> forall n, invalid = Ok n -> n <> 0 -> exists err, answer = Err err /\ integrity err = true)
  /\ (reachable = true -> forall cause, invalid = Err cause \/ (invalid = Ok 0 /\ found = Err cause) ->
      isSQLiteRuleStoreAuthorizationError cause = true ->
      exists err, answer = Err err /\ integrity err = true).
Proof.
  cbv zeta. unfold List. destruct handle as [[]|h]; [|simpl; split_and!; naive_solver].
  destruct ping as [[]|p]; [|simpl; split_and!; naive_solver]. simpl is_ok. cbn [andb].
  set (transaction := (invalid ≫= _)).
  assert (Hclass : forall cause, exists err,
    match classifyImmediateRuleStoreReadError cause with
    | Some classified => Err classified
    | None => match ping_again with
              | Err _ => Err (Errorf "%w: read failed (%v); ping failed: %v" [ErrRuleStoreUnavailable])
              | Ok _ => Err (Errorf "%w: read package rules: %v" [ErrRuleDataIntegrity])
              end
    end = @Err (list PackageRule) err
    /\ available_error err = negb (errors_is err "package rule data integrity failure")
    /\ (errors_is cause "package rule data integrity failure" || isSQLiteRuleStoreAuthorizationError cause = true ->
        errors_is err "package rule data integrity failure" = true)).
  { intros cause. unfold classifyImmediateRuleStoreReadError.
    destruct (errors_is cause "package rule data integrity failure") eqn:Ei.
    { exists cause. split_and!; [done | by unfold available_error; rewrite Ei | done]. }
    destruct (isSQLiteRuleStoreAuthorizationError cause); [by eexists|].
    destruct (isRuleStoreAvailabilityError cause); [by eexists|]. destruct ping_again; by eexists. }
  split_and!.
  - intros rules. unfold transaction. destruct invalid as [n|cause]; simpl.
    + destruct (Z.eqb_spec n 0) as [->|Hn]; simpl.
      * destruct found as [rs|cause]; [naive_solver|]. destruct (Hclass cause) as (err & -> & _). naive_solver.
      * naive_solver.
    + destruct (Hclass cause) as (err & -> & _). naive_solver.
  - intros err. destruct transaction as [rs|cause]; [done|].
    destruct (Hclass cause) as (err' & -> & Ha & _). by intros [= <-].
  - intros _ n -> Hn. unfold transaction. simpl. rewrite (proj2 (Z.eqb_neq n 0)) by done. simpl. by eexists.
  - intros _ cause Hcause Hauth. assert (transaction = Err cause) as ->.
    { unfold transaction. destruct Hcause as [->|[-> ->]]; done. }
    destruct (Hclass cause) as (err & -> & _ & Hi). exists err. split; [done|]. apply Hi.
    by rewrite Hauth, orb_true_r.
Qed.

(** ** Witnesses *)

Section witnesses.
#[local] Existing Instances ascii_tables ascii_lower permissive_modules.

Definition plain_driver : DriverErrors := {| sqlite_code := fun _ => None; driver_sentinel := fun _ => false |}.
#[local] Existing Instance plain_driver.

Definition sample_config : EngineConfig := NewEngine true [Some (WithOnLoadErrorPolicy (bs " Use_Stale_Then_Deny "))].

Definition sample_table : list PackageRule := [stored_rule 1 "pypi" "Requests" "<2.0" "deny"].

Definition sample_start : refresh_start := {| start_now := 100; start_generation := 0 |}.

(** A refresh that began, read the table and published at instant 100. *)
Lemma sample_reachable :
  exists s, reachable sample_config sample_table 100 s /\ sys_count s = 0 /\ sys_pending s = false
    /\ sys_now s = 100 /\ sys_table s = sample_table
    /\ sys_engine s
       = (load_finish sample_config
            (match load_begin sample_config initial_state 100 with inr (_, e) => e | inl _ => initial_state end)
            sample_start 100 (read_snapshot sample_config (Ok sample_table))).1.1.
Proof.
  eexists. split.
  - eapply reachable_step; [eapply reachable_step; [eapply reachable_step; [apply reachable_init|]|]|].
    + eapply step_begin; [reflexivity | vm_compute; reflexivity].
    + eapply step_read; [reflexivity | reflexivity | by left].
    + eapply step_finish; [reflexivity | reflexivity].
  - repeat split; reflexivity.
Defined.

Lemma fresh_snapshot_is_current_witness :
  exists s rules, reachable sample_config sample_table 100 s
    /\ compile_rules (sys_table s) = Ok rules /\ length rules = 1%nat.
Proof.
  destruct sample_reachable as (s & Hr & Hcount & Hp & Hnow & Htable & He).
  destruct (fresh_snapshot_is_current sample_config sample_table 100 s Hr) as (rules & loaded & Hc & Hcomp & _).
  - unfold few. rewrite Hcount. reflexivity.
  - exact Hp.
  - rewrite He, Hnow. vm_compute. reflexivity.
  - exists s, rules. split; [exact Hr|]. split; [exact Hcomp|].
    rewrite Htable in Hcomp. revert Hcomp. vm_compute. intros [= <-]. reflexivity.
Defined.

Lemma policy_status_truthful_witness :
  exists s, reachable sample_config sample_table 100 s
    /\ (st_Status (policyStatusLocked sample_config (sys_engine s) 100) = bs "unavailable" <-> es_cache (sys_engine s) = None).
Proof.
  destruct sample_reachable as (s & Hr & _). exists s. split; [exact Hr|].
  exact (proj1 (policy_status_truthful sample_config sample_table 100 s 100 Hr)).
Defined.

Lemma retry_schedule_witness :
  let failure := read_snapshot sample_config (Err (Errorf "%w: ping database: %v" [ErrRuleStoreUnavailable])) in
  let e' := (load_finish sample_config initial_state sample_start 100 failure).1.1 in
  load_fast sample_config e' (100 + 4 * second) = Some (Ok ([], loadOutcomeDeny))
  /\ load_fast sample_config e' (100 + 5 * second) = None.
Proof.
  intros failure e'.
  pose proof (retry_schedule sample_config initial_state sample_start 100
    (Err (Errorf "%w: ping database: %v" [ErrRuleStoreUnavailable]))
    (Errorf "%w: ping database: %v" [ErrRuleStoreUnavailable])) as Hs.
  specialize (Hs ltac:(vm_compute; reflexivity) ltac:(vm_compute; reflexivity) ltac:(vm_compute; reflexivity)
    ltac:(vm_compute; reflexivity)).
  split.
  - etransitivity; [exact (proj1 (Hs (100 + 4 * second) ltac:(vm_compute; discriminate)))|]. vm_compute. reflexivity.
  - etransitivity; [exact (proj1 (Hs (100 + 5 * second) ltac:(vm_compute; discriminate)))|]. vm_compute. reflexivity.
Defined.
End witnesses.
