(* ===== verification/Middleware.v ===== *)
(** * Policy decisions at the request boundary (internal/rules: engine.go,
    middleware.go, adapter_bridge.go)

    [Check], [Explain] and [CheckIncompleteArtifact] on the answer of a load, the
    HTTP middleware and the checker handed to protocol adapters.  Reading a
    response means: the request goes on, or one of the three refusals. *)

From S2P Require Export Refresh RefreshTheory.

(** The identity [extractRequestTarget] establishes (request_target.go). *)
Record requestTarget := {
  t_Ecosystem : gostring;
  t_PackageName : gostring;
  t_Version : gostring;
  t_AmbiguousArtifact : bool;
}.

(** [(allowed, rule, err)] *)
Abbreviation decision := (bool * option PackageRule * option error)%type.

Inductive Response :=
  | Next
  | PackageDenied (message package : gostring)
  | PolicyUnevaluable
  | PolicyUnavailable.

Inductive PackageRuleOutcome := PackageRuleAllow | PackageRuleDeny | PackageRuleUnevaluable.

Record PackageRuleDecision := {
  prd_Outcome : PackageRuleOutcome;
  prd_Reason : gostring;
}.

Definition is_deny (outcome : loadOutcome) : bool :=
  match outcome with loadOutcomeDeny => true | _ => false end.

Section middleware.
Context `{UnicodeTables} `{EnglishLower} `{ModulePackage}.

(** [ctx.Err()] of the request and the answer of [loadRulesWithState]. *)
Definition Check (ctx : option error) (loaded : result load) (ecosystem packageName version : gostring) : decision :=
  match ctx with
  | Some e => (true, None, Some e)
  | None =>
    match loaded with
    | Err e => (true, None, Some e)
    | Ok (rules, outcome) =>
      if is_deny outcome then (false, None, None) else
      match request_identity ecosystem packageName with
      | Err e => (false, None, Some e)
      | Ok (ecosystem, normalizedPackage) =>
        match selectBestCompiledRule rules ecosystem normalizedPackage version with
        | Err e => (false, None, Some e)
        | Ok None => (true, None, None)
        | Ok (Some rule) => (str_eqb (r_Action rule) (bs "allow"), Some rule, None)
        end
      end
    end
  end.

(** [Explain]: the evaluation beside the error; the attached policy status is
    [policyStatusLocked]. *)
Definition empty_evaluation (allowed : bool) : Evaluation :=
  {| ev_Allowed := allowed; ev_MatchedRule := None; ev_Reason := []; ev_WinnerReason := [];
     ev_PrecedenceReason := []; ev_Winner := None; ev_Candidates := [] |}.

Definition Explain (ctx : option error) (loaded : result load) (ecosystem packageName version : gostring)
    : Evaluation * option error :=
  match ctx with
  | Some e => (empty_evaluation true, Some e)
  | None =>
    match loaded with
    | Err e => (empty_evaluation true, Some e)
    | Ok (rules, outcome) =>
      if is_deny outcome then
        let reason := bs "policy load fallback denied request" in
        ({| ev_Allowed := false; ev_MatchedRule := None; ev_Reason := reason; ev_WinnerReason := reason;
            ev_PrecedenceReason := bs "policy_fallback_deny"; ev_Winner := None; ev_Candidates := [] |}, None)
      else
      match request_identity ecosystem packageName with
      | Err e => (empty_evaluation false, Some e)
      | Ok (ecosystem, normalizedPackage) =>
        match evaluateCompiledRules rules ecosystem normalizedPackage version with
        | Err e => (empty_evaluation false, Some e)
        | Ok evaluation => (evaluation, None)
        end
      end
    end
  end.

Definition CheckIncompleteArtifact (ctx : option error) (loaded : result load) (ecosystem : gostring) : decision :=
  match ctx with
  | Some e => (true, None, Some e)
  | None =>
    match loaded with
    | Err e => (true, None, Some e)
    | Ok (rules, outcome) =>
      if is_deny outcome then (false, None, None) else
      let ecosystem := to_lower (trim_space ecosystem) in
      let unavailable :=
        (false, None, Some (Errorf "%w: package rules are unavailable for ecosystem %q" [ErrPolicyEvaluation])) in
      match Lookup ecosystem with
      | None => unavailable
      | Some definition =>
        if negb (def_RuleEnforcement definition) then unavailable else
        match checkIncomplete rules ecosystem with
        | Err e => (false, None, Some e)
        | Ok (allowed, fallback) => (allowed, fallback, None)
        end
      end
    end
  end.

Definition isUnsafePolicyError (e : error) : bool :=
  errors_is e "package policy integrity failure" || errors_is e "package rule data integrity failure"
  || errors_is e "package policy evaluation failure".

Definition is_cancellation (e : error) : bool :=
  errors_is e "context canceled" || errors_is e "context deadline exceeded".

Definition target_decision (ctx : option error) (loaded : result load) (target : requestTarget) : decision :=
  if t_AmbiguousArtifact target then CheckIncompleteArtifact ctx loaded (t_Ecosystem target)
  else Check ctx loaded (t_Ecosystem target) (t_PackageName target) (t_Version target).

(** The handler behind [Middleware]; a request without a target is [None]. *)
Definition middleware (cfg : EngineConfig) (ctx : option error) (loaded : result load)
    (target : option requestTarget) : Response :=
  match target with
  | None => Next
  | Some target =>
    let '(allowed, rule, err) := target_decision ctx loaded target in
    match err with
    | Some e =>
      if isUnsafePolicyError e then PolicyUnevaluable else
      if errors_is e "package rule store unavailable" then
        if fallbackAllowsWithoutSnapshot cfg then Next else PolicyUnavailable
      else if is_cancellation e then Next
      else PolicyUnavailable
    | None =>
      if negb allowed then
        let reason :=
          match rule with
          | Some rule => if str_eqb (r_Reason rule) [] then bs "Package blocked by policy" else r_Reason rule
          | None => bs "Package blocked by policy"
          end in
        PackageDenied reason (t_PackageName target)
      else Next
    end
  end.

(** [EvaluatePackageRule] of the adapters' checker; a nil engine is [None]. *)
Definition EvaluatePackageRule (engine : option EngineConfig) (ctx : option error) (loaded : result load)
    (ecosystem packageName version : gostring) : PackageRuleDecision :=
  let decide outcome reason := {| prd_Outcome := outcome; prd_Reason := reason |} in
  match engine with
  | None => decide PackageRuleAllow []
  | Some cfg =>
    let '(allowed, matched, err) := Check ctx loaded ecosystem packageName version in
    match err with
    | Some e =>
      if isUnsafePolicyError e then decide PackageRuleUnevaluable [] else
      if errors_is e "package rule store unavailable" then
        if fallbackAllowsWithoutSnapshot cfg then decide PackageRuleAllow []
        else decide PackageRuleDeny (bs "Package policy unavailable")
      else if is_cancellation e then decide PackageRuleAllow []
      else decide PackageRuleDeny (bs "Package policy unavailable")
    | None =>
      if allowed then decide PackageRuleAllow []
      else decide PackageRuleDeny (match matched with Some rule => r_Reason rule | None => [] end)
    end
  end.

End middleware.

(** * Theory of policy decisions (Middleware.v)

    When a request passes, that the three decision paths agree, and what a
    corrupt store does to requests. *)

Section theory.
Context `{UnicodeTables} `{EnglishLower} `{ModulePackage} `{DriverErrors}.

(** ** Errors of the evaluation are unsafe *)





(** ** What the engine answers a load with *)




(** ** Properties *)


Lemma explain_check ctx loaded ecosystem package version :
  let '(allowed, rule, err) := Check ctx loaded ecosystem package version in
  let '(evaluation, err') := Explain ctx loaded ecosystem package version in
  err' = err /\ ev_Allowed evaluation = allowed /\ ev_MatchedRule evaluation = rule.
Proof.
  unfold Check, Explain. destruct ctx as [e|]; [done|].
  destruct loaded as [[rules outcome]|e]; [|done]. destruct (is_deny outcome); [done|].
  destruct (request_identity ecosystem package) as [[ec pk]|e]; [|done].
  pose proof (evaluate_agrees rules ec pk version) as Hagree.
  destruct (evaluateCompiledRules rules ec pk version) as [ev|e]; [|by rewrite Hagree].
  destruct Hagree as (-> & Hv). by destruct (ev_MatchedRule ev).
Qed.

(** The three ways to ask for a decision agree: the explanation reports
    [Check]'s verdict, rule and error, and the checker used by the protocol
    adapters allows, denies and refuses exactly the requests the middleware
    does. *)
Theorem decision_paths_agree cfg ctx loaded ecosystem package version :
  let target := {| t_Ecosystem := ecosystem; t_PackageName := package; t_Version := version;
                   t_AmbiguousArtifact := false |} in
  let response := middleware cfg ctx loaded (Some target) in
  let adapter := EvaluatePackageRule (Some cfg) ctx loaded ecosystem package version in
  let '(allowed, rule, err) := Check ctx loaded ecosystem package version in
  let '(evaluation, err') := Explain ctx loaded ecosystem package version in
  err' = err /\ ev_Allowed evaluation = allowed /\ ev_MatchedRule evaluation = rule
  /\ match prd_Outcome adapter with
     | PackageRuleAllow => response = Next
     | PackageRuleUnevaluable => response = PolicyUnevaluable
     | PackageRuleDeny => response = PolicyUnavailable \/ exists message, response = PackageDenied message package
     end.
Proof.
  cbv zeta. pose proof (explain_check ctx loaded ecosystem package version) as Hexplain.
  unfold middleware, EvaluatePackageRule, target_decision.
  cbn [t_AmbiguousArtifact t_Ecosystem t_PackageName t_Version].
  destruct (Check ctx loaded ecosystem package version) as [[allowed rule] err].
  destruct (Explain ctx loaded ecosystem package version) as [evaluation err'].
  destruct Hexplain as (-> & -> & ->). split_and!; [done..|].
  repeat case_match; simplify_eq/=; eauto.
Qed.

(** When a needed refresh finds data it cannot trust - a malformed or unknown
    store error, or a row that does not compile - every request with a target is
    refused as unevaluable, whatever fallback is configured and whatever snapshot
    was in use before. *)
Theorem corrupt_store_blocks cfg st now1 now2 now3 listing err target :
  cfg_optionErr cfg = None ->
  snapshotFreshLocked cfg st now1 = false -> retryBackoffActiveLocked cfg st now1 = false ->
  snapshotFreshLocked cfg st now2 = false -> retryBackoffActiveLocked cfg st now2 = false ->
  read_snapshot cfg listing = refresh_failed err false ->
  middleware cfg None (loadRulesWithState cfg st now1 now2 now3 listing).2 (Some target) = PolicyUnevaluable.
Proof.
  intros Ho Hf1 Hb1 Hf2 Hb2 Hr. unfold loadRulesWithState, load_fast, load_begin.
  rewrite Ho, Hf1, Hb1, Hf2, Hb2.
  match goal with |- context [load_finish _ ?s ?start _ _] => pose proof (refresh_outcomes cfg s start now3 listing) as Hout end.
  destruct (load_finish _ _ _ _ _) as [[e' ev] loaded]. rewrite Hr in Hout. cbn [snd].
  destruct Hout as (_ & -> & Hi & _).
  assert (Hu : isUnsafePolicyError err = true) by (unfold isUnsafePolicyError; by rewrite Hi).
  unfold middleware, target_decision, CheckIncompleteArtifact, Check.
  by destruct (t_AmbiguousArtifact target); rewrite Hu.
Qed.

End theory.

(** ** Witnesses *)

Section witnesses.
#[local] Existing Instances ascii_tables ascii_lower permissive_modules plain_driver.

Definition sample_target (version : string) : requestTarget :=
  {| t_Ecosystem := bs "pypi"; t_PackageName := bs "Requests"; t_Version := bs version; t_AmbiguousArtifact := false |}.


Lemma corrupt_store_blocks_witness :
  middleware sample_config None
    (loadRulesWithState sample_config initial_state 100 100 100 (Ok [submitted 7 "pypi" "Requests" "<2.0" "deny"])).2
    (Some (sample_target "2.1")) = PolicyUnevaluable.
Proof.
  eapply (corrupt_store_blocks sample_config initial_state 100 100 100
    (Ok [submitted 7 "pypi" "Requests" "<2.0" "deny"])); vm_compute; reflexivity.
Defined.
End witnesses.
