(* ===== verification/Invalidation.v ===== *)
(** * The cache invalidation registry (internal/cache/invalidation_state.go)

    Writers and invalidations of a cache key announce themselves to the registry;
    a commit is refused once an invalidation overtook it, and a key stays
    unreadable until the data an invalidation was to remove is gone.  Each method
    runs under the registry's mutex and is one function on its state. *)

From stdpp Require Import gmap.
From S2P Require Export GoStrings.

Definition maxRetainedInvalidations : Z := 4096.

(** [uint64] counters wrap, [int] counters are far from their bounds: they count
    running goroutines. *)
Record cacheInvalidationState := {
  inv_generation : Z;
  inv_writers : Z;
  inv_invalidations : Z;
  inv_tombstoned : bool;
  inv_cleanupSafe : bool;
  inv_retained : bool;
}.

Record cacheInvalidationRegistry := {
  reg_states : gmap gostring cacheInvalidationState;
  reg_retained : Z;
  reg_failClosed : bool;
}.

Definition newCacheInvalidationRegistry : cacheInvalidationRegistry :=
  {| reg_states := ∅; reg_retained := 0; reg_failClosed := false |}.

Definition fresh_invalidation_state : cacheInvalidationState :=
  {| inv_generation := 0; inv_writers := 0; inv_invalidations := 0; inv_tombstoned := false;
     inv_cleanupSafe := false; inv_retained := false |}.

Definition with_states (r : cacheInvalidationRegistry) (states : gmap gostring cacheInvalidationState)
    : cacheInvalidationRegistry :=
  {| reg_states := states; reg_retained := reg_retained r; reg_failClosed := reg_failClosed r |}.

Definition with_retained (s : cacheInvalidationState) (retained : bool) : cacheInvalidationState :=
  {| inv_generation := inv_generation s; inv_writers := inv_writers s; inv_invalidations := inv_invalidations s;
     inv_tombstoned := inv_tombstoned s; inv_cleanupSafe := inv_cleanupSafe s; inv_retained := retained |}.

(** [unretainLocked]: the state is a pointer into the map; the caller stores the
    returned value. *)
Definition unretainLocked (r : cacheInvalidationRegistry) (s : cacheInvalidationState)
    : cacheInvalidationRegistry * cacheInvalidationState :=
  if negb (inv_retained s) then (r, s) else
  ({| reg_states := reg_states r; reg_retained := reg_retained r - 1; reg_failClosed := reg_failClosed r |},
   with_retained s false).

Definition idle (s : cacheInvalidationState) : bool := (inv_writers s =? 0) && (inv_invalidations s =? 0).

Definition capRetainedLocked (r : cacheInvalidationRegistry) : cacheInvalidationRegistry :=
  if reg_retained r <=? maxRetainedInvalidations then r else
  {| reg_states := filter (fun kv => idle kv.2 = false) (reg_states r); reg_retained := 0; reg_failClosed := true |}.

Definition settleIdleLocked (r : cacheInvalidationRegistry) (key : gostring) (s : cacheInvalidationState)
    : cacheInvalidationRegistry :=
  if negb (idle s) then with_states r (<[key := s]> (reg_states r)) else
  let s :=
    if inv_tombstoned s && inv_cleanupSafe s
    then {| inv_generation := inv_generation s; inv_writers := inv_writers s;
            inv_invalidations := inv_invalidations s; inv_tombstoned := false;
            inv_cleanupSafe := inv_cleanupSafe s; inv_retained := inv_retained s |}
    else s in
  if negb (inv_tombstoned s) then
    let '(r, _) := unretainLocked r s in with_states r (delete key (reg_states r))
  else if reg_failClosed r then
    let '(r, _) := unretainLocked r s in with_states r (delete key (reg_states r))
  else
    let r := if negb (inv_retained s)
             then {| reg_states := <[key := with_retained s true]> (reg_states r);
                     reg_retained := reg_retained r + 1; reg_failClosed := reg_failClosed r |}
             else with_states r (<[key := s]> (reg_states r)) in
    capRetainedLocked r.

Definition state_or_fresh (r : cacheInvalidationRegistry) (key : gostring) : cacheInvalidationState :=
  default fresh_invalidation_state (reg_states r !! key).

Definition beginWrite (r : cacheInvalidationRegistry) (key : gostring) : cacheInvalidationRegistry * Z :=
  let '(r, s) := unretainLocked r (state_or_fresh r key) in
  let s := {| inv_generation := inv_generation s; inv_writers := inv_writers s + 1;
              inv_invalidations := inv_invalidations s; inv_tombstoned := inv_tombstoned s;
              inv_cleanupSafe := inv_cleanupSafe s; inv_retained := inv_retained s |} in
  (with_states r (<[key := s]> (reg_states r)), inv_generation s).

Definition writeCurrent (r : cacheInvalidationRegistry) (key : gostring) (generation : Z) : bool :=
  match reg_states r !! key with Some s => inv_generation s =? generation | None => false end.

Definition commitWrite (r : cacheInvalidationRegistry) (key : gostring) (generation : Z)
    : cacheInvalidationRegistry * bool :=
  match reg_states r !! key with
  | None => (r, false)
  | Some s =>
    if negb (inv_generation s =? generation) then (r, false) else
    (settleIdleLocked r key
       {| inv_generation := inv_generation s; inv_writers := inv_writers s - 1;
          inv_invalidations := inv_invalidations s; inv_tombstoned := false; inv_cleanupSafe := true;
          inv_retained := inv_retained s |}, true)
  end.

(** The optional flag of the variadic parameter. *)
Definition abortWrite (r : cacheInvalidationRegistry) (key : gostring) (cleanupSafe : option bool)
    : cacheInvalidationRegistry :=
  match reg_states r !! key with
  | None => r
  | Some s =>
    settleIdleLocked r key
      {| inv_generation := inv_generation s; inv_writers := inv_writers s - 1;
         inv_invalidations := inv_invalidations s; inv_tombstoned := inv_tombstoned s;
         inv_cleanupSafe := match cleanupSafe with Some true => true | _ => inv_cleanupSafe s end;
         inv_retained := inv_retained s |}
  end.

Definition markCleanupSafe (r : cacheInvalidationRegistry) (key : gostring) : cacheInvalidationRegistry :=
  match reg_states r !! key with
  | None => r
  | Some s =>
    settleIdleLocked r key
      {| inv_generation := inv_generation s; inv_writers := inv_writers s; inv_invalidations := inv_invalidations s;
         inv_tombstoned := inv_tombstoned s; inv_cleanupSafe := true; inv_retained := inv_retained s |}
  end.

Definition beginInvalidation (r : cacheInvalidationRegistry) (key : gostring) : cacheInvalidationRegistry * Z :=
  let '(r, s) := unretainLocked r (state_or_fresh r key) in
  let s := {| inv_generation := (inv_generation s + 1) mod 2 ^ 64; inv_writers := inv_writers s;
              inv_invalidations := inv_invalidations s + 1; inv_tombstoned := true; inv_cleanupSafe := false;
              inv_retained := inv_retained s |} in
  (with_states r (<[key := s]> (reg_states r)), inv_generation s).

Definition invalidationPending (r : cacheInvalidationRegistry) (key : gostring) (generation : Z) : bool :=
  match reg_states r !! key with
  | Some s => (inv_generation s =? generation) && inv_tombstoned s
  | None => false
  end.

Definition finishInvalidation (r : cacheInvalidationRegistry) (key : gostring) (generation : Z) (cleanupSafe : bool)
    : cacheInvalidationRegistry :=
  match reg_states r !! key with
  | None => r
  | Some s =>
    settleIdleLocked r key
      {| inv_generation := inv_generation s; inv_writers := inv_writers s;
         inv_invalidations := inv_invalidations s - 1; inv_tombstoned := inv_tombstoned s;
         inv_cleanupSafe := if (inv_generation s =? generation) && inv_tombstoned s && cleanupSafe
                            then true else inv_cleanupSafe s;
         inv_retained := inv_retained s |}
  end.

Definition tombstoned (r : cacheInvalidationRegistry) (key : gostring) : bool :=
  reg_failClosed r || match reg_states r !! key with Some s => inv_tombstoned s | None => false end.

Definition readable (r : cacheInvalidationRegistry) (key : gostring) : bool :=
  negb (reg_failClosed r) && match reg_states r !! key with Some s => negb (inv_tombstoned s) | None => true end.

(** * Theory of the invalidation registry (Invalidation.v)

    The registry under any interleaving of its clients' calls.  Ghost state
    records which writes are outstanding, which of them an invalidation overtook,
    and which keys still hold data an invalidation was to remove. *)

(** ** The clients *)

(** A write or an invalidation, with the generation its [begin] returned. *)
Record write := {
  wr_key : gostring;
  wr_generation : Z;
  (** an invalidation of the key began after it *)
  wr_overtaken : bool;
}.

Record world := {
  w_registry : cacheInvalidationRegistry;
  w_writes : list write;
  w_invalidations : list write;
  (** keys whose invalidated data is neither replaced nor known to be removed *)
  w_dirty : gset gostring;
  w_total : Z;
}.

Definition initial_world : world :=
  {| w_registry := newCacheInvalidationRegistry; w_writes := []; w_invalidations := []; w_dirty := ∅; w_total := 0 |}.

Definition overtake (key : gostring) (w : write) : write :=
  {| wr_key := wr_key w; wr_generation := wr_generation w;
     wr_overtaken := wr_overtaken w || bool_decide (wr_key w = key) |}.

(** The data of [key] is gone. *)
Definition cleaned (safe : bool) (key : gostring) (dirty : gset gostring) : gset gostring :=
  if safe then dirty ∖ {[key]} else dirty.

Inductive world_step : world -> world -> Prop :=
  | step_begin_write w key r g :
      beginWrite (w_registry w) key = (r, g) ->
      world_step w {| w_registry := r;
        w_writes := {| wr_key := key; wr_generation := g; wr_overtaken := false |} :: w_writes w;
        w_invalidations := w_invalidations w; w_dirty := w_dirty w; w_total := w_total w |}
  | step_commit w write others r :
      w_writes w ≡ₚ write :: others ->
      commitWrite (w_registry w) (wr_key write) (wr_generation write) = (r, true) ->
      world_step w {| w_registry := r; w_writes := others; w_invalidations := w_invalidations w;
        w_dirty := cleaned true (wr_key write) (w_dirty w); w_total := w_total w |}
  | step_abort w write others safe :
      w_writes w ≡ₚ write :: others ->
      world_step w {| w_registry := abortWrite (w_registry w) (wr_key write) safe; w_writes := others;
        w_invalidations := w_invalidations w;
        w_dirty := cleaned (match safe with Some true => true | _ => false end) (wr_key write) (w_dirty w);
        w_total := w_total w |}
  | step_mark w key :
      world_step w {| w_registry := markCleanupSafe (w_registry w) key; w_writes := w_writes w;
        w_invalidations := w_invalidations w; w_dirty := cleaned true key (w_dirty w); w_total := w_total w |}
  | step_begin_invalidation w key r g :
      beginInvalidation (w_registry w) key = (r, g) ->
      world_step w {| w_registry := r; w_writes := overtake key <$> w_writes w;
        w_invalidations := {| wr_key := key; wr_generation := g; wr_overtaken := false |} :: (overtake key <$> w_invalidations w);
        w_dirty := {[key]} ∪ w_dirty w; w_total := w_total w + 1 |}
  | step_finish_invalidation w i others safe :
      w_invalidations w ≡ₚ i :: others ->
      world_step w {| w_registry := finishInvalidation (w_registry w) (wr_key i) (wr_generation i) safe; w_writes := w_writes w;
        w_invalidations := others;
        w_dirty := cleaned (invalidationPending (w_registry w) (wr_key i) (wr_generation i) && safe) (wr_key i) (w_dirty w);
        w_total := w_total w |}.

Inductive world_reachable : world -> Prop :=
  | world_init : world_reachable initial_world
  | world_more w w' : world_reachable w -> world_step w w' -> world_reachable w'.

(** ** Counting the clients *)

Definition writers_of (key : gostring) : list write -> Z := count (fun w => bool_decide (wr_key w = key)).
Definition invalidations_of (key : gostring) : list write -> Z := count (fun i => bool_decide (wr_key i = key)).

(** The number of retained states. *)
Definition retained_states (m : gmap gostring cacheInvalidationState) : Z :=
  Z.of_nat (size (filter (fun kv => inv_retained kv.2 = true) m)).

Lemma retained_states_fresh m key s :
  m !! key = None -> retained_states (<[key := s]> m) = retained_states m + b2z (inv_retained s).
Proof.
  intros Hm. unfold retained_states, b2z. destruct (inv_retained s) eqn:E.
  - rewrite map_filter_insert_True by done. rewrite map_size_insert_None; [lia|].
    apply map_lookup_filter_None. by left.
  - rewrite map_filter_insert_False by (simpl; by rewrite E). rewrite delete_id by done. lia.
Qed.

Lemma retained_states_insert m key s :
  retained_states (<[key := s]> m) = retained_states (delete key m) + b2z (inv_retained s).
Proof.
  rewrite <- insert_delete_eq. apply retained_states_fresh, lookup_delete_eq.
Qed.

Lemma retained_states_lookup m key s :
  m !! key = Some s -> retained_states m = retained_states (delete key m) + b2z (inv_retained s).
Proof. intros Hm. by rewrite <- (insert_id m key s Hm) at 1; rewrite retained_states_insert. Qed.

Lemma retained_states_none m key : m !! key = None -> retained_states m = retained_states (delete key m).
Proof. intros Hm. by rewrite delete_id. Qed.

(** ** The invariant of one key *)

(** The facts about a key with [nw] outstanding writes and [ni] outstanding
    invalidations: the counters agree, a state without clients is kept only as a
    tombstone that is not known to be clean and is then accounted as retained,
    and a key is dirty when it is a tombstone not known to be clean. *)
Definition key_ok (failed : bool) (nw ni total : Z) (dirty : bool) (o : option cacheInvalidationState) : Prop :=
  match o with
  | None => nw = 0 /\ ni = 0 /\ (failed = false -> dirty = false)
  | Some s =>
    inv_writers s = nw /\ inv_invalidations s = ni /\ 0 <= inv_generation s <= total
    /\ inv_retained s = idle s
    /\ (idle s = true -> inv_tombstoned s = true /\ inv_cleanupSafe s = false /\ failed = false)
    /\ (failed = false -> dirty = true <-> inv_tombstoned s = true /\ inv_cleanupSafe s = false)
  end.

Record registry_ok (r : cacheInvalidationRegistry) (nw ni : gostring -> Z) (total : Z) (dirty : gset gostring) : Prop := {
  ro_key k : key_ok (reg_failClosed r) (nw k) (ni k) total (bool_decide (k ∈ dirty)) (reg_states r !! k);
  ro_retained : reg_retained r = retained_states (reg_states r);
  ro_bound : reg_retained r <= maxRetainedInvalidations;
}.

(** The registry while one key's state is being worked on. *)
Record registry_except (key : gostring) (r : cacheInvalidationRegistry) (nw ni : gostring -> Z) (total : Z)
    (dirty : gset gostring) (held : bool) : Prop := {
  re_key k : k <> key -> key_ok (reg_failClosed r) (nw k) (ni k) total (bool_decide (k ∈ dirty)) (reg_states r !! k);
  re_retained : reg_retained r = retained_states (delete key (reg_states r)) + b2z held;
  re_bound : reg_retained r <= maxRetainedInvalidations;
}.

Abbreviation state_map := (gmap gostring cacheInvalidationState).

(** Failing closed keeps every state with clients and drops the others. *)
Lemma key_ok_filter (m : state_map) nw ni total dirty k :
  key_ok false nw ni total dirty (m !! k) ->
  key_ok true nw ni total dirty (filter (fun kv => idle kv.2 = false) m !! k).
Proof.
  intros Hk. destruct (m !! k) as [s|] eqn:E.
  - destruct Hk as (? & ? & ? & Hr & ? & ?). destruct (idle s) eqn:Ei.
    + rewrite (proj2 (map_lookup_filter_None (fun kv => idle kv.2 = false) m k)).
      * unfold idle in Ei. simpl. lia.
      * right. intros x Hx. rewrite E in Hx. injection Hx as <-. simpl. by rewrite Ei.
    + rewrite (proj2 (map_lookup_filter_Some (fun kv => idle kv.2 = false) m k s)) by done.
      simpl. rewrite Hr, Ei. split_and!; try done; lia.
  - rewrite (proj2 (map_lookup_filter_None (fun kv => idle kv.2 = false) m k)) by by left.
    simpl in *. by destruct Hk as (? & ? & _).
Qed.

Lemma retained_filter (m : state_map) :
  (forall k s, m !! k = Some s -> inv_retained s = idle s) ->
  retained_states (filter (fun kv => idle kv.2 = false) m) = 0.
Proof.
  intros Hm. unfold retained_states. rewrite (proj2 (map_size_empty_iff _)); [done|].
  apply map_empty_filter_2. intros k s [Hs Hi]%map_lookup_filter_Some. simpl in *.
  rewrite (Hm k s Hs), Hi. done.
Qed.

(** Removing the state of a key without clients. *)
Lemma delete_ok key r nw ni total dirty held :
  registry_except key r nw ni total dirty held -> nw key = 0 -> ni key = 0 ->
  (reg_failClosed r = false -> key ∉ dirty) ->
  registry_ok {| reg_states := delete key (reg_states r); reg_retained := reg_retained r - b2z held;
                 reg_failClosed := reg_failClosed r |} nw ni total dirty.
Proof.
  intros [Hk Hr Hb] Hnw Hni Hd. split; simpl.
  - intros k. destruct (decide (k = key)) as [->|Hne].
    + rewrite lookup_delete_eq. simpl. split_and!; try done. intros Hf. apply bool_decide_eq_false. by apply Hd.
    + rewrite lookup_delete_ne by done. by apply Hk.
  - lia.
  - unfold b2z. case_match; lia.
Qed.

(** Storing a state that keeps clients. *)
Lemma store_ok key r s nw ni total dirty :
  registry_except key r nw ni total dirty (inv_retained s) ->
  key_ok (reg_failClosed r) (nw key) (ni key) total (bool_decide (key ∈ dirty)) (Some s) ->
  registry_ok (with_states r (<[key := s]> (reg_states r))) nw ni total dirty.
Proof.
  intros [Hk Hr Hb] Hs. split; simpl; [| |done].
  - intros k. destruct (decide (k = key)) as [->|Hne]; [by rewrite lookup_insert_eq|].
    rewrite lookup_insert_ne by done. by apply Hk.
  - by rewrite retained_states_insert.
Qed.

Lemma cap_ok r nw ni total dirty :
  (forall k, key_ok (reg_failClosed r) (nw k) (ni k) total (bool_decide (k ∈ dirty)) (reg_states r !! k)) ->
  reg_failClosed r = false -> reg_retained r = retained_states (reg_states r) ->
  registry_ok (capRetainedLocked r) nw ni total dirty.
Proof.
  intros Hk Hf Hr. unfold capRetainedLocked. destruct (Z.leb_spec (reg_retained r) maxRetainedInvalidations).
  - by split.
  - split; simpl; [| |done].
    + intros k. apply key_ok_filter. rewrite <- Hf at 1. apply Hk.
    + symmetry. apply retained_filter. intros k s Hs. specialize (Hk k). rewrite Hs in Hk. apply Hk.
Qed.

Lemma settle_ok r key s nw ni total dirty :
  registry_except key r nw ni total dirty (inv_retained s) ->
  (inv_retained s = true -> idle s = true /\ (inv_tombstoned s = true -> inv_cleanupSafe s = true)) ->
  inv_writers s = nw key -> inv_invalidations s = ni key -> 0 <= inv_generation s <= total ->
  (reg_failClosed r = false -> key ∈ dirty <-> inv_tombstoned s = true /\ inv_cleanupSafe s = false) ->
  registry_ok (settleIdleLocked r key s) nw ni total dirty.
Proof.
  intros Hr Hret Hw Hi Hg Hd. unfold settleIdleLocked. destruct (idle s) eqn:Ei; cbn [negb].
  2: { apply store_ok; [done|]. simpl. rewrite Ei. split_and!; try done; try lia.
       - apply not_true_iff_false. intros Er. by destruct (Hret Er).
       - intros Hf. rewrite bool_decide_eq_true. auto. }
  assert (Hz : nw key = 0 /\ ni key = 0) by (unfold idle in Ei; lia). destruct Hz as [Hnw Hni].
  assert (Hdel : (reg_failClosed r = false -> key ∉ dirty) -> forall s', inv_retained s' = inv_retained s ->
    registry_ok (let '(r0, _) := unretainLocked r s' in with_states r0 (delete key (reg_states r0))) nw ni total dirty).
  { intros Hnd s' Hs'. pose proof (delete_ok _ _ _ _ _ _ _ Hr Hnw Hni Hnd) as Hok. unfold unretainLocked.
    rewrite Hs'. destruct (inv_retained s); simpl in *; [done|]. by rewrite Z.sub_0_r in Hok. }
  destruct (inv_tombstoned s) eqn:Et, (inv_cleanupSafe s) eqn:Ec; cbn [andb inv_tombstoned negb]; rewrite ?Et; cbn [negb];
    try (apply Hdel; [|done]; intros Hf Hin; destruct (proj1 (Hd Hf) Hin); congruence).
  destruct (reg_failClosed r) eqn:Ef; [apply Hdel; [congruence | done]|].
  destruct (inv_retained s) eqn:Er; [destruct (Hret eq_refl) as [_ Hc]; by specialize (Hc eq_refl)|].
  cbn [negb]. destruct Hr as [Hk Hrr Hb]. simpl in Hrr. apply cap_ok; simpl; [|done|].
  - intros k. destruct (decide (k = key)) as [->|Hne].
    + rewrite lookup_insert_eq. cbn [key_ok]. change (idle (with_retained s true)) with (idle s).
      rewrite Ei. simpl. rewrite Et, Ec. split_and!; try (done || lia).
      intros _. rewrite bool_decide_eq_true. by apply Hd.
    + rewrite lookup_insert_ne by done. rewrite <- Ef. by apply Hk.
  - rewrite retained_states_insert. simpl. lia.
Qed.

(** A settled state with clients stays, and no other state with clients is lost. *)
Lemma settle_keeps r key s k s' :
  <[key := s]> (reg_states r) !! k = Some s' -> idle s' = false ->
  reg_states (settleIdleLocked r key s) !! k = Some s'.
Proof.
  intros Hk Hi. unfold settleIdleLocked. destruct (idle s) eqn:Ei; cbn [negb]; [|done].
  assert (Hne : k <> key).
  { intros ->. rewrite lookup_insert_eq in Hk. injection Hk as <-. congruence. }
  rewrite lookup_insert_ne in Hk by done.
  assert (Hdel : forall s'', reg_states (let '(r0, _) := unretainLocked r s'' in
      with_states r0 (delete key (reg_states r0))) !! k = Some s').
  { intros s''. unfold unretainLocked. destruct (negb (inv_retained s'')); simpl; by rewrite lookup_delete_ne. }
  set (s1 := if inv_tombstoned s && inv_cleanupSafe s then _ else s).
  destruct (negb (inv_tombstoned s1)); [apply Hdel|].
  destruct (reg_failClosed r); [apply Hdel|].
  unfold capRetainedLocked. destruct (inv_retained s1); cbn [negb];
    (case_match; simpl;
     [by rewrite lookup_insert_ne | apply map_lookup_filter_Some; split; [by rewrite lookup_insert_ne | done]]).
Qed.

(** ** The invariant of the world *)

Definition few (n : Z) : Prop := n < 2 ^ 64.

Record world_inv (w : world) : Prop := {
  wi_registry : registry_ok (w_registry w) (fun k => writers_of k (w_writes w))
                  (fun k => invalidations_of k (w_invalidations w)) (w_total w) (w_dirty w);
  wi_total : 0 <= w_total w;
  wi_clients : few (w_total w) -> forall x, x ∈ w_writes w ++ w_invalidations w ->
    exists s, reg_states (w_registry w) !! wr_key x = Some s /\ 0 <= wr_generation x <= inv_generation s
      /\ (wr_overtaken x = true <-> wr_generation x < inv_generation s);
}.

Lemma wi_writes w : world_inv w -> few (w_total w) -> forall x, x ∈ w_writes w ->
  exists s, reg_states (w_registry w) !! wr_key x = Some s /\ 0 <= wr_generation x <= inv_generation s
    /\ (wr_overtaken x = true <-> wr_generation x < inv_generation s).
Proof. intros Hinv Hf x Hx. apply (wi_clients w Hinv Hf). apply elem_of_app. by left. Qed.

Lemma initial_world_inv : world_inv initial_world.
Proof.
  split; [split | | ]; simpl; try done.
  intros _ x Hx. by apply elem_of_nil in Hx.
Qed.

Definition held (o : option cacheInvalidationState) : bool :=
  match o with Some s => inv_retained s | None => false end.

Lemma except_of_ok r nw ni nw' ni' total total' dirty dirty' key :
  registry_ok r nw ni total dirty ->
  (forall k, k <> key -> nw' k = nw k /\ ni' k = ni k /\ (k ∈ dirty' <-> k ∈ dirty)) -> total <= total' ->
  registry_except key r nw' ni' total' dirty' (held (reg_states r !! key)).
Proof.
  intros [Hk Hr Hb] Hsame Ht. split; [| |done].
  - intros k Hne. destruct (Hsame k Hne) as (-> & -> & Hd). specialize (Hk k).
    rewrite (bool_decide_ext _ _ Hd). destruct (reg_states r !! k) as [s|]; [|done].
    destruct Hk as (? & ? & ? & ? & ? & ?). split_and!; try done; lia.
  - unfold held. destruct (reg_states r !! key) as [s|] eqn:E.
    + by rewrite <- (retained_states_lookup _ _ _ E).
    + rewrite Z.add_0_r. by rewrite <- retained_states_none.
Qed.

(** Every method that ends in [settleIdleLocked]. *)
Lemma world_settle w key s s' writes' invalidations' dirty' :
  world_inv w -> reg_states (w_registry w) !! key = Some s ->
  inv_generation s' = inv_generation s -> inv_retained s' = inv_retained s ->
  inv_writers s' = writers_of key writes' -> inv_invalidations s' = invalidations_of key invalidations' ->
  (forall k, k <> key -> writers_of k writes' = writers_of k (w_writes w)
     /\ invalidations_of k invalidations' = invalidations_of k (w_invalidations w) /\ (k ∈ dirty' <-> k ∈ w_dirty w)) ->
  (inv_retained s = true -> idle s' = true /\ (inv_tombstoned s' = true -> inv_cleanupSafe s' = true)) ->
  (reg_failClosed (w_registry w) = false -> key ∈ dirty' <-> inv_tombstoned s' = true /\ inv_cleanupSafe s' = false) ->
  (forall x, x ∈ writes' -> x ∈ w_writes w) -> (forall x, x ∈ invalidations' -> x ∈ w_invalidations w) ->
  world_inv {| w_registry := settleIdleLocked (w_registry w) key s'; w_writes := writes';
               w_invalidations := invalidations'; w_dirty := dirty'; w_total := w_total w |}.
Proof.
  intros [Hreg Ht Hw] Hs Hg Hr Hnw Hni Hsame Hret Hd Hsub Hsub'. split; simpl; [|done|].
  - pose proof (ro_key _ _ _ _ _ Hreg key) as Hkey. rewrite Hs in Hkey.
    apply settle_ok; try done.
    + pose proof (except_of_ok _ _ _ _ _ _ (w_total w) _ _ key Hreg Hsame ltac:(lia)) as He.
      rewrite Hs in He. simpl in He. by rewrite Hr.
    + by rewrite Hr.
    + rewrite Hg. apply Hkey.
  - intros Hfew x Hx. destruct (Hw Hfew x) as (sx & Hsx & Hgx & Hox).
    { apply elem_of_app. apply elem_of_app in Hx as [Hx|Hx]; [left|right]; auto. }
    assert (Hpos : 0 < writers_of (wr_key x) writes' \/ 0 < invalidations_of (wr_key x) invalidations').
    { apply elem_of_app in Hx as [Hx|Hx]; [left|right]; apply (count_in _ _ x Hx); by apply bool_decide_eq_true. }
    pose proof (count_nonneg (fun w => bool_decide (wr_key w = wr_key x)) writes').
    pose proof (count_nonneg (fun w => bool_decide (wr_key w = wr_key x)) invalidations').
    unfold writers_of, invalidations_of in *.
    destruct (decide (wr_key x = key)) as [Hk|Hk].
    + exists s'. rewrite Hk in *. rewrite Hs in Hsx. injection Hsx as <-. split; [|by rewrite Hg].
      apply settle_keeps; [apply lookup_insert_eq|]. unfold idle. rewrite Hnw, Hni. lia.
    + exists sx. split; [|done]. apply settle_keeps; [by rewrite lookup_insert_ne|].
      pose proof (ro_key _ _ _ _ _ Hreg (wr_key x)) as Hkx. simpl in Hkx. rewrite Hsx in Hkx.
      destruct Hkx as (Hwx & Hix & _). unfold idle. rewrite Hwx, Hix. destruct (Hsame _ Hk) as (<- & <- & _). lia.
Qed.

(** Both [begin] methods: the state is taken out of the retained ones and stored
    back with one client more. *)
Lemma unretain_except key r nw ni total dirty :
  registry_except key r nw ni total dirty (held (reg_states r !! key)) ->
  registry_except key (unretainLocked r (state_or_fresh r key)).1 nw ni total dirty false.
Proof.
  intros [Hk Hr Hb]. unfold unretainLocked, state_or_fresh.
  destruct (reg_states r !! key) as [s|] eqn:E; simpl in *; [|by split].
  destruct (inv_retained s); simpl in *; split; simpl; try done; lia.
Qed.

Lemma unretain_state r key :
  (unretainLocked r (state_or_fresh r key)).2 = with_retained (state_or_fresh r key) false
  /\ reg_states (unretainLocked r (state_or_fresh r key)).1 = reg_states r
  /\ reg_failClosed (unretainLocked r (state_or_fresh r key)).1 = reg_failClosed r.
Proof.
  unfold unretainLocked. destruct (state_or_fresh r key) as [g wr i t c []]; simpl; repeat split.
Qed.

Lemma world_store w key s' writes' invalidations' dirty' total' r' :
  world_inv w -> r' = (unretainLocked (w_registry w) (state_or_fresh (w_registry w) key)).1 ->
  w_total w <= total' ->
  inv_retained s' = false -> idle s' = false -> 0 <= inv_generation s' <= total' ->
  inv_writers s' = writers_of key writes' -> inv_invalidations s' = invalidations_of key invalidations' ->
  (forall k, k <> key -> writers_of k writes' = writers_of k (w_writes w)
     /\ invalidations_of k invalidations' = invalidations_of k (w_invalidations w) /\ (k ∈ dirty' <-> k ∈ w_dirty w)) ->
  (reg_failClosed (w_registry w) = false -> key ∈ dirty' <-> inv_tombstoned s' = true /\ inv_cleanupSafe s' = false) ->
  (few total' -> forall x, x ∈ writes' ++ invalidations' ->
    if decide (wr_key x = key)
    then 0 <= wr_generation x <= inv_generation s' /\ (wr_overtaken x = true <-> wr_generation x < inv_generation s')
    else x ∈ w_writes w ++ w_invalidations w) ->
  world_inv {| w_registry := with_states r' (<[key := s']> (reg_states r')); w_writes := writes';
               w_invalidations := invalidations'; w_dirty := dirty'; w_total := total' |}.
Proof.
  intros [Hreg Ht Hw] -> Hle Hr Hi Hg Hnw Hni Hsame Hd Hx.
  destruct (unretain_state (w_registry w) key) as (_ & Hst & Hfc). split; simpl; [|lia|].
  - apply store_ok.
    + rewrite Hr. apply unretain_except. eapply except_of_ok; [exact Hreg | exact Hsame | exact Hle].
    + rewrite Hfc. simpl. rewrite Hr, Hi. split_and!; try done; try lia.
      intros Hf. rewrite bool_decide_eq_true. auto.
  - intros Hfew x Hin. specialize (Hx Hfew x Hin). rewrite Hst. case_decide as Hk.
    + exists s'. by rewrite Hk, lookup_insert_eq.
    + rewrite lookup_insert_ne by done. apply Hw; [unfold few in *; lia | done].
Qed.

(** The state a key has, or would start with, satisfies the invariant's bounds. *)
Lemma state_or_fresh_ok w key :
  world_inv w -> let s := state_or_fresh (w_registry w) key in
  inv_writers s = writers_of key (w_writes w) /\ inv_invalidations s = invalidations_of key (w_invalidations w)
  /\ 0 <= inv_generation s <= w_total w
  /\ (reg_failClosed (w_registry w) = false -> key ∈ w_dirty w <-> inv_tombstoned s = true /\ inv_cleanupSafe s = false).
Proof.
  intros [Hreg Ht _]. pose proof (ro_key _ _ _ _ _ Hreg key) as Hk. unfold state_or_fresh.
  destruct (reg_states (w_registry w) !! key) as [s|]; simpl in *.
  - destruct Hk as (? & ? & ? & _ & _ & Hd). split_and!; try done; try lia.
    intros Hf. rewrite <- (Hd Hf). by rewrite bool_decide_eq_true.
  - destruct Hk as (Hw & Hi & Hd).     split_and!; try lia. intros Hf. specialize (Hd Hf).
    apply bool_decide_eq_false in Hd. naive_solver.
Qed.

(** ** Every step keeps the invariant *)

#[local] Arguments cleaned : simpl never.

Lemma cleaned_other safe key dirty k : k <> key -> k ∈ cleaned safe key dirty <-> k ∈ dirty.
Proof. intros Hne. unfold cleaned. destruct safe; set_solver. Qed.

Lemma cleaned_same safe key dirty : key ∈ cleaned safe key dirty -> safe = false /\ key ∈ dirty.
Proof. unfold cleaned. destruct safe; set_solver. Qed.

Lemma writers_of_cons key x ws : writers_of key (x :: ws) = b2z (bool_decide (wr_key x = key)) + writers_of key ws.
Proof. done. Qed.

Lemma invalidations_of_cons key i is' :
  invalidations_of key (i :: is') = b2z (bool_decide (wr_key i = key)) + invalidations_of key is'.
Proof. done. Qed.

Lemma writers_of_perm key ws x others :
  ws ≡ₚ x :: others -> writers_of key ws = b2z (bool_decide (wr_key x = key)) + writers_of key others.
Proof. intros Hp. rewrite <- writers_of_cons. by apply count_perm. Qed.

Lemma invalidations_of_perm key is' x others :
  is' ≡ₚ x :: others -> invalidations_of key is' = b2z (bool_decide (wr_key x = key)) + invalidations_of key others.
Proof. intros Hp. rewrite <- invalidations_of_cons. by apply count_perm. Qed.

Lemma writers_of_overtake key k ws : writers_of k (overtake key <$> ws) = writers_of k ws.
Proof. unfold writers_of. by rewrite count_fmap. Qed.

Lemma invalidations_of_overtake key k ws : invalidations_of k (overtake key <$> ws) = invalidations_of k ws.
Proof. unfold invalidations_of. by rewrite count_fmap. Qed.

Lemma begin_write_inv w key r g :
  world_inv w -> beginWrite (w_registry w) key = (r, g) ->
  world_inv {| w_registry := r;
    w_writes := {| wr_key := key; wr_generation := g; wr_overtaken := false |} :: w_writes w;
    w_invalidations := w_invalidations w; w_dirty := w_dirty w; w_total := w_total w |}.
Proof.
  intros Hinv Hb. destruct (state_or_fresh_ok w key Hinv) as (Hnw & Hni & Hg & Hd).
  destruct (unretain_state (w_registry w) key) as (Hs & _ & _). unfold beginWrite in Hb.
  destruct (unretainLocked _ _) as [r' s'] eqn:E. simpl in *. subst s'. injection Hb as <- <-.
  apply (world_store w); simpl; try done; rewrite ?writers_of_cons; simpl; rewrite ?b2z_same; try lia.
  - exact (eq_sym (f_equal fst E)).
  - unfold idle. simpl. pose proof (count_nonneg (fun w => bool_decide (wr_key w = key)) (w_writes w)).
    unfold writers_of in Hnw. lia.
  - intros k Hne. rewrite writers_of_cons. simpl. by rewrite b2z_other.
  - intros Hfew x [->|Hx]%elem_of_cons; simpl; [rewrite decide_True by done; split; [lia|]; split; [done | lia]|].
    case_decide as Hk; [|done]. destruct (wi_clients w Hinv Hfew x Hx) as (sx & Hsx & Hgx). rewrite Hk in Hsx.
    unfold state_or_fresh. by rewrite Hsx.
Qed.

Lemma begin_invalidation_inv w key r g :
  world_inv w -> beginInvalidation (w_registry w) key = (r, g) ->
  world_inv {| w_registry := r; w_writes := overtake key <$> w_writes w;
    w_invalidations := {| wr_key := key; wr_generation := g; wr_overtaken := false |} :: (overtake key <$> w_invalidations w);
    w_dirty := {[key]} ∪ w_dirty w; w_total := w_total w + 1 |}.
Proof.
  intros Hinv Hb. destruct (state_or_fresh_ok w key Hinv) as (Hnw & Hni & Hg & Hd).
  destruct (unretain_state (w_registry w) key) as (Hs & _ & _). unfold beginInvalidation in Hb.
  destruct (unretainLocked _ _) as [r' s'] eqn:E. simpl in *. subst s'. injection Hb as <- <-.
  set (s := state_or_fresh (w_registry w) key) in *.
  assert (Hmod : 0 <= (inv_generation s + 1) mod 2 ^ 64 <= w_total w + 1).
  { pose proof (Z.mod_pos_bound (inv_generation s + 1) (2 ^ 64) ltac:(lia)).
    pose proof (Z.mod_le (inv_generation s + 1) (2 ^ 64) ltac:(lia) ltac:(lia)). lia. }
  apply (world_store w); simpl; try done; rewrite ?writers_of_overtake, ?invalidations_of_cons, ?invalidations_of_overtake; simpl;
    rewrite ?b2z_same; try lia.
  - exact (eq_sym (f_equal fst E)).
  - unfold idle. simpl. pose proof (count_nonneg (fun i => bool_decide (wr_key i = key)) (w_invalidations w)).
    unfold invalidations_of in Hni. lia.
  - intros k Hne. rewrite writers_of_overtake, invalidations_of_cons, invalidations_of_overtake. simpl. rewrite b2z_other by done.
    split_and!; [done..| set_solver].
  - intros Hf. split; [done | set_solver].
  - intros Hfew x Hx. unfold few in Hfew. assert (Hf0 : few (w_total w)) by (unfold few; lia).
    rewrite elem_of_app, elem_of_cons in Hx.
    assert (x = {| wr_key := key; wr_generation := (inv_generation s + 1) mod 2 ^ 64; wr_overtaken := false |}
            \/ exists x0, x = overtake key x0 /\ x0 ∈ w_writes w ++ w_invalidations w) as [->|(x0 & -> & Hx0)].
    { destruct Hx as [(x0 & -> & ?)%list_elem_of_fmap|[->|(x0 & -> & ?)%list_elem_of_fmap]]; [right|by left|right];
        exists x0; (split; [done|]); apply elem_of_app; auto. }
    { simpl. rewrite decide_True by done. split; [lia|]. split; [done|lia]. }
    simpl. destruct (wi_clients w Hinv Hf0 x0 Hx0) as (sx & Hsx & Hgx & Hox).
    case_decide as Hk.
    + rewrite Hk in Hsx. assert (Es : s = sx) by (unfold s, state_or_fresh; by rewrite Hsx).
      rewrite Es in *. rewrite Z.mod_small by lia. split; [lia|].
      rewrite bool_decide_true by done. rewrite orb_true_r. split; [lia | done].
    + replace (overtake key x0) with x0; [done|]. destruct x0 as [k0 g0 o0]. unfold overtake. simpl in *.
      by rewrite bool_decide_false, orb_false_r by done.
Qed.

Lemma tracked w key s :
  world_inv w -> reg_states (w_registry w) !! key = Some s ->
  inv_writers s = writers_of key (w_writes w) /\ inv_invalidations s = invalidations_of key (w_invalidations w)
  /\ (inv_retained s = true -> idle s = true)
  /\ (reg_failClosed (w_registry w) = false -> key ∈ w_dirty w <-> inv_tombstoned s = true /\ inv_cleanupSafe s = false).
Proof.
  intros Hinv Hs. destruct (state_or_fresh_ok w key Hinv) as (Hw & Hi & _ & Hd). unfold state_or_fresh in *.
  rewrite Hs in *. simpl in *. split_and!; try done. pose proof (ro_key _ _ _ _ _ (wi_registry w Hinv) key) as Hk.
  rewrite Hs in Hk. destruct Hk as (_ & _ & _ & Hr & _). congruence.
Qed.

(** A client's key has a state, which is not a retained one. *)
Lemma client_state w key :
  world_inv w -> 0 < writers_of key (w_writes w) \/ 0 < invalidations_of key (w_invalidations w) ->
  exists s, reg_states (w_registry w) !! key = Some s /\ inv_retained s = false.
Proof.
  intros Hinv Hc. pose proof (ro_key _ _ _ _ _ (wi_registry w Hinv) key) as Hk.
  destruct (reg_states (w_registry w) !! key) as [s|]; simpl in Hk.
  - exists s. split; [done|]. destruct Hk as (Hkw & Hki & _ & -> & _). unfold idle. lia.
  - lia.
Qed.

Lemma writes_client w x others :
  w_writes w ≡ₚ x :: others -> 0 < writers_of (wr_key x) (w_writes w).
Proof.
  intros Hp. rewrite (writers_of_perm _ _ _ _ Hp), b2z_same.
  pose proof (count_nonneg (fun w => bool_decide (wr_key w = wr_key x)) others). unfold writers_of. lia.
Qed.

Lemma invalidations_client w i others :
  w_invalidations w ≡ₚ i :: others -> 0 < invalidations_of (wr_key i) (w_invalidations w).
Proof.
  intros Hp. rewrite (invalidations_of_perm _ _ _ _ Hp), b2z_same.
  pose proof (count_nonneg (fun j => bool_decide (wr_key j = wr_key i)) others). unfold invalidations_of. lia.
Qed.

Lemma commit_inv w x others r :
  world_inv w -> w_writes w ≡ₚ x :: others -> commitWrite (w_registry w) (wr_key x) (wr_generation x) = (r, true) ->
  world_inv {| w_registry := r; w_writes := others; w_invalidations := w_invalidations w;
    w_dirty := cleaned true (wr_key x) (w_dirty w); w_total := w_total w |}.
Proof.
  intros Hinv Hp. destruct (client_state w (wr_key x) Hinv (or_introl (writes_client _ _ _ Hp))) as (s & Hs & Hret).
  unfold commitWrite. rewrite Hs. case_match; [done|]. intros [= <-].
  destruct (tracked w _ s Hinv Hs) as (Hw & Hi & _ & _).
  apply (world_settle w _ s); try done; simpl.
  - rewrite Hw, (writers_of_perm _ _ _ _ Hp), b2z_same. lia.
  - intros k Hne. rewrite (writers_of_perm k _ _ _ Hp), b2z_other by done. split_and!; try done. apply cleaned_other, Hne.
  - congruence.
  - intros _. unfold cleaned. set_solver.
  - intros y Hy. rewrite Hp. by apply elem_of_cons; right.
Qed.

Lemma abort_inv w x others safe :
  world_inv w -> w_writes w ≡ₚ x :: others ->
  world_inv {| w_registry := abortWrite (w_registry w) (wr_key x) safe; w_writes := others;
    w_invalidations := w_invalidations w;
    w_dirty := cleaned (match safe with Some true => true | _ => false end) (wr_key x) (w_dirty w);
    w_total := w_total w |}.
Proof.
  intros Hinv Hp. destruct (client_state w (wr_key x) Hinv (or_introl (writes_client _ _ _ Hp))) as (s & Hs & Hret).
  unfold abortWrite. rewrite Hs. destruct (tracked w _ s Hinv Hs) as (Hw & Hi & _ & Hd).
  apply (world_settle w _ s); try done; simpl.
  - rewrite Hw, (writers_of_perm _ _ _ _ Hp), b2z_same. lia.
  - intros k Hne. rewrite (writers_of_perm k _ _ _ Hp), b2z_other by done. split_and!; try done. apply cleaned_other, Hne.
  - congruence.
  - intros Hf. specialize (Hd Hf). unfold cleaned. destruct safe as [[]|]; simpl; [set_solver | done | done].
  - intros y Hy. rewrite Hp. by apply elem_of_cons; right.
Qed.

Lemma mark_inv w key :
  world_inv w ->
  world_inv {| w_registry := markCleanupSafe (w_registry w) key; w_writes := w_writes w;
    w_invalidations := w_invalidations w; w_dirty := cleaned true key (w_dirty w); w_total := w_total w |}.
Proof.
  intros Hinv. unfold markCleanupSafe. destruct (reg_states (w_registry w) !! key) as [s|] eqn:Hs.
  - destruct (tracked w _ s Hinv Hs) as (Hw & Hi & Hr & Hd). apply (world_settle w _ s); try done; simpl.
    + intros k Hne. split_and!; try done. apply cleaned_other, Hne.
    + intros Hret. split; [|done]. by apply Hr.
    + intros _. unfold cleaned. set_solver.
  - destruct Hinv as [[Hk Hret Hb] Ht Hw]. split; simpl; [split; [|done|done] | done | done].
    intros k. specialize (Hk k). destruct (decide (k = key)) as [->|Hne].
    + rewrite Hs in *. simpl in *. destruct Hk as (? & ? & _). split_and!; try done.
      intros _. apply bool_decide_eq_false. unfold cleaned. set_solver.
    + by rewrite (bool_decide_ext _ (k ∈ w_dirty w)) by (by apply (cleaned_other true)).
Qed.

Lemma finish_invalidation_inv w i others safe :
  world_inv w -> w_invalidations w ≡ₚ i :: others ->
  world_inv {| w_registry := finishInvalidation (w_registry w) (wr_key i) (wr_generation i) safe; w_writes := w_writes w;
    w_invalidations := others;
    w_dirty := cleaned (invalidationPending (w_registry w) (wr_key i) (wr_generation i) && safe) (wr_key i) (w_dirty w);
    w_total := w_total w |}.
Proof.
  intros Hinv Hp. pose proof (invalidations_client _ _ _ Hp) as Hc. simpl in Hc.
  destruct (client_state w (wr_key i) Hinv (or_intror Hc)) as (s & Hs & Hret).
  unfold finishInvalidation, invalidationPending. rewrite Hs. destruct (tracked w _ s Hinv Hs) as (Hw & Hi & _ & Hd).
  apply (world_settle w _ s); try done; simpl.
  - rewrite Hi, (invalidations_of_perm _ _ _ _ Hp), b2z_same. lia.
  - intros k Hne. rewrite (invalidations_of_perm k _ _ _ Hp), b2z_other by done. split_and!; try done.
    apply cleaned_other, Hne.
  - congruence.
  - intros Hf. specialize (Hd Hf). unfold cleaned. case_match; simpl; [set_solver | done].
  - intros y Hy. rewrite Hp. by apply elem_of_cons; right.
Qed.

Lemma world_reachable_inv w : world_reachable w -> world_inv w.
Proof.
  induction 1 as [|w w' _ IH Hstep]; [apply initial_world_inv|]. destruct Hstep.
  - by apply begin_write_inv.
  - by eapply commit_inv.
  - by eapply abort_inv.
  - by apply mark_inv.
  - by apply begin_invalidation_inv.
  - by apply finish_invalidation_inv.
Qed.

(** ** What the registry promises *)

(** Every state belongs to a client or is a retained one. *)
Lemma states_bound w :
  world_inv w ->
  Z.of_nat (size (reg_states (w_registry w)))
    <= reg_retained (w_registry w) + Z.of_nat (length (w_writes w)) + Z.of_nat (length (w_invalidations w)).
Proof.
  intros Hinv. destruct (wi_registry w Hinv) as [Hk Hr _]. rewrite Hr. unfold retained_states.
  set (m := reg_states (w_registry w)) in *.
  set (kept := (map_to_list (filter (fun kv => inv_retained kv.2 = true) m)).*1).
  assert (Hsub : (map_to_list m).*1 ⊆+ kept ++ (wr_key <$> w_writes w) ++ (wr_key <$> w_invalidations w)).
  { apply NoDup_submseteq; [apply NoDup_fst_map_to_list|].
    intros k ([k' s] & -> & Hs%elem_of_map_to_list)%list_elem_of_fmap. simpl. rewrite !elem_of_app.
    specialize (Hk k'). rewrite Hs in Hk. destruct Hk as (Hw & Hi & _ & Hret & _).
    destruct (inv_retained s) eqn:Er.
    - left. apply list_elem_of_fmap. exists (k', s). split; [done|]. apply elem_of_map_to_list.
      by apply map_lookup_filter_Some.
    - right. pose proof (count_nonneg (fun w => bool_decide (wr_key w = k')) (w_writes w)).
      pose proof (count_nonneg (fun i => bool_decide (wr_key i = k')) (w_invalidations w)).
      unfold writers_of, invalidations_of, idle in *.
      assert (Hc : 0 < count (fun w => bool_decide (wr_key w = k')) (w_writes w)
                   \/ 0 < count (fun i => bool_decide (wr_key i = k')) (w_invalidations w)) by lia.
      destruct Hc as [(x & Hx & Hp%bool_decide_eq_true)%count_pos | (i & Hx & Hp%bool_decide_eq_true)%count_pos].
      + left. apply list_elem_of_fmap. by exists x.
      + right. apply list_elem_of_fmap. by exists i. }
  apply submseteq_length in Hsub. rewrite !length_app, !length_fmap in Hsub. unfold kept in Hsub.
  rewrite length_fmap, !length_map_to_list in Hsub. lia.
Qed.

Lemma settle_failClosed r key s :
  reg_failClosed r = true -> reg_failClosed (settleIdleLocked r key s) = true.
Proof.
  intros Hf. unfold settleIdleLocked, unretainLocked, capRetainedLocked. rewrite Hf.
  destruct (negb (idle s)); [done|]. repeat (case_match; simpl; try done).
  all: repeat match goal with H : (_, _) = (_, _) |- _ => injection H as <- <- end; done.
Qed.

Lemma step_failClosed w w' :
  world_step w w' -> reg_failClosed (w_registry w) = true -> reg_failClosed (w_registry w') = true.
Proof.
  destruct 1 as [w key r g Hb|w x others r Hp Hc|w x others safe Hp|w key|w key r g Hb|w i others safe Hp];
    simpl; intros Hf.
  - destruct (unretain_state (w_registry w) key) as (_ & _ & Hfc). unfold beginWrite in Hb.
    destruct (unretainLocked _ _) as [r' s']. injection Hb as <- <-. simpl in *. congruence.
  - unfold commitWrite in Hc. repeat (case_match; try done). injection Hc as <-. by apply settle_failClosed.
  - unfold abortWrite. case_match; [by apply settle_failClosed | done].
  - unfold markCleanupSafe. case_match; [by apply settle_failClosed | done].
  - destruct (unretain_state (w_registry w) key) as (_ & _ & Hfc). unfold beginInvalidation in Hb.
    destruct (unretainLocked _ _) as [r' s']. injection Hb as <- <-. simpl in *. congruence.
  - unfold finishInvalidation. case_match; [by apply settle_failClosed | done].
Qed.

(** C12: the commit of a write is its linearization point.  Whatever the calls of
    other writers and invalidations in between, [commitWrite] accepts an outstanding
    write exactly when no invalidation of its key began after the write did, and
    [writeCurrent] announces the same beforehand (the [uint64] generation cannot wrap
    in the fewer than 2^64 invalidations this supposes). *)
Theorem commit_iff_not_overtaken (w : world) (x : write) :
  world_reachable w -> w_total w < 2 ^ 64 -> x ∈ w_writes w ->
  (commitWrite (w_registry w) (wr_key x) (wr_generation x)).2 = negb (wr_overtaken x)
  /\ writeCurrent (w_registry w) (wr_key x) (wr_generation x) = negb (wr_overtaken x).
Proof.
  intros Hr Hfew Hx. destruct (wi_writes w (world_reachable_inv w Hr) Hfew x Hx) as (s & Hs & Hg & Ho).
  unfold commitWrite, writeCurrent. rewrite Hs.
  destruct (wr_overtaken x); destruct (Z.eqb_spec (inv_generation s) (wr_generation x)); simpl; try done; exfalso.
  - destruct Ho as [Ho _]. specialize (Ho eq_refl). lia.
  - destruct Ho as [_ Ho]. assert (false = true) by (apply Ho; lia). done.
Qed.

(** C17: no interleaving lets a reader see data an invalidation was to remove.  A
    key is unreadable while such data may be there; without clients it is readable
    again exactly when the data is known to be gone; and the registry keeps at most
    4096 states beyond its clients', after which it refuses every read for good. *)
Theorem reads_are_safe (w : world) (key : gostring) :
  world_reachable w ->
  let r := w_registry w in
  (key ∈ w_dirty w -> readable r key = false)
  /\ tombstoned r key = negb (readable r key)
  /\ (writers_of key (w_writes w) = 0 -> invalidations_of key (w_invalidations w) = 0 ->
      reg_failClosed r = false -> (readable r key = true <-> key ∉ w_dirty w))
  /\ (reg_failClosed r = true ->
      readable r key = false /\ forall w', world_step w w' -> readable (w_registry w') key = false)
  /\ Z.of_nat (size (reg_states r))
     <= maxRetainedInvalidations + Z.of_nat (length (w_writes w)) + Z.of_nat (length (w_invalidations w)).
Proof.
  intros Hreach r. pose proof (world_reachable_inv w Hreach) as Hinv.
  pose proof (ro_key _ _ _ _ _ (wi_registry w Hinv) key) as Hk. fold r in Hk. split_and!.
  - intros Hd. unfold readable. destruct (reg_failClosed r); [done|]. rewrite bool_decide_true in Hk by done. simpl.
    destruct (reg_states r !! key) as [s|]; simpl in Hk.
    + destruct Hk as (_ & _ & _ & _ & _ & Hds). destruct (proj1 (Hds eq_refl) eq_refl) as [-> _]. done.
    + destruct Hk as (_ & _ & Hn). by specialize (Hn eq_refl).
  - unfold tombstoned, readable. destruct (reg_failClosed r), (reg_states r !! key) as [s|]; try done.
    by destruct (inv_tombstoned s).
  - intros Hw Hi Hf. unfold readable. rewrite Hf in *. simpl. destruct (reg_states r !! key) as [s|]; simpl in Hk.
    + destruct Hk as (Hsw & Hsi & _ & _ & Hidle & Hds). specialize (Hds eq_refl). rewrite bool_decide_eq_true in Hds.
      destruct Hidle as (Ht & Hc & _); [unfold idle; rewrite Hsw, Hsi, Hw, Hi; done|]. rewrite Ht. naive_solver.
    + destruct Hk as (_ & _ & Hn). specialize (Hn eq_refl). by apply bool_decide_eq_false in Hn.
  - intros Hf. split; [unfold readable; by rewrite Hf|]. intros w' Hstep. unfold readable.
    by rewrite (step_failClosed w w' Hstep Hf).
  - pose proof (states_bound w Hinv) as Hs. pose proof (ro_bound _ _ _ _ _ (wi_registry w Hinv)) as Hb. fold r in Hs, Hb. lia.
Qed.

(** ** Concrete traces *)

Definition key_a : gostring := bs "pypi/simple/a".

Definition after_write : world :=
  {| w_registry := (beginWrite newCacheInvalidationRegistry key_a).1;
     w_writes := [{| wr_key := key_a; wr_generation := 0; wr_overtaken := false |}];
     w_invalidations := []; w_dirty := ∅; w_total := 0 |}.

Definition overtaken_write : write := {| wr_key := key_a; wr_generation := 0; wr_overtaken := true |}.

Definition after_invalidation : world :=
  {| w_registry := (beginInvalidation (w_registry after_write) key_a).1;
     w_writes := [overtaken_write]; w_invalidations := [{| wr_key := key_a; wr_generation := 1; wr_overtaken := false |}]; w_dirty := {[key_a]} ∪ ∅; w_total := 1 |}.

Lemma after_write_reachable : world_reachable after_write.
Proof.
  eapply world_more; [apply world_init|]. unfold after_write. apply (step_begin_write initial_world key_a). reflexivity.
Qed.

Lemma after_invalidation_reachable : world_reachable after_invalidation.
Proof.
  eapply world_more; [apply after_write_reachable|]. unfold after_invalidation.
  apply (step_begin_invalidation after_write key_a). reflexivity.
Qed.

Lemma commit_iff_not_overtaken_witness :
  (commitWrite (w_registry after_invalidation) key_a 0).2 = false
  /\ writeCurrent (w_registry after_invalidation) key_a 0 = false.
Proof.
  apply (commit_iff_not_overtaken after_invalidation overtaken_write).
  - exact after_invalidation_reachable.
  - reflexivity.
  - by apply list_elem_of_singleton.
Defined.

Lemma reads_are_safe_witness : readable (w_registry after_invalidation) key_a = false.
Proof.
  refine (proj1 (reads_are_safe after_invalidation key_a after_invalidation_reachable) _).
  apply elem_of_union_l, elem_of_singleton_2. reflexivity.
Defined.
