(* ===== verification/MutationGate.v ===== *)
(** * The per-key mutation gate (internal/cache/key_mutation_gate.go)

    [lock] and [lockSnapshot] give one goroutine at a time exclusive ownership of a
    cache key through a reference-counted entry with a one-token channel.  A
    goroutine is a program counter; [gate_step] is the code between two points where
    another goroutine, a cancellation or the shutdown can intervene. *)

From stdpp Require Import gmap.
From S2P Require Export GoStrings.

Inductive gate_error := errEmptyMutationKey | operation_ctx_err | lifecycle_ctx_err.

(** [token] is a channel of capacity one: [true] when the token is in it. *)
Record keyMutationEntry := {
  token : bool;
  refs : Z;
}.

(** Entries are pointers: [g_entries] is the map of the gate, [g_heap] every entry
    allocated so far and [g_next] the next address.  [g_done] says that the
    manager's context is done. *)
Record keyMutationGate := {
  g_done : bool;
  g_entries : gmap gostring nat;
  g_heap : gmap nat keyMutationEntry;
  g_next : nat;
}.

Definition newKeyMutationGate (ctx_done : bool) : keyMutationGate :=
  {| g_done := ctx_done; g_entries := ∅; g_heap := ∅; g_next := 0 |}.

Definition with_heap (g : keyMutationGate) (heap : gmap nat keyMutationEntry) : keyMutationGate :=
  {| g_done := g_done g; g_entries := g_entries g; g_heap := heap; g_next := g_next g |}.

(** Where a goroutine stands in [lockWithLifecycle] and [release]; the outcome is the
    error the call returns, or [None] after an unlock. *)
Inductive gate_pc :=
  | pc_start (key : gostring) (enforceLifecycle : bool)
  | pc_lifecycle (key : gostring)
  | pc_admit (key : gostring) (enforceLifecycle : bool)
  | pc_select (key : gostring) (entry : nat) (enforceLifecycle : bool)
  | pc_owner (key : gostring) (entry : nat) (enforceLifecycle : bool)
  | pc_owner_lifecycle (key : gostring) (entry : nat)
  | pc_hold (key : gostring) (entry : nat)
  | pc_send (key : gostring) (entry : nat) (outcome : option gate_error)
  | pc_unref (key : gostring) (entry : nat) (outcome : option gate_error)
  | pc_return (outcome : option gate_error).

(** The ready case a [select] takes. *)
Inductive select_case := case_token | case_ctx_done | case_gate_ctx_done.

(** The admission under [mu]: the key's entry, allocated with its token if there is none. *)
Definition admit_entry (g : keyMutationGate) (key : gostring) : keyMutationGate * nat :=
  match g_entries g !! key with
  | Some a =>
    (with_heap g (alter (fun e => {| token := token e; refs := refs e + 1 |}) a (g_heap g)), a)
  | None =>
    ({| g_done := g_done g; g_entries := <[key := g_next g]> (g_entries g);
        g_heap := <[g_next g := {| token := true; refs := 1 |}]> (g_heap g); g_next := S (g_next g) |}, g_next g)
  end.

Definition set_token (g : keyMutationGate) (a : nat) (b : bool) : keyMutationGate :=
  with_heap g (alter (fun e => {| token := b; refs := refs e |}) a (g_heap g)).

Definition has_token (g : keyMutationGate) (a : nat) : bool :=
  match g_heap g !! a with Some e => token e | None => false end.

(** The part of [release] under [mu]. *)
Definition unref_entry (g : keyMutationGate) (key : gostring) (a : nat) : keyMutationGate :=
  let heap := alter (fun e => {| token := token e; refs := refs e - 1 |}) a (g_heap g) in
  let idle := match heap !! a with Some e => refs e =? 0 | None => false end in
  {| g_done := g_done g;
     g_entries := if idle && bool_decide (g_entries g !! key = Some a) then delete key (g_entries g) else g_entries g;
     g_heap := heap; g_next := g_next g |}.

(** One step of a goroutine whose operation context is done or not; [None] when it
    blocks, or has returned.  A step from [pc_hold] is the call of the returned
    unlock function; its [sync.Once] makes any later call do nothing. *)
Definition gate_step (g : keyMutationGate) (ctx_done : bool) (case : select_case) (pc : gate_pc)
    : option (keyMutationGate * gate_pc) :=
  match pc with
  | pc_start key enforce =>
    if bool_decide (key = []) then Some (g, pc_return (Some errEmptyMutationKey))
    else if ctx_done then Some (g, pc_return (Some operation_ctx_err))
    else Some (g, if enforce then pc_lifecycle key else pc_admit key false)
  | pc_lifecycle key =>
    Some (g, if g_done g then pc_return (Some lifecycle_ctx_err) else pc_admit key true)
  | pc_admit key enforce =>
    if enforce && g_done g then Some (g, pc_return (Some lifecycle_ctx_err))
    else let '(g, a) := admit_entry g key in Some (g, pc_select key a enforce)
  | pc_select key a enforce =>
    match case with
    | case_token => if has_token g a then Some (set_token g a false, pc_owner key a enforce) else None
    | case_ctx_done => if ctx_done then Some (g, pc_unref key a (Some operation_ctx_err)) else None
    | case_gate_ctx_done =>
      if enforce && g_done g then Some (g, pc_unref key a (Some lifecycle_ctx_err)) else None
    end
  | pc_owner key a enforce =>
    Some (g, if ctx_done then pc_send key a (Some operation_ctx_err)
             else if enforce then pc_owner_lifecycle key a else pc_hold key a)
  | pc_owner_lifecycle key a =>
    Some (g, if g_done g then pc_send key a (Some lifecycle_ctx_err) else pc_hold key a)
  | pc_hold key a => Some (g, pc_send key a None)
  | pc_send key a outcome =>
    if has_token g a then None else Some (set_token g a true, pc_unref key a outcome)
  | pc_unref key a outcome => Some (unref_entry g key a, pc_return outcome)
  | pc_return _ => None
  end.

Definition lock (key : gostring) : gate_pc := pc_start key true.
Definition lockSnapshot (key : gostring) : gate_pc := pc_start key false.

(** * Theory of the mutation gate (MutationGate.v)

    Any number of goroutines lock, wait, are cancelled and unlock in any order.  The
    invariant ties each entry's counter and token to the goroutines at it. *)

(** ** The system *)

Record goroutine := { t_ctx_done : bool; t_pc : gate_pc }.

Record gate_system := { s_gate : keyMutationGate; s_threads : list goroutine }.

Inductive system_step : gate_system -> gate_system -> Prop :=
  | sys_call g ts key enforce :
      system_step {| s_gate := g; s_threads := ts |}
        {| s_gate := g; s_threads := ts ++ [{| t_ctx_done := false; t_pc := pc_start key enforce |}] |}
  | sys_cancel g ts i t :
      ts !! i = Some t ->
      system_step {| s_gate := g; s_threads := ts |}
        {| s_gate := g; s_threads := <[i := {| t_ctx_done := true; t_pc := t_pc t |}]> ts |}
  | sys_shutdown g ts :
      system_step {| s_gate := g; s_threads := ts |}
        {| s_gate := {| g_done := true; g_entries := g_entries g; g_heap := g_heap g; g_next := g_next g |};
           s_threads := ts |}
  | sys_run g ts i t case g' pc' :
      ts !! i = Some t -> gate_step g (t_ctx_done t) case (t_pc t) = Some (g', pc') ->
      system_step {| s_gate := g; s_threads := ts |}
        {| s_gate := g'; s_threads := <[i := {| t_ctx_done := t_ctx_done t; t_pc := pc' |}]> ts |}.

Inductive system_reachable : gate_system -> Prop :=
  | sys_init : system_reachable {| s_gate := newKeyMutationGate false; s_threads := [] |}
  | sys_more s s' : system_reachable s -> system_step s s' -> system_reachable s'.

(** ** The invariant *)

(** The key and entry a goroutine holds a reference on, and whether it owns the token. *)
Definition place (pc : gate_pc) : option (gostring * nat) :=
  match pc with
  | pc_select key a _ | pc_owner key a _ | pc_owner_lifecycle key a | pc_hold key a
  | pc_send key a _ | pc_unref key a _ => Some (key, a)
  | _ => None
  end.

Definition owning (pc : gate_pc) : bool :=
  match pc with pc_owner _ _ _ | pc_owner_lifecycle _ _ | pc_hold _ _ | pc_send _ _ _ => true | _ => false end.

Definition at_entry (a : nat) (t : goroutine) : bool :=
  match place (t_pc t) with Some (_, b) => bool_decide (b = a) | None => false end.

Definition owns_entry (a : nat) (t : goroutine) : bool := owning (t_pc t) && at_entry a t.

Record gate_inv (g : keyMutationGate) (ts : list goroutine) : Prop := {
  gi_refs a e : g_heap g !! a = Some e -> refs e = count (at_entry a) ts;
  gi_token a e : g_heap g !! a = Some e -> b2z (negb (token e)) = count (owns_entry a) ts;
  gi_place i t key a : ts !! i = Some t -> place (t_pc t) = Some (key, a) -> g_entries g !! key = Some a;
  gi_entry key a : g_entries g !! key = Some a -> is_Some (g_heap g !! a) /\ 0 < count (at_entry a) ts;
  gi_inj key key' a : g_entries g !! key = Some a -> g_entries g !! key' = Some a -> key = key';
  gi_next a : is_Some (g_heap g !! a) -> (a < g_next g)%nat;
}.

Lemma count_at_pos ts i t key a : ts !! i = Some t -> place (t_pc t) = Some (key, a) -> 0 < count (at_entry a) ts.
Proof.
  intros Hi Hp. apply (count_in _ _ t); [by eapply list_elem_of_lookup_2|]. unfold at_entry. rewrite Hp.
  by apply bool_decide_eq_true.
Qed.

Lemma count_at_place ts a :
  0 < count (at_entry a) ts -> exists i t key, ts !! i = Some t /\ place (t_pc t) = Some (key, a).
Proof.
  intros (t & Ht & Ha)%count_pos. apply list_elem_of_lookup_1 in Ht as [i Hi]. unfold at_entry in Ha.
  destruct (place (t_pc t)) as [[key b]|] eqn:E; [|done]. apply bool_decide_eq_true in Ha as ->. by exists i, t, key.
Qed.

(** A goroutine that moves without touching the gate, its reference or its token. *)
Lemma inv_local g ts i t t' :
  gate_inv g ts -> ts !! i = Some t -> place (t_pc t') = place (t_pc t) -> owning (t_pc t') = owning (t_pc t) ->
  gate_inv g (<[i := t']> ts).
Proof.
  intros [Hr Ht Hp He Hj Hn] Hi Hpl How.
  assert (Hat : forall a, count (at_entry a) (<[i := t']> ts) = count (at_entry a) ts).
  { intros a. rewrite (count_insert _ _ _ _ _ Hi). unfold at_entry. rewrite Hpl. lia. }
  assert (Hown : forall a, count (owns_entry a) (<[i := t']> ts) = count (owns_entry a) ts).
  { intros a. rewrite (count_insert _ _ _ _ _ Hi). unfold owns_entry, at_entry. rewrite Hpl, How. lia. }
  split; try done.
  - intros a e Ha. rewrite Hat. by apply Hr.
  - intros a e Ha. rewrite Hown. by apply Ht.
  - intros j u key a Hj' Hu. destruct (decide (i = j)) as [<-|Hne].
    + rewrite list_lookup_insert_eq in Hj' by (by eapply lookup_lt_Some). injection Hj' as <-.
      rewrite Hpl in Hu. exact (Hp _ _ _ _ Hi Hu).
    + rewrite list_lookup_insert_ne in Hj' by done. exact (Hp _ _ _ _ Hj' Hu).
  - intros key a Hk. rewrite Hat. by apply (He key).
Qed.

(** The counters after a goroutine that can only be at entry [a] moved. *)
Lemma counts_elsewhere ts i t t' a b :
  ts !! i = Some t -> b <> a ->
  (forall key c, place (t_pc t) = Some (key, c) -> c = a) -> (forall key c, place (t_pc t') = Some (key, c) -> c = a) ->
  count (at_entry b) (<[i := t']> ts) = count (at_entry b) ts
  /\ count (owns_entry b) (<[i := t']> ts) = count (owns_entry b) ts.
Proof.
  intros Hi Hb Ht Ht'.
  assert (Hno : forall u : goroutine, (forall key c, place (t_pc u) = Some (key, c) -> c = a) -> at_entry b u = false).
  { intros u Hu. unfold at_entry. destruct (place (t_pc u)) as [[key c]|]; [|done].
    rewrite (Hu key c eq_refl). apply bool_decide_eq_false. congruence. }
  rewrite !(count_insert _ _ _ _ _ Hi). unfold owns_entry. rewrite (Hno t Ht), (Hno t' Ht'), !andb_false_r. lia.
Qed.

(** A step that changes entry [a] only, and keeps the map of entries. *)
Lemma inv_entry g ts i t t' a e' :
  gate_inv g ts -> ts !! i = Some t ->
  place (t_pc t') = place (t_pc t) -> (exists key, place (t_pc t) = Some (key, a)) ->
  refs e' = count (at_entry a) ts ->
  b2z (negb (token e')) = count (owns_entry a) ts - b2z (owning (t_pc t)) + b2z (owning (t_pc t')) ->
  gate_inv (with_heap g (<[a := e']> (g_heap g))) (<[i := t']> ts).
Proof.
  intros [Hr Ht Hp He Hj Hn] Hi Hpl [key Hk] Hrefs Htok.
  assert (Hat : forall b, count (at_entry b) (<[i := t']> ts) = count (at_entry b) ts).
  { intros b. rewrite (count_insert _ _ _ _ _ Hi). unfold at_entry. rewrite Hpl. lia. }
  assert (Ha : at_entry a t = true /\ at_entry a t' = true).
  { unfold at_entry. rewrite Hpl, Hk. by rewrite bool_decide_true. }
  assert (Hpt : forall k c, place (t_pc t) = Some (k, c) -> c = a) by congruence.
  assert (Hpt' : forall k c, place (t_pc t') = Some (k, c) -> c = a) by congruence.
  assert (Hsome : is_Some (g_heap g !! a)) by (eapply He, Hp; [exact Hi | exact Hk]).
  split; simpl.
  - intros b e Hb. rewrite Hat. destruct (decide (b = a)) as [->|Hne].
    + rewrite lookup_insert_eq in Hb. by injection Hb as <-.
    + rewrite lookup_insert_ne in Hb by done. by apply Hr.
  - intros b e Hb. destruct (decide (b = a)) as [->|Hne].
    + rewrite lookup_insert_eq in Hb. injection Hb as <-. rewrite (count_insert _ _ _ _ _ Hi).
      unfold owns_entry at 2 3. destruct Ha as [-> ->]. by rewrite !andb_true_r.
    + rewrite lookup_insert_ne in Hb by done.
      rewrite (proj2 (counts_elsewhere ts i t t' a b Hi Hne Hpt Hpt')). by apply Ht.
  - intros j u key' b Hj' Hu. destruct (decide (i = j)) as [<-|Hne].
    + rewrite list_lookup_insert_eq in Hj' by (by eapply lookup_lt_Some). injection Hj' as <-.
      rewrite Hpl in Hu. exact (Hp _ _ _ _ Hi Hu).
    + rewrite list_lookup_insert_ne in Hj' by done. exact (Hp _ _ _ _ Hj' Hu).
  - intros key' b Hb. rewrite Hat. destruct (He key' b Hb) as [Hs Hc]. split; [|done].
    apply lookup_insert_is_Some'. auto.
  - done.
  - intros b [<-|Hb]%lookup_insert_is_Some'; auto.
Qed.

Lemma other_thread (ts : list goroutine) (i j : nat) (t' u : goroutine) :
  i <> j -> <[i := t']> ts !! j = Some u -> ts !! j = Some u.
Proof. intros Hne Hj. by rewrite list_lookup_insert_ne in Hj. Qed.

Lemma same_thread (ts : list goroutine) (i : nat) (t t' u : goroutine) :
  ts !! i = Some t -> <[i := t']> ts !! i = Some u -> u = t'.
Proof. intros Hi Hu. rewrite list_lookup_insert_eq in Hu by (by eapply lookup_lt_Some). congruence. Qed.

(** A goroutine that leaves its entry. *)
Lemma inv_unref g ts i t key a outcome c :
  gate_inv g ts -> ts !! i = Some t -> t_pc t = pc_unref key a outcome ->
  gate_inv (unref_entry g key a) (<[i := {| t_ctx_done := c; t_pc := pc_return outcome |}]> ts).
Proof.
  intros [Hr Ht Hp He Hj Hn] Hi Hpc. set (t' := {| t_ctx_done := c; t_pc := pc_return outcome |}).
  assert (Hk : place (t_pc t) = Some (key, a)) by by rewrite Hpc.
  pose proof (Hp _ _ _ _ Hi Hk) as Hent. destruct (proj1 (He _ _ Hent)) as [e Hea].
  assert (Hat : count (at_entry a) (<[i := t']> ts) = count (at_entry a) ts - 1).
  { rewrite (count_insert _ _ _ _ _ Hi). unfold at_entry at 2 3. rewrite Hk. simpl. rewrite b2z_same. lia. }
  assert (Hown : count (owns_entry a) (<[i := t']> ts) = count (owns_entry a) ts).
  { rewrite (count_insert _ _ _ _ _ Hi). unfold owns_entry at 2 3. rewrite Hpc. simpl. lia. }
  assert (Helse : forall b, b <> a -> count (at_entry b) (<[i := t']> ts) = count (at_entry b) ts
                   /\ count (owns_entry b) (<[i := t']> ts) = count (owns_entry b) ts).
  { intros b Hb. apply (counts_elsewhere ts i t t' a); try done. congruence. }
  unfold unref_entry. rewrite lookup_alter_eq, Hea. simpl. rewrite (bool_decide_true _ Hent), andb_true_r.
  split; simpl.
  - intros b e0. destruct (decide (b = a)) as [->|Hb].
    + rewrite lookup_alter_eq, Hea. intros [= <-]. simpl. rewrite Hat, (Hr _ _ Hea). lia.
    + rewrite lookup_alter_ne by done. rewrite (proj1 (Helse b Hb)). apply Hr.
  - intros b e0. destruct (decide (b = a)) as [->|Hb].
    + rewrite lookup_alter_eq, Hea. intros [= <-]. simpl. rewrite Hown. by apply Ht.
    + rewrite lookup_alter_ne by done. rewrite (proj2 (Helse b Hb)). apply Ht.
  - intros j u key' b Hj' Hu. destruct (decide (i = j)) as [<-|Hne].
    { rewrite (same_thread _ _ _ _ _ Hi Hj') in Hu. done. }
    pose proof (Hp _ _ _ _ (other_thread _ _ _ _ _ Hne Hj') Hu) as Hb.
    case_match eqn:Ez; [|done]. rewrite lookup_delete_ne; [done|]. intros <-. exfalso.
    assert (Hba : b = a) by congruence. rewrite Hba in Hu.
    pose proof (count_at_pos _ _ _ _ _ Hj' Hu) as Hpos. pose proof (Hr _ _ Hea). lia.
  - intros key' b Hb. assert (Hb0 : g_entries g !! key' = Some b /\ (b = a -> (refs e - 1 =? 0) = false)).
    { destruct (refs e - 1 =? 0); [|done]. apply lookup_delete_Some in Hb as [Hne Hb]. split; [done|].
      intros ->. exfalso. apply Hne. by eapply Hj. }
    destruct Hb0 as [Hb0 Hz]. destruct (He _ _ Hb0) as [Hs Hc]. split; [by apply lookup_alter_is_Some|].
    destruct (decide (b = a)) as [->|Hne]; [|by rewrite (proj1 (Helse b Hne))].
    specialize (Hz eq_refl). rewrite Hat. pose proof (Hr _ _ Hea). lia.
  - intros k1 k2 b H1 H2. apply (Hj k1 k2 b); [destruct (refs e - 1 =? 0) .. ]; try done.
    all: by apply lookup_delete_Some in H1 as [_ H1]; apply lookup_delete_Some in H2 as [_ H2].
  - intros b Hb. apply Hn. by apply lookup_alter_is_Some in Hb.
Qed.

(** A goroutine that is admitted takes a reference on its key's entry. *)
Lemma inv_admit g ts i t key enforce c g' a :
  gate_inv g ts -> ts !! i = Some t -> place (t_pc t) = None -> admit_entry g key = (g', a) ->
  gate_inv g' (<[i := {| t_ctx_done := c; t_pc := pc_select key a enforce |}]> ts).
Proof.
  intros [Hr Ht Hp He Hj Hn] Hi Hpl Had. set (t' := {| t_ctx_done := c; t_pc := pc_select key a enforce |}).
  assert (Hat : count (at_entry a) (<[i := t']> ts) = count (at_entry a) ts + 1).
  { rewrite (count_insert _ _ _ _ _ Hi). unfold at_entry at 2 3. rewrite Hpl. simpl. rewrite b2z_same. lia. }
  assert (Hown : count (owns_entry a) (<[i := t']> ts) = count (owns_entry a) ts).
  { rewrite (count_insert _ _ _ _ _ Hi). unfold owns_entry at 2 3, at_entry. rewrite Hpl, andb_false_r. simpl. lia. }
  assert (Helse : forall b, b <> a -> count (at_entry b) (<[i := t']> ts) = count (at_entry b) ts
                   /\ count (owns_entry b) (<[i := t']> ts) = count (owns_entry b) ts).
  { intros b Hb. apply (counts_elsewhere ts i t t' a); try done; simpl; congruence. }
  unfold admit_entry in Had. destruct (g_entries g !! key) as [a0|] eqn:Ekey; injection Had as <- <-.
  - destruct (proj1 (He _ _ Ekey)) as [e Hea]. split; simpl.
    + intros b e0. destruct (decide (b = a0)) as [->|Hb].
      * rewrite lookup_alter_eq, Hea. intros [= <-]. simpl. rewrite Hat, (Hr _ _ Hea). lia.
      * rewrite lookup_alter_ne by done. rewrite (proj1 (Helse b Hb)). apply Hr.
    + intros b e0. destruct (decide (b = a0)) as [->|Hb].
      * rewrite lookup_alter_eq, Hea. intros [= <-]. simpl. rewrite Hown. by apply Ht.
      * rewrite lookup_alter_ne by done. rewrite (proj2 (Helse b Hb)). apply Ht.
    + intros j u key' b Hj' Hu. destruct (decide (i = j)) as [<-|Hne].
      * rewrite (same_thread _ _ _ _ _ Hi Hj') in Hu. simpl in Hu. congruence.
      * exact (Hp _ _ _ _ (other_thread _ _ _ _ _ Hne Hj') Hu).
    + intros key' b Hb. destruct (He _ _ Hb) as [Hs Hc]. split; [by apply lookup_alter_is_Some|].
      destruct (decide (b = a0)) as [->|Hne]; [lia | by rewrite (proj1 (Helse b Hne))].
    + done.
    + intros b Hb. apply Hn. by apply lookup_alter_is_Some in Hb.
  - assert (Hfree : g_heap g !! g_next g = None).
    { apply eq_None_not_Some. intros Hs%Hn. lia. }
    assert (Hnone : forall k, g_entries g !! k <> Some (g_next g)).
    { intros k Hk. destruct (He _ _ Hk) as [[e Hs] _]. congruence. }
    assert (Hzero : count (at_entry (g_next g)) ts = 0).
    { pose proof (count_nonneg (at_entry (g_next g)) ts).
      destruct (Z.eq_dec (count (at_entry (g_next g)) ts) 0) as [|Hpos]; [done|exfalso].
      destruct (count_at_place ts (g_next g)) as (j & u & k & Hj' & Hu); [lia|]. exact (Hnone k (Hp _ _ _ _ Hj' Hu)). }
    assert (Hzero' : count (owns_entry (g_next g)) ts = 0).
    { pose proof (count_nonneg (owns_entry (g_next g)) ts).
      destruct (Z.eq_dec (count (owns_entry (g_next g)) ts) 0) as [|Hpos]; [done|exfalso].
      destruct (count_pos (owns_entry (g_next g)) ts) as (u & Hu & Ho); [lia|].
      apply andb_true_iff in Ho as [_ Ho]. pose proof (count_in _ _ _ Hu Ho). lia. }
    split; simpl.
    + intros b e0. destruct (decide (b = g_next g)) as [->|Hb].
      * rewrite lookup_insert_eq. intros [= <-]. simpl. lia.
      * rewrite lookup_insert_ne by done. rewrite (proj1 (Helse b Hb)). apply Hr.
    + intros b e0. destruct (decide (b = g_next g)) as [->|Hb].
      * rewrite lookup_insert_eq. intros [= <-]. simpl. lia.
      * rewrite lookup_insert_ne by done. rewrite (proj2 (Helse b Hb)). apply Ht.
    + intros j u key' b Hj' Hu. destruct (decide (i = j)) as [<-|Hne].
      * rewrite (same_thread _ _ _ _ _ Hi Hj') in Hu. simpl in Hu. injection Hu as <- <-. apply lookup_insert_eq.
      * pose proof (Hp _ _ _ _ (other_thread _ _ _ _ _ Hne Hj') Hu) as Hb.
        rewrite lookup_insert_ne; [done|]. intros ->. congruence.
    + intros key' b [[<- <-]|[Hne Hb]]%lookup_insert_Some; [split; [by apply lookup_insert_is_Some'; left | lia]|].
      destruct (He _ _ Hb) as [Hs Hc]. split; [by apply lookup_insert_is_Some'; right|].
      destruct (decide (b = g_next g)) as [->|Hnb]; [lia | by rewrite (proj1 (Helse b Hnb))].
    + intros k1 k2 b [[<- <-]|[Hne1 Hb1]]%lookup_insert_Some [[<- Hb2]|[Hne2 Hb2]]%lookup_insert_Some; try done.
      * by exfalso; eapply Hnone.
      * subst b. by exfalso; eapply Hnone.
      * by eapply Hj.
    + intros b [<-|Hb]%lookup_insert_is_Some'; [lia|]. specialize (Hn b Hb). lia.
Qed.

Lemma set_token_insert g a b e :
  g_heap g !! a = Some e -> set_token g a b = with_heap g (<[a := {| token := b; refs := refs e |}]> (g_heap g)).
Proof.
  intros Ha. unfold set_token. f_equal. apply map_eq. intros k. destruct (decide (k = a)) as [->|Hne].
  - by rewrite lookup_alter_eq, lookup_insert_eq, Ha.
  - by rewrite lookup_alter_ne, lookup_insert_ne by done.
Qed.

(** Taking the token, and giving it back. *)
Lemma inv_set_token g ts i t t' key a b :
  gate_inv g ts -> ts !! i = Some t -> place (t_pc t) = Some (key, a) -> place (t_pc t') = Some (key, a) ->
  has_token g a = negb b -> owning (t_pc t) = b -> owning (t_pc t') = negb b ->
  gate_inv (set_token g a b) (<[i := t']> ts).
Proof.
  intros Hinv Hi Hp Hp' Htok Ho Ho'. destruct (proj1 (gi_entry _ _ Hinv _ _ (gi_place _ _ Hinv _ _ _ _ Hi Hp))) as [e He].
  rewrite (set_token_insert g a b e He). apply (inv_entry g ts i t); try done.
  - congruence.
  - by exists key.
  - exact (gi_refs _ _ Hinv a e He).
  - simpl. rewrite <- (gi_token _ _ Hinv a e He). unfold has_token in Htok. rewrite He in Htok.
    rewrite Htok, Ho, Ho'. destruct b; done.
Qed.

Lemma inv_run g ts i t case g' pc' :
  gate_inv g ts -> ts !! i = Some t -> gate_step g (t_ctx_done t) case (t_pc t) = Some (g', pc') ->
  gate_inv g' (<[i := {| t_ctx_done := t_ctx_done t; t_pc := pc' |}]> ts).
Proof.
  intros Hinv Hi Hstep.
  assert (Hlocal : forall p c, t_pc t = p -> place pc' = place p -> owning pc' = owning p -> g' = g ->
            gate_inv g' (<[i := {| t_ctx_done := c; t_pc := pc' |}]> ts)).
  { intros p c <- Hpl How ->. by eapply inv_local. }
  destruct (t_pc t) as [key b|key|key b|key a b|key a b|key a|key a|key a o|key a o|o] eqn:Epc; simpl in Hstep;
    try (repeat case_match; simplify_eq; by apply (Hlocal _ _ eq_refl)).
  - destruct (b && g_done g); [simplify_eq; by apply (Hlocal _ _ eq_refl)|]. destruct (admit_entry g key) as [g1 a] eqn:Ea.
    injection Hstep as <- <-. eapply inv_admit; [done|done|by rewrite Epc|done].
  - destruct case; [|repeat case_match; simplify_eq; by apply (Hlocal _ _ eq_refl)..]. destruct (has_token g a) eqn:Etok; [|done].
    injection Hstep as <- <-. eapply inv_set_token; [done|done|by rewrite Epc|done|done|by rewrite Epc|done].
  - destruct (has_token g a) eqn:Etok; [done|]. injection Hstep as <- <-.
    eapply inv_set_token; [done|done|by rewrite Epc|done|done|by rewrite Epc|done].
  - injection Hstep as <- <-. by eapply inv_unref.
Qed.

Lemma gate_reachable_inv s : system_reachable s -> gate_inv (s_gate s) (s_threads s).
Proof.
  induction 1 as [|s s' _ IH Hstep].
  { split; simpl; intros *; rewrite ?lookup_empty; try done. }
  destruct Hstep as [g ts key b|g ts i t Hi|g ts|g ts i t case g' pc' Hi Hrun]; simpl in *.
  - destruct IH as [Hr Ht Hp He Hj Hn].
    assert (Hat : forall a (p := at_entry a), count p (ts ++ [{| t_ctx_done := false; t_pc := pc_start key b |}]) = count p ts).
    { intros a p. rewrite count_app. simpl. lia. }
    split; try done.
    + intros a e Ha. rewrite Hat. by apply Hr.
    + intros a e Ha. rewrite count_app. simpl. rewrite (Ht a e Ha). lia.
    + intros j t key' a [Hj'|[_ [_ <-]%list_lookup_singleton_Some]]%lookup_app_Some Hu;
        [exact (Hp _ _ _ _ Hj' Hu) | done].
    + intros key' a Hk. rewrite Hat. by apply (He key').
  - by eapply inv_local.
  - by destruct IH.
  - by eapply inv_run.
Qed.

(** ** What the gate promises *)

(** The steps a goroutine has left at most. *)
Definition rank (pc : gate_pc) : nat :=
  match pc with
  | pc_start _ _ => 9 | pc_lifecycle _ => 8 | pc_admit _ _ => 7 | pc_select _ _ _ => 6 | pc_owner _ _ _ => 5
  | pc_owner_lifecycle _ _ => 4 | pc_hold _ _ => 3 | pc_send _ _ _ => 2 | pc_unref _ _ _ => 1 | pc_return _ => 0
  end.


(** An owner's token is out. *)
Lemma owner_token s i t key a :
  gate_inv (s_gate s) (s_threads s) -> s_threads s !! i = Some t -> place (t_pc t) = Some (key, a) ->
  owning (t_pc t) = true -> has_token (s_gate s) a = false.
Proof.
  intros Hinv Hi Hp Ho. destruct (proj1 (gi_entry _ _ Hinv _ _ (gi_place _ _ Hinv _ _ _ _ Hi Hp))) as [e He].
  pose proof (gi_token _ _ Hinv a e He) as Ht. unfold has_token. rewrite He.
  assert (Hpos : 0 < count (owns_entry a) (s_threads s)).
  { apply (count_in _ _ t); [by eapply list_elem_of_lookup_2|]. unfold owns_entry, at_entry.
    rewrite Ho, Hp. by apply bool_decide_eq_true. }
  destruct (token e); simpl in Ht; [lia | done].
Qed.

(** A missing token is with an owner. *)
Lemma token_owner s i t key a :
  gate_inv (s_gate s) (s_threads s) -> s_threads s !! i = Some t -> place (t_pc t) = Some (key, a) ->
  has_token (s_gate s) a = false ->
  exists j u, s_threads s !! j = Some u /\ owning (t_pc u) = true /\ place (t_pc u) = Some (key, a).
Proof.
  intros Hinv Hi Hp Hno. pose proof (gi_place _ _ Hinv _ _ _ _ Hi Hp) as Hent.
  destruct (proj1 (gi_entry _ _ Hinv _ _ Hent)) as [e He]. pose proof (gi_token _ _ Hinv a e He) as Ht.
  unfold has_token in Hno. rewrite He in Hno. rewrite Hno in Ht. simpl in Ht.
  destruct (count_pos (owns_entry a) (s_threads s)) as (u & Hu & Hou); [lia|].
  apply list_elem_of_lookup_1 in Hu as [j Hj]. apply andb_true_iff in Hou as [Ho Hat]. exists j, u.
  unfold at_entry in Hat. destruct (place (t_pc u)) as [[key' b]|] eqn:Eu; [|done].
  apply bool_decide_eq_true in Hat as ->. split_and!; try done.
  pose proof (gi_place _ _ Hinv _ _ _ _ Hj Eu) as Hent'. by rewrite (gi_inj _ _ Hinv _ _ _ Hent' Hent).
Qed.


(** C28: the gate cannot deadlock or leak.  A goroutine that has not returned can step,
    unless it waits for a token that another goroutine at the same key owns; a waiter
    whose context is done, or a mutation's after the shutdown, can always leave; each
    step brings a goroutine nearer to its return; and the gate has an entry for a key
    exactly as long as a goroutine holds a reference on it. *)
Theorem mutation_gate_live (s : gate_system) (i : nat) (t : goroutine) (key : gostring) :
  system_reachable s -> s_threads s !! i = Some t ->
  ((exists o, t_pc t = pc_return o)
   \/ (exists case g' pc', gate_step (s_gate s) (t_ctx_done t) case (t_pc t) = Some (g', pc'))
   \/ (exists k a enforce j u, t_pc t = pc_select k a enforce /\ t_ctx_done t = false
         /\ enforce && g_done (s_gate s) = false /\ j <> i /\ s_threads s !! j = Some u
         /\ owning (t_pc u) = true /\ place (t_pc u) = Some (k, a)))
  /\ (forall case g' pc', gate_step (s_gate s) (t_ctx_done t) case (t_pc t) = Some (g', pc') ->
      (rank pc' < rank (t_pc t))%nat)
  /\ (is_Some (g_entries (s_gate s) !! key)
      <-> exists j u a, s_threads s !! j = Some u /\ place (t_pc u) = Some (key, a)).
Proof.
  intros Hr Hi. pose proof (gate_reachable_inv s Hr) as Hinv. split_and!.
  - destruct (t_pc t) as [k e|k|k e|k a e|k a e|k a|k a|k a o|k a o|o] eqn:Epc; try (right; left; exists case_token; simpl;
      repeat case_match; by eauto).
    + destruct (has_token (s_gate s) a) eqn:Etok; [right; left; exists case_token; simpl; rewrite Etok; by eauto|].
      destruct (t_ctx_done t) eqn:Ectx; [right; left; exists case_ctx_done; simpl; by eauto|].
      destruct (e && g_done (s_gate s)) eqn:Ed; [right; left; exists case_gate_ctx_done; simpl; rewrite Ed; by eauto|].
      right. right. destruct (token_owner s i t k a Hinv Hi) as (j & u & Hj & Ho & Hp); [by rewrite Epc | done|].
      exists k, a, e, j, u. split_and!; try done. intros ->. rewrite Hi in Hj. injection Hj as <-. by rewrite Epc in Ho.
    + right. left. exists case_token. simpl. rewrite (owner_token s i t k a Hinv Hi) by by rewrite Epc. by eauto.
    + left. by eauto.
  - intros case g' pc' Hs. destruct (t_pc t) as [k e|k|k e|k c e|k c e|k c|k c|k c o|k c o|o]; simpl in Hs;
      repeat case_match; simplify_eq; simpl; repeat case_match; lia.
  - split.
    + intros [a Ha]. destruct (gi_entry _ _ Hinv _ _ Ha) as [_ Hc].
      destruct (count_at_place _ _ Hc) as (j & u & k & Hj & Hp). exists j, u, a. split; [done|].
      pose proof (gi_place _ _ Hinv _ _ _ _ Hj Hp) as Hk. by rewrite (gi_inj _ _ Hinv _ _ _ Ha Hk).
    + intros (j & u & a & Hj & Hp). exists a. exact (gi_place _ _ Hinv _ _ _ _ Hj Hp).
Qed.

(** ** A concrete run: one goroutine holds the key, another waits for it *)

Definition gate_key : gostring := bs "npm/left-pad".

(** Runs goroutine [i] for at most [fuel] steps, taking the case given. *)
Fixpoint run_thread (fuel : nat) (case : select_case) (i : nat) (s : gate_system) : gate_system :=
  match fuel with
  | O => s
  | S fuel =>
    match s_threads s !! i with
    | None => s
    | Some t =>
      match gate_step (s_gate s) (t_ctx_done t) case (t_pc t) with
      | None => s
      | Some (g, pc) =>
        run_thread fuel case i
          {| s_gate := g; s_threads := <[i := {| t_ctx_done := t_ctx_done t; t_pc := pc |}]> (s_threads s) |}
      end
    end
  end.

Lemma run_thread_reachable fuel case i s : system_reachable s -> system_reachable (run_thread fuel case i s).
Proof.
  revert s. induction fuel as [|fuel IH]; intros [g ts] Hs; simpl; [done|].
  destruct (ts !! i) as [t|] eqn:Ei; [|done].
  destruct (gate_step g (t_ctx_done t) case (t_pc t)) as [[g' pc]|] eqn:Es; [|done].
  apply IH. eapply sys_more; [done|]. by eapply sys_run.
Qed.

Definition call (pc : gate_pc) (s : gate_system) : gate_system :=
  {| s_gate := s_gate s; s_threads := s_threads s ++ [{| t_ctx_done := false; t_pc := pc |}] |}.

Lemma call_reachable key enforce s :
  system_reachable s -> system_reachable (call (pc_start key enforce) s).
Proof. intros Hs. eapply sys_more; [done|]. destruct s as [g ts]. apply sys_call. Qed.

(** A mutation owns the key (six steps), a snapshot waits (two steps). *)
Definition contended : gate_system :=
  run_thread 2 case_token 1 (call (lockSnapshot gate_key)
    (run_thread 6 case_token 0 (call (lock gate_key) {| s_gate := newKeyMutationGate false; s_threads := [] |}))).

Lemma contended_reachable : system_reachable contended.
Proof.
  apply run_thread_reachable, call_reachable, run_thread_reachable, call_reachable, sys_init.
Qed.

Definition waiter : goroutine := {| t_ctx_done := false; t_pc := pc_select gate_key 0 false |}.


Lemma mutation_gate_live_witness :
  is_Some (g_entries (s_gate contended) !! gate_key)
  <-> exists j u a, s_threads contended !! j = Some u /\ place (t_pc u) = Some (gate_key, a).
Proof.
  refine (proj2 (proj2 (mutation_gate_live contended 1 waiter gate_key contended_reachable _))).
  vm_compute; reflexivity.
Defined.
