(* ===== verification/Utf8.v ===== *)
(** * UTF-8: decoding and encoding are inverse

    A rune decoded from a string without a decoding error is spelled by its bytes
    exactly as [utf8_encode] spells it, and bytes above ASCII stay above ASCII. *)

From S2P Require Export GoTrim.

Definition byte (b : Z) : Prop := 0 <= b < 256.

(** Disjoint bits add up. *)
Lemma lor_add a n l : 0 <= n -> 0 <= l < 2 ^ n -> Z.lor (Z.shiftl a n) l = a * 2 ^ n + l.
Proof.
  intros Hn Hl. rewrite <- Z.shiftl_mul_pow2 by done. pose proof (Z.add_lor_land (Z.shiftl a n) l) as Hs.
  enough (Z.land (Z.shiftl a n) l = 0) by lia. apply Z.bits_inj'. intros i Hi.
  rewrite Z.land_spec, Z.bits_0. destruct (Z.ltb_spec i n).
  - rewrite Z.shiftl_spec_low by lia. done.
  - rewrite <- (Z.mod_small l (2 ^ n)) by done. rewrite Z.mod_pow2_bits_high by lia. by rewrite andb_false_r.
Qed.

Lemma low_bits_sub b : 0x80 <= b <= 0xBF -> low_bits b = b - 0x80.
Proof. intros Hb. unfold low_bits. change 63 with (Z.ones 6). apply land_ones_sub; (done || lia). Qed.

Lemma low_bits_mod r : low_bits r = r mod 64.
Proof. unfold low_bits. change 63 with (Z.ones 6). by rewrite Z.land_ones. Qed.

Lemma lor_mark c n l : 0 <= n -> c mod 2 ^ n = 0 -> 0 <= l < 2 ^ n -> Z.lor c l = c + l.
Proof.
  intros Hn Hc Hl. assert (Hp : 0 < 2 ^ n) by lia. pose proof (Z.div_mod c (2 ^ n) ltac:(lia)) as Hd.
  replace c with (Z.shiftl (c / 2 ^ n) n) at 1 by (rewrite Z.shiftl_mul_pow2 by done; lia).
  rewrite lor_add by done. lia.
Qed.

(** [utf8_encode] in arithmetic. *)
Lemma utf8_encode_2 r : 0x80 <= r <= 0x7FF -> utf8_encode r = [0xC0 + r / 64; 0x80 + r mod 64].
Proof.
  intros Hr. unfold utf8_encode. rewrite (proj2 (in_range_true _ _ _)) by lia.
  rewrite (proj2 (in_range_false _ _ _)) by lia. cbn [negb andb].
  rewrite (proj2 (Z.leb_gt _ _)) by lia. rewrite (proj2 (Z.leb_le _ _)) by lia.
  rewrite low_bits_mod, Z.shiftr_div_pow2 by lia. change (2 ^ 6) with 64.
  pose proof (Z.mod_pos_bound r 64 ltac:(lia)). pose proof (Z.div_mod r 64 ltac:(lia)).
  rewrite (lor_mark 192 6 (r / 64)) by (done || lia). rewrite (lor_mark 128 6 (r mod 64)) by (done || lia). done.
Qed.

Lemma utf8_encode_3 r :
  0x800 <= r <= 0xFFFF -> ~ 0xD800 <= r <= 0xDFFF ->
  utf8_encode r = [0xE0 + r / 4096; 0x80 + (r / 64) mod 64; 0x80 + r mod 64].
Proof.
  intros Hr Hs. unfold utf8_encode. rewrite (proj2 (in_range_true _ _ _)) by lia.
  rewrite (proj2 (in_range_false _ _ _)) by lia. cbn [negb andb].
  rewrite !(proj2 (Z.leb_gt _ _)) by lia. rewrite (proj2 (Z.leb_le _ _)) by lia.
  rewrite !low_bits_mod, !Z.shiftr_div_pow2 by lia. change (2 ^ 6) with 64. change (2 ^ 12) with 4096.
  pose proof (Z.mod_pos_bound r 64 ltac:(lia)). pose proof (Z.mod_pos_bound (r / 64) 64 ltac:(lia)).
  pose proof (Z.div_mod r 4096 ltac:(lia)). pose proof (Z.mod_pos_bound r 4096 ltac:(lia)).
  rewrite (lor_mark 224 5 (r / 4096)) by (done || lia). rewrite (lor_mark 128 6 (r / 64 mod 64)) by (done || lia).
  rewrite (lor_mark 128 6 (r mod 64)) by (done || lia). done.
Qed.

Lemma utf8_encode_4 r :
  0x10000 <= r <= 0x10FFFF ->
  utf8_encode r = [0xF0 + r / 262144; 0x80 + (r / 4096) mod 64; 0x80 + (r / 64) mod 64; 0x80 + r mod 64].
Proof.
  intros Hr. unfold utf8_encode. rewrite (proj2 (in_range_true _ _ _)) by lia.
  rewrite (proj2 (in_range_false _ _ _)) by lia. cbn [negb andb].
  rewrite !(proj2 (Z.leb_gt _ _)) by lia.
  rewrite !low_bits_mod, !Z.shiftr_div_pow2 by lia. change (2 ^ 6) with 64. change (2 ^ 12) with 4096.
  change (2 ^ 18) with 262144.
  pose proof (Z.mod_pos_bound r 64 ltac:(lia)). pose proof (Z.mod_pos_bound (r / 64) 64 ltac:(lia)).
  pose proof (Z.mod_pos_bound (r / 4096) 64 ltac:(lia)).
  pose proof (Z.div_mod r 262144 ltac:(lia)). pose proof (Z.mod_pos_bound r 262144 ltac:(lia)).
  rewrite (lor_mark 240 4 (r / 262144)) by (done || lia). rewrite (lor_mark 128 6 (r / 4096 mod 64)) by (done || lia).
  rewrite (lor_mark 128 6 (r / 64 mod 64)) by (done || lia). rewrite (lor_mark 128 6 (r mod 64)) by (done || lia). done.
Qed.

(** What the decoded value says about the bytes, by length. *)
Lemma utf8_bytes_2 b0 b1 :
  0xC2 <= b0 <= 0xDF -> 0x80 <= b1 <= 0xBF ->
  [b0; b1] = utf8_encode (Z.lor (Z.shiftl (Z.land b0 0x1F) 6) (low_bits b1)).
Proof.
  intros H0 H1. change 31 with (Z.ones 5). rewrite (land_ones_sub b0 5 192) by (done || lia).
  rewrite low_bits_sub by done. rewrite lor_add by lia. change (2 ^ 6) with 64.
  rewrite utf8_encode_2 by lia.
  rewrite Z.div_add_l by lia. rewrite (Z.div_small (b1 - 128)) by lia.
  rewrite (Z.add_comm ((b0 - 192) * 64)), Z.mod_add by lia. rewrite Z.mod_small by lia. f_equal; [lia|f_equal; lia].
Qed.

Lemma utf8_bytes_3 b0 b1 b2 :
  0xE0 <= b0 <= 0xEF -> 0x80 <= b1 <= 0xBF -> 0x80 <= b2 <= 0xBF ->
  (b0 = 0xE0 -> 0xA0 <= b1) -> (b0 = 0xED -> b1 <= 0x9F) ->
  [b0; b1; b2] = utf8_encode (Z.lor (Z.shiftl (Z.land b0 0x0F) 12) (Z.lor (Z.shiftl (low_bits b1) 6) (low_bits b2))).
Proof.
  intros H0 H1 H2 HE HD. change 15 with (Z.ones 4). rewrite (land_ones_sub b0 4 224) by (done || lia).
  rewrite !low_bits_sub by done. rewrite (lor_add (b1 - 128) 6) by lia. rewrite lor_add by lia.
  change (2 ^ 6) with 64. change (2 ^ 12) with 4096.
  set (r := (b0 - 224) * 4096 + ((b1 - 128) * 64 + (b2 - 128))).
  assert (E1 : r / 64 = (b0 - 224) * 64 + (b1 - 128)).
  { symmetry. apply (Z.div_unique_pos r 64 _ (b2 - 128)); unfold r; lia. }
  assert (E2 : r / 4096 = b0 - 224) by (symmetry; apply (Z.div_unique_pos r 4096 _ ((b1 - 128) * 64 + (b2 - 128))); unfold r; lia).
  assert (E3 : r mod 64 = b2 - 128) by (rewrite Z.mod_eq, E1 by lia; unfold r; lia).
  assert (E4 : (r / 64) mod 64 = b1 - 128) by (rewrite E1, Z.add_comm, Z.mod_add, Z.mod_small by lia; lia).
  rewrite utf8_encode_3 by (unfold r; lia). rewrite E2, E3, E4. f_equal; [lia|]. f_equal; [lia|]. f_equal. lia.
Qed.

Lemma utf8_bytes_4 b0 b1 b2 b3 :
  0xF0 <= b0 <= 0xF4 -> 0x80 <= b1 <= 0xBF -> 0x80 <= b2 <= 0xBF -> 0x80 <= b3 <= 0xBF ->
  (b0 = 0xF0 -> 0x90 <= b1) -> (b0 = 0xF4 -> b1 <= 0x8F) ->
  [b0; b1; b2; b3] = utf8_encode (Z.lor (Z.shiftl (Z.land b0 0x07) 18)
    (Z.lor (Z.shiftl (low_bits b1) 12) (Z.lor (Z.shiftl (low_bits b2) 6) (low_bits b3)))).
Proof.
  intros H0 H1 H2 H3 HF H4. change 7 with (Z.ones 3). rewrite (land_ones_sub b0 3 240) by (done || lia).
  rewrite !low_bits_sub by done. rewrite (lor_add (b2 - 128) 6) by lia. rewrite (lor_add (b1 - 128) 12) by lia.
  rewrite lor_add by lia.
  change (2 ^ 6) with 64. change (2 ^ 12) with 4096. change (2 ^ 18) with 262144.
  set (r := (b0 - 240) * 262144 + ((b1 - 128) * 4096 + ((b2 - 128) * 64 + (b3 - 128)))).
  assert (E1 : r / 64 = (b0 - 240) * 4096 + (b1 - 128) * 64 + (b2 - 128)).
  { symmetry. apply (Z.div_unique_pos r 64 _ (b3 - 128)); unfold r; lia. }
  assert (E2 : r / 4096 = (b0 - 240) * 64 + (b1 - 128)).
  { symmetry. apply (Z.div_unique_pos r 4096 _ ((b2 - 128) * 64 + (b3 - 128))); unfold r; lia. }
  assert (E3 : r / 262144 = b0 - 240).
  { symmetry. apply (Z.div_unique_pos r 262144 _ ((b1 - 128) * 4096 + ((b2 - 128) * 64 + (b3 - 128)))); unfold r; lia. }
  assert (E4 : r mod 64 = b3 - 128) by (rewrite Z.mod_eq, E1 by lia; unfold r; lia).
  assert (E5 : (r / 64) mod 64 = b2 - 128).
  { rewrite E1. symmetry. apply (Z.mod_unique_pos _ 64 ((b0 - 240) * 64 + (b1 - 128))); lia. }
  assert (E6 : (r / 4096) mod 64 = b1 - 128) by (rewrite E2, Z.add_comm, Z.mod_add, Z.mod_small by lia; lia).
  rewrite utf8_encode_4 by (unfold r; lia). rewrite E3, E4, E5, E6. f_equal; [lia|]. f_equal; [lia|]. f_equal; [lia|]. f_equal. lia.
Qed.

Lemma utf8_first_bounds b n lo hi :
  utf8_first b = Some (n, lo, hi) ->
  (n = 2%nat /\ 0xC2 <= b <= 0xDF /\ lo = 0x80 /\ hi = 0xBF)
  \/ (n = 3%nat /\ 0xE0 <= b <= 0xEF /\ 0x80 <= lo /\ hi <= 0xBF /\ (b = 0xE0 -> 0xA0 <= lo) /\ (b = 0xED -> hi <= 0x9F))
  \/ (n = 4%nat /\ 0xF0 <= b <= 0xF4 /\ 0x80 <= lo /\ hi <= 0xBF /\ (b = 0xF0 -> 0x90 <= lo) /\ (b = 0xF4 -> hi <= 0x8F)).
Proof.
  unfold utf8_first. intros H.
  repeat (case_match; range_hyps; [injection H as <- <- <-; lia |]). done.
Qed.

(** A rune decoded without error. *)
Lemma decode_rune_valid s r w :
  s <> [] -> Forall byte s -> decode_rune s = (r, w) -> (r, w) <> (rune_error, 1%nat) ->
  take w s = utf8_encode r /\ (0x80 <= r -> Forall (fun b => 0x80 <= b) (take w s)) /\ (r < 0x80 -> 0 <= r /\ take w s = [r]).
Proof.
  intros Hne Hb Hd Hvalid. destruct (Z.lt_ge_cases r 0x80) as [Hr|Hr].
  - destruct (decode_rune_ascii s r w Hne Hd Hr) as (s' & -> & ->). apply Forall_cons in Hb as [Hb _].
    unfold byte in Hb. cbn [take]. split; [|split; [lia | intros _; split; [lia | done]]].
    unfold utf8_encode. rewrite (proj2 (in_range_true _ _ _)) by lia. rewrite (proj2 (in_range_false _ _ _)) by lia.
    cbn [negb andb]. by rewrite (proj2 (Z.leb_le _ _)) by lia.
  - enough (Hbytes : take w s = utf8_encode r /\ Forall (fun b => 0x80 <= b) (take w s)).
    { destruct Hbytes as [Hbytes Hhigh]. split; [done|]. split; [done | lia]. }
    destruct s as [|b0 s1]; [done|]. unfold decode_rune in Hd. clear Hne Hb.
    destruct (Z.ltb_spec b0 0x80) as [Hlt|Hge]; [injection Hd as <- <-; lia|].
    destruct (utf8_first b0) as [[[n lo] hi]|] eqn:Ef; [|by injection Hd as <- <-].
    apply utf8_first_bounds in Ef as [(-> & H0 & -> & ->)|[(-> & H0 & Hlo & Hhi & HE & HD)|(-> & H0 & Hlo & Hhi & HE & HD)]].
    + destruct s1 as [|b1 s2]; [by injection Hd as <- <-|].
      destruct (in_range _ _ b1) eqn:E1; [|by injection Hd as <- <-]. range_hyps. injection Hd as <- <-. cbn [take].
      split; [by apply utf8_bytes_2 | forall_list; lia].
    + destruct s1 as [|b1 [|b2 s3]]; [by injection Hd as <- <-..|].
      destruct (in_range lo hi b1 && _) eqn:E1; [|by injection Hd as <- <-]. range_hyps. injection Hd as <- <-. cbn [take].
      split; [apply utf8_bytes_3; lia | forall_list; lia].
    + destruct s1 as [|b1 [|b2 [|b3 s4]]]; [by injection Hd as <- <-..|].
      destruct (in_range lo hi b1 && _ && _) eqn:E1; [|by injection Hd as <- <-]. range_hyps. injection Hd as <- <-.
      cbn [take]. split; [apply utf8_bytes_4; lia | forall_list; lia].
Qed.

(** The runes of a string: undecodable bytes apart, each is spelled by its bytes. *)
Definition undecodable (chunk : Z * gostring) : bool :=
  (chunk.1 =? rune_error) && (len chunk.2 =? 1).

Lemma chunks_valid s :
  Forall byte s ->
  Forall (fun p => undecodable p = false ->
    p.2 = utf8_encode p.1 /\ (0x80 <= p.1 -> Forall (fun b => 0x80 <= b) p.2) /\ (p.1 < 0x80 -> 0 <= p.1 /\ p.2 = [p.1]))
    (chunks s).
Proof.
  induction s as [|s Hne IH] using chunks_ind; intros Hb; [constructor|].
  rewrite chunks_step by done. pose proof (decode_rune_bounds s Hne) as Hw.
  destruct (decode_rune s) as [r w] eqn:E. cbn [fst snd] in *. constructor.
  - cbn [fst snd]. intros Hu. apply decode_rune_valid; [done..|]. intros [= -> ->].
    unfold undecodable in Hu. cbn [fst snd] in Hu. unfold len in Hu. rewrite length_take in Hu.
    rewrite Nat.min_l in Hu by lia. done.
  - apply IH. by apply Forall_drop.
Qed.

(** ** Hexadecimal digits *)

Definition hex_digit (n : Z) : Z := if n <? 10 then 48 + n else 87 + n.

Lemma hex_digit_inj a b : 0 <= a < 16 -> 0 <= b < 16 -> hex_digit a = hex_digit b -> a = b.
Proof. unfold hex_digit. repeat case_match; lia. Qed.
