(* ===== verification/Sha256.v ===== *)
(** * SHA-256 and hexadecimal encoding (crypto/sha256, encoding/hex)

    [sha256.Sum256] and [hex.EncodeToString] of the standard library on byte lists,
    executable, with the published test vectors. *)

From S2P Require Export Utf8.

Definition mask32 : Z := 0xFFFFFFFF.
Definition add32 (x y : Z) : Z := Z.land (x + y) mask32.
Definition rotr32 (x n : Z) : Z := Z.lor (Z.shiftr x n) (Z.land (Z.shiftl x (32 - n)) mask32).

(** The constants are the first 32 bits of the fractional parts of the square and
    cube roots of the first primes (FIPS 180-4, 4.2.2 and 5.3.3). *)
Definition is_prime (n : Z) : bool :=
  forallb (fun d => negb (n mod d =? 0)) (seqZ 2 (Z.sqrt n - 1)).
Definition primes (bound : Z) : list Z := filter (fun n => is_prime n) (seqZ 2 (bound - 1)).

(** The integer cube root below [2 ^ bits], one binary digit at a time. *)
Fixpoint cube_root (bits : nat) (n root : Z) : Z :=
  match bits with
  | O => root
  | S bits => let next := root + 2 ^ Z.of_nat bits in cube_root bits n (if next * next * next <=? n then next else root)
  end.

Definition sha_k : list Z :=
  Eval vm_compute in map (fun p => cube_root 36 (p * 2 ^ 96) 0 mod 2 ^ 32) (primes 311).

Definition sha_init : list Z :=
  Eval vm_compute in map (fun p => Z.sqrt (p * 2 ^ 64) mod 2 ^ 32) (primes 19).

(** The [n] low bytes of [v], most significant first. *)
Fixpoint be_bytes (n : nat) (v : Z) : gostring :=
  match n with
  | O => []
  | S n => Z.land (Z.shiftr v (8 * Z.of_nat n)) 0xFF :: be_bytes n v
  end.

Definition sha_pad (m : gostring) : gostring :=
  m ++ [0x80] ++ replicate (Z.to_nat ((55 - len m) mod 64)) 0 ++ be_bytes 8 (8 * len m).

Fixpoint be_words (fuel : nat) (m : gostring) : list Z :=
  match fuel, m with
  | S fuel, a :: b :: c :: d :: m =>
    Z.lor (Z.lor (Z.shiftl a 24) (Z.shiftl b 16)) (Z.lor (Z.shiftl c 8) d) :: be_words fuel m
  | _, _ => []
  end.

Definition nth_word (l : list Z) (i : nat) : Z := default 0 (l !! i).

(** The message schedule, last word first. *)
Fixpoint sha_extend (n : nat) (w : list Z) : list Z :=
  match n with
  | O => w
  | S n =>
    let x := nth_word w 14 in
    let y := nth_word w 1 in
    let s0 := Z.lxor (Z.lxor (rotr32 x 7) (rotr32 x 18)) (Z.shiftr x 3) in
    let s1 := Z.lxor (Z.lxor (rotr32 y 17) (rotr32 y 19)) (Z.shiftr y 10) in
    sha_extend n (add32 (add32 (nth_word w 15) s0) (add32 (nth_word w 6) s1) :: w)
  end.

Definition sha_round (st : list Z) (kw : Z * Z) : list Z :=
  match st with
  | [a; b; c; d; e; f; g; h] =>
    let s1 := Z.lxor (Z.lxor (rotr32 e 6) (rotr32 e 11)) (rotr32 e 25) in
    let chx := Z.lxor (Z.land e f) (Z.land (Z.lxor e mask32) g) in
    let t1 := add32 (add32 h s1) (add32 chx (add32 kw.1 kw.2)) in
    let s0 := Z.lxor (Z.lxor (rotr32 a 2) (rotr32 a 13)) (rotr32 a 22) in
    let maj := Z.lxor (Z.lxor (Z.land a b) (Z.land a c)) (Z.land b c) in
    [add32 t1 (add32 s0 maj); a; b; c; add32 d t1; e; f; g]
  | _ => st
  end.

Definition sha_block (st : list Z) (block : list Z) : list Z :=
  zip_with add32 st (fold_left sha_round (zip sha_k (rev (sha_extend 48 (rev block)))) st).

Fixpoint sha_blocks (fuel : nat) (st : list Z) (words : list Z) : list Z :=
  match fuel, words with
  | S fuel, _ :: _ => sha_blocks fuel (sha_block st (take 16 words)) (drop 16 words)
  | _, _ => st
  end.

(** [sha256.Sum256] *)
Definition sha256 (m : gostring) : gostring :=
  let padded := sha_pad m in
  let words := be_words (length padded) padded in
  concat (be_bytes 4 <$> sha_blocks (length words) sha_init words).

(** [hex.EncodeToString] *)
Definition hex_encode (s : gostring) : gostring :=
  concat ((fun b => [hex_digit (Z.shiftr b 4); hex_digit (Z.land b 15)]) <$> s).

Example sha256_empty :
  hex_encode (sha256 []) = bs "e3b0c44298fc1c149afbf4c8996fb92427ae41e4649b934ca495991b7852b855".
Proof. vm_compute. reflexivity. Qed.

Example sha256_abc :
  hex_encode (sha256 (bs "abc")) = bs "ba7816bf8f01cfea414140de5dae2223b00361a396177a9cb410ff61f20015ad".
Proof. vm_compute. reflexivity. Qed.

Example sha256_two_blocks :
  hex_encode (sha256 (bs "abcdbcdecdefdefgefghfghighijhijkijkljklmklmnlmnomnopnopq"))
  = bs "248d6a61d20638b8e5c026930c3e6039a33ce45964ff2167f6ecedd419db06c1".
Proof. vm_compute. reflexivity. Qed.

(** ** Digests *)

Lemma be_bytes_byte n v : Forall byte (be_bytes n v).
Proof.
  induction n as [|n IH]; simpl; constructor; [|done]. unfold byte. change 0xFF with (Z.ones 8).
  rewrite Z.land_ones by lia. by apply Z.mod_pos_bound.
Qed.

Lemma be_bytes_length n v : length (be_bytes n v) = n.
Proof. induction n as [|n IH]; simpl; congruence. Qed.

Lemma sha_round_length st kw : length st = 8%nat -> length (sha_round st kw) = 8%nat.
Proof. by repeat (destruct st as [|? st]; try done). Qed.

Lemma sha_block_length st block : length st = 8%nat -> length (sha_block st block) = 8%nat.
Proof.
  intros Hst. unfold sha_block. rewrite length_zip_with.
  assert (Hf : forall l acc, length acc = 8%nat -> length (fold_left sha_round l acc) = 8%nat).
  { induction l as [|x l IH]; intros acc Hacc; [done|]. simpl. apply IH. by apply sha_round_length. }
  rewrite (Hf _ _ Hst), Hst. done.
Qed.

Lemma sha_blocks_length fuel st words : length st = 8%nat -> length (sha_blocks fuel st words) = 8%nat.
Proof.
  revert st words. induction fuel as [|fuel IH]; intros st words Hst; simpl; [done|].
  destruct words as [|w words]; [done|]. apply IH. by apply sha_block_length.
Qed.

(** A digest is 32 bytes. *)
Lemma sha256_digest m : length (sha256 m) = 32%nat /\ Forall byte (sha256 m).
Proof.
  unfold sha256. set (st := sha_blocks _ _ _).
  assert (Hst : length st = 8%nat) by by apply sha_blocks_length. split.
  - do 8 (destruct st as [|? st]; [done|]). destruct st; [|done].
    rewrite !fmap_cons. simpl. done.
  - clear Hst. induction st as [|x st IH]; [constructor|]. rewrite fmap_cons. cbn [concat].
    apply Forall_app. split; [apply be_bytes_byte | done].
Qed.

Lemma hex_encode_inj s t : Forall byte s -> Forall byte t -> hex_encode s = hex_encode t -> s = t.
Proof.
  intros Hs. revert t. induction Hs as [|a s Ha Hs IH]; intros t Ht Heq.
  - destruct t; [done|]. by rewrite <- (app_nil_l []) in Heq.
  - destruct Ht as [|b t Hb Ht]; [done|]. unfold hex_encode in *. rewrite !fmap_cons in Heq. simpl in Heq.
    injection Heq as H1 H2 H3.
    assert (Hlow : forall x, byte x -> 0 <= Z.shiftr x 4 < 16 /\ 0 <= Z.land x 15 < 16
                     /\ x = 16 * Z.shiftr x 4 + Z.land x 15).
    { intros x Hx. unfold byte in Hx. change 15 with (Z.ones 4). rewrite Z.land_ones by lia.
      rewrite Z.shiftr_div_pow2 by lia. change (2 ^ 4) with 16.
      pose proof (Z.div_mod x 16 ltac:(lia)). pose proof (Z.mod_pos_bound x 16 ltac:(lia)). lia. }
    destruct (Hlow a Ha) as (Ha1 & Ha2 & Ea), (Hlow b Hb) as (Hb1 & Hb2 & Eb).
    apply hex_digit_inj in H1, H2; [|done..]. f_equal; [lia | by apply IH].
Qed.

Lemma hex_encode_length s : length (hex_encode s) = (2 * length s)%nat.
Proof. unfold hex_encode. induction s as [|x s IH]; [done|]. rewrite fmap_cons. simpl. rewrite IH. lia. Qed.
