(* ===== verification/StoragePath.v ===== *)
(** * Object paths of the local cache storage (internal/cache: storagepath.go, local.go)

    Which keys are storable, the path of an object below a root that may fold case, the
    key behind a listed path, and the path where an upload is staged. *)

From S2P Require Export Sha256 GoTrim.

(** ** Keys *)

(** [utf8.ValidString] *)
Definition utf8_valid (s : gostring) : bool := forallb (fun chunk => negb (undecodable chunk)) (chunks s).

(** [fs.ValidPath] *)
Definition ValidPath (name : gostring) : bool :=
  utf8_valid name
  && (str_eqb name (bs ".")
      || forallb (fun elem => negb (str_eqb elem [] || str_eqb elem (bs ".") || str_eqb elem (bs ".."))) (strings_split name (ch "/"))).

Definition localStagingNamespace : gostring := bs ".depsilo-staging-v1".

Definition isASCIILetter (b : Z) : bool := in_range 97 122 b || in_range 65 90 b.

Definition ErrInvalidStorageKey : error := Sentinel "invalid local storage key".

Definition volume_qualified (key : gostring) : bool :=
  match key with letter :: colon :: _ => isASCIILetter letter && (colon =? ch ":") | _ => false end.

Definition validateStorageKey (key : gostring) (allowRoot : bool) : result gostring :=
  if allowRoot && (str_eqb key [] || str_eqb key (bs ".")) then Ok (bs ".") else
  if str_eqb key [] || str_eqb key (bs ".") then Err (Errorf "%w: key must name an object" [ErrInvalidStorageKey]) else
  if str_eqb key localStagingNamespace || has_prefix key (localStagingNamespace ++ bs "/")
  then Err (Errorf "%w %q: key uses the reserved staging namespace" [ErrInvalidStorageKey]) else
  if mem 92 key then Err (Errorf "%w %q: backslashes are not allowed" [ErrInvalidStorageKey]) else
  if volume_qualified key then Err (Errorf "%w %q: volume-qualified paths are not allowed" [ErrInvalidStorageKey]) else
  if negb (ValidPath key) then Err (Errorf "%w %q: use a canonical relative path" [ErrInvalidStorageKey])
  else Ok key.

(** ** Object paths *)

Definition maxStorageSegment : Z := 200.

Definition storageSegmentByteSafe (char : Z) : bool :=
  in_range 97 122 char || in_range 48 57 char || mem char (bs ".-_").

Definition storageSegmentSafe (segment : gostring) : bool :=
  negb (str_eqb segment []) && forallb storageSegmentByteSafe segment.

(** The digits of [storageEscapeHex]. *)
Definition escape_digit (n : Z) : Z := if n <? 10 then 48 + n else 55 + n.

Definition escape_byte (char : Z) : gostring :=
  if storageSegmentByteSafe char then [char] else [ch "%"; escape_digit (Z.shiftr char 4); escape_digit (Z.land char 15)].

Definition escapeStorageSegment (segment : gostring) : gostring := concat (escape_byte <$> segment).

Definition storagePathSegment (segment : gostring) : gostring :=
  if storageSegmentSafe segment then segment else
  let escaped := escapeStorageSegment segment in
  if len escaped <=? maxStorageSegment then escaped else bs "~" ++ hex_encode (sha256 segment).

Definition storagePath (key : gostring) (foldsCase : bool) : gostring :=
  if negb foldsCase || str_eqb key [] then key
  else strings_join (storagePathSegment <$> strings_split key (ch "/")) (ch "/").

Definition storageEscapeValue (char : Z) : option Z :=
  if in_range 48 57 char then Some (char - 48) else if in_range 65 70 char then Some (char - 65 + 10) else None.

Fixpoint unescape_go (segment : gostring) : option gostring :=
  match segment with
  | [] => Some []
  | char :: rest =>
    if negb (char =? ch "%") then if storageSegmentByteSafe char then cons char <$> unescape_go rest else None
    else match rest with
         | h :: l :: rest =>
           match storageEscapeValue h, storageEscapeValue l with
           | Some high, Some low => cons (Z.lor (Z.land (Z.shiftl high 4) 255) low) <$> unescape_go rest
           | _, _ => None
           end
         | _ => None
         end
  end.

Definition unescapeStorageSegment (segment : gostring) : option gostring :=
  if negb (mem (ch "%") segment) then if has_prefix segment (bs "~") then None else Some segment
  else unescape_go segment.

Definition storageKeyFromPath (path : gostring) (foldsCase : bool) : option gostring :=
  if negb foldsCase || str_eqb path [] then Some path
  else (fun segments => strings_join segments (ch "/")) <$> mapM unescapeStorageSegment (strings_split path (ch "/")).

Definition listedObjectKey (path : gostring) (foldsCase : bool) : gostring := default path (storageKeyFromPath path foldsCase).

(** [LocalStorage.objectPath] of a root. *)
Definition objectPath (foldsCase : bool) (key : gostring) (allowRoot : bool) : result gostring :=
  name ← validateStorageKey key allowRoot; Ok (storagePath name foldsCase).

(** ** Staging paths *)

Definition localStagingMarker : gostring := bs "~".
Definition localStagingChunkSize : nat := 120.

(** [base64.RawURLEncoding] *)
Definition base64_digit (n : Z) : Z :=
  if n <? 26 then 65 + n else if n <? 52 then 71 + n else if n <? 62 then n - 4 else if n =? 62 then ch "-" else ch "_".

Fixpoint base64_encode (s : gostring) : gostring :=
  match s with
  | a :: b :: c :: s =>
    base64_digit (Z.shiftr a 2) :: base64_digit (Z.lor (Z.shiftl (Z.land a 3) 4) (Z.shiftr b 4))
    :: base64_digit (Z.lor (Z.shiftl (Z.land b 15) 2) (Z.shiftr c 6)) :: base64_digit (Z.land c 63) :: base64_encode s
  | [a; b] => [base64_digit (Z.shiftr a 2); base64_digit (Z.lor (Z.shiftl (Z.land a 3) 4) (Z.shiftr b 4));
               base64_digit (Z.shiftl (Z.land b 15) 2)]
  | [a] => [base64_digit (Z.shiftr a 2); base64_digit (Z.shiftl (Z.land a 3) 4)]
  | [] => []
  end.

Definition base64_value (c : Z) : option Z :=
  if in_range 65 90 c then Some (c - 65) else if in_range 97 122 c then Some (c - 71) else if in_range 48 57 c then Some (c + 4)
  else if c =? ch "-" then Some 62 else if c =? ch "_" then Some 63 else None.

(** The digits of the text, which may contain line ends, as bytes. *)
Fixpoint base64_bytes (digits : list Z) : option gostring :=
  match digits with
  | [] => Some []
  | [_] => None
  | [p; q] => Some [Z.lor (Z.shiftl p 2) (Z.shiftr q 4)]
  | [p; q; r] => Some [Z.lor (Z.shiftl p 2) (Z.shiftr q 4); Z.lor (Z.shiftl (Z.land q 15) 4) (Z.shiftr r 2)]
  | p :: q :: r :: t :: digits =>
    (fun s => Z.lor (Z.shiftl p 2) (Z.shiftr q 4) :: Z.lor (Z.shiftl (Z.land q 15) 4) (Z.shiftr r 2)
              :: Z.lor (Z.shiftl (Z.land r 3) 6) t :: s) <$> base64_bytes digits
  end.

Definition base64_decode (text : gostring) : option gostring :=
  mapM base64_value (filter (fun c => c <> 10 /\ c <> 13) text) ≫= base64_bytes.

(** The loop that cuts the encoded key into path elements. *)
Fixpoint staging_chunks (fuel : nat) (encoded : gostring) : list gostring :=
  match fuel with
  | O => [encoded]
  | S fuel =>
    if bool_decide (localStagingChunkSize < length encoded)%nat
    then take localStagingChunkSize encoded :: staging_chunks fuel (drop localStagingChunkSize encoded)
    else [encoded]
  end.

Definition localStagingPath (key : gostring) : result gostring :=
  name ← validateStorageKey key false;
  let encoded := base64_encode name in
  Ok (strings_join ([localStagingNamespace] ++ staging_chunks (length encoded) encoded ++ [localStagingMarker]) (ch "/")).

(** The lengths of the chunks: the last one is not empty, all others are full. *)
Fixpoint chunks_canonical (chunks : list gostring) : bool :=
  match chunks with
  | [] => false
  | [chunk] => bool_decide (0 < length chunk <= localStagingChunkSize)%nat
  | chunk :: chunks => bool_decide (length chunk = localStagingChunkSize) && chunks_canonical chunks
  end.

Definition localStagingKey (stagingPath : gostring) : option gostring :=
  let prefix := localStagingNamespace ++ bs "/" in
  let suffix := bs "/" ++ localStagingMarker in
  if negb (has_prefix stagingPath prefix) || negb (has_suffix stagingPath suffix) then None else
  let middle := trim_suffix (drop (length prefix) stagingPath) suffix in
  let chunks := strings_split middle (ch "/") in
  if negb (chunks_canonical chunks) then None else
  decoded ← base64_decode (concat chunks);
  match validateStorageKey decoded false with
  | Err _ => None
  | Ok key =>
    match localStagingPath key with
    | Ok canonical => if str_eqb canonical stagingPath then Some key else None
    | Err _ => None
    end
  end.
