(* ===== verification/StoragePathTheory.v ===== *)
(** * Theory of the object paths

    Keys never share a file, not even below a root that folds case, no path leaves the
    root or meets the staging area, and listed and staged paths give their keys back. *)

From stdpp Require Import sets.
From S2P Require Export StoragePath.

(** ** Bytes of a path *)

Lemma byte_list s : forallb (in_range 0 255) s = true -> Forall byte s.
Proof. apply forallb_Forall. intros c. rewrite in_range_true. unfold byte. lia. Qed.

Notation fold s := (byte_lower <$> s).

Lemma safe_byte c :
  storageSegmentByteSafe c = true <-> 97 <= c <= 122 \/ 48 <= c <= 57 \/ c = 46 \/ c = 45 \/ c = 95.
Proof.
  unfold storageSegmentByteSafe. rewrite !orb_true_iff, !in_range_true, mem_elem. change (bs ".-_") with [46; 45; 95].
  rewrite !elem_of_cons, elem_of_nil. tauto.
Qed.

Lemma safe_fold c : storageSegmentByteSafe c = true -> byte_lower c = c.
Proof. rewrite safe_byte. intros Hc. unfold byte_lower. destruct (in_range 65 90 c) eqn:E; [apply in_range_true in E; lia|done]. Qed.

Lemma fold_escape_digit n : 0 <= n < 16 -> byte_lower (escape_digit n) = hex_digit n.
Proof.
  intros Hn. unfold escape_digit, hex_digit, byte_lower. destruct (Z.ltb_spec n 10).
  - destruct (in_range 65 90 (48 + n)) eqn:E; [apply in_range_true in E; lia|done].
  - destruct (in_range 65 90 (55 + n)) eqn:E; [lia|apply in_range_false in E; lia].
Qed.

Lemma escape_digit_hex n : 0 <= n < 16 -> 48 <= escape_digit n <= 57 \/ 65 <= escape_digit n <= 70.
Proof. intros Hn. unfold escape_digit. destruct (Z.ltb_spec n 10); lia. Qed.

Lemma nibbles c : byte c -> 0 <= Z.shiftr c 4 < 16 /\ 0 <= Z.land c 15 < 16 /\ c = 16 * Z.shiftr c 4 + Z.land c 15.
Proof.
  unfold byte. intros Hc. rewrite Z.shiftr_div_pow2 by lia. change 15 with (Z.ones 4). rewrite Z.land_ones by lia.
  change (2 ^ 4) with 16. pose proof (Z.div_mod c 16). pose proof (Z.mod_pos_bound c 16). lia.
Qed.

Lemma escape_byte_safe c : storageSegmentByteSafe c = true -> escape_byte c = [c].
Proof. intros Hc. unfold escape_byte. by rewrite Hc. Qed.

Lemma escape_cons c s : escapeStorageSegment (c :: s) = escape_byte c ++ escapeStorageSegment s.
Proof. done. Qed.

Lemma escape_safe s : forallb storageSegmentByteSafe s = true -> escapeStorageSegment s = s.
Proof.
  induction s as [|c s IH]; [done|]. cbn [forallb]. intros [Hc Hs]%andb_true_iff.
  rewrite escape_cons, escape_byte_safe, IH by done. done.
Qed.

(** The escaped form survives folding. *)
Lemma fold_escape_inj a b :
  Forall byte a -> Forall byte b -> fold (escapeStorageSegment a) = fold (escapeStorageSegment b) -> a = b.
Proof.
  intros Ha. revert b. induction Ha as [|c a Hc Ha IH]; intros b Hb.
  - destruct b as [|d b]; [done|]. rewrite escape_cons. unfold escape_byte. by destruct (storageSegmentByteSafe d).
  - destruct Hb as [|d b Hd Hb]; rewrite !escape_cons; unfold escape_byte.
    { by destruct (storageSegmentByteSafe c). }
    pose proof (nibbles c Hc) as (C1 & C2 & C3). pose proof (nibbles d Hd) as (D1 & D2 & D3).
    destruct (storageSegmentByteSafe c) eqn:Sc, (storageSegmentByteSafe d) eqn:Sd; rewrite !fmap_app, ?fmap_cons, ?fmap_nil;
      rewrite ?(safe_fold _ Sc), ?(safe_fold _ Sd); cbn [app]; intros Heq.
    + injection Heq as -> Heq. by rewrite (IH b).
    + injection Heq as Heq _. apply safe_byte in Sc. change (byte_lower (ch "%")) with 37 in Heq. lia.
    + injection Heq as Heq _. apply safe_byte in Sd. change (byte_lower (ch "%")) with 37 in Heq. lia.
    + rewrite !fold_escape_digit in Heq by done. injection Heq as H1 H2 Heq.
      apply hex_digit_inj in H1, H2; [|done..]. rewrite (IH b) by done. f_equal. lia.
Qed.

(** ** Segments *)

Definition digested (segment : gostring) : bool :=
  negb (storageSegmentSafe segment) && (maxStorageSegment <? len (escapeStorageSegment segment)).

Lemma segment_path s :
  storagePathSegment s = if digested s then bs "~" ++ hex_encode (sha256 s) else escapeStorageSegment s.
Proof.
  unfold storagePathSegment, digested. destruct (storageSegmentSafe s) eqn:E; cbn [negb andb].
  - unfold storageSegmentSafe in E. apply andb_true_iff in E as [_ E]. by rewrite escape_safe.
  - destruct (Z.leb_spec (len (escapeStorageSegment s)) maxStorageSegment), (Z.ltb_spec maxStorageSegment (len (escapeStorageSegment s)));
      [lia|done|done|lia].
Qed.

Definition path_byte (c : Z) : Prop := storageSegmentByteSafe c = true \/ 65 <= c <= 70 \/ c = 37 \/ c = 126.

Lemma hex_encode_safe s : Forall byte s -> Forall (fun c => storageSegmentByteSafe c = true) (hex_encode s).
Proof.
  intros Hs. unfold hex_encode. apply Forall_concat, Forall_fmap. eapply Forall_impl; [exact Hs|]. intros c Hc.
  pose proof (nibbles c Hc) as (C1 & C2 & _).
  assert (forall n, 0 <= n < 16 -> storageSegmentByteSafe (hex_digit n) = true) as Hd.
  { intros n Hn. apply safe_byte. unfold hex_digit. destruct (Z.ltb_spec n 10); lia. }
  simpl. forall_list; by apply Hd.
Qed.

Lemma segment_bytes s : Forall byte s -> Forall path_byte (storagePathSegment s).
Proof.
  intros Hs. rewrite segment_path. destruct (digested s).
  - change (bs "~") with [126]. constructor; [unfold path_byte; lia|].
    eapply Forall_impl; [apply hex_encode_safe, sha256_digest|]. by left.
  - unfold escapeStorageSegment. apply Forall_concat, Forall_fmap. eapply Forall_impl; [exact Hs|]. intros c Hc.
    pose proof (nibbles c Hc) as (C1 & C2 & _). simpl. unfold escape_byte. destruct (storageSegmentByteSafe c) eqn:E.
    + constructor; [by left|constructor].
    + change (ch "%") with 37. apply escape_digit_hex in C1, C2.
      assert (forall d, 48 <= d <= 57 \/ 65 <= d <= 70 -> path_byte d) as Hd.
      { intros d [Hd|Hd]; [left; apply safe_byte; lia | by right; left]. }
      forall_list; [unfold path_byte; lia | by apply Hd | by apply Hd].
Qed.

Lemma path_byte_spec c : path_byte c -> 0 <= c < 0x80 /\ c <> 47 /\ byte_lower c <> 47.
Proof.
  unfold path_byte. rewrite safe_byte. intros Hc. assert (0 <= c < 128 /\ c <> 47) as [H1 H2] by lia. split_and!; [lia|lia|done|].
  unfold byte_lower. destruct (in_range 65 90 c) eqn:E; [apply in_range_true in E; lia|done].
Qed.

(** Two segments with one file name are equal or collide. *)
Lemma segment_distinct a b :
  Forall byte a -> Forall byte b -> fold (storagePathSegment a) = fold (storagePathSegment b) -> a = b \/ (a <> b /\ sha256 a = sha256 b).
Proof.
  intros Ha Hb. rewrite !segment_path.
  assert (forall s, fold (bs "~" ++ hex_encode (sha256 s)) = 126 :: hex_encode (sha256 s)) as Hfold.
  { intros s. rewrite fmap_app. change (bs "~") with [126]. cbn [fmap list_fmap app]. change (byte_lower 126) with 126. f_equal.
    assert (Forall (fun c => storageSegmentByteSafe c = true) (hex_encode (sha256 s))) as Hh by apply hex_encode_safe, sha256_digest.
    induction Hh as [|c l Hc Hl IH]; [done|]. cbn [fmap list_fmap]. rewrite safe_fold by done. by f_equal. }
  assert (forall s t, Forall byte s -> fold (escapeStorageSegment s) <> 126 :: t) as Hesc.
  { intros s t Hs Heq. destruct Hs as [|c s Hc Hs]; [done|]. rewrite escape_cons in Heq. unfold escape_byte in Heq.
    destruct (storageSegmentByteSafe c) eqn:E; rewrite fmap_app in Heq; cbn [fmap list_fmap app] in Heq; injection Heq as Heq _.
    - rewrite safe_fold in Heq by done. apply safe_byte in E. lia.
    - by change (byte_lower (ch "%")) with 37 in Heq. }
  destruct (digested a), (digested b); rewrite ?Hfold; intros Heq.
  - injection Heq as Heq. apply hex_encode_inj in Heq; [|apply sha256_digest..]. destruct (decide (a = b)); auto.
  - symmetry in Heq. by apply Hesc in Heq.
  - by apply Hesc in Heq.
  - left. by apply fold_escape_inj.
Qed.

(** ** Object paths *)

Lemma fold_split s c : byte_lower c = c -> Forall (fun a => a <> c -> byte_lower a <> c) s ->
  (fun x : gostring => fold x) <$> strings_split s c = strings_split (fold s) c.
Proof.
  intros Hc. induction 1 as [|a s Ha Hs IH]; [done|]. cbn [strings_split fmap list_fmap].
  destruct (Z.eqb_spec a c) as [->|Hne].
  - rewrite Hc, Z.eqb_refl. cbn [fmap list_fmap]. by f_equal.
  - destruct (Z.eqb_spec (byte_lower a) c) as [Hx|_]; [by destruct (Ha Hne)|]. rewrite <- IH.
    by destruct (strings_split s c).
Qed.

(** How a root resolves names: all paths below a folding root are ASCII. *)
Definition same_file (foldsCase : bool) (p q : gostring) : Prop := if foldsCase then fold p = fold q else p = q.

Lemma valid_key key name :
  validateStorageKey key false = Ok name ->
  name = key /\ key <> [] /\ key <> bs "." /\ key <> localStagingNamespace /\ has_prefix key (localStagingNamespace ++ bs "/") = false
  /\ Forall (fun elem => elem <> [] /\ elem <> bs "." /\ elem <> bs "..") (strings_split key (ch "/")).
Proof.
  unfold validateStorageKey. cbn [andb]. intros Hv. go_inv. go_bool.
  match goal with E : ValidPath name = true |- _ => unfold ValidPath in E; apply andb_true_iff in E as [_ Hp] end.
  apply orb_true_iff in Hp as [Hp|Hp].
  - apply str_eqb_eq in Hp. match goal with E : str_eqb _ (bs ".") = false |- _ => by apply str_eqb_neq in E end.
  - split_and!; try done; try by apply str_eqb_neq. revert Hp. apply forallb_Forall. intros x.
    rewrite negb_true_iff, !orb_false_iff, !str_eqb_neq. tauto.
Qed.

Lemma split_segments key :
  Forall byte key -> key <> [] ->
  strings_split (storagePath key true) (ch "/") = storagePathSegment <$> strings_split key (ch "/")
  /\ Forall path_byte (concat (storagePathSegment <$> strings_split key (ch "/"))).
Proof.
  intros Hk Hne. unfold storagePath. cbn [negb orb]. destruct (str_eqb key []) eqn:E; [by apply str_eqb_eq in E|].
  assert (Forall (Forall path_byte) (storagePathSegment <$> strings_split key (ch "/"))) as Hall.
  { apply Forall_fmap. eapply Forall_impl; [by apply Forall_strings_split|]. intros x Hx. by apply segment_bytes. }
  split; [|by apply Forall_concat]. apply split_join.
  - intros Hnil. apply fmap_nil_inv in Hnil. by apply split_nonempty in Hnil.
  - eapply Forall_impl; [exact Hall|]. intros x Hx. eapply Forall_not_elem; [exact Hx|].
    intros Hs%path_byte_spec. by destruct Hs as (_ & ? & _).
Qed.

Lemma storage_path_ascii key : Forall byte key -> Forall (fun c => path_byte c \/ c = 47) (storagePath key true).
Proof.
  intros Hk. unfold storagePath. cbn [negb orb]. destruct (str_eqb key []) eqn:E; [by apply str_eqb_eq in E as ->|].
  apply Forall_strings_join; [by right|]. apply Forall_fmap. eapply Forall_impl; [by apply Forall_strings_split|].
  intros x Hx. eapply Forall_impl; [by apply segment_bytes|]. by left.
Qed.

Lemma folded_segments key :
  Forall byte key -> key <> [] ->
  strings_split (fold (storagePath key true)) (ch "/") = (fun s => fold (storagePathSegment s)) <$> strings_split key (ch "/").
Proof.
  intros Hk Hne. destruct (split_segments key Hk Hne) as [Hs _]. rewrite <- fold_split; [rewrite Hs; by rewrite <- list_fmap_compose|done|].
  eapply Forall_impl; [by apply storage_path_ascii|]. cbn beta. change (ch "/") with 47. intros c [Hc|Hc] Hn; [by destruct (path_byte_spec c Hc) as (_ & _ & ?)|done].
Qed.

Lemma segments_distinct l1 l2 :
  Forall (Forall byte) l1 -> Forall (Forall byte) l2 ->
  (fun s => fold (storagePathSegment s)) <$> l1 = (fun s => fold (storagePathSegment s)) <$> l2 ->
  l1 = l2 \/ exists a b, a ∈ l1 /\ b ∈ l2 /\ a <> b /\ sha256 a = sha256 b.
Proof.
  intros H1. revert l2. induction H1 as [|a l1 Ha H1 IH]; intros l2 H2 Heq; destruct H2 as [|b l2 Hb H2]; try discriminate; [by left|].
  cbn [fmap list_fmap] in Heq. injection Heq as Hab Heq.
  destruct (segment_distinct a b Ha Hb Hab) as [->|[Hne Hsha]]; [|right; exists a, b; set_solver].
  destruct (IH l2 H2 Heq) as [->|(x & y & Hx & Hy & Hxy)]; [by left|]. right. exists x, y. set_solver.
Qed.

(** C37: Objects never share a file.  Below a root that folds case or not, two keys with one
    object path - up to the folding, below a folding root - are the same key, or exhibit
    a collision of SHA-256 between two of their segments; the elements of an object path
    are never empty, [.] or [..], so it stays below the root; and its first element is
    not the name of the staging area. *)
Theorem storage_paths_distinct foldsCase k1 k2 p1 p2 :
  Forall byte k1 -> Forall byte k2 -> objectPath foldsCase k1 false = Ok p1 -> objectPath foldsCase k2 false = Ok p2 ->
  (same_file foldsCase p1 p2 ->
     k1 = k2 \/ exists a b, a ∈ strings_split k1 (ch "/") /\ b ∈ strings_split k2 (ch "/") /\ a <> b /\ sha256 a = sha256 b)
  /\ Forall (fun elem => elem <> [] /\ elem <> bs "." /\ elem <> bs "..") (strings_split p1 (ch "/"))
  /\ (forall elem rest, strings_split p1 (ch "/") = elem :: rest -> ~ same_file foldsCase elem localStagingNamespace).
Proof.
  intros Hb1 Hb2. unfold objectPath. destruct (validateStorageKey k1 false) as [n1|] eqn:V1; [|done].
  destruct (validateStorageKey k2 false) as [n2|] eqn:V2; [|done]. cbn [mbind result_bind]. intros [= <-] [= <-].
  apply valid_key in V1 as (-> & Ne1 & _ & Ns1 & Np1 & El1). apply valid_key in V2 as (-> & Ne2 & _).
  assert (forall elem rest, strings_split k1 (ch "/") = elem :: rest -> elem <> localStagingNamespace) as Hhead.
  { intros elem rest Hs ->. pose proof (join_split k1 (ch "/")) as Hj. rewrite Hs in Hj. destruct rest as [|r rest]; [by simpl in Hj; subst|].
    rewrite <- Hj in Np1. change (strings_join (localStagingNamespace :: r :: rest) (ch "/"))
      with (localStagingNamespace ++ bs "/" ++ strings_join (r :: rest) (ch "/")) in Np1.
    apply not_true_iff_false in Np1. apply Np1, has_prefix_app. eexists. by rewrite <- app_assoc. }
  destruct foldsCase; cbn [same_file]; [|by unfold storagePath; cbn [negb orb]; split_and!; [left| |]].
  destruct (split_segments k1 Hb1 Ne1) as [S1 _]. assert (Forall (Forall byte) (strings_split k1 (ch "/"))) as B1 by by apply Forall_strings_split.
  assert (forall x y, Forall byte x -> Forall byte y -> fold (storagePathSegment x) = fold y ->
            forallb storageSegmentByteSafe y = true -> x = y) as Hsafe.
  { intros x y Hx Hy Hf Hs. rewrite segment_path in Hf. destruct (digested x) eqn:D.
    - exfalso. apply (f_equal head) in Hf. rewrite fmap_app in Hf. change (fold (bs "~")) with [126] in Hf. cbn [app head] in Hf.
      destruct y as [|c y]; [done|]. cbn [forallb] in Hs. apply andb_true_iff in Hs as [Hc _]. cbn [fmap list_fmap head] in Hf.
      rewrite safe_fold in Hf by done. injection Hf as <-. by apply safe_byte in Hc; lia.
    - rewrite <- (escape_safe y Hs) in Hf. by apply fold_escape_inj. }
  split_and!.
  - intros Hf. apply (f_equal (fun p => strings_split p (ch "/"))) in Hf. rewrite !folded_segments in Hf by done.
    destruct (segments_distinct _ _ B1 (Forall_strings_split _ _ _ Hb2) Hf) as [Heq|Hcol]; [left|by right].
    by rewrite <- (join_split k1 (ch "/")), Heq, join_split.
  - rewrite S1. apply Forall_fmap. rewrite Forall_forall in *. intros x Hx. specialize (El1 x Hx) as (E1 & E2 & E3). specialize (B1 x Hx).
    simpl. split_and!; intros Heq; [apply E1 | apply E2 | apply E3]; apply Hsafe; rewrite ?Heq; try done; by apply byte_list.
  - rewrite S1. intros elem rest Hs Hf. destruct (strings_split k1 (ch "/")) as [|x l] eqn:Hk; [done|].
    cbn [fmap list_fmap] in Hs. injection Hs as <- _. apply Forall_cons in B1 as [B1 _].
    apply (Hhead x l eq_refl). apply Hsafe; [done| |done|by vm_compute]. by apply byte_list.
Qed.

(** ** Staging paths *)

Lemma base64_value_digit n : 0 <= n < 64 -> base64_value (base64_digit n) = Some n.
Proof.
  intros Hn. assert (forallb (fun n => bool_decide (base64_value (base64_digit n) = Some n)) (seqZ 0 64) = true) as Hall
    by (vm_compute; reflexivity).
  rewrite forallb_forall in Hall. eapply bool_decide_eq_true_1, Hall, list_elem_of_In, elem_of_seqZ. lia.
Qed.

Definition base64_byte (c : Z) : Prop := is_Some (base64_value c).

Lemma base64_byte_spec c : base64_byte c -> 45 <= c <= 122 /\ c <> 47 /\ c <> 10 /\ c <> 13.
Proof.
  unfold base64_byte, base64_value. intros [n Hn].
  repeat match type of Hn with (if ?b then _ else _) = _ => destruct b eqn:? end; try done;
    repeat match goal with
           | E : in_range _ _ _ = true |- _ => apply in_range_true in E
           | E : (_ =? _) = true |- _ => apply Z.eqb_eq in E; subst
           end; try lia; by vm_compute.
Qed.

(** The digits of a text, three bytes at a time. *)
Fixpoint base64_digits (s : gostring) : list Z :=
  match s with
  | a :: b :: c :: s =>
    Z.shiftr a 2 :: Z.lor (Z.shiftl (Z.land a 3) 4) (Z.shiftr b 4) :: Z.lor (Z.shiftl (Z.land b 15) 2) (Z.shiftr c 6)
    :: Z.land c 63 :: base64_digits s
  | [a; b] => [Z.shiftr a 2; Z.lor (Z.shiftl (Z.land a 3) 4) (Z.shiftr b 4); Z.shiftl (Z.land b 15) 2]
  | [a] => [Z.shiftr a 2; Z.shiftl (Z.land a 3) 4]
  | [] => []
  end.

Lemma three_ind (P : gostring -> Prop) :
  P [] -> (forall a, P [a]) -> (forall a b, P [a; b]) -> (forall a b c s, P s -> P (a :: b :: c :: s)) -> forall s, P s.
Proof.
  intros H0 H1 H2 H3 s. enough (P s /\ (forall a, P (a :: s)) /\ (forall a b, P (a :: b :: s))) by tauto.
  induction s as [|c s (IH0 & IH1 & IH2)]; [by split_and!|]. split_and!; [apply IH1|intros a; apply IH2|intros a b; by apply H3].
Qed.

Lemma base64_encode_digits s : base64_encode s = base64_digit <$> base64_digits s.
Proof. induction s as [| | |a b c s IH] using three_ind; [done..|]. cbn [base64_encode base64_digits fmap list_fmap]. by rewrite IH. Qed.

(** The digits and the bytes as arithmetic. *)
#[local] Ltac Zify.zify_post_hook ::= Z.to_euclidean_division_equations.

Lemma join_bits a b k n m :
  0 <= a -> 0 <= b < 2 ^ 8 -> 0 <= k -> 0 <= n <= 8 -> 0 <= m -> n + m = 8 ->
  Z.lor (Z.shiftl (Z.land a (Z.ones k)) m) (Z.shiftr b n) = a mod 2 ^ k * 2 ^ m + b / 2 ^ n.
Proof.
  intros Ha Hb Hk Hn Hm Hnm. rewrite Z.land_ones, Z.shiftr_div_pow2 by lia. apply lor_add; [done|].
  split; [apply Z.div_pos; lia|]. apply Z.div_lt_upper_bound; [lia|]. rewrite <- Z.pow_add_r, Hnm by lia. lia.
Qed.

Lemma digit_1 a : Z.shiftr a 2 = a / 4.
Proof. by rewrite Z.shiftr_div_pow2. Qed.
Lemma digit_2 a b : byte a -> byte b -> Z.lor (Z.shiftl (Z.land a 3) 4) (Z.shiftr b 4) = a mod 4 * 16 + b / 16.
Proof. unfold byte. intros Ha Hb. change 3 with (Z.ones 2). by rewrite (join_bits a b 2 4 4) by lia. Qed.
Lemma digit_3 b c : byte b -> byte c -> Z.lor (Z.shiftl (Z.land b 15) 2) (Z.shiftr c 6) = b mod 16 * 4 + c / 64.
Proof. unfold byte. intros Hb Hc. change 15 with (Z.ones 4). by rewrite (join_bits b c 4 6 2) by lia. Qed.
Lemma digit_4 c : Z.land c 63 = c mod 64.
Proof. change 63 with (Z.ones 6). by rewrite Z.land_ones. Qed.
Lemma digit_2_last a : Z.shiftl (Z.land a 3) 4 = a mod 4 * 16.
Proof. change 3 with (Z.ones 2). by rewrite Z.land_ones, Z.shiftl_mul_pow2. Qed.
Lemma digit_3_last b : Z.shiftl (Z.land b 15) 2 = b mod 16 * 4.
Proof. change 15 with (Z.ones 4). by rewrite Z.land_ones, Z.shiftl_mul_pow2. Qed.

Lemma byte_1 p q : 0 <= q < 64 -> Z.lor (Z.shiftl p 2) (Z.shiftr q 4) = p * 4 + q / 16.
Proof. intros Hq. rewrite Z.shiftr_div_pow2 by lia. apply lor_add; [lia|]. change (2 ^ 4) with 16. change (2 ^ 2) with 4. lia. Qed.
Lemma byte_2 q r : 0 <= r < 64 -> Z.lor (Z.shiftl (Z.land q 15) 4) (Z.shiftr r 2) = q mod 16 * 16 + r / 4.
Proof.
  intros Hr. change 15 with (Z.ones 4). rewrite Z.land_ones, Z.shiftr_div_pow2 by lia. apply lor_add; [lia|].
  change (2 ^ 4) with 16. change (2 ^ 2) with 4. lia.
Qed.
Lemma byte_3 r t : 0 <= t < 64 -> Z.lor (Z.shiftl (Z.land r 3) 6) t = r mod 4 * 64 + t.
Proof. intros Ht. change 3 with (Z.ones 2). rewrite Z.land_ones by lia. apply lor_add; [lia|]. change (2 ^ 6) with 64. lia. Qed.

Lemma base64_digits_ok s : Forall byte s -> Forall (fun n => 0 <= n < 64) (base64_digits s) /\ base64_bytes (base64_digits s) = Some s.
Proof.
  induction s as [|a|a b|a b c s IH] using three_ind; intros Hs; [by split|..]; cbn [base64_digits base64_bytes];
    rewrite ?Forall_cons in Hs.
  - destruct Hs as [Ha _]. rewrite digit_1, digit_2_last. unfold byte in Ha. split; [forall_list; lia|].
    rewrite byte_1 by lia. do 2 f_equal. lia.
  - destruct Hs as (Ha & Hb & _). rewrite digit_1, digit_2, digit_3_last by done. unfold byte in *. split; [forall_list; lia|].
    rewrite byte_1, byte_2 by lia. repeat f_equal; lia.
  - destruct Hs as (Ha & Hb & Hc & Hs). destruct (IH Hs) as [IHd IHb]. rewrite digit_1, digit_2, digit_3, digit_4 by done.
    unfold byte in *. split; [forall_list; [lia..|done]|]. rewrite IHb, byte_1, byte_2, byte_3 by lia. cbn [fmap option_fmap option_map].
    repeat f_equal; lia.
Qed.

Lemma base64_roundtrip s :
  Forall byte s -> Forall base64_byte (base64_encode s) /\ base64_decode (base64_encode s) = Some s.
Proof.
  intros Hs. destruct (base64_digits_ok s Hs) as [Hd Hb]. rewrite base64_encode_digits.
  assert (Forall base64_byte (base64_digit <$> base64_digits s)) as Hall.
  { apply Forall_fmap. eapply Forall_impl; [exact Hd|]. intros n Hn. exists n. by apply base64_value_digit. }
  split; [done|]. unfold base64_decode. assert (forall l, Forall base64_byte l -> filter (fun c => c <> 10 /\ c <> 13) l = l) as Hfilter.
  { induction 1 as [|c l Hc Hl IH]; [done|]. apply base64_byte_spec in Hc. rewrite filter_cons_True by tauto. by rewrite IH. }
  rewrite Hfilter by done. assert (mapM base64_value (base64_digit <$> base64_digits s) = Some (base64_digits s)) as ->.
  { apply mapM_Some, Forall2_fmap_l, Forall_Forall2_diag. eapply Forall_impl; [exact Hd|]. intros n Hn. by apply base64_value_digit. }
  done.
Qed.


Lemma join_snoc l x c : l <> [] -> strings_join (l ++ [x]) c = strings_join l c ++ c :: x.
Proof.
  induction l as [|y l IH]; [done|]. intros _. destruct l as [|z l]; [done|].
  change (strings_join ((y :: z :: l) ++ [x]) c) with (y ++ c :: strings_join ((z :: l) ++ [x]) c).
  rewrite IH by done. change (strings_join (y :: z :: l) c) with (y ++ c :: strings_join (z :: l) c). by rewrite <- app_assoc.
Qed.

Lemma staging_chunks_nonempty fuel s : staging_chunks fuel s <> [].
Proof. destruct fuel; simpl; [done|]. by case_bool_decide. Qed.

Lemma chunks_canonical_cons chunk l :
  length chunk = localStagingChunkSize -> l <> [] -> chunks_canonical l = true -> chunks_canonical (chunk :: l) = true.
Proof. intros Hc Hl Hcan. destruct l; [done|]. cbn [chunks_canonical]. apply andb_true_iff. by rewrite bool_decide_eq_true. Qed.

Lemma staging_chunks_spec fuel s :
  (length s <= fuel)%nat -> s <> [] ->
  concat (staging_chunks fuel s) = s /\ chunks_canonical (staging_chunks fuel s) = true
  /\ (forall P : Z -> Prop, Forall P s -> Forall (Forall P) (staging_chunks fuel s)).
Proof.
  assert (0 < localStagingChunkSize)%nat as Hpos by (unfold localStagingChunkSize; lia).
  revert s. induction fuel as [|fuel IH]; intros s Hl Hne; [destruct s; simpl in Hl; [done|lia]|].
  cbn [staging_chunks]. case_bool_decide as Hlong.
  - destruct (IH (drop localStagingChunkSize s)) as (Hcat & Hcan & Hall).
    { rewrite length_drop. lia. }
    { intros Hd. apply (f_equal length) in Hd. rewrite length_drop in Hd. simpl in Hd. lia. }
    split; [|split].
    + cbn [concat]. by rewrite Hcat, take_drop.
    + apply chunks_canonical_cons; [rewrite length_take; lia|apply staging_chunks_nonempty|done].
    + intros P HP. constructor; [by apply Forall_take|]. by apply Hall, Forall_drop.
  - split; [|split].
    + cbn [concat]. by rewrite app_nil_r.
    + cbn [chunks_canonical]. apply bool_decide_eq_true. destruct s; simpl in *; [done|lia].
    + intros P HP. by repeat constructor.
Qed.

Lemma base64_encode_nonempty s : s <> [] -> base64_encode s <> [].
Proof. by destruct s as [|a [|b [|c s]]]. Qed.

(** ** Listed keys *)

Lemma unescape_escaped s : Forall byte s -> unescape_go (escapeStorageSegment s) = Some s.
Proof.
  induction 1 as [|c s Hc Hs IH]; [done|]. rewrite escape_cons. unfold escape_byte. destruct (storageSegmentByteSafe c) eqn:E; cbn [app].
  - cbn [unescape_go]. assert ((c =? ch "%") = false) as ->.
    { apply Z.eqb_neq. change (ch "%") with 37. apply safe_byte in E. lia. }
    cbn [negb]. by rewrite E, IH.
  - cbn [unescape_go]. change (ch "%" =? ch "%") with true. cbn [negb]. pose proof (nibbles c Hc) as (C1 & C2 & C3).
    assert (forall n, 0 <= n < 16 -> storageEscapeValue (escape_digit n) = Some n) as Hd.
    { intros n Hn. unfold storageEscapeValue, escape_digit. destruct (Z.ltb_spec n 10).
      - rewrite (proj2 (in_range_true _ _ _)) by lia. f_equal. lia.
      - rewrite (proj2 (in_range_false _ _ _)), (proj2 (in_range_true _ _ _)) by lia. f_equal. lia. }
    rewrite !Hd, IH by done. cbn [fmap option_fmap option_map]. do 2 f_equal.
    assert (Z.land (Z.shiftl (Z.shiftr c 4) 4) 255 = Z.shiftl (Z.shiftr c 4) 4) as ->.
    { change 255 with (Z.ones 8). rewrite Z.land_ones, Z.shiftl_mul_pow2 by lia. apply Z.mod_small. change (2 ^ 4) with 16. change (2 ^ 8) with 256. lia. }
    rewrite lor_add by (change (2 ^ 4) with 16; lia). change (2 ^ 4) with 16. lia.
Qed.

Lemma escape_no_percent s : mem (ch "%") (escapeStorageSegment s) = false -> forallb storageSegmentByteSafe s = true.
Proof.
  induction s as [|c s IH]; [done|]. rewrite escape_cons. unfold mem. rewrite existsb_app, orb_false_iff. intros [Hc Hs].
  cbn [forallb]. rewrite IH by done. unfold escape_byte in Hc. by destruct (storageSegmentByteSafe c).
Qed.

Lemma segment_nonempty s : Forall byte s -> s <> [] -> storagePathSegment s <> [].
Proof.
  intros _ Hne. rewrite segment_path. destruct (digested s); [done|]. destruct s as [|c s]; [done|].
  rewrite escape_cons. unfold escape_byte. by destruct (storageSegmentByteSafe c).
Qed.

Lemma unescape_segment s :
  Forall byte s -> s <> [] -> unescapeStorageSegment (storagePathSegment s) = if digested s then None else Some s.
Proof.
  intros Hs Hne. rewrite segment_path. unfold unescapeStorageSegment. destruct (digested s) eqn:D.
  - assert (mem (ch "%") (bs "~" ++ hex_encode (sha256 s)) = false) as ->; [|done].
    apply not_true_iff_false. rewrite mem_elem. change (bs "~") with [126]. rewrite elem_of_app. intros [Hx|Hx].
    + apply elem_of_cons in Hx as [Hx|Hx]; [done|]. by apply elem_of_nil in Hx.
    + pose proof (hex_encode_safe _ (proj2 (sha256_digest s))) as Hall. rewrite Forall_forall in Hall. specialize (Hall _ Hx).
      apply safe_byte in Hall. change (ch "%") with 37 in Hall. lia.
  - destruct (mem (ch "%") (escapeStorageSegment s)) eqn:M; cbn [negb]; [by apply unescape_escaped|].
    apply escape_no_percent in M. rewrite escape_safe by done. destruct s as [|c s]; [done|]. cbn [forallb] in M.
    apply andb_true_iff in M as [Hc _]. destruct (has_prefix (c :: s) (bs "~")) eqn:P; [|done].
    apply has_prefix_app in P as [r P]. injection P as -> _. by vm_compute in Hc.
Qed.

(** ** Every path gives its key back *)

Lemma staging_path key :
  validateStorageKey key false = Ok key ->
  localStagingPath key = Ok (localStagingNamespace ++ ch "/" :: strings_join (staging_chunks (length (base64_encode key)) (base64_encode key)) (ch "/") ++ ch "/" :: localStagingMarker).
Proof.
  intros Hv. unfold localStagingPath. rewrite Hv. cbn [mbind result_bind]. f_equal. rewrite app_assoc, join_snoc.
  - cbn [app]. pose proof (staging_chunks_nonempty (length (base64_encode key)) (base64_encode key)) as Hne.
    destruct (staging_chunks _ _) as [|x l]; [done|].
    change (strings_join (localStagingNamespace :: x :: l) (ch "/"))
      with (localStagingNamespace ++ ch "/" :: strings_join (x :: l) (ch "/")). by rewrite <- app_assoc.
  - done.
Qed.

Lemma framed_path space marker middle :
  has_prefix (space ++ ch "/" :: middle ++ ch "/" :: marker) (space ++ bs "/") = true
  /\ has_suffix (space ++ ch "/" :: middle ++ ch "/" :: marker) (bs "/" ++ marker) = true
  /\ trim_suffix (drop (length (space ++ bs "/")) (space ++ ch "/" :: middle ++ ch "/" :: marker)) (bs "/" ++ marker) = middle.
Proof.
  split; [|split].
  - apply has_prefix_app. exists (middle ++ ch "/" :: marker). by rewrite <- app_assoc.
  - apply has_suffix_app. exists (space ++ ch "/" :: middle). by rewrite <- app_assoc.
  - change (space ++ ch "/" :: middle ++ ch "/" :: marker) with (space ++ bs "/" ++ (middle ++ bs "/" ++ marker)).
    by rewrite app_assoc, drop_app_length, trim_suffix_snoc.
Qed.

Lemma staging_key key :
  Forall byte key -> key <> [] -> validateStorageKey key false = Ok key -> exists path, localStagingPath key = Ok path /\ localStagingKey path = Some key.
Proof.
  intros Hk Hne Hv. pose proof (staging_path key Hv) as Hp. eexists. split; [exact Hp|].
  destruct (base64_roundtrip key Hk) as [Hb Hd]. unfold localStagingKey.
  destruct (staging_chunks_spec (length (base64_encode key)) (base64_encode key)) as (Hcat & Hcan & Hall);
    [lia|by apply base64_encode_nonempty|]. set (cs := staging_chunks _ _) in *.
  destruct (framed_path localStagingNamespace localStagingMarker (strings_join cs (ch "/"))) as (-> & -> & ->).
  cbn [negb orb]. rewrite split_join.
  - rewrite Hcan, Hcat, Hd. cbn [negb mbind option_bind]. by rewrite Hv, Hp, (proj2 (str_eqb_eq _ _) eq_refl).
  - apply staging_chunks_nonempty.
  - eapply Forall_impl; [exact (Hall _ Hb)|]. intros x Hx. eapply Forall_not_elem; [exact Hx|].
    intros Hs%base64_byte_spec. change (ch "/") with 47 in Hs. lia.
Qed.

Lemma listed_key key :
  Forall byte key -> validateStorageKey key false = Ok key ->
  storageKeyFromPath (storagePath key true) true = if existsb digested (strings_split key (ch "/")) then None else Some key.
Proof.
  intros Hk Hv. apply valid_key in Hv as (_ & Hne & _ & _ & _ & Hel). unfold storageKeyFromPath. cbn [negb orb].
  destruct (split_segments key Hk Hne) as [Hs _].
  destruct (str_eqb (storagePath key true) []) eqn:E.
  { apply str_eqb_eq in E. rewrite E in Hs. pose proof (split_nonempty key (ch "/")) as Hnn.
    destruct (strings_split key (ch "/")) as [|x l] eqn:Hsp; [done|]. cbn in Hs. injection Hs as Hx _.
    pose proof (Forall_strings_split _ _ (ch "/") Hk) as Hb. rewrite Hsp in Hb. apply Forall_cons in Hb as [Hb _].
    apply Forall_cons in Hel as [[Hel _] _]. apply segment_nonempty in Hb; [|done]. by rewrite <- Hx in Hb. }
  rewrite Hs. pose proof (Forall_strings_split _ _ (ch "/") Hk) as Hb.
  enough (mapM unescapeStorageSegment (storagePathSegment <$> strings_split key (ch "/"))
          = if existsb digested (strings_split key (ch "/")) then None else Some (strings_split key (ch "/"))) as ->.
  { destruct (existsb _ _); [done|]. cbn [fmap option_fmap option_map]. by rewrite join_split. }
  clear Hs E. induction Hel as [|x l [Hx _] Hl IH]; [done|]. apply Forall_cons in Hb as [Hbx Hb].
  cbn [fmap list_fmap mapM existsb]. rewrite unescape_segment by done. destruct (digested x); [done|]. cbn [orb mbind option_bind].
  rewrite IH by done. by destruct (existsb digested l).
Qed.

(** Paths give their keys back.  The staging path of a storable key decodes to the key,
    a name below the staging area decodes to no key but the one staged there, and listing
    a folding root reverses the object path of every key none of whose segments was
    replaced by its digest - and gives no key for the others, rather than a wrong one. *)
Theorem paths_reversible key :
  Forall byte key -> validateStorageKey key false = Ok key ->
  (exists path, localStagingPath key = Ok path /\ localStagingKey path = Some key)
  /\ (forall path other, localStagingKey path = Some other -> localStagingPath other = Ok path)
  /\ storageKeyFromPath (storagePath key true) true
     = if existsb digested (strings_split key (ch "/")) then None else Some key.
Proof.
  intros Hk Hv. split; [|split; [|by apply listed_key]].
  - apply staging_key; [done| |done]. by apply valid_key in Hv as (_ & ? & _).
  - intros path other. unfold localStagingKey. intros Hs. repeat case_match; simplify_eq.
    destruct (base64_decode _) as [decoded|]; [|done]. cbn [mbind option_bind] in Hs. repeat case_match; simplify_eq.
    match goal with E : str_eqb _ _ = true |- _ => by apply str_eqb_eq in E as <- end.
Qed.

(** ** Examples *)

Definition staged (path : string) : result gostring := localStagingPath (bs path).

Lemma storage_paths_distinct_witness :
  let upper := bs "npm/Express" in let lower := bs "npm/express" in
  objectPath true upper false = Ok (bs "npm/%45xpress") /\ objectPath true lower false = Ok lower
  /\ ((same_file true (bs "npm/%45xpress") lower -> upper = lower \/ exists a b, a ∈ strings_split upper (ch "/") /\ b ∈ strings_split lower (ch "/") /\ a <> b /\ sha256 a = sha256 b)
  /\ Forall (fun elem => elem <> [] /\ elem <> bs "." /\ elem <> bs "..") (strings_split (bs "npm/%45xpress") (ch "/"))
  /\ (forall elem rest, strings_split (bs "npm/%45xpress") (ch "/") = elem :: rest -> ~ same_file true elem localStagingNamespace)).
Proof.
  split; [by vm_compute|]. split; [by vm_compute|].
  apply (storage_paths_distinct true); [by apply byte_list|by apply byte_list|by vm_compute|by vm_compute].
Defined.

Lemma paths_reversible_witness :
  let key := bs "npm/Express" in
  (exists path, localStagingPath key = Ok path /\ localStagingKey path = Some key)
  /\ (forall path other, localStagingKey path = Some other -> localStagingPath other = Ok path)
  /\ storageKeyFromPath (storagePath key true) true
     = if existsb digested (strings_split key (ch "/")) then None else Some key.
Proof. apply (paths_reversible (bs "npm/Express")); [by apply byte_list|by vm_compute]. Defined.

(** Two keys whose staging files are one file below a folding root: only the case of the
    base64 text tells them apart. *)
Example staging_paths_alias :
  staged "xxG" = Ok (bs ".depsilo-staging-v1/eHhH/~") /\ staged "xxa" = Ok (bs ".depsilo-staging-v1/eHhh/~")
  /\ same_file true (bs ".depsilo-staging-v1/eHhH/~") (bs ".depsilo-staging-v1/eHhh/~").
Proof. by vm_compute. Qed.

(** A segment of safe bytes is never replaced by its digest, however long it is. *)
Example long_safe_segment : storagePathSegment (replicate 300 (ch "a")) = replicate 300 (ch "a").
Proof. by vm_compute. Qed.
