(* ===== verification/Json.v ===== *)
(** * JSON rendering of strings and integers (encoding/json)

    [json.Marshal] of a Go string escapes quotes, backslashes, control characters,
    the HTML characters, U+2028 and U+2029, and replaces every byte that is not
    UTF-8 by [\ufffd].  A rendered string ends at its closing quote, and renderings
    of UTF-8 strings can be read back. *)

From S2P Require Export Utf8 Decimal.

Definition quote : Z := 34.
Definition backslash : Z := 92.

(** The bytes [htmlSafeSet] writes as they are. *)
Definition json_safe (c : Z) : bool :=
  (0x20 <=? c) && negb (mem c [quote; backslash; ch "<"; ch ">"; ch "&"]).

Definition json_ascii (c : Z) : gostring :=
  if json_safe c then [c]
  else if mem c [quote; backslash] then [backslash; c]
  else if c =? 8 then [backslash; ch "b"]
  else if c =? 12 then [backslash; ch "f"]
  else if c =? 10 then [backslash; ch "n"]
  else if c =? 13 then [backslash; ch "r"]
  else if c =? 9 then [backslash; ch "t"]
  else [backslash; ch "u"; 48; 48; hex_digit (Z.shiftr c 4); hex_digit (Z.land c 15)].

Definition json_chunk (chunk : Z * gostring) : gostring :=
  let '(r, bytes) := chunk in
  if r <? 0x80 then json_ascii r
  else if undecodable chunk then [backslash; ch "u"; ch "f"; ch "f"; ch "f"; ch "d"]
  else if (r =? 0x2028) || (r =? 0x2029)
  then [backslash; ch "u"; ch "2"; ch "0"; ch "2"; hex_digit (Z.land r 15)]
  else bytes.

Definition json_body (s : gostring) : gostring := concat (json_chunk <$> chunks s).

Definition json_string (s : gostring) : gostring := quote :: json_body s ++ [quote].

Definition json_int (n : Z) : gostring := if n <? 0 then ch "-" :: format_uint (- n) else format_uint n.

(** The values the program marshals into objects, and an object of named values. *)
Inductive json_value :=
  | JString (s : gostring)
  | JInt (n : Z).

Definition json_render (v : json_value) : gostring :=
  match v with JString s => json_string s | JInt n => json_int n end.

Fixpoint json_members (members : list (gostring * json_value)) : gostring :=
  match members with
  | [] => []
  | (name, value) :: members =>
    json_string name ++ ch ":" :: json_render value ++ match members with [] => [] | _ => ch "," :: json_members members end
  end.

Definition json_object (members : list (gostring * json_value)) : gostring :=
  ch "{" :: json_members members ++ [ch "}"].

(** ** Where a string ends *)

(** Text in which every quote and backslash follows a backslash. *)
Inductive escaped : gostring -> Prop :=
  | escaped_nil : escaped []
  | escaped_plain c s : c <> quote -> c <> backslash -> escaped s -> escaped (c :: s)
  | escaped_pair c s : escaped s -> escaped (backslash :: c :: s).

(** Reads to the first quote that is not escaped. *)
Fixpoint read_string (s : gostring) : option (gostring * gostring) :=
  match s with
  | [] => None
  | c :: s' =>
    if c =? quote then Some ([], s') else
    if c =? backslash then
      match s' with
      | [] => None
      | d :: s'' => option_map (fun p => (c :: d :: p.1, p.2)) (read_string s'')
      end
    else option_map (fun p => (c :: p.1, p.2)) (read_string s')
  end.

Lemma read_escaped b rest : escaped b -> read_string (b ++ quote :: rest) = Some (b, rest).
Proof.
  induction 1 as [|c s Hq Hb _ IH|c s _ IH]; [done| |].
  - cbn [app read_string]. rewrite (proj2 (Z.eqb_neq c quote)), (proj2 (Z.eqb_neq c backslash)) by done. by rewrite IH.
  - cbn [app read_string]. change (backslash =? quote) with false. rewrite Z.eqb_refl. by rewrite IH.
Qed.

Lemma escaped_app s t : escaped s -> escaped t -> escaped (s ++ t).
Proof. induction 1; intros Ht; cbn [app]; [done | by apply escaped_plain; auto | by apply escaped_pair; auto]. Qed.

Lemma escaped_concat l : Forall escaped l -> escaped (concat l).
Proof. induction 1; simpl; [constructor | by apply escaped_app]. Qed.

Lemma escaped_plains s : Forall (fun c => c <> quote /\ c <> backslash) s -> escaped s.
Proof. induction 1 as [|c s [Hq Hb] _ IH]; [constructor | by apply escaped_plain]. Qed.

Lemma hex_digit_plain n : 0 <= n -> hex_digit n <> quote /\ hex_digit n <> backslash.
Proof. unfold hex_digit, quote, backslash. case_match; lia. Qed.

Lemma json_ascii_escaped c : 0 <= c -> escaped (json_ascii c).
Proof.
  intros Hc. unfold json_ascii. repeat case_match; try apply escaped_pair, escaped_plains; try (forall_list; done).
  - apply escaped_plains. forall_list. unfold json_safe, mem, quote, backslash in *. simpl in *. lia.
  - forall_list; try done; apply hex_digit_plain; [apply Z.shiftr_nonneg | apply Z.land_nonneg]; lia.
Qed.

Lemma json_chunk_escaped p :
  (undecodable p = false ->
    p.2 = utf8_encode p.1 /\ (0x80 <= p.1 -> Forall (fun b => 0x80 <= b) p.2) /\ (p.1 < 0x80 -> 0 <= p.1 /\ p.2 = [p.1])) ->
  escaped (json_chunk p).
Proof.
  destruct p as [r b]. intros Hv. unfold json_chunk. destruct (Z.ltb_spec r 0x80).
  - apply json_ascii_escaped. destruct (undecodable (r, b)) eqn:E.
    + unfold undecodable in E. cbn [fst] in E. unfold rune_error in E. lia.
    + by apply Hv.
  - destruct (undecodable (r, b)); [apply escaped_pair, escaped_plains; forall_list; done|].
    destruct ((r =? 0x2028) || (r =? 0x2029)).
    + apply escaped_pair, escaped_plains. forall_list; try done. apply hex_digit_plain, Z.land_nonneg. lia.
    + destruct (Hv eq_refl) as (_ & Hh & _). apply escaped_plains. eapply Forall_impl; [by apply Hh|].
      intros x Hx. unfold quote, backslash. cbn in Hx. lia.
Qed.

Lemma json_body_escaped s : Forall byte s -> escaped (json_body s).
Proof.
  intros Hb. apply escaped_concat, Forall_fmap. eapply Forall_impl; [by apply chunks_valid|].
  intros p. apply json_chunk_escaped.
Qed.

(** A rendered string ends where it ends, whatever follows. *)
Lemma json_string_prefix s t x y :
  Forall byte s -> Forall byte t -> json_string s ++ x = json_string t ++ y -> json_body s = json_body t /\ x = y.
Proof.
  intros Hs Ht Heq. unfold json_string in Heq. cbn [app] in Heq. injection Heq as Heq.
  rewrite <- !app_assoc in Heq. cbn [app] in Heq.
  pose proof (read_escaped _ x (json_body_escaped s Hs)) as Hx. rewrite Heq in Hx.
  rewrite (read_escaped _ y (json_body_escaped t Ht)) in Hx. by injection Hx as -> ->.
Qed.

(** ** Reading a rendering back *)

Definition hex_value (c : Z) : Z := if c <? 58 then c - 48 else c - 87.

Definition short_escape (c : Z) : Z :=
  if c =? ch "b" then 8 else if c =? ch "f" then 12 else if c =? ch "n" then 10
  else if c =? ch "r" then 13 else if c =? ch "t" then 9 else c.

Fixpoint json_unescape (s : gostring) : gostring :=
  match s with
  | [] => []
  | c :: s1 =>
    if c =? backslash then
      match s1 with
      | d :: s2 =>
        if d =? ch "u" then
          match s2 with
          | h1 :: h2 :: h3 :: h4 :: s3 =>
            utf8_encode (((hex_value h1 * 16 + hex_value h2) * 16 + hex_value h3) * 16 + hex_value h4) ++ json_unescape s3
          | _ => []
          end
        else short_escape d :: json_unescape s2
      | [] => []
      end
    else c :: json_unescape s1
  end.

Lemma hex_value_digit n : 0 <= n < 16 -> hex_value (hex_digit n) = n.
Proof. intros Hn. unfold hex_value, hex_digit. repeat case_match; lia. Qed.

Lemma unescape_plain s rest :
  Forall (fun c => c <> backslash) s -> json_unescape (s ++ rest) = s ++ json_unescape rest.
Proof.
  induction 1 as [|c s Hc _ IH]; [done|]. cbn [app json_unescape].
  rewrite (proj2 (Z.eqb_neq c backslash)) by done. by rewrite IH.
Qed.

Lemma unescape_hex a b c d rest :
  0 <= a < 16 -> 0 <= b < 16 -> 0 <= c < 16 -> 0 <= d < 16 ->
  json_unescape ([backslash; ch "u"; hex_digit a; hex_digit b; hex_digit c; hex_digit d] ++ rest)
  = utf8_encode (((a * 16 + b) * 16 + c) * 16 + d) ++ json_unescape rest.
Proof.
  intros. cbn [app json_unescape]. rewrite !Z.eqb_refl, !hex_value_digit by done. done.
Qed.

Lemma utf8_encode_ascii c : 0 <= c < 0x80 -> utf8_encode c = [c].
Proof.
  intros Hc. unfold utf8_encode. rewrite (proj2 (in_range_true _ _ _)) by lia.
  rewrite (proj2 (in_range_false _ _ _)) by lia. cbn [negb andb]. by rewrite (proj2 (Z.leb_le _ _)) by lia.
Qed.

Lemma unescape_ascii c rest : 0 <= c < 0x80 -> json_unescape (json_ascii c ++ rest) = c :: json_unescape rest.
Proof.
  intros Hc. unfold json_ascii. destruct (json_safe c) eqn:Es.
  { apply (unescape_plain [c]). forall_list. unfold json_safe, mem, quote, backslash in *. simpl in *. lia. }
  destruct (mem c [quote; backslash]) eqn:Em.
  { cbn [app json_unescape]. rewrite Z.eqb_refl. unfold mem, quote, backslash in Em. simpl in Em.
    assert (Hq : c = 34 \/ c = 92) by lia. by destruct Hq as [-> | ->]. }
  destruct (Z.eqb_spec c 8) as [->|_]; [done|]. destruct (Z.eqb_spec c 12) as [->|_]; [done|].
  destruct (Z.eqb_spec c 10) as [->|_]; [done|]. destruct (Z.eqb_spec c 13) as [->|_]; [done|].
  destruct (Z.eqb_spec c 9) as [->|_]; [done|].
  change 15 with (Z.ones 4). rewrite Z.land_ones, Z.shiftr_div_pow2 by lia. change (2 ^ 4) with 16.
  pose proof (Z.mod_pos_bound c 16 ltac:(lia)). pose proof (Z.div_mod c 16 ltac:(lia)).
  change 48 with (hex_digit 0). rewrite unescape_hex by lia.
  replace (((0 * 16 + 0) * 16 + c / 16) * 16 + c mod 16) with c by lia.
  by rewrite utf8_encode_ascii by lia.
Qed.

Definition utf8_valid (s : gostring) : bool := forallb (fun p => negb (undecodable p)) (chunks s).

Lemma unescape_chunk p rest :
  undecodable p = false ->
  p.2 = utf8_encode p.1 /\ (0x80 <= p.1 -> Forall (fun b => 0x80 <= b) p.2) /\ (p.1 < 0x80 -> 0 <= p.1 /\ p.2 = [p.1]) ->
  json_unescape (json_chunk p ++ rest) = p.2 ++ json_unescape rest.
Proof.
  destruct p as [r b]. intros Hu (Henc & Hh & Ha). cbn [fst snd] in *. unfold json_chunk.
  destruct (Z.ltb_spec r 0x80) as [Hr|Hr].
  - destruct (Ha Hr) as [Hr0 ->]. by apply unescape_ascii.
  - rewrite Hu. destruct ((r =? 0x2028) || (r =? 0x2029)) eqn:El.
    + assert (Hl : r = 0x2028 \/ r = 0x2029) by lia. rewrite Henc. by destruct Hl as [-> | ->].
    + apply unescape_plain. eapply Forall_impl; [by apply Hh|]. intros x Hx. unfold backslash. cbn in Hx. lia.
Qed.

Lemma json_unescape_body s : Forall byte s -> utf8_valid s = true -> json_unescape (json_body s) = s.
Proof.
  intros Hb Hv. unfold json_body. rewrite <- (glue_chunks s) at 2. pose proof (chunks_valid s Hb) as Hc.
  unfold utf8_valid in Hv. induction (chunks s) as [|p l IH]; [done|].
  apply Forall_cons in Hc as [Hp Hc]. simpl in Hv. apply andb_true_iff in Hv as [Hu Hv]. apply negb_true_iff in Hu.
  rewrite !fmap_cons. cbn [concat]. rewrite unescape_chunk by auto. by rewrite IH.
Qed.

(** The rendering of UTF-8 text determines it. *)
Lemma json_body_inj s t :
  Forall byte s -> Forall byte t -> utf8_valid s = true -> utf8_valid t = true -> json_body s = json_body t -> s = t.
Proof. intros Hs Ht Vs Vt Heq. rewrite <- (json_unescape_body s), <- (json_unescape_body t) by done. by rewrite Heq. Qed.

(** Integers: digits and a sign, so a number too ends where it ends. *)
Lemma json_int_inj m n : json_int m = json_int n -> m = n.
Proof.
  assert (Hd : forall k, 0 <= k -> dec_value (format_uint k) = k /\ Forall digit (format_uint k)).
  { intros k Hk. destruct (format_uint_spec k Hk) as [Hc Hv]. split; [done|]. apply Hc. }
  unfold json_int. destruct (Z.ltb_spec m 0), (Z.ltb_spec n 0); intros Heq.
  - injection Heq as Heq. destruct (Hd (- m) ltac:(lia)) as [Em _], (Hd (- n) ltac:(lia)) as [En _]. rewrite Heq in Em. lia.
  - destruct (Hd n ltac:(lia)) as [_ Hn]. rewrite <- Heq in Hn. apply Forall_cons in Hn as [Hx _]. unfold digit in Hx. change (ch "-") with 45 in Hx. lia.
  - destruct (Hd m ltac:(lia)) as [_ Hm]. rewrite Heq in Hm. apply Forall_cons in Hm as [Hx _]. unfold digit in Hx. change (ch "-") with 45 in Hx. lia.
  - destruct (Hd m ltac:(lia)) as [Em _], (Hd n ltac:(lia)) as [En _]. rewrite Heq in Em. lia.
Qed.

(** ** Objects with the same names *)

(** Two values that the same rendering may have. *)
Definition json_same (v w : json_value) : Prop :=
  match v, w with
  | JString s, JString t => json_body s = json_body t
  | JInt m, JInt n => m = n
  | _, _ => False
  end.

Definition same_kind (v w : json_value) : Prop :=
  match v, w with
  | JString s, JString t => Forall byte s /\ Forall byte t
  | JInt _, JInt _ => True
  | _, _ => False
  end.

Lemma span_unique (P : Z -> Prop) l1 l2 c d x y :
  Forall P l1 -> Forall P l2 -> ~ P c -> ~ P d -> l1 ++ c :: x = l2 ++ d :: y -> l1 = l2 /\ c :: x = d :: y.
Proof.
  intros H1. revert l2. induction H1 as [|a l1 Ha _ IH]; intros l2 H2 Hc Hd Heq.
  - destruct l2 as [|b l2]; [done|]. injection Heq as -> _. by apply Forall_cons in H2 as [H2 _].
  - destruct l2 as [|b l2]; [injection Heq as -> _; done|]. injection Heq as -> Heq.
    apply Forall_cons in H2 as [_ H2]. destruct (IH l2 H2 Hc Hd Heq) as [-> ?]. done.
Qed.

Definition int_byte (c : Z) : Prop := digit c \/ c = ch "-".

Lemma json_int_bytes n : Forall int_byte (json_int n).
Proof.
  assert (Hd : forall k, 0 <= k -> Forall int_byte (format_uint k)).
  { intros k Hk. destruct (format_uint_spec k Hk) as [[Hk' _] _]. eapply Forall_impl; [exact Hk'|]. by left. }
  unfold json_int. destruct (Z.ltb_spec n 0); [constructor; [by right|]|]; apply Hd; lia.
Qed.

(** A value followed by a comma or a brace. *)
Lemma json_render_prefix v w c d x y :
  same_kind v w -> ~ int_byte c -> ~ int_byte d -> json_render v ++ c :: x = json_render w ++ d :: y ->
  json_same v w /\ c :: x = d :: y.
Proof.
  destruct v as [s|m], w as [t|n]; try done; simpl; intros Hk Hc Hd Heq.
  - destruct Hk. by apply json_string_prefix.
  - apply (span_unique int_byte) in Heq as [Hi Hr]; [|apply json_int_bytes..|done|done].
    split; [by apply json_int_inj | done].
Qed.

Lemma json_members_inj m m' x y :
  m.*1 = m'.*1 -> Forall2 same_kind m.*2 m'.*2 ->
  json_members m ++ ch "}" :: x = json_members m' ++ ch "}" :: y -> Forall2 json_same m.*2 m'.*2.
Proof.
  revert m'. induction m as [|[name v] m IH]; intros [|[name' w] m'] Hn Hk Heq; try done.
  rewrite !fmap_cons in *. cbn [fst snd] in *. injection Hn as <- Hn. apply Forall2_cons in Hk as [Hvw Hk].
  cbn [json_members] in Heq. rewrite <- !app_assoc in Heq. apply app_inv_head in Heq. cbn [app] in Heq.
  injection Heq as Heq. rewrite <- !app_assoc in Heq.
  assert (Hbrace : ~ int_byte (ch "}")) by (intros [Hd|Hd]; [unfold digit in Hd; change (ch "}") with 125 in Hd; lia | done]).
  assert (Hcomma : ~ int_byte (ch ",")) by (intros [Hd|Hd]; [unfold digit in Hd; change (ch ",") with 44 in Hd; lia | done]).
  destruct m as [|[name2 v2] m], m' as [|[name2' w2] m']; try done; cbn [app] in Heq.
  - apply json_render_prefix in Heq as [Hs _]; [|done..]. by constructor.
  - apply json_render_prefix in Heq as [Hs Heq]; [|done..]. constructor; [done|].
    exact (IH _ Hn Hk (f_equal (@tail Z) Heq)).
Qed.

(** The rendering of an object determines the rendering of its values. *)
Lemma json_object_inj m m' :
  m.*1 = m'.*1 -> Forall2 same_kind m.*2 m'.*2 -> json_object m = json_object m' -> Forall2 json_same m.*2 m'.*2.
Proof. intros Hn Hk Heq. injection Heq as Heq. by apply (json_members_inj m m' [] []). Qed.

Example json_object_example :
  json_object [(bs "name", JString (bs "a<b" ++ [34; 10; 0xFF])); (bs "size", JInt (-12))]
  = [123; 34] ++ bs "name" ++ [34; 58; 34] ++ bs "a\u003cb\" ++ [34] ++ bs "\n\ufffd" ++ [34; 44; 34] ++ bs "size" ++ [34; 58]
    ++ bs "-12}".
Proof. vm_compute. reflexivity. Qed.
