(* ===== verification/AuditChain.v ===== *)
(** * The audit hash chain (internal/audit/chain.go, AuditLog of internal/db/models.go)

    Every audit row carries the hash of its content and of its predecessor's hash.
    [AppendAuditRows] links new rows to the head of the table and retries when a
    concurrent writer moved it; [VerifyChain] walks the table and recomputes the
    chain.  The database is a parameter: what a query finds, what an insert answers,
    how the rows are cut into batches. *)

From S2P Require Export Json Sha256 RuleStore.

Definition ChainHashVersion : gostring := bs "depsilo/audit-chain/v1".

(** An instant, as its UTC calendar fields. *)
Record instant := {
  i_year : Z; i_month : Z; i_day : Z;
  i_hour : Z; i_minute : Z; i_second : Z; i_nano : Z;
}.

Record AuditLog := {
  al_ID : Z;
  al_Ecosystem : gostring;
  al_PackageName : gostring;
  al_Version : gostring;
  al_Action : gostring;
  al_CacheResult : gostring;
  al_ClientIP : gostring;
  al_UserAgent : gostring;
  al_UpstreamURL : gostring;
  al_LatencyMs : Z;
  al_BytesSent : Z;
  al_StatusCode : Z;
  al_CreatedAt : instant;
  al_RequestID : gostring;
  al_PrevHash : option gostring;
  al_Hash : gostring;
}.

(** ** The payload *)

(** [w] decimal digits, leading zeros included. *)
Fixpoint fixed_digits (w : nat) (n : Z) : gostring :=
  match w with
  | O => []
  | S w => 48 + (n / 10 ^ Z.of_nat w) mod 10 :: fixed_digits w n
  end.

Definition format_year (y : Z) : gostring :=
  (if y <? 0 then [ch "-"] else []) ++ (if Z.abs y <=? 9999 then fixed_digits 4 (Z.abs y) else format_uint (Z.abs y)).

Definition format_fraction (nano : Z) : gostring :=
  if nano =? 0 then [] else ch "." :: rev (trim_left_zeros (rev (fixed_digits 9 nano))).

(** [CreatedAt.UTC().Format(time.RFC3339Nano)] *)
Definition rfc3339_nano (t : instant) : gostring :=
  format_year (i_year t) ++ ch "-" :: fixed_digits 2 (i_month t) ++ ch "-" :: fixed_digits 2 (i_day t)
  ++ ch "T" :: fixed_digits 2 (i_hour t) ++ ch ":" :: fixed_digits 2 (i_minute t)
  ++ ch ":" :: fixed_digits 2 (i_second t) ++ format_fraction (i_nano t) ++ [ch "Z"].

(** [chainPayload] with the names of its JSON tags. *)
Definition chainPayload (prevHash : gostring) (row : AuditLog) : list (gostring * json_value) :=
  [(bs "hash_version", JString ChainHashVersion); (bs "prev_hash", JString prevHash);
   (bs "ecosystem", JString (al_Ecosystem row)); (bs "package_name", JString (al_PackageName row));
   (bs "version", JString (al_Version row)); (bs "action", JString (al_Action row));
   (bs "cache_result", JString (al_CacheResult row)); (bs "client_ip", JString (al_ClientIP row));
   (bs "user_agent", JString (al_UserAgent row)); (bs "upstream_url", JString (al_UpstreamURL row));
   (bs "latency_ms", JInt (al_LatencyMs row)); (bs "bytes_sent", JInt (al_BytesSent row));
   (bs "status_code", JInt (al_StatusCode row)); (bs "created_at", JString (rfc3339_nano (al_CreatedAt row)));
   (bs "request_id", JString (al_RequestID row))].

(** The bytes that are hashed. *)
Definition chain_message (prevHash : gostring) (row : AuditLog) : gostring := json_object (chainPayload prevHash row).

Definition ComputeAuditHash (prevHash : gostring) (row : AuditLog) : gostring :=
  hex_encode (sha256 (chain_message prevHash row)).

(** ** Appending *)

Definition with_link (row : AuditLog) (prev : option gostring) (hash : gostring) : AuditLog :=
  {| al_ID := al_ID row; al_Ecosystem := al_Ecosystem row; al_PackageName := al_PackageName row;
     al_Version := al_Version row; al_Action := al_Action row; al_CacheResult := al_CacheResult row;
     al_ClientIP := al_ClientIP row; al_UserAgent := al_UserAgent row; al_UpstreamURL := al_UpstreamURL row;
     al_LatencyMs := al_LatencyMs row; al_BytesSent := al_BytesSent row; al_StatusCode := al_StatusCode row;
     al_CreatedAt := al_CreatedAt row; al_RequestID := al_RequestID row; al_PrevHash := prev; al_Hash := hash |}.

(** The loop over [pending]. *)
Fixpoint link_rows (prev : gostring) (pending : list AuditLog) : list AuditLog :=
  match pending with
  | [] => []
  | row :: pending =>
    let hash := ComputeAuditHash prev row in
    with_link row (Some prev) hash :: link_rows hash pending
  end.

(** [Limit(1).Find] leaves the zero row when the table is empty. *)
Definition chainHead (found : result (option AuditLog)) : result gostring :=
  match found with
  | Err e => Err (Errorf "read audit chain head: %w" [e])
  | Ok None => Ok []
  | Ok (Some head) => Ok (if al_ID head =? 0 then [] else al_Hash head)
  end.

(** What one transaction meets: the row the head query finds, and the answer to the
    insert and the commit. *)
Record transaction := {
  tx_head : result (option AuditLog);
  tx_create : list AuditLog -> option error;
}.

Definition append_attempt (tx : transaction) (rows : list AuditLog) : result (list AuditLog) :=
  prev ← chainHead (tx_head tx);
  let pending := link_rows prev rows in
  match tx_create tx pending with
  | Some e => Err e
  | None => Ok pending
  end.

(** The text of an error in lower case. *)
Class ErrorText := { error_text_lower : error -> gostring }.

Section append.
Context `{DriverErrors} `{ErrorText}.

Definition isChainAppendConflict (err : error) : bool :=
  match sqlite_code err with
  | Some code => Z.land code 0xFF =? 5
  | None => false
  end || (contains (error_text_lower err) (bs "unique") && contains (error_text_lower err) (bs "prev_hash")).

(** Attempts [attempt], [attempt + 1], ... of the loop, [fuel] of them at most. *)
Fixpoint append_loop (fuel : nat) (attempt : nat) (database : nat -> transaction) (rows : list AuditLog) (lastErr : error)
    : result (list AuditLog) :=
  match fuel with
  | O => Err (Errorf "append audit rows after chain retries: %w" [lastErr])
  | S fuel =>
    match append_attempt (database attempt) rows with
    | Ok pending => Ok pending
    | Err err => if isChainAppendConflict err then append_loop fuel (S attempt) database rows err else Err err
    end
  end.

(** The rows it inserted; a nil database or no rows insert nothing. *)
Definition AppendAuditRows (database : option (nat -> transaction)) (rows : list AuditLog) : result (list AuditLog) :=
  match database, rows with
  | None, _ | _, [] => Ok []
  | Some database, _ => append_loop 4 0 database rows (Sentinel "no attempt")
  end.

End append.

(** ** Verification *)

Record ChainReport := {
  cr_OK : bool;
  cr_RowsScanned : Z;
  cr_ChainedRows : Z;
  cr_UnchainedRows : Z;
  cr_FirstChainedID : Z;
  cr_HeadID : Z;
  cr_HeadHash : gostring;
  cr_BrokenAtID : Z;
  cr_Reason : gostring;
}.

(** The variables of the walk. *)
Record walk := {
  wk_report : ChainReport;
  wk_prev : gostring;
  wk_started : bool;
}.

Definition initial_report : ChainReport :=
  {| cr_OK := true; cr_RowsScanned := 0; cr_ChainedRows := 0; cr_UnchainedRows := 0; cr_FirstChainedID := 0;
     cr_HeadID := 0; cr_HeadHash := []; cr_BrokenAtID := 0; cr_Reason := [] |}.

Definition initial_walk : walk := {| wk_report := initial_report; wk_prev := []; wk_started := false |}.

Definition broken_at (r : ChainReport) (id : Z) (reason : gostring) : ChainReport :=
  {| cr_OK := false; cr_RowsScanned := cr_RowsScanned r; cr_ChainedRows := cr_ChainedRows r;
     cr_UnchainedRows := cr_UnchainedRows r; cr_FirstChainedID := cr_FirstChainedID r; cr_HeadID := cr_HeadID r;
     cr_HeadHash := cr_HeadHash r; cr_BrokenAtID := id; cr_Reason := reason |}.

(** One row; [inl] is the early return from the batch. *)
Definition verify_row (w : walk) (row : AuditLog) : walk + walk :=
  let r := wk_report w in
  if negb (cr_BrokenAtID r =? 0) then inl w else
  let r := {| cr_OK := cr_OK r; cr_RowsScanned := cr_RowsScanned r + 1; cr_ChainedRows := cr_ChainedRows r;
              cr_UnchainedRows := cr_UnchainedRows r; cr_FirstChainedID := cr_FirstChainedID r;
              cr_HeadID := cr_HeadID r; cr_HeadHash := cr_HeadHash r; cr_BrokenAtID := cr_BrokenAtID r;
              cr_Reason := cr_Reason r |} in
  let stop started r reason := inl {| wk_report := broken_at r (al_ID row) reason; wk_prev := wk_prev w; wk_started := started |} in
  if str_eqb (al_Hash row) [] then
    if wk_started w then stop (wk_started w) r (bs "row is not chained after the chain started") else
    inr {| wk_report := {| cr_OK := cr_OK r; cr_RowsScanned := cr_RowsScanned r; cr_ChainedRows := cr_ChainedRows r;
             cr_UnchainedRows := cr_UnchainedRows r + 1; cr_FirstChainedID := cr_FirstChainedID r;
             cr_HeadID := cr_HeadID r; cr_HeadHash := cr_HeadHash r; cr_BrokenAtID := cr_BrokenAtID r;
             cr_Reason := cr_Reason r |};
           wk_prev := wk_prev w; wk_started := wk_started w |}
  else
    let r := {| cr_OK := cr_OK r; cr_RowsScanned := cr_RowsScanned r; cr_ChainedRows := cr_ChainedRows r;
                cr_UnchainedRows := cr_UnchainedRows r;
                cr_FirstChainedID := if wk_started w then cr_FirstChainedID r else al_ID row;
                cr_HeadID := cr_HeadID r; cr_HeadHash := cr_HeadHash r; cr_BrokenAtID := cr_BrokenAtID r;
                cr_Reason := cr_Reason r |} in
    let rowPrev := default [] (al_PrevHash row) in
    if negb (str_eqb rowPrev (wk_prev w)) then stop true r (bs "prev_hash does not link to the previous row") else
    if negb (str_eqb (ComputeAuditHash (wk_prev w) row) (al_Hash row))
    then stop true r (bs "hash does not match the row content") else
    inr {| wk_report := {| cr_OK := cr_OK r; cr_RowsScanned := cr_RowsScanned r; cr_ChainedRows := cr_ChainedRows r + 1;
             cr_UnchainedRows := cr_UnchainedRows r; cr_FirstChainedID := cr_FirstChainedID r;
             cr_HeadID := al_ID row; cr_HeadHash := al_Hash row; cr_BrokenAtID := cr_BrokenAtID r;
             cr_Reason := cr_Reason r |};
           wk_prev := al_Hash row; wk_started := true |}.

(** The callback of one batch. *)
Fixpoint verify_batch (w : walk) (batch : list AuditLog) : walk :=
  match batch with
  | [] => w
  | row :: batch =>
    match verify_row w row with
    | inl w => w
    | inr w => verify_batch w batch
    end
  end.

(** [FindInBatches] of the mapper: for a batch size, the batches it hands to the
    callback and the error it ends with. *)
Definition VerifyChain (database : option (Z -> list (list AuditLog) * option error)) (batchSize : Z)
    : ChainReport * option error :=
  match database with
  | None => (initial_report, Some (Sentinel "verify audit chain: nil database"))
  | Some find_in_batches =>
    let '(batches, err) := find_in_batches (if batchSize <=? 0 then 1000 else batchSize) in
    let w := fold_left verify_batch batches initial_walk in
    (wk_report w, option_map (fun e => Errorf "scan audit chain: %w" [e]) err)
  end.
