(* ===== verification/AuditChainTheory.v ===== *)
(** * Theory of the audit hash chain (AuditChain.v)

    What [VerifyChain] accepts, why concurrent appenders cannot fork the chain, and
    what the hash of the head says about the rows behind it. *)

From S2P Require Export AuditChain.

(** ** Intact tables *)

(** The rows behind the unchained ones. *)
Fixpoint drop_unchained (rows : list AuditLog) : list AuditLog :=
  match rows with
  | [] => []
  | row :: rows' => if str_eqb (al_Hash row) [] then drop_unchained rows' else rows
  end.

Definition linked (prev : gostring) (row : AuditLog) : Prop :=
  al_Hash row <> [] /\ default [] (al_PrevHash row) = prev /\ ComputeAuditHash prev row = al_Hash row.

Fixpoint chained (prev : gostring) (rows : list AuditLog) : Prop :=
  match rows with
  | [] => True
  | row :: rows => linked prev row /\ chained (al_Hash row) rows
  end.

(** An unchained prefix, and then every row linked to the one before it. *)
Definition intact (rows : list AuditLog) : Prop := chained [] (drop_unchained rows).

(** The hash at the end of a chain that starts from [prev]. *)
Fixpoint chain_head (prev : gostring) (rows : list AuditLog) : gostring :=
  match rows with
  | [] => prev
  | row :: rows => chain_head (al_Hash row) rows
  end.

Lemma drop_unchained_app rows rows' :
  drop_unchained (rows ++ rows')
  = match drop_unchained rows with [] => drop_unchained rows' | l => l ++ rows' end.
Proof.
  induction rows as [|row rows IH]; [done|]. simpl. destruct (str_eqb (al_Hash row) []); [apply IH | done].
Qed.

Lemma chained_app prev rows rows' :
  chained prev (rows ++ rows') <-> chained prev rows /\ chained (chain_head prev rows) rows'.
Proof. revert prev. induction rows as [|row rows IH]; intros prev; simpl; [tauto|]. rewrite IH. tauto. Qed.

Lemma chain_head_app prev rows rows' : chain_head prev (rows ++ rows') = chain_head (chain_head prev rows) rows'.
Proof. revert prev. induction rows as [|row rows IH]; intros prev; [done|]. apply IH. Qed.

Lemma drop_unchained_chained prev rows : chained prev rows -> drop_unchained rows = rows.
Proof.
  destruct rows as [|row rows]; [done|]. intros [(Hne & _ & _) _]. simpl. by rewrite (proj2 (str_eqb_neq _ _)).
Qed.

(** An intact table that grows by linked rows stays intact. *)
Lemma intact_app rows rows' :
  intact (rows ++ rows') <->
  intact rows /\ match drop_unchained rows with
                 | [] => intact rows'
                 | l => chained (chain_head [] l) rows'
                 end.
Proof.
  unfold intact. rewrite drop_unchained_app. destruct (drop_unchained rows) as [|row l].
  - simpl. tauto.
  - by rewrite chained_app.
Qed.

(** ** The walk of [VerifyChain] *)

Record walk_ok (rows : list AuditLog) (w : walk) : Prop := {
  wo_intact : intact rows;
  wo_prev : wk_prev w = chain_head [] (drop_unchained rows);
  wo_started : wk_started w = negb (match drop_unchained rows with [] => true | _ => false end);
  wo_ok : cr_OK (wk_report w) = true;
  wo_broken : cr_BrokenAtID (wk_report w) = 0;
  wo_scanned : cr_RowsScanned (wk_report w) = Z.of_nat (length rows);
  wo_chained : cr_ChainedRows (wk_report w) = Z.of_nat (length (drop_unchained rows));
  wo_counts : cr_RowsScanned (wk_report w) = cr_ChainedRows (wk_report w) + cr_UnchainedRows (wk_report w);
  wo_head : cr_HeadHash (wk_report w) = chain_head [] (drop_unchained rows);
}.

(** The first row that breaks the chain is the one the report names. *)
Definition walk_broken (rows : list AuditLog) (w : walk) : Prop :=
  cr_OK (wk_report w) = false /\ cr_BrokenAtID (wk_report w) <> 0 /\
  exists before row after, rows = before ++ row :: after /\ cr_BrokenAtID (wk_report w) = al_ID row
    /\ intact before /\ ~ intact (before ++ [row]).

Lemma intact_snoc rows row :
  intact (rows ++ [row]) <->
  intact rows /\ (if str_eqb (al_Hash row) [] then drop_unchained rows = [] else linked (chain_head [] (drop_unchained rows)) row).
Proof.
  rewrite intact_app. destruct (drop_unchained rows) as [|r l] eqn:E.
  - unfold intact at 2. simpl. destruct (str_eqb_eq (al_Hash row) []) as [He Hn].
    destruct (str_eqb (al_Hash row) []) eqn:Eh; simpl; tauto.
  - destruct (str_eqb (al_Hash row) []) eqn:Eh; [|simpl; tauto].
    apply str_eqb_eq in Eh. split; [|by intros [_ ?]]. intros [_ [(Hne & _ & _) _]]. done.
Qed.

Lemma chain_head_snoc p rows row : chain_head p (rows ++ [row]) = al_Hash row.
Proof. by rewrite chain_head_app. Qed.

Lemma verify_row_step rows w row :
  walk_ok rows w -> al_ID row <> 0 ->
  match verify_row w row with
  | inr w' => walk_ok (rows ++ [row]) w'
  | inl w' => walk_broken (rows ++ [row]) w'
  end.
Proof.
  intros [Hint Hprev Hstart Hok Hbr Hsc Hch Hco Hhd] Hid.
  assert (Hbroken : ~ intact (rows ++ [row]) -> forall w', cr_OK (wk_report w') = false ->
            cr_BrokenAtID (wk_report w') = al_ID row -> walk_broken (rows ++ [row]) w').
  { intros Hn w' H1 H2. split_and!; [done | congruence|]. by exists rows, row, []. }
  unfold verify_row. rewrite Hbr. cbn [Z.eqb negb]. destruct (str_eqb (al_Hash row) []) eqn:Eh.
  - destruct (wk_started w) eqn:Es.
    + apply Hbroken; [|done|done]. rewrite intact_snoc, Eh. intros [_ Hd]. by rewrite Hd in Hstart.
    + assert (Hd : drop_unchained rows = []) by by destruct (drop_unchained rows).
      split; cbn [wk_report wk_prev wk_started cr_OK cr_BrokenAtID cr_RowsScanned cr_ChainedRows cr_UnchainedRows cr_HeadHash];
        rewrite ?drop_unchained_app, ?Hd; simpl; rewrite ?Eh, ?Hd in *; try done.
      * rewrite intact_snoc, Eh. done.
      * rewrite length_app. simpl. lia.
      * lia.
  - assert (Hd : drop_unchained (rows ++ [row]) = drop_unchained rows ++ [row]).
    { rewrite drop_unchained_app. destruct (drop_unchained rows); [simpl; by rewrite Eh | done]. }
    destruct (str_eqb (default [] (al_PrevHash row)) (wk_prev w)) eqn:Ep; cbn [negb].
    2: { apply Hbroken; [|done|done]. rewrite intact_snoc, Eh, <- Hprev. apply str_eqb_neq in Ep.
         by intros [_ (_ & ? & _)]. }
    destruct (str_eqb (ComputeAuditHash (wk_prev w) row) (al_Hash row)) eqn:Ec; cbn [negb].
    2: { apply Hbroken; [|done|done]. rewrite intact_snoc, Eh, <- Hprev. apply str_eqb_neq in Ec.
         by intros [_ (_ & _ & ?)]. }
    apply str_eqb_eq in Ep, Ec. apply str_eqb_neq in Eh.
    split; cbn [wk_report wk_prev wk_started cr_OK cr_BrokenAtID cr_RowsScanned cr_ChainedRows cr_UnchainedRows cr_HeadHash];
      rewrite ?Hd, ?chain_head_snoc; try done.
    + rewrite intact_snoc, (proj2 (str_eqb_neq _ _) Eh), <- Hprev. by split_and!.
    + by destruct (drop_unchained rows).
    + rewrite length_app. simpl. lia.
    + rewrite length_app. simpl. lia.
    + lia.
Qed.

Lemma verify_batch_broken rows w batch : walk_broken rows w -> verify_batch w batch = w.
Proof.
  intros (_ & Hne & _). destruct batch as [|row batch]; [done|]. simpl. unfold verify_row.
  by rewrite (proj2 (Z.eqb_neq _ 0) Hne).
Qed.

Lemma walk_broken_app rows rows' w : walk_broken rows w -> walk_broken (rows ++ rows') w.
Proof.
  intros (Ho & Hne & before & row & after & -> & Hid & Hb & Hn). split_and!; [done..|].
  exists before, row, (after ++ rows'). by rewrite <- app_assoc.
Qed.

Lemma verify_batch_ok rows w batch :
  walk_ok rows w -> Forall (fun row => al_ID row <> 0) batch ->
  walk_ok (rows ++ batch) (verify_batch w batch) \/ walk_broken (rows ++ batch) (verify_batch w batch).
Proof.
  intros Hw Hids. revert rows w Hw. induction Hids as [|row batch Hid _ IH]; intros rows w Hw.
  - rewrite app_nil_r. by left.
  - simpl. pose proof (verify_row_step rows w row Hw Hid) as Hstep.
    replace (rows ++ row :: batch) with ((rows ++ [row]) ++ batch) by by rewrite <- app_assoc.
    destruct (verify_row w row) as [w'|w']; [|by apply IH]. right. by apply walk_broken_app.
Qed.

Lemma verify_batches_ok batches rows w :
  walk_ok rows w \/ walk_broken rows w -> Forall (fun row => al_ID row <> 0) (concat batches) ->
  walk_ok (rows ++ concat batches) (fold_left verify_batch batches w)
  \/ walk_broken (rows ++ concat batches) (fold_left verify_batch batches w).
Proof.
  revert rows w. induction batches as [|batch batches IH]; intros rows w Hw Hids; simpl in *.
  - by rewrite app_nil_r.
  - apply Forall_app in Hids as [Hb Hids]. rewrite app_assoc. apply IH; [|done].
    destruct Hw as [Hw|Hw]; [by apply verify_batch_ok|]. rewrite (verify_batch_broken _ _ _ Hw).
    right. by apply walk_broken_app.
Qed.

Lemma initial_walk_ok : walk_ok [] initial_walk.
Proof. by split. Qed.

Lemma broken_not_intact rows w : walk_broken rows w -> ~ intact rows.
Proof.
  intros (_ & _ & before & row & after & -> & _ & _ & Hn). replace (before ++ row :: after) with ((before ++ [row]) ++ after)
    by by rewrite <- app_assoc. rewrite intact_app. tauto.
Qed.

(** ** Concurrent appenders *)

Lemma compute_hash_length prev row : length (ComputeAuditHash prev row) = 64%nat.
Proof. unfold ComputeAuditHash. rewrite hex_encode_length. by destruct (sha256_digest (chain_message prev row)) as [-> _]. Qed.

Lemma compute_hash_nonempty prev row : ComputeAuditHash prev row <> [].
Proof. intros H. pose proof (compute_hash_length prev row) as Hl. by rewrite H in Hl. Qed.

Definition with_id (id : Z) (row : AuditLog) : AuditLog :=
  {| al_ID := id; al_Ecosystem := al_Ecosystem row; al_PackageName := al_PackageName row;
     al_Version := al_Version row; al_Action := al_Action row; al_CacheResult := al_CacheResult row;
     al_ClientIP := al_ClientIP row; al_UserAgent := al_UserAgent row; al_UpstreamURL := al_UpstreamURL row;
     al_LatencyMs := al_LatencyMs row; al_BytesSent := al_BytesSent row; al_StatusCode := al_StatusCode row;
     al_CreatedAt := al_CreatedAt row; al_RequestID := al_RequestID row; al_PrevHash := al_PrevHash row;
     al_Hash := al_Hash row |}.

(** The keys an insert assigns. *)
Fixpoint assign_ids (next : Z) (rows : list AuditLog) : list AuditLog :=
  match rows with
  | [] => []
  | row :: rows => with_id next row :: assign_ids (next + 1) rows
  end.

Lemma chained_assign prev next rows : chained prev (assign_ids next rows) <-> chained prev rows.
Proof. revert prev next. induction rows as [|row rows IH]; intros prev next; simpl; [done|]. by rewrite IH. Qed.

Lemma chain_head_assign prev next rows : chain_head prev (assign_ids next rows) = chain_head prev rows.
Proof. revert prev next. induction rows as [|row rows IH]; intros prev next; simpl; [done|]. apply IH. Qed.

Lemma link_rows_chained prev rows : chained prev (link_rows prev rows).
Proof.
  revert prev. induction rows as [|row rows IH]; intros prev; simpl; [done|].
  split; [|apply IH]. split_and!; try done. apply compute_hash_nonempty.
Qed.

(** The table, the next key, and the rows that open transactions prepared. *)
Record audit_system := {
  as_rows : list AuditLog;
  as_next : Z;
  as_flight : list (list AuditLog);
}.

(** A transaction reads the head and links its rows; later it commits, provided the
    unique index on [prev_hash] has no conflict at that moment, or never. *)
Inductive audit_step : audit_system -> audit_system -> Prop :=
  | audit_begin s rows pending :
      rows <> [] ->
      append_attempt {| tx_head := Ok (last (as_rows s)); tx_create := fun _ => None |} rows = Ok pending ->
      audit_step s {| as_rows := as_rows s; as_next := as_next s; as_flight := pending :: as_flight s |}
  | audit_commit s pending :
      pending ∈ as_flight s ->
      (forall p h, p ∈ pending -> al_PrevHash p = Some h -> Some h ∉ al_PrevHash <$> as_rows s) ->
      audit_step s {| as_rows := as_rows s ++ assign_ids (as_next s) pending;
                      as_next := as_next s + Z.of_nat (length pending); as_flight := as_flight s |}.

(** It starts with the rows written before there was a chain. *)
Inductive audit_reachable : audit_system -> Prop :=
  | audit_init legacy next :
      Forall (fun row => al_Hash row = [] /\ 0 < al_ID row) legacy -> 0 < next ->
      audit_reachable {| as_rows := legacy; as_next := next; as_flight := [] |}
  | audit_more s s' : audit_reachable s -> audit_step s s' -> audit_reachable s'.

Record audit_inv (s : audit_system) : Prop := {
  ai_intact : intact (as_rows s);
  ai_ids : Forall (fun row => 0 < al_ID row) (as_rows s) /\ 0 < as_next s;
  ai_prev : Forall (fun row => is_Some (al_PrevHash row)) (drop_unchained (as_rows s));
  ai_flight pending : pending ∈ as_flight s ->
    exists k rows, rows <> [] /\ (k <= length (drop_unchained (as_rows s)))%nat
      /\ pending = link_rows (chain_head [] (take k (drop_unchained (as_rows s)))) rows;
}.

Lemma drop_unchained_legacy rows : Forall (fun row => al_Hash row = [] /\ 0 < al_ID row) rows -> drop_unchained rows = [].
Proof. induction 1 as [|row rows [Hr _] _ IH]; [done|]. simpl. by rewrite Hr. Qed.

Lemma head_query rows :
  Forall (fun row => 0 < al_ID row) rows -> chainHead (Ok (last rows)) = Ok (chain_head [] (drop_unchained rows)).
Proof.
  intros Hids. destruct rows as [|row rows _] using rev_ind; [done|]. rewrite last_snoc. simpl.
  apply Forall_app in Hids as [_ Hid]. apply Forall_cons in Hid as [Hid _].
  rewrite (proj2 (Z.eqb_neq (al_ID row) 0)) by lia. f_equal.
  rewrite drop_unchained_app. destruct (drop_unchained rows) as [|r l] eqn:E.
  - simpl. destruct (str_eqb (al_Hash row) []) eqn:Eh; [by apply str_eqb_eq in Eh | done].
  - by rewrite chain_head_snoc.
Qed.

Lemma assign_ids_facts next rows :
  0 < next -> Forall (fun row => 0 < al_ID row) (assign_ids next rows)
  /\ (Forall (fun row => is_Some (al_PrevHash row)) rows -> Forall (fun row => is_Some (al_PrevHash row)) (assign_ids next rows)).
Proof.
  revert next. induction rows as [|row rows IH]; intros next Hn; simpl; [done|].
  destruct (IH (next + 1) ltac:(lia)) as [Hi Hp]. split; [by constructor|].
  intros [Hr Hf]%Forall_cons. constructor; [done | by apply Hp].
Qed.

Lemma link_rows_prev prev rows : Forall (fun row => is_Some (al_PrevHash row)) (link_rows prev rows).
Proof. revert prev. induction rows as [|row rows IH]; intros prev; simpl; constructor; [by eexists | apply IH]. Qed.

Lemma chained_lookup prev rows k row :
  chained prev rows -> rows !! k = Some row -> linked (chain_head prev (take k rows)) row.
Proof.
  revert prev rows. induction k as [|k IH]; intros prev [|r rows]; simpl; try done.
  - intros [Hl _] [= <-]. done.
  - intros [_ Hc] Hk. by apply IH.
Qed.

Lemma take_app_chain (k : nat) (l l' : list AuditLog) : (k <= length l)%nat -> take k (l ++ l') = take k l.
Proof. intros Hk. by rewrite take_app_le. Qed.

Lemma audit_begin_inv s rows pending :
  audit_inv s -> rows <> [] ->
  append_attempt {| tx_head := Ok (last (as_rows s)); tx_create := fun _ => None |} rows = Ok pending ->
  audit_inv {| as_rows := as_rows s; as_next := as_next s; as_flight := pending :: as_flight s |}.
Proof.
  intros [Hi [Hids Hn] Hp Hf] Hne Ha. split; try done. simpl. intros p [->|Hin]%elem_of_cons; [|by apply Hf].
  unfold append_attempt in Ha. cbn [tx_head tx_create] in Ha. rewrite (head_query _ Hids) in Ha. simpl in Ha.
  injection Ha as <-. exists (length (drop_unchained (as_rows s))), rows. split; [done|]. split; [done|].
  by rewrite firstn_all.
Qed.

(** The unique index lets only rows behind the current head in. *)
Lemma commit_at_head s pending :
  audit_inv s -> pending ∈ as_flight s ->
  (forall p h, p ∈ pending -> al_PrevHash p = Some h -> Some h ∉ al_PrevHash <$> as_rows s) ->
  exists rows, rows <> [] /\ pending = link_rows (chain_head [] (drop_unchained (as_rows s))) rows.
Proof.
  intros [Hi [Hids Hn] Hp Hf] Hin Huniq. destruct (Hf pending Hin) as (k & rows & Hne & Hk & ->).
  exists rows. split; [done|]. destruct (decide (k = length (drop_unchained (as_rows s)))) as [->|Hlt]; [by rewrite firstn_all|].
  exfalso. destruct (lookup_lt_is_Some_2 (drop_unchained (as_rows s)) k) as [row Hrow]; [lia|].
  destruct (chained_lookup [] _ k row Hi Hrow) as (_ & Hprev & _).
  assert (Hs : al_PrevHash row = Some (chain_head [] (take k (drop_unchained (as_rows s))))).
  { rewrite Forall_forall in Hp. apply list_elem_of_lookup_2 in Hrow. destruct (Hp row Hrow) as [h Hh].
    rewrite Hh in Hprev. by rewrite Hh, <- Hprev. }
  destruct rows as [|r rows]; [done|].
  apply (Huniq (with_link r (Some (chain_head [] (take k (drop_unchained (as_rows s)))))
           (ComputeAuditHash (chain_head [] (take k (drop_unchained (as_rows s)))) r))
           (chain_head [] (take k (drop_unchained (as_rows s))))).
  - simpl. by left.
  - done.
  - apply list_elem_of_fmap. exists row. split; [done|]. apply list_elem_of_lookup_2 in Hrow.
    assert (Hsub : forall l, drop_unchained l ⊆ l).
    { intros l x. induction l as [|y l IH]; [done|]. simpl. case_match; [intros Hx; right; by apply IH | done]. }
    by apply Hsub.
Qed.

Lemma audit_commit_inv s pending :
  audit_inv s -> pending ∈ as_flight s ->
  (forall p h, p ∈ pending -> al_PrevHash p = Some h -> Some h ∉ al_PrevHash <$> as_rows s) ->
  audit_inv {| as_rows := as_rows s ++ assign_ids (as_next s) pending;
               as_next := as_next s + Z.of_nat (length pending); as_flight := as_flight s |}.
Proof.
  intros Hinv Hin Huniq. destruct (commit_at_head s pending Hinv Hin Huniq) as (rows & Hne & ->).
  destruct Hinv as [Hi [Hids Hn] Hp Hf]. set (head := chain_head [] (drop_unchained (as_rows s))) in *.
  set (new := assign_ids (as_next s) (link_rows head rows)).
  assert (Hnew : chained head new) by apply chained_assign, link_rows_chained.
  assert (Hdrop : drop_unchained (as_rows s ++ new) = drop_unchained (as_rows s) ++ new).
  { rewrite drop_unchained_app. destruct (drop_unchained (as_rows s)); [|done]. by apply (drop_unchained_chained head). }
  destruct (assign_ids_facts (as_next s) (link_rows head rows) Hn) as [Hnid Hnp].
  split; cbn [as_rows as_next as_flight]; fold new.
  - unfold intact. rewrite Hdrop. by apply chained_app.
  - split; [by apply Forall_app | lia].
  - rewrite Hdrop. apply Forall_app. split; [done|]. apply Hnp, link_rows_prev.
  - intros p Hpin. destruct (Hf p Hpin) as (k & rows' & Hne' & Hk & ->). exists k, rows'. rewrite Hdrop.
    split; [done|]. split; [rewrite length_app; lia|]. by rewrite take_app_chain.
Qed.

Lemma audit_reachable_inv s : audit_reachable s -> audit_inv s.
Proof.
  induction 1 as [legacy next Hl Hn|s s' _ IH Hstep].
  - pose proof (drop_unchained_legacy legacy Hl) as Hd. split; simpl.
    + unfold intact. by rewrite Hd.
    + split; [|done]. eapply Forall_impl; [exact Hl|]. by intros row [_ ?].
    + by rewrite Hd.
    + by intros p Hp%elem_of_nil.
  - destruct Hstep; [by eapply audit_begin_inv | by apply audit_commit_inv].
Qed.

(** ** The report *)

(** What a batched query hands over is the table, cut anywhere. *)
Definition scans (find : Z -> list (list AuditLog) * option error) (size : Z) (rows : list AuditLog) (err : option error) : Prop :=
  exists batches, find (if size <=? 0 then 1000 else size) = (batches, err) /\ concat batches = rows.

Lemma VerifyChain_walk find size rows err :
  scans find size rows err -> Forall (fun row => al_ID row <> 0) rows ->
  exists w, VerifyChain (Some find) size = (wk_report w, option_map (fun e => Errorf "scan audit chain: %w" [e]) err)
    /\ (walk_ok rows w \/ walk_broken rows w).
Proof.
  intros (batches & Hf & <-) Hids. unfold VerifyChain. rewrite Hf. eexists. split; [done|].
  apply (verify_batches_ok batches [] initial_walk); [left; apply initial_walk_ok | done].
Qed.

Lemma VerifyChain_intact find size rows err :
  scans find size rows err -> Forall (fun row => al_ID row <> 0) rows -> intact rows ->
  exists w, (VerifyChain (Some find) size).1 = wk_report w /\ walk_ok rows w.
Proof.
  intros Hs Hids Hi. destruct (VerifyChain_walk find size rows err Hs Hids) as (w & -> & [Hw|Hw]); [by exists w|].
  exfalso. exact (broken_not_intact rows w Hw Hi).
Qed.

Lemma VerifyChain_exact_head find size rows err :
  scans find size rows err -> Forall (fun row => al_ID row <> 0) rows -> cr_OK (VerifyChain (Some find) size).1 = true ->
  intact rows /\ cr_HeadHash (VerifyChain (Some find) size).1 = chain_head [] (drop_unchained rows).
Proof.
  intros Hs Hids. destruct (VerifyChain_walk find size rows err Hs Hids) as (w & -> & [Hw|Hw]); simpl.
  - intros _. split; apply Hw.
  - destruct Hw as (-> & _). done.
Qed.

(** C5: [VerifyChain] reports OK exactly when the table is an unchained prefix followed
    by rows each of which names the hash of the row before it and carries the hash of
    its own content; the counts and the head hash of an OK report are those of the
    table, and a report that is not OK names the first row up to which the table is
    not intact, however the scan is cut into batches. *)
Theorem verify_chain_exact find size rows err :
  scans find size rows err -> Forall (fun row => al_ID row <> 0) rows ->
  let report := (VerifyChain (Some find) size).1 in
  (cr_OK report = true <-> intact rows)
  /\ (cr_OK report = true ->
       cr_RowsScanned report = Z.of_nat (length rows)
       /\ cr_ChainedRows report = Z.of_nat (length (drop_unchained rows))
       /\ cr_RowsScanned report = cr_ChainedRows report + cr_UnchainedRows report
       /\ cr_HeadHash report = chain_head [] (drop_unchained rows) /\ cr_BrokenAtID report = 0)
  /\ (cr_OK report = false -> exists before row after, rows = before ++ row :: after
       /\ cr_BrokenAtID report = al_ID row /\ intact before /\ ~ intact (before ++ [row])).
Proof.
  intros Hs Hids report. destruct (VerifyChain_walk find size rows err Hs Hids) as (w & Hw & Hcase).
  assert (Hr : report = wk_report w) by (unfold report; by rewrite Hw). rewrite Hr. destruct Hcase as [Hok|Hbroken].
  - destruct Hok as [Hi Hp Hst Ho Hbr Hsc Hch Hco Hhd]. rewrite Ho. split_and!; done.
  - pose proof (broken_not_intact rows w Hbroken) as Hn. destruct Hbroken as (Ho & _ & Hb). rewrite Ho. split_and!; done.
Qed.

(** ** Samples *)

Definition sample_row (id : Z) (name : gostring) : AuditLog :=
  {| al_ID := id; al_Ecosystem := bs "npm"; al_PackageName := name; al_Version := bs "1.0.0"; al_Action := bs "download";
     al_CacheResult := bs "hit"; al_ClientIP := bs "10.0.0.1"; al_UserAgent := bs "npm/10"; al_UpstreamURL := [];
     al_LatencyMs := 12; al_BytesSent := 3456; al_StatusCode := 200;
     al_CreatedAt := {| i_year := 2026; i_month := 3; i_day := 4; i_hour := 5; i_minute := 6; i_second := 7; i_nano := 80000000 |};
     al_RequestID := bs "r-1"; al_PrevHash := None; al_Hash := [] |}.

Definition sample_table : list AuditLog :=
  sample_row 1 (bs "old") :: assign_ids 2 (link_rows [] [sample_row 0 (bs "lodash"); sample_row 0 (bs "left-pad")]).

#[local] Opaque sha256.

Lemma sample_links_chained : chained [] (assign_ids 2 (link_rows [] [sample_row 0 (bs "lodash"); sample_row 0 (bs "left-pad")])).
Proof. apply chained_assign, link_rows_chained. Qed.

Lemma sample_table_facts :
  intact sample_table /\ length (drop_unchained sample_table) = 2%nat /\ Forall (fun row => al_ID row <> 0) sample_table.
Proof.
  unfold intact, sample_table. pose proof sample_links_chained as Hc.
  cbn [drop_unchained sample_row al_Hash]. change (str_eqb [] []) with true. cbv iota.
  rewrite (drop_unchained_chained _ _ Hc). split; [done|]. split; [done|].
  constructor; [done|]. destruct (assign_ids_facts 2 (link_rows [] [sample_row 0 (bs "lodash"); sample_row 0 (bs "left-pad")]) ltac:(done)) as [Hp _].
  eapply Forall_impl; [exact Hp|]. simpl. lia.
Qed.

Lemma verify_chain_exact_witness :
  let find (size : Z) := ([take 2 sample_table; drop 2 sample_table], None) in
  cr_OK (VerifyChain (Some find) 0).1 = true /\ cr_ChainedRows (VerifyChain (Some find) 0).1 = 2.
Proof.
  intros find. destruct sample_table_facts as (Hi & Hl & Hid).
  destruct (verify_chain_exact find 0 sample_table None) as (Hok & Hc & _).
  - exists [take 2 sample_table; drop 2 sample_table]. split; [reflexivity|]. cbn [concat]. by rewrite app_nil_r, take_drop.
  - exact Hid.
  - apply Hok in Hi. split; [exact Hi|]. destruct (Hc Hi) as (_ & Hch & _). by rewrite Hch, Hl.
Defined.

(** C4: Concurrent appenders never fork the chain: whatever transactions open, read the
    head and commit in whatever order, as long as the unique index on [prev_hash]
    admits their rows, the table stays a single intact chain, [VerifyChain] reports OK
    on it, and the hash it reports as the head is the one the next append links to. *)
Theorem appends_never_fork s find size err :
  audit_reachable s -> scans find size (as_rows s) err ->
  intact (as_rows s)
  /\ cr_OK (VerifyChain (Some find) size).1 = true
  /\ chainHead (Ok (last (as_rows s))) = Ok (cr_HeadHash (VerifyChain (Some find) size).1).
Proof.
  intros Hr Hs. destruct (audit_reachable_inv s Hr) as [Hi [Hids Hn] _ _].
  assert (Hnz : Forall (fun row => al_ID row <> 0) (as_rows s)) by (eapply Forall_impl; [exact Hids|]; simpl; lia).
  destruct (VerifyChain_intact find size (as_rows s) err Hs Hnz Hi) as (w & -> & Hw).
  split; [done|]. split; [apply Hw|]. rewrite (head_query _ Hids). by rewrite (wo_head _ _ Hw).
Qed.

Lemma appends_never_fork_witness :
  let pending := link_rows [] [sample_row 0 (bs "lodash")] in
  let table := sample_row 1 (bs "old") :: assign_ids 2 pending in
  cr_OK (VerifyChain (Some (fun _ => ([table], None))) 10).1 = true.
Proof.
  intros pending table.
  apply (appends_never_fork {| as_rows := table; as_next := 2 + Z.of_nat (length pending); as_flight := [pending] |} _ 10 None).
  - eapply (audit_more {| as_rows := [sample_row 1 (bs "old")]; as_next := 2; as_flight := [pending] |}).
    + apply (audit_more {| as_rows := [sample_row 1 (bs "old")]; as_next := 2; as_flight := [] |}).
      * apply audit_init; [by repeat constructor | done].
      * by apply (audit_begin {| as_rows := [sample_row 1 (bs "old")]; as_next := 2; as_flight := [] |} [sample_row 0 (bs "lodash")]).
    + apply (audit_commit {| as_rows := [sample_row 1 (bs "old")]; as_next := 2; as_flight := [pending] |}); [by left|].
      intros p h Hp Hh Hin. simpl in Hin. apply elem_of_cons in Hin as [Hin|Hin]; [done | by apply elem_of_nil in Hin].
  - exists [table]. done.
Defined.

(** ** Retries *)

Section retries.
Context `{DriverErrors} `{ErrorText}.

Lemma append_loop_spec fuel attempt database rows lastErr :
  (exists k e, (k < fuel)%nat /\ append_attempt (database (attempt + k)%nat) rows = e
     /\ (forall j, (j < k)%nat -> exists c, append_attempt (database (attempt + j)%nat) rows = Err c /\ isChainAppendConflict c = true)
     /\ (forall c, e = Err c -> isChainAppendConflict c = false)
     /\ append_loop fuel attempt database rows lastErr = e)
  \/ ((forall j, (j < fuel)%nat -> exists c, append_attempt (database (attempt + j)%nat) rows = Err c /\ isChainAppendConflict c = true)
     /\ exists c, append_loop fuel attempt database rows lastErr = Err (Errorf "append audit rows after chain retries: %w" [c])).
Proof.
  revert attempt lastErr. induction fuel as [|fuel IH]; intros attempt lastErr.
  { right. split; [lia | by exists lastErr]. }
  cbn [append_loop]. destruct (append_attempt (database attempt) rows) as [pending|err] eqn:E.
  { left. exists 0%nat, (Ok pending). rewrite Nat.add_0_r. split; [lia|]. split; [done|]. split; [lia|]. done. }
  destruct (isChainAppendConflict err) eqn:Ec.
  2: { left. exists 0%nat, (Err err). rewrite Nat.add_0_r. split; [lia|]. split; [done|]. split; [lia|]. split; [|done]. by intros c [= <-]. }
  assert (Hstep : forall n : nat, (forall j, (j < n)%nat -> exists c, append_attempt (database (S attempt + j)%nat) rows = Err c /\ isChainAppendConflict c = true) ->
            forall j, (j < S n)%nat -> exists c, append_attempt (database (attempt + j)%nat) rows = Err c /\ isChainAppendConflict c = true).
  { intros n Hj [|j] Hlt; [rewrite Nat.add_0_r; by exists err|]. rewrite Nat.add_succ_r. apply (Hj j). lia. }
  destruct (IH (S attempt) err) as [(k & e & Hk & He & Hj & Hnc & Hl)|(Hj & Hl)].
  - left. exists (S k), e. rewrite Nat.add_succ_r. split; [lia|]. split; [done|]. split; [by apply Hstep | done].
  - right. split; [by apply Hstep | done].
Qed.

(** An append inserts rows linked to the head its transaction read; it makes at most
    four attempts, goes on only past conflicts, and an error that is not a conflict is
    the answer. *)
Lemma append_outcomes database rows :
  rows <> [] ->
  (exists k, (k < 4)%nat
     /\ (forall j, (j < k)%nat -> exists c, append_attempt (database j) rows = Err c /\ isChainAppendConflict c = true)
     /\ AppendAuditRows (Some database) rows = append_attempt (database k) rows
     /\ (forall c, append_attempt (database k) rows = Err c -> isChainAppendConflict c = false))
  \/ ((forall j, (j < 4)%nat -> exists c, append_attempt (database j) rows = Err c /\ isChainAppendConflict c = true)
     /\ exists c, AppendAuditRows (Some database) rows = Err (Errorf "append audit rows after chain retries: %w" [c])).
Proof.
  intros Hne. destruct rows as [|row rows]; [done|]. unfold AppendAuditRows.
  destruct (append_loop_spec 4 0 database (row :: rows) (Sentinel "no attempt")) as [(k & e & Hk & He & Hj & Hnc & Hl)|Hl].
  - left. exists k. simpl in *. subst e. done.
  - right. done.
Qed.

End retries.

(** * What the head of the audit chain says about the rows behind it

    The message that is hashed determines the previous hash and the content of the
    row.  Two verified chains that end in the same hash therefore have the same
    content, row by row, or exhibit two messages with the same SHA-256. *)

(** ** Timestamps *)

Lemma fixed_digits_digits w n : Forall digit (fixed_digits w n).
Proof.
  induction w as [|w IH]; constructor; [|exact IH]. unfold digit.
  pose proof (Z.mod_pos_bound (n / 10 ^ Z.of_nat w) 10 ltac:(lia)). lia.
Qed.

Lemma fixed_digits_length w n : length (fixed_digits w n) = w.
Proof. induction w; simpl; congruence. Qed.

Lemma fixed_digits_value w n : 0 <= n -> dec_value (fixed_digits w n) = n mod 10 ^ Z.of_nat w.
Proof.
  intros Hn. induction w as [|w IH]; [by rewrite Z.mod_1_r|].
  cbn [fixed_digits]. change (?x :: ?l) with ([x] ++ l). rewrite dec_value_app, dec_value_single, IH.
  unfold len. rewrite fixed_digits_length. replace (Z.of_nat (S w)) with (Z.of_nat w + 1) by lia.
  rewrite Z.pow_add_r by lia. pose proof (Z.pow_pos_nonneg 10 (Z.of_nat w) ltac:(lia) ltac:(lia)).
  change (10 ^ 1) with 10. rewrite (Z.rem_mul_r n) by lia. lia.
Qed.

Lemma fixed_digits_inj w m n :
  0 <= m < 10 ^ Z.of_nat w -> 0 <= n < 10 ^ Z.of_nat w -> fixed_digits w m = fixed_digits w n -> m = n.
Proof.
  intros Hm Hn Heq. pose proof (fixed_digits_value w m ltac:(lia)) as Em. pose proof (fixed_digits_value w n ltac:(lia)) as En.
  rewrite Z.mod_small in Em, En by done. congruence.
Qed.

(** The fields of an instant that a clock can show. *)
Definition instant_ok (t : instant) : Prop :=
  0 <= i_year t <= 9999 /\ 1 <= i_month t <= 12 /\ 1 <= i_day t <= 31 /\ 0 <= i_hour t < 24
  /\ 0 <= i_minute t < 60 /\ 0 <= i_second t < 60 /\ 0 <= i_nano t < 10 ^ 9.

Lemma trim_right_zeros s : exists n, s = rev (trim_left_zeros (rev s)) ++ replicate n 48.
Proof.
  destruct (trim_left_zeros_spec (rev s)) as [n Hn]. exists n. apply (f_equal (@rev Z)) in Hn.
  rewrite rev_involutive, rev_app_distr in Hn. rewrite Hn at 1. f_equal.
  rewrite rev_alt. apply (reverse_replicate n 48).
Qed.

(** Trailing zeros are all that the fraction drops. *)
Lemma trimmed_inj s t :
  length s = length t -> rev (trim_left_zeros (rev s)) = rev (trim_left_zeros (rev t)) -> s = t.
Proof.
  intros Hl Heq. destruct (trim_right_zeros s) as [n Hn], (trim_right_zeros t) as [m Hm].
  rewrite Hn, Hm in Hl |- *. rewrite Heq in Hl |- *. rewrite !length_app, !length_replicate in Hl.
  assert (n = m) as -> by lia. done.
Qed.

Lemma format_fraction_inj m n x y :
  0 <= m < 10 ^ 9 -> 0 <= n < 10 ^ 9 -> format_fraction m ++ ch "Z" :: x = format_fraction n ++ ch "Z" :: y -> m = n /\ x = y.
Proof.
  intros Hm Hn. unfold format_fraction. destruct (Z.eqb_spec m 0) as [->|Hm0], (Z.eqb_spec n 0) as [->|Hn0]; try done.
  - intros Heq. by injection Heq.
  - cbn [app]. intros Heq. assert (Ht := f_equal (@tail Z) Heq). cbn [tail] in Ht.
    assert (Hds : forall k, Forall digit (rev (trim_left_zeros (rev (fixed_digits 9 k))))).
    { intros k. apply Forall_rev. apply trim_left_zeros_digits. apply Forall_rev, fixed_digits_digits. }
    assert (Hz : ~ digit (ch "Z")) by (unfold digit; change (ch "Z") with 90; lia).
    apply (span_unique digit) in Ht as [Hf Ht]; [|apply Hds..|done|done]. split.
    + apply (fixed_digits_inj 9); [done..|]. apply trimmed_inj; [by rewrite !fixed_digits_length | done].
    + by apply (f_equal (@tail Z)) in Ht.
Qed.

Lemma app_fixed_inj w m n x y :
  0 <= m < 10 ^ Z.of_nat w -> 0 <= n < 10 ^ Z.of_nat w -> fixed_digits w m ++ x = fixed_digits w n ++ y -> m = n /\ x = y.
Proof.
  intros Hm Hn Heq. apply app_inj_1 in Heq as [Hf Hr]; [|by rewrite !fixed_digits_length].
  split; [by apply (fixed_digits_inj w) | done].
Qed.

Lemma rfc3339_nano_inj t t' : instant_ok t -> instant_ok t' -> rfc3339_nano t = rfc3339_nano t' -> t = t'.
Proof.
  intros (Hy & Hmo & Hd & Hh & Hmi & Hs & Hn) (Hy' & Hmo' & Hd' & Hh' & Hmi' & Hs' & Hn') Heq.
  unfold rfc3339_nano, format_year in Heq.
  rewrite (proj2 (Z.ltb_ge (i_year t) 0)), (proj2 (Z.ltb_ge (i_year t') 0)) in Heq by lia.
  rewrite !Z.abs_eq in Heq by lia.
  rewrite (proj2 (Z.leb_le (i_year t) 9999)), (proj2 (Z.leb_le (i_year t') 9999)) in Heq by lia. cbn [app] in Heq.
  apply app_fixed_inj in Heq as [Ey Heq]; [|simpl; lia..]. apply (f_equal (@tail Z)) in Heq. cbn [tail app] in Heq.
  apply app_fixed_inj in Heq as [Emo Heq]; [|simpl; lia..]. apply (f_equal (@tail Z)) in Heq. cbn [tail app] in Heq.
  apply app_fixed_inj in Heq as [Ed Heq]; [|simpl; lia..]. apply (f_equal (@tail Z)) in Heq. cbn [tail app] in Heq.
  apply app_fixed_inj in Heq as [Eh Heq]; [|simpl; lia..]. apply (f_equal (@tail Z)) in Heq. cbn [tail app] in Heq.
  apply app_fixed_inj in Heq as [Emi Heq]; [|simpl; lia..]. apply (f_equal (@tail Z)) in Heq. cbn [tail app] in Heq.
  apply app_fixed_inj in Heq as [Es Heq]; [|simpl; lia..].
  apply format_fraction_inj in Heq as [En _]; [|done..].
  destruct t, t'. simpl in *. congruence.
Qed.

(** ** The message of a row *)

(** Text that JSON renders without loss. *)
Definition text (s : gostring) : Prop := Forall byte s /\ utf8_valid s = true.

Definition row_texts (row : AuditLog) : list gostring :=
  [al_Ecosystem row; al_PackageName row; al_Version row; al_Action row; al_CacheResult row; al_ClientIP row;
   al_UserAgent row; al_UpstreamURL row; al_RequestID row].

Definition row_ok (row : AuditLog) : Prop := Forall text (row_texts row) /\ instant_ok (al_CreatedAt row).

(** Rows that agree on everything but their key and their links. *)
Definition same_content (r s : AuditLog) : Prop :=
  row_texts r = row_texts s /\ al_LatencyMs r = al_LatencyMs s /\ al_BytesSent r = al_BytesSent s
  /\ al_StatusCode r = al_StatusCode s /\ al_CreatedAt r = al_CreatedAt s.

Lemma ascii_text s : Forall (fun c => 0 <= c < 0x80) s -> text s.
Proof.
  intros Hs. split; [eapply Forall_impl; [exact Hs|]; unfold byte; simpl; lia|].
  unfold utf8_valid. rewrite chunks_ascii by done. apply forallb_forall. intros p Hp.
  apply list_elem_of_In, list_elem_of_fmap in Hp as (c & -> & Hc). rewrite Forall_forall in Hs. specialize (Hs c Hc).
  unfold undecodable, rune_error. cbn [fst]. by rewrite (proj2 (Z.eqb_neq c _)) by lia.
Qed.

Lemma hex_encode_text s : Forall byte s -> text (hex_encode s).
Proof.
  intros Hs. apply ascii_text. unfold hex_encode. apply Forall_concat, Forall_fmap.
  eapply Forall_impl; [exact Hs|]. intros b Hb. unfold byte in Hb. simpl.
  assert (Hd : forall n, 0 <= n < 16 -> 0 <= hex_digit n < 0x80) by (intros n Hn; unfold hex_digit; case_match; lia).
  change 15 with (Z.ones 4). rewrite Z.land_ones, Z.shiftr_div_pow2 by lia. change (2 ^ 4) with 16.
  pose proof (Z.mod_pos_bound b 16 ltac:(lia)). pose proof (Z.div_mod b 16 ltac:(lia)).
  forall_list; apply Hd; lia.
Qed.

Lemma compute_hash_text prev row : text (ComputeAuditHash prev row).
Proof. apply hex_encode_text, sha256_digest. Qed.

Lemma fixed_ascii w n : Forall (fun c => 0 <= c < 0x80) (fixed_digits w n).
Proof. eapply Forall_impl; [apply fixed_digits_digits|]. unfold digit. simpl. lia. Qed.

Lemma rfc3339_nano_text t : text (rfc3339_nano t).
Proof.
  apply ascii_text. unfold rfc3339_nano, format_year, format_fraction.
  assert (Hu : Forall (fun c => 0 <= c < 0x80) (format_uint (Z.abs (i_year t)))).
  { destruct (format_uint_spec (Z.abs (i_year t)) ltac:(lia)) as [[Hd _] _]. eapply Forall_impl; [exact Hd|]. unfold digit. simpl. lia. }
  assert (Hf : Forall (fun c => 0 <= c < 0x80) (rev (trim_left_zeros (rev (fixed_digits 9 (i_nano t)))))).
  { eapply Forall_impl; [apply Forall_rev, trim_left_zeros_digits, Forall_rev, fixed_digits_digits|]. unfold digit. simpl. lia. }
  assert (Hc : forall s r, Forall (fun c => 0 <= c < 0x80) s -> Forall (fun c => 0 <= c < 0x80) r ->
            Forall (fun c => 0 <= c < 0x80) (s ++ r)) by (intros; by apply Forall_app).
  repeat first [apply Hc | apply fixed_ascii | exact Hu | exact Hf | apply Forall_cons; split; [by vm_compute|] | apply Forall_nil; done | case_match].
Qed.

Lemma text_body_inj s t : text s -> text t -> json_body s = json_body t -> s = t.
Proof. intros [Hs Vs] [Ht Vt]. by apply json_body_inj. Qed.

Lemma text_same_kind s t : text s -> text t -> same_kind (JString s) (JString t).
Proof. by intros [? _] [? _]. Qed.

(** What is hashed determines the predecessor and the content. *)
Lemma chain_message_inj p q r s :
  text p -> text q -> row_ok r -> row_ok s -> chain_message p r = chain_message q s -> p = q /\ same_content r s.
Proof.
  intros Hp Hq [Hr Tr] [Hs Ts] Heq. unfold row_texts in Hr, Hs.
  repeat match goal with H : Forall _ (_ :: _) |- _ => apply Forall_cons in H as [? H] end. clear Hr Hs.
  apply json_object_inj in Heq; [|done|].
  - cbn [chainPayload fmap list_fmap snd] in Heq.
    repeat match goal with H : Forall2 _ (_ :: _) (_ :: _) |- _ => apply Forall2_cons in H as [? H] end. clear Heq.
    cbn [json_same] in *.
    repeat match goal with
    | H : json_body (rfc3339_nano _) = _ |- _ => apply text_body_inj in H; [|apply rfc3339_nano_text..]
    | H : json_body _ = json_body _ |- _ => apply text_body_inj in H; [|first [assumption | by apply ascii_text; vm_compute; repeat constructor]..]
    end.
    split; [done|]. unfold same_content, row_texts. split_and!; try congruence. by apply rfc3339_nano_inj.
  - cbn [chainPayload fmap list_fmap snd].
    assert (Hv : text ChainHashVersion).
    { apply ascii_text. unfold ChainHashVersion. vm_compute. repeat constructor; discriminate. }
    repeat first [apply Forall2_cons; split | apply Forall2_nil; done];
      first [done | apply text_same_kind; first [assumption | apply rfc3339_nano_text]].
Qed.

(** ** Two chains with the same head *)

(** The message a row's hash stands for. *)
Definition row_message (row : AuditLog) : gostring := chain_message (default [] (al_PrevHash row)) row.

(** Walks two chains backwards, newest rows first, to the first place where different
    messages stand behind the same hash. *)
Fixpoint collision (rows rows' : list AuditLog) : option (gostring * gostring) :=
  match rows, rows' with
  | row :: rows, row' :: rows' =>
    if str_eqb (row_message row) (row_message row') then collision rows rows'
    else if str_eqb (al_Hash row) (al_Hash row') then Some (row_message row, row_message row')
    else None
  | _, _ => None
  end.

Lemma collision_sound rows rows' m m' :
  Forall (fun row => al_Hash row = hex_encode (sha256 (row_message row))) rows ->
  Forall (fun row => al_Hash row = hex_encode (sha256 (row_message row))) rows' ->
  collision rows rows' = Some (m, m') -> m <> m' /\ sha256 m = sha256 m'.
Proof.
  intros Hr. revert rows'. induction Hr as [|row rows Hrow _ IH]; intros rows' Hr'; [done|].
  destruct Hr' as [|row' rows' Hrow' Hr']; [done|]. cbn [collision].
  destruct (str_eqb (row_message row) (row_message row')) eqn:Em; [by apply IH|].
  destruct (str_eqb (al_Hash row) (al_Hash row')) eqn:Eh; [|done]. intros [= <- <-].
  apply str_eqb_neq in Em. apply str_eqb_eq in Eh. split; [done|]. rewrite Hrow, Hrow' in Eh.
  apply hex_encode_inj in Eh; [done | apply sha256_digest..].
Qed.

Lemma linked_hash prev row : linked prev row -> al_Hash row = hex_encode (sha256 (row_message row)).
Proof. intros (_ & Hp & Hc). unfold row_message. by rewrite Hp, <- Hc. Qed.

Lemma chained_hashes prev rows :
  chained prev rows -> Forall (fun row => al_Hash row = hex_encode (sha256 (row_message row))) rows.
Proof.
  revert prev. induction rows as [|row rows IH]; intros prev; [constructor|].
  intros [Hl Hc]. constructor; [by apply (linked_hash prev) | by apply (IH (al_Hash row))].
Qed.

Lemma chained_head_text prev rows : text prev -> chained prev rows -> text (chain_head prev rows).
Proof.
  revert prev. induction rows as [|row rows IH]; intros prev Ht; [done|]. intros [(_ & _ & Hh) Hc]. simpl.
  apply IH; [rewrite <- Hh; apply compute_hash_text | done].
Qed.

Lemma chained_head_nonempty prev rows : rows <> [] -> chained prev rows -> chain_head prev rows <> [].
Proof.
  intros Hne Hc. destruct rows as [|row rows _] using rev_ind; [done|]. rewrite chain_head_snoc.
  apply chained_app in Hc as [_ [(Hn & _ & _) _]]. done.
Qed.

Lemma text_nil : text [].
Proof. split; [constructor | done]. Qed.

(** Same head hash: the same content throughout, or a collision of SHA-256 to show. *)
Lemma same_head rows rows' :
  chained [] rows -> chained [] rows' -> Forall row_ok rows -> Forall row_ok rows' ->
  chain_head [] rows = chain_head [] rows' ->
  Forall2 same_content rows rows' \/ exists m m', collision (rev rows) (rev rows') = Some (m, m').
Proof.
  revert rows'. induction rows as [|row rows IH] using rev_ind; intros rows' Hc Hc' Hok Hok' Hh.
  - destruct rows' as [|row' rows' _] using rev_ind; [by left|]. exfalso.
    apply (chained_head_nonempty [] (rows' ++ [row'])); [by destruct rows' | done | done].
  - destruct rows' as [|row' rows' _] using rev_ind.
    { exfalso. apply (chained_head_nonempty [] (rows ++ [row])); [by destruct rows | done | done]. }
    rewrite !chain_head_snoc in Hh. rewrite !rev_app_distr. cbn [rev app collision].
    destruct (str_eqb (row_message row) (row_message row')) eqn:Em.
    2: { rewrite (proj2 (str_eqb_eq _ _) Hh). right. by eexists _, _. }
    apply str_eqb_eq in Em. apply chained_app in Hc as [Hc [(Hn & Hp & Hch) _]]. apply chained_app in Hc' as [Hc' [(Hn' & Hp' & Hch') _]].
    apply Forall_app in Hok as [Hok Hrow]. apply Forall_app in Hok' as [Hok' Hrow'].
    apply Forall_cons in Hrow as [Hrow _]. apply Forall_cons in Hrow' as [Hrow' _].
    unfold row_message in Em. rewrite Hp, Hp' in Em.
    apply chain_message_inj in Em as [Eh Hs]; [|by apply chained_head_text; [apply text_nil|]..|done|done].
    destruct (IH rows' Hc Hc' Hok Hok' Eh) as [Hf|Hcol]; [|by right]. left. by apply Forall2_app; [|constructor].
Qed.

Lemma rows_facts rows :
  Forall (fun row => al_ID row <> 0 /\ row_ok row) rows ->
  Forall (fun row => al_ID row <> 0) rows /\ Forall row_ok (drop_unchained rows).
Proof.
  intros Hl. split; [eapply Forall_impl; [exact Hl|]; by intros ? [? _]|].
  induction Hl as [|row l [_ Hrow] Hl IH]; [constructor|]. simpl. case_match; [done|]. constructor; [done|].
  eapply Forall_impl; [exact Hl|]. by intros ? [_ ?].
Qed.

(** The head hash vouches for the whole history: if [VerifyChain] reports OK on two
    tables with the same head hash, their chained rows have the same content, one by
    one, in the same order; otherwise walking the two tables backwards finds two
    different messages with the same SHA-256.  The rows are those whose strings are
    UTF-8 and whose timestamps have a year of four digits. *)
Theorem tamper_evident find find' size size' rows rows' err err' :
  scans find size rows err -> scans find' size' rows' err' ->
  Forall (fun row => al_ID row <> 0 /\ row_ok row) rows -> Forall (fun row => al_ID row <> 0 /\ row_ok row) rows' ->
  let report := (VerifyChain (Some find) size).1 in
  let report' := (VerifyChain (Some find') size').1 in
  cr_OK report = true -> cr_OK report' = true -> cr_HeadHash report = cr_HeadHash report' ->
  Forall2 same_content (drop_unchained rows) (drop_unchained rows')
  \/ exists m m', collision (rev (drop_unchained rows)) (rev (drop_unchained rows')) = Some (m, m')
       /\ m <> m' /\ sha256 m = sha256 m'.
Proof.
  intros Hs Hs' Hr Hr' report report' Hok Hok' Hhead.
  destruct (rows_facts rows Hr) as [Hid Hro], (rows_facts rows' Hr') as [Hid' Hro'].
  destruct (VerifyChain_exact_head find size rows err Hs Hid Hok) as [Hi Eh].
  destruct (VerifyChain_exact_head find' size' rows' err' Hs' Hid' Hok') as [Hi' Eh'].
  destruct (same_head (drop_unchained rows) (drop_unchained rows') Hi Hi' Hro Hro' (eq_trans (eq_sym Eh) (eq_trans Hhead Eh'))) as [?|(m & m' & Hcol)]; [by left|].
  right. exists m, m'. split; [done|]. eapply collision_sound; [..|exact Hcol]; apply Forall_rev; by eapply chained_hashes.
Qed.

#[local] Opaque sha256.

Lemma sample_row_ok id name : text name -> row_ok (sample_row id name).
Proof.
  intros Ht. split.
  - unfold row_texts. cbn [sample_row al_Ecosystem al_PackageName al_Version al_Action al_CacheResult al_ClientIP
      al_UserAgent al_UpstreamURL al_RequestID].
    repeat (constructor; [first [exact Ht | exact text_nil | apply ascii_text; vm_compute; repeat constructor; discriminate]|]). constructor.
  - unfold instant_ok. simpl. lia.
Qed.

Lemma assign_link_ok prev next rows :
  0 < next -> Forall row_ok rows -> Forall (fun row => al_ID row <> 0 /\ row_ok row) (assign_ids next (link_rows prev rows)).
Proof.
  intros Hn Hr. revert prev next Hn. induction Hr as [|row rows Hrow _ IH]; intros prev next Hn; [constructor|].
  cbn [link_rows assign_ids]. constructor; [|apply IH; lia]. split; [cbn; lia | exact Hrow].
Qed.

Definition sample_rows : list AuditLog := [sample_row 0 (bs "lodash"); sample_row 0 (bs "left-pad")].

Lemma sample_rows_ok : Forall row_ok sample_rows.
Proof. unfold sample_rows; forall_list; apply sample_row_ok, ascii_text; vm_compute; repeat constructor; discriminate. Qed.

Lemma tamper_evident_witness :
  let rows := assign_ids 7 (link_rows [] sample_rows) in
  Forall2 same_content (drop_unchained sample_table) (drop_unchained rows)
  \/ exists m m', collision (rev (drop_unchained sample_table)) (rev (drop_unchained rows)) = Some (m, m') /\ m <> m' /\ sha256 m = sha256 m'.
Proof.
  intros rows. destruct sample_table_facts as (Hi & _ & Hid).
  assert (Hc : chained [] rows) by (apply chained_assign, link_rows_chained).
  assert (Hrok : Forall (fun row => al_ID row <> 0 /\ row_ok row) rows) by (apply assign_link_ok; [lia | apply sample_rows_ok]).
  assert (Hrid : Forall (fun row => al_ID row <> 0) rows) by (eapply Forall_impl; [exact Hrok|]; by intros ? [? _]).
  assert (Hri : intact rows) by (unfold intact; by rewrite (drop_unchained_chained [] rows Hc)).
  assert (Hs : scans (fun _ => ([sample_table], None)) 0 sample_table None).
  { exists [sample_table]. split; [reflexivity|]. cbn [concat]. by rewrite app_nil_r. }
  assert (Hs' : scans (fun _ => ([take 1 rows; drop 1 rows], None)) 1 rows None).
  { exists [take 1 rows; drop 1 rows]. split; [reflexivity|]. cbn [concat]. by rewrite app_nil_r, take_drop. }
  destruct (VerifyChain_intact _ _ _ _ Hs Hid Hi) as (w & Ew & Hw).
  destruct (VerifyChain_intact _ _ _ _ Hs' Hrid Hri) as (w' & Ew' & Hw').
  apply (tamper_evident _ _ 0 1 _ _ _ _ Hs Hs').
  - unfold sample_table. constructor.
    + split; [done|]. apply sample_row_ok, ascii_text. vm_compute. repeat constructor; discriminate.
    + apply assign_link_ok; [lia | apply sample_rows_ok].
  - exact Hrok.
  - rewrite Ew. exact (wo_ok _ _ Hw).
  - rewrite Ew'. exact (wo_ok _ _ Hw').
  - rewrite Ew, Ew', (wo_head _ _ Hw), (wo_head _ _ Hw'), (drop_unchained_chained [] rows Hc).
    unfold sample_table, rows. pose proof sample_links_chained as Hl. cbn [drop_unchained sample_row al_Hash].
    change (str_eqb [] []) with true. cbv iota. rewrite (drop_unchained_chained [] _ Hl).
    by rewrite !chain_head_assign.
Defined.
