(* ===== verification/AuditAnchor.v ===== *)
(** * Checkpoints of the audit chain (internal/audit/anchor.go)

    The head of the chain is copied to an append-only file and to a remote endpoint,
    each behind a sink that remembers what it accepted last and when it may try again.
    [VerifyAnchors] compares the stored checkpoints with the table.  The file system,
    the endpoint, the database and the lines [LoadCheckpoints] reads are parameters. *)

From S2P Require Export AuditChainTheory.

Definition AnchorFormat : gostring := bs "depsilo/audit-anchor/v1".

Definition second : Z := 1000000000.
Definition anchorRetryDelay : Z := 60 * second.

Record ChainCheckpoint := {
  ck_Format : gostring;
  ck_CheckedAt : instant;
  ck_HeadID : Z;
  ck_HeadHash : gostring;
}.

(** [json.Marshal] of a checkpoint: the names of the JSON tags; a year outside
    0..9999 does not marshal. *)
Definition checkpoint_members (c : ChainCheckpoint) : list (gostring * json_value) :=
  [(bs "format", JString (ck_Format c)); (bs "checked_at", JString (rfc3339_nano (ck_CheckedAt c)));
   (bs "head_id", JInt (ck_HeadID c)); (bs "head_hash", JString (ck_HeadHash c))].

Definition marshal_checkpoint (c : ChainCheckpoint) : result gostring :=
  if (i_year (ck_CheckedAt c) <? 0) || (9999 <? i_year (ck_CheckedAt c))
  then fail "json: error calling MarshalJSON for type time.Time"
  else Ok (json_object (checkpoint_members c)).

(** [Limit(1).Find] leaves the zero row when the table is empty. *)
Definition ChainHead (found : result (option AuditLog)) : result (Z * gostring) :=
  match found with
  | Err e => Err (Errorf "read audit chain head: %w" [e])
  | Ok None => Ok (0, [])
  | Ok (Some head) => Ok (al_ID head, al_Hash head)
  end.

(** Times are nanoseconds since [time.Time{}]. *)
Record anchorSink := {
  sk_configured : bool;
  sk_seeded : bool;
  sk_lastID : Z;
  sk_lastHash : gostring;
  sk_lastSuccessAt : Z;
  sk_lastError : option error;
  sk_nextAttempt : Z;
}.

Record Anchor := {
  an_filePath : gostring;
  an_interval : Z;
  an_file : anchorSink;
  an_remote : anchorSink;
}.

Definition with_file (a : Anchor) (s : anchorSink) : Anchor :=
  {| an_filePath := an_filePath a; an_interval := an_interval a; an_file := s; an_remote := an_remote a |}.

Definition with_remote (a : Anchor) (s : anchorSink) : Anchor :=
  {| an_filePath := an_filePath a; an_interval := an_interval a; an_file := an_file a; an_remote := s |}.

Definition Enabled (a : option Anchor) : bool :=
  match a with
  | None => false
  | Some a => sk_configured (an_file a) || sk_configured (an_remote a)
  end.

Definition CheckpointPath (a : option Anchor) : gostring :=
  match a with None => [] | Some a => an_filePath a end.

Definition retryDelay (a : Anchor) : Z := if an_interval a <? anchorRetryDelay then an_interval a else anchorRetryDelay.

(** ** The sinks *)

(** [failFile] and [failRemote] differ in the sink they update. *)
Definition failed_sink (s : anchorSink) (err : error) (until : Z) : anchorSink :=
  {| sk_configured := sk_configured s; sk_seeded := sk_seeded s; sk_lastID := sk_lastID s; sk_lastHash := sk_lastHash s;
     sk_lastSuccessAt := sk_lastSuccessAt s; sk_lastError := Some err; sk_nextAttempt := until |}.

Definition failFile (a : Anchor) (err : error) (now : Z) : Anchor :=
  with_file a (failed_sink (an_file a) err (now + retryDelay a)).

Definition failRemote (a : Anchor) (err : error) (now : Z) : Anchor :=
  with_remote a (failed_sink (an_remote a) err (now + retryDelay a)).

Definition accepted_sink (s : anchorSink) (headID : Z) (headHash : gostring) (now : Z) : anchorSink :=
  {| sk_configured := sk_configured s; sk_seeded := true; sk_lastID := headID; sk_lastHash := headHash;
     sk_lastSuccessAt := now; sk_lastError := None; sk_nextAttempt := 0 |}.

(** What the file system answers: the last checkpoint of the file, and the errors of
    the five steps. *)
Record file_answers := {
  fa_last : option ChainCheckpoint;
  fa_mkdir : option error;
  fa_open : option error;
  fa_write : option error;
  fa_sync : option error;
  fa_close : option error;
}.

(** The lexical part of [filepath.Dir]: the components of a cleaned path. *)
Fixpoint clean_components (rooted : bool) (acc : list gostring) (parts : list gostring) : list gostring :=
  match parts with
  | [] => rev acc
  | part :: parts =>
    if str_eqb part [] || str_eqb part (bs ".") then clean_components rooted acc parts
    else if str_eqb part (bs "..") then
      match acc with
      | top :: acc' => if str_eqb top (bs "..") then clean_components rooted (part :: acc) parts
                       else clean_components rooted acc' parts
      | [] => if rooted then clean_components rooted [] parts else clean_components rooted [part] parts
      end
    else clean_components rooted (part :: acc) parts
  end.

(** [dir != "" && dir != "."] for [dir := filepath.Dir(path)]. *)
Definition has_directory (path : gostring) : bool :=
  let parts := strings_split path (ch "/") in
  let rooted := has_prefix path (bs "/") in
  rooted || negb (match clean_components rooted [] (removelast parts) with [] => true | _ => false end).

Definition seed_sink (s : anchorSink) (last : option ChainCheckpoint) : anchorSink :=
  if sk_seeded s then s else
  {| sk_configured := sk_configured s; sk_seeded := true;
     sk_lastID := match last with Some c => ck_HeadID c | None => sk_lastID s end;
     sk_lastHash := match last with Some c => ck_HeadHash c | None => sk_lastHash s end;
     sk_lastSuccessAt := sk_lastSuccessAt s; sk_lastError := sk_lastError s; sk_nextAttempt := sk_nextAttempt s |}.

Definition already_accepted (s : anchorSink) (headID : Z) (headHash : gostring) : bool :=
  (sk_lastID s =? headID) && str_eqb (sk_lastHash s) headHash.

(** The first step that fails; [Close] is the last one. *)
Definition append_line (path : gostring) (io : file_answers) : option error :=
  match (if has_directory path then fa_mkdir io else None) with
  | Some e => Some e
  | None =>
    match fa_open io, fa_write io, fa_sync io, fa_close io with
    | Some e, _, _, _ | None, Some e, _, _ | None, None, Some e, _ | None, None, None, Some e => Some e
    | None, None, None, None => None
    end
  end.

(** The anchor afterwards, and whether the checkpoint was delivered. *)
Definition writeFileSink (a : Anchor) (io : file_answers) (headID : Z) (headHash : gostring) (now : Z)
    : Anchor * result bool :=
  let a := with_file a (seed_sink (an_file a) (fa_last io)) in
  if already_accepted (an_file a) headID headHash then (a, Ok false) else
  if now <? sk_nextAttempt (an_file a) then (a, Ok false) else
  match append_line (an_filePath a) io with
  | Some err => (failFile a err now, Err err)
  | None => (with_file a (accepted_sink (an_file a) headID headHash now), Ok true)
  end.

(** What the endpoint answers: the request cannot be built, it cannot be delivered, or
    a status comes back. *)
Inductive remote_answer :=
  | NoRequest (e : error)
  | NoResponse (e : error)
  | Status (code : Z).

Definition pushRemoteSink (a : Anchor) (answer : remote_answer) (headID : Z) (headHash : gostring) (now : Z)
    : Anchor * result bool :=
  if already_accepted (an_remote a) headID headHash then (a, Ok false) else
  if now <? sk_nextAttempt (an_remote a) then (a, Ok false) else
  match answer with
  | NoRequest err | NoResponse err => (failRemote a err now, Err err)
  | Status code =>
    if (code <? 200) || (300 <=? code)
    then let err := Errorf "anchor endpoint returned HTTP %d" [] in (failRemote a err now, Err err)
    else (with_remote a (accepted_sink (an_remote a) headID headHash now), Ok true)
  end.

(** [errors.Join]: nil when there is nothing to join. *)
Definition errors_join (errs : list error) : option error :=
  match errs with [] => None | _ => Some (Errorf "join" errs) end.

(** One call of [WriteCheckpoint] and what it meets. *)
Record checkpoint_call := {
  cc_head : result (option AuditLog);
  cc_checked : instant;
  cc_now : Z;
  cc_file : file_answers;
  cc_remote : remote_answer;
}.

Definition WriteCheckpoint (a : Anchor) (call : checkpoint_call) : Anchor * bool * option error :=
  if negb (Enabled (Some a)) then (a, false, None) else
  match ChainHead (cc_head call) with
  | Err e => (a, false, Some e)
  | Ok (headID, headHash) =>
    if str_eqb headHash [] then (a, false, None) else
    match marshal_checkpoint {| ck_Format := AnchorFormat; ck_CheckedAt := cc_checked call;
                                ck_HeadID := headID; ck_HeadHash := headHash |} with
    | Err e => (a, false, Some e)
    | Ok _ =>
      let '(a, file) :=
        if sk_configured (an_file a) then writeFileSink a (cc_file call) headID headHash (cc_now call) else (a, Ok false) in
      let '(a, remote) :=
        if sk_configured (an_remote a) then pushRemoteSink a (cc_remote call) headID headHash (cc_now call) else (a, Ok false) in
      let errs := match file with Err e => [Errorf "checkpoint file: %w" [e]] | Ok _ => [] end
               ++ match remote with Err e => [Errorf "checkpoint url: %w" [e]] | Ok _ => [] end in
      let wrote := match file with Ok true => true | _ => false end || match remote with Ok true => true | _ => false end in
      (a, wrote, errors_join errs)
    end
  end.

Record AnchorFeedStatus := {
  af_FileConfigured : bool;
  af_FileLastSuccessAt : Z;
  af_FileLastError : option error;
  af_RemoteConfigured : bool;
  af_RemoteLastSuccessAt : Z;
  af_RemoteHeadID : Z;
  af_RemoteLastError : option error;
}.

Definition FeedStatus (a : option Anchor) : AnchorFeedStatus :=
  match a with
  | None => {| af_FileConfigured := false; af_FileLastSuccessAt := 0; af_FileLastError := None; af_RemoteConfigured := false;
               af_RemoteLastSuccessAt := 0; af_RemoteHeadID := 0; af_RemoteLastError := None |}
  | Some a => {| af_FileConfigured := sk_configured (an_file a); af_FileLastSuccessAt := sk_lastSuccessAt (an_file a);
                 af_FileLastError := sk_lastError (an_file a); af_RemoteConfigured := sk_configured (an_remote a);
                 af_RemoteLastSuccessAt := sk_lastSuccessAt (an_remote a); af_RemoteHeadID := sk_lastID (an_remote a);
                 af_RemoteLastError := sk_lastError (an_remote a) |}
  end.

(** ** Verification *)

Record AnchorReport := {
  ar_Configured : bool;
  ar_Path : gostring;
  ar_Checkpoints : Z;
  ar_InvalidLines : Z;
  ar_Latest : option ChainCheckpoint;
  ar_OK : bool;
  ar_BrokenAtID : Z;
  ar_Reason : gostring;
}.

Definition broken_anchor (r : AnchorReport) (id : Z) (reason : gostring) : AnchorReport :=
  {| ar_Configured := ar_Configured r; ar_Path := ar_Path r; ar_Checkpoints := ar_Checkpoints r;
     ar_InvalidLines := ar_InvalidLines r; ar_Latest := ar_Latest r; ar_OK := false; ar_BrokenAtID := id; ar_Reason := reason |}.

(** The loop over the checkpoints; [first id] is the row with that key. *)
Fixpoint verify_anchors (first : Z -> result (option AuditLog)) (r : AnchorReport) (checkpoints : list ChainCheckpoint)
    : AnchorReport * option error :=
  match checkpoints with
  | [] => (r, None)
  | c :: checkpoints =>
    match first (ck_HeadID c) with
    | Err e => (r, Some (Errorf "read checkpointed row %d: %w" [e]))
    | Ok None => (broken_anchor r (ck_HeadID c) (bs "checkpointed row " ++ format_uint (ck_HeadID c) ++ bs " is missing"), None)
    | Ok (Some row) =>
      if negb (str_eqb (al_Hash row) (ck_HeadHash c))
      then (broken_anchor r (ck_HeadID c) (bs "row " ++ format_uint (ck_HeadID c) ++ bs " no longer matches its checkpoint"), None)
      else verify_anchors first r checkpoints
    end
  end.

(** [loaded] is what [LoadCheckpoints] returns: the checkpoints and the number of
    malformed lines. *)
Definition VerifyAnchors (first : Z -> result (option AuditLog)) (path : gostring)
    (loaded : result (list ChainCheckpoint * Z)) : AnchorReport * option error :=
  let configured := negb (str_eqb (trim_space path) []) in
  let report checkpoints invalid latest :=
    {| ar_Configured := configured; ar_Path := path; ar_Checkpoints := checkpoints; ar_InvalidLines := invalid;
       ar_Latest := latest; ar_OK := true; ar_BrokenAtID := 0; ar_Reason := [] |} in
  if negb configured then (report 0 0 None, None) else
  match loaded with
  | Err e => (report 0 0 None, Some e)
  | Ok (checkpoints, invalid) =>
    verify_anchors first (report (len checkpoints) invalid (last checkpoints)) checkpoints
  end.
