(* ===== verification/AuditAnchorTheory.v ===== *)
(** * Theory of the audit checkpoints (AuditAnchor.v)

    Which heads the checkpoint file receives over a run, and what intact checkpoints
    and an intact chain say together about the history of the table. *)

From S2P Require Export AuditAnchor.

(** ** Runs *)




















(** ** Checkpoints and the chain together *)






#[local] Opaque sha256.




