(* ===== verification/Duration.v ===== *)
(** * Durations (ParseDuration of internal/quarantine/policy.go)

    [time.ParseDuration], the decimal verb of [fmt.Sscanf], and the extension with
    days and weeks.  A duration is a 64-bit count of nanoseconds; the float64
    arithmetic of fractions is that of the Standard Library's [SpecFloat]. *)

From Stdlib Require Import SpecFloat.
From S2P Require Export Decimal GoTrim.

Definition wrap64 (n : Z) : Z := (n + 2 ^ 63) mod 2 ^ 64 - 2 ^ 63.

Definition Nanosecond : Z := 1.
Definition Second : Z := 1000000000.
Definition Minute : Z := 60 * Second.
Definition Hour : Z := 60 * Minute.

(** ** Float64 *)

Definition f64_of_Z (n : Z) : spec_float := binary_normalize 53 1024 n 0 false.
Definition f64_mul : spec_float -> spec_float -> spec_float := SFmul 53 1024.
Definition f64_div : spec_float -> spec_float -> spec_float := SFdiv 53 1024.

(** The conversion of a non-negative float64 to uint64. *)
Definition f64_to_uint (x : spec_float) : Z :=
  match x with
  | S754_finite false m e => Z.shiftl (Z.pos m) e
  | _ => 0
  end.

(** ** [time.ParseDuration] *)

Definition bad_duration {A} : result A := fail "time: invalid duration".

(** [leadingInt] *)
Fixpoint leadingInt (s : gostring) (x : Z) : result (Z * gostring) :=
  match s with
  | [] => Ok (x, [])
  | c :: s' =>
    if negb (isASCIIDigit c) then Ok (x, s) else
    if x >? 2 ^ 63 / 10 then bad_duration else
    let x := x * 10 + (c - 48) in
    if x >? 2 ^ 63 then bad_duration else leadingInt s' x
  end.

(** [leadingFraction]: digits beyond the range of an int64 are skipped. *)
Fixpoint leadingFraction (s : gostring) (x : Z) (scale : spec_float) (overflow : bool) : Z * spec_float * gostring :=
  match s with
  | [] => (x, scale, [])
  | c :: s' =>
    if negb (isASCIIDigit c) then (x, scale, s) else
    if overflow then leadingFraction s' x scale true else
    if x >? (2 ^ 63 - 1) / 10 then leadingFraction s' x scale true else
    let y := x * 10 + (c - 48) in
    if y >? 2 ^ 63 then leadingFraction s' x scale true
    else leadingFraction s' y (f64_mul scale (f64_of_Z 10)) false
  end.

(** The unit: everything up to a period or a digit. *)
Fixpoint take_unit (s : gostring) : gostring * gostring :=
  match s with
  | [] => ([], [])
  | c :: s' => if (c =? ch ".") || isASCIIDigit c then ([], s) else let '(u, r) := take_unit s' in (c :: u, r)
  end.

Definition unitMap (u : gostring) : option Z :=
  if str_eqb u (bs "ns") then Some Nanosecond
  else if str_eqb u (bs "us") || str_eqb u [0xC2; 0xB5; 115] || str_eqb u [0xCE; 0xBC; 115] then Some 1000
  else if str_eqb u (bs "ms") then Some 1000000
  else if str_eqb u (bs "s") then Some Second
  else if str_eqb u (bs "m") then Some Minute
  else if str_eqb u (bs "h") then Some Hour
  else None.

(** One number with its unit: its value and what follows. *)
Definition duration_part (s : gostring) : result (Z * gostring) :=
  match s with
  | [] => bad_duration
  | c :: _ =>
    if negb ((c =? ch ".") || isASCIIDigit c) then bad_duration else
    '(v, s1) ← leadingInt s 0;
    let pre := negb (len s1 =? len s) in
    let '(f, scale, s2, post) :=
      match s1 with
      | d :: s1' =>
        if d =? ch "." then
          let '(f, scale, s2) := leadingFraction s1' 0 (f64_of_Z 1) false in (f, scale, s2, negb (len s2 =? len s1'))
        else (0, f64_of_Z 1, s1, false)
      | [] => (0, f64_of_Z 1, s1, false)
      end in
    if negb pre && negb post then bad_duration else
    let '(u, rest) := take_unit s2 in
    match u with
    | [] => fail "time: missing unit in duration"
    | _ =>
      match unitMap u with
      | None => fail "time: unknown unit"
      | Some unit =>
        if v >? 2 ^ 63 / unit then bad_duration else
        let v := v * unit in
        if f >? 0 then
          let v := (v + f64_to_uint (f64_mul (f64_of_Z f) (f64_div (f64_of_Z unit) scale))) mod 2 ^ 64 in
          if v >? 2 ^ 63 then bad_duration else Ok (v, rest)
        else Ok (v, rest)
      end
    end
  end.

(** The parts are added as uint64; every part takes at least a byte. *)
Fixpoint duration_parts (fuel : nat) (s : gostring) (d : Z) : result Z :=
  match s, fuel with
  | [], _ => Ok d
  | _, O => Ok d
  | _, S fuel =>
    '(v, rest) ← duration_part s;
    let d := (d + v) mod 2 ^ 64 in
    if d >? 2 ^ 63 then bad_duration else duration_parts fuel rest d
  end.

Definition time_ParseDuration (s : gostring) : result Z :=
  let '(neg, s) :=
    match s with
    | c :: s' => if c =? ch "-" then (true, s') else if c =? ch "+" then (false, s') else (false, s)
    | [] => (false, s)
    end in
  if str_eqb s (bs "0") then Ok 0 else
  if str_eqb s [] then bad_duration else
  d ← duration_parts (length s) s 0;
  if (neg : bool) then Ok (wrap64 (- d)) else
  if d >? 2 ^ 63 - 1 then bad_duration else Ok d.

(** ** [fmt.Sscanf(body, "%d", &n)] into an int *)

(** An optional sign, digits, and whatever follows is left unread. *)
Definition sscanf_d (s : gostring) : result Z :=
  let '(neg, s) :=
    match s with
    | c :: s' => if c =? ch "-" then (true, s') else if c =? ch "+" then (false, s') else (false, s)
    | [] => (false, s)
    end in
  let '(ds, _) := takeDigits s in
  if str_eqb ds [] then fail "expected integer" else
  let n := if (neg : bool) then - dec_value ds else dec_value ds in
  if (- 2 ^ 63 <=? n) && (n <? 2 ^ 63) then Ok n else fail "value out of range".

(** ** [ParseDuration] *)

Definition invalid_duration {A} (e : error) : result A := Err (Errorf "invalid duration %q: %w" [e]).

Definition day_multiplier (c : Z) : option Z :=
  if c =? ch "d" then Some (24 * Hour) else if c =? ch "w" then Some (7 * 24 * Hour) else None.

Definition ParseDuration (s : gostring) : result Z :=
  let s := trim_space s in
  if str_eqb s [] || str_eqb s (bs "0") then Ok 0 else
  match day_multiplier (List.last s 0) with
  | Some multiplier =>
    match sscanf_d (removelast s) with
    | Err e => invalid_duration e
    | Ok n => if n <? 0 then fail "invalid duration %q: negative" else Ok (wrap64 (n * multiplier))
    end
  | None =>
    match time_ParseDuration s with
    | Err e => invalid_duration e
    | Ok d => if d <? 0 then fail "invalid duration %q: negative" else Ok d
    end
  end.

Example parse_duration_examples :
  ParseDuration (bs " 3d ") = Ok (72 * Hour) /\ ParseDuration (bs "2w") = Ok (336 * Hour)
  /\ ParseDuration (bs "1h30m") = Ok (90 * Minute) /\ ParseDuration (bs "1.5h") = Ok (90 * Minute)
  /\ ParseDuration (bs "0.000000001s") = Ok 1 /\ is_err (ParseDuration (bs "-1h")) = true
  /\ is_err (ParseDuration (bs "1x")) = true /\ is_err (ParseDuration (bs "d")) = true
  /\ ParseDuration (bs "2562047h47m16.854775807s") = Ok (2 ^ 63 - 1) /\ ParseDuration (bs ".5s") = Ok 500000000.
Proof. vm_compute. repeat split. Qed.

(** ** The parts consume their text *)

Lemma leadingInt_rest s x v r : leadingInt s x = Ok (v, r) -> (length r <= length s)%nat.
Proof.
  revert x. induction s as [|c s IH]; intros x; simpl; [by intros [= _ <-]|].
  destruct (negb (isASCIIDigit c)); [intros [= _ <-]; simpl; lia|]. destruct (x >? _); [done|].
  destruct (x * 10 + _ >? _); [done|]. intros Hl. specialize (IH _ Hl). lia.
Qed.

Lemma leadingFraction_rest s x scale o : (length (leadingFraction s x scale o).2 <= length s)%nat.
Proof.
  revert x scale o. induction s as [|c s IH]; intros x scale o; simpl; [lia|].
  repeat case_match; simpl; try lia; (etrans; [apply IH | lia]).
Qed.

Lemma take_unit_split s : s = (take_unit s).1 ++ (take_unit s).2.
Proof.
  induction s as [|c s IH]; simpl; [done|]. destruct (_ || _); [done|]. destruct (take_unit s) as [u r]. simpl in *. by rewrite IH.
Qed.

Lemma duration_part_rest s v rest : duration_part s = Ok (v, rest) -> (length rest < length s)%nat.
Proof.
  unfold duration_part. destruct s as [|c s]; [done|]. destruct (negb _); [done|]. intros Hp.
  apply result_bind_ok in Hp as ([v1 s1] & Hl & Hp). apply leadingInt_rest in Hl.
  set (frac := match s1 with [] => _ | _ => _ end) in Hp.
  assert (Hf : (length (frac.1.2) <= length s1)%nat).
  { unfold frac. destruct s1 as [|d s1]; [done|]. destruct (d =? ch "."); [|done].
    pose proof (leadingFraction_rest s1 0 (f64_of_Z 1) false). destruct (leadingFraction s1 _ _ _) as [[f sc] s2]. simpl in *. lia. }
  destruct frac as [[[f scale] s2] post]. cbn [fst snd] in Hf. destruct (_ && _); [done|].
  pose proof (take_unit_split s2) as Hs. destruct (take_unit s2) as [u r]. cbn [fst snd] in Hs. destruct u as [|c0 u]; [done|].
  assert (Hr : (length r < length s2)%nat) by (rewrite Hs; simpl; rewrite length_app; lia).
  assert (Hrest : rest = r).
  { destruct (unitMap _); [|done]. destruct (_ >? _); [done|]. destruct (f >? 0); [|by injection Hp].
    destruct (_ >? _); [done | by injection Hp]. }
  subst rest. simpl in *. lia.
Qed.

(** The fuel of [duration_parts] is never the reason it stops. *)
Lemma duration_parts_fuel n m s d :
  (length s <= n)%nat -> (length s <= m)%nat -> duration_parts n s d = duration_parts m s d.
Proof.
  revert m s d. induction n as [|n IH]; intros m s d Hn Hm.
  - destruct s; [|simpl in Hn; lia]. by destruct m.
  - destruct m as [|m]; [destruct s; [done | simpl in Hm; lia]|]. destruct s as [|c s]; [done|]. cbn [duration_parts].
    destruct (duration_part (c :: s)) as [[v rest]|e] eqn:E; [|done]. cbn [mbind result_bind].
    apply duration_part_rest in E. destruct (_ >? _); [done|]. apply IH; simpl in *; lia.
Qed.

(** ** Days and weeks *)

Lemma takeDigits_app ds rest :
  digits ds -> (match rest with c :: _ => ~ digit c | [] => True end) -> takeDigits (ds ++ rest) = (ds, rest).
Proof.
  induction 1 as [|c ds Hc _ IH]; intros Hr.
  - destruct rest as [|c rest]; [done|]. simpl. by rewrite (proj2 (isASCIIDigit_false c)).
  - simpl. rewrite (proj2 (isASCIIDigit_true c)) by done. by rewrite IH.
Qed.

Lemma digit_graphic c : digit c -> graphic c.
Proof. unfold digit, graphic. lia. Qed.

Lemma last_snoc_Z (s : gostring) c : List.last (s ++ [c]) 0 = c.
Proof. apply last_last. Qed.

Lemma sscanf_digits n junk :
  0 <= n -> (match junk with c :: _ => ~ digit c | [] => True end) ->
  sscanf_d (format_uint n ++ junk) = if n <? 2 ^ 63 then Ok n else fail "value out of range".
Proof.
  intros Hn Hj. destruct (format_uint_spec n Hn) as [Hc Hv]. pose proof (canonical_decimal_nonempty _ Hc) as Hne.
  destruct Hc as [Hd _]. destruct (format_uint n) as [|c ds] eqn:Ef; [done|].
  unfold sscanf_d. cbn [app]. pose proof (Forall_inv Hd) as Hdc. unfold digit in Hdc.
  change (ch "-") with 45. change (ch "+") with 43. rewrite (proj2 (Z.eqb_neq c 45)), (proj2 (Z.eqb_neq c 43)) by lia.
  change (c :: ds ++ junk) with ((c :: ds) ++ junk). rewrite takeDigits_app by done.
  change (str_eqb (c :: ds) []) with false. cbv iota. rewrite Hv.
  rewrite (proj2 (Z.leb_le (- 2 ^ 63) n)) by lia. done.
Qed.

Lemma parse_day_count n junk c multiplier :
  0 <= n -> Forall graphic junk -> (match junk with x :: _ => ~ digit x | [] => True end) ->
  day_multiplier c = Some multiplier ->
  ParseDuration (format_uint n ++ junk ++ [c])
  = if n <? 2 ^ 63 then Ok (wrap64 (n * multiplier)) else invalid_duration (Errorf "value out of range" []).
Proof.
  intros Hn Hg Hj Hm. destruct (format_uint_spec n Hn) as [Hc _]. pose proof (canonical_decimal_nonempty _ Hc) as Hne.
  destruct Hc as [Hd _].
  assert (Hgc : graphic c /\ c <> 48).
  { unfold day_multiplier in Hm. destruct (Z.eqb_spec c (ch "d")) as [->|_]; [done|].
    by destruct (Z.eqb_spec c (ch "w")) as [->|_]. }
  unfold ParseDuration. rewrite trim_space_graphic.
  2: { apply Forall_app. split; [eapply Forall_impl; [exact Hd|]; apply digit_graphic|]. apply Forall_app. split; [done|].
       constructor; [apply Hgc | done]. }
  rewrite app_assoc. rewrite (proj2 (str_eqb_neq _ [])) by by destruct (format_uint n ++ junk).
  rewrite (proj2 (str_eqb_neq _ (bs "0"))).
  2: { intros Heq. apply (f_equal (fun l => List.last l 0)) in Heq. rewrite last_snoc_Z in Heq. by destruct Hgc. }
  cbn [orb]. rewrite last_snoc_Z, Hm, removelast_last, sscanf_digits by done.
  destruct (n <? 2 ^ 63); [|done]. by rewrite (proj2 (Z.ltb_ge n 0)) by lia.
Qed.

(** A count of days or weeks below 2^63 is read as that many nanoseconds modulo
    2^64, with the sign bit of an int64: exact as long as the product is below 2^63,
    that is up to 106751 days.  Text between the count and the unit is ignored. *)
Theorem day_durations n junk c multiplier :
  0 <= n < 2 ^ 63 -> Forall graphic junk -> (match junk with x :: _ => ~ digit x | [] => True end) ->
  day_multiplier c = Some multiplier ->
  ParseDuration (format_uint n ++ junk ++ [c]) = Ok (wrap64 (n * multiplier))
  /\ (n * multiplier < 2 ^ 63 -> ParseDuration (format_uint n ++ junk ++ [c]) = Ok (n * multiplier))
  /\ (n <= 106751 -> c = ch "d" -> n * multiplier < 2 ^ 63).
Proof.
  intros Hn Hg Hj Hm. assert (Hp : 0 < multiplier).
  { unfold day_multiplier in Hm. destruct (c =? ch "d"); [by injection Hm as <-|]. destruct (c =? ch "w"); [by injection Hm as <- | done]. }
  rewrite (parse_day_count n junk c multiplier) by (done || lia). rewrite (proj2 (Z.ltb_lt _ _)) by lia.
  split; [done|]. split.
  - intros Hlt. do 2 f_equal. unfold wrap64. rewrite Z.mod_small by nia. lia.
  - intros Hle ->. change (day_multiplier (ch "d")) with (Some 86400000000000) in Hm. injection Hm as <-. lia.
Qed.

Lemma day_durations_witness :
  ParseDuration (bs "7d") = Ok (168 * Hour) /\ ParseDuration (bs "1.5d") = Ok (24 * Hour)
  /\ ParseDuration (bs "106752d") = Ok (wrap64 (106752 * (24 * Hour))) /\ (wrap64 (106752 * (24 * Hour)) <? 0) = true.
Proof.
  split_and!.
  - apply (day_durations 7 [] (ch "d") (24 * Hour)); (done || lia).
  - apply (day_durations 1 (bs ".5") (ch "d") (24 * Hour)); [lia| |change (~ digit 46); unfold digit; lia|done|done].
    vm_compute. repeat constructor; discriminate.
  - apply (day_durations 106752 [] (ch "d") (24 * Hour)); (done || lia).
  - done.
Defined.
