(* ===== verification/Program.v ===== *)
(** * Programs of concurrent goroutines

    A function of the code that shares state with others - the storage, the database, maps
    under a mutex - is a sequence of steps.  A [step] is a critical section; a [request] is a
    call to the outside, which waits until it is [ready], may fail, and may have had its
    effect nevertheless.  Programs are run in surroundings that interfere between their
    steps and decide which requests fail, or in a pool of goroutines that interleave. *)

From stdpp Require Import relations.
From S2P Require Export Prelude.

Declare Scope program_scope.
Delimit Scope program_scope with program.

Inductive program (W A : Type) : Type :=
  | return_ (a : A)
  | step {B : Type} (f : W -> B * W) (k : B -> program W A)
  | request {B : Type} (ready : W -> bool) (effectful : bool) (f : W -> B * W) (k : result B -> program W A).
Arguments return_ {W A} a.
Arguments step {W A B} f k.
Arguments request {W A B} ready effectful f k.

Fixpoint bind {W A B} (m : program W A) (k : A -> program W B) : program W B :=
  match m with
  | return_ a => k a
  | step f k' => step f (fun b => bind (k' b) k)
  | request ready effectful f k' => request ready effectful f (fun b => bind (k' b) k)
  end.

Notation "x <~ m ; k" := (bind m (fun x => k)) (at level 20, m at level 100, k at level 200) : program_scope.
Notation "' p <~ m ; k" := (bind m (fun x => let 'p := x in k))
  (at level 20, p pattern, m at level 100, k at level 200) : program_scope.
Open Scope program_scope.

Section operations.
Context {W A : Type}.

(** A call to the outside. *)
Definition call (f : W -> A * W) : program W (result A) := request (fun _ => true) true f return_.

(** A call without an effect when it fails. *)
Definition attempt (ready : W -> bool) (f : W -> A * W) : program W (result A) := request ready false f return_.

(** A critical section. *)
Definition atomically (f : W -> A * W) : program W A := step f return_.

(** A read of the world. *)
Definition query (f : W -> A) : program W (result A) := call (fun w => (f w, w)).

End operations.

(** [ctx.Err()]: the error of the context once it is done. *)
Definition ctx_err {W} : program W (option error) :=
  answer <~ query (fun _ : W => ()); return_ (match answer with Err e => Some e | Ok _ => None end).

(** ** One program in its surroundings *)

(** [interfere n] is what others do before the [n]-th step, [fault n] its failure when it is
    a request: whether the effect took place nevertheless, and the error. *)
Record surroundings (W : Type) := {
  interfere : nat -> W -> W;
  fault : nat -> option (bool * error);
}.
Arguments interfere {W} s n w.
Arguments fault {W} s n.

Definition DeadlineExceeded : error := Sentinel "context deadline exceeded".

(** The number of the next step and the world; a request that is not ready waits until the
    context is done. *)
Fixpoint exec {W A} (s : surroundings W) (m : program W A) (st : nat * W) : A * (nat * W) :=
  match m with
  | return_ a => (a, st)
  | step f k => let '(n, w) := st in let '(b, w) := f (interfere s n w) in exec s (k b) (S n, w)
  | request ready effectful f k =>
    let '(n, w) := st in
    let w := interfere s n w in
    match fault s n with
    | Some (effect, e) => exec s (k (Err e)) (S n, if (effect : bool) && effectful && ready w then (f w).2 else w)
    | None => if ready w then let '(b, w) := f w in exec s (k (Ok b)) (S n, w) else exec s (k (Err DeadlineExceeded)) (S n, w)
    end
  end.

(** A world nobody else changes and in which nothing fails. *)
Definition quiet {W} : surroundings W := {| interfere := fun _ w => w; fault := fun _ => None |}.

Definition run {W A} (s : surroundings W) (m : program W A) (w : W) : A * W := let '(a, (_, w)) := exec s m (O, w) in (a, w).

Lemma exec_bind {W A B} s (m : program W A) (k : A -> program W B) st :
  exec s (bind m k) st = let '(a, st) := exec s m st in exec s (k a) st.
Proof.
  revert st. induction m as [a|C f k' IH|C ready effectful f k' IH]; intros [n w]; cbn [bind exec]; [done|..].
  - destruct (f _) as [b w']. apply IH.
  - destruct (fault s n) as [[effect e]|]; [apply IH|]. destruct (ready _); [|apply IH]. destruct (f _) as [b w']. apply IH.
Qed.

(** *** Triples *)

Definition triple {W A} (s : surroundings W) (P : W -> Prop) (m : program W A) (Q : A -> W -> Prop) : Prop :=
  forall n w, P w -> Q (exec s m (n, w)).1 (exec s m (n, w)).2.2.

(** What others do keeps [P]. *)
Definition stable {W} (s : surroundings W) (P : W -> Prop) : Prop := forall n w, P w -> P (interfere s n w).

Section rules.
Context {W : Type} (s : surroundings W).

Lemma triple_return {A} (P : W -> Prop) (a : A) Q : (forall w, P w -> Q a w) -> triple s P (return_ a) Q.
Proof. intros H n w Hp. by apply H. Qed.

Lemma triple_bind {A B} P (m : program W A) (k : A -> program W B) Q R :
  triple s P m R -> (forall a, triple s (R a) (k a) Q) -> triple s P (bind m k) Q.
Proof.
  intros Hm Hk n w Hp. specialize (Hm n w Hp). rewrite exec_bind. destruct (exec s m (n, w)) as [a [n' w']]. by apply Hk.
Qed.

Lemma triple_call {A} (P R : W -> Prop) (f : W -> A * W) Q :
  (forall n w, P w -> R (interfere s n w)) -> (forall w, R w -> Q (Ok (f w).1) (f w).2) ->
  (forall w e, R w -> Q (Err e) w) -> (forall w e, R w -> Q (Err e) (f w).2) -> triple s P (call f) Q.
Proof.
  intros HR Hok He Hf n w Hp. specialize (HR n w Hp). cbn [exec call]. destruct (fault s n) as [[effect e]|]; cbn [fst snd].
  - destruct effect; [by apply Hf|by apply He].
  - specialize (Hok _ HR). by destruct (f (interfere s n w)).
Qed.

Lemma triple_attempt {A} (P R : W -> Prop) ready (f : W -> A * W) Q :
  (forall n w, P w -> R (interfere s n w)) -> (forall w, R w -> ready w = true -> Q (Ok (f w).1) (f w).2) ->
  (forall w e, R w -> Q (Err e) w) -> triple s P (attempt ready f) Q.
Proof.
  intros HR Hok He n w Hp. specialize (HR n w Hp). cbn [exec attempt]. destruct (fault s n) as [[effect e]|]; cbn [fst snd].
  - rewrite andb_false_r. by apply He.
  - destruct (ready _) eqn:E; [|by apply He]. specialize (Hok _ HR E). by destruct (f (interfere s n w)).
Qed.

Lemma triple_atomically {A} (P R : W -> Prop) (f : W -> A * W) Q :
  (forall n w, P w -> R (interfere s n w)) -> (forall w, R w -> Q (f w).1 (f w).2) -> triple s P (atomically f) Q.
Proof. intros HR H n w Hp. specialize (H _ (HR n w Hp)). cbn [exec atomically]. by destruct (f _). Qed.

Lemma triple_query {A} (P : W -> Prop) (f : W -> A) (Q : result A -> W -> Prop) :
  stable s P -> (forall w, P w -> Q (Ok (f w)) w) -> (forall w e, P w -> Q (Err e) w) -> triple s P (query f) Q.
Proof. intros Hs Hok He. by apply triple_call with P. Qed.

Lemma triple_ctx_err P : stable s P -> triple s P ctx_err (fun _ => P).
Proof.
  intros Hs. eapply triple_bind; [by apply (triple_query P (fun _ => ()) (fun _ => P))|]. intros a. by apply triple_return.
Qed.

Lemma triple_weaken {A} (P P' : W -> Prop) (m : program W A) (Q Q' : A -> W -> Prop) :
  triple s P m Q -> (forall w, P' w -> P w) -> (forall a w, Q a w -> Q' a w) -> triple s P' m Q'.
Proof. intros Hm HP HQ n w Hp. by apply HQ, Hm, HP. Qed.

Lemma triple_run {A} (P : W -> Prop) (m : program W A) Q w : triple s P m Q -> P w -> Q (run s m w).1 (run s m w).2.
Proof. intros H Hp. specialize (H O w Hp). unfold run. by destruct (exec s m (O, w)) as [a [n' w']]. Qed.

End rules.

(** *** Programs nothing interferes with *)

Section quiet_runs.
Context {W : Type}.

Lemma call_quiet {A} (f : W -> A * W) n w : exec quiet (call f) (n, w) = (Ok (f w).1, (S n, (f w).2)).
Proof. cbn. by destruct (f w). Qed.

Lemma attempt_quiet {A} ready (f : W -> A * W) n w :
  ready w = true -> exec quiet (attempt ready f) (n, w) = (Ok (f w).1, (S n, (f w).2)).
Proof. intros Hr. cbn. rewrite Hr. by destruct (f w). Qed.

Lemma atomically_quiet {A} (f : W -> A * W) n w : exec quiet (atomically f) (n, w) = ((f w).1, (S n, (f w).2)).
Proof. cbn. by destruct (f w). Qed.

Lemma ctx_err_quiet n (w : W) : exec quiet ctx_err (n, w) = (None, (S n, w)).
Proof. done. Qed.

(** [m] takes [w] to [w'] and returns [a]. *)
Definition runs {A} (m : program W A) (w : W) (a : A) (w' : W) : Prop := forall n, exists n', exec quiet m (n, w) = (a, (n', w')).

Lemma runs_run {A} (m : program W A) w a w' : runs m w a w' -> run quiet m w = (a, w').
Proof. intros Hr. unfold run. by destruct (Hr O) as [n' ->]. Qed.

Lemma runs_return {A} (a : A) w : runs (return_ a) w a w.
Proof. intros n. by exists n. Qed.

Lemma runs_bind {A B} (m : program W A) (k : A -> program W B) w a w1 b w2 :
  runs m w a w1 -> runs (k a) w1 b w2 -> runs (bind m k) w b w2.
Proof. intros Hm Hk n. rewrite exec_bind. destruct (Hm n) as [n1 ->]. apply Hk. Qed.

Lemma runs_step {A} (f : W -> A * W) w : runs (atomically f) w (f w).1 (f w).2.
Proof. intros n. rewrite atomically_quiet. by eexists. Qed.

Lemma runs_request {A} ready effectful (f : W -> A * W) w :
  ready w = true -> runs (request ready effectful f return_) w (Ok (f w).1) (f w).2.
Proof. intros Hr n. cbn. rewrite Hr. destruct (f w). by eexists. Qed.

Lemma runs_query {A} (f : W -> A) w : runs (query f) w (Ok (f w)) w.
Proof. by apply (runs_request (fun _ => true) true (fun w => (f w, w))). Qed.

Lemma runs_ctx_err w : runs ctx_err w None w.
Proof. intros n. by eexists. Qed.

End quiet_runs.

(** ** Goroutines that interleave *)

Section pools.
Context {W A : Type}.

(** One step of a goroutine: a request that fails may do so with or without its effect, and
    fails, too, when what it waits for does not come. *)
Definition program_step (m : program W A) (w : W) (m' : program W A) (w' : W) : Prop :=
  match m with
  | return_ _ => False
  | step f k => m' = k (f w).1 /\ w' = (f w).2
  | request ready effectful f k =>
    (ready w = true /\ m' = k (Ok (f w).1) /\ w' = (f w).2)
    \/ (exists e, m' = k (Err e) /\ (w' = w \/ (effectful = true /\ ready w = true /\ w' = (f w).2)))
  end.

(** Any goroutine of a pool makes its next step, as long as the world is [bounded]. *)
Definition pool_step (bounded : W -> Prop) (s s' : list (program W A) * W) : Prop :=
  exists i m m', s.1 !! i = Some m /\ program_step m s.2 m' s'.2 /\ bounded s'.2 /\ s'.1 = <[i := m']> s.1.

(** *** Schedules

    Which goroutine makes its next step, and whether that request fails. *)

Definition play_step (m : program W A) (fails : option (bool * error)) (w : W) : option (program W A * W) :=
  match m with
  | return_ _ => None
  | step f k => let '(b, w) := f w in Some (k b, w)
  | request ready effectful f k =>
    match fails with
    | Some (effect, e) => Some (k (Err e), if effect && effectful && ready w then (f w).2 else w)
    | None => if ready w then let '(b, w) := f w in Some (k (Ok b), w) else None
    end
  end.

Fixpoint play (bounded : W -> bool) (schedule : list (nat * option (bool * error))) (s : list (program W A) * W)
    : option (list (program W A) * W) :=
  match schedule with
  | [] => Some s
  | (i, fails) :: schedule =>
    match s.1 !! i with
    | Some m =>
      match play_step m fails s.2 with
      | Some (m, w) => if bounded w then play bounded schedule (<[i := m]> s.1, w) else None
      | None => None
      end
    | None => None
    end
  end.

Lemma play_step_sound m fails w m' w' : play_step m fails w = Some (m', w') -> program_step m w m' w'.
Proof.
  destruct m as [a|B f k|B ready effectful f k]; cbn; [done|..].
  - destruct (f w) as [b w2]. by intros [= <- <-].
  - destruct fails as [[effect e]|]; [intros [= <- <-]; right; exists e; split; [done|]|].
    + destruct (effect && effectful && ready w) eqn:E; [|by left]. apply andb_prop in E as [[_ ->]%andb_prop ->]. by right.
    + destruct (ready w) eqn:E; [|done]. destruct (f w) as [b w2]. intros [= <- <-]. by left.
Qed.

Lemma play_sound (boundedb : W -> bool) bounded schedule s s' :
  (forall w, boundedb w = true -> bounded w) -> play boundedb schedule s = Some s' -> rtc (pool_step bounded) s s'.
Proof.
  intros Hb. revert s. induction schedule as [|[i fails] schedule IH]; intros s; cbn [play]; [by intros [= ->]|].
  destruct (s.1 !! i) as [m|] eqn:Hm; [|done]. destruct (play_step _ _ _) as [[m' w']|] eqn:Hs; [|done].
  destruct (boundedb w') eqn:E; [|done]. intros Hp. eapply rtc_l; [|by apply IH]. exists i, m, m'.
  split_and!; [done|by eapply play_step_sound|by apply Hb|done].
Qed.

(** What goroutine [i] has returned, and the world, after a schedule. *)
Definition outcome (bounded : W -> bool) (schedule : list (nat * option (bool * error))) (s : list (program W A) * W) (i : nat)
    : option (A * W) :=
  match play bounded schedule s with
  | Some (ms, w) => match ms !! i with Some (return_ a) => Some (a, w) | _ => None end
  | None => None
  end.

Lemma outcome_reached (boundedb : W -> bool) bounded schedule s i a w :
  (forall w, boundedb w = true -> bounded w) -> outcome boundedb schedule s i = Some (a, w) ->
  exists ms, rtc (pool_step bounded) s (ms, w) /\ ms !! i = Some (return_ a).
Proof.
  intros Hb. unfold outcome. destruct (play _ _ _) as [[ms w']|] eqn:Hp; [|done]. destruct (ms !! i) as [[b| |]|] eqn:Hm; try done.
  intros [= -> ->]. exists ms. split; [by eapply play_sound|done].
Qed.

(** *** Rely and guarantee

    [invariant] holds between any two steps; [rely i] is what the other goroutines may do,
    seen by goroutine [i], and what goroutine [i] guarantees is what all others rely on. *)
Record protocol := {
  bounded : W -> Prop;
  invariant : W -> Prop;
  rely : nat -> W -> W -> Prop;
  rely_refl i w : rely i w w;
  rely_trans i w w' w'' : rely i w w' -> rely i w' w'' -> rely i w w'';
}.

Context (p : protocol).

Definition good (i : nat) (w w' : W) : Prop := invariant p w' /\ forall j, j <> i -> rely p j w w'.

Fixpoint verified (i : nat) (Q : A -> W -> Prop) (m : program W A) (w : W) : Prop :=
  match m with
  | return_ a => forall w', rely p i w w' -> invariant p w' -> Q a w'
  | step f k => forall w', rely p i w w' -> invariant p w' -> bounded p (f w').2 ->
      good i w' (f w').2 /\ verified i Q (k (f w').1) (f w').2
  | request ready effectful f k => forall w', rely p i w w' -> invariant p w' ->
      (ready w' = true -> bounded p (f w').2 -> good i w' (f w').2 /\ verified i Q (k (Ok (f w').1)) (f w').2)
      /\ (forall e, verified i Q (k (Err e)) w')
      /\ (forall e, effectful = true -> ready w' = true -> bounded p (f w').2 ->
            good i w' (f w').2 /\ verified i Q (k (Err e)) (f w').2)
  end.

Lemma verified_rely i Q m w w' : verified i Q m w -> rely p i w w' -> verified i Q m w'.
Proof. destruct m; cbn [verified]; intros Hv Hr w'' Hr'; apply Hv; by eapply rely_trans. Qed.

Lemma verified_step i Q m w m' w' :
  verified i Q m w -> invariant p w -> program_step m w m' w' -> bounded p w' -> good i w w' /\ verified i Q m' w'.
Proof.
  destruct m as [a|B f k|B ready effectful f k]; cbn [verified program_step]; intros Hv Hi Hs Hb; [done|..].
  - destruct Hs as [-> ->]. apply Hv; [apply rely_refl|done|done].
  - destruct (Hv w (rely_refl p i w) Hi) as (Hok & He & Hf).
    destruct Hs as [(Hr & -> & ->)|(e & -> & [->|(Heff & Hr & ->)])]; [by apply Hok| |by apply Hf].
    split; [|apply He]. split; [done|]. intros j _. apply rely_refl.
Qed.

Definition pool_verified (Q : nat -> A -> W -> Prop) (s : list (program W A) * W) : Prop :=
  invariant p s.2 /\ forall i m, s.1 !! i = Some m -> verified i (Q i) m s.2.

(** Verified goroutines stay verified whatever the interleaving. *)
Lemma pool_sound Q s s' : pool_verified Q s -> rtc (pool_step (bounded p)) s s' -> pool_verified Q s'.
Proof.
  intros Hv Hs. induction Hs as [|s s1 s2 Hstep _ IH]; [done|]. apply IH. destruct Hv as [Hi Hv].
  destruct Hstep as (i & m & m' & Hm & Hst & Hb & Hps). destruct s as [ms w], s1 as [ms1 w1]. cbn [fst snd] in *. subst ms1.
  destruct (verified_step i (Q i) m w m' w1 (Hv i m Hm) Hi Hst Hb) as [[Hi' Hg] Hv']. split; [done|].
  intros j n Hn. cbn [fst snd] in *. apply list_lookup_insert_Some in Hn as [(<- & -> & _)|(Hne & Hn)]; [done|].
  apply (verified_rely j _ _ w); [by apply Hv|]. by apply Hg.
Qed.

(** What they do is what those outside of the pool rely on. *)
Lemma pool_outside Q s s' j : pool_verified Q s -> rtc (pool_step (bounded p)) s s' -> (length s.1 <= j)%nat -> rely p j s.2 s'.2.
Proof.
  intros Hv Hs. revert Hv. induction Hs as [s|s s1 s2 Hstep Hs IH]; intros Hv Hj; [apply rely_refl|].
  assert (pool_verified Q s1) as Hv1 by (eapply pool_sound; [exact Hv|by apply rtc_once]).
  destruct Hstep as (i & m & m' & Hm & Hst & Hb & Hps). destruct s as [ms w], s1 as [ms1 w1]. cbn [fst snd] in *. subst ms1.
  apply (rely_trans p j w w1); [|apply IH; [done|by rewrite length_insert]]. destruct Hv as [Hi Hv].
  destruct (verified_step i (Q i) m w m' w1 (Hv i m Hm) Hi Hst Hb) as [[_ Hg] _]. apply Hg. intros ->.
  apply lookup_lt_Some in Hm. lia.
Qed.

Lemma pool_returned Q s i a : pool_verified Q s -> s.1 !! i = Some (return_ a) -> Q i a s.2.
Proof. intros [Hi Hv] Hr. apply (Hv i _ Hr); [apply rely_refl|done]. Qed.

End pools.
Arguments protocol W : clear implicits.

(** *** Rules *)

Section hoare.
Context {W : Type} (p : protocol W) (i : nat).

Definition hoare {A} (P : W -> Prop) (m : program W A) (Q : A -> W -> Prop) : Prop :=
  forall w, invariant p w -> P w -> verified p i Q m w.

(** What the others do keeps the assertion. *)
Definition steady (P : W -> Prop) : Prop := forall w w', P w -> rely p i w w' -> invariant p w' -> P w'.

Lemma hoare_return {A} (a : A) (P : W -> Prop) (Q : A -> W -> Prop) :
  steady P -> (forall w, invariant p w -> P w -> Q a w) -> hoare P (return_ a) Q.
Proof. intros Hs Hq w Hi Hp w' Hr Hi'. apply Hq; [done|]. by apply (Hs w). Qed.

Lemma hoare_bind {A B} (m : program W A) (k : A -> program W B) P R Q :
  hoare P m R -> (forall a, hoare (R a) (k a) Q) -> hoare P (bind m k) Q.
Proof.
  intros Hm Hk w Hi Hp. specialize (Hm w Hi Hp). clear Hp. revert w Hi Hm.
  induction m as [a|C f k' IH|C ready effectful f k' IH]; intros w Hi Hm; cbn [bind verified] in *.
  - apply Hk; [done|]. apply Hm; [apply rely_refl|done].
  - intros w' Hr Hi' Hb. destruct (Hm w' Hr Hi' Hb) as [Hg Hv]. split; [done|]. apply IH; [by apply Hg|done].
  - intros w' Hr Hi'. destruct (Hm w' Hr Hi') as (Hok & He & Hf). split_and!.
    + intros Hready Hb. destruct (Hok Hready Hb) as [Hg Hv]. split; [done|]. apply IH; [by apply Hg|done].
    + intros e. by apply IH.
    + intros e Heff Hready Hb. destruct (Hf e Heff Hready Hb) as [Hg Hv]. split; [done|]. apply IH; [by apply Hg|done].
Qed.

Lemma hoare_weaken {A} (m : program W A) (P P' : W -> Prop) (Q Q' : A -> W -> Prop) :
  hoare P m Q -> (forall w, invariant p w -> P' w -> P w) -> (forall a w, invariant p w -> Q a w -> Q' a w) -> hoare P' m Q'.
Proof.
  intros Hm HP HQ w Hi Hp. specialize (Hm w Hi (HP w Hi Hp)). clear Hp. revert w Hi Hm.
  induction m as [a|C f k IH|C ready effectful f k IH]; intros w Hi Hm; cbn [verified] in *.
  - intros w' Hr Hi'. apply HQ; [done|]. by apply Hm.
  - intros w' Hr Hi' Hb. destruct (Hm w' Hr Hi' Hb) as [Hg Hv]. split; [done|]. apply IH; [by apply Hg|done].
  - intros w' Hr Hi'. destruct (Hm w' Hr Hi') as (Hok & He & Hf). split_and!.
    + intros Hready Hb. destruct (Hok Hready Hb) as [Hg Hv]. split; [done|]. apply IH; [by apply Hg|done].
    + intros e. by apply IH.
    + intros e Heff Hready Hb. destruct (Hf e Heff Hready Hb) as [Hg Hv]. split; [done|]. apply IH; [by apply Hg|done].
Qed.

(** A fact that the precondition gives does not change. *)
Lemma hoare_pre_pure {A} (phi : Prop) (m : program W A) (P : W -> Prop) (Q : A -> W -> Prop) :
  (forall w, P w -> phi) -> (phi -> hoare P m Q) -> hoare P m Q.
Proof. intros Hphi Hm w Hi Hp. by apply Hm; [apply (Hphi w)|..]. Qed.

Lemma hoare_pre_ex {A B} (m : program W A) (P : B -> W -> Prop) (Q : A -> W -> Prop) :
  (forall b, hoare (P b) m Q) -> hoare (fun w => exists b, P b w) m Q.
Proof. intros Hm w Hi [b Hp]. by apply (Hm b). Qed.

(** One step, whose continuation returns its answer. *)
Definition sound_step {B} (P : W -> Prop) (f : W -> B * W) (Q : B -> W -> Prop) : Prop :=
  forall w, invariant p w -> P w -> bounded p (f w).2 -> good p i w (f w).2 /\ Q (f w).1 (f w).2.

Lemma hoare_step {A} (f : W -> A * W) P Q :
  steady P -> (forall a, steady (Q a)) -> sound_step P f Q -> hoare P (atomically f) Q.
Proof.
  intros Hs HQ Hf w Hi Hp w' Hr Hi' Hb. destruct (Hf w' Hi' (Hs _ _ Hp Hr Hi') Hb) as [Hg Hq]. split; [done|].
  intros w'' Hr' Hi''. by apply (HQ _ (f w').2).
Qed.

Lemma hoare_request {A} (ready : W -> bool) effectful (f : W -> A * W) P (Q : result A -> W -> Prop) :
  steady P -> (forall a, steady (Q a)) ->
  sound_step (fun w => P w /\ ready w = true) f (fun a w => Q (Ok a) w /\ (effectful = true -> forall e, Q (Err e) w)) ->
  (forall w e, invariant p w -> P w -> Q (Err e) w) -> hoare P (request ready effectful f return_) Q.
Proof.
  intros Hs HQ Hf He w Hi Hp w' Hr Hi'. specialize (Hs _ _ Hp Hr Hi'). split_and!.
  - intros Hready Hb. destruct (Hf w' Hi' (conj Hs Hready) Hb) as [Hg [Hq _]]. split; [done|].
    intros w'' Hr' Hi''. by apply (HQ _ (f w').2).
  - intros e w'' Hr' Hi''. apply (HQ _ w'); [by apply He|done|done].
  - intros e Heff Hready Hb. destruct (Hf w' Hi' (conj Hs Hready) Hb) as [Hg [_ Hq]]. split; [done|].
    intros w'' Hr' Hi''. apply (HQ _ (f w').2); [by apply Hq|done|done].
Qed.

(** A request that only reads. *)
Lemma hoare_read {A} ready effectful (f : W -> A) P (Q : result A -> W -> Prop) :
  steady P -> (forall a, steady (Q a)) -> (forall w, invariant p w -> P w -> ready w = true -> Q (Ok (f w)) w) ->
  (forall w e, invariant p w -> P w -> Q (Err e) w) -> hoare P (request ready effectful (fun w => (f w, w)) return_) Q.
Proof.
  intros Hs HQ Hok He. apply hoare_request; [done|done| |done]. intros w Hi [Hp Hready] _. split.
  - split; [done|]. intros j _. apply rely_refl.
  - split; [by apply Hok|]. intros _ e. by apply He.
Qed.

Lemma hoare_look {A} (f : W -> A) P (Q : A -> W -> Prop) :
  steady P -> (forall a, steady (Q a)) -> (forall w, invariant p w -> P w -> Q (f w) w) -> hoare P (atomically (fun w => (f w, w))) Q.
Proof.
  intros Hs HQ Hq. apply hoare_step; [done|done|]. intros w Hi Hp _. split; [|by apply Hq].
  split; [done|]. intros j _. apply rely_refl.
Qed.

Lemma hoare_ctx_err P (Q : option error -> W -> Prop) :
  steady P -> (forall w e, invariant p w -> P w -> Q e w) -> hoare P ctx_err Q.
Proof.
  intros Hs Hq. eapply (hoare_bind _ _ _ (fun _ => P)); [apply hoare_read; try done|].
  intros a. apply hoare_return; [done|]. intros w Hi Hp. by apply Hq.
Qed.

End hoare.
