(* ===== verification/Retention.v ===== *)
(** * Removal of cache entries (internal/cache/retention.go)

    [Remove], [RemoveIfMatches], [Reclaim], [ReclaimRetired] and [Preview] over the rows of
    the cache table, the objects of the storage and what interrupted uploads left behind.
    Other goroutines may change all of it between two calls, and every call may fail. *)

From stdpp Require Import gmap sorting.
From S2P Require Export GoStrings Duration Program.

(** ** The world *)

(** [db.CacheEntry], as far as retention reads it; times in nanoseconds. *)
Record CacheEntry := {
  ce_ID : Z;
  ce_Key : gostring;
  ce_AdapterType : gostring;
  ce_PackageName : gostring;
  ce_Size : Z;
  ce_HitCount : Z;
  ce_LastAccessed : Z;
  ce_ExpiresAt : Z;
  ce_StoragePath : gostring;
}.

#[global] Instance CacheEntry_eq_dec : EqDecision CacheEntry.
Proof. solve_decision. Defined.

(** The rows in the order of their ids, the objects and inactive staging files with their
    sizes ([None] when the storage is no [StagingObjectStore]), the paths of the objects
    others have written without their row yet, and the key this goroutine holds the
    mutation gate of. *)
Record world := {
  w_rows : list CacheEntry;
  w_objects : gmap gostring Z;
  w_staging : option (gmap gostring Z);
  w_filling : gset gostring;
  w_held : option gostring;
}.

Definition with_rows (w : world) (rows : list CacheEntry) : world :=
  {| w_rows := rows; w_objects := w_objects w; w_staging := w_staging w; w_filling := w_filling w; w_held := w_held w |}.
Definition with_objects (w : world) (objects : gmap gostring Z) : world :=
  {| w_rows := w_rows w; w_objects := objects; w_staging := w_staging w; w_filling := w_filling w; w_held := w_held w |}.
Definition with_staging (w : world) (staging : option (gmap gostring Z)) : world :=
  {| w_rows := w_rows w; w_objects := w_objects w; w_staging := staging; w_filling := w_filling w; w_held := w_held w |}.
Definition with_held (w : world) (held : option gostring) : world :=
  {| w_rows := w_rows w; w_objects := w_objects w; w_staging := w_staging w; w_filling := w_filling w; w_held := held |}.

(** *** Calls *)

Definition sizes (objects : gmap gostring Z) : Z := foldr (fun object total => object.2 + total) 0 (map_to_list objects).

(** [Storage.TotalSize] counts staging files too. *)
Definition total_size (w : world) : Z := sizes (w_objects w) + sizes (default ∅ (w_staging w)).

Definition TotalSize : program world (result Z) := query total_size.
Definition Exists (path : gostring) : program world (result bool) := query (fun w => bool_decide (is_Some (w_objects w !! path))).
(** Deleting what does not exist succeeds. *)
Definition Delete (path : gostring) : program world (result unit) := call (fun w => ((), with_objects w (delete path (w_objects w)))).

(** The mutation gate: a failed [lock] does not hold it. *)
Definition lock (key : gostring) : program world (result unit) := attempt (fun _ => true) (fun w => ((), with_held w (Some key))).
Definition unlock : program world unit := atomically (fun w => ((), with_held w None)).

Definition find_row (rows : list CacheEntry) (id : Z) : option CacheEntry := head (filter (fun row => ce_ID row = id) rows).

(** [db.First(&row, id)]; [None] is [gorm.ErrRecordNotFound]. *)
Definition First (id : Z) : program world (result (option CacheEntry)) := query (fun w => find_row (w_rows w) id).

(** [Where("id = ? AND key = ?").Delete]: the number of rows deleted. *)
Definition delete_row (id : Z) (key : gostring) : program world (result Z) := call (fun w =>
  (len (filter (fun row => ce_ID row = id /\ ce_Key row = key) (w_rows w)),
   with_rows w (filter (fun row => ~ (ce_ID row = id /\ ce_Key row = key)) (w_rows w)))).

(** [datetime(t)] of SQLite: whole seconds. *)
Definition datetime (t : Z) : Z := t / Second.
Definition expired_row (now : Z) (row : CacheEntry) : bool := datetime (ce_ExpiresAt row) <? datetime now.

(** [ORDER BY column, id]. *)
Definition ordered_by (column : CacheEntry -> Z) (row row' : CacheEntry) : Prop :=
  column row < column row' \/ (column row = column row' /\ ce_ID row <= ce_ID row').
#[global] Instance ordered_by_dec column : RelDecision (ordered_by column).
Proof. intros row row'. unfold ordered_by. apply _. Defined.

Definition expired_rows (now : Z) (rows : list CacheEntry) : list CacheEntry :=
  merge_sort (ordered_by ce_ExpiresAt) (filter (fun row => expired_row now row = true) rows).
Definition fresh_rows (now : Z) (rows : list CacheEntry) : list CacheEntry :=
  merge_sort (ordered_by ce_LastAccessed) (filter (fun row => expired_row now row = false) rows).

(** ** Policy *)

Record RetentionPolicy := { rp_MaxBytes : Z; rp_ThresholdPercent : Z; rp_TargetPercent : Z }.

Definition DefaultRetentionPolicy (maxBytes thresholdPercent : Z) : RetentionPolicy :=
  let targetPercent := thresholdPercent - 10 in
  let targetPercent := if targetPercent >? 80 then 80 else targetPercent in
  let targetPercent := if targetPercent <? 0 then 0 else targetPercent in
  {| rp_MaxBytes := maxBytes; rp_ThresholdPercent := thresholdPercent; rp_TargetPercent := targetPercent |}.

Record Retention := { rt_policy : RetentionPolicy; rt_threshold : Z; rt_target : Z }.

(** Division of positive numbers; the products are computed in an int64. *)
Definition percentOf (total percent : Z) : Z :=
  let quotient := Z.quot total 100 in
  let remainder := Z.rem total 100 in
  wrap64 (wrap64 (quotient * percent) + Z.quot (wrap64 (remainder * percent)) 100).

Definition NewRetention (policy : RetentionPolicy) : result Retention :=
  if rp_MaxBytes policy <=? 0 then fail "cache retention: max bytes must be positive" else
  if (rp_ThresholdPercent policy <? 1) || (rp_ThresholdPercent policy >? 100)
  then fail "cache retention: threshold percent must be between 1 and 100" else
  if (rp_TargetPercent policy <? 0) || (rp_TargetPercent policy >? 100)
  then fail "cache retention: target percent must be between 0 and 100" else
  if rp_TargetPercent policy >=? rp_ThresholdPercent policy
  then fail "cache retention: target percent must be below threshold percent" else
  Ok {| rt_policy := policy; rt_threshold := percentOf (rp_MaxBytes policy) (rp_ThresholdPercent policy);
        rt_target := percentOf (rp_MaxBytes policy) (rp_TargetPercent policy) |}.

(** ** Removing one entry *)

Definition ErrCacheEntryNotFound : error := Sentinel "cache entry not found".
Definition ErrReclaimTargetNotReached : error := Sentinel "cache reclaim target not reached".

Record Removal := { rm_ID : Z; rm_Key : gostring; rm_ReclaimedBytes : Z; rm_ObjectRemoved : bool; rm_MetadataRemoved : bool }.

Definition candidatePredicate := CacheEntry -> bool.

(** The part of [removeCandidate] that deletes: the object, then the row. *)
Definition remove_current (current : CacheEntry) : program world (Removal * bool * option error) :=
  let removal := {| rm_ID := ce_ID current; rm_Key := ce_Key current; rm_ReclaimedBytes := 0; rm_ObjectRemoved := false;
                    rm_MetadataRemoved := false |} in
  exists_ <~ Exists (ce_StoragePath current);
  match exists_ with
  | Err e => return_ (removal, true, Some (Errorf "check cache object %q: %w" [e]))
  | Ok exists_ =>
    deleted <~ (if (exists_ : bool) then Delete (ce_StoragePath current) else return_ (Ok ()));
    match deleted with
    | Err e => return_ (removal, true, Some (Errorf "delete cache object %q: %w" [e]))
    | Ok _ =>
      let removal := {| rm_ID := ce_ID current; rm_Key := ce_Key current;
                        rm_ReclaimedBytes := if exists_ then Z.max 0 (ce_Size current) else 0;
                        rm_ObjectRemoved := exists_; rm_MetadataRemoved := false |} in
      rows <~ delete_row (ce_ID current) (ce_Key current);
      return_ match rows with
      | Err e => (removal, true, Some (Errorf "delete cache entry %d: %w" [e]))
      | Ok n =>
        if negb (n =? 1) then (removal, true, Some (Errorf "delete cache entry %d: expected one row, deleted %d" []))
        else ({| rm_ID := ce_ID current; rm_Key := ce_Key current; rm_ReclaimedBytes := rm_ReclaimedBytes removal;
                 rm_ObjectRemoved := rm_ObjectRemoved removal; rm_MetadataRemoved := true |}, true, None)
      end
    end
  end.

(** What [removeCandidate] does while it holds the gate of the key. *)
Definition remove_locked (candidate : CacheEntry) (predicate : option candidatePredicate) (removal : Removal)
    : program world (Removal * bool * option error) :=
  current <~ First (ce_ID candidate);
  match current with
  | Err e => return_ (removal, false, Some (Errorf "re-read cache entry %d: %w" [e]))
  | Ok None => return_ (removal, false, None)
  | Ok (Some current) =>
    if negb (str_eqb (ce_Key current) (ce_Key candidate))
    then return_ (removal, false, Some (Errorf "cache entry %d changed key while awaiting mutation lock" []))
    else if match predicate with Some p => negb (p current) | None => false end then return_ (removal, false, None)
    else remove_current current
  end.

Definition removeCandidate (candidate : CacheEntry) (predicate : option candidatePredicate)
    : program world (Removal * bool * option error) :=
  let removal := {| rm_ID := ce_ID candidate; rm_Key := ce_Key candidate; rm_ReclaimedBytes := 0; rm_ObjectRemoved := false;
                    rm_MetadataRemoved := false |} in
  locked <~ lock (ce_Key candidate);
  match locked with
  | Err e => return_ (removal, false, Some (Errorf "lock cache entry %q: %w" [e]))
  | Ok _ => answer <~ remove_locked candidate predicate removal; _ <~ unlock; return_ answer
  end.

Definition no_removal : Removal :=
  {| rm_ID := 0; rm_Key := []; rm_ReclaimedBytes := 0; rm_ObjectRemoved := false; rm_MetadataRemoved := false |}.

Definition Remove (id : Z) : program world (Removal * option error) :=
  if id =? 0 then return_ (no_removal, Some (Errorf "%w: id %d" [ErrCacheEntryNotFound])) else
  candidate <~ First id;
  match candidate with
  | Err e => return_ (no_removal, Some (Errorf "read cache entry %d: %w" [e]))
  | Ok None => return_ (no_removal, Some (Errorf "%w: id %d" [ErrCacheEntryNotFound]))
  | Ok (Some candidate) =>
    answer <~ removeCandidate candidate None;
    let '(removal, attempted, err) := answer in
    return_ match err with
    | Some e => (removal, Some e)
    | None => if negb (attempted : bool) || negb (rm_MetadataRemoved removal) then (removal, Some (Errorf "%w: id %d" [ErrCacheEntryNotFound]))
              else (removal, None)
    end
  end.

(** [PreviewEntry] as a row and its reason; the columns are those of the row, with a size
    that is not negative. *)
Definition preview_entry (row : CacheEntry) : CacheEntry :=
  {| ce_ID := ce_ID row; ce_Key := ce_Key row; ce_AdapterType := ce_AdapterType row; ce_PackageName := ce_PackageName row;
     ce_Size := Z.max (ce_Size row) 0; ce_HitCount := ce_HitCount row; ce_LastAccessed := ce_LastAccessed row;
     ce_ExpiresAt := ce_ExpiresAt row; ce_StoragePath := [] |}.

Definition still_matches (candidate current : CacheEntry) : bool :=
  str_eqb (ce_Key current) (ce_Key candidate) && (ce_Size current =? ce_Size candidate)
  && str_eqb (ce_AdapterType current) (ce_AdapterType candidate) && str_eqb (ce_PackageName current) (ce_PackageName candidate)
  && (ce_ExpiresAt current =? ce_ExpiresAt candidate) && (ce_LastAccessed current =? ce_LastAccessed candidate).

Definition RemoveIfMatches (candidate : CacheEntry) : program world (Removal * bool * option error) :=
  removeCandidate candidate (Some (still_matches candidate)).

(** ** Reclaiming *)

Definition ReclaimModeManual : gostring := bs "manual".
Definition ReclaimModeCapacity : gostring := bs "capacity".

Record ReclaimReport := {
  rr_Examined : Z; rr_Removed : Z; rr_Failed : Z; rr_ReclaimedBytes : Z; rr_ExpiredRemoved : Z; rr_LRURemoved : Z;
  rr_StagingRemoved : Z; rr_StagingFailures : Z; rr_UsageBefore : Z; rr_UsageAfter : Z;
}.

Definition empty_report : ReclaimReport :=
  {| rr_Examined := 0; rr_Removed := 0; rr_Failed := 0; rr_ReclaimedBytes := 0; rr_ExpiredRemoved := 0; rr_LRURemoved := 0;
     rr_StagingRemoved := 0; rr_StagingFailures := 0; rr_UsageBefore := 0; rr_UsageAfter := 0 |}.

(** A pass so far: its report, the usage it reckons with and the collected errors. *)
Record pass := { ps_report : ReclaimReport; ps_usage : Z; ps_errors : list error }.

Definition with_error (p : pass) (e : error) : pass :=
  {| ps_report := ps_report p; ps_usage := ps_usage p; ps_errors := ps_errors p ++ [e] |}.

Definition with_usage (p : pass) (before : bool) (usage : Z) : pass :=
  let r := ps_report p in
  {| ps_report := {| rr_Examined := rr_Examined r; rr_Removed := rr_Removed r; rr_Failed := rr_Failed r;
                     rr_ReclaimedBytes := rr_ReclaimedBytes r; rr_ExpiredRemoved := rr_ExpiredRemoved r; rr_LRURemoved := rr_LRURemoved r;
                     rr_StagingRemoved := rr_StagingRemoved r; rr_StagingFailures := rr_StagingFailures r;
                     rr_UsageBefore := if before then usage else rr_UsageBefore r; rr_UsageAfter := usage |};
     ps_usage := usage; ps_errors := ps_errors p |}.

(** Which counter a removed entry is counted in. *)
Inductive reclaim_cause := cause_expired | cause_lru | cause_retired.

Definition cause_text (cause : reclaim_cause) : string :=
  match cause with
  | cause_expired => "remove expired cache entry %d: %w"
  | cause_lru => "remove LRU cache entry %d: %w"
  | cause_retired => "remove retired cache entry %d: %w"
  end.

(** The bookkeeping of a loop after [removeCandidate]. *)
Definition account (cause : reclaim_cause) (p : pass) (answer : Removal * bool * option error) : pass :=
  let '(removal, attempted, err) := answer in
  let r := ps_report p in
  let one (b : bool) : Z := if b then 1 else 0 in
  let removed := match err with None => rm_MetadataRemoved removal | Some _ => false end in
  {| ps_report :=
       {| rr_Examined := rr_Examined r + 1;
          rr_Removed := rr_Removed r + one removed;
          rr_Failed := rr_Failed r + one (match err with Some _ => true | None => false end);
          rr_ReclaimedBytes := if attempted then wrap64 (rr_ReclaimedBytes r + rm_ReclaimedBytes removal) else rr_ReclaimedBytes r;
          rr_ExpiredRemoved := rr_ExpiredRemoved r + one (removed && match cause with cause_expired => true | _ => false end);
          rr_LRURemoved := rr_LRURemoved r + one (removed && match cause with cause_lru => true | _ => false end);
          rr_StagingRemoved := rr_StagingRemoved r; rr_StagingFailures := rr_StagingFailures r;
          rr_UsageBefore := rr_UsageBefore r; rr_UsageAfter := rr_UsageAfter r |};
     ps_usage := if attempted then Z.max 0 (ps_usage p - rm_ReclaimedBytes removal) else ps_usage p;
     ps_errors := ps_errors p ++ match err with Some e => [Errorf (cause_text cause) [e]] | None => [] end |}.

(** The loops over candidates; [enough] is the usage at which the LRU loop stops. *)
Fixpoint remove_loop (cause : reclaim_cause) (enough : Z -> bool) (predicate : option candidatePredicate) (candidates : list CacheEntry)
    (p : pass) : program world pass :=
  match candidates with
  | [] => return_ p
  | candidate :: candidates =>
    cancelled <~ ctx_err;
    match cancelled with
    | Some e => return_ (with_error p e)
    | None =>
      if enough (ps_usage p) then return_ p else
      answer <~ removeCandidate candidate predicate;
      remove_loop cause enough predicate candidates (account cause p answer)
    end
  end.

(** *** Staging files *)

(** The listed keys; a storage without the capability lists none. *)
Definition ListStaging : program world (result (list (gostring * Z))) := query (fun w => map_to_list (default ∅ (w_staging w))).
Definition RemoveStaging (key : gostring) : program world (result bool) := call (fun w =>
  (bool_decide (is_Some (default ∅ (w_staging w) !! key)), with_staging w (delete key <$> w_staging w))).

Fixpoint staging_loop (candidates : list (gostring * Z)) (removed reclaimed : Z) (errors : list error)
    : program world (Z * Z * list error) :=
  match candidates with
  | [] => return_ (removed, reclaimed, errors)
  | (key, size) :: candidates =>
    cancelled <~ ctx_err;
    match cancelled with
    | Some e => return_ (removed, reclaimed, errors ++ [e])
    | None =>
      locked <~ lock key;
      match locked with
      | Err e => staging_loop candidates removed reclaimed (errors ++ [Errorf "lock staging object %q: %w" [e]])
      | Ok _ =>
        answer <~ RemoveStaging key;
        _ <~ unlock;
        match answer with
        | Err e => staging_loop candidates removed reclaimed (errors ++ [Errorf "reclaim staging object %q: %w" [e]])
        | Ok true => staging_loop candidates (removed + 1) (if size >? 0 then wrap64 (reclaimed + size) else reclaimed) errors
        | Ok false => staging_loop candidates removed reclaimed errors
        end
      end
    end
  end.

Definition reclaimStaging : program world (Z * Z * list error) :=
  capable <~ atomically (fun w : world => (bool_decide (is_Some (w_staging w)), w));
  if negb (capable : bool) then return_ (0, 0, []) else
  listed <~ ListStaging;
  match listed with
  | Err e => return_ (0, 0, [Errorf "list cache staging objects: %w" [e]])
  | Ok candidates => staging_loop candidates 0 0 []
  end.

Definition with_staging_report (p : pass) (removed reclaimed : Z) (errors : list error) : pass :=
  let r := ps_report p in
  {| ps_report := {| rr_Examined := rr_Examined r; rr_Removed := rr_Removed r; rr_Failed := rr_Failed r;
                     rr_ReclaimedBytes := wrap64 (rr_ReclaimedBytes r + reclaimed); rr_ExpiredRemoved := rr_ExpiredRemoved r;
                     rr_LRURemoved := rr_LRURemoved r; rr_StagingRemoved := rr_StagingRemoved r + removed;
                     rr_StagingFailures := rr_StagingFailures r + len errors; rr_UsageBefore := rr_UsageBefore r;
                     rr_UsageAfter := rr_UsageAfter r |};
     ps_usage := ps_usage p; ps_errors := ps_errors p ++ errors |}.

(** *** The pass *)

(** The phases before the entries: [true] when the pass goes on. *)
Definition reclaim_measure (capacity : bool) : program world (pass * bool) :=
  let p := {| ps_report := empty_report; ps_usage := 0; ps_errors := [] |} in
  usage <~ TotalSize;
  return_ match usage with
  | Err e => (with_error p (Errorf "measure cache usage before reclaim: %w" [e]), negb capacity)
  | Ok usage => (with_usage p true usage, true)
  end.

Definition reclaim_staging_phase (rt : Retention) (capacity : bool) (p : pass) : program world (pass * bool) :=
  if capacity && (ps_usage p <? rt_threshold rt) then return_ (p, true) else
  answer <~ reclaimStaging;
  let '(removed, reclaimed, errors) := answer in
  let p := with_staging_report p removed reclaimed errors in
  usage <~ (if removed >? 0 then TotalSize else return_ (Ok (ps_usage p)));
  return_ match usage with
  | Err e => (with_error p (Errorf "measure cache usage after staging reclaim: %w" [e]), false)
  | Ok usage => (if removed >? 0 then with_usage p false usage else p, bool_decide (errors = []))
  end.

Definition reclaim_expired (now : Z) (p : pass) : program world (pass * bool) :=
  expired <~ query (fun w => expired_rows now (w_rows w));
  match expired with
  | Err e => return_ (with_error p (Errorf "list expired cache entries: %w" [e]), false)
  | Ok expired =>
    p <~ remove_loop cause_expired (fun _ => false) (Some (fun current => ce_ExpiresAt current <? now)) expired p;
    usage <~ TotalSize;
    return_ match usage with
    | Err e => (with_error p (Errorf "measure cache usage after expiry reclaim: %w" [e]), false)
    | Ok usage => (with_usage p false usage, true)
    end
  end.

Definition must_reach_target (rt : Retention) (capacity : bool) (usage : Z) : bool :=
  (capacity || (usage >=? rt_threshold rt)) && (usage >? rt_target rt).

Definition reclaim_lru (rt : Retention) (now : Z) (p : pass) : program world pass :=
  candidates <~ query (fun w => fresh_rows now (w_rows w));
  match candidates with
  | Err e => return_ (with_error p (Errorf "list LRU cache entries: %w" [e]))
  | Ok candidates => remove_loop cause_lru (fun usage => usage <=? rt_target rt) None candidates p
  end.

Definition reclaim_finish (rt : Retention) (mustReachTarget : bool) (p : pass) : program world pass :=
  usageAfter <~ TotalSize;
  return_ match usageAfter with
  | Err e => with_error p (Errorf "measure cache usage after reclaim: %w" [e])
  | Ok usageAfter =>
    let p := with_usage p false usageAfter in
    if mustReachTarget && (usageAfter >? rt_target rt)
    then with_error p (Errorf "%w: usage %d bytes exceeds target %d bytes" [ErrReclaimTargetNotReached]) else p
  end.

Definition reclaim_entries (rt : Retention) (capacity : bool) (now : Z) (p : pass) : program world pass :=
  answer <~ reclaim_expired now p;
  let '(p, go_on) := answer in
  if negb (go_on : bool) then return_ p else
  let mustReachTarget := must_reach_target rt capacity (ps_usage p) in
  p <~ (if mustReachTarget then reclaim_lru rt now p else return_ p);
  reclaim_finish rt mustReachTarget p.

(** [now] is the clock reading of the pass; the list is what [errors.Join] joins. *)
Definition Reclaim (rt : Retention) (mode : gostring) (now : Z) : program world (ReclaimReport * list error) :=
  if negb (str_eqb mode ReclaimModeManual) && negb (str_eqb mode ReclaimModeCapacity)
  then return_ (empty_report, [Errorf "cache retention: unsupported reclaim mode %q" []]) else
  let capacity := str_eqb mode ReclaimModeCapacity in
  answer <~ reclaim_measure capacity;
  let '(p, go_on) := answer in
  if negb (go_on : bool) then return_ (ps_report p, ps_errors p) else
  answer <~ reclaim_staging_phase rt capacity p;
  let '(p, go_on) := answer in
  if negb (go_on : bool) || (capacity && (ps_usage p <? rt_threshold rt)) then return_ (ps_report p, ps_errors p) else
  p <~ reclaim_entries rt capacity now p;
  return_ (ps_report p, ps_errors p).

(** *** Retired adapters *)

Definition batch_size : nat := 500.

(** A page of [FindInBatches]: the rows behind the last id, by id. *)
Definition retired_batch (sqlite : bool) (adapterType : gostring) (now cursor : Z) (rows : list CacheEntry) : list CacheEntry :=
  take batch_size (merge_sort (ordered_by ce_ID) (filter (fun row =>
    (str_eqb (ce_AdapterType row) adapterType
     && (if sqlite then expired_row now row else ce_ExpiresAt row <? now) && (cursor <? ce_ID row)) = true) rows)).

(** The callback of [FindInBatches]: the error that ends the iteration. *)
Fixpoint retired_loop (adapterType : gostring) (now : Z) (candidates : list CacheEntry) (p : pass)
    : program world (pass * option error) :=
  match candidates with
  | [] => return_ (p, None)
  | candidate :: candidates =>
    cancelled <~ ctx_err;
    match cancelled with
    | Some e => return_ (p, Some e)
    | None =>
      answer <~ removeCandidate candidate (Some (fun current => str_eqb (ce_AdapterType current) adapterType && (ce_ExpiresAt current <? now)));
      retired_loop adapterType now candidates (account cause_retired p answer)
    end
  end.

(** Each page starts behind the last id of the previous one. *)
Fixpoint retired_pages (fuel : nat) (sqlite : bool) (adapterType : gostring) (now cursor : Z) (p : pass) : program world pass :=
  match fuel with
  | O => return_ p
  | S fuel =>
    batch <~ query (fun w => retired_batch sqlite adapterType now cursor (w_rows w));
    match batch with
    | Err e => return_ (with_error p (Errorf "list retired cache entries: %w" [e]))
    | Ok batch =>
      answer <~ retired_loop adapterType now batch p;
      let '(p, stopped) := answer in
      match stopped with
      | Some e => return_ (with_error p (Errorf "list retired cache entries: %w" [e]))
      | None =>
        if bool_decide (length batch < batch_size)%nat then return_ p
        else retired_pages fuel sqlite adapterType now (default cursor (ce_ID <$> last batch)) p
      end
    end
  end.

Definition ReclaimRetired (fuel : nat) (sqlite : bool) (adapterType : gostring) (now : Z)
    : program world (ReclaimReport * list error) :=
  if str_eqb adapterType [] then return_ (empty_report, [Errorf "cache retired retention: adapter type is required" []]) else
  p <~ retired_pages fuel sqlite adapterType now 0 {| ps_report := empty_report; ps_usage := 0; ps_errors := [] |};
  return_ (ps_report p, ps_errors p).

(** ** Preview *)

Record ReclaimPreview := {
  rv_GeneratedAt : Z; rv_UsageBytes : Z; rv_ThresholdBytes : Z; rv_TargetBytes : Z; rv_LogicalBytes : Z; rv_CandidateCount : Z;
  rv_PhysicalUsageKnown : bool; rv_Items : list (CacheEntry * gostring);
}.

Definition sum_sizes (rows : list CacheEntry) : Z := foldr (fun row total => ce_Size row + total) 0 rows.

(** The rows of a batch that are counted: up to the one that reaches [need]. *)
Fixpoint count_batch (need count bytes : Z) (batch : list CacheEntry) : Z * Z :=
  match batch with
  | [] => (count, bytes)
  | row :: batch =>
    let count := count + 1 in
    let bytes := wrap64 (bytes + Z.max (ce_Size row) 0) in
    if bytes >=? need then (count, bytes) else count_batch need count bytes batch
  end.

(** The page behind a row of the LRU order. *)
Definition behind (cursor : option CacheEntry) (row : CacheEntry) : bool :=
  match cursor with
  | None => true
  | Some last => (ce_LastAccessed row >? ce_LastAccessed last) || ((ce_LastAccessed row =? ce_LastAccessed last) && (ce_ID row >? ce_ID last))
  end.

Definition lru_batch (now : Z) (cursor : option CacheEntry) (rows : list CacheEntry) : list CacheEntry :=
  take batch_size (filter (fun row => behind cursor row = true) (fresh_rows now rows)).

Fixpoint preview_lru (fuel : nat) (now need : Z) (cursor : option CacheEntry) (count bytes : Z) : program world (result (Z * Z)) :=
  match fuel with
  | O => return_ (Ok (count, bytes))
  | S fuel =>
    batch <~ query (fun w => lru_batch now cursor (w_rows w));
    match batch with
    | Err e => return_ (Err (Errorf "list LRU cache preview: %w" [e]))
    | Ok batch =>
      let '(count, bytes) := count_batch need count bytes batch in
      if (bytes >=? need) || bool_decide (length batch < batch_size)%nat then return_ (Ok (count, bytes))
      else preview_lru fuel now need (match last batch with Some row => if ce_ID row =? 0 then None else Some row | None => None end) count bytes
    end
  end.

(** [OFFSET] and [LIMIT]; an offset that is not positive is no offset. *)
Definition page_of (offset limit : Z) (rows : list CacheEntry) : list CacheEntry :=
  take (Z.to_nat limit) (drop (Z.to_nat offset) rows).

(** The rows shown on the page, expired ones first. *)
Definition preview_items (now page pageSize expiredCount lruCount : Z) (lruEnabled : bool) : program world (result (list (CacheEntry * gostring))) :=
  let offset := wrap64 (wrap64 (page - 1) * pageSize) in
  expired <~ (if offset <? expiredCount then query (fun w => page_of offset pageSize (expired_rows now (w_rows w))) else return_ (Ok []));
  match expired with
  | Err e => return_ (Err (Errorf "list expired cache preview: %w" [e]))
  | Ok expired =>
    let items := (fun row => (preview_entry row, bs "expired")) <$> expired in
    let remaining := pageSize - len expired in
    let lruOffset := Z.max 0 (offset - expiredCount) in
    if lruEnabled && (remaining >? 0) && (lruOffset <? lruCount) then
      rows <~ query (fun w => page_of lruOffset (Z.min remaining (lruCount - lruOffset)) (fresh_rows now (w_rows w)));
      return_ match rows with
      | Err e => Err (Errorf "list LRU cache preview: %w" [e])
      | Ok rows => Ok (items ++ ((fun row => (preview_entry row, bs "lru")) <$> rows))
      end
    else return_ (Ok items)
  end.

(** [now] is the clock reading; [SUM] fails when the sum is no int64. *)
Definition Preview (fuel : nat) (rt : Retention) (now page pageSize : Z) : program world (result ReclaimPreview) :=
  if (page <? 1) || (pageSize <? 1) then return_ (fail "cache retention preview: page and page size must be positive") else
  usage <~ TotalSize;
  match usage with
  | Err e => return_ (Err (Errorf "measure cache usage for preview: %w" [e]))
  | Ok usage =>
    count <~ query (fun w => len (expired_rows now (w_rows w)));
    match count with
    | Err e => return_ (Err (Errorf "count expired cache entries: %w" [e]))
    | Ok expiredCount =>
      sum <~ query (fun w => sum_sizes (expired_rows now (w_rows w)));
      match sum with
      | Err e => return_ (Err (Errorf "sum expired cache entries: %w" [e]))
      | Ok sum =>
        if negb (in_range (- 2 ^ 63) (2 ^ 63 - 1) sum) then return_ (fail "sum expired cache entries: integer overflow") else
        let expiredBytes := Z.max 0 sum in
        let postExpiryUsage := Z.max 0 (usage - expiredBytes) in
        let lruEnabled := (postExpiryUsage >=? rt_threshold rt) && (postExpiryUsage >? rt_target rt) in
        lru <~ (if lruEnabled then preview_lru fuel now (postExpiryUsage - rt_target rt) None 0 0 else return_ (Ok (0, 0)));
        match lru with
        | Err e => return_ (Err e)
        | Ok (lruCount, lruBytes) =>
          items <~ preview_items now page pageSize expiredCount lruCount lruEnabled;
          return_ match items with
          | Err e => Err e
          | Ok items =>
            Ok {| rv_GeneratedAt := now; rv_UsageBytes := usage; rv_ThresholdBytes := rt_threshold rt; rv_TargetBytes := rt_target rt;
                  rv_LogicalBytes := wrap64 (expiredBytes + lruBytes); rv_CandidateCount := expiredCount + lruCount;
                  rv_PhysicalUsageKnown := true; rv_Items := items |}
          end
        end
      end
    end
  end.
