(* ===== verification/RetentionTheory.v ===== *)
(** * Theory of the removal of cache entries

    No pass leaves an object without its row, whatever fails and whoever interferes; a
    report says what happened; a pass removes exactly what the preview lists. *)

From stdpp Require Import gmap sorting sets.
From S2P Require Export Retention.

(** ** Objects without a row *)

(** An object no row names and nobody is filling: nothing will ever remove it. *)
Definition orphan (w : world) (path : gostring) : Prop :=
  is_Some (w_objects w !! path) /\ path ∉ w_filling w /\ forall row, row ∈ w_rows w -> ce_StoragePath row <> path.

(** Ids are a primary key, and every orphan is one of [known]. *)
Definition contained (known : gostring -> Prop) (w : world) : Prop :=
  NoDup (ce_ID <$> w_rows w) /\ forall path, orphan w path -> known path.

(** The gate of a key keeps others from its rows and their objects. *)
Definition gate_respected (s : surroundings world) : Prop := forall n w,
  w_held (interfere s n w) = w_held w
  /\ forall row, w_held w = Some (ce_Key row) ->
       (row ∈ w_rows (interfere s n w) <-> row ∈ w_rows w)
       /\ (row ∈ w_rows w -> w_objects (interfere s n w) !! ce_StoragePath row = w_objects w !! ce_StoragePath row).

Section orphans.
Context (s : surroundings world) (known : gostring -> Prop).
Context (Hgate : gate_respected s) (Hothers : stable s (contained known)).

Definition idle (w : world) : Prop := contained known w /\ w_held w = None.

(** The gate of the row's key is held and the row is there. *)
Definition owned (current : CacheEntry) (w : world) : Prop :=
  contained known w /\ w_held w = Some (ce_Key current) /\ current ∈ w_rows w.

Lemma idle_stable : stable s idle.
Proof. intros n w [Hc Hh]. split; [by apply Hothers|]. destruct (Hgate n w) as [-> _]. done. Qed.

Lemma held_stable key : stable s (fun w => contained known w /\ w_held w = Some key).
Proof. intros n w [Hc Hh]. split; [by apply Hothers|]. destruct (Hgate n w) as [-> _]. done. Qed.

Lemma owned_stable current (P : option Z -> Prop) :
  stable s (fun w => owned current w /\ P (w_objects w !! ce_StoragePath current)).
Proof.
  intros n w [(Hc & Hh & Hr) Hp]. destruct (Hgate n w) as [Hheld Hrow]. destruct (Hrow current Hh) as [Hin Hobj].
  split; [split_and!|].
  - by apply Hothers.
  - by rewrite Hheld.
  - by apply Hin.
  - by rewrite Hobj.
Qed.

Lemma delete_object_contained path w : contained known w -> contained known (with_objects w (delete path (w_objects w))).
Proof.
  intros [Hid Hk]. split; [done|]. intros q ([x Hx] & Hf & Hr). apply Hk. split_and!; [|done|done]. cbn [w_objects with_objects] in Hx.
  apply lookup_delete_Some in Hx as [_ Hx]. by exists x.
Qed.

Lemma same_id (rows : list CacheEntry) a b : NoDup (ce_ID <$> rows) -> a ∈ rows -> b ∈ rows -> ce_ID a = ce_ID b -> a = b.
Proof.
  intros Hnd Ha Hb Heq. apply list_elem_of_lookup in Ha as [i Hi], Hb as [j Hj].
  assert (i = j) as ->; [|by simplify_eq]. eapply NoDup_lookup; [exact Hnd| |]; rewrite list_lookup_fmap; [by rewrite Hi|rewrite Hj; simpl; by f_equal].
Qed.

Lemma delete_row_contained current w :
  contained known w -> current ∈ w_rows w -> w_objects w !! ce_StoragePath current = None ->
  contained known (with_rows w (filter (fun row => ~ (ce_ID row = ce_ID current /\ ce_Key row = ce_Key current)) (w_rows w))).
Proof.
  intros [Hid Hk] Hin Hnone. split.
  - cbn [w_rows with_rows]. eapply sublist_NoDup; [exact Hid|]. by apply fmap_sublist, sublist_filter.
  - intros q (Hx & Hf & Hr). apply Hk. split_and!; [done|done|]. intros row Hrow Hq.
    destruct (decide (ce_ID row = ce_ID current /\ ce_Key row = ce_Key current)) as [[He _]|Hne].
    + assert (row = current) as -> by by apply (same_id (w_rows w)). subst q. cbn [w_objects with_rows] in Hx. rewrite Hnone in Hx. by destruct Hx.
    + apply (Hr row); [|done]. apply list_elem_of_filter. by split.
Qed.

(** What is left when the gate is about to be given back. *)
Definition kept (current : CacheEntry) {A} (_ : A) (w : world) : Prop := contained known w /\ w_held w = Some (ce_Key current).

Lemma owned_kept {A} current (a : A) w : owned current w -> kept current a w.
Proof. by intros (? & ? & ?). Qed.

Lemma delete_row_kept current :
  triple s (fun w => owned current w /\ w_objects w !! ce_StoragePath current = None)
    (delete_row (ce_ID current) (ce_Key current)) (kept current).
Proof.
  eapply triple_call; [exact (owned_stable current (fun x => x = None))| | |]; cbn [fst snd].
  - intros w [(Hc & Hh & Hin) Hn]. split; [by apply delete_row_contained|done].
  - intros w e [Ho _]. by apply owned_kept.
  - intros w e [(Hc & Hh & Hin) Hn]. split; [by apply delete_row_contained|done].
Qed.

Lemma remove_current_kept current : triple s (owned current) (remove_current current) (kept current).
Proof.
  unfold remove_current. eapply (triple_bind s _ _ _ _ (fun a w => owned current w /\
    match a with Ok b => b = false -> w_objects w !! ce_StoragePath current = None | Err _ => True end)).
  { eapply triple_weaken; [apply (triple_query s (fun w => owned current w /\ True) _
      (fun a w => owned current w /\ match a with Ok b => b = false -> w_objects w !! ce_StoragePath current = None | Err _ => True end))| |].
    - exact (owned_stable current (fun _ => True)).
    - intros w [Ho _]. split; [done|]. intros Hb%bool_decide_eq_false_1. by apply eq_None_not_Some.
    - intros w e [Ho _]. by split.
    - by intros w Ho.
    - done. }
  intros [exists_|e]; [|apply triple_return; intros w [Ho _]; by apply owned_kept].
  eapply (triple_bind s _ _ _ _ (fun a w => match a with
    | Ok _ => owned current w /\ w_objects w !! ce_StoragePath current = None | Err _ => owned current w end)).
  - destruct exists_; [|apply triple_return; intros w [Ho Hn]; split; [done|by apply Hn]].
    eapply triple_call; [exact (owned_stable current (fun x => true = false -> x = None))| | |]; cbn [fst snd].
    + intros w [(Hc & Hh & Hin) _]. cbn [w_objects with_objects]. split; [|by rewrite lookup_delete_eq].
      split_and!; [by apply delete_object_contained|done|done].
    + by intros w e [Ho _].
    + intros w e [(Hc & Hh & Hin) _]. split_and!; [by apply delete_object_contained|done|done].
  - intros [[]|e]; [|apply triple_return; intros w Ho; by apply owned_kept].
    eapply triple_bind; [apply delete_row_kept|]. intros a. apply triple_return. done.
Qed.

Lemma find_row_in rows id row : find_row rows id = Some row -> row ∈ rows /\ ce_ID row = id.
Proof.
  unfold find_row. intros Hf. assert (row ∈ filter (fun row => ce_ID row = id) rows) as Hin.
  { destruct (filter _ rows); [done|]. injection Hf as ->. apply elem_of_cons. by left. }
  apply list_elem_of_filter in Hin. tauto.
Qed.

Lemma removeCandidate_idle candidate predicate : triple s idle (removeCandidate candidate predicate) (fun _ => idle).
Proof.
  unfold removeCandidate.
  eapply (triple_bind s _ _ _ _ (fun a w => match a with
    | Ok _ => contained known w /\ w_held w = Some (ce_Key candidate) | Err _ => idle w end)).
  { eapply triple_attempt; [exact idle_stable| |done]. by intros w [Hc Hh]. }
  intros [[]|e]; [|by apply triple_return]. eapply (triple_bind s _ _ _ _ (kept candidate)).
  - unfold remove_locked. eapply (triple_bind s _ _ _ _ (fun a w => kept candidate a w /\
      match a with Ok (Some row) => row ∈ w_rows w | _ => True end)).
    { eapply (triple_query s (fun w => contained known w /\ w_held w = Some (ce_Key candidate))); [apply held_stable| |].
      - intros w Hk. split; [done|]. destruct (find_row _ _) eqn:E; [|done]. by apply find_row_in in E as [? _].
      - by intros w e Hk. }
    intros [[current|]|e]; try by (apply triple_return; intros w [Hk _]).
    destruct (str_eqb (ce_Key current) (ce_Key candidate)) eqn:E; cbn [negb]; [|apply triple_return; by intros w [Hk _]].
    apply str_eqb_eq in E. destruct (match predicate with Some p => negb (p current) | None => false end);
      [apply triple_return; by intros w [Hk _]|].
    eapply triple_weaken; [apply (remove_current_kept current)| |].
    + intros w [[Hc Hh] Hin]. split_and!; [done|by rewrite E|done].
    + intros a w [Hc Hh]. split; [done|by rewrite <- E].
  - intros a. eapply (triple_bind s _ _ _ _ (fun _ => idle)); [|intros []; by apply triple_return].
    by apply (triple_atomically s _ _ _ _ (held_stable (ce_Key candidate))); intros w [Hc _].
Qed.

(** *** Whole passes *)

Definition safe {A} (m : program world A) : Prop := triple s idle m (fun _ => idle).

Lemma safe_return {A} (a : A) : safe (return_ a).
Proof. by apply triple_return. Qed.

Lemma safe_bind {A B} (m : program world A) (k : A -> program world B) : safe m -> (forall a, safe (k a)) -> safe (bind m k).
Proof. intros Hm Hk. by eapply triple_bind. Qed.

Lemma safe_query {A} (f : world -> A) : safe (query f).
Proof. apply triple_query; [exact idle_stable|done|done]. Qed.

Lemma safe_ctx_err : safe ctx_err.
Proof. apply triple_ctx_err, idle_stable. Qed.

Lemma safe_capability (f : world -> bool) : safe (atomically (fun w => (f w, w))).
Proof. by apply (triple_atomically s _ _ _ _ idle_stable). Qed.

(** Removing a staging file under the gate of its key. *)
Lemma safe_staging {A} key (k : result bool -> program world A) (k' : error -> program world A) :
  (forall a, safe (k a)) -> (forall e, safe (k' e)) ->
  safe (locked <~ lock key; match locked with Err e => k' e | Ok _ => answer <~ RemoveStaging key; _ <~ unlock; k answer end).
Proof.
  intros Hk Hk'. eapply (triple_bind s _ _ _ _ (fun a w => match a with
    | Ok _ => contained known w /\ w_held w = Some key | Err _ => idle w end)).
  { eapply triple_attempt; [exact idle_stable| |done]. by intros w [Hc Hh]. }
  intros [[]|e]; [|by apply Hk'].
  eapply (triple_bind s _ _ _ _ (fun _ w => contained known w /\ w_held w = Some key)).
  - apply (triple_call s _ (fun w => contained known w /\ w_held w = Some key)); [apply held_stable|by intros..].
  - intros a. eapply (triple_bind s _ _ _ _ (fun _ => idle)); [|intros []; apply Hk].
    by apply (triple_atomically s _ _ _ _ (held_stable key)); intros w [Hc _].
Qed.

Lemma staging_loop_safe candidates removed reclaimed errors : safe (staging_loop candidates removed reclaimed errors).
Proof.
  revert removed reclaimed errors. induction candidates as [|[key size] candidates IH]; intros removed reclaimed errors; cbn [staging_loop];
    [apply safe_return|]. apply safe_bind; [apply safe_ctx_err|]. intros [e|]; [apply safe_return|].
  apply safe_staging; [intros [[]|e]|intros e]; apply IH.
Qed.

Lemma remove_loop_safe cause enough predicate candidates p : safe (remove_loop cause enough predicate candidates p).
Proof.
  revert p. induction candidates as [|c candidates IH]; intros p; cbn [remove_loop]; [apply safe_return|].
  apply safe_bind; [apply safe_ctx_err|]. intros [e|]; [apply safe_return|]. destruct (enough _); [apply safe_return|].
  apply safe_bind; [apply removeCandidate_idle|]. intros a. apply IH.
Qed.

Lemma retired_loop_safe adapterType now candidates p : safe (retired_loop adapterType now candidates p).
Proof.
  revert p. induction candidates as [|c candidates IH]; intros p; cbn [retired_loop]; [apply safe_return|].
  apply safe_bind; [apply safe_ctx_err|]. intros [e|]; [apply safe_return|].
  apply safe_bind; [apply removeCandidate_idle|]. intros a. apply IH.
Qed.

Lemma retired_pages_safe fuel sqlite adapterType now cursor p : safe (retired_pages fuel sqlite adapterType now cursor p).
Proof.
  revert cursor p. induction fuel as [|fuel IH]; intros cursor p; cbn [retired_pages]; [apply safe_return|].
  apply safe_bind; [apply safe_query|]. intros [batch|e]; [|apply safe_return].
  apply safe_bind; [apply retired_loop_safe|]. intros [p' [e|]]; [apply safe_return|].
  case_bool_decide; [apply safe_return|apply IH].
Qed.

Lemma removeCandidate_safe candidate predicate : safe (removeCandidate candidate predicate).
Proof. apply removeCandidate_idle. Qed.

#[local] Hint Resolve safe_return safe_query safe_ctx_err safe_capability staging_loop_safe remove_loop_safe retired_pages_safe
  removeCandidate_safe : safe.

(** Follows the calls of a pass. *)
Ltac pass_tac := repeat first
  [ solve [auto with safe]
  | apply safe_bind
  | match goal with
    | |- forall _, _ => intro
    | |- safe (match ?x with _ => _ end) => destruct x
    | |- safe (if ?b then _ else _) => destruct b
    | |- safe (let '(_, _) := ?x in _) => destruct x
    end ].

Lemma Reclaim_safe rt mode now : safe (Reclaim rt mode now).
Proof.
  assert (safe TotalSize) by apply safe_query.
  unfold Reclaim, reclaim_entries, reclaim_lru, reclaim_finish, reclaim_expired, reclaim_staging_phase, reclaimStaging, ListStaging,
    reclaim_measure. pass_tac.
Qed.

Lemma Remove_safe id : safe (Remove id).
Proof.
  assert (forall id, safe (First id)) by (intros; apply safe_query). unfold Remove. pass_tac.
Qed.

Lemma ReclaimRetired_safe fuel sqlite adapterType now : safe (ReclaimRetired fuel sqlite adapterType now).
Proof. unfold ReclaimRetired. pass_tac. Qed.

Lemma RemoveIfMatches_safe candidate : safe (RemoveIfMatches candidate).
Proof. apply removeCandidate_idle. Qed.

End orphans.

(** The mutations of [Retention]. *)
Inductive retention_op :=
  | op_remove (id : Z)
  | op_remove_if_matches (candidate : CacheEntry)
  | op_reclaim (rt : Retention) (mode : gostring) (now : Z)
  | op_reclaim_retired (fuel : nat) (sqlite : bool) (adapterType : gostring) (now : Z).

Definition retention_run (op : retention_op) : program world () :=
  match op with
  | op_remove id => _ <~ Remove id; return_ ()
  | op_remove_if_matches candidate => _ <~ RemoveIfMatches candidate; return_ ()
  | op_reclaim rt mode now => _ <~ Reclaim rt mode now; return_ ()
  | op_reclaim_retired fuel sqlite adapterType now => _ <~ ReclaimRetired fuel sqlite adapterType now; return_ ()
  end.

(** C38: Removal never leaves an object without its row.  Whatever fails - every call, with or
    without its effect, a cancellation at any point - and whatever others do between the
    calls as long as they respect the gate of the key and leave no such object themselves,
    an object that no row names after a removal or a pass was one before; and the gate is
    given back. *)
Theorem no_object_orphaned s w op :
  gate_respected s -> stable s (contained (orphan w)) -> NoDup (ce_ID <$> w_rows w) -> w_held w = None ->
  let w' := (run s (retention_run op) w).2 in (forall path, orphan w' path -> orphan w path) /\ w_held w' = None.
Proof.
  intros Hgate Hothers Hid Hheld. set (m := retention_run op). assert (safe s (orphan w) m) as Hsafe.
  { subst m. destruct op; cbn [retention_run]; apply safe_bind; try (intros; by apply safe_return).
    - by apply Remove_safe.
    - by apply RemoveIfMatches_safe.
    - by apply Reclaim_safe.
    - by apply ReclaimRetired_safe. }
  destruct (triple_run s _ m _ w Hsafe) as [[_ Ho] Hh]; [|done]. split; [|done]. by split.
Qed.

(** ** Undisturbed passes *)

(** *** Lists *)

Lemma filter_ext_in {A} (P Q : A -> Prop) `{!forall x, Decision (P x)} `{!forall x, Decision (Q x)} (l : list A) :
  (forall x, x ∈ l -> P x <-> Q x) -> filter P l = filter Q l.
Proof.
  induction l as [|x l IH]; [done|]. intros Hx. rewrite !filter_cons, IH by set_solver.
  specialize (Hx x ltac:(set_solver)). repeat case_decide; tauto || done.
Qed.

Lemma filter_all {A} (P : A -> Prop) `{!forall x, Decision (P x)} (l : list A) : (forall x, x ∈ l -> P x) -> filter P l = l.
Proof. induction l as [|x l IH]; [done|]. intros Hx. rewrite filter_cons_True, IH by set_solver. done. Qed.

Lemma filter_twice {A} (P Q : A -> Prop) `{!forall x, Decision (P x)} `{!forall x, Decision (Q x)} (l : list A) :
  filter P (filter Q l) = filter (fun x => P x /\ Q x) l.
Proof.
  induction l as [|x l IH]; [done|]. rewrite !filter_cons. destruct (decide (Q x)).
  - rewrite filter_cons, IH. repeat case_decide; tauto || done.
  - rewrite IH, decide_False by tauto. done.
Qed.

(** *** Sizes *)

Lemma sum_permutation {A} (f : A -> Z) (l l' : list A) :
  l ≡ₚ l' -> foldr (fun a total => f a + total) 0 l = foldr (fun a total => f a + total) 0 l'.
Proof. induction 1; simpl; lia. Qed.

Lemma sizes_delete objects path size :
  objects !! path = Some size -> sizes (delete path objects) = sizes objects - size.
Proof.
  intros Hp. unfold sizes. rewrite <- (sum_permutation _ _ _ (map_to_list_delete objects path size Hp)). simpl. lia.
Qed.

Lemma sum_sizes_cons row rows : sum_sizes (row :: rows) = ce_Size row + sum_sizes rows.
Proof. done. Qed.

Lemma sum_sizes_app a b : sum_sizes (a ++ b) = sum_sizes a + sum_sizes b.
Proof. unfold sum_sizes. induction a; simpl; [done|]. rewrite IHa. lia. Qed.

(** The rows and their objects agree, and the bytes fit an int64. *)
Record accurate (w : world) : Prop := {
  ac_ids : NoDup (ce_ID <$> w_rows w);
  ac_paths : NoDup (ce_StoragePath <$> w_rows w);
  ac_rows : Forall (fun row => 0 < ce_ID row /\ 0 <= ce_Size row /\ w_objects w !! ce_StoragePath row = Some (ce_Size row)) (w_rows w);
  ac_objects : map_Forall (fun _ size => 0 <= size) (w_objects w);
  ac_staging : default ∅ (w_staging w) = ∅;
  ac_held : w_held w = None;
  ac_total : total_size w < 2 ^ 63;
}.

(** The world without an entry, and without several. *)
Definition without (w : world) (row : CacheEntry) : world :=
  with_rows (with_objects w (delete (ce_StoragePath row) (w_objects w))) (filter (fun other => other <> row) (w_rows w)).
Definition without_all (w : world) (rows : list CacheEntry) : world := fold_left without rows w.

Lemma without_total w row : accurate w -> row ∈ w_rows w -> total_size (without w row) = total_size w - ce_Size row.
Proof.
  intros Hw Hr. pose proof (ac_rows w Hw) as Hall. rewrite Forall_forall in Hall. destruct (Hall row Hr) as (_ & _ & Ho).
  unfold total_size. cbn [without w_objects w_staging with_rows with_objects]. rewrite (sizes_delete _ _ _ Ho). lia.
Qed.

Lemma sizes_nonneg objects : map_Forall (fun _ size => 0 <= size) objects -> 0 <= sizes objects.
Proof.
  intros Hs. apply map_Forall_to_list in Hs. unfold sizes. induction (map_to_list objects) as [|[k x] l IH]; [done|].
  apply Forall_cons in Hs as [Hx Hs]. specialize (IH Hs). simpl in *. lia.
Qed.

Lemma total_nonneg w : accurate w -> 0 <= total_size w.
Proof.
  intros Hw. unfold total_size. rewrite (ac_staging w Hw). pose proof (sizes_nonneg _ (ac_objects w Hw)).
  change (sizes ∅) with 0. lia.
Qed.

Lemma without_accurate w row : accurate w -> row ∈ w_rows w -> accurate (without w row).
Proof.
  intros Hw Hr. pose proof (ac_rows w Hw) as Hall. assert (total_size (without w row) < 2 ^ 63) as Htotal.
  { rewrite (without_total w row Hw Hr). rewrite Forall_forall in Hall. destruct (Hall row Hr) as (_ & Hs & _). pose proof (ac_total w Hw). lia. }
  constructor; [| | | | | |exact Htotal]; cbn [without w_rows w_objects w_staging w_held with_rows with_objects].
  - eapply sublist_NoDup; [apply (ac_ids w Hw)|]. by apply fmap_sublist, sublist_filter.
  - eapply sublist_NoDup; [apply (ac_paths w Hw)|]. by apply fmap_sublist, sublist_filter.
  - apply Forall_forall. intros other [Hne Ho]%list_elem_of_filter. rewrite Forall_forall in Hall. destruct (Hall other Ho) as (Hi & Hs & Hobj).
    split_and!; [done|done|]. rewrite lookup_delete_ne; [done|]. intros Heq. apply Hne.
    apply list_elem_of_lookup in Ho as [i Hi'], Hr as [j Hj]. assert (i = j) as ->; [|by simplify_eq].
    eapply NoDup_lookup; [apply (ac_paths w Hw)| |]; rewrite list_lookup_fmap; [by rewrite Hi'|rewrite Hj; simpl; by f_equal].
  - apply map_Forall_delete, (ac_objects w Hw).
  - apply (ac_staging w Hw).
  - apply (ac_held w Hw).
Qed.

(** *** One entry *)

Definition removed_entry (row : CacheEntry) : Removal :=
  {| rm_ID := ce_ID row; rm_Key := ce_Key row; rm_ReclaimedBytes := ce_Size row; rm_ObjectRemoved := true; rm_MetadataRemoved := true |}.




(** *** Loops *)

(** The candidates that are removed before the usage is small enough. *)
Fixpoint taken (enough : Z -> bool) (usage : Z) (rows : list CacheEntry) : list CacheEntry :=
  match rows with
  | [] => []
  | row :: rows => if enough usage then [] else row :: taken enough (usage - ce_Size row) rows
  end.

Definition accounted (cause : reclaim_cause) (p : pass) (rows : list CacheEntry) : pass :=
  let r := ps_report p in
  {| ps_report :=
       {| rr_Examined := rr_Examined r + len rows; rr_Removed := rr_Removed r + len rows; rr_Failed := rr_Failed r;
          rr_ReclaimedBytes := rr_ReclaimedBytes r + sum_sizes rows;
          rr_ExpiredRemoved := rr_ExpiredRemoved r + match cause with cause_expired => len rows | _ => 0 end;
          rr_LRURemoved := rr_LRURemoved r + match cause with cause_lru => len rows | _ => 0 end;
          rr_StagingRemoved := rr_StagingRemoved r; rr_StagingFailures := rr_StagingFailures r;
          rr_UsageBefore := rr_UsageBefore r; rr_UsageAfter := rr_UsageAfter r |};
     ps_usage := ps_usage p - sum_sizes rows; ps_errors := ps_errors p |}.


(** Computes the fields of passes and reports. *)
Ltac pass_fields := cbn [accounted account with_usage with_staging_report with_error ps_report ps_usage ps_errors rr_Examined rr_Removed
  rr_Failed rr_ReclaimedBytes rr_ExpiredRemoved rr_LRURemoved rr_StagingRemoved rr_StagingFailures rr_UsageBefore rr_UsageAfter
  removed_entry rm_ReclaimedBytes rm_MetadataRemoved].


Lemma wrap64_small z : - 2 ^ 63 <= z < 2 ^ 63 -> wrap64 z = z.
Proof. intros Hz. unfold wrap64. rewrite Z.mod_small by lia. lia. Qed.



Lemma without_rows w row other : other ∈ w_rows (without w row) <-> other ∈ w_rows w /\ other <> row.
Proof. cbn [without w_rows with_rows with_objects]. rewrite list_elem_of_filter. tauto. Qed.



Lemma taken_prefix enough usage rows : exists rest, rows = taken enough usage rows ++ rest.
Proof.
  revert usage. induction rows as [|r rows IH]; intros usage; [by exists []|]. simpl. destruct (enough usage); [by eexists|].
  destruct (IH (usage - ce_Size r)) as [rest Hrest]. exists rest. simpl. by rewrite <- Hrest.
Qed.

(** The world without several entries. *)
Lemma without_all_accurate w rows :
  accurate w -> NoDup rows -> Forall (fun r => r ∈ w_rows w) rows ->
  accurate (without_all w rows) /\ total_size (without_all w rows) = total_size w - sum_sizes rows
  /\ w_rows (without_all w rows) = filter (fun r => r ∉ rows) (w_rows w).
Proof.
  revert w. induction rows as [|r rows IH]; intros w Hw Hnd Hall; cbn [without_all fold_left].
  - split_and!; [done|change (sum_sizes []) with 0; lia|]. symmetry. apply filter_all. set_solver.
  - apply NoDup_cons in Hnd as [Hr Hnd]. apply Forall_cons in Hall as [Hin Hall].
    destruct (IH (without w r)) as (Ha & Ht & Hrows); [by apply without_accurate|done| |].
    { apply Forall_forall. rewrite Forall_forall in Hall. intros x Hx. apply without_rows. split; [by apply Hall|]. by intros ->. }
    unfold without_all in *. split_and!; [done|rewrite Ht, without_total, sum_sizes_cons by done; lia|]. rewrite Hrows.
    cbn [without w_rows with_rows with_objects]. rewrite filter_twice. apply list_filter_iff. intros x. set_solver.
Qed.

(** *** What a pass removes *)

(** The shortest prefix of the rows that frees [need] bytes. *)
Fixpoint shortest (need : Z) (rows : list CacheEntry) : list CacheEntry :=
  match rows with
  | [] => []
  | row :: rows => if need <=? 0 then [] else row :: shortest (need - ce_Size row) rows
  end.

(** The entries the policy selects: everything expired, and when the usage is still too
    high the least recently used others, as few as reach the target. *)
Definition selected (rt : Retention) (capacity : bool) (now : Z) (w : world) : list CacheEntry * list CacheEntry :=
  if capacity && (total_size w <? rt_threshold rt) then ([], []) else
  let expired := expired_rows now (w_rows w) in
  let usage := total_size w - sum_sizes expired in
  (expired, if must_reach_target rt capacity usage then shortest (usage - rt_target rt) (fresh_rows now (w_rows w)) else []).

Lemma taken_shortest target usage rows : taken (fun usage => usage <=? target) usage rows = shortest (usage - target) rows.
Proof.
  revert usage. induction rows as [|r rows IH]; intros usage; [done|]. cbn [taken shortest]. rewrite IH.
  replace (usage - target <=? 0) with (usage <=? target) by (destruct (Z.leb_spec usage target), (Z.leb_spec (usage - target) 0); lia || done).
  destruct (usage <=? target); [done|]. do 2 f_equal. lia.
Qed.


(** If not all rows are selected, the selected ones suffice. *)
Lemma shortest_enough need rows : shortest need rows <> rows -> need <= sum_sizes (shortest need rows).
Proof.
  revert need. induction rows as [|r rows IH]; intros need; [done|]. cbn [shortest]. destruct (Z.leb_spec need 0).
  - intros _. change (sum_sizes []) with 0. lia.
  - intros Hne. rewrite sum_sizes_cons. specialize (IH (need - ce_Size r)). enough (need - ce_Size r <= sum_sizes (shortest (need - ce_Size r) rows)) by lia.
    apply IH. intros Heq. apply Hne. by rewrite Heq.
Qed.

Lemma expired_rows_spec now rows row : row ∈ expired_rows now rows <-> row ∈ rows /\ expired_row now row = true.
Proof. unfold expired_rows. rewrite merge_sort_Permutation, list_elem_of_filter. tauto. Qed.

Lemma fresh_rows_spec now rows row : row ∈ fresh_rows now rows <-> row ∈ rows /\ expired_row now row = false.
Proof. unfold fresh_rows. rewrite merge_sort_Permutation, list_elem_of_filter. tauto. Qed.

Lemma expired_rows_NoDup now rows : NoDup rows -> NoDup (expired_rows now rows).
Proof. intros Hnd. unfold expired_rows. rewrite merge_sort_Permutation. by apply NoDup_filter. Qed.

Lemma fresh_rows_NoDup now rows : NoDup rows -> NoDup (fresh_rows now rows).
Proof. intros Hnd. unfold fresh_rows. rewrite merge_sort_Permutation. by apply NoDup_filter. Qed.


Lemma rows_NoDup w : accurate w -> NoDup (w_rows w).
Proof. intros Hw. eapply NoDup_fmap_1, (ac_ids w Hw). Qed.

Lemma expired_all now w : accurate w -> Forall (fun r => r ∈ w_rows w) (expired_rows now (w_rows w)).
Proof. intros Hw. apply Forall_forall. intros x Hx. by apply expired_rows_spec in Hx as [? _]. Qed.

(** The rows that are not expired stay the candidates of the LRU phase. *)
Lemma fresh_after_expired now w :
  accurate w -> fresh_rows now (w_rows (without_all w (expired_rows now (w_rows w)))) = fresh_rows now (w_rows w).
Proof.
  intros Hw. destruct (without_all_accurate w (expired_rows now (w_rows w)) Hw) as (_ & _ & ->);
    [apply expired_rows_NoDup; by apply rows_NoDup|by apply expired_all|].
  unfold fresh_rows. f_equal. rewrite filter_twice. apply filter_ext_in. intros x Hx. rewrite expired_rows_spec.
  split; [by intros [? _]|]. intros He. split; [done|]. rewrite He. by intros [_ ?].
Qed.







Lemma shortest_incl need rows : exists rest, rows = shortest need rows ++ rest.
Proof. destruct (taken_prefix (fun usage => usage <=? 0) need rows) as [rest Hr]. exists rest. by rewrite taken_shortest, Z.sub_0_r in Hr. Qed.





(** ** The preview *)

Lemma shortest_app need a b : shortest need (a ++ b) = shortest need a ++ shortest (need - sum_sizes (shortest need a)) b.
Proof.
  revert need. induction a as [|x a IH]; intros need; cbn [app shortest].
  - change (sum_sizes []) with 0. by rewrite Z.sub_0_r.
  - destruct (Z.leb_spec need 0).
    + change (sum_sizes []) with 0. rewrite Z.sub_0_r. destruct b as [|y b]; [done|]. cbn [shortest app].
      by destruct (Z.leb_spec need 0); [|lia].
    + rewrite IH, sum_sizes_cons. cbn [app]. do 2 f_equal. f_equal. lia.
Qed.

Lemma sum_sizes_nonneg rows : Forall (fun r => 0 <= ce_Size r) rows -> 0 <= sum_sizes rows.
Proof. induction 1; [done|]. rewrite sum_sizes_cons. lia. Qed.

Lemma count_batch_shortest need count bytes batch :
  Forall (fun r => 0 <= ce_Size r) batch -> 0 <= bytes < need -> bytes + sum_sizes batch < 2 ^ 63 ->
  count_batch need count bytes batch
  = (count + len (shortest (need - bytes) batch), bytes + sum_sizes (shortest (need - bytes) batch)).
Proof.
  revert count bytes. induction batch as [|r batch IH]; intros count bytes Hs Hb Hmax; cbn [count_batch shortest].
  - change (len []) with 0. change (sum_sizes []) with 0. by rewrite !Z.add_0_r.
  - apply Forall_cons in Hs as [Hr Hs]. rewrite sum_sizes_cons in Hmax. pose proof (sum_sizes_nonneg batch Hs).
    destruct (Z.leb_spec (need - bytes) 0); [lia|]. rewrite Z.max_l, wrap64_small, len_cons, sum_sizes_cons by lia.
    destruct (Z.geb_spec (bytes + ce_Size r) need).
    + assert (shortest (need - bytes - ce_Size r) batch = []) as ->.
      { destruct batch; [done|]. cbn [shortest]. by destruct (Z.leb_spec (need - bytes - ce_Size r) 0); [|lia]. }
      change (len []) with 0. change (sum_sizes []) with 0. f_equal; lia.
    + rewrite IH by (done || lia). replace (need - (bytes + ce_Size r)) with (need - bytes - ce_Size r) by lia. f_equal; lia.
Qed.

#[local] Instance ordered_by_total column : Total (ordered_by column).
Proof. intros x y. unfold ordered_by. lia. Qed.
#[local] Instance ordered_by_trans column : Transitive (ordered_by column).
Proof. intros x y z. unfold ordered_by. lia. Qed.

Lemma lru_order now rows : StronglySorted (ordered_by ce_LastAccessed) (fresh_rows now rows).
Proof. apply StronglySorted_merge_sort; apply _. Qed.

(** The page behind the last row seen is the rest of the order. *)
Lemma behind_rest (seen rest : list CacheEntry) cursor :
  StronglySorted (ordered_by ce_LastAccessed) (seen ++ rest) -> NoDup (ce_ID <$> (seen ++ rest)) -> last seen = cursor ->
  filter (fun row => behind cursor row = true) (seen ++ rest) = rest.
Proof.
  intros Hs Hnd Hc. destruct cursor as [c|]; [|apply last_None in Hc as ->; by apply filter_all].
  apply last_Some in Hc as [before ->]. rewrite <- (app_assoc before [c] rest) in *. rewrite filter_app.
  assert (filter (fun row => behind (Some c) row = true) before = []) as ->.
  { destruct (filter _ before) as [|x l] eqn:E; [done|]. assert (x ∈ filter (fun row => behind (Some c) row = true) before) as Hx by (rewrite E; set_solver).
    apply list_elem_of_filter in Hx as [Hb Hx]. apply StronglySorted_app in Hs as (Hle & _). specialize (Hle x c Hx ltac:(set_solver)).
    unfold behind, ordered_by in *. apply orb_true_iff in Hb. rewrite andb_true_iff in Hb. lia. }
  cbn [app]. rewrite filter_cons, decide_False by (unfold behind; rewrite !Z.gtb_ltb, !Z.ltb_irrefl, andb_false_r; done).
  apply filter_all. intros x Hx. apply StronglySorted_app in Hs as (_ & _ & Hs). apply StronglySorted_inv in Hs as [_ Hle].
  rewrite Forall_forall in Hle. specialize (Hle x Hx). rewrite fmap_app in Hnd. apply NoDup_app in Hnd as (_ & _ & Hnd). cbn [app fmap list_fmap] in Hnd.
  apply NoDup_cons in Hnd as [Hne _]. assert (ce_ID x <> ce_ID c) as Hid by (intros Heq; apply Hne; rewrite <- Heq; by apply list_elem_of_fmap_2).
  unfold behind, ordered_by in *. apply orb_true_iff. rewrite andb_true_iff. lia.
Qed.

Lemma lru_batch_rest now w seen rest :
  accurate w -> fresh_rows now (w_rows w) = seen ++ rest -> lru_batch now (last seen) (w_rows w) = take batch_size rest.
Proof.
  intros Hw Hfresh. unfold lru_batch. rewrite Hfresh. f_equal. apply behind_rest; [rewrite <- Hfresh; apply lru_order| |done].
  rewrite <- Hfresh. unfold fresh_rows. rewrite merge_sort_Permutation. eapply sublist_NoDup; [apply (ac_ids w Hw)|].
  by apply fmap_sublist, sublist_filter.
Qed.

Lemma fresh_sizes now w seen rest :
  accurate w -> fresh_rows now (w_rows w) = seen ++ rest -> Forall (fun r => 0 < ce_ID r /\ 0 <= ce_Size r) rest.
Proof.
  intros Hw Hfresh. apply Forall_forall. intros x Hx. assert (x ∈ fresh_rows now (w_rows w)) as Hf by (rewrite Hfresh; apply elem_of_app; by right).
  apply fresh_rows_spec in Hf as [Hf _]. pose proof (ac_rows w Hw) as Hr. rewrite Forall_forall in Hr. by destruct (Hr x Hf) as (? & ? & _).
Qed.

(** The selection goes on behind a batch only when the whole batch was selected. *)
Lemma shortest_batch need batch more :
  shortest need (batch ++ more) = shortest need batch /\ need <= sum_sizes (shortest need batch)
  \/ shortest need (batch ++ more) = batch ++ shortest (need - sum_sizes batch) more /\ shortest need batch = batch /\ sum_sizes batch < need.
Proof.
  rewrite shortest_app. destruct (Z.le_gt_cases need (sum_sizes (shortest need batch))) as [Hle|Hlt].
  - left. split; [|done]. destruct more as [|m more]; cbn [shortest]; [by rewrite app_nil_r|].
    destruct (Z.leb_spec (need - sum_sizes (shortest need batch)) 0); [|lia]. by rewrite app_nil_r.
  - right. destruct (decide (shortest need batch = batch)) as [Heq|Hne]; [by rewrite Heq in *|]. apply shortest_enough in Hne. lia.
Qed.

Lemma preview_lru_quiet fuel now need n w seen rest :
  accurate w -> fresh_rows now (w_rows w) = seen ++ rest -> (length rest < fuel * batch_size)%nat -> 0 <= sum_sizes seen < need ->
  sum_sizes (seen ++ rest) < 2 ^ 63 ->
  exists n', exec quiet (preview_lru fuel now need (last seen) (len seen) (sum_sizes seen)) (n, w)
    = (Ok (len (seen ++ shortest (need - sum_sizes seen) rest), sum_sizes (seen ++ shortest (need - sum_sizes seen) rest)), (n', w)).
Proof.
  revert n seen rest. induction fuel as [|fuel IH]; intros n seen rest Hw Hfresh Hfuel Hneed Hmax; [lia|]. cbn [preview_lru].
  pose proof (fresh_sizes now w seen rest Hw Hfresh) as Hall. unfold query. rewrite exec_bind, call_quiet. cbn [fst snd].
  rewrite (lru_batch_rest now w seen rest Hw Hfresh).
  assert (Forall (fun r => 0 <= ce_Size r) rest) as Hsizes by (eapply Forall_impl; [exact Hall|]; by intros r [_ ?]).
  rewrite sum_sizes_app in Hmax. rewrite <- (take_drop batch_size rest), sum_sizes_app in Hmax.
  pose proof (sum_sizes_nonneg _ (Forall_drop _ batch_size _ Hsizes)). pose proof (sum_sizes_nonneg _ (Forall_take _ batch_size _ Hsizes)).
  rewrite count_batch_shortest; [|by apply Forall_take|lia|lia]. pose proof (shortest_batch (need - sum_sizes seen) (take batch_size rest) (drop batch_size rest)) as Hbatch.
  rewrite take_drop in Hbatch. rewrite <- len_app, <- sum_sizes_app.
  destruct Hbatch as [[-> Hge]|(-> & -> & Hlt)]; rewrite sum_sizes_app.
  { destruct (Z.geb_spec (sum_sizes seen + sum_sizes (shortest (need - sum_sizes seen) (take batch_size rest))) need); [|lia]. by eexists. }
  destruct (Z.geb_spec (sum_sizes seen + sum_sizes (take batch_size rest)) need); [lia|]. cbn [orb].
  case_bool_decide as Hshort; rewrite length_take in Hshort.
  - eexists. cbn [exec]. rewrite (drop_ge rest) by lia. cbn [shortest]. by rewrite app_nil_r, sum_sizes_app.
  - destruct (last (take batch_size rest)) as [c|] eqn:Hlast; [|apply last_None, (f_equal length) in Hlast; rewrite length_take in Hlast; unfold batch_size in *; simpl length in Hlast; lia].
    apply last_Some in Hlast as [l Hl]. assert (ce_ID c =? 0 = false) as ->.
    { apply Z.eqb_neq. apply (Forall_take _ batch_size) in Hall. rewrite Hl, Forall_forall in Hall. destruct (Hall c) as [? _]; [set_solver|lia]. }
    destruct (IH (S n) (seen ++ take batch_size rest) (drop batch_size rest) Hw) as [n' Hrec].
    + by rewrite <- app_assoc, take_drop.
    + rewrite length_drop. unfold batch_size in *. lia.
    + rewrite sum_sizes_app. lia.
    + rewrite !sum_sizes_app. lia.
    + exists n'. rewrite Hl, app_assoc, last_snoc, <- app_assoc, <- Hl in Hrec. rewrite <- sum_sizes_app, Hrec, <- app_assoc.
      rewrite sum_sizes_app. by replace (need - sum_sizes seen - sum_sizes (take batch_size rest)) with (need - (sum_sizes seen + sum_sizes (take batch_size rest))) by lia.
Qed.

(** What the preview shows of the selected entries. *)
Definition labelled (expired lru : list CacheEntry) : list (CacheEntry * gostring) :=
  ((fun row => (preview_entry row, bs "expired")) <$> expired) ++ ((fun row => (preview_entry row, bs "lru")) <$> lru).

Definition slice {A} (offset limit : Z) (l : list A) : list A := take (Z.to_nat limit) (drop (Z.to_nat offset) l).

Lemma slice_app {A} offset limit (a b : list A) :
  0 <= offset -> 0 <= limit ->
  slice offset limit (a ++ b) = slice offset limit a ++ slice (Z.max 0 (offset - len a)) (limit - len (slice offset limit a)) b.
Proof.
  intros Ho Hl. unfold slice. rewrite drop_app, take_app. f_equal. unfold len. do 2 f_equal; rewrite ?length_take; lia.
Qed.

Lemma slice_fmap {A B} (f : A -> B) offset limit (l : list A) : slice offset limit (f <$> l) = f <$> slice offset limit l.
Proof. unfold slice. by rewrite fmap_take, fmap_drop. Qed.

Lemma len_fmap {A B} (f : A -> B) (l : list A) : len (f <$> l) = len l.
Proof. unfold len. by rewrite length_fmap. Qed.

(** A page of a prefix of the order is a page of the order, cut at its end. *)
Lemma slice_take {A} offset limit count (l : list A) :
  0 <= offset -> slice offset limit (take (Z.to_nat count) l) = slice offset (Z.min limit (count - offset)) l.
Proof. intros Ho. unfold slice. rewrite skipn_firstn_comm, take_take. f_equal. lia. Qed.

Lemma preview_items_quiet now page pageSize n w lruCount lruEnabled :
  1 <= page -> 1 <= pageSize -> (page - 1) * pageSize < 2 ^ 63 -> 0 <= lruCount -> (lruEnabled = false -> lruCount = 0) ->
  exists n', exec quiet (preview_items now page pageSize (len (expired_rows now (w_rows w))) lruCount lruEnabled) (n, w)
    = (Ok (slice ((page - 1) * pageSize) pageSize (labelled (expired_rows now (w_rows w)) (take (Z.to_nat lruCount) (fresh_rows now (w_rows w))))),
       (n', w)).
Proof.
  intros Hpage Hsize Hmax Hcount Hoff. unfold preview_items. rewrite (wrap64_small (page - 1)) by nia. rewrite wrap64_small by nia.
  set (offset := (page - 1) * pageSize) in *. assert (0 <= offset) as Hpos by nia. set (expired := expired_rows now (w_rows w)). set (fresh := fresh_rows now (w_rows w)).
  assert (exists n1, exec quiet (if offset <? len expired then query (fun w => page_of offset pageSize (expired_rows now (w_rows w))) else return_ (Ok [])) (n, w)
          = (Ok (slice offset pageSize expired), (n1, w))) as [n1 Hexp].
  { destruct (Z.ltb_spec offset (len expired)) as [|Hge]; [by eexists|]. exists n. cbn [exec]; unfold slice. rewrite (drop_ge expired); [by rewrite take_nil|].
    unfold len in Hge. lia. }
  rewrite exec_bind, Hexp. unfold labelled. rewrite slice_app, !slice_fmap, !len_fmap, slice_take by lia.
  set (shown := slice offset pageSize expired). set (lruOffset := Z.max 0 (offset - len expired)).
  assert (len shown <= pageSize) as Hrem by (subst shown; unfold slice, len; rewrite length_take; lia).
  destruct (lruEnabled && (pageSize - len shown >? 0) && (lruOffset <? lruCount)) eqn:Hmore.
  - unfold query. rewrite exec_bind, call_quiet. by eexists.
  - exists n1. cbn [exec]. do 3 f_equal. enough (Z.min (pageSize - len shown) (lruCount - lruOffset) <= 0) as Hle.
    { unfold slice. rewrite (Z2Nat.nonpos _ Hle). cbn [take fmap list_fmap]. by rewrite app_nil_r. }
    destruct lruEnabled; [|rewrite Hoff by done; lia]. cbn [andb] in Hmore. apply andb_false_iff in Hmore. lia.
Qed.

Lemma sum_expired_le now w :
  accurate w -> 0 <= sum_sizes (expired_rows now (w_rows w)) <= total_size w
  /\ sum_sizes (fresh_rows now (w_rows w)) <= total_size w - sum_sizes (expired_rows now (w_rows w)).
Proof.
  intros Hw. set (expired := expired_rows now (w_rows w)).
  assert (NoDup expired) as Hnd by (apply expired_rows_NoDup; by apply rows_NoDup).
  destruct (without_all_accurate w expired Hw Hnd (expired_all now w Hw)) as (Hw1 & Ht1 & _).
  pose proof (fresh_after_expired now w Hw) as Hfresh. fold expired in Hfresh. set (w1 := without_all w expired) in *.
  destruct (without_all_accurate w1 (fresh_rows now (w_rows w1)) Hw1) as (Hw2 & Ht2 & _).
  { apply fresh_rows_NoDup. by apply rows_NoDup. }
  { apply Forall_forall. intros x Hx. by apply fresh_rows_spec in Hx as [? _]. }
  rewrite Hfresh in Hw2, Ht2. pose proof (total_nonneg _ Hw1). pose proof (total_nonneg _ Hw2). split; [split; [|lia]|lia].
  apply sum_sizes_nonneg. apply Forall_forall. intros x [Hx _]%expired_rows_spec. pose proof (ac_rows w Hw) as Hr. rewrite Forall_forall in Hr.
  by destruct (Hr x Hx) as (_ & ? & _).
Qed.

(** The preview shows what a manual pass removes.  On the same world, with fuel for the
    rows, every page of the preview is that page of the selected entries, the expired ones
    first, each with its reason; and the preview counts them and their bytes. *)
Theorem preview_lists_selected fuel rt now page pageSize w :
  accurate w -> (length (w_rows w) < fuel * batch_size)%nat -> 1 <= page -> 1 <= pageSize ->
  (page - 1) * pageSize < 2 ^ 63 ->
  let expired := (selected rt false now w).1 in
  let lru := (selected rt false now w).2 in
  run quiet (Preview fuel rt now page pageSize) w
  = (Ok {| rv_GeneratedAt := now; rv_UsageBytes := total_size w; rv_ThresholdBytes := rt_threshold rt; rv_TargetBytes := rt_target rt;
           rv_LogicalBytes := sum_sizes (expired ++ lru); rv_CandidateCount := len (expired ++ lru); rv_PhysicalUsageKnown := true;
           rv_Items := slice ((page - 1) * pageSize) pageSize (labelled expired lru) |}, w).
Proof.
  intros Hw Hfuel Hpage Hsize Hmax. unfold selected. cbn [andb fst snd]. pose proof (ac_total w Hw) as Htotal.
  destruct (sum_expired_le now w Hw) as [Hexp Hfresh]. unfold run, Preview.
  destruct (Z.ltb_spec page 1), (Z.ltb_spec pageSize 1); try lia. cbn [orb].
  unfold TotalSize, query at 1. rewrite exec_bind, call_quiet. cbn [fst snd]. unfold query at 1. rewrite exec_bind, call_quiet. cbn [fst snd].
  unfold query at 1. rewrite exec_bind, call_quiet. cbn [fst snd]. rewrite (proj2 (in_range_true _ _ _)) by lia. cbn [negb].
  rewrite !Z.max_r by lia. set (usage := total_size w - sum_sizes (expired_rows now (w_rows w))) in *.
  change ((usage >=? rt_threshold rt) && (usage >? rt_target rt)) with (must_reach_target rt false usage).
  set (must := must_reach_target rt false usage). set (lru := if must then shortest (usage - rt_target rt) (fresh_rows now (w_rows w)) else []).
  assert (exists n1, exec quiet (if must then preview_lru fuel now (usage - rt_target rt) None 0 0 else return_ (Ok (0, 0))) (3%nat, w)
          = (Ok (len lru, sum_sizes lru), (n1, w))) as [n1 Hlru].
  { subst lru. destruct must eqn:E; [|by eexists].
    destruct (preview_lru_quiet fuel now (usage - rt_target rt) 3 w [] (fresh_rows now (w_rows w)) Hw eq_refl) as [n1 Hp].
    - eapply Nat.le_lt_trans; [|exact Hfuel]. unfold fresh_rows. rewrite merge_sort_Permutation. apply length_filter.
    - subst must. unfold must_reach_target in E. change (sum_sizes []) with 0. lia.
    - cbn [app]. lia.
    - exists n1. change (sum_sizes []) with 0 in Hp. rewrite Z.sub_0_r in Hp. exact Hp. }
  rewrite exec_bind, Hlru.
  destruct (preview_items_quiet now page pageSize n1 w (len lru) must Hpage Hsize Hmax) as [n2 Hitems];
    [apply len_nonneg|subst lru; by intros ->|]. rewrite exec_bind, Hitems. cbn [exec].
  assert (exists rest, fresh_rows now (w_rows w) = lru ++ rest) as [rest Hrest].
  { subst lru. destruct must; [apply shortest_incl|by eexists]. }
  do 3 f_equal. 3: by rewrite Hrest; unfold len; rewrite Nat2Z.id, take_app_length.
  2: by rewrite len_app.
  rewrite sum_sizes_app, wrap64_small; [done|].
  rewrite Hrest, sum_sizes_app in Hfresh. pose proof (fresh_sizes now w lru rest Hw Hrest) as Hr.
    pose proof (fresh_sizes now w [] (lru ++ rest) Hw Hrest) as Hl. apply Forall_app in Hl as [Hl _].
    assert (forall l, Forall (fun r => 0 < ce_ID r /\ 0 <= ce_Size r) l -> 0 <= sum_sizes l) as Hsum.
    { intros l Hall. apply sum_sizes_nonneg. eapply Forall_impl; [exact Hall|]. by intros x [_ ?]. }
    pose proof (Hsum _ Hr). pose proof (Hsum _ Hl). subst usage. lia.
Qed.

(** ** Failing passes *)

(** Between [least] and [most] of the rows are gone, the others are unchanged. *)
Definition gone (rows : list CacheEntry) (least most : Z) (w : world) : Prop :=
  NoDup (ce_ID <$> w_rows w) /\ w_rows w `sublist_of` rows /\ least <= len rows - len (w_rows w) <= most.

Lemma gone_weaken rows least most least' most' w : gone rows least most w -> least' <= least -> most <= most' -> gone rows least' most' w.
Proof. unfold gone. intuition lia. Qed.

Lemma filter_complement {A} (P : A -> Prop) `{!forall x, Decision (P x)} (l : list A) :
  len (filter P l) + len (filter (fun x => ~ P x) l) = len l.
Proof.
  induction l as [|x l IH]; [done|]. rewrite !filter_cons, len_cons.
  destruct (decide (P x)), (decide (~ P x)); try tauto; rewrite len_cons; lia.
Qed.

Lemma one_row id key (rows : list CacheEntry) :
  NoDup (ce_ID <$> rows) -> 0 <= len (filter (fun row => ce_ID row = id /\ ce_Key row = key) rows) <= 1.
Proof.
  intros Hnd. split; [apply len_nonneg|]. assert (NoDup (ce_ID <$> filter (fun row => ce_ID row = id /\ ce_Key row = key) rows)) as Hf.
  { eapply sublist_NoDup; [exact Hnd|]. by apply fmap_sublist, sublist_filter. }
  pose proof (fun row => proj1 (list_elem_of_filter (fun row => ce_ID row = id /\ ce_Key row = key) rows row)) as Hin.
  destruct (filter _ rows) as [|x [|y l]]; [done|done|]. exfalso. cbn [fmap list_fmap] in Hf. apply NoDup_cons in Hf as [Hx _]. apply Hx.
  destruct (Hin x) as [[-> _] _]; [set_solver|]. destruct (Hin y) as [[<- _] _]; [set_solver|]. apply elem_of_cons. by left.
Qed.

Section failing.
Context (s : surroundings world) (Halone : forall n w, interfere s n w = w) (rows : list CacheEntry).

Lemma alone_stable P : stable s P.
Proof. intros n w Hp. by rewrite Halone. Qed.

Lemma delete_row_gone id key least most :
  triple s (gone rows least most) (delete_row id key) (fun answer w =>
    match answer with Ok n => 0 <= n <= 1 /\ gone rows (least + n) (most + n) w | Err _ => gone rows least (most + 1) w end).
Proof.
  assert (forall w, gone rows least most w ->
            let n := len (filter (fun row => ce_ID row = id /\ ce_Key row = key) (w_rows w)) in
            0 <= n <= 1 /\ gone rows (least + n) (most + n) (with_rows w (filter (fun row => ~ (ce_ID row = id /\ ce_Key row = key)) (w_rows w)))) as Hstep.
  { intros w (Hnd & Hsub & Hlen) n. pose proof (one_row id key (w_rows w) Hnd) as Hn. fold n in Hn. split; [done|].
    pose proof (filter_complement (fun row => ce_ID row = id /\ ce_Key row = key) (w_rows w)) as Hc. cbv beta in Hc. fold n in Hc. split_and!; cbn [w_rows with_rows].
    - eapply sublist_NoDup; [exact Hnd|]. by apply fmap_sublist, sublist_filter.
    - etrans; [apply sublist_filter|done].
    - lia.
    - lia. }
  eapply triple_call; [exact (alone_stable (gone rows least most))| | |]; cbn [fst snd].
  - intros w Hg. by apply Hstep.
  - intros w e Hg. by apply (gone_weaken rows least most); [|lia..].
  - intros w e Hg. destruct (Hstep w Hg) as [Hn Hg']. by apply (gone_weaken _ _ _ _ _ _ Hg'); lia.
Qed.

(** What the answer of [removeCandidate] says about the rows. *)
Definition told (least most : Z) (answer : Removal * bool * option error) (w : world) : Prop :=
  match answer.2 with
  | Some _ => gone rows least (most + 1) w
  | None => if rm_MetadataRemoved answer.1.1 then gone rows (least + 1) (most + 1) w else gone rows least most w
  end.

Lemma gone_told_error least most removal attempted e w : gone rows least most w -> told least most (removal, attempted, Some e) w.
Proof. intros Hg. cbn. by apply (gone_weaken _ _ _ _ _ _ Hg); lia. Qed.

Lemma remove_current_told current least most : triple s (gone rows least most) (remove_current current) (told least most).
Proof.
  unfold remove_current. eapply triple_bind.
  { apply (triple_query s _ _ (fun _ => gone rows least most)); [apply alone_stable|done|done]. }
  intros [exists_|e]; [|apply triple_return; intros w Hg; by apply gone_told_error].
  eapply (triple_bind s _ _ _ _ (fun _ => gone rows least most)).
  - destruct exists_; [|by apply triple_return]. eapply triple_call; [exact (alone_stable (gone rows least most))|by intros..].
  - intros [[]|e]; [|apply triple_return; intros w Hg; by apply gone_told_error].
    eapply triple_bind; [apply delete_row_gone|]. intros [n|e]; apply triple_return; [|done]. intros w [Hn Hg].
    destruct (Z.eqb_spec n 1) as [->|Hne]; cbn [negb]; [done|]. cbn. by apply (gone_weaken _ _ _ _ _ _ Hg); lia.
Qed.

Lemma removeCandidate_told candidate predicate least most :
  triple s (gone rows least most) (removeCandidate candidate predicate) (told least most).
Proof.
  unfold removeCandidate. eapply (triple_bind s _ _ _ _ (fun _ => gone rows least most)).
  { eapply triple_attempt; [exact (alone_stable (gone rows least most))|by intros..]. }
  intros [[]|e]; [|apply triple_return; intros w Hg; by apply gone_told_error]. eapply (triple_bind s _ _ _ _ (told least most)).
  - unfold remove_locked. eapply triple_bind.
    { apply (triple_query s _ _ (fun _ => gone rows least most)); [apply alone_stable|done|done]. }
    intros [[current|]|e]; [|by apply triple_return|apply triple_return; intros w Hg; by apply gone_told_error].
    destruct (negb _); [apply triple_return; intros w Hg; by apply gone_told_error|].
    destruct (match predicate with Some p => negb (p current) | None => false end); [by apply triple_return|]. apply remove_current_told.
  - intros a. eapply (triple_bind s _ _ _ _ (fun _ => told least most a)); [|intros []; by apply triple_return].
    apply (triple_atomically s _ _ _ _ (alone_stable (told least most a))). by destruct a as [[removal attempted] [e|]].
Qed.

(** The invariant of a pass. *)
Definition honest (p : pass) (w : world) : Prop :=
  let r := ps_report p in
  gone rows (rr_Removed r) (rr_Removed r + rr_Failed r) w
  /\ rr_Removed r = rr_ExpiredRemoved r + rr_LRURemoved r /\ 0 <= rr_Removed r /\ 0 <= rr_Failed r
  /\ rr_Removed r + rr_Failed r <= rr_Examined r /\ 0 <= rr_StagingFailures r /\ rr_Failed r + rr_StagingFailures r <= len (ps_errors p).

Lemma honest_error p e w : honest p w -> honest (with_error p e) w.
Proof. unfold honest. pass_fields. rewrite len_app. change (len [e]) with 1. intuition lia. Qed.

Lemma honest_usage p before usage w : honest p w -> honest (with_usage p before usage) w.
Proof. done. Qed.

Lemma honest_account cause p answer w0 w :
  cause <> cause_retired -> honest p w0 ->
  told (rr_Removed (ps_report p)) (rr_Removed (ps_report p) + rr_Failed (ps_report p)) answer w -> honest (account cause p answer) w.
Proof.
  intros Hcause (_ & Hsum & H1 & H2 & H3 & H4 & H5). destruct answer as [[removal attempted] [e|]]; unfold told; cbn [fst snd]; intros Hg;
    unfold honest; pass_fields; cbn [andb].
  - split; [by apply (gone_weaken _ _ _ _ _ _ Hg); lia|]. rewrite len_app. change (len [_]) with 1. lia.
  - rewrite app_nil_r. destruct (rm_MetadataRemoved removal); cbn [andb]; (split; [by apply (gone_weaken _ _ _ _ _ _ Hg); lia|]);
      destruct cause; try done; lia.
Qed.

Lemma remove_loop_honest cause enough predicate candidates p :
  cause <> cause_retired -> triple s (honest p) (remove_loop cause enough predicate candidates p) honest.
Proof.
  intros Hcause. revert p. induction candidates as [|c candidates IH]; intros p; cbn [remove_loop]; [by apply triple_return|].
  eapply triple_bind; [apply triple_ctx_err, alone_stable|]. intros [e|]; [apply triple_return; intros w; apply honest_error|].
  destruct (enough (ps_usage p)); [by apply triple_return|].
  intros n w0 Hp. set (a := rr_Removed (ps_report p)). set (b := a + rr_Failed (ps_report p)).
  pose proof (removeCandidate_told c predicate a b n w0 (proj1 Hp)) as Htold. rewrite exec_bind.
  destruct (exec s (removeCandidate c predicate) (n, w0)) as [answer [n1 w1]]. apply IH. by eapply honest_account.
Qed.

Lemma staging_loop_gone candidates removed reclaimed errors least most :
  triple s (gone rows least most) (staging_loop candidates removed reclaimed errors) (fun _ => gone rows least most).
Proof.
  revert removed reclaimed errors. induction candidates as [|[key size] candidates IH]; intros removed reclaimed errors; cbn [staging_loop];
    [by apply triple_return|]. eapply triple_bind; [apply triple_ctx_err, alone_stable|]. intros [e|]; [by apply triple_return|].
  eapply (triple_bind s _ _ _ _ (fun _ => gone rows least most)).
  { eapply triple_attempt; [exact (alone_stable (gone rows least most))|by intros..]. }
  intros [[]|e]; [|apply IH]. eapply (triple_bind s _ _ _ _ (fun _ => gone rows least most)).
  { eapply triple_call; [exact (alone_stable (gone rows least most))|by intros..]. }
  intros answer. eapply (triple_bind s _ _ _ _ (fun _ => gone rows least most)); [by apply (triple_atomically s _ _ _ _ (alone_stable (gone rows least most)))|].
  intros []. destruct answer as [[]|e]; apply IH.
Qed.

Lemma reclaimStaging_gone least most : triple s (gone rows least most) reclaimStaging (fun _ => gone rows least most).
Proof.
  unfold reclaimStaging. eapply (triple_bind s _ _ _ _ (fun _ => gone rows least most)); [by apply (triple_atomically s _ _ _ _ (alone_stable (gone rows least most)))|].
  intros [|]; cbn [negb]; [|by apply triple_return].
  eapply (triple_bind s _ _ _ _ (fun _ => gone rows least most)); [apply triple_query; [apply alone_stable|done|done]|].
  intros [candidates|e]; [apply staging_loop_gone|by apply triple_return].
Qed.

(** Phases keep the pass honest, whatever a measurement or a listing answers. *)
Lemma query_honest {A B} (f : world -> A) p (k : result A -> program world B) Q :
  (forall answer, triple s (honest p) (k answer) Q) -> triple s (honest p) (bind (query f) k) Q.
Proof. intros Hk. eapply triple_bind; [|exact Hk]. apply triple_query; [apply alone_stable|done|done]. Qed.

Lemma honest_return {A} (a : A) (p q : pass) : (forall w, honest p w -> honest q w) -> triple s (honest p) (return_ (q, a)) (fun r => honest r.1).
Proof. intros Hpq. by apply triple_return. Qed.

Lemma reclaimStaging_honest p :
  triple s (honest p) reclaimStaging (fun r => honest (with_staging_report p r.1.1 r.1.2 r.2)).
Proof.
  intros n w Hp. pose proof (reclaimStaging_gone _ _ n w (proj1 Hp)) as Hg. destruct (exec s reclaimStaging (n, w)) as [[[removed reclaimed] errors] [n1 w1]].
  cbn [fst snd] in *. destruct Hp as (_ & H1 & H2 & H3 & H4 & H5 & H6). unfold honest. pass_fields. rewrite len_app.
  pose proof (len_nonneg errors). split; [done|lia].
Qed.

Lemma staging_phase_honest rt capacity p : triple s (honest p) (reclaim_staging_phase rt capacity p) (fun r => honest r.1).
Proof.
  unfold reclaim_staging_phase. destruct (capacity && _); [by apply honest_return|].
  eapply triple_bind; [apply reclaimStaging_honest|]. intros [[removed reclaimed] errors]. cbn [fst snd].
  set (q := with_staging_report p removed reclaimed errors).
  eapply (triple_bind s _ _ _ _ (fun _ => honest q)).
  - destruct (removed >? 0); [apply triple_query; [apply alone_stable|done|done]|by apply triple_return].
  - intros [usage|e]; apply honest_return; intros w Hq; [by destruct (removed >? 0)|by apply honest_error].
Qed.

Lemma reclaim_entries_honest rt capacity now p : triple s (honest p) (reclaim_entries rt capacity now p) honest.
Proof.
  unfold reclaim_entries. eapply (triple_bind s _ _ _ _ (fun r => honest r.1)).
  { unfold reclaim_expired. apply query_honest. intros [expired|e]; [|apply honest_return; intros w; apply honest_error].
    eapply triple_bind; [by apply remove_loop_honest|]. intros q. apply query_honest.
    intros [usage|e]; apply honest_return; intros w; [apply honest_usage|apply honest_error]. }
  intros [q [|]]; cbn [negb fst]; [|by apply triple_return]. eapply (triple_bind s _ _ _ _ honest).
  - destruct (must_reach_target _ _ _); [|by apply triple_return]. unfold reclaim_lru. apply query_honest.
    intros [candidates|e]; [by apply remove_loop_honest|apply triple_return; intros w; apply honest_error].
  - intros r. unfold reclaim_finish. apply query_honest. intros [usage|e]; apply triple_return; intros w Hr; [|by apply honest_error].
    destruct (_ && _); [by apply honest_error|done].
Qed.

Lemma Reclaim_honest rt mode now :
  triple s (gone rows 0 0) (Reclaim rt mode now) (fun r => honest {| ps_report := r.1; ps_usage := 0; ps_errors := r.2 |}).
Proof.
  assert (forall p w, honest p w -> honest {| ps_report := ps_report p; ps_usage := 0; ps_errors := ps_errors p |} w) as Hforget by done.
  unfold Reclaim. destruct (_ && _).
  { apply triple_return. intros w Hg. unfold honest. pass_fields. cbn. split; [done|]. change (len _) with 1. lia. }
  eapply (triple_bind s _ _ _ _ (fun r => honest r.1)).
  { unfold reclaim_measure. eapply triple_bind; [apply (triple_query s _ _ (fun _ => gone rows 0 0)); [apply alone_stable|done|done]|].
    intros [usage|e]; apply triple_return; intros w Hg; unfold honest; pass_fields; cbn; (split; [done|]).
    - change (len []) with 0. lia.
    - change (len [_]) with 1. lia. }
  intros [p [|]]; cbn [negb fst]; [|by apply triple_return]. eapply triple_bind; [apply staging_phase_honest|].
  intros [q go_on]. cbn [fst]. destruct (_ || _); [by apply triple_return|].
  eapply triple_bind; [apply reclaim_entries_honest|]. intros r. by apply triple_return.
Qed.
End failing.

(** A report tells the truth about a pass that fails.  Whatever calls fail, with or without
    their effect, and wherever the pass is cancelled: as many rows are gone as the report
    says were removed, and at most as many more as it says failed; no other row changed;
    and every failure is among the errors, so a pass without errors did what it reports. *)
Theorem report_truthful s rt mode now w :
  (forall n w, interfere s n w = w) -> NoDup (ce_ID <$> w_rows w) ->
  let answer := run s (Reclaim rt mode now) w in
  let report := answer.1.1 in
  w_rows answer.2 `sublist_of` w_rows w
  /\ rr_Removed report <= len (w_rows w) - len (w_rows answer.2) <= rr_Removed report + rr_Failed report
  /\ rr_Removed report = rr_ExpiredRemoved report + rr_LRURemoved report
  /\ rr_Removed report + rr_Failed report <= rr_Examined report
  /\ rr_Failed report + rr_StagingFailures report <= len answer.1.2.
Proof.
  intros Halone Hnd. pose proof (triple_run s _ _ _ w (Reclaim_honest s Halone (w_rows w) rt mode now)) as Hrun.
  destruct Hrun as ((_ & Hsub & Hlen) & H1 & H2 & H3 & H4 & H5 & H6); [split; [done|split; [reflexivity|lia]]|].
  split; [done|]. split; [done|]. split; [done|]. by split.
Qed.

(** ** Policies *)

Lemma percentOf_exact total percent : 0 <= total < 2 ^ 63 -> 0 <= percent <= 100 -> percentOf total percent = total * percent / 100.
Proof.
  intros Ht Hp. unfold percentOf. rewrite Z.quot_div_nonneg, Z.rem_mod_nonneg by lia.
  pose proof (Z.div_mod total 100 ltac:(lia)) as Hd. pose proof (Z.mod_pos_bound total 100 ltac:(lia)) as Hm.
  assert (0 <= total / 100) by (apply Z.div_pos; lia). rewrite (wrap64_small (total mod 100 * percent)) by nia.
  rewrite (wrap64_small (total / 100 * percent)) by nia. rewrite Z.quot_div_nonneg by nia.
  assert (total * percent / 100 = total / 100 * percent + total mod 100 * percent / 100) as ->.
  { rewrite Hd at 1. rewrite <- Z.div_add_l by lia. f_equal. lia. }
  assert (0 <= total mod 100 * percent / 100 <= total mod 100) by (split; [apply Z.div_pos; nia|apply Z.div_le_upper_bound; nia]).
  apply wrap64_small. nia.
Qed.

(** The marks of an accepted policy are ordered, so reaching the target is leaving the threshold. *)
Lemma marks_ordered policy rt :
  NewRetention policy = Ok rt -> rp_MaxBytes policy < 2 ^ 63 ->
  0 <= rt_target rt <= rt_threshold rt /\ rt_threshold rt <= rp_MaxBytes policy
  /\ rt_threshold rt = rp_MaxBytes policy * rp_ThresholdPercent policy / 100
  /\ rt_target rt = rp_MaxBytes policy * rp_TargetPercent policy / 100.
Proof.
  unfold NewRetention. intros Hn Hmax. repeat case_match; simplify_eq. cbn [rt_threshold rt_target].
  rewrite !percentOf_exact by lia. split_and!; [apply Z.div_pos; nia|apply Z.div_le_mono; nia|apply Z.div_le_upper_bound; nia|done|done].
Qed.

(** ** Examples *)

Section examples.

Definition sample_row (id : Z) (key : string) (size accessed expires : Z) : CacheEntry :=
  {| ce_ID := id; ce_Key := bs key; ce_AdapterType := bs "npm"; ce_PackageName := bs key; ce_Size := size; ce_HitCount := 0;
     ce_LastAccessed := accessed; ce_ExpiresAt := expires; ce_StoragePath := bs key |}.

Definition sample_now : Z := 1000 * Second.
Definition sample_rows : list CacheEntry :=
  [sample_row 1 "a" 50 (1 * Second) (2000 * Second); sample_row 2 "b" 40 (2 * Second) (2000 * Second); sample_row 3 "c" 20 (3 * Second) (900 * Second)].
Definition sample_world : world :=
  {| w_rows := sample_rows; w_objects := list_to_map ((fun row => (ce_StoragePath row, ce_Size row)) <$> sample_rows);
     w_staging := Some ∅; w_filling := ∅; w_held := None |}.
Definition sample_retention : Retention :=
  match NewRetention (DefaultRetentionPolicy 100 90) with Ok rt => rt | Err _ => {| rt_policy := DefaultRetentionPolicy 100 90; rt_threshold := 0; rt_target := 0 |} end.

Lemma sample_accurate : accurate sample_world.
Proof. by constructor; apply (bool_decide_unpack _); vm_compute. Qed.

(** The deletions of the first row and of the second object happen, but fail. *)
Definition sample_faults : surroundings world :=
  {| interfere := fun _ w => w; fault := fun n => if bool_decide (n = 9 \/ n = 17)%nat then Some (true, Errorf "i/o timeout" []) else None |}.

Lemma no_object_orphaned_witness :
  let w' := (run sample_faults (retention_run (op_reclaim sample_retention ReclaimModeCapacity sample_now)) sample_world).2 in
  ce_ID <$> w_rows w' <> ce_ID <$> sample_rows /\ (forall path, orphan w' path -> orphan sample_world path) /\ w_held w' = None.
Proof.
  split; [by vm_compute|]. apply (no_object_orphaned sample_faults sample_world); [|by intros n w|by apply (bool_decide_unpack _); vm_compute|done].
  intros n w. by split.
Defined.


Lemma preview_lists_selected_witness :
  exists preview, run quiet (Preview 1 sample_retention sample_now 1 10) sample_world = (Ok preview, sample_world)
    /\ (fun item => (ce_ID item.1, item.2)) <$> rv_Items preview = [(3, bs "expired"); (1, bs "lru")].
Proof.
  eexists. split.
  - apply (preview_lists_selected 1 sample_retention sample_now 1 10 sample_world sample_accurate); [by apply (bool_decide_unpack _); vm_compute|lia..].
  - vm_compute. reflexivity.
Defined.

Lemma report_truthful_witness :
  let answer := run sample_faults (Reclaim sample_retention ReclaimModeCapacity sample_now) sample_world in
  rr_Failed answer.1.1 = 2 /\ w_rows answer.2 `sublist_of` w_rows sample_world
  /\ rr_Removed answer.1.1 <= len (w_rows sample_world) - len (w_rows answer.2) <= rr_Removed answer.1.1 + rr_Failed answer.1.1
  /\ rr_Removed answer.1.1 = rr_ExpiredRemoved answer.1.1 + rr_LRURemoved answer.1.1
  /\ rr_Removed answer.1.1 + rr_Failed answer.1.1 <= rr_Examined answer.1.1
  /\ rr_Failed answer.1.1 + rr_StagingFailures answer.1.1 <= len answer.1.2.
Proof.
  split; [by vm_compute|]. apply (report_truthful sample_faults); [done|]. by apply (bool_decide_unpack _); vm_compute.
Defined.

(** Between the listing and the removal of the least recently used entry somebody uses and
    renews it: it is removed nevertheless, although its removal was decided by its old row. *)
Definition used_meanwhile : surroundings world :=
  {| interfere := fun n w => if bool_decide (n = 13)%nat then with_rows w (alter (fun _ => sample_row 1 "a" 50 sample_now (3000 * Second)) O (w_rows w)) else w;
     fault := fun _ => None |}.

Example renewed_entry_removed :
  ce_ID <$> w_rows (run used_meanwhile (Reclaim sample_retention ReclaimModeCapacity sample_now) sample_world).2 = [2].
Proof. vm_compute. reflexivity. Qed.

End examples.
