(* ===== verification/AllowList.v ===== *)
(** * The allow-list of the quarantine (internal/quarantine/allowlist.go)

    Rules [ecosystem:glob] and [ecosystem:name<op>version], parsed at startup with the
    dialect of their ecosystem and matched against package coordinates. *)

From S2P Require Export RuleTheory.

(** [strings.Index]: where a substring first occurs, as the text before and after. *)
Fixpoint cut_at (s sub : gostring) : option (gostring * gostring) :=
  if has_prefix s sub then Some ([], drop (length sub) s) else
  match s with
  | [] => None
  | c :: s' => option_map (fun p => (c :: p.1, p.2)) (cut_at s' sub)
  end.

Record allowEntry := {
  ae_ecosystem : gostring;
  ae_dialect : PackagePolicyDialect;
  ae_packageName : gostring;
  ae_packageGlob : bool;
  ae_versionMatcher : option VersionMatcher;
}.

Inductive quarantineVersionCapability :=
  | quarantineVersionsPackageOnly
  | quarantineVersionsExactOnly
  | quarantineVersionsRanges.

(** The two-character operators come first. *)
Definition allow_operators : list gostring := [bs ">="; bs "<="; bs "=="; bs ">"; bs "<"].

(** The first operator of the list that occurs in the rule, with the text around it. *)
Fixpoint find_operator (operators : list gostring) (rule : gostring) : option (gostring * gostring * gostring) :=
  match operators with
  | [] => None
  | operator :: operators =>
    match cut_at rule operator with
    | Some (before, after) => Some (operator, before, after)
    | None => find_operator operators rule
    end
  end.

Definition quarantineAllowVersionCapability (ecosystem : gostring) (dialect : PackagePolicyDialect)
    : quarantineVersionCapability :=
  if one_of ecosystem [bs "apt"; bs "composer"; bs "rubygems"; bs "helm"] then quarantineVersionsPackageOnly
  else if str_eqb ecosystem (bs "npm") then quarantineVersionsRanges
  else if SupportsRanges dialect then quarantineVersionsRanges
  else quarantineVersionsExactOnly.

Definition ranges_capable (capability : quarantineVersionCapability) : bool :=
  match capability with quarantineVersionsRanges => true | _ => false end.

Section allowlist.
Context `{UnicodeTables} `{EnglishLower} `{ModulePackage}.

(** The rule with a version selector. *)
Definition parseVersionEntry (ecosystem : gostring) (dialect : PackagePolicyDialect) (operator before after : gostring)
    : result allowEntry :=
  let name := trim_space before in
  let version := trim_space after in
  if str_eqb name [] || str_eqb version [] then fail "comparator %q with empty operand" else
  if str_eqb operator (bs "==") && str_eqb version star then fail "exact version selector requires a concrete version" else
  let capability := quarantineAllowVersionCapability ecosystem dialect in
  match capability with
  | quarantineVersionsPackageOnly => Err ErrVersionSelectorsUnsupported
  | _ =>
    if negb (str_eqb operator (bs "==")) && negb (ranges_capable capability) then Err ErrVersionSelectorsUnsupported else
    normalizedName ← wrap "normalize package name: %w" (NormalizePackageName dialect name);
    let selector := if str_eqb operator (bs "==") then version else operator ++ version in
    matcher ← wrap "compile version selector %q: %w" (CompileVersionMatcher ecosystem selector);
    Ok {| ae_ecosystem := ecosystem; ae_dialect := dialect; ae_packageName := normalizedName;
          ae_packageGlob := false; ae_versionMatcher := Some matcher |}
  end.

Definition parseAllowEntry (raw : gostring) : result allowEntry :=
  match index_byte raw (ch ":") with
  | None => fail "missing 'ecosystem:' prefix"
  | Some colon =>
    if (colon =? 0)%nat || (S colon =? length raw)%nat then fail "missing 'ecosystem:' prefix" else
    let ecosystem := to_lower (trim_space (take colon raw)) in
    let rule := trim_space (drop (S colon) raw) in
    if str_eqb ecosystem [] || str_eqb rule [] then fail "empty ecosystem or rule" else
    dialect ← DialectFor ecosystem;
    match find_operator allow_operators rule with
    | Some (operator, before, after) => parseVersionEntry ecosystem dialect operator before after
    | None =>
      normalizedPattern ← wrap "normalize package glob: %w" (NormalizePackageGlob dialect rule);
      Ok {| ae_ecosystem := ecosystem; ae_dialect := dialect; ae_packageName := normalizedPattern;
            ae_packageGlob := true; ae_versionMatcher := None |}
    end
  end.

Fixpoint ParseAllowList (rules : list gostring) : result (list allowEntry) :=
  match rules with
  | [] => Ok []
  | raw :: rules =>
    let raw := trim_space raw in
    if str_eqb raw [] then ParseAllowList rules else
    entry ← wrap "allow rule #%d %q: %w" (parseAllowEntry raw);
    entries ← ParseAllowList rules;
    Ok (entry :: entries)
  end.

(** The test of one entry, the package name normalized. *)
Definition entry_matches (entry : allowEntry) (normalizedPackageName version : gostring) : bool :=
  if ae_packageGlob entry then
    match path_match (ae_packageName entry) normalizedPackageName with Ok matched => matched | Err _ => false end
  else if negb (str_eqb (ae_packageName entry) normalizedPackageName) || str_eqb version [] then false
  else match ae_versionMatcher entry with
       | Some matcher => match Match matcher version with (matched, None) => matched | (_, Some _) => false end
       | None => false
       end.

(** The loop of [Match]; the name is normalized by the first entry of the ecosystem. *)
Fixpoint match_entries (entries : list allowEntry) (ecosystem packageName version : gostring)
    (normalizedPackageName : option gostring) : bool :=
  match entries with
  | [] => false
  | entry :: entries =>
    if negb (str_eqb (ae_ecosystem entry) ecosystem)
    then match_entries entries ecosystem packageName version normalizedPackageName else
    match match normalizedPackageName with
          | Some n => Ok n
          | None => NormalizePackageName (ae_dialect entry) packageName
          end with
    | Err _ => false
    | Ok n => if entry_matches entry n version then true else match_entries entries ecosystem packageName version (Some n)
    end
  end.

Definition allow_match (a : option (list allowEntry)) (ecosystem packageName version : gostring) : bool :=
  match a with
  | None | Some [] => false
  | Some entries => match_entries entries (to_lower (trim_space ecosystem)) packageName version None
  end.

(** ** What the list allows *)

(** An entry as [parseAllowEntry] builds it. *)
Definition entry_wf (entry : allowEntry) : Prop := DialectFor (ae_ecosystem entry) = Ok (ae_dialect entry).

Lemma parseAllowEntry_wf raw entry : parseAllowEntry raw = Ok entry -> entry_wf entry.
Proof.
  unfold parseAllowEntry. destruct (index_byte raw (ch ":")) as [colon|]; [|done]. destruct (_ || _); [done|].
  destruct (_ || _); [done|]. intros Hp. apply result_bind_ok in Hp as (d & Hd & Hp).
  destruct (find_operator _ _) as [[[o b] a]|].
  - unfold parseVersionEntry in Hp. destruct (_ || _); [done|]. destruct (_ && _); [done|].
    destruct (quarantineAllowVersionCapability _ d); [done| |]; (destruct (_ && _); [done|]);
      apply result_bind_ok in Hp as (n & _ & Hp); apply result_bind_ok in Hp as (m & _ & [= <-]); exact Hd.
  - apply result_bind_ok in Hp as (n & _ & [= <-]). exact Hd.
Qed.

Lemma ParseAllowList_wf rules entries : ParseAllowList rules = Ok entries -> Forall entry_wf entries.
Proof.
  revert entries. induction rules as [|raw rules IH]; intros entries; simpl; [intros [= <-]; constructor|].
  destruct (str_eqb _ []); [apply IH|]. intros Hp. apply result_bind_ok in Hp as (entry & He & Hp).
  apply result_bind_ok in Hp as (es & Hes & [= <-]). apply wrap_ok in He. constructor; [by eapply parseAllowEntry_wf | by apply IH].
Qed.

Lemma match_entries_spec entries ecosystem d packageName version n :
  Forall entry_wf entries -> DialectFor ecosystem = Ok d -> NormalizePackageName d packageName = Ok n ->
  forall known, (known = None \/ known = Some n) ->
  match_entries entries ecosystem packageName version known = true
  <-> Exists (fun entry => ae_ecosystem entry = ecosystem /\ entry_matches entry n version = true) entries.
Proof.
  intros Hwf Hd Hn. induction Hwf as [|entry entries He _ IH]; intros known Hk; simpl.
  - split; [done | by intros Hx%Exists_nil].
  - rewrite Exists_cons. destruct (str_eqb (ae_ecosystem entry) ecosystem) eqn:Ee; cbn [negb].
    + apply str_eqb_eq in Ee. unfold entry_wf in He. rewrite Ee, Hd in He. injection He as <-.
      assert (Hm : match known with Some n0 => Ok n0 | None => NormalizePackageName d packageName end = Ok n)
        by (by destruct Hk as [-> | ->]). rewrite Hm.
      destruct (entry_matches entry n version) eqn:Em; [by split; [intros _; left|]|].
      rewrite (IH (Some n)) by by right. split; [by right | by intros [[_ ?]|?]].
    + apply str_eqb_neq in Ee. rewrite (IH known Hk). split; [by right | by intros [[? _]|?]].
Qed.

Lemma match_entries_bad_name entries ecosystem d packageName version :
  Forall entry_wf entries -> DialectFor ecosystem = Ok d -> is_err (NormalizePackageName d packageName) = true ->
  match_entries entries ecosystem packageName version None = false.
Proof.
  intros Hwf Hd Hn. induction Hwf as [|entry entries He _ IH]; simpl; [done|].
  destruct (str_eqb (ae_ecosystem entry) ecosystem) eqn:Ee; cbn [negb]; [|done].
  apply str_eqb_eq in Ee. unfold entry_wf in He. rewrite Ee, Hd in He. injection He as <-.
  by destruct (NormalizePackageName d packageName).
Qed.

Lemma match_entries_unknown entries ecosystem packageName version known :
  Forall entry_wf entries -> is_err (DialectFor ecosystem) = true ->
  match_entries entries ecosystem packageName version known = false.
Proof.
  intros Hwf Hd. induction Hwf as [|entry entries He _ IH]; simpl; [done|].
  destruct (str_eqb (ae_ecosystem entry) ecosystem) eqn:Ee; cbn [negb]; [|done].
  apply str_eqb_eq in Ee. unfold entry_wf in He. rewrite Ee in He. by rewrite He in Hd.
Qed.

(** The allow-list bypasses the quarantine for a coordinate exactly when its
    ecosystem has a dialect, its package name is valid there, and some rule of that
    ecosystem either is a glob that matches the normalized name, or names exactly that
    package and has a version selector that accepts the - non-empty - version without
    an error: a rule for one version or one package never lets another one through, and
    a name or version that does not parse is never bypassed. *)
Theorem allowlist_bypass rules entries ecosystem packageName version :
  ParseAllowList rules = Ok entries ->
  allow_match (Some entries) ecosystem packageName version = true
  <-> exists d n, DialectFor (to_lower (trim_space ecosystem)) = Ok d /\ NormalizePackageName d packageName = Ok n
      /\ Exists (fun entry => ae_ecosystem entry = to_lower (trim_space ecosystem)
           /\ ((ae_packageGlob entry = true /\ path_match (ae_packageName entry) n = Ok true)
               \/ (ae_packageGlob entry = false /\ ae_packageName entry = n /\ version <> []
                   /\ exists matcher, ae_versionMatcher entry = Some matcher /\ Match matcher version = (true, None)))) entries.
Proof.
  intros Hp. pose proof (ParseAllowList_wf rules entries Hp) as Hwf.
  assert (Hm : forall entry n, entry_matches entry n version = true <->
    ((ae_packageGlob entry = true /\ path_match (ae_packageName entry) n = Ok true)
     \/ (ae_packageGlob entry = false /\ ae_packageName entry = n /\ version <> []
         /\ exists matcher, ae_versionMatcher entry = Some matcher /\ Match matcher version = (true, None)))).
  { intros entry n. unfold entry_matches. destruct (ae_packageGlob entry).
    - destruct (path_match (ae_packageName entry) n) as [b|e].
      + split; [intros ->; by left | by intros [[_ [= ->]]|[? _]]].
      + split; [done | by intros [[_ ?]|[? _]]].
    - destruct (str_eqb (ae_packageName entry) n) eqn:En; cbn [negb orb].
      2: { apply str_eqb_neq in En. split; [done | by intros [[? _]|(_ & ? & _)]]. }
      apply str_eqb_eq in En. destruct (str_eqb version []) eqn:Ev.
      { apply str_eqb_eq in Ev. split; [done | by intros [[? _]|(_ & _ & ? & _)]]. }
      apply str_eqb_neq in Ev. destruct (ae_versionMatcher entry) as [m|].
      2: { split; [done | by intros [[? _]|(_ & _ & _ & m & ? & _)]]. }
      split.
      + destruct (Match m version) as [b [e|]] eqn:Em; [done|]. intros ->. right. split_and!; try done. by exists m.
      + intros [[? _]|(_ & _ & _ & m' & [= <-] & ->)]; done. }
  assert (Ha : allow_match (Some entries) ecosystem packageName version
               = match_entries entries (to_lower (trim_space ecosystem)) packageName version None) by by destruct entries.
  rewrite Ha. set (eco := to_lower (trim_space ecosystem)). destruct (DialectFor eco) as [d|e] eqn:Ed.
  - destruct (NormalizePackageName d packageName) as [n|e] eqn:En.
    + rewrite (match_entries_spec entries eco d packageName version n Hwf Ed En None) by by left. split.
      * intros Hx. exists d, n. split_and!; try done. eapply Exists_impl; [exact Hx|]. intros entry [? ?]. split; [done | by apply Hm].
      * intros (d' & n' & [= <-] & Hn' & Hx). rewrite En in Hn'. injection Hn' as <-.
        eapply Exists_impl; [exact Hx|]. intros entry [? ?]. split; [done | by apply Hm].
    + rewrite (match_entries_bad_name entries eco d) by (done || by rewrite En).
      split; [done|]. intros (d' & n' & [= <-] & Hn' & _). by rewrite En in Hn'.
  - rewrite match_entries_unknown by (done || by rewrite Ed). split; [done | by intros (d' & n' & ? & _)].
Qed.

End allowlist.

Section witnesses.
#[local] Existing Instances ascii_tables ascii_lower permissive_modules.

Definition sample_rules : list gostring :=
  [bs "npm:@scope/internal-*"; []; bs " PyPI : Requests==2.32.3 "; bs "npm:react>=18.0.0"].

Lemma ok_value {A} (m : result A) (d : A) : is_ok m = true -> m = Ok (match m with Ok a => a | Err _ => d end).
Proof. by destruct m. Qed.

Definition sample_entries : list allowEntry :=
  match ParseAllowList sample_rules with Ok entries => entries | Err _ => [] end.

Lemma allowlist_bypass_witness :
  allow_match (Some sample_entries) (bs "npm") (bs "react") (bs "17.0.0") = false
  /\ allow_match (Some sample_entries) (bs "pypi") (bs "requests") (bs "2.32.3") = true
  /\ exists d n, DialectFor (to_lower (trim_space (bs "NPM"))) = Ok d /\ NormalizePackageName d (bs "react") = Ok n
     /\ Exists (fun entry => ae_ecosystem entry = to_lower (trim_space (bs "NPM"))
           /\ ((ae_packageGlob entry = true /\ path_match (ae_packageName entry) n = Ok true)
               \/ (ae_packageGlob entry = false /\ ae_packageName entry = n /\ bs "18.2.0" <> []
                   /\ exists matcher, ae_versionMatcher entry = Some matcher /\ Match matcher (bs "18.2.0") = (true, None))))
          sample_entries.
Proof.
  pose proof (ok_value (ParseAllowList sample_rules) [] ltac:(vm_compute; reflexivity)) as Hp.
  split; [vm_compute; reflexivity|]. split; [vm_compute; reflexivity|].
  apply (allowlist_bypass sample_rules sample_entries (bs "NPM") (bs "react") (bs "18.2.0") Hp).
  vm_compute. reflexivity.
Defined.

End witnesses.
