(* ===== verification/QuarantinePolicy.v ===== *)
(** * The policy of the quarantine (internal/quarantine/policy.go)

    The operator's configuration of the minimum release age, resolved into a policy:
    thresholds per ecosystem, which of them a bound publish time justifies, the mode,
    the allow-list and the posture on missing timestamps. *)

From stdpp Require Import gmap.
From S2P Require Export AllowList Duration.

(** [type Mode string] *)
Definition Mode : Type := gostring.
Definition ModeBlock : Mode := bs "block".
Definition ModeWarn : Mode := bs "warn".
Definition ModeServeLastEligible : Mode := bs "serve_last_eligible".

Record Policy := {
  po_ageGateEnabled : bool;
  po_sourceProvenanceBound : option (gostring -> bool);
  po_approximateProvenance : gset gostring;
  po_observationProvenance : gset gostring;
  po_Thresholds : gmap gostring Z;
  po_Default : Z;
  po_Mode : Mode;
  po_Allow : option (list allowEntry);
  po_FailClosed : bool;
}.

(** [Config]; the map [MinReleaseAge] is the list of its entries in the order in which
    the range loop meets them. *)
Record Config := {
  cf_MinReleaseAgeEnabled : option bool;
  cf_MinReleaseAge : list (gostring * gostring);
  cf_ApproximateSources : list gostring;
  cf_ObservationSources : list gostring;
  cf_Mode : gostring;
  cf_Allow : list gostring;
  cf_FailClosed : option bool;
}.

Definition DefaultThresholds : gmap gostring Z :=
  list_to_map ((fun e => (e, 0)) <$>
    [bs "pypi"; bs "npm"; bs "go"; bs "cargo"; bs "maven"; bs "rubygems"; bs "composer"; bs "nuget"; bs "conda";
     bs "cran"; bs "helm"; bs "alpine"; bs "docker"; bs "huggingface"; bs "apt"]).

Definition SupportsMinimumReleaseAge (ecosystem : gostring) : bool := false.

Definition approximateCapable (ecosystem : gostring) : bool :=
  one_of ecosystem [bs "conda"; bs "cran"; bs "maven"; bs "alpine"; bs "helm"].

Definition observationCapable (ecosystem : gostring) : bool := one_of ecosystem [bs "docker"].

(** [bound != nil && bound(ecosystem)] *)
Definition is_bound (bound : option (gostring -> bool)) (ecosystem : gostring) : bool :=
  match bound with Some f => f ecosystem | None => false end.

Section policy.
Context `{UnicodeTables} `{EnglishLower} `{ModulePackage}.

Definition normalize_key (s : gostring) : gostring := to_lower (trim_space s).

(** The two loops over the listed sources: what was listed, and what of it counts. *)
Definition acknowledged_sources (sources : list gostring) : gset gostring :=
  list_to_set (filter (fun n => n <> []) (normalize_key <$> sources)).

Definition capable_sources (capable : gostring -> bool) (sources : list gostring) : gset gostring :=
  filter (fun n => capable n = true) (acknowledged_sources sources).

(** The error for a positive threshold without provenance. *)
Definition unbound_error (acknowledged observedAcknowledged : gset gostring) (key : gostring) : error :=
  if approximateCapable key
  then Errorf "quarantine: minimum release age for ecosystem %q needs approximate Last-Modified provenance; add it to supply_chain.approximate_sources to acknowledge the weaker timestamp, or set its threshold to 0" [] else
  if bool_decide (key ∈ acknowledged) then
    if observationCapable key
    then Errorf "quarantine: minimum release age for ecosystem %q cannot use approximate_sources: its registries expose no usable Last-Modified publish time, so add it to supply_chain.observation_sources to acknowledge first-observation age, or set its threshold to 0" []
    else Errorf "quarantine: minimum release age for ecosystem %q is not supported safely; its adapter does not provide approximate Last-Modified provenance yet, so supply_chain.approximate_sources does not enable it; set its threshold to 0 or disable the age gate" []
  else
  if bool_decide (key ∈ observedAcknowledged)
  then Errorf "quarantine: minimum release age for ecosystem %q is not supported safely; its adapter does not record first-observation provenance yet, so supply_chain.observation_sources does not enable it; set its threshold to 0 or disable the age gate" [] else
  if observationCapable key
  then Errorf "quarantine: minimum release age for ecosystem %q needs first-observation provenance; add it to supply_chain.observation_sources to acknowledge that the age starts at the first pull by this instance, or set its threshold to 0" []
  else Errorf "quarantine: minimum release age for ecosystem %q is not supported safely; set its threshold to 0 or disable the age gate" [].

(** What the loop over [MinReleaseAge] reads. *)
Record age_settings := {
  as_enabled : bool;
  as_bound : option (gostring -> bool);
  as_approximate : gset gostring;
  as_observed : gset gostring;
  as_acknowledged : gset gostring;
  as_observedAcknowledged : gset gostring;
}.

(** [provenanceBound] *)
Definition provenance_bound (s : age_settings) (key : gostring) : bool :=
  SupportsMinimumReleaseAge key || is_bound (as_bound s) key
  || bool_decide (key ∈ as_approximate s) || bool_decide (key ∈ as_observed s).

(** One turn of the loop: the thresholds and the default it leaves. *)
Definition age_entry (s : age_settings) (st : gmap gostring Z * Z) (entry : gostring * gostring)
    : result (gmap gostring Z * Z) :=
  let '(key, value) := entry in
  let '(thresholds, default) := st in
  dur ← wrap "quarantine: invalid duration for %q: %w" (ParseDuration value);
  let normalizedKey := normalize_key key in
  if str_eqb normalizedKey (bs "default") then
    if as_enabled s && (dur >? 0)
    then fail "quarantine: positive minimum release age defaults are not supported safely until artifact source provenance is bound; set default to 0 or disable the age gate"
    else Ok (thresholds, dur)
  else if as_enabled s && (dur >? 0) && negb (provenance_bound s normalizedKey)
  then Err (unbound_error (as_acknowledged s) (as_observedAcknowledged s) normalizedKey)
  else Ok (<[normalizedKey := dur]> thresholds, default).

Fixpoint age_loop (s : age_settings) (st : gmap gostring Z * Z) (entries : list (gostring * gostring))
    : result (gmap gostring Z * Z) :=
  match entries with
  | [] => Ok st
  | entry :: entries => st ← age_entry s st entry; age_loop s st entries
  end.

Definition resolve_mode (mode : gostring) : result Mode :=
  let mode := normalize_key mode in
  if one_of mode [[]; bs "block"] then Ok ModeBlock
  else if str_eqb mode (bs "warn") then Ok ModeWarn
  else if str_eqb mode (bs "serve_last_eligible") then Ok ModeServeLastEligible
  else fail "quarantine: unknown mode %q (want block | warn | serve_last_eligible)".

Definition settings_of (cfg : Config) (bound : option (gostring -> bool)) : age_settings :=
  {| as_enabled := default (negb (len (cf_MinReleaseAge cfg) =? 0)) (cf_MinReleaseAgeEnabled cfg);
     as_bound := bound;
     as_approximate := capable_sources approximateCapable (cf_ApproximateSources cfg);
     as_observed := capable_sources observationCapable (cf_ObservationSources cfg);
     as_acknowledged := acknowledged_sources (cf_ApproximateSources cfg);
     as_observedAcknowledged := acknowledged_sources (cf_ObservationSources cfg) |}.

Definition NewPolicyWithProvenance (cfg : Config) (bound : option (gostring -> bool)) : result Policy :=
  let s := settings_of cfg bound in
  '(thresholds, defaultThreshold) ← age_loop s (DefaultThresholds, 0) (cf_MinReleaseAge cfg);
  mode ← resolve_mode (cf_Mode cfg);
  allow ← wrap "quarantine: %w" (ParseAllowList (cf_Allow cfg));
  Ok {| po_ageGateEnabled := as_enabled s;
        po_sourceProvenanceBound := bound;
        po_approximateProvenance := as_approximate s;
        po_observationProvenance := as_observed s;
        po_Thresholds := thresholds;
        po_Default := defaultThreshold;
        po_Mode := mode;
        po_Allow := Some allow;
        po_FailClosed := default true (cf_FailClosed cfg) |}.

Definition NewPolicy (cfg : Config) : result Policy := NewPolicyWithProvenance cfg None.

(** ** Reading the policy; [None] is the nil policy *)

Definition SourceProvenanceBound (p : option Policy) (ecosystem : gostring) : bool :=
  match p with
  | None => false
  | Some p =>
    let normalized := normalize_key ecosystem in
    if SupportsMinimumReleaseAge normalized then true else
    if is_bound (po_sourceProvenanceBound p) normalized then true else
    bool_decide (normalized ∈ po_approximateProvenance p) || bool_decide (normalized ∈ po_observationProvenance p)
  end.

Definition ApproximateProvenance (p : option Policy) (ecosystem : gostring) : bool :=
  match p with None => false | Some p => bool_decide (normalize_key ecosystem ∈ po_approximateProvenance p) end.

Definition ObservationProvenance (p : option Policy) (ecosystem : gostring) : bool :=
  match p with None => false | Some p => bool_decide (normalize_key ecosystem ∈ po_observationProvenance p) end.

Definition Threshold (p : option Policy) (ecosystem : gostring) : Z :=
  match p with
  | None => 0
  | Some q =>
    if negb (po_ageGateEnabled q) then 0 else
    let normalizedEcosystem := normalize_key ecosystem in
    if negb (SourceProvenanceBound p normalizedEcosystem) then 0 else
    match po_Thresholds q !! normalizedEcosystem with
    | Some d => d
    | None => po_Default q
    end
  end.

Definition policyEnabled (p : option Policy) (ecosystem : gostring) : bool := Threshold p ecosystem >? 0.

Definition IsAgeGateEnabled (p : option Policy) : bool :=
  match p with None => false | Some p => po_ageGateEnabled p end.

Definition HasActiveThresholds (p : option Policy) : bool :=
  match p with
  | None => false
  | Some q => po_ageGateEnabled q && existsb (fun kd => Threshold p kd.1 >? 0) (map_to_list (po_Thresholds q))
  end.

(** ** The loop *)

(** What one accepted entry says. *)
Definition entry_ok (s : age_settings) (entry : gostring * gostring) (dur : Z) : Prop :=
  ParseDuration entry.2 = Ok dur
  /\ (as_enabled s = true -> 0 < dur -> normalize_key entry.1 <> bs "default" /\ provenance_bound s (normalize_key entry.1) = true).

Lemma age_entry_ok s st entry st' :
  age_entry s st entry = Ok st' <->
  exists dur, entry_ok s entry dur /\
    st' = if str_eqb (normalize_key entry.1) (bs "default") then (st.1, dur) else (<[normalize_key entry.1 := dur]> st.1, st.2).
Proof.
  destruct entry as [key value], st as [th df]. unfold age_entry, entry_ok. cbn [fst snd]. split.
  - intros He. apply result_bind_ok in He as (dur & Hd & He). apply wrap_ok in Hd. exists dur.
    destruct (str_eqb (normalize_key key) (bs "default")) eqn:Ek.
    + destruct (as_enabled s && (dur >? 0)) eqn:E; [done|]. injection He as <-. split; [|done]. split; [done|]. intros Hs Hp. rewrite Hs in E. simpl in E. lia.
    + destruct (as_enabled s && (dur >? 0) && _) eqn:E; [done|]. injection He as <-. split; [|done]. split; [done|].
      apply str_eqb_neq in Ek. intros Hs Hp. split; [done|]. destruct (provenance_bound s _); [done|].
      rewrite Hs in E. simpl in E. lia.
  - intros (dur & [Hd Hb] & ->). rewrite Hd. cbn [wrap mbind result_bind].
    destruct (str_eqb (normalize_key key) (bs "default")) eqn:Ek.
    + apply str_eqb_eq in Ek. destruct (as_enabled s && (dur >? 0)) eqn:E; [|done]. apply andb_true_iff in E as [Es Ed].
      exfalso. apply (Hb Es); [lia | done].
    + destruct (as_enabled s && (dur >? 0)) eqn:E; [|done]. apply andb_true_iff in E as [Es Ed].
      destruct (Hb Es ltac:(lia)) as [_ ->]. done.
Qed.

Lemma age_loop_app s st l1 l2 : age_loop s st (l1 ++ l2) = st ← age_loop s st l1; age_loop s st l2.
Proof.
  revert st. induction l1 as [|entry l1 IH]; intros st; [done|]. cbn [app age_loop].
  destruct (age_entry s st entry); [apply IH | done].
Qed.

(** Every threshold the loop leaves that is positive while the gate is on is bound. *)
Definition thresholds_ok (s : age_settings) (st : gmap gostring Z * Z) : Prop :=
  as_enabled s = true ->
  (forall k d, st.1 !! k = Some d -> 0 < d -> provenance_bound s k = true) /\ st.2 <= 0.

Lemma age_loop_thresholds s st entries st' :
  thresholds_ok s st -> age_loop s st entries = Ok st' -> thresholds_ok s st'.
Proof.
  revert st. induction entries as [|entry entries IH]; intros st Hok; simpl; [by intros [= <-]|].
  intros Hl. apply result_bind_ok in Hl as (st1 & He & Hl). apply (IH st1); [|done]. clear IH Hl.
  apply age_entry_ok in He as (dur & [_ Hb] & ->). intros Hs. destruct (Hok Hs) as [Ht Hd].
  destruct (str_eqb (normalize_key entry.1) (bs "default")) eqn:Ek; cbn [fst snd].
  - split; [done|]. apply str_eqb_eq in Ek. destruct (Z.lt_ge_cases 0 dur) as [Hp|Hp]; [|lia]. by destruct (Hb Hs Hp).
  - split; [|done]. intros k d Hk Hp. destruct (decide (k = normalize_key entry.1)) as [->|Hne].
    + rewrite lookup_insert_eq in Hk. injection Hk as <-. by destruct (Hb Hs Hp).
    + rewrite lookup_insert_ne in Hk by done. by apply (Ht k d).
Qed.

Lemma default_thresholds_ok s : thresholds_ok s (DefaultThresholds, 0).
Proof.
  intros _. split; [|simpl; lia]. intros k d Hk Hp. simpl in Hk. apply elem_of_list_to_map_2 in Hk.
  apply list_elem_of_fmap in Hk as (e & [= _ ->] & _). lia.
Qed.

(** An entry only touches its own key. *)
Lemma age_loop_other s st entries st' k :
  k ∉ (normalize_key ∘ fst) <$> entries -> age_loop s st entries = Ok st' -> st'.1 !! k = st.1 !! k.
Proof.
  revert st. induction entries as [|entry entries IH]; intros st Hk; simpl; [by intros [= <-]|].
  intros Hl. apply result_bind_ok in Hl as (st1 & He & Hl). rewrite fmap_cons in Hk. apply not_elem_of_cons in Hk as [Hne Hk].
  rewrite (IH st1 Hk Hl). apply age_entry_ok in He as (dur & _ & ->).
  destruct (str_eqb (normalize_key entry.1) (bs "default")); [done|]. simpl in *. by rewrite lookup_insert_ne.
Qed.

Lemma age_loop_lookup s st entries st' key value d :
  NoDup ((normalize_key ∘ fst) <$> entries) -> (key, value) ∈ entries -> normalize_key key <> bs "default" ->
  ParseDuration value = Ok d -> age_loop s st entries = Ok st' ->
  st'.1 !! normalize_key key = Some d /\ (as_enabled s = true -> 0 < d -> provenance_bound s (normalize_key key) = true).
Proof.
  intros Hnd Hin Hne Hd Hl. apply list_elem_of_split in Hin as (l1 & l2 & ->).
  rewrite age_loop_app in Hl. apply result_bind_ok in Hl as (st1 & _ & Hl). cbn [age_loop] in Hl.
  apply result_bind_ok in Hl as (st2 & He & Hl). apply age_entry_ok in He as (dur & [Hp Hb] & ->). cbn [fst snd] in *.
  rewrite Hd in Hp. injection Hp as <-. rewrite (proj2 (str_eqb_neq _ _) Hne) in Hl.
  split; [|intros Hs Hp; by destruct (Hb Hs Hp)].
  assert (Hnin : normalize_key key ∉ (normalize_key ∘ fst) <$> l2).
  { rewrite fmap_app, fmap_cons in Hnd. apply NoDup_app in Hnd as (_ & _ & Hnd). by apply NoDup_cons in Hnd as [? _]. }
  rewrite (age_loop_other _ _ _ _ _ Hnin Hl). cbn [fst]. by rewrite lookup_insert_eq.
Qed.

(** The order in which a map is ranged over does not matter. *)
Lemma age_entry_swap s st e1 e2 st' :
  normalize_key e1.1 <> normalize_key e2.1 ->
  (st ← age_entry s st e1; age_entry s st e2) = Ok st' -> (st ← age_entry s st e2; age_entry s st e1) = Ok st'.
Proof.
  intros Hne Hl. apply result_bind_ok in Hl as (st1 & He1 & He2). apply age_entry_ok in He1 as (d1 & Ho1 & ->).
  apply age_entry_ok in He2 as (d2 & Ho2 & ->).
  assert (Hs2 : age_entry s st e2 = Ok (if str_eqb (normalize_key e2.1) (bs "default") then (st.1, d2) else (<[normalize_key e2.1 := d2]> st.1, st.2)))
    by (apply age_entry_ok; by exists d2).
  rewrite Hs2. cbn [mbind result_bind]. apply age_entry_ok. exists d1. split; [done|].
  destruct (str_eqb (normalize_key e1.1) (bs "default")) eqn:E1, (str_eqb (normalize_key e2.1) (bs "default")) eqn:E2; cbn [fst snd]; try done.
  - apply str_eqb_eq in E1, E2. congruence.
  - by rewrite insert_insert_ne.
Qed.

Lemma age_loop_perm s st l1 l2 st' :
  Permutation l1 l2 -> NoDup ((normalize_key ∘ fst) <$> l1) -> age_loop s st l1 = Ok st' -> age_loop s st l2 = Ok st'.
Proof.
  intros Hp. revert st. induction Hp as [|e l1 l2 _ IH|e1 e2 l|l1 l2 l3 Hp1 IH1 Hp2 IH2]; intros st Hnd Hl.
  - done.
  - rewrite fmap_cons in Hnd. apply NoDup_cons in Hnd as [_ Hnd]. cbn [age_loop] in *.
    apply result_bind_ok in Hl as (st1 & -> & Hl). by apply IH.
  - rewrite !fmap_cons in Hnd. apply NoDup_cons in Hnd as [Hne Hnd]. apply not_elem_of_cons in Hne as [Hne _].
    cbn [age_loop] in *. apply result_bind_ok in Hl as (st1 & Ho1 & Hl). apply result_bind_ok in Hl as (st2 & Ho2 & Hl).
    assert (Hs : (st ← age_entry s st e2; age_entry s st e1) = Ok st2) by (rewrite Ho1; exact Ho2).
    apply age_entry_swap in Hs; [|done]. apply result_bind_ok in Hs as (st3 & -> & Ho4). cbn [mbind result_bind]. by rewrite Ho4.
  - apply IH2; [|by apply IH1]. by rewrite <- Hp1.
Qed.

Definition with_ages (cfg : Config) (entries : list (gostring * gostring)) : Config :=
  {| cf_MinReleaseAgeEnabled := cf_MinReleaseAgeEnabled cfg; cf_MinReleaseAge := entries;
     cf_ApproximateSources := cf_ApproximateSources cfg; cf_ObservationSources := cf_ObservationSources cfg;
     cf_Mode := cf_Mode cfg; cf_Allow := cf_Allow cfg; cf_FailClosed := cf_FailClosed cfg |}.

Lemma age_loop_entry s st entries st' key value :
  (key, value) ∈ entries -> age_loop s st entries = Ok st' ->
  exists d, ParseDuration value = Ok d
    /\ (as_enabled s = true -> 0 < d -> normalize_key key <> bs "default" /\ provenance_bound s (normalize_key key) = true).
Proof.
  intros Hin Hl. apply list_elem_of_split in Hin as (l1 & l2 & ->). rewrite age_loop_app in Hl.
  apply result_bind_ok in Hl as (st1 & _ & Hl). cbn [age_loop] in Hl. apply result_bind_ok in Hl as (st2 & He & _).
  apply age_entry_ok in He as (d & [Hp Hb] & _). by exists d.
Qed.

Lemma age_loop_default s st entries st' :
  age_loop s st entries = Ok st' -> st.1 !! bs "default" = None -> st'.1 !! bs "default" = None.
Proof.
  revert st. induction entries as [|e l IH]; intros st; simpl; [by intros [= <-]|]. intros Hb Hn.
  apply result_bind_ok in Hb as (st1 & He & Hb). apply (IH _ Hb). apply age_entry_ok in He as (dur & _ & ->).
  destruct (str_eqb (normalize_key e.1) (bs "default")) eqn:E; [done|]. apply str_eqb_neq in E. cbn [fst].
  by rewrite lookup_insert_ne.
Qed.

(** Where a positive threshold comes from. *)
Lemma age_loop_source s entries th df k d :
  NoDup ((normalize_key ∘ fst) <$> entries) -> as_enabled s = true ->
  age_loop s (DefaultThresholds, 0) entries = Ok (th, df) -> th !! k = Some d -> 0 < d ->
  exists key value, (key, value) ∈ entries /\ normalize_key key = k /\ ParseDuration value = Ok d.
Proof.
  intros Hnd Hen Hl Hk Hpos. destruct (decide (k ∈ (normalize_key ∘ fst) <$> entries)) as [Hin|Hnin].
  - apply list_elem_of_fmap in Hin as ([key value] & -> & Hin). exists key, value.
    change ((normalize_key ∘ fst) (key, value)) with (normalize_key key) in Hk |- *. split; [done|]. split; [done|].
    destruct (age_loop_entry s _ _ _ key value Hin Hl) as (d' & Hd & _).
    destruct (decide (normalize_key key = bs "default")) as [Hdef|Hne].
    + rewrite Hdef in Hk. pose proof (age_loop_default s _ _ _ Hl) as Hn. cbn [fst] in Hn. rewrite Hn in Hk; [done | by vm_compute].
    + destruct (age_loop_lookup s _ _ _ key value d' Hnd Hin Hne Hd Hl) as [Hlk _]. cbn [fst] in Hlk.
      rewrite Hk in Hlk. by injection Hlk as <-.
  - pose proof (age_loop_other _ _ _ _ _ Hnin Hl) as Ho. cbn [fst] in Ho. rewrite Hk in Ho. symmetry in Ho.
    apply elem_of_list_to_map_2 in Ho. apply list_elem_of_fmap in Ho as (e & [= _ ->] & _). lia.
Qed.

Lemma NewPolicy_inv cfg bound p :
  NewPolicyWithProvenance cfg bound = Ok p ->
  let s := settings_of cfg bound in
  age_loop s (DefaultThresholds, 0) (cf_MinReleaseAge cfg) = Ok (po_Thresholds p, po_Default p)
  /\ po_ageGateEnabled p = as_enabled s
  /\ (forall k, SourceProvenanceBound (Some p) k = provenance_bound s (normalize_key k))
  /\ resolve_mode (cf_Mode cfg) = Ok (po_Mode p)
  /\ (exists allow, ParseAllowList (cf_Allow cfg) = Ok allow /\ po_Allow p = Some allow)
  /\ po_FailClosed p = default true (cf_FailClosed cfg).
Proof.
  intros Hp s. unfold NewPolicyWithProvenance in Hp. apply result_bind_ok in Hp as ([th df] & Hl & Hp).
  apply result_bind_ok in Hp as (mode & Hm & Hp). apply result_bind_ok in Hp as (allow & Ha & [= <-]).
  apply wrap_ok in Ha. split_and!; try done; [|by exists allow].
  intros k. unfold SourceProvenanceBound, provenance_bound. cbn [SupportsMinimumReleaseAge orb].
  change (as_bound s) with bound. cbn [po_sourceProvenanceBound po_approximateProvenance po_observationProvenance].
  by destruct (is_bound bound (normalize_key k)).
Qed.

Lemma threshold_bound p ecosystem d :
  po_ageGateEnabled p = true -> SourceProvenanceBound (Some p) (normalize_key ecosystem) = true ->
  po_Thresholds p !! normalize_key ecosystem = Some d -> Threshold (Some p) ecosystem = d.
Proof. intros Hen Hb Hl. unfold Threshold. rewrite Hen. cbn [negb]. rewrite Hb. cbn [negb]. by rewrite Hl. Qed.

(** An accepted configuration is enforced: when no two keys of the age table name the
    same ecosystem, the order in which the table is ranged over does not matter, every
    positive threshold that was read - the gate being on - is the threshold of its
    ecosystem, and an ecosystem whose publish times are not bound to the source of its
    artifacts, or whose gate is off, has no threshold at all. *)
Theorem accepted_policy_enforced cfg bound p :
  NewPolicyWithProvenance cfg bound = Ok p -> NoDup ((normalize_key ∘ fst) <$> cf_MinReleaseAge cfg) ->
  (forall entries, Permutation (cf_MinReleaseAge cfg) entries -> NewPolicyWithProvenance (with_ages cfg entries) bound = Ok p)
  /\ (forall key value d, (key, value) ∈ cf_MinReleaseAge cfg -> ParseDuration value = Ok d -> 0 < d ->
        po_ageGateEnabled p = true -> normalize_key (normalize_key key) = normalize_key key ->
        Threshold (Some p) key = d)
  /\ (forall ecosystem, 0 < Threshold (Some p) ecosystem ->
        po_ageGateEnabled p = true /\ SourceProvenanceBound (Some p) (normalize_key ecosystem) = true
        /\ exists key value, (key, value) ∈ cf_MinReleaseAge cfg /\ normalize_key key = normalize_key ecosystem
             /\ ParseDuration value = Ok (Threshold (Some p) ecosystem)).
Proof.
  intros Hp Hnd. pose proof Hp as Hp0. destruct (NewPolicy_inv cfg bound p Hp) as (Hl & Hen & Hsb & Hm & (allow & Ha & Hpa) & Hf).
  set (s := settings_of cfg bound) in *.
  pose proof (age_loop_thresholds s _ _ _ (default_thresholds_ok s) Hl) as Hok. split; [|split].
  - intros entries Hperm. unfold NewPolicyWithProvenance in *. cbn [with_ages cf_MinReleaseAge cf_Mode cf_Allow cf_FailClosed].
    assert (Hs : settings_of (with_ages cfg entries) bound = s).
    { unfold s, settings_of, with_ages. cbn. unfold len. by rewrite (Permutation_length Hperm). }
    rewrite Hs, (age_loop_perm s _ _ _ _ Hperm Hnd Hl). fold s in Hp0. by rewrite Hl in Hp0.
  - intros key value d Hin Hd Hpos Hgate Hidem. rewrite Hen in Hgate.
    destruct (age_loop_entry s _ _ _ key value Hin Hl) as (d' & Hd' & Hb).
    rewrite Hd in Hd'. injection Hd' as <-. destruct (Hb Hgate Hpos) as [Hne Hbound].
    destruct (age_loop_lookup s _ _ _ key value d Hnd Hin Hne Hd Hl) as [Hlook _].
    apply threshold_bound; [congruence | by rewrite Hsb, Hidem | done].
  - intros ecosystem Hpos. unfold Threshold in *.
    destruct (po_ageGateEnabled p) eqn:Hgate; [|simpl in Hpos; lia]. cbn [negb] in *.
    destruct (SourceProvenanceBound (Some p) (normalize_key ecosystem)) eqn:Hb; [|simpl in Hpos; lia]. cbn [negb] in *.
    split; [done|]. split; [done|]. destruct (Hok (eq_sym Hen)) as [_ Hdf]. cbn [snd] in Hdf.
    destruct (po_Thresholds p !! normalize_key ecosystem) as [d|] eqn:Ed; [|lia].
    by apply (age_loop_source s _ _ _ _ _ Hnd (eq_sym Hen) Hl).
Qed.

End policy.

Section witnesses.
#[local] Existing Instances ascii_tables ascii_lower permissive_modules.

Definition sample_config : Config :=
  {| cf_MinReleaseAgeEnabled := Some true; cf_MinReleaseAge := [(bs "NPM", bs "3d"); (bs "Docker", bs "24h"); (bs "pypi", bs "0")];
     cf_ApproximateSources := []; cf_ObservationSources := [bs " docker"]; cf_Mode := bs "Block";
     cf_Allow := sample_rules; cf_FailClosed := None |}.

Definition npm_bound : option (gostring -> bool) := Some (fun e => str_eqb e (bs "npm")).

Definition sample_policy : option Policy :=
  match NewPolicyWithProvenance sample_config npm_bound with Ok p => Some p | Err _ => None end.

Lemma ok_some {A} (m : result A) :
  is_ok m = true -> exists a, m = Ok a /\ match m with Ok a => Some a | Err _ => None end = Some a.
Proof. destruct m; [by eexists | done]. Qed.

Lemma sample_policy_ok : exists p, NewPolicyWithProvenance sample_config npm_bound = Ok p /\ sample_policy = Some p.
Proof. apply ok_some. vm_compute. reflexivity. Qed.

Lemma sample_keys : NoDup ((normalize_key ∘ fst) <$> cf_MinReleaseAge sample_config).
Proof. apply (bool_decide_unpack _). vm_compute. exact I. Qed.

Lemma accepted_policy_enforced_witness :
  exists p, NewPolicyWithProvenance sample_config npm_bound = Ok p
    /\ Threshold (Some p) (bs "NPM") = 72 * Hour /\ Threshold (Some p) (bs "Docker") = 24 * Hour.
Proof.
  destruct sample_policy_ok as (p & Hp & Hs). exists p. split; [exact Hp|].
  destruct (accepted_policy_enforced sample_config npm_bound p Hp sample_keys) as (_ & He & _).
  assert (Hg : po_ageGateEnabled p = true).
  { destruct (NewPolicy_inv sample_config npm_bound p Hp) as (_ & -> & _). vm_compute. reflexivity. }
  split.
  - apply (He (bs "NPM") (bs "3d")); [by left | vm_compute; reflexivity | done | exact Hg | vm_compute; reflexivity].
  - apply (He (bs "Docker") (bs "24h")); [by right; left | vm_compute; reflexivity | done | exact Hg | vm_compute; reflexivity].
Defined.

End witnesses.
