(* ===== verification/QuarantineStore.v ===== *)
(** * The quarantine store (internal/quarantine/store.go, internal/db/quarantine.go)

    Publish times, permanent approvals and events.  The tables are lists and maps; what
    the database answers to the single statements of an operation is a parameter, and a
    transaction that fails leaves the tables as they were. *)

From stdpp Require Import gmap.
From S2P Require Export QuarantinePolicy.

Record Coordinate := {
  co_Ecosystem : gostring;
  co_Package : gostring;
  co_Version : gostring;
}.

Record ApprovedVersion := {
  av_ID : Z;
  av_Ecosystem : gostring;
  av_Package : gostring;
  av_Version : gostring;
  av_Reason : gostring;
  av_ApprovedBy : Z;
  av_CreatedAt : Z;
}.

(** The text of a reason: a format and its arguments. *)
Inductive reason := Reason (format : string) (args : list gostring).

Record QuarantineEvent := {
  qe_Ecosystem : gostring;
  qe_Package : gostring;
  qe_Version : gostring;
  qe_Action : gostring;
  qe_Reason : reason;
  qe_Threshold : Z;
  qe_AgeAtCall : Z;
  qe_ActorID : Z;
  qe_ClientIP : gostring;
  qe_CreatedAt : Z;
}.

Definition ActionBlocked : gostring := bs "blocked".
Definition ActionDowngrade : gostring := bs "served_eligible".
Definition ActionBypassed : gostring := bs "bypassed".
Definition ActionApproved : gostring := bs "approved".
Definition ActionRevoked : gostring := bs "approval_revoked".
Definition ActionWarned : gostring := bs "warned".
Definition ActionMalwareBlocked : gostring := bs "malware_blocked".
Definition ActionMalwareBypassed : gostring := bs "malware_bypassed".
Definition ActionMalwareWarned : gostring := bs "malware_warned".
Definition ActionTamperDetected : gostring := bs "tamper_detected".
Definition ActionSnapshotBlocked : gostring := bs "snapshot_blocked".

Definition ErrInvalidCoordinate : error := Sentinel "invalid quarantine package coordinate".

(** The tables; [qt_timestamps] is keyed by ecosystem, package and version, and the
    approvals are kept in the order of their keys. *)
Record tables := {
  qt_timestamps : gmap (gostring * gostring * gostring) Z;
  qt_approved : list ApprovedVersion;
  qt_nextID : Z;
  qt_events : list QuarantineEvent;
}.

Definition with_timestamps (t : tables) (m : gmap (gostring * gostring * gostring) Z) : tables :=
  {| qt_timestamps := m; qt_approved := qt_approved t; qt_nextID := qt_nextID t; qt_events := qt_events t |}.

Definition with_approved (t : tables) (rows : list ApprovedVersion) (next : Z) : tables :=
  {| qt_timestamps := qt_timestamps t; qt_approved := rows; qt_nextID := next; qt_events := qt_events t |}.

Definition with_event (t : tables) (ev : QuarantineEvent) : tables :=
  {| qt_timestamps := qt_timestamps t; qt_approved := qt_approved t; qt_nextID := qt_nextID t; qt_events := qt_events t ++ [ev] |}.

(** ** Publish times and events *)

(** [answer] is the error the query ends with, [None] when it is answered. *)
Definition LookupTimestamp (t : tables) (answer : option error) (ecosystem pkg version : gostring) : result (option Z) :=
  match answer with
  | Some e => Err (Errorf "lookup timestamp: %w" [e])
  | None => Ok (qt_timestamps t !! (ecosystem, pkg, version))
  end.

Definition SaveTimestamp (t : tables) (answer : option error) (ecosystem pkg version : gostring) (publishAt : Z)
    : result tables :=
  match answer with
  | Some e => Err e
  | None => Ok (with_timestamps t (<[(ecosystem, pkg, version) := publishAt]> (qt_timestamps t)))
  end.

Definition stamp_event (ev : QuarantineEvent) (now : Z) : QuarantineEvent :=
  if negb (qe_CreatedAt ev =? 0) then ev else
  {| qe_Ecosystem := qe_Ecosystem ev; qe_Package := qe_Package ev; qe_Version := qe_Version ev; qe_Action := qe_Action ev;
     qe_Reason := qe_Reason ev; qe_Threshold := qe_Threshold ev; qe_AgeAtCall := qe_AgeAtCall ev; qe_ActorID := qe_ActorID ev;
     qe_ClientIP := qe_ClientIP ev; qe_CreatedAt := now |}.

Definition RecordEvent (t : tables) (answer : option error) (now : Z) (ev : QuarantineEvent) : result tables :=
  match answer with
  | Some e => Err e
  | None => Ok (with_event t (stamp_event ev now))
  end.

Section store.
Context `{UnicodeTables} `{EnglishLower} `{ModulePackage}.

(** ** Coordinates *)

Definition NormalizeCoordinate (ecosystem pkg version : gostring) : result Coordinate :=
  let eco := to_lower (trim_space ecosystem) in
  dialect ← recast "%w: ecosystem: %v" [ErrInvalidCoordinate] (DialectFor eco);
  p ← recast "%w: package: %v" [ErrInvalidCoordinate] (NormalizePackageName dialect pkg);
  v ← recast "%w: version: %v" [ErrInvalidCoordinate] (NormalizeVersion eco version);
  if (len eco >? 32) || (len p >? 256) || (len v >? 128)
  then Err (Errorf "%w: normalized coordinate exceeds database limits" [ErrInvalidCoordinate])
  else Ok {| co_Ecosystem := eco; co_Package := p; co_Version := v |}.

(** ** Approvals *)

(** The candidate names the target. *)
Definition equivalent_approval (dialect : PackagePolicyDialect) (target : Coordinate) (candidate : ApprovedVersion) : bool :=
  match NormalizeCoordinate (av_Ecosystem candidate) (av_Package candidate) (av_Version candidate) with
  | Err _ => false
  | Ok normalized =>
    if negb (str_eqb (co_Package normalized) (co_Package target)) then false else
    match CompareVersions dialect (co_Version normalized) (co_Version target) with
    | Err _ => false
    | Ok comparison => comparison =? 0
    end
  end.

(** [WHERE lower(ecosystem) = ? ORDER BY id]: SQLite folds the ASCII letters. *)
Definition approval_candidates (t : tables) (ecosystem : gostring) : list ApprovedVersion :=
  filter (fun r => byte_lower <$> av_Ecosystem r = ecosystem) (qt_approved t).

Definition equivalentApprovalIDs (t : tables) (answer : option error) (target : Coordinate) : result (list Z) :=
  match answer with
  | Some e => Err e
  | None =>
    dialect ← DialectFor (co_Ecosystem target);
    Ok (av_ID <$> filter (fun r => equivalent_approval dialect target r = true) (approval_candidates t (co_Ecosystem target)))
  end.

Definition IsApproved (t : tables) (answer : option error) (ecosystem pkg version : gostring) : result bool :=
  coordinate ← NormalizeCoordinate ecosystem pkg version;
  ids ← wrap "is approved: %w" (equivalentApprovalIDs t answer coordinate);
  Ok (0 <? len ids).

(** [id IN ids] *)
Definition delete_approvals (rows : list ApprovedVersion) (ids : list Z) : list ApprovedVersion :=
  filter (fun r => av_ID r ∉ ids) rows.

Definition same_key (c : Coordinate) (r : ApprovedVersion) : bool :=
  str_eqb (av_Ecosystem r) (co_Ecosystem c) && str_eqb (av_Package r) (co_Package c) && str_eqb (av_Version r) (co_Version c).

(** The insert with its [ON CONFLICT] clause on the unique key. *)
Definition upsert_approval (t : tables) (c : Coordinate) (reason : gostring) (actorID now : Z) : tables :=
  if existsb (same_key c) (qt_approved t) then
    with_approved t
      ((fun r => if same_key c r
                 then {| av_ID := av_ID r; av_Ecosystem := av_Ecosystem r; av_Package := av_Package r; av_Version := av_Version r;
                         av_Reason := reason; av_ApprovedBy := actorID; av_CreatedAt := now |}
                 else r) <$> qt_approved t) (qt_nextID t)
  else
    with_approved t
      (qt_approved t ++ [{| av_ID := qt_nextID t; av_Ecosystem := co_Ecosystem c; av_Package := co_Package c;
                            av_Version := co_Version c; av_Reason := reason; av_ApprovedBy := actorID; av_CreatedAt := now |}])
      (qt_nextID t + 1).

Definition admin_event (c : Coordinate) (action reason : gostring) (actorID now : Z) : QuarantineEvent :=
  {| qe_Ecosystem := co_Ecosystem c; qe_Package := co_Package c; qe_Version := co_Version c; qe_Action := action;
     qe_Reason := Reason "%s" [reason]; qe_Threshold := 0; qe_AgeAtCall := 0; qe_ActorID := actorID; qe_ClientIP := [];
     qe_CreatedAt := now |}.

(** What the statements of a transaction answer. *)
Record tx_answers := {
  ta_find : option error;
  ta_delete : option error;
  ta_insert : option error;
  ta_event : option error;
  ta_commit : option error;
}.

Definition answered (answer : option error) : result unit := match answer with Some e => Err e | None => Ok () end.

Definition Approve (t : tables) (io : tx_answers) (now : Z) (ecosystem pkg version reason : gostring) (actorID : Z)
    : result tables :=
  coordinate ← NormalizeCoordinate ecosystem pkg version;
  ids ← wrap "find equivalent approvals: %w" (equivalentApprovalIDs t (ta_find io) coordinate);
  t1 ← (if 0 <? len ids then
          _ ← wrap "replace equivalent approvals: %w" (answered (ta_delete io));
          Ok (with_approved t (delete_approvals (qt_approved t) ids) (qt_nextID t))
        else Ok t);
  _ ← wrap "approve insert: %w" (answered (ta_insert io));
  let t2 := upsert_approval t1 coordinate reason actorID now in
  _ ← wrap "approve event: %w" (answered (ta_event io));
  let t3 := with_event t2 (admin_event coordinate ActionApproved reason actorID now) in
  _ ← answered (ta_commit io);
  Ok t3.

Definition Revoke (t : tables) (io : tx_answers) (now : Z) (ecosystem pkg version reason : gostring) (actorID : Z)
    : result tables :=
  coordinate ← NormalizeCoordinate ecosystem pkg version;
  ids ← wrap "find equivalent approvals: %w" (equivalentApprovalIDs t (ta_find io) coordinate);
  if len ids =? 0 then _ ← answered (ta_commit io); Ok t else
  _ ← wrap "revoke delete: %w" (answered (ta_delete io));
  let t1 := with_approved t (delete_approvals (qt_approved t) ids) (qt_nextID t) in
  _ ← answered (ta_event io);
  let t2 := with_event t1 (admin_event coordinate ActionRevoked reason actorID now) in
  _ ← answered (ta_commit io);
  Ok t2.

End store.
