(* ===== verification/QuarantineStoreTheory.v ===== *)
(** * Theory of the quarantine store (QuarantineStore.v)

    A normalized coordinate is its own normal form, so an approval that is stored is
    found again under every spelling of its version, and a revoked one under none. *)

From stdpp Require Import gmap.
From S2P Require Export QuarantineStore.

Section theory.
Context `{UnicodeTables} `{EnglishLower} `{ModulePackage}.

(** ** Coordinates are normal forms *)

Lemma canonical_fixed d s c :
  canonicalVersion d s = Ok c -> (d = MavenDialect -> Forall graphic s) -> canonicalVersion d c = Ok c.
Proof.
  intros Hc Hg. destruct (rewrites d) eqn:Er; [by destruct (canonical_spelled d s c Hc Er)|]. destruct d; try done.
  - by apply (maven_canonical_fixed s); [apply Hg|].
  - simpl in Hc. unfold exactCanonicalVersion in Hc. assert (c = s) as ->; [by go_inv | done].
Qed.

Lemma canonical_refl d c c' : canonicalVersion d c = Ok c' -> CompareVersions d c c = Ok 0.
Proof.
  intros Hc. destruct d; simpl in *.
  - unfold semverCanonicalVersion in Hc. apply result_bind_ok in Hc as (v & Hp & _). unfold semverCompareVersions.
    rewrite Hp. cbn [wrap mbind result_bind]. by rewrite (cmp_refl semverCompare).
  - unfold pep440CanonicalVersion in Hc. apply result_bind_ok in Hc as (v & Hp & _). unfold pep440CompareVersions.
    rewrite Hp. cbn [wrap mbind result_bind]. by rewrite (cmp_refl comparePEP440Versions).
  - unfold mavenCanonicalVersion in Hc. apply result_bind_ok in Hc as (v & Hp & _). unfold mavenCompareVersions.
    rewrite Hp. cbn [wrap mbind result_bind]. by rewrite compareTo_refl.
  - unfold debianCanonicalVersion in Hc. apply result_bind_ok in Hc as (v & Hp & _). unfold debianCompareVersions.
    rewrite Hp. cbn [wrap mbind result_bind]. by rewrite (cmp_refl compareDebian).
  - unfold nugetCanonicalVersion in Hc. apply result_bind_ok in Hc as (v & Hp & _). unfold nugetCompareVersions.
    rewrite Hp. cbn [wrap mbind result_bind]. by rewrite (cmp_refl compareNuGetVersions).
  - unfold exactCanonicalVersion in Hc. apply result_bind_ok in Hc as (u & Hp & _). unfold exactCompareVersions.
    rewrite Hp. cbn [wrap mbind result_bind]. by rewrite (cmp_refl strings_compare).
  - unfold cranCanonicalVersion in Hc. apply result_bind_ok in Hc as (v & Hp & _). unfold cranCompareVersions.
    rewrite Hp. cbn [wrap mbind result_bind]. by rewrite (cmp_refl compareCRAN).
Qed.

Lemma ecosystem_graphic e :
  Forall graphic e -> to_lower (trim_space e) = byte_lower <$> e /\ Forall graphic (byte_lower <$> e).
Proof.
  intros Hg. rewrite trim_space_graphic, lowered_graphic by done. split; [done | by apply lower_graphic].
Qed.

Lemma ecosystem_fixed e :
  Forall graphic e -> to_lower (trim_space (to_lower (trim_space e))) = to_lower (trim_space e).
Proof.
  intros Hg. destruct (ecosystem_graphic e Hg) as [-> Hl]. destruct (ecosystem_graphic _ Hl) as [-> _].
  apply fmap_byte_lower_idem.
Qed.

(** Spellings whose normal forms are known to be stable: the ecosystem in visible ASCII,
    and so the version where Maven lower-cases it; Hugging Face names are left out. *)
Definition plain_coordinate (ecosystem version : gostring) : Prop :=
  Forall graphic ecosystem /\ to_lower (trim_space ecosystem) <> bs "huggingface"
  /\ (to_lower (trim_space ecosystem) = bs "maven" -> Forall graphic version).

Lemma dialect_maven eco : Forall graphic eco -> byte_lower <$> eco = eco -> DialectFor eco = Ok MavenDialect -> eco = bs "maven".
Proof.
  intros Hg Hl Hd. unfold DialectFor, dialectForRevision1, normalizeEcosystemName in Hd.
  destruct (ecosystem_graphic eco Hg) as [Hn _]. rewrite Hn, Hl in Hd.
  destruct (dialect_lookup eco dialects) as [d|] eqn:E; [|done]. injection Hd as ->. unfold dialects in E.
  cbn [dialect_lookup] in E. repeat (case_match; [first [done | by apply str_eqb_eq]|]). done.
Qed.

Lemma NormalizeCoordinate_inv e p v c :
  NormalizeCoordinate e p v = Ok c ->
  exists d, DialectFor (co_Ecosystem c) = Ok d /\ co_Ecosystem c = to_lower (trim_space e)
    /\ NormalizePackageName d p = Ok (co_Package c) /\ NormalizeVersion (co_Ecosystem c) v = Ok (co_Version c)
    /\ (len (co_Ecosystem c) >? 32) || (len (co_Package c) >? 256) || (len (co_Version c) >? 128) = false.
Proof.
  unfold NormalizeCoordinate. intros Hn. apply result_bind_ok in Hn as (d & Hd & Hn). apply recast_ok in Hd.
  apply result_bind_ok in Hn as (p' & Hp & Hn). apply recast_ok in Hp. apply result_bind_ok in Hn as (v' & Hv & Hn).
  apply recast_ok in Hv. destruct (_ || _) eqn:E; [done|]. injection Hn as <-. by exists d.
Qed.

Lemma coordinate_fixed e p v c :
  NormalizeCoordinate e p v = Ok c -> plain_coordinate e v ->
  NormalizeCoordinate (co_Ecosystem c) (co_Package c) (co_Version c) = Ok c /\ byte_lower <$> co_Ecosystem c = co_Ecosystem c.
Proof.
  intros Hn (Hg & Hh & Hm). destruct (NormalizeCoordinate_inv e p v c Hn) as (d & Hd & He & Hp & Hv & Hlen).
  destruct (ecosystem_graphic e Hg) as [Hlow Hlg].
  assert (Hfix : to_lower (trim_space (co_Ecosystem c)) = co_Ecosystem c) by (rewrite He; by apply ecosystem_fixed).
  split; [|rewrite He, Hlow; apply fmap_byte_lower_idem].
  unfold NormalizeCoordinate. rewrite Hfix, Hd. cbn [recast mbind result_bind].
  assert (Hp' : NormalizePackageName d (co_Package c) = Ok (co_Package c)).
  { unfold DialectFor, dialectForRevision1 in Hd. destruct (dialect_lookup _ dialects) as [d'|] eqn:E; [|done]. injection Hd as ->.
    apply dialect_lookup_elem in E. pose proof dialects_fixed as HF. rewrite Forall_forall in HF. refine (HF _ E _ p _ Hp).
    unfold normalizeEcosystemName. cbn [fst]. rewrite Hfix, He. exact Hh. }
  rewrite Hp'. cbn [recast mbind result_bind]. unfold NormalizeVersion in *.
  assert (Heco : normalizeEcosystemName (co_Ecosystem c) = co_Ecosystem c) by (unfold normalizeEcosystemName; exact Hfix).
  rewrite Heco, Hd in Hv. cbn [mbind result_bind] in Hv. rewrite Heco, Hd. cbn [mbind result_bind].
  rewrite (canonical_fixed d v (co_Version c) Hv).
  - cbn [recast mbind result_bind]. rewrite Hlen. by destruct c.
  - intros ->. apply Hm. rewrite <- He. apply dialect_maven; [by rewrite He, Hlow | rewrite He, Hlow; apply fmap_byte_lower_idem | done].
Qed.

(** ** Approvals *)

(** The row approves the coordinate. *)
Definition approves (d : PackagePolicyDialect) (c : Coordinate) (r : ApprovedVersion) : Prop :=
  byte_lower <$> av_Ecosystem r = co_Ecosystem c /\ equivalent_approval d c r = true.

Lemma equivalentApprovalIDs_ok t answer c d :
  DialectFor (co_Ecosystem c) = Ok d ->
  equivalentApprovalIDs t answer c
  = match answer with
    | Some e => Err e
    | None => Ok (av_ID <$> filter (fun r => equivalent_approval d c r = true) (approval_candidates t (co_Ecosystem c)))
    end.
Proof. intros Hd. unfold equivalentApprovalIDs. destruct answer; [done|]. by rewrite Hd. Qed.

Lemma approved_rows t c d r :
  r ∈ filter (fun r => equivalent_approval d c r = true) (approval_candidates t (co_Ecosystem c))
  <-> r ∈ qt_approved t /\ approves d c r.
Proof. unfold approval_candidates, approves. rewrite !list_elem_of_filter. tauto. Qed.

Lemma IsApproved_iff t e p v c d :
  NormalizeCoordinate e p v = Ok c -> DialectFor (co_Ecosystem c) = Ok d ->
  exists b, IsApproved t None e p v = Ok b /\ (b = true <-> exists r, r ∈ qt_approved t /\ approves d c r).
Proof.
  intros Hn Hd. unfold IsApproved. rewrite Hn. cbn [mbind result_bind]. rewrite (equivalentApprovalIDs_ok t None c d Hd).
  cbn [wrap mbind result_bind]. eexists. split; [done|].
  pose proof (fun r => approved_rows t c d r) as Hrows.
  destruct (filter _ (approval_candidates t _)) as [|r l] eqn:E.
  - split; [done|]. intros (r & Hr%Hrows). by apply elem_of_nil in Hr.
  - split; [|intros _; apply Z.ltb_lt; unfold len; rewrite length_fmap; simpl; lia]. intros _. exists r. apply Hrows. by left.
Qed.

Lemma delete_approvals_elem rows ids r : r ∈ delete_approvals rows ids <-> av_ID r ∉ ids /\ r ∈ rows.
Proof. unfold delete_approvals. by rewrite list_elem_of_filter. Qed.

(** Deleting the rows that approve [c]. *)
Lemma delete_equivalent t c d r :
  r ∈ delete_approvals (qt_approved t)
        (av_ID <$> filter (fun r => equivalent_approval d c r = true) (approval_candidates t (co_Ecosystem c))) ->
  r ∈ qt_approved t /\ ~ approves d c r.
Proof.
  rewrite delete_approvals_elem. intros [Hid Hr]. split; [done|]. intros Ha. apply Hid.
  apply list_elem_of_fmap. exists r. split; [done | by apply approved_rows].
Qed.

Lemma delete_keeps t c d r :
  NoDup (av_ID <$> qt_approved t) -> r ∈ qt_approved t -> ~ approves d c r ->
  r ∈ delete_approvals (qt_approved t)
        (av_ID <$> filter (fun r => equivalent_approval d c r = true) (approval_candidates t (co_Ecosystem c))).
Proof.
  intros Hnd Hr Hna. apply delete_approvals_elem. split; [|done]. intros Hin.
  apply list_elem_of_fmap in Hin as (r' & Hid & [Hr' Ha]%approved_rows).
  apply Hna. assert (r = r') as ->; [|done].
  apply list_elem_of_lookup in Hr as [i Hi]. apply list_elem_of_lookup in Hr' as [j Hj].
  assert (i = j) as ->; [|congruence]. apply (NoDup_lookup _ _ _ (av_ID r) Hnd); rewrite list_lookup_fmap, ?Hi, ?Hj; simpl; congruence.
Qed.

Lemma upsert_elem t c reason actor now :
  exists r, r ∈ qt_approved (upsert_approval t c reason actor now)
    /\ av_Ecosystem r = co_Ecosystem c /\ av_Package r = co_Package c /\ av_Version r = co_Version c.
Proof.
  unfold upsert_approval. destruct (existsb (same_key c) (qt_approved t)) eqn:E.
  - apply existsb_exists in E as (r & Hr%list_elem_of_In & Hk). eexists. split.
    + cbn [with_approved qt_approved]. apply list_elem_of_fmap. exists r. split; [reflexivity | done].
    + rewrite Hk. unfold same_key in Hk. repeat apply andb_true_iff in Hk as [Hk ?].
      by split_and!; cbn; apply str_eqb_eq.
  - eexists. split; [cbn [with_approved qt_approved]; apply elem_of_app; right; left | done].
Qed.

Lemma upsert_others t c reason actor now r :
  same_key c r = false -> (r ∈ qt_approved (upsert_approval t c reason actor now) <-> r ∈ qt_approved t).
Proof.
  intros Hk. unfold upsert_approval. destruct (existsb (same_key c) (qt_approved t)); cbn [with_approved qt_approved].
  - rewrite list_elem_of_fmap. split.
    + intros (r' & -> & Hr'). destruct (same_key c r') eqn:E; [|done]. unfold same_key in *. cbn in *. congruence.
    + intros Hr. exists r. by rewrite Hk.
  - rewrite elem_of_app. split; [|by left]. intros [?|Hr%list_elem_of_singleton]; [done|]. subst r.
    unfold same_key in Hk. cbn in Hk. by rewrite !str_eqb_refl in Hk.
Qed.

Lemma Approve_ok t io now e p v reason actor t' c d :
  NormalizeCoordinate e p v = Ok c -> DialectFor (co_Ecosystem c) = Ok d ->
  Approve t io now e p v reason actor = Ok t' ->
  exists t1, qt_approved t' = qt_approved (upsert_approval t1 c reason actor now)
    /\ (forall r, r ∈ qt_approved t1 -> r ∈ qt_approved t)
    /\ (NoDup (av_ID <$> qt_approved t) -> forall r, r ∈ qt_approved t -> ~ approves d c r -> r ∈ qt_approved t1)
    /\ qt_events t' = qt_events t ++ [admin_event c ActionApproved reason actor now].
Proof.
  intros Hn Hd. unfold Approve. rewrite Hn. cbn [mbind result_bind]. rewrite (equivalentApprovalIDs_ok t _ c d Hd).
  destruct (ta_find io); [done|]. cbn [wrap mbind result_bind]. set (ids := av_ID <$> _). intros Ha.
  apply result_bind_ok in Ha as (t1 & Ht1 & Ha). apply result_bind_ok in Ha as (u1 & _ & Ha).
  apply result_bind_ok in Ha as (u2 & _ & Ha). apply result_bind_ok in Ha as (u3 & _ & [= <-]).
  assert (Hev : forall x, qt_events (upsert_approval x c reason actor now) = qt_events x)
    by (intros x; unfold upsert_approval; by destruct (existsb _ _)).
  destruct (0 <? len ids) eqn:El.
  - apply result_bind_ok in Ht1 as (u4 & _ & [= <-]). eexists. split; [reflexivity|]. cbn [with_approved qt_approved].
    split; [intros r Hr; by apply delete_equivalent in Hr as [? _]|]. split; [intros Hnd r; by apply delete_keeps|].
    cbn [with_event qt_events]. by rewrite Hev.
  - injection Ht1 as <-. eexists. split; [reflexivity|]. cbn [with_event qt_events]. by rewrite Hev.
Qed.

Lemma Revoke_ok t io now e p v reason actor t' c d :
  NormalizeCoordinate e p v = Ok c -> DialectFor (co_Ecosystem c) = Ok d ->
  Revoke t io now e p v reason actor = Ok t' ->
  (forall r, r ∈ qt_approved t' -> r ∈ qt_approved t /\ ~ approves d c r)
  /\ (NoDup (av_ID <$> qt_approved t) -> forall r, r ∈ qt_approved t -> ~ approves d c r -> r ∈ qt_approved t').
Proof.
  intros Hn Hd. unfold Revoke. rewrite Hn. cbn [mbind result_bind]. rewrite (equivalentApprovalIDs_ok t _ c d Hd).
  destruct (ta_find io); [done|]. cbn [wrap mbind result_bind]. set (ids := av_ID <$> _). intros Hr.
  destruct (len ids =? 0) eqn:El.
  - apply result_bind_ok in Hr as (u & _ & [= <-]). split; [|done]. intros r Hr. split; [done|]. intros Ha.
    assert (Hin : av_ID r ∈ ids) by (apply list_elem_of_fmap; exists r; split; [done | by apply approved_rows]).
    destruct ids; [by apply elem_of_nil in Hin | unfold len in El; simpl in El; lia].
  - apply result_bind_ok in Hr as (u1 & _ & Hr). apply result_bind_ok in Hr as (u2 & _ & Hr).
    apply result_bind_ok in Hr as (u3 & _ & [= <-]). cbn [with_event with_approved qt_approved].
    split; [intros r; apply delete_equivalent | intros Hnd r; by apply delete_keeps].
Qed.

(** A row that approves a coordinate has its package. *)
Lemma approves_package d c r c' d' : approves d c r -> approves d' c' r -> co_Ecosystem c = co_Ecosystem c' /\ co_Package c = co_Package c'.
Proof.
  intros [He Ha] [He' Ha']. split; [congruence|]. unfold equivalent_approval in *.
  destruct (NormalizeCoordinate _ _ _) as [n|]; [|done].
  destruct (str_eqb (co_Package n) (co_Package c)) eqn:E1; [|done]. destruct (str_eqb (co_Package n) (co_Package c')) eqn:E2; [|done].
  apply str_eqb_eq in E1, E2. congruence.
Qed.

Lemma bool_iff (b b' : bool) (P : Prop) : (b = true <-> P) -> (b' = true <-> P) -> b = b'.
Proof. destruct b, b'; intuition congruence. Qed.

(** The same package, and a version that compares equal. *)
Definition same_release (d : PackagePolicyDialect) (c c' : Coordinate) : Prop :=
  co_Ecosystem c = co_Ecosystem c' /\ co_Package c = co_Package c' /\ CompareVersions d (co_Version c) (co_Version c') = Ok 0.

Definition other_package (c c' : Coordinate) : Prop := co_Ecosystem c <> co_Ecosystem c' \/ co_Package c <> co_Package c'.

(** The stored row of a coordinate approves it. *)
Lemma same_key_approves d c r :
  NormalizeCoordinate (co_Ecosystem c) (co_Package c) (co_Version c) = Ok c -> byte_lower <$> co_Ecosystem c = co_Ecosystem c ->
  DialectFor (co_Ecosystem c) = Ok d -> same_key c r = true -> approves d c r.
Proof.
  intros Hfix Hlow Hd Hk. unfold same_key in Hk. apply andb_true_iff in Hk as [Hk Hv]. apply andb_true_iff in Hk as [He Hp].
  apply str_eqb_eq in He, Hp, Hv. split; [by rewrite He, Hlow|]. unfold equivalent_approval.
  rewrite He, Hp, Hv, Hfix, str_eqb_refl. cbn [negb].
  destruct (NormalizeCoordinate_inv _ _ _ _ Hfix) as (d0 & _ & Heco & _ & Hcan & _). unfold NormalizeVersion in Hcan.
  assert (Hn : normalizeEcosystemName (co_Ecosystem c) = co_Ecosystem c) by (unfold normalizeEcosystemName; by rewrite <- Heco).
  rewrite Hn, Hd in Hcan. cbn [mbind result_bind] in Hcan. by rewrite (canonical_refl d _ _ Hcan).
Qed.

(** An approval holds until it is revoked, for every spelling of the release: after
    [Approve], [IsApproved] answers true for every coordinate of that package whose
    version compares equal; after [Revoke] it answers false; and neither operation
    changes the answer for another package or ecosystem. *)
Theorem approvals_hold t io now e p v reason actor c d e' p' v' c' :
  NoDup (av_ID <$> qt_approved t) -> plain_coordinate e v ->
  NormalizeCoordinate e p v = Ok c -> DialectFor (co_Ecosystem c) = Ok d ->
  NormalizeCoordinate e' p' v' = Ok c' ->
  (forall t', Approve t io now e p v reason actor = Ok t' ->
     (same_release d c c' -> IsApproved t' None e' p' v' = Ok true)
     /\ (other_package c c' -> IsApproved t' None e' p' v' = IsApproved t None e' p' v'))
  /\ (forall t', Revoke t io now e p v reason actor = Ok t' ->
     IsApproved t' None e p v = Ok false
     /\ (other_package c c' -> IsApproved t' None e' p' v' = IsApproved t None e' p' v')).
Proof.
  intros Hnd Hplain Hn Hd Hn'. destruct (coordinate_fixed e p v c Hn Hplain) as [Hfix Hlow].
  destruct (NormalizeCoordinate_inv e' p' v' c' Hn') as (d' & Hd' & _).
  assert (Hother : forall r, other_package c c' -> approves d' c' r -> ~ approves d c r).
  { intros r Ho Ha' Ha. destruct (approves_package d c r c' d' Ha Ha') as [? ?]. by destruct Ho. }
  split; intros t' Ht'.
  - destruct (Approve_ok t io now e p v reason actor t' c d Hn Hd Ht') as (t1 & Hrows & Hsub & Hkeep & _).
    destruct (IsApproved_iff t' e' p' v' c' d' Hn' Hd') as (b & Hb & Hiff). split.
    + intros (He & Hp & Hv). rewrite Hb. f_equal. apply Hiff. rewrite Hrows.
      destruct (upsert_elem t1 c reason actor now) as (r & Hr & Hre & Hrp & Hrv). exists r. split; [done|].
      split; [by rewrite Hre, Hlow|]. unfold equivalent_approval. rewrite Hre, Hrp, Hrv, Hfix, Hp, str_eqb_refl. cbn [negb].
      assert (d' = d) as -> by congruence. by rewrite Hv.
    + intros Ho. destruct (IsApproved_iff t e' p' v' c' d' Hn' Hd') as (b0 & Hb0 & Hiff0). rewrite Hb, Hb0. f_equal.
      apply (bool_iff _ _ _ Hiff). rewrite Hiff0, Hrows.
      assert (Hk : forall r, approves d' c' r -> same_key c r = false).
      { intros r Ha. apply not_true_iff_false. intros Hk. exact (Hother r Ho Ha (same_key_approves d c r Hfix Hlow Hd Hk)). }
      split; intros (r & Hr & Ha); exists r; (split; [|done]); rewrite (upsert_others _ _ _ _ _ _ (Hk r Ha)) in *; auto.
  - destruct (Revoke_ok t io now e p v reason actor t' c d Hn Hd Ht') as [Hsub Hkeep]. split.
    + destruct (IsApproved_iff t' e p v c d Hn Hd) as (b & -> & Hiff). f_equal. apply not_true_iff_false.
      intros (r & Hr & Ha)%Hiff. by destruct (Hsub r Hr).
    + intros Ho. destruct (IsApproved_iff t e' p' v' c' d' Hn' Hd') as (b0 & -> & Hiff0).
      destruct (IsApproved_iff t' e' p' v' c' d' Hn' Hd') as (b & -> & Hiff). f_equal.
      apply (bool_iff _ _ _ Hiff). rewrite Hiff0. split; intros (r & Hr & Ha); exists r; (split; [|done]).
      * apply Hkeep; [done..|]. by apply Hother.
      * by apply Hsub.
Qed.
End theory.

Section witnesses.
#[local] Existing Instances ascii_tables ascii_lower permissive_modules.

Definition empty_tables : tables := {| qt_timestamps := ∅; qt_approved := []; qt_nextID := 1; qt_events := [] |}.
Definition no_errors : tx_answers := {| ta_find := None; ta_delete := None; ta_insert := None; ta_event := None; ta_commit := None |}.

Definition requests (version : gostring) : Coordinate := {| co_Ecosystem := bs "pypi"; co_Package := bs "requests"; co_Version := version |}.

Lemma approvals_hold_witness :
  exists t', Approve empty_tables no_errors 7 (bs "PyPI") (bs "Requests") (bs "2.0") (bs "reviewed") 4 = Ok t'
    /\ IsApproved t' None (bs "pypi") (bs "requests") (bs "v2.0.0") = Ok true.
Proof.
  destruct (ok_some (Approve empty_tables no_errors 7 (bs "PyPI") (bs "Requests") (bs "2.0") (bs "reviewed") 4)) as (t' & Ht' & _).
  { vm_compute. reflexivity. }
  exists t'. split; [exact Ht'|].
  destruct (approvals_hold empty_tables no_errors 7 (bs "PyPI") (bs "Requests") (bs "2.0") (bs "reviewed") 4 (requests (bs "2.0"))
    Pep440Dialect (bs "pypi") (bs "requests") (bs "v2.0.0") (requests (bs "2.0.0"))) as [Ha _].
  - constructor.
  - split; [repeat constructor; discriminate|]. split; vm_compute; discriminate.
  - vm_compute. reflexivity.
  - vm_compute. reflexivity.
  - vm_compute. reflexivity.
  - apply (Ha t' Ht'). split_and!; vm_compute; reflexivity.
Defined.

End witnesses.
