(* ===== verification/QuarantineCheck.v ===== *)
(** * Publish times and decisions (internal/quarantine: lookup.go, checker.go,
    adapter_bridge.go)

    [Get] looks a publish time up in memory, in the database and upstream; [check] takes
    the decision on a release: known-malicious, snapshot, age.  What the database, the
    registries, the blocklist and the snapshot answer during a call is a parameter. *)

From stdpp Require Import gmap.
From Stdlib Require Import SpecFloat.
From S2P Require Export QuarantineStore.

Definition ErrNotFound : error := Sentinel "resolver: package or version not found upstream".
Definition ErrUnsupported : error := Sentinel "resolver: ecosystem not implemented".
Definition ErrUpstreamUnavailable : error := Sentinel "resolver: upstream registry unavailable".
Definition errMissingProvenance : error :=
  Sentinel "quarantine: authenticated metadata has no source-bound publish time".

(** The tables, the memory of the lookup, and the events handed to the hook. *)
Record world := {
  wo_tables : tables;
  wo_mem : gmap gostring (result Z);
  wo_hooked : list QuarantineEvent;
}.

Definition with_tables (w : world) (t : tables) : world := {| wo_tables := t; wo_mem := wo_mem w; wo_hooked := wo_hooked w |}.
Definition with_mem (w : world) (m : gmap gostring (result Z)) : world :=
  {| wo_tables := wo_tables w; wo_mem := m; wo_hooked := wo_hooked w |}.
Definition with_hook (w : world) (ev : QuarantineEvent) : world :=
  {| wo_tables := wo_tables w; wo_mem := wo_mem w; wo_hooked := wo_hooked w ++ [ev] |}.

(** ** Looking up publish times *)

Record Lookup_ := {
  lo_store : bool;
  lo_resolvers : option (gset gostring);
}.

(** What the query, the registry and the upsert answer. *)
Record lookup_answers := {
  la_read : option error;
  la_upstream : result Z;
  la_save : option error;
}.

Definition memKey (ecosystem pkg version : gostring) : gostring := ecosystem ++ [0] ++ pkg ++ [0] ++ version.

Definition memorize (m : gmap gostring (result Z)) (key : gostring) (entry : result Z) : gmap gostring (result Z) :=
  <[key := entry]> (if (4096 <=? size m)%nat then ∅ else m).

Definition fetchUpstream (l : Lookup_) (io : lookup_answers) (ecosystem : gostring) : result Z :=
  match lo_resolvers l with
  | None => Err ErrUnsupported
  | Some registry => if bool_decide (ecosystem ∈ registry) then la_upstream io else Err ErrUnsupported
  end.

Section check.
Context `{UnicodeTables} `{EnglishLower} `{ModulePackage}.

Definition Get (l : option Lookup_) (w : world) (io : lookup_answers) (ecosystem pkg version : gostring)
    : world * result Z :=
  match l with
  | None => (w, Err ErrUnsupported)
  | Some l =>
    let ecosystem := to_lower ecosystem in
    let cacheKey := memKey ecosystem pkg version in
    match wo_mem w !! cacheKey with
    | Some entry => (w, entry)
    | None =>
      let stored := if lo_store l then LookupTimestamp (wo_tables w) (la_read io) ecosystem pkg version else Ok None in
      match stored with
      | Ok (Some t) => (with_mem w (memorize (wo_mem w) cacheKey (Ok t)), Ok t)
      | _ =>
        let answer := fetchUpstream l io ecosystem in
        let w := with_mem w (memorize (wo_mem w) cacheKey answer) in
        match answer with
        | Err e => (w, Err e)
        | Ok t =>
          let w := if lo_store l then
                     match SaveTimestamp (wo_tables w) (la_save io) ecosystem pkg version t with
                     | Ok tables => with_tables w tables
                     | Err _ => w
                     end
                   else w in
          (w, Ok t)
        end
      end
    end
  end.

(** ** Decisions *)

Definition CodeQuarantined : gostring := bs "QUARANTINED".
Definition CodeMaliciousBlocked : gostring := bs "MALICIOUS_BLOCKED".
Definition CodeSnapshotBlocked : gostring := bs "SNAPSHOT_BLOCKED".
Definition ProvenanceKindFirstObserved : gostring := bs "first_observed".

Record Provenance := {
  prov_SourceID : gostring;
  prov_PublishAt : Z;
  prov_Kind : gostring;
}.

Record Decision_ := {
  de_Allowed : bool;
  de_Code : gostring;
  de_Reason : option reason;
  de_Warned : bool;
  de_AgeAtCall : Z;
  de_Threshold : Z;
}.

Record BlocklistMatch := {
  bm_SourceID : gostring;
  bm_Summary : gostring;
}.

Record SnapshotMatch := {
  sm_Allowed : bool;
  sm_SnapshotID : Z;
  sm_SnapshotName : gostring;
}.

Record Checker := {
  ck_policy : option Policy;
  ck_lookup : option Lookup_;
  ck_store : bool;
  ck_onBlock : bool;
  ck_blocklist : bool;
  ck_snapshot : bool;
  ck_blocklistMode : Mode;
}.

Definition NewChecker (p : option Policy) (l : option Lookup_) (s : bool) : result Checker :=
  match p with
  | None => fail "quarantine: nil policy"
  | Some q =>
    let checker := {| ck_policy := p; ck_lookup := l; ck_store := s; ck_onBlock := false; ck_blocklist := false;
                      ck_snapshot := false; ck_blocklistMode := ModeBlock |} in
    if str_eqb (po_Mode q) ModeBlock || str_eqb (po_Mode q) ModeWarn then Ok checker
    else if str_eqb (po_Mode q) ModeServeLastEligible
    then fail "quarantine: serve_last_eligible mode is not yet implemented in this build"
    else fail "quarantine: unsupported mode %q"
  end.

(** What a call of [Check] meets. *)
Record check_answers := {
  ca_now : Z;
  ca_blocklist : option BlocklistMatch * bool * option error;
  ca_snapshot : result SnapshotMatch;
  ca_approved : option error;
  ca_lookup : lookup_answers;
  ca_event : QuarantineEvent -> option error;
}.

(** [int64(d.Seconds())], through float64. *)
Definition f64_add : spec_float -> spec_float -> spec_float := SFadd 53 1024.
Definition f64_to_int (x : spec_float) : Z :=
  match x with
  | S754_finite s m e => let n := Z.shiftl (Z.pos m) e in if s then - n else n
  | _ => 0
  end.
Definition seconds (d : Z) : Z :=
  f64_to_int (f64_add (f64_of_Z (Z.quot d Second)) (f64_div (f64_of_Z (Z.rem d Second)) (f64_of_Z 1000000000))).

(** [t.Sub(u)] saturates. *)
Definition time_sub (t u : Z) : Z := Z.max (- 2 ^ 63) (Z.min (2 ^ 63 - 1) (t - u)).

Definition formatAge (d : Z) : gostring :=
  let d := if d <? 0 then wrap64 (- d) else d in
  let days := Z.quot d (24 * Hour) in
  let hours := Z.quot (Z.rem d (24 * Hour)) Hour in
  let minutes := Z.quot (Z.rem d Hour) Minute in
  if (days >? 0) && (hours >? 0) then format_int days ++ bs "d " ++ format_int hours ++ bs "h"
  else if days >? 0 then format_int days ++ bs "d"
  else if (hours >? 0) && (minutes >? 0) then format_int hours ++ bs "h " ++ format_int minutes ++ bs "m"
  else if hours >? 0 then format_int hours ++ bs "h"
  else if minutes >? 0 then format_int minutes ++ bs "m"
  else format_int (seconds d) ++ bs "s".

Definition shortProvenanceSource (sourceID : gostring) : gostring :=
  if len sourceID <=? 12 then sourceID else take 12 sourceID ++ [0xE2; 0x80; 0xA6].

(** [reason + " — observe mode, serving anyway"] and the like. *)
Definition append_reason (r : reason) (suffix : string) : reason :=
  match r with Reason format args => Reason (format ++ suffix) args end.
Definition observe_suffix : string := " — observe mode, serving anyway".

Definition allowed : Decision_ :=
  {| de_Allowed := true; de_Code := []; de_Reason := None; de_Warned := false; de_AgeAtCall := 0; de_Threshold := 0 |}.

Definition allowed_at (age threshold : Z) : Decision_ :=
  {| de_Allowed := true; de_Code := []; de_Reason := None; de_Warned := false; de_AgeAtCall := age; de_Threshold := threshold |}.

(** One request: what is asked, and by whom. *)
Record request := {
  rq_ecosystem : gostring;
  rq_pkg : gostring;
  rq_version : gostring;
  rq_clientIP : gostring;
}.

Definition event (rq : request) (action : gostring) (r : reason) (threshold age : Z) : QuarantineEvent :=
  {| qe_Ecosystem := rq_ecosystem rq; qe_Package := rq_pkg rq; qe_Version := rq_version rq; qe_Action := action; qe_Reason := r;
     qe_Threshold := threshold; qe_AgeAtCall := age; qe_ActorID := 0; qe_ClientIP := rq_clientIP rq; qe_CreatedAt := 0 |}.

Definition recordEvent (c : Checker) (io : check_answers) (w : world) (ev : QuarantineEvent) : world :=
  let ev := stamp_event ev (ca_now io) in
  let w := if ck_store c then
             match RecordEvent (wo_tables w) (ca_event io ev) (ca_now io) ev with
             | Ok t => with_tables w t
             | Err _ => w
             end
           else w in
  if ck_onBlock c && (str_eqb (qe_Action ev) ActionBlocked || str_eqb (qe_Action ev) ActionMalwareBlocked)
  then with_hook w ev else w.

(** Step 0: the world, and the decision when it is final. *)
Definition malware_step (c : Checker) (io : check_answers) (w : world) (rq : request) : world * option Decision_ :=
  if negb (ck_blocklist c) || str_eqb (rq_version rq) [] then (w, None) else
  let '(found, overridden, err) := ca_blocklist io in
  match found with
  | None => (w, None)
  | Some m =>
    let overridden := match err with Some _ => false | None => overridden end in
    if (overridden : bool) then
      (recordEvent c io w (event rq ActionMalwareBypassed (Reason "operator override active for %s" [bm_SourceID m]) 0 0), None)
    else
      let base := Reason "%s@%s is a known-malicious version (%s): %s" [rq_pkg rq; rq_version rq; bm_SourceID m; bm_Summary m] in
      if str_eqb (ck_blocklistMode c) ModeWarn then
        let r := append_reason base observe_suffix in
        (recordEvent c io w (event rq ActionMalwareWarned r 0 0),
         Some {| de_Allowed := true; de_Code := CodeMaliciousBlocked; de_Reason := Some r; de_Warned := true;
                 de_AgeAtCall := 0; de_Threshold := 0 |})
      else
        let r := append_reason base " — refusing to serve" in
        (recordEvent c io w (event rq ActionMalwareBlocked r 0 0),
         Some {| de_Allowed := false; de_Code := CodeMaliciousBlocked; de_Reason := Some r; de_Warned := false;
                 de_AgeAtCall := 0; de_Threshold := 0 |})
  end.

(** Step 0.5 *)
Definition snapshot_step (c : Checker) (io : check_answers) (w : world) (rq : request) : world * option Decision_ :=
  if negb (ck_snapshot c) || str_eqb (rq_version rq) [] then (w, None) else
  let refuse r :=
    (recordEvent c io w (event rq ActionSnapshotBlocked r 0 0),
     Some {| de_Allowed := false; de_Code := CodeSnapshotBlocked; de_Reason := Some r; de_Warned := false;
             de_AgeAtCall := 0; de_Threshold := 0 |}) in
  match ca_snapshot io with
  | Err _ => refuse (Reason "snapshot membership for %s@%s could not be verified; snapshot-only mode is enabled" [rq_pkg rq; rq_version rq])
  | Ok m =>
    if sm_Allowed m then (w, None) else
    refuse (Reason "version %s of %s is not in the active snapshot %q; snapshot-only mode is enabled — update the snapshot or disable snapshot-only mode"
              [rq_version rq; rq_pkg rq; sm_SnapshotName m])
  end.

(** Warn or refuse, as the mode says. *)
Definition quarantined (c : Checker) (io : check_answers) (w : world) (rq : request) (r : reason)
    (threshold eventAge age : Z) : world * Decision_ :=
  let warn := match ck_policy c with Some p => str_eqb (po_Mode p) ModeWarn | None => false end in
  if warn then
    let r := append_reason r observe_suffix in
    (recordEvent c io w (event rq ActionWarned r (seconds threshold) eventAge),
     {| de_Allowed := true; de_Code := CodeQuarantined; de_Reason := Some r; de_Warned := true;
        de_AgeAtCall := age; de_Threshold := threshold |})
  else
    (recordEvent c io w (event rq ActionBlocked r (seconds threshold) eventAge),
     {| de_Allowed := false; de_Code := CodeQuarantined; de_Reason := Some r; de_Warned := false;
        de_AgeAtCall := age; de_Threshold := threshold |}).

(** [errors.Is] against the sentinels of the resolvers and of this package. *)
Definition is_a (e target : error) : bool :=
  match target with Sentinel text => errors_is e text | Errorf _ _ => false end.

Definition handleLookupError (c : Checker) (io : check_answers) (w : world) (rq : request) (threshold : Z) (err : error)
    : world * Decision_ :=
  if is_a err ErrUpstreamUnavailable then (w, allowed_at 0 threshold) else
  if negb match ck_policy c with Some p => po_FailClosed p | None => false end then (w, allowed_at 0 threshold) else
  let r :=
    if is_a err ErrNotFound
    then Reason "version %s of %s was not found on the upstream %s registry; quarantine is configured to fail-closed"
           [rq_version rq; rq_pkg rq; rq_ecosystem rq]
    else if is_a err ErrUnsupported
    then Reason "ecosystem %s does not have a quarantine resolver in this build; configured to fail-closed" [rq_ecosystem rq]
    else if is_a err errMissingProvenance
    then Reason "version %s of %s has no source-bound publish time from its authenticated upstream; quarantine is configured to fail-closed"
           [rq_version rq; rq_pkg rq]
    else Reason "quarantine lookup failed: %v" [] in
  quarantined c io w rq r threshold 0 0.

(** Step 4: the publish time and the note on its source. *)
Definition publish_time (c : Checker) (io : check_answers) (w : world) (rq : request) (provenance : option Provenance)
    : world * result (Z * gostring) :=
  match provenance with
  | Some pv =>
    if negb (SourceProvenanceBound (ck_policy c) (rq_ecosystem rq))
    then (w, Err (Errorf "%w: ecosystem %s has no source-bound provenance path" [errMissingProvenance]))
    else if str_eqb (prov_SourceID pv) [] || (prov_PublishAt pv =? 0)
    then (w, Err (Errorf "%w: authenticated %s metadata carried no publish time" [errMissingProvenance]))
    else (w, Ok (prov_PublishAt pv, bs " (source " ++ shortProvenanceSource (prov_SourceID pv) ++ bs ")"))
  | None =>
    let '(w, t) := Get (ck_lookup c) w (ca_lookup io) (rq_ecosystem rq) (rq_pkg rq) (rq_version rq) in
    (w, t ← t; Ok (t, []))
  end.

(** Steps 4 to 6. *)
Definition age_step (c : Checker) (io : check_answers) (w : world) (rq : request) (provenance : option Provenance) (threshold : Z)
    : world * Decision_ :=
  match publish_time c io w rq provenance with
  | (w, Err err) => handleLookupError c io w rq threshold err
  | (w, Ok (publishAt, sourceNote)) =>
    let age := time_sub (ca_now io) publishAt in
    if age <? threshold then
      let origin := match provenance with
                    | Some pv => if str_eqb (prov_Kind pv) ProvenanceKindFirstObserved then bs "was first observed" else bs "was published"
                    | None => bs "was published"
                    end in
      quarantined c io w rq
        (Reason "version %s of %s %s %s ago, which is younger than the configured %s minimum release age for %s%s"
           [rq_version rq; rq_pkg rq; origin; formatAge age; formatAge threshold; rq_ecosystem rq; sourceNote])
        threshold (seconds age) age
    else (w, allowed_at age threshold)
  end.

(** Steps 1 to 3, and on. *)
Definition release_step (c : Checker) (io : check_answers) (w : world) (rq : request) (provenance : option Provenance)
    : world * Decision_ :=
  let threshold := Threshold (ck_policy c) (rq_ecosystem rq) in
  if threshold <=? 0 then (w, allowed) else
  if str_eqb (rq_version rq) [] then (w, allowed_at 0 threshold) else
  if allow_match (match ck_policy c with Some p => po_Allow p | None => None end) (rq_ecosystem rq) (rq_pkg rq) (rq_version rq) then
    (recordEvent c io w (event rq ActionBypassed (Reason "allow-list rule matched" []) (seconds threshold) 0),
     {| de_Allowed := true; de_Code := []; de_Reason := Some (Reason "allow-list bypass" []); de_Warned := false;
        de_AgeAtCall := 0; de_Threshold := threshold |})
  else
  if ck_store c && match IsApproved (wo_tables w) (ca_approved io) (rq_ecosystem rq) (rq_pkg rq) (rq_version rq) with
                   | Ok approved => approved | Err _ => false end then
    (w, {| de_Allowed := true; de_Code := []; de_Reason := Some (Reason "approved by operator" []); de_Warned := false;
           de_AgeAtCall := 0; de_Threshold := threshold |})
  else age_step c io w rq provenance threshold.

(** [check]; [None] is the nil checker. *)
Definition check (checker : option Checker) (io : check_answers) (w : world) (rq : request) (provenance : option Provenance)
    : world * Decision_ :=
  match checker with
  | None => (w, allowed)
  | Some c =>
    match ck_policy c with
    | None => (w, allowed)
    | Some _ =>
      match malware_step c io w rq with
      | (w, Some d) => (w, d)
      | (w, None) =>
        match snapshot_step c io w rq with
        | (w, Some d) => (w, d)
        | (w, None) => release_step c io w rq provenance
        end
      end
    end
  end.

Definition quarantineCheck (c : option Checker) (io : check_answers) (w : world) (rq : request) : world * Decision_ := check c io w rq None.
Definition CheckWithProvenance (c : option Checker) (io : check_answers) (w : world) (rq : request) (provenance : Provenance)
    : world * Decision_ := check c io w rq (Some provenance).

(** ** The bridge to the adapters *)

Record QuarantineDecision := {
  qd_Allowed : bool;
  qd_Code : gostring;
  qd_Reason : option reason;
  qd_Warned : bool;
}.

Definition adapterDecision (d : Decision_) : QuarantineDecision :=
  {| qd_Allowed := de_Allowed d; qd_Code := de_Code d; qd_Reason := de_Reason d; qd_Warned := de_Warned d |}.

Definition adapter_check (inner : option Checker) (io : check_answers) (w : world) (rq : request) (provenance : option Provenance)
    : world * QuarantineDecision :=
  match inner with
  | None => (w, {| qd_Allowed := true; qd_Code := []; qd_Reason := None; qd_Warned := false |})
  | Some _ => let '(w, d) := check inner io w rq provenance in (w, adapterDecision d)
  end.

End check.
