(* ===== verification/QuarantineTheory.v ===== *)
(** * Theory of the quarantine (QuarantineCheck.v)

    When a release is refused, what observe mode changes, and what the lookup of
    publish times remembers. *)

From stdpp Require Import gmap.
From S2P Require Export QuarantineCheck QuarantineStoreTheory.

Section theory.
Context `{UnicodeTables} `{EnglishLower} `{ModulePackage}.

(** ** When a release is refused *)

(** The blocklist knows the version, and no override exempts it. *)
Definition malicious (c : Checker) (io : check_answers) (rq : request) : Prop :=
  ck_blocklist c = true /\ rq_version rq <> [] /\
  exists m overridden err, ca_blocklist io = (Some m, overridden, err) /\ (overridden = false \/ err <> None).

(** Snapshot-only mode does not find the version in the active snapshot. *)
Definition outside_snapshot (c : Checker) (io : check_answers) (rq : request) : Prop :=
  ck_snapshot c = true /\ rq_version rq <> [] /\
  match ca_snapshot io with Ok m => sm_Allowed m = false | Err _ => True end.




Lemma recordEvent_tables c io w ev :
  qt_timestamps (wo_tables (recordEvent c io w ev)) = qt_timestamps (wo_tables w)
  /\ qt_approved (wo_tables (recordEvent c io w ev)) = qt_approved (wo_tables w)
  /\ wo_mem (recordEvent c io w ev) = wo_mem w.
Proof. unfold recordEvent, RecordEvent. by repeat case_match; simplify_eq. Qed.

Lemma malware_step_spec c io w rq :
  (malicious c io rq /\ exists d, (malware_step c io w rq).2 = Some d /\ de_Code d = CodeMaliciousBlocked
     /\ de_Allowed d = str_eqb (ck_blocklistMode c) ModeWarn /\ de_Warned d = str_eqb (ck_blocklistMode c) ModeWarn)
  \/ (~ malicious c io rq /\ (malware_step c io w rq).2 = None).
Proof.
  unfold malware_step, malicious. destruct (ck_blocklist c); cbn [negb orb]; [|right; split; [by intros (? & _) | done]].
  destruct (str_eqb (rq_version rq) []) eqn:Ev.
  { apply str_eqb_eq in Ev. right. split; [by intros (_ & ? & _) | done]. }
  apply str_eqb_neq in Ev. destruct (ca_blocklist io) as [[[m|] o] err].
  2: { right. split; [by intros (_ & _ & m & o' & err' & ? & _) | done]. }
  destruct (match err with Some _ => false | None => o end) eqn:Eo.
  - right. split; [|done]. intros (_ & _ & m' & o' & err' & [= <- <- <-] & Hor). destruct err; [done|]. subst o. by destruct Hor.
  - left. split. { split_and!; try done. exists m, o, err. split; [done|]. destruct err; [by right | by left]. }
    destruct (str_eqb (ck_blocklistMode c) ModeWarn); by eexists.
Qed.

Lemma snapshot_step_spec c io w rq :
  (outside_snapshot c io rq /\ exists d, (snapshot_step c io w rq).2 = Some d /\ de_Code d = CodeSnapshotBlocked /\ de_Allowed d = false)
  \/ (~ outside_snapshot c io rq /\ snapshot_step c io w rq = (w, None)).
Proof.
  unfold snapshot_step, outside_snapshot. destruct (ck_snapshot c); cbn [negb orb]; [|right; split; [by intros (? & _) | done]].
  destruct (str_eqb (rq_version rq) []) eqn:Ev.
  { apply str_eqb_eq in Ev. right. split; [by intros (_ & ? & _) | done]. }
  apply str_eqb_neq in Ev. destruct (ca_snapshot io) as [m|e]; [|left; split; [done | by eexists]].
  destruct (sm_Allowed m) eqn:Em; [right; split; [by intros (_ & _ & ?) | done] | left; split; [done | by eexists]].
Qed.





(** ** Observe mode *)

Definition policy_with_mode (p : Policy) (m : Mode) : Policy :=
  {| po_ageGateEnabled := po_ageGateEnabled p; po_sourceProvenanceBound := po_sourceProvenanceBound p;
     po_approximateProvenance := po_approximateProvenance p; po_observationProvenance := po_observationProvenance p;
     po_Thresholds := po_Thresholds p; po_Default := po_Default p; po_Mode := m; po_Allow := po_Allow p;
     po_FailClosed := po_FailClosed p |}.

Definition with_mode (c : Checker) (m : Mode) : Checker :=
  {| ck_policy := option_map (fun p => policy_with_mode p m) (ck_policy c); ck_lookup := ck_lookup c; ck_store := ck_store c;
     ck_onBlock := ck_onBlock c; ck_blocklist := ck_blocklist c; ck_snapshot := ck_snapshot c;
     ck_blocklistMode := ck_blocklistMode c |}.

(** The refusal as observe mode reports it. *)
Definition observed (d : Decision_) : Decision_ :=
  {| de_Allowed := true; de_Code := de_Code d; de_Reason := option_map (fun r => append_reason r observe_suffix) (de_Reason d);
     de_Warned := true; de_AgeAtCall := de_AgeAtCall d; de_Threshold := de_Threshold d |}.

(** [a] is a decision of block mode and [b] the one of observe mode. *)
Definition previews (a b : world * Decision_) : Prop :=
  if str_eqb (de_Code a.2) CodeQuarantined then de_Allowed a.2 = false /\ b.2 = observed a.2 else b = a.

Lemma with_mode_bound c m e : SourceProvenanceBound (ck_policy (with_mode c m)) e = SourceProvenanceBound (ck_policy c) e.
Proof. unfold with_mode. cbn. by destruct (ck_policy c). Qed.

Lemma with_mode_threshold c m e : Threshold (ck_policy (with_mode c m)) e = Threshold (ck_policy c) e.
Proof.
  unfold with_mode. cbn. destruct (ck_policy c) as [p|]; [|done]. cbn [option_map]. unfold Threshold. cbn. done.
Qed.

Lemma publish_time_mode c m io w rq provenance :
  publish_time (with_mode c m) io w rq provenance = publish_time c io w rq provenance.
Proof. unfold publish_time. by rewrite with_mode_bound. Qed.

Lemma quarantined_previews c io w rq r threshold eventAge age p :
  ck_policy c = Some p -> po_Mode p = ModeBlock ->
  previews (quarantined c io w rq r threshold eventAge age) (quarantined (with_mode c ModeWarn) io w rq r threshold eventAge age).
Proof. intros Hp Hm. unfold quarantined, with_mode. rewrite Hp. cbn [ck_policy option_map po_Mode policy_with_mode]. by rewrite Hm. Qed.

Lemma age_step_previews c io w rq provenance threshold p :
  ck_policy c = Some p -> po_Mode p = ModeBlock ->
  previews (age_step c io w rq provenance threshold) (age_step (with_mode c ModeWarn) io w rq provenance threshold).
Proof.
  intros Hp Hm. unfold age_step. rewrite publish_time_mode. destruct (publish_time c io w rq provenance) as [w' [[t note]|err]].
  - destruct (_ <? _); [by apply (quarantined_previews _ _ _ _ _ _ _ _ p) | done].
  - unfold handleLookupError. destruct (is_a err ErrUpstreamUnavailable); [done|].
    assert (Hf : match ck_policy (with_mode c ModeWarn) with Some q => po_FailClosed q | None => false end
                 = match ck_policy c with Some q => po_FailClosed q | None => false end) by (unfold with_mode; cbn; by rewrite Hp).
    rewrite Hf. destruct (negb _); [done|]. by apply (quarantined_previews _ _ _ _ _ _ _ _ p).
Qed.

(** C25: Observe mode previews block mode: for the same request in the same situation it
    serves exactly what block mode serves, with the same decision and the same effects,
    and where block mode refuses a release for its age it serves the release with a
    warning that carries the code, the threshold, the age and the reason of the refusal.
    Refusals of malware and of versions outside the snapshot stay refusals. *)
Theorem observe_mode_previews c io w rq provenance p :
  ck_policy c = Some p -> po_Mode p = ModeBlock ->
  let a := check (Some c) io w rq provenance in
  let b := check (Some (with_mode c ModeWarn)) io w rq provenance in
  (de_Code a.2 = CodeQuarantined -> de_Allowed a.2 = false /\ b.2 = observed a.2)
  /\ (de_Code a.2 <> CodeQuarantined -> b = a).
Proof.
  intros Hp Hm a b. enough (Hpre : previews a b).
  { unfold previews in Hpre. destruct (str_eqb (de_Code a.2) CodeQuarantined) eqn:E.
    - by apply str_eqb_eq in E.
    - apply str_eqb_neq in E. done. }
  unfold a, b, check. rewrite Hp. replace (ck_policy (with_mode c ModeWarn)) with (Some (policy_with_mode p ModeWarn))
    by (unfold with_mode; cbn; by rewrite Hp).
  change (malware_step (with_mode c ModeWarn) io w rq) with (malware_step c io w rq).
  destruct (malware_step_spec c io w rq) as [(_ & d & Hd & Hc & _)|(_ & Hd)];
    destruct (malware_step c io w rq) as [w1 r1]; cbn [snd] in Hd; subst r1.
  { unfold previews. cbn [snd]. rewrite Hc. done. }
  change (snapshot_step (with_mode c ModeWarn) io w1 rq) with (snapshot_step c io w1 rq).
  destruct (snapshot_step_spec c io w1 rq) as [(_ & d & Hd & Hc & _)|(_ & ->)].
  { destruct (snapshot_step c io w1 rq) as [w2 r2]. cbn [snd] in Hd. subst r2. unfold previews. cbn [snd]. rewrite Hc. done. }
  unfold release_step. rewrite with_mode_threshold. destruct (_ <=? 0); [done|]. destruct (str_eqb (rq_version rq) []); [done|].
  replace (match ck_policy (with_mode c ModeWarn) with Some q => po_Allow q | None => None end)
    with (match ck_policy c with Some q => po_Allow q | None => None end) by (unfold with_mode; cbn; by rewrite Hp).
  destruct (allow_match _ _ _ _); [done|]. change (ck_store (with_mode c ModeWarn)) with (ck_store c).
  destruct (ck_store c && _); [done|]. by apply (age_step_previews _ _ _ _ _ _ p).
Qed.

(** ** What the lookup remembers *)

(** A later lookup: what it meets and what it asks. *)
Definition lookup_call : Type := lookup_answers * (gostring * gostring * gostring).

Fixpoint run_gets (l : Lookup_) (w : world) (calls : list lookup_call) : world :=
  match calls with
  | [] => w
  | (io, (ecosystem, pkg, version)) :: calls => run_gets l (Get (Some l) w io ecosystem pkg version).1 calls
  end.

Lemma memorize_size m k r : (size m < 4096)%nat -> (size (memorize m k r) <= S (size m))%nat.
Proof.
  intros Hs. unfold memorize. rewrite (proj2 (Nat.leb_gt 4096 (size m)) Hs). destruct (m !! k) eqn:E.
  - rewrite map_size_insert_Some by by eexists. lia.
  - rewrite map_size_insert_None by done. lia.
Qed.

Lemma memorize_keeps m k r k' r' :
  (size m < 4096)%nat -> k <> k' -> m !! k' = Some r' -> memorize m k r !! k' = Some r'.
Proof. intros Hs Hne Hk. unfold memorize. rewrite (proj2 (Nat.leb_gt 4096 (size m)) Hs). by rewrite lookup_insert_ne. Qed.

(** A lookup ends with its answer in memory, and one that finds it there changes nothing. *)
Lemma Get_memory l w io ecosystem pkg version :
  let key := memKey (to_lower ecosystem) pkg version in
  let '(w', r) := Get (Some l) w io ecosystem pkg version in
  wo_mem w' !! key = Some r
  /\ (w' = w \/ (wo_mem w !! key = None /\ wo_mem w' = memorize (wo_mem w) key r)).
Proof.
  intros key. unfold Get. fold key. destruct (wo_mem w !! key) as [entry|] eqn:E; [by split; [|left]|].
  destruct (if lo_store l then _ else _) as [[t|]|e].
  - cbn [with_mem wo_mem]. split; [apply lookup_insert_eq | by right].
  - destruct (fetchUpstream l io (to_lower ecosystem)) as [t|e].
    + destruct (lo_store l); [destruct (SaveTimestamp _ _ _ _ _ _)|]; cbn [with_tables with_mem wo_mem];
        (split; [apply lookup_insert_eq | by right]).
    + cbn [with_mem wo_mem]. split; [apply lookup_insert_eq | by right].
  - destruct (fetchUpstream l io (to_lower ecosystem)) as [t|e'].
    + destruct (lo_store l); [destruct (SaveTimestamp _ _ _ _ _ _)|]; cbn [with_tables with_mem wo_mem];
        (split; [apply lookup_insert_eq | by right]).
    + cbn [with_mem wo_mem]. split; [apply lookup_insert_eq | by right].
Qed.

Lemma Get_keeps l w io ecosystem pkg version k r :
  (size (wo_mem w) < 4096)%nat -> wo_mem w !! k = Some r ->
  wo_mem (Get (Some l) w io ecosystem pkg version).1 !! k = Some r
  /\ (size (wo_mem (Get (Some l) w io ecosystem pkg version).1) <= S (size (wo_mem w)))%nat.
Proof.
  intros Hs Hk. pose proof (Get_memory l w io ecosystem pkg version) as Hg. cbn zeta in Hg.
  destruct (Get (Some l) w io ecosystem pkg version) as [w' r']. cbn [fst].
  destruct Hg as [_ [->|[Hn ->]]]; [split; [done | lia]|]. split; [|by apply memorize_size].
  apply memorize_keeps; [done| |done]. congruence.
Qed.

Lemma run_gets_keeps l w calls k r :
  (size (wo_mem w) + length calls <= 4096)%nat -> wo_mem w !! k = Some r -> wo_mem (run_gets l w calls) !! k = Some r.
Proof.
  revert w. induction calls as [|[io [[e p] v]] calls IH]; intros w Hs Hk; [done|]. cbn [run_gets length] in *.
  destruct (Get_keeps l w io e p v k r ltac:(lia) Hk) as [Hk' Hs']. apply IH; [lia | done].
Qed.

Lemma Get_hit l w io ecosystem pkg version r :
  wo_mem w !! memKey (to_lower ecosystem) pkg version = Some r -> Get (Some l) w io ecosystem pkg version = (w, r).
Proof. intros Hk. unfold Get. by rewrite Hk. Qed.

(** A lookup remembers its answer, failures included: until 4096 entries have been
    gathered, asking for the same release again gives the same answer whatever other
    releases were looked up in between and whatever the registry and the database would
    answer now - a publish time, but also a "not found" or an outage of the registry. *)
Theorem lookup_remembers l w io ecosystem pkg version calls io' :
  let '(w1, r) := Get (Some l) w io ecosystem pkg version in
  let w2 := run_gets l w1 calls in
  (size (wo_mem w1) + length calls <= 4096)%nat ->
  Get (Some l) w2 io' ecosystem pkg version = (w2, r).
Proof.
  pose proof (Get_memory l w io ecosystem pkg version) as Hg. cbn zeta in Hg.
  destruct (Get (Some l) w io ecosystem pkg version) as [w1 r]. intros w2 Hs. destruct Hg as [Hk _].
  apply Get_hit. by apply run_gets_keeps.
Qed.

End theory.

Section witnesses.
#[local] Existing Instances ascii_tables ascii_lower permissive_modules.

Definition docker_policy : Policy :=
  {| po_ageGateEnabled := true; po_sourceProvenanceBound := None; po_approximateProvenance := ∅;
     po_observationProvenance := {[bs "docker"]}; po_Thresholds := {[bs "docker" := 24 * Hour]}; po_Default := 0;
     po_Mode := ModeBlock; po_Allow := Some []; po_FailClosed := true |}.

Definition sample_checker : Checker :=
  {| ck_policy := Some docker_policy; ck_lookup := Some {| lo_store := true; lo_resolvers := Some {[bs "npm"]} |};
     ck_store := true; ck_onBlock := true; ck_blocklist := true; ck_snapshot := false; ck_blocklistMode := ModeBlock |}.

Definition sample_world : world := {| wo_tables := empty_tables; wo_mem := ∅; wo_hooked := [] |}.

Definition noon : Z := 12 * Hour.

Definition sample_answers : check_answers :=
  {| ca_now := noon; ca_blocklist := (None, false, None); ca_snapshot := Err ErrNotFound; ca_approved := None;
     ca_lookup := {| la_read := None; la_upstream := Err ErrUpstreamUnavailable; la_save := None |}; ca_event := fun _ => None |}.

Definition sample_request : request :=
  {| rq_ecosystem := bs "docker"; rq_pkg := bs "library/alpine"; rq_version := bs "sha256:1a2b"; rq_clientIP := bs "10.0.0.9" |}.

Definition sample_provenance : Provenance :=
  {| prov_SourceID := bs "registry-1.docker.io"; prov_PublishAt := noon - Hour; prov_Kind := ProvenanceKindFirstObserved |}.


Lemma observe_mode_previews_witness :
  let b := check (Some (with_mode sample_checker ModeWarn)) sample_answers sample_world sample_request (Some sample_provenance) in
  de_Allowed b.2 = true /\ de_Warned b.2 = true /\ de_Code b.2 = CodeQuarantined.
Proof.
  intros b.
  destruct (observe_mode_previews sample_checker sample_answers sample_world sample_request (Some sample_provenance) docker_policy)
    as [Hq _]; [reflexivity | reflexivity |].
  destruct Hq as [_ Hb]; [vm_compute; reflexivity|]. unfold b. rewrite Hb. split_and!; vm_compute; reflexivity.
Defined.

Definition npm_lookup : Lookup_ := {| lo_store := false; lo_resolvers := Some {[bs "npm"]} |}.
Definition answer_with (r : result Z) : lookup_answers := {| la_read := None; la_upstream := r; la_save := None |}.

(** The registry is back, the release is five minutes old, and the outage is the answer. *)
Lemma lookup_remembers_witness :
  let w1 := (Get (Some npm_lookup) sample_world (answer_with (Err ErrUpstreamUnavailable)) (bs "npm") (bs "left-pad") (bs "1.3.1")).1 in
  let w2 := run_gets npm_lookup w1 [(answer_with (Ok noon), (bs "npm", bs "react", bs "18.0.0"))] in
  Get (Some npm_lookup) w2 (answer_with (Ok (noon - 5 * Minute))) (bs "npm") (bs "left-pad") (bs "1.3.1")
  = (w2, Err ErrUpstreamUnavailable).
Proof.
  intros w1 w2.
  pose proof (lookup_remembers npm_lookup sample_world (answer_with (Err ErrUpstreamUnavailable)) (bs "npm") (bs "left-pad") (bs "1.3.1")
    [(answer_with (Ok noon), (bs "npm", bs "react", bs "18.0.0"))] (answer_with (Ok (noon - 5 * Minute)))) as Hx.
  unfold w2, w1. destruct (Get _ sample_world _ _ _ _) as [w r] eqn:E.
  assert (Hr : r = Err ErrUpstreamUnavailable) by (apply (f_equal snd) in E; rewrite <- (eq_refl : (w, r).2 = r); rewrite <- E; vm_compute; reflexivity).
  assert (Hs : size (wo_mem w) = 1%nat) by (apply (f_equal (fun x => size (wo_mem x.1))) in E; cbn [fst] in E; rewrite <- E; vm_compute; reflexivity).
  rewrite <- Hr. apply Hx. rewrite Hs. simpl. lia.
Defined.

End witnesses.
