(* ===== verification/Http.v ===== *)
(** * HTTP headers (net/http, net/textproto)

    A header is a map from keys to their values; [Get], [Set], [Del], [Add] and [Values]
    work on canonical keys. *)

From stdpp Require Import gmap.
From S2P Require Export GoTrim Decimal.

Definition http_header := gmap gostring (list gostring).

(** [validHeaderFieldByte]: the bytes of a token. *)
Definition validHeaderFieldByte (c : Z) : bool := isASCIIAlphanumeric c || mem c (bs "!#$%&'*+-.^_`|~").

Definition byte_upper (c : Z) : Z := if in_range 97 122 c then c - 32 else c.

Fixpoint canonical_go (upper : bool) (s : gostring) : gostring :=
  match s with
  | [] => []
  | c :: s => (if upper then byte_upper c else byte_lower c) :: canonical_go (c =? ch "-") s
  end.

(** [textproto.CanonicalMIMEHeaderKey]: a key that is not a token stays as it is. *)
Definition CanonicalHeaderKey (s : gostring) : gostring :=
  if forallb validHeaderFieldByte s then canonical_go true s else s.

Definition header_Values (h : http_header) (key : gostring) : list gostring := default [] (h !! CanonicalHeaderKey key).
Definition header_Get (h : http_header) (key : gostring) : gostring := default [] (head (header_Values h key)).
Definition header_Set (h : http_header) (key value : gostring) : http_header := <[CanonicalHeaderKey key := [value]]> h.
Definition header_Del (h : http_header) (key : gostring) : http_header := delete (CanonicalHeaderKey key) h.
Definition header_Add (h : http_header) (key value : gostring) : http_header :=
  <[CanonicalHeaderKey key := header_Values h key ++ [value]]> h.

(** ** Lemmas *)

Lemma byte_upper_idem c : byte_upper (byte_upper c) = byte_upper c.
Proof.
  unfold byte_upper. destruct (in_range 97 122 c) eqn:E; [|by rewrite E]. apply in_range_true in E.
  destruct (in_range 97 122 (c - 32)) eqn:F; [apply in_range_true in F; lia|done].
Qed.

Lemma canonical_dash (upper : bool) c : ((if upper then byte_upper c else byte_lower c) =? ch "-") = (c =? ch "-").
Proof.
  destruct upper; unfold byte_upper, byte_lower.
  - destruct (in_range 97 122 c) eqn:E; [|done]. apply in_range_true in E. change (ch "-") with 45. lia.
  - destruct (in_range 65 90 c) eqn:E; [|done]. apply in_range_true in E. change (ch "-") with 45. lia.
Qed.

Lemma canonical_go_idem upper s : canonical_go upper (canonical_go upper s) = canonical_go upper s.
Proof.
  revert upper; induction s as [|c s IH]; intros upper; [done|]. cbn [canonical_go]. rewrite canonical_dash, IH. f_equal.
  destruct upper; [apply byte_upper_idem | apply byte_lower_idem].
Qed.

Lemma header_byte_case (upper : bool) c :
  validHeaderFieldByte c = true -> validHeaderFieldByte (if upper then byte_upper c else byte_lower c) = true.
Proof.
  intros Hc. assert (forall a, 65 <= a <= 90 \/ 97 <= a <= 122 -> validHeaderFieldByte a = true) as Hletter.
  { intros a Ha. unfold validHeaderFieldByte, isASCIIAlphanumeric. apply orb_true_iff. left.
    change (ch "A") with 65. change (ch "Z") with 90. change (ch "a") with 97. change (ch "z") with 122.
    rewrite !orb_true_iff, !andb_true_iff, !Z.leb_le. lia. }
  unfold byte_upper, byte_lower. destruct upper.
  - destruct (in_range 97 122 c) eqn:E; [|done]. apply in_range_true in E. apply Hletter. lia.
  - destruct (in_range 65 90 c) eqn:E; [|done]. apply in_range_true in E. apply Hletter. lia.
Qed.

Lemma canonical_key_idem s : CanonicalHeaderKey (CanonicalHeaderKey s) = CanonicalHeaderKey s.
Proof.
  unfold CanonicalHeaderKey. destruct (forallb validHeaderFieldByte s) eqn:E; [|by rewrite E].
  assert (forall upper, forallb validHeaderFieldByte (canonical_go upper s) = true) as ->.
  { induction s as [|c s IH]; intros upper; [done|]. cbn [forallb] in E. apply andb_true_iff in E as [Hc Hs].
    cbn [canonical_go forallb]. by rewrite header_byte_case, IH. }
  apply canonical_go_idem.
Qed.

Lemma header_Get_Set h key value : header_Get (header_Set h key value) key = value.
Proof. unfold header_Get, header_Values, header_Set, http_header in *. by rewrite lookup_insert_eq. Qed.

Lemma header_Get_Set_ne h key key' value :
  CanonicalHeaderKey key <> CanonicalHeaderKey key' -> header_Get (header_Set h key value) key' = header_Get h key'.
Proof. intros Hne. unfold header_Get, header_Values, header_Set, http_header in *. by rewrite lookup_insert_ne. Qed.

Lemma header_Get_Del h key : header_Get (header_Del h key) key = [].
Proof. unfold header_Get, header_Values, header_Del, http_header in *. by rewrite lookup_delete_eq. Qed.

Lemma header_Get_Del_ne h key key' :
  CanonicalHeaderKey key <> CanonicalHeaderKey key' -> header_Get (header_Del h key) key' = header_Get h key'.
Proof. intros Hne. unfold header_Get, header_Values, header_Del, http_header in *. by rewrite lookup_delete_ne. Qed.
