(* ===== verification/IpAddr.v ===== *)
(** * IP addresses (net, net/netip)

    Parsing of textual addresses and prefixes and the predicates of [net.IP] the
    network guard asks.  An address is its bytes, four or sixteen of them. *)

From S2P Require Export Decimal.

Definition ip := list Z.

(** ** [netip.ParseAddr] *)

Definition parse_octet (s : gostring) : option Z :=
  match s with
  | [] => None
  | c :: rest =>
    if forallb isASCIIDigit s && negb ((c =? ch "0") && negb (str_eqb rest [])) && (len s <=? 3) then
      let v := fold_left (fun v d => v * 10 + (d - 48)) s 0 in if v <=? 255 then Some v else None
    else None
  end.

(** [parseIPv4Fields]: four octets without leading zeros. *)
Definition parseIPv4 (s : gostring) : option ip :=
  match strings_split s (ch ".") with
  | [_; _; _; _] as fields => mapM parse_octet fields
  | _ => None
  end.

Definition hex_value (c : Z) : option Z :=
  if in_range 48 57 c then Some (c - 48)
  else if in_range 97 102 c then Some (c - 87)
  else if in_range 65 70 c then Some (c - 55)
  else None.

(** The hexadecimal digits in front: their number, their value and the rest. *)
Fixpoint hex_run (s : gostring) (count acc : Z) : Z * Z * gostring :=
  match s with
  | c :: s' => match hex_value c with Some v => hex_run s' (count + 1) (acc * 16 + v) | None => (count, acc, s) end
  | [] => (count, acc, s)
  end.

(** The groups of an IPv6 address: the bytes so far, where the [::] was, the text. *)
Fixpoint parse_groups (groups : nat) (bytes : ip) (ellipsis : option nat) (s : gostring) : option (ip * option nat) :=
  match groups with
  | O => match s with [] => Some (bytes, ellipsis) | _ => None end
  | S groups =>
    let '(count, acc, rest) := hex_run s 0 0 in
    if (count =? 0) || (4 <? count) then None else
    match rest with
    | [] => Some (bytes ++ [acc / 256; acc mod 256], ellipsis)
    | c :: rest' =>
      if c =? ch "." then
        if negb (bool_decide (is_Some ellipsis)) && negb (len bytes =? 12) then None else
        if 16 <? len bytes + 4 then None else
        match parseIPv4 s with Some v4 => Some (bytes ++ v4, ellipsis) | None => None end
      else if negb (c =? ch ":") then None else
      let bytes := bytes ++ [acc / 256; acc mod 256] in
      match rest' with
      | [] => None
      | c' :: rest'' =>
        if c' =? ch ":" then
          match ellipsis with
          | Some _ => None
          | None => match rest'' with
                    | [] => Some (bytes, Some (length bytes))
                    | _ => parse_groups groups bytes (Some (length bytes)) rest''
                    end
          end
        else parse_groups groups bytes ellipsis rest'
      end
    end
  end.

Definition expand_ellipsis (bytes : ip) (ellipsis : option nat) : option ip :=
  match ellipsis with
  | None => if len bytes =? 16 then Some bytes else None
  | Some i => if len bytes <? 16 then Some (take i bytes ++ replicate (16 - length bytes) 0 ++ drop i bytes) else None
  end.

(** [parseIPv6]: the address and its zone. *)
Definition parseIPv6 (text : gostring) : option (ip * gostring) :=
  let '(s, zone, zoned) := strings_cut text (ch "%") in
  if zoned && str_eqb zone [] then None else
  let start := has_prefix s (bs "::") in
  let body := if start then drop 2 s else s in
  if start && str_eqb body [] then Some (replicate 16 0, zone) else
  match parse_groups 8 [] (if start then Some O else None) body with
  | Some (bytes, ellipsis) => (fun address => (address, zone)) <$> expand_ellipsis bytes ellipsis
  | None => None
  end.

(** The first of the three characters decides the family. *)
Fixpoint address_family (s : gostring) : option Z :=
  match s with
  | [] => None
  | c :: s' => if mem c (bs ".:%") then Some c else address_family s'
  end.

Definition ParseAddr (s : gostring) : option (ip * gostring) :=
  match address_family s with
  | Some c => if c =? ch "." then (fun address => (address, [])) <$> parseIPv4 s
              else if c =? ch ":" then parseIPv6 s else None
  | None => None
  end.

Definition v4_in_v6_prefix : ip := replicate 10 0 ++ [255; 255].

(** [net.ParseIP]: no zone, IPv4 in its IPv6 form. *)
Definition ParseIP (s : gostring) : option ip :=
  match ParseAddr s with
  | Some (address, []) => Some (if len address =? 4 then v4_in_v6_prefix ++ address else address)
  | _ => None
  end.

(** ** The predicates of [net.IP] *)

Definition To4 (address : ip) : option ip :=
  if len address =? 4 then Some address
  else if (len address =? 16) && bool_decide (take 12 address = v4_in_v6_prefix) then Some (drop 12 address)
  else None.

Definition byte_at (address : ip) (i : nat) : Z := default 0 (address !! i).

Definition v6_loopback : ip := replicate 15 0 ++ [1].

Definition IsLoopback (address : ip) : bool :=
  match To4 address with
  | Some v4 => byte_at v4 0 =? 127
  | None => bool_decide (address = v6_loopback)
  end.

Definition IsPrivate (address : ip) : bool :=
  match To4 address with
  | Some v4 => (byte_at v4 0 =? 10)
               || ((byte_at v4 0 =? 172) && (Z.land (byte_at v4 1) 0xf0 =? 16))
               || ((byte_at v4 0 =? 192) && (byte_at v4 1 =? 168))
  | None => (len address =? 16) && (Z.land (byte_at address 0) 0xfe =? 0xfc)
  end.

Definition IsUnspecified (address : ip) : bool :=
  match To4 address with
  | Some v4 => bool_decide (v4 = [0; 0; 0; 0])
  | None => bool_decide (address = replicate 16 0)
  end.

Definition IsLinkLocalUnicast (address : ip) : bool :=
  match To4 address with
  | Some v4 => (byte_at v4 0 =? 169) && (byte_at v4 1 =? 254)
  | None => (len address =? 16) && (byte_at address 0 =? 0xfe) && (Z.land (byte_at address 1) 0xc0 =? 0x80)
  end.

Definition IsLinkLocalMulticast (address : ip) : bool :=
  match To4 address with
  | Some v4 => (byte_at v4 0 =? 224) && (byte_at v4 1 =? 0) && (byte_at v4 2 =? 0)
  | None => (len address =? 16) && (byte_at address 0 =? 0xff) && (Z.land (byte_at address 1) 0x0f =? 0x02)
  end.

Definition IsMulticast (address : ip) : bool :=
  match To4 address with
  | Some v4 => Z.land (byte_at v4 0) 0xf0 =? 0xe0
  | None => (len address =? 16) && (byte_at address 0 =? 0xff)
  end.

(** ** [netip.Prefix] *)

Record prefix := { px_address : ip; px_bits : Z }.

(** [netip.MustParsePrefix], on the literals of the program. *)
Definition MustParsePrefix (s : gostring) : prefix :=
  let '(address, bits, _) := strings_cut s (ch "/") in
  {| px_address := match ParseAddr address with Some (a, _) => a | None => [] end;
     px_bits := fold_left (fun v d => v * 10 + (d - 48)) bits 0 |}.

Definition address_value (address : ip) : Z := fold_left (fun v b => v * 256 + b) address 0.

(** [Prefix.Contains]: the same family, and the same leading bits. *)
Definition Contains (p : prefix) (address : ip) : bool :=
  (len (px_address p) =? len address)
  && (Z.shiftr (address_value address) (8 * len address - px_bits p)
      =? Z.shiftr (address_value (px_address p)) (8 * len address - px_bits p)).

(** [Addr.Unmap] *)
Definition Unmap (address : ip) : ip := default address (To4 address).

(** ** Lemmas *)

Example parse_v4 : ParseIP (bs "127.0.0.1") = Some (v4_in_v6_prefix ++ [127; 0; 0; 1]).
Proof. vm_compute. reflexivity. Qed.

Example parse_v6 : ParseIP (bs "2001:db8::1.2.3.4") = Some [0x20; 1; 0xd; 0xb8; 0; 0; 0; 0; 0; 0; 0; 0; 1; 2; 3; 4].
Proof. vm_compute. reflexivity. Qed.

Example parse_rejected : ParseIP <$> [bs "127.0.0.01"; bs "127.1"; bs "0x7f.0.0.1"; bs "::1%lo"; bs "1::2::3"; bs ":1"; bs "1:2:3:4:5:6:7:8:"]
  = replicate 7 None.
Proof. vm_compute. reflexivity. Qed.

Lemma To4_mapped v4 : length v4 = 4%nat -> To4 (v4_in_v6_prefix ++ v4) = Some v4.
Proof.
  intros Hl. unfold To4, len. rewrite length_app, Hl. simpl. by rewrite drop_0.
Qed.

Lemma To4_length address v4 : To4 address = Some v4 -> length v4 = 4%nat.
Proof.
  unfold To4, len. destruct (Z.eqb_spec (Z.of_nat (length address)) 4) as [Hl|]; [intros [= <-]; lia|].
  destruct (Z.eqb_spec (Z.of_nat (length address)) 16) as [Hl|]; [|done]. simpl.
  case_bool_decide; [|done]. intros [= <-]. rewrite length_drop. lia.
Qed.
