(* ===== verification/Url.v ===== *)
(** * URLs (net/url) and slash paths (package path)

    [url.Parse] and [url.ParseRequestURI] with the escaping rules, and the accessors
    the program uses. *)

From S2P Require Export IpAddr.

(** ** Escaping *)

Inductive encoding := encodePath | encodePathSegment | encodeHost | encodeZone | encodeUserPassword | encodeFragment.

Definition is_alnum (c : Z) : bool := in_range 97 122 c || in_range 65 90 c || in_range 48 57 c.

Definition is_host_mode (mode : encoding) : bool := match mode with encodeHost | encodeZone => true | _ => false end.

Definition shouldEscape (c : Z) (mode : encoding) : bool :=
  if is_alnum c then false
  else if is_host_mode mode && mem c (bs "!$&'()*+,;=:[]<>" ++ [34]) then false
  else if mem c (bs "-_.~") then false
  else if mem c (bs "$&+,/:;=?@") then
    match mode with
    | encodePath => c =? ch "?"
    | encodePathSegment => mem c (bs "/;,?")
    | encodeUserPassword => mem c (bs "@/?:")
    | encodeFragment => false
    | encodeHost | encodeZone => true
    end
  else match mode with encodeFragment => negb (mem c (bs "!()*")) | _ => true end.

Definition upper_hex (n : Z) : Z := if n <? 10 then 48 + n else 55 + n.

Fixpoint escape (s : gostring) (mode : encoding) : gostring :=
  match s with
  | [] => []
  | c :: s => (if shouldEscape c mode then [ch "%"; upper_hex (c / 16); upper_hex (c mod 16)] else [c]) ++ escape s mode
  end.

Definition EscapeError : error := Errorf "invalid URL escape" [].

(** [unescape] outside of queries. *)
Fixpoint unescape (s : gostring) (mode : encoding) : result gostring :=
  match s with
  | [] => Ok []
  | c :: s' =>
    if c =? ch "%" then
      match s' with
      | a :: b :: rest =>
        match hex_value a, hex_value b with
        | Some x, Some y =>
          let v := x * 16 + y in
          if match mode with
             | encodeHost => (x <? 8) && negb (v =? ch "%")
             | encodeZone => negb (v =? ch "%") && negb (v =? ch " ") && shouldEscape v encodeHost
             | _ => false
             end then Err EscapeError
          else r ← unescape rest mode; Ok (v :: r)
        | _, _ => Err EscapeError
        end
      | _ => Err EscapeError
      end
    else if is_host_mode mode && (c <? 0x80) && shouldEscape c mode then fail "invalid character in host name"
    else r ← unescape s' mode; Ok (c :: r)
  end.

Definition PathUnescape (s : gostring) : result gostring := unescape s encodePathSegment.

(** ** The parsed form *)

Record Userinfo := { ui_username : gostring; ui_password : option gostring }.

Record URL := {
  u_Scheme : gostring;
  u_Opaque : gostring;
  u_User : option Userinfo;
  u_Host : gostring;
  u_Path : gostring;
  u_RawPath : gostring;
  u_OmitHost : bool;
  u_ForceQuery : bool;
  u_RawQuery : gostring;
  u_Fragment : gostring;
  u_RawFragment : gostring;
}.

(** [Userinfo.String] *)
Definition userinfo_string (u : Userinfo) : gostring :=
  escape (ui_username u) encodeUserPassword
  ++ match ui_password u with Some p => ch ":" :: escape p encodeUserPassword | None => [] end.

(** [getScheme]: the scheme, and the text behind its colon. *)
Fixpoint getScheme_go (first : bool) (before s whole : gostring) : result (gostring * gostring) :=
  match s with
  | [] => Ok ([], whole)
  | c :: s' =>
    if in_range 97 122 c || in_range 65 90 c then getScheme_go false (before ++ [c]) s' whole
    else if in_range 48 57 c || mem c (bs "+-.") then
      if first then Ok ([], whole) else getScheme_go false (before ++ [c]) s' whole
    else if c =? ch ":" then
      if first then fail "missing protocol scheme" else Ok (before, s')
    else Ok ([], whole)
  end.

Definition getScheme (rawURL : gostring) : result (gostring * gostring) := getScheme_go true [] rawURL rawURL.

Definition validOptionalPort (port : gostring) : bool :=
  match port with
  | [] => true
  | c :: digits => (c =? ch ":") && forallb isASCIIDigit digits
  end.

Definition validUserinfo (s : gostring) : bool :=
  forallb (fun c => is_alnum c || mem c (bs "-._:~!$&'()*+,;=%@")) s.

(** [strings.Index(s, "%25")], as the text before and the text from there on. *)
Fixpoint cut_percent25 (s : gostring) : option (gostring * gostring) :=
  if has_prefix s (bs "%25") then Some ([], s) else
  match s with
  | [] => None
  | c :: s' => (fun p => (c :: p.1, p.2)) <$> cut_percent25 s'
  end.

(** A bracketed host: the literal, its zone and the port. *)
Definition parse_ip_literal (host : gostring) : result gostring :=
  match last_index_byte host (ch "]") with
  | None => fail "missing ']' in host"
  | Some close =>
    let colonPort := drop (S close) host in
    if negb (validOptionalPort colonPort) then fail "invalid port after host" else
    let hostname := take (close - 1) (drop 1 host) in
    literal ← (match cut_percent25 hostname with
               | Some (before, zone) =>
                 h ← unescape before encodeHost; z ← unescape zone encodeZone; Ok (h ++ z)
               | None => unescape hostname encodeHost
               end);
    match ParseAddr literal with
    | None => fail "invalid host: %w"
    | Some (address, _) =>
      if len address =? 4 then fail "invalid IP-literal" else Ok ([ch "["] ++ literal ++ [ch "]"] ++ colonPort)
    end
  end.

Definition parseHost (host : gostring) : result gostring :=
  match last_index_byte host (ch "[") with
  | Some (S _) => fail "invalid IP-literal"
  | Some O => parse_ip_literal host
  | None =>
    if match index_byte host (ch ":") with
       | Some i => negb (validOptionalPort (drop i host))
       | None => false
       end then fail "invalid port after host"
    else unescape host encodeHost
  end.

Definition parse_userinfo (userinfo : gostring) : result Userinfo :=
  if negb (validUserinfo userinfo) then fail "net/url: invalid userinfo" else
  let '(username, password, found) := strings_cut userinfo (ch ":") in
  if found : bool then
    u ← unescape username encodeUserPassword; p ← unescape password encodeUserPassword;
    Ok {| ui_username := u; ui_password := Some p |}
  else u ← unescape userinfo encodeUserPassword; Ok {| ui_username := u; ui_password := None |}.

Definition parseAuthority (authority : gostring) : result (option Userinfo * gostring) :=
  match last_index_byte authority (ch "@") with
  | None => host ← parseHost authority; Ok (None, host)
  | Some i =>
    host ← parseHost (drop (S i) authority);
    user ← parse_userinfo (take i authority);
    Ok (Some user, host)
  end.

(** [URL.setPath]: the decoded path, and the raw one where escaping does not give it back. *)
Definition setPath (p : gostring) : result (gostring * gostring) :=
  path ← unescape p encodePath; Ok (path, if str_eqb p (escape path encodePath) then [] else p).

Definition stringContainsCTLByte (s : gostring) : bool := existsb (fun b => (b <? 32) || (b =? 0x7f)) s.

Section tables.
Context `{UnicodeTables}.

Definition parse_url (rawURL : gostring) (viaRequest : bool) : result URL :=
  if stringContainsCTLByte rawURL then fail "net/url: invalid control character in URL" else
  if str_eqb rawURL [] && viaRequest then fail "empty url" else
  if str_eqb rawURL (bs "*") then
    Ok {| u_Scheme := []; u_Opaque := []; u_User := None; u_Host := []; u_Path := bs "*"; u_RawPath := [];
          u_OmitHost := false; u_ForceQuery := false; u_RawQuery := []; u_Fragment := []; u_RawFragment := [] |}
  else
  '(rawScheme, rest) ← getScheme rawURL;
  let scheme := to_lower rawScheme in
  let '(rest, query, found) := strings_cut rest (ch "?") in
  let force := found && str_eqb query [] in
  if negb (has_prefix rest (bs "/")) && negb (str_eqb scheme []) then
    Ok {| u_Scheme := scheme; u_Opaque := rest; u_User := None; u_Host := []; u_Path := []; u_RawPath := [];
          u_OmitHost := false; u_ForceQuery := force; u_RawQuery := query; u_Fragment := []; u_RawFragment := [] |}
  else
  if negb (has_prefix rest (bs "/")) && viaRequest then fail "invalid URI for request" else
  if negb (has_prefix rest (bs "/")) && mem (ch ":") (strings_cut rest (ch "/")).1.1
  then fail "first path segment in URL cannot contain colon" else
  '(user, host, rest, omit) ← (if (negb (str_eqb scheme []) || (negb viaRequest && negb (has_prefix rest (bs "///"))))
                             && has_prefix rest (bs "//") then
                           let authority := drop 2 rest in
                           let '(authority, rest) := match index_byte authority (ch "/") with
                                                     | Some i => (take i authority, drop i authority)
                                                     | None => (authority, [])
                                                     end in
                           '(user, host) ← parseAuthority authority; Ok (user, host, rest, false)
                         else Ok (None, [], rest, negb (str_eqb scheme []) && has_prefix rest (bs "/")));
  '(path, rawPath) ← setPath rest;
  Ok {| u_Scheme := scheme; u_Opaque := []; u_User := user; u_Host := host; u_Path := path; u_RawPath := rawPath;
        u_OmitHost := omit; u_ForceQuery := force; u_RawQuery := query; u_Fragment := []; u_RawFragment := [] |}.

(** [url.Parse] *)
Definition Parse (rawURL : gostring) : result URL :=
  let '(text, fragment, _) := strings_cut rawURL (ch "#") in
  u ← parse_url text false;
  f ← unescape fragment encodeFragment;
  Ok {| u_Scheme := u_Scheme u; u_Opaque := u_Opaque u; u_User := u_User u; u_Host := u_Host u; u_Path := u_Path u;
        u_RawPath := u_RawPath u; u_OmitHost := u_OmitHost u; u_ForceQuery := u_ForceQuery u; u_RawQuery := u_RawQuery u;
        u_Fragment := f; u_RawFragment := if str_eqb fragment (escape f encodeFragment) then [] else fragment |}.

Definition ParseRequestURI (rawURL : gostring) : result URL := parse_url rawURL true.

End tables.

(** ** Accessors *)

Definition IsAbs (u : URL) : bool := negb (str_eqb (u_Scheme u) []).

Definition validEncoded (s : gostring) (mode : encoding) : bool :=
  forallb (fun c => mem c (bs "!$&'()*+,;=:@[]%") || negb (shouldEscape c mode)) s.

Definition EscapedPath (u : URL) : gostring :=
  let computed := if str_eqb (u_Path u) (bs "*") then bs "*" else escape (u_Path u) encodePath in
  if negb (str_eqb (u_RawPath u) []) && validEncoded (u_RawPath u) encodePath then
    match unescape (u_RawPath u) encodePath with
    | Ok p => if str_eqb p (u_Path u) then u_RawPath u else computed
    | Err _ => computed
    end
  else computed.

Definition EscapedFragment (u : URL) : gostring :=
  let computed := escape (u_Fragment u) encodeFragment in
  if negb (str_eqb (u_RawFragment u) []) && validEncoded (u_RawFragment u) encodeFragment then
    match unescape (u_RawFragment u) encodeFragment with
    | Ok f => if str_eqb f (u_Fragment u) then u_RawFragment u else computed
    | Err _ => computed
    end
  else computed.

(** [URL.String] *)
Definition url_string (u : URL) : gostring :=
  let has s := negb (str_eqb s []) in
  let scheme := if has (u_Scheme u) then u_Scheme u ++ [ch ":"] else [] in
  let body :=
    if has (u_Opaque u) then u_Opaque u else
    let authority :=
      if has (u_Scheme u) || has (u_Host u) || bool_decide (is_Some (u_User u)) then
        if u_OmitHost u && negb (has (u_Host u)) && bool_decide (u_User u = None) then [] else
        (if has (u_Host u) || has (u_Path u) || bool_decide (is_Some (u_User u)) then bs "//" else [])
        ++ match u_User u with Some user => userinfo_string user ++ [ch "@"] | None => [] end
        ++ (if has (u_Host u) then escape (u_Host u) encodeHost else [])
      else [] in
    let path := EscapedPath u in
    let separator := if has path && negb (has_prefix path (bs "/")) && has (u_Host u) then bs "/" else [] in
    let front := authority ++ separator in
    let dot := if negb (has (scheme ++ front)) && mem (ch ":") (strings_cut path (ch "/")).1.1 then bs "./" else [] in
    front ++ dot ++ path in
  let query := if u_ForceQuery u || has (u_RawQuery u) then ch "?" :: u_RawQuery u else [] in
  let fragment := if has (u_Fragment u) then ch "#" :: EscapedFragment u else [] in
  scheme ++ body ++ query ++ fragment.

(** [splitHostPort]: the host without brackets, and the digits behind its last colon. *)
Definition splitHostPort (hostPort : gostring) : gostring * gostring :=
  let '(host, port) := match last_index_byte hostPort (ch ":") with
                       | Some i => if validOptionalPort (drop i hostPort) then (take i hostPort, drop (S i) hostPort)
                                   else (hostPort, [])
                       | None => (hostPort, [])
                       end in
  (if has_prefix host (bs "[") && has_suffix host (bs "]") then take (length host - 2) (drop 1 host) else host, port).

Definition Hostname (u : URL) : gostring := (splitHostPort (u_Host u)).1.
Definition Port (u : URL) : gostring := (splitHostPort (u_Host u)).2.

(** ** [path.Clean] of rooted paths *)

(** The elements of the result, last one first. *)
Definition clean_step (stack : list gostring) (element : gostring) : list gostring :=
  if str_eqb element [] || str_eqb element (bs ".") then stack
  else if str_eqb element (bs "..") then match stack with [] => [] | _ :: stack => stack end
  else element :: stack.

Definition clean_stack (path : gostring) : list gostring := fold_left clean_step (strings_split path (ch "/")) [].

Definition path_Clean (path : gostring) : gostring := ch "/" :: strings_join (rev (clean_stack path)) (ch "/").
