(* ===== verification/PackageKey.v ===== *)
(** * Package identities in cache keys and request paths (internal/adapter/packagekey)

    What a cache key says about the package (extract.go, classify.go), and the strict
    parsers of artifact paths (version.go, composer.go).  A pair of empty strings says
    that nothing was recognized. *)

From S2P Require Export Glob Url.

(** ** More of package strings *)

Definition named (s : gostring) (t : string) : bool := str_eqb s (bs t).

Definition trim_prefix (s p : gostring) : gostring := if has_prefix s p then drop (length p) s else s.

(** [strings.Index] *)
Fixpoint index_of (s sub : gostring) : option nat :=
  if has_prefix s sub then Some O else match s with [] => None | _ :: s => S <$> index_of s sub end.

(** [strings.LastIndex] *)
Fixpoint last_index_of (s sub : gostring) : option nat :=
  match match s with [] => None | _ :: s => last_index_of s sub end with
  | Some i => Some (S i)
  | None => if has_prefix s sub then Some O else None
  end.

(** [strings.SplitN] with a one-byte separator. *)
Fixpoint split_n (n : nat) (s : gostring) (c : Z) : list gostring :=
  match n with
  | O => []
  | 1%nat => [s]
  | S n => match index_byte s c with Some i => take i s :: split_n n (drop (S i) s) c | None => [s] end
  end.

(** [strings.SplitN(s, sep, 2)] at a longer separator. *)
Definition cut_around (s sep : gostring) : option (gostring * gostring) :=
  match index_of s sep with Some i => Some (take i s, drop (i + length sep) s) | None => None end.

Definition parts_of (s : gostring) : list gostring := strings_split s (ch "/").
Definition part (l : list gostring) (i : nat) : gostring := nth i l [].
(** [parts[len(parts)-1-i]] *)
Definition part_from_end (l : list gostring) (i : nat) : gostring := nth (length l - 1 - i) l [].
Definition base_of (s : gostring) : gostring := part_from_end (parts_of s) 0.
Definition joined (l : list gostring) : gostring := strings_join l (ch "/").

Definition ascii_digit (c : Z) : bool := in_range 48 57 c.
Definition head_digit (s : gostring) : bool := match s with c :: _ => ascii_digit c | [] => false end.
Definition dots (s : gostring) : bool := named s "" || named s "." || named s "..".

Definition has_any_suffix (value : gostring) (suffixes : list string) : bool := existsb (fun s => has_suffix value (bs s)) suffixes.

(** Before and after the first, or last, position of [f] that a dash precedes. *)
Fixpoint first_dash (f : gostring -> bool) (s : gostring) : option (gostring * gostring) :=
  match s with
  | [] => None
  | c :: rest =>
    if (c =? ch "-") && f rest then Some ([], rest)
    else match first_dash f rest with Some (a, b) => Some (c :: a, b) | None => None end
  end.

Fixpoint last_dash (f : gostring -> bool) (s : gostring) : option (gostring * gostring) :=
  match s with
  | [] => None
  | c :: rest =>
    match last_dash f rest with
    | Some (a, b) => Some (c :: a, b)
    | None => if (c =? ch "-") && f rest then Some ([], rest) else None
    end
  end.

Definition nothing : gostring * gostring := ([], []).

Section packagekey.
Context `{UnicodeTables} `{ModulePackage}.

(** ** version.go *)

Definition ParsePypiFilename (filename : gostring) : gostring * gostring :=
  if has_suffix filename (bs ".whl") then
    let parts := strings_split (trim_suffix filename (bs ".whl")) (ch "-") in
    if negb (Nat.eqb (length parts) 5 || Nat.eqb (length parts) 6) then nothing
    else if existsb (fun p => named p "") parts then nothing
    else if negb (head_digit (part parts 1)) then nothing
    else if Nat.eqb (length parts) 6 && negb (head_digit (part parts 2)) then nothing
    else (part parts 0, part parts 1)
  else if has_suffix filename (bs ".tar.gz") then
    let base := trim_suffix filename (bs ".tar.gz") in
    if negb (Nat.eqb (count_byte base (ch "-")) 1) then nothing else
    let '(pkg, version, _) := strings_cut base (ch "-") in
    if named pkg "" || named version "" then nothing else (pkg, version)
  else nothing.

Definition ParseCargoCratePath (path : gostring) : gostring * gostring :=
  let parts := parts_of (trim_prefix path (bs "/")) in
  if (length parts <? 6)%nat then nothing
  else if negb (named (part parts 0) "api") || negb (named (part parts 1) "v1") || negb (named (part parts 2) "crates")
          || negb (named (part parts 5) "download") then nothing
  else (part parts 3, part parts 4).

(** The scan of ParseRubygemsFilename and ParseHelmPath: the last dash before a digit, but not at 0. *)
Definition split_version (base : gostring) : gostring * gostring :=
  match base with
  | [] => nothing
  | c :: rest => match last_dash head_digit rest with Some (a, b) => (c :: a, b) | None => nothing end
  end.

Definition ParseRubygemsFilename (filename : gostring) : gostring * gostring :=
  if negb (has_suffix filename (bs ".gem")) then nothing else split_version (trim_suffix filename (bs ".gem")).

Definition mavenArtifactTokenIsValid (token : gostring) : bool :=
  negb (named token "") && forallb (fun c => is_alnum c || mem c (bs "-_+")) token.

Definition mavenClassifierIsValid (classifier : gostring) : bool :=
  negb (named classifier "") && forallb mavenArtifactTokenIsValid (strings_split classifier (ch ".")).

Definition maven_qualifiers : list string :=
  ["alpha"; "a"; "beta"; "b"; "milestone"; "m"; "rc"; "cr"; "snapshot"; "final"; "ga"; "release"; "sp"]%string.

Definition mavenVersionLikeMavenToken (token : gostring) : bool :=
  named token "" || head_digit token ||
  let lower := to_lower token in
  existsb (fun qualifier =>
    named lower qualifier
    || (has_prefix lower (bs qualifier)
        && let suffix := drop (length (bs qualifier)) lower in negb (named suffix "") && forallb ascii_digit suffix)) maven_qualifiers.

Definition mavenArtifactRemainderIsValid (remainder : gostring) : bool :=
  match remainder with
  | c :: ((_ :: _) as rest) =>
    if c =? ch "." then
      let parts := strings_split rest (ch ".") in
      if mavenVersionLikeMavenToken (part parts 0) then false else forallb mavenArtifactTokenIsValid parts
    else if c =? ch "-" then
      match last_index_byte remainder (ch ".") with
      | Some extensionIndex =>
        if (extensionIndex <=? 1)%nat || Nat.eqb extensionIndex (length remainder - 1) then false else
        let classifier := drop 1 (take extensionIndex remainder) in
        let extension := drop (S extensionIndex) remainder in
        if mavenVersionLikeMavenToken classifier || negb (mavenClassifierIsValid classifier) then false
        else mavenArtifactTokenIsValid extension
      | None => false
      end
    else false
  | _ => false
  end.

Fixpoint drop_digits (s : gostring) : gostring :=
  match s with c :: rest => if ascii_digit c then drop_digits rest else s | [] => [] end.

(** [yyyyMMdd.HHmmss-buildNumber] and what follows it. *)
Definition snapshot_rest (unique : gostring) : option gostring :=
  if len unique <? len (bs "20060102.150405-1.x") then None
  else if negb (forallb ascii_digit (take 8 unique)) then None
  else if negb (nth 8 unique 0 =? ch ".") then None
  else if negb (forallb ascii_digit (take 6 (drop 9 unique))) then None
  else if negb (nth 15 unique 0 =? ch "-") then None
  else
    let build := drop 16 unique in
    let rest := drop_digits build in
    if Nat.eqb (length rest) (length build) || named rest "" then None else Some rest.

Definition mavenArtifactSuffixMatchesVersion (suffix baseVersion : gostring) : bool :=
  if named suffix "" || named baseVersion "" then false
  else if has_prefix suffix baseVersion then mavenArtifactRemainderIsValid (trim_prefix suffix baseVersion)
  else if negb (has_suffix baseVersion (bs "-SNAPSHOT")) then false
  else
    let base := trim_suffix baseVersion (bs "SNAPSHOT") in
    if negb (has_prefix suffix base) then false else
    match snapshot_rest (trim_prefix suffix base) with
    | Some rest => mavenArtifactRemainderIsValid rest
    | None => false
    end.

Definition ParseMavenPath (path : gostring) : gostring * gostring :=
  let parts := parts_of (trim_prefix path (bs "/")) in
  if (length parts <? 4)%nat then nothing
  else if existsb dots parts then nothing else
  let filename := part_from_end parts 0 in
  let version := part_from_end parts 1 in
  let artifact := part_from_end parts 2 in
  if named filename "maven-metadata.xml" || has_suffix filename (bs ".lastUpdated") || named filename "_remote.repositories" then nothing else
  let prefix := artifact ++ bs "-" in
  if named artifact "" || named version "" || negb (has_prefix filename prefix) then nothing
  else if negb (mavenArtifactSuffixMatchesVersion (trim_prefix filename prefix) version) then nothing else
  let group := strings_join (take (length parts - 3) parts) (ch ".") in
  if named group "" then nothing else (group ++ bs ":" ++ artifact, version).

Definition ParseNugetPath (path : gostring) : gostring * gostring :=
  let p := trim_prefix path (bs "/") in
  if negb (has_prefix p (bs "v3-flatcontainer/")) then nothing else
  let parts := parts_of p in
  if negb (Nat.eqb (length parts) 4) then nothing
  else if existsb (fun p => named p "") parts then nothing
  else if negb (equal_fold (part parts 3) (part parts 1 ++ bs "." ++ part parts 2 ++ bs ".nupkg")) then nothing
  else (part parts 1, part parts 2).

Definition ParseCondaPath (path : gostring) : gostring * gostring :=
  let parts := parts_of (trim_prefix path (bs "/")) in
  if (length parts <? 3)%nat then nothing else
  let channelParts := take (length parts - 2) parts in
  if existsb (fun p => named p "") channelParts then nothing else
  let channel := joined channelParts in
  if named channel "" || named (part_from_end parts 1) "" then nothing else
  let filename := part_from_end parts 0 in
  let base :=
    if has_suffix filename (bs ".conda") then Some (trim_suffix filename (bs ".conda"))
    else if has_suffix filename (bs ".tar.bz2") then Some (trim_suffix filename (bs ".tar.bz2")) else None in
  match base with
  | None => nothing
  | Some base =>
    match last_index_byte base (ch "-") with
    | Some (S _ as last) =>
      match last_index_byte (take last base) (ch "-") with
      | Some (S _ as mid) => (channel ++ bs "/" ++ take mid base, drop (S mid) (take last base))
      | _ => nothing
      end
    | _ => nothing
    end
  end.

(** The extension a CRAN path ends in, and the package of its directory in the archive. *)
Definition cran_shape (parts : list gostring) : option (gostring * gostring) :=
  let n := length parts in
  if Nat.eqb n 3 && named (part parts 0) "src" && named (part parts 1) "contrib" then Some (bs ".tar.gz", [])
  else if Nat.eqb n 5 && named (part parts 0) "src" && named (part parts 1) "contrib" && named (part parts 2) "Archive"
  then Some (bs ".tar.gz", part parts 3)
  else if Nat.eqb n 5 && named (part parts 0) "bin" && named (part parts 1) "windows" && named (part parts 2) "contrib"
  then Some (bs ".zip", [])
  else if (5 <=? n)%nat && named (part parts 0) "bin" && named (part parts 1) "macosx" && named (part_from_end parts 2) "contrib"
  then Some (bs ".tgz", [])
  else None.

Definition ParseCranPath (path : gostring) : gostring * gostring :=
  let parts := parts_of (trim_prefix path (bs "/")) in
  if existsb dots parts then nothing else
  match cran_shape parts with
  | None => nothing
  | Some (extension, archivePackage) =>
    let filename := part_from_end parts 0 in
    if negb (has_suffix filename extension) then nothing else
    let base := trim_suffix filename extension in
    if negb (Nat.eqb (count_byte base (ch "_")) 1) then nothing else
    match index_byte base (ch "_") with
    | Some (S _ as u) =>
      if Nat.eqb u (length base - 1) then nothing else
      let pkg := take u base in
      if negb (named archivePackage "") && negb (str_eqb pkg archivePackage) then nothing else (pkg, drop (S u) base)
    | _ => nothing
    end
  end.

Definition ParseHelmPath (path : gostring) : gostring * gostring :=
  let p := trim_prefix path (bs "/") in
  let filename := match last_index_byte p (ch "/") with Some i => drop (S i) p | None => p end in
  if negb (has_suffix filename (bs ".tgz")) then nothing else split_version (trim_suffix filename (bs ".tgz")).

Definition ParseAlpinePath (path : gostring) : gostring * gostring :=
  let parts := parts_of (trim_prefix path (bs "/")) in
  if (length parts <? 4)%nat then nothing else
  let filename := part parts 3 in
  if negb (has_suffix filename (bs ".apk")) then nothing else
  let base := trim_suffix filename (bs ".apk") in
  match last_index_byte base (ch "-") with
  | Some (S _ as lastDash) =>
    let rev := drop (S lastDash) base in
    if negb (has_prefix rev (bs "r")) || (len rev <? 2) then nothing else
    let beforeRev := take lastDash base in
    match last_index_byte beforeRev (ch "-") with
    | Some (S _ as verDash) =>
      (part parts 0 ++ bs "/" ++ part parts 1 ++ bs "/" ++ part parts 2 ++ bs "/" ++ take verDash beforeRev,
       drop (S verDash) beforeRev ++ bs "-" ++ rev)
    | _ => nothing
    end
  | _ => nothing
  end.

(** [None]: the slice [p[len("v2/"):idx]] panics when the separator begins in "v2". *)
Definition ParseDockerPath (path : gostring) : option (gostring * gostring) :=
  let p := trim_prefix path (bs "/") in
  if negb (has_prefix p (bs "v2/")) then Some nothing else
  match index_of p (bs "/manifests/") with
  | None => Some nothing
  | Some idx =>
    if (idx <? length (bs "v2/"))%nat then None else
    let image := drop (length (bs "v2/")) (take idx p) in
    let tag := drop (idx + length (bs "/manifests/")) p in
    Some (if named image "" || named tag "" then nothing else (image, tag))
  end.

Definition ParseGoZipPath (path : gostring) : gostring * gostring :=
  match index_of path (bs "/@v/") with
  | Some (S _ as i) =>
    if negb (has_suffix path (bs ".zip")) then nothing else
    let escapedVersion := trim_suffix (drop (i + length (bs "/@v/")) path) (bs ".zip") in
    match DecodeProxyPath (take i path) with
    | Err _ => nothing
    | Ok module =>
      match DecodeProxyVersion escapedVersion with Err _ => nothing | Ok version => (module, version) end
    end
  | _ => nothing
  end.

(** ** composer.go *)

Definition isASCIIComposerAlphanumeric (character : Z) : bool := is_alnum character.

Definition head_alnum (s : gostring) : bool := match s with c :: _ => isASCIIComposerAlphanumeric c | [] => false end.

Fixpoint drop_byte (c : Z) (s : gostring) : gostring :=
  match s with a :: rest => if a =? c then drop_byte c rest else s | [] => [] end.

(** The scan of validComposerNamePart: runs of one separator between letters and digits. *)
Fixpoint composer_runs (fuel : nat) (value : gostring) (maxHyphenRun : nat) : bool :=
  match fuel, value with
  | _, [] => true
  | O, _ => false
  | S fuel, c :: rest =>
    if isASCIIComposerAlphanumeric c then composer_runs fuel rest maxHyphenRun
    else if negb (mem c (bs "._-")) then false
    else
      let after := drop_byte c value in
      let maxRun := if c =? ch "-" then maxHyphenRun else 1%nat in
      if (maxRun <? length value - length after)%nat || negb (head_alnum after) then false
      else composer_runs fuel after maxHyphenRun
  end.

Definition validComposerNamePart (value : gostring) (maxHyphenRun : nat) : bool :=
  negb (dots value) && head_alnum value && head_alnum (rev value) && composer_runs (length value) value maxHyphenRun.

Definition validComposerArtifactToken (value : gostring) : bool :=
  negb (named value "") && forallb (fun c => isASCIIComposerAlphanumeric c || mem c (bs "._-")) value.

Definition validComposerRouteValue (value : gostring) (allowSlash : bool) : bool :=
  negb (named value "")
  && forallb (fun p => negb (dots p) && validComposerArtifactToken p) (if allowSlash then parts_of value else [value]).

Definition composerCoordinate (value : gostring) : option gostring :=
  match parts_of value with
  | [vendor; name] =>
    if negb (validComposerNamePart vendor 1) || negb (validComposerNamePart name 2) || has_suffix (to_lower name) (bs ".json")
    then None else Some (vendor ++ bs "/" ++ name)
  | _ => None
  end.

Definition parseComposerP2Path (path : gostring) : option gostring :=
  if negb (has_suffix path (bs ".json")) then None
  else composerCoordinate (trim_suffix (trim_suffix path (bs ".json")) (bs "~dev")).

Definition parseComposerDistPath (path : gostring) : option gostring :=
  match parts_of path with
  | [vendor; name; artifact] =>
    match last_index_byte artifact (ch ".") with
    | Some (S _ as dot) =>
      if Nat.eqb dot (length artifact - 1) || negb (validComposerArtifactToken artifact) then None
      else composerCoordinate (vendor ++ bs "/" ++ name)
    | _ => None
    end
  | _ => None
  end.

Definition ParseComposerPath (path : gostring) : option gostring :=
  let path := trim_prefix path (bs "/") in
  if has_prefix path (bs "p2/") then parseComposerP2Path (trim_prefix path (bs "p2/"))
  else if has_prefix path (bs "dist/") then parseComposerDistPath (trim_prefix path (bs "dist/"))
  else None.

(** The name and the version; the version of a metadata route is empty. *)
Definition ParseComposerRequestPath (path : gostring) : option (gostring * gostring) :=
  let path := trim_prefix path (bs "/") in
  if has_prefix path (bs "p2/") then
    match ParseComposerPath path with Some name => Some (name, []) | None => None end
  else if negb (has_prefix path (bs "dist/")) then None else
  let parts := parts_of (trim_prefix path (bs "dist/")) in
  if (length parts <? 4)%nat then None else
  match composerCoordinate (part parts 0 ++ bs "/" ++ part parts 1) with
  | None => None
  | Some name =>
    let version := joined (drop 2 (take (length parts - 1) parts)) in
    if negb (validComposerRouteValue version true) then None else
    let last := part_from_end parts 0 in
    match index_byte last (ch ".") with
    | Some (S _ as dot) =>
      if Nat.eqb dot (length last - 1) || negb (validComposerArtifactToken (take dot last))
         || negb (validComposerRouteValue (drop (S dot) last) false) then None
      else Some (name, version)
    | _ => None
    end
  end.

End packagekey.
