(* ===== verification/KeyIdentity.v ===== *)
(** * What a cache key says (packagekey/extract.go, classify.go; internal/db/cache_kind.go)

    The package and the version a cache key names, whether it is a package file, and
    whether what it holds is mutable metadata or an artifact. *)

From S2P Require Export PackageKey.

Section keys.
Context `{UnicodeTables} `{ModulePackage}.

(** ** Shared parsers *)

Definition trimDebianPackageExtension (value : gostring) : gostring * bool :=
  if has_suffix value (bs ".udeb") then (trim_suffix value (bs ".udeb"), true)
  else if has_suffix value (bs ".deb") then (trim_suffix value (bs ".deb"), true)
  else (value, false).

(** The loop looks at the first byte of each rune. *)
Definition isLowerHexSHA256 (value : gostring) : bool :=
  (len value =? 64)
  && forallb (fun chunk => let c := nth 0 (snd chunk) 0 in in_range 48 57 c || in_range 97 102 c) (chunks value).

(** [url.PathUnescape] of a path component that stays one. *)
Definition decoded_component (p : gostring) : option gostring :=
  match PathUnescape p with Ok c => if dots c then None else Some c | Err _ => None end.

(** The largest index from [i] down to 1 at which [f] holds. *)
Fixpoint last_index_from (f : gostring -> bool) (l : list gostring) (i : nat) : option nat :=
  match i with
  | O => None
  | S j => if f (part l i) then Some i else last_index_from f l j
  end.

Definition parseHuggingFaceFileKey (key : gostring) : option (gostring * gostring) :=
  if negb (has_prefix key (bs "huggingface/")) then None else
  let rest := trim_prefix key (bs "huggingface/") in
  let queryParts := parts_of rest in
  let query := has_prefix rest (bs "__query__/") && (4 <=? length queryParts)%nat
               && (named (part queryParts 1) "artifact" || named (part queryParts 1) "metadata") && isLowerHexSHA256 (part queryParts 2) in
  if query && negb (named (part queryParts 1) "artifact") then None else
  let parts := if query then parts_of (joined (drop 3 queryParts)) else queryParts in
  if named (part parts 0) "api" then None else
  let maxRepoSegments := Nat.min (if named (part parts 0) "datasets" then 3 else 2) (length parts - 1) in
  match last_index_from (fun p => named p "resolve" || named p "raw") parts maxRepoSegments with
  | None => None
  | Some i =>
    if (length parts <=? i + 2)%nat || named (part parts (i + 1)) "" || named (joined (drop (i + 2) parts)) "" then None else
    match mapM decoded_component (take i parts), decoded_component (part parts (i + 1)) with
    | Some repoParts, Some decodedRef =>
      let repo := joined repoParts in if named repo "" then None else Some (repo, decodedRef)
    | _, _ => None
    end
  end.

Definition parseHuggingFaceMetadataKey (key : gostring) : option gostring :=
  if negb (has_prefix key (bs "huggingface/")) then None else
  let rest := trim_prefix key (bs "huggingface/") in
  let queryParts := parts_of rest in
  let query := has_prefix rest (bs "__query__/") in
  if query && ((length queryParts <? 4)%nat || negb (named (part queryParts 1) "metadata") || negb (isLowerHexSHA256 (part queryParts 2)))
  then None else
  let parts := if query then parts_of (joined (drop 3 queryParts)) else queryParts in
  if (length parts <? 3)%nat || negb (named (part parts 0) "api") || negb (named (part parts 1) "models" || named (part parts 1) "datasets")
  then None else
  match mapM decoded_component (drop 2 parts) with
  | None => None
  | Some decoded =>
    let n := length decoded in
    let repoParts :=
      match last_index_from (fun p => named p "tree" || named p "revision") decoded (Nat.min 2 (n - 2)) with
      | None => if (n <? 1)%nat || (2 <? n)%nat then None else Some decoded
      | Some splitAt =>
        if (n <=? splitAt + 1)%nat then None
        else if named (part decoded splitAt) "revision" && negb (Nat.eqb (splitAt + 2) n) then None
        else Some (take splitAt decoded)
      end in
    match repoParts with
    | None => None
    | Some repoParts =>
      let repo := joined repoParts in
      let repo := if named (part parts 1) "datasets" then bs "datasets/" ++ repo else repo in
      if named repo "" then None else Some repo
    end
  end.

(** ** [ExtractName] *)

Definition NPMExactIdentityCachePrefix : gostring := bs "npm-exact-v1/".

Definition pypi_name (key : gostring) : gostring :=
  if has_prefix key (bs "pypi/simple/") then part (split_n 2 (trim_prefix key (bs "pypi/simple/")) (ch "/")) 0
  else if has_prefix key (bs "pypi/files/") then (ParsePypiFilename (base_of (trim_prefix key (bs "pypi/files/")))).1
  else [].

Definition apt_name (key : gostring) : gostring :=
  if (trimDebianPackageExtension key).2 then
    let fname := base_of key in match index_byte fname (ch "_") with Some (S _ as idx) => take idx fname | _ => fname end
  else [].

Definition npm_name (key : gostring) : gostring :=
  let trimmed :=
    if has_prefix key NPMExactIdentityCachePrefix then Some (trim_prefix key NPMExactIdentityCachePrefix)
    else if has_prefix key (bs "npm/") then Some (trim_prefix key (bs "npm/")) else None in
  match trimmed with
  | None => []
  | Some trimmed =>
    if has_prefix trimmed (bs "@") then
      let parts := split_n 3 trimmed (ch "/") in
      if (2 <=? length parts)%nat then part parts 0 ++ bs "/" ++ part parts 1 else []
    else part (split_n 2 trimmed (ch "/")) 0
  end.

Definition go_name (key : gostring) : gostring :=
  if negb (has_prefix key (bs "go/")) then [] else
  let trimmed := trim_prefix key (bs "go/") in
  let escaped :=
    match index_of trimmed (bs "/@v/") with
    | Some (S _ as idx) => take idx trimmed
    | _ => match index_of trimmed (bs "/@latest") with Some (S _ as idx) => take idx trimmed | _ => [] end
    end in
  if named escaped "" then [] else match DecodeProxyPath escaped with Ok modulePath => modulePath | Err _ => [] end.

Definition cargo_name (key : gostring) : gostring :=
  if has_prefix key (bs "cargo/crates/") then
    match parts_of (trim_prefix key (bs "cargo/crates/")) with
    | [name; file] =>
      if negb (named name "") && has_suffix file (bs ".crate") && negb (named (trim_suffix file (bs ".crate")) "") then name else []
    | _ => []
    end
  else [].

Definition rubygems_name (key : gostring) : gostring :=
  let trimmed := trim_prefix key (bs "rubygems/") in
  if has_prefix trimmed (bs "gems/") then
    let fname := trim_prefix trimmed (bs "gems/") in
    match last_index_byte fname (ch "-") with Some (S _ as idx) => take idx fname | _ => trim_suffix fname (bs ".gem") end
  else if has_prefix trimmed (bs "info/") then trim_prefix trimmed (bs "info/") else [].

Definition conda_name (key : gostring) : gostring :=
  let fname := base_of (trim_prefix key (bs "conda/")) in
  let base :=
    if has_suffix fname (bs ".tar.bz2") then Some (trim_suffix fname (bs ".tar.bz2"))
    else if has_suffix fname (bs ".conda") then Some (trim_suffix fname (bs ".conda")) else None in
  match base with
  | None => fname
  | Some fname => match index_byte fname (ch "-") with Some (S _ as idx) => take idx fname | _ => fname end
  end.

Definition alpine_name (key : gostring) : gostring :=
  if negb (has_suffix key (bs ".apk")) then [] else
  let fname := trim_suffix (base_of key) (bs ".apk") in
  match first_dash head_digit fname with Some (name, _) => name | None => fname end.

Definition nuget_name (key : gostring) : gostring :=
  let trimmed := trim_prefix key (bs "nuget/") in
  let id := (ParseNugetPath trimmed).1 in
  if negb (named id "") then id
  else if has_prefix trimmed (bs "v3/package/") then part (split_n 2 (trim_prefix trimmed (bs "v3/package/")) (ch "/")) 0
  else if has_prefix trimmed (bs "v3/registration/") then part (split_n 2 (trim_prefix trimmed (bs "v3/registration/")) (ch "/")) 0
  else [].

Definition helm_name (key : gostring) : gostring :=
  let trimmed := trim_prefix key (bs "helm/") in
  if negb (has_suffix trimmed (bs ".tgz")) then [] else
  let fname := match last_index_byte trimmed (ch "/") with Some idx => drop (S idx) trimmed | None => trimmed end in
  let fname := trim_suffix fname (bs ".tgz") in
  match last_dash head_digit fname with Some (name, _) => name | None => fname end.

Definition docker_name (key : gostring) : gostring :=
  match cut_around key (bs "/manifests/") with
  | Some (_, image) => match last_index_byte image (ch "/") with Some (S _ as idx) => take idx image | _ => image end
  | None => match cut_around key (bs "/tags/") with Some (_, rest) => trim_suffix rest (bs "/list") | None => [] end
  end.

Definition huggingface_name (key : gostring) : gostring :=
  match parseHuggingFaceFileKey key with
  | Some (repo, _) => repo
  | None => default [] (parseHuggingFaceMetadataKey key)
  end.

Definition ExtractName (adapterType key : gostring) : gostring :=
  if named adapterType "pypi" then pypi_name key
  else if named adapterType "apt" then apt_name key
  else if named adapterType "npm" then npm_name key
  else if named adapterType "go" then go_name key
  else if named adapterType "cargo" then cargo_name key
  else if named adapterType "maven" then
    if has_prefix key (bs "maven/") then (ParseMavenPath (trim_prefix key (bs "maven/"))).1 else []
  else if named adapterType "rubygems" then rubygems_name key
  else if named adapterType "composer" then
    if has_prefix key (bs "composer/") then default [] (ParseComposerPath (trim_prefix key (bs "composer/"))) else []
  else if named adapterType "conda" then conda_name key
  else if named adapterType "cran" then
    if has_prefix key (bs "cran/") then (ParseCranPath (trim_prefix key (bs "cran/"))).1 else []
  else if named adapterType "alpine" then alpine_name key
  else if named adapterType "nuget" then nuget_name key
  else if named adapterType "helm" then helm_name key
  else if named adapterType "docker" then docker_name key
  else if named adapterType "huggingface" then huggingface_name key
  else [].

(** ** [ExtractVersion] *)

Definition trim_suffixes (s : gostring) (suffixes : list string) : gostring := fold_left (fun s x => trim_suffix s (bs x)) suffixes s.

(** [strings.SplitN(fname, "-", 3)[1]] *)
Definition second_of (fname : gostring) (c : Z) : gostring := part (split_n 3 fname c) 1.

Definition after_last_dash (fname : gostring) : gostring :=
  match last_index_byte fname (ch "-") with Some (S _ as idx) => drop (S idx) fname | _ => [] end.

Definition apt_version (key : gostring) : gostring :=
  let '(trimmed, ok) := trimDebianPackageExtension key in
  if negb ok then [] else
  let fname := trim_suffix trimmed (bs "/") in
  let fname := match last_index_byte fname (ch "/") with Some slash => drop (S slash) fname | None => fname end in
  second_of fname (ch "_").

Definition go_version (key : gostring) : gostring :=
  match index_of key (bs "/@v/") with
  | Some (S _ as idx) =>
    let escapedVersion := trim_suffixes (drop (idx + 4) key) [".zip"; ".mod"; ".info"]%string in
    match DecodeProxyVersion escapedVersion with Ok version => version | Err _ => [] end
  | _ => []
  end.

Definition maven_version (key : gostring) : gostring :=
  let parts := parts_of (trim_prefix key (bs "maven/")) in if (3 <=? length parts)%nat then part_from_end parts 1 else [].

(** The part two after the first "package" that has one. *)
Fixpoint after_package (parts : list gostring) : gostring :=
  match parts with
  | p :: rest => if named p "package" && (2 <=? length rest)%nat then part rest 1 else after_package rest
  | [] => []
  end.

Definition nuget_version (key : gostring) : gostring :=
  let trimmed := trim_prefix key (bs "nuget/") in
  let version := (ParseNugetPath trimmed).2 in
  if negb (named version "") then version else
  let parts := parts_of trimmed in
  if (3 <=? length parts)%nat && has_prefix (part parts 0) (bs "v3/package") then part parts 2 else after_package parts.

Definition docker_version (key : gostring) : gostring :=
  match cut_around key (bs "/manifests/") with
  | Some (_, rest) => match last_index_byte rest (ch "/") with Some (S _ as idx) => drop (S idx) rest | _ => [] end
  | None => []
  end.

Definition ExtractVersion (adapterType key : gostring) : gostring :=
  if named adapterType "pypi" then
    if has_prefix key (bs "pypi/files/") then second_of (trim_suffixes (base_of key) [".whl"; ".tar.gz"; ".zip"; ".egg"]%string) (ch "-") else []
  else if named adapterType "npm" then
    if has_suffix key (bs ".tgz") then after_last_dash (trim_suffix (base_of key) (bs ".tgz")) else []
  else if named adapterType "go" then go_version key
  else if named adapterType "cargo" then if has_suffix key (bs ".crate") then trim_suffix (base_of key) (bs ".crate") else []
  else if named adapterType "apt" then apt_version key
  else if named adapterType "maven" then maven_version key
  else if named adapterType "rubygems" then
    if has_suffix key (bs ".gem") then after_last_dash (trim_suffix (base_of key) (bs ".gem")) else []
  else if named adapterType "alpine" then
    if has_suffix key (bs ".apk") then
      match first_dash head_digit (trim_suffix (base_of key) (bs ".apk")) with Some (_, version) => version | None => [] end else []
  else if named adapterType "nuget" then nuget_version key
  else if named adapterType "conda" then second_of (trim_suffixes (base_of key) [".tar.bz2"; ".conda"]%string) (ch "-")
  else if named adapterType "cran" then
    let fname := trim_suffixes (base_of key) [".tar.gz"; ".zip"; ".tgz"]%string in
    match index_byte fname (ch "_") with Some (S _ as idx) => drop (S idx) fname | _ => [] end
  else if named adapterType "helm" then
    if has_suffix key (bs ".tgz") then
      match last_dash head_digit (trim_suffix (base_of key) (bs ".tgz")) with Some (_, version) => version | None => [] end else []
  else if named adapterType "docker" then docker_version key
  else if named adapterType "huggingface" then match parseHuggingFaceFileKey key with Some (_, ref) => ref | None => [] end
  else [].

(** ** classify.go *)

Definition maven_sidecars : list string := [".asc"; ".md5"; ".sha1"; ".sha256"; ".sha512"]%string.

Definition IsPackageFile (adapterType key : gostring) : bool :=
  if named adapterType "pypi" then has_prefix key (bs "pypi/files/")
  else if named adapterType "npm" then has_suffix key (bs ".tgz")
  else if named adapterType "go" then has_suffix key (bs ".zip")
  else if named adapterType "cargo" then has_suffix key (bs ".crate")
  else if named adapterType "apt" then (trimDebianPackageExtension key).2
  else if named adapterType "maven" then
    if has_any_suffix (to_lower key) maven_sidecars then false else
    let '(coordinate, version) := ParseMavenPath (trim_prefix key (bs "maven/")) in negb (named coordinate "") && negb (named version "")
  else if named adapterType "rubygems" then has_suffix key (bs ".gem")
  else if named adapterType "composer" then has_suffix key (bs ".zip")
  else if named adapterType "nuget" then has_suffix key (bs ".nupkg")
  else if named adapterType "conda" then has_suffix key (bs ".tar.bz2") || has_suffix key (bs ".conda")
  else if named adapterType "cran" then has_any_suffix key [".tar.gz"; ".zip"; ".tgz"]%string
  else if named adapterType "alpine" then has_suffix key (bs ".apk")
  else if named adapterType "helm" then has_suffix key (bs ".tgz")
  else if named adapterType "docker" then contains key (bs "/blobs/") || contains key (bs "/manifests/")
  else if named adapterType "huggingface" then match parseHuggingFaceFileKey key with Some _ => true | None => false end
  else false.

(** ** cache_kind.go *)

Definition CacheKindMetadata : gostring := bs "metadata".
Definition CacheKindArtifact : gostring := bs "artifact".

Definition huggingFaceMetadataKey (key : gostring) : bool :=
  if negb (has_prefix key (bs "huggingface/")) then false else
  let parts := parts_of (trim_prefix key (bs "huggingface/")) in
  if (4 <=? length parts)%nat && named (part parts 0) "__query__" && isLowerHexSHA256 (part parts 2) then named (part parts 1) "metadata"
  else (3 <=? length parts)%nat && named (part parts 0) "api" && (named (part parts 1) "models" || named (part parts 1) "datasets").

Definition dockerTaggedManifestKey (key : gostring) : bool :=
  match cut_around key (bs "/manifests/") with
  | None => false
  | Some (_, rest) =>
    let rest := trim_prefix rest (bs "/") in
    match last_index_byte rest (ch "/") with
    | None => false
    | Some lastSlash =>
      if Nat.eqb lastSlash (length rest - 1) then false else negb (has_prefix (drop (S lastSlash) rest) (bs "sha256__"))
    end
  end.

Definition mutable_key (adapterType key : gostring) : bool :=
  if named adapterType "relay" then has_prefix key (bs "relay-v1/index/")
  else if contains key (bs "/simple/") && has_suffix key (bs "/index.html") then true
  else if named adapterType "npm" then has_suffix key (bs "/metadata.json")
  else if named adapterType "apt" then
    has_any_suffix key ["inrelease"; "release"; "release.gpg"; "packages"; "packages.gz"; "packages.xz"; "packages.bz2";
                        "sources"; "sources.gz"; "sources.xz"]%string
  else if named adapterType "go" then has_suffix key (bs "/@v/list") || has_suffix key (bs "/@latest")
  else if named adapterType "cargo" then named key "cargo/config.json" || has_prefix key (bs "cargo/index/")
  else if named adapterType "maven" then has_suffix key (bs "maven-metadata.xml") || contains key (bs "-snapshot")
  else if named adapterType "rubygems" then
    negb (contains key (bs "/gems/") && has_suffix key (bs ".gem")) && negb (contains key (bs "/quick/") && has_suffix key (bs ".gemspec.rz"))
  else if named adapterType "composer" then named key "composer/packages.json" || has_prefix key (bs "composer/p2/")
  else if named adapterType "nuget" then negb (has_suffix key (bs ".nupkg"))
  else if named adapterType "conda" then negb (has_suffix key (bs ".tar.bz2")) && negb (has_suffix key (bs ".conda"))
  else if named adapterType "cran" then negb (has_any_suffix key [".tar.gz"; ".zip"; ".tgz"]%string)
  else if named adapterType "alpine" then has_any_suffix key ["apkindex.tar.gz"; "/apkindex"; ".txt"]%string
  else if named adapterType "helm" then negb (has_suffix key (bs ".tgz"))
  else if named adapterType "docker" then contains key (bs "/tags/") || dockerTaggedManifestKey key
  else false.

Definition ClassifyCacheKind (adapterType key : gostring) : gostring :=
  let adapterType := to_lower adapterType in
  if named adapterType "huggingface" then if huggingFaceMetadataKey key then CacheKindMetadata else CacheKindArtifact
  else if mutable_key adapterType (to_lower key) then CacheKindMetadata else CacheKindArtifact.

End keys.
