(* ===== verification/RequestTarget.v ===== *)
(** * The package a request is for (internal/rules/request_target.go)

    From the path of a request to the identity the package rules are asked about, before
    any adapter runs. *)

From S2P Require Export Middleware KeyIdentity.

(** ** Paths *)

Fixpoint trim_left_byte (s : gostring) (c : Z) : gostring :=
  match s with a :: rest => if a =? c then trim_left_byte rest c else s | [] => [] end.
Definition trim_right_byte (s : gostring) (c : Z) : gostring := rev (trim_left_byte (rev s) c).

(** [strings.Trim] of one byte. *)
Definition trim_byte (s : gostring) (c : Z) : gostring := trim_right_byte (trim_left_byte s c) c.



(** ** Channels of a channel-family index (internal/adapter/pypi/channel_family.go) *)




Record PyPIRouteDescriptor := { pr_path : gostring; pr_channelFamily : bool }.

Section targets.
Context `{UnicodeTables} `{EnglishLower} `{ModulePackage}.

Definition validConfiguredRoutePath (value : gostring) : bool :=
  negb (named value "") && str_eqb value (trim_byte value (ch "/"))
  && forallb (fun segment => negb (dots segment) && forallb (fun c => is_alnum c || mem c (bs "._-")) (runes segment)) (parts_of value).

Definition NewPyPIRouteDescriptor (configuredPath : gostring) (channelFamily : bool) : result PyPIRouteDescriptor :=
  if negb (validConfiguredRoutePath configuredPath) then fail "invalid configured PyPI route %q"
  else Ok {| pr_path := bs "/" ++ configuredPath; pr_channelFamily := channelFamily |}.



(** ** Targets *)



(** ** Ecosystems *)
















End targets.

(** * Theory of request targets (RequestTarget.v)

    Artifact URLs say which release they are for, below the route of their ecosystem and
    below every project alike. *)

(** ** Strings *)





Lemma named_false s t : named s t = false <-> s <> bs t.
Proof. apply str_eqb_neq. Qed.

(** A path component: not empty, without a slash. *)
Definition component (s : gostring) : Prop := s <> [] /\ ch "/" ∉ s.








(** ** Routes *)








(** ** Artifact paths *)







Lemma component_not_dots s : component s -> s <> bs "." -> s <> bs ".." -> dots s = false.
Proof. intros [Hne _] H1 H2. unfold dots. rewrite !orb_false_iff, !named_false. split_and!; done. Qed.



Section urls.
Context `{UnicodeTables} `{EnglishLower} `{ModulePackage}.












(** *** PyPI files *)






(** *** Composer dists *)


End urls.

(** ** Which release an artifact URL is for

    The paths below the route of an ecosystem at which its clients ask for artifacts, as
    the protocols define them. *)

Section identified.
Context `{UnicodeTables} `{EnglishLower} `{ModulePackage}.











(** ** What extraction gives *)








(** ** Properties *)



End identified.

(** ** Witnesses *)

Section witnesses.
#[local] Existing Instance ascii_tables.
#[local] Existing Instance permissive_modules.
#[local] Existing Instance ascii_lower.



End witnesses.
