(* ===== verification/ResponseMetadata.v ===== *)
(** * Representation metadata (internal/cache/response_metadata.go)

    Which headers of an upstream response a cache row keeps, how they are written into its
    [response_headers] column, and how they are read back with every hit. *)

From stdpp Require Import gmap sorting.
From S2P Require Export Http Json Url.

Definition maxResponseMetadataValueBytes : Z := 8192.
Definition maxResponseMetadataValuesPerHeader : nat := 16.
Definition maxEncodedResponseMetadataBytes : Z := 32768.

(** [responseMetadataHeaderOrder]; the allowlist has the same names. *)
Definition responseMetadataHeaderOrder : list gostring :=
  [bs "Etag"; bs "Last-Modified"; bs "Content-Encoding"; bs "Content-Language"; bs "Content-Range"; bs "Link"; bs "X-Repo-Commit";
   bs "X-Linked-Etag"; bs "X-Linked-Size"; bs "Docker-Content-Digest"; bs "Digest"; bs "X-Checksum-Sha256"; bs "X-Checksum-Sha512";
   bs "X-Checksum-Sha1"; bs "X-Checksum-Md5"; bs "Accept-Ranges"; bs "Content-Disposition"].

Definition responseMetadataHeaderAllowlist : list gostring :=
  [bs "Accept-Ranges"; bs "Content-Disposition"; bs "Content-Encoding"; bs "Content-Language"; bs "Content-Range"; bs "Digest";
   bs "Docker-Content-Digest"; bs "Etag"; bs "Last-Modified"; bs "Link"; bs "X-Checksum-Md5"; bs "X-Checksum-Sha1";
   bs "X-Checksum-Sha256"; bs "X-Checksum-Sha512"; bs "X-Linked-Etag"; bs "X-Linked-Size"; bs "X-Repo-Commit"].

Definition entry_le (p q : gostring * list gostring) : Prop := bytes_le p.1 q.1.
#[global] Instance entry_le_dec : RelDecision entry_le.
Proof. intros p q. apply bytes_le_dec. Defined.

Definition sorted_entries (h : http_header) : list (gostring * list gostring) := merge_sort entry_le (map_to_list h).

Section metadata.
Context `{UnicodeTables}.

(** ** Links *)

(** [safeLocalLinkValue] from the cursor on. *)
Fixpoint safe_links (fuel : nat) (value : gostring) (found : bool) : bool :=
  match fuel with
  | O => found
  | S fuel =>
    match index_byte value (ch "<") with
    | None => found
    | Some open =>
      let rest := drop (S open) value in
      match index_byte rest (ch ">") with
      | None => false
      | Some close =>
        match Parse (take close rest) with
        | Err _ => false
        | Ok target =>
          if IsAbs target || negb (str_eqb (u_Host target) []) || negb (has_prefix (u_Path target) (bs "/huggingface"))
             || match drop 12 (u_Path target) with c :: _ => negb (c =? ch "/") | [] => false end
          then false
          else safe_links fuel (drop (S close) rest) true
        end
      end
    end
  end.

(** Every link takes two bytes at least. *)
Definition safeLocalLinkValue (value : gostring) : bool :=
  if len value >? maxResponseMetadataValueBytes then false else safe_links (S (length value)) value false.

(** ** Sanitizing *)

Definition nominated (entries : list (gostring * list gostring)) : list gostring :=
  concat ((fun entry => if str_eqb (CanonicalHeaderKey entry.1) (bs "Connection")
                        then filter (fun name => name <> []) ((fun name => CanonicalHeaderKey (trim_space name)) <$> concat ((fun v => strings_split v (ch ",")) <$> entry.2))
                        else []) <$> entries).

Definition admissible (key value : gostring) : bool :=
  negb ((len value >? maxResponseMetadataValueBytes) || contains_any value [13; 10])
  && negb (str_eqb key (bs "Link") && negb (safeLocalLinkValue value)).

Definition add_candidate (key : gostring) (candidates : http_header) (value : gostring) : http_header :=
  let have := default [] (candidates !! key) in
  if (maxResponseMetadataValuesPerHeader <=? length have)%nat then candidates
  else if admissible key value then <[key := have ++ [value]]> candidates else candidates.

Definition add_entry (hopByHop : list gostring) (candidates : http_header) (entry : gostring * list gostring) : http_header :=
  let key := CanonicalHeaderKey entry.1 in
  if bool_decide (key ∈ responseMetadataHeaderAllowlist) && negb (bool_decide (key ∈ hopByHop))
  then fold_left (add_candidate key) entry.2 candidates else candidates.

Definition responseMetadataEncodedSizeAfterAppend (headers : http_header) (key value : gostring) (current : Z) : Z :=
  match default [] (headers !! key) with
  | _ :: _ => current + 1 + len (json_string value)
  | [] => current + (if bool_decide (headers = ∅) then 0 else 1) + len (json_string key) + 1 + 1 + len (json_string value) + 1
  end.

(** One value of one header, under the budget. *)
Definition admit_value (candidates : http_header) (valueIndex : nat) (state : http_header * Z) (key : gostring) : http_header * Z :=
  let '(safe, encodedSize) := state in
  match default [] (candidates !! key) !! valueIndex with
  | None => state
  | Some value =>
    let nextSize := responseMetadataEncodedSizeAfterAppend safe key value encodedSize in
    if nextSize >? maxEncodedResponseMetadataBytes then state
    else (<[key := default [] (safe !! key) ++ [value]]> safe, nextSize)
  end.

Definition admit_round (candidates : http_header) (state : http_header * Z) (valueIndex : nat) : http_header * Z :=
  fold_left (admit_value candidates valueIndex) responseMetadataHeaderOrder state.

Definition candidates_of (headers : http_header) : http_header :=
  let entries := sorted_entries headers in fold_left (add_entry (nominated entries)) entries ∅.

Definition sanitizeResponseMetadata (headers : http_header) : http_header :=
  (fold_left (admit_round (candidates_of headers)) (seq 0 maxResponseMetadataValuesPerHeader) (∅, 2)).1.

Definition cloneResponseMetadata (headers : http_header) : http_header := sanitizeResponseMetadata headers.

(** [WithResponseMetadata] of a body that carries [merged] metadata already. *)
Definition WithResponseMetadata (merged headers : http_header) : http_header :=
  sanitizeResponseMetadata (sanitizeResponseMetadata headers ∪ cloneResponseMetadata merged).

(** ** The column *)

Fixpoint json_list {A} (render : A -> gostring) (l : list A) : gostring :=
  match l with
  | [] => []
  | [a] => render a
  | a :: l => render a ++ ch "," :: json_list render l
  end.

Definition json_strings (values : list gostring) : gostring := ch "[" :: json_list json_string values ++ [ch "]"].

(** [json.Marshal] of a header: the keys in their order. *)
Definition json_header (h : http_header) : gostring :=
  ch "{" :: json_list (fun entry => json_string entry.1 ++ ch ":" :: json_strings entry.2) (sorted_entries h) ++ [ch "}"].

Definition encodeResponseMetadata (headers : http_header) : gostring :=
  let safe := sanitizeResponseMetadata headers in
  if bool_decide (safe = ∅) then [] else
  let encoded := json_header safe in
  if len encoded >? maxEncodedResponseMetadataBytes then [] else encoded.

(** *** [json.Unmarshal] into a header

    Anything but an object of arrays of strings is an error, of syntax or of type. *)

Definition json_space (c : Z) : bool := (c =? 32) || in_range 9 10 c || (c =? 13).

Fixpoint skip_space (s : gostring) : gostring :=
  match s with
  | c :: s' => if json_space c then skip_space s' else s
  | [] => []
  end.

Definition hex_digit_value (c : Z) : option Z :=
  if in_range 48 57 c then Some (c - 48) else if in_range 97 102 c then Some (c - 87) else if in_range 65 70 c then Some (c - 55) else None.

Definition hex4 (s : gostring) : option (Z * gostring) :=
  match s with
  | a :: b :: c :: d :: s =>
    match hex_digit_value a, hex_digit_value b, hex_digit_value c, hex_digit_value d with
    | Some a, Some b, Some c, Some d => Some (((a * 16 + b) * 16 + c) * 16 + d, s)
    | _, _, _, _ => None
    end
  | _ => None
  end.

(** A surrogate and, after it, the escape of its other half. *)
Definition surrogate_pair (r : Z) (s : gostring) : option (Z * gostring) :=
  match s with
  | b :: u :: s =>
    if (b =? backslash) && (u =? ch "u") && in_range 0xD800 0xDBFF r then
      match hex4 s with
      | Some (r', s) => if in_range 0xDC00 0xDFFF r' then Some (0x10000 + Z.shiftl (r - 0xD800) 10 + (r' - 0xDC00), s) else None
      | None => None
      end
    else None
  | _ => None
  end.

(** The rest of a string after its opening quote; every step takes a byte. *)
Fixpoint json_text (fuel : nat) (s : gostring) : option (gostring * gostring) :=
  match fuel, s with
  | S fuel, c :: s1 =>
    let more (text rest : gostring) := option_map (fun p => (text ++ p.1, p.2)) (json_text fuel rest) in
    if c =? quote then Some ([], s1)
    else if c <? 0x20 then None
    else if c =? backslash then
      match s1 with
      | [] => None
      | d :: s2 =>
        if d =? ch "u" then
          match hex4 s2 with
          | None => None
          | Some (r, s3) =>
            match surrogate_pair r s3 with
            | Some (r, s4) => more (utf8_encode r) s4
            | None => more (utf8_encode r) s3
            end
          end
        else if mem d [quote; backslash; ch "/"] then more [d] s2
        else if mem d (bs "bfnrt") then more [short_escape d] s2
        else None
      end
    else let '(r, w) := decode_rune s in more (utf8_encode r) (drop w s)
  | _, _ => None
  end.

Definition json_string_of (s : gostring) : option (gostring * gostring) :=
  match s with
  | c :: s => if c =? quote then json_text (length s) s else None
  | [] => None
  end.

(** A literal [null], which leaves a string empty and a slice nil. *)
Definition json_null (s : gostring) : option gostring := if has_prefix s (bs "null") then Some (drop 4 s) else None.

(** Elements up to the closing byte, separated by commas; [s] is after white space. *)
Fixpoint json_elements {A} (fuel : nat) (element : gostring -> option (A * gostring)) (closing : Z) (s : gostring) : option (list A * gostring) :=
  match fuel with
  | O => None
  | S fuel =>
    match element s with
    | None => None
    | Some (a, rest) =>
      match skip_space rest with
      | c :: rest =>
        if c =? closing then Some ([a], rest)
        else if c =? ch "," then option_map (fun p => (a :: p.1, p.2)) (json_elements fuel element closing (skip_space rest))
        else None
      | [] => None
      end
    end
  end.

Definition json_sequence {A} (opening closing : Z) (element : gostring -> option (A * gostring)) (s : gostring) : option (list A * gostring) :=
  match s with
  | c :: s =>
    if c =? opening then
      match skip_space s with
      | d :: rest => if d =? closing then Some ([], rest) else json_elements (length s) element closing (d :: rest)
      | [] => None
      end
    else None
  | [] => None
  end.

Definition json_element (s : gostring) : option (gostring * gostring) :=
  match json_null s with Some rest => Some ([], rest) | None => json_string_of s end.

Definition json_array (s : gostring) : option (list gostring * gostring) :=
  match json_null s with Some rest => Some ([], rest) | None => json_sequence (ch "[") (ch "]") json_element s end.

Definition json_member (s : gostring) : option ((gostring * list gostring) * gostring) :=
  match json_string_of s with
  | None => None
  | Some (key, rest) =>
    match skip_space rest with
    | c :: rest => if c =? ch ":" then option_map (fun p => ((key, p.1), p.2)) (json_array (skip_space rest)) else None
    | [] => None
    end
  end.

(** Later members replace earlier ones of their key. *)
Definition json_unmarshal_header (s : gostring) : option http_header :=
  let s := skip_space s in
  let parsed := match json_null s with
    | Some rest => Some ([], rest)
    | None => json_sequence (ch "{") (ch "}") json_member s
    end in
  match parsed with
  | Some (members, rest) => match skip_space rest with [] => Some (list_to_map (rev members)) | _ => None end
  | None => None
  end.

Definition decodeResponseMetadata (encoded : gostring) : http_header :=
  if bool_decide (encoded = []) || (len encoded >? maxEncodedResponseMetadataBytes) then ∅ else
  match json_unmarshal_header encoded with
  | None => ∅
  | Some headers => sanitizeResponseMetadata headers
  end.

Definition decodeStoredResponseMetadata (encoded etag lastModified : gostring) : http_header :=
  let headers := decodeResponseMetadata encoded in
  let headers := if bool_decide (header_Get headers (bs "ETag") = []) && negb (bool_decide (etag = []))
                 then header_Set headers (bs "ETag") etag else headers in
  let headers := if bool_decide (header_Get headers (bs "Last-Modified") = []) && negb (bool_decide (lastModified = []))
                 then header_Set headers (bs "Last-Modified") lastModified else headers in
  sanitizeResponseMetadata headers.

End metadata.

(** * Theory of representation metadata (ResponseMetadata.v)

    Sanitized headers are bounded and sanitizing them again changes nothing; what the
    column of a row keeps of them is read back with every hit. *)

(** ** The size of the column *)

Definition entry_size (entry : gostring * list gostring) : nat := length (json_string entry.1) + 1 + length (json_strings entry.2).

Definition encoded_size (h : http_header) : nat := 2 + sum_list_with entry_size (map_to_list h) + (size h - 1).

Lemma length_json_list {A} (render : A -> gostring) (l : list A) :
  length (json_list render l) = (sum_list_with (fun a => length (render a)) l + (length l - 1))%nat.
Proof.
  induction l as [|a [|b l] IH]; [done|cbn; lia|].
  change (json_list render (a :: b :: l)) with (render a ++ ch "," :: json_list render (b :: l)).
  rewrite length_app. cbn [length]. rewrite IH. cbn [sum_list_with length]. lia.
Qed.

Lemma length_json_strings values :
  length (json_strings values) = (2 + sum_list_with (fun v => length (json_string v)) values + (length values - 1))%nat.
Proof. unfold json_strings. cbn [length]. rewrite length_app, length_json_list. cbn [length]. lia. Qed.

Lemma length_json_header h : length (json_header h) = encoded_size h.
Proof.
  unfold json_header, encoded_size, sorted_entries, http_header in *. cbn [length]. rewrite length_app, length_json_list. cbn [length].
  pose proof (merge_sort_Permutation entry_le (map_to_list h)) as Hp. rewrite (Permutation_length Hp), length_map_to_list.
  assert (forall l : list (gostring * list gostring),
            sum_list_with (fun e => length (json_string e.1 ++ ch ":" :: json_strings e.2)) l = sum_list_with entry_size l) as ->.
  { intros l. induction l as [|e l IH]; [done|]. cbn [sum_list_with]. rewrite IH, length_app. cbn [length]. unfold entry_size. lia. }
  rewrite Hp. lia.
Qed.

Lemma encoded_size_insert_fresh (h : http_header) key values :
  h !! key = None -> encoded_size (<[key := values]> h) = (encoded_size h + entry_size (key, values) + (if decide (h = ∅) then 0 else 1))%nat.
Proof.
  intros Hk. unfold encoded_size, http_header in *. rewrite (map_to_list_insert h key values Hk). cbn [sum_list_with].
  rewrite map_size_insert_None by done. case_decide as He; [subst h; rewrite map_size_empty; lia|].
  assert (size h <> 0)%nat by (by intros ?%map_size_empty_inv). lia.
Qed.

(** [responseMetadataEncodedSizeAfterAppend] keeps the size of the column. *)
Lemma size_after_append (h : http_header) key value :
  map_Forall (fun _ values => values <> []) h ->
  responseMetadataEncodedSizeAfterAppend h key value (Z.of_nat (encoded_size h))
  = Z.of_nat (encoded_size (<[key := default [] (h !! key) ++ [value]]> h)).
Proof.
  unfold responseMetadataEncodedSizeAfterAppend, len, http_header in *. intros Hne.
  destruct (h !! key) as [values|] eqn:Hk.
  - pose proof (Hne key values Hk) as Hv. destruct values as [|v values]; [done|].
    set (d := delete key h). assert (d !! key = None) as Hd by apply lookup_delete_eq.
    assert (h = <[key := v :: values]> d) as Hh by (symmetry; by apply insert_delete_id).
    clearbody d. subst h. rewrite insert_insert_eq.
    rewrite !encoded_size_insert_fresh by done. unfold entry_size. cbn [fst snd]. rewrite !length_json_strings.
    rewrite sum_list_with_app, length_app.
    cbn [default from_option id sum_list_with length]. destruct (decide (d = ∅)); lia.
  - rewrite encoded_size_insert_fresh by done. unfold entry_size. cbn [fst snd app default from_option id]. rewrite length_json_strings. cbn [app sum_list_with length].
    case_decide; [rewrite bool_decide_eq_true_2 by done|rewrite bool_decide_eq_false_2 by done]; lia.
Qed.

(** Less is smaller. *)
Definition begins (h h' : http_header) : Prop := forall key, default [] (h !! key) `prefix_of` default [] (h' !! key).

Lemma entry_size_mono key (l l' : list gostring) : l `prefix_of` l' -> (entry_size (key, l) <= entry_size (key, l'))%nat.
Proof. intros [k ->]. unfold entry_size. cbn [fst snd]. rewrite !length_json_strings, sum_list_with_app, length_app. lia. Qed.

Lemma encoded_size_mono (h h' : http_header) :
  map_Forall (fun _ values => values <> []) h -> begins h h' -> (encoded_size h <= encoded_size h')%nat.
Proof.
  unfold http_header in *. revert h'. induction h as [|key values h Hk IH] using map_ind; intros h' Hne Hb.
  { unfold encoded_size, http_header. rewrite map_to_list_empty, map_size_empty. cbn. lia. }
  pose proof (Hb key) as Hp. unfold http_header in *. rewrite lookup_insert_eq in Hp. cbn [default] in Hp.
  assert (values <> []) as Hv by (apply (Hne key); apply lookup_insert_eq).
  destruct (h' !! key) as [values'|] eqn:Hk'; cbn [default] in Hp; [|destruct Hp as [k Hp]; by destruct values].
  set (d := delete key h'). assert (d !! key = None) as Hd by apply lookup_delete_eq.
  assert (h' = <[key := values']> d) as Hh by (symmetry; by apply insert_delete_id). clearbody d. subst h'.
  rewrite !encoded_size_insert_fresh by done.
  assert (begins h d) as Hbd.
  { intros k. specialize (Hb k). unfold http_header in *. destruct (decide (k = key)) as [->|Hne']; [rewrite Hk; apply prefix_nil|].
    by rewrite !lookup_insert_ne in Hb. }
  assert (map_Forall (fun _ values => values <> []) h) as Hneh by (by apply map_Forall_insert in Hne as [_ ?]).
  specialize (IH d Hneh Hbd). pose proof (entry_size_mono key values values' Hp).
  assert (h <> ∅ -> d <> ∅) as He.
  { intros Hh ->. apply Hh, map_empty. intros k. destruct (h !! k) as [l|] eqn:E; [|done]. specialize (Hbd k). unfold http_header in Hbd. rewrite E, lookup_empty in Hbd.
    destruct Hbd as [r Hr]. cbn in Hr. pose proof (Hneh k l E). by destruct l. }
  repeat case_decide; (lia || (exfalso; by apply He)).
Qed.

(** ** Sanitizing *)

Section sanitized.
Context `{UnicodeTables}.

Definition fits (key : gostring) (values : list gostring) : Prop :=
  key ∈ responseMetadataHeaderOrder /\ values <> [] /\ (length values <= maxResponseMetadataValuesPerHeader)%nat
  /\ Forall (fun v => admissible key v = true) values.

(** What crosses the boundary: allowlisted headers, bounded in all three ways. *)
Definition tidy (h : http_header) : Prop := map_Forall fits h /\ Z.of_nat (encoded_size h) <= maxEncodedResponseMetadataBytes.

Lemma allowlist_order key : key ∈ responseMetadataHeaderAllowlist <-> key ∈ responseMetadataHeaderOrder.
Proof.
  assert (forall (l l' : list gostring), forallb (fun k => bool_decide (k ∈ l')) l = true -> key ∈ l -> key ∈ l') as Hincl.
  { intros l l' Hf Hin. rewrite forallb_forall in Hf. apply list_elem_of_In in Hin. by apply Hf, bool_decide_eq_true in Hin. }
  split; apply Hincl; by vm_compute.
Qed.

Lemma order_canonical key : key ∈ responseMetadataHeaderOrder -> CanonicalHeaderKey key = key /\ key <> bs "Connection".
Proof.
  assert (forallb (fun k => str_eqb (CanonicalHeaderKey k) k && negb (str_eqb k (bs "Connection"))) responseMetadataHeaderOrder = true) as Hall by by vm_compute.
  rewrite forallb_forall in Hall. intros Hin%list_elem_of_In. apply Hall, andb_prop in Hin as [Hc%str_eqb_eq Hn%negb_true_iff%str_eqb_neq]. done.
Qed.

(** *** Candidates *)




Lemma add_candidates (key : gostring) (c : http_header) (values : list gostring) :
  values <> [] -> (length (default [] (c !! key)) + length values <= maxResponseMetadataValuesPerHeader)%nat ->
  Forall (fun v => admissible key v = true) values ->
  fold_left (add_candidate key) values c = <[key := default [] (c !! key) ++ values]> c.
Proof.
  unfold http_header in *. revert c. induction values as [|v values IH]; intros c Hne Hl Ha; [done|]. cbn [fold_left length] in *.
  apply Forall_cons in Ha as [Hv Ha]. unfold add_candidate at 2. unfold http_header in *. rewrite (proj2 (Nat.leb_gt _ _)) by lia. rewrite Hv.
  destruct values as [|v' values]; [done|]. unfold http_header in *. rewrite IH; [|done| |done].
  - rewrite lookup_insert_eq, insert_insert_eq. change (default [] (Some ?l)) with l. by rewrite <- app_assoc.
  - rewrite lookup_insert_eq. change (default [] (Some ?l)) with l. rewrite length_app. cbn [length] in *. lia.
Qed.

Lemma candidates_tidy (h : http_header) : map_Forall fits h -> candidates_of h = h.
Proof.
  intros Hf. unfold candidates_of. pose proof (merge_sort_Permutation entry_le (map_to_list h)) as Hp. fold (sorted_entries h) in Hp.
  assert (NoDup (sorted_entries h).*1) as Hnd by (rewrite Hp; apply NoDup_fst_map_to_list).
  assert (Forall (fun e => fits e.1 e.2) (sorted_entries h)) as Hall.
  { rewrite Hp. apply Forall_forall. intros [key values] Hin%elem_of_map_to_list. by apply (Hf key values). }
  assert (nominated (sorted_entries h) = []) as ->.
  { clear Hnd Hp. unfold nominated. induction Hall as [|e l He _ IH]; [done|]. cbn [fmap list_fmap concat]. rewrite IH, app_nil_r.
    destruct He as [Hk _]. destruct (order_canonical _ Hk) as [-> Hn]. by rewrite (proj2 (str_eqb_neq _ _) Hn). }
  assert (forall (c : http_header) l, NoDup l.*1 -> Forall (fun e => fits e.1 e.2) l -> Forall (fun e => c !! e.1 = None) l ->
            fold_left (add_entry []) l c = list_to_map l ∪ c) as Hfold.
  { clear. unfold http_header. intros c l. revert c. induction l as [|[key values] l IH]; intros c Hnd Hall Hc; cbn [fold_left list_to_map fst snd]; [by rewrite list_to_map_nil, map_empty_union|rewrite list_to_map_cons].
    apply Forall_cons in Hall as [(Hk & Hne & Hlen & Ha) Hall], Hc as [Hkc Hc]. cbn [fst snd fmap list_fmap] in *. apply NoDup_cons in Hnd as [Hnew Hnd].
    assert (add_entry [] c (key, values) = <[key := values]> c) as ->.
    { unfold add_entry. cbn [fst snd]. destruct (order_canonical _ Hk) as [-> _]. rewrite bool_decide_eq_true_2 by by apply allowlist_order.
      rewrite bool_decide_eq_false_2 by apply not_elem_of_nil. cbn [andb negb]. unfold http_header in *. cbn [fst snd] in Hkc. rewrite add_candidates; unfold http_header; [by rewrite Hkc|done|by rewrite Hkc|done]. }
    rewrite IH; [|done|done|].
    - rewrite <- insert_union_r by (apply not_elem_of_list_to_map_1; done). by rewrite insert_union_l.
    - apply Forall_forall. intros e He. rewrite Forall_forall in Hc. rewrite lookup_insert_ne; [by apply Hc|]. intros ->. apply Hnew. by apply list_elem_of_fmap_2. }
  rewrite Hfold; [|done|done|apply Forall_forall; intros; apply lookup_empty].
  unfold http_header in *. rewrite (right_id_L ∅ (∪)). rewrite (list_to_map_proper _ _ Hnd Hp). apply list_to_map_to_list.
Qed.

(** *** Admission *)

Definition values_of (h : http_header) (key : gostring) : list gostring := default [] (h !! key).

(** After some of the turns: [turns key] values of each header have been considered; when all
    fits, all of these are admitted. *)
Record admission (candidates : http_header) (turns : gostring -> nat) (state : http_header * Z) : Prop := {
  ad_size : state.2 = Z.of_nat (encoded_size state.1);
  ad_bound : state.2 <= maxEncodedResponseMetadataBytes;
  ad_nonempty : map_Forall (fun _ values => values <> []) state.1;
  ad_sub key : values_of state.1 key `sublist_of` take (turns key) (values_of candidates key);
  ad_all : Z.of_nat (encoded_size candidates) <= maxEncodedResponseMetadataBytes ->
    forall key, values_of state.1 key = take (turns key) (values_of candidates key);
}.

Lemma values_of_insert h key values k : values_of (<[key := values]> h) k = if decide (key = k) then values else values_of h k.
Proof. unfold values_of, http_header in *. case_decide as E; [subst; by rewrite lookup_insert_eq|by rewrite lookup_insert_ne]. Qed.

Lemma admission_weaken candidates turns turns' state :
  (forall key, take (turns key) (values_of candidates key) = take (turns' key) (values_of candidates key)) ->
  admission candidates turns state -> admission candidates turns' state.
Proof. intros Ht [S B N U A]. split; try done; [intros key; rewrite <- Ht; apply U|intros Hc key; rewrite <- Ht; by apply A]. Qed.

Lemma admit_value_step candidates turns i key state :
  admission candidates turns state -> turns key = i ->
  admission candidates (fun k => if decide (key = k) then S i else turns k) (admit_value candidates i state key).
Proof.
  destruct state as [safe n]. intros [HS HB HN HU HA] Hi. cbn [fst snd] in *. unfold admit_value.
  fold (values_of candidates key). fold (values_of safe key). destruct (values_of candidates key !! i) as [v|] eqn:Hv.
  - pose proof (take_S_r _ _ _ Hv) as Htake. rewrite HS, size_after_append by done. fold (values_of safe key).
    set (safe' := <[key := values_of safe key ++ [v]]> safe). destruct (_ >? _) eqn:E.
    + split; cbn [fst snd]; try done.
      * by rewrite <- HS.
      * intros k. case_decide as Ek; [subst k|apply HU]. rewrite Htake. apply sublist_inserts_r. rewrite <- Hi. apply HU.
      * intros Hc. exfalso. assert (encoded_size safe' <= encoded_size candidates)%nat; [|lia]. apply encoded_size_mono.
        { unfold safe', http_header in *. apply map_Forall_insert_2; [by destruct (values_of safe key)|done]. }
        intros k. fold (values_of safe' k) (values_of candidates k). unfold safe'. rewrite values_of_insert. case_decide as Ek.
        -- subst k. rewrite HA, Hi, <- Htake by done. apply prefix_take.
        -- rewrite HA by done. apply prefix_take.
    + split; cbn [fst snd].
      * done.
      * lia.
      * unfold safe', http_header in *. apply map_Forall_insert_2; [by destruct (values_of safe key)|done].
      * intros k. unfold safe'. rewrite values_of_insert. case_decide as Ek; [subst k|apply HU]. rewrite Htake. apply sublist_app; [rewrite <- Hi; apply HU|done].
      * intros Hc k. unfold safe'. rewrite values_of_insert. case_decide as Ek; [subst k|by apply HA]. rewrite Htake, HA, Hi by done. done.
  - apply (admission_weaken _ turns); [|by split]. intros k. case_decide as Ek; [subst k|done]. rewrite Hi. apply lookup_ge_None_1 in Hv. rewrite !take_ge by lia. done.
Qed.

Lemma admit_round_step candidates i keys state :
  NoDup keys -> admission candidates (fun k => if decide (k ∈ keys) then i else S i) state ->
  admission candidates (fun _ => S i) (fold_left (admit_value candidates i) keys state).
Proof.
  revert state. induction keys as [|key keys IH]; intros state Hnd Ha; cbn [fold_left].
  { eapply admission_weaken; [|exact Ha]. intros k. cbn beta. by rewrite decide_False by apply not_elem_of_nil. }
  apply NoDup_cons in Hnd as [Hnew Hnd]. apply IH; [done|].
  eapply admission_weaken; [|apply admit_value_step; [exact Ha|cbn beta; by rewrite decide_True by apply list_elem_of_here]].
  intros k. cbn beta. case_decide as Ek; [subst k; by rewrite decide_False|]. case_decide as E1; case_decide as E2; try done.
  - apply elem_of_cons in E1 as [->|?]; done.
  - exfalso. apply E1. by apply elem_of_cons; right.
Qed.

Lemma admitted candidates :
  map_Forall (fun key _ => key ∈ responseMetadataHeaderOrder) candidates -> forall n,
  admission candidates (fun _ => n) (fold_left (admit_round candidates) (seq 0 n) (∅, 2)).
Proof.
  intros Hc. induction n as [|n IH].
  { cbn [seq fold_left]. by split. }
  rewrite seq_S, fold_left_app. cbn [Nat.add fold_left]. unfold admit_round at 1. apply admit_round_step.
  { apply (bool_decide_unpack (NoDup responseMetadataHeaderOrder)). by vm_compute. }
  eapply admission_weaken; [|exact IH]. intros key. cbn beta. case_decide as Ek; [done|].
  assert (values_of candidates key = []) as ->; [|by rewrite !take_nil]. unfold values_of.
  destruct (candidates !! key) as [l|] eqn:E; [|done]. exfalso. by apply Ek, (Hc key l).
Qed.


Lemma sanitize_idem h : tidy h -> sanitizeResponseMetadata h = h.
Proof.
  intros [Hf Hb]. unfold sanitizeResponseMetadata. rewrite candidates_tidy by done.
  assert (map_Forall (fun key _ => key ∈ responseMetadataHeaderOrder) h) as Ho by (intros k l Hl; apply (Hf k l Hl)).
  destruct (admitted h Ho maxResponseMetadataValuesPerHeader) as [_ _ HN _ HA]. set (state := fold_left _ _ _) in *. clearbody state.
  destruct state as [safe n]. cbn [fst snd] in *. apply map_eq. intros key. specialize (HA Hb key). unfold values_of, http_header in *.
  destruct (h !! key) as [l|] eqn:E.
  - destruct (Hf key l E) as (_ & Hne & Hl & _). change (default [] (Some l)) with l in HA. rewrite take_ge in HA by done.
    destruct (safe !! key) as [l'|]; [by rewrite <- HA|cbn in HA; congruence].
  - change (default [] None) with (@nil gostring) in HA. rewrite take_nil in HA.
    destruct (safe !! key) as [l'|] eqn:E'; [|done]. exfalso. by apply (HN key l' E').
Qed.

End sanitized.

(** ** Reading a rendering back *)

Lemma decode_rune_again s r w t :
  s <> [] -> decode_rune s = (r, w) -> (r, w) <> (rune_error, 1%nat) -> decode_rune (take w s ++ t) = (r, w).
Proof.
  intros Hne Hd Hv. destruct s as [|b0 s1]; [done|]. unfold decode_rune in Hd.
  destruct (b0 <? 0x80) eqn:E0; [injection Hd as <- <-; cbn [take app decode_rune]; by rewrite E0|].
  destruct (utf8_first b0) as [[[n lo] hi]|] eqn:Ef; [|by injection Hd as <- <-].
  pose proof (utf8_first_bounds _ _ _ _ Ef) as Hn. destruct Hn as [(-> & _)|[(-> & _)|(-> & _)]].
  - destruct s1 as [|b1 s2]; [by injection Hd as <- <-|]. destruct (in_range lo hi b1) eqn:E1; [|by injection Hd as <- <-].
    injection Hd as <- <-. cbn [take app decode_rune]. by rewrite E0, Ef, E1.
  - destruct s1 as [|b1 [|b2 s3]]; [by injection Hd as <- <-..|]. destruct (in_range lo hi b1 && _) eqn:E1; [|by injection Hd as <- <-].
    injection Hd as <- <-. cbn [take app decode_rune]. by rewrite E0, Ef, E1.
  - destruct s1 as [|b1 [|b2 [|b3 s4]]]; [by injection Hd as <- <-..|]. destruct (in_range lo hi b1 && _ && _) eqn:E1; [|by injection Hd as <- <-].
    injection Hd as <- <-. cbn [take app decode_rune]. by rewrite E0, Ef, E1.
Qed.

Lemma chunks_again s :
  Forall (fun p => undecodable p = false -> forall t, decode_rune (p.2 ++ t) = (p.1, length p.2)) (chunks s).
Proof.
  induction s as [|s Hne IH] using chunks_ind; [constructor|]. rewrite chunks_step by done.
  pose proof (decode_rune_bounds s Hne) as Hw. destruct (decode_rune s) as [r w] eqn:E. cbn [fst snd] in *. constructor; [|done].
  cbn [fst snd]. intros Hu t. rewrite length_take, Nat.min_l by lia. apply decode_rune_again; [done..|]. intros [= -> ->].
  unfold undecodable in Hu. cbn [fst snd] in Hu. unfold len in Hu. by rewrite length_take, Nat.min_l in Hu by lia.
Qed.

Lemma hex_digit_value_digit n : 0 <= n < 16 -> hex_digit_value (hex_digit n) = Some n.
Proof.
  intros Hn. unfold hex_digit. destruct (Z.ltb_spec n 10).
  - unfold hex_digit_value. rewrite (proj2 (in_range_true _ _ _)) by lia. f_equal. lia.
  - unfold hex_digit_value. rewrite (proj2 (in_range_false 48 57 _)), (proj2 (in_range_true 97 102 _)) by lia. f_equal. lia.
Qed.

Lemma no_surrogate r s : r < 0xD800 -> surrogate_pair r s = None.
Proof.
  intros Hr. destruct s as [|b [|u s]]; [done..|]. cbn [surrogate_pair]. rewrite (proj2 (in_range_false 0xD800 0xDBFF r)) by lia.
  by rewrite andb_false_r.
Qed.

Definition well_decoded (p : Z * gostring) : Prop :=
  undecodable p = false /\ p.2 = utf8_encode p.1 /\ (0x80 <= p.1 -> p.2 <> [] /\ Forall (fun b => 0x80 <= b) p.2) /\ (p.1 < 0x80 -> 0 <= p.1 /\ p.2 = [p.1])
  /\ forall t, decode_rune (p.2 ++ t) = (p.1, length p.2).

Lemma json_text_unicode fuel a b c d rest :
  0 <= a < 16 -> 0 <= b < 16 -> 0 <= c < 16 -> 0 <= d < 16 -> ((a * 16 + b) * 16 + c) * 16 + d < 0xD800 ->
  json_text (S fuel) (backslash :: ch "u" :: hex_digit a :: hex_digit b :: hex_digit c :: hex_digit d :: rest)
  = option_map (fun p => (utf8_encode (((a * 16 + b) * 16 + c) * 16 + d) ++ p.1, p.2)) (json_text fuel rest).
Proof.
  intros Ha Hb Hc Hd Hr. cbn [json_text]. change (backslash =? quote) with false. change (backslash <? 32) with false. rewrite !Z.eqb_refl. cbn [hex4].
  rewrite !hex_digit_value_digit by done. by rewrite no_surrogate.
Qed.

Lemma json_text_chunk p fuel rest :
  well_decoded p -> json_text (S fuel) (json_chunk p ++ rest) = option_map (fun q => (p.2 ++ q.1, q.2)) (json_text fuel rest).
Proof.
  destruct p as [r b]. intros (Hu & He & Hh & Hl & Hd). cbn [fst snd] in *. unfold json_chunk. destruct (Z.ltb_spec r 0x80) as [Hr|Hr].
  - destruct (Hl Hr) as [Hr0 ->]. unfold json_ascii. destruct (json_safe r) eqn:Es.
    { unfold json_safe in Es. apply andb_prop in Es as [Es1 Es2]. apply negb_true_iff in Es2. cbn [app json_text].
      assert (r =? quote = false) as -> by (apply Z.eqb_neq; intros ->; done). rewrite (proj2 (Z.ltb_ge r 32)) by lia.
      assert (r =? backslash = false) as -> by (apply Z.eqb_neq; intros ->; done).
      unfold decode_rune. rewrite (proj2 (Z.ltb_lt r 128)) by done. cbn [drop]. by rewrite utf8_encode_ascii. }
    destruct (mem r [quote; backslash]) eqn:Em.
    { cbn [app json_text]. change (backslash =? quote) with false. change (backslash <? 32) with false. rewrite Z.eqb_refl.
      unfold mem, quote, backslash in Em. cbn in Em. assert (r = 34 \/ r = 92) as [-> | ->] by lia; done. }
    destruct (Z.eqb_spec r 8) as [->|_]; [done|]. destruct (Z.eqb_spec r 12) as [->|_]; [done|].
    destruct (Z.eqb_spec r 10) as [->|_]; [done|]. destruct (Z.eqb_spec r 13) as [->|_]; [done|]. destruct (Z.eqb_spec r 9) as [->|_]; [done|].
    change 15 with (Z.ones 4). rewrite Z.land_ones, Z.shiftr_div_pow2 by lia. change (2 ^ 4) with 16.
    pose proof (Z.mod_pos_bound r 16 ltac:(lia)). pose proof (Z.div_mod r 16 ltac:(lia)). cbn [app]. change 48 with (hex_digit 0).
    rewrite json_text_unicode by lia. replace (((0 * 16 + 0) * 16 + r / 16) * 16 + r mod 16) with r by lia. by rewrite utf8_encode_ascii.
  - rewrite Hu. destruct ((r =? 0x2028) || (r =? 0x2029)) eqn:El.
    + rewrite He. assert (r = 0x2028 \/ r = 0x2029) as Hrr by lia. destruct Hrr as [-> | ->].
      * exact (json_text_unicode fuel 2 0 2 8 rest ltac:(lia) ltac:(lia) ltac:(lia) ltac:(lia) ltac:(lia)).
      * exact (json_text_unicode fuel 2 0 2 9 rest ltac:(lia) ltac:(lia) ltac:(lia) ltac:(lia) ltac:(lia)).
    + destruct (Hh Hr) as [Hne Hb]. specialize (Hd rest). destruct b as [|c b]; [done|]. apply Forall_cons in Hb as [Hc _].
      cbn [app] in *. cbn [json_text]. assert (c =? quote = false) as -> by (apply Z.eqb_neq; unfold quote; lia).
      rewrite (proj2 (Z.ltb_ge c 32)) by lia. assert (c =? backslash = false) as -> by (apply Z.eqb_neq; unfold backslash; lia).
      rewrite Hd. change (c :: b ++ rest) with ((c :: b) ++ rest). by rewrite drop_app_length, <- He.
Qed.

Lemma json_chunk_nonempty p : well_decoded p -> (1 <= length (json_chunk p))%nat.
Proof.
  destruct p as [r b]. intros (Hu & _ & Hh & _). cbn [fst snd] in *. unfold json_chunk.
  destruct (Z.ltb_spec r 0x80); [unfold json_ascii; repeat case_match; cbn; lia|]. rewrite Hu. destruct (_ || _); [cbn; lia|].
  destruct (Hh ltac:(done)) as [Hne _]. destruct b; [done|cbn; lia].
Qed.

Lemma json_text_chunks l rest fuel :
  Forall well_decoded l -> (length (concat (json_chunk <$> l)) < fuel)%nat ->
  json_text fuel (concat (json_chunk <$> l) ++ quote :: rest) = Some (concat (snd <$> l), rest).
Proof.
  intros Hl. revert fuel. induction Hl as [|p l Hp _ IH]; intros fuel Hf; cbn [fmap list_fmap concat] in *.
  - destruct fuel as [|fuel]; [lia|]. done.
  - destruct fuel as [|fuel]; [lia|]. rewrite <- app_assoc, json_text_chunk by done. rewrite length_app in Hf.
    pose proof (json_chunk_nonempty p Hp). rewrite IH by lia. done.
Qed.

(** Text that JSON can carry. *)
Definition utf8 (s : gostring) : Prop := Forall byte s /\ utf8_valid s = true.

Lemma utf8_chunks s : utf8 s -> Forall well_decoded (chunks s).
Proof.
  intros [Hb Hv]. pose proof (chunks_valid s Hb) as Hc. pose proof (chunks_again s) as Ha. unfold utf8_valid in Hv.
  induction (chunks s) as [|p l IH]; [constructor|]. cbn [forallb] in Hv. apply andb_prop in Hv as [Hu%negb_true_iff Hv].
  apply Forall_cons in Hc as [Hp Hc], Ha as [Hpa Ha]. constructor; [|by apply IH]. destruct (Hp Hu) as (He & Hh & Hl). specialize (Hpa Hu).
  split_and!; try done. intros Hr. split; [|by apply Hh]. intros Hnil. specialize (Hpa []). rewrite Hnil in Hpa. cbn in Hpa. injection Hpa as Hpa.
  destruct p as [r b]. cbn in *. subst. done.
Qed.

Lemma json_string_back s rest : utf8 s -> json_string_of (json_string s ++ rest) = Some (s, rest).
Proof.
  intros Hs. unfold json_string, json_string_of, json_body. cbn [app]. rewrite Z.eqb_refl, <- app_assoc. cbn [app].
  rewrite json_text_chunks; [by rewrite glue_chunks|by apply utf8_chunks|]. rewrite length_app. cbn. lia.
Qed.

(** *** Sequences *)

(** What no element begins with. *)
Definition starts_plainly (s : gostring) : Prop := match s with c :: _ => json_space c = false | [] => False end.

Lemma skip_plain s : starts_plainly s -> skip_space s = s.
Proof. destruct s as [|c s]; [done|]. cbn. by intros ->. Qed.

Section sequences.
Context {A : Type} (render : A -> gostring) (element : gostring -> option (A * gostring)) (P : A -> Prop).
Context (Hback : forall a rest, P a -> element (render a ++ rest) = Some (a, rest)).
Context (Hplain : forall a rest, P a -> starts_plainly (render a ++ rest)).

Lemma json_elements_back l closing rest fuel :
  Forall P l -> l <> [] -> json_space closing = false -> closing <> ch "," -> (length l <= fuel)%nat ->
  json_elements fuel element closing (json_list render l ++ closing :: rest) = Some (l, rest).
Proof.
  intros Hl. revert fuel. induction Hl as [|a l Ha Hl IH]; intros fuel Hne Hc Hcc Hf; [done|]. destruct fuel as [|fuel]; [cbn in Hf; lia|].
  destruct l as [|b l].
  - cbn [json_list json_elements]. rewrite Hback, skip_plain by done. by rewrite Z.eqb_refl.
  - change (json_list render (a :: b :: l)) with (render a ++ ch "," :: json_list render (b :: l)). rewrite <- app_assoc. cbn [app json_elements].
    rewrite Hback, skip_plain by done. rewrite (proj2 (Z.eqb_neq (ch ",") closing)) by congruence. rewrite Z.eqb_refl.
    assert (starts_plainly (json_list render (b :: l) ++ closing :: rest)) as Hp.
    { apply Forall_cons in Hl as [Hb _]. destruct l as [|b' l]; [by apply Hplain|].
      change (json_list render (b :: b' :: l)) with (render b ++ ch "," :: json_list render (b' :: l)). rewrite <- app_assoc. by apply Hplain. }
    rewrite skip_plain by done. rewrite IH; [done|done|done|done|cbn in *; lia].
Qed.

Lemma length_elements l closing rest : Forall P l -> (length l <= length (json_list render l ++ closing :: rest : gostring))%nat.
Proof.
  intros Hl. assert (forall a, P a -> 1 <= length (render a))%nat as Hone.
  { intros a Ha. pose proof (Hplain a [] Ha) as Hp. rewrite app_nil_r in Hp. destruct (render a); [done|cbn; lia]. }
  rewrite length_app, length_json_list. induction Hl as [|a l Ha _ IH]; cbn [length sum_list_with]; [lia|]. specialize (Hone a Ha). cbn in *. lia.
Qed.

Lemma json_sequence_back opening closing l rest :
  Forall P l -> l <> [] -> json_space closing = false -> closing <> ch "," ->
  (forall a t, P a -> match render a ++ t with c :: _ => c <> closing | [] => False end) ->
  json_sequence opening closing element (opening :: json_list render l ++ closing :: rest) = Some (l, rest).
Proof.
  intros Hl Hne Hc Hcc Hfirst. cbn [json_sequence]. rewrite Z.eqb_refl. destruct l as [|a l]; [done|].
  assert (exists t, json_list render (a :: l) ++ closing :: rest = render a ++ t) as [t Ht].
  { destruct l as [|b l]; [by eexists|]. change (json_list render (a :: b :: l)) with (render a ++ ch "," :: json_list render (b :: l)). rewrite <- app_assoc. by eexists. }
  pose proof (proj1 (Forall_cons _ _ _) Hl) as [Ha _]. specialize (Hfirst a t Ha). pose proof (Hplain a t Ha) as Hpl.
  pose proof (json_elements_back (a :: l) closing rest (length (json_list render (a :: l) ++ closing :: rest)) Hl Hne Hc Hcc (length_elements _ _ _ Hl)) as Hb.
  rewrite Ht in *. rewrite skip_plain by done. destruct (render a ++ t) as [|c u]; [done|]. by rewrite (proj2 (Z.eqb_neq c closing)).
Qed.

End sequences.

Lemma json_string_first s rest : exists t, json_string s ++ rest = quote :: t.
Proof. by eexists. Qed.

Lemma json_element_back v rest : utf8 v -> json_element (json_string v ++ rest) = Some (v, rest).
Proof. intros Hv. unfold json_element. change (json_null (json_string v ++ rest)) with (@None gostring). by apply json_string_back. Qed.

Lemma json_array_back values rest :
  Forall utf8 values -> values <> [] -> json_array (json_strings values ++ rest) = Some (values, rest).
Proof.
  intros Hv Hne. unfold json_array, json_strings. cbn [app]. rewrite <- app_assoc. cbn [app].
  change (json_null (ch "[" :: ?s)) with (@None gostring).
  by apply (json_sequence_back json_string json_element utf8 json_element_back).
Qed.

Definition utf8_entry (e : gostring * list gostring) : Prop := utf8 e.1 /\ Forall utf8 e.2 /\ e.2 <> [].

Definition render_entry (e : gostring * list gostring) : gostring := json_string e.1 ++ ch ":" :: json_strings e.2.

Lemma json_member_back e rest : utf8_entry e -> json_member (render_entry e ++ rest) = Some (e, rest).
Proof.
  destruct e as [key values]. intros (Hk & Hv & Hne). unfold json_member, render_entry. cbn [fst snd] in *. rewrite <- app_assoc.
  rewrite json_string_back by done. cbn [app]. rewrite skip_plain, Z.eqb_refl by done.
  rewrite skip_plain by done. by rewrite json_array_back.
Qed.

Lemma header_back (h : http_header) :
  h <> ∅ -> map_Forall (fun key values => utf8_entry (key, values)) h -> json_unmarshal_header (json_header h) = Some h.
Proof.
  intros Hne Hh. unfold json_unmarshal_header, json_header. rewrite skip_plain by done. change (json_null (ch "{" :: ?s)) with (@None gostring).
  pose proof (merge_sort_Permutation entry_le (map_to_list h)) as Hp. fold (sorted_entries h) in Hp.
  fold render_entry. rewrite (json_sequence_back render_entry json_member utf8_entry json_member_back).
  - cbn [skip_space]. f_equal. unfold http_header in *. rewrite (list_to_map_proper (rev (sorted_entries h)) (map_to_list h)); [apply list_to_map_to_list| |].
    + rewrite <- Permutation_rev, Hp. apply NoDup_fst_map_to_list.
    + by rewrite <- Permutation_rev.
  - done.
  - rewrite Hp. apply Forall_forall. intros [key values] Hin%elem_of_map_to_list. by apply (Hh key values).
  - intros Hnil. rewrite Hnil in Hp. apply Permutation_nil in Hp. by apply map_to_list_empty_iff in Hp.
  - done.
  - done.
  - intros e t _. by destruct (json_string_first e.1 (ch ":" :: json_strings e.2 ++ t)) as [u Hu].
Qed.

Lemma utf8_check s : forallb (in_range 0 255) s && utf8_valid s = true -> utf8 s.
Proof.
  intros [Hb Hv]%andb_prop. split; [|done]. rewrite forallb_forall in Hb. apply List.Forall_forall. intros b Hin.
  apply Hb, in_range_true in Hin. unfold byte. lia.
Qed.

Lemma order_utf8 key : key ∈ responseMetadataHeaderOrder -> utf8 key.
Proof.
  assert (forallb (fun k => forallb (in_range 0 255) k && utf8_valid k) responseMetadataHeaderOrder = true) as Hall by by vm_compute.
  rewrite forallb_forall in Hall. intros Hin%list_elem_of_In. by apply utf8_check, Hall.
Qed.

(** The values of the headers are text. *)
Definition utf8_values (h : http_header) : Prop := map_Forall (fun _ values => Forall utf8 values) h.

Lemma encoded_tidy `{UnicodeTables} h :
  tidy h -> encodeResponseMetadata h = (if decide (h = ∅) then [] else json_header h) /\ len (encodeResponseMetadata h) <= maxEncodedResponseMetadataBytes.
Proof.
  intros Ht. unfold encodeResponseMetadata. rewrite sanitize_idem by done. destruct Ht as [_ Hb].
  case_decide as E; [rewrite bool_decide_eq_true_2 by done; split; [done|by apply Z.leb_le]|].
  rewrite bool_decide_eq_false_2 by done. assert (len (json_header h) <= maxEncodedResponseMetadataBytes) as Hl by (unfold len; by rewrite length_json_header).
  destruct (_ >? _) eqn:Eg; [lia|done].
Qed.

(** What the column keeps of tidy headers comes back. *)
Lemma stored_back `{UnicodeTables} h :
  tidy h -> utf8_values h ->
  decodeStoredResponseMetadata (encodeResponseMetadata h) (header_Get h (bs "ETag")) (header_Get h (bs "Last-Modified")) = h.
Proof.
  intros Ht Hu. assert (decodeResponseMetadata (encodeResponseMetadata h) = h) as Hd.
  { destruct (encoded_tidy h Ht) as [He Hl]. unfold decodeResponseMetadata. rewrite He in *. case_decide as E; [by subst h|].
    rewrite bool_decide_eq_false_2 by done. cbn [orb]. destruct (_ >? _) eqn:Eg; [lia|]. rewrite header_back; [by apply sanitize_idem|done|].
    intros key values Hk. destruct Ht as [Hf _]. destruct (Hf key values Hk) as (Hin & Hne & _). split; [by apply order_utf8|]. split; [by apply (Hu key)|done]. }
  unfold decodeStoredResponseMetadata. rewrite Hd.
  assert (forall k, bool_decide (header_Get h k = []) && negb (bool_decide (header_Get h k = [])) = false) as Hno by (intros k; by destruct (bool_decide _)).
  rewrite Hno, Hno. by apply sanitize_idem.
Qed.

(** ** Properties *)

Section properties.
Context `{UnicodeTables}.


End properties.
