(* ===== verification/CacheWorld.v ===== *)
(** * What the cache manager works on (internal/cache: manager.go, store.go, invalidation_state.go)

    The rows and objects of the cache, the mutation gate, the invalidation registry, the
    flights and the upstream, and each call of the manager on them as one step.  A history
    records what was fetched, invalidated, removed, committed and served; no step reads it. *)

From stdpp Require Import gmap.
From S2P Require Export Http Invalidation Program ResponseMetadata.

(** ** Data *)

(** A representation an upstream delivered: its metadata and its complete body. *)
Record representation := { rp_ContentType : gostring; rp_Headers : http_header; rp_Body : gostring }.

(** What an upstream answers: the declared size ([-1] when unknown) and the error its body
    ends in, if any. *)
Record response := { rs_Representation : representation; rs_Size : Z; rs_Broken : option error }.

Definition complete (r : response) : bool :=
  match rs_Broken r with Some _ => false | None => true end
  && ((rs_Size r <? 0) || (rs_Size r =? len (rp_Body (rs_Representation r)))).

(** [db.CacheEntry] *)
Record CacheEntry := {
  ce_ID : Z;
  ce_Key : gostring;
  ce_AdapterType : gostring;
  ce_CacheKind : gostring;
  ce_StoragePath : gostring;
  ce_Size : Z;
  ce_HitCount : Z;
  ce_ContentType : gostring;
  ce_ETag : gostring;
  ce_LastModified : gostring;
  ce_ResponseHeaders : gostring;
  ce_PackageName : gostring;
  ce_ExpiresAt : Z;
  ce_LastAccessed : Z;
}.

(** [inflightFetch], with what it holds once it is done. *)
Record inflightFetch := { fl_done : bool; fl_err : option error; fl_committedEntry : option CacheEntry }.

(** ** The history *)

Inductive event :=
  | ev_fetched (key : gostring) (rep : representation)
  | ev_invalidated (key : gostring)
  | ev_removed (key : gostring)
  | ev_committed (key : gostring)
  (** goroutine [me] found the key readable *)
  | ev_admitted (me : nat) (key : gostring)
  (** goroutine [me] served the body with the metadata of the row *)
  | ev_hit (me : nat) (key : gostring) (entry : CacheEntry) (body : gostring)
  | ev_followed (me : nat) (key : gostring) (entry : CacheEntry) (body : gostring).

(** The write a goroutine has begun and what it fetched for it. *)
Record writer := { wt_write : write; wt_rep : option representation }.

(** An invalidation a goroutine has begun, and whether the row or the object is gone since. *)
Record invalidator := { iv_invalidation : write; iv_scrubbed : bool }.

(** ** The world *)

(** Goroutines are numbered.  [w_rows] has the unique index on the key; a flight is named by
    the goroutine that leads it; [w_refreshing] are the keys under refresh, each of which
    takes one of the [refreshSlots].  [w_writers] and [w_invalidators] are the part of the
    history that says which calls on the registry are open. *)
Record world := {
  w_rows : gmap gostring CacheEntry;
  w_next_id : Z;
  w_objects : gmap gostring gostring;
  w_gate : gmap gostring nat;
  w_registry : cacheInvalidationRegistry;
  w_inflight : gmap gostring nat;
  w_flights : gmap nat inflightFetch;
  w_refreshing : gset gostring;
  w_upstream : gmap gostring response;
  w_now : Z;
  w_closed : bool;
  w_verdict : bool;
  w_log : list event;
  w_writers : gmap nat writer;
  w_invalidators : gmap (nat * gostring) invalidator;
}.

Definition empty_cache : world :=
  {| w_rows := ∅; w_next_id := 1; w_objects := ∅; w_gate := ∅; w_registry := newCacheInvalidationRegistry; w_inflight := ∅;
     w_flights := ∅; w_refreshing := ∅; w_upstream := ∅; w_now := 0; w_closed := false; w_verdict := false; w_log := [];
     w_writers := ∅; w_invalidators := ∅ |}.

Definition set_rows (rows : gmap gostring CacheEntry) (next : Z) (w : world) : world :=
  {| w_rows := rows; w_next_id := next; w_objects := w_objects w; w_gate := w_gate w; w_registry := w_registry w;
     w_inflight := w_inflight w; w_flights := w_flights w; w_refreshing := w_refreshing w; w_upstream := w_upstream w;
     w_now := w_now w; w_closed := w_closed w; w_verdict := w_verdict w; w_log := w_log w; w_writers := w_writers w;
     w_invalidators := w_invalidators w |}.
Definition set_objects (objects : gmap gostring gostring) (w : world) : world :=
  {| w_rows := w_rows w; w_next_id := w_next_id w; w_objects := objects; w_gate := w_gate w; w_registry := w_registry w;
     w_inflight := w_inflight w; w_flights := w_flights w; w_refreshing := w_refreshing w; w_upstream := w_upstream w;
     w_now := w_now w; w_closed := w_closed w; w_verdict := w_verdict w; w_log := w_log w; w_writers := w_writers w;
     w_invalidators := w_invalidators w |}.
Definition set_gate (gate : gmap gostring nat) (w : world) : world :=
  {| w_rows := w_rows w; w_next_id := w_next_id w; w_objects := w_objects w; w_gate := gate; w_registry := w_registry w;
     w_inflight := w_inflight w; w_flights := w_flights w; w_refreshing := w_refreshing w; w_upstream := w_upstream w;
     w_now := w_now w; w_closed := w_closed w; w_verdict := w_verdict w; w_log := w_log w; w_writers := w_writers w;
     w_invalidators := w_invalidators w |}.
Definition set_flights (inflight : gmap gostring nat) (flights : gmap nat inflightFetch) (w : world) : world :=
  {| w_rows := w_rows w; w_next_id := w_next_id w; w_objects := w_objects w; w_gate := w_gate w; w_registry := w_registry w;
     w_inflight := inflight; w_flights := flights; w_refreshing := w_refreshing w; w_upstream := w_upstream w; w_now := w_now w;
     w_closed := w_closed w; w_verdict := w_verdict w; w_log := w_log w; w_writers := w_writers w;
     w_invalidators := w_invalidators w |}.
Definition set_refreshing (refreshing : gset gostring) (w : world) : world :=
  {| w_rows := w_rows w; w_next_id := w_next_id w; w_objects := w_objects w; w_gate := w_gate w; w_registry := w_registry w;
     w_inflight := w_inflight w; w_flights := w_flights w; w_refreshing := refreshing; w_upstream := w_upstream w;
     w_now := w_now w; w_closed := w_closed w; w_verdict := w_verdict w; w_log := w_log w; w_writers := w_writers w;
     w_invalidators := w_invalidators w |}.
Definition set_outside (upstream : gmap gostring response) (now : Z) (closed verdict : bool) (w : world) : world :=
  {| w_rows := w_rows w; w_next_id := w_next_id w; w_objects := w_objects w; w_gate := w_gate w; w_registry := w_registry w;
     w_inflight := w_inflight w; w_flights := w_flights w; w_refreshing := w_refreshing w; w_upstream := upstream; w_now := now;
     w_closed := closed; w_verdict := verdict; w_log := w_log w; w_writers := w_writers w; w_invalidators := w_invalidators w |}.
Definition set_registry (registry : cacheInvalidationRegistry) (writers : gmap nat writer) (invalidators : gmap (nat * gostring) invalidator) (w : world) : world :=
  {| w_rows := w_rows w; w_next_id := w_next_id w; w_objects := w_objects w; w_gate := w_gate w; w_registry := registry;
     w_inflight := w_inflight w; w_flights := w_flights w; w_refreshing := w_refreshing w; w_upstream := w_upstream w;
     w_now := w_now w; w_closed := w_closed w; w_verdict := w_verdict w; w_log := w_log w; w_writers := writers;
     w_invalidators := invalidators |}.
Definition logged (e : event) (w : world) : world :=
  {| w_rows := w_rows w; w_next_id := w_next_id w; w_objects := w_objects w; w_gate := w_gate w; w_registry := w_registry w;
     w_inflight := w_inflight w; w_flights := w_flights w; w_refreshing := w_refreshing w; w_upstream := w_upstream w;
     w_now := w_now w; w_closed := w_closed w; w_verdict := w_verdict w; w_log := e :: w_log w; w_writers := w_writers w;
     w_invalidators := w_invalidators w |}.

(** ** Calls on the gate, the registry and the history *)

Section calls.
Context (me : nat).

(** [lockMutation], and [lockSnapshot], which the shutdown does not stop. *)
Definition lock (enforceLifecycle : bool) (key : gostring) : program world (result unit) :=
  request (fun w => bool_decide (w_gate w !! key = None) && negb (enforceLifecycle && w_closed w)) false
    (fun w => ((), set_gate (<[key := me]> (w_gate w)) w)) return_.

Definition lockMutation : gostring -> program world (result unit) := lock true.
Definition lockSnapshot : gostring -> program world (result unit) := lock false.
Definition unlock (key : gostring) : program world unit := atomically (fun w => ((), set_gate (delete key (w_gate w)) w)).

Definition overtake_writer (key : gostring) (x : writer) : writer := {| wt_write := overtake key (wt_write x); wt_rep := wt_rep x |}.
Definition overtake_invalidator (key : gostring) (x : invalidator) : invalidator :=
  {| iv_invalidation := overtake key (iv_invalidation x); iv_scrubbed := iv_scrubbed x |}.

Definition new_write (key : gostring) (generation : Z) : write :=
  {| wr_key := key; wr_generation := generation; wr_overtaken := false |}.

Definition begin_write (key : gostring) : program world Z := atomically (fun w =>
  let '(r, g) := beginWrite (w_registry w) key in
  (g, set_registry r (<[me := {| wt_write := new_write key g; wt_rep := None |}]> (w_writers w)) (w_invalidators w) w)).

Definition write_current (key : gostring) (generation : Z) : program world bool :=
  atomically (fun w => (writeCurrent (w_registry w) key generation, w)).

Definition commit_write (key : gostring) (generation : Z) : program world bool := atomically (fun w =>
  let '(r, committed) := commitWrite (w_registry w) key generation in
  (committed, if committed then logged (ev_committed key) (set_registry r (delete me (w_writers w)) (w_invalidators w) w) else w)).

Definition abort_write (key : gostring) : program world unit := atomically (fun w =>
  ((), set_registry (abortWrite (w_registry w) key None) (delete me (w_writers w)) (w_invalidators w) w)).

Definition begin_invalidation (key : gostring) : program world Z := atomically (fun w =>
  let '(r, g) := beginInvalidation (w_registry w) key in
  (g, logged (ev_invalidated key)
        (set_registry r (overtake_writer key <$> w_writers w)
           (<[(me, key) := {| iv_invalidation := new_write key g; iv_scrubbed := false |}]> (overtake_invalidator key <$> w_invalidators w)) w))).

Definition invalidation_pending (key : gostring) (generation : Z) : program world bool :=
  atomically (fun w => (invalidationPending (w_registry w) key generation, w)).

Definition finish_invalidation (key : gostring) (generation : Z) (cleanupSafe : bool) : program world unit := atomically (fun w =>
  ((), set_registry (finishInvalidation (w_registry w) key generation cleanupSafe) (w_writers w) (delete (me, key) (w_invalidators w)) w)).

Definition mark_cleanup_safe (key : gostring) : program world unit := atomically (fun w =>
  ((), logged (ev_removed key) (set_registry (markCleanupSafe (w_registry w) key) (w_writers w) (w_invalidators w) w))).

Definition is_readable (key : gostring) : program world bool := atomically (fun w =>
  let r := readable (w_registry w) key in (r, if r then logged (ev_admitted me key) w else w)).

(** ** Calls on the database and the storage *)

(** [Where("key = ?").First]: [None] is [gorm.ErrRecordNotFound]. *)
Definition find_entry (key : gostring) : program world (result (option CacheEntry)) := query (fun w => w_rows w !! key).

(** What is gone of a key is gone for the invalidations that await it, too. *)
Definition removed (key : gostring) (w : world) : world :=
  logged (ev_removed key)
    (set_registry (w_registry w) (w_writers w)
       ((fun x => {| iv_invalidation := iv_invalidation x;
                     iv_scrubbed := iv_scrubbed x || bool_decide (wr_key (iv_invalidation x) = key) |}) <$> w_invalidators w) w).

(** [Where("key = ?").Delete]. *)
Definition delete_entry (key : gostring) : program world (result unit) :=
  call (fun w => ((), removed key (set_rows (delete key (w_rows w)) (w_next_id w) w))).

(** [Storage.Delete]: deleting what does not exist succeeds. *)
Definition Delete (key : gostring) : program world (result unit) :=
  call (fun w => ((), removed key (set_objects (delete key (w_objects w)) w))).

Definition Exists (path : gostring) : program world (result bool) := query (fun w => bool_decide (is_Some (w_objects w !! path))).

(** [Storage.Get]: the content of the object as it is now; [None] when there is none. *)
Definition Get (path : gostring) : program world (result (option gostring)) := query (fun w => w_objects w !! path).

(** [Storage.Put] of the bytes it has read to the end; nothing is published when it fails. *)
Definition Put (key body : gostring) : program world (result unit) :=
  request (fun _ => true) false (fun w => ((), set_objects (<[key := body]> (w_objects w)) w)) return_.

(** The insertion with [OnConflict]: the columns of a row already there are replaced, but
    for its id and its hits.  [RETURNING id]. *)
Definition upsert (entry : CacheEntry) : program world (result Z) := call (fun w =>
  match w_rows w !! ce_Key entry with
  | Some row =>
    (ce_ID row,
     set_rows (<[ce_Key entry := {|
       ce_ID := ce_ID row; ce_Key := ce_Key entry; ce_AdapterType := ce_AdapterType entry; ce_CacheKind := ce_CacheKind entry;
       ce_StoragePath := ce_StoragePath entry; ce_Size := ce_Size entry; ce_HitCount := ce_HitCount row;
       ce_ContentType := ce_ContentType entry; ce_ETag := ce_ETag entry; ce_LastModified := ce_LastModified entry;
       ce_ResponseHeaders := ce_ResponseHeaders entry; ce_PackageName := ce_PackageName entry; ce_ExpiresAt := ce_ExpiresAt entry;
       ce_LastAccessed := ce_LastAccessed entry |}]> (w_rows w)) (w_next_id w) w)
  | None =>
    (w_next_id w,
     set_rows (<[ce_Key entry := {|
       ce_ID := w_next_id w; ce_Key := ce_Key entry; ce_AdapterType := ce_AdapterType entry; ce_CacheKind := ce_CacheKind entry;
       ce_StoragePath := ce_StoragePath entry; ce_Size := ce_Size entry; ce_HitCount := ce_HitCount entry;
       ce_ContentType := ce_ContentType entry; ce_ETag := ce_ETag entry; ce_LastModified := ce_LastModified entry;
       ce_ResponseHeaders := ce_ResponseHeaders entry; ce_PackageName := ce_PackageName entry; ce_ExpiresAt := ce_ExpiresAt entry;
       ce_LastAccessed := ce_LastAccessed entry |}]> (w_rows w)) (w_next_id w + 1) w)
  end).

(** [Where("id = ? AND key = ?").Updates(columns)]: the number of rows updated. *)
Definition update_entry (id : Z) (key : gostring) (columns : CacheEntry -> CacheEntry) : program world (result Z) := call (fun w =>
  match w_rows w !! key with
  | Some row => if ce_ID row =? id then (1, set_rows (<[key := columns row]> (w_rows w)) (w_next_id w) w) else (0, w)
  | None => (0, w)
  end).

(** ** The upstream and the clock *)

(** [fetchFn]: what the upstream answers now. *)
Definition fetch (key : gostring) : program world (result response) :=
  request (fun w => bool_decide (is_Some (w_upstream w !! key))) false (fun w =>
    let r := default {| rs_Representation := {| rp_ContentType := []; rp_Headers := ∅; rp_Body := [] |}; rs_Size := 0; rs_Broken := None |}
               (w_upstream w !! key) in
    (r, if complete r
        then logged (ev_fetched key (rs_Representation r))
               (set_registry (w_registry w)
                  (alter (fun x => {| wt_write := wt_write x; wt_rep := Some (rs_Representation r) |}) me (w_writers w)) (w_invalidators w) w)
        else w)) return_.

Definition now : program world Z := atomically (fun w => (w_now w, w)).
Definition closed : program world bool := atomically (fun w => (w_closed w, w)).

(** ** Flights *)

(** The flight of the key, or that of this goroutine, registered now. *)
Definition join_or_lead (key : gostring) : program world (option nat) := atomically (fun w =>
  match w_inflight w !! key with
  | Some flight => (Some flight, w)
  | None => (None, set_flights (<[key := me]> (w_inflight w))
                     (<[me := {| fl_done := false; fl_err := None; fl_committedEntry := None |}]> (w_flights w)) w)
  end).

Definition flight_of (key : gostring) : program world (option nat) := atomically (fun w => (w_inflight w !! key, w)).

(** [<-flight.done], or the end of the context or of the manager. *)
Definition await (flight : nat) : program world (result inflightFetch) :=
  request (fun w => match w_flights w !! flight with Some f => fl_done f | None => false end) false
    (fun w => (default {| fl_done := true; fl_err := None; fl_committedEntry := None |} (w_flights w !! flight), w)) return_.

Definition releaseInflight (key : gostring) (err : option error) (committed : option CacheEntry) : program world unit :=
  atomically (fun w =>
    ((), set_flights (if bool_decide (w_inflight w !! key = Some me) then delete key (w_inflight w) else w_inflight w)
           (<[me := {| fl_done := true; fl_err := err; fl_committedEntry := committed |}]> (w_flights w)) w)).

(** [publishEvent] of a hit. *)
Definition publish_hit (key : gostring) (entry : CacheEntry) (body : gostring) : program world unit :=
  atomically (fun w => ((), logged (ev_hit me key entry body) w)).
Definition publish_followed (key : gostring) (entry : CacheEntry) (body : gostring) : program world unit :=
  atomically (fun w => ((), logged (ev_followed me key entry body) w)).

(** ** The rest of the process *)

(** The upstream changes its mind, time passes, the recorder of content hashes learns, the
    manager is closed. *)
Definition outside (upstream : gmap gostring response) (now : Z) (closed verdict : bool) : program world unit :=
  atomically (fun w => ((), set_outside upstream now closed verdict w)).

End calls.
