(* ===== verification/Manager.v ===== *)
(** * The cache manager (internal/cache/manager.go, package_invalidation.go)

    Every operation of the manager as a program on the world of CacheWorld.v: lookups and
    their snapshots, fills of missing entries, background refreshes, and what removes
    entries again.  Hit counts, scans, events and transfer statistics are left out: they do
    not touch what is cached. *)

From stdpp Require Import gmap.
From S2P Require Export Dialect KeyIdentity CacheWorld.

(** ** Errors *)

Definition ErrManagerClosed : error := Sentinel "cache manager is closed".
Definition ErrCacheMiss : error := Sentinel "cache miss".
Definition ErrNotModified : error := Sentinel "upstream metadata not modified".
Definition errCacheEntryRemovedDuringRefresh : error := Sentinel "cache entry removed during refresh".
Definition errCacheWriteSuperseded : error := Sentinel "cache write superseded by authoritative invalidation".
Definition ErrBodySizeMismatch : error := Sentinel "response body size mismatch".

Definition is_error (e target : error) : bool :=
  match target with Sentinel text => errors_is e text | Errorf _ _ => false end.

(** [errors.Join] *)
Definition errors_Join (errs : list (option error)) : option error :=
  match omap id errs with [] => None | errs => Some (Errorf "errors.Join" errs) end.

(** Errors are told apart by their types, which stand as formats. *)
Fixpoint errors_As (format : string) (e : error) : bool :=
  match e with
  | Sentinel _ => false
  | Errorf f wraps => String.eqb f format || existsb (errors_As format) wraps
  end.

Definition cachePersistenceError (cause : error) : error := Errorf "cache persistence failed: %v" [cause].
Definition isCachePersistenceError (e : error) : bool := errors_As "cache persistence failed: %v" e.

(** An error with a [StaleFallbackPolicy]. *)
Definition policy_error (allowed : bool) : error := Errorf (if allowed then "stale fallback allowed" else "authoritative answer") [].

Fixpoint stale_policy (e : error) : option bool :=
  match e with
  | Sentinel _ => None
  | Errorf f wraps =>
    if String.eqb f "stale fallback allowed" then Some true else if String.eqb f "authoritative answer" then Some false
    else fold_right (fun w found => match stale_policy w with Some b => Some b | None => found end) None wraps
  end.

Definition allowStaleFallback (e : error) : bool := default true (stale_policy e).

Definition error_of {A} (format : string) (r : result A) : option error :=
  match r with Ok _ => None | Err e => Some (Errorf format [e]) end.

(** ** What a lookup answers *)

(** The body is an object of the storage, or the stream of an upstream response. *)
Inductive reader := from_object (body : gostring) | from_upstream (r : response).

Record GetResult := { gr_Reader : reader; gr_ContentType : gostring; gr_Size : Z; gr_Hit : bool; gr_Headers : http_header }.

(** The goroutines a lookup leaves behind. *)
Inductive job :=
  | store_job (key adapterType : gostring) (ttl : Z) (r : response) (writeGeneration : Z)
  | refresh_job (key adapterType : gostring) (ttl : Z).

(** [forceRefreshRequest] *)
Record forceRefreshRequest := { rq_forced : bool; rq_contextBound : bool }.

Definition persistenceRequired (rq : forceRefreshRequest) : bool := rq_contextBound rq || rq_forced rq.

(** The threshold of [isImmutable], whether a [TamperRecorder] is attached, and whether the
    storage stops to read once it has the declared number of bytes. *)
Record manager := { mg_immutableThreshold : Z; mg_tamper : bool; mg_stops : bool }.

Definition refreshWorkerLimit : nat := 16.

Section manager.
Context `{UnicodeTables} `{ModulePackage} (m : manager) (me : nat).

Definition isMutableMetadata (adapterType key : gostring) : bool := str_eqb (ClassifyCacheKind adapterType key) CacheKindMetadata.

Definition isImmutable (ttl : Z) : bool := (mg_immutableThreshold m >? 0) && (ttl >=? mg_immutableThreshold m).

Definition commit_sha (ref : gostring) : bool := (len ref =? 40) && forallb (fun c => in_range 48 57 c || in_range 97 102 c) ref.

Definition tamperEligible (adapterType key : gostring) (ttl : Z) : bool :=
  if negb (isImmutable ttl) then false
  else if negb (str_eqb (to_lower adapterType) (bs "huggingface")) then true
  else commit_sha (ExtractVersion (bs "huggingface") key).

(** ** Metadata *)

Definition responseMetadataFrom (rep : representation) : http_header := cloneResponseMetadata (rp_Headers rep).

(** The metadata columns a write sets. *)
Definition with_metadata (rep : representation) (adapterType : gostring) (size expires now : Z) (entry : CacheEntry) : CacheEntry :=
  let headers := responseMetadataFrom rep in
  {| ce_ID := ce_ID entry; ce_Key := ce_Key entry; ce_AdapterType := ce_AdapterType entry;
     ce_CacheKind := ClassifyCacheKind adapterType (ce_Key entry); ce_StoragePath := ce_StoragePath entry; ce_Size := size;
     ce_HitCount := ce_HitCount entry; ce_ContentType := rp_ContentType rep; ce_ETag := header_Get headers (bs "ETag");
     ce_LastModified := header_Get headers (bs "Last-Modified"); ce_ResponseHeaders := encodeResponseMetadata headers;
     ce_PackageName := ce_PackageName entry; ce_ExpiresAt := expires; ce_LastAccessed := now |}.

Definition new_entry (key adapterType : gostring) (ttl now : Z) (rep : representation) : CacheEntry :=
  with_metadata rep adapterType (len (rp_Body rep)) (now + ttl) now
    {| ce_ID := 0; ce_Key := key; ce_AdapterType := adapterType; ce_CacheKind := []; ce_StoragePath := key; ce_Size := 0;
       ce_HitCount := 0; ce_ContentType := []; ce_ETag := []; ce_LastModified := []; ce_ResponseHeaders := [];
       ce_PackageName := ExtractName adapterType key; ce_ExpiresAt := 0; ce_LastAccessed := 0 |}.

Definition with_expiry (expires : Z) (entry : CacheEntry) : CacheEntry :=
  {| ce_ID := ce_ID entry; ce_Key := ce_Key entry; ce_AdapterType := ce_AdapterType entry; ce_CacheKind := ce_CacheKind entry;
     ce_StoragePath := ce_StoragePath entry; ce_Size := ce_Size entry; ce_HitCount := ce_HitCount entry;
     ce_ContentType := ce_ContentType entry; ce_ETag := ce_ETag entry; ce_LastModified := ce_LastModified entry;
     ce_ResponseHeaders := ce_ResponseHeaders entry; ce_PackageName := ce_PackageName entry; ce_ExpiresAt := expires;
     ce_LastAccessed := ce_LastAccessed entry |}.

(** The integrity check sets the kind and the times. *)
Definition with_kind_and_expiry (adapterType : gostring) (expires now : Z) (entry : CacheEntry) : CacheEntry :=
  {| ce_ID := ce_ID entry; ce_Key := ce_Key entry; ce_AdapterType := ce_AdapterType entry;
     ce_CacheKind := ClassifyCacheKind adapterType (ce_Key entry); ce_StoragePath := ce_StoragePath entry; ce_Size := ce_Size entry;
     ce_HitCount := ce_HitCount entry; ce_ContentType := ce_ContentType entry; ce_ETag := ce_ETag entry;
     ce_LastModified := ce_LastModified entry; ce_ResponseHeaders := ce_ResponseHeaders entry; ce_PackageName := ce_PackageName entry;
     ce_ExpiresAt := expires; ce_LastAccessed := now |}.

Definition hit_result (entry : CacheEntry) (body : gostring) : GetResult :=
  {| gr_Reader := from_object body; gr_ContentType := ce_ContentType entry; gr_Size := len body; gr_Hit := true;
     gr_Headers := decodeStoredResponseMetadata (ce_ResponseHeaders entry) (ce_ETag entry) (ce_LastModified entry) |}.

Definition stream_result (r : response) : GetResult :=
  {| gr_Reader := from_upstream r; gr_ContentType := rp_ContentType (rs_Representation r); gr_Size := rs_Size r; gr_Hit := false;
     gr_Headers := cloneResponseMetadata (responseMetadataFrom (rs_Representation r)) |}.

(** ** Removing *)

Definition removeUncommittedObject (key : gostring) (commitErr : error) : program world (option error) :=
  generation <~ begin_invalidation me key;
  db <~ delete_entry key;
  storage <~ Delete key;
  _ <~ finish_invalidation me key generation (is_ok db || is_ok storage);
  return_ (errors_Join [Some commitErr; error_of "remove uncommitted cache metadata: %w" db; error_of "remove uncommitted cache object: %w" storage]).

Definition discardSupersededWrite (key : gostring) : program world (option error) :=
  db <~ delete_entry key;
  storage <~ Delete key;
  _ <~ (if is_ok db || is_ok storage then mark_cleanup_safe key else return_ ());
  return_ (errors_Join [error_of "delete superseded cache metadata: %w" db; error_of "delete superseded cache object: %w" storage]).

Definition invalidateCachedEntry (key : gostring) : program world (option error) :=
  generation <~ begin_invalidation me key;
  locked <~ lockMutation me key;
  match locked with
  | Err e => _ <~ finish_invalidation me key generation false; return_ (Some e)
  | Ok _ =>
    pending <~ invalidation_pending key generation;
    if negb pending then _ <~ unlock key; _ <~ finish_invalidation me key generation false; return_ None
    else
      db <~ delete_entry key;
      storage <~ Delete key;
      _ <~ unlock key;
      _ <~ finish_invalidation me key generation (is_ok db || is_ok storage);
      return_ (errors_Join [error_of "delete invalid cache metadata: %w" db; error_of "delete invalid cache object: %w" storage])
  end.

Definition Invalidate (key : gostring) : program world (option error) :=
  if bool_decide (key = []) then return_ (Some (Errorf "cache invalidation key is empty" [])) else invalidateCachedEntry key.

(** *** All entries of a package *)

Record packageInvalidationEntry := { pi_Key : gostring; pi_StoragePath : gostring; pi_generation : Z }.
Record PackageInvalidationResult := { pr_Entries : Z; pr_SafeToRestore : bool }.

Definition package_matches (adapterType packageName : gostring) : result (gostring -> bool) :=
  match DialectFor adapterType with
  | Err _ => Ok (fun candidate => str_eqb candidate packageName)
  | Ok dialect =>
    match NormalizePackageName dialect packageName with
    | Err e => Err (Errorf "normalize cache package invalidation identity: %w" [e])
    | Ok packageName => Ok (fun candidate =>
        match NormalizePackageName dialect candidate with Ok candidate => str_eqb candidate packageName | Err _ => false end)
    end
  end.

(** The keys in flight, under refresh and in the table, with the paths of their objects. *)
Definition package_entries (adapterType : gostring) (matches : gostring -> bool) (w : world) : list (gostring * gostring) :=
  let running := filter (fun key => matches (ExtractName adapterType key) = true) (elements (dom (w_inflight w) ∪ w_refreshing w)) in
  let rows := filter (fun row => ce_AdapterType row.2 = adapterType /\ ce_Key row.2 <> [] /\ matches (ce_PackageName row.2) = true) (map_to_list (w_rows w)) in
  let paths : gmap gostring gostring :=
    list_to_map (((fun row => (ce_Key row.2, if bool_decide (ce_StoragePath row.2 = []) then ce_Key row.2 else ce_StoragePath row.2)) <$> rows)
                 ++ ((fun key => (key, key)) <$> running)) in
  map_to_list paths.

Fixpoint begin_invalidations (entries : list (gostring * gostring)) : program world (list packageInvalidationEntry) :=
  match entries with
  | [] => return_ []
  | (key, path) :: entries =>
    generation <~ begin_invalidation me key;
    begun <~ begin_invalidations entries;
    return_ ({| pi_Key := key; pi_StoragePath := path; pi_generation := generation |} :: begun)
  end.

Fixpoint remove_package (entries : list packageInvalidationEntry) (safe : bool) (errs : list (option error)) : program world (bool * option error) :=
  match entries with
  | [] => return_ (safe, errors_Join errs)
  | entry :: entries =>
    let key := pi_Key entry in
    locked <~ lockMutation me key;
    match locked with
    | Err e =>
      _ <~ finish_invalidation me key (pi_generation entry) false;
      remove_package entries false (errs ++ [Some (Errorf "lock package cache entry %q: %w" [e])])
    | Ok _ =>
      pending <~ invalidation_pending key (pi_generation entry);
      '(cleanupSafe, new) <~
        (if negb pending then return_ (false, [Some (Errorf "package cache entry %q was superseded during invalidation" [])])
         else
           db <~ delete_entry key;
           storage <~ Delete (pi_StoragePath entry);
           return_ (is_ok db || is_ok storage,
                    [error_of "delete package cache metadata %q: %w" db; error_of "delete package cache object %q: %w" storage]));
      _ <~ unlock key;
      _ <~ finish_invalidation me key (pi_generation entry) cleanupSafe;
      remove_package entries (safe && cleanupSafe) (errs ++ new)
    end
  end.

(** [inflightMu] and [refreshMu] are held from the listing to the last [beginInvalidation],
    which keeps flights and refreshes from starting and ending meanwhile; here they may. *)
Definition InvalidatePackage (adapterType packageName : gostring) : program world (PackageInvalidationResult * option error) :=
  let nothing := {| pr_Entries := 0; pr_SafeToRestore := false |} in
  let adapterType := to_lower (trim_space adapterType) in
  let packageName := trim_space packageName in
  if bool_decide (adapterType = []) then return_ (nothing, Some (Errorf "cache package invalidation adapter type is empty" [])) else
  if bool_decide (packageName = []) then return_ (nothing, Some (Errorf "cache package invalidation package name is empty" [])) else
  match package_matches adapterType packageName with
  | Err e => return_ (nothing, Some e)
  | Ok matches =>
    listed <~ query (package_entries adapterType matches);
    match listed with
    | Err e => return_ (nothing, Some (Errorf "list package cache entries: %w" [e]))
    | Ok entries =>
      begun <~ begin_invalidations entries;
      '(safe, err) <~ remove_package begun true [];
      return_ ({| pr_Entries := len begun; pr_SafeToRestore := safe |}, err)
    end
  end.

(** ** Reading *)

Definition refreshEntry (key : gostring) : program world (result CacheEntry) :=
  found <~ find_entry key;
  return_ match found with
    | Err e => Err (Errorf "reload cache metadata before refresh: %w" [e])
    | Ok None => Err errCacheEntryRemovedDuringRefresh
    | Ok (Some entry) => Ok entry
    end.

(** [refreshMetadataUpdateError] *)
Definition refreshMetadataUpdateError (update : result Z) (operation : string) : option error :=
  match update with
  | Err e => Some (Errorf operation [e])
  | Ok n => if n =? 0 then Some (Errorf operation [errCacheEntryRemovedDuringRefresh]) else None
  end.

(** Under the gate: the row, and the object as it is now. *)
Definition open_snapshot (key : gostring) (entry : CacheEntry) : program world (result gostring) :=
  reader <~ Get (ce_StoragePath entry);
  return_ match reader with
    | Err e => Err e
    | Ok None => Err (Errorf "key not found: %s" [])
    | Ok (Some body) => Ok body
    end.

Definition serveStale (key : gostring) : program world (result GetResult) :=
  locked <~ lockSnapshot me key;
  match locked with
  | Err e => return_ (Err e)
  | Ok _ =>
    readable <~ is_readable me key;
    if negb readable then _ <~ unlock key; return_ (Err (Errorf "stale cache for %s was authoritatively invalidated" [])) else
    found <~ find_entry key;
    match found with
    | Ok (Some entry) =>
      readable <~ is_readable me key;
      if negb readable then _ <~ unlock key; return_ (Err (Errorf "stale cache for %s was authoritatively invalidated" [])) else
      opened <~ open_snapshot key entry;
      match opened with
      | Err e => _ <~ unlock key; return_ (Err (Errorf "stale cache read failed: %w" [e]))
      | Ok body => _ <~ publish_hit me key entry body; _ <~ unlock key; return_ (Ok (hit_result entry body))
      end
    | _ => _ <~ unlock key; return_ (Err (Errorf "no stale cache for %s" []))
    end
  end.

(** What [get] finds before it asks the upstream. *)
Inductive snapshot :=
  | snap_failed (e : error)
  | snap_hit (entry : CacheEntry) (body : gostring) (fresh : bool)
  | snap_none (exists_ : bool).

(** The part of [get] that reads under the gate, and what it does with a hit. *)
Definition read_snapshot (key adapterType : gostring) : program world snapshot :=
  locked <~ lockSnapshot me key;
  match locked with
  | Err e => return_ (snap_failed e)
  | Ok _ =>
    readable <~ is_readable me key;
    if negb readable then _ <~ unlock key; return_ (snap_none false) else
    found <~ find_entry key;
    match found with
    | Ok (Some entry) =>
      there <~ Exists (ce_StoragePath entry);
      match there with
      | Ok true =>
        time <~ now;
        let fresh := time <? ce_ExpiresAt entry in
        if negb fresh && isMutableMetadata adapterType key then _ <~ unlock key; return_ (snap_none true) else
        readable <~ is_readable me key;
        if negb readable then _ <~ unlock key; return_ (snap_none true) else
        opened <~ open_snapshot key entry;
        match opened with
        | Err _ => _ <~ unlock key; return_ (snap_none true)
        | Ok body => _ <~ unlock key; _ <~ publish_hit me key entry body; return_ (snap_hit entry body fresh)
        end
      | _ => _ <~ unlock key; return_ (snap_none false)
      end
    | _ => _ <~ unlock key; return_ (snap_none false)
    end
  end.

Definition followInflight (key : gostring) (flight : nat) : program world (result GetResult) :=
  landed <~ await flight;
  match landed with
  | Err e => return_ (Err e)
  | Ok f =>
    match fl_err f, fl_committedEntry f with
    | Some e, _ => return_ (Err e)
    | None, None => return_ (Err (Errorf "cache leader completed without committed metadata" []))
    | None, Some entry =>
      locked <~ lockSnapshot me key;
      match locked with
      | Err e => return_ (Err e)
      | Ok _ =>
        readable <~ is_readable me key;
        if negb readable then _ <~ unlock key; return_ (Err ErrCacheMiss) else
        opened <~ open_snapshot key entry;
        _ <~ unlock key;
        match opened with
        | Err e => return_ (Err (Errorf "read from cache after leader commit: %w" [e]))
        | Ok body => _ <~ publish_followed me key entry body; return_ (Ok (hit_result entry body))
        end
      end
    end
  end.

(** ** Filling *)

(** What the storage reads of a response through [exactSizeReader], and whether
    [validateConsumed] agrees afterwards: a storage that stops at the declared size does not
    see that the body goes on, or how it ends. *)
Definition read_stream (r : response) : result (gostring * option error) :=
  let body := rp_Body (rs_Representation r) in
  if complete r then Ok (body, None)
  else if mg_stops m && (0 <=? rs_Size r) && (rs_Size r <=? len body)
  then Ok (take (Z.to_nat (rs_Size r)) body, Some (if rs_Size r <? len body then ErrBodySizeMismatch else default ErrBodySizeMismatch (rs_Broken r)))
  else Err (default ErrBodySizeMismatch (rs_Broken r)).

(** [storage.Put] of a response, and [validateConsumed]: the error, and whether the storage
    succeeded. *)
Definition put_response (key : gostring) (r : response) : program world (option error * bool) :=
  match read_stream r with
  | Err e => return_ (Some e, false)
  | Ok (body, leftover) =>
    put <~ Put key body;
    return_ match put with Err e => (Some e, false) | Ok _ => (leftover, true) end
  end.

(** The error a flight is released with when the storage failed: that of the upstream, the
    cause the storage was detached for, that of the context, or the storage's own. *)
Definition persistence_failure (upstreamFailure : option error) (e : error) : program world error :=
  match upstreamFailure with
  | Some failure => return_ failure
  | None =>
    cancelCause <~ ctx_err;
    match cancelCause with
    | Some cause => return_ (cachePersistenceError cause)
    | None => ctxErr <~ ctx_err; return_ (default (cachePersistenceError e) ctxErr)
    end
  end.

Definition superseded (cleanupErr : option error) : error :=
  cachePersistenceError (default errCacheWriteSuperseded (errors_Join [Some errCacheWriteSuperseded; cleanupErr])).

(** What [storeAndCommit] does under the gate: what the flight is released with, and whether
    the write is finished. *)
Definition store_locked (key adapterType : gostring) (ttl : Z) (r : response) (writeGeneration : Z)
    : program world (option error * option CacheEntry * bool) :=
  current <~ write_current key writeGeneration;
  if negb current then cleanupErr <~ discardSupersededWrite key; return_ (Some (superseded cleanupErr), None, false) else
  '(putErr, putSucceeded) <~ put_response key r;
  match putErr with
  | Some e =>
    removed <~ (if (putSucceeded : bool) then removeUncommittedObject key e else return_ (Some e));
    failure <~ persistence_failure (rs_Broken r) (default e removed);
    return_ (Some failure, None, false)
  | None =>
    current <~ write_current key writeGeneration;
    if negb current then cleanupErr <~ discardSupersededWrite key; return_ (Some (superseded cleanupErr), None, false) else
    time <~ now;
    let entry := new_entry key adapterType ttl time (rs_Representation r) in
    persist <~ upsert entry;
    match persist with
    | Err e =>
      removed <~ removeUncommittedObject key (Errorf "persist cache metadata: %w" [e]);
      return_ (Some (cachePersistenceError (default e removed)), None, false)
    | Ok id =>
      committed <~ commit_write me key writeGeneration;
      if negb committed then cleanupErr <~ discardSupersededWrite key; return_ (Some (superseded cleanupErr), None, false) else
      return_ (None, Some {|
        ce_ID := id; ce_Key := ce_Key entry; ce_AdapterType := ce_AdapterType entry; ce_CacheKind := ce_CacheKind entry;
        ce_StoragePath := ce_StoragePath entry; ce_Size := ce_Size entry; ce_HitCount := ce_HitCount entry;
        ce_ContentType := ce_ContentType entry; ce_ETag := ce_ETag entry; ce_LastModified := ce_LastModified entry;
        ce_ResponseHeaders := ce_ResponseHeaders entry; ce_PackageName := ce_PackageName entry; ce_ExpiresAt := ce_ExpiresAt entry;
        ce_LastAccessed := ce_LastAccessed entry |}, true)
    end
  end.

(** The deferred calls run in reverse: the gate is released, then the write aborted. *)
Definition storeAndCommit (key adapterType : gostring) (ttl : Z) (r : response) (writeGeneration : Z) : program world unit :=
  locked <~ lockMutation me key;
  match locked with
  | Err e =>
    failure <~ persistence_failure None e;
    _ <~ releaseInflight me key (Some failure) None;
    abort_write me key
  | Ok _ =>
    '(err, committed, writeFinished) <~ store_locked key adapterType ttl r writeGeneration;
    _ <~ releaseInflight me key err committed;
    _ <~ unlock key;
    if (writeFinished : bool) then return_ () else abort_write me key
  end.

(** The bounded cleanup after an authoritative answer is logged, not returned. *)
Definition fetchAndStore (rq : forceRefreshRequest) (key adapterType : gostring) (ttl : Z) : program world (result GetResult * option job) :=
  shut <~ closed;
  if (shut : bool) then return_ (Err ErrManagerClosed, None) else
  joined <~ join_or_lead me key;
  match joined with
  | Some flight => r <~ followInflight key flight; return_ (r, None)
  | None =>
    writeGeneration <~ begin_write me key;
    answer <~ fetch me key;
    match answer with
    | Err e =>
      _ <~ (if negb (allowStaleFallback e) then invalidateCachedEntry key else return_ None);
      _ <~ abort_write me key;
      _ <~ releaseInflight me key (Some e) None;
      return_ (Err e, None)
    | Ok r =>
      done <~ ctx_err;
      match done with
      | Some e => _ <~ abort_write me key; _ <~ releaseInflight me key (Some e) None; return_ (Err e, None)
      | None =>
        shut <~ closed;
        if (shut : bool) then _ <~ abort_write me key; _ <~ releaseInflight me key (Some ErrManagerClosed) None; return_ (Err ErrManagerClosed, None)
        else return_ (Ok (stream_result r), Some (store_job key adapterType ttl r writeGeneration))
      end
    end
  end.

(** A stream of its own, which nothing is stored of. *)
Definition fetchPassthrough (key : gostring) : program world (result GetResult) :=
  done <~ ctx_err;
  match done with
  | Some e => return_ (Err e)
  | None =>
    shut <~ closed;
    if (shut : bool) then return_ (Err ErrManagerClosed) else
    answer <~ fetch me key;
    return_ match answer with Err e => Err e | Ok r => Ok (stream_result r) end
  end.

(** ** Refreshing *)

(** The integrity check of an artifact whose bytes must not change, under the gate. *)
Definition verify_locked (key adapterType : gostring) (ttl : Z) (writeGeneration : Z) : program world (option error * bool) :=
  current <~ write_current key writeGeneration;
  if negb current then cleanupErr <~ discardSupersededWrite key; return_ (errors_Join [Some errCacheWriteSuperseded; cleanupErr], false) else
  entry <~ refreshEntry key;
  match entry with
  | Err e => return_ (Some e, false)
  | Ok entry =>
    knownMismatch <~ atomically (fun w => (w_verdict w, w));
    time <~ now;
    update <~ update_entry (ce_ID entry) key (with_kind_and_expiry adapterType (time + ttl) time);
    match refreshMetadataUpdateError update (if (knownMismatch : bool) then "bg tamper TTL update: %w" else "bg integrity TTL update: %w") with
    | Some e => return_ (Some e, false)
    | None =>
      committed <~ commit_write me key writeGeneration;
      if negb committed then cleanupErr <~ discardSupersededWrite key; return_ (errors_Join [Some errCacheWriteSuperseded; cleanupErr], false)
      else return_ (None, true)
    end
  end.

(** The replacement of the object and its metadata, under the gate. *)
Definition replace_locked (key adapterType : gostring) (ttl : Z) (r : response) (writeGeneration : Z) : program world (option error * bool) :=
  current <~ write_current key writeGeneration;
  if negb current then cleanupErr <~ discardSupersededWrite key; return_ (errors_Join [Some errCacheWriteSuperseded; cleanupErr], false) else
  entry <~ refreshEntry key;
  match entry with
  | Err e => return_ (Some e, false)
  | Ok entry =>
    '(putErr, putSucceeded) <~ put_response key r;
    match putErr with
    | Some e =>
      let e := Errorf "bg refresh put: %w" [e] in
      removed <~ (if (putSucceeded : bool) then removeUncommittedObject key e else return_ (Some e));
      return_ (removed, false)
    | None =>
      time <~ now;
      let rep := rs_Representation r in
      update <~ update_entry (ce_ID entry) key (with_metadata rep adapterType (len (rp_Body rep)) (time + ttl) time);
      match refreshMetadataUpdateError update "bg refresh metadata update: %w" with
      | Some e => removed <~ removeUncommittedObject key e; return_ (removed, false)
      | None =>
        committed <~ commit_write me key writeGeneration;
        if negb committed then cleanupErr <~ discardSupersededWrite key; return_ (errors_Join [Some errCacheWriteSuperseded; cleanupErr], false)
        else return_ (None, true)
      end
    end
  end.

Definition verify_only (adapterType key : gostring) (ttl : Z) : bool :=
  mg_tamper m && str_eqb (ClassifyCacheKind adapterType key) CacheKindArtifact && tamperEligible adapterType key ttl.

(** The function literal of [backgroundRefresh]. *)
Definition refresh_once (key adapterType : gostring) (ttl : Z) (writeGeneration : Z) : program world (option error * bool) :=
  answer <~ fetch me key;
  match answer with
  | Err e => return_ (Some e, false)
  | Ok r =>
    if verify_only adapterType key ttl then
      if negb (complete r) then return_ (Some (Errorf "bg verify read: %w" [default ErrBodySizeMismatch (rs_Broken r)]), false) else
      locked <~ lockMutation me key;
      match locked with
      | Err e => return_ (Some e, false)
      | Ok _ => outcome <~ verify_locked key adapterType ttl writeGeneration; _ <~ unlock key; return_ outcome
      end
    else
      locked <~ lockMutation me key;
      match locked with
      | Err e => return_ (Some e, false)
      | Ok _ => outcome <~ replace_locked key adapterType ttl r writeGeneration; _ <~ unlock key; return_ outcome
      end
  end.

Definition backgroundRefresh (key adapterType : gostring) (ttl : Z) : program world unit :=
  writeGeneration <~ begin_write me key;
  '(err, writeFinished) <~ refresh_once key adapterType ttl writeGeneration;
  _ <~ match err with
       | Some e => if is_error e errCacheEntryRemovedDuringRefresh || allowStaleFallback e then return_ None else invalidateCachedEntry key
       | None => return_ None
       end;
  if (writeFinished : bool) then return_ () else abort_write me key.

(** A slot of the refresh workers, unless the key has one or all are taken. *)
Definition admit_refresh (key : gostring) : program world bool := atomically (fun w =>
  if bool_decide (key ∈ w_refreshing w) || (refreshWorkerLimit <=? size (w_refreshing w))%nat then (false, w)
  else (true, set_refreshing ({[key]} ∪ w_refreshing w) w)).

Definition leave_refresh (key : gostring) : program world unit :=
  atomically (fun w => ((), set_refreshing (w_refreshing w ∖ {[key]}) w)).

Definition scheduleBackgroundRefresh (key adapterType : gostring) (ttl : Z) : program world (option job) :=
  admitted <~ admit_refresh key;
  if negb admitted then return_ None else
  shut <~ closed;
  if (shut : bool) then _ <~ leave_refresh key; return_ None else return_ (Some (refresh_job key adapterType ttl)).

Definition run_job (j : job) : program world unit :=
  match j with
  | store_job key adapterType ttl r writeGeneration => storeAndCommit key adapterType ttl r writeGeneration
  | refresh_job key adapterType ttl => _ <~ backgroundRefresh key adapterType ttl; leave_refresh key
  end.

(** ** [Get] *)

(** A 304: the entry is good for another while. *)
Definition revalidate (rq : forceRefreshRequest) (key : gostring) (ttl : Z) : program world (result GetResult) :=
  locked <~ lockMutation me key;
  match locked with
  | Err e => return_ (Err e)
  | Ok _ =>
    entry <~ refreshEntry key;
    match entry with
    | Err e => _ <~ unlock key; return_ (Err e)
    | Ok entry =>
      time <~ now;
      update <~ update_entry (ce_ID entry) key (with_expiry (time + ttl));
      _ <~ unlock key;
      match refreshMetadataUpdateError update "cache validator update: %w" with
      | Some e => if persistenceRequired rq then return_ (Err e) else serveStale key
      | None => serveStale key
      end
    end
  end.

(** What becomes of a failed fetch. *)
Definition fall_back (rq : forceRefreshRequest) (key : gostring) (ttl : Z) (exists_ : bool) (e : error) : program world (result GetResult) :=
  if is_error e ErrNotModified && (exists_ || rq_forced rq) then revalidate rq key ttl
  else if negb (allowStaleFallback e) then return_ (Err e)
  else if rq_forced rq then return_ (Err e)
  else if isCachePersistenceError e && negb (persistenceRequired rq) then
    stale <~ (if exists_ then serveStale key else return_ (Err e));
    match stale with Ok result => return_ (Ok result) | Err _ => fetchPassthrough key end
  else if exists_ then
    stale <~ serveStale key;
    match stale with Ok result => return_ (Ok result) | Err _ => return_ (Err e) end
  else return_ (Err e).

Definition settle (rq : forceRefreshRequest) (key : gostring) (ttl : Z) (exists_ : bool) (r : result GetResult) : program world (result GetResult) :=
  match r with Ok result => return_ (Ok result) | Err e => fall_back rq key ttl exists_ e end.

Definition get (rq : forceRefreshRequest) (key adapterType : gostring) (ttl : Z) : program world (result GetResult * option job) :=
  flight <~ flight_of key;
  match flight with
  | Some flight =>
    r <~ followInflight key flight;
    answer <~ settle rq key ttl true r;
    return_ (answer, None)
  | None =>
    snap <~ (if rq_forced rq then return_ (snap_none false) else read_snapshot key adapterType);
    match snap with
    | snap_failed e => return_ (Err e, None)
    | snap_hit entry body fresh =>
      started <~ (if fresh then return_ None else scheduleBackgroundRefresh key adapterType ttl);
      return_ (Ok (hit_result entry body), started)
    | snap_none exists_ =>
      '(r, started) <~ fetchAndStore rq key adapterType ttl;
      answer <~ settle rq key ttl exists_ r;
      return_ (answer, started)
    end
  end.

(** ** Goroutines *)

(** A caller of [Get]; the goroutine its call starts goes on where it has returned. *)
Definition lookup_thread (rq : forceRefreshRequest) (key adapterType : gostring) (ttl : Z) : program world (option (result GetResult)) :=
  '(answer, started) <~ get rq key adapterType ttl;
  _ <~ match started with Some j => run_job j | None => return_ () end;
  return_ (Some answer).

(** What retention does to an entry (Retention.v), as far as it changes the cache. *)
Definition evict (key : gostring) : program world unit :=
  locked <~ lockMutation me key;
  match locked with
  | Err _ => return_ ()
  | Ok _ =>
    deleted <~ Delete key;
    _ <~ match deleted with Err _ => return_ (Ok ()) | Ok _ => delete_entry key end;
    unlock key
  end.

End manager.
