(* ===== verification/ManagerTheory.v ===== *)
(** * Theory of the cache manager (CacheWorld.v, Manager.v)

    Lookups, fills, refreshes, invalidations and evictions of any number of goroutines in any
    interleaving, any of whose calls may fail.  The protocol: who holds the gate of a key
    alone changes its row and its object; whoever leaves the gate leaves a pair that one
    write put there, or a key the registry keeps unreadable. *)

From stdpp Require Import gmap.
From S2P Require Export Manager.

(** ** Histories, the newest event first *)

(** The key was invalidated and since then neither removed nor replaced. *)
Fixpoint stale (log : list event) (key : gostring) : bool :=
  match log with
  | [] => false
  | ev_invalidated k :: log => bool_decide (k = key) || stale log key
  | ev_removed k :: log | ev_committed k :: log => negb (bool_decide (k = key)) && stale log key
  | _ :: log => stale log key
  end.

(** The representation was fetched for the key and the key not invalidated since. *)
Fixpoint current (log : list event) (key : gostring) (rep : representation) : Prop :=
  match log with
  | [] => False
  | ev_fetched k r :: log => (k = key /\ r = rep) \/ current log key rep
  | ev_invalidated k :: log => k <> key /\ current log key rep
  | _ :: log => current log key rep
  end.

Fixpoint invalidations (log : list event) : Z :=
  match log with
  | [] => 0
  | ev_invalidated _ :: log => invalidations log + 1
  | _ :: log => invalidations log
  end.

Lemma invalidations_nonneg log : 0 <= invalidations log.
Proof. induction log as [|[] log IH]; cbn [invalidations]; lia. Qed.

(** What others' events do to a key: it may become stale, but nothing else. *)
Definition settles (key : gostring) (e : event) : Prop := e = ev_removed key \/ e = ev_committed key.

Lemma stale_cons key e log : ~ settles key e -> stale log key = true -> stale (e :: log) key = true.
Proof.
  intros Hs Ht. unfold settles in Hs. destruct e; cbn [stale]; try done; [by rewrite Ht, orb_true_r|..];
    (rewrite bool_decide_eq_false_2; [done|intros ->; apply Hs; auto]).
Qed.

Lemma current_cons key rep e log : current log key rep -> current (e :: log) key rep \/ stale (e :: log) key = true.
Proof.
  intros Hc. destruct e as [k r|k|k|k|i k|i k x b|i k x b]; cbn [current stale]; try by left.
  - left. by right.
  - destruct (decide (k = key)) as [->|]; [right|by left]. by rewrite bool_decide_eq_true_2.
Qed.

Section theory.
Context `{UnicodeTables}.

(** The row's metadata are those of the representation. *)
Definition describes (entry : CacheEntry) (rep : representation) : Prop :=
  ce_ContentType entry = rp_ContentType rep
  /\ ce_ETag entry = header_Get (responseMetadataFrom rep) (bs "ETag")
  /\ ce_LastModified entry = header_Get (responseMetadataFrom rep) (bs "Last-Modified")
  /\ ce_ResponseHeaders entry = encodeResponseMetadata (responseMetadataFrom rep).

(** Goroutine [me] found the key readable at a moment when the entry and the body were those
    of one representation, fetched since the key was last invalidated. *)
Definition justified (log : list event) (me : nat) (key : gostring) (entry : CacheEntry) (body : gostring) : Prop :=
  exists mid before rep, log = mid ++ ev_admitted me key :: before
    /\ current before key rep /\ describes entry rep /\ body = rp_Body rep.

Definition history_ok (log : list event) : Prop := forall pre post me key entry body,
  log = pre ++ ev_hit me key entry body :: post -> justified post me key entry body.

Lemma justified_more log e me key entry body : justified log me key entry body -> justified (e :: log) me key entry body.
Proof. intros (mid & before & rep & -> & Hr). by exists (e :: mid), before, rep. Qed.

Lemma history_cons e log :
  history_ok log -> (forall me key entry body, e = ev_hit me key entry body -> justified log me key entry body) -> history_ok (e :: log).
Proof.
  intros Hh He pre post me key entry body Heq. destruct pre as [|e' pre]; cbn [app] in Heq; injection Heq as -> ->; [by apply He|].
  by apply (Hh pre post me key entry body).
Qed.

(** ** The invariant *)

Definition writes_of (w : world) : list write := (fun p => wt_write p.2) <$> map_to_list (w_writers w).
Definition invalidations_open (w : world) : list write := (fun p => iv_invalidation p.2) <$> map_to_list (w_invalidators w).

(** The clients of the registry. *)
Definition clients (w : world) (dirty : gset gostring) : Invalidation.world :=
  {| Invalidation.w_registry := w_registry w; w_writes := writes_of w; w_invalidations := invalidations_open w;
     w_dirty := dirty; w_total := invalidations (w_log w) |}.

(** The row and the object are halves of one representation fetched since the last invalidation. *)
Definition paired (key : gostring) (w : world) : Prop := forall row body,
  w_rows w !! key = Some row -> w_objects w !! key = Some body ->
  exists rep, current (w_log w) key rep /\ describes row rep /\ body = rp_Body rep.

Definition intact (key : gostring) (w : world) : Prop := stale (w_log w) key = true \/ paired key w.

Record cache_inv (w : world) : Prop := {
  ci_registry : exists dirty, world_inv (clients w dirty) /\ forall key, stale (w_log w) key = true -> key ∈ dirty;
  ci_writers : forall i x rep, w_writers w !! i = Some x -> wt_rep x = Some rep -> wr_overtaken (wt_write x) = false ->
    current (w_log w) (wr_key (wt_write x)) rep;
  ci_invalidators : forall i k x, w_invalidators w !! (i, k) = Some x ->
    wr_key (iv_invalidation x) = k /\ (iv_scrubbed x = true -> wr_overtaken (iv_invalidation x) = false -> stale (w_log w) k = false);
  ci_data : forall key, w_gate w !! key = None -> intact key w;
  ci_rows : forall key row, w_rows w !! key = Some row -> ce_Key row = key /\ ce_StoragePath row = key;
  ci_history : history_ok (w_log w);
}.

(** ** What others may do *)

(** A key whose gate somebody else holds. *)
Record frame (key : gostring) (w w' : world) : Prop := {
  fr_row : w_rows w' !! key = w_rows w !! key;
  fr_object : w_objects w' !! key = w_objects w !! key;
  fr_stale : stale (w_log w) key = true -> stale (w_log w') key = true;
  fr_current rep : current (w_log w) key rep -> current (w_log w') key rep \/ stale (w_log w') key = true;
}.

(** Writes stay what they are, but may be overtaken, which makes their key stale. *)
Definition writer_kept (gated : gostring -> Prop) (w' : world) (x x' : writer) : Prop :=
  wr_key (wt_write x') = wr_key (wt_write x) /\ wr_generation (wt_write x') = wr_generation (wt_write x) /\ wt_rep x' = wt_rep x
  /\ (wr_overtaken (wt_write x') = true -> wr_overtaken (wt_write x) = true
        \/ (gated (wr_key (wt_write x)) -> stale (w_log w') (wr_key (wt_write x)) = true)).

Definition invalidator_kept (x x' : invalidator) : Prop :=
  wr_generation (iv_invalidation x') = wr_generation (iv_invalidation x) /\ (iv_scrubbed x = true -> iv_scrubbed x' = true).

Definition kept {A} (R : A -> A -> Prop) (o o' : option A) : Prop :=
  match o, o' with Some x, Some x' => R x x' | None, None => True | _, _ => False end.

Record others (i : nat) (w w' : world) : Prop := {
  ot_gate key : w_gate w' !! key = Some i <-> w_gate w !! key = Some i;
  ot_frame key : w_gate w !! key = Some i -> frame key w w';
  ot_log : w_log w `suffix_of` w_log w';
  ot_writer : kept (writer_kept (fun key => w_gate w !! key = Some i) w') (w_writers w !! i) (w_writers w' !! i);
  ot_invalidators key : kept invalidator_kept (w_invalidators w !! (i, key)) (w_invalidators w' !! (i, key));
}.

Lemma frame_refl key w : frame key w w.
Proof. split; auto. Qed.

Lemma frame_trans key w w' w'' : frame key w w' -> frame key w' w'' -> frame key w w''.
Proof.
  intros [R O S C] [R' O' S' C']. split; [congruence|congruence|auto|]. intros rep Hc. destruct (C rep Hc) as [Hc'|Hs]; auto.
Qed.

Lemma cache_others_refl i w : others i w w.
Proof.
  split; [done|intros; apply frame_refl|done|..].
  - destruct (w_writers w !! i); [|done]. split_and!; auto.
  - intros key. destruct (w_invalidators w !! (i, key)); [|done]. by split.
Qed.

Lemma cache_others_trans i w w' w'' : others i w w' -> others i w' w'' -> others i w w''.
Proof.
  intros [G F L W I] [G' F' L' W' I']. split.
  - intros key. by rewrite G', G.
  - intros key Hk. eapply frame_trans; [by apply F|]. apply F'. by apply G.
  - by etrans.
  - destruct (w_writers w !! i), (w_writers w' !! i), (w_writers w'' !! i); try done.
    destruct W as (K & E & R & O), W' as (K' & E' & R' & O'). split_and!; try congruence. intros Ho. rewrite K in O'.
    destruct (O' Ho) as [Ho'|Hs]; [|right; intros Hg; apply Hs; by apply G].
    destruct (O Ho') as [?|Hs]; [by left|right]. intros Hg. apply (fr_stale _ _ _ (F' _ (proj2 (G _) Hg))). auto.
  - intros key. specialize (I key). specialize (I' key).
    destruct (w_invalidators w !! (i, key)), (w_invalidators w' !! (i, key)), (w_invalidators w'' !! (i, key)); try done.
    destruct I as [E S], I' as [E' S']. split; [congruence|auto].
Qed.

(** The [uint64] generations do not wrap. *)
Definition countable (w : world) : Prop := few (invalidations (w_log w)).

Definition cache_protocol : protocol world :=
  {| bounded := countable; invariant := cache_inv; rely := others; rely_refl := cache_others_refl; rely_trans := cache_others_trans |}.

(** ** What a goroutine knows *)

Section goroutine.
Context (me : nat).

(** The write a goroutine has begun: its key, generation and fetched representation, and
    whether it knows, while it holds the gate, that being overtaken makes the key stale. *)
Abbreviation writing := (option (gostring * Z * option representation * bool)).

(** The invalidations it has begun: their generations, and whether it has scrubbed the key. *)
Abbreviation invalidating := (gmap gostring (Z * bool)).

Record state (g : option gostring) (x : writing) (l : invalidating) (w : world) : Prop := {
  st_gate key : w_gate w !! key = Some me <-> g = Some key;
  st_writer : match x with
    | None => w_writers w !! me = None
    | Some (key, gen, rep, checked) => exists v, w_writers w !! me = Some v /\ wr_key (wt_write v) = key
        /\ wr_generation (wt_write v) = gen /\ wt_rep v = rep
        /\ (checked = true -> g = Some key -> wr_overtaken (wt_write v) = true -> stale (w_log w) key = true)
    end;
  st_invalidators key : match l !! key with
    | None => w_invalidators w !! (me, key) = None
    | Some (gen, scrubbed) => exists v, w_invalidators w !! (me, key) = Some v
        /\ wr_generation (iv_invalidation v) = gen /\ (scrubbed = true -> iv_scrubbed v = true)
    end;
}.

Definition unchecked (x : writing) : writing := match x with Some (key, gen, rep, _) => Some (key, gen, rep, false) | None => None end.

(** Facts that the steps of others keep while this goroutine holds the gate [g]. *)
Class Framed (g : option gostring) (F : world -> Prop) : Prop :=
  framed w w' : F w -> w_log w `suffix_of` w_log w' -> (forall key, g = Some key -> frame key w w') -> F w'.

Definition row_is (key : gostring) (row : option CacheEntry) (w : world) : Prop := w_rows w !! key = row.
Definition object_is (key body : gostring) (w : world) : Prop := w_objects w !! key = Some body.
Definition absent (key : gostring) (w : world) : Prop := w_rows w !! key = None \/ w_objects w !! key = None.
Definition wrote (key : gostring) (rep : representation) (w : world) : Prop :=
  (exists row, w_rows w !! key = Some row /\ describes row rep) /\ w_objects w !! key = Some (rp_Body rep).
Definition admitted (key : gostring) (w : world) : Prop := forall row body,
  w_rows w !! key = Some row -> w_objects w !! key = Some body -> justified (w_log w) me key row body.
Definition readable_hit (key : gostring) (row : CacheEntry) (body : gostring) (w : world) : Prop := justified (w_log w) me key row body.
Definition served (key : gostring) (row : CacheEntry) (body : gostring) (w : world) : Prop := ev_hit me key row body ∈ w_log w.
Definition followed (key : gostring) (row : CacheEntry) (body : gostring) (w : world) : Prop := ev_followed me key row body ∈ w_log w.
Definition is_stale (key : gostring) (w : world) : Prop := stale (w_log w) key = true.

#[export] Instance framed_true g : Framed g (fun _ => True).
Proof. by intros w w'. Qed.
#[export] Instance framed_pure g (P : Prop) : Framed g (fun _ => P).
Proof. by intros w w'. Qed.
#[export] Instance framed_and g F G : Framed g F -> Framed g G -> Framed g (fun w => F w /\ G w).
Proof. intros HF HG w w' [Hf Hg] Hl Hfr. split; [by eapply HF|by eapply HG]. Qed.
#[export] Instance framed_row key row : Framed (Some key) (row_is key row).
Proof. intros w w' Hr _ Hfr. unfold row_is. by rewrite (fr_row _ _ _ (Hfr key eq_refl)). Qed.
#[export] Instance framed_object key body : Framed (Some key) (object_is key body).
Proof. intros w w' Hr _ Hfr. unfold object_is. by rewrite (fr_object _ _ _ (Hfr key eq_refl)). Qed.
#[export] Instance framed_absent key : Framed (Some key) (absent key).
Proof. intros w w' Hr _ Hfr. destruct (Hfr key eq_refl) as [R O _ _]. unfold absent. by rewrite R, O. Qed.
#[export] Instance framed_wrote key rep : Framed (Some key) (wrote key rep).
Proof. intros w w' Hr _ Hfr. destruct (Hfr key eq_refl) as [R O _ _]. unfold wrote. by rewrite R, O. Qed.
#[export] Instance framed_stale key : Framed (Some key) (is_stale key).
Proof. intros w w' Hr _ Hfr. by apply (Hfr key eq_refl). Qed.
#[export] Instance framed_intact key : Framed (Some key) (intact key).
Proof.
  intros w w' [Hs|Hp] _ Hfr; destruct (Hfr key eq_refl) as [R O S C]; [left; auto|]. destruct (stale (w_log w') key) eqn:E; [by left|right].
  intros row body. rewrite R, O. intros Hr Ho. destruct (Hp row body Hr Ho) as (rep & Hc & Hd). exists rep. split; [|done].
  destruct (C rep Hc) as [?|?]; [done|congruence].
Qed.
Lemma justified_suffix log log' key row body : log `suffix_of` log' -> justified log me key row body -> justified log' me key row body.
Proof. intros [l ->] (mid & before & rep & -> & Hr). exists (l ++ mid), before, rep. by rewrite <- app_assoc. Qed.
#[export] Instance framed_admitted key : Framed (Some key) (admitted key).
Proof.
  intros w w' Ha Hl Hfr row body. destruct (Hfr key eq_refl) as [R O _ _]. rewrite R, O. intros Hr Ho.
  eapply justified_suffix; [exact Hl|]. by apply Ha.
Qed.
#[export] Instance framed_readable_hit g key row body : Framed g (readable_hit key row body).
Proof. intros w w' Hj Hl _. by eapply justified_suffix. Qed.
#[export] Instance framed_served g key row body : Framed g (served key row body).
Proof. intros w w' Hs [l Hl] _. unfold served. rewrite Hl. apply elem_of_app. by right. Qed.
#[export] Instance framed_followed g key row body : Framed g (followed key row body).
Proof. intros w w' Hs [l Hl] _. unfold followed. rewrite Hl. apply elem_of_app. by right. Qed.

(** The assertions of the proofs: what the goroutine has open, and facts. *)
Definition knows (g : option gostring) (x : writing) (l : invalidating) (F : world -> Prop) (w : world) : Prop := state g x l w /\ F w.

Lemma state_steady g x l w w' : state g x l w -> others me w w' -> state g x l w'.
Proof.
  intros [G X L] [OG OF OL OW OI]. split.
  - intros key. by rewrite OG.
  - destruct x as [[[[key gen] rep] checked]|].
    + destruct X as (v & Hv & K & E & R & C). rewrite Hv in OW. destruct (w_writers w' !! me) as [v'|]; [|done].
      destruct OW as (K' & E' & R' & O'). exists v'. split_and!; try congruence. intros Hc Hg Ho. subst key.
      destruct (O' Ho) as [Ho'|Hs]; [|apply Hs, G; congruence]. apply (fr_stale _ w); [apply OF, G; congruence|auto].
    + rewrite X in OW. by destruct (w_writers w' !! me).
  - intros key. specialize (L key). specialize (OI key). destruct (l !! key) as [[gen scrubbed]|].
    + destruct L as (v & Hv & E & S). rewrite Hv in OI. destruct (w_invalidators w' !! (me, key)) as [v'|]; [|done].
      destruct OI as [E' S']. exists v'. split_and!; [done|congruence|auto].
    + rewrite L in OI. by destruct (w_invalidators w' !! (me, key)).
Qed.

Lemma cache_knows_steady g x l F : Framed g F -> steady cache_protocol me (knows g x l F).
Proof.
  intros HF w w' [Hs Hf] Ho _. cbn in Ho. split; [by apply (state_steady _ _ _ w)|]. eapply HF; [exact Hf|apply Ho|].
  intros key ->. apply (ot_frame _ _ _ Ho). by apply (st_gate _ _ _ _ Hs).
Qed.

Abbreviation spec := (hoare cache_protocol me).

(** ** The steps *)

(** What a step of this goroutine must not do to the others. *)
Lemma step_good w w' :
  cache_inv w' ->
  (forall key j, j <> me -> w_gate w' !! key = Some j <-> w_gate w !! key = Some j) ->
  (forall key j, j <> me -> w_gate w !! key = Some j -> frame key w w') ->
  w_log w `suffix_of` w_log w' ->
  (forall j, j <> me -> kept (writer_kept (fun key => w_gate w !! key = Some j) w') (w_writers w !! j) (w_writers w' !! j)) ->
  (forall j key, j <> me -> kept invalidator_kept (w_invalidators w !! (j, key)) (w_invalidators w' !! (j, key))) ->
  good cache_protocol me w w'.
Proof. intros Hi Hg Hf Hl Hw Hv. split; [done|]. intros j Hj. cbn. split; [intros; by apply Hg|intros; by eapply Hf|done|by apply Hw|intros; by apply Hv]. Qed.

Lemma writer_kept_refl gated w' o : kept (writer_kept gated w') o o.
Proof. destruct o; [|done]. split_and!; auto. Qed.

Lemma invalidator_kept_refl o : kept invalidator_kept o o.
Proof. destruct o; [|done]. by split. Qed.

(** Steps that leave the cache, the registry and the history alone. *)
Record same_core (w w' : world) : Prop := {
  sc_rows : w_rows w' = w_rows w;
  sc_objects : w_objects w' = w_objects w;
  sc_gate : w_gate w' = w_gate w;
  sc_registry : w_registry w' = w_registry w;
  sc_log : w_log w' = w_log w;
  sc_writers : w_writers w' = w_writers w;
  sc_invalidators : w_invalidators w' = w_invalidators w;
}.

Lemma same_core_inv w w' : same_core w w' -> cache_inv w -> cache_inv w'.
Proof.
  intros [R O G Y L W V] [Ir Iw Iv Id Io Ih]. split; unfold intact, paired, clients, writes_of, invalidations_open in *; rewrite ?R, ?O, ?G, ?Y, ?L, ?W, ?V; auto.
Qed.

Lemma same_core_frame key w w' : same_core w w' -> frame key w w'.
Proof. intros [R O G Y L W V]. split; rewrite ?R, ?O, ?L; auto. Qed.

Lemma same_core_step {A} (P : world -> Prop) (f : world -> A * world) (Q : A -> world -> Prop) :
  (forall w, same_core w (f w).2) -> (forall w, cache_inv w -> P w -> Q (f w).1 (f w).2) -> sound_step cache_protocol me P f Q.
Proof.
  intros Hs Hq w Hi Hp _. split; [|by apply Hq]. pose proof (Hs w) as Hc. apply step_good; [by eapply same_core_inv|..];
    destruct Hc as [R O G Y L W V]; rewrite ?G, ?L, ?W, ?V; auto.
  - intros. split; rewrite ?R, ?O, ?L; auto.
  - intros. apply writer_kept_refl.
  - intros. apply invalidator_kept_refl.
Qed.

Lemma same_core_state g x l w w' : same_core w w' -> state g x l w -> state g x l w'.
Proof. intros [R O G Y L W V] [Sg Sw Si]. split; rewrite ?G, ?L, ?W, ?V; auto. Qed.

Lemma same_core_knows g x l F w w' : Framed g F -> same_core w w' -> knows g x l F w -> knows g x l F w'.
Proof.
  intros HF Hc [Hs Hf]. split; [by eapply same_core_state|]. eapply HF; [exact Hf|by rewrite (sc_log _ _ Hc)|]. intros. by apply same_core_frame.
Qed.

Lemma spec_outside {A} (f : world -> A * world) g x l F :
  Framed g F -> (forall w, same_core w (f w).2) -> spec (knows g x l F) (atomically f) (fun _ => knows g x l F).
Proof.
  intros HF Hs. apply hoare_step; [by apply cache_knows_steady|intros; by apply cache_knows_steady|].
  apply same_core_step; [done|]. intros w Hi Hk. by eapply same_core_knows.
Qed.

Lemma cache_spec_query {A} ready effectful (f : world -> A) g x l F :
  Framed g F -> spec (knows g x l F) (request ready effectful (fun w => (f w, w)) return_) (fun _ => knows g x l F).
Proof. intros HF. apply hoare_read; auto; intros; by apply cache_knows_steady. Qed.

Lemma cache_spec_ctx_err g x l F : Framed g F -> spec (knows g x l F) ctx_err (fun _ => knows g x l F).
Proof. intros HF. apply hoare_ctx_err; [by apply cache_knows_steady|done]. Qed.

Lemma cache_spec_return {A} (a : A) g x l F (Q : A -> world -> Prop) :
  Framed g F -> (forall w, cache_inv w -> knows g x l F w -> Q a w) -> spec (knows g x l F) (return_ a) Q.
Proof. intros HF Hq. apply hoare_return; [by apply cache_knows_steady|done]. Qed.

(** *** The gate *)

Lemma framed_any g F : Framed None F -> Framed g F.
Proof. intros HF w w' Hf Hl _. by eapply HF. Qed.

Lemma set_gate_inv gate w : cache_inv w -> (forall key, gate !! key = None -> intact key w) -> cache_inv (set_gate gate w).
Proof. intros [Ir Iw Iv Id Io Ih] Hd. by split. Qed.

Lemma set_gate_good gate w :
  cache_inv w -> (forall key, gate !! key = None -> intact key w) ->
  (forall key j, j <> me -> gate !! key = Some j <-> w_gate w !! key = Some j) -> good cache_protocol me w (set_gate gate w).
Proof.
  intros Hi Hd Hg. apply step_good; [by apply set_gate_inv|done|..]; cbn.
  - intros. by split; cbn; auto.
  - done.
  - intros. apply writer_kept_refl.
  - intros. apply invalidator_kept_refl.
Qed.

Lemma cache_spec_lock enforce key x l F :
  Framed None F ->
  spec (knows None x l F) (lock me enforce key)
    (fun a => match a with Ok _ => knows (Some key) (unchecked x) l (fun w => F w /\ intact key w) | Err _ => knows None x l F end).
Proof.
  intros HF. assert (Framed (Some key) F) by by apply framed_any. apply hoare_request.
  - by apply cache_knows_steady.
  - intros []; apply cache_knows_steady; apply _.
  - intros w Hi [[[Sg Sw Sl] Hf] Hready] _. apply andb_true_iff in Hready as [Hfree%bool_decide_eq_true _].
    pose proof (ci_data _ Hi key Hfree) as Hint. split; [apply set_gate_good; [done|..]|split; [|done]]; cbn [fst snd].
    + intros k Hk. apply lookup_insert_None in Hk as [Hk _]. by apply Hi.
    + intros k j Hj. destruct (decide (k = key)) as [->|Hne].
      * rewrite lookup_insert_eq, Hfree. split; [intros [= ->]; done|done].
      * by rewrite lookup_insert_ne.
    + split; [split|split; [|exact Hint]].
      * intros k. cbn. destruct (decide (k = key)) as [->|Hne]; [rewrite lookup_insert_eq; naive_solver|].
        rewrite lookup_insert_ne, Sg by done. naive_solver.
      * destruct x as [[[[k gen] rep] checked]|]; [|done]. destruct Sw as (v & ? & ? & ? & ? & _). exists v. by split_and!.
      * done.
      * eapply HF; [exact Hf|done|done].
  - intros w e _ Hk. exact Hk.
Qed.

Lemma cache_spec_unlock key x l F :
  Framed None F ->
  spec (knows (Some key) x l (fun w => F w /\ intact key w)) (unlock key) (fun _ => knows None (unchecked x) l F).
Proof.
  intros HF. assert (Framed (Some key) F) by by apply framed_any. apply hoare_step.
  - apply cache_knows_steady. apply _.
  - intros _. by apply cache_knows_steady.
  - intros w Hi [[Sg Sw Sl] [Hf Hint]] _. split; cbn [fst snd]; [apply set_gate_good; [done|..]|split; [split|]].
    + intros k Hk. destruct (decide (k = key)) as [->|Hne]; [done|]. rewrite lookup_delete_ne in Hk by done. by apply Hi.
    + intros k j Hj. destruct (decide (k = key)) as [->|Hne]; [|by rewrite lookup_delete_ne].
      rewrite lookup_delete_eq. split; [done|]. intros Hk. pose proof (proj2 (Sg key) eq_refl). congruence.
    + intros k. cbn. destruct (decide (k = key)) as [->|Hne]; [by rewrite lookup_delete_eq|].
      rewrite lookup_delete_ne, Sg by done. naive_solver.
    + destruct x as [[[[k gen] rep] checked]|]; [|done]. destruct Sw as (v & ? & ? & ? & ? & _). exists v. by split_and!.
    + done.
    + eapply HF; [exact Hf|done|done].
Qed.

(** *** The history *)

Lemma logged_inv e w :
  cache_inv w -> (forall key, ~ settles key e) -> (forall key, e <> ev_invalidated key) ->
  (forall i key entry body, e = ev_hit i key entry body -> justified (w_log w) i key entry body) -> cache_inv (logged e w).
Proof.
  intros [Ir Iw Iv Id Io Ih] Hs Hn Hh.
  assert (forall key, stale (e :: w_log w) key = stale (w_log w) key) as Hst.
  { intros key. destruct e; cbn [stale]; try done; exfalso; [by eapply Hn|eapply Hs; by left|eapply Hs; by right]. }
  assert (forall key rep, current (w_log w) key rep -> current (e :: w_log w) key rep) as Hcu.
  { intros key rep. destruct e; cbn [current]; auto. intros _. exfalso. by eapply Hn. }
  assert (invalidations (e :: w_log w) = invalidations (w_log w)) as Htot by (destruct e; try done; exfalso; by eapply Hn).
  split; cbn [w_log logged w_writers w_invalidators w_rows w_objects w_gate w_registry].
  - destruct Ir as (dirty & Hw & Hd). exists dirty. split; [|intros key; rewrite Hst; apply Hd].
    unfold clients in *. cbn [w_log logged]. by rewrite Htot.
  - intros i x rep Hx Hr Ho. eapply Hcu, Iw; eauto.
  - intros i k x Hx. rewrite Hst. by eapply Iv.
  - intros key Hk. destruct (Id key Hk) as [?|Hp]; [left; by rewrite Hst|right]. intros row body Hr Ho.
    destruct (Hp row body Hr Ho) as (rep & Hc & Hd). exists rep. split; [by apply Hcu|done].
  - done.
  - by apply history_cons.
Qed.

Lemma logged_frame key e w : ~ settles key e -> frame key w (logged e w).
Proof. intros Hs. split; cbn; [done|done|by apply stale_cons|intros rep; apply current_cons]. Qed.

Lemma logged_good e w :
  cache_inv (logged e w) -> (forall key, ~ settles key e) -> good cache_protocol me w (logged e w).
Proof.
  intros Hi Hs. apply step_good; [done|done|..]; cbn.
  - intros. by apply logged_frame.
  - by exists [e].
  - intros. apply writer_kept_refl.
  - intros. apply invalidator_kept_refl.
Qed.

Lemma logged_state e g x l w : (forall key, ~ settles key e) -> state g x l w -> state g x l (logged e w).
Proof.
  intros Hs [Sg Sw Sl]. split; [done| |done]. destruct x as [[[[k gen] rep] checked]|]; [|done].
  destruct Sw as (v & ? & ? & ? & ? & Hc). exists v. split_and!; try done. intros. apply stale_cons; auto.
Qed.

Lemma logged_knows e g x l F w :
  Framed g F -> (forall key, ~ settles key e) -> knows g x l F w -> knows g x l F (logged e w).
Proof.
  intros HF Hs [St Hf]. split; [by apply logged_state|]. eapply HF; [exact Hf|by exists [e]|]. intros. by apply logged_frame.
Qed.

(** The registry refuses stale keys. *)
Lemma readable_fresh key w : cache_inv w -> readable (w_registry w) key = true -> stale (w_log w) key = false.
Proof.
  intros Hi Hr. destruct (ci_registry _ Hi) as (dirty & Hw & Hd). destruct (stale (w_log w) key) eqn:E; [|done].
  specialize (Hd key E). pose proof (ro_key _ _ _ _ _ (wi_registry _ Hw) key) as Hk. cbn in Hk. unfold readable in Hr.
  apply andb_true_iff in Hr as [Hf%negb_true_iff Hr]. destruct (reg_states (w_registry w) !! key) as [s|] eqn:Es; cbn in Hk.
  - destruct Hk as (_ & _ & _ & _ & _ & Hds). destruct (proj1 (Hds Hf)) as [Ht _]; [by apply bool_decide_eq_true|]. by rewrite Ht in Hr.
  - destruct Hk as (_ & _ & Hn). specialize (Hn Hf). by apply bool_decide_eq_false in Hn.
Qed.

Lemma spec_is_readable key x l F :
  Framed (Some key) F ->
  spec (knows (Some key) x l (fun w => F w /\ intact key w)) (is_readable me key)
    (fun b => knows (Some key) x l (fun w => (F w /\ intact key w) /\ (if b then admitted key w else True))).
Proof.
  intros HF. apply hoare_step.
  - apply cache_knows_steady. apply _.
  - intros []; apply cache_knows_steady; apply _.
  - intros w Hi Hk _. cbn [is_readable atomically]. destruct (readable (w_registry w) key) eqn:E; cbn [fst snd].
    + assert (forall k, ~ settles k (ev_admitted me key)) as Hs by (intros k [?|?]; done).
      assert (cache_inv (logged (ev_admitted me key) w)) as Hi' by by apply logged_inv.
      split; [by apply logged_good|]. apply (logged_knows (ev_admitted me key)) in Hk; [|apply _|done]. destruct Hk as [St [Hf Hint]].
      split; [done|]. split; [done|]. intros row body Hr Ho. destruct Hint as [Hst|Hp].
      { cbn in Hst. by rewrite (readable_fresh key w Hi E) in Hst. }
      destruct (Hp row body Hr Ho) as (rep & Hc & Hd & Hb). exists [], (w_log w), rep. by split_and!.
    + split; [|by destruct Hk as [St Hf]]. split; [done|]. intros j _. apply cache_others_refl.
Qed.

Lemma spec_publish_hit key g x l F row body :
  Framed g F ->
  spec (knows g x l (fun w => F w /\ readable_hit key row body w)) (publish_hit me key row body)
    (fun _ => knows g x l (fun w => F w /\ served key row body w)).
Proof.
  intros HF. apply hoare_step.
  - apply cache_knows_steady. apply _.
  - intros _. apply cache_knows_steady. apply _.
  - intros w Hi Hk _. cbn [publish_hit atomically fst snd].
    assert (forall k, ~ settles k (ev_hit me key row body)) as Hs by (intros k [?|?]; done).
    assert (cache_inv (logged (ev_hit me key row body) w)) as Hi'.
    { apply logged_inv; [done|done|done|]. intros i k r b [= <- <- <- <-]. by destruct Hk as [_ [_ Hj]]. }
    split; [by apply logged_good|]. apply (logged_knows (ev_hit me key row body)) in Hk; [|apply _|done]. destruct Hk as [St [Hf _]].
    split; [done|]. split; [done|]. apply elem_of_cons. by left.
Qed.

Lemma spec_publish_followed key g x l F row body :
  Framed g F -> spec (knows g x l F) (publish_followed me key row body) (fun _ => knows g x l (fun w => F w /\ followed key row body w)).
Proof.
  intros HF. apply hoare_step; [by apply cache_knows_steady|intros; apply cache_knows_steady; apply _|]. intros w Hi Hk _. cbn [publish_followed atomically fst snd].
  assert (forall k, ~ settles k (ev_followed me key row body)) as Hs by (intros k [?|?]; done).
  split; [apply logged_good; [by apply logged_inv|done]|]. apply (logged_knows (ev_followed me key row body)) in Hk; [|done|done].
  destruct Hk as [St Hf]. split; [done|]. split; [done|]. apply elem_of_cons. by left.
Qed.

(** *** The clients of the registry *)

Lemma world_inv_perm (a b : Invalidation.world) :
  world_inv a -> Invalidation.w_registry b = Invalidation.w_registry a ->
  Invalidation.w_writes b ≡ₚ Invalidation.w_writes a -> w_invalidations b ≡ₚ w_invalidations a ->
  w_dirty b = w_dirty a -> w_total b = w_total a -> world_inv b.
Proof.
  destruct a as [r ws vs d t], b as [r' ws' vs' d' t']. cbn. intros [[Hk Hr Hb] Ht Hc] -> Hw Hv -> ->. cbn in *. split; cbn; [split|done|].
  - intros k. specialize (Hk k). unfold writers_of, invalidations_of in *. by rewrite (count_perm _ _ _ Hw), (count_perm _ _ _ Hv).
  - done.
  - done.
  - intros Hf x. rewrite Hw, Hv. by apply Hc.
Qed.

Lemma writes_insert m x :
  m !! me = None ->
  (fun p : nat * writer => wt_write p.2) <$> map_to_list (<[me := x]> m) ≡ₚ wt_write x :: ((fun p => wt_write p.2) <$> map_to_list m).
Proof. intros Hm. by rewrite map_to_list_insert by done. Qed.

Lemma writes_delete m x :
  m !! me = Some x ->
  (fun p : nat * writer => wt_write p.2) <$> map_to_list m ≡ₚ wt_write x :: ((fun p => wt_write p.2) <$> map_to_list (delete me m)).
Proof. intros Hm. rewrite <- (insert_delete_id m me x Hm) at 1. rewrite writes_insert; [done|]. apply lookup_delete_eq. Qed.

Lemma opens_insert m key x :
  m !! (me, key) = None ->
  (fun p : (nat * gostring) * invalidator => iv_invalidation p.2) <$> map_to_list (<[(me, key) := x]> m)
  ≡ₚ iv_invalidation x :: ((fun p => iv_invalidation p.2) <$> map_to_list m).
Proof. intros Hm. by rewrite map_to_list_insert by done. Qed.

Lemma opens_delete m key x :
  m !! (me, key) = Some x ->
  (fun p : (nat * gostring) * invalidator => iv_invalidation p.2) <$> map_to_list m
  ≡ₚ iv_invalidation x :: ((fun p => iv_invalidation p.2) <$> map_to_list (delete (me, key) m)).
Proof. intros Hm. rewrite <- (insert_delete_id m (me, key) x Hm) at 1. rewrite opens_insert; [done|]. apply lookup_delete_eq. Qed.

(** What the registry knows of an open write is right, and of an open invalidation, too. *)
Lemma write_current_iff w i v :
  cache_inv w -> countable w -> w_writers w !! i = Some v ->
  writeCurrent (w_registry w) (wr_key (wt_write v)) (wr_generation (wt_write v)) = negb (wr_overtaken (wt_write v)).
Proof.
  intros Hi Hf Hv. destruct (ci_registry _ Hi) as (dirty & Hw & _).
  destruct (wi_clients _ Hw Hf (wt_write v)) as (s & Hs & Hg & Ho).
  { apply elem_of_app. left. apply list_elem_of_fmap. exists (i, v). split; [done|]. by apply elem_of_map_to_list. }
  unfold writeCurrent. cbn in Hs. rewrite Hs. destruct (wr_overtaken (wt_write v)); destruct (Z.eqb_spec (inv_generation s) (wr_generation (wt_write v))); try done; exfalso.
  - destruct Ho as [Ho _]. specialize (Ho eq_refl). lia.
  - destruct Ho as [_ Ho]. assert (false = true) by (apply Ho; lia). done.
Qed.

Lemma pending_current w i key v :
  cache_inv w -> countable w -> w_invalidators w !! (i, key) = Some v ->
  invalidationPending (w_registry w) key (wr_generation (iv_invalidation v)) = true -> wr_overtaken (iv_invalidation v) = false.
Proof.
  intros Hi Hf Hv Hp. destruct (ci_registry _ Hi) as (dirty & Hw & _). destruct (ci_invalidators _ Hi i key v Hv) as [Hk _].
  destruct (wi_clients _ Hw Hf (iv_invalidation v)) as (s & Hs & Hg & Ho).
  { apply elem_of_app. right. apply list_elem_of_fmap. exists ((i, key), v). split; [done|]. by apply elem_of_map_to_list. }
  unfold invalidationPending in Hp. cbn in Hs. rewrite <- Hk, Hs in Hp. apply andb_true_iff in Hp as [Hp%Z.eqb_eq _].
  destruct (wr_overtaken (iv_invalidation v)); [|done]. destruct Ho as [Ho _]. specialize (Ho eq_refl). lia.
Qed.

(** Steps on the registry alone. *)
Lemma set_registry_good r writers opens w :
  cache_inv (set_registry r writers opens w) ->
  (forall j, j <> me -> writers !! j = w_writers w !! j) -> (forall j key, j <> me -> opens !! (j, key) = w_invalidators w !! (j, key)) ->
  good cache_protocol me w (set_registry r writers opens w).
Proof.
  intros Hi Hw Hv. apply step_good; [done|done|..]; cbn.
  - intros. by split; cbn; auto.
  - done.
  - intros. rewrite Hw by done. apply writer_kept_refl.
  - intros. rewrite Hv by done. apply invalidator_kept_refl.
Qed.

Lemma set_registry_frame key r writers opens w : frame key w (set_registry r writers opens w).
Proof. by split; cbn; auto. Qed.

Lemma framed_registry g F r writers opens w : Framed g F -> F w -> F (set_registry r writers opens w).
Proof. intros HF Hf. eapply HF; [exact Hf|done|]. intros. apply set_registry_frame. Qed.

Lemma spec_begin_write key g l F :
  Framed g F -> spec (knows g None l F) (begin_write me key) (fun gen => knows g (Some (key, gen, None, false)) l F).
Proof.
  intros HF. apply hoare_step; [by apply cache_knows_steady|intros; by apply cache_knows_steady|].
  intros w Hi [[Sg Sw Sl] Hf] _. cbn [begin_write atomically]. destruct (beginWrite (w_registry w) key) as [r gen] eqn:E. cbn [fst snd].
  split; [apply set_registry_good; [|intros; by rewrite lookup_insert_ne|done]|split; [split|]].
  - destruct Hi as [(dirty & Hw & Hd) Iw Iv Id Io Ih]. split; [|..|done|done|done|done]; cbn.
    + exists dirty. split; [|done]. apply (begin_write_inv _ _ _ _ Hw) in E. apply (world_inv_perm _ _ E); try done.
      cbn. unfold writes_of. cbn. by rewrite writes_insert by done.
    + intros i x rep Hx. destruct (decide (i = me)) as [->|Hne]; [|rewrite lookup_insert_ne in Hx by done; by apply Iw with i].
      rewrite lookup_insert_eq in Hx. injection Hx as <-. done.
  - done.
  - cbn. eexists. rewrite lookup_insert_eq. by split_and!.
  - done.
  - by apply framed_registry with g.
Qed.

Lemma spec_write_current key gen rep l F :
  Framed (Some key) F ->
  spec (knows (Some key) (Some (key, gen, rep, false)) l F) (write_current key gen)
    (fun b => knows (Some key) (Some (key, gen, rep, b)) l F).
Proof.
  intros HF. apply hoare_step; [by apply cache_knows_steady|intros; by apply cache_knows_steady|].
  intros w Hi [[Sg (v & Hv & K & G & R & _) Sl] Hf] Hb. cbn [write_current atomically fst snd].
  split; [split; [done|]; intros j _; apply cache_others_refl|]. split; [|done]. split; [done| |done]. exists v. split_and!; try done.
  intros Hc _ Ho. rewrite <- K, <- G, (write_current_iff w me v) in Hc by done. by rewrite Ho in Hc.
Qed.

(** A write found superseded after it was found current: the key is stale. *)
Lemma spec_write_current_again key gen rep l F :
  Framed (Some key) F ->
  spec (knows (Some key) (Some (key, gen, rep, true)) l F) (write_current key gen)
    (fun b => knows (Some key) (Some (key, gen, rep, true)) l (fun w => F w /\ (b = false -> is_stale key w))).
Proof.
  intros HF. assert (forall b : bool, Framed (Some key) (fun w => b = false -> is_stale key w)).
  { intros b w w' Hs Hl Hfr Hb. eapply (framed_stale key); eauto. }
  apply hoare_step; [by apply cache_knows_steady|intros; apply cache_knows_steady; apply _|].
  intros w Hi [St Hf] Hb. cbn [write_current atomically fst snd]. split; [split; [done|]; intros j _; apply cache_others_refl|].
  split; [done|]. split; [done|]. destruct (st_writer _ _ _ _ St) as (v & Hv & K & G & R & C).
  rewrite <- K, <- G, (write_current_iff w me v) by done. intros Ho%negb_false_iff. rewrite K. by apply C.
Qed.

Lemma spec_abort_write key gen rep checked g l F :
  Framed g F -> spec (knows g (Some (key, gen, rep, checked)) l F) (abort_write me key) (fun _ => knows g None l F).
Proof.
  intros HF. apply hoare_step; [by apply cache_knows_steady|intros; by apply cache_knows_steady|].
  intros w Hi [[Sg (v & Hv & K & G & R & _) Sl] Hf] _. cbn [abort_write atomically fst snd].
  split; [apply set_registry_good; [|intros; by rewrite lookup_delete_ne|done]|split; [split|]].
  - destruct Hi as [(dirty & Hw & Hd) Iw Iv Id Io Ih]. split; [|..|done|done|done|done]; cbn.
    + exists dirty. split; [|done]. pose proof (abort_inv _ (wt_write v) _ None Hw (writes_delete _ _ Hv)) as Hw'.
      cbn in Hw'. rewrite K in Hw'. exact Hw'.
    + intros i x rep' Hx. apply lookup_delete_Some in Hx as [_ Hx]. by apply Iw with i.
  - done.
  - cbn. by rewrite lookup_delete_eq.
  - done.
  - by apply framed_registry with g.
Qed.

Lemma countable_logged e w : countable (logged e w) -> countable w.
Proof. unfold countable, few. destruct e; cbn; lia. Qed.

(** The commit: the pair of the key is the write's, or the key has become stale. *)
Lemma spec_commit_write key gen rep l F :
  Framed None F ->
  spec (knows (Some key) (Some (key, gen, Some rep, true)) l (fun w => F w /\ wrote key rep w)) (commit_write me key gen)
    (fun b => knows (Some key) (if b then None else Some (key, gen, Some rep, false)) l (fun w => F w /\ intact key w)).
Proof.
  intros HF. assert (Framed (Some key) F) by by apply framed_any. apply hoare_step; [apply cache_knows_steady; apply _|intros; apply cache_knows_steady; apply _|].
  intros w Hi [[Sg (v & Hv & K & G & R & C) Sl] [Hf Hwrote]] Hb. cbn [commit_write atomically] in *.
  destruct (commitWrite (w_registry w) key gen) as [r committed] eqn:E.
  assert (countable w) as Hcount by (destruct committed; [exact (countable_logged _ _ Hb)|exact Hb]).
  pose proof (write_current_iff w me v Hi Hcount Hv) as Hcur. rewrite K, G in Hcur.
  assert (committed = negb (wr_overtaken (wt_write v))) as Hcom.
  { rewrite <- Hcur. unfold commitWrite, writeCurrent in *. destruct (reg_states (w_registry w) !! key) as [s|]; [|by injection E as _ <-].
    destruct (inv_generation s =? gen); by injection E as _ <-. }
  destruct committed; cbn [fst snd].
  - symmetry in Hcom. apply negb_true_iff in Hcom. pose proof (ci_writers _ Hi me v rep Hv R Hcom) as Hrep. rewrite K in Hrep.
    assert (stale (ev_committed key :: w_log w) key = false) as Hfresh by (cbn; by rewrite bool_decide_eq_true_2).
    assert (forall k, k <> key -> stale (ev_committed key :: w_log w) k = stale (w_log w) k) as Hother.
    { intros k Hk. cbn. by rewrite bool_decide_eq_false_2. }
    assert (intact key (logged (ev_committed key) (set_registry r (delete me (w_writers w)) (w_invalidators w) w))) as Hint.
    { right. intros row body Hr Ho. destruct Hwrote as [(row' & Hr' & Hd) Ho']. cbn in Hr, Ho. rewrite Hr' in Hr. rewrite Ho' in Ho.
      injection Hr as <-. injection Ho as <-. by exists rep. }
    split; [apply step_good|split; [split|split; [by eapply HF; [exact Hf|exists [ev_committed key]|]|exact Hint]]].
    + destruct Hi as [(dirty & Hw & Hd) Iw Iv Id Io Ih]. split; cbn [w_log logged set_registry w_writers w_invalidators w_gate w_rows].
      * exists (cleaned true key dirty). split.
        -- rewrite <- K, <- G in E. pose proof (commit_inv _ (wt_write v) _ r Hw (writes_delete _ _ Hv) E) as Hw'.
           rewrite K in Hw'. exact Hw'.
        -- intros k Hk. destruct (decide (k = key)) as [->|Hne]; [congruence|]. rewrite Hother in Hk by done. apply cleaned_other; auto.
      * intros i x rep' Hx. apply lookup_delete_Some in Hx as [_ Hx]. by apply Iw with i.
      * intros i k x Hx. destruct (Iv i k x Hx) as [Hkey Hscr]. split; [done|]. intros Hs Ho.
        destruct (decide (k = key)) as [->|Hne]; [done|]. rewrite Hother by done. auto.
      * intros k Hk. destruct (decide (k = key)) as [->|Hne]; [done|]. destruct (Id k Hk) as [Hst|Hp].
        -- left. cbn [w_log logged set_registry]. by rewrite Hother.
        -- right. intros row body Hr Ho. exact (Hp row body Hr Ho).
      * done.
      * by apply history_cons.
    + done.
    + intros k j Hj Hk. assert (k <> key) as Hne by (intros ->; pose proof (proj2 (Sg key) eq_refl); congruence).
      split; cbn [w_log logged set_registry w_rows w_objects]; [done|done|by rewrite Hother|]. intros rep' Hc. by left.
    + by exists [ev_committed key].
    + intros j Hj. cbn. rewrite lookup_delete_ne by done. apply writer_kept_refl.
    + intros j k Hj. apply invalidator_kept_refl.
    + done.
    + cbn. apply lookup_delete_eq.
    + done.
  - split; [split; [done|]; intros j _; apply cache_others_refl|]. split; [split; [done| |done]|].
    + exists v. split_and!; try done.
    + symmetry in Hcom. apply negb_false_iff in Hcom. split; [done|]. left. by apply C.
Qed.

Lemma overtake_key key x : wr_key (wt_write (overtake_writer key x)) = wr_key (wt_write x).
Proof. done. Qed.

(** An invalidation makes its key stale, and overtakes the writes of the key. *)
Lemma spec_begin_invalidation key g x l F :
  Framed g F -> l !! key = None ->
  spec (knows g x l F) (begin_invalidation me key)
    (fun gen => knows g x (<[key := (gen, false)]> l) (fun w => F w /\ (g = Some key -> is_stale key w))).
Proof.
  intros HF Hl. assert (Framed g (fun w => F w /\ (g = Some key -> is_stale key w))) as HF'.
  { apply framed_and; [done|]. intros w w' Hs _ Hfr ->. apply (Hfr key eq_refl). by apply Hs. }
  apply hoare_step; [by apply cache_knows_steady|intros gen; by apply cache_knows_steady|].
  intros w Hi [[Sg Sw Sl] Hf] _. cbn [begin_invalidation atomically]. destruct (beginInvalidation (w_registry w) key) as [r gen] eqn:E.
  cbn [fst snd]. set (w' := logged _ _).
  assert (forall k, stale (w_log w) k = true -> stale (w_log w') k = true) as Hmono by (intros k Hk; cbn; by rewrite Hk, orb_true_r).
  assert (is_stale key w') as Hst by (unfold is_stale; cbn; by rewrite bool_decide_eq_true_2).
  assert (forall k, frame k w w') as Hframe.
  { intros k. split; cbn [w_rows w_objects]; [done|done|apply Hmono|]. intros rep Hc. apply (current_cons k rep (ev_invalidated key)) in Hc. done. }
  assert (w_invalidators w !! (me, key) = None) as Hnone by (specialize (Sl key); by rewrite Hl in Sl).
  split; [apply step_good|split; [split|split]].
  - destruct Hi as [(dirty & Hw & Hd) Iw Iv Id Io Ih]. split; cbn [w_log logged set_registry w_writers w_invalidators w_gate w_rows w'].
    + exists ({[key]} ∪ dirty). split.
      * apply (begin_invalidation_inv _ _ _ _ Hw) in E. apply (world_inv_perm _ _ E); try done; cbn.
        -- unfold writes_of. cbn. rewrite map_to_list_fmap, <- !list_fmap_compose. done.
        -- unfold invalidations_open. cbn. rewrite opens_insert by by rewrite lookup_fmap, Hnone.
           rewrite map_to_list_fmap, <- !list_fmap_compose. done.
      * intros k Hk. cbn in Hk. apply orb_true_iff in Hk as [<-%bool_decide_eq_true|Hk]; [set_solver|]. specialize (Hd k Hk). set_solver.
    + intros i v rep Hv Hr Ho. rewrite lookup_fmap in Hv. destruct (w_writers w !! i) as [v0|] eqn:Hv0; [|done]. injection Hv as <-.
      cbn in *. apply orb_false_iff in Ho as [Ho Hne%bool_decide_eq_false]. split; [by intros ->|]. by apply Iw with i.
    + intros i k v Hv. destruct (decide ((i, k) = (me, key))) as [[= -> ->]|Hne].
      * rewrite lookup_insert_eq in Hv. injection Hv as <-. done.
      * rewrite lookup_insert_ne, lookup_fmap in Hv by done. destruct (w_invalidators w !! (i, k)) as [v0|] eqn:Hv0; [|done]. injection Hv as <-.
        destruct (Iv i k v0 Hv0) as [Hk Hs]. cbn. split; [done|]. intros Hscr Ho. rewrite Hk in Ho. apply orb_false_iff in Ho as [Ho Hne'%bool_decide_eq_false].
        rewrite bool_decide_eq_false_2 by done. auto.
    + intros k Hk. eapply (framed_intact k); [by apply Id|by eexists [_]|]. intros ? [= <-]. apply Hframe.
    + done.
    + by apply history_cons.
  - done.
  - intros. apply Hframe.
  - by eexists [_].
  - intros j Hj. cbn. rewrite lookup_fmap. destruct (w_writers w !! j) as [v|]; [|done]. cbn. split_and!; try done.
    intros [?|Hk%bool_decide_eq_true]%orb_true_iff; [by left|right]. intros _. by rewrite Hk.
  - intros j k Hj. cbn. rewrite lookup_insert_ne, lookup_fmap by congruence. destruct (w_invalidators w !! (j, k)); [|done]. by split.
  - done.
  - destruct x as [[[[k gen'] rep] checked]|]; cbn; [|by rewrite lookup_fmap, Sw]. destruct Sw as (v & Hv & K & G & R & C).
    exists (overtake_writer key v). rewrite lookup_fmap, Hv. split_and!; try done. cbn. rewrite K.
    intros Hc Hg [Ho|<-%bool_decide_eq_true]%orb_true_iff; [|by rewrite bool_decide_eq_true_2]. apply orb_true_iff. right. auto.
  - intros k. cbn. destruct (decide (k = key)) as [->|Hne].
    + rewrite lookup_insert_eq. eexists. rewrite lookup_insert_eq. by split_and!.
    + rewrite lookup_insert_ne by done. specialize (Sl k). rewrite lookup_insert_ne, lookup_fmap by congruence.
      destruct (l !! k) as [[gen' scrubbed]|]; [|by rewrite Sl]. destruct Sl as (v & -> & G & S). by exists (overtake_invalidator key v).
  - eapply HF; [exact Hf|by eexists [_]|intros; apply Hframe].
  - intros _. exact Hst.
Qed.

Lemma spec_finish_invalidation key gen scrubbed safe g x l F :
  Framed g F -> l !! key = Some (gen, scrubbed) -> (safe = true -> scrubbed = true) ->
  spec (knows g x l F) (finish_invalidation me key gen safe) (fun _ => knows g x (delete key l) F).
Proof.
  intros HF Hl Hsafe. apply hoare_step; [by apply cache_knows_steady|intros; by apply cache_knows_steady|].
  intros w Hi [[Sg Sw Sl] Hf] Hb. cbn [finish_invalidation atomically fst snd] in *. pose proof (Sl key) as Hk. rewrite Hl in Hk.
  destruct Hk as (v & Hv & G & S). destruct (ci_invalidators _ Hi me key v Hv) as [Hkey Hscr].
  assert (forall k, invalidationPending (w_registry w) key gen && safe = true -> stale (w_log w) k = true -> k <> key) as Hclean.
  { intros k [Hp Hs]%andb_true_iff Hst ->. rewrite <- G in Hp. pose proof (pending_current w me key v Hi Hb Hv Hp) as Ho.
    rewrite Hscr in Hst; [done|auto|done]. }
  split; [apply set_registry_good; [|done|intros; by rewrite lookup_delete_ne by congruence]|split; [split|]].
  - destruct Hi as [(dirty & Hw & Hd) Iw Iv Id Io Ih]. split; [|done|..|done|done|done]; cbn.
    + exists (cleaned (invalidationPending (w_registry w) key gen && safe) key dirty). split.
      * pose proof (finish_invalidation_inv _ (iv_invalidation v) _ safe Hw (opens_delete _ _ _ Hv)) as Hw'. cbn in Hw'.
        rewrite Hkey, G in Hw'. exact Hw'.
      * intros k Hk. specialize (Hd k Hk). unfold cleaned. destruct (_ && safe) eqn:Es; [|done]. specialize (Hclean k eq_refl Hk). set_solver.
    + intros i k v' Hv'. apply lookup_delete_Some in Hv' as [_ Hv']. by eapply Iv.
  - done.
  - done.
  - intros k. cbn. destruct (decide (k = key)) as [->|Hne]; [by rewrite !lookup_delete_eq|].
    rewrite !lookup_delete_ne by congruence. apply Sl.
  - by apply framed_registry with g.
Qed.

(** *** The upstream *)

Definition with_rep (rep : option representation) (x : writing) : writing :=
  match x with Some (key, gen, old, checked) => Some (key, gen, match rep with Some _ => rep | None => old end, checked) | None => None end.

Definition delivered (r : response) : option representation := if complete r then Some (rs_Representation r) else None.

(** What is fetched for an open write of the key, or for none. *)
Lemma spec_fetch key g x l F :
  Framed g F -> match x with Some (k, _, _, _) => k = key | None => True end ->
  spec (knows g x l F) (fetch me key)
    (fun a => match a with Ok r => knows g (with_rep (delivered r) x) l F | Err _ => knows g x l F end).
Proof.
  intros HF Hx. apply hoare_request.
  - by apply cache_knows_steady.
  - intros []; by apply cache_knows_steady.
  - intros w Hi [[[Sg Sw Sl] Hf] _] _. cbn [fst snd]. set (r := default _ _). unfold delivered.
    destruct (complete r); cycle 1.
    { split; [split; [done|]; intros j _; apply cache_others_refl|]. split; [|done]. split; [|done]. split; [done| |done].
      by destruct x as [[[[k gen] rep] checked]|]. }
    set (e := ev_fetched key (rs_Representation r)).
    set (f := fun x : writer => {| wt_write := wt_write x; wt_rep := Some (rs_Representation r) |}).
    assert (forall k, frame k w (logged e (set_registry (w_registry w) (alter f me (w_writers w)) (w_invalidators w) w))) as Hframe.
    { intros k. split; [done|done|by apply stale_cons; intros [?|?]|intros rep; apply current_cons]. }
    split; [apply step_good|split; [split; [split|]|done]].
    + destruct Hi as [(dirty & Hw & Hd) Iw Iv Id Io Ih]. split; cbn [w_log logged set_registry w_writers w_invalidators w_gate w_rows].
      * exists dirty. split; [|done]. apply (world_inv_perm _ _ Hw); try done. unfold clients, writes_of. cbn.
        destruct (w_writers w !! me) as [v|] eqn:Hv.
        -- rewrite (writes_delete (w_writers w) v Hv), (writes_delete (alter f me (w_writers w)) (f v)) by by rewrite lookup_alter_eq, Hv.
           by rewrite delete_alter_eq.
        -- by rewrite alter_id' by by rewrite Hv.
      * intros i v rep Hv Hr Ho. cbn. destruct (decide (i = me)) as [->|Hne]; [|rewrite lookup_alter_ne in Hv by done; right; by apply Iw with i].
        rewrite lookup_alter_eq in Hv. destruct (w_writers w !! me) as [v0|] eqn:Hv0; [|done]. injection Hv as <-. cbn in *. injection Hr as <-. left.
        split; [|done]. destruct x as [[[[k gen] rep] checked]|]; [|congruence]. destruct Sw as (v1 & Hv1 & K & _). congruence.
      * done.
      * intros k Hk. eapply (framed_intact k); [by apply Id|by exists [e]|]. intros ? [= <-]. apply Hframe.
      * done.
      * by apply history_cons.
    + done.
    + intros k j Hj Hk. apply Hframe.
    + by exists [e].
    + intros j Hj. cbn. rewrite lookup_alter_ne by done. apply writer_kept_refl.
    + intros j k Hj. apply invalidator_kept_refl.
    + done.
    + destruct x as [[[[k gen] rep] checked]|]; cbn; [|by rewrite lookup_alter_eq, Sw]. destruct Sw as (v & Hv & K & G & R & C).
      exists (f v). by rewrite lookup_alter_eq, Hv.
    + done.
    + eapply HF; [exact Hf|by exists [e]|intros; apply Hframe].
  - intros w e _ Hk. exact Hk.
Qed.

(** *** Removing *)

Definition scrub (key : gostring) (ok : bool) (l : invalidating) : invalidating := alter (fun p => (p.1, p.2 || ok)) key l.
Definition cleared (b : bool) (key : gostring) (w : world) : Prop := b = true -> absent key w.
#[export] Instance framed_cleared b key : Framed (Some key) (cleared b key).
Proof. intros w w' Hc Hl Hfr Hb. eapply (framed_absent key); eauto. Qed.

(** What a deletion does to the history of its key. *)
Lemma removed_step key w w' x l :
  cache_inv w -> state (Some key) x l w -> absent key w' ->
  w_log w' = ev_removed key :: w_log w -> w_registry w' = w_registry w -> w_gate w' = w_gate w -> w_writers w' = w_writers w ->
  w_invalidators w' = (fun x => {| iv_invalidation := iv_invalidation x;
                         iv_scrubbed := iv_scrubbed x || bool_decide (wr_key (iv_invalidation x) = key) |}) <$> w_invalidators w ->
  (forall k, k <> key -> w_rows w' !! k = w_rows w !! k /\ w_objects w' !! k = w_objects w !! k) ->
  (forall k row, w_rows w' !! k = Some row -> w_rows w !! k = Some row) ->
  good cache_protocol me w w' /\ state (Some key) (unchecked x) (scrub key true l) w'.
Proof.
  intros Hi [Sg Sw Sl] Habs EL ER EG EW EV Hother Hrows.
  assert (stale (w_log w') key = false) as Hfresh by (rewrite EL; cbn; by rewrite bool_decide_eq_true_2).
  assert (forall k, k <> key -> stale (w_log w') k = stale (w_log w) k) as Hsame by (intros k Hk; rewrite EL; cbn; by rewrite bool_decide_eq_false_2).
  assert (forall k, k <> key -> frame k w w') as Hframe.
  { intros k Hk. destruct (Hother k Hk) as [R O]. split; [done|done|by rewrite Hsame|]. intros rep Hc. left. by rewrite EL. }
  split; [apply step_good|split].
  - destruct Hi as [(dirty & Hw & Hd) Iw Iv Id Io Ih]. split; rewrite ?EG, ?EW.
    + exists dirty. split.
      * apply (world_inv_perm _ _ Hw); unfold clients, writes_of, invalidations_open; cbn; rewrite ?EL, ?ER, ?EW, ?EV; try done.
        rewrite map_to_list_fmap, <- list_fmap_compose. done.
      * intros k Hk. destruct (decide (k = key)) as [->|Hne]; [congruence|]. apply Hd. by rewrite <- Hsame.
    + intros i v rep Hv Hr Ho. rewrite EL. by apply Iw with i.
    + intros i k v Hv. rewrite EV, lookup_fmap in Hv. destruct (w_invalidators w !! (i, k)) as [v0|] eqn:Hv0; [|done]. injection Hv as <-. cbn.
      destruct (Iv i k v0 Hv0) as [Hk Hs]. split; [done|]. destruct (decide (k = key)) as [->|Hne]; [done|]. rewrite Hsame, Hk by done.
      rewrite bool_decide_eq_false_2, orb_false_r by done. done.
    + intros k Hk. destruct (decide (k = key)) as [->|Hne].
      * right. intros row body Hr Ho. destruct Habs as [?|?]; congruence.
      * eapply (framed_intact k); [by apply Id|by exists [ev_removed key]|]. intros ? [= <-]. by apply Hframe.
    + intros k row Hr. apply Io. by apply Hrows.
    + rewrite EL. by apply history_cons.
  - intros. by rewrite EG.
  - intros k j Hj Hk. apply Hframe. intros ->. pose proof (proj2 (Sg key) eq_refl). congruence.
  - by exists [ev_removed key].
  - intros. rewrite EW. apply writer_kept_refl.
  - intros j k Hj. rewrite EV, lookup_fmap. destruct (w_invalidators w !! (j, k)); [|done]. split; [done|]. cbn. by intros ->.
  - intros k. by rewrite EG.
  - rewrite EW. destruct x as [[[[k gen] rep] checked]|]; [|done]. destruct Sw as (v & ? & ? & ? & ? & _). exists v. by split_and!.
  - intros k. specialize (Sl k). rewrite EV, lookup_fmap. unfold scrub. destruct (decide (k = key)) as [->|Hne].
    + rewrite lookup_alter_eq. destruct (l !! key) as [[gen s]|]; cbn; [|by rewrite Sl]. destruct Sl as (v & Hv & G & S).
      eexists. rewrite Hv. cbn. destruct (ci_invalidators _ Hi me key v Hv) as [Hk _].
      rewrite bool_decide_eq_true_2 by done. by rewrite !orb_true_r.
    + rewrite lookup_alter_ne by done. destruct (l !! k) as [[gen s]|]; [|by rewrite Sl]. destruct Sl as (v & Hv & G & S).
      eexists. rewrite Hv. cbn. split_and!; [done|done|]. intros Hs. by rewrite S.
Qed.

Lemma state_forget g x l w : state g x l w -> state g (unchecked x) l w.
Proof.
  intros [Sg Sw Sl]. split; [done| |done]. destruct x as [[[[k gen] rep] checked]|]; [|done]. destruct Sw as (v & ? & ? & ? & ? & _). exists v. by split_and!.
Qed.

Lemma state_unscrubbed key ok g x l w : state g x (scrub key ok l) w -> state g x l w.
Proof.
  intros [Sg Sw Sl]. split; [done|done|]. intros k. specialize (Sl k). unfold scrub in Sl. destruct (decide (k = key)) as [->|Hne]; [|by rewrite lookup_alter_ne in Sl].
  rewrite lookup_alter_eq in Sl. destruct (l !! key) as [[gen s]|]; [|done]. destruct Sl as (v & Hv & G & S). exists v. split_and!; [done|done|].
  intros ->. by apply S.
Qed.

Lemma scrub_false key l : scrub key false l = l.
Proof. unfold scrub. apply map_eq. intros k. destruct (decide (k = key)) as [->|Hne]; [|by rewrite lookup_alter_ne]. rewrite lookup_alter_eq. destruct (l !! key) as [[gen s]|]; [|done]. cbn. by rewrite orb_false_r. Qed.

(** A deletion of the row or of the object, under the gate. *)
Lemma spec_deletion key (f : world -> world) b x l F :
  Framed None F ->
  (forall w, absent key (f w) /\ w_log (f w) = w_log w /\ w_registry (f w) = w_registry w /\ w_gate (f w) = w_gate w
     /\ w_writers (f w) = w_writers w /\ w_invalidators (f w) = w_invalidators w
     /\ (forall k, k <> key -> w_rows (f w) !! k = w_rows w !! k /\ w_objects (f w) !! k = w_objects w !! k)
     /\ (forall k row, w_rows (f w) !! k = Some row -> w_rows w !! k = Some row)) ->
  spec (knows (Some key) x l (fun w => (F w /\ intact key w) /\ cleared b key w)) (call (fun w => ((), removed key (f w))))
    (fun a => knows (Some key) (unchecked x) (scrub key (is_ok a) l) (fun w => (F w /\ intact key w) /\ cleared (b || is_ok a) key w)).
Proof.
  intros HF Hw. assert (Framed (Some key) F) by by apply framed_any.
  apply hoare_request; [apply cache_knows_steady; apply _|intros; apply cache_knows_steady; apply _| |].
  - intros w Hi [[St [[Hf Hint] Hc]] _] _. destruct (Hw w) as (Habs & L & R & G & W & V & Hother & Hrows). cbn [fst snd].
    destruct (removed_step key w (removed key (f w)) x l Hi St) as [Hg St']; cbn [removed logged set_registry w_log w_registry w_gate w_writers w_invalidators w_rows w_objects];
      [exact Habs|by rewrite L|done|done|done|by rewrite V|done|done|].
    assert (F (removed key (f w)) /\ intact key (removed key (f w))) as HFI.
    { split; [eapply HF; [exact Hf|exists [ev_removed key]; cbn; by rewrite L|done]|]. right. intros row body Hr Ho.
      cbn in Hr, Ho. destruct Habs as [?|?]; congruence. }
    split; [done|]. split; cbn [is_ok].
    + split; [done|]. split; [done|]. by intros _.
    + intros _ e. rewrite scrub_false, orb_false_r. split; [by eapply state_unscrubbed|]. split; [done|]. by intros _.
  - intros w e Hi [St Hk]. cbn [is_ok]. rewrite scrub_false, orb_false_r. split; [by apply state_forget|done].
Qed.

Lemma cache_spec_delete_entry key b x l F :
  Framed None F ->
  spec (knows (Some key) x l (fun w => (F w /\ intact key w) /\ cleared b key w)) (delete_entry key)
    (fun a => knows (Some key) (unchecked x) (scrub key (is_ok a) l) (fun w => (F w /\ intact key w) /\ cleared (b || is_ok a) key w)).
Proof.
  intros HF. apply (spec_deletion key (fun w => set_rows (delete key (w_rows w)) (w_next_id w) w)); [done|]. intros w. cbn. split_and!; try done.
  - left. apply lookup_delete_eq.
  - intros k Hk. by rewrite lookup_delete_ne.
  - intros k row Hr. by apply lookup_delete_Some in Hr as [_ ?].
Qed.

Lemma cache_spec_Delete key b x l F :
  Framed None F ->
  spec (knows (Some key) x l (fun w => (F w /\ intact key w) /\ cleared b key w)) (Delete key)
    (fun a => knows (Some key) (unchecked x) (scrub key (is_ok a) l) (fun w => (F w /\ intact key w) /\ cleared (b || is_ok a) key w)).
Proof.
  intros HF. apply (spec_deletion key (fun w => set_objects (delete key (w_objects w)) w)); [done|]. intros w. cbn. split_and!; try done.
  - right. apply lookup_delete_eq.
  - intros k Hk. by rewrite lookup_delete_ne.
Qed.

Lemma spec_mark_cleanup_safe key x l F :
  Framed None F ->
  spec (knows (Some key) x l (fun w => (F w /\ intact key w) /\ absent key w)) (mark_cleanup_safe key)
    (fun _ => knows (Some key) (unchecked x) l (fun w => F w /\ intact key w)).
Proof.
  intros HF. assert (Framed (Some key) F) by by apply framed_any. apply hoare_step; [apply cache_knows_steady; apply _|intros; apply cache_knows_steady; apply _|].
  intros w Hi [St [[Hf Hint] Habs]] _. cbn [mark_cleanup_safe atomically fst snd]. set (w' := logged _ _). destruct St as [Sg Sw Sl].
  assert (stale (w_log w') key = false) as Hfresh by (cbn; by rewrite bool_decide_eq_true_2).
  assert (forall k, k <> key -> stale (w_log w') k = stale (w_log w) k) as Hsame by (intros k Hk; cbn; by rewrite bool_decide_eq_false_2).
  assert (forall k, k <> key -> frame k w w') as Hframe.
  { intros k Hk. split; [done|done|by rewrite Hsame|]. intros rep Hc. by left. }
  assert (intact key w') as Hint' by (right; intros row body Hr Ho; cbn in Hr, Ho; destruct Habs as [?|?]; congruence).
  split; [apply step_good|split; [split|]].
  - destruct Hi as [(dirty & Hw & Hd) Iw Iv Id Io Ih]. split.
    + exists (cleaned true key dirty). split; [exact (mark_inv _ key Hw)|]. intros k Hk.
      destruct (decide (k = key)) as [->|Hne]; [congruence|]. apply cleaned_other; [done|]. apply Hd. by rewrite <- Hsame.
    + intros i v rep Hv Hr Ho. by apply Iw with i.
    + intros i k v Hv. destruct (Iv i k v Hv) as [Hk Hs]. split; [done|]. destruct (decide (k = key)) as [->|Hne]; [done|]. by rewrite Hsame.
    + intros k Hk. destruct (decide (k = key)) as [->|Hne]; [done|]. eapply (framed_intact k); [by apply Id|by exists [ev_removed key]|].
      intros ? [= <-]. by apply Hframe.
    + done.
    + by apply history_cons.
  - done.
  - intros k j Hj Hk. apply Hframe. intros ->. pose proof (proj2 (Sg key) eq_refl). congruence.
  - by exists [ev_removed key].
  - intros. apply writer_kept_refl.
  - intros. apply invalidator_kept_refl.
  - done.
  - destruct x as [[[[k gen] rep] checked]|]; [|done]. destruct Sw as (v & ? & ? & ? & ? & _). exists v. by split_and!.
  - done.
  - split; [|done]. eapply HF; [exact Hf|by exists [ev_removed key]|done].
Qed.

(** *** Writing *)

(** Writes to the row and the object of the key whose gate is held. *)
Lemma write_step key w w' :
  cache_inv w -> w_gate w !! key = Some me ->
  w_log w' = w_log w -> w_registry w' = w_registry w -> w_gate w' = w_gate w -> w_writers w' = w_writers w -> w_invalidators w' = w_invalidators w ->
  (forall k, k <> key -> w_rows w' !! k = w_rows w !! k /\ w_objects w' !! k = w_objects w !! k) ->
  (forall row, w_rows w' !! key = Some row -> ce_Key row = key /\ ce_StoragePath row = key) ->
  good cache_protocol me w w' /\ forall x l, state (Some key) x l w -> state (Some key) x l w'.
Proof.
  intros Hi Hg L R G W V Hother Hrows. assert (forall k, k <> key -> frame k w w') as Hframe.
  { intros k Hk. destruct (Hother k Hk) as [Hr Ho]. split; [done|done|by rewrite L|]. intros rep Hc. left. by rewrite L. }
  split; [apply step_good|].
  - destruct Hi as [(dirty & Hw & Hd) Iw Iv Id Io Ih]. split; rewrite ?L, ?W, ?V, ?G; try done.
    + exists dirty. split; [|done]. by apply (world_inv_perm _ _ Hw); unfold clients, writes_of, invalidations_open; cbn; rewrite ?L, ?R, ?W, ?V.
    + intros k Hk. destruct (decide (k = key)) as [->|Hne]; [congruence|]. eapply (framed_intact k); [by apply Id|by rewrite L|].
      intros ? [= <-]. by apply Hframe.
    + intros k row Hr. destruct (decide (k = key)) as [->|Hne]; [by apply Hrows|]. apply Io. by rewrite <- (proj1 (Hother k Hne)).
  - intros. by rewrite G.
  - intros k j Hj Hk. apply Hframe. intros ->. congruence.
  - by rewrite L.
  - intros. rewrite W. apply writer_kept_refl.
  - intros. rewrite V. apply invalidator_kept_refl.
  - intros x l [Sg Sw Sl]. split; rewrite ?G, ?W, ?V, ?L; done.
Qed.

Lemma cache_spec_Put key body row x l F :
  Framed None F ->
  spec (knows (Some key) x l (fun w => F w /\ intact key w /\ row_is key row w)) (Put key body)
    (fun a => knows (Some key) x l (fun w => F w /\ match a with Ok _ => object_is key body w /\ row_is key row w | Err _ => intact key w end)).
Proof.
  intros HF. assert (Framed (Some key) F) by by apply framed_any.
  apply hoare_request; [apply cache_knows_steady; apply _|intros []; apply cache_knows_steady; apply _| |].
  - intros w Hi [[St [Hf [Hint Hr]]] _] _. cbn [fst snd]. destruct (write_step key w (set_objects (<[key := body]> (w_objects w)) w)) as [Hg Hs]; try done.
    + by apply (st_gate _ _ _ _ St).
    + intros k Hk. split; [done|]. cbn. by rewrite lookup_insert_ne.
    + intros r Hr'. by apply Hi.
    + split; [done|]. split; [|done]. split; [by apply Hs|]. split; [by eapply HF|]. split; [|done]. unfold object_is. cbn. apply lookup_insert_eq.
  - intros w e _ [St (Hf & Hint & _)]. by split.
Qed.

(** The row a write leaves. *)
Lemma spec_upsert key entry rep x l F :
  Framed None F -> ce_Key entry = key -> ce_StoragePath entry = key -> describes entry rep ->
  spec (knows (Some key) x l (fun w => F w /\ object_is key (rp_Body rep) w)) (upsert entry)
    (fun a => knows (Some key) x l (fun w => F w /\ match a with Ok _ => wrote key rep w | Err _ => True end)).
Proof.
  intros HF Hk Hp Hd. assert (Framed (Some key) F) by by apply framed_any.
  apply hoare_request; [apply cache_knows_steady; apply _|intros []; apply cache_knows_steady; apply _| |].
  - intros w Hi [[St [Hf Ho]] _] _. cbn [fst snd]. match goal with |- good _ _ _ ?t.2 /\ _ => set (w' := t.2) end.
    assert (exists row, w_rows w' = <[key := row]> (w_rows w) /\ ce_Key row = key /\ ce_StoragePath row = key /\ describes row rep) as (row & Hrow & K & P & D).
    { subst w' key. destruct (w_rows w !! ce_Key entry); cbn; eexists; (split; [done|]); by cbn. }
    assert (w_objects w' = w_objects w /\ w_log w' = w_log w /\ w_registry w' = w_registry w /\ w_gate w' = w_gate w
            /\ w_writers w' = w_writers w /\ w_invalidators w' = w_invalidators w) as (O & L & R & G & W & V).
    { subst w'. by destruct (w_rows w !! ce_Key entry). }
    clearbody w'. destruct (write_step key w w') as [Hg Hs]; try done.
    + by apply (st_gate _ _ _ _ St).
    + intros k Hne. by rewrite Hrow, O, lookup_insert_ne.
    + intros r. rewrite Hrow, lookup_insert_eq. by intros [= <-].
    + split; [done|]. specialize (Hs _ _ St). assert (F w') as Hf' by (eapply HF; [exact Hf|by rewrite L|done]). split.
      * split; [done|]. split; [done|]. split; [exists row; split; [by rewrite Hrow, lookup_insert_eq|done]|by rewrite O].
      * intros _ e. by split.
  - intros w e _ [St [Hf _]]. by split.
Qed.

Definition updates (columns : CacheEntry -> CacheEntry) : Prop :=
  forall row, ce_Key (columns row) = ce_Key row /\ ce_StoragePath (columns row) = ce_StoragePath row.

Lemma update_good id key columns x l w :
  cache_inv w -> state (Some key) x l w -> updates columns ->
  let w' := match w_rows w !! key with
            | Some row => if ce_ID row =? id then (1, set_rows (<[key := columns row]> (w_rows w)) (w_next_id w) w) else (0, w)
            | None => (0, w)
            end in
  good cache_protocol me w w'.2 /\ state (Some key) x l w'.2 /\ w_log w'.2 = w_log w.
Proof.
  intros Hi St Hu. cbv zeta. assert (good cache_protocol me w w) as Hrefl by (split; [done|intros; apply cache_others_refl]).
  destruct (w_rows w !! key) as [row|] eqn:Hr; [|done]. destruct (ce_ID row =? id); [|done]. cbn [snd].
  destruct (ci_rows _ Hi key row Hr) as [K P]. destruct (Hu row) as [K' P'].
  destruct (write_step key w (set_rows (<[key := columns row]> (w_rows w)) (w_next_id w) w)) as [Hg Hs]; try done.
  - by apply (st_gate _ _ _ _ St).
  - intros k Hne. split; [|done]. cbn. by rewrite lookup_insert_ne.
  - intros r. cbn. rewrite lookup_insert_eq. intros [= <-]. by rewrite K', P'.
  - split; [done|]. split; [by apply Hs|done].
Qed.

(** A refresh of the row, after the object. *)
Lemma spec_update_entry key entry columns rep x l F :
  Framed None F -> updates columns -> (forall row, describes (columns row) rep) ->
  spec (knows (Some key) x l (fun w => F w /\ object_is key (rp_Body rep) w /\ row_is key (Some entry) w)) (update_entry (ce_ID entry) key columns)
    (fun a => knows (Some key) x l (fun w => F w /\ match a with Ok n => n <> 0 -> wrote key rep w | Err _ => True end)).
Proof.
  intros HF Hu Hd. assert (Framed (Some key) F) by by apply framed_any. assert (forall n : Z, Framed (Some key) (fun w => n <> 0 -> wrote key rep w)).
  { intros n w w' Hw Hl Hfr Hn. eapply (framed_wrote key rep); eauto. }
  apply hoare_request; [apply cache_knows_steady; apply _|intros []; apply cache_knows_steady; apply _| |].
  - intros w Hi [[St [Hf [Ho Hr]]] _] _. destruct (update_good (ce_ID entry) key columns x l w Hi St Hu) as (Hg & Hs & HL).
    cbn [fst snd]. match type of HL with w_log ?t = _ => assert (F t) as Hf' by (eapply HF; [exact Hf|by rewrite HL|done]) end.
    split; [exact Hg|]. split; [|intros _ e; by split]. split; [exact Hs|]. split; [exact Hf'|]. unfold row_is in Hr. rewrite Hr, Z.eqb_refl. cbn.
    intros _. split; [|done]. exists (columns entry). split; [apply lookup_insert_eq|apply Hd].
  - intros w e _ [St [Hf _]]. by split.
Qed.

(** An update of other columns leaves the pair. *)
Lemma spec_update_other id key columns x l F :
  Framed None F -> updates columns -> (forall row rep, describes row rep -> describes (columns row) rep) ->
  spec (knows (Some key) x l (fun w => F w /\ intact key w)) (update_entry id key columns) (fun _ => knows (Some key) x l (fun w => F w /\ intact key w)).
Proof.
  intros HF Hu Hd. assert (Framed (Some key) F) by by apply framed_any.
  apply hoare_request; [apply cache_knows_steady; apply _|intros; apply cache_knows_steady; apply _| |].
  - intros w Hi [[St [Hf Hint]] _] _. destruct (update_good id key columns x l w Hi St Hu) as (Hg & Hs & HL).
    match type of HL with w_log ?t = _ => assert (F t) as Hf' by (eapply HF; [exact Hf|by rewrite HL|done]) end.
    split; [exact Hg|]. assert (intact key (match w_rows w !! key with
            | Some row => if ce_ID row =? id then (1, set_rows (<[key := columns row]> (w_rows w)) (w_next_id w) w) else (0, w)
            | None => (0, w) end).2) as Hint'; [|split; [by split|intros _ e; by split]].
    destruct (w_rows w !! key) as [row|] eqn:Hr; [|done]. destruct (ce_ID row =? id); [|done]. destruct Hint as [Hst|Hp]; [by left|right].
    intros row' body Hr' Ho. cbn in Hr', Ho. rewrite lookup_insert_eq in Hr'. injection Hr' as <-. destruct (Hp row body Hr Ho) as (rep & Hc & Hdr & Hb).
    exists rep. split_and!; auto.
  - by intros w e _ Hk.
Qed.

(** *** Reading *)

Lemma cache_spec_find_entry key x l F :
  Framed (Some key) F ->
  spec (knows (Some key) x l F) (find_entry key)
    (fun a => knows (Some key) x l (fun w => F w /\ match a with Ok row => row_is key row w /\ (forall r, row = Some r -> ce_StoragePath r = key) | Err _ => True end)).
Proof.
  intros HF. apply hoare_read; [by apply cache_knows_steady|intros []; apply cache_knows_steady; apply _|..].
  - intros w Hi [St Hf] _. split; [done|]. split; [done|]. split; [done|]. intros r Hr. by destruct (ci_rows _ Hi key r Hr) as [_ ->].
  - intros w e Hi [St Hf]. by split.
Qed.

(** A reader of the object opened after the key was found readable. *)
Lemma spec_open_snapshot key row x l F :
  Framed (Some key) F -> ce_StoragePath row = key ->
  spec (knows (Some key) x l (fun w => F w /\ row_is key (Some row) w /\ admitted key w)) (open_snapshot key row)
    (fun a => knows (Some key) x l (fun w => F w /\ match a with Ok body => readable_hit key row body w | Err _ => True end)).
Proof.
  intros HF Hp. unfold open_snapshot. rewrite Hp.
  eapply (hoare_bind _ _ _ _ _ (fun a => knows (Some key) x l (fun w => F w /\ match a with Ok (Some body) => readable_hit key row body w | _ => True end))).
  - apply hoare_read; [apply cache_knows_steady; apply _|intros [[]|]; apply cache_knows_steady; apply _|..].
    + intros w Hi [St (Hf & Hr & Ha)] _. split; [done|]. split; [done|]. destruct (w_objects w !! key) as [body|] eqn:Ho; [|done]. by apply Ha.
    + intros w e Hi [St (Hf & _)]. by split.
  - intros [[body|]|e]; (eapply cache_spec_return; [apply _|]); intros w _ Hk; exact Hk.
Qed.

End goroutine.

End theory.
