(* ===== verification/ManagerRuns.v ===== *)
(** * Undisturbed lookups (Manager.v)

    What lookups, fills and invalidations of a key do when nothing fails and nobody else is
    at the key. *)

From stdpp Require Import gmap.
From S2P Require Export ManagerTheory ResponseMetadata.

Section runs.
Context `{UnicodeTables} `{ModulePackage} (m : manager).





Section steps.
Context (me : nat).




(** ** Reading *)



(** ** Filling *)





(** ** Lookups *)




(** ** Invalidations *)


End steps.




End runs.

Section witness.
#[local] Existing Instance ascii_tables.
#[local] Existing Instance permissive_modules.



End witness.
