(* ===== verification/ManagerSafety.v ===== *)
(** * What the cache manager serves (Manager.v) *)

From stdpp Require Import gmap.
From S2P Require Export ManagerTheory.

Section safety.
Context `{UnicodeTables} `{ModulePackage} (m : manager) (me : nat).

Abbreviation spec := (hoare cache_protocol me).
Abbreviation knows := (knows me).

Lemma spec_consequence {A} (p : program world A) (P P' : world -> Prop) (Q Q' : A -> world -> Prop) :
  spec P p Q -> (forall w, cache_inv w -> P' w -> P w) -> (forall a w, cache_inv w -> Q a w -> Q' a w) -> spec P' p Q'.
Proof. apply (hoare_weaken cache_protocol me). Qed.

Lemma spec_pre {A} (P P' : world -> Prop) (p : program world A) (Q : A -> world -> Prop) :
  spec P p Q -> (forall w, P' w -> P w) -> spec P' p Q.
Proof. intros Hp HP. eapply spec_consequence; [exact Hp| |done]. intros w _. apply HP. Qed.

(** The facts of the assertion may be weakened. *)
Lemma knows_mono g x l (F G : world -> Prop) w : (F w -> G w) -> knows g x l F w -> knows g x l G w.
Proof. intros HFG [Hs Hf]. split; auto. Qed.

(** ** Removing *)

Section removing.
Context (key : gostring) (F : world -> Prop) (HF : Framed None F).

#[local] Instance framed_here g : Framed g F.
Proof. by apply framed_any. Qed.

(** The deletion of both halves, and what is known after it. *)
Lemma spec_cleanup {A} x l (k : result unit -> result unit -> program world A) Q :
  (forall db storage, spec (knows (Some key) (unchecked x) (scrub key (is_ok db || is_ok storage) l)
      (fun w => (F w /\ intact key w) /\ cleared (is_ok db || is_ok storage) key w)) (k db storage) Q) ->
  spec (knows (Some key) x l (fun w => F w /\ intact key w)) (db <~ delete_entry key; storage <~ Delete key; k db storage) Q.
Proof.
  intros Hk. eapply hoare_bind.
  { eapply spec_pre; [apply (cache_spec_delete_entry me key false x l F HF)| ].
    intros w [Hs Hf]. split; [done|]. split; [done|]. by intros ?. }
  intros db. eapply hoare_bind; [apply (cache_spec_Delete me key (is_ok db) (unchecked x) (scrub key (is_ok db) l) F HF)|].
  intros storage. eapply spec_pre; [apply (Hk db storage)|]. intros w [Hs Hf]. split; [|done].
  assert (unchecked (unchecked x) = unchecked x) as Hx by by destruct x as [[[[? ?] ?] ?]|]. rewrite Hx in Hs.
  assert (scrub key (is_ok storage) (scrub key (is_ok db) l) = scrub key (is_ok db || is_ok storage) l) as Hscr; [|by rewrite Hscr in Hs].
  unfold scrub. apply map_eq. intros k'. destruct (decide (k' = key)) as [->|Hne]; [|by rewrite !lookup_alter_ne].
  rewrite !lookup_alter_eq. destruct (l !! key) as [[gen s]|]; [|done]. cbn. by rewrite orb_assoc.
Qed.

Lemma spec_discard x l :
  spec (knows (Some key) x l (fun w => F w /\ intact key w)) (discardSupersededWrite key)
    (fun _ => knows (Some key) (unchecked x) (l) (fun w => F w /\ intact key w)).
Proof.
  unfold discardSupersededWrite. apply spec_cleanup. intros db storage.
  eapply (hoare_bind _ _ _ _ _ (fun _ => knows (Some key) (unchecked x) l (fun w => F w /\ intact key w))); [|intros a; eapply cache_spec_return; [apply _|done]].
  eapply (spec_pre (knows (Some key) (unchecked x) l (fun w => (F w /\ intact key w) /\ cleared (is_ok db || is_ok storage) key w))); cycle 1.
  { intros w [Hs Hf]. split; [|done]. by eapply state_unscrubbed. }
  destruct (is_ok db || is_ok storage).
  - eapply spec_consequence; [apply (spec_mark_cleanup_safe me key (unchecked x) l F HF)| |].
    + intros w _ [Hs [Hf Hc]]. split; [done|]. split; [done|]. by apply Hc.
    + intros a w _ Hp. by destruct x as [[[[? ?] ?] ?]|].
  - eapply cache_spec_return; [apply _|]. intros w _ [Hs [Hf _]]. by split.
Qed.

Lemma spec_remove_uncommitted x l e :
  l !! key = None ->
  spec (knows (Some key) x l F) (removeUncommittedObject me key e) (fun _ => knows (Some key) (unchecked x) l (fun w => F w /\ intact key w)).
Proof.
  intros Hl. unfold removeUncommittedObject. eapply hoare_bind; [apply (spec_begin_invalidation me key (Some key) x l F _ Hl)|].
  intros gen. eapply (spec_pre (knows (Some key) x (<[key := (gen, false)]> l) (fun w => F w /\ intact key w))); cycle 1.
  { intros w [Hs [Hf Hst]]. split; [done|]. split; [done|]. left. by apply Hst. }
  apply spec_cleanup. intros db storage. eapply hoare_bind.
  - eapply (spec_finish_invalidation me key gen (is_ok db || is_ok storage)); [apply _| |done].
    unfold scrub. by rewrite lookup_alter_eq, lookup_insert_eq.
  - intros []. eapply cache_spec_return; [apply _|]. intros w _ [Hs [Hf _]]. split; [|done].
    assert (delete key (scrub key (is_ok db || is_ok storage) (<[key := (gen, false)]> l)) = l) as Hdel; [|by rewrite Hdel in Hs].
    unfold scrub. rewrite delete_alter_eq, delete_insert_eq. by apply delete_id.
Qed.

Lemma spec_invalidate x l :
  l !! key = None ->
  spec (knows None x l F) (invalidateCachedEntry me key) (fun _ => knows None (unchecked x) l F).
Proof.
  intros Hl. unfold invalidateCachedEntry. eapply hoare_bind; [apply (spec_begin_invalidation me key None x l F _ Hl)|].
  intros gen. set (l' := <[key := (gen, false)]> l). assert (l' !! key = Some (gen, false)) as Hl' by apply lookup_insert_eq.
  assert (delete key l' = l) as Hdel by (unfold l'; rewrite delete_insert_eq; by apply delete_id).
  eapply hoare_bind.
  { eapply spec_pre; [apply (cache_spec_lock me true key x l' F HF)|intros w [Hs [Hf _]]; by split]. }
  intros [[]|e]; cycle 1.
  { eapply hoare_bind; [eapply (spec_finish_invalidation me key gen false false None x l' F); [apply _|done|done]|].
    intros []. rewrite Hdel. eapply cache_spec_return; [apply _|]. intros w _ [Hs Hf]. split; [by apply state_forget|done]. }
  eapply hoare_bind; [apply spec_outside; [apply _|]; intros w; by split|]. intros pending.
  destruct pending; cbn [negb].
  - apply spec_cleanup. intros db storage. set (ok := is_ok db || is_ok storage).
    eapply hoare_bind.
    { eapply spec_pre; [apply (cache_spec_unlock me key (unchecked (unchecked x)) (scrub key ok l') F HF)|intros w [Hs [Hf _]]; by split]. }
    intros []. eapply hoare_bind.
    { eapply (spec_finish_invalidation me key gen ok ok); [apply _| |done]. unfold scrub. by rewrite lookup_alter_eq, Hl'. }
    intros []. eapply cache_spec_return; [apply _|]. intros w _ [Hs Hf]. split; [|done]. unfold scrub in Hs. rewrite delete_alter_eq, Hdel in Hs.
    by destruct x as [[[[? ?] ?] ?]|].
  - eapply hoare_bind; [apply (cache_spec_unlock me key (unchecked x) l' F HF)|]. intros [].
    eapply hoare_bind; [eapply (spec_finish_invalidation me key gen false false); [apply _|done|done]|].
    intros []. rewrite Hdel. eapply cache_spec_return; [apply _|]. intros w _ [Hs Hf]. split; [|done]. by destruct x as [[[[? ?] ?] ?]|].
Qed.

End removing.
(** ** Reading *)

(** What a lookup may answer: a hit of the history, or a stream. *)
Definition told (key : gostring) (r : result GetResult) (w : world) : Prop :=
  match r with
  | Err _ => True
  | Ok r => gr_Hit r = false \/ exists row body, r = hit_result row body
              /\ (ev_hit me key row body ∈ w_log w \/ ev_followed me key row body ∈ w_log w)
  end.

#[export] Instance framed_told g key r : Framed g (told key r).
Proof.
  intros w w' Ht [l Hl] _. destruct r as [r|]; [|done]. destruct Ht as [?|(row & body & -> & Hin)]; [by left|right].
  exists row, body. split; [done|]. rewrite Hl, !elem_of_app. tauto.
Qed.

(** Nothing open, and facts of the history. *)
Abbreviation idle := (knows None None ∅).

Section reading.
Context (key : gostring) (F : world -> Prop) (HF : Framed None F).

#[local] Instance framed_there g : Framed g F.
Proof. by apply framed_any. Qed.

Lemma cache_spec_locked {A} enforce (p : result unit -> program world A) Q :
  spec (knows (Some key) None ∅ (fun w => F w /\ intact key w)) (p (Ok ())) Q ->
  (forall e, spec (idle F) (p (Err e)) Q) -> spec (idle F) (locked <~ lock me enforce key; p locked) Q.
Proof. intros Hok He. eapply hoare_bind; [apply (cache_spec_lock me enforce key None ∅ F HF)|]. intros [[]|e]; auto. Qed.

Lemma spec_unlocked {A} (p : program world A) (G : world -> Prop) Q :
  (forall w, G w -> F w /\ intact key w) -> spec (idle F) p Q -> spec (knows (Some key) None ∅ G) (_ <~ unlock key; p) Q.
Proof.
  intros HG Hp. eapply (hoare_bind _ _ _ _ _ (fun _ => idle F)); [|intros []; exact Hp]. eapply spec_pre; [apply (cache_spec_unlock me key None ∅ F HF)|].
  intros w [Hs Hg]. split; auto.
Qed.

Lemma spec_unlocked_return {A} (a : A) (G : world -> Prop) (Q : A -> world -> Prop) :
  (forall w, G w -> F w /\ intact key w) -> (forall w, idle F w -> Q a w) -> spec (knows (Some key) None ∅ G) (_ <~ unlock key; return_ a) Q.
Proof. intros HG Hq. apply spec_unlocked; [done|]. eapply cache_spec_return; [apply _|]. intros w _ Hk. by apply Hq. Qed.

(** A check of the registry under the gate. *)
Lemma spec_checked {A} (G : world -> Prop) (p : bool -> program world A) Q :
  Framed (Some key) G ->
  spec (knows (Some key) None ∅ (fun w => G w /\ intact key w)) (p false) Q ->
  spec (knows (Some key) None ∅ (fun w => (G w /\ intact key w) /\ admitted me key w)) (p true) Q ->
  spec (knows (Some key) None ∅ (fun w => G w /\ intact key w)) (readable <~ is_readable me key; p readable) Q.
Proof.
  intros HG Hn Hy. eapply hoare_bind; [apply (spec_is_readable me key None ∅ G HG)|]. intros []; [exact Hy|].
  eapply spec_pre; [exact Hn|]. intros w [Hs [Hg _]]. by split.
Qed.

Lemma told_err e w : told key (Err e) w.
Proof. done. Qed.

Lemma spec_serveStale : spec (idle F) (serveStale me key) (fun r => idle (fun w => F w /\ told key r w)).
Proof.
  unfold serveStale. apply cache_spec_locked; [|intros e; eapply cache_spec_return; [apply _|]; intros w _ [Hs Hf]; by split].
  apply spec_checked; [apply _|apply spec_unlocked_return; [done|intros w [Hs Hf]; by split]|]. cbn [negb].
  eapply hoare_bind.
  { eapply spec_pre; [apply (cache_spec_find_entry me key None ∅ (fun w => F w /\ intact key w)); apply _|intros w [Hs [Hf _]]; by split]. }
  intros [[entry|]|e]; try (apply spec_unlocked_return; [by intros w [? _]|intros w [Hs Hf]; by split]).
  eapply (spec_pre (knows (Some key) None ∅ (fun w => (F w /\ row_is key (Some entry) w /\ ce_StoragePath entry = key) /\ intact key w))); cycle 1.
  { intros w [Hs [[Hf Hint] [Hr Hp]]]. split; [done|]. split; [|done]. split; [done|]. split; [done|]. by apply Hp. }
  apply spec_checked; [apply _|apply spec_unlocked_return; [by intros w [[? _] ?]|intros w [Hs Hf]; by split]|]. cbn [negb].
  apply hoare_pre_pure with (ce_StoragePath entry = key); [by intros w [_ [[[_ [_ ?]] _] _]]|]. intros Hpath.
  eapply hoare_bind.
  { eapply spec_pre; [apply (spec_open_snapshot me key entry None ∅ (fun w => F w /\ intact key w)); [apply _|done]| ].
    intros w [Hs [[[Hf [Hr _]] Hint] Ha]]. split; [done|by split_and!]. }
  intros [body|e]; [|apply spec_unlocked_return; [by intros w [? _]|intros w [Hs Hf]; by split]].
  eapply hoare_bind.
  { apply (spec_publish_hit me key (Some key) None ∅ (fun w => F w /\ intact key w)). apply _. }
  intros []. eapply hoare_bind.
  { eapply spec_pre; [apply (cache_spec_unlock me key None ∅ (fun w => F w /\ served me key entry body w)); apply _| ].
    intros w [Hs [[Hf Hint] Hserved]]. split; [done|by split_and!]. }
  intros []. eapply cache_spec_return; [apply _|]. intros w _ [Hs [Hf Hserved]]. split; [done|]. split; [done|]. right. exists entry, body. split; [done|]. by left.
Qed.

(** The row of the key, and that it can be read if the key is readable still. *)
Lemma spec_found {A} (p : result (option CacheEntry) -> program world A) Q :
  (forall entry, ce_StoragePath entry = key ->
     spec (knows (Some key) None ∅ (fun w => (F w /\ row_is key (Some entry) w) /\ intact key w)) (p (Ok (Some entry))) Q) ->
  (forall a, match a with Ok (Some _) => False | _ => True end -> spec (knows (Some key) None ∅ (fun w => F w /\ intact key w)) (p a) Q) ->
  spec (knows (Some key) None ∅ (fun w => F w /\ intact key w)) (found <~ find_entry key; p found) Q.
Proof.
  intros Hsome Hnone. eapply hoare_bind; [apply (cache_spec_find_entry me key None ∅ (fun w => F w /\ intact key w)); apply _|].
  intros [[entry|]|e]; [|by eapply spec_pre; [by apply Hnone|intros w [Hs [Hf _]]; split]..].
  apply hoare_pre_pure with (ce_StoragePath entry = key); [intros w [_ [_ [_ Hp]]]; by apply Hp|]. intros Hp.
  eapply spec_pre; [by apply Hsome|]. intros w [Hs [[Hf Hint] [Hr _]]]. by split.
Qed.

Lemma spec_read_snapshot adapterType :
  spec (idle F) (read_snapshot me key adapterType)
    (fun snap => idle (fun w => F w /\ match snap with snap_hit entry body _ => served me key entry body w | _ => True end)).
Proof.
  unfold read_snapshot. apply cache_spec_locked; [|intros e; eapply cache_spec_return; [apply _|]; intros w _ [Hs Hf]; by split].
  apply spec_checked; [apply _|apply spec_unlocked_return; [done|intros w [Hs Hf]; by split]|]. cbn [negb].
  eapply (spec_pre (knows (Some key) None ∅ (fun w => F w /\ intact key w))); [|by intros w [Hs [Hf _]]].
  apply spec_found; cycle 1.
  { intros [[entry|]|e]; [done|intros _; apply spec_unlocked_return; [done|intros w [Hs Hf]; by split]..]. }
  intros entry Hpath. eapply hoare_bind; [apply cache_spec_query; apply _|].
  intros [[]|e]; cycle 1; [apply spec_unlocked_return; [by intros w [[? _] ?]|intros w [Hs Hf]; by split]..|].
  eapply hoare_bind; [apply spec_outside; [apply _|by intros w; split]|]. intros time.
  destruct (negb (time <? ce_ExpiresAt entry) && _); [apply spec_unlocked_return; [by intros w [[? _] ?]|intros w [Hs Hf]; by split]|].
  apply spec_checked; [apply _|apply spec_unlocked_return; [by intros w [[? _] ?]|intros w [Hs Hf]; by split]|]. cbn [negb].
  eapply hoare_bind.
  { eapply spec_pre; [apply (spec_open_snapshot me key entry None ∅ (fun w => F w /\ intact key w)); [apply _|done]|].
    intros w [Hs [[[Hf Hr] Hint] Ha]]. split; [done|by split_and!]. }
  intros [body|e]; cycle 1; [apply spec_unlocked_return; [by intros w [? _]|intros w [Hs Hf]; by split]|].
  eapply hoare_bind.
  { eapply spec_pre; [apply (cache_spec_unlock me key None ∅ (fun w => F w /\ readable_hit me key entry body w)); apply _|].
    intros w [Hs [[Hf Hint] Hj]]. split; [done|by split_and!]. }
  intros []. eapply hoare_bind; [apply (spec_publish_hit me key None None ∅ F); apply _|]. intros [].
  eapply cache_spec_return; [apply _|]. by intros w _ Hk.
Qed.

Lemma spec_followInflight flight :
  spec (idle F) (followInflight me key flight) (fun r => idle (fun w => F w /\ told key r w)).
Proof.
  assert (forall e, spec (idle F) (return_ (Err e)) (fun r => idle (fun w => F w /\ told key r w))) as Herr.
  { intros e. eapply cache_spec_return; [apply _|]. intros w _ [Hs Hf]. by split. }
  unfold followInflight. eapply hoare_bind; [apply cache_spec_query; apply _|]. intros [f|e]; [|apply Herr].
  destruct (fl_err f); [apply Herr|]. destruct (fl_committedEntry f) as [entry|]; [|apply Herr].
  apply cache_spec_locked; [|apply Herr].
  apply spec_checked; [apply _|apply spec_unlocked; [done|apply Herr]|]. cbn [negb].
  eapply (hoare_bind _ _ _ _ _ (fun _ => knows (Some key) None ∅ (fun w => F w /\ intact key w))).
  { unfold open_snapshot. eapply hoare_bind.
    - eapply spec_pre; [apply (cache_spec_query me _ _ _ (Some key) None ∅ (fun w => F w /\ intact key w)); apply _|]. intros w [Hs [Hf _]]. by split.
    - intros a. eapply cache_spec_return; [apply _|]. by intros w _ Hk. }
  intros opened. apply spec_unlocked; [done|]. destruct opened as [body|e]; [|apply Herr].
  eapply hoare_bind; [apply (spec_publish_followed me key None None ∅ F); apply _|]. intros [].
  eapply cache_spec_return; [apply _|]. intros w _ [Hs [Hf Hd]]. split; [done|]. split; [done|]. right. exists entry, body. split; [done|]. by right.
Qed.

Lemma spec_refreshEntry {A} (p : result CacheEntry -> program world A) Q :
  (forall entry, spec (knows (Some key) None ∅ (fun w => F w /\ intact key w)) (p (Ok entry)) Q) ->
  (forall e, spec (knows (Some key) None ∅ (fun w => F w /\ intact key w)) (p (Err e)) Q) ->
  spec (knows (Some key) None ∅ (fun w => F w /\ intact key w)) (entry <~ refreshEntry key; p entry) Q.
Proof.
  intros Hok He. eapply (hoare_bind _ _ _ _ _ (fun _ => knows (Some key) None ∅ (fun w => F w /\ intact key w))).
  - unfold refreshEntry. eapply hoare_bind; [apply cache_spec_query; apply _|]. intros a. eapply cache_spec_return; [apply _|]. by intros w _ Hk.
  - intros [entry|e]; [apply Hok|apply He].
Qed.

Lemma with_expiry_updates expires : updates (with_expiry expires).
Proof. by intros row. Qed.

Lemma spec_revalidate rq ttl : spec (idle F) (revalidate me rq key ttl) (fun r => idle (fun w => F w /\ told key r w)).
Proof.
  assert (forall e, spec (idle F) (return_ (Err e)) (fun r => idle (fun w => F w /\ told key r w))) as Herr.
  { intros e. eapply cache_spec_return; [apply _|]. intros w _ [Hs Hf]. by split. }
  unfold revalidate. apply cache_spec_locked; [|apply Herr]. apply spec_refreshEntry; [|intros e; apply spec_unlocked; [done|apply Herr]].
  intros entry. eapply hoare_bind; [apply spec_outside; [apply _|by intros w; split]|]. intros time.
  eapply hoare_bind; [apply (spec_update_other me _ key _ None ∅ F HF); [apply with_expiry_updates|done]|].
  intros update. apply spec_unlocked; [done|]. destruct (refreshMetadataUpdateError _ _) as [e|]; [|apply spec_serveStale].
  destruct (persistenceRequired rq); [apply Herr|apply spec_serveStale].
Qed.

Lemma spec_fetchPassthrough : spec (idle F) (fetchPassthrough me key) (fun r => idle (fun w => F w /\ told key r w)).
Proof.
  assert (forall e, spec (idle F) (return_ (Err e)) (fun r => idle (fun w => F w /\ told key r w))) as Herr.
  { intros e. eapply cache_spec_return; [apply _|]. intros w _ [Hs Hf]. by split. }
  unfold fetchPassthrough. eapply hoare_bind; [apply cache_spec_ctx_err; apply _|]. intros [e|]; [apply Herr|].
  eapply hoare_bind; [apply spec_outside; [apply _|by intros w; split]|]. intros []; [apply Herr|].
  eapply hoare_bind; [apply (spec_fetch me key None None ∅ F); [apply _|done]|]. intros [r|e]; [|apply Herr].
  eapply cache_spec_return; [apply _|]. intros w _ [Hs Hf]. split; [done|]. split; [done|]. by left.
Qed.

Lemma spec_settle rq ttl exists_ r :
  spec (idle (fun w => F w /\ told key r w)) (settle me rq key ttl exists_ r) (fun r => idle (fun w => F w /\ told key r w)).
Proof.
  destruct r as [r|e]; cbn [settle]; [eapply cache_spec_return; [apply _|]; by intros w _ Hk|].
  eapply (spec_pre (idle F)); [|by intros w [Hs [Hf _]]].
  assert (forall e, spec (idle F) (return_ (Err e)) (fun r => idle (fun w => F w /\ told key r w))) as Herr.
  { intros e'. eapply cache_spec_return; [apply _|]. intros w _ [Hs Hf]. by split. }
  assert (forall (p : program world (result GetResult)), spec (idle F) p (fun r => idle (fun w => F w /\ told key r w)) ->
    spec (idle F) (stale <~ serveStale me key; match stale with Ok result => return_ (Ok result) | Err _ => p end)
      (fun r => idle (fun w => F w /\ told key r w))) as Hstale.
  { intros p Hp. eapply hoare_bind; [apply spec_serveStale|]. intros [r|e']; [eapply cache_spec_return; [apply _|]; by intros w _ Hk|].
    eapply spec_pre; [exact Hp|]. by intros w [Hs [Hf _]]. }
  unfold fall_back. destruct (is_error e ErrNotModified && _); [apply spec_revalidate|]. destruct (negb (allowStaleFallback e)); [apply Herr|].
  destruct (rq_forced rq); [apply Herr|]. destruct (isCachePersistenceError e && _).
  - destruct exists_; [apply Hstale, spec_fetchPassthrough|]. cbn [bind]. apply spec_fetchPassthrough.
  - destruct exists_; [apply Hstale, Herr|apply Herr].
Qed.

End reading.

(** ** Filling *)

(** The open write of a started goroutine. *)
Definition job_write (started : option job) : option (gostring * Z * option representation * bool) :=
  match started with Some (store_job key _ _ r gen) => Some (key, gen, delivered r, false) | _ => None end.

Lemma spec_fetchAndStore rq key adapterType ttl F :
  Framed None F ->
  spec (idle F) (fetchAndStore me rq key adapterType ttl)
    (fun a => knows None (job_write a.2) ∅ (fun w => (F w /\ told key a.1 w) /\ (is_ok a.1 = true \/ a.2 = None))).
Proof.
  intros HF. set (Q := fun a : result GetResult * option job => knows None (job_write a.2) ∅ (fun w => (F w /\ told key a.1 w) /\ (is_ok a.1 = true \/ a.2 = None))).
  assert (forall e, spec (idle F) (return_ (Err e, None)) Q) as Herr.
  { intros e. eapply cache_spec_return; [apply _|]. intros w _ [Hs Hf]. split; [done|]. split; [by split|by right]. }
  assert (forall e gen rep, spec (knows None (Some (key, gen, rep, false)) ∅ F)
            (_ <~ abort_write me key; _ <~ releaseInflight me key (Some e) None; return_ (Err e, None)) Q) as Habort.
  { intros e gen rep. eapply hoare_bind; [apply (spec_abort_write me key gen rep false None ∅ F); apply _|]. intros [].
    eapply hoare_bind; [apply spec_outside; [apply _|by intros w; split]|]. intros []. apply Herr. }
  unfold fetchAndStore. eapply hoare_bind; [apply spec_outside; [apply _|by intros w; split]|]. intros []; [apply Herr|].
  eapply hoare_bind; [apply spec_outside; [apply _|intros w; by destruct (w_inflight w !! key)]|]. intros [flight|].
  { eapply hoare_bind; [apply (spec_followInflight key F HF)|]. intros r. eapply cache_spec_return; [apply _|].
    intros w _ [Hs [Hf Ht]]. split; [done|]. split; [done|]. by right. }
  eapply hoare_bind; [apply (spec_begin_write me key None ∅ F); apply _|]. intros gen.
  eapply hoare_bind; [apply (spec_fetch me key None _ ∅ F); [apply _|done]|]. intros [r|e]; cycle 1.
  { destruct (allowStaleFallback e); cbn [negb].
    - cbn [bind]. apply Habort.
    - eapply hoare_bind; [apply (spec_invalidate key F HF); apply lookup_empty|]. intros outcome. apply Habort. }
  cbn [with_rep]. eapply hoare_bind; [apply cache_spec_ctx_err; apply _|]. intros [e|]; [apply Habort|].
  eapply hoare_bind; [apply spec_outside; [apply _|by intros w; split]|]. intros []; [apply Habort|].
  eapply cache_spec_return; [apply _|]. intros w _ [Hs Hf]. split; [|by split; [split; [|left]|left]].
  cbn [snd job_write]. by destruct (delivered r).
Qed.

Section filling.
Context (key : gostring) (F : world -> Prop) (HF : Framed None F).

#[local] Instance framed_everywhere g : Framed g F.
Proof. by apply framed_any. Qed.

Lemma read_stream_exact r body : read_stream m r = Ok (body, None) -> complete r = true /\ body = rp_Body (rs_Representation r).
Proof. unfold read_stream. destruct (complete r); [by intros [= <-]|]. by destruct (_ && _). Qed.

Lemma spec_row {A} g x l (G : world -> Prop) (p : program world A) Q :
  (forall row, spec (knows g x l (fun w => G w /\ row_is key row w)) p Q) -> spec (knows g x l G) p Q.
Proof. intros Hp w Hi [Hs Hg]. apply (Hp (w_rows w !! key) w Hi). by split. Qed.

(** Either the whole response is there and nothing else changed, or the storage succeeded
    with something else, or nothing happened. *)
Lemma spec_put_response r row x l :
  spec (knows (Some key) x l (fun w => F w /\ intact key w /\ row_is key row w)) (put_response m key r)
    (fun a => knows (Some key) x l (fun w => F w /\ match a.1 with
       | None => complete r = true /\ object_is key (rp_Body (rs_Representation r)) w /\ row_is key row w
       | Some _ => a.2 = false -> intact key w end)).
Proof.
  assert (forall P G, Framed (Some key) G -> Framed (Some key) (fun w => (P : Prop) -> G w)) as Himp.
  { intros P G HG w w' Hp Hl Hfr HP. eapply HG; eauto. }
  unfold put_response. destruct (read_stream m r) as [[body leftover]|e] eqn:E; cycle 1.
  { eapply cache_spec_return; [apply _|]. intros w _ [Hs (Hf & Hint & _)]. split; [done|]. split; [done|]. by intros _. }
  eapply hoare_bind; [apply (cache_spec_Put me key body row x l F HF)|]. intros [[]|e]; cycle 1.
  { eapply cache_spec_return; [apply _|]. intros w _ [Hs (Hf & Hint)]. split; [done|]. split; [done|]. by intros _. }
  eapply cache_spec_return; [apply _|]. intros w _ [Hs (Hf & Ho & Hr)]. split; [done|]. split; [done|].
  destruct leftover; [done|]. by destruct (read_stream_exact r body E) as [Hc ->].
Qed.

Lemma new_entry_describes adapterType ttl time rep : describes (new_entry key adapterType ttl time rep) rep.
Proof. by split_and!. Qed.

Lemma with_metadata_describes adapterType size expires time rep row : describes (with_metadata rep adapterType size expires time row) rep.
Proof. by split_and!. Qed.

Lemma spec_persistence_failure failure e x l g G :
  Framed g G -> spec (knows g x l G) (persistence_failure failure e) (fun _ => knows g x l G).
Proof.
  intros HG. unfold persistence_failure. destruct failure as [f|]; [by eapply cache_spec_return|].
  eapply hoare_bind; [by apply cache_spec_ctx_err|]. intros [c|]; [by eapply cache_spec_return|].
  eapply hoare_bind; [by apply cache_spec_ctx_err|]. intros c. by eapply cache_spec_return.
Qed.

(** A superseded write is discarded. *)
Lemma spec_discarded {A} gen rep checked (a : option error -> A) (Q : A -> world -> Prop) :
  (forall e w, knows (Some key) (Some (key, gen, rep, false)) ∅ (fun w => F w /\ intact key w) w -> Q (a e) w) ->
  spec (knows (Some key) (Some (key, gen, rep, checked)) ∅ (fun w => F w /\ intact key w))
    (cleanupErr <~ discardSupersededWrite key; return_ (a cleanupErr)) Q.
Proof.
  intros Hq. eapply hoare_bind; [apply (spec_discard key F HF)|]. intros e. eapply cache_spec_return; [apply _|]. intros w _ Hk. by apply Hq.
Qed.

(** The check under the gate before and after the storage is written. *)
Lemma spec_current {A} gen rep checked (G : world -> Prop) (p : bool -> program world A) Q :
  Framed (Some key) G ->
  spec (knows (Some key) (Some (key, gen, rep, false)) ∅ G) (p false) Q ->
  spec (knows (Some key) (Some (key, gen, rep, true)) ∅ G) (p true) Q ->
  spec (knows (Some key) (Some (key, gen, rep, checked)) ∅ G) (current <~ write_current key gen; p current) Q.
Proof.
  intros HG Hn Hy. eapply hoare_bind.
  { eapply spec_pre; [apply (spec_write_current me key gen rep ∅ G HG)|]. intros w [Hs Hg]. split; [|done].
    by apply (state_forget me (Some key) (Some (key, gen, rep, checked))). }
  intros []; [exact Hy|exact Hn].
Qed.

Lemma spec_current_again {A} gen rep (G : world -> Prop) (p : bool -> program world A) Q :
  Framed (Some key) G -> (forall w, G w -> F w) ->
  spec (knows (Some key) (Some (key, gen, rep, true)) ∅ (fun w => F w /\ intact key w)) (p false) Q ->
  spec (knows (Some key) (Some (key, gen, rep, true)) ∅ G) (p true) Q ->
  spec (knows (Some key) (Some (key, gen, rep, true)) ∅ G) (current <~ write_current key gen; p current) Q.
Proof.
  intros HG HGF Hn Hy. eapply hoare_bind; [apply (spec_write_current_again me key gen rep ∅ G HG)|].
  intros []; (eapply spec_pre; [eassumption|]); intros w [Hs [Hg Hst]]; (split; [done|]); [done|]. split; [auto|]. left. by apply Hst.
Qed.

(** What the gate is left with: the pair is intact. *)
Definition left_intact (gen : Z) (rep : option representation) (finished : bool) : world -> Prop :=
  knows (Some key) (if finished then None else Some (key, gen, rep, false)) ∅ (fun w => F w /\ intact key w).

Lemma spec_committed {A} gen rep (p : bool -> program world A) Q :
  spec (left_intact gen (Some rep) true) (p true) Q -> spec (left_intact gen (Some rep) false) (p false) Q ->
  spec (knows (Some key) (Some (key, gen, Some rep, true)) ∅ (fun w => F w /\ wrote key rep w)) (committed <~ commit_write me key gen; p committed) Q.
Proof.
  intros Hy Hn. eapply hoare_bind; [apply (spec_commit_write me key gen rep ∅ F HF)|]. intros []; [exact Hy|exact Hn].
Qed.

(** A failure after the storage was written. *)
Lemma spec_uncommitted gen rep checked e (G : world -> Prop) :
  (forall w, G w -> F w) ->
  spec (knows (Some key) (Some (key, gen, rep, checked)) ∅ G) (removeUncommittedObject me key e) (fun _ => left_intact gen rep false).
Proof.
  intros HG. eapply spec_pre; [exact (spec_remove_uncommitted key F HF (Some (key, gen, rep, checked)) ∅ e (lookup_empty key))|].
  intros w [Hs Hg]. split; auto.
Qed.

Lemma spec_store_locked adapterType ttl r gen :
  spec (knows (Some key) (Some (key, gen, delivered r, false)) ∅ (fun w => F w /\ intact key w))
    (store_locked m me key adapterType ttl r gen)
    (fun a => left_intact gen (delivered r) a.2).
Proof.
  unfold store_locked. apply spec_current; [apply _|apply spec_discarded; by intros e w|]. cbn [negb].
  apply spec_row. intros row. eapply hoare_bind.
  { eapply spec_pre; [apply (spec_put_response r row)|]. by intros w [Hs [[Hf Hint] Hr]]. }
  intros [[e|] succeeded]; cbn [fst snd].
  { eapply (hoare_bind _ _ _ _ _ (fun _ => left_intact gen (delivered r) false)).
    - destruct succeeded.
      + apply spec_uncommitted. by intros w [Hf _].
      + eapply cache_spec_return; [apply framed_and; [apply _|]; intros w w' Hi Hl Hfr Hp; eapply (framed_intact key); eauto|].
        intros w _ [Hs [Hf Hint]]. split; [by apply (state_forget me (Some key) (Some (key, gen, delivered r, true)))|]. split; [done|]. by apply Hint.
    - intros removed. eapply hoare_bind; [apply spec_persistence_failure; apply _|]. intros failure. eapply cache_spec_return; [apply _|]. by intros w _ Hk. }
  apply hoare_pre_pure with (complete r = true); [by intros w [_ [_ [? _]]]|]. intros Hc. unfold delivered. rewrite Hc.
  apply spec_current_again; [apply _|by intros w [Hf _]|by apply spec_discarded; intros e w|]. cbn [negb].
  eapply hoare_bind; [apply spec_outside; [apply _|by intros w; split]|]. intros time.
  eapply hoare_bind.
  { eapply spec_pre; [apply (spec_upsert me key (new_entry key adapterType ttl time (rs_Representation r)) (rs_Representation r));
      [apply _|done|done|apply new_entry_describes]|]. by intros w [Hs [Hf [_ [Ho _]]]]. }
  intros [id|e]; cycle 1.
  { eapply hoare_bind; [by apply spec_uncommitted; intros w [Hf _]|]. intros removed. eapply cache_spec_return; [apply _|]. by intros w _ Hk. }
  apply spec_committed; cbn [negb]; [eapply cache_spec_return; [apply _|]; by intros w _ Hk|]. by apply spec_discarded; intros e w.
Qed.

(** The end of a write: aborted unless it is finished. *)
Lemma spec_finished gen rep (finished : bool) :
  spec (knows None (if finished then None else Some (key, gen, rep, false)) ∅ F) (if finished then return_ () else abort_write me key) (fun _ => idle F).
Proof.
  destruct finished; [eapply cache_spec_return; [apply _|]; by intros w _ Hk|]. apply (spec_abort_write me key gen rep false None ∅ F). apply _.
Qed.

Lemma spec_left {A} gen rep (finished : bool) (p : program world A) Q :
  spec (knows None (if finished then None else Some (key, gen, rep, false)) ∅ F) p Q ->
  spec (left_intact gen rep finished) (_ <~ unlock key; p) Q.
Proof.
  intros Hp. unfold left_intact. destruct finished.
  - eapply hoare_bind; [apply (cache_spec_unlock me key None ∅ F HF)|]. intros []. exact Hp.
  - eapply hoare_bind; [apply (cache_spec_unlock me key (Some (key, gen, rep, false)) ∅ F HF)|]. intros []. exact Hp.
Qed.

Lemma spec_storeAndCommit adapterType ttl r gen :
  spec (knows None (Some (key, gen, delivered r, false)) ∅ F) (storeAndCommit m me key adapterType ttl r gen) (fun _ => idle F).
Proof.
  unfold storeAndCommit. eapply hoare_bind; [apply (cache_spec_lock me true key _ ∅ F HF)|]. intros [[]|e]; cycle 1.
  { eapply hoare_bind; [apply spec_persistence_failure; apply _|]. intros failure.
    eapply hoare_bind; [apply spec_outside; [apply _|by intros w; split]|]. intros []. apply (spec_finished gen (delivered r) false). }
  eapply hoare_bind; [apply (spec_store_locked adapterType ttl r gen)|]. intros [[err committed] finished]. cbn [snd].
  eapply hoare_bind; [apply spec_outside; [apply _|by intros w; split]|]. intros []. apply spec_left. apply spec_finished.
Qed.

(** *** Refreshes *)

Context (Htamper : mg_tamper m = false).

Lemma with_metadata_updates rep adapterType size expires time : updates (with_metadata rep adapterType size expires time).
Proof. by intros row. Qed.

Lemma spec_replace_locked adapterType ttl r gen :
  spec (knows (Some key) (Some (key, gen, delivered r, false)) ∅ (fun w => F w /\ intact key w))
    (replace_locked m me key adapterType ttl r gen)
    (fun a => left_intact gen (delivered r) a.2).
Proof.
  unfold replace_locked. apply spec_current; [apply _|apply spec_discarded; by intros e w|]. cbn [negb].
  eapply (hoare_bind _ _ _ _ _ (fun a => knows (Some key) (Some (key, gen, delivered r, true)) ∅ (fun w => (F w /\ intact key w) /\ match a with
    | Ok entry => row_is key (Some entry) w | Err _ => True end))).
  { unfold refreshEntry. eapply hoare_bind; [apply (cache_spec_find_entry me key _ ∅ (fun w => F w /\ intact key w)); apply _|].
    intros [[entry|]|e]; (eapply cache_spec_return; [apply _|]); intros w _ [Hs [Hf Hr]]; (split; [done|]); split; try done. by destruct Hr. }
  intros [entry|e]; cycle 1.
  { eapply cache_spec_return; [apply _|]. intros w _ [Hs [Hf _]]. split; [|done]. by apply (state_forget me (Some key) (Some (key, gen, delivered r, true))). }
  eapply hoare_bind.
  { eapply spec_pre; [apply (spec_put_response r (Some entry))|]. by intros w [Hs [[Hf Hint] Hr]]. }
  intros [[e|] succeeded]; cbn [fst snd].
  { eapply (hoare_bind _ _ _ _ _ (fun _ => left_intact gen (delivered r) false)).
    - destruct succeeded.
      + apply spec_uncommitted. by intros w [Hf _].
      + eapply cache_spec_return; [apply framed_and; [apply _|]; intros w w' Hi Hl Hfr Hp; eapply (framed_intact key); eauto|].
        intros w _ [Hs [Hf Hint]]. split; [by apply (state_forget me (Some key) (Some (key, gen, delivered r, true)))|]. split; [done|]. by apply Hint.
    - intros removed. eapply cache_spec_return; [apply _|]. by intros w _ Hk. }
  apply hoare_pre_pure with (complete r = true); [by intros w [_ [_ [? _]]]|]. intros Hc. unfold delivered. rewrite Hc.
  eapply hoare_bind; [apply spec_outside; [apply _|by intros w; split]|]. intros time.
  eapply hoare_bind.
  { eapply spec_pre; [eapply (spec_update_entry me key entry _ (rs_Representation r));
      [apply HF|apply with_metadata_updates|intros row; apply with_metadata_describes]|]. by intros w [Hs [Hf [_ [Ho Hr]]]]. }
  intros update. assert (forall e, spec (knows (Some key) (Some (key, gen, Some (rs_Representation r), true)) ∅
       (fun w => F w /\ match update with Ok n => n <> 0 -> wrote key (rs_Representation r) w | Err _ => True end))
    (removed <~ removeUncommittedObject me key e; return_ (removed, false)) (fun a => left_intact gen (Some (rs_Representation r)) a.2)) as Hremoved.
  { intros e. eapply hoare_bind; [by apply spec_uncommitted; intros w [Hf _]|]. intros removed. eapply cache_spec_return; [apply _|]. by intros w _ Hk. }
  unfold refreshMetadataUpdateError. destruct update as [n|e]; [|apply Hremoved]. destruct (Z.eqb_spec n 0) as [->|Hn]; [apply Hremoved|].
  eapply spec_pre; [apply (spec_committed gen (rs_Representation r)); cbn [negb]|].
  - eapply cache_spec_return; [apply _|]. by intros w _ Hk.
  - by apply spec_discarded; intros e w.
  - intros w [Hs [Hf Hw]]. split; [done|]. split; auto.
Qed.

Lemma spec_refresh_once adapterType ttl gen :
  spec (knows None (Some (key, gen, None, false)) ∅ F) (refresh_once m me key adapterType ttl gen)
    (fun a w => exists rep, knows None (if a.2 then None else Some (key, gen, rep, false)) ∅ F w).
Proof.
  unfold refresh_once. eapply hoare_bind; [apply (spec_fetch me key None _ ∅ F); [apply _|done]|]. intros [r|e]; cycle 1.
  { eapply cache_spec_return; [apply _|]. intros w _ Hk. by exists None. }
  unfold verify_only. rewrite Htamper. cbn [andb with_rep].
  eapply (spec_pre (knows None (Some (key, gen, delivered r, false)) ∅ F)); [|intros w; by destruct (delivered r)].
  eapply hoare_bind; [apply (cache_spec_lock me true key _ ∅ F HF)|]. intros [[]|e]; cycle 1.
  { eapply cache_spec_return; [apply _|]. intros w _ Hk. by exists (delivered r). }
  eapply hoare_bind; [apply (spec_replace_locked adapterType ttl r gen)|]. intros [err finished]. cbn [snd].
  apply spec_left. eapply cache_spec_return; [apply _|]. intros w _ Hk. by exists (delivered r).
Qed.

Lemma spec_backgroundRefresh adapterType ttl :
  spec (idle F) (backgroundRefresh m me key adapterType ttl) (fun _ => idle F).
Proof.
  unfold backgroundRefresh. eapply hoare_bind; [apply (spec_begin_write me key None ∅ F); apply _|]. intros gen.
  eapply hoare_bind; [apply (spec_refresh_once adapterType ttl gen)|]. intros [err finished]. cbn [snd].
  apply hoare_pre_ex. intros rep.
  eapply (hoare_bind _ _ _ _ _ (fun _ => knows None (if finished then None else Some (key, gen, rep, false)) ∅ F)); [|intros a; apply spec_finished].
  destruct err as [e|]; [|eapply cache_spec_return; [apply _|]; by intros w _ Hk]. destruct (_ || _); [eapply cache_spec_return; [apply _|]; by intros w _ Hk|].
  eapply spec_consequence; [apply (spec_invalidate key F HF (if finished then None else Some (key, gen, rep, false)) ∅ (lookup_empty key))|done|].
  intros a w _ Hk. by destruct finished.
Qed.

End filling.

(** ** Jobs and lookups *)

Context (Htamper : mg_tamper m = false).

Lemma spec_run_job j F :
  Framed None F ->
  spec (knows None (job_write (Some j)) ∅ F) (run_job m me j) (fun _ => idle F).
Proof.
  intros HF. destruct j as [key adapterType ttl r gen|key adapterType ttl]; cbn [job_write run_job]; [by apply spec_storeAndCommit|].
  eapply hoare_bind; [by apply spec_backgroundRefresh|]. intros []. apply spec_outside; [done|]. by intros w; split.
Qed.

Lemma spec_scheduleBackgroundRefresh key adapterType ttl F :
  Framed None F ->
  spec (idle F) (scheduleBackgroundRefresh key adapterType ttl) (fun started => knows None (job_write started) ∅ F).
Proof.
  intros HF. unfold scheduleBackgroundRefresh.
  eapply hoare_bind; [apply spec_outside; [done|intros w; by destruct (_ || _)]|]. intros []; cbn [negb]; [|by eapply cache_spec_return; [apply _|]].
  eapply hoare_bind; [apply spec_outside; [done|by intros w; split]|]. intros []; [|by eapply cache_spec_return; [apply _|]].
  eapply hoare_bind; [apply spec_outside; [done|by intros w; split]|]. intros []. by eapply cache_spec_return; [apply _|].
Qed.

Lemma spec_get rq key adapterType ttl :
  spec (idle (fun _ => True)) (get me rq key adapterType ttl)
    (fun a => knows None (job_write a.2) ∅ (told key a.1)).
Proof.
  unfold get. eapply hoare_bind; [apply spec_outside; [apply _|by intros w; split]|]. intros [flight|].
  { eapply hoare_bind; [apply (spec_followInflight key (fun _ => True)); apply _|]. intros r.
    eapply hoare_bind; [apply (spec_settle key (fun _ => True)); apply _|]. intros answer. eapply cache_spec_return; [apply _|]. by intros w _ [Hs [_ Ht]]. }
  eapply (hoare_bind _ _ _ _ _ (fun snap => idle (fun w => True /\ match snap with snap_hit entry body _ => served me key entry body w | _ => True end))).
  { destruct (rq_forced rq); [|apply spec_read_snapshot; apply _]. eapply cache_spec_return; [apply _|]. intros w _ [Hs _]. by split. }
  intros [e|entry body fresh|exists_].
  - eapply cache_spec_return; [apply _|]. intros w _ [Hs _]. by split.
  - eapply (hoare_bind _ _ _ _ _ (fun started => knows None (job_write started) ∅ (fun w => True /\ served me key entry body w))).
    + destruct fresh; [eapply cache_spec_return; [apply _|]; by intros w _ Hk|]. apply spec_scheduleBackgroundRefresh. apply _.
    + intros started. eapply cache_spec_return; [apply _|]. intros w _ [Hs [_ Hd]]. split; [done|]. right. exists entry, body. split; [done|]. by left.
  - eapply (spec_pre (idle (fun _ => True))); [|by intros w [Hs _]]. eapply hoare_bind; [apply (spec_fetchAndStore rq key adapterType ttl (fun _ => True)); apply _|].
    intros [r started]. cbn [fst snd]. apply hoare_pre_pure with (is_ok r = true \/ started = None); [by intros w [_ [_ ?]]|].
    intros Hcase. destruct r as [r|e].
    + cbn [settle bind]. eapply cache_spec_return; [apply _|]. by intros w _ [Hs [[_ Ht] _]].
    + destruct Hcase as [?| ->]; [done|]. eapply hoare_bind.
      { eapply spec_pre; [apply (spec_settle key (fun _ => True) _ rq ttl exists_ (Err e))|]. by intros w [Hs [Hf _]]. }
      intros answer. eapply cache_spec_return; [apply _|]. by intros w _ [Hs [_ Ht]].
Qed.

Lemma spec_lookup_thread rq key adapterType ttl :
  spec (idle (fun _ => True)) (lookup_thread m me rq key adapterType ttl)
    (fun a w => forall r, a = Some r -> told key r w).
Proof.
  unfold lookup_thread. eapply hoare_bind; [apply spec_get|]. intros [answer started]. cbn [fst snd].
  eapply (hoare_bind _ _ _ _ _ (fun _ => idle (told key answer))).
  - destruct started as [j|]; [apply spec_run_job; apply _|]. eapply cache_spec_return; [apply _|]. by intros w _ Hk.
  - intros []. eapply cache_spec_return; [apply _|]. intros w _ [_ Ht] r [= <-]. done.
Qed.

(** ** Whole packages *)

Definition opened (begun : list packageInvalidationEntry) : gmap gostring (Z * bool) :=
  list_to_map ((fun e => (pi_Key e, (pi_generation e, false))) <$> begun).

Lemma opened_none begun key : key ∉ pi_Key <$> begun -> opened begun !! key = None.
Proof. intros Hk. apply not_elem_of_list_to_map_1. by rewrite <- list_fmap_compose. Qed.

Lemma spec_begin_invalidations entries l :
  NoDup entries.*1 -> Forall (fun e => l !! e.1 = None) entries ->
  spec (knows None None l (fun _ => True)) (begin_invalidations me entries)
    (fun begun w => (pi_Key <$> begun = entries.*1 /\ pi_StoragePath <$> begun = entries.*2) /\ knows None None (opened begun ∪ l) (fun _ => True) w).
Proof.
  revert l. induction entries as [|[key path] entries IH]; intros l Hnd Hl; cbn [begin_invalidations fmap list_fmap] in *.
  { eapply cache_spec_return; [apply _|]. intros w _ Hk. split; [done|]. unfold opened. cbn. by rewrite (left_id_L ∅ (∪)). }
  apply NoDup_cons in Hnd as [Hnew Hnd]. apply Forall_cons in Hl as [Hkey Hl]. cbn [fst snd] in *.
  eapply hoare_bind; [apply (spec_begin_invalidation me key None None l (fun _ => True)); [apply _|done]|]. intros gen.
  eapply hoare_bind.
  { eapply spec_pre; [apply (IH (<[key := (gen, false)]> l) Hnd)|by intros w [Hs _]]. rewrite Forall_forall in *. intros e He.
    rewrite lookup_insert_ne; [by apply Hl|]. intros ->. apply Hnew. apply list_elem_of_fmap. by exists e. }
  intros begun. apply hoare_pre_pure with (pi_Key <$> begun = entries.*1 /\ pi_StoragePath <$> begun = entries.*2); [by intros w [? _]|]. intros [Hks Hps].
  eapply (spec_pre (knows None None (opened begun ∪ <[key := (gen, false)]> l) (fun _ => True))); [|by intros w [_ ?]].
  eapply cache_spec_return; [apply _|]. intros w _ Hk. split; [cbn; by rewrite Hks, Hps|].
  assert (opened ({| pi_Key := key; pi_StoragePath := path; pi_generation := gen |} :: begun) = <[key := (gen, false)]> (opened begun)) as -> by done.
  rewrite <- insert_union_l. rewrite insert_union_r by (apply opened_none; by rewrite Hks). done.
Qed.

Lemma spec_remove_package entries safe errs :
  NoDup (pi_Key <$> entries) -> Forall (fun e => pi_StoragePath e = pi_Key e) entries ->
  spec (knows None None (opened entries) (fun _ => True)) (remove_package me entries safe errs) (fun _ => idle (fun _ => True)).
Proof.
  revert safe errs. induction entries as [|[key path gen] entries IH]; intros safe errs Hnd Hp; cbn [remove_package fmap list_fmap] in *.
  { eapply cache_spec_return; [apply _|]. by intros w _ Hk. }
  apply NoDup_cons in Hnd as [Hnew Hnd]. apply Forall_cons in Hp as [Hpath Hp]. cbn [pi_Key pi_StoragePath pi_generation] in *. subst path.
  set (l := opened _). assert (l !! key = Some (gen, false)) as Hl by apply lookup_insert_eq.
  assert (delete key l = opened entries) as Hdel.
  { unfold l, opened. cbn. fold (opened entries). rewrite delete_insert_eq. apply delete_id. by apply opened_none. }
  eapply hoare_bind; [apply (cache_spec_lock me true key None l (fun _ => True)); apply _|]. intros [[]|e]; cycle 1.
  { eapply hoare_bind; [apply (spec_finish_invalidation me key gen false false None None l (fun _ => True)); [apply _|done|done]|].
    intros []. rewrite Hdel. by apply IH. }
  eapply hoare_bind; [apply spec_outside; [apply _|by intros w; split]|]. intros pending.
  eapply (hoare_bind _ _ _ _ _ (fun a => knows (Some key) None (scrub key a.1 l) (fun w => True /\ intact key w))).
  { destruct pending; cbn [negb].
    - apply (spec_cleanup key (fun _ => True)); [apply _|]. intros db storage. eapply cache_spec_return; [apply _|]. by intros w _ [Hs [Hf _]].
    - eapply cache_spec_return; [apply _|]. intros w _ Hk. cbn [fst]. by rewrite scrub_false. }
  intros [ok new]. cbn [fst]. eapply hoare_bind; [apply (cache_spec_unlock me key None (scrub key ok l) (fun _ => True)); apply _|]. intros [].
  eapply hoare_bind; [apply (spec_finish_invalidation me key gen ok ok None None (scrub key ok l) (fun _ => True)); [apply _| |done]|].
  { unfold scrub. by rewrite lookup_alter_eq, Hl. }
  intros []. assert (delete key (scrub key ok l) = opened entries) as -> by (unfold scrub; by rewrite delete_alter_eq). by apply IH.
Qed.

Lemma package_entries_keys adapterType matches w :
  cache_inv w -> let entries := package_entries adapterType matches w in NoDup entries.*1 /\ Forall (fun e => e.2 = e.1) entries.
Proof.
  intros Hi. unfold package_entries. split; [apply NoDup_fst_map_to_list|]. apply Forall_forall. intros [key path] Hin.
  apply elem_of_map_to_list, elem_of_list_to_map_2, elem_of_app in Hin as [Hin|Hin]; apply list_elem_of_fmap in Hin as (x & [= -> ->] & Hx); [|done].
  apply list_elem_of_filter in Hx as [_ Hx]. destruct x as [k row]. apply elem_of_map_to_list in Hx. destruct (ci_rows _ Hi k row Hx) as [Hk Hp].
  cbn. case_bool_decide; congruence.
Qed.

Lemma spec_InvalidatePackage adapterType packageName :
  spec (idle (fun _ => True)) (InvalidatePackage me adapterType packageName) (fun _ => idle (fun _ => True)).
Proof.
  unfold InvalidatePackage. repeat case_bool_decide; [by eapply cache_spec_return; [apply _|]..|].
  destruct (package_matches _ _) as [matches|e]; [|by eapply cache_spec_return; [apply _|]].
  eapply (hoare_bind _ _ _ _ _ (fun a w => match a with Ok entries => NoDup entries.*1 /\ Forall (fun e => e.2 = e.1) entries | Err _ => True end /\ idle (fun _ => True) w)).
  { apply hoare_read; [apply cache_knows_steady; apply _| | |].
    - intros a w w' [Ha Hk] Hr Hi'. split; [done|]. by eapply (cache_knows_steady me None None ∅ (fun _ => True)).
    - intros w Hi Hk _. split; [by apply package_entries_keys|done].
    - by intros w e Hi Hk. }
  intros [entries|e]; cycle 1.
  { apply (spec_pre (idle (fun _ => True))); [by eapply cache_spec_return; [apply _|]|by intros w [_ ?]]. }
  apply hoare_pre_pure with (NoDup entries.*1 /\ Forall (fun e => e.2 = e.1) entries); [by intros w [? _]|]. intros [Hnd Hp].
  apply (spec_pre (idle (fun _ => True))); [|by intros w [_ Hk]].
  eapply hoare_bind; [apply (spec_begin_invalidations entries ∅ Hnd); apply Forall_forall; intros; apply lookup_empty|]. intros begun.
  apply hoare_pre_pure with (pi_Key <$> begun = entries.*1 /\ pi_StoragePath <$> begun = entries.*2); [by intros w [? _]|]. intros [Hks Hps].
  eapply (hoare_bind _ _ _ _ _ (fun _ => idle (fun _ => True))); [|intros [safe err]; by eapply cache_spec_return; [apply _|]].
  eapply spec_pre; [apply (spec_remove_package begun true [])|].
  - by rewrite Hks.
  - assert (entries.*1 = entries.*2) as Heq by (clear -Hp; induction Hp as [|[k p] l Hkp _ IH]; cbn in *; congruence).
    rewrite <- Hks, <- Hps in Heq. clear -Heq. induction begun as [|b begun IH]; [constructor|]. cbn in Heq. injection Heq as Hb Heq. constructor; auto.
  - intros w [_ Hk]. by rewrite (right_id_L ∅ (∪)) in Hk.
Qed.

Lemma spec_Invalidate key : spec (idle (fun _ => True)) (Invalidate me key) (fun _ => idle (fun _ => True)).
Proof.
  unfold Invalidate. case_bool_decide; [by eapply cache_spec_return; [apply _|]|].
  apply (spec_invalidate key (fun _ => True) _ None ∅ (lookup_empty key)).
Qed.

Lemma spec_evict key : spec (idle (fun _ => True)) (evict me key) (fun _ => idle (fun _ => True)).
Proof.
  unfold evict. apply (cache_spec_locked key (fun _ => True)); [apply _| |intros e; by eapply cache_spec_return; [apply _|]].
  eapply hoare_bind.
  { eapply spec_pre; [apply (cache_spec_Delete me key false None ∅ (fun _ => True)); apply _|]. intros w [Hs Hf]. split; [done|]. by split. }
  intros deleted. eapply (hoare_bind _ _ _ _ _ (fun _ => knows (Some key) None ∅ (fun w => True /\ intact key w))).
  - destruct deleted as [[]|e].
    + eapply spec_consequence; [apply (cache_spec_delete_entry me key true None ∅ (fun _ => True)); apply _| |].
      * intros w _ [Hs [Hf Hc]]. split; [by apply (state_unscrubbed me key true)|]. by split.
      * intros a w _ [Hs [Hf _]]. split; [by apply (state_unscrubbed me key (is_ok a))|done].
    + eapply cache_spec_return; [apply _|]. intros w _ [Hs [Hf _]]. split; [by apply (state_unscrubbed me key false)|done].
  - intros a. apply (cache_spec_unlock me key None ∅ (fun _ => True)). apply _.
Qed.

End safety.
