(* ===== verification/CacheSafety.v ===== *)
(** * What the cache serves (CacheWorld.v, Manager.v)

    Any number of goroutines look up, invalidate and evict keys, in any interleaving and
    whatever calls fail.  Then schedules that show what the followers of a flight and the
    integrity check of artifacts do not keep. *)

From stdpp Require Import gmap.
From S2P Require Export ManagerSafety.

(** ** Goroutines *)


Section pool.
Context `{UnicodeTables} `{ModulePackage} (m : manager).











End pool.

(** ** Schedules *)




Section schedules.
#[local] Existing Instance ascii_tables.
#[local] Existing Instance permissive_modules.







(** *** Answers that are not justified *)












End schedules.
