(* ===== verification/NetGuard.v ===== *)
(** * The network guard of upstream requests (internal/upstream/request.go)

    Which network an address belongs to, which targets and redirects an exchange may
    follow, and the dialer that pins the scope of the configured origin.  Between two
    points where another goroutine may touch the pin, [DialContext] is one step; what
    the resolver answers and which address answers first are arguments of the step. *)

From stdpp Require Import gmap.
From S2P Require Export Http Url.

(** ** Network scopes *)

Inductive networkScope := networkPublic | networkPrivate | networkLoopback | networkUnsafe.
#[global] Instance networkScope_eq : EqDecision networkScope.
Proof. solve_decision. Defined.

Definition specialPurposeIPv4Prefixes : list prefix :=
  MustParsePrefix ∘ bs <$>
  ["0.0.0.0/8"; "100.64.0.0/10"; "192.0.0.0/24"; "192.0.2.0/24"; "192.31.196.0/24"; "192.52.193.0/24";
   "192.88.99.0/24"; "192.175.48.0/24"; "198.18.0.0/15"; "198.51.100.0/24"; "203.0.113.0/24"; "240.0.0.0/4"]%string.

Definition specialPurposeIPv6Prefixes : list prefix :=
  MustParsePrefix ∘ bs <$>
  ["64:ff9b::/96"; "64:ff9b:1::/48"; "100::/64"; "100:0:0:1::/64"; "2001::/23"; "2001:db8::/32"; "2002::/16";
   "2620:4f:8000::/48"; "3fff::/20"; "5f00::/16"]%string.

Definition isSpecialPurposeAddress (address : ip) : bool :=
  if negb ((len address =? 4) || (len address =? 16)) then true else
  let address := Unmap address in
  let prefixes := if len address =? 4 then specialPurposeIPv4Prefixes else specialPurposeIPv6Prefixes in
  existsb (fun p => Contains p address) prefixes.

(** A nil address is the empty list of bytes. *)
Definition ipNetworkScope (address : ip) : networkScope :=
  if bool_decide (address = []) then networkUnsafe
  else if IsLoopback address then networkLoopback
  else if IsPrivate address then networkPrivate
  else if IsUnspecified address || IsLinkLocalUnicast address || IsLinkLocalMulticast address || IsMulticast address
          || isSpecialPurposeAddress address then networkUnsafe
  else networkPublic.

Fixpoint resolved_from (scope : option networkScope) (addresses : list ip) : networkScope :=
  match addresses with
  | [] => default networkUnsafe scope
  | address :: addresses =>
    let candidate := ipNetworkScope address in
    if decide (candidate = networkUnsafe) then networkUnsafe else
    match scope with
    | None => resolved_from (Some candidate) addresses
    | Some scope => if decide (candidate <> scope) then networkUnsafe else resolved_from (Some scope) addresses
    end
  end.

Definition resolvedNetworkScope (addresses : list ip) : networkScope := resolved_from None addresses.

(** ** URLs of upstreams *)

Section guard.
Context `{UnicodeTables}.

Definition is_http_scheme (scheme : gostring) : bool := str_eqb scheme (bs "http") || str_eqb scheme (bs "https").

Definition validHTTPURL (value : gostring) : bool :=
  match ParseRequestURI value with
  | Ok parsed => negb (str_eqb (u_Host parsed) []) && is_http_scheme (u_Scheme parsed)
  | Err _ => false
  end.

Definition validOriginURL (value : gostring) : bool :=
  match Parse value with
  | Ok parsed => IsAbs parsed && str_eqb (u_Opaque parsed) [] && negb (str_eqb (u_Host parsed) [])
                 && is_http_scheme (u_Scheme parsed) && str_eqb (u_RawQuery parsed) [] && str_eqb (u_Fragment parsed) []
  | Err _ => false
  end.

Definition effectiveURLPort (target : option URL) : gostring :=
  match target with
  | None => []
  | Some target =>
    if negb (str_eqb (Port target) []) then Port target
    else if str_eqb (to_lower (u_Scheme target)) (bs "http") then bs "80"
    else if str_eqb (to_lower (u_Scheme target)) (bs "https") then bs "443"
    else []
  end.

Definition sameHTTPOrigin (l r : option URL) : bool :=
  match l, r with
  | Some a, Some b =>
    equal_fold (u_Scheme a) (u_Scheme b) && equal_fold (Hostname a) (Hostname b)
    && str_eqb (effectiveURLPort l) (effectiveURLPort r)
  | _, _ => false
  end.

Definition sameURLUserInfo (l r : option Userinfo) : bool :=
  match l, r with
  | Some a, Some b => str_eqb (userinfo_string a) (userinfo_string b)
  | None, None => true
  | _, _ => false
  end.

(** ** External targets and redirects *)

Definition hostname (target : option URL) : gostring := match target with Some u => Hostname u | None => [] end.

Definition literalHostNetworkScope (host : gostring) : networkScope * bool :=
  let trimmed := trim_suffix (to_lower (trim_space host)) (bs ".") in
  if str_eqb trimmed [] then (networkPublic, false)
  else if str_eqb trimmed (bs "localhost") || has_suffix trimmed (bs ".localhost") then (networkLoopback, true)
  else match ParseIP trimmed with
       | Some address => (ipNetworkScope address, true)
       | None => (networkPublic, false)
       end.

Definition validateExternalTarget (origin target : option URL) (directNetworkGuard : bool) : result unit :=
  match target with
  | None => fail "invalid external target"
  | Some t =>
    if negb (is_http_scheme (u_Scheme t)) || str_eqb (u_Host t) [] || bool_decide (is_Some (u_User t))
    then fail "invalid external target" else
    if match origin with Some o => equal_fold (u_Scheme o) (bs "https") && equal_fold (u_Scheme t) (bs "http") | None => false end
    then fail "HTTPS downgrade" else
    let '(originScope, originKnown) := literalHostNetworkScope (hostname origin) in
    let '(targetScope, targetKnown) := literalHostNetworkScope (Hostname t) in
    if negb targetKnown then Ok () else
    match targetScope with
    | networkUnsafe => fail "unsafe network target"
    | networkLoopback =>
      if originKnown && bool_decide (originScope = networkLoopback) then Ok ()
      else if negb originKnown && directNetworkGuard then Ok ()
      else if negb originKnown || bool_decide (originScope <> networkLoopback) then fail "loopback target"
      else Ok ()
    | networkPrivate =>
      if originKnown && bool_decide (originScope = networkPrivate \/ originScope = networkLoopback) then Ok ()
      else if negb originKnown && directNetworkGuard then Ok ()
      else if negb originKnown || bool_decide (originScope <> networkPrivate /\ originScope <> networkLoopback)
      then fail "private network target"
      else Ok ()
    | networkPublic => Ok ()
    end
  end.

(** [secureRedirectCheck]: the headers of the next request, and whether it is made.
    [via] are the URLs requested so far, the oldest first. *)
Definition secureRedirectCheck (configured : gostring) (directNetworkGuard : bool)
    (previousCheck : option (URL -> http_header -> list URL -> result unit))
    (request : URL) (header : http_header) (via : list URL) : http_header * result unit :=
  if 10 <=? len via then (header, fail "external redirect limit exceeded") else
  let previousURL := last via in
  let header := delete (bs "Proxy-Authorization") (delete (bs "Referer") header) in
  let header := if match previousURL with None => true | Some _ => negb (sameHTTPOrigin previousURL (Some request)) end
                then delete (bs "Cookie") (delete (bs "Authorization") header) else header in
  let configuredOrigin := match Parse configured with Ok u => Some u | Err _ => None end in
  (header,
   match validateExternalTarget configuredOrigin (Some request) directNetworkGuard with
   | Err _ => fail "external redirect target rejected"
   | Ok _ =>
     if match previousURL with
        | Some p => equal_fold (u_Scheme p) (bs "https") && equal_fold (u_Scheme request) (bs "http")
        | None => false
        end then fail "external redirect HTTPS downgrade rejected" else
     match previousCheck with Some check => check request header via | None => Ok () end
   end).

(** [isDomainOrSubdomain] of net/http; [idna] is the ASCII form of a host name. *)
Definition isDomainOrSubdomain (sub parent : gostring) : bool :=
  str_eqb sub parent
  || (negb (contains_any sub (bs ":%")) && has_suffix sub (ch "." :: parent)).

Definition sensitive_headers : list gostring :=
  bs <$> ["Authorization"; "Www-Authenticate"; "Cookie"; "Cookie2"; "Proxy-Authorization"; "Proxy-Authenticate"]%string.

Definition strip_sensitive (header : http_header) : http_header :=
  foldr (fun key h => delete key h) header sensitive_headers.

(** The redirects [http.Client.Do] follows with [secureRedirectCheck]: every request
    starts from the headers of the first one, without the sensitive ones once a
    redirect left the domain; [referer] renders the previous URL. *)
Fixpoint follow_redirects (configured : gostring) (directNetworkGuard : bool) (idna : gostring -> gostring)
    (referer : URL -> gostring) (initial : URL) (header : http_header) (stripped : bool) (via locations : list URL)
    : list (URL * http_header) * option error :=
  match locations with
  | [] => ([], None)
  | next :: locations =>
    let stripped := stripped || (negb (str_eqb (u_Host initial) (u_Host next))
                                 && negb (isDomainOrSubdomain (idna (Hostname next)) (idna (Hostname initial)))) in
    let copied := if stripped then strip_sensitive header else header in
    let copied := match last via with Some p => <[bs "Referer" := [referer p]]> copied | None => copied end in
    let '(sent, verdict) := secureRedirectCheck configured directNetworkGuard None next copied via in
    match verdict with
    | Err e => ([], Some e)
    | Ok _ =>
      let '(rest, err) := follow_redirects configured directNetworkGuard idna referer initial header stripped
                            (via ++ [next]) locations in
      ((next, sent) :: rest, err)
    end
  end.

(** ** Paths below the configured origin *)

Definition bs_backslash : gostring := [92].

Definition validOriginPathValue (value : gostring) : bool :=
  has_prefix value (bs "/") && negb (contains value bs_backslash) && negb (contains value (bs "//"))
  && forallb (fun segment => negb (str_eqb segment (bs ".") || str_eqb segment (bs ".."))) (strings_split value (ch "/")).

Definition maxOriginPathDecodeLayers : nat := 8.

Fixpoint valid_layers (layers : nat) (candidate : gostring) : bool :=
  match layers with
  | O => false
  | S layers =>
    if negb (validOriginPathValue candidate) then false else
    match PathUnescape candidate with
    | Err _ => true
    | Ok decoded => if str_eqb decoded candidate then true else valid_layers layers decoded
    end
  end.

Definition validCanonicalOriginPath (escapedPath : gostring) (allowEmpty : bool) : bool :=
  if str_eqb escapedPath [] then allowEmpty else valid_layers maxOriginPathDecodeLayers escapedPath.

Definition validOriginRequestPath (target : URL) : bool :=
  str_eqb (u_Fragment target) [] && validCanonicalOriginPath (EscapedPath target) false.

Definition validConfiguredOriginPath (target : URL) : bool := validCanonicalOriginPath (EscapedPath target) true.

Definition trim_prefix_slash (s : gostring) : gostring :=
  match s with c :: s' => if c =? ch "/" then s' else s | [] => [] end.

Definition urlPathWithinBase (basePath targetPath : gostring) : bool :=
  let canonicalBase := path_Clean (ch "/" :: trim_prefix_slash basePath) in
  let canonicalTarget := path_Clean (ch "/" :: trim_prefix_slash targetPath) in
  str_eqb canonicalBase (bs "/") || str_eqb canonicalTarget canonicalBase
  || has_prefix canonicalTarget (canonicalBase ++ [ch "/"]).

(** [strings.TrimRight(s, "/")] *)
Fixpoint trim_left_slashes (s : gostring) : gostring :=
  match s with c :: s' => if c =? ch "/" then trim_left_slashes s' else s | [] => [] end.
Definition trim_right_slashes (s : gostring) : gostring := rev (trim_left_slashes (rev s)).

Definition originRequestURL (base path : gostring) : result gostring :=
  if negb (has_prefix path (bs "/")) || has_prefix path (bs "//") then fail "create request: invalid relative URL" else
  match ParseRequestURI path, Parse base with
  | Ok relative, Ok baseURL =>
    if IsAbs relative || negb (str_eqb (u_Host relative) []) || negb (validOriginRequestPath relative)
       || negb (validHTTPURL base) || negb (validConfiguredOriginPath baseURL)
       || negb (str_eqb (u_RawQuery baseURL) []) || negb (str_eqb (u_Fragment baseURL) [])
    then fail "create request: invalid relative URL" else
    let reqURL := trim_right_slashes base ++ path in
    if negb (validHTTPURL reqURL) then fail "create request: invalid HTTP URL" else
    match Parse reqURL with
    | Ok finalURL =>
      if negb (equal_fold (u_Scheme finalURL) (u_Scheme baseURL)) || negb (equal_fold (u_Host finalURL) (u_Host baseURL))
         || negb (sameURLUserInfo (u_User finalURL) (u_User baseURL))
         || negb (urlPathWithinBase (u_Path baseURL) (u_Path finalURL))
      then fail "create request: target escaped configured origin" else Ok reqURL
    | Err _ => fail "create request: target escaped configured origin"
    end
  | _, _ => fail "create request: invalid relative URL"
  end.

(** ** The guarded dialer *)

(** [net.SplitHostPort] *)
Definition SplitHostPort (hostport : gostring) : option (gostring * gostring) :=
  match last_index_byte hostport (ch ":") with
  | None => None
  | Some i =>
    let port := drop (S i) hostport in
    if has_prefix hostport (bs "[") then
      match index_byte hostport (ch "]") with
      | None => None
      | Some close =>
        if negb (bool_decide (S close = i)) then None
        else if mem (ch "[") (drop 1 hostport) || mem (ch "]") (drop (S close) hostport) then None
        else Some (take (close - 1) (drop 1 hostport), port)
      end
    else
      let host := take i hostport in
      if mem (ch ":") host || mem (ch "[") hostport || mem (ch "]") hostport then None else Some (host, port)
  end.

Definition sameDialAddress (address : gostring) (origin : option URL) : bool :=
  match origin with
  | None => false
  | Some o =>
    let originPort := effectiveURLPort origin in
    if str_eqb originPort [] then false else
    match SplitHostPort address with
    | None => false
    | Some (targetHost, targetPort) =>
      equal_fold (trim_suffix targetHost (bs ".")) (trim_suffix (Hostname o) (bs ".")) && str_eqb targetPort originPort
    end
  end.

(** [resolve]: a literal address is its own answer, [lookup] is the resolver's. *)
Definition dial_resolve (host : gostring) (lookup : result (list ip)) : result (list ip) :=
  match ParseIP (trim_suffix (trim_space host) (bs ".")) with
  | Some address => Ok [address]
  | None =>
    addresses ← lookup;
    if bool_decide (addresses = []) then fail "hostname resolved without addresses" else Ok addresses
  end.

Fixpoint alternate (primary secondary : list ip) : list ip :=
  match primary with
  | [] => secondary
  | p :: primary => p :: match secondary with [] => primary | s :: secondary => s :: alternate primary secondary end
  end.

Definition is_v4 (address : ip) : bool := bool_decide (is_Some (To4 address)).

Definition interleaveIPFamilies (addresses : list ip) : list ip :=
  match addresses with
  | [] | [_] => addresses
  | first :: _ =>
    let usable := filter (fun address => address <> []) addresses in
    alternate (filter (fun address => is_v4 address = is_v4 first) usable)
              (filter (fun address => is_v4 address <> is_v4 first) usable)
  end.

(** [pinOriginScope]: the pin afterwards, and whether the scope is the pinned one. *)
Definition pinOriginScope (pin : option networkScope) (scope : networkScope) : option networkScope * bool :=
  match pin with
  | None => (Some scope, true)
  | Some pinned => (pin, bool_decide (pinned = scope))
  end.

Definition scope_policy (origin target : networkScope) : bool :=
  match target with
  | networkPublic => true
  | networkLoopback => bool_decide (origin = networkLoopback)
  | networkPrivate => bool_decide (origin = networkPrivate \/ origin = networkLoopback)
  | networkUnsafe => false
  end.

Inductive dial_pc :=
  | DialContext (address : gostring)
  | originScopeForPolicy (scope : networkScope) (addresses : list ip)
  | dialResolved (exactOrigin : bool) (scope : networkScope) (addresses : list ip)
  | dial_connected (scope : networkScope) (connection : ip)
  | dial_returned (exactOrigin : bool) (outcome : result ip).

(** What the outside answers to a step: the resolver, and which of the ordered
    addresses connected first, if any. *)
Record dial_answer := { da_lookup : result (list ip); da_connected : option nat }.

Definition dial_refuse (exactOrigin : bool) (format : string) : dial_pc := dial_returned exactOrigin (fail format).

Definition rejected_text (scope : networkScope) : string :=
  match scope with networkLoopback => "loopback dial target rejected" | _ => "private dial target rejected" end.

Definition dial_step (origin : option URL) (pin : option networkScope) (pc : dial_pc) (io : dial_answer)
    : option networkScope * dial_pc :=
  match pc with
  | DialContext address =>
    match SplitHostPort address with
    | None => (pin, dial_refuse false "invalid dial target")
    | Some (host, port) =>
      if str_eqb host [] || str_eqb port [] then (pin, dial_refuse false "invalid dial target") else
      match dial_resolve host (da_lookup io) with
      | Err e => (pin, dial_returned false (Err (Errorf "resolve dial target: %w" [e])))
      | Ok addresses =>
        let scope := resolvedNetworkScope addresses in
        let exact := sameDialAddress address origin in
        if decide (scope = networkUnsafe) then (pin, dial_refuse exact "unsafe dial target") else
        if exact then
          match pin with
          | Some originScope =>
            if decide (originScope <> scope) then (pin, dial_refuse true "configured origin changed network scope")
            else (pin, dialResolved true scope addresses)
          | None => (pin, dialResolved true scope addresses)
          end
        else
          if decide (scope = networkPublic) then (pin, dialResolved false scope addresses) else
          match pin with
          | None => (pin, originScopeForPolicy scope addresses)
          | Some originScope =>
            if scope_policy originScope scope then (pin, dialResolved false scope addresses)
            else (pin, dial_refuse false (rejected_text scope))
          end
      end
    end
  | originScopeForPolicy scope addresses =>
    let refused := dial_refuse false (rejected_text scope) in
    match origin with
    | None => (pin, refused)
    | Some o =>
      if str_eqb (Hostname o) [] then (pin, refused) else
      match dial_resolve (Hostname o) (da_lookup io) with
      | Err _ => (pin, refused)
      | Ok originAddresses =>
        let originScope := resolvedNetworkScope originAddresses in
        if decide (originScope = networkUnsafe) then (pin, refused) else
        let '(pin, same) := pinOriginScope pin originScope in
        if negb same then (pin, refused) else
        if scope_policy originScope scope then (pin, dialResolved false scope addresses) else (pin, refused)
      end
    end
  | dialResolved exactOrigin scope addresses =>
    match da_connected io ≫= fun i => interleaveIPFamilies addresses !! i with
    | None => (pin, dial_refuse exactOrigin "no address connected")
    | Some connection =>
      if exactOrigin then (pin, dial_connected scope connection) else (pin, dial_returned false (Ok connection))
    end
  | dial_connected scope connection =>
    let '(pin, same) := pinOriginScope pin scope in
    (pin, if same : bool then dial_returned true (Ok connection)
          else dial_refuse true "configured origin changed network scope")
  | dial_returned _ _ => (pin, pc)
  end.

End guard.
