(* ===== verification/NetGuardTheory.v ===== *)
(** * Theory of the network guard (NetGuard.v)

    The dialer under any interleaving of its callers, the literals an external target
    may name, and why a request path cannot leave the configured origin. *)

From stdpp Require Import gmap.
From S2P Require Export NetGuard.

(** ** Resolved addresses *)





Section dialer.
Context `{UnicodeTables} (origin : option URL).

(** ** The dialer and its callers *)





Definition pin_kept (pin pin' : option networkScope) : Prop := forall scope, pin = Some scope -> pin' = Some scope.

Lemma pin_kept_refl pin : pin_kept pin pin.
Proof. by intros scope. Qed.
#[local] Hint Resolve pin_kept_refl : core.




Lemma scope_policy_unsafe pinned scope : scope_policy pinned scope = true -> scope <> networkUnsafe.
Proof. by intros Hs ->. Qed.






End dialer.

(** ** Redirects *)

Section redirects.
Context `{UnicodeTables}.

(** The scope of a literal target an origin may send a client to. *)
Definition literal_allowed (origin : option URL) (guarded : bool) (target : URL) : Prop :=
  let '(originScope, originKnown) := literalHostNetworkScope (hostname origin) in
  let '(targetScope, targetKnown) := literalHostNetworkScope (Hostname target) in
  targetKnown = true -> targetScope <> networkUnsafe
    /\ (targetScope = networkPublic \/ (originKnown = false /\ guarded = true)
        \/ (originKnown = true /\ scope_policy originScope targetScope = true)).

Definition downgrade (previous next : URL) : bool :=
  equal_fold (u_Scheme previous) (bs "https") && equal_fold (u_Scheme next) (bs "http").

Lemma external_target_ok origin target guarded :
  validateExternalTarget origin (Some target) guarded = Ok () ->
  is_http_scheme (u_Scheme target) = true /\ u_Host target <> [] /\ u_User target = None
  /\ (forall o, origin = Some o -> downgrade o target = false) /\ literal_allowed origin guarded target.
Proof.
  unfold validateExternalTarget, literal_allowed, downgrade. destruct (_ || _) eqn:E1; [done|].
  apply orb_false_iff in E1 as [[Hs Hh]%orb_false_iff Hu].
  apply negb_false_iff in Hs. apply str_eqb_neq in Hh. apply bool_decide_eq_false in Hu.
  destruct (match origin with Some o => _ | None => false end) eqn:Ed; [done|].
  destruct (literalHostNetworkScope (hostname origin)) as [os ok].
  destruct (literalHostNetworkScope (Hostname target)) as [ts tk].
  intros Hv. split_and!; try done.
  - by apply eq_None_not_Some.
  - by intros o ->.
  - intros ->. destruct ts, ok, guarded, os; vm_compute in Hv; try discriminate Hv; split; try discriminate; vm_compute; tauto.
Qed.

(** One hop that [secureRedirectCheck] lets through. *)
Definition hop_ok (configured : gostring) (guarded : bool) (previous : URL) (hop : URL * http_header) : Prop :=
  let '(next, header) := hop in
  is_http_scheme (u_Scheme next) = true /\ u_User next = None
  /\ downgrade previous next = false
  /\ literal_allowed (match Parse configured with Ok u => Some u | Err _ => None end) guarded next
  /\ header !! bs "Referer" = None /\ header !! bs "Proxy-Authorization" = None
  /\ (sameHTTPOrigin (Some previous) (Some next) = false ->
        header !! bs "Authorization" = None /\ header !! bs "Cookie" = None).

Inductive hops (configured : gostring) (guarded : bool) : URL -> list (URL * http_header) -> Prop :=
  | hops_end previous : hops configured guarded previous []
  | hops_next previous hop rest :
      hop_ok configured guarded previous hop -> hops configured guarded hop.1 rest ->
      hops configured guarded previous (hop :: rest).

(** The header after the deletions of the check. *)
Definition scrubbed (cross : bool) (header : http_header) : http_header :=
  let header := delete (bs "Proxy-Authorization") (delete (bs "Referer") header) in
  if cross then delete (bs "Cookie") (delete (bs "Authorization") header) else header.

Lemma lookup_deleted key (cross : bool) (header : http_header) :
  key = bs "Referer" \/ key = bs "Proxy-Authorization" \/ (cross = true /\ (key = bs "Authorization" \/ key = bs "Cookie")) ->
  scrubbed cross header !! key = None.
Proof.
  intros Hk. unfold scrubbed, http_header in *. cbv zeta. destruct cross; cbv iota; rewrite !lookup_delete_None; naive_solver.
Qed.

Lemma redirect_check_ok configured guarded previous before request header header' :
  secureRedirectCheck configured guarded None request header (before ++ [previous]) = (header', Ok ()) ->
  (length before < 9)%nat /\ hop_ok configured guarded previous (request, header').
Proof.
  unfold secureRedirectCheck. rewrite last_snoc. unfold len. rewrite length_app. simpl length.
  destruct (Z.leb_spec 10 (Z.of_nat (length before + 1))) as [|Hl]; [done|].
  destruct (validateExternalTarget _ _ _) as [[]|] eqn:Hv; [|done].
  destruct (equal_fold (u_Scheme previous) _ && _) eqn:Hd; [done|]. intros [= <-]. split; [lia|].
  apply external_target_ok in Hv as (? & ? & ? & ? & ?). cbn [hop_ok].
  do 4 (split; [assumption|]). split; [apply lookup_deleted; left; reflexivity|].
  split; [apply lookup_deleted; right; left; reflexivity|]. intros Hcross.
  split; apply (lookup_deleted _ (negb (sameHTTPOrigin (Some previous) (Some request)))); right; right;
    rewrite Hcross; (split; [reflexivity|]); [left|right]; reflexivity.
Qed.

(** C31: A chain of redirects stays confined.  A client makes at most ten requests; no hop
    goes from https to http, carries credentials in its URL, or names an address outside
    the scopes its configured origin may send it to; no hop discloses the previous URL
    or the proxy's credentials, and none that changes the origin carries the
    Authorization or Cookie of the one before. *)
Theorem redirects_confined configured guarded idna referer initial header locations :
  let sent := (follow_redirects configured guarded idna referer initial header false [initial] locations).1 in
  (length sent <= 9)%nat /\ hops configured guarded initial sent.
Proof.
  assert (forall before previous stripped,
    (length before <= 9)%nat ->
    let sent := (follow_redirects configured guarded idna referer initial header stripped (before ++ [previous]) locations).1 in
    (length before + length sent <= 9)%nat /\ hops configured guarded previous sent) as Hgen.
  { induction locations as [|next locations IH]; intros before previous stripped Hl; simpl.
    - split; [lia | constructor].
    - rewrite last_snoc. destruct (secureRedirectCheck _ _ _ _ _ _) as [h verdict] eqn:Hc.
      destruct verdict as [[]|e]; [|split; [simpl; lia | constructor]].
      apply redirect_check_ok in Hc as [Hb Hop].
      rewrite <- app_assoc. specialize (IH (before ++ [previous]) next).
      rewrite <- app_assoc in IH.
      destruct (follow_redirects _ _ _ _ _ _ _ _ _) as [rest err] eqn:Hf.
      destruct (IH (stripped || negb (str_eqb (u_Host initial) (u_Host next))
                    && negb (isDomainOrSubdomain (idna (Hostname next)) (idna (Hostname initial))))) as [Hlen Hhops].
      { rewrite length_app. simpl. lia. }
      rewrite Hf in Hlen, Hhops. simpl in *. rewrite length_app in Hlen. simpl in Hlen.
      split; [lia | by constructor]. }
  apply (Hgen []). simpl. lia.
Qed.

End redirects.

Section examples.
#[local] Existing Instance ascii_tables.

Definition url_of (text : string) : URL :=
  match Parse (bs text) with Ok u => u | Err _ => {| u_Scheme := []; u_Opaque := []; u_User := None; u_Host := [];
    u_Path := []; u_RawPath := []; u_OmitHost := false; u_ForceQuery := false; u_RawQuery := []; u_Fragment := []; u_RawFragment := [] |} end.






(** The headers of a redirect start from those of the first request, so the check, which
    looks at the previous hop only, lets the Authorization through again on the second
    request to a host below the first one's domain. *)
Example authorization_returns :
  (fun hop => (Hostname hop.1, hop.2 !! bs "Authorization"))
    <$> (follow_redirects (bs "https://example.com") true (fun host => host) u_Path
          (url_of "https://example.com/a") {[bs "Authorization" := [bs "Bearer secret"]]} false
          [url_of "https://example.com/a"]
          [url_of "https://cdn.example.com/b"; url_of "https://cdn.example.com/c"]).1
  = [(bs "cdn.example.com", None); (bs "cdn.example.com", Some [bs "Bearer secret"])].
Proof. vm_compute. reflexivity. Qed.

End examples.
