(* ===== verification/OriginPathTheory.v ===== *)
(** * Request paths stay below the configured origin (originRequestURL of NetGuard.v)

    The URL an exchange requests is the configured base with the path behind it, and no
    decoding of its path, however often it is repeated, contains a dot segment. *)

From stdpp Require Import gmap.
From S2P Require Export NetGuard Utf8.

(** ** Slash-separated segments *)









(** ** Decoding *)




Definition path_mode (mode : encoding) : Prop := mode = encodePath \/ mode = encodePathSegment.








(** ** Escaping *)
















(** ** The parts of an absolute URL *)

Section urls.
Context `{UnicodeTables}.










(** ** The request URL *)




Lemma ctl_app a b : stringContainsCTLByte (a ++ b) = stringContainsCTLByte a || stringContainsCTLByte b.
Proof. apply existsb_app. Qed.













End urls.

Section examples.
#[local] Existing Instance ascii_tables.


(** [url.ParseRequestURI] does not split a fragment off, but [url.Parse] of the joined
    URL does: behind a [#], the checks look at segments that are not requested, and a
    dot segment in front of it passes. *)
Example fragment_hides_dot_segment :
  match originRequestURL (bs "https://mirror.example/pypi") (bs "/simple/..#x") with
  | Ok requested => u_Path <$> Parse requested
  | Err e => Err e
  end = Ok (bs "/pypi/simple/..").
Proof. vm_compute. reflexivity. Qed.

(** Encoded twice, one leaves the base for an origin that decodes its paths once more. *)
Example fragment_hides_encoded_traversal :
  match originRequestURL (bs "https://mirror.example/pypi") (bs "/%252e%252e#") with
  | Ok requested => path_Clean <$> (Parse requested ≫= fun u => PathUnescape (u_Path u))
  | Err e => Err e
  end = Ok (bs "/").
Proof. vm_compute. reflexivity. Qed.

(** A base that ends in a question mark swallows every request path as its query. *)
Example empty_query_swallows_path :
  validOriginURL (bs "https://mirror.example/pypi?") = true
  /\ match originRequestURL (bs "https://mirror.example/pypi?") (bs "/simple/a/") with
     | Ok requested => u_Path <$> Parse requested
     | Err e => Err e
     end = Ok (bs "/pypi").
Proof. vm_compute. done. Qed.

End examples.
