(* ===== verification/DialRace.v ===== *)
(** * The race of dial attempts (internal/upstream/request.go: dialRaceState,
    dialResolved, awaitDialAttempts)

    Several goroutines dial the addresses of a host; the first connection wins, the
    others are closed, and a cancellation may come between any two steps. *)

From stdpp Require Import gmap sets.
From S2P Require Export Prelude.

(** ** The state the goroutines share *)

Record dialRaceState := { rs_finished : bool; rs_winner : option nat }.

(** [offer]: whether the connection was accepted; otherwise the caller closes it. *)
Definition offer (s : dialRaceState) (connection : nat) : dialRaceState * bool :=
  if negb (rs_finished s) && bool_decide (rs_winner s = None)
  then ({| rs_finished := false; rs_winner := Some connection |}, true)
  else (s, false).

Definition takeWinner (s : dialRaceState) : dialRaceState * option nat :=
  if rs_finished s then (s, None) else ({| rs_finished := true; rs_winner := None |}, rs_winner s).

(** [abandon]: the connection that is closed. *)
Definition abandon (s : dialRaceState) : dialRaceState * option nat :=
  if rs_finished s then (s, None) else ({| rs_finished := true; rs_winner := None |}, rs_winner s).

(** ** The goroutines and the caller *)

(** What the caller of [awaitDialAttempts] got: [None] while it waits. *)
Inductive await_outcome := await_connection (connection : nat) | await_cancelled | await_failed | await_without_winner.

(** Connections that are open, those a goroutine holds and has not offered yet, the
    success notifications in the channel, and the caller. *)
Record dial_race := {
  dr_state : dialRaceState;
  dr_open : gset nat;
  dr_held : gset nat;
  dr_successes : nat;
  dr_caller : option await_outcome;
}.

Definition option_set (c : option nat) : gset nat := match c with Some c => {[c]} | None => ∅ end.

(** The end of the wait with [abandon]. *)
Definition race_abandon (r : dial_race) (outcome : await_outcome) : dial_race :=
  let '(state, closed) := abandon (dr_state r) in
  {| dr_state := state; dr_open := dr_open r ∖ option_set closed; dr_held := dr_held r; dr_successes := dr_successes r;
     dr_caller := Some outcome |}.

(** A success notification is received; [cancelled] is [ctx.Err() != nil]. *)
Definition race_success (r : dial_race) (cancelled : bool) : dial_race :=
  let r := {| dr_state := dr_state r; dr_open := dr_open r; dr_held := dr_held r;
              dr_successes := pred (dr_successes r); dr_caller := dr_caller r |} in
  if cancelled then race_abandon r await_cancelled else
  match takeWinner (dr_state r) with
  | (state, Some connection) =>
    {| dr_state := state; dr_open := dr_open r; dr_held := dr_held r; dr_successes := dr_successes r;
       dr_caller := Some (await_connection connection) |}
  | (state, None) =>
    race_abandon {| dr_state := state; dr_open := dr_open r; dr_held := dr_held r; dr_successes := dr_successes r;
                    dr_caller := dr_caller r |} await_without_winner
  end.

(** A goroutine offers the connection it holds. *)
Definition race_offer (r : dial_race) (connection : nat) : dial_race :=
  match offer (dr_state r) connection with
  | (state, true) => {| dr_state := state; dr_open := dr_open r; dr_held := dr_held r ∖ {[connection]};
                        dr_successes := S (dr_successes r); dr_caller := dr_caller r |}
  | (state, false) => {| dr_state := state; dr_open := dr_open r ∖ {[connection]}; dr_held := dr_held r ∖ {[connection]};
                         dr_successes := dr_successes r; dr_caller := dr_caller r |}
  end.

Inductive race_step : dial_race -> dial_race -> Prop :=
  | race_connected r connection :
      connection ∉ dr_open r -> connection ∉ dr_held r -> dr_caller r <> Some (await_connection connection) ->
      race_step r {| dr_state := dr_state r; dr_open := {[connection]} ∪ dr_open r; dr_held := {[connection]} ∪ dr_held r;
                     dr_successes := dr_successes r; dr_caller := dr_caller r |}
  (** the race was cancelled while the address was dialed *)
  | race_dropped r connection :
      connection ∈ dr_held r ->
      race_step r {| dr_state := dr_state r; dr_open := dr_open r ∖ {[connection]}; dr_held := dr_held r ∖ {[connection]};
                     dr_successes := dr_successes r; dr_caller := dr_caller r |}
  | race_offered r connection : connection ∈ dr_held r -> race_step r (race_offer r connection)
  | race_received r cancelled :
      dr_caller r = None -> (0 < dr_successes r)%nat -> race_step r (race_success r cancelled)
  (** the context ended, or every attempt failed *)
  | race_ended r outcome :
      dr_caller r = None -> outcome = await_cancelled \/ (outcome = await_failed /\ dr_successes r = O) ->
      race_step r (race_abandon r outcome).

Inductive race_reachable : dial_race -> Prop :=
  | race_start : race_reachable {| dr_state := {| rs_finished := false; rs_winner := None |}; dr_open := ∅; dr_held := ∅;
                                   dr_successes := O; dr_caller := None |}
  | race_next r r' : race_reachable r -> race_step r r' -> race_reachable r'.

(** ** No connection is lost *)

Definition returned (caller : option await_outcome) : option nat :=
  match caller with Some (await_connection c) => Some c | _ => None end.

Record race_inv (r : dial_race) : Prop := {
  rv_open : dr_open r = dr_held r ∪ option_set (rs_winner (dr_state r)) ∪ option_set (returned (dr_caller r));
  rv_winner : forall c, rs_winner (dr_state r) = Some c -> c ∉ dr_held r;
  rv_returned : forall c, returned (dr_caller r) = Some c -> c ∉ dr_held r;
  rv_finished : rs_finished (dr_state r) = true <-> dr_caller r <> None;
  rv_done : dr_caller r <> None -> rs_winner (dr_state r) = None;
  rv_success : (0 < dr_successes r)%nat -> dr_caller r = None -> is_Some (rs_winner (dr_state r));
  rv_no_loss : dr_caller r <> Some await_without_winner;
}.

Lemma race_abandon_inv r outcome :
  race_inv r -> dr_caller r = None -> outcome <> await_without_winner -> returned (Some outcome) = None ->
  race_inv (race_abandon r outcome).
Proof.
  intros [Ho Hw Hr Hf Hd Hs Hn] Hc Hne Hret. unfold race_abandon, abandon.
  destruct (rs_finished (dr_state r)) eqn:Ef; [exfalso; by apply (proj1 Hf eq_refl)|].
  constructor; cbn [dr_open dr_held dr_state dr_caller dr_successes rs_winner rs_finished]; rewrite ?Hret; try done.
  - rewrite Ho, Hc. cbn [returned option_set]. destruct (rs_winner (dr_state r)) as [c|]; cbn [option_set].
    + specialize (Hw c eq_refl). set_solver.
    + set_solver.
  - congruence.
Qed.

Lemma race_step_inv r r' : race_inv r -> race_step r r' -> race_inv r'.
Proof.
  intros Hinv Hstep. pose proof Hinv as [Ho Hw Hr Hf Hd Hs Hn].
  destruct Hstep as [r c H1 H2 H3|r c Hc|r c Hc|r cancelled Hcall Hsucc|r outcome Hcall Hout].
  - constructor; cbn [dr_open dr_held dr_state dr_caller dr_successes]; try done.
    + rewrite Ho. set_solver.
    + intros d Hd'. apply not_elem_of_union. split; [|by apply Hw]. apply not_elem_of_singleton. intros ->.
      apply H1. rewrite Ho, Hd'. set_solver.
    + intros d Hd'. apply not_elem_of_union. split; [|by apply Hr]. apply not_elem_of_singleton. intros ->.
      apply H1. rewrite Ho, Hd'. set_solver.
  - constructor; cbn [dr_open dr_held dr_state dr_caller dr_successes]; try done.
    + rewrite Ho. pose proof (Hw c) as Hwc. pose proof (Hr c) as Hrc.
      destruct (rs_winner (dr_state r)) as [w|], (returned (dr_caller r)) as [q|]; cbn [option_set]; set_solver.
    + intros d Hd'. specialize (Hw d Hd'). set_solver.
    + intros d Hd'. specialize (Hr d Hd'). set_solver.
  - unfold race_offer, offer. destruct (rs_finished (dr_state r)) eqn:Ef; cbn [negb andb].
    { constructor; cbn [dr_open dr_held dr_state dr_caller dr_successes]; rewrite ?Ef; try done.
      + rewrite Ho. pose proof (Hw c) as Hwc. pose proof (Hr c) as Hrc.
        destruct (rs_winner (dr_state r)) as [w|], (returned (dr_caller r)) as [q|]; cbn [option_set]; set_solver.
      + intros d Hd'. specialize (Hw d Hd'). set_solver.
      + intros d Hd'. specialize (Hr d Hd'). set_solver. }
    assert (dr_caller r = None) as Hcall by (destruct (dr_caller r); [by discriminate (proj2 Hf)|done]).
    case_bool_decide as Ew.
    + rewrite Ew in Ho. constructor; cbn [dr_open dr_held dr_state dr_caller dr_successes rs_winner rs_finished]; rewrite ?Hcall in *; try done.
      * rewrite Ho. cbn [returned option_set]. apply set_eq. intros d. destruct (decide (d = c)); set_solver.
      * intros d [= ->]. set_solver.
    + constructor; cbn [dr_open dr_held dr_state dr_caller dr_successes]; rewrite ?Ef, ?Hcall in *; try done.
      * rewrite Ho. pose proof (Hw c) as Hwc. destruct (rs_winner (dr_state r)) as [w|]; cbn [option_set returned]; set_solver.
      * intros d Hd'. specialize (Hw d Hd'). set_solver.
  - unfold race_success. destruct (Hs Hsucc Hcall) as [w Hw'].
    set (r1 := {| dr_state := dr_state r; dr_successes := pred (dr_successes r) |}).
    assert (race_inv r1) as Hinv1.
    { constructor; cbn [r1 dr_open dr_held dr_state dr_caller dr_successes]; try done. }
    destruct cancelled; [by apply race_abandon_inv|].
    unfold takeWinner. cbn [r1 dr_state]. destruct (rs_finished (dr_state r)) eqn:Ef; [exfalso; by apply (proj1 Hf eq_refl)|].
    rewrite Hw'. constructor; cbn [r1 dr_open dr_held dr_state dr_caller dr_successes rs_winner rs_finished returned]; try done.
    + rewrite Ho, Hw', Hcall. cbn [returned option_set]. set_solver.
    + intros d [= <-]. by apply Hw.
  - destruct Hout as [->|[-> _]]; by apply race_abandon_inv.
Qed.

Lemma race_start_inv :
  race_inv {| dr_state := {| rs_finished := false; rs_winner := None |}; dr_open := ∅; dr_held := ∅; dr_successes := O;
              dr_caller := None |}.
Proof. by constructor; cbn [dr_open dr_held dr_state dr_caller dr_successes rs_winner rs_finished option_set returned]; try done; try set_solver; try lia. Qed.

Lemma race_reachable_inv r : race_reachable r -> race_inv r.
Proof. induction 1; [apply race_start_inv | by eapply race_step_inv]. Qed.

(** C34: Dialing loses no connection.  In every interleaving of the attempts, the caller
    and a cancellation: once the caller has its answer and no goroutine holds a
    connection, the only connection that is open is the one the caller got - none when
    it got an error; and a success is never reported without its connection. *)
Theorem dial_race_leaks_nothing r :
  race_reachable r ->
  dr_caller r <> Some await_without_winner
  /\ (dr_caller r <> None -> dr_held r = ∅ -> dr_open r = option_set (returned (dr_caller r)))
  /\ (forall c, dr_caller r = Some (await_connection c) -> c ∈ dr_open r).
Proof.
  intros Hr%race_reachable_inv. destruct Hr as [Ho Hw Hr Hf Hd Hs Hn]. split_and!; [done| |].
  - intros Hc Hh. rewrite Ho, Hh, (Hd Hc). set_solver.
  - intros c Hc. rewrite Ho, Hc. set_solver.
Qed.

(** Two addresses connect; the second one loses the race and is closed. *)
Definition sample_start : dial_race :=
  {| dr_state := {| rs_finished := false; rs_winner := None |}; dr_open := ∅; dr_held := ∅; dr_successes := O;
     dr_caller := None |}.
Definition sample_connect (r : dial_race) (c : nat) : dial_race :=
  {| dr_state := dr_state r; dr_open := {[c]} ∪ dr_open r; dr_held := {[c]} ∪ dr_held r;
     dr_successes := dr_successes r; dr_caller := dr_caller r |}.
Definition sample_race : dial_race :=
  race_offer (race_success (race_offer (sample_connect (sample_connect sample_start 1) 2) 1) false) 2.

Lemma sample_race_reachable : race_reachable sample_race.
Proof.
  eapply race_next; [|apply race_offered].
  - eapply race_next; [|apply race_received; [done|cbn; lia]].
    eapply race_next; [|apply race_offered; set_solver].
    eapply race_next; [|by apply race_connected; set_solver].
    eapply race_next; [apply race_start|by apply race_connected; set_solver].
  - apply (bool_decide_unpack _). by vm_compute.
Qed.

Lemma dial_race_leaks_nothing_witness :
  race_reachable sample_race /\ dr_caller sample_race = Some (await_connection 1) /\ dr_held sample_race = ∅
  /\ dr_caller sample_race <> Some await_without_winner
  /\ (dr_caller sample_race <> None -> dr_held sample_race = ∅ ->
      dr_open sample_race = option_set (returned (dr_caller sample_race)))
  /\ (forall c, dr_caller sample_race = Some (await_connection c) -> c ∈ dr_open sample_race).
Proof.
  split; [exact sample_race_reachable|]. split; [vm_compute; reflexivity|]. split; [vm_compute; reflexivity|].
  apply (dial_race_leaks_nothing sample_race). exact sample_race_reachable.
Defined.
