(* ===== verification/Cascade.v ===== *)
(** * The relay contract between instances (internal/cascade/cascade.go)

    Identifiers, the chain of instances a relayed request has traversed and its header,
    the freshness budget, and what a request context carries of them. *)

From stdpp Require Import gmap.
From S2P Require Export Duration Http.

(** ** Constants *)

Definition RelayPath : gostring := bs "/_depsilo/relay/v1".
Definition HeaderTarget : gostring := bs "X-Depsilo-Relay-Target".
Definition HeaderCache : gostring := bs "X-Depsilo-Relay-Cache".
Definition HeaderTTL : gostring := bs "X-Depsilo-Relay-TTL".
Definition HeaderSource : gostring := bs "X-Depsilo-Relay-Source".
Definition HeaderKind : gostring := bs "X-Depsilo-Relay-Kind".
Definition HeaderToken : gostring := bs "X-Depsilo-Cascade-Token".
Definition HeaderChain : gostring := bs "X-Depsilo-Cascade-Chain".
Definition HeaderInstance : gostring := bs "X-Depsilo-Instance".
Definition KindIndex : gostring := bs "index".
Definition KindArtifact : gostring := bs "artifact".
Definition DefaultMaxHops : Z := 4.
Definition MaxChainEntries : Z := 16.
Definition MaxInstanceIDLength : Z := 64.
Definition MaxTargetURLLength : Z := 8192.

(** ** Identifiers and chains *)

Definition ValidInstanceID (id : gostring) : bool :=
  negb (str_eqb id []) && (len id <=? MaxInstanceIDLength)
  && forallb (fun c => in_range 97 122 c || in_range 48 57 c || (c =? ch "-")) (runes id).

Definition Chain := list gostring.

Fixpoint parse_entries (parts : list gostring) : result Chain :=
  match parts with
  | [] => Ok []
  | part :: parts =>
    let id := trim_space part in
    if str_eqb id [] then Err (Sentinel "cascade instance ID is empty")
    else if negb (ValidInstanceID id) then Err (Sentinel "cascade instance ID has invalid characters")
    else chain ← parse_entries parts; Ok (id :: chain)
  end.

Definition ParseChain (raw : gostring) : result Chain :=
  let raw := trim_space raw in
  if str_eqb raw [] then Ok [] else
  let parts := strings_split raw (ch ",") in
  if len parts >? MaxChainEntries then Err (Sentinel "cascade chain is too long") else parse_entries parts.

Definition chain_String (c : Chain) : gostring := strings_join c (ch ",").

Definition chain_Contains (c : Chain) (id : gostring) : bool := existsb (fun entry => str_eqb entry id) c.

Definition chain_With (c : Chain) (id : gostring) : Chain := c ++ [id].

(** ** The request context

    [WithChain] keeps an outer chain when it is given none. *)
Record relay_context := { cx_chain : Chain; cx_ttl : option Z; cx_kind : option gostring }.

Definition WithChain (ctx : relay_context) (chain : option Chain) : relay_context :=
  match chain with
  | None => ctx
  | Some chain => {| cx_chain := chain; cx_ttl := cx_ttl ctx; cx_kind := cx_kind ctx |}
  end.

Definition WithFetchTTL (ctx : relay_context) (ttl : Z) : relay_context :=
  if ttl <=? 0 then ctx else {| cx_chain := cx_chain ctx; cx_ttl := Some ttl; cx_kind := cx_kind ctx |}.

Definition WithFetchKind (ctx : relay_context) (kind : gostring) : relay_context :=
  if negb (str_eqb kind KindIndex) && negb (str_eqb kind KindArtifact) then ctx
  else {| cx_chain := cx_chain ctx; cx_ttl := cx_ttl ctx; cx_kind := Some kind |}.

(** ** The freshness budget *)

(** [ParseTTLHeader]: nanoseconds; an empty header is no budget. *)
Definition ParseTTLHeader (raw : gostring) : result (Z * bool) :=
  let raw := trim_space raw in
  if str_eqb raw [] then Ok (0, false) else
  match parse_int raw with
  | Err _ => fail "invalid relay TTL"
  | Ok seconds => if seconds <? 0 then fail "invalid relay TTL" else Ok (wrap64 (seconds * Second), true)
  end.

Definition FormatTTLHeader (ttl : Z) : gostring :=
  if ttl <=? 0 then bs "0" else format_int (Z.quot ttl Second).

(** ** Identifiers survive the wire *)

Lemma instance_id_graphic id : ValidInstanceID id = true -> Forall graphic id /\ ch "," ∉ id /\ id <> [].
Proof.
  unfold ValidInstanceID. intros Hv. apply andb_true_iff in Hv as [Hv Hr]. apply andb_true_iff in Hv as [Hne _].
  apply negb_true_iff, str_eqb_neq in Hne.
  assert (Forall (fun c => 97 <= c <= 122 \/ 48 <= c <= 57 \/ c = 45) (runes id)) as Hall.
  { revert Hr. apply forallb_Forall. intros c. change (ch "-") with 45.
    rewrite !orb_true_iff, !in_range_true, Z.eqb_eq. tauto. }
  assert (runes id = id) as Heq.
  { apply runes_all_ascii. eapply Forall_impl; [exact Hall|]. cbn beta. intros c. lia. }
  rewrite Heq in Hall. split_and!; [| |done].
  - eapply Forall_impl; [exact Hall|]. unfold graphic. cbn beta. intros c. lia.
  - eapply Forall_not_elem; [exact Hall|]. cbn beta. change (ch ",") with 44. lia.
Qed.

Definition valid_chain (c : Chain) : Prop := Forall (fun id => ValidInstanceID id = true) c /\ len c <= MaxChainEntries.

Lemma parse_entries_valid parts chain :
  parse_entries parts = Ok chain -> Forall (fun id => ValidInstanceID id = true) chain /\ length chain = length parts.
Proof.
  revert chain; induction parts as [|part parts IH]; intros chain; cbn [parse_entries]; [by intros [= <-]|].
  intros He. go_inv. match goal with E : parse_entries parts = _ |- _ => apply IH in E as [Hv Hl] end.
  split; [constructor; [by apply negb_false_iff|done] | simpl; lia].
Qed.

Lemma parse_chain_valid raw chain : ParseChain raw = Ok chain -> valid_chain chain.
Proof.
  unfold ParseChain, valid_chain. intros He. go_inv; [by split; [constructor|]|].
  apply parse_entries_valid in He as [Hv Hl]. split; [done|]. unfold len in *. lia.
Qed.

Lemma parse_entries_ids c : Forall (fun id => ValidInstanceID id = true) c -> parse_entries c = Ok c.
Proof.
  induction 1 as [|id c Hid Hc IH]; [done|]. cbn [parse_entries].
  destruct (instance_id_graphic id Hid) as (Hg & _ & Hne). rewrite trim_space_graphic by done.
  apply str_eqb_neq in Hne. by rewrite Hne, Hid, IH.
Qed.

Lemma Forall_join_graphic c : Forall (fun id => ValidInstanceID id = true) c -> Forall graphic (chain_String c).
Proof.
  intros Hc. apply Forall_strings_join; [by vm_compute|]. eapply Forall_impl; [exact Hc|].
  intros id Hid. by apply instance_id_graphic.
Qed.

(** The chain a sender puts in the header is the chain its receiver reads. *)
Lemma chain_roundtrip c : valid_chain c -> ParseChain (chain_String c) = Ok c.
Proof.
  intros [Hc Hl]. unfold ParseChain. rewrite trim_space_graphic by by apply Forall_join_graphic.
  destruct c as [|id c]; [done|].
  destruct (str_eqb (chain_String (id :: c)) []) eqn:E.
  { apply str_eqb_eq in E. apply Forall_cons in Hc as [Hid _]. apply instance_id_graphic in Hid as (_ & _ & Hne).
    destruct id as [|a id]; [done|]. unfold chain_String in E. destruct c; simpl in E; discriminate. }
  unfold chain_String. rewrite split_join; [|done|].
  - destruct (Z.gtb_spec (len (id :: c)) MaxChainEntries); [lia|]. by apply parse_entries_ids.
  - eapply Forall_impl; [exact Hc|]. intros i Hi. by apply instance_id_graphic.
Qed.

Lemma chain_contains_elem c id : chain_Contains c id = true <-> id ∈ c.
Proof.
  unfold chain_Contains. rewrite existsb_exists. setoid_rewrite str_eqb_eq. split.
  - intros (x & Hx & ->). by apply list_elem_of_In.
  - intros Hx. exists id. split; [by apply list_elem_of_In|done].
Qed.

(** A budget loses its fraction of a second on the way, and nothing else. *)
Lemma ttl_roundtrip ttl :
  0 < ttl < 2 ^ 63 -> ParseTTLHeader (FormatTTLHeader ttl) = Ok (ttl / Second * Second, true).
Proof.
  intros Ht. unfold FormatTTLHeader. destruct (Z.leb_spec ttl 0); [lia|].
  rewrite Z.quot_div_nonneg by (unfold Second; lia). assert (0 <= ttl / Second < 2 ^ 63) as Hq.
  { unfold Second. split; [apply Z.div_pos; lia|]. apply Z.div_lt_upper_bound; lia. }
  unfold format_int. destruct (Z.ltb_spec (ttl / Second) 0); [lia|].
  destruct (format_uint_spec (ttl / Second) (proj1 Hq)) as [[Hd Hn] _].
  unfold ParseTTLHeader. rewrite trim_space_graphic.
  2: { eapply Forall_impl; [exact Hd|]. unfold digit, graphic. lia. }
  destruct (str_eqb (format_uint (ttl / Second)) []) eqn:E.
  { apply str_eqb_eq in E. by apply canonical_decimal_nonempty in E. }
  rewrite parse_int_format by done. destruct (Z.ltb_spec (ttl / Second) 0); [lia|].
  assert (ttl / Second * Second <= ttl) by (rewrite Z.mul_comm; apply Z.mul_div_le; unfold Second; lia).
  unfold wrap64. rewrite Z.mod_small; [f_equal; f_equal; lia|]. unfold Second in *. lia.
Qed.
