(* ===== verification/Upstream.v ===== *)
(** * Upstreams (internal/upstream: pool.go, health.go, selector.go,
    passive_recovery_selector.go, egress_selector.go, peer_egress.go)

    The health of an upstream, its recovery and the latch of a protocol failure, the
    pool built from stored records, and the selectors.  Every method of [Upstream] runs
    under its mutex and is one function on the object; the objects live in a store, so
    a pool that keeps an object keeps its health.  An instant is a number of
    nanoseconds since the zero [time.Time]. *)

From stdpp Require Import gmap.
From Stdlib Require Import SpecFloat.
From S2P Require Export Cascade NetGuard.

(** ** Health *)

Record healthState := {
  hl_healthy : bool;
  hl_criticalFailureLatched : bool;
  hl_avgLatency : Z;
  hl_successRate : spec_float;
  hl_totalReqs : Z;
  hl_successReqs : Z;
  hl_lastCheckedAt : Z;
}.

Record ProbeResult := { pr_Healthy : bool; pr_Latency : Z; pr_CheckedAt : Z }.

Definition IsZero (t : Z) : bool := t =? 0.

Definition success_rate (successes total : Z) : spec_float := f64_div (f64_of_Z successes) (f64_of_Z total).

(** The moving average of int64 durations. *)
Definition moving_average (average latency : Z) : Z :=
  if average =? 0 then latency else Z.quot (wrap64 (wrap64 (average * 7) + wrap64 (latency * 3))) 10.

(** [healthState.applyProbe] *)
Definition health_applyProbe (h : healthState) (r : ProbeResult) : healthState :=
  if negb (IsZero (pr_CheckedAt r)) && negb (IsZero (hl_lastCheckedAt h)) && (pr_CheckedAt r <? hl_lastCheckedAt h) then h else
  let total := wrap64 (hl_totalReqs h + 1) in
  let successes := if pr_Healthy r then wrap64 (hl_successReqs h + 1) else hl_successReqs h in
  {| hl_healthy := pr_Healthy r && negb (hl_criticalFailureLatched h);
     hl_criticalFailureLatched := hl_criticalFailureLatched h;
     hl_avgLatency := if pr_Latency r >? 0 then moving_average (hl_avgLatency h) (pr_Latency r) else hl_avgLatency h;
     hl_successRate := success_rate successes total;
     hl_totalReqs := total;
     hl_successReqs := successes;
     hl_lastCheckedAt := pr_CheckedAt r |}.

(** The float64 nearest to 0.3. *)
Definition health_threshold : spec_float := S754_finite false 5404319552844595 (-54).

Definition rate_is_healthy (rate : spec_float) : bool := SFltb health_threshold rate.

Definition health_report (h : healthState) (latency : Z) (success : bool) : healthState :=
  let total := wrap64 (hl_totalReqs h + 1) in
  let successes := if success then wrap64 (hl_successReqs h + 1) else hl_successReqs h in
  let rate := success_rate successes total in
  {| hl_healthy := negb (hl_criticalFailureLatched h) && rate_is_healthy rate;
     hl_criticalFailureLatched := hl_criticalFailureLatched h;
     hl_avgLatency := moving_average (hl_avgLatency h) latency;
     hl_successRate := rate;
     hl_totalReqs := total;
     hl_successReqs := successes;
     hl_lastCheckedAt := hl_lastCheckedAt h |}.

(** ** Clients *)

Section tables.
Context `{UnicodeTables}.

Record PeerEgress := {
  pe_Name : gostring;
  pe_URL : option URL;
  pe_Token : gostring;
  pe_LocalInstanceID : gostring;
  pe_MaxHops : Z;
  pe_ForwardCredentials : bool;
}.

Definition PeerSet := gmap gostring PeerEgress.

Record peerTransport := { pt_relay : URL; pt_peer : PeerEgress; pt_source : URL }.

(** How the client of an upstream leaves the process: through a proxy or the guarded
    dialer of an origin, and possibly as relay calls to a peer. *)
Record http_client := { cl_proxy : option URL; cl_guard : option URL; cl_peer : option peerTransport }.

Definition buildClient (proxy origin : gostring) : result http_client :=
  match Parse origin with
  | Err _ => fail "parse origin URL %s: invalid URL"
  | Ok originURL =>
    if negb (validOriginURL origin) then fail "parse origin URL %s: invalid URL" else
    if str_eqb proxy [] then Ok {| cl_proxy := None; cl_guard := Some originURL; cl_peer := None |} else
    match Parse proxy with
    | Err _ => fail "parse proxy URL %s: invalid URL"
    | Ok proxyURL =>
      if negb (validHTTPURL proxy) then fail "parse proxy URL %s: invalid URL"
      else Ok {| cl_proxy := Some proxyURL; cl_guard := None; cl_peer := None |}
    end
  end.

Definition has_http_target (u : option URL) : bool :=
  match u with Some u => negb (str_eqb (u_Host u) []) && is_http_scheme (u_Scheme u) | None => false end.

Definition newPeerTransport (peer : PeerEgress) (source : gostring) : result peerTransport :=
  match pe_URL peer with
  | None => fail "cascade peer %q has an invalid URL"
  | Some peerURL =>
    if negb (has_http_target (pe_URL peer)) then fail "cascade peer %q has an invalid URL" else
    if str_eqb (pe_Token peer) [] then fail "cascade peer %q has no token" else
    if negb (ValidInstanceID (pe_LocalInstanceID peer)) then fail "cascade peer %q requires a valid local instance ID" else
    let maxHops := if pe_MaxHops peer <=? 0 then DefaultMaxHops else pe_MaxHops peer in
    if maxHops >? MaxChainEntries then fail "cascade peer %q max hops exceeds %d" else
    match Parse (trim_space source) with
    | Err _ => fail "cascade peer %q requires a valid upstream source URL"
    | Ok sourceURL =>
      if negb (has_http_target (Some sourceURL)) then fail "cascade peer %q requires a valid upstream source URL" else
      Ok {| pt_relay := {| u_Scheme := u_Scheme peerURL; u_Opaque := u_Opaque peerURL; u_User := u_User peerURL;
                           u_Host := u_Host peerURL; u_Path := trim_right_slashes (u_Path peerURL) ++ RelayPath;
                           u_RawPath := []; u_OmitHost := u_OmitHost peerURL; u_ForceQuery := false; u_RawQuery := [];
                           u_Fragment := []; u_RawFragment := u_RawFragment peerURL |};
            pt_peer := {| pe_Name := pe_Name peer; pe_URL := pe_URL peer; pe_Token := pe_Token peer;
                          pe_LocalInstanceID := pe_LocalInstanceID peer; pe_MaxHops := maxHops;
                          pe_ForwardCredentials := pe_ForwardCredentials peer |};
            pt_source := sourceURL |}
    end
  end.

(** [buildPeerClient]; [peerText] is [peer.URL.String()]. *)
Definition buildPeerClient (proxy : gostring) (peer : PeerEgress) (peerText source : gostring) : result http_client :=
  client ← buildClient proxy peerText;
  transport ← newPeerTransport peer source;
  Ok {| cl_proxy := cl_proxy client; cl_guard := cl_guard client; cl_peer := Some transport |}.

(** ** Upstreams and their pool *)

Record UpstreamRecord := {
  ur_ID : Z;
  ur_AdapterType : gostring;
  ur_Name : gostring;
  ur_URL : gostring;
  ur_Proxy : gostring;
  ur_Priority : Z;
  ur_ProbeMode : gostring;
  ur_ProbeInterval : gostring;
  ur_Healthy : bool;
  ur_AvgLatencyMs : Z;
  ur_SuccessRate : spec_float;
  ur_LastCheckedAt : Z;
  ur_Via : gostring;
}.

Record passiveRecoveryState := { rc_reserved : bool; rc_inFlight : bool; rc_nextAttempt : Z }.

Record Upstream := {
  up_ID : Z;
  up_AdapterType : gostring;
  up_Name : gostring;
  up_URL : gostring;
  up_Proxy : gostring;
  up_Priority : Z;
  up_ProbeMode : gostring;
  up_ProbeInterval : Z;
  up_Via : gostring;
  up_client : http_client;
  up_directNetworkGuard : bool;
  up_health : healthState;
  up_recovery : passiveRecoveryState;
}.

Definition with_health (u : Upstream) (h : healthState) : Upstream :=
  {| up_ID := up_ID u; up_AdapterType := up_AdapterType u; up_Name := up_Name u; up_URL := up_URL u; up_Proxy := up_Proxy u;
     up_Priority := up_Priority u; up_ProbeMode := up_ProbeMode u; up_ProbeInterval := up_ProbeInterval u; up_Via := up_Via u;
     up_client := up_client u; up_directNetworkGuard := up_directNetworkGuard u; up_health := h; up_recovery := up_recovery u |}.

Definition with_recovery (u : Upstream) (r : passiveRecoveryState) : Upstream :=
  {| up_ID := up_ID u; up_AdapterType := up_AdapterType u; up_Name := up_Name u; up_URL := up_URL u; up_Proxy := up_Proxy u;
     up_Priority := up_Priority u; up_ProbeMode := up_ProbeMode u; up_ProbeInterval := up_ProbeInterval u; up_Via := up_Via u;
     up_client := up_client u; up_directNetworkGuard := up_directNetworkGuard u; up_health := up_health u; up_recovery := r |}.

Definition DefaultProbeInterval : gostring := bs "30m0s".

Definition normalizeRecordProbe (record : UpstreamRecord) : result (gostring * Z) :=
  let mode := if str_eqb (ur_ProbeMode record) [] then bs "active" else ur_ProbeMode record in
  if negb (str_eqb mode (bs "active")) && negb (str_eqb mode (bs "passive")) then fail "invalid probe mode %q" else
  let intervalText := if str_eqb (ur_ProbeInterval record) [] then DefaultProbeInterval else ur_ProbeInterval record in
  match time_ParseDuration intervalText with
  | Ok interval => if interval <=? 0 then fail "invalid probe interval %q" else Ok (mode, interval)
  | Err _ => fail "invalid probe interval %q"
  end.

Definition Millisecond : Z := 1000000.

(** [newUpstreamFromRecord]; [peers] is nil without a cascade.  A client that is still nil,
    also because the peer's could not be built, is built for direct egress. *)
Definition newUpstreamFromRecord (peerText : PeerEgress -> gostring) (peers : option PeerSet) (record : UpstreamRecord) : result Upstream :=
  '(mode, interval) ← normalizeRecordProbe record;
  let peer := if str_eqb (ur_Via record) [] then None else peers ≫= fun set => set !! ur_Via record in
  let direct := buildClient (ur_Proxy record) (ur_URL record) in
  client ← wrap "build client for %s: %w" (match peer with
            | Some p => match buildPeerClient (ur_Proxy record) p (peerText p) (ur_URL record) with
                        | Ok client => Ok client
                        | Err _ => direct
                        end
            | None => direct
            end);
  Ok {| up_ID := ur_ID record; up_AdapterType := ur_AdapterType record; up_Name := ur_Name record; up_URL := ur_URL record;
        up_Proxy := ur_Proxy record; up_Priority := ur_Priority record; up_ProbeMode := mode; up_ProbeInterval := interval;
        up_Via := ur_Via record; up_client := client; up_directNetworkGuard := str_eqb (ur_Proxy record) [];
        up_health := {| hl_healthy := ur_Healthy record; hl_criticalFailureLatched := false;
                        hl_avgLatency := wrap64 (ur_AvgLatencyMs record * Millisecond); hl_successRate := ur_SuccessRate record;
                        hl_totalReqs := 0; hl_successReqs := 0; hl_lastCheckedAt := ur_LastCheckedAt record |};
        up_recovery := {| rc_reserved := false; rc_inFlight := false; rc_nextAttempt := 0 |} |}.

Definition sameConfig (u : Upstream) (record : UpstreamRecord) : bool :=
  match normalizeRecordProbe record with
  | Err _ => false
  | Ok (mode, interval) =>
    (up_ID u =? ur_ID record) && str_eqb (up_AdapterType u) (ur_AdapterType record) && str_eqb (up_Name u) (ur_Name record)
    && str_eqb (up_URL u) (ur_URL record) && str_eqb (up_Proxy u) (ur_Proxy record) && (up_Priority u =? ur_Priority record)
    && str_eqb (up_ProbeMode u) mode && (up_ProbeInterval u =? interval) && str_eqb (up_Via u) (ur_Via record)
  end.

(** The objects behind the pointers of the program, and what a pool publishes. *)
Record upstream_store := { us_objects : gmap nat Upstream; us_next : nat }.

Record poolSnapshot := { ps_upstreams : list nat; ps_byID : gmap Z nat }.

Definition allocate (store : upstream_store) (u : Upstream) : upstream_store * nat :=
  ({| us_objects := <[us_next store := u]> (us_objects store); us_next := S (us_next store) |}, us_next store).

(** The object of the previous snapshot with the identity and the configuration of the record. *)
Definition kept_upstream (store : upstream_store) (previous : option poolSnapshot) (record : UpstreamRecord) : option nat :=
  previous ≫= fun snapshot => ps_byID snapshot !! ur_ID record ≫= fun pointer =>
  us_objects store !! pointer ≫= fun existing => if sameConfig existing record then Some pointer else None.

Fixpoint build_pool (peerText : PeerEgress -> gostring) (peers : option PeerSet) (previous : option poolSnapshot)
    (store : upstream_store) (next : poolSnapshot) (records : list UpstreamRecord) : result (upstream_store * poolSnapshot) :=
  match records with
  | [] => Ok (store, next)
  | record :: records =>
    match kept_upstream store previous record with
    | Some pointer =>
      build_pool peerText peers previous store
        {| ps_upstreams := ps_upstreams next ++ [pointer]; ps_byID := <[ur_ID record := pointer]> (ps_byID next) |} records
    | None =>
      u ← newUpstreamFromRecord peerText peers record;
      let '(store, pointer) := allocate store u in
      build_pool peerText peers previous store
        {| ps_upstreams := ps_upstreams next ++ [pointer]; ps_byID := <[up_ID u := pointer]> (ps_byID next) |} records
    end
  end.

Definition buildPoolSnapshotWithOptions (peerText : PeerEgress -> gostring) (peers : option PeerSet)
    (store : upstream_store) (records : list UpstreamRecord) (previous : option poolSnapshot)
    : result (upstream_store * poolSnapshot) :=
  build_pool peerText peers previous store {| ps_upstreams := []; ps_byID := ∅ |} records.

End tables.

(** ** The methods of an upstream *)

Definition Report (u : Upstream) (latency : Z) (success : bool) : Upstream :=
  with_health u (health_report (up_health u) latency success).

Definition ReportCriticalFailure (u : Upstream) (latency : Z) : Upstream :=
  let h := up_health u in
  with_health u (health_report {| hl_healthy := hl_healthy h; hl_criticalFailureLatched := true; hl_avgLatency := hl_avgLatency h;
                                  hl_successRate := hl_successRate h; hl_totalReqs := hl_totalReqs h;
                                  hl_successReqs := hl_successReqs h; hl_lastCheckedAt := hl_lastCheckedAt h |} latency false).

Definition applyProbe (u : Upstream) (r : ProbeResult) : Upstream := with_health u (health_applyProbe (up_health u) r).

Definition errCriticalFailureLatched : error := Sentinel "upstream disabled after critical protocol failure".

(** [admitExchange]: whether the exchange that starts is a recovery. *)
Definition admitExchange (u : Upstream) : Upstream * result bool :=
  if hl_criticalFailureLatched (up_health u) then (u, Err errCriticalFailureLatched) else
  let r := up_recovery u in
  if rc_reserved r
  then (with_recovery u {| rc_reserved := false; rc_inFlight := true; rc_nextAttempt := rc_nextAttempt r |}, Ok true)
  else (u, Ok false).

Definition finishPassiveRecovery (u : Upstream) : Upstream :=
  let r := up_recovery u in
  with_recovery u {| rc_reserved := rc_reserved r; rc_inFlight := false; rc_nextAttempt := rc_nextAttempt r |}.

(** [finishExchange] and the [finish] of [observeResponseBody]: two critical sections. *)
Definition finishExchange (u : Upstream) (latency : Z) (reportHealth recovery success : bool) : Upstream :=
  let u := if reportHealth then Report u latency success else u in
  if recovery then finishPassiveRecovery u else u.

Definition IsHealthy (u : Upstream) : bool := hl_healthy (up_health u).

Definition hasCriticalFailure (u : Upstream) : bool := hl_criticalFailureLatched (up_health u).

Record HealthSnapshot := {
  hn_Healthy : bool;
  hn_AvgLatency : Z;
  hn_SuccessRate : spec_float;
  hn_LastCheckedAt : Z;
  hn_HasObservations : bool;
  hn_RuntimeSampleCount : Z;
}.

Definition health_snapshot (u : Upstream) : HealthSnapshot :=
  let h := up_health u in
  {| hn_Healthy := hl_healthy h; hn_AvgLatency := hl_avgLatency h; hn_SuccessRate := hl_successRate h;
     hn_LastCheckedAt := hl_lastCheckedAt h;
     hn_HasObservations := (hl_totalReqs h >? 0) || negb (IsZero (hl_lastCheckedAt h));
     hn_RuntimeSampleCount := hl_totalReqs h |}.

Definition reservePassiveRecovery (u : Upstream) (now cooldown : Z) : Upstream * bool :=
  let r := up_recovery u in
  if negb (str_eqb (up_ProbeMode u) (bs "passive")) || hl_healthy (up_health u)
     || hl_criticalFailureLatched (up_health u) || rc_inFlight r then (u, false)
  else if now <? rc_nextAttempt r then (u, false)
  else (with_recovery u {| rc_reserved := true; rc_inFlight := rc_inFlight r; rc_nextAttempt := now + cooldown |}, true).

(** [RestoreFromDB] for one upstream: the latencies and the first healthy flag and time
    of at most ten logged probes. *)
Definition restore_upstream (u : Upstream) (logs : list (Z * bool * Z)) : Upstream :=
  match logs with
  | [] => u
  | (_, healthy, createdAt) :: _ =>
    let avgMs := Z.quot (fold_left (fun total log => wrap64 (total + log.1.1)) logs 0) (len logs) in
    let h := up_health u in
    with_health u {| hl_healthy := healthy; hl_criticalFailureLatched := hl_criticalFailureLatched h;
                     hl_avgLatency := wrap64 (avgMs * Millisecond); hl_successRate := hl_successRate h;
                     hl_totalReqs := hl_totalReqs h; hl_successReqs := hl_successReqs h; hl_lastCheckedAt := createdAt |}
  end.

(** ** Selectors *)

(** [orderedUpstreams]: the pool by priority, equal priorities in pool order. *)
Fixpoint insert_ordered (entry : nat * Upstream) (l : list (nat * Upstream)) : list (nat * Upstream) :=
  match l with
  | [] => [entry]
  | other :: l' => if up_Priority other.2 <? up_Priority entry.2 then other :: insert_ordered entry l' else entry :: l
  end.

(** The published objects in pool order. *)
Definition pool_upstreams (store : upstream_store) (snapshot : option poolSnapshot) : list (nat * Upstream) :=
  match snapshot with
  | None => []
  | Some s => omap (fun pointer => (fun u => (pointer, u)) <$> us_objects store !! pointer) (ps_upstreams s)
  end.

Definition orderedUpstreams (store : upstream_store) (snapshot : option poolSnapshot) : list (nat * Upstream) :=
  foldr insert_ordered [] (pool_upstreams store snapshot).

Definition no_candidate (excluded : option nat) : error :=
  match excluded with Some _ => Errorf "no healthy alternate upstream" [] | None => Errorf "all upstreams are unhealthy" [] end.

Definition is_excluded (excluded : option nat) (pointer : nat) : bool := bool_decide (excluded = Some pointer).

(** [PrioritySelector.selectHealthy] *)
Definition selectHealthy (store : upstream_store) (snapshot : option poolSnapshot) (excluded : option nat) : result nat :=
  match List.find (fun entry => negb (is_excluded excluded entry.1) && IsHealthy entry.2) (orderedUpstreams store snapshot) with
  | Some (pointer, _) => Ok pointer
  | None => Err (no_candidate excluded)
  end.

(** The second loop of [PassiveRecoverySelector.selectCandidate]. *)
Fixpoint reserve_first (store : upstream_store) (excluded : option nat) (now cooldown : Z) (l : list (nat * Upstream))
    : upstream_store * result nat :=
  match l with
  | [] => (store, Err (no_candidate excluded))
  | (pointer, u) :: l =>
    if is_excluded excluded pointer then reserve_first store excluded now cooldown l else
    match reservePassiveRecovery u now cooldown with
    | (u, true) => ({| us_objects := <[pointer := u]> (us_objects store); us_next := us_next store |}, Ok pointer)
    | (_, false) => reserve_first store excluded now cooldown l
    end
  end.

Definition selectCandidate (store : upstream_store) (snapshot : option poolSnapshot) (excluded : option nat) (now cooldown : Z)
    : upstream_store * result nat :=
  match selectHealthy store snapshot excluded with
  | Ok pointer => (store, Ok pointer)
  | Err _ => reserve_first store excluded now cooldown (orderedUpstreams store snapshot)
  end.

(** [EgressSelector.Select] *)
Fixpoint select_egress (selected : option (nat * Upstream)) (l : list (nat * Upstream)) : option (nat * Upstream) :=
  match l with
  | [] => selected
  | candidate :: l =>
    if hasCriticalFailure candidate.2 then select_egress selected l else
    match selected with
    | Some s => select_egress (if up_Priority candidate.2 <? up_Priority s.2 then Some candidate else selected) l
    | None => select_egress (Some candidate) l
    end
  end.

Definition EgressSelect (store : upstream_store) (snapshot : option poolSnapshot) : result nat :=
  match select_egress None (pool_upstreams store snapshot) with
  | Some (pointer, _) => Ok pointer
  | None => fail "no egress-capable upstream"
  end.
