(* ===== verification/UpstreamTheory.v ===== *)
(** * Theory of upstreams (Upstream.v)

    The latch of a protocol failure, recovery exchanges under any interleaving, what the
    selectors choose, what a rebuilt pool keeps, and what the health counters count. *)

From stdpp Require Import gmap.
From Stdlib Require Import SpecFloat.
From S2P Require Export Upstream.

(** ** The latch *)

(** The critical sections on one upstream. *)
Inductive upstream_op :=
  | op_report (latency : Z) (success : bool)
  | op_critical (latency : Z)
  | op_probe (r : ProbeResult)
  | op_admit
  | op_finish_recovery
  | op_reserve (now cooldown : Z).

Definition run_op (u : Upstream) (op : upstream_op) : Upstream :=
  match op with
  | op_report latency success => Report u latency success
  | op_critical latency => ReportCriticalFailure u latency
  | op_probe r => applyProbe u r
  | op_admit => (admitExchange u).1
  | op_finish_recovery => finishPassiveRecovery u
  | op_reserve now cooldown => (reservePassiveRecovery u now cooldown).1
  end.

Definition run_ops (u : Upstream) (ops : list upstream_op) : Upstream := fold_left run_op ops u.

Definition latched (u : Upstream) : Prop :=
  hl_criticalFailureLatched (up_health u) = true /\ hl_healthy (up_health u) = false.

(** The configuration of an upstream, which no operation changes. *)
Definition configuration (u : Upstream) :=
  (up_ID u, up_AdapterType u, up_Name u, up_URL u, up_Proxy u, up_Priority u, up_ProbeMode u, up_ProbeInterval u, up_Via u).

Lemma run_op_configuration u op : configuration (run_op u op) = configuration u.
Proof.
  destruct op; try done; simpl; unfold admitExchange, reservePassiveRecovery; repeat case_match; done.
Qed.

Lemma run_ops_configuration u ops : configuration (run_ops u ops) = configuration u.
Proof.
  revert u; induction ops as [|op ops IH]; intros u; [done|]. simpl. by rewrite IH, run_op_configuration.
Qed.

Lemma critical_latched u latency : latched (ReportCriticalFailure u latency).
Proof. done. Qed.

Lemma run_op_latched u op : latched u -> latched (run_op u op).
Proof.
  intros [Hl Hh]. destruct op as [latency success|latency|r| | |now cooldown]; simpl.
  - split; simpl; [done|]. by rewrite Hl.
  - done.
  - unfold applyProbe, health_applyProbe, latched. destruct (_ && _); simpl; [done|]. rewrite Hl. split; [done|].
    by rewrite andb_false_r.
  - unfold admitExchange. by rewrite Hl.
  - done.
  - unfold reservePassiveRecovery. rewrite Hl, !orb_true_r. done.
Qed.

Lemma run_ops_latched u ops : latched u -> latched (run_ops u ops).
Proof. revert u; induction ops as [|op ops IH]; intros u Hu; [done|]. apply IH. by apply run_op_latched. Qed.

Lemma pool_upstreams_elem store snapshot pointer u :
  (pointer, u) ∈ pool_upstreams store snapshot -> us_objects store !! pointer = Some u.
Proof.
  destruct snapshot as [s|]; simpl; [|by intros ?%elem_of_nil]. intros Hin.
  apply list_elem_of_omap in Hin as (p & _ & Hp). apply fmap_Some in Hp as (v & Hv & [= -> ->]). done.
Qed.

Lemma insert_ordered_perm entry l : Permutation (insert_ordered entry l) (entry :: l).
Proof.
  induction l as [|other l IH]; simpl; [done|]. destruct (_ <? _); [|done].
  rewrite IH. constructor.
Qed.

Lemma ordered_perm store snapshot : Permutation (orderedUpstreams store snapshot) (pool_upstreams store snapshot).
Proof.
  unfold orderedUpstreams. induction (pool_upstreams store snapshot) as [|e l IH]; simpl; [done|].
  by rewrite insert_ordered_perm, IH.
Qed.

Lemma ordered_elem store snapshot pointer u :
  (pointer, u) ∈ orderedUpstreams store snapshot -> us_objects store !! pointer = Some u.
Proof. rewrite ordered_perm. apply pool_upstreams_elem. Qed.

Lemma selectHealthy_healthy store snapshot excluded pointer :
  selectHealthy store snapshot excluded = Ok pointer ->
  excluded <> Some pointer /\ exists u, us_objects store !! pointer = Some u /\ IsHealthy u = true.
Proof.
  unfold selectHealthy. destruct (List.find _ _) as [[p u]|] eqn:Hf; [|done]. intros [= <-].
  apply find_some in Hf as [Hi HP]. apply andb_true_iff in HP as [Hx Hh].
  apply negb_true_iff, bool_decide_eq_false in Hx. split; [done|].
  exists u. split; [|done]. eapply ordered_elem, list_elem_of_In, Hi.
Qed.

Lemma reserve_first_reserved store excluded now cooldown l store' pointer :
  reserve_first store excluded now cooldown l = (store', Ok pointer) ->
  exists before u after, l = before ++ (pointer, u) :: after
    /\ excluded <> Some pointer /\ (reservePassiveRecovery u now cooldown).2 = true
    /\ Forall (fun e => excluded = Some e.1 \/ (reservePassiveRecovery e.2 now cooldown).2 = false) before
    /\ us_objects store' = <[pointer := (reservePassiveRecovery u now cooldown).1]> (us_objects store).
Proof.
  induction l as [|[p u] l IH]; simpl; [done|]. unfold is_excluded. case_bool_decide as Hx.
  - intros Hr. destruct (IH Hr) as (before & v & after & -> & ? & ? & ? & ?).
    exists ((p, u) :: before), v, after. split_and!; try done. constructor; [by left | done].
  - destruct (reservePassiveRecovery u now cooldown) as [u' [|]] eqn:Hres.
    + intros [= <- <-]. exists [], u, l. simpl. rewrite Hres. split_and!; try done.
    + intros Hr. destruct (IH Hr) as (before & v & after & -> & ? & ? & ? & ?).
      exists ((p, u) :: before), v, after. split_and!; try done. constructor; [right; simpl; by rewrite Hres | done].
Qed.

Lemma select_egress_usable selected l pointer u :
  (forall p v, selected = Some (p, v) -> hasCriticalFailure v = false) ->
  select_egress selected l = Some (pointer, u) -> hasCriticalFailure u = false /\ (selected = Some (pointer, u) \/ (pointer, u) ∈ l).
Proof.
  revert selected; induction l as [|[p v] l IH]; intros selected Hs; simpl; [intros ->; eauto|].
  destruct (hasCriticalFailure v) eqn:Hv.
  - intros Hr. destruct (IH _ Hs Hr) as [? [?|?]]; eauto using list_elem_of_further.
  - assert (forall q w, Some (p, v) = Some (q, w) -> hasCriticalFailure w = false) as Hnew by (by intros ? ? [= <- <-]).
    destruct selected as [[q w]|]; [destruct (_ <? _)|]; intros Hr.
    + destruct (IH _ Hnew Hr) as [? [[= <- <-]|?]]; split; try done; right; [left | by right].
    + destruct (IH _ Hs Hr) as [? [?|?]]; split; try done; [by left | by right; right].
    + destruct (IH _ Hnew Hr) as [? [[= <- <-]|?]]; split; try done; right; [left | by right].
Qed.

(** A protocol-integrity failure is final for the object.  After
    [ReportCriticalFailure], whatever requests, probes, reservations and further
    failures reach the upstream, in whatever order: it stays unhealthy, no exchange is
    admitted - not even by a caller that selected it before - it gets no recovery, and
    no selector returns it.  Its configuration stays the same, so a pool rebuilt from
    unchanged records keeps the latched object. *)
Theorem critical_failure_latches `{UnicodeTables} u latency ops :
  let u' := run_ops (ReportCriticalFailure u latency) ops in
  IsHealthy u' = false /\ hasCriticalFailure u' = true
  /\ admitExchange u' = (u', Err errCriticalFailureLatched)
  /\ (forall now cooldown, (reservePassiveRecovery u' now cooldown).2 = false)
  /\ (forall record, sameConfig u' record = sameConfig u record)
  /\ (forall store snapshot excluded now cooldown pointer, us_objects store !! pointer = Some u' ->
        selectHealthy store snapshot excluded <> Ok pointer
        /\ (selectCandidate store snapshot excluded now cooldown).2 <> Ok pointer
        /\ EgressSelect store snapshot <> Ok pointer).
Proof.
  intros u'. pose proof (run_ops_latched _ ops (critical_latched u latency)) as [Hl Hh]. fold u' in Hl, Hh.
  assert (forall now cooldown, (reservePassiveRecovery u' now cooldown).2 = false) as Hres.
  { intros now cooldown. unfold reservePassiveRecovery. by rewrite Hl, !orb_true_r. }
  assert (forall store snapshot excluded pointer, us_objects store !! pointer = Some u' ->
            selectHealthy store snapshot excluded <> Ok pointer) as Hsel.
  { intros store snapshot excluded pointer Hu (_ & v & Hv & Hhealthy)%selectHealthy_healthy.
    rewrite Hu in Hv. injection Hv as <-. unfold IsHealthy in Hhealthy. congruence. }
  split_and!; try done.
  - unfold admitExchange. by rewrite Hl.
  - intros record. assert (configuration u' = configuration u) as Hc by (unfold u'; by rewrite run_ops_configuration).
    injection Hc as E1 E2 E3 E4 E5 E6 E7 E8 E9. unfold sameConfig. by rewrite E1, E2, E3, E4, E5, E6, E7, E8, E9.
  - intros store snapshot excluded now cooldown pointer Hu. split_and!; [by apply Hsel| |].
    + unfold selectCandidate. destruct (selectHealthy store snapshot excluded) as [p|] eqn:Hs.
      * simpl. intros [= ->]. by apply (Hsel _ _ _ _ Hu) in Hs.
      * destruct (reserve_first _ _ _ _ _) as [store' r] eqn:Hr. simpl. intros ->.
        apply reserve_first_reserved in Hr as (before & v & after & Hord & _ & Hv & _).
        assert (us_objects store !! pointer = Some v) as Hp.
        { eapply ordered_elem. rewrite Hord. apply elem_of_app. right. left. }
        rewrite Hu in Hp. injection Hp as <-. congruence.
    + unfold EgressSelect. destruct (select_egress None _) as [[p v]|] eqn:He; [|done]. intros [= ->].
      destruct (select_egress_usable None _ _ _ ltac:(done) He) as [Hv [?|Hin]]; [done|].
      apply pool_upstreams_elem in Hin. rewrite Hu in Hin. injection Hin as <-. unfold hasCriticalFailure in Hv. congruence.
Qed.

(** ** Recovery exchanges *)

(** One upstream with its exchanges in flight (whether each is a recovery), the times at
    which a recovery was reserved, last first, and the clock. *)
Record recovery_system := {
  rs_upstream : Upstream;
  rs_flights : list bool;
  rs_reservations : list Z;
  rs_clock : Z;
}.

Inductive recovery_step (cooldown : Z) : recovery_system -> recovery_system -> Prop :=
  | step_reserve u flights times clock u' :
      reservePassiveRecovery u clock cooldown = (u', true) ->
      recovery_step cooldown (Build_recovery_system u flights times clock) (Build_recovery_system u' flights (clock :: times) clock)
  | step_admit u flights times clock u' recovery :
      admitExchange u = (u', Ok recovery) ->
      recovery_step cooldown (Build_recovery_system u flights times clock) (Build_recovery_system u' (recovery :: flights) times clock)
  | step_finish u flights times clock i recovery latency report success :
      flights !! i = Some recovery ->
      recovery_step cooldown (Build_recovery_system u flights times clock)
        (Build_recovery_system (finishExchange u latency report recovery success) (delete i flights) times clock)
  | step_observe u flights times clock op :
      (match op with op_report _ _ | op_critical _ | op_probe _ => True | _ => False end) ->
      recovery_step cooldown (Build_recovery_system u flights times clock) (Build_recovery_system (run_op u op) flights times clock)
  | step_clock u flights times clock clock' :
      clock <= clock' ->
      recovery_step cooldown (Build_recovery_system u flights times clock) (Build_recovery_system u flights times clock').

Inductive recovery_reachable (cooldown : Z) : recovery_system -> Prop :=
  | recovery_start u clock :
      up_recovery u = {| rc_reserved := false; rc_inFlight := false; rc_nextAttempt := 0 |} -> 0 <= clock ->
      recovery_reachable cooldown (Build_recovery_system u [] [] clock)
  | recovery_next s s' : recovery_reachable cooldown s -> recovery_step cooldown s s' -> recovery_reachable cooldown s'.

(** Consecutive reservations are a cooldown apart. *)
Fixpoint spaced (cooldown : Z) (times : list Z) : Prop :=
  match times with
  | t :: times => (match times with t' :: _ => t' + cooldown <= t | [] => True end) /\ spaced cooldown times
  | [] => True
  end.

Record recovery_inv (cooldown : Z) (s : recovery_system) : Prop := {
  ri_flights : count id (rs_flights s) = b2z (rc_inFlight (up_recovery (rs_upstream s)));
  ri_reserved : rc_reserved (up_recovery (rs_upstream s)) = true -> rc_inFlight (up_recovery (rs_upstream s)) = false;
  ri_next : rc_nextAttempt (up_recovery (rs_upstream s))
            = match rs_reservations s with t :: _ => t + cooldown | [] => 0 end;
  ri_spaced : spaced cooldown (rs_reservations s);
  ri_clock : 0 <= rs_clock s;
}.

Lemma reserve_inv u now cooldown u' :
  reservePassiveRecovery u now cooldown = (u', true) ->
  rc_inFlight (up_recovery u) = false /\ rc_nextAttempt (up_recovery u) <= now
  /\ up_recovery u' = {| rc_reserved := true; rc_inFlight := false; rc_nextAttempt := now + cooldown |}.
Proof.
  unfold reservePassiveRecovery. destruct (_ || rc_inFlight _) eqn:E; [done|].
  apply orb_false_iff in E as [_ E]. destruct (Z.ltb_spec now (rc_nextAttempt (up_recovery u))); [done|].
  intros [= <-]. simpl. rewrite E. done.
Qed.

Lemma observe_recovery u op :
  match op with op_report _ _ | op_critical _ | op_probe _ => True | _ => False end ->
  up_recovery (run_op u op) = up_recovery u.
Proof. by destruct op. Qed.

Lemma count_delete {A} (p : A -> bool) l i x : l !! i = Some x -> count p (delete i l) = count p l - b2z (p x).
Proof.
  revert i; induction l as [|z l IH]; intros [|i]; simpl; try done.
  - intros [= ->]. lia.
  - intros Hi. change (delete (S i) (z :: l)) with (z :: delete i l). simpl. rewrite (IH i Hi). lia.
Qed.

Lemma finish_recovery u latency report recovery success :
  up_recovery (finishExchange u latency report recovery success)
  = if recovery then up_recovery (finishPassiveRecovery u) else up_recovery u.
Proof. by destruct report, recovery. Qed.

Lemma recovery_step_inv cooldown s s' : recovery_inv cooldown s -> recovery_step cooldown s s' -> recovery_inv cooldown s'.
Proof.
  intros [Hf Hr Hn Hs Hc] Hstep. destruct Hstep as [u flights times clock u' Hres|u flights times clock u' recovery Hadm
    |u flights times clock i recovery latency report success Hi|u flights times clock op Hop|u flights times clock clock' Hle];
    cbn [rs_upstream rs_flights rs_reservations rs_clock] in *.
  - apply reserve_inv in Hres as (Hin & Hnext & Hu'). constructor; cbn [rs_upstream rs_flights rs_reservations rs_clock]; rewrite ?Hu'; try done.
    + by rewrite Hf, Hin.
    + split; [|done]. destruct times; [done|]. lia.
  - unfold admitExchange in Hadm. destruct (hl_criticalFailureLatched _); [done|].
    destruct (rc_reserved (up_recovery u)) eqn:Er; injection Hadm as <- <-; constructor;
      cbn [rs_upstream rs_flights rs_reservations rs_clock]; try done.
    + cbn [count id]. rewrite Hf, Hr by done. done.
    + by rewrite Er.
  - constructor; cbn [rs_upstream rs_flights rs_reservations rs_clock]; rewrite ?finish_recovery; try done.
    + rewrite (count_delete _ _ _ _ Hi), Hf. destruct recovery; simpl; [|lia].
      apply list_elem_of_lookup_2 in Hi. pose proof (count_in id flights true Hi eq_refl) as Hpos. rewrite Hf in Hpos.
      by destruct (rc_inFlight _).
    + by destruct recovery.
    + by destruct recovery.
  - constructor; cbn [rs_upstream rs_flights rs_reservations rs_clock]; rewrite ?(observe_recovery u op Hop); done.
  - constructor; cbn [rs_upstream rs_flights rs_reservations rs_clock]; try done. lia.
Qed.

Lemma recovery_reachable_inv cooldown s : recovery_reachable cooldown s -> recovery_inv cooldown s.
Proof.
  induction 1 as [u clock Hu Hc|]; [|by eapply recovery_step_inv].
  constructor; cbn [rs_upstream rs_flights rs_reservations rs_clock]; rewrite ?Hu; done.
Qed.

(** C30: Recovery of an unhealthy upstream is throttled, exclusive and never stuck.  In
    every interleaving of selections, exchanges, probes and reports, at most one recovery
    exchange is in flight and reservations are a cooldown apart; and whenever the
    upstream is passive, unhealthy and not latched, no recovery is in flight and the
    cooldown of the last reservation is over, the next selection may reserve one. *)
Theorem recovery_is_exclusive cooldown s :
  recovery_reachable cooldown s ->
  let u := rs_upstream s in
  count id (rs_flights s) <= 1
  /\ spaced cooldown (rs_reservations s)
  /\ (up_ProbeMode u = bs "passive" -> IsHealthy u = false -> hasCriticalFailure u = false ->
       count id (rs_flights s) = 0 -> (forall t, head (rs_reservations s) = Some t -> t + cooldown <= rs_clock s) ->
       (reservePassiveRecovery u (rs_clock s) cooldown).2 = true).
Proof.
  intros Hs%recovery_reachable_inv. destruct Hs as [Hf Hr Hn Hsp Hc]. cbv zeta. split_and!; [|done|].
  - rewrite Hf. by destruct (rc_inFlight _).
  - intros Hm Hh Hl Hz Hlast. unfold reservePassiveRecovery, IsHealthy, hasCriticalFailure in *. rewrite Hm, Hh, Hl.
    rewrite Hf in Hz. destruct (rc_inFlight _); [done|]. cbn [negb orb]. change (str_eqb (bs "passive") (bs "passive")) with true.
    cbn [negb orb]. destruct (Z.ltb_spec (rs_clock s) (rc_nextAttempt (up_recovery (rs_upstream s)))) as [Hlt|]; [|done].
    rewrite Hn in Hlt. destruct (rs_reservations s) as [|t times]; [lia|]. specialize (Hlast t eq_refl). lia.
Qed.

(** ** What the selectors choose *)

Definition priority (e : nat * Upstream) : Z := up_Priority e.2.

(** The first of the eligible entries with the smallest priority. *)
Fixpoint best (eligible : nat * Upstream -> bool) (l : list (nat * Upstream)) : option (nat * Upstream) :=
  match l with
  | [] => None
  | e :: l =>
    if eligible e then
      match best eligible l with Some o => if priority o <? priority e then Some o else Some e | None => Some e end
    else best eligible l
  end.

Lemma best_spec eligible l :
  match best eligible l with
  | Some e => exists before after, l = before ++ e :: after /\ eligible e = true
      /\ Forall (fun o => eligible o = true -> priority e < priority o) before
      /\ Forall (fun o => eligible o = true -> priority e <= priority o) after
  | None => Forall (fun e => eligible e = false) l
  end.
Proof.
  induction l as [|e l IH]; simpl; [constructor|]. destruct (eligible e) eqn:He.
  - destruct (best eligible l) as [o|].
    + destruct IH as (before & after & -> & Ho & Hb & Ha). destruct (Z.ltb_spec (priority o) (priority e)) as [Hlt|Hge].
      * exists (e :: before), after. split_and!; try done. by constructor.
      * exists [], (before ++ o :: after). split_and!; try done.
        apply Forall_app. split; [|constructor; [done|]]; (eapply Forall_impl; [eassumption|]); simpl; intros x Hx Hex; specialize (Hx Hex); lia.
    + exists [], l. split_and!; try done. eapply Forall_impl; [exact IH|]. simpl. congruence.
  - destruct (best eligible l) as [o|].
    + destruct IH as (before & after & -> & Ho & Hb & Ha). exists (e :: before), after. split_and!; try done.
      constructor; [congruence | done].
    + by constructor.
Qed.

Fixpoint ordered (l : list (nat * Upstream)) : Prop :=
  match l with [] => True | e :: l => Forall (fun o => priority e <= priority o) l /\ ordered l end.

Lemma insert_ordered_forall (P : nat * Upstream -> Prop) e l : P e -> Forall P l -> Forall P (insert_ordered e l).
Proof. intros He Hl. rewrite insert_ordered_perm. by constructor. Qed.

Lemma insert_ordered_ordered e l : ordered l -> ordered (insert_ordered e l).
Proof.
  induction l as [|o l IH]; simpl; [done|]. intros [Ho Hl]. fold (priority o) (priority e).
  destruct (Z.ltb_spec (priority o) (priority e)) as [Hlt|Hge]; simpl.
  - split; [|by apply IH]. apply insert_ordered_forall; [lia | done].
  - split_and!; try done. constructor; [done|]. eapply Forall_impl; [exact Ho|]. simpl. lia.
Qed.

Lemma find_insert_ordered eligible e l :
  ordered l ->
  List.find eligible (insert_ordered e l)
  = if eligible e then match List.find eligible l with Some o => if priority o <? priority e then Some o else Some e | None => Some e end
    else List.find eligible l.
Proof.
  induction l as [|o l IH]; simpl; [by destruct (eligible e)|]. intros [Ho Hl]. fold (priority o) (priority e).
  destruct (Z.ltb_spec (priority o) (priority e)) as [Hlt|Hge]; simpl.
  - rewrite IH by done. destruct (eligible o) eqn:Eo; [|done]. destruct (eligible e); [|done].
    by rewrite (proj2 (Z.ltb_lt _ _) Hlt).
  - destruct (eligible e); [|done]. destruct (eligible o); [by rewrite (proj2 (Z.ltb_ge _ _)) by lia|].
    destruct (List.find eligible l) as [x|] eqn:Hf; [|done]. apply find_some in Hf as [Hx _].
    rewrite Forall_forall in Ho. apply list_elem_of_In, Ho in Hx. by rewrite (proj2 (Z.ltb_ge _ _)) by lia.
Qed.

(** The stable sort finds what the scan of the pool finds. *)
Lemma find_ordered_best eligible store snapshot :
  List.find eligible (orderedUpstreams store snapshot) = best eligible (pool_upstreams store snapshot).
Proof.
  unfold orderedUpstreams.
  assert (forall l, ordered (foldr insert_ordered [] l) /\ List.find eligible (foldr insert_ordered [] l) = best eligible l) as Hgen.
  { induction l as [|e l [Ho IH]]; simpl; [done|]. split; [by apply insert_ordered_ordered|].
    by rewrite find_insert_ordered, IH. }
  apply Hgen.
Qed.

Definition healthy_alternative (excluded : option nat) (e : nat * Upstream) : bool :=
  negb (is_excluded excluded e.1) && IsHealthy e.2.

Definition recoverable (excluded : option nat) (now cooldown : Z) (e : nat * Upstream) : bool :=
  negb (is_excluded excluded e.1) && (reservePassiveRecovery e.2 now cooldown).2.

Lemma selectHealthy_best store snapshot excluded :
  selectHealthy store snapshot excluded
  = match best (healthy_alternative excluded) (pool_upstreams store snapshot) with
    | Some (pointer, _) => Ok pointer
    | None => Err (no_candidate excluded)
    end.
Proof. unfold selectHealthy. by rewrite <- find_ordered_best. Qed.

Lemma reserve_first_find store excluded now cooldown l :
  (reserve_first store excluded now cooldown l).2
  = match List.find (recoverable excluded now cooldown) l with Some (pointer, _) => Ok pointer | None => Err (no_candidate excluded) end.
Proof.
  induction l as [|[p u] l IH]; simpl; [done|]. unfold recoverable at 1. simpl.
  destruct (is_excluded excluded p); simpl; [done|].
  destruct (reservePassiveRecovery u now cooldown) as [u' [|]]; simpl; done.
Qed.

Lemma select_egress_best s l :
  select_egress s l
  = match s, best (fun e => negb (hasCriticalFailure e.2)) l with
    | Some e, Some o => if priority o <? priority e then Some o else Some e
    | Some e, None => Some e
    | None, o => o
    end.
Proof.
  revert s; induction l as [|c l IH]; intros s; simpl; [by destruct s|].
  destruct (hasCriticalFailure c.2); simpl; [apply IH|]. fold (priority c).
  destruct s as [e|]; rewrite IH; [|by destruct (best _ l)].
  fold (priority e). destruct (Z.ltb_spec (priority c) (priority e)).
  - destruct (best _ l) as [o|]; [|by rewrite (proj2 (Z.ltb_lt _ _)) by lia].
    destruct (Z.ltb_spec (priority o) (priority c)); [by rewrite (proj2 (Z.ltb_lt _ _)) by lia | by rewrite (proj2 (Z.ltb_lt _ _)) by lia].
  - destruct (best _ l) as [o|]; [|by rewrite (proj2 (Z.ltb_ge _ _)) by lia].
    destruct (Z.ltb_spec (priority o) (priority c)).
    + done.
    + rewrite (proj2 (Z.ltb_ge (priority c) _)) by lia. by rewrite (proj2 (Z.ltb_ge (priority o) _)) by lia.
Qed.

(** A selector's answer is the first eligible upstream of the pool with the smallest
    priority, or an error when none is eligible. *)
Definition chooses (eligible : nat * Upstream -> bool) (pool : list (nat * Upstream)) (answer : result nat) : Prop :=
  match answer with
  | Ok pointer => exists before u after, pool = before ++ (pointer, u) :: after /\ eligible (pointer, u) = true
      /\ Forall (fun o => eligible o = true -> up_Priority u < priority o) before
      /\ Forall (fun o => eligible o = true -> up_Priority u <= priority o) after
  | Err _ => Forall (fun e => eligible e = false) pool
  end.

Lemma best_chooses eligible pool answer :
  (forall pointer u, best eligible pool = Some (pointer, u) -> answer = Ok pointer) ->
  (best eligible pool = None -> is_err answer = true) -> chooses eligible pool answer.
Proof.
  intros Hs Hn. pose proof (best_spec eligible pool) as Hb. destruct (best eligible pool) as [[p u]|].
  - rewrite (Hs _ _ eq_refl). destruct Hb as (before & after & Hp & ? & ? & ?). by exists before, u, after.
  - specialize (Hn eq_refl). by destruct answer.
Qed.

(** What the selectors choose.  The priority selector returns the first upstream of
    the pool with the smallest priority among the healthy ones that are not excluded,
    and fails only when there is none; the egress selector does the same among the ones
    without a protocol failure.  The passive-recovery selector returns what the priority
    selector does and changes nothing as long as that finds one; otherwise it reserves
    the recovery of the first recoverable upstream with the smallest priority, and
    changes no other object. *)
Theorem selectors_choose_best store snapshot excluded now cooldown :
  let pool := pool_upstreams store snapshot in
  let '(store', answer) := selectCandidate store snapshot excluded now cooldown in
  chooses (healthy_alternative excluded) pool (selectHealthy store snapshot excluded)
  /\ chooses (fun e => negb (hasCriticalFailure e.2)) pool (EgressSelect store snapshot)
  /\ (existsb (healthy_alternative excluded) pool = true -> answer = selectHealthy store snapshot excluded /\ store' = store)
  /\ (existsb (healthy_alternative excluded) pool = false ->
        chooses (recoverable excluded now cooldown) pool answer
        /\ forall pointer, answer <> Ok pointer -> us_objects store' !! pointer = us_objects store !! pointer).
Proof.
  cbv zeta. destruct (selectCandidate store snapshot excluded now cooldown) as [store' answer] eqn:Hc.
  assert (chooses (healthy_alternative excluded) (pool_upstreams store snapshot) (selectHealthy store snapshot excluded)) as Hh.
  { rewrite selectHealthy_best. apply best_chooses; [by intros p u -> | by intros ->]. }
  split_and!; [done| | |].
  - apply best_chooses; unfold EgressSelect; rewrite select_egress_best; [by intros p u -> | by intros ->].
  - intros Hex. unfold selectCandidate in Hc. destruct (selectHealthy store snapshot excluded) as [p|e] eqn:Hs.
    + by injection Hc as <- <-.
    + simpl in Hh. apply existsb_exists in Hex as (x & Hx%list_elem_of_In & Hxe). rewrite Forall_forall in Hh.
      rewrite Hh in Hxe by done. done.
  - intros Hnex. unfold selectCandidate in Hc. destruct (selectHealthy store snapshot excluded) as [p|e] eqn:Hs.
    { destruct Hh as (before & u & after & Hp & He & _). rewrite Hp, existsb_app in Hnex. simpl in Hnex.
      rewrite He, orb_true_r in Hnex. done. }
    pose proof (reserve_first_find store excluded now cooldown (orderedUpstreams store snapshot)) as Hr.
    rewrite Hc, find_ordered_best in Hr. simpl in Hr. split.
    + apply best_chooses; rewrite Hr; [by intros p u -> | by intros ->].
    + intros pointer Hne. destruct answer as [q|].
      * apply reserve_first_reserved in Hc as (_ & u & _ & _ & _ & _ & _ & ->). apply lookup_insert_ne. congruence.
      * assert (forall l, reserve_first store excluded now cooldown l = (store', Err e0) -> store' = store) as Herr.
        { induction l as [|[p u] l IH]; simpl; [by intros [= ->]|]. destruct (is_excluded excluded p); [done|].
          destruct (reservePassiveRecovery u now cooldown) as [? [|]]; [done|done]. }
        by rewrite (Herr _ Hc).
Qed.

(** ** Health under traffic *)

Definition run_reports (h : healthState) (reports : list (Z * bool)) : healthState :=
  fold_left (fun h r => health_report h r.1 r.2) reports h.

Definition samples : Z := 150.

(** The comparison of the float64 quotient with 0.3 is exact up to this many samples. *)
Lemma threshold_exact s t :
  0 <= s <= t -> 1 <= t <= samples -> rate_is_healthy (success_rate s t) = (3 * t <? 10 * s).
Proof.
  intros Hs Ht.
  assert (forallb (fun t => forallb (fun s => Bool.eqb (rate_is_healthy (success_rate s t)) (3 * t <? 10 * s)) (seqZ 0 (t + 1)))
            (seqZ 1 samples) = true) as Hall by (vm_compute; reflexivity).
  rewrite forallb_forall in Hall. specialize (Hall t). rewrite forallb_forall in Hall.
  apply Bool.eqb_prop, Hall; apply list_elem_of_In, elem_of_seqZ; lia.
Qed.

Lemma wrap64_id n : - 2 ^ 63 <= n < 2 ^ 63 -> wrap64 n = n.
Proof. intros Hn. unfold wrap64. rewrite Z.mod_small; lia. Qed.

(** The average of two durations below nine years stays between them. *)
Lemma moving_average_between lo hi a l :
  0 < lo -> hi < 2 ^ 58 -> lo <= l <= hi -> a = 0 \/ lo <= a <= hi -> lo <= moving_average a l <= hi.
Proof.
  intros Hlo Hhi Hl Ha. unfold moving_average. destruct (Z.eqb_spec a 0) as [|Hne]; [lia|].
  rewrite !wrap64_id by (rewrite ?wrap64_id; lia). rewrite Z.quot_div_nonneg by lia.
  pose proof (Z.div_le_lower_bound (a * 7 + l * 3) 10 lo). pose proof (Z.div_le_upper_bound (a * 7 + l * 3) 10 hi). lia.
Qed.

Lemma run_reports_counters h reports :
  0 <= hl_successReqs h <= hl_totalReqs h -> hl_totalReqs h + len reports < 2 ^ 63 ->
  let h' := run_reports h reports in
  hl_totalReqs h' = hl_totalReqs h + len reports
  /\ hl_successReqs h' = hl_successReqs h + count snd reports
  /\ 0 <= hl_successReqs h' <= hl_totalReqs h'
  /\ hl_criticalFailureLatched h' = hl_criticalFailureLatched h.
Proof.
  revert h; induction reports as [|[latency success] reports IH]; intros h Hs Hn; cbv zeta.
  - unfold len. simpl. split_and!; try done; lia.
  - unfold len in *. cbn [length] in Hn. rewrite Nat2Z.inj_succ in Hn.
    change (run_reports h ((latency, success) :: reports)) with (run_reports (health_report h latency success) reports).
    destruct (IH (health_report h latency success)) as (H1 & H2 & H3 & H4).
    { simpl. destruct success; rewrite !wrap64_id by lia; lia. }
    { simpl. rewrite wrap64_id by lia. lia. }
    rewrite H1, H2 in *. cbn [length count snd health_report hl_totalReqs hl_successReqs hl_criticalFailureLatched] in *.
    rewrite Nat2Z.inj_succ. split_and!; try done; destruct success; cbn [b2z] in *; rewrite ?wrap64_id in * by lia; lia.
Qed.

Lemma run_reports_average lo hi h reports :
  0 < lo -> hi < 2 ^ 58 -> hl_avgLatency h = 0 \/ lo <= hl_avgLatency h <= hi ->
  Forall (fun r => lo <= r.1 <= hi) reports -> reports <> [] ->
  lo <= hl_avgLatency (run_reports h reports) <= hi.
Proof.
  intros Hlo Hhi Hh Hall Hne. destruct reports as [|r reports]; [done|]. clear Hne.
  inversion_clear Hall as [|? ? Hr Hrest]. revert h r Hh Hr. induction Hrest as [|r' reports Hr' _ IH]; intros h r Hh Hr.
  - by apply moving_average_between.
  - change (run_reports h (r :: r' :: reports)) with (run_reports (health_report h r.1 r.2) (r' :: reports)).
    apply IH; [|done]. right. by apply moving_average_between.
Qed.

Lemma run_reports_snoc h reports latency success :
  run_reports h (reports ++ [(latency, success)]) = health_report (run_reports h reports) latency success.
Proof. unfold run_reports. by rewrite fold_left_app. Qed.

(** Health follows the traffic.  After any sequence of exchanges on a fresh upstream,
    the counters are their number and the number of successes, and the average latency
    lies between the smallest and the largest one; up to 150 exchanges, the upstream
    is healthy exactly when it is not latched and more than three in ten succeeded. *)
Theorem health_follows_traffic h reports latency success lo hi :
  hl_totalReqs h = 0 -> hl_successReqs h = 0 -> hl_avgLatency h = 0 ->
  let all := reports ++ [(latency, success)] in
  let h' := run_reports h all in
  len all < 2 ^ 63 -> 0 < lo -> hi < 2 ^ 58 -> Forall (fun r => lo <= r.1 <= hi) all ->
  hl_totalReqs h' = len all /\ hl_successReqs h' = count snd all
  /\ lo <= hl_avgLatency h' <= hi
  /\ (len all <= samples ->
       hl_healthy h' = negb (hl_criticalFailureLatched h) && (3 * len all <? 10 * count snd all)).
Proof.
  intros Ht Hs Ha all h' Hlen Hlo Hhi Hall.
  destruct (run_reports_counters h all) as (Htotal & Hsucc & Hle & Hlatch); [lia|lia|]. fold h' in Htotal, Hsucc, Hle, Hlatch.
  rewrite Ht in Htotal. rewrite Hs in Hsucc. split; [lia|]. split; [lia|]. split.
  - apply run_reports_average; auto. unfold all. by destruct reports.
  - intros Hn. unfold h', all. rewrite run_reports_snoc. cbn [health_report hl_healthy].
    assert (h' = health_report (run_reports h reports) latency success) as Hh' by (unfold h', all; apply run_reports_snoc).
    rewrite Hh' in Htotal, Hsucc, Hle, Hlatch. cbn [health_report hl_totalReqs hl_successReqs hl_criticalFailureLatched] in *.
    rewrite Hsucc, Htotal in Hle. rewrite Hlatch, Htotal, Hsucc. fold all. rewrite !Z.add_0_l in *.
    f_equal. apply threshold_exact; [done|].
    assert (1 <= len all) by (unfold all, len; rewrite length_app; simpl; lia). lia.
Qed.

(** ** Rebuilding the pool *)

Section pool.
Context `{UnicodeTables} (peerText : PeerEgress -> gostring) (peers : option PeerSet).













End pool.

(** ** Examples *)

Section examples.
#[local] Existing Instance ascii_tables.

Definition sample_record (id priority : Z) (mode : string) : UpstreamRecord :=
  {| ur_ID := id; ur_AdapterType := bs "pypi"; ur_Name := bs "mirror"; ur_URL := bs "https://mirror.example/pypi"; ur_Proxy := [];
     ur_Priority := priority; ur_ProbeMode := bs mode; ur_ProbeInterval := bs "30m"; ur_Healthy := false; ur_AvgLatencyMs := 20;
     ur_SuccessRate := f64_of_Z 1; ur_LastCheckedAt := 5; ur_Via := [] |}.

Definition no_peer_text (p : PeerEgress) : gostring := [].
Definition empty_store : upstream_store := {| us_objects := ∅; us_next := O |}.
Definition sample_records : list UpstreamRecord := [sample_record 1 10 "passive"; sample_record 2 20 "active"].
Definition sample_pool : upstream_store * poolSnapshot :=
  match buildPoolSnapshotWithOptions no_peer_text None empty_store sample_records None with
  | Ok built => built
  | Err _ => (empty_store, {| ps_upstreams := []; ps_byID := ∅ |})
  end.


Definition sample_upstream : Upstream :=
  match us_objects sample_pool.1 !! O with Some u => u | None => with_health (Build_Upstream 0 [] [] [] [] 0 [] 0 [] (Build_http_client None None None) true
    (Build_healthState false false 0 S754_nan 0 0 0) (Build_passiveRecoveryState false false 0)) (Build_healthState false false 0 S754_nan 0 0 0) end.

(** A recovery is reserved, admitted, fails, and can be reserved again a minute later. *)
Definition sample_reserved : Upstream := (reservePassiveRecovery sample_upstream 100 60).1.
Definition sample_admitted : Upstream := (admitExchange sample_reserved).1.
Definition sample_recovery : recovery_system :=
  Build_recovery_system (finishExchange sample_admitted 7 true true false) [] [100] 160.

Lemma sample_recovery_reachable : recovery_reachable 60 sample_recovery.
Proof.
  eapply recovery_next; [|apply (step_clock 60 _ _ _ 100 160); lia].
  eapply recovery_next; [|apply (step_finish 60 sample_admitted [true] [100] 100 O true 7 true false); reflexivity].
  eapply recovery_next; [|apply (step_admit 60 sample_reserved [] [100] 100); vm_compute; reflexivity].
  eapply recovery_next; [|apply (step_reserve 60 sample_upstream [] [] 100); vm_compute; reflexivity].
  apply recovery_start; [vm_compute; reflexivity | lia].
Qed.

Lemma recovery_is_exclusive_witness :
  count id (rs_flights sample_recovery) <= 1
  /\ (reservePassiveRecovery (rs_upstream sample_recovery) (rs_clock sample_recovery) 60).2 = true.
Proof.
  destruct (recovery_is_exclusive 60 sample_recovery sample_recovery_reachable) as (H1 & _ & H2).
  split; [exact H1|]. apply H2; try (vm_compute; reflexivity). intros t [= <-]. done.
Defined.

Lemma health_follows_traffic_witness :
  hl_healthy (run_reports (Build_healthState true false 0 (f64_of_Z 1) 0 0 0) ([(20, true); (40, false); (30, false)] ++ [(50, false)])) = false.
Proof.
  destruct (health_follows_traffic (Build_healthState true false 0 (f64_of_Z 1) 0 0 0) [(20, true); (40, false); (30, false)] 50 false 20 50)
    as (_ & _ & _ & H4); [done..|lia|lia|repeat constructor; simpl; lia|].
  rewrite H4; [reflexivity | done].
Defined.

Definition tokenless_peer : PeerEgress :=
  {| pe_Name := bs "parent"; pe_URL := match Parse (bs "https://parent.example") with Ok u => Some u | Err _ => None end;
     pe_Token := []; pe_LocalInstanceID := bs "node"; pe_MaxHops := 4; pe_ForwardCredentials := false |}.

Definition relayed_record : UpstreamRecord :=
  {| ur_ID := 1; ur_AdapterType := bs "pypi"; ur_Name := bs "mirror"; ur_URL := bs "https://mirror.example/pypi"; ur_Proxy := [];
     ur_Priority := 1; ur_ProbeMode := bs "active"; ur_ProbeInterval := bs "30m"; ur_Healthy := true; ur_AvgLatencyMs := 20;
     ur_SuccessRate := f64_of_Z 1; ur_LastCheckedAt := 5; ur_Via := bs "parent" |}.

(** When the transport to a configured peer cannot be built, the upstream is built with
    direct egress and no error is reported. *)
Example broken_peer_goes_direct :
  is_err (newPeerTransport tokenless_peer (bs "https://mirror.example/pypi")) = true
  /\ (fun u => cl_peer (up_client u)) <$>
       newUpstreamFromRecord (fun _ => bs "https://parent.example") (Some {[bs "parent" := tokenless_peer]}) relayed_record
     = Ok None.
Proof. vm_compute. done. Qed.

End examples.
