(* ===== verification/Relay.v ===== *)
(** * Relayed exchanges (internal/relay/handler.go, internal/upstream: peer_egress.go,
    relay_client.go, relay_resolution.go, internal/config/cascade.go)

    The child's transport that turns an upstream request into a relay request, the
    parent's endpoint that validates it and turns it into an origin request, and the
    configuration of both.  What the origin and the cache answer are arguments. *)

From stdpp Require Import gmap.
From S2P Require Export Upstream Sha256.

Section tables.
Context `{UnicodeTables}.

(** ** The child *)

Record relay_request := { rq_Method : gostring; rq_URL : URL; rq_Header : http_header }.

Definition MethodGet : gostring := bs "GET".
Definition MethodHead : gostring := bs "HEAD".

Definition hopByHopHeaders : list gostring :=
  bs <$> ["Connection"; "Proxy-Connection"; "Keep-Alive"; "Proxy-Authenticate"; "Proxy-Authorization"; "TE"; "Trailer";
          "Transfer-Encoding"; "Upgrade"]%string.

(** The headers a [Connection] value nominates. *)
Definition connection_names (value : gostring) : list gostring :=
  filter (fun name => name <> []) (trim_space <$> strings_split value (ch ",")).

Definition stripHopByHopHeaders (header : http_header) : http_header :=
  let nominated := concat (connection_names <$> header_Values header (bs "Connection")) in
  fold_left header_Del hopByHopHeaders (fold_left header_Del nominated header).

Definition set_or_delete (header : http_header) (key : gostring) (value : option gostring) : http_header :=
  match value with Some value => header_Set header key value | None => header_Del header key end.

(** [peerTransport.RoundTrip]: the request that is sent to the peer. *)
Definition RoundTrip (t : peerTransport) (ctx : relay_context) (request : relay_request) : result relay_request :=
  let target := rq_URL request in
  if negb (str_eqb (rq_Method request) MethodGet) && negb (str_eqb (rq_Method request) MethodHead)
  then fail "cascade peer %s: method %s is not supported" else
  if bool_decide (is_Some (u_User target)) then fail "cascade peer %s: upstream URL must not embed credentials" else
  if negb (is_http_scheme (u_Scheme target)) then fail "cascade peer %s: upstream URL must use http or https" else
  if len (url_string target) >? MaxTargetURLLength then fail "cascade peer %s: upstream URL exceeds the relay limit" else
  let chain := match cx_chain ctx with [] => [pe_LocalInstanceID (pt_peer t)] | chain => chain end in
  if len chain >? pe_MaxHops (pt_peer t) then fail "cascade peer %s: cascade chain exceeds max_hops %d" else
  let header := stripHopByHopHeaders (rq_Header request) in
  let header := if pe_ForwardCredentials (pt_peer t) then header
                else fold_left header_Del [bs "Authorization"; bs "Cookie"; bs "Proxy-Authorization"] header in
  let header := header_Set header HeaderTarget (url_string target) in
  let header := header_Set header HeaderSource (url_string (pt_source t)) in
  let header := header_Set header HeaderToken (pe_Token (pt_peer t)) in
  let header := header_Set header HeaderChain (chain_String chain) in
  let header := set_or_delete header HeaderTTL (FormatTTLHeader <$> cx_ttl ctx) in
  let header := set_or_delete header HeaderKind (cx_kind ctx) in
  Ok {| rq_Method := rq_Method request; rq_URL := pt_relay t; rq_Header := header |}.

(** ** The parent *)

Definition minRelayTTL : Z := 30 * Second.
Definition defaultMaxTTL : Z := 7 * 24 * Hour.

(** [hd_Cache]: whether the handler has a cache. *)
Record Handler := { hd_Identity : gostring; hd_Token : gostring; hd_MaxHops : Z; hd_MaxTTL : Z; hd_Cache : bool }.

Record plan := {
  pl_method : gostring;
  pl_target : URL;
  pl_targetRaw : gostring;
  pl_source : gostring;
  pl_sourceURL : option URL;
  pl_kind : gostring;
  pl_ttl : Z;
  pl_chain : Chain;
  pl_next : Chain;
  pl_headers : http_header;
  pl_cacheKey : gostring;
}.

Definition authorized (h : Handler) (request : relay_request) : bool :=
  if str_eqb (hd_Token h) [] then false else str_eqb (header_Get (rq_Header request) HeaderToken) (hd_Token h).

Definition maxHops (h : Handler) : Z := if hd_MaxHops h >? 0 then hd_MaxHops h else DefaultMaxHops.

Definition maxTTL (h : Handler) : Z := if hd_MaxTTL h >? 0 then hd_MaxTTL h else defaultMaxTTL.

(** The budget after the clamps of [planRequest]. *)
Definition clamp_ttl (h : Handler) (ttl : Z) : Z :=
  let ttl := if ttl >? maxTTL h then maxTTL h else ttl in
  if (ttl >? 0) && (ttl <? minRelayTTL) then minRelayTTL else ttl.

Definition relayCacheKey (method targetRaw kind : gostring) (headers : http_header) : gostring :=
  bs "relay-v1/" ++ kind ++ [ch "/"]
  ++ hex_encode (sha256 (method ++ [0] ++ targetRaw ++ [0] ++ header_Get headers (bs "Accept"))).

(** [planRequest]; the chain that goes on is added by [ServeHTTP]. *)
Definition planRequest (h : Handler) (request : relay_request) : result plan :=
  let header := rq_Header request in
  if negb (ValidInstanceID (hd_Identity h)) then fail "relay instance identity is not configured" else
  let rawTarget := trim_space (header_Get header HeaderTarget) in
  if str_eqb rawTarget [] || (len rawTarget >? MaxTargetURLLength) then fail "relay target is missing or too long" else
  target ← recast "relay target is not a valid absolute HTTP URL" [] (Parse rawTarget);
  if str_eqb (u_Host target) [] || bool_decide (is_Some (u_User target)) || negb (str_eqb (u_Fragment target) [])
     || negb (is_http_scheme (u_Scheme target))
  then fail "relay target is not a valid absolute HTTP URL" else
  chain ← recast "relay chain is missing or invalid" [] (ParseChain (header_Get header HeaderChain));
  if bool_decide (chain = []) then fail "relay chain is missing or invalid" else
  let kind := if str_eqb (header_Get header HeaderKind) KindArtifact then KindArtifact else KindIndex in
  ttl ← recast "relay TTL is invalid" [] (ParseTTLHeader (header_Get header HeaderTTL));
  let source := trim_space (header_Get header HeaderSource) in
  let sourceURL := if str_eqb source [] then None else
                   match Parse source with
                   | Ok parsed => if str_eqb (u_Host parsed) [] then None else Some parsed
                   | Err _ => None
                   end in
  Ok {| pl_method := rq_Method request; pl_target := target; pl_targetRaw := url_string target; pl_source := source;
        pl_sourceURL := sourceURL; pl_kind := kind; pl_ttl := clamp_ttl h ttl.1; pl_chain := chain; pl_next := [];
        pl_headers := header; pl_cacheKey := relayCacheKey (rq_Method request) (url_string target) kind header |}.

Definition with_next_chain (p : plan) (next : Chain) : plan :=
  {| pl_method := pl_method p; pl_target := pl_target p; pl_targetRaw := pl_targetRaw p; pl_source := pl_source p;
     pl_sourceURL := pl_sourceURL p; pl_kind := pl_kind p; pl_ttl := pl_ttl p; pl_chain := pl_chain p; pl_next := next;
     pl_headers := pl_headers p; pl_cacheKey := pl_cacheKey p |}.

(** The checks of [ServeHTTP]: an error with its code, or the validated exchange, with
    whether it goes through the cache. *)
Inductive relay_decision := relay_error (status : Z) (code : string) | relay_exchange (exchange : plan) (cacheable : bool).

Definition admit_exchange (h : Handler) (request : relay_request) : relay_decision :=
  if negb (str_eqb (rq_Method request) MethodGet) && negb (str_eqb (rq_Method request) MethodHead)
  then relay_error 405 "METHOD_NOT_ALLOWED" else
  if negb (authorized h request) then relay_error 401 "CASCADE_UNAUTHORIZED" else
  match planRequest h request with
  | Err _ => relay_error 400 "INVALID_RELAY_REQUEST"
  | Ok exchange =>
    if chain_Contains (pl_chain exchange) (hd_Identity h) then relay_error 508 "CASCADE_LOOP" else
    if len (pl_chain exchange) >=? maxHops h then relay_error 508 "CASCADE_HOP_LIMIT" else
    let exchange := with_next_chain exchange (chain_With (pl_chain exchange) (hd_Identity h)) in
    relay_exchange exchange (str_eqb (pl_method exchange) MethodGet && (pl_ttl exchange >? 0)
                             && str_eqb (header_Get (pl_headers exchange) (bs "Range")) [] && hd_Cache h)
  end.

Definition sameOrigin (l r : option URL) : bool :=
  match l, r with
  | Some l, Some r => equal_fold (u_Scheme l) (u_Scheme r) && equal_fold (u_Host l) (u_Host r)
  | _, _ => false
  end.

Definition copy_header (from : http_header) (key : gostring) (to : http_header) : http_header :=
  let value := header_Get from key in if str_eqb value [] then to else header_Set to key value.

(** [removeEmptyPort] of net/http, which [NewRequest] applies. *)
Definition removeEmptyPort (host : gostring) : gostring :=
  match last_index_byte host (ch ":") with
  | Some i => if bool_decide (default O (S <$> last_index_byte host (ch "]")) <= i)%nat then trim_suffix host (bs ":") else host
  | None => host
  end.

Definition with_host (u : URL) (host : gostring) : URL :=
  {| u_Scheme := u_Scheme u; u_Opaque := u_Opaque u; u_User := u_User u; u_Host := host; u_Path := u_Path u;
     u_RawPath := u_RawPath u; u_OmitHost := u_OmitHost u; u_ForceQuery := u_ForceQuery u; u_RawQuery := u_RawQuery u;
     u_Fragment := u_Fragment u; u_RawFragment := u_RawFragment u |}.

(** [buildOriginRequest] with its inbound request. *)
Definition buildOriginRequest (inbound : relay_request) (exchange : plan) (method : gostring) : result relay_request :=
  url ← Parse (pl_targetRaw exchange);
  let from := rq_Header inbound in
  let userAgent := trim_space (header_Get from (bs "User-Agent")) in
  let userAgent := if str_eqb userAgent [] then bs "depsilo-relay/0.1" else userAgent in
  let header := header_Set ∅ (bs "User-Agent") userAgent in
  let header := fold_left (fun to key => copy_header from key to) [bs "Accept"; bs "Accept-Language"; bs "Range"] header in
  let header := if bool_decide (is_Some (pl_sourceURL exchange)) && sameOrigin (Some (pl_target exchange)) (pl_sourceURL exchange)
                then copy_header from (bs "Authorization") header else header in
  Ok {| rq_Method := method; rq_URL := with_host url (removeEmptyPort (u_Host url)); rq_Header := header |}.

(** *** Responses *)

Record origin_response := { os_StatusCode : Z; os_Header : http_header; os_ContentLength : Z }.

Definition relayResponseHeaders : list gostring :=
  bs <$> ["Accept-Ranges"; "Content-Disposition"; "Content-Encoding"; "Content-Language"; "Content-Range"; "Digest";
          "Docker-Content-Digest"; "ETag"; "Last-Modified"; "Link"; "Location"; "X-Checksum-Md5"; "X-Checksum-Sha1";
          "X-Checksum-Sha256"; "X-Checksum-Sha512"; "X-Linked-Etag"; "X-Linked-Size"; "X-Repo-Commit"]%string.

Definition copyRelayResponseHeaders (destination : http_header) (response : origin_response) : http_header :=
  let header := fold_left (fun d name => fold_left (fun d value => header_Add d name value) (header_Values (os_Header response) name) d)
                          relayResponseHeaders destination in
  let header := copy_header (os_Header response) (bs "Content-Type") header in
  if os_ContentLength response >? 0 then header_Set header (bs "Content-Length") (format_int (os_ContentLength response)) else header.

(** Why a fetch for the cache failed. *)
Inductive fetch_error := fetch_redirect | fetch_not_modified | fetch_status (status : Z) | fetch_other (e : error).

(** [fetch]: the validators of the stored entry, and what the response means. *)
Definition with_validators (request : relay_request) (stored : option (gostring * gostring)) : relay_request :=
  match stored with
  | None => request
  | Some (etag, lastModified) =>
    let header := rq_Header request in
    let header := if str_eqb etag [] then header else header_Set header (bs "If-None-Match") etag in
    let header := if str_eqb lastModified [] then header else header_Set header (bs "If-Modified-Since") lastModified in
    {| rq_Method := rq_Method request; rq_URL := rq_URL request; rq_Header := header |}
  end.

Definition fetch_response (response : origin_response) : origin_response + fetch_error :=
  let status := os_StatusCode response in
  if status =? 304 then inr fetch_not_modified
  else if (300 <=? status) && (status <? 400) then inr fetch_redirect
  else if 400 <=? status then inr (fetch_status status)
  else inl response.

(** What the child gets: a status with the code of the error, if it is one. *)
Record relay_reply := { rr_Status : Z; rr_Code : option string; rr_Header : http_header }.

Definition error_reply (header : http_header) (status : Z) (code : string) : relay_reply :=
  {| rr_Status := status; rr_Code := Some code;
     rr_Header := header_Set header (bs "Content-Type") (bs "application/json; charset=utf-8") |}.

Definition serveUncached (header : http_header) (inbound : relay_request) (exchange : plan)
    (origin : relay_request -> result origin_response) : relay_reply :=
  match buildOriginRequest inbound exchange (pl_method exchange) with
  | Err _ => error_reply header 400 "INVALID_RELAY_REQUEST"
  | Ok request =>
    match origin request with
    | Err _ => error_reply header 502 "RELAY_UPSTREAM_UNAVAILABLE"
    | Ok response =>
      {| rr_Status := os_StatusCode response; rr_Code := None;
         rr_Header := header_Set (copyRelayResponseHeaders header response) HeaderCache (bs "BYPASS") |}
    end
  end.

(** What [Manager.Get] returns. *)
Record cache_answer := { ca_Headers : http_header; ca_ContentType : gostring; ca_Size : Z; ca_Hit : bool }.

Definition serveCached (header : http_header) (inbound : relay_request) (exchange : plan)
    (got : cache_answer + fetch_error) (origin : relay_request -> result origin_response) : relay_reply :=
  match got with
  | inr fetch_redirect | inr fetch_not_modified => serveUncached header inbound exchange origin
  | inr (fetch_status status) => error_reply header status "UPSTREAM_ERROR"
  | inr (fetch_other _) => error_reply header 502 "RELAY_UPSTREAM_UNAVAILABLE"
  | inl answer =>
    let header := ca_Headers answer ∪ header in
    let contentType := if str_eqb (ca_ContentType answer) [] then bs "application/octet-stream" else ca_ContentType answer in
    let header := header_Set header (bs "Content-Type") contentType in
    let header := if ca_Size answer >? 0 then header_Set header (bs "Content-Length") (format_int (ca_Size answer)) else header in
    {| rr_Status := 200; rr_Code := None;
       rr_Header := header_Set header HeaderCache (if ca_Hit answer then bs "HIT" else bs "MISS") |}
  end.

(** [ServeHTTP]; what the cache answers and what the client of the exchange gets are
    functions of the exchange. *)
Definition ServeHTTP (h : Handler) (request : relay_request) (got : plan -> cache_answer + fetch_error)
    (origin : plan -> relay_request -> result origin_response) : relay_reply :=
  let header := header_Set ∅ HeaderInstance (hd_Identity h) in
  match admit_exchange h request with
  | relay_error status code => error_reply header status code
  | relay_exchange exchange true => serveCached header request exchange (got exchange) (origin exchange)
  | relay_exchange exchange false => serveUncached header request exchange (origin exchange)
  end.

(** [originStatusError.AllowStaleFallback] *)
Definition AllowStaleFallback (status : Z) : bool :=
  negb ((status =? 401) || (status =? 403) || (status =? 404) || (status =? 410)).

(** ** Which client an exchange uses *)

Definition sameNormalizedSource (l r : URL) : bool :=
  equal_fold (u_Scheme l) (u_Scheme r) && equal_fold (u_Host l) (u_Host r)
  && str_eqb (trim_right_slashes (EscapedPath l)) (trim_right_slashes (EscapedPath r)).

(** [Registry.RelayEgress] over the upstreams of the active ecosystems, in their order. *)
Definition RelayEgress (upstreams : list Upstream) (source target : gostring) : option Upstream :=
  match Parse (trim_space source), Parse (trim_space target) with
  | Ok sourceURL, Ok targetURL =>
    if str_eqb (u_Host sourceURL) [] || str_eqb (u_Host targetURL) [] then None else
    List.find (fun candidate => match Parse (up_URL candidate) with
                                | Ok base => sameNormalizedSource base sourceURL && sameHTTPOrigin (Some base) (Some targetURL)
                                | Err _ => false
                                end) upstreams
  | _, _ => None
  end.

(** [clientFor]: an upstream's own client, or the default one. *)
Definition clientFor (upstreams : list Upstream) (exchange : plan) : option Upstream :=
  if str_eqb (pl_source exchange) [] then None else RelayEgress upstreams (pl_source exchange) (pl_targetRaw exchange).

(** [relayDialer.DialContext]: the addresses that may be dialed, in their order. *)
Definition relay_dial (address : gostring) (lookup : gostring -> result (list ip)) : result (list ip) :=
  match SplitHostPort address with
  | None => fail "invalid relay dial target"
  | Some (host, port) =>
    if str_eqb host [] || str_eqb port [] then fail "invalid relay dial target" else
    match lookup host with
    | Err e => Err (Errorf "resolve relay target: %w" [e])
    | Ok addresses =>
      if decide (resolvedNetworkScope addresses <> networkPublic) then fail "relay target is not a public address"
      else Ok (interleaveIPFamilies addresses)
    end
  end.

(** ** Configuration *)

Record CascadePeer := { cp_Name : gostring; cp_URL : gostring; cp_Token : gostring; cp_ForwardCredentials : bool }.

Record CascadeConfig := {
  cc_Enabled : bool;
  cc_InstanceID : gostring;
  cc_Token : gostring;
  cc_MaxHops : Z;
  cc_MaxTTL : Z;
  cc_AllowInsecureHTTP : bool;
  cc_Peers : list CascadePeer;
}.

Definition cascadeTokenMinBytes : Z := 16.
Definition cascadeMaxTTLCeiling : Z := 30 * 24 * Hour.
Definition cascadeMaxPeers : Z := 16.

Fixpoint peer_name_rest (rs : list Z) : bool :=
  match rs with [] => true | c :: rs => (in_range 97 122 c || in_range 48 57 c || (c =? ch "-")) && peer_name_rest rs end.

Definition validCascadePeerName (name : gostring) : bool :=
  negb (str_eqb name []) && (len name <=? 64)
  && match runes name with
     | c :: rs => (in_range 97 122 c || in_range 48 57 c) && peer_name_rest rs
     | [] => true
     end.

Definition has_blank (s : gostring) : bool := contains_any s [32; 9; 13; 10].

(** [strings.Trim(s, "[]")] *)
Fixpoint trim_left_brackets (s : gostring) : gostring :=
  match s with c :: s' => if (c =? ch "[") || (c =? ch "]") then trim_left_brackets s' else s | [] => [] end.

Definition isLoopbackHost (host : gostring) : bool :=
  let host := rev (trim_left_brackets (rev (trim_left_brackets (trim_space host)))) in
  equal_fold host (bs "localhost") || match ParseIP host with Some address => IsLoopback address | None => false end.

Definition validateCascadePeerURL (raw : gostring) (allowInsecureHTTP : bool) : result unit :=
  parsed ← recast "url is invalid" [] (Parse raw);
  if negb (is_http_scheme (u_Scheme parsed)) then fail "url must use http or https" else
  if str_eqb (u_Host parsed) [] || bool_decide (is_Some (u_User parsed)) then fail "url must be an origin without credentials" else
  if negb (str_eqb (u_RawQuery parsed) []) || negb (str_eqb (u_Fragment parsed) [])
  then fail "url must not contain a query or fragment" else
  if contains (EscapedPath parsed) (bs "..") then fail "url path must not contain '..'" else
  if str_eqb (u_Scheme parsed) (bs "http") && negb allowInsecureHTTP && negb (isLoopbackHost (Hostname parsed))
  then fail "http peer URLs require cascade.allow_insecure_http = true or a loopback host"
  else Ok ().

(** The loop over the peers. *)
Fixpoint validate_peers (settings : CascadeConfig) (seen : gset gostring) (peers : list CascadePeer) : result (gset gostring) :=
  match peers with
  | [] => Ok seen
  | peer :: peers =>
    if negb (validCascadePeerName (cp_Name peer)) then fail "cascade.peers[%d].name must match [a-z0-9][a-z0-9-]{0,63}" else
    if bool_decide (cp_Name peer ∈ seen) then fail "cascade.peers contains duplicate name %q" else
    let seen := {[cp_Name peer]} ∪ seen in
    _ ← wrap "cascade.peers[%d] (%s): %w" (validateCascadePeerURL (cp_URL peer) (cc_AllowInsecureHTTP settings));
    if str_eqb (cp_Token peer) [] then
      if cc_Enabled settings && str_eqb (cc_Token settings) []
      then fail "cascade.peers[%d] (%s) has no token and cascade.token is empty"
      else validate_peers settings seen peers
    else
    if len (cp_Token peer) <? cascadeTokenMinBytes then fail "cascade.peers[%d] (%s).token must be at least %d bytes" else
    if has_blank (cp_Token peer) then fail "cascade.peers[%d] (%s).token must not contain whitespace"
    else validate_peers settings seen peers
  end.

(** [validateCascadeConfig]: the settings with their defaults.  [vias] are the [via]s of
    the upstreams of the standard ecosystems, [extra] those of the extra indexes. *)
Definition validateCascadeConfig (settings : CascadeConfig) (vias extra : list gostring) : result CascadeConfig :=
  if negb (str_eqb (cc_InstanceID settings) []) && negb (ValidInstanceID (cc_InstanceID settings))
  then fail "cascade.instance_id must be 1-64 lowercase letters, digits, or '-'" else
  if has_blank (cc_Token settings) then fail "cascade.token must not contain whitespace" else
  if cc_Enabled settings && str_eqb (cc_Token settings) [] then fail "cascade.token is required when cascade.enabled = true" else
  if negb (str_eqb (cc_Token settings) []) && (len (cc_Token settings) <? cascadeTokenMinBytes)
  then fail "cascade.token must be at least %d bytes" else
  let hops := if cc_MaxHops settings =? 0 then DefaultMaxHops else cc_MaxHops settings in
  if (hops <? 1) || (hops >? MaxChainEntries) then fail "cascade.max_hops must be between 1 and %d" else
  let ttl := if cc_MaxTTL settings =? 0 then defaultMaxTTL else cc_MaxTTL settings in
  if (ttl <? Minute) || (ttl >? cascadeMaxTTLCeiling) then fail "cascade.max_ttl must be between 1m and 720h" else
  if len (cc_Peers settings) >? cascadeMaxPeers then fail "cascade.peers supports at most %d entries" else
  let settings := {| cc_Enabled := cc_Enabled settings; cc_InstanceID := cc_InstanceID settings; cc_Token := cc_Token settings;
                     cc_MaxHops := hops; cc_MaxTTL := ttl; cc_AllowInsecureHTTP := cc_AllowInsecureHTTP settings;
                     cc_Peers := cc_Peers settings |} in
  seen ← validate_peers settings ∅ (cc_Peers settings);
  _ ← for_each (fun via => reject_if (negb (str_eqb via []) && bool_decide (via ∉ seen)) "%s upstream %q references unknown cascade peer %q") vias;
  _ ← for_each (fun via => reject_if (negb (str_eqb via [])) "extra index %q upstream %q cannot use cascade egress; use a standard ecosystem upstream instead") extra;
  Ok settings.

(** [cascadePeerSet] (internal/server/cascade.go) *)
Definition peer_egress (settings : CascadeConfig) (identity : gostring) (peer : CascadePeer) : result PeerEgress :=
  parsed ← wrap "parse cascade peer %s URL: %w" (Parse (cp_URL peer));
  Ok {| pe_Name := cp_Name peer; pe_URL := Some parsed;
        pe_Token := if str_eqb (cp_Token peer) [] then cc_Token settings else cp_Token peer;
        pe_LocalInstanceID := identity; pe_MaxHops := cc_MaxHops settings; pe_ForwardCredentials := cp_ForwardCredentials peer |}.

Definition NewPeerSet (entries : list PeerEgress) : PeerSet := fold_left (fun set entry => <[pe_Name entry := entry]> set) entries ∅.

Definition cascadePeerSet (settings : CascadeConfig) (identity : gostring) : result PeerSet :=
  entries ← map_result (peer_egress settings identity) (cc_Peers settings); Ok (NewPeerSet entries).

(** The handler of the server (internal/server/server.go). *)
Definition configured_handler (settings : CascadeConfig) (identity : gostring) : Handler :=
  {| hd_Identity := identity; hd_Token := cc_Token settings; hd_MaxHops := cc_MaxHops settings; hd_MaxTTL := cc_MaxTTL settings;
     hd_Cache := true |}.

End tables.
