(* ===== verification/RelayTheory.v ===== *)
(** * Theory of relayed exchanges

    A relayed request cannot loop, credentials and private networks stay where the
    parent's configuration puts them, and the freshness budget survives the way. *)

From stdpp Require Import gmap.
From S2P Require Export Relay NetGuardTheory.

Section tables.
Context `{UnicodeTables}.

(** ** The chain on the wire *)

Lemma header_Get_set_or_delete_ne h key value key' :
  CanonicalHeaderKey key <> CanonicalHeaderKey key' -> header_Get (set_or_delete h key value) key' = header_Get h key'.
Proof. intros Hne. destruct value; [by apply header_Get_Set_ne | by apply header_Get_Del_ne]. Qed.

(** The chain a transport sends: the one of the context, or its own instance. *)
Definition sent_chain (t : peerTransport) (ctx : relay_context) : Chain :=
  match cx_chain ctx with [] => [pe_LocalInstanceID (pt_peer t)] | chain => chain end.

Lemma round_trip_inv t ctx request outbound :
  RoundTrip t ctx request = Ok outbound ->
  len (sent_chain t ctx) <= pe_MaxHops (pt_peer t)
  /\ header_Get (rq_Header outbound) HeaderChain = chain_String (sent_chain t ctx)
  /\ header_Get (rq_Header outbound) HeaderTTL = default [] (FormatTTLHeader <$> cx_ttl ctx).
Proof.
  unfold RoundTrip. fold (sent_chain t ctx). cbv zeta. intros Hr. go_inv. cbn [rq_Header].
  split; [by apply Z.ltb_ge; rewrite <- Z.gtb_ltb|]. split.
  - rewrite !header_Get_set_or_delete_ne by (by vm_compute). apply header_Get_Set.
  - rewrite header_Get_set_or_delete_ne by (by vm_compute). destruct (cx_ttl ctx); [apply header_Get_Set | apply header_Get_Del].
Qed.

Lemma peer_transport_inv peer source t :
  newPeerTransport peer source = Ok t ->
  ValidInstanceID (pe_LocalInstanceID (pt_peer t)) = true /\ pe_LocalInstanceID (pt_peer t) = pe_LocalInstanceID peer
  /\ pe_MaxHops (pt_peer t) <= MaxChainEntries.
Proof.
  unfold newPeerTransport. intros Ht. go_inv. cbn [pt_peer pe_LocalInstanceID pe_MaxHops].
  split_and!; [by apply negb_false_iff|done|].
  by apply Z.ltb_ge; rewrite <- Z.gtb_ltb.
Qed.

Lemma plan_inv h request exchange :
  planRequest h request = Ok exchange ->
  ValidInstanceID (hd_Identity h) = true
  /\ ParseChain (header_Get (rq_Header request) HeaderChain) = Ok (pl_chain exchange) /\ pl_chain exchange <> []
  /\ pl_source exchange = trim_space (header_Get (rq_Header request) HeaderSource)
  /\ pl_sourceURL exchange = (if str_eqb (pl_source exchange) [] then None else
                              match Parse (pl_source exchange) with
                              | Ok parsed => if str_eqb (u_Host parsed) [] then None else Some parsed
                              | Err _ => None
                              end)
  /\ pl_targetRaw exchange = url_string (pl_target exchange)
  /\ exists ttl given, ParseTTLHeader (header_Get (rq_Header request) HeaderTTL) = Ok (ttl, given)
                       /\ pl_ttl exchange = clamp_ttl h ttl.
Proof.
  unfold planRequest. cbv zeta. intros Hp. go_inv.
  cbn [pl_chain pl_source pl_sourceURL pl_targetRaw pl_target pl_ttl].
  match goal with E : bool_decide (_ = []) = false |- _ => apply bool_decide_eq_false in E end.
  split_and!; try done; [by apply negb_false_iff|]. match goal with x : (Z * bool)%type |- _ => destruct x as [ttl given] end. eauto.
Qed.

(** The answer of the parent to a request it can plan is decided by its chain. *)
Lemma admission_by_chain h request exchange :
  authorized h request = true -> planRequest h request = Ok exchange ->
  rq_Method request = MethodGet \/ rq_Method request = MethodHead ->
  admit_exchange h request =
    if chain_Contains (pl_chain exchange) (hd_Identity h) then relay_error 508 "CASCADE_LOOP"
    else if len (pl_chain exchange) >=? maxHops h then relay_error 508 "CASCADE_HOP_LIMIT"
    else let exchange := with_next_chain exchange (pl_chain exchange ++ [hd_Identity h]) in
         relay_exchange exchange (str_eqb (pl_method exchange) MethodGet && (pl_ttl exchange >? 0)
                                  && str_eqb (header_Get (pl_headers exchange) (bs "Range")) [] && hd_Cache h).
Proof.
  intros Ha Hp Hm. unfold admit_exchange. rewrite Ha, Hp. destruct Hm as [-> | ->]; [done|]. by vm_compute (str_eqb MethodHead _).
Qed.

Lemma admitted_inv h request exchange cacheable :
  admit_exchange h request = relay_exchange exchange cacheable ->
  authorized h request = true
  /\ exists planned, planRequest h request = Ok planned /\ hd_Identity h ∉ pl_chain planned
       /\ len (pl_chain planned) < maxHops h /\ exchange = with_next_chain planned (pl_chain planned ++ [hd_Identity h]).
Proof.
  unfold admit_exchange. destruct (_ && _); [done|]. destruct (authorized h request); [|done]. cbn [negb].
  destruct (planRequest h request) as [planned|]; [|done].
  destruct (chain_Contains _ _) eqn:Hc; [done|]. destruct (Z.geb_spec (len (pl_chain planned)) (maxHops h)); [done|].
  intros [= <- _]. split; [done|]. exists planned. split_and!; try done.
  intros Hin. apply chain_contains_elem in Hin. congruence.
Qed.

(** ** Traversals

    The instances a request has passed, in order, and the request as the next one gets
    it: an instance relays a client's request, or one it was sent. *)
Inductive relayed : list gostring -> relay_request -> Prop :=
  | relayed_first peer source t ctx request outbound :
      newPeerTransport peer source = Ok t -> cx_chain ctx = [] -> RoundTrip t ctx request = Ok outbound ->
      relayed [pe_LocalInstanceID peer] outbound
  | relayed_next ids inbound h exchange cacheable method origin stored peer source t ctx outbound :
      relayed ids inbound -> admit_exchange h inbound = relay_exchange exchange cacheable ->
      buildOriginRequest inbound exchange method = Ok origin ->
      newPeerTransport peer source = Ok t -> cx_chain ctx = pl_next exchange ->
      RoundTrip t ctx (with_validators origin stored) = Ok outbound ->
      relayed (ids ++ [hd_Identity h]) outbound.

Lemma relayed_chain ids request :
  relayed ids request ->
  ids <> [] /\ NoDup ids /\ valid_chain ids /\ ParseChain (header_Get (rq_Header request) HeaderChain) = Ok ids.
Proof.
  induction 1 as [peer source t ctx request outbound Ht Hctx Hr
                 |ids inbound h exchange cacheable method origin stored peer source t ctx outbound _ IH Ha _ Ht Hctx Hr].
  - apply round_trip_inv in Hr as (_ & Hc & _). unfold sent_chain in Hc. rewrite Hctx in Hc.
    apply peer_transport_inv in Ht as (Hv & Heq & _). rewrite Heq in Hv, Hc.
    assert (valid_chain [pe_LocalInstanceID peer]) as Hvc by by (split; [by repeat constructor|]).
    split_and!; [done|apply NoDup_singleton|done|]. rewrite Hc. by apply chain_roundtrip.
  - destruct IH as (Hne & Hnd & [Hv Hl] & Hp). apply admitted_inv in Ha as (_ & planned & Hplan & Hni & _ & ->).
    apply plan_inv in Hplan as (Hid & Hchain & _). rewrite Hp in Hchain. injection Hchain as Hchain. rewrite <- Hchain in *.
    cbn [pl_next with_next_chain] in Hctx. apply round_trip_inv in Hr as (Hlen & Hc & _).
    assert (sent_chain t ctx = ids ++ [hd_Identity h]) as Hsent by (unfold sent_chain; rewrite Hctx; by destruct ids).
    rewrite Hsent in Hlen, Hc. apply peer_transport_inv in Ht as (_ & _ & Hhops).
    assert (valid_chain (ids ++ [hd_Identity h])) as Hvc.
    { split; [|lia]. apply Forall_app. by split; [|constructor]. }
    split_and!; [by destruct ids| |done|].
    + apply NoDup_app. split_and!; [done| |apply NoDup_singleton]. intros x Hx ->%list_elem_of_singleton. by apply Hni.
    + rewrite Hc. by apply chain_roundtrip.
Qed.

(** C35: A relayed request cannot loop.  Through however many instances it goes, and
    whatever each of them is configured to: no instance relays it twice, at most sixteen
    relay it, and the chain it carries names them all; an instance that is in the chain, or
    whose hop limit the chain has reached, answers 508, and any other one that accepts the
    request passes it on with its own name behind the chain. *)
Theorem relay_never_loops ids request :
  relayed ids request ->
  NoDup ids /\ len ids <= MaxChainEntries /\ ParseChain (header_Get (rq_Header request) HeaderChain) = Ok ids
  /\ forall h exchange, authorized h request = true -> planRequest h request = Ok exchange ->
       rq_Method request = MethodGet \/ rq_Method request = MethodHead ->
       (hd_Identity h ∈ ids -> admit_exchange h request = relay_error 508 "CASCADE_LOOP")
       /\ (hd_Identity h ∉ ids -> maxHops h <= len ids -> admit_exchange h request = relay_error 508 "CASCADE_HOP_LIMIT")
       /\ (hd_Identity h ∉ ids -> len ids < maxHops h ->
             exists cacheable, admit_exchange h request = relay_exchange (with_next_chain exchange (ids ++ [hd_Identity h])) cacheable).
Proof.
  intros Hr. apply relayed_chain in Hr as (_ & Hnd & [_ Hl] & Hp). split_and!; [done..|].
  intros h exchange Ha Hplan Hm. rewrite (admission_by_chain _ _ _ Ha Hplan Hm).
  apply plan_inv in Hplan as (_ & Hchain & _). rewrite Hp in Hchain. injection Hchain as <-.
  split_and!.
  - intros Hin. apply chain_contains_elem in Hin. by rewrite Hin.
  - intros Hni Hle. destruct (chain_Contains ids _) eqn:E; [by apply chain_contains_elem in E|].
    destruct (Z.geb_spec (len ids) (maxHops h)); [done|lia].
  - intros Hni Hlt. destruct (chain_Contains ids _) eqn:E; [by apply chain_contains_elem in E|].
    destruct (Z.geb_spec (len ids) (maxHops h)); [lia|]. eauto.
Qed.

(** ** Credentials and egress *)












(** ** The freshness budget *)

Lemma validated_limits settings vias extra settings' :
  validateCascadeConfig settings vias extra = Ok settings' ->
  1 <= cc_MaxHops settings' <= MaxChainEntries /\ Minute <= cc_MaxTTL settings' <= cascadeMaxTTLCeiling.
Proof.
  unfold validateCascadeConfig. intros Hv. go_inv. cbn [cc_MaxHops cc_MaxTTL]. go_bool.
  repeat match goal with
  | E : (_ <? _) = false |- _ => apply Z.ltb_ge in E
  | E : (_ >? _) = false |- _ => rewrite Z.gtb_ltb in E; apply Z.ltb_ge in E
  end. by split_and!.
Qed.

Lemma clamp_ttl_bounds h ttl :
  minRelayTTL <= maxTTL h -> (clamp_ttl h ttl <= 0 /\ ttl <= 0) \/ (0 < ttl /\ clamp_ttl h ttl = Z.max minRelayTTL (Z.min ttl (maxTTL h))).
Proof.
  intros Hm. unfold clamp_ttl. assert (0 < minRelayTTL) by by vm_compute.
  destruct (Z.gtb_spec ttl (maxTTL h)).
  - right. split; [lia|]. destruct (Z.ltb_spec (maxTTL h) minRelayTTL); [lia|]. rewrite andb_false_r. lia.
  - destruct (Z.gtb_spec ttl 0); [|left; simpl; lia]. right. split; [done|]. simpl. destruct (Z.ltb_spec ttl minRelayTTL); lia.
Qed.

Lemma clamp_ttl_zero h : 0 <= maxTTL h -> clamp_ttl h 0 = 0.
Proof. intros Hm. unfold clamp_ttl. destruct (Z.gtb_spec 0 (maxTTL h)); [lia|done]. Qed.

(** The freshness budget of a relayed entry.  With a validated configuration an entry is
    stored for nothing, or for between 30 seconds and the configured maximum (at most 30
    days), whatever the child asks; and what a child asks for arrives as the whole seconds
    of its own budget, between these bounds - so a shorter budget becomes 30 seconds. *)
Theorem relay_budget settings vias extra settings' identity request exchange :
  validateCascadeConfig settings vias extra = Ok settings' ->
  planRequest (configured_handler settings' identity) request = Ok exchange ->
  cc_MaxTTL settings' <= cascadeMaxTTLCeiling
  /\ (pl_ttl exchange <= 0 \/ minRelayTTL <= pl_ttl exchange <= cc_MaxTTL settings')
  /\ (forall t ctx sent, RoundTrip t ctx sent = Ok request ->
        match cx_ttl ctx with
        | None => pl_ttl exchange = 0
        | Some ttl => 0 < ttl < 2 ^ 63 ->
            pl_ttl exchange = if ttl <? Second then 0 else Z.max minRelayTTL (Z.min (ttl / Second * Second) (cc_MaxTTL settings'))
        end).
Proof.
  intros Hv Hp. apply validated_limits in Hv as [_ [Hlo Hhi]].
  apply plan_inv in Hp as (_ & _ & _ & _ & _ & _ & ttl & given & Hparse & Httl).
  assert (maxTTL (configured_handler settings' identity) = cc_MaxTTL settings') as Hm.
  { unfold maxTTL. cbn [hd_MaxTTL configured_handler]. unfold Minute, Second in *. destruct (Z.gtb_spec (cc_MaxTTL settings') 0); [done|lia]. }
  assert (minRelayTTL <= cc_MaxTTL settings') as Hmin by (unfold minRelayTTL, Minute, Second in *; lia).
  rewrite <- Hm in Hmin. pose proof (clamp_ttl_bounds _ ttl Hmin) as Hclamp. rewrite <- Httl, Hm in Hclamp. rewrite Hm in Hmin.
  split_and!; [done|lia|]. intros t ctx sent Hr. apply round_trip_inv in Hr as (_ & _ & Hget). rewrite Hget in Hparse.
  destruct (cx_ttl ctx) as [asked|].
  - change (default [] (FormatTTLHeader <$> Some asked)) with (FormatTTLHeader asked) in Hparse.
    intros Hasked. rewrite ttl_roundtrip in Hparse by done. injection Hparse as <- _.
    assert (0 <= asked / Second) by (apply Z.div_pos; unfold Second; lia).
    destruct (Z.ltb_spec asked Second).
    + rewrite Httl, Z.div_small by lia. apply clamp_ttl_zero. rewrite Hm. unfold Minute, Second in *. lia.
    + assert (1 <= asked / Second) by (apply Z.div_le_lower_bound; unfold Second in *; lia).
      destruct Hclamp as [[_ Hle]|[_ ->]]; [|done]. unfold Second in *. lia.
  - injection Hparse as <- _. rewrite Httl. apply clamp_ttl_zero. rewrite Hm. unfold Minute, Second in *. lia.
Qed.

End tables.

Section examples.
#[local] Existing Instance ascii_tables.

(** A laptop fetches through the home server, which fetches through the office. *)
Definition parsed (text : string) : option URL := match Parse (bs text) with Ok u => Some u | Err _ => None end.

Definition sample_peer (identity url : string) : PeerEgress :=
  {| pe_Name := bs "peer"; pe_URL := parsed url; pe_Token := bs "0123456789abcdef"; pe_LocalInstanceID := bs identity;
     pe_MaxHops := 4; pe_ForwardCredentials := false |}.
Definition sample_source : gostring := bs "https://registry.npmjs.org".
Definition no_url : URL := url_of "::".
Definition no_request : relay_request := {| rq_Method := []; rq_URL := no_url; rq_Header := ∅ |}.
Definition or_else_request (m : result relay_request) : relay_request := match m with Ok r => r | Err _ => no_request end.
Definition sample_transport (identity url : string) : peerTransport :=
  match newPeerTransport (sample_peer identity url) sample_source with
  | Ok t => t
  | Err _ => {| pt_relay := no_url; pt_peer := sample_peer identity url; pt_source := no_url |}
  end.
Definition sample_request : relay_request :=
  {| rq_Method := MethodGet; rq_URL := url_of "https://registry.npmjs.org/left-pad";
     rq_Header := header_Set (header_Set ∅ (bs "Accept") (bs "application/json")) (bs "Authorization") (bs "Bearer secret") |}.
Definition sample_context (chain : Chain) : relay_context := {| cx_chain := chain; cx_ttl := Some (300 * Second); cx_kind := Some KindIndex |}.
Definition first_request : relay_request :=
  or_else_request (RoundTrip (sample_transport "laptop" "https://home.test") (sample_context []) sample_request).
Definition home : Handler :=
  {| hd_Identity := bs "home"; hd_Token := bs "0123456789abcdef"; hd_MaxHops := 4; hd_MaxTTL := 7 * 24 * Hour; hd_Cache := true |}.
Definition home_plan : plan :=
  match admit_exchange home first_request with
  | relay_exchange exchange _ => exchange
  | _ => {| pl_method := []; pl_target := no_url; pl_targetRaw := []; pl_source := []; pl_sourceURL := None; pl_kind := []; pl_ttl := 0;
            pl_chain := []; pl_next := []; pl_headers := ∅; pl_cacheKey := [] |}
  end.
Definition home_origin : relay_request := or_else_request (buildOriginRequest first_request home_plan MethodGet).
Definition second_request : relay_request :=
  or_else_request (RoundTrip (sample_transport "home" "https://office.test") (sample_context (pl_next home_plan)) home_origin).

Lemma first_request_relayed : relayed [bs "laptop"] first_request.
Proof.
  apply (relayed_first (sample_peer "laptop" "https://home.test") sample_source (sample_transport "laptop" "https://home.test")
           (sample_context []) sample_request); vm_compute; reflexivity.
Qed.

Lemma home_admits : admit_exchange home first_request = relay_exchange home_plan true.
Proof. vm_compute. reflexivity. Qed.

Lemma relay_never_loops_witness :
  relayed [bs "laptop"; bs "home"] second_request
  /\ NoDup [bs "laptop"; bs "home"] /\ len [bs "laptop"; bs "home"] <= MaxChainEntries
  /\ ParseChain (header_Get (rq_Header second_request) HeaderChain) = Ok [bs "laptop"; bs "home"]
  /\ admit_exchange home second_request = relay_error 508 "CASCADE_LOOP".
Proof.
  assert (relayed [bs "laptop"; bs "home"] second_request) as Hr.
  { apply (relayed_next [bs "laptop"] first_request home home_plan true MethodGet home_origin None
             (sample_peer "home" "https://office.test") sample_source (sample_transport "home" "https://office.test")
             (sample_context (pl_next home_plan))).
    - exact first_request_relayed.
    - exact home_admits.
    - vm_compute. reflexivity.
    - vm_compute. reflexivity.
    - reflexivity.
    - vm_compute. reflexivity. }
  destruct (relay_never_loops _ _ Hr) as (Hnd & Hl & Hp & _). repeat (split; [assumption|]). vm_compute. reflexivity.
Defined.


Definition sample_settings : CascadeConfig :=
  {| cc_Enabled := true; cc_InstanceID := []; cc_Token := bs "0123456789abcdef"; cc_MaxHops := 0; cc_MaxTTL := 0;
     cc_AllowInsecureHTTP := false; cc_Peers := [{| cp_Name := bs "office"; cp_URL := bs "https://office.test"; cp_Token := [];
                                                    cp_ForwardCredentials := false |}] |}.
Definition sample_validated : CascadeConfig :=
  match validateCascadeConfig sample_settings [bs "office"] [] with Ok s => s | Err _ => sample_settings end.
Definition planned_exchange : plan :=
  match planRequest (configured_handler sample_validated (bs "home")) first_request with Ok p => p | Err _ => home_plan end.

Lemma relay_budget_witness : pl_ttl planned_exchange = 300 * Second /\ cc_MaxTTL sample_validated <= cascadeMaxTTLCeiling.
Proof.
  destruct (relay_budget sample_settings [bs "office"] [] sample_validated (bs "home") first_request planned_exchange)
    as (Hmax & _ & Hasked).
  - vm_compute. reflexivity.
  - vm_compute. reflexivity.
  - split; [|assumption].
    specialize (Hasked (sample_transport "laptop" "https://home.test") (sample_context []) sample_request eq_refl).
    cbn [cx_ttl sample_context] in Hasked. rewrite Hasked; [vm_compute; reflexivity|]. unfold Second. lia.
Defined.

(** The key of a cached exchange depends neither on the Authorization nor on the
    Accept-Language it was fetched with. *)
Example cache_key_ignores_credentials :
  let other := {| rq_Method := MethodGet; rq_URL := rq_URL first_request;
                  rq_Header := header_Set (header_Set (rq_Header first_request) (bs "Authorization") (bs "Bearer other"))
                                          (bs "Accept-Language") (bs "de") |} in
  match admit_exchange home first_request, admit_exchange home other with
  | relay_exchange a true, relay_exchange b true =>
    pl_cacheKey a = pl_cacheKey b
    /\ (fun r => rq_Header r !! bs "Authorization") <$> buildOriginRequest first_request a MethodGet = Ok None
    /\ (fun r => rq_Header r !! bs "Authorization") <$> buildOriginRequest other b MethodGet = Ok (Some [bs "Bearer other"])
  | _, _ => False
  end.
Proof. vm_compute. auto. Qed.

End examples.
