(* ===== verification/Transfer.v ===== *)
(** * Streamed responses (internal/upstream: response_body.go, artifact.go)

    The body that reports the outcome of an exchange once, and the artifact body that
    reopens an interrupted transfer behind the bytes it has delivered.  A transport body
    is the list of what its [Read] calls return; what opening it again gives and when
    the context ends are arguments. *)

From S2P Require Export Decimal.

(** ** Reading *)

Inductive io_error := io_EOF | io_ErrUnexpectedEOF | io_ErrClosedPipe | io_other (e : error).
#[global] Instance io_error_is_EOF (e : io_error) : Decision (e = io_EOF).
Proof. destruct e; (by left) || (by right). Defined.

(** What a [Read] returns: the bytes it stored and the error. *)
Definition read_result : Type := gostring * option io_error.

(** [Read] of a transport body: the next result, and EOF once it is exhausted. *)
Definition body_read (body : list read_result) : list read_result * read_result :=
  match body with
  | [] => ([], ([], Some io_EOF))
  | r :: body => (body, r)
  end.

(** ** [terminalResponseBody] *)

Record terminalResponseBody := {
  tb_body : list read_result;
  tb_expectedLength : Z;
  tb_bytesRead : Z;
  tb_outcome : option bool;  (* what [finish] was called with *)
}.

(** [finishOnce.Do] *)
Definition finishTerminal (b : terminalResponseBody) (complete : bool) : terminalResponseBody :=
  match tb_outcome b with
  | Some _ => b
  | None => {| tb_body := tb_body b; tb_expectedLength := tb_expectedLength b; tb_bytesRead := tb_bytesRead b;
               tb_outcome := Some complete |}
  end.

Definition terminal_read (b : terminalResponseBody) : terminalResponseBody * read_result :=
  let '(body, (bytes, err)) := body_read (tb_body b) in
  let read := tb_bytesRead b + len bytes in
  let b := {| tb_body := body; tb_expectedLength := tb_expectedLength b; tb_bytesRead := read; tb_outcome := tb_outcome b |} in
  if (0 <=? tb_expectedLength b) && (tb_expectedLength b <? read) then
    (finishTerminal b false, (bytes, match err with None => Some io_ErrUnexpectedEOF | Some e => Some e end))
  else
  match err with
  | None => (b, (bytes, None))
  | Some e =>
    if decide (e = io_EOF) then
      let complete := (tb_expectedLength b <? 0) || (read =? tb_expectedLength b) in
      (finishTerminal b complete, (bytes, Some (if complete then io_EOF else io_ErrUnexpectedEOF)))
    else (finishTerminal b false, (bytes, Some e))
  end.

Definition terminal_close (b : terminalResponseBody) : terminalResponseBody := finishTerminal b false.

(** ** Artifacts *)

Record FetchResult := {
  fr_Body : list read_result;
  fr_Size : Z;
  fr_StatusCode : Z;
  fr_ETag : gostring;
  fr_ContentRange : gostring;
  fr_ContentEncoding : gostring;
  fr_URL : gostring;
}.

Definition artifactResumeAttempts : Z := 2.

Definition strongArtifactETag (tag : gostring) : bool :=
  (2 <=? len tag) && bool_decide (head tag = Some 34) && bool_decide (last tag = Some 34)
  && forallb (fun c => negb ((c <? 0x21) || (c =? 34) || (c =? 0x7f))) (take (length tag - 2) (drop 1 tag)).

Section tables.
Context `{UnicodeTables}.

Definition identityEncoding (encoding : gostring) : bool := str_eqb encoding [] || equal_fold encoding (bs "identity").

(** The object of the source that is read, without its locks: one pump reads. *)
Record artifactBody := {
  ab_body : list read_result;
  ab_closed : bool;
  ab_size : Z;
  ab_offset : Z;
  ab_etag : gostring;
  ab_url : gostring;
  ab_resumable : bool;
  ab_attempts : Z;
  ab_pending : option io_error;
}.

(** The outside of one [Read]: whether the context has ended when [resume] starts, whether
    it ends during the delay of an attempt, what opening the range gives, and whether
    [Close] came in between. *)
Record resume_env := {
  re_done : bool;
  re_cancelled : Z -> bool;
  re_open : Z -> Z -> result FetchResult;
  re_closed : Z -> bool;
}.

Definition content_range (offset size : Z) : gostring :=
  bs "bytes " ++ format_int offset ++ bs "-" ++ format_int (size - 1) ++ bs "/" ++ format_int size.

(** The response continues the object at the offset. *)
Definition resume_matches (b : artifactBody) (next : FetchResult) : bool :=
  (fr_StatusCode next =? 206) && str_eqb (fr_ContentRange next) (content_range (ab_offset b) (ab_size b))
  && (fr_Size next =? ab_size b - ab_offset b) && str_eqb (fr_ETag next) (ab_etag b) && str_eqb (fr_URL next) (ab_url b)
  && identityEncoding (fr_ContentEncoding next).

Definition with_attempt (b : artifactBody) : artifactBody :=
  {| ab_body := ab_body b; ab_closed := ab_closed b; ab_size := ab_size b; ab_offset := ab_offset b; ab_etag := ab_etag b;
     ab_url := ab_url b; ab_resumable := ab_resumable b; ab_attempts := ab_attempts b + 1; ab_pending := ab_pending b |}.

Definition with_closed (b : artifactBody) : artifactBody :=
  {| ab_body := ab_body b; ab_closed := true; ab_size := ab_size b; ab_offset := ab_offset b; ab_etag := ab_etag b;
     ab_url := ab_url b; ab_resumable := ab_resumable b; ab_attempts := ab_attempts b; ab_pending := ab_pending b |}.

Definition with_next (b : artifactBody) (body : list read_result) : artifactBody :=
  {| ab_body := body; ab_closed := ab_closed b; ab_size := ab_size b; ab_offset := ab_offset b; ab_etag := ab_etag b;
     ab_url := ab_url b; ab_resumable := ab_resumable b; ab_attempts := ab_attempts b; ab_pending := None |}.

(** [artifactBody.Close] *)
Definition artifact_close (b : artifactBody) : artifactBody := if ab_closed b then b else with_closed b.

(** The loop of [resume]: [remaining] attempts are left. *)
Fixpoint resume_loop (remaining : nat) (env : resume_env) (b : artifactBody) (failure : io_error) : artifactBody * option io_error :=
  match remaining with
  | O => (b, Some failure)
  | S remaining =>
    let b := with_attempt b in
    if re_cancelled env (ab_attempts b) then (b, Some (io_other (Sentinel "context canceled"))) else
    match re_open env (ab_attempts b) (ab_offset b) with
    | Err e => resume_loop remaining env b (io_other e)
    | Ok next =>
      if negb (resume_matches b next)
      then (b, Some (io_other (Errorf "artifact resume rejected: object identity or byte range changed" [])))
      else if ab_closed b || re_closed env (ab_attempts b) then (with_closed b, Some io_ErrClosedPipe)
      else (with_next b (fr_Body next), None)
    end
  end.

Definition resume (env : resume_env) (b : artifactBody) (failure : io_error) : artifactBody * option io_error :=
  if negb (ab_resumable b) || (artifactResumeAttempts <=? ab_attempts b) || re_done env then (b, Some failure)
  else resume_loop (Z.to_nat (artifactResumeAttempts - ab_attempts b)) env b failure.

Definition with_read (b : artifactBody) (body : list read_result) (n : Z) : artifactBody :=
  {| ab_body := body; ab_closed := ab_closed b; ab_size := ab_size b; ab_offset := ab_offset b + n; ab_etag := ab_etag b;
     ab_url := ab_url b; ab_resumable := ab_resumable b; ab_attempts := ab_attempts b; ab_pending := ab_pending b |}.

Definition with_pending (b : artifactBody) (e : io_error) : artifactBody :=
  {| ab_body := ab_body b; ab_closed := ab_closed b; ab_size := ab_size b; ab_offset := ab_offset b; ab_etag := ab_etag b;
     ab_url := ab_url b; ab_resumable := ab_resumable b; ab_attempts := ab_attempts b; ab_pending := Some e |}.

Definition unexpected (e : io_error) : io_error := if decide (e = io_EOF) then io_ErrUnexpectedEOF else e.

(** [artifactBody.Read] of a non-empty buffer; [None] is running out of fuel. *)
Fixpoint artifact_read (fuel : nat) (env : resume_env) (b : artifactBody) : option (artifactBody * read_result) :=
  match fuel with
  | O => None
  | S fuel =>
    if ab_closed b then Some (b, ([], Some io_ErrClosedPipe)) else
    match ab_pending b with
    | Some failure =>
      match resume env b failure with
      | (b, Some e) => Some (b, ([], Some e))
      | (b, None) => artifact_read fuel env b
      end
    | None =>
      let '(body, (bytes, err)) := body_read (ab_body b) in
      let b := with_read b body (len bytes) in
      match err with
      | Some e =>
        if ab_offset b <? ab_size b then
          let b := with_pending b (unexpected e) in
          match bytes with [] => artifact_read fuel env b | _ => Some (b, (bytes, None)) end
        else Some (b, (bytes, err))
      | None => Some (b, (bytes, None))
      end
    end
  end.

Definition fetchArtifact (opened : result FetchResult) : result artifactBody :=
  match opened with
  | Err e => Err e
  | Ok r =>
    if negb (fr_StatusCode r =? 200) || negb (identityEncoding (fr_ContentEncoding r))
    then fail "artifact response is not a complete identity representation"
    else Ok {| ab_body := fr_Body r; ab_closed := false; ab_size := fr_Size r; ab_offset := 0; ab_etag := fr_ETag r;
               ab_url := fr_URL r;
               ab_resumable := (fr_StatusCode r =? 200) && (0 <? fr_Size r) && strongArtifactETag (fr_ETag r)
                               && identityEncoding (fr_ContentEncoding r);
               ab_attempts := 0; ab_pending := None |}
  end.

(** ** The outcome of an exchange *)

Inductive body_op := op_read | op_close.

Definition run_body (b : terminalResponseBody) (op : body_op) : terminalResponseBody :=
  match op with op_read => (terminal_read b).1 | op_close => terminal_close b end.

Definition run_body_ops (b : terminalResponseBody) (ops : list body_op) : terminalResponseBody := fold_left run_body ops b.

(** What a sequence of results means for an exchange that expects so many bytes: [None]
    when it has not ended. *)
Fixpoint outcome_of (expected read : Z) (results : list (option read_result)) : option bool :=
  match results with
  | [] => None
  | None :: _ => Some false
  | Some (bytes, err) :: results =>
    let read := read + len bytes in
    if (0 <=? expected) && (expected <? read) then Some false else
    match err with
    | None => outcome_of expected read results
    | Some io_EOF => Some ((expected <? 0) || (read =? expected))
    | Some _ => Some false
    end
  end.

(** The results the calls see: [None] is a [Close]. *)
Fixpoint observed_results (body : list read_result) (ops : list body_op) : list (option read_result) :=
  match ops with
  | [] => []
  | op_close :: ops => None :: observed_results body ops
  | op_read :: ops => let '(body, r) := body_read body in Some r :: observed_results body ops
  end.

Lemma finishTerminal_kept b complete outcome : tb_outcome b = Some outcome -> finishTerminal b complete = b.
Proof. unfold finishTerminal. by intros ->. Qed.

Lemma terminal_outcome_kept b op outcome : tb_outcome b = Some outcome -> tb_outcome (run_body b op) = Some outcome.
Proof.
  intros Ho. destruct op; simpl; unfold terminal_read, terminal_close; [|by rewrite (finishTerminal_kept _ _ _ Ho)].
  destruct (body_read (tb_body b)) as [body [bytes err]].
  repeat case_match; simpl; rewrite ?(finishTerminal_kept (Build_terminalResponseBody _ _ _ _) _ outcome) by done; done.
Qed.

Lemma terminal_outcome_final b ops outcome : tb_outcome b = Some outcome -> tb_outcome (run_body_ops b ops) = Some outcome.
Proof.
  revert b; induction ops as [|op ops IH]; intros b Ho; [done|]. apply IH. by apply terminal_outcome_kept.
Qed.

(** An exchange is reported once and truthfully: whatever reads and closes follow each
    other, the outcome is the one of the first event that ends the exchange - complete
    exactly when the end of the body is reached, before any close, with the announced
    number of bytes (or an unannounced one); a close, a read error, too few or too many
    bytes make it incomplete, and nothing that happens later changes it. *)
Theorem exchange_reported_once body expected ops :
  tb_outcome (run_body_ops {| tb_body := body; tb_expectedLength := expected; tb_bytesRead := 0; tb_outcome := None |} ops)
  = outcome_of expected 0 (observed_results body ops).
Proof.
  generalize 0 as read. revert body. induction ops as [|op ops IH]; intros body read; [done|].
  destruct op; cbn [observed_results].
  - destruct (body_read body) as [body' [bytes err]] eqn:Hb. cbn [outcome_of].
    change (run_body_ops ?b (op_read :: ops)) with (run_body_ops (terminal_read b).1 ops).
    unfold terminal_read. cbn [tb_body tb_expectedLength tb_bytesRead tb_outcome]. rewrite Hb.
    destruct ((0 <=? expected) && (expected <? read + len bytes)); [by apply terminal_outcome_final|].
    destruct err as [[]|]; [by apply terminal_outcome_final..|]. apply IH.
  - change (run_body_ops ?b (op_close :: ops)) with (run_body_ops (terminal_close b) ops).
    by apply terminal_outcome_final.
Qed.

(** ** Resumed artifacts *)

(** Enough for every read: two resumptions, each behind a read without bytes. *)
Definition read_fuel : nat := 6.

Fixpoint run_reads (envs : list resume_env) (b : artifactBody) : option (artifactBody * list read_result) :=
  match envs with
  | [] => Some (b, [])
  | env :: envs =>
    match artifact_read read_fuel env b with
    | None => None
    | Some (b, r) => match run_reads envs b with Some (b, rs) => Some (b, r :: rs) | None => None end
    end
  end.

Definition delivered (rs : list read_result) : gostring := concat rs.*1.

(** A response for the same object, as a strong entity tag and the range name it,
    carries the bytes of the object from the offset on, or the first of them. *)
Definition honest (obj etag url : gostring) (env : resume_env) : Prop :=
  forall attempt offset next,
    re_open env attempt offset = Ok next -> 0 <= offset <= len obj ->
    fr_StatusCode next = 206 -> fr_ETag next = etag -> fr_URL next = url -> fr_ContentRange next = content_range offset (len obj) ->
    delivered (fr_Body next) `prefix_of` drop (Z.to_nat offset) obj.

Record artifact_inv (obj etag url : gostring) (b : artifactBody) (got : gostring) : Prop := {
  ai_got : got `prefix_of` obj;
  ai_offset : ab_offset b = len got;
  ai_size : ab_size b = len obj;
  ai_tag : ab_etag b = etag /\ ab_url b = url;
  ai_attempts : 0 <= ab_attempts b <= artifactResumeAttempts;
  ai_pending : ab_pending b <> Some io_EOF;
  ai_body : ab_pending b = None -> delivered (ab_body b) `prefix_of` drop (length got) obj;
}.

Lemma resume_loop_ok obj etag url env got remaining b failure b' err :
  honest obj etag url env -> artifact_inv obj etag url b got -> failure <> io_EOF ->
  Z.of_nat remaining + ab_attempts b <= artifactResumeAttempts ->
  resume_loop remaining env b failure = (b', err) ->
  artifact_inv obj etag url b' got /\ err <> Some io_EOF.
Proof.
  intros Henv. revert b failure; induction remaining as [|remaining IH]; intros b failure Hinv Hf Hr; cbn [resume_loop].
  { intros [= <- <-]. split; [done|congruence]. }
  assert (artifact_inv obj etag url (with_attempt b) got) as Hinv'.
  { destruct Hinv. constructor; simpl; try done. lia. }
  destruct (re_cancelled env _); [intros [= <- <-]; split_and!; try done|].
  destruct (re_open env _ _) as [next|e] eqn:Hopen.
  - destruct (resume_matches (with_attempt b) next) eqn:Hm; cbn [negb]; [|intros [= <- <-]; split_and!; try done].
    destruct (_ || re_closed env _).
    { intros [= <- <-]. split_and!; try done. by destruct Hinv'. }
    intros [= <- <-]. split; [|done].
    destruct Hinv' as [Hgot Hoff Hsize [Htag Hurl] Hatt Hpend Hbody]. constructor; try done.
    intros _. simpl in *. unfold resume_matches in Hm. rewrite !andb_true_iff in Hm.
    destruct Hm as [[[[[H1%Z.eqb_eq H2%str_eqb_eq] _] H3%str_eqb_eq] H4%str_eqb_eq] _]. simpl in *.
    replace (length got) with (Z.to_nat (ab_offset b)) by (rewrite Hoff; unfold len; lia).
    eapply Henv; [exact Hopen| |done|congruence|congruence|congruence].
    rewrite Hoff. apply prefix_length in Hgot. unfold len. lia.
  - intros Hl. apply IH in Hl as (? & ?); [done|done|done|simpl; lia].
Qed.

Lemma resume_ok obj etag url env got b failure b' err :
  honest obj etag url env -> artifact_inv obj etag url b got -> failure <> io_EOF ->
  resume env b failure = (b', err) ->
  artifact_inv obj etag url b' got /\ err <> Some io_EOF.
Proof.
  intros Henv Hinv Hf. unfold resume. destruct (_ || _ || _) eqn:E; [intros [= <- <-]; split; congruence|].
  rewrite !orb_false_iff in E. destruct E as [[_ E%Z.leb_gt] _]. apply resume_loop_ok; try done.
  destruct Hinv as [_ _ _ _ ? _ _]. lia.
Qed.

Lemma prefix_app_drop (obj got a b : gostring) :
  got `prefix_of` obj -> (a ++ b) `prefix_of` drop (length got) obj ->
  (got ++ a) `prefix_of` obj /\ b `prefix_of` drop (length (got ++ a)) obj.
Proof.
  intros [rest ->] Hp. rewrite drop_app_length in Hp. destruct Hp as [tail ->]. split.
  - exists (b ++ tail). by rewrite <- !app_assoc.
  - rewrite length_app, <- drop_drop, drop_app_length, <- app_assoc, drop_app_length. by exists tail.
Qed.

Lemma artifact_read_ok obj etag url env fuel b got b' bytes err :
  honest obj etag url env -> artifact_inv obj etag url b got ->
  artifact_read fuel env b = Some (b', (bytes, err)) ->
  artifact_inv obj etag url b' (got ++ bytes) /\ (err = Some io_EOF -> got ++ bytes = obj).
Proof.
  intros Henv. revert b; induction fuel as [|fuel IH]; intros b Hinv; cbn [artifact_read]; [done|].
  destruct (ab_closed b); [intros [= <- <- <-]; rewrite app_nil_r; by split|].
  destruct (ab_pending b) as [failure|] eqn:Hp.
  - assert (failure <> io_EOF) as Hf by (intros ->; by apply (ai_pending _ _ _ _ _ Hinv)).
    destruct (resume env b failure) as [b1 [e|]] eqn:Hr; apply (resume_ok _ _ _ _ _ _ _ _ _ Henv Hinv Hf) in Hr as (Hinv1 & He).
    + intros [= <- <- <-]. rewrite app_nil_r. by split.
    + by apply IH.
  - destruct (body_read (ab_body b)) as [body [chunk e]] eqn:Hb.
    assert (delivered (ab_body b) = chunk ++ delivered body) as Hd.
    { unfold body_read in Hb. by destruct (ab_body b) as [|[x y] rest]; injection Hb as <- <- <-. }
    destruct Hinv as [Hgot Hoff Hsize Htag Hatt Hpend Hbody]. specialize (Hbody Hp). rewrite Hd in Hbody.
    destruct (prefix_app_drop _ _ _ _ Hgot Hbody) as [Hgot' Hrest].
    assert (artifact_inv obj etag url (with_read b body (len chunk)) (got ++ chunk)) as Hread.
    { constructor; simpl; try done. rewrite Hoff. unfold len. rewrite length_app. lia. }
    destruct e as [e|]; [|intros [= <- <- <-]; by split].
    destruct (Z.ltb_spec (ab_offset (with_read b body (len chunk))) (ab_size (with_read b body (len chunk)))) as [Hlt|Hge].
    + assert (artifact_inv obj etag url (with_pending (with_read b body (len chunk)) (unexpected e)) (got ++ chunk)) as Hpending.
      { destruct Hread. constructor; simpl; try done. unfold unexpected. destruct (decide (e = io_EOF)); congruence. }
      destruct chunk as [|c chunk].
      * rewrite app_nil_r in *. by apply IH.
      * intros [= <- <- <-]. by split.
    + intros [= <- <- <-]. split; [done|]. intros _. rewrite (ai_size _ _ _ _ _ Hread), (ai_offset _ _ _ _ _ Hread) in Hge.
      destruct Hgot' as [rest Hobj]. rewrite Hobj in Hge. unfold len in Hge. rewrite length_app in Hge.
      destruct rest; simpl in Hge; [by rewrite Hobj, app_nil_r | lia].
Qed.

(** A successful resumption uses up attempts, so the fuel is enough. *)
Lemma resume_loop_progress env remaining b failure b' :
  resume_loop remaining env b failure = (b', None) -> ab_attempts b < ab_attempts b' /\ ab_pending b' = None.
Proof.
  revert b failure; induction remaining as [|remaining IH]; intros b failure; cbn [resume_loop]; [done|].
  destruct (re_cancelled env _); [done|]. destruct (re_open env _ _) as [next|e].
  - destruct (negb _); [done|]. destruct (_ || _); [done|]. intros [= <-]. simpl. split; [lia|done].
  - intros Hl. apply IH in Hl as [? ?]. simpl in *. split; [lia|done].
Qed.

Lemma resume_progress env b failure b' :
  resume env b failure = (b', None) ->
  ab_attempts b < artifactResumeAttempts /\ ab_attempts b < ab_attempts b' /\ ab_pending b' = None.
Proof.
  unfold resume. destruct (_ || _ || _) eqn:E; [done|]. rewrite !orb_false_iff in E.
  destruct E as [[_ E%Z.leb_gt] _]. intros Hl. split; [done|]. by apply resume_loop_progress in Hl.
Qed.

Lemma artifact_read_total env b fuel :
  2 * Z.max 0 (artifactResumeAttempts - ab_attempts b) + (match ab_pending b with Some _ => 1 | None => 2 end) <= Z.of_nat fuel ->
  is_Some (artifact_read fuel env b).
Proof.
  revert b; induction fuel as [|fuel IH]; intros b Hfuel; cbn [artifact_read]; [by destruct (ab_pending b); lia|].
  destruct (ab_closed b); [by eexists|]. destruct (ab_pending b) as [failure|] eqn:Hp.
  - destruct (resume env b failure) as [b1 [e|]] eqn:Hr; [by eexists|]. apply resume_progress in Hr as (H1 & H2 & H3).
    apply IH. rewrite H3. lia.
  - destruct (body_read (ab_body b)) as [body [chunk e]]. destruct e as [e|]; [|by eexists].
    destruct (_ <? _); [|by eexists]. destruct chunk; [|by eexists]. apply IH. simpl. lia.
Qed.

Lemma run_reads_ok obj etag url envs b got :
  Forall (honest obj etag url) envs -> artifact_inv obj etag url b got ->
  exists b' rs, run_reads envs b = Some (b', rs) /\ artifact_inv obj etag url b' (got ++ delivered rs)
    /\ (Some io_EOF ∈ rs.*2 -> got ++ delivered rs = obj).
Proof.
  intros Hall. revert b got; induction Hall as [|env envs Henv _ IH]; intros b got Hinv; cbn [run_reads].
  - exists b, []. unfold delivered. rewrite app_nil_r. split_and!; try done. by intros ?%elem_of_nil.
  - destruct (artifact_read_total env b read_fuel) as [[b1 [bytes err]] Hr].
    { destruct (ai_attempts _ _ _ _ _ Hinv). unfold read_fuel, artifactResumeAttempts in *. destruct (ab_pending b); lia. }
    rewrite Hr. apply (artifact_read_ok _ _ _ _ _ _ _ _ _ _ Henv Hinv) in Hr as [Hinv1 Heof].
    destruct (IH _ _ Hinv1) as (b' & rs & -> & Hinv' & Heof'). exists b', ((bytes, err) :: rs).
    change (delivered ((bytes, err) :: rs)) with (bytes ++ delivered rs). rewrite app_assoc. split_and!; try done.
    rewrite fmap_cons, elem_of_cons. intros [Herr|Hin]; [|by apply Heof'].
    pose proof (ai_got _ _ _ _ _ Hinv') as [rest Hobj]. rewrite (Heof (eq_sym Herr)) in *.
    rewrite <- (app_nil_r obj) in Hobj at 1. rewrite <- app_assoc in Hobj. apply app_inv_head in Hobj.
    symmetry in Hobj. apply app_eq_nil in Hobj as [-> _]. by rewrite app_nil_r.
Qed.

(** C32: A resumed artifact is the artifact.  Whatever interruptions happen, and whatever
    the source answers to the attempts to continue - as long as responses that carry the
    strong entity tag, URL and exact range of the object carry its bytes - every read
    terminates, what the reads deliver together is the beginning of the object, nothing
    repeated and nothing skipped, the end of the file is only reported behind its last
    byte, and at most two requests are made to continue. *)
Theorem resumed_artifact_exact obj r b envs :
  fetchArtifact (Ok r) = Ok b -> fr_Size r = len obj -> delivered (fr_Body r) `prefix_of` obj ->
  Forall (honest obj (fr_ETag r) (fr_URL r)) envs ->
  exists b' rs, run_reads envs b = Some (b', rs) /\ delivered rs `prefix_of` obj
    /\ (Some io_EOF ∈ rs.*2 -> delivered rs = obj) /\ ab_attempts b' <= artifactResumeAttempts.
Proof.
  unfold fetchArtifact. destruct (_ || _); [done|]. intros [= <-] Hsize Hbody Henvs.
  edestruct (run_reads_ok obj (fr_ETag r) (fr_URL r) envs) with (got := @nil Z) as (b' & rs & Hrun & Hinv & Heof);
    [exact Henvs| |exists b', rs; split_and!; try done].
  - constructor; simpl; try done. apply prefix_nil.
  - apply (ai_got _ _ _ _ _ Hinv).
  - apply (ai_attempts _ _ _ _ _ Hinv).
Qed.

End tables.

Section examples.
#[local] Existing Instance ascii_tables.

Definition sample_object : gostring := bs "artifact".
Definition sample_etag : gostring := [34; 118; 49; 34].

(** Three bytes arrive, the connection breaks, and the rest is asked for. *)
Definition sample_response : FetchResult :=
  {| fr_Body := [(bs "art", None); ([], Some (io_other (Sentinel "connection reset")))]; fr_Size := 8; fr_StatusCode := 200;
     fr_ETag := sample_etag; fr_ContentRange := []; fr_ContentEncoding := []; fr_URL := bs "https://mirror.example/a" |}.

Definition sample_env : resume_env :=
  {| re_done := false; re_cancelled := fun _ => false;
     re_open := fun attempt offset =>
       Ok {| fr_Body := [(drop (Z.to_nat offset) sample_object, None)]; fr_Size := 8 - offset; fr_StatusCode := 206;
             fr_ETag := sample_etag; fr_ContentRange := content_range offset 8; fr_ContentEncoding := [];
             fr_URL := bs "https://mirror.example/a" |};
     re_closed := fun _ => false |}.

Lemma resumed_artifact_exact_witness :
  match fetchArtifact (Ok sample_response) with
  | Err _ => False
  | Ok b =>
    exists b' rs, run_reads [sample_env; sample_env; sample_env] b = Some (b', rs)
      /\ rs = [(bs "art", None); (bs "ifact", None); ([], Some io_EOF)]
      /\ delivered rs `prefix_of` sample_object /\ (Some io_EOF ∈ rs.*2 -> delivered rs = sample_object)
      /\ ab_attempts b' <= artifactResumeAttempts
  end.
Proof.
  destruct (fetchArtifact (Ok sample_response)) as [b|] eqn:Hb; [|vm_compute in Hb; discriminate Hb].
  assert (honest sample_object (fr_ETag sample_response) (fr_URL sample_response) sample_env) as Henv.
  { intros attempt offset next [= <-] _ _ _ _ _. cbn [fr_Body]. unfold delivered. simpl. by rewrite app_nil_r. }
  destruct (resumed_artifact_exact sample_object sample_response b [sample_env; sample_env; sample_env] Hb eq_refl)
    as (b' & rs & Hrun & Hp & He & Ha).
  - exists (bs "ifact"). reflexivity.
  - by repeat constructor.
  - exists b', rs. split; [exact Hrun|]. split; [|done].
    vm_compute in Hb. injection Hb as <-. vm_compute in Hrun. injection Hrun as _ <-. reflexivity.
Defined.

End examples.
