(* ===== verification/ArtifactKey.v ===== *)
(** * Identities of compiler artifacts (internal/compilecache/key.go)

    Namespaces, the keys of ccache and sccache and their URL layouts, and the paths under
    which the generations of an artifact are stored. *)

From stdpp Require Import gmap.
From S2P Require Export GoTrim Sha256.

Definition ErrInvalidKey : error := Sentinel "invalid compiler-cache key".
Definition ErrInvalidNamespace : error := Sentinel "invalid compile-cache namespace".
Definition ErrInvalidProtocol : error := Sentinel "invalid compile-cache protocol".

Definition ProtocolCCache : gostring := bs "ccache".
Definition ProtocolSCCache : gostring := bs "sccache".

Record ArtifactID := { id_protocol : gostring; id_namespace : gostring; id_key : gostring }.

#[global] Instance ArtifactID_eq_dec : EqDecision ArtifactID.
Proof. solve_decision. Defined.
#[global] Instance ArtifactID_countable : Countable ArtifactID.
Proof.
  apply (inj_countable' (fun id => (id_protocol id, id_namespace id, id_key id))
           (fun t => {| id_protocol := t.1.1; id_namespace := t.1.2; id_key := t.2 |})).
  by intros [].
Defined.

(** ** Namespaces *)

Definition namespace_edge (c : Z) : bool := in_range 97 122 c || in_range 48 57 c.
Definition namespace_middle (c : Z) : bool := namespace_edge c || mem c (bs "._-").

(** [^[a-z0-9](?:[a-z0-9._-]{0,62}[a-z0-9])?$] *)
Definition namespacePattern (s : gostring) : bool :=
  match s with
  | [] => false
  | c :: rest =>
    namespace_edge c
    && match rest with
       | [] => true
       | _ :: _ => (length rest <=? 63)%nat && forallb namespace_middle (removelast rest) && namespace_edge (List.last rest 0)
       end
  end.

Definition NormalizeNamespace (raw : gostring) : result gostring :=
  let namespace := trim_space raw in
  if namespacePattern namespace then Ok namespace
  else Err (Errorf "%w: use 1-64 lowercase letters, digits, '.', '_' or '-'" [ErrInvalidNamespace]).

(** ** Keys *)

Definition lower_hex (c : Z) : bool := in_range 48 57 c || in_range 97 102 c.
Definition base32hex (c : Z) : bool := in_range 48 57 c || in_range 97 118 c.

(** The loops go over runes: one that is not ASCII is beyond every letter. *)
Definition ParseHTTPKey (raw : gostring) : result gostring :=
  let path := if has_prefix raw (bs "/") then drop 1 raw else raw in
  let key := match path with a :: b :: c :: rest => if c =? ch "/" then a :: b :: rest else path | _ => path end in
  if Nat.eqb (length key) 40 then
    if forallb lower_hex key then Ok key else Err (Errorf "%w: modern keys must be lowercase hexadecimal" [ErrInvalidKey])
  else if Nat.eqb (length key) 33 then
    if forallb lower_hex (take 4 key) && forallb base32hex (drop 4 key) then Ok key
    else Err (Errorf "%w: legacy keys must use lowercase base32hex characters" [ErrInvalidKey])
  else Err (Errorf "%w: expected a 33-character legacy or 40-character modern key" [ErrInvalidKey]).

Definition ParseSCCacheKey (raw : gostring) : result gostring :=
  let path := if has_prefix raw (bs "/") then drop 1 raw else raw in
  match strings_split path (ch "/") with
  | [p0; p1; p2; key] =>
    if negb (Nat.eqb (length p0) 1 && Nat.eqb (length p1) 1 && Nat.eqb (length p2) 1 && Nat.eqb (length key) 64)
    then Err (Errorf "%w: expected a/b/c/<64 lowercase hexadecimal characters>" [ErrInvalidKey])
    else if negb (forallb lower_hex key) then Err (Errorf "%w: sccache keys must be lowercase hexadecimal" [ErrInvalidKey])
    else if negb (str_eqb (p0 ++ p1 ++ p2) (take 3 key)) then Err (Errorf "%w: sccache directory prefix does not match the key" [ErrInvalidKey])
    else Ok key
  | _ => Err (Errorf "%w: expected a/b/c/<64 lowercase hexadecimal characters>" [ErrInvalidKey])
  end.

Definition NewArtifactID (protocol namespace key : gostring) : result ArtifactID :=
  match NormalizeNamespace namespace with
  | Err e => Err e
  | Ok normalizedNamespace =>
    let id := {| id_protocol := protocol; id_namespace := normalizedNamespace; id_key := key |} in
    if str_eqb protocol ProtocolCCache then
      match ParseHTTPKey key with
      | Err e => Err e
      | Ok parsed => if str_eqb parsed key then Ok id else Err ErrInvalidKey
      end
    else if str_eqb protocol ProtocolSCCache then
      if negb (Nat.eqb (length key) 64) then Err (Errorf "%w: expected a 64-character sccache key" [ErrInvalidKey])
      else if forallb lower_hex key then Ok id else Err (Errorf "%w: sccache keys must be lowercase hexadecimal" [ErrInvalidKey])
    else Err (Errorf "%w: %q" [ErrInvalidProtocol])
  end.

(** [ArtifactID.validate]: the error. *)
Definition validate (id : ArtifactID) : option error :=
  match NewArtifactID (id_protocol id) (id_namespace id) (id_key id) with
  | Err e => Some e
  | Ok validated => if bool_decide (validated = id) then None else Some ErrInvalidKey
  end.

Definition ParseCCacheArtifact (namespace rawKey : gostring) : result ArtifactID :=
  match ParseHTTPKey rawKey with Err e => Err e | Ok key => NewArtifactID ProtocolCCache namespace key end.

Definition ParseSCCacheArtifact (namespace rawPath : gostring) : result ArtifactID :=
  match ParseSCCacheKey rawPath with Err e => Err e | Ok key => NewArtifactID ProtocolSCCache namespace key end.

(** ** Paths *)

Definition key_directories (id : ArtifactID) : gostring := bs "/objects/" ++ take 2 (id_key id) ++ bs "/" ++ drop 2 (id_key id) ++ bs "/".
Definition object_prefix (id : ArtifactID) : gostring := bs "v1/" ++ id_protocol id ++ bs "/" ++ id_namespace id ++ key_directories id.
Definition legacy_prefix (id : ArtifactID) : gostring := bs "v1/" ++ id_namespace id ++ key_directories id.

(** The paths [newObjectPath] and [newProbeObjectPath] make of 16 random bytes. *)
Definition object_path (id : ArtifactID) (generation : gostring) : gostring := object_prefix id ++ hex_encode generation.
Definition probe_path (generation : gostring) : gostring := bs "v1/probes/" ++ hex_encode generation.

Definition objectPathMatchesArtifact (id : ArtifactID) (storagePath : gostring) : bool :=
  has_prefix storagePath (object_prefix id) || (str_eqb (id_protocol id) ProtocolCCache && has_prefix storagePath (legacy_prefix id)).

(** [cacheIdentity], the name of the lock of an artifact. *)
Definition cacheIdentityParts (protocol namespace key : gostring) : gostring := protocol ++ [0] ++ namespace ++ [0] ++ key.
Definition cacheIdentity (id : ArtifactID) : gostring := cacheIdentityParts (id_protocol id) (id_namespace id) (id_key id).

(** ** Theory *)

(** *** Which identities are valid *)

Definition valid_namespace (s : gostring) : Prop := trim_space s = s /\ namespacePattern s = true.

Definition valid_key (protocol key : gostring) : Prop :=
  (protocol = ProtocolCCache /\ ParseHTTPKey key = Ok key)
  \/ (protocol = ProtocolSCCache /\ length key = 64%nat /\ forallb lower_hex key = true).

Lemma validate_None id : validate id = None <-> valid_namespace (id_namespace id) /\ valid_key (id_protocol id) (id_key id).
Proof.
  unfold validate, NewArtifactID, NormalizeNamespace, valid_namespace, valid_key. destruct id as [protocol namespace key]. cbn [id_protocol id_namespace id_key].
  destruct (namespacePattern (trim_space namespace)) eqn:En.
  2: { split; [done|]. intros [[Hs Hp] _]. rewrite Hs in En. congruence. }
  destruct (str_eqb protocol ProtocolCCache) eqn:Ec.
  - apply str_eqb_eq in Ec as ->. destruct (ParseHTTPKey key) as [parsed|e] eqn:Ek.
    + destruct (str_eqb parsed key) eqn:Ep.
      * apply str_eqb_eq in Ep as ->. destruct (bool_decide_reflect ({| id_protocol := ProtocolCCache; id_namespace := trim_space namespace; id_key := key |}
          = {| id_protocol := ProtocolCCache; id_namespace := namespace; id_key := key |})) as [Heq|Hne].
        -- injection Heq as Heq. rewrite Heq in *. split; [intros _; by auto|done].
        -- split; [done|]. intros [[Hs _] _]. by rewrite Hs in Hne.
      * split; [done|]. intros [_ [[_ Hk]|[Hk _]]]; [injection Hk as ->; by rewrite str_eqb_refl in Ep|done].
    + split; [done|]. intros [_ [[_ Hk]|[Hk _]]]; done.
  - destruct (str_eqb protocol ProtocolSCCache) eqn:Es.
    + apply str_eqb_eq in Es as ->. destruct (Nat.eqb (length key) 64) eqn:El; cbn [negb].
      2: { apply Nat.eqb_neq in El. split; [done|]. intros [_ [[Hk _]|(_ & Hk & _)]]; done. }
      apply Nat.eqb_eq in El. destruct (forallb lower_hex key) eqn:Eh.
      * destruct (bool_decide_reflect ({| id_protocol := ProtocolSCCache; id_namespace := trim_space namespace; id_key := key |}
          = {| id_protocol := ProtocolSCCache; id_namespace := namespace; id_key := key |})) as [Heq|Hne].
        -- injection Heq as Heq. rewrite Heq in *. split; [intros _; by auto|done].
        -- split; [done|]. intros [[Hs _] _]. by rewrite Hs in Hne.
      * split; [done|]. intros [_ [[Hk _]|(_ & _ & Hk)]]; done.
    + apply str_eqb_neq in Ec, Es. split; [done|]. intros [_ [[Hk _]|[Hk _]]]; done.
Qed.
