(* ===== verification/Checksum.v ===== *)
(** * Verified downloads (internal/compilecache/service.go: checksumVerifyingBody, boundedEntryBody)

    The body of a compiler artifact holds back its last bytes until the whole object has the
    checksum it was committed with, and gives its download slot back once. *)

From S2P Require Export ArtifactKey.

Definition EOF : error := Sentinel "EOF".
Definition ErrNoProgress : error := Sentinel "multiple Read calls return no data or error".
Definition ErrChecksumMismatch : error := Sentinel "compile-cache artifact checksum mismatch".

Definition checksumHoldbackBytes : nat := Z.to_nat (Z.shiftl 32 10).

Definition checksum_of (content : gostring) : gostring := hex_encode (sha256 content).

(** What the reads of a file or a response give, one after the other; then they give [io.EOF]. *)
Definition source : Type := list (gostring * option error).

Definition is_eof (e : error) : bool := errors_is e "EOF".

(** [cb_hashed] is what the hasher has seen; [cb_reported] whether [onMismatch] was called. *)
Record checksumVerifyingBody := {
  cb_body : source;
  cb_hashed : gostring;
  cb_expected : gostring;
  cb_pending : gostring;
  cb_reachedEOF : bool;
  cb_verified : bool;
  cb_terminal : option error;
  cb_reported : bool;
}.

Definition newChecksumVerifyingBody (body : source) (expected : gostring) : checksumVerifyingBody :=
  {| cb_body := body; cb_hashed := []; cb_expected := expected; cb_pending := []; cb_reachedEOF := false; cb_verified := false;
     cb_terminal := None; cb_reported := false |}.

Definition with_pending (pending : gostring) (b : checksumVerifyingBody) : checksumVerifyingBody :=
  {| cb_body := cb_body b; cb_hashed := cb_hashed b; cb_expected := cb_expected b; cb_pending := pending;
     cb_reachedEOF := cb_reachedEOF b; cb_verified := cb_verified b; cb_terminal := cb_terminal b; cb_reported := cb_reported b |}.

(** The end of the stream: [body.pending = nil; body.terminal = e]. *)
Definition ended (e : error) (b : checksumVerifyingBody) : checksumVerifyingBody :=
  {| cb_body := cb_body b; cb_hashed := cb_hashed b; cb_expected := cb_expected b; cb_pending := []; cb_reachedEOF := cb_reachedEOF b;
     cb_verified := cb_verified b; cb_terminal := Some e; cb_reported := cb_reported b |}.

Definition reported (b : checksumVerifyingBody) : checksumVerifyingBody :=
  {| cb_body := cb_body b; cb_hashed := cb_hashed b; cb_expected := cb_expected b; cb_pending := cb_pending b;
     cb_reachedEOF := cb_reachedEOF b; cb_verified := cb_verified b; cb_terminal := cb_terminal b; cb_reported := true |}.

Definition verified_now (b : checksumVerifyingBody) : checksumVerifyingBody :=
  {| cb_body := cb_body b; cb_hashed := cb_hashed b; cb_expected := cb_expected b; cb_pending := cb_pending b;
     cb_reachedEOF := cb_reachedEOF b; cb_verified := true; cb_terminal := cb_terminal b; cb_reported := cb_reported b |}.

(** One read of the underlying body. *)
Definition pulled (data : gostring) (eof : bool) (rest : source) (b : checksumVerifyingBody) : checksumVerifyingBody :=
  {| cb_body := rest; cb_hashed := cb_hashed b ++ data; cb_expected := cb_expected b; cb_pending := cb_pending b ++ data;
     cb_reachedEOF := cb_reachedEOF b || eof; cb_verified := cb_verified b; cb_terminal := cb_terminal b; cb_reported := cb_reported b |}.

Definition served (n : nat) (b : checksumVerifyingBody) : gostring * option error * checksumVerifyingBody :=
  (take n (cb_pending b), None, with_pending (drop n (cb_pending b)) b).

(** The turn of the loop once the end is reached. *)
Definition serve_verified (n : nat) (b : checksumVerifyingBody) : gostring * option error * checksumVerifyingBody :=
  if negb (cb_verified b) && negb (str_eqb (checksum_of (cb_hashed b)) (cb_expected b))
  then ([], Some ErrChecksumMismatch, reported (ended ErrChecksumMismatch (verified_now b)))
  else
    let b := verified_now b in
    match cb_pending b with
    | [] => ([], Some EOF, ended EOF b)
    | _ :: _ => served n b
    end.

(** The loop of [Read]; every other turn takes one read of the body. *)
Fixpoint read_loop (n : nat) (reads : source) (b : checksumVerifyingBody) : gostring * option error * checksumVerifyingBody :=
  if cb_reachedEOF b then serve_verified n b
  else if (checksumHoldbackBytes <? length (cb_pending b))%nat
  then served (Nat.min (length (cb_pending b) - checksumHoldbackBytes) n) b
  else
    match reads with
    | [] => serve_verified n (pulled [] true [] b)
    | (data, err) :: rest =>
      match err with
      | Some e =>
        if is_eof e then serve_verified n (pulled data true rest b)
        else ([], Some e, ended e (pulled data false rest b))
      | None =>
        match data with
        | [] => ([], Some ErrNoProgress, ended ErrNoProgress (pulled [] false rest b))
        | _ :: _ => read_loop n rest (pulled data false rest b)
        end
      end
    end.

(** [checksumVerifyingBody.Read] into a buffer of [n] bytes. *)
Definition Read (n : nat) (b : checksumVerifyingBody) : gostring * option error * checksumVerifyingBody :=
  match n with
  | O => ([], None, b)
  | S _ =>
    match cb_terminal b with
    | Some e => ([], Some e, b)
    | None => read_loop n (cb_body b) b
    end
  end.

(** A client that reads with buffers of these sizes until an error: what it gets, and the
    error. *)
Fixpoint read_all (sizes : list nat) (b : checksumVerifyingBody) : gostring * option error * checksumVerifyingBody :=
  match sizes with
  | [] => ([], None, b)
  | n :: sizes =>
    let '(data, err, b) := Read n b in
    match err with
    | Some e => (data, Some e, b)
    | None => let '(rest, err, b) := read_all sizes b in (data ++ rest, err, b)
    end
  end.

(** ** [boundedEntryBody] *)

(** How often the slot was released and the file closed. *)
Record boundedEntryBody := { be_body : checksumVerifyingBody; be_released : nat; be_closed : nat }.

Definition releaseSlot (b : boundedEntryBody) : boundedEntryBody :=
  {| be_body := be_body b; be_released := if Nat.eqb (be_released b) 0 then 1 else be_released b; be_closed := be_closed b |}.

Definition bounded_Read (n : nat) (b : boundedEntryBody) : gostring * option error * boundedEntryBody :=
  let '(data, err, body) := Read n (be_body b) in
  let b := {| be_body := body; be_released := be_released b; be_closed := be_closed b |} in
  (data, err, match err with Some _ => releaseSlot b | None => b end).

Definition bounded_Close (b : boundedEntryBody) : boundedEntryBody :=
  let b := releaseSlot b in
  {| be_body := be_body b; be_released := be_released b; be_closed := if Nat.eqb (be_closed b) 0 then 1 else be_closed b |}.

(** ** Theory *)

(** The bytes before the end of the source, and how the source ends. *)
Fixpoint content_of (reads : source) : gostring :=
  match reads with
  | [] => []
  | (data, err) :: rest => data ++ match err with Some _ => [] | None => content_of rest end
  end.

(** A read that fails, or gives nothing. *)
Definition broken (r : gostring * option error) : Prop := match r.2 with Some e => is_eof e = false | None => r.1 = [] end.

Section stream.
Context (src : source) (expected : gostring).

(** What has been delivered and what is pending are what was hashed, which with the rest of
    the source is the content; bytes are only given out while more are held back. *)
Record streaming (delivered : gostring) (b : checksumVerifyingBody) : Prop := {
  st_source : exists pre, src = pre ++ cb_body b;
  st_expected : cb_expected b = expected;
  st_hashed : cb_hashed b = delivered ++ cb_pending b;
  st_content : content_of src = cb_hashed b ++ (if cb_reachedEOF b then [] else content_of (cb_body b));
  st_verified : cb_verified b = true -> cb_reachedEOF b = true /\ checksum_of (cb_hashed b) = expected;
  st_held : cb_verified b = false -> delivered <> [] -> cb_pending b <> [];
  st_quiet : cb_terminal b = None /\ cb_reported b = false;
}.

(** What a read gives: bytes, or the end. *)
Inductive ending (delivered : gostring) (b : checksumVerifyingBody) : error -> Prop :=
  | ending_verified : content_of src = delivered -> checksum_of (content_of src) = expected -> cb_reported b = false -> ending delivered b EOF
  | ending_mismatch rest : content_of src = delivered ++ rest -> (content_of src <> [] -> rest <> []) ->
      checksum_of (content_of src) <> expected -> cb_reported b = true -> ending delivered b ErrChecksumMismatch
  | ending_failed e rest : is_eof e = false -> Exists broken src -> content_of src = delivered ++ rest -> cb_reported b = false ->
      ending delivered b e.

Definition reads_on (delivered : gostring) (n : nat) (out : gostring * option error * checksumVerifyingBody) : Prop :=
  let '(data, err, b) := out in
  match err with
  | None => data <> [] /\ streaming (delivered ++ data) b
  | Some e => data = [] /\ ending delivered b e
  end.

Lemma holdback_positive : (0 < checksumHoldbackBytes)%nat.
Proof. unfold checksumHoldbackBytes. change 0%nat with (Z.to_nat 0). apply Z2Nat.inj_lt; by vm_compute. Qed.

Lemma take_nonempty {A} n (l : list A) : (0 < n)%nat -> l <> [] -> take n l <> [].
Proof. destruct n, l; [lia|lia|done|done]. Qed.

Lemma served_streaming delivered n b :
  streaming delivered b -> (0 < n)%nat -> cb_pending b <> [] -> (cb_verified b = false -> (n < length (cb_pending b))%nat) ->
  reads_on delivered n (served n b).
Proof.
  intros [Hsrc Hx Hh Hc Hv Hd Hq] Hn Hp Hl. split; [by apply take_nonempty|]. split; cbn; try done.
  - by rewrite <- app_assoc, take_drop.
  - intros Hf _ He. specialize (Hl Hf). apply (f_equal length) in He. rewrite length_drop in He. cbn in He. lia.
Qed.

Lemma serve_verified_reads delivered n b :
  streaming delivered b -> cb_reachedEOF b = true -> (0 < n)%nat -> reads_on delivered n (serve_verified n b).
Proof.
  intros Hs He Hn. pose proof Hs as [Hsrc Hx Hh Hc Hv Hd [Ht Hr]]. rewrite He, app_nil_r in Hc. unfold serve_verified.
  assert (checksum_of (cb_hashed b) = expected ->
    reads_on delivered n (match cb_pending (verified_now b) with [] => ([], Some EOF, ended EOF (verified_now b)) | _ :: _ => served n (verified_now b) end)) as Hgood.
  { intros Hsum. cbn [verified_now cb_pending]. destruct (cb_pending b) as [|c p] eqn:Ep.
    - split; [done|]. apply ending_verified; [by rewrite Hc, Hh, app_nil_r|by rewrite Hc|done].
    - apply (served_streaming delivered n (verified_now b)); [|done|cbn; by rewrite Ep|done].
      split; cbn; try done; [by rewrite Ep|by rewrite He, app_nil_r]. }
  rewrite Hx. destruct (cb_verified b) eqn:Ev; cbn [negb andb]; [by apply Hgood, Hv|].
  destruct (str_eqb (checksum_of (cb_hashed b)) expected) eqn:Eq; cbn [negb]; [by apply Hgood, str_eqb_eq|].
  apply str_eqb_neq in Eq. split; [done|]. apply (ending_mismatch _ _ (cb_pending b)); [by rewrite Hc, Hh| |by rewrite Hc|done].
  intros Hne Hp. apply (Hd eq_refl); [|done]. intros ->. apply Hne. by rewrite Hc, Hh, Hp.
Qed.

Lemma read_loop_reads n reads delivered b :
  (0 < n)%nat -> cb_body b = reads -> streaming delivered b -> reads_on delivered n (read_loop n reads b).
Proof.
  intros Hn. revert b. induction reads as [|[data err] rest IH]; intros b Hb Hs; cbn [read_loop].
  all: destruct (cb_reachedEOF b) eqn:He; [by apply serve_verified_reads|].
  all: assert (cb_verified b = false) as Hnv by (destruct (cb_verified b) eqn:Ev; [apply (st_verified _ _ Hs) in Ev; destruct Ev; congruence|done]).
  all: destruct (Nat.ltb_spec checksumHoldbackBytes (length (cb_pending b))) as [Hl|Hl].
  1, 3: (pose proof holdback_positive as Hpos;
    apply (served_streaming delivered _ b Hs); [lia|by intros Heq; rewrite Heq in Hl; cbn in Hl; lia|lia]).
  all: pose proof Hs as [[pre Hsrc] Hx Hh Hc Hv Hd [Ht Hr]]; rewrite He, Hb in Hc; rewrite Hb in Hsrc; cbn [content_of] in Hc.
  - apply (serve_verified_reads delivered n (pulled [] true [] b)); [|cbn; by rewrite orb_true_r|done].
    split; cbn; rewrite ?app_nil_r, ?orb_true_r in *; try done; [by exists src; rewrite app_nil_r|by rewrite app_nil_r|by rewrite Hnv].
  - assert (exists pre, src = pre ++ rest) as Hrest by (exists (pre ++ [(data, err)]); by rewrite <- app_assoc).
    assert (cb_pending b ++ data = [] -> delivered = []) as Hheld.
    { intros Hp. destruct (decide (delivered = [])) as [|Hnd]; [done|]. specialize (Hd Hnv Hnd). by destruct (cb_pending b). }
    assert (broken (data, err) -> Exists broken src) as Hbroken by (intros Hbr; rewrite Hsrc; apply Exists_app; right; by left).
    destruct err as [e|].
    + rewrite app_nil_r in Hc. destruct (is_eof e) eqn:Ee.
      * apply (serve_verified_reads delivered n (pulled data true rest b)); [|cbn; by rewrite orb_true_r|done].
        split; cbn; rewrite ?He, ?orb_true_r, ?app_nil_r; try done; [by rewrite Hh, app_assoc|by rewrite Hnv|]. intros _ Hnd Hp. by apply Hnd, Hheld.
      * split; [done|]. apply (ending_failed _ _ e (cb_pending b ++ data)); [done|by apply Hbroken|by rewrite Hc, Hh, app_assoc|done].
    + destruct data as [|c data].
      * split; [done|]. apply (ending_failed _ _ _ (cb_pending b ++ content_of rest)); [done|by apply Hbroken| |done].
        by rewrite Hc, Hh, <- app_assoc.
      * apply (IH (pulled (c :: data) false rest b)); [done|]. split; cbn; rewrite ?He; cbn; try done.
        -- by rewrite Hh, app_assoc.
        -- rewrite Hc. by rewrite <- app_assoc.
        -- by rewrite Hnv.
        -- intros _ Hnd Hp. by apply Hnd, Hheld.
Qed.

Lemma new_streaming : streaming [] (newChecksumVerifyingBody src expected).
Proof. split; try done. by exists []. Qed.

Lemma read_all_reads sizes delivered b :
  Forall (fun n => 0 < n)%nat sizes -> streaming delivered b ->
  let '(data, err, b') := read_all sizes b in
  match err with
  | None => (length sizes <= length data)%nat /\ streaming (delivered ++ data) b'
  | Some e => ending (delivered ++ data) b' e
  end.
Proof.
  intros Hsz. revert delivered b. induction Hsz as [|n sizes Hn _ IH]; intros delivered b Hs; cbn [read_all].
  - rewrite app_nil_r. by split; [cbn; lia|].
  - unfold Read. destruct n as [|n]; [lia|]. rewrite (proj1 (st_quiet _ _ Hs)).
    pose proof (read_loop_reads (S n) (cb_body b) delivered b Hn eq_refl Hs) as Hr.
    destruct (read_loop (S n) (cb_body b) b) as [[data err] b']. destruct err as [e|].
    + destruct Hr as [-> Hr]. by rewrite app_nil_r.
    + destruct Hr as (Hne & Hs'). specialize (IH (delivered ++ data) b' Hs').
      destruct (read_all sizes b') as [[rest err] b'']. rewrite <- app_assoc in IH. destruct err as [e|]; [done|].
      destruct IH as [Hl Hst]. split; [|done]. rewrite length_app. cbn [length]. destruct data; [done|]. cbn [length]. lia.
Qed.

End stream.

Lemma read_all_nonzero sizes b : read_all sizes b = read_all (filter (fun n => 0 < n)%nat sizes) b.
Proof.
  revert b. induction sizes as [|n sizes IH]; intros b; [done|]. destruct n as [|n].
  - rewrite filter_cons_False by lia. cbn [read_all Read]. rewrite IH. by destruct (read_all _ b) as [[rest err] b'].
  - rewrite filter_cons_True by lia. cbn [read_all]. destruct (Read _ b) as [[data [e|]] b']; [done|]. by rewrite IH.
Qed.

(** The end is reached after bytes with the checksum only. *)
Lemma read_all_verified body expected sizes :
  let '(data, err, b) := read_all sizes (newChecksumVerifyingBody body expected) in
  err = Some EOF -> data = content_of body /\ checksum_of data = expected.
Proof.
  rewrite read_all_nonzero. pose proof (read_all_reads body expected (filter (fun n => 0 < n)%nat sizes) [] (newChecksumVerifyingBody body expected)) as Hr.
  specialize (Hr ltac:(apply Forall_forall; by intros n [Hn _]%list_elem_of_filter) (new_streaming body expected)).
  destruct (read_all _ _) as [[data err] b]. intros ->. cbn [app] in Hr.
  remember EOF as eof eqn:Heof in Hr. destruct Hr as [Hc Hsum _|rest _ _ _ _|e rest He _ _ _]; [by rewrite <- Hc|done|by subst e].
Qed.

(** C33: whatever the file of an artifact holds when it is read, by reads of any sizes: a client
    gets a prefix of it, reaches the end only when all of it has the checksum of the upload,
    and is never reported a corrupt artifact with all of its bytes; when no read fails, the
    client reaches the end or the artifact is reported, and this takes no more reads than
    there are bytes, but one. *)
Theorem corrupt_download_incomplete body expected sizes :
  Forall (fun n => 0 < n)%nat sizes ->
  let '(data, err, b) := read_all sizes (newChecksumVerifyingBody body expected) in
  (exists rest, content_of body = data ++ rest /\ (cb_reported b = true -> content_of body <> [] -> rest <> []))
  /\ (err = Some EOF -> data = content_of body /\ checksum_of data = expected)
  /\ (cb_reported b = true -> err = Some ErrChecksumMismatch /\ checksum_of (content_of body) <> expected)
  /\ (~ Exists broken body -> (length (content_of body) < length sizes)%nat -> err = Some EOF \/ cb_reported b = true).
Proof.
  intros Hsz. pose proof (read_all_reads body expected sizes [] _ Hsz (new_streaming body expected)) as Hr.
  destruct (read_all _ _) as [[data err] b]. cbn [app] in Hr. destruct err as [e|].
  - destruct Hr as [Hc Hsum Hrep|rest Hc Hne Hsum Hrep|e rest He Hbr Hc Hrep]; rewrite Hrep.
    + split_and!; [exists []; by rewrite app_nil_r|by intros _; rewrite <- Hc|done|by left].
    + split_and!; [by exists rest|by intros [=]|done|by right].
    + split_and!; [by exists rest|intros [= ->]; done|done|by intros Hn].
  - destruct Hr as [Hl Hs]. pose proof Hs as [_ _ Hh Hc _ _ [_ Hrep]]. cbn [app] in *. rewrite Hrep. split_and!; [|done|done|].
    + exists (cb_pending b ++ (if cb_reachedEOF b then [] else content_of (cb_body b))). by rewrite Hc, Hh, <- app_assoc.
    + intros _ Hlen. rewrite Hc, Hh, !length_app in Hlen. lia.
Qed.

(** [bounded_Read] and [bounded_Close] give the slot back once, at the first error or close. *)
Lemma slot_released_once n b :
  (be_released b <= 1)%nat ->
  (be_released (bounded_Read n b).2 <= 1)%nat /\ be_released (bounded_Close b) = 1%nat
  /\ ((bounded_Read n b).1.2 <> None -> be_released (bounded_Read n b).2 = 1%nat)
  /\ ((bounded_Read n b).1.2 = None -> be_released (bounded_Read n b).2 = be_released b).
Proof.
  intros Hb. unfold bounded_Read, bounded_Close, releaseSlot. destruct (Read n (be_body b)) as [[data err] body]. cbn.
  destruct err; cbn; destruct (Nat.eqb_spec (be_released b) 0); split_and!; try done; lia.
Qed.

(** ** Witnesses *)

(** A file that was cut short: the client gets nothing of it. *)
Theorem corrupt_download_incomplete_witness :
  let '(data, err, b) := read_all [4; 4; 4; 4; 4; 4]%nat (newChecksumVerifyingBody [(bs "obj", None)] (checksum_of (bs "object"))) in
  data = [] /\ err = Some ErrChecksumMismatch /\ cb_reported b = true
  /\ exists rest, content_of [(bs "obj", None)] = data ++ rest /\ (cb_reported b = true -> content_of [(bs "obj", None)] <> [] -> rest <> []).
Proof.
  assert (Forall (fun n => 0 < n)%nat [4; 4; 4; 4; 4; 4]%nat) as Hsz by (repeat constructor; lia).
  pose proof (corrupt_download_incomplete [(bs "obj", None)] (checksum_of (bs "object")) _ Hsz) as Hw.
  remember (read_all _ _) as out eqn:Hout. vm_compute in Hout. subst out. destruct Hw as [Hw _]. by split_and!.
Defined.
