(* ===== verification/CompileWorld.v ===== *)
(** * What the compiler cache works on (internal/compilecache/service.go, key_lock.go, internal/db/compile_cache.go)

    The table of entries, the queue of deletions, the objects of the dedicated storage, the
    locks of keys, the ledger of capacity and the transfer slots, and each call of the service
    on them as one step.  A transaction that reports an error was rolled back. *)

From stdpp Require Import gmap sorting.
From S2P Require Export Program Checksum.

Definition ErrNotFound : error := Sentinel "compile-cache entry not found".
Definition ErrTooLarge : error := Sentinel "compile-cache entry exceeds the configured limit".
Definition ErrInvalidSize : error := Sentinel "compile-cache entry size is invalid".
Definition ErrSizeMismatch : error := Sentinel "compile-cache body size does not match Content-Length".
Definition ErrInsufficientStorage : error := Sentinel "compile-cache capacity cannot be reclaimed".
Definition ErrUploadBusy : error := Sentinel "compile-cache upload queue is full".
Definition ErrDownloadBusy : error := Sentinel "compile-cache download concurrency is full".

(** Nanoseconds. *)
Definition second : Z := 1000000000.
Definition stagingCleanupGrace : Z := 5 * (60 * second).
Definition maximumUploadTimeout : Z := 24 * (60 * (60 * second)).

(** ** Data *)

Record Limits := {
  MaxBytes : Z;
  MaxEntries : Z;
  MaxEntryBytes : Z;
  NamespaceMaxBytes : Z;
  NamespaceMaxEntries : Z;
  MaxConcurrentUploads : Z;
  MaxQueuedUploads : Z;
  MaxInflightUploadBytes : Z;
  UploadTimeout : Z;
  MaxConcurrentDownloads : Z;
  DownloadTimeout : Z;
  HighWatermarkPercent : Z;
}.

Record CompileCacheEntry := {
  en_ID : Z;
  en_Protocol : gostring;
  en_Namespace : gostring;
  en_Key : gostring;
  en_StoragePath : gostring;
  en_Size : Z;
  en_Checksum : gostring;
  en_HitCount : Z;
  en_LastAccessed : Z;
  en_UpdatedAt : Z;
}.

Record CompileCacheDeletion := { cd_ID : Z; cd_StoragePath : gostring; cd_NotBefore : Z; cd_Attempts : Z; cd_LastError : option error }.

Record resourceUsage := { ru_Bytes : Z; ru_Entries : Z }.

Record pendingTouch := { pt_Protocol : gostring; pt_Namespace : gostring; pt_Key : gostring; pt_Hits : Z; pt_At : Z }.

(** [usage], [entries], [namespaces] and [namespaceUsage] of [Service]. *)
Record ledger := { lg_usage : Z; lg_entries : Z; lg_namespaces : Z; lg_namespaceUsage : gmap gostring resourceUsage }.

(** Goroutines are numbered; one that has a slot or a lock is named by its number.  The rows
    have the unique index on protocol, namespace and key, and ids that are never given twice;
    the queue has one on the path. *)
Record database := {
  db_rows : gmap ArtifactID CompileCacheEntry;
  db_next_id : Z;
  db_deletions : gmap gostring CompileCacheDeletion;
  db_next_deletion : Z;
}.

Record service := {
  sv_locks : gmap gostring nat;
  sv_ledger : ledger;
  sv_hits : Z;
  sv_touches : gmap gostring pendingTouch;
  sv_uploadAdmission : gset nat;
  sv_uploadSlots : gset nat;
  sv_inflight : gmap nat Z;
  sv_downloadSlots : gset nat;
}.

(** The storage, the clock and the random generator: the generations it will give. *)
Record outside := { ou_objects : gmap gostring gostring; ou_now : Z; ou_entropy : list gostring; ou_tampered : bool }.

(** What no step reads: who stages an upload under a path and until when, what a goroutine has
    in the ledger beyond the rows, which entry an id was given to, what was uploaded to a path. *)
Record staging := { sg_owner : nat; sg_deadline : Z }.
Record credit := { cr_Namespace : gostring; cr_Bytes : Z; cr_Entries : Z }.
Inductive event :=
  | ev_put (id : ArtifactID) (content : gostring)
  | ev_gone (id : ArtifactID)
  (** goroutine [me] looked the entry up to open it *)
  | ev_opened (me : nat) (id : ArtifactID).

Record history := {
  hi_log : list event;
  hi_staged : gmap gostring staging;
  hi_credits : gmap nat credit;
  hi_ids : gmap Z ArtifactID;
  hi_uploaded : gmap gostring gostring;
}.

Record world := { w_db : database; w_service : service; w_outside : outside; w_history : history }.

Definition empty_ledger : ledger := {| lg_usage := 0; lg_entries := 0; lg_namespaces := 0; lg_namespaceUsage := ∅ |}.

Definition empty_compile_cache (entropy : list gostring) : world :=
  {| w_db := {| db_rows := ∅; db_next_id := 1; db_deletions := ∅; db_next_deletion := 1 |};
     w_service := {| sv_locks := ∅; sv_ledger := empty_ledger; sv_hits := 0; sv_touches := ∅; sv_uploadAdmission := ∅; sv_uploadSlots := ∅;
                     sv_inflight := ∅; sv_downloadSlots := ∅ |};
     w_outside := {| ou_objects := ∅; ou_now := 0; ou_entropy := entropy; ou_tampered := false |};
     w_history := {| hi_log := []; hi_staged := ∅; hi_credits := ∅; hi_ids := ∅; hi_uploaded := ∅ |} |}.

(** *** Fields of the world *)

Definition w_rows (w : world) := db_rows (w_db w).
Definition w_deletions (w : world) := db_deletions (w_db w).
Definition w_locks (w : world) := sv_locks (w_service w).
Definition w_ledger (w : world) := sv_ledger (w_service w).
Definition w_objects (w : world) := ou_objects (w_outside w).
Definition w_now (w : world) := ou_now (w_outside w).
Definition w_log (w : world) := hi_log (w_history w).
Definition w_staged (w : world) := hi_staged (w_history w).
Definition w_credits (w : world) := hi_credits (w_history w).
Definition w_ids (w : world) := hi_ids (w_history w).
Definition w_uploaded (w : world) := hi_uploaded (w_history w).

Definition set_db (d : database) (w : world) : world :=
  {| w_db := d; w_service := w_service w; w_outside := w_outside w; w_history := w_history w |}.
Definition set_service (s : service) (w : world) : world :=
  {| w_db := w_db w; w_service := s; w_outside := w_outside w; w_history := w_history w |}.
Definition set_outside (o : outside) (w : world) : world :=
  {| w_db := w_db w; w_service := w_service w; w_outside := o; w_history := w_history w |}.
Definition set_history (h : history) (w : world) : world :=
  {| w_db := w_db w; w_service := w_service w; w_outside := w_outside w; w_history := h |}.

Definition set_rows (rows : gmap ArtifactID CompileCacheEntry) (next : Z) (w : world) : world :=
  set_db {| db_rows := rows; db_next_id := next; db_deletions := w_deletions w; db_next_deletion := db_next_deletion (w_db w) |} w.
Definition set_deletions (deletions : gmap gostring CompileCacheDeletion) (next : Z) (w : world) : world :=
  set_db {| db_rows := w_rows w; db_next_id := db_next_id (w_db w); db_deletions := deletions; db_next_deletion := next |} w.

Definition set_locks (locks : gmap gostring nat) (w : world) : world :=
  let s := w_service w in
  set_service {| sv_locks := locks; sv_ledger := sv_ledger s; sv_hits := sv_hits s; sv_touches := sv_touches s;
    sv_uploadAdmission := sv_uploadAdmission s; sv_uploadSlots := sv_uploadSlots s; sv_inflight := sv_inflight s; sv_downloadSlots := sv_downloadSlots s |} w.
Definition set_ledger (l : ledger) (w : world) : world :=
  let s := w_service w in
  set_service {| sv_locks := sv_locks s; sv_ledger := l; sv_hits := sv_hits s; sv_touches := sv_touches s;
    sv_uploadAdmission := sv_uploadAdmission s; sv_uploadSlots := sv_uploadSlots s; sv_inflight := sv_inflight s; sv_downloadSlots := sv_downloadSlots s |} w.
Definition set_touches (hits : Z) (touches : gmap gostring pendingTouch) (w : world) : world :=
  let s := w_service w in
  set_service {| sv_locks := sv_locks s; sv_ledger := sv_ledger s; sv_hits := hits; sv_touches := touches;
    sv_uploadAdmission := sv_uploadAdmission s; sv_uploadSlots := sv_uploadSlots s; sv_inflight := sv_inflight s; sv_downloadSlots := sv_downloadSlots s |} w.
Definition set_slots (admission uploads : gset nat) (inflight : gmap nat Z) (downloads : gset nat) (w : world) : world :=
  let s := w_service w in
  set_service {| sv_locks := sv_locks s; sv_ledger := sv_ledger s; sv_hits := sv_hits s; sv_touches := sv_touches s;
    sv_uploadAdmission := admission; sv_uploadSlots := uploads; sv_inflight := inflight; sv_downloadSlots := downloads |} w.

Definition set_objects (objects : gmap gostring gostring) (w : world) : world :=
  let o := w_outside w in set_outside {| ou_objects := objects; ou_now := ou_now o; ou_entropy := ou_entropy o; ou_tampered := ou_tampered o |} w.

Definition set_staged (staged : gmap gostring staging) (w : world) : world :=
  let h := w_history w in set_history {| hi_log := hi_log h; hi_staged := staged; hi_credits := hi_credits h; hi_ids := hi_ids h; hi_uploaded := hi_uploaded h |} w.
Definition set_credits (credits : gmap nat credit) (w : world) : world :=
  let h := w_history w in set_history {| hi_log := hi_log h; hi_staged := hi_staged h; hi_credits := credits; hi_ids := hi_ids h; hi_uploaded := hi_uploaded h |} w.
Definition set_ids (ids : gmap Z ArtifactID) (w : world) : world :=
  let h := w_history w in set_history {| hi_log := hi_log h; hi_staged := hi_staged h; hi_credits := hi_credits h; hi_ids := ids; hi_uploaded := hi_uploaded h |} w.
Definition set_uploaded (uploaded : gmap gostring gostring) (w : world) : world :=
  let h := w_history w in set_history {| hi_log := hi_log h; hi_staged := hi_staged h; hi_credits := hi_credits h; hi_ids := hi_ids h; hi_uploaded := uploaded |} w.
Definition logged (e : event) (w : world) : world :=
  let h := w_history w in
  set_history {| hi_log := e :: hi_log h; hi_staged := hi_staged h; hi_credits := hi_credits h; hi_ids := hi_ids h; hi_uploaded := hi_uploaded h |} w.

(** ** The ledger *)

Definition usage_of (l : ledger) (namespace : gostring) : resourceUsage := default {| ru_Bytes := 0; ru_Entries := 0 |} (lg_namespaceUsage l !! namespace).

(** [addCapacityLocked] *)
Definition addCapacityLocked (namespace : gostring) (bytes entries : Z) (l : ledger) : ledger :=
  let current := usage_of l namespace in
  let wasEmpty := (ru_Bytes current =? 0) && (ru_Entries current =? 0) in
  let current := {| ru_Bytes := ru_Bytes current + bytes; ru_Entries := ru_Entries current + entries |} in
  let '(usage, namespaces) :=
    if (ru_Bytes current =? 0) && (ru_Entries current =? 0)
    then (delete namespace (lg_namespaceUsage l), if wasEmpty then lg_namespaces l else lg_namespaces l - 1)
    else (<[namespace := current]> (lg_namespaceUsage l), if wasEmpty then lg_namespaces l + 1 else lg_namespaces l) in
  {| lg_usage := lg_usage l + bytes; lg_entries := lg_entries l + entries; lg_namespaces := namespaces; lg_namespaceUsage := usage |}.

(** What a goroutine has in the ledger beyond the rows. *)
Definition settle_credit (me : nat) (namespace : gostring) (bytes entries : Z) (credits : gmap nat credit) : gmap nat credit :=
  if (bytes =? 0) && (entries =? 0) then delete me credits
  else <[me := {| cr_Namespace := namespace; cr_Bytes := bytes; cr_Entries := entries |}]> credits.

(** ** Calls *)

Definition identity_of (e : CompileCacheEntry) : ArtifactID :=
  {| id_protocol := en_Protocol e; id_namespace := en_Namespace e; id_key := en_Key e |}.

Definition namespaceMaxBytes (limits : Limits) : Z := Z.min (NamespaceMaxBytes limits) (MaxBytes limits).
Definition namespaceMaxEntries (limits : Limits) : Z := Z.min (NamespaceMaxEntries limits) (MaxEntries limits).

(** The rows a [WHERE] clause on the id picks. *)
Definition rows_with_id (n : Z) (rows : gmap ArtifactID CompileCacheEntry) : list CompileCacheEntry :=
  (map_to_list (filter (fun row => en_ID row.2 = n) rows)).*2.

(** [enqueueDeferredDeletion] *)
Definition enqueueDeferredDeletion (storagePath : gostring) (notBefore : Z) (w : world) : world :=
  if bool_decide (storagePath = []) then w else
  match w_deletions w !! storagePath with
  | Some _ => w
  | None =>
    let n := db_next_deletion (w_db w) in
    set_deletions (<[storagePath := {| cd_ID := n; cd_StoragePath := storagePath; cd_NotBefore := notBefore; cd_Attempts := 0; cd_LastError := None |}]>
                     (w_deletions w)) (n + 1) w
  end.

Definition enqueueDeletion (storagePath : gostring) (w : world) : world := enqueueDeferredDeletion storagePath (w_now w) w.

(** [tx.Where("id = ?").Delete]: the rows are gone, and whether there was one. *)
Definition delete_rows (pick : CompileCacheEntry -> bool) (w : world) : bool * world :=
  (existsb (fun row => pick row.2) (map_to_list (w_rows w)), set_rows (filter (fun row => pick row.2 = false) (w_rows w)) (db_next_id (w_db w)) w).

Section calls.
Context (limits : Limits) (me : nat).

Definition now : program world Z := atomically (fun w => (w_now w, w)).

(** *** Locks and slots *)

Definition lock (identity : gostring) : program world (result unit) :=
  attempt (fun w => bool_decide (w_locks w !! identity = None)) (fun w => ((), set_locks (<[identity := me]> (w_locks w)) w)).

Definition tryLock (identity : gostring) : program world bool := atomically (fun w =>
  if decide (w_locks w !! identity = None) then (true, set_locks (<[identity := me]> (w_locks w)) w) else (false, w)).

Definition unlock (identity : gostring) : program world unit := atomically (fun w => ((), set_locks (delete identity (w_locks w)) w)).

Definition with_admission (admission : gset nat) (w : world) : world :=
  set_slots admission (sv_uploadSlots (w_service w)) (sv_inflight (w_service w)) (sv_downloadSlots (w_service w)) w.
Definition with_uploads (uploads : gset nat) (w : world) : world :=
  set_slots (sv_uploadAdmission (w_service w)) uploads (sv_inflight (w_service w)) (sv_downloadSlots (w_service w)) w.
Definition with_inflight (inflight : gmap nat Z) (w : world) : world :=
  set_slots (sv_uploadAdmission (w_service w)) (sv_uploadSlots (w_service w)) inflight (sv_downloadSlots (w_service w)) w.
Definition with_downloads (downloads : gset nat) (w : world) : world :=
  set_slots (sv_uploadAdmission (w_service w)) (sv_uploadSlots (w_service w)) (sv_inflight (w_service w)) downloads w.

(** [admitUpload]: whether there was a place. *)
Definition admitUpload : program world bool := atomically (fun w =>
  let admission := sv_uploadAdmission (w_service w) in
  if Z.of_nat (size admission) <? MaxConcurrentUploads limits + MaxQueuedUploads limits
  then (true, with_admission ({[me]} ∪ admission) w) else (false, w)).
Definition releaseAdmission : program world unit := atomically (fun w =>
  ((), with_admission (sv_uploadAdmission (w_service w) ∖ {[me]}) w)).

(** The bytes of the weighted semaphore that are taken. *)
Definition inflight_bytes (inflight : gmap nat Z) : Z := map_fold (fun _ n total => n + total) 0 inflight.

Definition releaseTransfer : program world unit := atomically (fun w => ((), with_uploads (sv_uploadSlots (w_service w) ∖ {[me]}) w)).
Definition releaseStaging : program world unit := atomically (fun w => ((), with_inflight (delete me (sv_inflight (w_service w))) w)).

Definition acquireUpload (bytes : Z) : program world (result unit) :=
  slot <~ attempt (fun w => Z.of_nat (size (sv_uploadSlots (w_service w))) <? MaxConcurrentUploads limits)
            (fun w => ((), with_uploads ({[me]} ∪ sv_uploadSlots (w_service w)) w));
  match slot with
  | Err e => return_ (Err e)
  | Ok _ =>
    lease <~ attempt (fun w => inflight_bytes (sv_inflight (w_service w)) + bytes <=? MaxInflightUploadBytes limits)
               (fun w => ((), with_inflight (<[me := bytes]> (sv_inflight (w_service w))) w));
    match lease with
    | Err e => _ <~ releaseTransfer; return_ (Err e)
    | Ok _ => return_ (Ok ())
    end
  end.

(** [acquireDownload]: whether there was a slot. *)
Definition acquireDownload : program world bool := atomically (fun w =>
  let downloads := sv_downloadSlots (w_service w) in
  if Z.of_nat (size downloads) <? MaxConcurrentDownloads limits then (true, with_downloads ({[me]} ∪ downloads) w) else (false, w)).
Definition releaseDownload : program world unit := atomically (fun w => ((), with_downloads (sv_downloadSlots (w_service w) ∖ {[me]}) w)).

(** *** The storage *)

Definition storage_Exists (path : gostring) : program world (result bool) := query (fun w => bool_decide (is_Some (w_objects w !! path))).
Definition storage_Stat (path : gostring) : program world (result (option Z)) := query (fun w => option_map (fun content : gostring => len content) (w_objects w !! path)).
(** [None] when there is no such object. *)
Definition storage_Get (path : gostring) : program world (result (option gostring)) := query (fun w => w_objects w !! path).
Definition storage_Delete (path : gostring) : program world (result unit) := call (fun w => ((), set_objects (delete path (w_objects w)) w)).

(** A [Put] publishes nothing once its context is past its deadline. *)
Definition storage_Put (path content : gostring) (deadline : Z) : program world (result unit) :=
  request (fun w => w_now w <=? deadline) true
    (fun w => ((), set_uploaded (<[path := content]> (w_uploaded w)) (set_objects (<[path := content]> (w_objects w)) w))) return_.

(** *** The random generator *)

Definition take_generation (w : world) : gostring * world :=
  let o := w_outside w in
  match ou_entropy o with
  | generation :: entropy => (generation, set_outside {| ou_objects := ou_objects o; ou_now := ou_now o; ou_entropy := entropy; ou_tampered := ou_tampered o |} w)
  | [] => ([], w)
  end.

Definition some_entropy (w : world) : bool := match ou_entropy (w_outside w) with [] => false | _ :: _ => true end.

Definition newObjectPath (id : ArtifactID) (deadline : Z) : program world (result gostring) :=
  match validate id with
  | Some e => return_ (Err e)
  | None =>
    attempt some_entropy (fun w =>
      let '(generation, w) := take_generation w in
      let path := object_path id generation in
      (path, set_staged (<[path := {| sg_owner := me; sg_deadline := deadline |}]> (w_staged w)) w))
  end.

Definition newProbeObjectPath : program world (result gostring) :=
  attempt some_entropy (fun w => let '(generation, w) := take_generation w in (probe_path generation, w)).

(** *** The ledger *)

(** [releaseCapacity], under [capacityMu]. *)
Definition releaseCapacity (namespace : gostring) (bytes entries : Z) : program world unit :=
  if (bytes =? 0) && (entries =? 0) then return_ () else
  atomically (fun w => ((), set_credits (delete me (w_credits w)) (set_ledger (addCapacityLocked namespace (- bytes) (- entries) (w_ledger w)) w))).

Definition fits (l : ledger) (namespace : gostring) (bytes entries : Z) : bool :=
  negb ((ru_Bytes (usage_of l namespace) + bytes >? namespaceMaxBytes limits) || (ru_Entries (usage_of l namespace) + entries >? namespaceMaxEntries limits)
        || (lg_usage l + bytes >? MaxBytes limits) || (lg_entries l + entries >? MaxEntries limits)).

(** The last test of [reserveCapacity] and the reservation. *)
Definition reserve (namespace : gostring) (bytes entries : Z) : program world bool := atomically (fun w =>
  if fits (w_ledger w) namespace bytes entries
  then (true, set_credits (settle_credit me namespace bytes entries (w_credits w)) (set_ledger (addCapacityLocked namespace bytes entries (w_ledger w)) w))
  else (false, w)).

(** *** The tables *)

Definition find_entry (id : ArtifactID) : program world (result (option CompileCacheEntry)) := query (fun w => w_rows w !! id).

(** The lookup of [Open]. *)
Definition open_entry (id : ArtifactID) : program world (result (option CompileCacheEntry)) :=
  call (fun w => (w_rows w !! id, logged (ev_opened me id) w)).

Definition find_by_id (n : Z) : program world (result (option CompileCacheEntry)) := query (fun w => head (rows_with_id n (w_rows w))).

(** The markers of an upload: one transaction. *)
Definition register_staging (paths : list gostring) (notBefore : Z) : program world (result unit) :=
  attempt (fun _ => true) (fun w => ((), fold_left (fun w path => enqueueDeferredDeletion path notBefore w) paths w)).

(** The row of a new generation; its columns replace those of a row that is there. *)
Definition upsert (id : ArtifactID) (path : gostring) (size : Z) (checksum : gostring) (time : Z) (w : world) : world :=
  match w_rows w !! id with
  | Some row =>
    set_rows (<[id := {| en_ID := en_ID row; en_Protocol := en_Protocol row; en_Namespace := en_Namespace row; en_Key := en_Key row;
      en_StoragePath := path; en_Size := size; en_Checksum := checksum; en_HitCount := en_HitCount row; en_LastAccessed := time;
      en_UpdatedAt := time |}]> (w_rows w)) (db_next_id (w_db w)) w
  | None =>
    let n := db_next_id (w_db w) in
    set_ids (<[n := id]> (w_ids w))
      (set_rows (<[id := {| en_ID := n; en_Protocol := id_protocol id; en_Namespace := id_namespace id; en_Key := id_key id;
        en_StoragePath := path; en_Size := size; en_Checksum := checksum; en_HitCount := 0; en_LastAccessed := time;
        en_UpdatedAt := w_now w |}]> (w_rows w)) (n + 1) w)
  end.

(** The transaction of [Put]. *)
Definition commit_generation (id : ArtifactID) (path content : gostring) (size time : Z) (stagingPaths : list gostring) (previous : option CompileCacheEntry)
    (w : world) : world :=
  let w := upsert id path size (checksum_of content) time w in
  let w := set_deletions (fold_left (fun deletions p => delete p deletions) stagingPaths (w_deletions w)) (db_next_deletion (w_db w)) w in
  let w := match previous with
           | Some row => if bool_decide (en_StoragePath row = []) || bool_decide (en_StoragePath row = path) then w else enqueueDeletion (en_StoragePath row) w
           | None => w
           end in
  let previousSize := match previous with Some row => en_Size row | None => 0 end in
  logged (ev_put id content)
    (set_credits (settle_credit me (id_namespace id) (Z.max 0 (previousSize - size)) 0 (w_credits w)) (set_staged (delete path (w_staged w)) w)).

(** It fails when the context is past its deadline. *)
Definition commit_entry (id : ArtifactID) (path content : gostring) (size time deadline : Z) (stagingPaths : list gostring) (previous : option CompileCacheEntry)
    : program world (result unit) :=
  attempt (fun w => w_now w <=? deadline) (fun w => ((), commit_generation id path content size time stagingPaths previous w)).

(** A row and the object it names, in one transaction: what was there is owed to the ledger. *)
Definition drop_row (pick : CompileCacheEntry -> bool) (e : CompileCacheEntry) (w : world) : bool * world :=
  let '(found, w) := delete_rows pick w in
  (found, if found then logged (ev_gone (identity_of e)) (set_credits (settle_credit me (en_Namespace e) (en_Size e) 1 (w_credits w)) w) else w).

(** [enqueueDeletion; tx.Delete(&entry)] *)
Definition delete_entry (e : CompileCacheEntry) : program world (result unit) :=
  attempt (fun _ => true) (fun w => ((), (drop_row (fun row => en_ID row =? en_ID e) e (enqueueDeletion (en_StoragePath e) w)).2)).

(** [Where("id = ? AND storage_path = ?").Delete], and [enqueueDeletion] when a row is gone. *)
Definition delete_generation (e : CompileCacheEntry) : program world (result bool) :=
  attempt (fun _ => true) (fun w =>
    let '(deleted, w) := drop_row (fun row => (en_ID row =? en_ID e) && str_eqb (en_StoragePath row) (en_StoragePath e)) e w in
    (deleted, if deleted then enqueueDeletion (en_StoragePath e) w else w)).

Definition remove_marker (path : gostring) : program world (result unit) :=
  call (fun w => ((), set_deletions (delete path (w_deletions w)) (db_next_deletion (w_db w)) w)).

Definition record_failure (path : gostring) (e : error) : program world (result unit) :=
  call (fun w => ((), set_deletions (alter (fun d => {| cd_ID := cd_ID d; cd_StoragePath := cd_StoragePath d; cd_NotBefore := cd_NotBefore d;
    cd_Attempts := cd_Attempts d + 1; cd_LastError := Some e |}) path (w_deletions w)) (db_next_deletion (w_db w)) w)).

(** The queue that is due, fewest attempts first. *)
Definition deletion_le (d d' : CompileCacheDeletion) : Prop := cd_Attempts d < cd_Attempts d' \/ (cd_Attempts d = cd_Attempts d' /\ cd_ID d <= cd_ID d').
#[global] Instance deletion_le_dec : RelDecision deletion_le.
Proof. intros d d'. unfold deletion_le. apply _. Defined.

Definition due_deletions (time : Z) (limit : nat) (w : world) : list CompileCacheDeletion :=
  take limit (merge_sort deletion_le ((map_to_list (filter (fun row => cd_NotBefore row.2 <= time) (w_deletions w))).*2)).

(** The entries after a cursor, the least recently used first. *)
Definition lru_le (e e' : CompileCacheEntry) : Prop :=
  en_LastAccessed e < en_LastAccessed e' \/ (en_LastAccessed e = en_LastAccessed e' /\ en_ID e <= en_ID e').
#[global] Instance lru_le_dec : RelDecision lru_le.
Proof. intros e e'. unfold lru_le. apply _. Defined.

Definition batchSize : nat := 256.

Definition beyond (cursor : option (Z * Z)) (e : CompileCacheEntry) : bool :=
  match cursor with
  | None => true
  | Some (time, n) => (en_LastAccessed e >? time) || ((en_LastAccessed e =? time) && (en_ID e >? n))
  end.

Definition cleanup_candidates (scopeNamespace : gostring) (cursor : option (Z * Z)) (w : world) : list CompileCacheEntry :=
  take batchSize (merge_sort lru_le (filter (fun e => (bool_decide (scopeNamespace = []) || str_eqb (en_Namespace e) scopeNamespace) && beyond cursor e = true)
                                        (map_to_list (w_rows w)).*2)).

(** [FlushTouches]: counters and times of a row, when it is there. *)
Definition touch_entry (t : pendingTouch) : program world (result unit) := call (fun w =>
  ((), set_rows (alter (fun e => {| en_ID := en_ID e; en_Protocol := en_Protocol e; en_Namespace := en_Namespace e; en_Key := en_Key e;
    en_StoragePath := en_StoragePath e; en_Size := en_Size e; en_Checksum := en_Checksum e; en_HitCount := en_HitCount e + pt_Hits t;
    en_LastAccessed := Z.max (en_LastAccessed e) (pt_At t); en_UpdatedAt := w_now w |})
    {| id_protocol := pt_Protocol t; id_namespace := pt_Namespace t; id_key := pt_Key t |} (w_rows w)) (db_next_id (w_db w)) w)).

(** *** The rest of the world *)

(** Time passes. *)
Definition tick (time : Z) : program world unit := atomically (fun w =>
  let o := w_outside w in
  ((), set_outside {| ou_objects := ou_objects o; ou_now := Z.max (ou_now o) time; ou_entropy := ou_entropy o; ou_tampered := ou_tampered o |} w)).

(** Somebody else changes or removes an object. *)
Definition tamper (path : gostring) (content : option gostring) : program world unit := atomically (fun w =>
  let o := w_outside w in
  ((), match ou_objects o !! path with
       | None => w
       | Some _ =>
         set_outside {| ou_objects := partial_alter (fun _ => content) path (ou_objects o); ou_now := ou_now o; ou_entropy := ou_entropy o; ou_tampered := true |} w
       end)).

End calls.
