(* ===== verification/CompileCache.v ===== *)
(** * The compiler cache (internal/compilecache/service.go)

    Every operation of the service as a program on the world of CompileWorld.v: uploads,
    downloads, deletions, the queue of deletions, eviction and maintenance, and the start.
    What [capacityMu] guards is one step where the ledger is used; between these steps, other
    goroutines may do theirs. *)

From stdpp Require Import gmap sorting.
From S2P Require Export Duration CompileWorld.

(** ** Construction *)

Definition limits_error (l : Limits) : option error :=
  if (MaxBytes l <=? 0) || (MaxEntryBytes l <=? 0) || (NamespaceMaxBytes l <=? 0) || (MaxInflightUploadBytes l <=? 0)
  then Some (Errorf "compile cache: byte limits must be positive" [])
  else if (MaxEntries l <=? 0) || (NamespaceMaxEntries l <=? 0) then Some (Errorf "compile cache: entry limits must be positive" [])
  else if MaxConcurrentUploads l <=? 0 then Some (Errorf "compile cache: max concurrent uploads must be positive" [])
  else if MaxQueuedUploads l <? 0 then Some (Errorf "compile cache: max queued uploads must not be negative" [])
  else if (UploadTimeout l <=? 0) || (UploadTimeout l >? maximumUploadTimeout)
  then Some (Errorf "compile cache: upload timeout must be positive and at most 24 hours" [])
  else if MaxConcurrentDownloads l <=? 0 then Some (Errorf "compile cache: max concurrent downloads must be positive" [])
  else if (DownloadTimeout l <=? 0) || (DownloadTimeout l >? maximumUploadTimeout)
  then Some (Errorf "compile cache: download timeout must be positive and at most 24 hours" [])
  else if MaxInflightUploadBytes l <? MaxEntryBytes l
  then Some (Errorf "compile cache: in-flight upload limit must be at least the per-entry limit" [])
  else if (HighWatermarkPercent l <? 1) || (HighWatermarkPercent l >? 100)
  then Some (Errorf "compile cache: high watermark must be between 1 and 100" [])
  else None.

(** The sums of the rows of every namespace. *)
Definition measured (rows : gmap ArtifactID CompileCacheEntry) : ledger :=
  map_fold (fun _ e l => addCapacityLocked (en_Namespace e) (en_Size e) 1 l) empty_ledger rows.

Definition fresh_service (l : ledger) : service :=
  {| sv_locks := ∅; sv_ledger := l; sv_hits := 0; sv_touches := ∅; sv_uploadAdmission := ∅; sv_uploadSlots := ∅; sv_inflight := ∅; sv_downloadSlots := ∅ |}.

(** The process is gone, and [NewService] has read the tables. *)
Definition restarted (w : world) : world :=
  let h := w_history w in
  {| w_db := w_db w; w_service := fresh_service (measured (w_rows w)); w_outside := w_outside w;
     w_history := {| hi_log := hi_log h; hi_staged := ∅; hi_credits := ∅; hi_ids := hi_ids h; hi_uploaded := hi_uploaded h |} |}.

(** What a client sends: its bytes, and the error they end in. *)
Record upload := { up_content : gostring; up_broken : option error }.

(** What the storage reads of an upload of declared size [size] through the limit of one
    byte more; a storage that [stops] reads no more than the declared size. *)
Definition read_upload (stops : bool) (u : upload) (size : Z) : result gostring :=
  let content := up_content u in
  if stops && (size <=? len content) then Ok (take (Z.to_nat size) content)
  else if len content <=? size then match up_broken u with Some e => Err e | None => Ok content end
  else Ok (take (Z.to_nat (size + 1)) content).

Record PutResult := { pu_Created : bool; pu_Size : Z }.
Record CleanupResult := { cl_RemovedEntries : Z; cl_ReclaimedBytes : Z; cl_SizeBytes : Z; cl_Entries : Z; cl_deletionPaths : list gostring }.

(** [pages] is the number of pages a pass may list. *)
Section service.
Context (limits : Limits) (stops : bool) (pages : nat) (me : nat).

(** ** The queue of deletions *)

Definition processDeletionPath (storagePath : gostring) : program world unit :=
  if bool_decide (storagePath = []) then return_ () else
  deleted <~ storage_Delete storagePath;
  match deleted with
  | Err e => _ <~ record_failure storagePath e; return_ ()
  | Ok _ => _ <~ remove_marker storagePath; return_ ()
  end.

Fixpoint processDeletionPaths (paths : list gostring) : program world unit :=
  match paths with
  | [] => return_ ()
  | path :: paths => _ <~ processDeletionPath path; processDeletionPaths paths
  end.

Fixpoint removeUncommittedObjects (paths : list gostring) : program world unit :=
  match paths with
  | [] => return_ ()
  | path :: paths => _ <~ storage_Delete path; removeUncommittedObjects paths
  end.

Fixpoint process_pending (pending : list CompileCacheDeletion) : program world (option error) :=
  match pending with
  | [] => return_ None
  | item :: pending =>
    done <~ ctx_err;
    match done with
    | Some e => return_ (Some e)
    | None => _ <~ processDeletionPath (cd_StoragePath item); process_pending pending
    end
  end.

Definition ProcessPendingDeletions (limit : Z) : program world (option error) :=
  let limit := if limit <=? 0 then 100 else limit in
  time <~ now;
  pending <~ query (due_deletions time (Z.to_nat limit));
  match pending with
  | Err e => return_ (Some (Errorf "list compiler-cache deletion queue: %w" [e]))
  | Ok pending => process_pending pending
  end.

(** ** Eviction *)

(** [exceedsTarget] *)
Definition exceeds (targetBytes targetEntries : Z) (scopeNamespace : gostring) : program world bool := atomically (fun w =>
  let usage := if bool_decide (scopeNamespace = []) then {| ru_Bytes := lg_usage (w_ledger w); ru_Entries := lg_entries (w_ledger w) |}
               else usage_of (w_ledger w) scopeNamespace in
  ((ru_Bytes usage >? targetBytes) || (ru_Entries usage >? targetEntries), w)).

Definition no_cleanup : CleanupResult := {| cl_RemovedEntries := 0; cl_ReclaimedBytes := 0; cl_SizeBytes := 0; cl_Entries := 0; cl_deletionPaths := [] |}.

Definition evicted (e : CompileCacheEntry) (r : CleanupResult) : CleanupResult :=
  {| cl_RemovedEntries := cl_RemovedEntries r + 1; cl_ReclaimedBytes := cl_ReclaimedBytes r + en_Size e; cl_SizeBytes := cl_SizeBytes r;
     cl_Entries := cl_Entries r; cl_deletionPaths := cl_deletionPaths r ++ [en_StoragePath e] |}.

(** One candidate: the entry that was evicted, if it was. *)
Definition evict_candidate (candidate : CompileCacheEntry) : program world (result (option CompileCacheEntry)) :=
  let identity := cacheIdentity (identity_of candidate) in
  locked <~ tryLock me identity;
  if negb locked then return_ (Ok None) else
  lookup <~ find_by_id (en_ID candidate);
  match lookup with
  | Err e => _ <~ unlock identity; return_ (Err (Errorf "reload compile-cache cleanup candidate: %w" [e]))
  | Ok None => _ <~ unlock identity; return_ (Ok None)
  | Ok (Some live) =>
    if (en_UpdatedAt live >? en_UpdatedAt candidate) || (en_LastAccessed live >? en_LastAccessed candidate)
    then _ <~ unlock identity; return_ (Ok None) else
    deleted <~ delete_entry me live;
    match deleted with
    | Err e => _ <~ unlock identity; return_ (Err (Errorf "delete compile-cache cleanup metadata: %w" [e]))
    | Ok _ =>
      _ <~ releaseCapacity me (en_Namespace live) (en_Size live) 1;
      _ <~ unlock identity;
      return_ (Ok (Some live))
    end
  end.

Definition excluded (exclude : option ArtifactID) (candidate : CompileCacheEntry) : bool :=
  match exclude with Some id => bool_decide (identity_of candidate = id) | None => false end.

Section cleanup.
Context (targetBytes targetEntries : Z) (scopeNamespace : gostring) (exclude : option ArtifactID).

(** A page of candidates: the cursor behind it. *)
Fixpoint evict_page (candidates : list CompileCacheEntry) (cursor : option (Z * Z)) (r : CleanupResult)
    : program world (CleanupResult * option (Z * Z) * option error) :=
  match candidates with
  | [] => return_ (r, cursor, None)
  | candidate :: candidates =>
    let cursor := Some (en_LastAccessed candidate, en_ID candidate) in
    over <~ exceeds targetBytes targetEntries scopeNamespace;
    if negb over then return_ (r, cursor, None) else
    if excluded exclude candidate then evict_page candidates cursor r else
    removed <~ evict_candidate candidate;
    match removed with
    | Err e => return_ (r, cursor, Some e)
    | Ok None => evict_page candidates cursor r
    | Ok (Some live) => evict_page candidates cursor (evicted live r)
    end
  end.

Fixpoint evict_pages (n : nat) (cursor : option (Z * Z)) (r : CleanupResult) : program world (CleanupResult * option error) :=
  match n with
  | O => return_ (r, None)
  | S n =>
    over <~ exceeds targetBytes targetEntries scopeNamespace;
    if negb over then return_ (r, None) else
    candidates <~ query (cleanup_candidates scopeNamespace cursor);
    match candidates with
    | Err e => return_ (r, Some (Errorf "list compile-cache cleanup candidates: %w" [e]))
    | Ok [] => return_ (r, None)
    | Ok candidates =>
      '(r, cursor, err) <~ evict_page candidates cursor r;
      match err with Some e => return_ (r, Some e) | None => evict_pages n cursor r end
    end
  end.

Definition measure_result (r : CleanupResult) : program world CleanupResult := atomically (fun w =>
  ({| cl_RemovedEntries := cl_RemovedEntries r; cl_ReclaimedBytes := cl_ReclaimedBytes r; cl_SizeBytes := lg_usage (w_ledger w);
      cl_Entries := lg_entries (w_ledger w); cl_deletionPaths := cl_deletionPaths r |}, w)).

Definition cleanupToLocked : program world (CleanupResult * option error) :=
  r <~ measure_result no_cleanup;
  if (targetBytes <? 0) || (targetEntries <? 0) then return_ (r, Some ErrInsufficientStorage) else
  '(r, err) <~ evict_pages pages None r;
  match err with
  | Some e => return_ (r, Some e)
  | None =>
    r <~ measure_result r;
    over <~ exceeds targetBytes targetEntries scopeNamespace;
    return_ (r, if (over : bool) then Some ErrInsufficientStorage else None)
  end.

End cleanup.

(** [reserveCapacity]: the error. *)
Definition over_namespace (namespace : gostring) (bytes entries : Z) : program world bool := atomically (fun w =>
  ((ru_Bytes (usage_of (w_ledger w) namespace) + bytes >? namespaceMaxBytes limits)
   || (ru_Entries (usage_of (w_ledger w) namespace) + entries >? namespaceMaxEntries limits), w)).
Definition over_total (bytes entries : Z) : program world bool := atomically (fun w =>
  ((lg_usage (w_ledger w) + bytes >? MaxBytes limits) || (lg_entries (w_ledger w) + entries >? MaxEntries limits), w)).

Definition make_room (over : bool) (targetBytes targetEntries : Z) (scopeNamespace : gostring) (exclude : ArtifactID)
    : program world (list gostring * option error) :=
  if negb over then return_ ([], None) else
  '(r, err) <~ cleanupToLocked targetBytes targetEntries scopeNamespace (Some exclude);
  return_ (cl_deletionPaths r, err).

Definition reserveCapacity (bytes entries : Z) (exclude : ArtifactID) : program world (option error) :=
  if (bytes =? 0) && (entries =? 0) then return_ None else
  let namespace := id_namespace exclude in
  over <~ over_namespace namespace bytes entries;
  '(paths, err) <~ make_room over (namespaceMaxBytes limits - bytes) (namespaceMaxEntries limits - entries) namespace exclude;
  match err with
  | Some e => _ <~ processDeletionPaths paths; return_ (Some e)
  | None =>
    over <~ over_total bytes entries;
    '(more, err) <~ make_room over (MaxBytes limits - bytes) (MaxEntries limits - entries) [] exclude;
    let paths := paths ++ more in
    match err with
    | Some e => _ <~ processDeletionPaths paths; return_ (Some e)
    | None =>
      reserved <~ reserve limits me namespace bytes entries;
      _ <~ processDeletionPaths paths;
      return_ (if (reserved : bool) then None else Some ErrInsufficientStorage)
    end
  end.

(** [MaxBytes * int64(percent) / 100] *)
Definition percent_of (n percent : Z) : Z := Z.quot (wrap64 (n * percent)) 100.

Definition Cleanup : program world (CleanupResult * option error) :=
  let targetPercent := Z.max 1 (HighWatermarkPercent limits - 10) in
  '(r, err) <~ cleanupToLocked (percent_of (MaxBytes limits) targetPercent) (percent_of (MaxEntries limits) targetPercent) [] None;
  _ <~ processDeletionPaths (cl_deletionPaths r);
  return_ (r, err).

Definition mergeCleanupResult (target source : CleanupResult) : CleanupResult :=
  {| cl_RemovedEntries := cl_RemovedEntries target + cl_RemovedEntries source; cl_ReclaimedBytes := cl_ReclaimedBytes target + cl_ReclaimedBytes source;
     cl_SizeBytes := cl_SizeBytes target; cl_Entries := cl_Entries target; cl_deletionPaths := cl_deletionPaths target ++ cl_deletionPaths source |}.

Fixpoint enforce_namespaces (namespaces : list gostring) (r : CleanupResult) : program world (CleanupResult * option error) :=
  match namespaces with
  | [] => return_ (r, None)
  | namespace :: namespaces =>
    usage <~ atomically (fun w => (usage_of (w_ledger w) namespace, w));
    if (ru_Bytes usage <=? namespaceMaxBytes limits) && (ru_Entries usage <=? namespaceMaxEntries limits) then enforce_namespaces namespaces r
    else
      '(partial, err) <~ cleanupToLocked (namespaceMaxBytes limits) (namespaceMaxEntries limits) namespace None;
      let r := mergeCleanupResult r partial in
      match err with Some e => return_ (r, Some e) | None => enforce_namespaces namespaces r end
  end.

(** [EnforceLimits] *)
Definition EnforceLimits : program world (CleanupResult * option error) :=
  r <~ measure_result no_cleanup;
  namespaces <~ atomically (fun w => (merge_sort bytes_le (elements (dom (lg_namespaceUsage (w_ledger w)))), w));
  '(r, err) <~ enforce_namespaces namespaces r;
  over <~ over_total 0 0;
  '(r, err) <~
    (if match err with None => over | Some _ => false end
     then '(partial, err) <~ cleanupToLocked (MaxBytes limits) (MaxEntries limits) [] None; return_ (mergeCleanupResult r partial, err)
     else return_ (r, err));
  r <~ measure_result r;
  _ <~ processDeletionPaths (cl_deletionPaths r);
  return_ (r, err).

(** ** Uploads *)

(** The error of a failed storage call: that of the context, if it is done. *)
Definition context_error (e : error) : program world error := done <~ ctx_err; return_ (default e done).

(** From the reservation on: [succeeded] is whether the defer gives it back. *)
Definition commit_upload (id : ArtifactID) (path content : gostring) (size deadline : Z) (stagingPaths : list gostring) (previous : option CompileCacheEntry)
    (reserveBytes entryReserve : Z) : program world (result PutResult) :=
  time <~ now;
  committed <~ commit_entry me id path content size time deadline stagingPaths previous;
  match committed with
  | Err e =>
    _ <~ removeUncommittedObjects stagingPaths;
    _ <~ releaseCapacity me (id_namespace id) reserveBytes entryReserve;
    _ <~ releaseStaging me;
    return_ (Err (Errorf "commit compile-cache metadata: %w" [e]))
  | Ok _ =>
    _ <~ releaseStaging me;
    let previousSize := match previous with Some row => en_Size row | None => 0 end in
    _ <~ (if size <? previousSize then releaseCapacity me (id_namespace id) (previousSize - size) 0 else return_ ());
    _ <~ match previous with
         | Some row => if bool_decide (en_StoragePath row = []) || bool_decide (en_StoragePath row = path) then return_ ()
                       else processDeletionPaths [en_StoragePath row]
         | None => return_ ()
         end;
    return_ (Ok {| pu_Created := bool_decide (previous = None); pu_Size := size |})
  end.

(** From the object path on; the transfer slot and the lease are held. *)
Definition stage_upload (id : ArtifactID) (u : upload) (size deadline : Z) (previous : option CompileCacheEntry) : program world (result PutResult) :=
  made <~ newObjectPath me id deadline;
  match made with
  | Err e => _ <~ releaseTransfer me; _ <~ releaseStaging me; return_ (Err e)
  | Ok path =>
    let stagingPaths := [path; path ++ bs ".tmp"] in
    time <~ now;
    registered <~ register_staging stagingPaths (time + (UploadTimeout limits + stagingCleanupGrace));
    match registered with
    | Err e => _ <~ releaseTransfer me; _ <~ releaseStaging me; return_ (Err (Errorf "register compiler-cache staging object: %w" [e]))
    | Ok _ =>
      put <~ match read_upload stops u size with
             | Err e => return_ (Err e)
             | Ok content => stored <~ storage_Put path content deadline; return_ match stored with Err e => Err e | Ok _ => Ok content end
             end;
      _ <~ releaseTransfer me;
      match put with
      | Err e =>
        _ <~ removeUncommittedObjects stagingPaths;
        err <~ context_error (Errorf "store compile-cache object: %w" [e]);
        _ <~ releaseStaging me;
        return_ (Err err)
      | Ok content =>
        if negb (len content =? size) then
          _ <~ removeUncommittedObjects stagingPaths;
          _ <~ releaseStaging me;
          return_ (Err (Errorf "%w: read %d bytes, expected %d" [ErrSizeMismatch]))
        else
          let reserveBytes := Z.max 0 (size - match previous with Some row => en_Size row | None => 0 end) in
          let entryReserve := match previous with Some _ => 0 | None => 1 end in
          refused <~ reserveCapacity reserveBytes entryReserve id;
          match refused with
          | Some e => _ <~ removeUncommittedObjects stagingPaths; _ <~ releaseStaging me; return_ (Err e)
          | None => commit_upload id path content size deadline stagingPaths previous reserveBytes entryReserve
          end
      end
    end
  end.

Definition put_locked (id : ArtifactID) (u : upload) (size deadline : Z) : program world (result PutResult) :=
  lookup <~ find_entry id;
  match lookup with
  | Err e => return_ (Err (Errorf "read compile-cache metadata: %w" [e]))
  | Ok previous =>
    acquired <~ acquireUpload limits me size;
    match acquired with
    | Err e => return_ (Err e)
    | Ok _ => stage_upload id u size deadline previous
    end
  end.

(** [Put] of a body that is not nil. *)
Definition Put (id : ArtifactID) (u : upload) (size : Z) : program world (result PutResult) :=
  match validate id with
  | Some e => return_ (Err e)
  | None =>
    if size <=? 0 then return_ (Err ErrInvalidSize) else
    if (size >? MaxEntryBytes limits) || (size >? MaxBytes limits) || (size >? NamespaceMaxBytes limits) then return_ (Err ErrTooLarge) else
    time <~ now;
    let deadline := time + UploadTimeout limits in
    admitted <~ admitUpload limits me;
    if negb admitted then return_ (Err ErrUploadBusy) else
    locked <~ lock me (cacheIdentity id);
    match locked with
    | Err e => _ <~ releaseAdmission me; return_ (Err e)
    | Ok _ =>
      r <~ put_locked id u size deadline;
      _ <~ unlock (cacheIdentity id);
      _ <~ releaseAdmission me;
      return_ r
    end
  end.

(** ** Downloads and deletions *)

(** [invalidateEntry]: the error; the caller holds the lock of the entry. *)
Definition invalidateEntry (e : CompileCacheEntry) : program world (option error) :=
  deleted <~ delete_generation me e;
  match deleted with
  | Err err => return_ (Some (Errorf "invalidate corrupt compile-cache metadata: %w" [err]))
  | Ok false => return_ None
  | Ok true =>
    _ <~ releaseCapacity me (en_Namespace e) (en_Size e) 1;
    _ <~ processDeletionPaths [en_StoragePath e];
    return_ None
  end.

Definition invalidateStreamedEntry (id : ArtifactID) (e : CompileCacheEntry) : program world unit :=
  locked <~ lock me (cacheIdentity id);
  match locked with
  | Err _ => return_ ()
  | Ok _ =>
    deleted <~ delete_generation me e;
    _ <~ match deleted with
         | Ok true => releaseCapacity me (en_Namespace e) (en_Size e) 1
         | _ => return_ ()
         end;
    unlock (cacheIdentity id)
  end.

(** An entry whose object is gone or of another size becomes a miss. *)
Definition invalidated {A} (e : CompileCacheEntry) : program world (result A) :=
  err <~ invalidateEntry e;
  return_ (Err (default ErrNotFound err)).

Definition stat_locked (id : ArtifactID) : program world (result Z) :=
  lookup <~ find_entry id;
  match lookup with
  | Err e => return_ (Err (Errorf "read compile-cache metadata: %w" [e]))
  | Ok None => return_ (Err ErrNotFound)
  | Ok (Some e) =>
    slot <~ acquireDownload limits me;
    if negb slot then return_ (Err ErrDownloadBusy) else
    r <~ (exists_ <~ storage_Exists (en_StoragePath e);
          match exists_ with
          | Err err => return_ (Err (Errorf "stat compile-cache object: %w" [err]))
          | Ok false => invalidated e
          | Ok true =>
            meta <~ storage_Stat (en_StoragePath e);
            match meta with
            | Err err => return_ (Err (Errorf "stat compile-cache object: %w" [err]))
            | Ok None => return_ (Err (Errorf "stat compile-cache object: %w" [Sentinel "object not found"]))
            | Ok (Some size) => if (size <=? 0) || negb (size =? en_Size e) then invalidated e else return_ (Ok size)
            end
          end);
    _ <~ releaseDownload me;
    return_ r
  end.

Definition Stat (id : ArtifactID) : program world (result Z) :=
  match validate id with
  | Some e => return_ (Err e)
  | None =>
    locked <~ lock me (cacheIdentity id);
    match locked with
    | Err e => return_ (Err e)
    | Ok _ => r <~ stat_locked id; _ <~ unlock (cacheIdentity id); return_ r
    end
  end.

(** [queueTouch] *)
Definition queueTouch (id : ArtifactID) : program world unit := atomically (fun w =>
  let s := w_service w in
  let touch := default {| pt_Protocol := []; pt_Namespace := []; pt_Key := []; pt_Hits := 0; pt_At := 0 |} (sv_touches s !! cacheIdentity id) in
  ((), set_touches (sv_hits s + 1)
         (<[cacheIdentity id := {| pt_Protocol := id_protocol id; pt_Namespace := id_namespace id; pt_Key := id_key id; pt_Hits := pt_Hits touch + 1;
                                   pt_At := w_now w |}]> (sv_touches s)) w)).

(** [hex.DecodeString] gives 32 bytes. *)
Definition hex_byte (c : Z) : bool := in_range 48 57 c || in_range 97 102 c || in_range 65 70 c.
Definition valid_checksum (checksum : gostring) : bool := Nat.eqb (length checksum) 64 && forallb hex_byte checksum.

(** The object of an entry, whose download slot is kept. *)
Definition open_object (id : ArtifactID) (e : CompileCacheEntry) : program world (result gostring) :=
  exists_ <~ storage_Exists (en_StoragePath e);
  match exists_ with
  | Err err => return_ (Err (Errorf "check compile-cache object: %w" [err]))
  | Ok false => invalidated e
  | Ok true =>
    got <~ storage_Get (en_StoragePath e);
    match got with
    | Err err => return_ (Err (Errorf "open compile-cache object: %w" [err]))
    | Ok None => return_ (Err (Errorf "open compile-cache object: %w" [Sentinel "object not found"]))
    | Ok (Some content) => if (len content <=? 0) || negb (len content =? en_Size e) then invalidated e else _ <~ queueTouch id; return_ (Ok content)
    end
  end.

(** [Open]: the metadata of the entry and its object; the download slot is held when it
    succeeds. *)
Definition open_locked (id : ArtifactID) : program world (result (CompileCacheEntry * gostring)) :=
  lookup <~ open_entry me id;
  match lookup with
  | Err e => return_ (Err (Errorf "read compile-cache metadata: %w" [e]))
  | Ok None => return_ (Err ErrNotFound)
  | Ok (Some e) =>
    if negb (valid_checksum (en_Checksum e)) then invalidated e else
    slot <~ acquireDownload limits me;
    if negb slot then return_ (Err ErrDownloadBusy) else
    r <~ open_object id e;
    match r with
    | Err err => _ <~ releaseDownload me; return_ (Err err)
    | Ok content => return_ (Ok (e, content))
    end
  end.

Definition Open (id : ArtifactID) : program world (result (CompileCacheEntry * gostring)) :=
  match validate id with
  | Some e => return_ (Err e)
  | None =>
    locked <~ lock me (cacheIdentity id);
    match locked with
    | Err e => return_ (Err e)
    | Ok _ => r <~ open_locked id; _ <~ unlock (cacheIdentity id); return_ r
    end
  end.

(** A client of [Open]: it reads the body, whose reads give what [reads] makes of the object,
    with buffers of these sizes, and closes it. *)
Definition download (id : ArtifactID) (reads : gostring -> source) (sizes : list nat) : program world (result (gostring * option error)) :=
  opened <~ Open id;
  match opened with
  | Err e => return_ (Err e)
  | Ok (e, content) =>
    let '(data, err, body) := read_all sizes (newChecksumVerifyingBody (reads content) (en_Checksum e)) in
    _ <~ (if cb_reported body then invalidateStreamedEntry id e else return_ ());
    _ <~ releaseDownload me;
    return_ (Ok (data, err))
  end.

Definition delete_locked (id : ArtifactID) : program world (result bool) :=
  lookup <~ find_entry id;
  match lookup with
  | Err e => return_ (Err (Errorf "read deleted compile-cache metadata: %w" [e]))
  | Ok None => return_ (Ok false)
  | Ok (Some e) =>
    deleted <~ delete_entry me e;
    match deleted with
    | Err err => return_ (Err (Errorf "delete compile-cache metadata: %w" [err]))
    | Ok _ =>
      _ <~ releaseCapacity me (id_namespace id) (en_Size e) 1;
      _ <~ processDeletionPaths [en_StoragePath e];
      return_ (Ok true)
    end
  end.

Definition Delete (id : ArtifactID) : program world (result bool) :=
  match validate id with
  | Some e => return_ (Err e)
  | None =>
    locked <~ lock me (cacheIdentity id);
    match locked with
    | Err e => return_ (Err e)
    | Ok _ => r <~ delete_locked id; _ <~ unlock (cacheIdentity id); return_ r
    end
  end.

(** ** Maintenance *)

Fixpoint flush_touches (touches : list (gostring * pendingTouch)) (failed : list (gostring * pendingTouch)) (errs : list error)
    : program world (list (gostring * pendingTouch) * list error) :=
  match touches with
  | [] => return_ (failed, errs)
  | (identity, touch) :: touches =>
    locked <~ lock me identity;
    updated <~ match locked with
               | Err e => return_ (Err e)
               | Ok _ => updated <~ touch_entry touch; _ <~ unlock identity; return_ updated
               end;
    match updated with
    | Err e => flush_touches touches (failed ++ [(identity, touch)]) (errs ++ [e])
    | Ok _ => flush_touches touches failed errs
    end
  end.

(** A touch that could not be written joins what has come since. *)
Definition requeue (touches : gmap gostring pendingTouch) (failed : gostring * pendingTouch) : gmap gostring pendingTouch :=
  let '(identity, touch) := failed in
  match touches !! identity with
  | Some current =>
    if bool_decide (pt_Protocol current = []) then <[identity := touch]> touches
    else <[identity := {| pt_Protocol := pt_Protocol current; pt_Namespace := pt_Namespace current; pt_Key := pt_Key current;
                          pt_Hits := pt_Hits current + pt_Hits touch; pt_At := Z.max (pt_At current) (pt_At touch) |}]> touches
  | None => <[identity := touch]> touches
  end.

Definition FlushTouches : program world (option error) :=
  touches <~ atomically (fun w => (map_to_list (sv_touches (w_service w)), set_touches (sv_hits (w_service w)) ∅ w));
  '(failed, errs) <~ flush_touches touches [] [];
  match failed with
  | [] => return_ None
  | _ :: _ =>
    _ <~ atomically (fun w => ((), set_touches (sv_hits (w_service w)) (fold_left requeue failed (sv_touches (w_service w))) w));
    return_ (Some (Errorf "flush compile-cache hits: %w" errs))
  end.

(** [CheckWritable] *)
Definition queue_probe (path : gostring) : program world (result unit) := call (fun w => ((), enqueueDeletion path w)).

Definition probe_storage (deadline : Z) : program world (option error) :=
  made <~ newProbeObjectPath;
  match made with
  | Err e => _ <~ releaseTransfer me; _ <~ releaseStaging me; return_ (Some e)
  | Ok path =>
    put <~ storage_Put path (bs "1") deadline;
    match put with
    | Err e =>
      err <~ context_error (Errorf "write compiler-cache storage probe: %w" [e]);
      _ <~ releaseTransfer me; _ <~ releaseStaging me; return_ (Some err)
    | Ok _ =>
      _ <~ releaseTransfer me; _ <~ releaseStaging me;
      deleted <~ storage_Delete path;
      match deleted with
      | Ok _ => return_ None
      | Err _ =>
        queued <~ queue_probe path;
        return_ match queued with Err e => Some (Errorf "queue compiler-cache probe cleanup: %w" [e]) | Ok _ => None end
      end
    end
  end.

Definition CheckWritable : program world (option error) :=
  time <~ now;
  admitted <~ admitUpload limits me;
  if negb admitted then return_ (Some ErrUploadBusy) else
  acquired <~ acquireUpload limits me 1;
  err <~ match acquired with Err e => return_ (Some e) | Ok _ => probe_storage (time + UploadTimeout limits) end;
  _ <~ releaseAdmission me;
  return_ err.

End service.
