(* ===== verification/CompileRestart.v ===== *)
(** * The start of the compiler cache (internal/compilecache/service.go, server/compile_cache_runtime.go)

    What happens before the service serves: the queue of deletions, the repair of what a
    crash or somebody else left ([Reconcile]), and the limits. *)

From stdpp Require Import gmap sorting.
From S2P Require Export CompileCache.

Record ObjectMeta := { om_Key : gostring; om_Size : Z; om_LastModified : Z }.

(** What [Reconcile] has found so far: [objectByPath], [queuedForDeletion], [rebuilt],
    [logicalSize], [logicalEntries]. *)
Record reconciliation := {
  re_objects : gmap gostring ObjectMeta;
  re_queued : list gostring;
  re_rebuilt : gmap gostring resourceUsage;
  re_size : Z;
  re_entries : Z;
}.

(** A local storage lists a directory, S3 all keys with the prefix. *)
Definition by_path (objects : list ObjectMeta) : gmap gostring ObjectMeta :=
  fold_left (fun m object => if has_prefix (om_Key object) (bs "v1/") then <[om_Key object := object]> m else m) objects ∅.

(** [NewArtifactID] accepts the identity, and the object is one of its. *)
Definition valid_row (e : CompileCacheEntry) : bool :=
  match NewArtifactID (en_Protocol e) (en_Namespace e) (en_Key e) with
  | Ok id => objectPathMatchesArtifact id (en_StoragePath e)
  | Err _ => false
  end.

(** The entry goes, its object is queued for deletion. *)
Definition condemned (e : CompileCacheEntry) (r : reconciliation) : reconciliation :=
  {| re_objects := delete (en_StoragePath e) (re_objects r); re_queued := re_queued r ++ [en_StoragePath e]; re_rebuilt := re_rebuilt r;
     re_size := re_size r; re_entries := re_entries r |}.

(** The entry stays. *)
Definition retained (e : CompileCacheEntry) (r : reconciliation) : reconciliation :=
  let usage := default {| ru_Bytes := 0; ru_Entries := 0 |} (re_rebuilt r !! en_Namespace e) in
  {| re_objects := delete (en_StoragePath e) (re_objects r); re_queued := re_queued r;
     re_rebuilt := <[en_Namespace e := {| ru_Bytes := ru_Bytes usage + en_Size e; ru_Entries := ru_Entries usage + 1 |}]> (re_rebuilt r);
     re_size := re_size r + en_Size e; re_entries := re_entries r + 1 |}.

Definition rebuilt_ledger (r : reconciliation) : ledger :=
  {| lg_usage := re_size r; lg_entries := re_entries r; lg_namespaces := Z.of_nat (size (re_rebuilt r)); lg_namespaceUsage := re_rebuilt r |}.

Definition id_le (e e' : CompileCacheEntry) : Prop := en_ID e <= en_ID e'.
#[global] Instance id_le_dec : RelDecision id_le.
Proof. intros e e'. unfold id_le. apply _. Defined.

Definition reconcile_batch : nat := 512.

Definition rows_after (cursor : Z) (w : world) : list CompileCacheEntry :=
  take reconcile_batch (merge_sort id_le (filter (fun e => (en_ID e >? cursor) = true) (map_to_list (w_rows w)).*2)).

Definition out_of_pages : error := Sentinel "more pages than rows".

(** [modified] is the time the storage lists for an object, [arrange] the order in which the
    objects that are left come out of the map. *)
Section start.
Context (limits : Limits) (pages me : nat) (modified : gostring -> Z) (arrange : list ObjectMeta -> list ObjectMeta).

Definition list_objects : program world (result (list ObjectMeta)) := query (fun w =>
  map (fun object : gostring * gostring => {| om_Key := object.1; om_Size := len object.2; om_LastModified := modified object.1 |})
    (map_to_list (filter (fun object : gostring * gostring => has_prefix object.1 (bs "v1") = true) (w_objects w)))).

(** [tx.Delete(&entry)] *)
Definition delete_row (e : CompileCacheEntry) : program world (result unit) :=
  attempt (fun _ => true) (fun w => ((), (drop_row me (fun row => en_ID row =? en_ID e) e w).2)).

Definition reconcile_entry (e : CompileCacheEntry) (r : reconciliation) : program world (result reconciliation) :=
  if negb (valid_row e) then
    let exists_ := bool_decide (is_Some (re_objects r !! en_StoragePath e)) in
    removed <~ (if exists_ then delete_entry me e else delete_row e);
    return_ match removed with
            | Err err => Err (Errorf "remove invalid compiler-cache metadata: %w" [err])
            | Ok _ => Ok (if exists_ then condemned e r else r)
            end
  else
    match re_objects r !! en_StoragePath e with
    | None =>
      removed <~ delete_row e;
      return_ match removed with Err err => Err (Errorf "remove missing compiler-cache metadata: %w" [err]) | Ok _ => Ok r end
    | Some object =>
      if (en_Size e <=? 0) || negb (om_Size object =? en_Size e) then
        removed <~ delete_entry me e;
        return_ match removed with Err err => Err (Errorf "remove corrupt compiler-cache metadata: %w" [err]) | Ok _ => Ok (condemned e r) end
      else return_ (Ok (retained e r))
    end.

Fixpoint reconcile_page (entries : list CompileCacheEntry) (r : reconciliation) : program world (result reconciliation) :=
  match entries with
  | [] => return_ (Ok r)
  | e :: entries =>
    reconciled <~ reconcile_entry e r;
    match reconciled with Err err => return_ (Err err) | Ok r => reconcile_page entries r end
  end.

(** The loop over the pages, which ends when a page is empty. *)
Fixpoint reconcile_rows (n : nat) (cursor : Z) (r : reconciliation) : program world (result reconciliation) :=
  match n with
  | O => return_ (Err out_of_pages)
  | S n =>
    entries <~ query (rows_after cursor);
    match entries with
    | Err err => return_ (Err (Errorf "list compiler-cache metadata for reconciliation: %w" [err]))
    | Ok [] => return_ (Ok r)
    | Ok entries =>
      reconciled <~ reconcile_page entries r;
      match reconciled with
      | Err err => return_ (Err err)
      | Ok r => reconcile_rows n (match last entries with Some e => en_ID e | None => cursor end) r
      end
    end
  end.

(** Under [capacityMu]. *)
Definition replace_ledger (l : ledger) : program world unit :=
  atomically (fun w => ((), set_credits (delete me (w_credits w)) (set_ledger l w))).

(** The objects that are left. *)
Fixpoint reclaim_orphans (cutoff : Z) (objects : list ObjectMeta) : program world (option error) :=
  match objects with
  | [] => return_ None
  | object :: objects =>
    if om_LastModified object >? cutoff then reclaim_orphans cutoff objects else
    queued <~ queue_probe (om_Key object);
    match queued with
    | Err err => return_ (Some (Errorf "queue orphan compiler-cache object %q: %w" [err]))
    | Ok _ => _ <~ processDeletionPath (om_Key object); reclaim_orphans cutoff objects
    end
  end.

(** A page that is not the last one has a row at least, so that there are no more than one
    page for every row and one. *)
Definition Reconcile (orphanGrace : Z) : program world (option error) :=
  listed <~ list_objects;
  match listed with
  | Err err => return_ (Some (Errorf "list compiler-cache objects for reconciliation: %w" [err]))
  | Ok objects =>
    n <~ atomically (fun w => (S (size (w_rows w)), w));
    reconciled <~ reconcile_rows n 0 {| re_objects := by_path objects; re_queued := []; re_rebuilt := ∅; re_size := 0; re_entries := 0 |};
    match reconciled with
    | Err err => return_ (Some err)
    | Ok r =>
      _ <~ replace_ledger (rebuilt_ledger r);
      _ <~ processDeletionPaths (re_queued r);
      time <~ now;
      reclaim_orphans (time - Z.max 0 orphanGrace) (arrange (map_to_list (re_objects r)).*2)
    end
  end.

(** From [NewService] on, whose world is [restarted]. *)
Definition startup : program world (option error) :=
  err <~ ProcessPendingDeletions 1000;
  match err with
  | Some e => return_ (Some (Errorf "retry compiler-cache deletions: %w" [e]))
  | None =>
    err <~ Reconcile 0;
    match err with
    | Some e => return_ (Some (Errorf "reconcile compiler cache: %w" [e]))
    | None =>
      '(_, err) <~ EnforceLimits limits pages me;
      return_ match err with Some e => Some (Errorf "enforce compiler-cache limits: %w" [e]) | None => None end
    end
  end.

End start.
