(* ===== verification/CompileInvariant.v ===== *)
(** * The invariant of the compiler cache (CompileWorld.v)

    The paths of objects, the ledger of capacity, what holds between any two steps, and what
    the other goroutines may do to what one goroutine knows. *)

From stdpp Require Import gmap.
From S2P Require Export CompileCache.

(** ** Paths *)

Definition generation (g : gostring) : Prop := Forall byte g /\ length g = 16%nat.
Definition is_probe (path : gostring) : bool := has_prefix path (bs "v1/probes/").
#[global] Arguments is_probe : simpl never.
Definition names (id : ArtifactID) (g path : gostring) : Prop := path = object_path id g \/ path = object_path id g ++ bs ".tmp".
(** The path of an object of the artifact. *)
Definition named_for (id : ArtifactID) (path : gostring) : Prop := exists g, path = object_path id g.
Definition an_object (path : gostring) : Prop := exists id g, validate id = None /\ generation g /\ path = object_path id g.

Lemma hex_last g : generation g -> exists h c, hex_encode g = h ++ [c] /\ c <> 112.
Proof.
  intros [Hb Hl]. destruct (exists_last (l := g)) as (g' & c & ->); [by intros ->|].
  exists (hex_encode g' ++ [hex_digit (Z.shiftr c 4)]), (hex_digit (Z.land c 15)). split.
  - unfold hex_encode. rewrite fmap_app, concat_app. cbn. by rewrite <- app_assoc.
  - unfold hex_digit. change 15 with (Z.ones 4). rewrite Z.land_ones by lia. pose proof (Z.mod_pos_bound c (2 ^ 4) ltac:(lia)). case_match; lia.
Qed.

Lemma object_not_tmp pre pre' g g' : generation g -> pre ++ hex_encode g <> pre' ++ hex_encode g' ++ bs ".tmp".
Proof.
  intros Hg Heq. destruct (hex_last g Hg) as (h & c & Hh & Hc). rewrite Hh in Heq. change (bs ".tmp") with (bs ".tm" ++ [112]) in Heq.
  rewrite !app_assoc in Heq. by apply app_inj_tail in Heq as [_ ->].
Qed.

Lemma hex_tail pre pre' g g' : generation g -> generation g' -> pre ++ hex_encode g = pre' ++ hex_encode g' -> g = g'.
Proof.
  intros [Hb Hl] [Hb' Hl'] Heq. apply app_inj_2 in Heq as [_ Heq]; [by apply hex_encode_inj in Heq|].
  rewrite !hex_encode_length. congruence.
Qed.

(** The random bytes of a path. *)
Lemma names_generation id id' g g' path : generation g -> generation g' -> names id g path -> names id' g' path -> g = g'.
Proof.
  unfold names, object_path. intros Hg Hg' [->| ->] [Heq|Heq].
  - by apply hex_tail in Heq.
  - rewrite <- app_assoc in Heq. by apply object_not_tmp in Heq.
  - symmetry in Heq. rewrite <- app_assoc in Heq. by apply object_not_tmp in Heq.
  - apply app_inv_tail in Heq. by apply hex_tail in Heq.
Qed.

Lemma tmp_no_object id g : generation g -> ~ an_object (object_path id g ++ bs ".tmp").
Proof. intros Hg (id' & g' & _ & Hg' & Heq). unfold object_path in Heq. rewrite <- app_assoc in Heq. symmetry in Heq. by apply object_not_tmp in Heq. Qed.

Lemma object_not_probe path : an_object path -> is_probe path = false.
Proof.
  intros (id & g & Hv & _ & ->). apply validate_None in Hv as [_ [[Hp _]|(Hp & _)]]; unfold is_probe, object_path, object_prefix; by rewrite Hp.
Qed.

Lemma tmp_not_probe id g : validate id = None -> is_probe (object_path id g ++ bs ".tmp") = false.
Proof. intros [_ [[Hp _]|(Hp & _)]]%validate_None; unfold is_probe, object_path, object_prefix; by rewrite Hp. Qed.

Lemma probe_is_probe g : is_probe (probe_path g) = true.
Proof. done. Qed.

(** ** The ledger *)

(** Bytes or entries, of all namespaces or of one. *)
Inductive measure := Bytes | Entries.

Definition in_scope (scope : option gostring) (namespace : gostring) : bool :=
  match scope with None => true | Some n => str_eqb namespace n end.

Definition weight (k : measure) (scope : option gostring) (namespace : gostring) (bytes entries : Z) : Z :=
  if in_scope scope namespace then match k with Bytes => bytes | Entries => entries end else 0.

Definition view (k : measure) (scope : option gostring) (l : ledger) : Z :=
  match scope, k with
  | None, Bytes => lg_usage l
  | None, Entries => lg_entries l
  | Some n, Bytes => ru_Bytes (usage_of l n)
  | Some n, Entries => ru_Entries (usage_of l n)
  end.

Definition limit_of (limits : Limits) (k : measure) (scope : option gostring) : Z :=
  match scope, k with
  | None, Bytes => MaxBytes limits
  | None, Entries => MaxEntries limits
  | Some _, Bytes => namespaceMaxBytes limits
  | Some _, Entries => namespaceMaxEntries limits
  end.

Definition zero_usage (u : resourceUsage) : bool := (ru_Bytes u =? 0) && (ru_Entries u =? 0).

(** [namespaces] counts the namespaces with an entry in the map, none of which is zero. *)
Definition tidy_ledger (l : ledger) : Prop :=
  lg_namespaces l = Z.of_nat (size (lg_namespaceUsage l)) /\ map_Forall (fun _ u => zero_usage u = false) (lg_namespaceUsage l).

Lemma zero_usage_true u : zero_usage u = true -> u = {| ru_Bytes := 0; ru_Entries := 0 |}.
Proof. destruct u as [b e]. unfold zero_usage. cbn. intros [->%Z.eqb_eq ->%Z.eqb_eq]%andb_prop. done. Qed.

Lemma usage_of_add namespace bytes entries l n :
  usage_of (addCapacityLocked namespace bytes entries l) n =
    if decide (n = namespace) then {| ru_Bytes := ru_Bytes (usage_of l namespace) + bytes; ru_Entries := ru_Entries (usage_of l namespace) + entries |}
    else usage_of l n.
Proof.
  unfold addCapacityLocked. set (current := {| ru_Bytes := _; ru_Entries := _ |}). fold (zero_usage current).
  destruct (zero_usage current) eqn:E; unfold usage_of; cbn [lg_namespaceUsage]; destruct (decide (n = namespace)) as [->|Hn].
  - rewrite lookup_delete_eq. apply zero_usage_true in E. by rewrite E.
  - by rewrite lookup_delete_ne.
  - by rewrite lookup_insert_eq.
  - by rewrite lookup_insert_ne.
Qed.

Lemma view_add k scope namespace bytes entries l :
  view k scope (addCapacityLocked namespace bytes entries l) = view k scope l + weight k scope namespace bytes entries.
Proof.
  destruct scope as [n|]; unfold view, weight; cbn [in_scope].
  - rewrite usage_of_add. destruct (str_eqb namespace n) eqn:E.
    + apply str_eqb_eq in E as ->. rewrite decide_True by done. by destruct k.
    + apply str_eqb_neq in E. rewrite decide_False by congruence. destruct k; lia.
  - unfold addCapacityLocked. destruct (_ && _) in |- *; by destruct k.
Qed.

Lemma add_tidy namespace bytes entries l : tidy_ledger l -> tidy_ledger (addCapacityLocked namespace bytes entries l).
Proof.
  intros [Hn Hz]. unfold addCapacityLocked. set (current := {| ru_Bytes := _; ru_Entries := _ |}). fold (zero_usage current).
  fold (zero_usage (usage_of l namespace)).
  assert (zero_usage (usage_of l namespace) = negb (bool_decide (is_Some (lg_namespaceUsage l !! namespace)))) as ->.
  { unfold usage_of. destruct (lg_namespaceUsage l !! namespace) as [u|] eqn:E; [|done]. exact (Hz _ _ E). }
  assert (is_Some (lg_namespaceUsage l !! namespace) -> size (lg_namespaceUsage l) <> 0%nat) as Hsz.
  { intros [u Hu] Hs%map_size_empty_inv. by rewrite Hs, lookup_empty in Hu. }
  destruct (zero_usage current) eqn:E; unfold tidy_ledger; cbn [lg_namespaces lg_namespaceUsage]; (split; [|by first [apply map_Forall_delete|apply map_Forall_insert_2]]).
  - rewrite map_size_delete. destruct (lg_namespaceUsage l !! namespace); cbn; [specialize (Hsz (mk_is_Some _ _ eq_refl)); lia|lia].
  - rewrite map_size_insert. destruct (lg_namespaceUsage l !! namespace); cbn; lia.
Qed.

(** *** Sums over a map *)

Definition tally {K V} `{Countable K} (f : V -> Z) (m : gmap K V) : Z := map_fold (fun _ v n => f v + n) 0 m.

Section tally.
Context {K V : Type} `{Countable K} (f : V -> Z).

Lemma tally_empty : tally f (∅ : gmap K V) = 0.
Proof. apply map_fold_empty. Qed.

Lemma tally_fresh (m : gmap K V) (i : K) v : m !! i = None -> tally f (<[i := v]> m) = f v + tally f m.
Proof. intros Hi. apply (map_fold_insert_L (fun _ v n => f v + n)); [intros; lia|done]. Qed.

Lemma tally_delete (m : gmap K V) (i : K) : tally f (delete i m) = tally f m - match m !! i with Some v => f v | None => 0 end.
Proof.
  destruct (m !! i) as [v|] eqn:E; [|rewrite delete_id by done; lia].
  rewrite <- (insert_delete_id m i v) at 2 by done. rewrite tally_fresh by apply lookup_delete_eq. lia.
Qed.

Lemma tally_insert (m : gmap K V) (i : K) v : tally f (<[i := v]> m) = tally f m - match m !! i with Some v => f v | None => 0 end + f v.
Proof. rewrite <- insert_delete_eq, tally_fresh by apply lookup_delete_eq. rewrite tally_delete. lia. Qed.

Lemma tally_nonneg (m : gmap K V) : map_Forall (fun _ v => 0 <= f v) m -> 0 <= tally f m.
Proof.
  induction m as [|i v m Hi IH] using map_ind; [by rewrite tally_empty|]. intros Hf. rewrite tally_fresh by done.
  apply map_Forall_insert in Hf as [Hv Hm]; [|done]. specialize (IH Hm). lia.
Qed.

Lemma tally_ext (m m' : gmap K V) : (forall i : K, (f <$> m !! i) = (f <$> m' !! i)) -> tally f m = tally f m'.
Proof.
  revert m'. induction m as [|i v m Hi IH] using map_ind; intros m' He.
  - assert (m' = ∅) as ->; [|done]. apply map_empty. intros i. specialize (He i). rewrite lookup_empty in He. by destruct (m' !! i).
  - pose proof (He i) as Hv. rewrite lookup_insert_eq in Hv. destruct (m' !! i) as [v'|] eqn:Hi'; [|done]. cbn in Hv. injection Hv as Hv.
    rewrite tally_fresh by done. rewrite (IH (delete i m')), tally_delete, Hi'; [lia|]. intros j. destruct (decide (j = i)) as [->|Hj].
    + by rewrite Hi, lookup_delete_eq.
    + rewrite lookup_delete_ne by done. rewrite <- He. by rewrite lookup_insert_ne.
Qed.

End tally.

Definition row_weight (k : measure) (scope : option gostring) (e : CompileCacheEntry) : Z := weight k scope (en_Namespace e) (en_Size e) 1.
Definition credit_weight (k : measure) (scope : option gostring) (c : credit) : Z := weight k scope (cr_Namespace c) (cr_Bytes c) (cr_Entries c).

(** The ledger is the sum of the rows, and of what goroutines have in it beyond the rows. *)
Definition balanced (l : ledger) (rows : gmap ArtifactID CompileCacheEntry) (credits : gmap nat credit) : Prop :=
  forall k scope, view k scope l = tally (row_weight k scope) rows + tally (credit_weight k scope) credits.

Definition within (limits : Limits) (l : ledger) : Prop := forall k scope, view k scope l <= limit_of limits k scope.

Lemma view_empty k scope : view k scope empty_ledger = 0.
Proof. by destruct k, scope. Qed.

Lemma measured_balanced rows : balanced (measured rows) rows ∅ /\ tidy_ledger (measured rows).
Proof.
  unfold measured.
  apply (map_fold_weak_ind (fun l rows => balanced l rows ∅ /\ tidy_ledger l)); [split; [|by split]|].
  - intros k scope. rewrite !tally_empty. apply view_empty.
  - intros id e rows' l Hid [Hb Ht]. split; [|by apply add_tidy]. intros k scope. rewrite view_add, (Hb k scope), tally_fresh by done.
    change (weight k scope (en_Namespace e) (en_Size e) 1) with (row_weight k scope e). lia.
Qed.

(** ** The invariant *)

(** A path that only bytes not drawn yet can give. *)
Definition fresh (w : world) (path : gostring) : Prop :=
  exists g id, g ∈ ou_entropy (w_outside w) /\ validate id = None /\ names id g path.

Definition row_at (w : world) (path : gostring) : Prop := exists id e, w_rows w !! id = Some e /\ en_StoragePath e = path.

(** No row has the path or will have it, and no upload to it will take effect. *)
Definition doomed (w : world) (path : gostring) : Prop :=
  is_probe path = true
  \/ (~ row_at w path /\ ~ fresh w path /\ forall s, w_staged w !! path = Some s -> sg_deadline s < w_now w).

(** The upload of an artifact that was neither replaced nor removed since; the newest event is first. *)
Fixpoint current_upload (log : list event) (id : ArtifactID) : option gostring :=
  match log with
  | [] => None
  | ev_put id' content :: log => if decide (id' = id) then Some content else current_upload log id
  | ev_gone id' :: log => if decide (id' = id) then None else current_upload log id
  | ev_opened _ _ :: log => current_upload log id
  end.

(** The entry is that of the content, which was uploaded to its path. *)
Record describes (ids : gmap Z ArtifactID) (uploaded : gmap gostring gostring) (id : ArtifactID) (e : CompileCacheEntry) (content : gostring) : Prop := {
  de_identity : identity_of e = id;
  de_id : ids !! en_ID e = Some id;
  de_uploaded : uploaded !! en_StoragePath e = Some content;
  de_size : en_Size e = len content /\ 0 < en_Size e;
  de_checksum : en_Checksum e = checksum_of content;
  de_path : named_for id (en_StoragePath e);
}.

Definition entry_ok (w : world) (id : ArtifactID) (e : CompileCacheEntry) : Prop :=
  validate id = None /\ an_object (en_StoragePath e)
  /\ exists content, describes (w_ids w) (w_uploaded w) id e content /\ current_upload (w_log w) id = Some content.

Record slots_ok (limits : Limits) (s : service) : Prop := {
  so_admission : Z.of_nat (size (sv_uploadAdmission s)) <= MaxConcurrentUploads limits + MaxQueuedUploads limits;
  so_uploads : Z.of_nat (size (sv_uploadSlots s)) <= MaxConcurrentUploads limits;
  so_inflight : inflight_bytes (sv_inflight s) <= MaxInflightUploadBytes limits;
  so_leases : map_Forall (fun _ n => 0 <= n) (sv_inflight s);
  so_downloads : Z.of_nat (size (sv_downloadSlots s)) <= MaxConcurrentDownloads limits;
}.

(** Objects are what was uploaded, and no row is without its object. *)
Definition intact (w : world) : Prop :=
  (forall path content, w_objects w !! path = Some content -> w_uploaded w !! path = Some content)
  /\ forall path, row_at w path -> is_Some (w_objects w !! path).

Record inv (limits : Limits) (w : world) : Prop := {
  in_rows : map_Forall (entry_ok w) (w_rows w);
  in_distinct id id' e e' : w_rows w !! id = Some e -> w_rows w !! id' = Some e' -> en_StoragePath e = en_StoragePath e' -> id = id';
  in_ids : 0 < db_next_id (w_db w) /\ map_Forall (fun n _ => 0 < n < db_next_id (w_db w)) (w_ids w);
  in_gone id : w_rows w !! id = None -> current_upload (w_log w) id = None;
  in_entropy : NoDup (ou_entropy (w_outside w)) /\ Forall generation (ou_entropy (w_outside w));
  in_fresh path : fresh w path ->
    ~ row_at w path /\ w_staged w !! path = None /\ w_deletions w !! path = None /\ w_uploaded w !! path = None;
  in_staged : map_Forall (fun path _ => an_object path /\ ~ row_at w path) (w_staged w);
  in_queue : map_Forall (fun path d => ~ row_at w path /\ forall s, w_staged w !! path = Some s -> sg_deadline s < cd_NotBefore d) (w_deletions w);
  in_named : map_Forall (fun path d => cd_StoragePath d = path) (w_deletions w);
  in_objects path : is_Some (w_objects w !! path) ->
    is_Some (w_uploaded w !! path) /\ (is_probe path = true \/ row_at w path \/ is_Some (w_deletions w !! path));
  in_uploaded : map_Forall (fun path content => if is_probe path then content = bs "1" else an_object path) (w_uploaded w);
  in_intact : ou_tampered (w_outside w) = false -> intact w;
  in_touches : map_Forall (fun identity t => cacheIdentityParts (pt_Protocol t) (pt_Namespace t) (pt_Key t) = identity) (sv_touches (w_service w));
  in_credits : map_Forall (fun _ c => 0 <= cr_Bytes c /\ 0 <= cr_Entries c) (w_credits w);
  in_balanced : balanced (w_ledger w) (w_rows w) (w_credits w);
  in_tidy : tidy_ledger (w_ledger w);
  in_within : within limits (w_ledger w);
  in_slots : slots_ok limits (w_service w);
}.

(** ** What others may do *)

(** To what goroutine [i] knows while it holds these locks. *)
Record apart (i : nat) (locked : gostring -> Prop) (w w' : world) : Prop := {
  ap_now : w_now w <= w_now w';
  ap_ids : w_ids w ⊆ w_ids w';
  ap_uploaded : w_uploaded w ⊆ w_uploaded w';
  ap_log : w_log w `suffix_of` w_log w';
  ap_fresh path : fresh w' path -> fresh w path;
  ap_rows id : locked (cacheIdentity id) -> w_rows w' !! id = w_rows w !! id;
  ap_staged path s : sg_owner s = i -> w_staged w !! path = Some s ->
    w_staged w' !! path = Some s /\ w_uploaded w' !! path = w_uploaded w !! path
    /\ (w_now w' <= sg_deadline s -> (is_Some (w_deletions w !! path) -> is_Some (w_deletions w' !! path))
          /\ (ou_tampered (w_outside w') = false -> w_objects w' !! path = w_objects w !! path));
  ap_doomed path : doomed w path -> doomed w' path /\ (is_probe path = false -> w_objects w !! path = None -> w_objects w' !! path = None);
  ap_tampered : ou_tampered (w_outside w) = true -> ou_tampered (w_outside w') = true;
}.

Lemma apart_refl i locked w : apart i locked w w.
Proof. split; by auto. Qed.

Lemma apart_mono i (locked locked' : gostring -> Prop) w w' : (forall k, locked' k -> locked k) -> apart i locked w w' -> apart i locked' w w'.
Proof. intros Hk []. split; auto. Qed.

Lemma apart_trans i locked w w' w'' : apart i locked w w' -> apart i locked w' w'' -> apart i locked w w''.
Proof.
  intros [N I U L F R S D T] [N' I' U' L' F' R' S' D' T']. split; [lia|by etrans|by etrans|by etrans|by auto|..|by auto].
  - intros id Hk. by rewrite R', R.
  - intros path s Ho Hs. destruct (S path s Ho Hs) as (Hs1 & Hu & Hd). destruct (S' path s Ho Hs1) as (Hs2 & Hu' & Hd').
    split_and!; [done|congruence|]. intros Hn. destruct (Hd ltac:(lia)) as [Hq Ht], (Hd' Hn) as [Hq' Ht']. split; [by auto|].
    intros Hno. rewrite Ht' by done. apply Ht. by destruct (ou_tampered (w_outside w')); [rewrite T' in Hno|].
  - intros path Hd. destruct (D path Hd) as [Hd1 Ho]. destruct (D' path Hd1) as [Hd2 Ho']. auto.
Qed.

(** What goroutine [i] holds is what it was. *)
Record held_same (i : nat) (w w' : world) : Prop := {
  hs_locks k : w_locks w' !! k = Some i <-> w_locks w !! k = Some i;
  hs_credit : w_credits w' !! i = w_credits w !! i;
  hs_admission : i ∈ sv_uploadAdmission (w_service w') <-> i ∈ sv_uploadAdmission (w_service w);
  hs_upload : i ∈ sv_uploadSlots (w_service w') <-> i ∈ sv_uploadSlots (w_service w);
  hs_lease : sv_inflight (w_service w') !! i = sv_inflight (w_service w) !! i;
  hs_download : i ∈ sv_downloadSlots (w_service w') <-> i ∈ sv_downloadSlots (w_service w);
}.

Lemma held_same_refl i w : held_same i w w.
Proof. by split. Qed.

Lemma held_trans i w w' w'' : held_same i w w' -> held_same i w' w'' -> held_same i w w''.
Proof.
  intros [K C A U L D] [K' C' A' U' L' D'].
  split; [intros k; by rewrite K'|by rewrite C'|by rewrite A'|by rewrite U'|by rewrite L'|by rewrite D'].
Qed.

Definition others (i : nat) (w w' : world) : Prop := held_same i w w' /\ apart i (fun k => w_locks w !! k = Some i) w w'.

Lemma others_refl i w : others i w w.
Proof. split; [apply held_same_refl|apply apart_refl]. Qed.

Lemma others_trans i w w' w'' : others i w w' -> others i w' w'' -> others i w w''.
Proof.
  intros [Hh Ha] [Hh' Ha']. split; [by eapply held_trans|]. eapply apart_trans; [exact Ha|]. eapply apart_mono; [|exact Ha'].
  intros k. by rewrite (hs_locks _ _ _ Hh).
Qed.

Definition compile_protocol (limits : Limits) : protocol world :=
  {| bounded := fun _ => True; invariant := inv limits; rely := others; rely_refl := others_refl; rely_trans := others_trans |}.
