(* ===== verification/CompileSteps.v ===== *)
(** * The steps of the compiler cache (CompileWorld.v)

    What a goroutine holds and knows, and for each call of the service what it needs and
    what it gives: every one keeps the invariant, and keeps to what the others rely on. *)

From stdpp Require Import gmap.
From S2P Require Export CompileInvariant.

(** The rule of a step, for the facts it leaves alone. *)
Tactic Notation "framing" uconstr(rule) :=
  eapply hoare_weaken; [eapply rule; try done; try apply _|by intros w _ [Hm Hf]; exact (conj Hm (conj Hf I))|by intros ? w _ (Hm & Hf & _)].

Section goroutine.
Context (limits : Limits) (me : nat).

(** ** Assertions *)

(** The locks, the credit, the places and slots, and the lease on staged bytes a goroutine has. *)
Record hold := {
  ho_locks : gset gostring;
  ho_credit : option credit;
  ho_admission : bool;
  ho_upload : bool;
  ho_lease : option Z;
  ho_download : bool;
}.

Definition nothing : hold :=
  {| ho_locks := ∅; ho_credit := None; ho_admission := false; ho_upload := false; ho_lease := None; ho_download := false |}.

Definition with_locks (l : gset gostring) (h : hold) : hold :=
  {| ho_locks := l; ho_credit := ho_credit h; ho_admission := ho_admission h; ho_upload := ho_upload h; ho_lease := ho_lease h; ho_download := ho_download h |}.
Definition owing (c : option credit) (h : hold) : hold :=
  {| ho_locks := ho_locks h; ho_credit := c; ho_admission := ho_admission h; ho_upload := ho_upload h; ho_lease := ho_lease h; ho_download := ho_download h |}.
Definition with_slots (admission upload : bool) (lease : option Z) (download : bool) (h : hold) : hold :=
  {| ho_locks := ho_locks h; ho_credit := ho_credit h; ho_admission := admission; ho_upload := upload; ho_lease := lease; ho_download := download |}.

Record mine (h : hold) (w : world) : Prop := {
  mi_locks k : w_locks w !! k = Some me <-> k ∈ ho_locks h;
  mi_credit : w_credits w !! me = ho_credit h;
  mi_admission : me ∈ sv_uploadAdmission (w_service w) <-> ho_admission h = true;
  mi_upload : me ∈ sv_uploadSlots (w_service w) <-> ho_upload h = true;
  mi_lease : sv_inflight (w_service w) !! me = ho_lease h;
  mi_download : me ∈ sv_downloadSlots (w_service w) <-> ho_download h = true;
}.

(** Facts that last while the goroutine holds the locks [L], whatever the others do and
    whatever it does itself elsewhere. *)
Class Firm (L : gset gostring) (F : world -> Prop) : Prop := firm w w' : F w -> apart me (.∈ L) w w' -> F w'.

Definition knows (h : hold) (F : world -> Prop) (w : world) : Prop := mine h w /\ F w.

Lemma mine_same h w w' : mine h w -> held_same me w w' -> mine h w'.
Proof.
  intros [K C A U L D] [K' C' A' U' L' D'].
  split; [intros k; by rewrite K'|by rewrite C'|by rewrite A'|by rewrite U'|by rewrite L'|by rewrite D'].
Qed.

Lemma firm_mono L L' F : L ⊆ L' -> Firm L F -> Firm L' F.
Proof. intros Hl HF w w' Hf Ha. eapply HF; [exact Hf|]. eapply apart_mono; [|exact Ha]. set_solver. Qed.

Lemma knows_steady h F : Firm (ho_locks h) F -> steady (compile_protocol limits) me (knows h F).
Proof.
  intros HF w w' [Hm Hf] [Hs Ha] _. split; [by eapply mine_same|]. eapply HF; [exact Hf|]. eapply apart_mono; [|exact Ha].
  intros k. apply Hm.
Qed.

#[export] Instance firm_pure L (P : Prop) : Firm L (fun _ => P).
Proof. by intros w w'. Qed.
#[export] Instance firm_and L F G : Firm L F -> Firm L G -> Firm L (fun w => F w /\ G w).
Proof. intros HF HG w w' [Hf Hg] Ha. split; [by eapply HF|by eapply HG]. Qed.
#[export] Instance firm_or L F G : Firm L F -> Firm L G -> Firm L (fun w => F w \/ G w).
Proof. intros HF HG w w' [Hf|Hg] Ha; [left; by eapply HF|right; by eapply HG]. Qed.
#[export] Instance firm_all {A} L (F : A -> world -> Prop) : (forall a, Firm L (F a)) -> Firm L (fun w => forall a, F a w).
Proof. intros HF w w' Hf Ha a. by eapply HF. Qed.
#[export] Instance firm_ex {A} L (F : A -> world -> Prop) : (forall a, Firm L (F a)) -> Firm L (fun w => exists a, F a w).
Proof. intros HF w w' [a Hf] Ha. exists a. by eapply HF. Qed.
#[export] Instance firm_impl L (P : Prop) F : Firm L F -> Firm L (fun w => P -> F w).
Proof. intros HF w w' Hf Ha Hp. eapply HF; [by apply Hf|done]. Qed.
#[export] Instance firm_doomed L path : Firm L (fun w => doomed w path).
Proof. intros w w' Hd Ha. by apply (ap_doomed _ _ _ _ Ha). Qed.
#[export] Instance firm_uploaded L path content : Firm L (fun w => w_uploaded w !! path = Some content).
Proof. intros w w' Hu Ha. eapply lookup_weaken; [exact Hu|apply Ha]. Qed.
#[export] Instance firm_ids L n id : Firm L (fun w => w_ids w !! n = Some id).
Proof. intros w w' Hu Ha. eapply lookup_weaken; [exact Hu|apply Ha]. Qed.
Lemma firm_row L id row : cacheIdentity id ∈ L -> Firm L (fun w => w_rows w !! id = row).
Proof. intros Hl w w' Hr Ha. by rewrite (ap_rows _ _ _ _ Ha). Qed.

(** ** Rules *)

(** A step that leaves the goroutine with [h']. *)
Record moves (h' : hold) (w w' : world) : Prop := {
  ac_inv : inv limits w';
  ac_apart j : j <> me -> apart j (fun k => w_locks w !! k = Some j) w w';
  ac_held j : j <> me -> held_same j w w';
  ac_mine : mine h' w';
}.

(** One that does nothing to what is known under [L], either. *)
Definition acts (L : gset gostring) (h' : hold) (w w' : world) : Prop := moves h' w w' /\ apart me (.∈ L) w w'.

Lemma acts_intro L h' w w' :
  inv limits w' -> (forall j, j <> me -> apart j (fun k => w_locks w !! k = Some j) w w') -> apart me (.∈ L) w w' ->
  (forall j, j <> me -> held_same j w w') -> mine h' w' -> acts L h' w w'.
Proof. intros. by split. Qed.

Lemma acts_stay L h w : inv limits w -> mine h w -> acts L h w w.
Proof. intros Hi Hm. apply acts_intro; [done|intros; apply apart_refl..|intros; apply held_same_refl|done]. Qed.

Abbreviation spec P m Q := (hoare (compile_protocol limits) me P m Q).

Lemma moves_good h' w w' : moves h' w w' -> good (compile_protocol limits) me w w'.
Proof. intros [Hi Ha Hh _]. split; [done|]. intros j Hj. split; auto. Qed.

(** A request, whatever it changes. *)
Lemma spec_moves {A} h P ready effectful (f : world -> A * world) (h' : result A -> hold) (R : result A -> world -> Prop) :
  Firm (ho_locks h) P -> (forall a, Firm (ho_locks (h' a)) (R a)) ->
  (forall w, inv limits w -> mine h w -> P w -> ready w = true -> moves (h' (Ok (f w).1)) w (f w).2 /\ R (Ok (f w).1) (f w).2) ->
  (forall e, h' (Err e) = h) -> (forall w e, inv limits w -> mine h w -> P w -> R (Err e) w) ->
  (effectful = true -> forall w e, inv limits w -> mine h w -> P w -> ready w = true -> h' (Ok (f w).1) = h /\ R (Err e) (f w).2) ->
  spec (knows h P) (request ready effectful f return_) (fun a => knows (h' a) (R a)).
Proof.
  intros HP HR Hok Hh' Herr Heff. apply hoare_request.
  - by apply knows_steady.
  - intros a. by apply knows_steady.
  - intros w Hi [[Hm Hp] Hready] _. destruct (Hok w Hi Hm Hp Hready) as [Ha Hr]. split; [by eapply moves_good|].
    split; [by split; [apply Ha|]|]. intros He e. destruct (Heff He w e Hi Hm Hp Hready) as [Hh Hre]. split; [|done]. rewrite Hh', <- Hh. apply Ha.
  - intros w e Hi [Hm Hp]. split; [by rewrite Hh'|by apply Herr].
Qed.

Section rules.
Context {A : Type} (L : gset gostring) (F G : world -> Prop) (h : hold).

Lemma spec_step (f : world -> A * world) (h' : A -> hold) (R : A -> world -> Prop) :
  Firm L F -> Firm (ho_locks h) G -> (forall a, Firm (ho_locks (h' a)) (R a)) -> L ⊆ ho_locks h -> (forall a, L ⊆ ho_locks (h' a)) ->
  (forall w, inv limits w -> mine h w -> G w -> acts L (h' (f w).1) w (f w).2 /\ R (f w).1 (f w).2) ->
  spec (knows h (fun w => F w /\ G w)) (atomically f) (fun a => knows (h' a) (fun w => F w /\ R a w)).
Proof.
  intros HF HG HR Hl Hl' Hf. apply hoare_step.
  - apply knows_steady, firm_and; solve [eapply firm_mono; [|exact HF]; auto|apply HG|apply HR].
  - intros a. apply knows_steady, firm_and; solve [eapply firm_mono; [|exact HF]; auto|apply HG|apply HR].
  - intros w Hi [Hm [Hfw Hg]] _. destruct (Hf w Hi Hm Hg) as [Ha Hr]. split; [by eapply moves_good, Ha|]. split; [apply Ha|].
    split; [|done]. eapply HF; [exact Hfw|apply Ha].
Qed.

(** A request: without an error it has had its effect; with one it may have, if it is effectful. *)
Lemma spec_request ready effectful (f : world -> A * world) (h' : result A -> hold) (R : result A -> world -> Prop) :
  Firm L F -> Firm (ho_locks h) G -> (forall a, Firm (ho_locks (h' a)) (R a)) -> L ⊆ ho_locks h -> (forall a, L ⊆ ho_locks (h' a)) ->
  (forall w, inv limits w -> mine h w -> G w -> ready w = true -> acts L (h' (Ok (f w).1)) w (f w).2 /\ R (Ok (f w).1) (f w).2) ->
  (forall e, h' (Err e) = h) -> (forall w e, inv limits w -> mine h w -> G w -> R (Err e) w) ->
  (effectful = true -> forall w e, inv limits w -> mine h w -> G w -> ready w = true -> h' (Ok (f w).1) = h /\ R (Err e) (f w).2) ->
  spec (knows h (fun w => F w /\ G w)) (request ready effectful f return_) (fun a => knows (h' a) (fun w => F w /\ R a w)).
Proof.
  intros HF HG HR Hl Hl' Hok Hh' Herr Heff. apply spec_moves.
  - apply firm_and; [by eapply firm_mono|done].
  - intros a. apply firm_and; [eapply firm_mono; [|exact HF]; auto|apply HR].
  - intros w Hi Hm [Hf Hg] Hready. destruct (Hok w Hi Hm Hg Hready) as [[Ha Hs] Hr]. split; [done|]. split; [|done]. eapply HF; [exact Hf|done].
  - done.
  - intros w e Hi Hm [Hf Hg]. split; [done|by apply Herr].
  - intros He w e Hi Hm [Hf Hg] Hready. destruct (Heff He w e Hi Hm Hg Hready) as [Hh Hr]. destruct (Hok w Hi Hm Hg Hready) as [[_ Hs] _].
    split; [done|]. split; [|done]. eapply HF; [exact Hf|done].
Qed.

(** A request that only reads. *)
Lemma spec_query (f : world -> A) (R : result A -> world -> Prop) :
  Firm (ho_locks h) F -> (forall a, Firm (ho_locks h) (R a)) ->
  (forall w, inv limits w -> mine h w -> F w -> R (Ok (f w)) w) -> (forall w e, inv limits w -> mine h w -> F w -> R (Err e) w) ->
  spec (knows h F) (query f) (fun a => knows h (fun w => F w /\ R a w)).
Proof.
  intros HF HR Hok Herr. apply hoare_read.
  - by apply knows_steady.
  - intros a. by apply knows_steady, firm_and.
  - intros w Hi [Hm Hf] _. split; [done|]. split; [done|]. by apply Hok.
  - intros w e Hi [Hm Hf]. split; [done|]. split; [done|]. by apply Herr.
Qed.

Lemma spec_look (f : world -> A) (R : A -> world -> Prop) :
  Firm (ho_locks h) F -> (forall a, Firm (ho_locks h) (R a)) -> (forall w, inv limits w -> mine h w -> F w -> R (f w) w) ->
  spec (knows h F) (atomically (fun w => (f w, w))) (fun a => knows h (fun w => F w /\ R a w)).
Proof.
  intros HF HR Hok. apply hoare_look; [by apply knows_steady|intros a; by apply knows_steady, firm_and|].
  intros w Hi [Hm Hf]. split; [done|]. split; [done|]. by apply Hok.
Qed.

Lemma spec_return (a : A) (Q : A -> world -> Prop) :
  Firm (ho_locks h) F -> (forall w, inv limits w -> knows h F w -> Q a w) -> spec (knows h F) (return_ a) Q.
Proof. intros HF Hq. apply hoare_return; [by apply knows_steady|done]. Qed.

End rules.

Lemma spec_ctx_err h F : Firm (ho_locks h) F -> spec (knows h F) ctx_err (fun _ => knows h F).
Proof. intros HF. apply hoare_ctx_err; [by apply knows_steady|done]. Qed.

(** ** Steps on the service *)

Lemma apart_service i locked s w : apart i locked w (set_service s w).
Proof. split; by auto. Qed.

Lemma apart_ledger i locked credits s w : apart i locked w (set_credits credits (set_service s w)).
Proof. split; by auto. Qed.

Lemma inv_ledger credits s w :
  inv limits w ->
  map_Forall (fun identity t => cacheIdentityParts (pt_Protocol t) (pt_Namespace t) (pt_Key t) = identity) (sv_touches s) ->
  map_Forall (fun _ c => 0 <= cr_Bytes c /\ 0 <= cr_Entries c) credits ->
  balanced (sv_ledger s) (w_rows w) credits -> tidy_ledger (sv_ledger s) -> within limits (sv_ledger s) -> slots_ok limits s ->
  inv limits (set_credits credits (set_service s w)).
Proof. intros [] Ht Hc Hb Hy Hw Hs. by split. Qed.

Lemma set_credits_id w : set_credits (w_credits w) w = w.
Proof. by destruct w as [d s o []]. Qed.

(** What none of them changes. *)
Lemma inv_service s w :
  inv limits w -> sv_ledger s = w_ledger w ->
  map_Forall (fun identity t => cacheIdentityParts (pt_Protocol t) (pt_Namespace t) (pt_Key t) = identity) (sv_touches s) -> slots_ok limits s ->
  inv limits (set_service s w).
Proof.
  intros Hi Hl Ht Hs. rewrite <- (set_credits_id (set_service s w)). apply inv_ledger; [done|done|apply Hi|..|done]; rewrite Hl; apply Hi.
Qed.

(** *** Locks *)

Lemma inv_locks locks w : inv limits w -> inv limits (set_locks locks w).
Proof. intros Hi. apply inv_service; [done|done|apply Hi|]. by destruct (in_slots _ _ Hi). Qed.

Lemma acts_lock L k h w :
  inv limits w -> mine h w -> w_locks w !! k = None -> acts L (with_locks ({[k]} ∪ ho_locks h) h) w (set_locks (<[k := me]> (w_locks w)) w).
Proof.
  intros Hi [K C A U Le D] Hk. apply acts_intro.
  - by apply inv_locks.
  - intros j _. apply apart_service.
  - apply apart_service.
  - intros j Hj. split; try done. intros k'. cbn. rewrite lookup_insert_Some. split; [naive_solver|]. intros Hk'. right. split; [congruence|done].
  - split; try done. intros k'. cbn. rewrite lookup_insert_Some, elem_of_union, elem_of_singleton, <- K. split; [naive_solver|].
    intros [->|Hk']; [by left|]. right. split; [congruence|done].
Qed.

Lemma acts_unlock L k h w :
  inv limits w -> mine h w -> k ∈ ho_locks h -> acts L (with_locks (ho_locks h ∖ {[k]}) h) w (set_locks (delete k (w_locks w)) w).
Proof.
  intros Hi [K C A U Le D] Hk%K. apply acts_intro.
  - by apply inv_locks.
  - intros j _. apply apart_service.
  - apply apart_service.
  - intros j Hj. split; try done. intros k'. cbn. rewrite lookup_delete_Some. split; [naive_solver|]. intros Hk'. split; [congruence|done].
  - split; try done. intros k'. cbn. rewrite lookup_delete_Some, elem_of_difference, not_elem_of_singleton, <- K. naive_solver.
Qed.

(** Without a lock that is taken or left. *)
Lemma with_locks_id h : with_locks (ho_locks h) h = h.
Proof. by destruct h. Qed.

Lemma spec_lock k h F :
  Firm (ho_locks h) F -> k ∉ ho_locks h ->
  spec (knows h F) (lock me k) (fun a => knows (match a with Ok _ => with_locks ({[k]} ∪ ho_locks h) h | Err _ => h end) F).
Proof.
  intros HF Hk. eapply hoare_weaken; [eapply (spec_request (ho_locks h) F (fun _ => True) h _ false _
    (fun a => match a with Ok _ => with_locks ({[k]} ∪ ho_locks h) h | Err _ => h end) (fun _ _ => True)); try done; try apply _|..].
  - intros [u|e]; [cbn; set_solver|done].
  - intros w Hi Hm _ Hr%bool_decide_eq_true. split; [|done]. by apply acts_lock.
  - by intros w _ [Hm Hf].
  - by intros [u|e] w _ (Hm & Hf & _).
Qed.

Lemma spec_tryLock k h F :
  Firm (ho_locks h) F ->
  spec (knows h F) (tryLock me k) (fun locked w => knows (if (locked : bool) then with_locks ({[k]} ∪ ho_locks h) h else h) F w /\ (locked = true -> k ∉ ho_locks h)).
Proof.
  intros HF. eapply hoare_weaken; [eapply (spec_step (ho_locks h) F (fun _ => True) h _
    (fun locked : bool => if locked then with_locks ({[k]} ∪ ho_locks h) h else h) (fun locked _ => locked = true -> k ∉ ho_locks h)); try done; try apply _|..].
  - intros []; [cbn; set_solver|done].
  - intros w Hi Hm _. case_decide as Hk; cbn [fst snd].
    + split; [by apply acts_lock|]. intros _ Hin. apply (mi_locks _ _ Hm) in Hin. congruence.
    + split; [|done]. by apply acts_stay.
  - by intros w _ [Hm Hf].
  - intros locked w _ (Hm & Hf & Hl). by split; [split|].
Qed.

Lemma spec_unlock k h F :
  Firm (ho_locks h ∖ {[k]}) F -> k ∈ ho_locks h -> spec (knows h F) (unlock k) (fun _ => knows (with_locks (ho_locks h ∖ {[k]}) h) F).
Proof.
  intros HF Hk. eapply hoare_weaken; [eapply (spec_step (ho_locks h ∖ {[k]}) F (fun _ => True) h _
    (fun _ => with_locks (ho_locks h ∖ {[k]}) h) (fun _ _ => True)); try done; try apply _|..].
  - set_solver.
  - intros w Hi Hm _. split; [|done]. by apply acts_unlock.
  - by intros w _ [Hm Hf].
  - by intros u w _ (Hm & Hf & _).
Qed.

(** *** Places and slots *)

Lemma acts_service L h' s w :
  inv limits (set_service s w) -> (forall j, j <> me -> held_same j w (set_service s w)) -> mine h' (set_service s w) -> acts L h' w (set_service s w).
Proof. intros Hi Hh Hm. apply acts_intro; [done|intros; apply apart_service..|done|done]. Qed.

Lemma inv_slots admission uploads inflight downloads w :
  inv limits w -> (slots_ok limits (w_service w) -> slots_ok limits (w_service (set_slots admission uploads inflight downloads w))) ->
  inv limits (set_slots admission uploads inflight downloads w).
Proof. intros Hi Hs. apply inv_service; [done|done|apply Hi|apply Hs, Hi]. Qed.

Lemma size_more (X : gset nat) : (size ({[me]} ∪ X) <= 1 + size X)%nat.
Proof. rewrite size_union_alt, size_singleton. apply Nat.add_le_mono_l, subseteq_size. set_solver. Qed.

Lemma size_less (X : gset nat) : (size (X ∖ {[me]}) <= size X)%nat.
Proof. apply subseteq_size. set_solver. Qed.

Lemma acts_slots L (admission uploads downloads : gset nat) (inflight : gmap nat Z) a u l d h w :
  inv limits w -> mine h w ->
  (slots_ok limits (w_service w) -> slots_ok limits (w_service (set_slots admission uploads inflight downloads w))) ->
  (forall j, j <> me -> (j ∈ admission <-> j ∈ sv_uploadAdmission (w_service w)) /\ (j ∈ uploads <-> j ∈ sv_uploadSlots (w_service w))
     /\ inflight !! j = sv_inflight (w_service w) !! j /\ (j ∈ downloads <-> j ∈ sv_downloadSlots (w_service w))) ->
  (me ∈ admission <-> a = true) -> (me ∈ uploads <-> u = true) -> inflight !! me = l -> (me ∈ downloads <-> d = true) ->
  acts L (with_slots a u l d h) w (set_slots admission uploads inflight downloads w).
Proof.
  intros Hi [] Hs Hj Ha Hu Hl Hd. apply acts_service; [by apply inv_slots| |by split]. intros j Hne. destruct (Hj j Hne) as (? & ? & ? & ?). by split.
Qed.

Lemma spec_admitUpload h F :
  Firm (ho_locks h) F -> spec (knows h F) (admitUpload limits me)
    (fun admitted => knows (with_slots (admitted || ho_admission h) (ho_upload h) (ho_lease h) (ho_download h) h) F).
Proof.
  intros HF. framing (spec_step (ho_locks h) F (fun _ => True) h _
    (fun admitted : bool => with_slots (admitted || ho_admission h) (ho_upload h) (ho_lease h) (ho_download h) h) (fun _ _ => True)).
  intros w Hi Hm _. split; [|done]. cbv zeta. destruct (Z.ltb_spec (Z.of_nat (size (sv_uploadAdmission (w_service w)))) (MaxConcurrentUploads limits + MaxQueuedUploads limits)) as [Hs|Hs]; cbn [fst snd orb].
  - apply acts_slots; [done|done| |intros j Hj; set_solver|set_solver|apply Hm..].
    intros []. split; try done. cbn. pose proof (size_more (sv_uploadAdmission (w_service w))). lia.
  - apply acts_stay; [done|]. by destruct h, Hm.
Qed.

Lemma spec_releaseAdmission h F :
  Firm (ho_locks h) F -> spec (knows h F) (releaseAdmission me) (fun _ => knows (with_slots false (ho_upload h) (ho_lease h) (ho_download h) h) F).
Proof.
  intros HF. framing (spec_step (ho_locks h) F (fun _ => True) h _
    (fun _ => with_slots false (ho_upload h) (ho_lease h) (ho_download h) h) (fun _ _ => True)).
  intros w Hi Hm _. split; [|done]. apply acts_slots; [done|done| |intros j Hj; set_solver|set_solver|apply Hm..].
  intros []. split; try done. cbn. pose proof (size_less (sv_uploadAdmission (w_service w))). lia.
Qed.

Lemma spec_releaseTransfer h F :
  Firm (ho_locks h) F -> spec (knows h F) (releaseTransfer me) (fun _ => knows (with_slots (ho_admission h) false (ho_lease h) (ho_download h) h) F).
Proof.
  intros HF. framing (spec_step (ho_locks h) F (fun _ => True) h _
    (fun _ => with_slots (ho_admission h) false (ho_lease h) (ho_download h) h) (fun _ _ => True)).
  intros w Hi Hm _. split; [|done]. apply acts_slots; [done|done| |intros j Hj; set_solver|apply Hm|set_solver|apply Hm..].
  intros []. split; try done. cbn. pose proof (size_less (sv_uploadSlots (w_service w))). lia.
Qed.

Lemma spec_releaseDownload h F :
  Firm (ho_locks h) F -> spec (knows h F) (releaseDownload me) (fun _ => knows (with_slots (ho_admission h) (ho_upload h) (ho_lease h) false h) F).
Proof.
  intros HF. framing (spec_step (ho_locks h) F (fun _ => True) h _
    (fun _ => with_slots (ho_admission h) (ho_upload h) (ho_lease h) false h) (fun _ _ => True)).
  intros w Hi Hm _. split; [|done]. apply acts_slots; [done|done| |intros j Hj; set_solver|apply Hm..|set_solver].
  intros []. split; try done. cbn. pose proof (size_less (sv_downloadSlots (w_service w))). lia.
Qed.

Lemma spec_releaseStaging h F :
  Firm (ho_locks h) F -> spec (knows h F) (releaseStaging me) (fun _ => knows (with_slots (ho_admission h) (ho_upload h) None (ho_download h) h) F).
Proof.
  intros HF. framing (spec_step (ho_locks h) F (fun _ => True) h _
    (fun _ => with_slots (ho_admission h) (ho_upload h) None (ho_download h) h) (fun _ _ => True)).
  intros w Hi Hm _. split; [|done]. apply acts_slots; [done|done| | |apply Hm..|apply lookup_delete_eq|apply Hm].
  - intros [Ha Hu Hn Hl Hd]. split; try done; cbn; [|by apply map_Forall_delete].
    change inflight_bytes with (tally (fun n : Z => n) (K := nat)) in *. rewrite tally_delete.
    destruct (_ !! me) as [n|] eqn:E; [|lia]. specialize (Hl _ _ E). cbn in Hl. lia.
  - intros j Hj. rewrite lookup_delete_ne by congruence. set_solver.
Qed.

Lemma spec_acquireDownload h F :
  Firm (ho_locks h) F -> spec (knows h F) (acquireDownload limits me)
    (fun slot => knows (with_slots (ho_admission h) (ho_upload h) (ho_lease h) (slot || ho_download h) h) F).
Proof.
  intros HF. framing (spec_step (ho_locks h) F (fun _ => True) h _
    (fun slot : bool => with_slots (ho_admission h) (ho_upload h) (ho_lease h) (slot || ho_download h) h) (fun _ _ => True)).
  intros w Hi Hm _. split; [|done]. cbv zeta. destruct (Z.ltb_spec (Z.of_nat (size (sv_downloadSlots (w_service w)))) (MaxConcurrentDownloads limits)) as [Hs|Hs]; cbn [fst snd orb].
  - apply acts_slots; [done|done| |intros j Hj; set_solver|apply Hm..|set_solver].
    intros []. split; try done. cbn. pose proof (size_more (sv_downloadSlots (w_service w))). lia.
  - apply acts_stay; [done|]. by destruct h, Hm.
Qed.

(** The hold with the transfer slot and the lease of an upload, or without. *)
Definition uploading (lease : option Z) (h : hold) : hold := with_slots (ho_admission h) (bool_decide (is_Some lease)) lease (ho_download h) h.

Lemma spec_acquireUpload bytes h F :
  Firm (ho_locks h) F -> ho_upload h = false -> ho_lease h = None -> 0 <= bytes ->
  spec (knows h F) (acquireUpload limits me bytes) (fun acquired => knows (match acquired with Ok _ => uploading (Some bytes) h | Err _ => h end) F).
Proof.
  intros HF Hu Hl Hb. assert (with_slots (ho_admission h) false None (ho_download h) h = h) as Heq by (destruct h; cbn in *; by subst).
  unfold acquireUpload.
  eapply (hoare_bind _ _ _ _ _ (fun slot => knows (match slot with Ok _ => with_slots (ho_admission h) true None (ho_download h) h | Err _ => h end) F)).
  - framing (spec_request (ho_locks h) F (fun _ => True) h _ false _
      (fun slot => match slot with Ok _ => with_slots (ho_admission h) true None (ho_download h) h | Err _ => h end) (fun _ _ => True)); [by intros []|].
    intros w Hi Hm _ Hr%Z.ltb_lt. split; [|done]. rewrite <- Hl. apply acts_slots; [done|done| |intros j Hj; set_solver|apply Hm|set_solver|apply Hm..].
    intros []. split; try done. cbn. pose proof (size_more (sv_uploadSlots (w_service w))). lia.
  - intros [[]|e]; [|by apply spec_return].
    eapply (hoare_bind _ _ _ _ _ (fun lease => knows (match lease with Ok _ => uploading (Some bytes) h | Err _ => with_slots (ho_admission h) true None (ho_download h) h end) F)).
    + framing (spec_request (ho_locks h) F (fun _ => True) (with_slots (ho_admission h) true None (ho_download h) h) _ false _
        (fun lease => match lease with Ok _ => uploading (Some bytes) h | Err _ => with_slots (ho_admission h) true None (ho_download h) h end) (fun _ _ => True)); [by intros []|].
      intros w Hi Hm _ Hr%Z.leb_le. split; [|done]. apply (acts_slots _ _ _ _ _ _ _ _ _ (with_slots (ho_admission h) true None (ho_download h) h)); [done|done| | |apply Hm..|apply lookup_insert_eq|apply Hm].
      * intros []. split; try done; cbn; [|by apply map_Forall_insert_2]. change inflight_bytes with (tally (fun n : Z => n) (K := nat)) in *. rewrite tally_insert.
        pose proof (mi_lease _ _ Hm) as Hle. cbn in Hle. rewrite Hle. lia.
      * intros j Hj. rewrite lookup_insert_ne by congruence. set_solver.
    + intros [[]|e].
      * by apply spec_return.
      * eapply hoare_bind; [by apply spec_releaseTransfer|]. intros []. cbn. apply spec_return; [done|]. intros w _ Hk. rewrite <- Heq. exact Hk.
Qed.

(** *** The ledger *)

(** What [settle_credit] leaves. *)
Definition credited (namespace : gostring) (bytes entries : Z) : option credit :=
  if (bytes =? 0) && (entries =? 0) then None else Some {| cr_Namespace := namespace; cr_Bytes := bytes; cr_Entries := entries |}.

Definition owed (k : measure) (scope : option gostring) (c : option credit) : Z :=
  match c with Some c => credit_weight k scope c | None => 0 end.

Lemma owed_credited k scope namespace bytes entries : owed k scope (credited namespace bytes entries) = weight k scope namespace bytes entries.
Proof.
  unfold credited. destruct (_ && _) eqn:E; [|done]. apply andb_prop in E as [->%Z.eqb_eq ->%Z.eqb_eq].
  unfold weight. by destruct (in_scope scope namespace), k.
Qed.

Lemma settle_lookup i namespace bytes entries (credits : gmap nat credit) :
  settle_credit me namespace bytes entries credits !! i = if decide (i = me) then credited namespace bytes entries else credits !! i.
Proof.
  unfold settle_credit, credited. destruct (_ && _), (decide (i = me)) as [->|Hi];
    rewrite ?lookup_delete_eq, ?lookup_insert_eq, ?lookup_delete_ne, ?lookup_insert_ne by congruence; done.
Qed.

Lemma settle_tally k scope namespace bytes entries credits :
  tally (credit_weight k scope) (settle_credit me namespace bytes entries credits) =
    tally (credit_weight k scope) credits - owed k scope (credits !! me) + weight k scope namespace bytes entries.
Proof.
  rewrite <- owed_credited. unfold settle_credit, credited, owed. destruct (_ && _); [rewrite tally_delete|rewrite tally_insert]; lia.
Qed.

Lemma settle_credits_ok namespace bytes entries credits :
  0 <= bytes -> 0 <= entries -> map_Forall (fun _ c => 0 <= cr_Bytes c /\ 0 <= cr_Entries c) credits ->
  map_Forall (fun _ c => 0 <= cr_Bytes c /\ 0 <= cr_Entries c) (settle_credit me namespace bytes entries credits).
Proof. intros Hb He Hc. unfold settle_credit. destruct (_ && _); [by apply map_Forall_delete|by apply map_Forall_insert_2]. Qed.

Lemma weight_neg k scope namespace bytes entries : weight k scope namespace (- bytes) (- entries) = - weight k scope namespace bytes entries.
Proof. unfold weight. by destruct (in_scope scope namespace), k. Qed.

Lemma weight_nonneg k scope namespace bytes entries : 0 <= bytes -> 0 <= entries -> 0 <= weight k scope namespace bytes entries.
Proof. unfold weight. destruct (in_scope scope namespace), k; lia. Qed.

Lemma spec_releaseCapacity namespace bytes entries h F :
  Firm (ho_locks h) F -> ho_credit h = credited namespace bytes entries -> 0 <= bytes -> 0 <= entries ->
  spec (knows h F) (releaseCapacity me namespace bytes entries) (fun _ => knows (owing None h) F).
Proof.
  intros HF Hc Hb He. unfold releaseCapacity. destruct ((bytes =? 0) && (entries =? 0)) eqn:Ez.
  - apply spec_return; [done|]. intros w _ Hk. replace (owing None h) with h; [done|]. unfold credited in Hc. rewrite Ez in Hc. destruct h; cbn in *; by subst.
  - framing (spec_step (ho_locks h) F (fun _ => True) h _ (fun _ => owing None h) (fun _ _ => True)).
    intros w Hi Hm _. split; [|done]. apply acts_intro.
    + apply inv_ledger; [done|apply Hi| | | | |by destruct (in_slots _ _ Hi)].
      * apply map_Forall_delete, Hi.
      * intros k scope. cbn. rewrite view_add, (in_balanced _ _ Hi), tally_delete, (mi_credit _ _ Hm), Hc, weight_neg, <- owed_credited.
        unfold owed. lia.
      * apply add_tidy, Hi.
      * intros k scope. cbn. rewrite view_add, weight_neg. pose proof (in_within _ _ Hi k scope). pose proof (weight_nonneg k scope namespace bytes entries Hb He). lia.
    + intros j _. apply apart_ledger.
    + apply apart_ledger.
    + intros j Hj. split; try done. cbn. by rewrite lookup_delete_ne.
    + destruct Hm. split; try done. cbn. apply lookup_delete_eq.
Qed.

Lemma fits_within l namespace bytes entries :
  within limits l -> 0 <= bytes -> 0 <= entries -> fits limits l namespace bytes entries = true -> within limits (addCapacityLocked namespace bytes entries l).
Proof.
  intros Hw Hb He Hf k scope. rewrite view_add. unfold fits in Hf. apply negb_true_iff in Hf.
  apply orb_false_iff in Hf as [[[H1 H2]%orb_false_iff H3]%orb_false_iff H4]. pose proof (Hw k scope). unfold weight.
  destruct scope as [n|]; cbn [in_scope]; [destruct (str_eqb namespace n) eqn:En; [apply str_eqb_eq in En as ->|]|]; destruct k; cbn in *; lia.
Qed.

Lemma spec_reserve namespace bytes entries h F :
  Firm (ho_locks h) F -> ho_credit h = None -> 0 <= bytes -> 0 <= entries ->
  spec (knows h F) (reserve limits me namespace bytes entries)
    (fun reserved => knows (if (reserved : bool) then owing (credited namespace bytes entries) h else h) F).
Proof.
  intros HF Hc Hb He. framing (spec_step (ho_locks h) F (fun _ => True) h _
    (fun reserved : bool => if reserved then owing (credited namespace bytes entries) h else h) (fun _ _ => True)); [by intros []|].
  intros w Hi Hm _. split; [|done]. destruct (fits _ _ _ _ _) eqn:Ef; cbn [fst snd].
  - apply acts_intro.
    + apply inv_ledger; [done|apply Hi| | | | |by destruct (in_slots _ _ Hi)].
      * by apply settle_credits_ok, Hi.
      * intros k scope. cbn. rewrite view_add, (in_balanced _ _ Hi), settle_tally, (mi_credit _ _ Hm), Hc. unfold owed. lia.
      * apply add_tidy, Hi.
      * apply fits_within; [apply Hi|done..].
    + intros j _. apply apart_ledger.
    + apply apart_ledger.
    + intros j Hj. split; try done. cbn. by rewrite settle_lookup, decide_False.
    + destruct Hm. split; try done. cbn. by rewrite settle_lookup, decide_True.
  - by apply acts_stay.
Qed.

End goroutine.
