(* ===== verification/CompileStore.v ===== *)
(** * Objects, paths and tables of the compiler cache (CompileWorld.v)

    The steps that change the storage, the queue of deletions and the table of entries. *)

From stdpp Require Import gmap.
From S2P Require Export CompileSteps.

(** ** Paths in a world *)

Lemma tmp_ne path : path <> path ++ bs ".tmp".
Proof. intros Heq. apply (f_equal (@length Z)) in Heq. rewrite length_app in Heq. change (length (bs ".tmp")) with 4%nat in Heq. lia. Qed.

Lemma fresh_not_probe limits w path : inv limits w -> fresh w path -> is_probe path = false.
Proof.
  intros Hi (g & id & Hg & Hv & Hn). pose proof (proj1 (Forall_forall _ _) (proj2 (in_entropy _ _ Hi)) g Hg) as Hgen.
  destruct Hn as [->| ->]; [|by apply tmp_not_probe]. apply object_not_probe. by exists id, g.
Qed.

Lemma row_path limits w path : inv limits w -> row_at w path -> an_object path.
Proof. intros Hi (id & e & He & <-). by destruct (in_rows _ _ Hi _ _ He) as (_ & Ho & _). Qed.

Lemma row_not_probe limits w path : inv limits w -> row_at w path -> is_probe path = false.
Proof. intros Hi Hr. by eapply object_not_probe, row_path. Qed.

Lemma doomed_no_row limits w path : inv limits w -> doomed w path -> ~ row_at w path.
Proof. intros Hi [Hp|[Hr _]]; [|done]. intros Hr. by rewrite (row_not_probe _ _ _ Hi Hr) in Hp. Qed.

Lemma doomed_not_fresh limits w path : inv limits w -> doomed w path -> ~ fresh w path.
Proof. intros Hi [Hp|(_ & Hf & _)]; [|done]. intros Hf. by rewrite (fresh_not_probe _ _ _ Hi Hf) in Hp. Qed.

Lemma staged_path limits w path s : inv limits w -> w_staged w !! path = Some s ->
  an_object path /\ ~ row_at w path /\ ~ fresh w path.
Proof.
  intros Hi Hs. destruct (in_staged _ _ Hi _ _ Hs). split_and!; [done..|]. intros Hf. apply (in_fresh _ _ Hi) in Hf as (_ & Hf & _). congruence.
Qed.

Lemma doomed_staged limits w path s : inv limits w -> doomed w path -> w_staged w !! path = Some s -> sg_deadline s < w_now w.
Proof.
  intros Hi [Hp|(_ & _ & Hd)] Hs; [|by apply Hd]. destruct (staged_path _ _ _ _ Hi Hs) as [Ho _]. by rewrite (object_not_probe _ Ho) in Hp.
Qed.

Lemma object_path_nonempty path : an_object path -> path <> [].
Proof. by intros (id & g & _ & _ & ->). Qed.

Lemma fresh_same w w' path : ou_entropy (w_outside w') = ou_entropy (w_outside w) -> fresh w' path -> fresh w path.
Proof. unfold fresh. by intros ->. Qed.

(** No upload to the path will take effect, and nothing is there. *)
Definition buried (path : gostring) (w : world) : Prop := doomed w path /\ (is_probe path = false -> w_objects w !! path = None).

(** Goroutine [me] uploads to the path until the deadline. *)
Definition staged_by (me : nat) (path : gostring) (deadline : Z) (w : world) : Prop :=
  w_staged w !! path = Some {| sg_owner := me; sg_deadline := deadline |}.

Definition marked (path : gostring) (deadline : Z) (w : world) : Prop := w_now w <= deadline -> is_Some (w_deletions w !! path).

Definition stored (path content : gostring) (deadline : Z) (w : world) : Prop :=
  w_uploaded w !! path = Some content
  /\ (w_now w <= deadline -> ou_tampered (w_outside w) = false -> w_objects w !! path = Some content).

(** A row that was there: what it says of its path stays true. *)
Definition known (id : ArtifactID) (e : CompileCacheEntry) (w : world) : Prop :=
  exists content, describes (w_ids w) (w_uploaded w) id e content /\ an_object (en_StoragePath e).

Section goroutine.
Context (limits : Limits) (me : nat).

Abbreviation spec P m Q := (hoare (compile_protocol limits) me P m Q).

#[export] Instance firm_buried L path : Firm me L (buried path).
Proof. intros w w' [Hd Ho] Ha. destruct (ap_doomed _ _ _ _ Ha _ Hd) as [Hd' Ho']. split; auto. Qed.

Lemma staged_apart (locked : gostring -> Prop) w w' path deadline :
  apart me locked w w' -> staged_by me path deadline w -> staged_by me path deadline w' /\ w_uploaded w' !! path = w_uploaded w !! path
    /\ (w_now w' <= deadline -> (is_Some (w_deletions w !! path) -> is_Some (w_deletions w' !! path))
          /\ (ou_tampered (w_outside w') = false -> w_objects w' !! path = w_objects w !! path)).
Proof. intros Ha Hs. apply (ap_staged _ _ _ _ Ha path {| sg_owner := me; sg_deadline := deadline |} eq_refl Hs). Qed.

#[export] Instance firm_staged_by L path deadline : Firm me L (staged_by me path deadline).
Proof. intros w w' Hs Ha. by destruct (staged_apart _ _ _ _ _ Ha Hs). Qed.
#[export] Instance firm_unused L path deadline : Firm me L (fun w => staged_by me path deadline w /\ w_uploaded w !! path = None).
Proof. intros w w' [Hs Hu] Ha. destruct (staged_apart _ _ _ _ _ Ha Hs) as (? & -> & _). done. Qed.
#[export] Instance firm_marked L path deadline : Firm me L (fun w => staged_by me path deadline w /\ marked path deadline w).
Proof.
  intros w w' [Hs Hm] Ha. destruct (staged_apart _ _ _ _ _ Ha Hs) as (Hs' & _ & Hd). split; [done|]. intros Hn.
  apply (Hd Hn), Hm. pose proof (ap_now _ _ _ _ Ha). lia.
Qed.
#[export] Instance firm_stored L path content deadline : Firm me L (fun w => staged_by me path deadline w /\ stored path content deadline w).
Proof.
  intros w w' [Hs [Hu Ho]] Ha. destruct (staged_apart _ _ _ _ _ Ha Hs) as (Hs' & Hu' & Hd). split; [done|]. split; [congruence|]. intros Hn Ht.
  destruct (Hd Hn) as [_ ->]; [|done]. apply Ho; [pose proof (ap_now _ _ _ _ Ha); lia|].
  destruct (ou_tampered (w_outside w)) eqn:E; [|done]. by rewrite (ap_tampered _ _ _ _ Ha E) in Ht.
Qed.
#[export] Instance firm_logged L e : Firm me L (fun w => e ∈ w_log w).
Proof. intros w w' Hl Ha. destruct (ap_log _ _ _ _ Ha) as [more ->]. apply elem_of_app. by right. Qed.
#[export] Instance firm_known L id e : Firm me L (known id e).
Proof.
  intros w w' (content & [] & Ho) Ha. exists content. split; [|done]. split; try done; eapply lookup_weaken; try done; apply Ha.
Qed.

(** ** Objects *)

Lemma inv_delete_object path w : inv limits w -> ~ row_at w path -> inv limits (set_objects (delete path (w_objects w)) w).
Proof.
  intros Hi Hr. split; try (by destruct Hi).
  - intros path'. cbn. rewrite lookup_delete_is_Some. intros [_ Ho]. by apply (in_objects _ _ Hi).
  - intros Ht. destruct (in_intact _ _ Hi Ht) as [Hu Ho]. split.
    + intros path' content. cbn. rewrite lookup_delete_Some. intros [_ Hc]. by apply Hu.
    + intros path' Hr'. cbn. rewrite lookup_delete_ne by (intros ->; by apply Hr). by apply Ho.
Qed.

Lemma apart_delete_object i locked path w :
  (forall s, w_staged w !! path = Some s -> sg_owner s = i -> sg_deadline s < w_now w) -> apart i locked w (set_objects (delete path (w_objects w)) w).
Proof.
  intros Hp. split; try done.
  - intros path' s Ho Hs. split_and!; [done..|]. intros Hn. split; [done|]. intros _. cbn. rewrite lookup_delete_ne; [done|].
    intros ->. specialize (Hp s Hs Ho). cbn in Hn. change (ou_now (w_outside w)) with (w_now w) in Hn. lia.
  - intros path' Hd. split; [done|]. intros _ Hn. cbn. by apply lookup_delete_None; right.
Qed.

Lemma held_objects i objects w : held_same i w (set_objects objects w).
Proof. by split. Qed.

Lemma mine_objects h objects w : mine me h w -> mine me h (set_objects objects w).
Proof. by intros []. Qed.

(** An object whose path nothing will use. *)
Lemma spec_storage_Delete path h F :
  Firm me (ho_locks h) F ->
  spec (knows me h (fun w => F w /\ doomed w path)) (storage_Delete path)
    (fun deleted => knows me h (fun w => F w /\ doomed w path /\ (deleted = Ok () -> buried path w))).
Proof.
  intros HF. eapply (spec_request limits me (ho_locks h) F (fun w => doomed w path) h _ _ _ (fun _ => h)
    (fun deleted w => doomed w path /\ (deleted = Ok () -> buried path w))); try done; try apply _.
  - intros w Hi Hm Hd _. cbn [fst snd]. split.
    + apply acts_intro; [by eapply inv_delete_object, doomed_no_row| | |intros; apply held_objects|by apply mine_objects].
      * intros j _. apply apart_delete_object. intros s Hs _. by eapply doomed_staged.
      * apply apart_delete_object. intros s Hs _. by eapply doomed_staged.
    + split; [done|]. intros _. split; [done|]. intros _. apply lookup_delete_eq.
Qed.

(** The object of an upload that is given up. *)
Lemma spec_storage_Delete_staged path deadline h F :
  (forall objects w, F w -> F (set_objects objects w)) -> Firm me (ho_locks h) F ->
  spec (knows me h (fun w => staged_by me path deadline w /\ F w)) (storage_Delete path) (fun _ => knows me h (fun w => staged_by me path deadline w /\ F w)).
Proof.
  intros HF Hfirm. apply (spec_moves limits me h (fun w => staged_by me path deadline w /\ F w) _ _ _ (fun _ => h)
    (fun _ w => staged_by me path deadline w /\ F w)); try done; try apply _.
  - intros w Hi Hm [Hs Hf] _. cbn [fst snd]. destruct (staged_path _ _ _ _ Hi Hs) as (_ & Hr & _). split; [|by split; [|apply HF]].
    split; [by apply inv_delete_object| |intros; apply held_objects|by apply mine_objects].
    intros j Hj. apply apart_delete_object. intros s Hs' Ho. unfold staged_by in Hs. rewrite Hs in Hs'. injection Hs' as <-. by cbn in Ho.
  - intros _ w e Hi Hm [Hs Hf] _. cbn [fst snd]. split; [done|]. split; [done|by apply HF].
Qed.

(** *** Publication *)

Definition published (path content : gostring) (w : world) : world :=
  set_uploaded (<[path := content]> (w_uploaded w)) (set_objects (<[path := content]> (w_objects w)) w).

Lemma inv_published path content w :
  inv limits w -> ~ row_at w path -> ~ fresh w path ->
  (if is_probe path then content = bs "1" else an_object path /\ is_Some (w_deletions w !! path)) ->
  inv limits (published path content w).
Proof.
  intros Hi Hr Hf Hp. split; try (by destruct Hi).
  - intros id e He. destruct (in_rows _ _ Hi id e He) as (Hv & Ho & c & [] & Hc). split; [done|]. split; [done|]. exists c. split; [|done].
    split; try done. cbn. rewrite lookup_insert_ne; [done|]. intros ->. apply Hr. by exists id, e.
  - intros path' Hf'. destruct (in_fresh _ _ Hi path' Hf') as (? & ? & ? & Hu). split_and!; [done..|]. cbn. rewrite lookup_insert_ne; [done|]. by intros ->.
  - intros path'. cbn. rewrite !lookup_insert_is_Some'. intros [<-|Ho].
    + split; [by left|]. destruct (is_probe path) eqn:E; [by left|]. right. right. apply Hp.
    + destruct (in_objects _ _ Hi path' Ho) as [Hu Hq]. by split; [right|].
  - cbn. apply map_Forall_insert_2; [|apply (in_uploaded _ _ Hi)]. destruct (is_probe path); [done|apply Hp].
  - intros Ht. destruct (in_intact _ _ Hi Ht) as [Hu Ho]. split.
    + intros path' c. cbn. rewrite !lookup_insert_Some. intros [?|[? Hc]]; [by left|right; by auto].
    + intros path' Hr'. cbn. apply lookup_insert_is_Some'. right. by apply Ho.
Qed.

Lemma apart_published i locked path content w :
  (w_uploaded w !! path = None \/ w_uploaded w !! path = Some content) ->
  (forall s, w_staged w !! path = Some s -> sg_owner s <> i) -> (is_probe path = false -> ~ doomed w path) ->
  apart i locked w (published path content w).
Proof.
  intros Hu Hs Hd. split; try done.
  - cbn. destruct Hu as [Hu|Hu]; [by apply insert_subseteq|by rewrite insert_id].
  - intros path' s Ho Hs'. assert (path' <> path) as Hne by (intros ->; by eapply Hs).
    split; [done|]. cbn. rewrite !lookup_insert_ne by done. done.
  - intros path' Hd'. split; [done|]. intros Hp Hn. cbn. rewrite lookup_insert_ne; [done|]. intros ->. by apply Hd.
Qed.

(** An upload to a staged path. *)
Lemma spec_storage_Put path content deadline h F :
  (forall content w, F w -> F (published path content w)) -> Firm me (ho_locks h) F ->
  spec (knows me h (fun w => ((staged_by me path deadline w /\ w_uploaded w !! path = None) /\ (staged_by me path deadline w /\ marked path deadline w)) /\ F w))
    (storage_Put path content deadline)
    (fun put => knows me h (fun w => ((staged_by me path deadline w /\ marked path deadline w)
       /\ (put = Ok () -> staged_by me path deadline w /\ stored path content deadline w)) /\ F w)).
Proof.
  intros HF Hfirm. apply (spec_moves limits me h _ _ _ _ (fun _ => h) (fun put w =>
    ((staged_by me path deadline w /\ marked path deadline w) /\ (put = Ok () -> staged_by me path deadline w /\ stored path content deadline w)) /\ F w)); try done.
  - apply _.
  - intros a. apply _.
  - intros w Hi Hm [[[Hs Hu] [_ Hk]] Hf] Hn%Z.leb_le. cbn [fst snd]. fold (published path content w).
    destruct (staged_path _ _ _ _ Hi Hs) as (Ho & Hr & Hfr). split.
    + split; [|intros j Hj|done|by destruct Hm].
      * apply inv_published; [done..|]. rewrite (object_not_probe _ Ho). split; [done|by apply Hk].
      * apply apart_published; [by left|..].
        -- intros s Hs'. unfold staged_by in Hs. rewrite Hs in Hs'. by injection Hs' as <-.
        -- intros _ Hd. pose proof (doomed_staged _ _ _ _ Hi Hd Hs) as Hlt. cbn in Hlt. lia.
    + split; [|by apply HF]. split; [done|]. intros _. split; [done|]. split; cbn; [apply lookup_insert_eq|intros; apply lookup_insert_eq].
  - intros w e Hi Hm [[_ Hk] Hf]. by split.
  - intros _ w e Hi Hm [[_ Hk] Hf] _. split; [done|]. split; [by split|by apply HF].
Qed.

Lemma spec_storage_Put_probe path deadline h F :
  is_probe path = true -> Firm me (ho_locks h) F -> spec (knows me h F) (storage_Put path (bs "1") deadline) (fun _ => knows me h F).
Proof.
  intros Hp HF. framing (spec_request limits me (ho_locks h) F (fun _ => True) h _ _ _ (fun _ => h) (fun _ _ => True)).
  intros w Hi Hm _ _. cbn [fst snd]. split; [|done]. fold (published path (bs "1") w).
  assert (w_uploaded w !! path = None \/ w_uploaded w !! path = Some (bs "1")) as Hu.
  { destruct (w_uploaded w !! path) as [c|] eqn:E; [right|by left]. pose proof (in_uploaded _ _ Hi _ _ E) as Hc. cbn in Hc. rewrite Hp in Hc. by rewrite Hc. }
  assert (forall s, w_staged w !! path = Some s -> False) as Hs.
  { intros s Hs. destruct (staged_path _ _ _ _ Hi Hs) as (Ho & _). by rewrite (object_not_probe _ Ho) in Hp. }
  apply acts_intro; [|intros j Hj|..|done|by destruct Hm].
  - apply inv_published; [done|..|by rewrite Hp].
    + intros Hr. by rewrite (row_not_probe _ _ _ Hi Hr) in Hp.
    + intros Hf. by rewrite (fresh_not_probe _ _ _ Hi Hf) in Hp.
  - apply apart_published; [done|by intros s Hs'%Hs|by rewrite Hp].
  - apply apart_published; [done|by intros s Hs'%Hs|by rewrite Hp].
Qed.

(** *** Paths of uploads *)

Lemma entropy_take w g entropy : inv limits w -> ou_entropy (w_outside w) = g :: entropy ->
  generation g /\ g ∉ entropy /\ NoDup entropy /\ Forall generation entropy.
Proof.
  intros Hi He. destruct (in_entropy _ _ Hi) as [Hn Hg]. rewrite He in Hn, Hg. apply NoDup_cons in Hn as [Hin Hn]. apply Forall_cons in Hg as [Hg0 Hg].
  done.
Qed.

(** The world after a generation was drawn. *)
Definition drawn (entropy : list gostring) (w : world) : world :=
  let o := w_outside w in
  set_outside {| ou_objects := ou_objects o; ou_now := ou_now o; ou_entropy := entropy; ou_tampered := ou_tampered o |} w.

Lemma fresh_drawn w g entropy path : ou_entropy (w_outside w) = g :: entropy -> fresh (drawn entropy w) path -> fresh w path.
Proof. intros He (g' & id & Hg & Hv & Hn). exists g', id. rewrite He. split_and!; [by right|done..]. Qed.

Lemma doomed_drawn w g entropy path : ou_entropy (w_outside w) = g :: entropy -> doomed w path -> doomed (drawn entropy w) path.
Proof. intros He [Hp|(Hr & Hf & Hs)]; [by left|right]. split_and!; [done| |done]. intros Hf'. apply Hf. by eapply fresh_drawn. Qed.

Lemma inv_drawn w g entropy : inv limits w -> ou_entropy (w_outside w) = g :: entropy -> inv limits (drawn entropy w).
Proof.
  intros Hi He. destruct (entropy_take w g entropy Hi He) as (_ & _ & Hn & Hg). split; try (by destruct Hi).
  intros path Hf. apply (in_fresh _ _ Hi). by eapply fresh_drawn.
Qed.

Lemma apart_drawn i locked w g entropy : ou_entropy (w_outside w) = g :: entropy -> apart i locked w (drawn entropy w).
Proof. intros He. split; try done; [intros path Hf; by eapply fresh_drawn|]. intros path Hd. split; [by eapply doomed_drawn|done]. Qed.

(** A path nothing has used, staged. *)
Lemma fresh_gone w g entropy id path : inv limits w -> ou_entropy (w_outside w) = g :: entropy -> names id g path -> ~ fresh (drawn entropy w) path.
Proof.
  intros Hi He Hn (g' & id' & Hg' & _ & Hn'). destruct (entropy_take w g entropy Hi He) as (Hg & Hnin & _ & Hgs).
  cbn in Hg'. pose proof (proj1 (Forall_forall _ _) Hgs _ Hg') as Hgen. by rewrite (names_generation _ _ _ _ _ Hg Hgen Hn Hn') in Hnin.
Qed.

Definition stages (path : gostring) (deadline : Z) (w : world) : world :=
  set_staged (<[path := {| sg_owner := me; sg_deadline := deadline |}]> (w_staged w)) w.

Lemma inv_stages w path deadline :
  inv limits w -> an_object path -> ~ fresh w path -> ~ row_at w path -> w_deletions w !! path = None -> inv limits (stages path deadline w).
Proof.
  intros Hi Ho Hf Hr Hd. split; try (by destruct Hi).
  - intros path' Hf'. destruct (in_fresh _ _ Hi path' Hf') as (? & ? & ? & ?). split_and!; [done| |done..]. cbn. rewrite lookup_insert_ne; [done|].
    intros ->. by apply Hf.
  - cbn. apply map_Forall_insert_2; [done|apply (in_staged _ _ Hi)].
  - intros path' d Hd'. destruct (in_queue _ _ Hi path' d Hd') as [? Hs]. split; [done|]. intros s. cbn. rewrite lookup_insert_ne; [apply Hs|].
    intros ->. change (w_deletions w !! path' = Some d) in Hd'. congruence.
Qed.

Lemma apart_stages i locked w path deadline : w_staged w !! path = None -> ~ doomed w path -> apart i locked w (stages path deadline w).
Proof.
  intros Hn Hd. split; try done.
  - intros path' s Ho Hs. split; [|done]. cbn. rewrite lookup_insert_ne; [done|]. intros ->. congruence.
  - intros path' Hd'. split; [|done]. destruct Hd' as [Hp|(Hr & Hf & Hs)]; [by left|right]. split_and!; [done..|]. intros s. cbn.
    rewrite lookup_insert_ne; [apply Hs|]. intros ->. apply Hd. by right.
Qed.

(** What an upload knows of its paths. *)
Definition staging_paths (path : gostring) (deadline : Z) (w : world) : Prop :=
  (staged_by me path deadline w /\ w_uploaded w !! path = None) /\ doomed w (path ++ bs ".tmp").

Lemma spec_newObjectPath id deadline h F :
  Firm me (ho_locks h) F -> spec (knows me h F) (newObjectPath me id deadline)
    (fun made => knows me h (fun w => F w /\ match made with Ok path => (staging_paths path deadline w /\ an_object path) /\ named_for id path | Err _ => True end)).
Proof.
  intros HF. unfold newObjectPath. destruct (validate id) as [e|] eqn:Hv; [by apply spec_return; [|intros w _ [Hm Hf]]|].
  eapply hoare_weaken; [eapply (spec_request limits me (ho_locks h) F (fun _ => True) h _ false _ (fun _ => h)
    (fun made w => match made with Ok path => (staging_paths path deadline w /\ an_object path) /\ named_for id path | Err _ => True end)); try done|by intros w _ [Hm Hf]|done].
  - intros [path|e]; apply _.
  - intros w Hi Hm _ Hr. unfold some_entropy in Hr. unfold take_generation. destruct (ou_entropy (w_outside w)) as [|g entropy] eqn:He; [done|].
    cbn [fst snd]. fold (drawn entropy w). set (path := object_path id g). fold (stages path deadline (drawn entropy w)).
    destruct (entropy_take w g entropy Hi He) as (Hg & Hnin & Hnd & Hgs).
    assert (fresh w path) as Hf by (exists g, id; rewrite He; split_and!; [by left|done|by left]).
    assert (fresh w (path ++ bs ".tmp")) as Hft by (exists g, id; rewrite He; split_and!; [by left|done|by right]).
    assert (an_object path) as Ho by (by exists id, g).
    assert (~ fresh (drawn entropy w) path) as Hf' by (eapply fresh_gone; [done..|by left]).
    assert (~ fresh (drawn entropy w) (path ++ bs ".tmp")) as Hft' by (eapply fresh_gone; [done..|by right]).
    destruct (in_fresh _ _ Hi _ Hf) as (Hr1 & Hs1 & Hd1 & Hu1), (in_fresh _ _ Hi _ Hft) as (Hr2 & Hs2 & Hd2 & Hu2).
    assert (forall i locked, apart i locked w (stages path deadline (drawn entropy w))) as Hap.
    { intros i locked. change (stages path deadline (drawn entropy w)) with (drawn entropy (stages path deadline w)).
      eapply apart_trans; [|by eapply apart_drawn]. apply apart_stages; [done|]. intros Hd. by eapply doomed_not_fresh. }
    assert (named_for id path) as Hnf by (by exists g). clearbody path. split.
    + apply acts_intro; [|intros j _; apply Hap|apply Hap|done|by destruct Hm]. apply inv_stages; [by eapply inv_drawn|done..].
    + split; [split; [split; [split|]|done]|done].
      * unfold staged_by. cbn. apply lookup_insert_eq.
      * done.
      * right. split_and!; [done|done|]. intros s. cbn. rewrite lookup_insert_ne; [|apply tmp_ne].
        intros Hs. change (w_staged w !! (path ++ bs ".tmp") = Some s) in Hs. congruence.
Qed.

Lemma spec_newProbeObjectPath h F :
  Firm me (ho_locks h) F -> spec (knows me h F) newProbeObjectPath
    (fun made => knows me h (fun w => F w /\ match made with Ok path => is_probe path = true | Err _ => True end)).
Proof.
  intros HF. unfold newProbeObjectPath. eapply hoare_weaken; [eapply (spec_request limits me (ho_locks h) F (fun _ => True) h _ false _ (fun _ => h)
    (fun made w => match made with Ok path => is_probe path = true | Err _ => True end)); try done|by intros w _ [Hm Hf]|done].
  - intros [path|e]; apply _.
  - intros w Hi Hm _ Hr. unfold some_entropy in Hr. unfold take_generation. destruct (ou_entropy (w_outside w)) as [|g entropy] eqn:He; [done|].
    cbn [fst snd]. fold (drawn entropy w). split; [|done].
    apply acts_intro; [by eapply inv_drawn|intros; by eapply apart_drawn..|done|by destruct Hm].
Qed.

(** ** The queue of deletions *)

Lemma enqueue_lookup path time w path' :
  path <> [] -> w_deletions (enqueueDeferredDeletion path time w) !! path' =
    if decide (path' = path)
    then Some (default {| cd_ID := db_next_deletion (w_db w); cd_StoragePath := path; cd_NotBefore := time; cd_Attempts := 0; cd_LastError := None |} (w_deletions w !! path))
    else w_deletions w !! path'.
Proof.
  intros Hp. unfold enqueueDeferredDeletion. rewrite bool_decide_eq_false_2 by done.
  destruct (w_deletions w !! path) as [d|] eqn:E; [|change (w_deletions (set_deletions ?m _ w)) with m]; destruct (decide (path' = path)) as [->|Hn]; try done.
  - by rewrite lookup_insert_eq.
  - by rewrite lookup_insert_ne.
Qed.

(** It only adds to the queue. *)
Lemma enqueue_same path time w : exists deletions next, enqueueDeferredDeletion path time w = set_deletions deletions next w.
Proof.
  unfold enqueueDeferredDeletion. assert (w = set_deletions (w_deletions w) (db_next_deletion (w_db w)) w) as Hw by (by destruct w as [[] ? ? ?]).
  case_bool_decide; [by eexists _, _|]. destruct (w_deletions w !! path); by eexists _, _.
Qed.

Lemma inv_queue deletions next w :
  inv limits w ->
  (forall path d, deletions !! path = Some d ->
     ~ row_at w path /\ ~ fresh w path /\ forall s, w_staged w !! path = Some s -> sg_deadline s < cd_NotBefore d) ->
  (forall path, is_Some (w_objects w !! path) -> is_probe path = true \/ row_at w path \/ is_Some (deletions !! path)) ->
  map_Forall (fun path d => cd_StoragePath d = path) deletions ->
  inv limits (set_deletions deletions next w).
Proof.
  intros Hi Hq Ho Hnm. split; try (by destruct Hi).
  - intros path Hf. destruct (in_fresh _ _ Hi path Hf) as (? & ? & _ & ?). split_and!; [done|done| |done].
    change (deletions !! path = None). apply eq_None_not_Some. intros [d Hd]. by destruct (Hq _ _ Hd) as (_ & Hf' & _).
  - intros path d Hd. by destruct (Hq _ _ Hd) as (? & _ & ?).
  - intros path Hp. split; [by apply (in_objects _ _ Hi)|by apply Ho].
Qed.

Lemma inv_enqueue path time w :
  inv limits w -> ~ row_at w path -> ~ fresh w path -> (forall s, w_staged w !! path = Some s -> sg_deadline s < time) ->
  inv limits (enqueueDeferredDeletion path time w).
Proof.
  intros Hi Hr Hf Hs. destruct (decide (path = [])) as [->|Hp]; [done|].
  destruct (enqueue_same path time w) as (deletions & next & Heq). pose proof (enqueue_lookup path time w) as Hl. rewrite Heq in *.
  change (w_deletions (set_deletions deletions next w)) with deletions in Hl. apply inv_queue; [done|..].
  - intros path' d. rewrite (Hl _ Hp). case_decide as Hd.
    + subst path'. intros [= <-]. split_and!; [done..|]. intros s Hss. destruct (w_deletions w !! path) as [d|] eqn:E; [|by apply Hs].
      by destruct (in_queue _ _ Hi _ _ E) as [_ Hq]; apply Hq.
    + intros Hd'. destruct (in_queue _ _ Hi _ _ Hd') as [? ?]. split_and!; [done| |done]. intros Hf'.
      apply (in_fresh _ _ Hi) in Hf' as (_ & _ & Hf' & _). congruence.
  - intros path' Ho. destruct (in_objects _ _ Hi path' Ho) as [_ [?|[?|Hd]]]; [by left|right; by left|right; right]. rewrite (Hl _ Hp). by case_decide.
  - intros path' d. rewrite (Hl _ Hp). case_decide as Hd; [|apply (in_named _ _ Hi)]. subst path'. intros [= <-].
    destruct (w_deletions w !! path) as [d|] eqn:E; [|done]. by apply (in_named _ _ Hi _ _ E).
Qed.

Lemma apart_queue i locked deletions next w :
  (forall path s, sg_owner s = i -> w_staged w !! path = Some s -> w_now w <= sg_deadline s -> is_Some (w_deletions w !! path) -> is_Some (deletions !! path)) ->
  apart i locked w (set_deletions deletions next w).
Proof. intros Hd. split; try done. intros path s Ho Hs. split_and!; [done..|]. intros Hn. split; [by eapply Hd|done]. Qed.

Lemma apart_enqueue i locked path time w : apart i locked w (enqueueDeferredDeletion path time w).
Proof.
  destruct (decide (path = [])) as [->|Hp]; [apply apart_refl|].
  destruct (enqueue_same path time w) as (deletions & next & Heq). pose proof (enqueue_lookup path time w) as Hl. rewrite Heq in *.
  change (w_deletions (set_deletions deletions next w)) with deletions in Hl. apply apart_queue. intros path' s _ _ _ Hd. rewrite (Hl _ Hp). by case_decide.
Qed.

Lemma enqueue_held i path time w : held_same i w (enqueueDeferredDeletion path time w).
Proof. destruct (enqueue_same path time w) as (deletions & next & ->). by split. Qed.

(** The rows, paths and the history are what they were. *)
Lemma enqueue_doomed path time w path' : doomed w path' -> doomed (enqueueDeferredDeletion path time w) path'.
Proof. by destruct (enqueue_same path time w) as (deletions & next & ->). Qed.

Lemma spec_register_staging path time deadline h F :
  Firm me (ho_locks h) F -> deadline < time ->
  spec (knows me h (fun w => F w /\ staging_paths path deadline w /\ an_object path)) (register_staging [path; path ++ bs ".tmp"] time)
    (fun registered => knows me h (fun w => F w /\ staging_paths path deadline w /\ an_object path
       /\ (registered = Ok () -> staged_by me path deadline w /\ marked path deadline w))).
Proof.
  intros HF Hlt. eapply (spec_request limits me (ho_locks h) F (fun w => staging_paths path deadline w /\ an_object path) h _ false _ (fun _ => h)
    (fun registered w => staging_paths path deadline w /\ an_object path /\ (registered = Ok () -> staged_by me path deadline w /\ marked path deadline w))); try done; try apply _;
    [|by intros w e _ _ [? ?]].
  intros w Hi Hm [[[Hs Hu] Hd] Ho] _. cbn [fst snd fold_left]. set (w1 := enqueueDeferredDeletion path time w).
  destruct (staged_path _ _ _ _ Hi Hs) as (_ & Hr & Hf).
  assert (inv limits w1) as Hi1.
  { apply inv_enqueue; [done..|]. intros s Hs'. unfold staged_by in Hs. rewrite Hs in Hs'. injection Hs' as <-. cbn. lia. }
  assert (doomed w1 (path ++ bs ".tmp")) as Hd1 by (by apply enqueue_doomed).
  assert (is_Some (w_deletions (enqueueDeferredDeletion (path ++ bs ".tmp") time w1) !! path)) as Hmk.
  { rewrite enqueue_lookup by (by destruct path). rewrite decide_False by apply tmp_ne. unfold w1.
    rewrite enqueue_lookup by (by apply object_path_nonempty). by rewrite decide_True. }
  assert (staging_paths path deadline (enqueueDeferredDeletion (path ++ bs ".tmp") time w1)) as Hsp.
  { split; [|by apply enqueue_doomed]. unfold w1. destruct (enqueue_same path time w) as (dl & n & ->).
    by destruct (enqueue_same (path ++ bs ".tmp") time (set_deletions dl n w)) as (dl' & n' & ->). }
  split; [|split_and!; [done|done|intros _; split; [apply Hsp|by intros _]]]. apply acts_intro.
  - apply inv_enqueue; [done|by eapply doomed_no_row|by eapply doomed_not_fresh|]. intros s Hs'. exfalso.
    destruct (staged_path _ _ _ _ Hi1 Hs') as ((id & g & _ & Hg & Heq) & _). destruct Ho as (id' & g' & _ & Hg' & ->).
    unfold object_path in Heq. rewrite <- app_assoc in Heq. symmetry in Heq. by apply object_not_tmp in Heq.
  - intros j _. eapply apart_trans; [apply apart_enqueue|apply apart_enqueue].
  - eapply apart_trans; [apply apart_enqueue|apply apart_enqueue].
  - intros j _. eapply held_trans; apply enqueue_held.
  - eapply mine_same; [exact Hm|]. eapply held_trans; apply enqueue_held.
Qed.

(** The queue without a path that is done. *)
Lemma spec_remove_marker path h F :
  Firm me (ho_locks h) F -> spec (knows me h (fun w => F w /\ buried path w)) (remove_marker path) (fun _ => knows me h F).
Proof.
  intros HF. eapply hoare_weaken; [eapply (spec_request limits me (ho_locks h) F (buried path) h _ _ _ (fun _ => h) (fun _ _ => True)); try done; try apply _
    |by intros w _ Hk|by intros a w _ (Hm & Hf & _)].
  intros w Hi Hm [Hd Ho] _. cbn [fst snd]. split; [|done].
  assert (forall i locked, apart i locked w (set_deletions (delete path (w_deletions w)) (db_next_deletion (w_db w)) w)) as Ha.
  { intros i locked. apply apart_queue. intros path' s _ Hs Hn Hq. rewrite lookup_delete_ne; [done|]. intros ->.
    pose proof (doomed_staged _ _ _ _ Hi Hd Hs). lia. }
  apply acts_intro; [|intros; apply Ha..|done|by destruct Hm]. apply inv_queue; [done|..].
  - intros path' d [_ Hd']%lookup_delete_Some. destruct (in_queue _ _ Hi _ _ Hd') as [? ?]. split_and!; [done| |done].
    intros Hf'. apply (in_fresh _ _ Hi) in Hf' as (_ & _ & Hf' & _). congruence.
  - intros path' Ho'. destruct (in_objects _ _ Hi path' Ho') as [_ [?|[?|Hd']]]; [by left|right; by left|].
    destruct (decide (path' = path)) as [->|Hne]; [|right; right; by rewrite lookup_delete_ne].
    destruct (is_probe path); [by left|]. destruct Ho' as [c Hc]. by rewrite Ho in Hc.
  - apply map_Forall_delete, Hi.
Qed.

Lemma spec_record_failure path err h F : Firm me (ho_locks h) F -> spec (knows me h F) (record_failure path err) (fun _ => knows me h F).
Proof.
  intros HF. framing (spec_request limits me (ho_locks h) F (fun _ => True) h _ _ _ (fun _ => h) (fun _ _ => True)).
  intros w Hi Hm _ _. cbn [fst snd]. split; [|done]. set (f := fun d : CompileCacheDeletion => _).
  assert (forall i locked, apart i locked w (set_deletions (alter f path (w_deletions w)) (db_next_deletion (w_db w)) w)) as Ha.
  { intros i locked. apply apart_queue. intros path' s _ _ _ [d Hq]. destruct (decide (path' = path)) as [->|Hne]; [rewrite lookup_alter_eq, Hq; by eexists|].
    by rewrite lookup_alter_ne, Hq. }
  apply acts_intro; [|intros; apply Ha..|done|by destruct Hm]. apply inv_queue; [done|..].
  - intros path' d Hd. apply lookup_alter_Some in Hd. assert (exists d0, w_deletions w !! path' = Some d0 /\ cd_NotBefore d0 = cd_NotBefore d) as (d0 & Hd0 & <-).
    { destruct Hd as [(-> & d0 & Hd0 & ->)|(_ & Hd0)]; by eexists. }
    destruct (in_queue _ _ Hi _ _ Hd0) as [? ?]. split_and!; [done| |done].
    intros Hf'. apply (in_fresh _ _ Hi) in Hf' as (_ & _ & Hf' & _). congruence.
  - intros path' Ho'. destruct (in_objects _ _ Hi path' Ho') as [_ [?|[?|[d Hd]]]]; [by left|right; by left|right; right].
    destruct (decide (path' = path)) as [->|Hne]; [rewrite lookup_alter_eq, Hd; by eexists|]. by rewrite lookup_alter_ne, Hd.
  - intros path' d Hd. apply lookup_alter_Some in Hd as [(-> & d0 & Hd0 & ->)|(_ & Hd0)]; by apply (in_named _ _ Hi _ _ Hd0).
Qed.

(** ** Entries *)

(** *** An entry goes *)

Definition dropped (id : ArtifactID) (e : CompileCacheEntry) (w : world) : world :=
  logged (ev_gone id) (set_credits (settle_credit me (en_Namespace e) (en_Size e) 1 (w_credits w))
    (set_rows (delete id (w_rows w)) (db_next_id (w_db w)) w)).

Lemma row_at_dropped id e w path : row_at (dropped id e w) path -> row_at w path.
Proof. intros (id' & e' & He' & Hp). cbn in He'. apply lookup_delete_Some in He' as [_ He']. by exists id', e'. Qed.

Lemma dropped_no_row id e w : inv limits w -> w_rows w !! id = Some e -> ~ row_at (dropped id e w) (en_StoragePath e).
Proof.
  intros Hi He (id' & e' & He' & Hp). cbn in He'. apply lookup_delete_Some in He' as [Hne He'].
  apply Hne. symmetry. by eapply (in_distinct _ _ Hi).
Qed.

Lemma dropped_other id e w id' e' : id' <> id -> w_rows w !! id' = Some e' -> entry_ok w id' e' -> entry_ok (dropped id e w) id' e'.
Proof.
  intros Hne He' (Hv & Ho & c & Hd & Hc). split; [done|]. split; [done|]. exists c. split; [done|].
  change (current_upload (ev_gone id :: w_log w) id' = Some c). cbn [current_upload]. by rewrite decide_False.
Qed.

Lemma entry_size w id e : entry_ok w id e -> 0 < en_Size e.
Proof. by intros (_ & _ & c & [_ _ _ [_ Hs] _] & _). Qed.

(** With the deletion of its object in the queue, or when there is none. *)
Lemma inv_dropped_with id e deletions next w :
  inv limits w -> w_credits w !! me = None -> w_rows w !! id = Some e ->
  is_Some (deletions !! en_StoragePath e) \/ (deletions = w_deletions w /\ w_objects w !! en_StoragePath e = None) ->
  (forall path, path <> en_StoragePath e -> deletions !! path = w_deletions w !! path) ->
  map_Forall (fun path d => cd_StoragePath d = path) deletions ->
  inv limits (set_deletions deletions next (dropped id e w)).
Proof.
  intros Hi Hc He Hd Hdo Hnm. pose proof (in_rows _ _ Hi _ _ He) as Hok. pose proof (entry_size _ _ _ Hok) as Hsz.
  assert (row_at w (en_StoragePath e)) as Hrow by (by exists id, e).
  assert (w_rows (set_deletions deletions next (dropped id e w)) = delete id (w_rows w)) as Hrows by done.
  split; try (by destruct Hi).
  - rewrite Hrows. intros id' e' [Hne He']%lookup_delete_Some. apply (dropped_other id e); [done|done|by apply (in_rows _ _ Hi)].
  - rewrite Hrows. intros id1 id2 e1 e2 [_ H1]%lookup_delete_Some [_ H2]%lookup_delete_Some. by apply (in_distinct _ _ Hi).
  - rewrite Hrows. intros id' Hn. change (current_upload (ev_gone id :: w_log w) id' = None). cbn [current_upload]. case_decide; [done|].
    apply (in_gone _ _ Hi). apply lookup_delete_None in Hn as [?|?]; [congruence|done].
  - intros path Hf. destruct (in_fresh _ _ Hi path Hf) as (Hr & ? & Hq & ?). split_and!; [by intros Hr'%(row_at_dropped id e w)|done| |done].
    change (deletions !! path = None). rewrite Hdo; [done|]. by intros ->.
  - intros path s Hs. destruct (in_staged _ _ Hi _ _ Hs) as [? Hr]. split; [done|]. by intros Hr'%(row_at_dropped id e w).
  - intros path d Hq. change (deletions !! path = Some d) in Hq. destruct (decide (path = en_StoragePath e)) as [->|Hne].
    + split; [by apply dropped_no_row|]. intros s Hs. by destruct (in_staged _ _ Hi _ _ Hs) as [_ Hr].
    + rewrite Hdo in Hq by done. destruct (in_queue _ _ Hi _ _ Hq) as [Hr ?]. split; [|done]. by intros Hr'%(row_at_dropped id e w).
  - intros path Ho. destruct (in_objects _ _ Hi path Ho) as [Hu Hp]. split; [done|]. destruct (decide (path = en_StoragePath e)) as [->|Hne].
    { destruct Hd as [Hd|[_ Hd]]; [by right; right|]. destruct Ho as [c Hoc]. change (w_objects w !! en_StoragePath e = Some c) in Hoc. congruence. }
    destruct Hp as [?|[(id' & e' & He' & Hp)|Hq]]; [by left|right; left|right; right].
    + exists id', e'. split; [|done]. rewrite Hrows. apply lookup_delete_Some. split; [|done]. intros ->. apply Hne. congruence.
    + change (is_Some (deletions !! path)). by rewrite Hdo.
  - intros Ht. destruct (in_intact _ _ Hi Ht) as [Hu Ho]. split; [done|]. intros path Hr%(row_at_dropped id e w). by apply Ho.
  - apply settle_credits_ok; [lia|lia|apply Hi].
  - intros k scope. change (view k scope (w_ledger w) = tally (row_weight k scope) (delete id (w_rows w))
      + tally (credit_weight k scope) (settle_credit me (en_Namespace e) (en_Size e) 1 (w_credits w))).
    rewrite tally_delete, settle_tally, He, Hc, (in_balanced _ _ Hi k scope). cbn [owed]. unfold row_weight at 3. lia.
Qed.

Lemma enqueue_dropped id e w : inv limits w -> w_rows w !! id = Some e ->
  exists deletions next, enqueueDeletion (en_StoragePath e) (dropped id e w) = set_deletions deletions next (dropped id e w)
    /\ is_Some (deletions !! en_StoragePath e) /\ (forall path, path <> en_StoragePath e -> deletions !! path = w_deletions w !! path)
    /\ (forall path, is_Some (w_deletions w !! path) -> is_Some (deletions !! path)) /\ map_Forall (fun path d => cd_StoragePath d = path) deletions.
Proof.
  intros Hi He. unfold enqueueDeletion. destruct (enqueue_same (en_StoragePath e) (w_now (dropped id e w)) (dropped id e w)) as (deletions & next & Heq).
  exists deletions, next. split; [done|].
  assert (en_StoragePath e <> []) as Hp by (eapply object_path_nonempty, (in_rows _ _ Hi _ _ He)).
  assert (forall path, deletions !! path = w_deletions (enqueueDeferredDeletion (en_StoragePath e) (w_now (dropped id e w)) (dropped id e w)) !! path) as Hd by (by rewrite Heq).
  split_and!; [|intros path Hne|intros path [d Hq]|intros path d]; rewrite Hd, enqueue_lookup by done.
  - by rewrite decide_True.
  - by rewrite decide_False.
  - case_decide; [by eexists|by exists d].
  - change (w_deletions (dropped id e w)) with (w_deletions w). case_decide as Hp'; [|apply (in_named _ _ Hi)]. subst path. intros [= <-].
    destruct (w_deletions w !! en_StoragePath e) as [d|] eqn:E; [|done]. by apply (in_named _ _ Hi _ _ E).
Qed.

(** The entry is gone, its object queued, and its size owed to the ledger. *)
Lemma acts_drop L id e h w :
  inv limits w -> mine me h w -> ho_credit h = None -> w_rows w !! id = Some e -> cacheIdentity id ∈ ho_locks h -> cacheIdentity id ∉ L ->
  acts limits me L (owing (credited (en_Namespace e) (en_Size e) 1) h) w (enqueueDeletion (en_StoragePath e) (dropped id e w))
  /\ doomed (enqueueDeletion (en_StoragePath e) (dropped id e w)) (en_StoragePath e).
Proof.
  intros Hi Hm Hc He Hk Hl. destruct (enqueue_dropped id e w Hi He) as (deletions & next & -> & Hd & Hdo & Hdm & Hnm).
  pose proof (mi_credit _ _ _ Hm) as Hcr. rewrite Hc in Hcr.
  assert (forall i (locked : gostring -> Prop), ~ locked (cacheIdentity id) -> apart i locked w (set_deletions deletions next (dropped id e w))) as Ha.
  { intros i locked Hnl. split; try done.
    - by exists [ev_gone id].
    - intros id' Hk'. change (delete id (w_rows w) !! id' = w_rows w !! id'). apply lookup_delete_ne. by intros ->.
    - intros path s Ho Hs. split_and!; [done..|]. intros Hn. split; [apply Hdm|done].
    - intros path Hp. split; [|done]. destruct Hp as [?|(Hr & ? & ?)]; [by left|right]. split_and!; [|done|done]. by intros Hr'%(row_at_dropped id e w). }
  split; [apply acts_intro|].
  - apply inv_dropped_with; try done. by left.
  - intros j Hj. apply Ha. intros Hlj. apply (mi_locks _ _ _ Hm) in Hk. congruence.
  - by apply Ha.
  - intros j Hj. split; try done. change (settle_credit me (en_Namespace e) (en_Size e) 1 (w_credits w) !! j = w_credits w !! j).
    by rewrite settle_lookup, decide_False.
  - destruct Hm. split; try done. change (settle_credit me (en_Namespace e) (en_Size e) 1 (w_credits w) !! me = credited (en_Namespace e) (en_Size e) 1).
    by rewrite settle_lookup, decide_True.
  - right. split_and!; [by apply dropped_no_row| |].
    + intros Hf. apply (in_fresh _ _ Hi) in Hf as [Hf _]. apply Hf. by exists id, e.
    + intros s Hs. destruct (in_staged _ _ Hi _ _ Hs) as [_ Hr]. exfalso. apply Hr. by exists id, e.
Qed.

(** The rows that a [WHERE] clause picks, when these are those of one artifact. *)
Lemma delete_rows_one pick id e w :
  w_rows w !! id = Some e -> pick e = true -> (forall id' e', w_rows w !! id' = Some e' -> pick e' = true -> id' = id) ->
  delete_rows pick w = (true, set_rows (delete id (w_rows w)) (db_next_id (w_db w)) w).
Proof.
  intros He Hp Hone. unfold delete_rows. f_equal.
  - apply existsb_exists. exists (id, e). split; [|done]. by apply list_elem_of_In, elem_of_map_to_list.
  - f_equal. apply map_eq. intros id'. destruct (decide (id' = id)) as [->|Hne].
    + rewrite lookup_delete_eq. apply map_lookup_filter_None. right. intros e' He'. rewrite He in He'. injection He' as <-. cbn. congruence.
    + rewrite lookup_delete_ne by done. destruct (w_rows w !! id') as [e'|] eqn:He'; [|by apply map_lookup_filter_None_2; left].
      apply map_lookup_filter_Some_2; [done|]. cbn. apply not_true_iff_false. intros Hp'. by apply Hne, (Hone _ _ He').
Qed.

Lemma delete_rows_none pick w : (forall id e, w_rows w !! id = Some e -> pick e = false) -> delete_rows pick w = (false, w).
Proof.
  intros Hn. unfold delete_rows. f_equal.
  - apply not_true_iff_false. intros ([id e] & Hin & Hp)%existsb_exists. apply list_elem_of_In, elem_of_map_to_list in Hin. cbn in Hp.
    by rewrite (Hn _ _ Hin) in Hp.
  - rewrite map_filter_id; [by destruct w as [[] ? ? ?]|]. intros id e He. by apply (Hn id).
Qed.

(** An id is that of one artifact. *)
Lemma id_of_row w id e n : inv limits w -> w_rows w !! id = Some e -> en_ID e = n -> w_ids w !! n = Some id.
Proof. intros Hi He <-. by destruct (in_rows _ _ Hi _ _ He) as (_ & _ & c & [] & _). Qed.

Lemma row_identity w id e : inv limits w -> w_rows w !! id = Some e -> identity_of e = id.
Proof. intros Hi He. by destruct (in_rows _ _ Hi _ _ He) as (_ & _ & c & [] & _). Qed.

(** Both transactions queue the object as part of the same step. *)
Lemma enqueue_after path time f :
  (forall deletions next w, f (set_deletions deletions next w) = set_deletions deletions next (f w)) ->
  (forall w, w_deletions (f w) = w_deletions w /\ db_next_deletion (w_db (f w)) = db_next_deletion (w_db w)) ->
  forall w, f (enqueueDeferredDeletion path time w) = enqueueDeferredDeletion path time (f w).
Proof.
  intros Hc Hs w. unfold enqueueDeferredDeletion. destruct (Hs w) as [-> ->]. case_bool_decide; [done|]. destruct (w_deletions w !! path); [done|apply Hc].
Qed.

Lemma drop_enqueue pick id e w :
  w_rows w !! id = Some e -> identity_of e = id -> pick e = true -> (forall id' e', w_rows w !! id' = Some e' -> pick e' = true -> id' = id) ->
  drop_row me pick e (enqueueDeletion (en_StoragePath e) w) = (true, enqueueDeletion (en_StoragePath e) (dropped id e w)).
Proof.
  intros He Hid Hp Hone. unfold enqueueDeletion. change (w_now (dropped id e w)) with (w_now w).
  rewrite <- (enqueue_after _ _ (dropped id e)) by done. destruct (enqueue_same (en_StoragePath e) (w_now w) w) as (deletions & next & ->).
  unfold drop_row. rewrite (delete_rows_one pick id e (set_deletions deletions next w)) by done. by rewrite Hid.
Qed.

Lemma drop_found pick id e w :
  w_rows w !! id = Some e -> identity_of e = id -> pick e = true -> (forall id' e', w_rows w !! id' = Some e' -> pick e' = true -> id' = id) ->
  drop_row me pick e w = (true, dropped id e w).
Proof. intros He Hid Hp Hone. unfold drop_row. rewrite (delete_rows_one pick id e w) by done. by rewrite Hid. Qed.

Lemma spec_delete_entry id e h L F :
  Firm me L F -> L ⊆ ho_locks h -> cacheIdentity id ∈ ho_locks h -> cacheIdentity id ∉ L -> ho_credit h = None ->
  spec (knows me h (fun w => F w /\ w_rows w !! id = Some e)) (delete_entry me e)
    (fun deleted => knows me (match deleted with Ok _ => owing (credited (en_Namespace e) (en_Size e) 1) h | Err _ => h end)
       (fun w => F w /\ (deleted = Ok () -> doomed w (en_StoragePath e)))).
Proof.
  intros HF HL Hk Hnl Hc. eapply (spec_request limits me L F (fun w => w_rows w !! id = Some e) h _ false _
    (fun deleted => match deleted with Ok _ => owing (credited (en_Namespace e) (en_Size e) 1) h | Err _ => h end)
    (fun deleted w => deleted = Ok () -> doomed w (en_StoragePath e))); try done; try apply _.
  - by apply firm_row.
  - by intros [].
  - intros w Hi Hm He _. pose proof (row_identity _ _ _ Hi He) as Hid. cbn [fst snd]. rewrite (drop_enqueue _ id); [|done|done|by apply Z.eqb_refl|].
    2: { intros id' e' He' Hp%Z.eqb_eq. pose proof (id_of_row _ _ _ _ Hi He eq_refl). pose proof (id_of_row _ _ _ _ Hi He' Hp). congruence. }
    cbn [snd]. destruct (acts_drop L id e h w) as [Ha Hd]; [done..|]. by split.
Qed.

Lemma spec_delete_generation id e h L F :
  Firm me L F -> L ⊆ ho_locks h -> cacheIdentity id ∈ ho_locks h -> cacheIdentity id ∉ L -> ho_credit h = None ->
  spec (knows me h (fun w => F w /\ known id e w)) (delete_generation me e)
    (fun deleted => knows me (match deleted with Ok true => owing (credited (en_Namespace e) (en_Size e) 1) h | _ => h end)
       (fun w => F w /\ (deleted = Ok true -> doomed w (en_StoragePath e)))).
Proof.
  intros HF HL Hk Hnl Hc. eapply (spec_request limits me L F (known id e) h _ false _
    (fun deleted => match deleted with Ok true => owing (credited (en_Namespace e) (en_Size e) 1) h | _ => h end)
    (fun deleted w => deleted = Ok true -> doomed w (en_StoragePath e))); try done; try apply _.
  - by intros [[]|].
  - intros w Hi Hm (c & [Hid Hn Hu [Hsz Hp] Hs] & Ho) _. set (pick := fun row : CompileCacheEntry => _ && _).
    assert (forall id' e', w_rows w !! id' = Some e' -> pick e' = true -> id' = id) as Hone.
    { intros id' e' He' [Hp1%Z.eqb_eq _]%andb_prop. pose proof (id_of_row _ _ _ _ Hi He' Hp1). congruence. }
    assert ((exists r, w_rows w !! id = Some r /\ pick r = true) \/ ~ exists r, w_rows w !! id = Some r /\ pick r = true) as [(r & Hr & Hpr)|Hno].
    { destruct (w_rows w !! id) as [r|]; [|by right; intros (r & ? & _)]. destruct (pick r) eqn:Hpr; [by left; exists r|].
      right. intros (r' & [= <-] & Hp'). congruence. }
    + assert (en_StoragePath r = en_StoragePath e /\ en_Namespace r = en_Namespace e /\ en_Size r = en_Size e) as (Hpath & Hns & Hsize).
      { apply andb_prop in Hpr as [_ Hpath%str_eqb_eq]. destruct (in_rows _ _ Hi _ _ Hr) as (_ & _ & c' & [Hid' _ Hu' [Hsz' _] _] & _).
        assert (c' = c) as -> by congruence. split_and!; [done| |congruence]. rewrite <- Hid' in Hid. by injection Hid. }
      assert (drop_row me pick e w = (true, dropped id r w)) as ->.
      { unfold drop_row. rewrite (delete_rows_one pick id r w) by done. unfold dropped. by rewrite Hid, Hns, Hsize. }
      cbn [fst snd]. rewrite <- Hpath, <- Hns, <- Hsize. destruct (acts_drop L id r h w) as [Ha Hd]; [done..|]. by split.
    + assert (drop_row me pick e w = (false, w)) as ->.
      { unfold drop_row. rewrite delete_rows_none; [done|]. intros id' e' He'. apply not_true_iff_false. intros Hp'. apply Hno.
        rewrite <- (Hone _ _ He' Hp'). by exists e'. }
      cbn [fst snd]. split; [by apply acts_stay|done].
Qed.

(** *** An entry comes *)

Definition previous_size (previous : option CompileCacheEntry) : Z := match previous with Some row => en_Size row | None => 0 end.
Definition previous_path (previous : option CompileCacheEntry) : option gostring := en_StoragePath <$> previous.

Lemma tmp_unused path : an_object path -> is_probe (path ++ bs ".tmp") = false /\ ~ an_object (path ++ bs ".tmp").
Proof. intros (id & g & Hv & Hg & ->). split; [by apply tmp_not_probe|by apply tmp_no_object]. Qed.

Section commit.
Context (id : ArtifactID) (path content : gostring) (deadline : Z) (previous : option CompileCacheEntry).

Definition committed (e : CompileCacheEntry) (ids : gmap Z ArtifactID) (next_id : Z) (deletions : gmap gostring CompileCacheDeletion) (next : Z)
    (credits : gmap nat credit) (w : world) : world :=
  logged (ev_put id content) (set_credits credits (set_staged (delete path (w_staged w))
    (set_deletions deletions next (set_ids ids (set_rows (<[id := e]> (w_rows w)) next_id w))))).

(** What the transaction makes of the row, the ids and the queue. *)
Record new_generation (w : world) (e : CompileCacheEntry) (ids : gmap Z ArtifactID) (next_id : Z) (deletions : gmap gostring CompileCacheDeletion) : Prop := {
  ng_entry : describes ids (w_uploaded w) id e content;
  ng_path : en_StoragePath e = path;
  ng_ids : w_ids w ⊆ ids;
  ng_next : 0 < next_id /\ map_Forall (fun n _ => 0 < n < next_id) ids;
  ng_deletions path' d : deletions !! path' = Some d ->
    path' <> path /\ (w_deletions w !! path' = Some d \/ previous_path previous = Some path');
  ng_kept path' : path' <> path -> path' <> path ++ bs ".tmp" -> is_Some (w_deletions w !! path') -> is_Some (deletions !! path');
  ng_previous path' : previous_path previous = Some path' -> is_Some (deletions !! path');
  ng_named : map_Forall (fun path d => cd_StoragePath d = path) deletions;
}.

(** What the goroutine knows before. *)
Record ready_to_commit (w : world) : Prop := {
  rc_valid : validate id = None;
  rc_object : an_object path;
  rc_staged : staged_by me path deadline w;
  rc_stored : stored path content deadline w;
  rc_size : 0 < len content;
  rc_previous : w_rows w !! id = previous;
  rc_path : named_for id path;
}.

Section world.
Context (w : world) (e : CompileCacheEntry) (ids : gmap Z ArtifactID) (next_id : Z) (deletions : gmap gostring CompileCacheDeletion) (next : Z).
Context (Hi : inv limits w) (Hr : ready_to_commit w) (Hn : new_generation w e ids next_id deletions) (Hnow : w_now w <= deadline).

Definition committed_credits : gmap nat credit :=
  settle_credit me (id_namespace id) (Z.max 0 (previous_size previous - len content)) 0 (w_credits w).

Abbreviation w' := (committed e ids next_id deletions next committed_credits w).

Lemma path_unused : ~ row_at w path /\ ~ fresh w path /\ ~ doomed w path.
Proof.
  destruct Hr as [_ Ho Hs _ _ _]. destruct (staged_path _ _ _ _ Hi Hs) as (_ & ? & ?). split_and!; [done..|].
  intros Hd. pose proof (doomed_staged _ _ _ _ Hi Hd Hs) as Hlt. cbn in Hlt. lia.
Qed.

Lemma previous_row path' : previous_path previous = Some path' -> exists r, w_rows w !! id = Some r /\ en_StoragePath r = path'.
Proof. rewrite <- (rc_previous _ Hr). destruct (w_rows w !! id) as [r|]; [|done]. intros [= <-]. by exists r. Qed.

Lemma previous_at path' : previous_path previous = Some path' -> row_at w path'.
Proof. intros (r & Hr' & <-)%previous_row. by exists id, r. Qed.

Lemma row_at_committed path' : row_at w' path' <-> path' = path \/ exists id' e', id' <> id /\ w_rows w !! id' = Some e' /\ en_StoragePath e' = path'.
Proof.
  split.
  - intros (id' & e' & He' & <-). change (<[id := e]> (w_rows w) !! id' = Some e') in He'. apply lookup_insert_Some in He' as [(-> & <-)|[Hne He']].
    + left. apply (ng_path _ _ _ _ _ Hn).
    + right. by exists id', e'.
  - intros [->|(id' & e' & Hne & He' & <-)].
    + exists id, e. split; [apply lookup_insert_eq|apply (ng_path _ _ _ _ _ Hn)].
    + exists id', e'. split; [|done]. change (<[id := e]> (w_rows w) !! id' = Some e'). by rewrite lookup_insert_ne.
Qed.

Lemma previous_gone path' : previous_path previous = Some path' -> ~ row_at w' path'.
Proof.
  intros Hp [->|(id' & e' & Hne & He' & Hpe)]%row_at_committed.
  - by apply (proj1 path_unused), previous_at.
  - destruct (previous_row _ Hp) as (r & Hr' & Hpr). apply Hne. eapply (in_distinct _ _ Hi); [done..|congruence].
Qed.

Lemma row_at_older path' : row_at w' path' -> path' = path \/ row_at w path'.
Proof. intros [->|(id' & e' & _ & He' & <-)]%row_at_committed; [by left|right]. by exists id', e'. Qed.

Lemma committed_balanced :
  w_credits w !! me = credited (id_namespace id) (Z.max 0 (len content - previous_size previous)) (if previous then 0 else 1) ->
  balanced (w_ledger w) (<[id := e]> (w_rows w)) committed_credits.
Proof.
  intros Hc k scope. unfold committed_credits. rewrite (in_balanced _ _ Hi k scope), tally_insert, settle_tally, Hc, owed_credited, (rc_previous _ Hr).
  destruct (ng_entry _ _ _ _ _ Hn) as [Hid _ _ [Hsz _] _].
  assert (row_weight k scope e = weight k scope (id_namespace id) (len content) 1) as -> by (unfold row_weight; by rewrite <- Hid, Hsz).
  destruct previous as [r|] eqn:Ep; cbn [previous_size].
  - assert (row_weight k scope r = weight k scope (id_namespace id) (en_Size r) 1) as ->.
    { pose proof (row_identity w id r Hi (eq_trans (rc_previous _ Hr) Ep)) as Hid'. unfold row_weight. by rewrite <- Hid'. }
    unfold weight. destruct (in_scope scope (id_namespace id)), k; lia.
  - unfold weight. destruct (in_scope scope (id_namespace id)), k; lia.
Qed.

Lemma inv_committed :
  w_credits w !! me = credited (id_namespace id) (Z.max 0 (len content - previous_size previous)) (if previous then 0 else 1) ->
  inv limits w'.
Proof.
  intros Hc. destruct path_unused as (Hnr & Hnf & Hnd). destruct Hn as [He Hp Hids Hnext Hdel Hkept Hprev Hnm], Hr as [Hv Ho Hs [Hu Hob] Hsz Hpr].
  destruct (tmp_unused _ Ho) as [Htp Hto]. split; try (by destruct Hi).
  - intros id' e' He'. change (<[id := e]> (w_rows w) !! id' = Some e') in He'. unfold entry_ok.
    change (w_log w') with (ev_put id content :: w_log w). cbn [current_upload]. apply lookup_insert_Some in He' as [(<- & <-)|[Hne He']].
    + split; [done|]. split; [by rewrite Hp|]. exists content. by rewrite decide_True.
    + destruct (in_rows _ _ Hi _ _ He') as (? & ? & c & [] & ?). split; [done|]. split; [done|]. exists c. rewrite decide_False by done. split; [|done].
      split; try done. by eapply lookup_weaken.
  - intros id1 id2 e1 e2 H1 H2. change (<[id := e]> (w_rows w) !! id1 = Some e1) in H1. change (<[id := e]> (w_rows w) !! id2 = Some e2) in H2.
    apply lookup_insert_Some in H1 as [(<- & <-)|[Hne1 H1]], H2 as [(<- & <-)|[Hne2 H2]]; rewrite ?Hp; intros Heq; [done| | |by eapply (in_distinct _ _ Hi)].
    + exfalso. apply Hnr. by exists id2, e2.
    + exfalso. apply Hnr. by exists id1, e1.
  - intros id' He'. change (<[id := e]> (w_rows w) !! id' = None) in He'. apply lookup_insert_None in He' as [He' Hne].
    change (current_upload (ev_put id content :: w_log w) id' = None). cbn [current_upload]. rewrite decide_False by done. by apply (in_gone _ _ Hi).
  - intros path' Hf. destruct (in_fresh _ _ Hi path' Hf) as (Hr' & Hs' & Hd' & Hu'). split_and!; [| | |done].
    + intros [->|?]%row_at_older; [by apply Hnf|done].
    + change (delete path (w_staged w) !! path' = None). apply lookup_delete_None. by right.
    + change (deletions !! path' = None). apply eq_None_not_Some. intros [d Hd]. destruct (Hdel _ _ Hd) as [_ [Hd2|Hp2]]; [congruence|].
      by apply Hr', previous_at.
  - intros path' s Hs'. change (delete path (w_staged w) !! path' = Some s) in Hs'. apply lookup_delete_Some in Hs' as [Hne Hs'].
    destruct (in_staged _ _ Hi _ _ Hs') as [? ?]. split; [done|]. intros [?|?]%row_at_older; [congruence|done].
  - intros path' d Hd. change (deletions !! path' = Some d) in Hd. destruct (Hdel _ _ Hd) as [Hne [Hd2|Hp2]].
    + destruct (in_queue _ _ Hi _ _ Hd2) as [? Hq]. split; [intros [?|?]%row_at_older; [congruence|done]|]. intros s Hs'.
      change (delete path (w_staged w) !! path' = Some s) in Hs'. apply lookup_delete_Some in Hs' as [_ Hs']. by apply Hq.
    + split; [by apply previous_gone|]. intros s Hs'. change (delete path (w_staged w) !! path' = Some s) in Hs'.
      apply lookup_delete_Some in Hs' as [_ Hs']. destruct (in_staged _ _ Hi _ _ Hs') as [_ Hr']. by apply previous_at in Hp2.
  - intros path' Ho'. destruct (in_objects _ _ Hi path' Ho') as [Hu' Hq]. split; [done|]. change (w_deletions w') with deletions.
    rewrite row_at_committed. destruct (decide (path' = path)) as [->|Hne]; [by right; left; left|].
    destruct Hq as [?|[(id' & e' & He' & <-)|Hq]]; [by left|right|right; right].
    + destruct (decide (id' = id)) as [->|Hne']; [right|left; right; by exists id', e']. apply Hprev. unfold previous_path. by rewrite <- Hpr, He'.
    + apply Hkept; [done| |done]. intros ->. destruct Hu' as [c Hc']. pose proof (in_uploaded _ _ Hi _ _ Hc') as Hin. cbv beta in Hin. by rewrite Htp in Hin.
  - intros Ht. destruct (in_intact _ _ Hi Ht) as [Hu' Ho']. split; [done|]. intros path' [->|Hr']%row_at_older; [|by apply Ho'].
    exists content. by apply Hob.
  - apply settle_credits_ok; [lia|lia|apply Hi].
  - by apply committed_balanced.
Qed.

Lemma apart_committed j (locked : gostring -> Prop) : j <> me -> ~ locked (cacheIdentity id) -> apart j locked w w'.
Proof.
  intros Hj Hl. destruct path_unused as (Hnr & Hnf & Hnd). destruct Hn as [He Hp Hids Hnext Hdel Hkept Hprev Hnm], Hr as [Hv Ho Hs [Hu Hob] Hsz Hpr].
  destruct (tmp_unused _ Ho) as [Htp Hto]. split; try done.
  - by exists [ev_put id content].
  - intros id' Hk. change (<[id := e]> (w_rows w) !! id' = w_rows w !! id'). rewrite lookup_insert_ne; [done|]. by intros ->.
  - intros path' s Hos Hs'. assert (path' <> path) as Hne.
    { intros ->. unfold staged_by in Hs. rewrite Hs in Hs'. by injection Hs' as <-. }
    split; [change (delete path (w_staged w) !! path' = Some s); by rewrite lookup_delete_ne|]. split; [done|]. intros _. split; [|done].
    apply Hkept; [done|]. intros ->. by destruct (in_staged _ _ Hi _ _ Hs').
  - intros path' Hd. split; [|done]. destruct Hd as [?|(Hr' & Hf & Hs')]; [by left|right]. split_and!; [|done|].
    + intros [->|?]%row_at_older; [|done]. apply Hnd. right. by split_and!.
    + intros s Hs2. change (delete path (w_staged w) !! path' = Some s) in Hs2. apply lookup_delete_Some in Hs2 as [_ Hs2]. by apply Hs'.
Qed.

Lemma previous_doomed path' : previous_path previous = Some path' -> doomed w' path'.
Proof.
  intros Hp. right. split_and!; [by apply previous_gone| |].
  - intros Hf. destruct (in_fresh _ _ Hi path' Hf) as [Hr' _]. by apply Hr', previous_at.
  - intros s Hs. change (delete path (w_staged w) !! path' = Some s) in Hs. apply lookup_delete_Some in Hs as [_ Hs].
    destruct (in_staged _ _ Hi _ _ Hs) as [_ Hr']. exfalso. by apply Hr', previous_at.
Qed.

End world.
End commit.

Lemma ids_unused w : inv limits w -> w_ids w !! db_next_id (w_db w) = None.
Proof. intros Hi. apply eq_None_not_Some. intros [id Hid]. pose proof (proj2 (in_ids _ _ Hi) _ _ Hid) as Hlt. cbv beta in Hlt. lia. Qed.

Lemma unmarked (path : gostring) (deletions : gmap gostring CompileCacheDeletion) (p : gostring) :
  fold_left (fun deletions p => delete p deletions) [path; path ++ bs ".tmp"] deletions !! p =
    if decide (p = path \/ p = path ++ bs ".tmp") then None else deletions !! p.
Proof.
  cbn [fold_left]. case_decide as Hp.
  - apply lookup_delete_None. destruct Hp as [->| ->]; [right; apply lookup_delete_eq|by left].
  - rewrite !lookup_delete_ne; [done|by intros He1; apply Hp; left|by intros He1; apply Hp; right].
Qed.

(** What the transaction of [Put] does. *)
Lemma commit_form id path content size time deadline previous w :
  inv limits w -> ready_to_commit id path content deadline previous w -> w_now w <= deadline -> size = len content ->
  exists e ids next_id deletions next, commit_generation me id path content size time [path; path ++ bs ".tmp"] previous w = committed id path content e ids next_id deletions next (committed_credits id content previous w) w
    /\ new_generation id path content previous w e ids next_id deletions.
Proof.
  intros Hi Hr Hnow ->. unfold commit_generation.
  pose proof (path_unused id path content deadline previous w Hi Hr Hnow) as (Hnr & Hnf & _).
  pose proof (rc_previous _ _ _ _ _ _ Hr) as Hpr. destruct (rc_stored _ _ _ _ _ _ Hr) as [Hu _]. pose proof (rc_size _ _ _ _ _ _ Hr) as Hsz.
  unfold upsert. rewrite Hpr. destruct previous as [r|].
  - assert (en_StoragePath r <> [] /\ en_StoragePath r <> path) as [Hr1 Hr2].
    { split; [|intros Heq; apply Hnr; by exists id, r]. eapply object_path_nonempty, (in_rows _ _ Hi _ _ Hpr). }
    rewrite !bool_decide_eq_false_2 by done. cbn [orb].
    set (e := {| en_ID := en_ID r; en_Protocol := _ |}). set (w1 := set_rows _ _ w).
    set (gone := fold_left _ _ _). set (w2 := set_deletions gone _ w1). unfold enqueueDeletion.
    destruct (enqueue_same (en_StoragePath r) (w_now w2) w2) as (deletions & next & Heq).
    pose proof (enqueue_lookup (en_StoragePath r) (w_now w2) w2) as Hl. rewrite Heq in *.
    exists e, (w_ids w), (db_next_id (w_db w)), deletions, next. split; [done|].
    assert (forall p, gone !! p = if decide (p = path \/ p = path ++ bs ".tmp") then None else w_deletions w !! p) as Hg by (intros p; apply unmarked).
    change (w_deletions w2) with gone in Hl. change (w_deletions (set_deletions deletions next w2)) with deletions in Hl.
    destruct (in_rows _ _ Hi _ _ Hpr) as (_ & _ & c & [Hid Hn _ _ _ _] & _). split.
    + split; [done|done|done|done|done|apply Hr].
    + done.
    + done.
    + apply (in_ids _ _ Hi).
    + intros p d. rewrite Hl by done. case_decide as Hp; [intros _; subst p; by split; [|right]|]. rewrite Hg. case_decide as Hp2; [done|].
      intros Hd. split; [intros ->; by apply Hp2; left|by left].
    + intros p Hp Ht Hd. rewrite Hl by done. case_decide; [done|]. rewrite Hg, decide_False; [done|]. by intros [?|?].
    + intros p [= <-]. rewrite Hl by done. by rewrite decide_True.
    + intros p d. rewrite Hl by done. rewrite !Hg. case_decide as Hp; [subst p|]; case_decide; try done.
      * by intros [= <-].
      * intros [= <-]. destruct (w_deletions w !! en_StoragePath r) as [d|] eqn:E; [|done]. by apply (in_named _ _ Hi _ _ E).
      * apply (in_named _ _ Hi).
  - set (e := {| en_ID := _; en_Protocol := id_protocol id |}). set (gone := fold_left _ _ _).
    exists e, (<[db_next_id (w_db w) := id]> (w_ids w)), (db_next_id (w_db w) + 1), gone, (db_next_deletion (w_db w)). split; [done|].
    assert (forall p, gone !! p = if decide (p = path \/ p = path ++ bs ".tmp") then None else w_deletions w !! p) as Hg by (intros p; apply unmarked).
    split.
    + split; [by destruct id|apply lookup_insert_eq|done|done|done|apply Hr].
    + done.
    + apply insert_subseteq. by apply ids_unused.
    + destruct (in_ids _ _ Hi) as [Hpos Hids]. split; [lia|]. apply map_Forall_insert_2; [cbv beta; lia|]. intros n x Hx.
      specialize (Hids _ _ Hx). cbv beta in *. lia.
    + intros p d. rewrite Hg. case_decide as Hp; [done|]. intros Hd. split; [intros ->; by apply Hp; left|by left].
    + intros p Hp Ht Hd. rewrite Hg, decide_False; [done|]. by intros [?|?].
    + done.
    + intros p d. rewrite Hg. case_decide; [done|]. apply (in_named _ _ Hi).
Qed.

Lemma spec_commit_entry id path content size time deadline previous h :
  validate id = None -> an_object path -> named_for id path -> 0 < len content -> size = len content -> cacheIdentity id ∈ ho_locks h ->
  ho_credit h = credited (id_namespace id) (Z.max 0 (size - previous_size previous)) (if previous then 0 else 1) ->
  spec (knows me h (fun w => (staged_by me path deadline w /\ stored path content deadline w) /\ w_rows w !! id = previous /\ doomed w (path ++ bs ".tmp")))
    (commit_entry me id path content size time deadline [path; path ++ bs ".tmp"] previous)
    (fun answer => knows me (match answer with Ok _ => owing (credited (id_namespace id) (Z.max 0 (previous_size previous - size)) 0) h | Err _ => h end)
       (fun w => match answer with
                 | Ok _ => (forall path', previous_path previous = Some path' -> doomed w path') /\ ev_put id content ∈ w_log w
                 | Err _ => staged_by me path deadline w /\ doomed w (path ++ bs ".tmp")
                 end)).
Proof.
  intros Hv Ho Hnf Hsz Hs Hk Hc. unfold commit_entry.
  apply (spec_moves limits me h _ _ _ _
    (fun answer => match answer with Ok _ => owing (credited (id_namespace id) (Z.max 0 (previous_size previous - size)) 0) h | Err _ => h end)
    (fun answer w => match answer with
       | Ok _ => (forall path', previous_path previous = Some path' -> doomed w path') /\ ev_put id content ∈ w_log w
       | Err _ => staged_by me path deadline w /\ doomed w (path ++ bs ".tmp")
       end)); try done.
  - apply firm_and; [apply _|]. apply firm_and; [by apply firm_row|apply _].
  - intros [u|e]; apply _.
  - intros w Hi Hm [[Hst Hso] [Hr Hd]] Hnow%Z.leb_le.
    assert (ready_to_commit id path content deadline previous w) as Hrc by by split.
    cbn [fst snd].
    destruct (commit_form id path content size time deadline previous w Hi Hrc Hnow Hs) as (e & ids & next_id & deletions & next & -> & Hn).
    cbn [fst snd]. rewrite Hs in Hc. rewrite Hs. split.
    + split.
      * eapply inv_committed; [done..|]. by rewrite (mi_credit _ _ _ Hm), Hc.
      * intros j Hj. eapply apart_committed; [done..|]. intros Hlj. apply (mi_locks _ _ _ Hm) in Hk. congruence.
      * intros j Hj. split; try done. change (committed_credits id content previous w !! j = w_credits w !! j). unfold committed_credits.
        by rewrite settle_lookup, decide_False.
      * destruct Hm. split; try done. change (committed_credits id content previous w !! me =
          credited (id_namespace id) (Z.max 0 (previous_size previous - len content)) 0). unfold committed_credits. by rewrite settle_lookup, decide_True.
    + split; [intros path' Hp; by eapply previous_doomed|by left].
  - intros w e Hi Hm [[Hst _] [_ Hd]]. by split.
Qed.

End goroutine.
