(* ===== verification/CompileTheory.v ===== *)
(** * The operations of the compiler cache (CompileCache.v)

    Uploads, downloads, deletions and maintenance of one goroutine among others: what each
    holds when it returns, and what a download was given. *)

From stdpp Require Import gmap sorting.
From S2P Require Export CompileStore.

Section goroutine.
Context (limits : Limits) (me : nat).

Abbreviation spec P m Q := (hoare (compile_protocol limits) me P m Q).

(** What is left of a precondition when an operation returns. *)
Lemma spec_finish {A} (a : A) (P : world -> Prop) h F (Q : A -> world -> Prop) :
  Firm me (ho_locks h) F -> (forall w, P w -> knows me h F w) -> (forall w, inv limits w -> knows me h F w -> Q a w) -> spec P (return_ a) Q.
Proof. intros HF Hp Hq. eapply hoare_weaken; [by apply (spec_return limits me F h a Q)|intros w _; apply Hp|done]. Qed.

(** ** The remaining steps *)

(** *** Touches *)

Definition touch_ok (identity : gostring) (t : pendingTouch) : Prop := cacheIdentityParts (pt_Protocol t) (pt_Namespace t) (pt_Key t) = identity.

Lemma acts_touches L hits touches h w :
  inv limits w -> mine me h w -> map_Forall touch_ok touches -> acts limits me L h w (set_touches hits touches w).
Proof.
  intros Hi [] Ht. apply acts_service; [|by split|by split]. apply inv_service; [done|done|done|]. by destruct (in_slots _ _ Hi).
Qed.

Lemma spec_queueTouch id h F : Firm me (ho_locks h) F -> spec (knows me h F) (queueTouch id) (fun _ => knows me h F).
Proof.
  intros HF. framing (spec_step limits me (ho_locks h) F (fun _ => True) h _ (fun _ => h) (fun _ _ => True)).
  intros w Hi Hm _. cbn [fst snd]. split; [|done]. apply acts_touches; [done..|]. apply map_Forall_insert_2; [done|apply (in_touches _ _ Hi)].
Qed.

(** The counters of a row. *)
Definition touched_row (t : pendingTouch) (time : Z) (e : CompileCacheEntry) : CompileCacheEntry :=
  {| en_ID := en_ID e; en_Protocol := en_Protocol e; en_Namespace := en_Namespace e; en_Key := en_Key e; en_StoragePath := en_StoragePath e;
     en_Size := en_Size e; en_Checksum := en_Checksum e; en_HitCount := en_HitCount e + pt_Hits t; en_LastAccessed := Z.max (en_LastAccessed e) (pt_At t);
     en_UpdatedAt := time |}.

Lemma inv_rows_alter f id w :
  inv limits w -> (forall e, f e = {| en_ID := en_ID e; en_Protocol := en_Protocol e; en_Namespace := en_Namespace e; en_Key := en_Key e;
    en_StoragePath := en_StoragePath e; en_Size := en_Size e; en_Checksum := en_Checksum e; en_HitCount := en_HitCount (f e);
    en_LastAccessed := en_LastAccessed (f e); en_UpdatedAt := en_UpdatedAt (f e) |}) ->
  inv limits (set_rows (alter f id (w_rows w)) (db_next_id (w_db w)) w)
  /\ forall path, row_at (set_rows (alter f id (w_rows w)) (db_next_id (w_db w)) w) path <-> row_at w path.
Proof.
  intros Hi Hf. set (w' := set_rows _ _ w).
  assert (forall id' e', w_rows w' !! id' = Some e' -> exists e, w_rows w !! id' = Some e /\ en_ID e' = en_ID e /\ identity_of e' = identity_of e
    /\ en_StoragePath e' = en_StoragePath e /\ en_Size e' = en_Size e /\ en_Checksum e' = en_Checksum e) as Hback.
  { intros id' e' He'. change (alter f id (w_rows w) !! id' = Some e') in He'. apply lookup_alter_Some in He' as [(-> & e & He & ->)|[_ He]].
    - exists e. rewrite (Hf e). by split_and!.
    - by exists e'. }
  assert (forall path, row_at w' path <-> row_at w path) as Hrow.
  { intros path. split.
    - intros (id' & e' & He' & <-). destruct (Hback _ _ He') as (e & He & _ & _ & -> & _). by exists id', e.
    - intros (id' & e & He & <-). destruct (decide (id' = id)) as [->|Hne].
      + exists id, (f e). split; [change (alter f id (w_rows w) !! id = Some (f e)); by rewrite lookup_alter_eq, He|by rewrite (Hf e)].
      + exists id', e. split; [change (alter f id (w_rows w) !! id' = Some e); by rewrite lookup_alter_ne|done]. }
  split; [|done]. split; try (by destruct Hi).
  - intros id' e' He'. destruct (Hback _ _ He') as (e & He & Hn & Hid & Hp & Hs & Hc). destruct (in_rows _ _ Hi _ _ He) as (Hv & Ho & c & [] & Hcur).
    split; [done|]. split; [by rewrite Hp|]. exists c. split; [|done]. split; [by rewrite Hid|by rewrite Hn|by rewrite Hp|by rewrite Hs|by rewrite Hc|by rewrite Hp].
  - intros id1 id2 e1 e2 H1 H2 Heq. destruct (Hback _ _ H1) as (e1' & H1' & _ & _ & Hp1 & _), (Hback _ _ H2) as (e2' & H2' & _ & _ & Hp2 & _).
    eapply (in_distinct _ _ Hi); [done..|congruence].
  - intros id' Hn. apply (in_gone _ _ Hi). change (alter f id (w_rows w) !! id' = None) in Hn. by apply lookup_alter_None in Hn.
  - intros path Hf'. rewrite Hrow. by apply (in_fresh _ _ Hi).
  - intros path s Hs. rewrite Hrow. by apply (in_staged _ _ Hi _ _ Hs).
  - intros path d Hd. rewrite Hrow. by apply (in_queue _ _ Hi _ _ Hd).
  - intros path Ho. rewrite Hrow. by apply (in_objects _ _ Hi).
  - intros Ht. destruct (in_intact _ _ Hi Ht) as [Hu Ho]. split; [done|]. intros path. rewrite Hrow. apply Ho.
  - intros k scope. change (view k scope (w_ledger w) = tally (row_weight k scope) (alter f id (w_rows w)) + tally (credit_weight k scope) (w_credits w)).
    rewrite (in_balanced _ _ Hi k scope). f_equal. apply tally_ext. intros id'. destruct (decide (id' = id)) as [->|Hne].
    + rewrite lookup_alter_eq. destruct (w_rows w !! id) as [e|]; [|done]. cbn. by rewrite (Hf e).
    + by rewrite lookup_alter_ne.
Qed.

Lemma spec_touch_entry t h L F :
  Firm me L F -> L ⊆ ho_locks h -> cacheIdentityParts (pt_Protocol t) (pt_Namespace t) (pt_Key t) ∈ ho_locks h ->
  cacheIdentityParts (pt_Protocol t) (pt_Namespace t) (pt_Key t) ∉ L ->
  spec (knows me h F) (touch_entry t) (fun _ => knows me h F).
Proof.
  intros HF HL Hk Hnl. set (id := {| id_protocol := pt_Protocol t; id_namespace := pt_Namespace t; id_key := pt_Key t |}).
  eapply hoare_weaken; [eapply (spec_request limits me L F (fun _ => True) h _ _ _ (fun _ => h) (fun _ _ => True)); try done; try apply _
    |by intros w _ [Hm Hf]; exact (conj Hm (conj Hf I))|by intros a w _ (Hm & Hf & _)].
  intros w Hi Hm _ _. cbn [fst snd]. split; [|done]. set (f := fun e : CompileCacheEntry => _). fold id.
  destruct (inv_rows_alter f id w Hi) as [Hi' Hrow]; [done|].
  assert (forall i (locked : gostring -> Prop), ~ locked (cacheIdentity id) -> apart i locked w (set_rows (alter f id (w_rows w)) (db_next_id (w_db w)) w)) as Ha.
  { intros i locked Hl. split; try done.
    - intros id' Hk'. change (alter f id (w_rows w) !! id' = w_rows w !! id'). rewrite lookup_alter_ne; [done|]. by intros <-.
    - intros path Hd. split; [|done]. destruct Hd as [?|(Hr & ? & ?)]; [by left|right]. split_and!; [by rewrite Hrow|done|done]. }
  apply acts_intro; [done| |by apply Ha|by intros j _; split|by destruct Hm].
  intros j Hj. apply Ha. intros Hlj. apply (mi_locks _ _ _ Hm) in Hk. change (w_locks w !! cacheIdentity id = Some me) in Hk. congruence.
Qed.

(** *** The history *)

(** What a goroutine that looked an entry up knows of it from then on: it was the last upload
    of the artifact. *)
Definition opened (base : list event) (id : ArtifactID) (e : CompileCacheEntry) (w : world) : Prop :=
  exists newer older content, w_log w = newer ++ ev_opened me id :: older /\ base `suffix_of` older /\ current_upload older id = Some content
    /\ en_Checksum e = checksum_of content.

(** What had happened before. *)
Definition since (base : list event) (w : world) : Prop := base `suffix_of` w_log w.

#[export] Instance firm_since L base : Firm me L (since base).
Proof. intros w w' Hb Ha. unfold since. etrans; [exact Hb|apply Ha]. Qed.

#[export] Instance firm_opened L base id e : Firm me L (opened base id e).
Proof.
  intros w w' (newer & older & c & Hl & Hc) Ha. destruct (ap_log _ _ _ _ Ha) as [more Hm]. exists (more ++ newer), older, c.
  split; [|done]. by rewrite Hm, Hl, app_assoc.
Qed.

Lemma acts_opened L id h w : inv limits w -> mine me h w -> acts limits me L h w (logged (ev_opened me id) w).
Proof.
  intros Hi Hm.
  assert (forall i locked, apart i locked w (logged (ev_opened me id) w)) as Ha.
  { intros i locked. split; try done. by exists [ev_opened me id]. }
  apply acts_intro; [|intros; apply Ha..|by intros j _; split|by destruct Hm]. split; by destruct Hi.
Qed.

Lemma spec_open_entry base id h :
  spec (knows me h (since base)) (open_entry me id)
    (fun row => knows me h (fun w => True /\ match row with Ok (Some e) => known id e w /\ opened base id e w | _ => True end)).
Proof.
  eapply hoare_weaken; [eapply (spec_request limits me (ho_locks h) (fun _ => True) (since base) h _ _ _ (fun _ => h)
    (fun row w => match row with Ok (Some e) => known id e w /\ opened base id e w | _ => True end)); try done; try apply _
    |by intros w _ [Hm Hf]; exact (conj Hm (conj I Hf))|done].
  - intros [[e|]|e]; apply _.
  - intros w Hi Hm Hb _. cbn [fst snd]. split; [by apply acts_opened|]. destruct (w_rows w !! id) as [e|] eqn:He; [|done].
    destruct (in_rows _ _ Hi _ _ He) as (_ & Ho & c & Hd & Hc). split; [by exists c|]. exists [], (w_log w), c. split_and!; [done..|apply Hd].
Qed.

Lemma spec_find_entry id h F :
  Firm me (ho_locks h) F -> cacheIdentity id ∈ ho_locks h ->
  spec (knows me h F) (find_entry id)
    (fun row => knows me h (fun w => F w /\ match row with
       | Ok (Some e) => (w_rows w !! id = Some e /\ known id e w) /\ 0 < en_Size e
       | Ok None => w_rows w !! id = None
       | Err _ => True
       end)).
Proof.
  intros HF Hk. apply spec_query; [done| |..|done].
  - intros [[e|]|e]; [|by apply firm_row|apply _]. apply firm_and; [apply firm_and; [by apply firm_row|apply _]|apply _].
  - intros w Hi Hm _. destruct (w_rows w !! id) as [e|] eqn:He; [|done]. pose proof (in_rows _ _ Hi _ _ He) as Hok.
    split; [|by eapply entry_size]. split; [done|]. destruct Hok as (_ & Ho & c & Hd & _). by exists c.
Qed.

(** *** The clock, and others that change objects *)

Lemma inv_ticked time w :
  inv limits w -> inv limits (set_outside {| ou_objects := w_objects w; ou_now := Z.max (w_now w) time; ou_entropy := ou_entropy (w_outside w);
    ou_tampered := ou_tampered (w_outside w) |} w).
Proof. intros Hi. split; by destruct Hi. Qed.

Lemma spec_tick time h F : Firm me (ho_locks h) F -> spec (knows me h F) (tick time) (fun _ => knows me h F).
Proof.
  intros HF. framing (spec_step limits me (ho_locks h) F (fun _ => True) h _ (fun _ => h) (fun _ _ => True)).
  intros w Hi Hm _. cbn [fst snd]. split; [|done]. set (w' := set_outside _ w).
  assert (forall i locked, apart i locked w w') as Ha.
  { intros i locked. split; try done.
    - change (w_now w <= Z.max (w_now w) time). lia.
    - intros path [?|(Hr & Hf & Hs)]; [by split; [left|]|]. split; [|done]. right. split_and!; [done..|]. intros s Hs'.
      change (sg_deadline s < Z.max (w_now w) time). specialize (Hs s Hs'). lia. }
  apply acts_intro; [by apply inv_ticked|intros; apply Ha..|by intros j _; split|by destruct Hm].
Qed.

(** The objects that are there were there before. *)
Definition tampered (path : gostring) (content : option gostring) (w : world) : world :=
  set_outside {| ou_objects := partial_alter (fun _ => content) path (w_objects w); ou_now := w_now w; ou_entropy := ou_entropy (w_outside w);
    ou_tampered := true |} w.

Lemma tampered_objects path content w path' :
  is_Some (w_objects w !! path) -> is_Some (w_objects (tampered path content w) !! path') -> is_Some (w_objects w !! path').
Proof.
  intros Ho. change (w_objects (tampered path content w)) with (partial_alter (fun _ => content) path (w_objects w)).
  destruct (decide (path' = path)) as [->|Hne]; [done|]. by rewrite lookup_partial_alter_ne.
Qed.

Lemma inv_tampered path content w : inv limits w -> is_Some (w_objects w !! path) -> inv limits (tampered path content w).
Proof.
  intros Hi Ho. split; try (by destruct Hi). intros path' Hs. apply (in_objects _ _ Hi). by eapply tampered_objects.
Qed.

Lemma spec_tamper path content h F : Firm me (ho_locks h) F -> spec (knows me h F) (tamper path content) (fun _ => knows me h F).
Proof.
  intros HF. framing (spec_step limits me (ho_locks h) F (fun _ => True) h _ (fun _ => h) (fun _ _ => True)).
  intros w Hi Hm _. cbn [fst snd]. split; [|done]. destruct (ou_objects (w_outside w) !! path) as [c|] eqn:Ho; [|by apply acts_stay].
  fold (w_objects w) in Ho |- *. change (set_outside _ w) with (tampered path content w).
  assert (forall i locked, apart i locked w (tampered path content w)) as Ha.
  { intros i locked. split; try done. intros path' Hd. split; [done|]. intros _ Hn. apply eq_None_not_Some. intros Hs%tampered_objects; [|by exists c].
    rewrite Hn in Hs. by destruct Hs. }
  apply acts_intro; [apply inv_tampered; [done|by exists c]|intros; apply Ha..|by intros j _; split|by destruct Hm].
Qed.

Lemma spec_queue_probe path h F : is_probe path = true -> Firm me (ho_locks h) F -> spec (knows me h F) (queue_probe path) (fun _ => knows me h F).
Proof.
  intros Hp HF. framing (spec_request limits me (ho_locks h) F (fun _ => True) h _ _ _ (fun _ => h) (fun _ _ => True)).
  intros w Hi Hm _ _. cbn [fst snd]. split; [|done]. assert (doomed w path) as Hd by by left.
  apply acts_intro; [|intros; apply apart_enqueue..|intros; apply enqueue_held|eapply mine_same; [exact Hm|apply enqueue_held]].
  apply inv_enqueue; [done|by eapply doomed_no_row|by eapply doomed_not_fresh|]. intros s Hs.
  destruct (staged_path _ _ _ _ Hi Hs) as (Ho & _). by rewrite (object_not_probe _ Ho) in Hp.
Qed.

(** ** The queue of deletions *)

Definition all_doomed (paths : list gostring) (w : world) : Prop := Forall (doomed w) paths.

#[export] Instance firm_all_doomed L paths : Firm me L (all_doomed paths).
Proof. intros w w' Hd Ha. eapply Forall_impl; [exact Hd|]. intros path Hp. by apply (ap_doomed _ _ _ _ Ha). Qed.

Lemma spec_processDeletionPath path h F :
  Firm me (ho_locks h) F -> spec (knows me h (fun w => F w /\ doomed w path)) (processDeletionPath path) (fun _ => knows me h F).
Proof.
  intros HF. unfold processDeletionPath. case_bool_decide; [by apply spec_return; [apply _|intros w _ (? & ? & _)]|].
  eapply hoare_bind; [by apply spec_storage_Delete|]. intros [[]|e].
  - eapply hoare_bind; [|intros a; by apply spec_return].
    eapply hoare_weaken; [by apply (spec_remove_marker limits me path h F)| |done]. intros w _ (Hm & Hf & _ & Hb). split; [done|]. split; [done|by apply Hb].
  - eapply hoare_bind; [|intros a; by apply spec_return].
    eapply hoare_weaken; [by apply (spec_record_failure limits me path e h F)| |done]. by intros w _ (Hm & Hf & _).
Qed.

Lemma spec_processDeletionPaths paths h F :
  Firm me (ho_locks h) F -> spec (knows me h (fun w => F w /\ all_doomed paths w)) (processDeletionPaths paths) (fun _ => knows me h F).
Proof.
  intros HF. induction paths as [|path paths IH]; cbn [processDeletionPaths]; [by apply spec_return; [apply _|intros w _ (? & ? & _)]|].
  eapply hoare_bind; [|intros a; exact IH].
  eapply hoare_weaken; [apply (spec_processDeletionPath path h (fun w => F w /\ all_doomed paths w)); apply _| |done].
  intros w _ (Hm & Hf & [Hd Hds]%Forall_cons). by split.
Qed.

Lemma spec_removeUncommittedObjects path deadline h :
  spec (knows me h (fun w => staged_by me path deadline w /\ doomed w (path ++ bs ".tmp"))) (removeUncommittedObjects [path; path ++ bs ".tmp"])
    (fun _ => knows me h (fun _ => True)).
Proof.
  cbn [removeUncommittedObjects]. eapply hoare_bind; [apply (spec_storage_Delete_staged limits me path deadline h (fun w => doomed w (path ++ bs ".tmp"))); [done|apply _]|].
  intros r. eapply (hoare_bind _ _ _ _ _ (fun _ => knows me h (fun _ => True))); [|intros a; by apply spec_return].
  eapply hoare_weaken; [apply (spec_storage_Delete limits me (path ++ bs ".tmp") h (fun _ => True)); apply _| |].
  - by intros w _ (Hm & _ & Hd).
  - by intros a w _ (Hm & _).
Qed.

Lemma due_deletions_doomed limit time w : inv limits w -> time <= w_now w -> all_doomed (cd_StoragePath <$> due_deletions time limit w) w.
Proof.
  intros Hi Ht. apply Forall_forall. intros path (d & -> & Hd)%list_elem_of_fmap. unfold due_deletions in Hd.
  apply elem_of_take in Hd as (k & Hd & _). apply list_elem_of_lookup_2 in Hd.
  rewrite merge_sort_Permutation in Hd. apply list_elem_of_fmap in Hd as ([path d'] & -> & Hd). apply elem_of_map_to_list, map_lookup_filter_Some in Hd as [Hd Hnb].
  cbn in *. pose proof (in_named _ _ Hi _ _ Hd) as Hn. cbv beta in Hn. rewrite Hn. destruct (in_queue _ _ Hi _ _ Hd) as [Hr Hs]. right. split_and!; [done| |].
  - intros (_ & _ & Hf & _)%(in_fresh _ _ Hi). congruence.
  - intros s Hs'. specialize (Hs s Hs'). lia.
Qed.

Lemma spec_process_pending pending h :
  spec (knows me h (all_doomed (cd_StoragePath <$> pending))) (process_pending pending) (fun _ => knows me h (fun _ => True)).
Proof.
  induction pending as [|item pending IH]; cbn [process_pending]; [by apply spec_return; [apply _|intros w _ [? _]]|].
  eapply hoare_bind; [apply spec_ctx_err; apply _|]. intros [e|]; [by apply spec_return; [apply _|intros w _ [? _]]|].
  eapply hoare_bind; [|intros a; exact IH].
  eapply hoare_weaken; [apply (spec_processDeletionPath (cd_StoragePath item) h (all_doomed (cd_StoragePath <$> pending))); apply _| |done].
  intros w _ [Hm [Hd Hds]%Forall_cons]. by split.
Qed.

(** The clock does not go back. *)
#[export] Instance firm_now L time : Firm me L (fun w => time <= w_now w).
Proof. intros w w' Ht Ha. pose proof (ap_now _ _ _ _ Ha). lia. Qed.

Lemma spec_now h F : Firm me (ho_locks h) F -> spec (knows me h F) now (fun time => knows me h (fun w => F w /\ time <= w_now w)).
Proof. intros HF. apply spec_look; [done|apply _|]. intros w _ _ _. lia. Qed.

Lemma spec_ProcessPendingDeletions limit h :
  spec (knows me h (fun _ => True)) (ProcessPendingDeletions limit) (fun _ => knows me h (fun _ => True)).
Proof.
  unfold ProcessPendingDeletions. eapply hoare_bind; [apply spec_now; apply _|]. intros time.
  eapply hoare_bind; [apply (spec_query limits me _ h (due_deletions time _)
    (fun pending w => match pending with Ok pending => all_doomed (cd_StoragePath <$> pending) w | Err _ => True end)); [apply _| | |done]|].
  - intros [pending|e]; apply _.
  - intros w Hi _ [_ Ht]. by apply due_deletions_doomed.
  - intros [pending|e]; [|by apply spec_return; [apply _|intros w _ [? _]]].
    eapply hoare_weaken; [apply (spec_process_pending pending h)| |done]. by intros w _ [Hm [_ Hd]].
Qed.

(** ** Eviction *)

(** A row that was listed: its id stays that of its artifact. *)
Definition listed (e : CompileCacheEntry) (w : world) : Prop := w_ids w !! en_ID e = Some (identity_of e).

Lemma spec_find_by_id n id h F :
  Firm me (ho_locks h) F -> cacheIdentity id ∈ ho_locks h ->
  spec (knows me h (fun w => F w /\ w_ids w !! n = Some id)) (find_by_id n)
    (fun row => knows me h (fun w => (F w /\ w_ids w !! n = Some id)
       /\ match row with Ok (Some live) => w_rows w !! id = Some live /\ 0 < en_Size live | _ => True end)).
Proof.
  intros HF Hk. apply spec_query; [apply _| |..|done].
  - intros [[e|]|e]; [|apply _..]. apply firm_and; [by apply firm_row|apply _].
  - intros w Hi Hm [_ Hid]. destruct (head _) as [live|] eqn:Hh; [|done]. apply head_Some_elem_of in Hh. unfold rows_with_id in Hh.
    apply list_elem_of_fmap in Hh as ([id' e] & -> & Hin). apply elem_of_map_to_list, map_lookup_filter_Some in Hin as [He Hn]. cbn in *.
    pose proof (id_of_row _ _ _ _ _ Hi He Hn) as Hid'. assert (id' = id) as -> by congruence. split; [done|]. eapply entry_size, (in_rows _ _ Hi _ _ He).
Qed.

(** A lock that was taken on top of others is left. *)
Lemma unlock_again k h : k ∉ ho_locks h -> with_locks (ho_locks (with_locks ({[k]} ∪ ho_locks h) h) ∖ {[k]}) (with_locks ({[k]} ∪ ho_locks h) h) = h.
Proof. intros Hk. destruct h as [l c a u le d]. unfold with_locks. cbn in *. f_equal. set_solver. Qed.

Lemma spec_unlock_again k h F :
  Firm me (ho_locks h) F -> k ∉ ho_locks h -> spec (knows me (with_locks ({[k]} ∪ ho_locks h) h) F) (unlock k) (fun _ => knows me h F).
Proof.
  intros HF Hk. eapply hoare_weaken; [apply (spec_unlock limits me k (with_locks ({[k]} ∪ ho_locks h) h) F)|done|].
  - eapply firm_mono; [|exact HF]. cbn. set_solver.
  - cbn. set_solver.
  - intros a w _. by rewrite unlock_again.
Qed.

Definition evicted_doomed (r : result (option CompileCacheEntry)) (w : world) : Prop :=
  match r with Ok (Some live) => doomed w (en_StoragePath live) | _ => True end.

#[export] Instance firm_evicted_doomed L r : Firm me L (evicted_doomed r).
Proof. destruct r as [[live|]|e]; [apply firm_doomed|apply (firm_pure me L True)..]. Qed.

Lemma spec_evict_candidate candidate h F :
  Firm me (ho_locks h) F -> ho_credit h = None ->
  spec (knows me h (fun w => F w /\ listed candidate w)) (evict_candidate me candidate)
    (fun r => knows me h (fun w => F w /\ evicted_doomed r w)).
Proof.
  intros HF Hc. unfold evict_candidate. set (id := identity_of candidate). set (k := cacheIdentity id).
  eapply hoare_bind; [apply (spec_tryLock limits me k h (fun w => F w /\ listed candidate w)); apply _|]. intros locked.
  destruct locked; cbn [negb].
  2: { apply (spec_finish _ _ h F); [done|by intros w [(Hm & Hf & _) _]|by intros w _ [Hm Hf]]. }
  apply (hoare_pre_pure _ _ (k ∉ ho_locks h)); [by intros w [_ Hk]; apply Hk|]. intros Hk.
  set (h1 := with_locks ({[k]} ∪ ho_locks h) h).
  assert (Firm me (ho_locks h1) F) as HF1 by (eapply firm_mono; [|exact HF]; cbn; set_solver).
  assert (k ∈ ho_locks h1) as Hk1 by (cbn; set_solver).
  eapply hoare_bind; [eapply hoare_weaken; [apply (spec_find_by_id (en_ID candidate) id h1 F); done|by intros w _ [Hkn _]|done]|].
  assert (forall a, evicted_doomed a = (fun _ => True) -> spec (knows me h1 F) (_ <~ unlock k; return_ a)
    (fun r => knows me h (fun w => F w /\ evicted_doomed r w))) as Hgive.
  { intros a Ha. eapply hoare_bind; [by apply spec_unlock_again|]. intros u. apply spec_return; [done|]. intros w _ [Hm Hf]. split; [done|]. by rewrite Ha. }
  intros [[live|]|e]; cbn [negb].
  2: { eapply hoare_weaken; [by apply Hgive| |done]. by intros w _ (Hm & [Hf _] & _). }
  2: { eapply hoare_weaken; [by apply Hgive| |done]. by intros w _ (Hm & [Hf _] & _). }
  destruct (_ || _); [eapply hoare_weaken; [by apply Hgive| |done]; by intros w _ (Hm & [Hf _] & _)|].
  apply (hoare_pre_pure _ _ (0 < en_Size live)); [by intros w (_ & _ & _ & Hs)|]. intros Hs.
  eapply hoare_bind; [eapply hoare_weaken; [apply (spec_delete_entry limits me id live h1 (ho_locks h) F); [done|cbn; set_solver|done|done|done]| |done]|].
  { by intros w _ (Hm & [Hf _] & Hr & _). }
  intros [[]|e].
  - eapply hoare_bind; [eapply hoare_weaken; [apply (spec_releaseCapacity limits me (en_Namespace live) (en_Size live) 1
      (owing (credited (en_Namespace live) (en_Size live) 1) h1) (fun w => F w /\ doomed w (en_StoragePath live))); [apply _|done|lia|lia]| |done]|].
    { intros w _ (Hm & Hf & Hd). split; [done|]. split; [done|by apply Hd]. }
    intros []. assert (owing None (owing (credited (en_Namespace live) (en_Size live) 1) h1) = h1) as -> by (destruct h; cbn in *; by subst).
    eapply hoare_bind; [apply (spec_unlock_again k h (fun w => F w /\ doomed w (en_StoragePath live))); [apply _|done]|].
    intros u'. apply spec_return; [apply _|]. by intros w _.
  - eapply hoare_weaken; [by apply Hgive| |done]. by intros w _ (Hm & Hf & _).
Qed.

(** *** Passes *)

#[export] Instance firm_listed L e : Firm me L (listed e).
Proof. apply firm_ids. Qed.

#[export] Instance firm_all_listed L l : Firm me L (fun w => Forall (fun e => listed e w) l).
Proof. intros w w' Hd Ha. eapply Forall_impl; [exact Hd|]. intros e Hp. exact (firm_listed L e w w' Hp Ha). Qed.

Definition reclaimed (r : CleanupResult) (w : world) : Prop := all_doomed (cl_deletionPaths r) w.

#[export] Instance firm_reclaimed L r : Firm me L (reclaimed r).
Proof. apply firm_all_doomed. Qed.

(** A read of the service. *)
Lemma spec_glance {A} (f : world -> A) h F : Firm me (ho_locks h) F -> spec (knows me h F) (atomically (fun w => (f w, w))) (fun _ => knows me h F).
Proof.
  intros HF. eapply hoare_weaken; [apply (spec_look limits me F h f (fun _ _ => True)); solve [done|apply _]|done|by intros a w _ (Hm & Hf & _)].
Qed.

Lemma spec_exceeds targetBytes targetEntries scopeNamespace h F :
  Firm me (ho_locks h) F -> spec (knows me h F) (exceeds targetBytes targetEntries scopeNamespace) (fun _ => knows me h F).
Proof. apply spec_glance. Qed.

Section passes.
Context (h : hold) (F : world -> Prop) (HF : Firm me (ho_locks h) F) (Hc : ho_credit h = None).
Context (targetBytes targetEntries : Z) (scopeNamespace : gostring) (exclude : option ArtifactID).

Lemma spec_evict_page candidates cursor r :
  spec (knows me h (fun w => F w /\ reclaimed r w /\ Forall (fun e => listed e w) candidates))
    (evict_page me targetBytes targetEntries scopeNamespace exclude candidates cursor r)
    (fun out => knows me h (fun w => F w /\ reclaimed out.1.1 w)).
Proof.
  revert cursor r. induction candidates as [|candidate candidates IH]; intros cursor r; cbn [evict_page].
  - apply (spec_finish _ _ h (fun w => F w /\ reclaimed r w)); [apply _|by intros w (Hm & Hf & Hr & _)|done].
  - eapply hoare_bind; [apply spec_exceeds; apply _|]. intros over.
    assert (forall (out : CleanupResult * option (Z * Z) * option error), out.1.1 = r -> spec (knows me h (fun w => F w /\ reclaimed r w /\ Forall (fun e => listed e w) (candidate :: candidates)))
      (return_ out) (fun out => knows me h (fun w => F w /\ reclaimed out.1.1 w))) as Hstop.
    { intros out Ho. apply (spec_finish _ _ h (fun w => F w /\ reclaimed r w)); [apply _|by intros w (Hm & Hf & Hr & _)|]. intros w _. by rewrite Ho. }
    destruct over; cbn [negb]; [|by apply Hstop].
    destruct (excluded exclude candidate).
    { eapply hoare_weaken; [apply IH| |done]. by intros w _ (Hm & Hf & Hr & [_ Hl]%Forall_cons). }
    eapply hoare_bind; [eapply hoare_weaken; [apply (spec_evict_candidate candidate h (fun w => F w /\ reclaimed r w /\ Forall (fun e => listed e w) candidates)); [apply _|done]| |done]|].
    { by intros w _ (Hm & Hf & Hr & [Hl Hls]%Forall_cons). }
    intros [[live|]|e].
    + eapply hoare_weaken; [apply IH| |done]. intros w _ (Hm & (Hf & Hr & Hls) & Hd). split; [done|]. split; [done|]. split; [|done].
      unfold reclaimed, all_doomed. cbn. apply Forall_app. by split; [|constructor].
    + eapply hoare_weaken; [apply IH| |done]. by intros w _ (Hm & (Hf & Hr & Hls) & Hd).
    + apply (spec_finish _ _ h (fun w => F w /\ reclaimed r w)); [apply _|by intros w (Hm & (Hf & Hr & _) & _)|done].
Qed.

Lemma candidates_listed cursor w : inv limits w -> Forall (fun e => listed e w) (cleanup_candidates scopeNamespace cursor w).
Proof.
  intros Hi. apply Forall_forall. intros e He. unfold cleanup_candidates in He. apply elem_of_take in He as (k & He & _).
  apply list_elem_of_lookup_2 in He. rewrite merge_sort_Permutation in He. apply list_elem_of_filter in He as [_ He].
  apply list_elem_of_fmap in He as ([id e'] & -> & He). apply elem_of_map_to_list in He. cbn. unfold listed.
  rewrite (row_identity _ _ _ _ Hi He). by eapply id_of_row.
Qed.

Lemma spec_evict_pages n cursor r :
  spec (knows me h (fun w => F w /\ reclaimed r w)) (evict_pages me targetBytes targetEntries scopeNamespace exclude n cursor r)
    (fun out => knows me h (fun w => F w /\ reclaimed out.1 w)).
Proof.
  revert cursor r. induction n as [|n IH]; intros cursor r; cbn [evict_pages]; [by apply spec_return; [apply _|]|].
  eapply hoare_bind; [apply spec_exceeds; apply _|]. intros over. destruct over; cbn [negb]; [|by apply spec_return; [apply _|]].
  eapply hoare_bind; [apply (spec_query limits me _ h (cleanup_candidates scopeNamespace cursor)
    (fun l w => match l with Ok l => Forall (fun e => listed e w) l | Err _ => True end)); [apply _| | |done]|].
  - intros [l|e]; apply _.
  - intros w Hi _ _. by apply candidates_listed.
  - intros [[|c candidates]|e].
    + apply (spec_finish _ _ h (fun w => F w /\ reclaimed r w)); [apply _|by intros w (Hm & Hf & _)|done].
    + eapply hoare_bind; [eapply hoare_weaken; [apply (spec_evict_page (c :: candidates) cursor r)| |done]|].
      { by intros w _ (Hm & [Hf Hr] & Hl). }
      intros [[r' cursor'] [e|]]; [by apply spec_return; [apply _|]|apply IH].
    + apply (spec_finish _ _ h (fun w => F w /\ reclaimed r w)); [apply _|by intros w (Hm & Hf & _)|done].
Qed.

Lemma spec_measure_result r :
  spec (knows me h (fun w => F w /\ reclaimed r w)) (measure_result r) (fun r' => knows me h (fun w => F w /\ reclaimed r' w)).
Proof.
  eapply hoare_weaken; [apply (spec_look limits me (fun w => F w /\ reclaimed r w) h _ (fun r' w => reclaimed r' w)); [apply _|apply _|]|done|].
  - by intros w _ _ [_ Hr].
  - by intros a w _ (Hm & [Hf _] & Hr).
Qed.

Lemma spec_cleanupToLocked pages :
  spec (knows me h F) (cleanupToLocked pages me targetBytes targetEntries scopeNamespace exclude)
    (fun out => knows me h (fun w => F w /\ reclaimed out.1 w)).
Proof.
  unfold cleanupToLocked. eapply hoare_bind; [eapply hoare_weaken; [apply (spec_measure_result no_cleanup)| |done]|].
  { intros w _ [Hm Hf]. split; [done|]. by split; [|apply Forall_nil]. }
  intros r. destruct (_ || _); [by apply spec_return; [apply _|]|].
  eapply hoare_bind; [eapply hoare_weaken; [apply (spec_evict_pages pages None r)|done|done]|]. intros [r' [e|]].
  - by apply spec_return; [apply _|].
  - eapply hoare_bind; [apply spec_measure_result|]. intros r''. eapply hoare_bind; [apply spec_exceeds; apply _|]. intros over.
    by apply spec_return; [apply _|].
Qed.

End passes.

Lemma spec_make_room pages over targetBytes targetEntries scopeNamespace exclude h F :
  Firm me (ho_locks h) F -> ho_credit h = None ->
  spec (knows me h F) (make_room pages me over targetBytes targetEntries scopeNamespace exclude)
    (fun out => knows me h (fun w => F w /\ all_doomed out.1 w)).
Proof.
  intros HF Hc. unfold make_room. destruct over; cbn [negb].
  - eapply hoare_bind; [by apply spec_cleanupToLocked|]. intros [r err]. by apply spec_return; [apply _|].
  - apply spec_return; [done|]. intros w _ [Hm Hf]. by split; [|split; [|apply Forall_nil]].
Qed.

Lemma spec_reserveCapacity pages bytes entries exclude h F :
  Firm me (ho_locks h) F -> ho_credit h = None -> 0 <= bytes -> 0 <= entries ->
  spec (knows me h F) (reserveCapacity limits pages me bytes entries exclude)
    (fun err => knows me (match err with Some _ => h | None => owing (credited (id_namespace exclude) bytes entries) h end) F).
Proof.
  intros HF Hc Hb He. unfold reserveCapacity. destruct ((bytes =? 0) && (entries =? 0)) eqn:Ez.
  { apply spec_return; [done|]. intros w _ Hk. replace (owing _ h) with h; [done|]. unfold credited. rewrite Ez. destruct h; cbn in *; by subst. }
  eapply hoare_bind; [by apply spec_glance|]. intros over. eapply hoare_bind; [by apply spec_make_room|]. intros [paths [e|]].
  - eapply hoare_bind; [by apply spec_processDeletionPaths|]. intros u. by apply spec_return.
  - eapply hoare_bind; [apply spec_glance; apply _|]. intros over'.
    eapply hoare_bind; [apply (spec_make_room pages over' _ _ _ exclude h (fun w => F w /\ all_doomed paths w)); [apply _|done]|]. intros [more [e|]]; cbn [fst].
    + eapply hoare_bind; [eapply hoare_weaken; [apply (spec_processDeletionPaths (paths ++ more) h F HF)| |done]|].
      { intros w _ (Hm & [Hf Hp] & Hq). split; [done|]. split; [done|]. by apply Forall_app. }
      intros u. by apply spec_return.
    + eapply hoare_bind; [eapply hoare_weaken; [apply (spec_reserve limits me (id_namespace exclude) bytes entries h (fun w => F w /\ all_doomed (paths ++ more) w)); [apply _|done..]| |done]|].
      { intros w _ (Hm & [Hf Hp] & Hq). split; [done|]. split; [done|]. by apply Forall_app. }
      intros reserved. eapply hoare_bind; [apply spec_processDeletionPaths; by destruct reserved|]. intros u.
      apply spec_return; [by destruct reserved|]. intros w _. by destruct reserved.
Qed.

Lemma spec_Cleanup pages h :
  ho_credit h = None -> spec (knows me h (fun _ => True)) (Cleanup limits pages me) (fun _ => knows me h (fun _ => True)).
Proof.
  intros Hc. unfold Cleanup. eapply hoare_bind; [by apply spec_cleanupToLocked; [apply _|]|]. intros [r err]. cbn [fst].
  eapply hoare_bind; [apply spec_processDeletionPaths; apply _|]. intros u. by apply spec_return; [apply _|].
Qed.

Lemma spec_enforce_namespaces pages namespaces r h :
  ho_credit h = None ->
  spec (knows me h (reclaimed r)) (enforce_namespaces limits pages me namespaces r) (fun out => knows me h (reclaimed out.1)).
Proof.
  intros Hc. revert r. induction namespaces as [|namespace namespaces IH]; intros r; cbn [enforce_namespaces]; [by apply spec_return; [apply _|]|].
  eapply hoare_bind; [apply spec_glance; apply _|]. intros usage. destruct (_ && _); [apply IH|].
  eapply hoare_bind; [apply (spec_cleanupToLocked h (reclaimed r)); [apply _|done]|]. intros [partial err]. cbn [fst].
  assert (forall w, knows me h (fun w => reclaimed r w /\ reclaimed partial w) w -> knows me h (reclaimed (mergeCleanupResult r partial)) w) as Hm.
  { intros w (Hm & Hr & Hp). split; [done|]. unfold reclaimed, all_doomed. cbn. by apply Forall_app. }
  destruct err as [e|].
  - by apply (spec_finish _ _ h (reclaimed (mergeCleanupResult r partial))); [apply _|apply Hm|].
  - eapply hoare_weaken; [apply IH| |done]. intros w _. apply Hm.
Qed.

Lemma spec_EnforceLimits pages h :
  ho_credit h = None -> spec (knows me h (fun _ => True)) (EnforceLimits limits pages me) (fun _ => knows me h (fun _ => True)).
Proof.
  intros Hc. unfold EnforceLimits.
  eapply (hoare_bind _ _ _ _ _ (fun r => knows me h (reclaimed r))).
  { eapply hoare_weaken; [apply (spec_measure_result h (fun _ => True) _ no_cleanup)| |by intros r w _ (Hm & _ & Hr)].
    intros w _ [Hm _]. by split; [|split; [|apply Forall_nil]]. }
  intros r. eapply hoare_bind; [apply spec_glance; apply _|]. intros namespaces.
  eapply hoare_bind; [by apply spec_enforce_namespaces|]. intros [r1 err]. cbn [fst].
  eapply hoare_bind; [apply spec_glance; apply _|]. intros over.
  eapply (hoare_bind _ _ _ _ _ (fun out => knows me h (reclaimed out.1))).
  { destruct (match err with None => over | Some _ => false end); [|by apply spec_return; [apply _|]].
    eapply hoare_bind; [apply (spec_cleanupToLocked h (reclaimed r1)); [apply _|done]|]. intros [partial err']. cbn [fst].
    apply spec_return; [apply _|]. intros w _ (Hm & Hr & Hp). split; [done|]. unfold reclaimed, all_doomed. cbn. by apply Forall_app. }
  intros [r2 err']. cbn [fst].
  eapply (hoare_bind _ _ _ _ _ (fun r => knows me h (reclaimed r))).
  { eapply hoare_weaken; [apply (spec_measure_result h (fun _ => True) _ r2)| |by intros r' w _ (Hm & _ & Hr)]. by intros w _ [Hm Hr]. }
  intros r3. eapply hoare_bind; [eapply hoare_weaken; [apply (spec_processDeletionPaths (cl_deletionPaths r3) h (fun _ => True)); apply _| |done]|].
  { by intros w _ [Hm Hr]. }
  intros u. by apply spec_return; [apply _|].
Qed.

End goroutine.
