(* ===== verification/CompileTransfers.v ===== *)
(** * Uploads and downloads of the compiler cache (CompileCache.v) *)

From stdpp Require Import gmap.
From S2P Require Export CompileTheory.

Section goroutine.
Context (limits : Limits) (me : nat).

Abbreviation spec P m Q := (hoare (compile_protocol limits) me P m Q).
Abbreviation holds h := (knows me h (fun _ => True)).

(** Facts that are not needed any more. *)
Lemma spec_forget {A} h F (m : program world A) Q : spec (holds h) m Q -> spec (knows me h F) m Q.
Proof. intros Hm. eapply hoare_weaken; [exact Hm|by intros w _ [Hm' _]|done]. Qed.

Lemma spec_stop {A} (a : A) h F : Firm me (ho_locks h) F -> spec (knows me h F) (return_ a) (fun _ => holds h).
Proof. intros HF. apply spec_return; [done|]. by intros w _ [Hm _]. Qed.

Lemma spec_context_error e h F : Firm me (ho_locks h) F -> spec (knows me h F) (context_error e) (fun _ => knows me h F).
Proof. intros HF. eapply hoare_bind; [by apply spec_ctx_err|]. intros done_. by apply spec_return. Qed.

(** ** Uploads *)

(** Without the transfer slot and the lease. *)
Definition uploaded_hold (h : hold) : hold := with_slots (ho_admission h) false None (ho_download h) h.

(** What an upload that was acknowledged has put there: as many bytes as were declared, all
    that the client sent unless the storage reads no more than these. *)
Definition acknowledged (stops : bool) (id : ArtifactID) (u : upload) (size : Z) (r : result PutResult) (w : world) : Prop :=
  forall res, r = Ok res -> pu_Size res = size /\ exists content, ev_put id content ∈ w_log w /\ len content = size
    /\ (content = up_content u \/ (stops = true /\ content = take (Z.to_nat size) (up_content u))).

#[export] Instance firm_acknowledged L stops id u size r : Firm me L (acknowledged stops id u size r).
Proof. apply _. Qed.

Lemma spec_refuse e h F stops id u size :
  Firm me (ho_locks h) F -> spec (knows me h F) (return_ (Err e)) (fun r => knows me h (acknowledged stops id u size r)).
Proof. intros HF. apply spec_return; [done|]. by intros w _ [Hm _]. Qed.

Lemma read_upload_content stops u size content :
  read_upload stops u size = Ok content -> len content = size -> content = up_content u \/ (stops = true /\ content = take (Z.to_nat size) (up_content u)).
Proof.
  unfold read_upload. intros Hr Hl. destruct (stops && (size <=? len (up_content u))) eqn:Es.
  - apply andb_prop in Es as [-> _]. injection Hr as <-. by right.
  - left. destruct (Z.leb_spec (len (up_content u)) size) as [Hle|Hgt]; [destruct (up_broken u); [done|by injection Hr as <-]|].
    injection Hr as <-. unfold len in *. rewrite length_take in Hl. lia.
Qed.

Section upload.
Context (id : ArtifactID) (previous : option CompileCacheEntry) (deadline : Z).
Context (Hvalid : validate id = None).

(** What an upload knows after its object was stored. *)
Definition upload_stored (path content : gostring) (w : world) : Prop :=
  (staged_by me path deadline w /\ stored path content deadline w) /\ w_rows w !! id = previous /\ doomed w (path ++ bs ".tmp").

Lemma firm_upload_stored L path content : cacheIdentity id ∈ L -> Firm me L (upload_stored path content).
Proof. intros Hk. apply firm_and; [apply _|]. apply firm_and; [by apply firm_row|apply _]. Qed.

Lemma spec_removeUncommitted path h F :
  (forall w, F w -> staged_by me path deadline w /\ doomed w (path ++ bs ".tmp")) ->
  spec (knows me h F) (removeUncommittedObjects [path; path ++ bs ".tmp"]) (fun _ => holds h).
Proof. intros HF. eapply hoare_weaken; [apply (spec_removeUncommittedObjects limits me path deadline h)| |done]. intros w _ [Hm Hf]. split; [done|by apply HF]. Qed.

Lemma spec_commit_upload path content size h stops u :
  len content = size -> (content = up_content u \/ (stops = true /\ content = take (Z.to_nat size) (up_content u))) ->
  an_object path -> named_for id path -> 0 < len content -> size = len content -> cacheIdentity id ∈ ho_locks h -> ho_upload h = false ->
  ho_credit h = credited (id_namespace id) (Z.max 0 (size - previous_size previous)) (if previous then 0 else 1) ->
  spec (knows me h (upload_stored path content))
    (commit_upload me id path content size deadline [path; path ++ bs ".tmp"] previous
       (Z.max 0 (size - previous_size previous)) (if previous then 0 else 1))
    (fun r => knows me (owing None (uploaded_hold h)) (acknowledged stops id u size r)).
Proof.
  intros Hlen Hread Ho Hnf Hp Hs Hk Hu Hc. unfold commit_upload.
  assert (Firm me (ho_locks h) (upload_stored path content)) as HF by by apply firm_upload_stored.
  eapply hoare_bind; [by apply spec_now|]. intros time.
  eapply hoare_bind; [eapply hoare_weaken; [by apply (spec_commit_entry limits me id path content size time deadline previous h)| |done]|].
  { by intros w _ (Hm & Hf & _). }
  intros [[]|e].
  - set (h1 := owing (credited (id_namespace id) (Z.max 0 (previous_size previous - size)) 0) h).
    assert (Firm me (ho_locks h1) (fun w => (forall path', previous_path previous = Some path' -> doomed w path') /\ ev_put id content ∈ w_log w)) as HF1 by apply _.
    eapply hoare_bind; [by apply (spec_releaseStaging limits me h1)|]. intros []. fold (previous_size previous).
    set (h2 := with_slots _ _ _ _ h1).
    apply (hoare_bind _ _ _ _ _ (fun _ => knows me (owing None (uploaded_hold h)) (fun w => (forall path', previous_path previous = Some path' -> doomed w path') /\ ev_put id content ∈ w_log w))).
    { assert (owing None h2 = owing None (uploaded_hold h)) as Hh by (unfold uploaded_hold; by rewrite <- Hu).
      destruct (Z.ltb_spec size (previous_size previous)) as [Hlt|Hge].
      - rewrite <- Hh. apply spec_releaseCapacity; [done| |lia|lia]. cbn. f_equal. lia.
      - apply spec_return; [done|]. intros w _ Hkn. rewrite <- Hh. assert (owing None h2 = h2) as ->; [|done].
        unfold h2, h1. cbn. rewrite Z.max_l by lia. done. }
    intros _. apply (hoare_bind _ _ _ _ _ (fun _ => knows me (owing None (uploaded_hold h)) (fun w => ev_put id content ∈ w_log w))).
    2: { intros u2. apply spec_return; [apply _|]. intros w _ [Hm Hl]. split; [done|]. intros res [= <-]. split; [done|]. by exists content. }
    assert (spec (knows me (owing None (uploaded_hold h)) (fun w => (forall path', previous_path previous = Some path' -> doomed w path') /\ ev_put id content ∈ w_log w))
      (return_ ()) (fun _ => knows me (owing None (uploaded_hold h)) (fun w => ev_put id content ∈ w_log w))) as Hskip.
    { apply spec_return; [apply _|]. by intros w _ (Hm & _ & Hl). }
    destruct previous as [row|]; [|exact Hskip]. destruct (_ || _); [exact Hskip|].
    eapply hoare_weaken; [apply (spec_processDeletionPaths limits me [en_StoragePath row] (owing None (uploaded_hold h)) (fun w => ev_put id content ∈ w_log w)); apply _| |done].
    intros w _ (Hm & Hd & Hl). split; [done|]. split; [done|]. constructor; [by apply Hd|constructor].
  - eapply hoare_bind; [apply (spec_removeUncommitted path h); by intros w|]. intros u1.
    eapply hoare_bind; [apply spec_releaseCapacity; [apply _|done|lia|by destruct previous]|]. intros u2.
    eapply hoare_bind; [apply spec_releaseStaging; apply _|]. intros u3. cbn. unfold uploaded_hold. rewrite Hu. by apply spec_refuse; apply _.
Qed.

(** A clock that was read before. *)
Lemma spec_now_after time0 h F :
  Firm me (ho_locks h) F ->
  spec (knows me h (fun w => F w /\ time0 <= w_now w)) now (fun time => knows me h (fun w => F w /\ time0 <= time)).
Proof.
  intros HF. eapply hoare_weaken; [apply (spec_look limits me (fun w => F w /\ time0 <= w_now w) h w_now (fun time _ => time0 <= time)); [apply _|apply _|]|done|].
  - by intros w _ _ [_ Ht].
  - by intros a w _ (Hm & [Hf _] & Ht).
Qed.

(** The object of an upload. *)
Lemma spec_store path stops u size h :
  Firm me (ho_locks h) (fun w => w_rows w !! id = previous) ->
  spec (knows me h (fun w => w_rows w !! id = previous /\ (staging_paths me path deadline w /\ an_object path) /\ (staged_by me path deadline w /\ marked path deadline w)))
    (match read_upload stops u size with
     | Err e => return_ (Err e)
     | Ok content => stored <~ storage_Put path content deadline; return_ match stored with Err e => Err e | Ok _ => Ok content end
     end)
    (fun put => knows me h (fun w => match put with
       | Ok content => upload_stored path content w /\ read_upload stops u size = Ok content
       | Err _ => staged_by me path deadline w /\ doomed w (path ++ bs ".tmp")
       end)).
Proof.
  intros HR. destruct (read_upload stops u size) as [content|e] eqn:Er.
  - eapply hoare_bind; [eapply hoare_weaken; [apply (spec_storage_Put limits me path content deadline h
      (fun w => w_rows w !! id = previous /\ doomed w (path ++ bs ".tmp"))); [done|by apply firm_and; [|apply _]]| |done]|].
    { intros w _ (Hm & Hr & [[[Hs Hu] Hd] _] & Hs2 & Hmk). by split_and!. }
    intros [[]|e].
    + apply (spec_finish limits me _ _ h (fun w => (staged_by me path deadline w /\ stored path content deadline w) /\ w_rows w !! id = previous /\ doomed w (path ++ bs ".tmp"))).
      * apply firm_and; [apply _|]. by apply firm_and; [|apply _].
      * intros w (Hm & [_ Hst] & Hr & Hd). split; [done|]. split; [by apply Hst|done].
      * by intros w _ [Hm Hst].
    + apply (spec_finish limits me _ _ h (fun w => staged_by me path deadline w /\ doomed w (path ++ bs ".tmp"))); [apply _| |done].
      intros w (Hm & [[Hs _] _] & _ & Hd). by split.
  - apply (spec_finish limits me _ _ h (fun w => staged_by me path deadline w /\ doomed w (path ++ bs ".tmp"))); [apply _| |done].
    intros w (Hm & _ & [[[Hs _] Hd] _] & _). by split.
Qed.

Lemma spec_stage_upload stops pages u size time0 h :
  0 < size -> cacheIdentity id ∈ ho_locks h -> ho_credit h = None -> deadline = time0 + UploadTimeout limits ->
  spec (knows me h (fun w => w_rows w !! id = previous /\ time0 <= w_now w))
    (stage_upload limits stops pages me id u size deadline previous)
    (fun r => knows me (uploaded_hold h) (acknowledged stops id u size r)).
Proof.
  intros Hsz Hk Hc Hdl. unfold stage_upload. set (h1 := with_slots (ho_admission h) false (ho_lease h) (ho_download h) h).
  assert (Firm me (ho_locks h) (fun w => w_rows w !! id = previous)) as HR by by apply firm_row.
  assert (forall (e : error) F, Firm me (ho_locks h) F -> spec (knows me h F) (_ <~ releaseTransfer me; _ <~ releaseStaging me; return_ (@Err PutResult e))
    (fun r => knows me (uploaded_hold h) (acknowledged stops id u size r))) as Hgive.
  { intros e F HF. eapply hoare_bind; [by apply spec_releaseTransfer|]. intros u1. eapply hoare_bind; [by apply (spec_releaseStaging limits me h1 F)|]. intros u2.
    by apply spec_refuse. }
  eapply hoare_bind; [apply (spec_newObjectPath limits me id deadline h (fun w => w_rows w !! id = previous /\ time0 <= w_now w)); by apply firm_and; [|apply _]|].
  intros [path|e]; [|apply Hgive; apply firm_and; [by apply firm_and; [|apply _]|apply _]].
  apply (hoare_pre_pure _ _ (named_for id path)); [by intros w (_ & _ & _ & Hnf)|]. intros Hnf.
  eapply hoare_bind; [eapply hoare_weaken; [apply (spec_now_after time0 h (fun w => w_rows w !! id = previous /\ staging_paths me path deadline w /\ an_object path))| |done]|].
  { apply firm_and; [done|apply _]. }
  { by intros w _ (Hm & [Hr Ht] & Hs & _). }
  intros time. apply (hoare_pre_pure _ _ (time0 <= time)); [by intros w (_ & _ & Ht)|]. intros Ht.
  apply (hoare_pre_pure _ _ (an_object path)); [by intros w (_ & (_ & _ & Ho) & _)|]. intros Ho.
  eapply hoare_bind; [eapply hoare_weaken; [apply (spec_register_staging limits me path (time + (UploadTimeout limits + stagingCleanupGrace)) deadline h
    (fun w => w_rows w !! id = previous)); [done|unfold stagingCleanupGrace, second; lia]| |done]|].
  { by intros w _ (Hm & Hf & _). }
  intros [[]|e].
  2: { apply Hgive. apply firm_and; [done|apply _]. }
  eapply hoare_bind; [eapply hoare_weaken; [apply (spec_store path stops u size h HR)| |done]|].
  { intros w _ (Hm & Hr & Hs & _ & Hmk). split; [done|]. split_and!; [done|apply Hs|done|by apply Hmk|by apply Hmk]. }
  intros put. eapply hoare_bind; [apply (spec_releaseTransfer limits me h); destruct put; [apply firm_and; [by apply firm_upload_stored|apply _]|apply _]|]. intros []. fold h1.
  destruct put as [content|e].
  2: { eapply hoare_bind; [apply (spec_removeUncommitted path h1); by intros w|]. intros u1.
       eapply hoare_bind; [apply spec_context_error; apply _|]. intros err. eapply hoare_bind; [apply (spec_releaseStaging limits me h1); apply _|]. intros u2.
       apply spec_refuse. apply _. }
  apply (hoare_pre_pure _ _ (read_upload stops u size = Ok content)); [by intros w (_ & _ & Hr)|]. intros Hread.
  destruct (Z.eqb_spec (len content) size) as [Hlen|Hlen]; cbn [negb].
  2: { eapply hoare_bind; [apply (spec_removeUncommitted path h1); intros w [[[Hs _] [_ Hd]] _]; by split|]. intros u1.
       eapply hoare_bind; [apply (spec_releaseStaging limits me h1); apply _|]. intros u2. apply spec_refuse. apply _. }
  fold (previous_size previous).
  eapply hoare_bind; [apply (spec_reserveCapacity limits me pages _ _ id h1); [apply firm_and; [by apply firm_upload_stored|apply _]|done|lia|by destruct previous]|].
  intros [e|].
  - eapply hoare_bind; [apply (spec_removeUncommitted path h1); intros w [[[Hs _] [_ Hd]] _]; by split|]. intros u1.
    eapply hoare_bind; [apply (spec_releaseStaging limits me h1); apply _|]. intros u2. apply spec_refuse. apply _.
  - set (h2 := owing _ h1). eapply hoare_weaken; [apply (spec_commit_upload path content size h2 stops u)|by intros w _ (Hm & Hst & _)|]; try done; [by apply read_upload_content|lia|].
    intros a w _ Hkn. replace (uploaded_hold h) with (owing None (uploaded_hold h2)); [done|]. unfold uploaded_hold, h2, h1, owing, with_slots. cbn. by rewrite Hc.
Qed.

End upload.

Lemma uploading_off bytes h : ho_upload h = false -> ho_lease h = None -> uploaded_hold (uploading (Some bytes) h) = h.
Proof. intros Hu Hl. destruct h. cbn in *. by subst. Qed.

Lemma spec_put_locked stops pages id u size deadline time0 h :
  validate id = None -> 0 < size -> cacheIdentity id ∈ ho_locks h -> ho_credit h = None -> ho_upload h = false -> ho_lease h = None ->
  deadline = time0 + UploadTimeout limits ->
  spec (knows me h (fun w => time0 <= w_now w)) (put_locked limits stops pages me id u size deadline) (fun r => knows me h (acknowledged stops id u size r)).
Proof.
  intros Hv Hs Hk Hc Hu Hl Hd. unfold put_locked.
  eapply hoare_bind; [apply spec_find_entry; [apply _|done]|]. intros [previous|e].
  2: { apply spec_refuse. apply _. }
  eapply hoare_bind; [eapply hoare_weaken; [apply (spec_acquireUpload limits me size h (fun w => w_rows w !! id = previous /\ time0 <= w_now w)); [|done|done|lia]| |done]|].
  { apply firm_and; [by apply firm_row|apply _]. }
  { intros w _ (Hm & Ht & Hr). split; [done|]. split; [|done]. destruct previous as [row|]; [by destruct Hr as [[? _] _]|done]. }
  intros [[]|e].
  - eapply hoare_weaken; [apply (spec_stage_upload id previous deadline Hv stops pages u size time0 (uploading (Some size) h)); done|done|].
    intros a w _. by rewrite uploading_off.
  - apply spec_refuse. apply firm_and; [by apply firm_row|apply _].
Qed.

Lemma spec_Put stops pages id u size :
  spec (holds nothing) (Put limits stops pages me id u size) (fun r => knows me nothing (acknowledged stops id u size r)).
Proof.
  unfold Put. destruct (validate id) as [e|] eqn:Hv; [by apply spec_refuse; apply _|].
  destruct (Z.leb_spec size 0) as [Hs|Hs]; [by apply spec_refuse; apply _|]. destruct (_ || _); [by apply spec_refuse; apply _|].
  eapply hoare_bind; [apply spec_now; apply _|]. intros time0.
  eapply hoare_bind; [apply spec_admitUpload; apply _|]. intros admitted. destruct admitted; cbn [negb orb]; [|by apply spec_refuse; apply _].
  set (h1 := with_slots _ _ _ _ nothing). set (k := cacheIdentity id).
  eapply hoare_bind; [apply (spec_lock limits me k h1); [apply _|set_solver]|]. intros [[]|e].
  - eapply hoare_bind; [eapply hoare_weaken; [apply (spec_put_locked stops pages id u size (time0 + UploadTimeout limits) time0 (with_locks ({[k]} ∪ ho_locks h1) h1)); try done; set_solver| |done]|].
    { by intros w _ (Hm & _ & Ht). }
    intros r. eapply hoare_bind; [apply (spec_unlock_again limits me k h1 (acknowledged stops id u size r)); [apply _|set_solver]|]. intros u1.
    eapply hoare_bind; [apply (spec_releaseAdmission limits me h1); apply _|]. intros u2. by apply spec_return; [apply _|].
  - eapply hoare_bind; [apply (spec_releaseAdmission limits me h1); apply _|]. intros u2. apply spec_refuse. apply _.
Qed.

End goroutine.

(** * Downloads, deletions and maintenance of the compiler cache (CompileCache.v) *)

Section goroutine.
Context (limits : Limits) (me : nat).

Abbreviation spec P m Q := (hoare (compile_protocol limits) me P m Q).
Abbreviation holds h := (knows me h (fun _ => True)).

(** ** Entries without their object *)

Lemma spec_invalidateEntry id e h :
  cacheIdentity id ∈ ho_locks h -> ho_credit h = None ->
  spec (knows me h (fun w => known id e w /\ 0 < en_Size e)) (invalidateEntry me e) (fun _ => holds h).
Proof.
  intros Hk Hc. apply (hoare_pre_pure _ _ (0 < en_Size e)); [by intros w (_ & _ & Hs)|]. intros Hs. unfold invalidateEntry.
  eapply hoare_bind; [eapply hoare_weaken; [apply (spec_delete_generation limits me id e h ∅ (fun _ => True)); (apply _ || set_solver)| |done]|].
  { by intros w _ (Hm & Hkn & _). }
  intros [[]|err].
  - eapply hoare_bind; [apply (spec_releaseCapacity limits me (en_Namespace e) (en_Size e) 1); [apply _|done|lia|lia]|]. intros u.
    assert (owing None (owing (credited (en_Namespace e) (en_Size e) 1) h) = h) as -> by (destruct h; cbn in *; by subst).
    eapply hoare_bind; [eapply hoare_weaken; [apply (spec_processDeletionPaths limits me [en_StoragePath e] h (fun _ => True)); apply _| |done]|].
    { intros w _ (Hm & _ & Hd). split; [done|]. split; [done|]. constructor; [by apply Hd|constructor]. }
    intros u2. by apply spec_stop; apply _.
  - by apply spec_stop; apply _.
  - by apply spec_stop; apply _.
Qed.

Lemma spec_invalidated {A} id e h :
  cacheIdentity id ∈ ho_locks h -> ho_credit h = None ->
  spec (knows me h (fun w => known id e w /\ 0 < en_Size e)) (@invalidated me A e) (fun r => knows me h (fun _ => exists err, r = Err err)).
Proof.
  intros Hk Hc. unfold invalidated. eapply hoare_bind; [by apply spec_invalidateEntry|]. intros err.
  apply spec_return; [apply _|]. intros w _ [Hm _]. split; [done|]. by eexists.
Qed.

(** A key is locked around an operation that keeps what the goroutine holds. *)
Lemma spec_locked {A} k (m : program world A) (R : A -> world -> Prop) h h' :
  k ∉ ho_locks h -> ho_locks h' = ho_locks h -> (forall a, Firm me (ho_locks h') (R a)) ->
  spec (holds (with_locks ({[k]} ∪ ho_locks h) h)) m (fun a => knows me (with_locks ({[k]} ∪ ho_locks h') h') (R a)) ->
  spec (holds (with_locks ({[k]} ∪ ho_locks h) h)) (r <~ m; _ <~ unlock k; return_ r) (fun a => knows me h' (R a)).
Proof.
  intros Hk Hl HR Hm. eapply hoare_bind; [exact Hm|]. intros a.
  eapply hoare_bind; [apply (spec_unlock_again limits me k h' (R a)); [apply HR|by rewrite Hl]|]. intros u. apply spec_return; [apply HR|done].
Qed.

Lemma spec_stat_locked id h :
  cacheIdentity id ∈ ho_locks h -> ho_credit h = None -> ho_download h = false -> spec (holds h) (stat_locked limits me id) (fun _ => holds h).
Proof.
  intros Hk Hc Hd. unfold stat_locked. eapply hoare_bind; [apply spec_find_entry; [apply _|done]|]. intros [[e|]|err].
  2: { apply spec_stop. apply firm_and; [apply _|by apply firm_row]. }
  2: { apply spec_stop. apply _. }
  eapply hoare_bind; [eapply hoare_weaken; [apply (spec_acquireDownload limits me h (fun w => known id e w /\ 0 < en_Size e)); apply _| |done]|].
  { by intros w _ (Hm & _ & [[_ Hkn] Hs]). }
  intros slot. cbv beta. set (h1 := with_slots _ _ _ _ h). destruct slot; cbn [negb].
  2: { assert (h1 = h) as ->; [unfold h1; cbn [orb]; destruct h; cbn in *; by subst|]. apply spec_stop. apply _. }
  eapply (hoare_bind _ _ _ _ _ (fun _ => holds h1)).
  2: { intros r. eapply hoare_bind; [apply (spec_releaseDownload limits me h1); apply _|]. intros u.
       assert (with_slots (ho_admission h1) (ho_upload h1) (ho_lease h1) false h1 = h) as -> by (destruct h; cbn in *; by subst). apply spec_stop. apply _. }
  assert (forall F, (forall w, F w -> known id e w /\ 0 < en_Size e) -> spec (knows me h1 F) (@invalidated me Z e) (fun _ => holds h1)) as Hinv.
  { intros F HF. eapply hoare_weaken; [by apply (spec_invalidated id e h1)| |by intros a w _ [Hm _]]. intros w _ [Hm Hf]. by split; [|apply HF]. }
  eapply hoare_bind; [apply (spec_query limits me (fun w => known id e w /\ 0 < en_Size e) h1 _ (fun _ _ => True)); solve [done|apply _]|].
  intros [[]|err]; [|by apply Hinv; intros w [? _]|by apply spec_stop; apply _].
  eapply hoare_bind; [apply (spec_query limits me _ h1 _ (fun _ _ => True)); solve [done|apply _]|].
  intros [[size|]|err]; [|by apply spec_stop; apply _..]. cbv beta iota. destruct ((size <=? 0) || negb (size =? en_Size e)); [by apply Hinv; intros w [[? _] _]|by apply spec_stop; apply _].
Qed.

Lemma spec_Stat id : spec (holds nothing) (Stat limits me id) (fun _ => holds nothing).
Proof.
  unfold Stat. destruct (validate id) as [e|]; [by apply spec_stop; apply _|]. set (k := cacheIdentity id).
  eapply hoare_bind; [apply (spec_lock limits me k nothing); [apply _|set_solver]|]. intros [[]|e]; [|by apply spec_stop; apply _].
  apply (spec_locked k (stat_locked limits me id) (fun _ _ => True) nothing nothing); [set_solver|done|apply _|]. apply spec_stat_locked; [set_solver|done|done].
Qed.

(** ** Downloads *)

Section download.
Context (base : list event).

Definition seen (id : ArtifactID) (e : CompileCacheEntry) (w : world) : Prop := (known id e w /\ 0 < en_Size e) /\ opened me base id e w.

#[export] Instance firm_seen L id e : Firm me L (seen id e).
Proof. apply _. Qed.

Lemma spec_open_object id e h :
  cacheIdentity id ∈ ho_locks h -> ho_credit h = None ->
  spec (knows me h (seen id e)) (open_object me id e) (fun r => knows me h (fun w => match r with Ok _ => seen id e w | Err _ => True end)).
Proof.
  intros Hk Hc. unfold open_object.
  assert (forall F, (forall w, F w -> known id e w /\ 0 < en_Size e) -> spec (knows me h F) (@invalidated me gostring e)
    (fun r => knows me h (fun w => match r with Ok _ => seen id e w | Err _ => True end))) as Hinv.
  { intros F HF. eapply hoare_weaken; [by apply (spec_invalidated id e h)| |].
    - intros w _ [Hm Hf]. by split; [|apply HF].
    - intros a w _ [Hm [err ->]]. by split. }
  assert (forall (err : error) F, Firm me (ho_locks h) F -> spec (knows me h F) (return_ (Err err))
    (fun r : result gostring => knows me h (fun w => match r with Ok _ => seen id e w | Err _ => True end))) as Hfail.
  { intros err F HF. apply spec_return; [done|]. by intros w _ [Hm _]. }
  eapply hoare_bind; [apply (spec_query limits me (seen id e) h _ (fun _ _ => True)); solve [done|apply _]|].
  intros [[]|err]; [|by apply Hinv; intros w [[? _] _]|by apply Hfail; apply _].
  eapply hoare_bind; [apply (spec_query limits me _ h _ (fun _ _ => True)); solve [done|apply _]|].
  intros [[content|]|err]; [|by apply Hfail; apply _..]. cbv beta iota. destruct ((len content <=? 0) || negb (len content =? en_Size e)); [by apply Hinv; intros w [[[? _] _] _]|].
  eapply hoare_bind; [eapply hoare_weaken; [apply (spec_queueTouch limits me id h (seen id e)); apply _| |done]|].
  { by intros w _ (Hm & [Hs _] & _). }
  intros u. by apply spec_return; [apply _|].
Qed.

(** What [Open] gives: the slot is held when it succeeds. *)
Definition open_hold {A} (r : result A) (h : hold) : hold :=
  match r with Ok _ => with_slots (ho_admission h) (ho_upload h) (ho_lease h) true h | Err _ => h end.
Definition open_knows (id : ArtifactID) (r : result (CompileCacheEntry * gostring)) (w : world) : Prop :=
  match r with Ok (e, _) => seen id e w | Err _ => True end.

Lemma firm_open_knows L id r : Firm me L (open_knows id r).
Proof. destruct r as [[e c]|err]; [apply firm_seen|apply (firm_pure me L True)]. Qed.

Lemma spec_open_locked id h :
  cacheIdentity id ∈ ho_locks h -> ho_credit h = None -> ho_download h = false ->
  spec (knows me h (since base)) (open_locked limits me id) (fun r => knows me (open_hold r h) (open_knows id r)).
Proof.
  intros Hk Hc Hd. unfold open_locked. eapply hoare_bind; [apply (spec_open_entry limits me base)|].
  assert (forall (err : error) F, Firm me (ho_locks h) F -> spec (knows me h F) (return_ (Err err))
    (fun r : result (CompileCacheEntry * gostring) => knows me (open_hold r h) (open_knows id r))) as Hfail.
  { intros err F HF. apply spec_return; [done|]. by intros w _ [Hm _]. }
  intros [[e|]|err]; [|by apply Hfail; apply _..].
  apply (hoare_weaken _ _ _ (knows me h (fun w => known id e w /\ opened me base id e w)) _ (fun r => knows me (open_hold r h) (open_knows id r)));
    [|intros w _ (Hm & _ & Hf); exact (conj Hm Hf)|done].
  apply (hoare_pre_pure _ _ (0 < en_Size e)); [by intros w (_ & (c & [_ _ _ [_ Hs] _] & _) & _)|]. intros Hs.
  destruct (valid_checksum (en_Checksum e)); cbn [negb].
  2: { eapply hoare_weaken; [by apply (spec_invalidated id e h)| |].
       - by intros w _ (Hm & Hkn & _).
       - intros a w _ [Hm [err ->]]. by split. }
  eapply hoare_bind; [eapply hoare_weaken; [apply (spec_acquireDownload limits me h (seen id e)); apply _| |done]|].
  { by intros w _ (Hm & Hkn & Ho). }
  intros slot. cbv beta. set (h1 := with_slots _ _ _ _ h). destruct slot; cbn [negb].
  2: { assert (h1 = h) as ->; [unfold h1; cbn [orb]; destruct h; cbn in *; by subst|]. apply Hfail. apply _. }
  eapply hoare_bind; [by apply (spec_open_object id e h1)|]. intros [content|err].
  - by apply spec_return; [apply _|].
  - eapply hoare_bind; [apply (spec_releaseDownload limits me h1); apply _|]. intros u.
    assert (with_slots (ho_admission h1) (ho_upload h1) (ho_lease h1) false h1 = h) as -> by (destruct h; cbn in *; by subst). apply Hfail. apply _.
Qed.

Lemma spec_Open id : spec (knows me nothing (since base)) (Open limits me id) (fun r => knows me (open_hold r nothing) (open_knows id r)).
Proof.
  assert (forall (err : error) F, Firm me (ho_locks nothing) F -> spec (knows me nothing F) (return_ (Err err))
    (fun r : result (CompileCacheEntry * gostring) => knows me (open_hold r nothing) (open_knows id r))) as Hfail.
  { intros err F HF. apply spec_return; [done|]. by intros w _ [Hm _]. }
  unfold Open. destruct (validate id) as [e|]; [by apply Hfail; apply _|]. set (k := cacheIdentity id).
  eapply hoare_bind; [apply (spec_lock limits me k nothing); [apply _|set_solver]|]. intros [[]|e]; [|by apply Hfail; apply _].
  eapply hoare_bind; [apply spec_open_locked; [set_solver|done|done]|]. intros r.
  assert (k ∉ ho_locks (open_hold r nothing)) as Hk by (destruct r; set_solver).
  eapply hoare_bind; [eapply hoare_weaken; [apply (spec_unlock_again limits me k (open_hold r nothing) (open_knows id r)); [apply firm_open_knows|done]| |done]|].
  { intros w _ Hkn. by destruct r. }
  intros u. apply spec_return; [apply firm_open_knows|done].
Qed.

(** ** Corrupt objects, deletions *)

Lemma spec_invalidateStreamedEntry id e h F :
  Firm me (ho_locks h) F -> cacheIdentity id ∉ ho_locks h -> ho_credit h = None ->
  spec (knows me h (fun w => seen id e w /\ F w)) (invalidateStreamedEntry me id e) (fun _ => knows me h F).
Proof.
  intros HF Hk Hc. unfold invalidateStreamedEntry. apply (hoare_pre_pure _ _ (0 < en_Size e)); [by intros w (_ & [[_ Hs] _] & _)|]. intros Hs.
  set (k := cacheIdentity id) in *. set (h1 := with_locks ({[k]} ∪ ho_locks h) h).
  assert (Firm me (ho_locks h1) F) as HF1 by (eapply firm_mono; [|exact HF]; set_solver).
  eapply hoare_bind; [apply (spec_lock limits me k h); [apply _|done]|]. intros [[]|err].
  2: { apply (spec_finish limits me _ _ h F); [done|by intros w (Hm & _ & Hf)|done]. }
  eapply hoare_bind; [eapply hoare_weaken; [apply (spec_delete_generation limits me id e h1 (ho_locks h) F); [done|set_solver|set_solver|done|done]| |done]|].
  { by intros w _ (Hm & [[Hkn _] _] & Hf). }
  intros deleted. eapply (hoare_bind _ _ _ _ _ (fun _ => knows me h1 F)).
  - destruct deleted as [[]|err].
    + eapply hoare_weaken; [apply (spec_releaseCapacity limits me (en_Namespace e) (en_Size e) 1 (owing (credited (en_Namespace e) (en_Size e) 1) h1) F); [done|done|lia|lia]| |].
      * by intros w _ (Hm & Hf & _).
      * intros u w _ Hkn. replace h1 with (owing None (owing (credited (en_Namespace e) (en_Size e) 1) h1)); [done|]. destruct h; cbn in *; by subst.
    + apply (spec_finish limits me _ _ h1 F); [done|by intros w (Hm & Hf & _)|done].
    + apply (spec_finish limits me _ _ h1 F); [done|by intros w (Hm & Hf & _)|done].
  - intros u. by apply spec_unlock_again.
Qed.

(** What a download that reached the end of its body was given. *)
Definition download_ok (id : ArtifactID) (r : result (gostring * option error)) (w : world) : Prop :=
  forall data, r = Ok (data, Some EOF) -> exists newer older content,
    w_log w = newer ++ ev_opened me id :: older /\ base `suffix_of` older /\ current_upload older id = Some content /\ checksum_of data = checksum_of content.

#[export] Instance firm_download_ok L id r : Firm me L (download_ok id r).
Proof.
  intros w w' Hd Ha data Hr. destruct (Hd data Hr) as (newer & older & c & Hl & Hc). destruct (ap_log _ _ _ _ Ha) as [more Hm].
  exists (more ++ newer), older, c. split; [|done]. by rewrite Hm, Hl, app_assoc.
Qed.

Lemma spec_download id reads sizes :
  spec (knows me nothing (since base)) (download limits me id reads sizes) (fun r => knows me nothing (download_ok id r)).
Proof.
  unfold download. eapply hoare_bind; [apply spec_Open|]. intros [[e content]|err].
  2: { apply spec_return; [apply firm_open_knows|]. by intros w _ [Hm _]. }
  cbn [open_hold open_knows]. set (h1 := with_slots _ _ _ _ nothing).
  pose proof (read_all_verified (reads content) (en_Checksum e) sizes) as Hv. destruct (read_all _ _) as [[data err] body].
  eapply (hoare_bind _ _ _ _ _ (fun _ => knows me h1 (opened me base id e))).
  - destruct (cb_reported body); [|apply spec_return; [apply _|]; by intros w _ (Hm & _ & Ho)].
    eapply hoare_weaken; [apply (spec_invalidateStreamedEntry id e h1 (opened me base id e)); [apply _|set_solver|done]| |done].
    intros w _ [Hm Hs]. by split; [|split; [|apply Hs]].
  - intros u. eapply hoare_bind; [apply (spec_releaseDownload limits me h1); apply _|]. intros u2. apply spec_return; [apply _|].
    intros w _ [Hm (newer & older & c & Hl & Hb & Hc & Hs)]. split; [done|]. intros d [= -> ->]. exists newer, older, c. split_and!; [done|done|done|].
    destruct (Hv eq_refl) as [_ Hsum]. congruence.
Qed.

End download.

(** ** Deletions *)

Lemma spec_delete_locked id h :
  cacheIdentity id ∈ ho_locks h -> ho_credit h = None -> spec (holds h) (delete_locked me id) (fun _ => holds h).
Proof.
  intros Hk Hc. unfold delete_locked. eapply hoare_bind; [apply spec_find_entry; [apply _|done]|]. intros [[e|]|err].
  2: { apply spec_stop. apply firm_and; [apply _|by apply firm_row]. }
  2: { apply spec_stop. apply _. }
  apply (hoare_pre_pure _ _ (0 < en_Size e /\ id_namespace id = en_Namespace e)).
  { intros w (_ & _ & [[_ (c & [Hid _ _ _ _] & _)] Hs]). by rewrite <- Hid. }
  intros [Hs Hns].
  eapply hoare_bind; [eapply hoare_weaken; [apply (spec_delete_entry limits me id e h ∅ (fun _ => True)); (apply _ || set_solver)| |done]|].
  { by intros w _ (Hm & _ & [[Hr _] _]). }
  intros [[]|err]; [|by apply spec_stop; apply _]. rewrite Hns.
  eapply hoare_bind; [apply (spec_releaseCapacity limits me (en_Namespace e) (en_Size e) 1); [apply _|done|lia|lia]|]. intros u.
  assert (owing None (owing (credited (en_Namespace e) (en_Size e) 1) h) = h) as -> by (destruct h; cbn in *; by subst).
  eapply hoare_bind; [eapply hoare_weaken; [apply (spec_processDeletionPaths limits me [en_StoragePath e] h (fun _ => True)); apply _| |done]|].
  { intros w _ (Hm & _ & Hd). split; [done|]. split; [done|]. constructor; [by apply Hd|constructor]. }
  intros u2. by apply spec_stop; apply _.
Qed.

Lemma spec_Delete id : spec (holds nothing) (Delete me id) (fun _ => holds nothing).
Proof.
  unfold Delete. destruct (validate id) as [e|]; [by apply spec_stop; apply _|]. set (k := cacheIdentity id).
  eapply hoare_bind; [apply (spec_lock limits me k nothing); [apply _|set_solver]|]. intros [[]|e]; [|by apply spec_stop; apply _].
  apply (spec_locked k (delete_locked me id) (fun _ _ => True) nothing nothing); [set_solver|done|apply _|]. apply spec_delete_locked; [set_solver|done].
Qed.

(** ** Touches *)

Abbreviation all_ok l := (Forall (fun t => touch_ok t.1 t.2) l).

Lemma spec_flush_touches touches failed errs h :
  all_ok touches -> all_ok failed -> ho_locks h = ∅ ->
  spec (holds h) (flush_touches me touches failed errs) (fun out => knows me h (fun _ => all_ok out.1)).
Proof.
  intros Ht Hf Hl. revert failed errs Hf. induction Ht as [|[identity touch] touches Hok _ IH]; intros failed errs Hf; cbn [flush_touches].
  { apply spec_return; [apply _|]. by intros w _ [Hm _]. }
  set (h1 := with_locks ({[identity]} ∪ ho_locks h) h).
  eapply hoare_bind; [apply (spec_lock limits me identity h); [apply _|by rewrite Hl; set_solver]|]. intros locked.
  eapply (hoare_bind _ _ _ _ _ (fun _ => holds h)).
  - destruct locked as [[]|e]; [|by apply spec_stop; apply _].
    eapply hoare_bind; [apply (spec_touch_entry limits me touch h1 ∅ (fun _ => True)); [apply _|set_solver|cbn; rewrite <- Hok; set_solver|set_solver]|].
    intros updated. eapply hoare_bind; [apply (spec_unlock_again limits me identity h); [apply _|by rewrite Hl; set_solver]|]. intros u. apply spec_stop. apply _.
  - intros [u|e]; apply IH; [done|]. apply Forall_app. by split; [|constructor].
Qed.

Lemma requeue_ok failed touches : all_ok failed -> map_Forall touch_ok touches -> map_Forall touch_ok (fold_left requeue failed touches).
Proof.
  intros Hf. revert touches. induction Hf as [|[identity touch] failed Hok _ IH]; intros touches Ht; [done|]. cbn [fold_left]. apply IH.
  unfold requeue. destruct (touches !! identity) as [current|] eqn:E; [|by apply map_Forall_insert_2].
  case_bool_decide; apply map_Forall_insert_2; try done. by apply (Ht _ _ E).
Qed.

Lemma spec_FlushTouches : spec (holds nothing) (FlushTouches me) (fun _ => holds nothing).
Proof.
  unfold FlushTouches.
  eapply hoare_bind; [eapply hoare_weaken; [apply (spec_step limits me ∅ (fun _ => True) (fun _ => True) nothing
    (fun w => (map_to_list (sv_touches (w_service w)), set_touches (sv_hits (w_service w)) ∅ w)) (fun _ => nothing) (fun touches _ => all_ok touches));
    try done; try apply _|by intros w _ [Hm _]|done]|].
  { intros w Hi Hm _. cbn [fst snd]. split; [by apply acts_touches|]. apply Forall_forall. intros [identity t] Hin%elem_of_map_to_list.
    apply (in_touches _ _ Hi _ _ Hin). }
  intros touches. apply (hoare_pre_pure _ _ (all_ok touches)); [by intros w (_ & _ & Ho)|]. intros Ho. apply spec_forget.
  eapply hoare_bind; [apply (spec_flush_touches touches [] [] nothing); [done|constructor|done]|]. intros [failed errs]. cbn [fst].
  apply (hoare_pre_pure _ _ (all_ok failed)); [by intros w (_ & Hok)|]. intros Hok. destruct failed as [|f failed]; [apply spec_stop; apply _|].
  apply spec_forget. eapply hoare_bind; [|intros a; apply (spec_stop limits me _ nothing (fun _ => True)); apply _].
  eapply hoare_weaken; [apply (spec_step limits me ∅ (fun _ => True) (fun _ => True) nothing _ (fun _ => nothing) (fun _ _ => True));
    try done; try apply _|by intros w _ [Hm _]|by intros a w _ [Hm _]].
  intros w Hi Hm _. split; [|done]. apply acts_touches; [done|done|]. by apply requeue_ok, (in_touches _ _ Hi).
Qed.

(** ** Probes *)

Lemma spec_probe_storage deadline h : spec (holds h) (probe_storage me deadline) (fun _ => holds (uploaded_hold h)).
Proof.
  unfold probe_storage. set (h1 := with_slots (ho_admission h) false (ho_lease h) (ho_download h) h).
  assert (forall (r : option error), spec (holds h) (_ <~ releaseTransfer me; _ <~ releaseStaging me; return_ r) (fun _ => holds (uploaded_hold h))) as Hgive.
  { intros r. eapply hoare_bind; [apply spec_releaseTransfer; apply _|]. intros u1. eapply hoare_bind; [apply (spec_releaseStaging limits me h1); apply _|].
    intros u2. apply spec_stop. apply _. }
  eapply hoare_bind; [apply spec_newProbeObjectPath; apply _|]. intros [path|e]; [|by apply spec_forget].
  apply (hoare_pre_pure _ _ (is_probe path = true)); [by intros w (_ & _ & Hp)|]. intros Hp. apply spec_forget.
  eapply hoare_bind; [apply spec_storage_Put_probe; [done|apply _]|]. intros [[]|e].
  - eapply hoare_bind; [apply spec_releaseTransfer; apply _|]. intros u1. eapply hoare_bind; [apply (spec_releaseStaging limits me h1); apply _|]. intros u2.
    change (with_slots _ _ _ _ h1) with (uploaded_hold h).
    eapply hoare_bind; [eapply hoare_weaken; [apply (spec_storage_Delete limits me path (uploaded_hold h) (fun _ => True)); apply _| |done]|].
    { intros w _ [Hm _]. split; [done|]. split; [done|by left]. }
    intros [[]|e]; [by apply spec_stop; apply _|]. apply spec_forget.
    eapply hoare_bind; [apply spec_queue_probe; [done|apply _]|]. intros queued. apply spec_stop. apply _.
  - eapply hoare_bind; [apply spec_context_error; apply _|]. intros err. apply Hgive.
Qed.

Lemma spec_CheckWritable : spec (holds nothing) (CheckWritable limits me) (fun _ => holds nothing).
Proof.
  unfold CheckWritable. eapply hoare_bind; [apply spec_now; apply _|]. intros time. apply spec_forget.
  eapply hoare_bind; [apply spec_admitUpload; apply _|]. intros admitted. destruct admitted; cbn [negb orb]; [|by apply spec_stop; apply _].
  set (h1 := with_slots _ _ _ _ nothing).
  eapply hoare_bind; [apply (spec_acquireUpload limits me 1 h1 (fun _ => True)); [apply _|done|done|lia]|]. intros acquired.
  eapply (hoare_bind _ _ _ _ _ (fun _ => holds h1)).
  - destruct acquired as [[]|e]; [|by apply spec_stop; apply _]. apply (spec_probe_storage _ (uploading (Some 1) h1)).
  - intros err. eapply hoare_bind; [apply (spec_releaseAdmission limits me h1); apply _|]. intros u. apply spec_stop. apply _.
Qed.

End goroutine.
