(* ===== verification/CompileRecovery.v ===== *)
(** * Theory of the start of the compiler cache (CompileRestart.v)

    A process that starts is alone: between its steps time passes and somebody else may
    change or remove objects, and it may die at any moment.  What it finds is what a
    process left that ran, or started, before. *)

From stdpp Require Import gmap sorting.
From S2P Require Export CompileRestart CompileTransfers.

(** ** Consistency *)

(** Nobody holds a lock, a slot, or what is not in the rows. *)
Definition idle (w : world) : Prop :=
  w_locks w = ∅ /\ w_credits w = ∅ /\ sv_uploadAdmission (w_service w) = ∅ /\ sv_uploadSlots (w_service w) = ∅
  /\ sv_inflight (w_service w) = ∅ /\ sv_downloadSlots (w_service w) = ∅.

Lemma idle_mine me w : idle w -> mine me nothing w.
Proof.
  intros (Hl & Hc & Ha & Hu & Hi & Hd). split; rewrite ?Hl, ?Hc, ?Ha, ?Hu, ?Hi, ?Hd; cbn; try done; try set_solver.
Qed.

Section consistency.
Context (limits : Limits).

Definition consistent (w : world) : Prop := inv limits w /\ idle w.

(** What a process that died leaves. *)
Definition crashed (w : world) : Prop := inv limits (restarted w).

Lemma rows_below w k scope : inv limits w -> tally (row_weight k scope) (w_rows w) <= view k scope (w_ledger w).
Proof.
  intros Hi. rewrite (in_balanced _ _ Hi k scope). assert (0 <= tally (credit_weight k scope) (w_credits w)); [|lia].
  apply tally_nonneg. intros i c Hc. destruct (in_credits _ _ Hi _ _ Hc). by apply weight_nonneg.
Qed.

Lemma empty_slots l :
  0 <= MaxConcurrentUploads limits + MaxQueuedUploads limits -> 0 <= MaxConcurrentUploads limits -> 0 <= MaxInflightUploadBytes limits ->
  0 <= MaxConcurrentDownloads limits -> slots_ok limits (fresh_service l).
Proof.
  intros. split; cbn [fresh_service sv_uploadAdmission sv_uploadSlots sv_inflight sv_downloadSlots]; rewrite ?size_empty; [done|done| | |done].
  - unfold inflight_bytes. by rewrite map_fold_empty.
  - apply map_Forall_empty.
Qed.

Lemma restarted_consistent w : inv limits w -> consistent (restarted w).
Proof.
  intros Hi. destruct (measured_balanced (w_rows w)) as [Hb Ht]. split; [|by split_and!]. split; try (by destruct Hi).
  - intros path Hf. destruct (in_fresh _ _ Hi path Hf) as (? & _ & ? & ?). by split_and!.
  - intros path d Hd. by destruct (in_queue _ _ Hi _ _ Hd).
  - intros k scope. change (view k scope (measured (w_rows w)) <= limit_of limits k scope). rewrite (Hb k scope), tally_empty.
    pose proof (rows_below w k scope Hi). pose proof (in_within _ _ Hi k scope). lia.
  - destruct (in_slots _ _ Hi) as [Ha Hu Hn Hl Hd]. apply empty_slots; [lia|lia| |lia].
    assert (0 <= inflight_bytes (sv_inflight (w_service w))) as Hz; [|lia]. by apply (tally_nonneg (fun n : Z => n)).
Qed.

Lemma inv_crashed w : inv limits w -> crashed w.
Proof. intros Hi. by apply restarted_consistent. Qed.

Lemma crashed_again w w' : crashed w -> restarted w' = restarted w -> crashed w'.
Proof. unfold crashed. by intros Hc ->. Qed.

(** ** Steps on what a process left *)

Lemma crashed_delete_object path w : crashed w -> ~ row_at w path -> crashed (set_objects (delete path (w_objects w)) w).
Proof. intros Hc Hr. exact (inv_delete_object limits path (restarted w) Hc Hr). Qed.

Lemma crashed_queue deletions next w :
  crashed w -> (forall path d, deletions !! path = Some d -> ~ row_at w path /\ ~ fresh w path) ->
  (forall path, is_Some (w_objects w !! path) -> is_probe path = true \/ row_at w path \/ is_Some (deletions !! path)) ->
  map_Forall (fun path d => cd_StoragePath d = path) deletions -> crashed (set_deletions deletions next w).
Proof.
  intros Hc Hq Ho Hn. change (inv limits (set_deletions deletions next (restarted w))). apply inv_queue; [done| |done|done].
  intros path d Hd. destruct (Hq path d Hd). split_and!; [done..|]. intros s Hs. change ((∅ : gmap gostring staging) !! path = Some s) in Hs.
  by rewrite lookup_empty in Hs.
Qed.

Lemma queued_path w path d : crashed w -> w_deletions w !! path = Some d -> ~ row_at w path /\ ~ fresh w path.
Proof.
  intros Hc Hd. destruct (in_queue _ _ Hc _ _ Hd) as [Hr _]. split; [done|]. intros Hf. destruct (in_fresh _ _ Hc path Hf) as (_ & _ & Hn & _).
  change (w_deletions w !! path = None) in Hn. congruence.
Qed.

Lemma crashed_remove_marker path next w : crashed w -> w_objects w !! path = None -> crashed (set_deletions (delete path (w_deletions w)) next w).
Proof.
  intros Hc Ho. apply crashed_queue; [done|..].
  - intros path' d [_ Hd]%lookup_delete_Some. by eapply queued_path.
  - intros path' Hp. destruct (decide (path' = path)) as [->|Hne]; [rewrite Ho in Hp; by destruct Hp|]. rewrite lookup_delete_ne by done.
    apply (in_objects _ _ Hc path' Hp).
  - apply map_Forall_delete. apply (in_named _ _ Hc).
Qed.

Lemma crashed_record_failure f path next w :
  crashed w -> (forall d, cd_StoragePath (f d) = cd_StoragePath d) -> crashed (set_deletions (alter f path (w_deletions w)) next w).
Proof.
  intros Hc Hf.
  assert (forall path' d, alter f path (w_deletions w) !! path' = Some d -> exists d0, w_deletions w !! path' = Some d0 /\ cd_StoragePath d = cd_StoragePath d0) as Hback.
  { intros path' d [(-> & d0 & Hd0 & ->)|(_ & Hd0)]%lookup_alter_Some; by eexists. }
  apply crashed_queue; [done|..].
  - intros path' d (d0 & Hd0 & _)%Hback. by eapply queued_path.
  - intros path' Hp. destruct (in_objects _ _ Hc path' Hp) as [_ [?|[?|Hd]]]; [by left|right; by left|right; right]. by apply lookup_alter_is_Some.
  - intros path' d (d0 & Hd0 & ->)%Hback. apply (in_named _ _ Hc _ _ Hd0).
Qed.

Lemma restarted_enqueue path time w : restarted (enqueueDeferredDeletion path time w) = enqueueDeferredDeletion path time (restarted w).
Proof. unfold enqueueDeferredDeletion. case_bool_decide; [done|]. change (w_deletions (restarted w)) with (w_deletions w). by destruct (_ !! path). Qed.

Lemma crashed_enqueue path time w : crashed w -> ~ row_at w path -> is_Some (w_uploaded w !! path) -> crashed (enqueueDeferredDeletion path time w).
Proof.
  intros Hc Hr Hu. unfold crashed. rewrite restarted_enqueue. apply inv_enqueue; [done|done| |].
  - intros Hf. destruct (in_fresh _ _ Hc path Hf) as (_ & _ & _ & Hn). change (w_uploaded w !! path = None) in Hn. rewrite Hn in Hu. by destruct Hu.
  - intros s Hs. change ((∅ : gmap gostring staging) !! path = Some s) in Hs. by rewrite lookup_empty in Hs.
Qed.

(** An entry goes, and its object is queued for deletion, or there is none. *)
Lemma crashed_drop me id e w : crashed w -> w_rows w !! id = Some e -> crashed (enqueueDeletion (en_StoragePath e) (dropped me id e w)).
Proof.
  intros Hc He. destruct (enqueue_dropped limits me id e (restarted w) Hc He) as (deletions & next & Heq & Hd & Hdo & _ & Hnm).
  assert (inv limits (enqueueDeletion (en_StoragePath e) (dropped me id e (restarted w)))) as Hi.
  { rewrite Heq. apply inv_dropped_with; try done. by left. }
  apply restarted_consistent in Hi as [Hi _]. eapply crashed_again; [exact (inv_crashed _ Hi)|].
  unfold enqueueDeletion. by rewrite !restarted_enqueue.
Qed.

Lemma crashed_drop_missing me id e w :
  crashed w -> w_rows w !! id = Some e -> w_objects w !! en_StoragePath e = None -> crashed (dropped me id e w).
Proof.
  intros Hc He Ho.
  assert (inv limits (set_deletions (w_deletions w) (db_next_deletion (w_db w)) (dropped me id e (restarted w)))) as Hi.
  { apply inv_dropped_with; try done; [by right|]. apply (in_named _ _ Hc). }
  apply inv_crashed in Hi. eapply crashed_again; [exact Hi|]. by destruct w as [[] ? ? ?].
Qed.

End consistency.

(** ** A process that is alone *)

(** Time passes, and somebody else changes or removes objects. *)
Record disturbed (w w' : world) : Prop := {
  di_db : w_db w' = w_db w;
  di_service : w_service w' = w_service w;
  di_history : w_history w' = w_history w;
  di_now : w_now w <= w_now w';
  di_objects path : is_Some (w_objects w' !! path) -> is_Some (w_objects w !! path);
  di_tampered : ou_tampered (w_outside w') = false -> ou_tampered (w_outside w) = false;
}.

Lemma disturbed_refl w : disturbed w w.
Proof. by split. Qed.

Lemma disturbed_trans w w' w'' : disturbed w w' -> disturbed w' w'' -> disturbed w w''.
Proof. intros [D S H N O T] [D' S' H' N' O' T']. split; [congruence..|lia|by auto|by auto]. Qed.

Definition start_rely (i : nat) (w w' : world) : Prop := match i with O => disturbed w w' | S _ => True end.

Lemma start_rely_refl i w : start_rely i w w.
Proof. destruct i; [apply disturbed_refl|done]. Qed.

Lemma start_rely_trans i w w' w'' : start_rely i w w' -> start_rely i w' w'' -> start_rely i w w''.
Proof. destruct i; [apply disturbed_trans|done]. Qed.

Definition start_protocol (limits : Limits) : protocol world :=
  {| bounded := fun _ => True; invariant := crashed limits; rely := start_rely; rely_refl := start_rely_refl; rely_trans := start_rely_trans |}.

(** What disturbances keep. *)
Class Still (P : world -> Prop) : Prop := still w w' : P w -> disturbed w w' -> P w'.

#[export] Instance still_pure (P : Prop) : Still (fun _ => P).
Proof. by intros w w'. Qed.
#[export] Instance still_and P Q : Still P -> Still Q -> Still (fun w => P w /\ Q w).
Proof. intros HP HQ w w' [Hp Hq] Hd. split; [by eapply HP|by eapply HQ]. Qed.
#[export] Instance still_ex {A} (P : A -> world -> Prop) : (forall a, Still (P a)) -> Still (fun w => exists a, P a w).
Proof. intros HP w w' [a Hp] Hd. exists a. by eapply HP. Qed.
#[export] Instance still_impl (P : Prop) Q : Still Q -> Still (fun w => P -> Q w).
Proof. intros HQ w w' Hq Hd Hp. eapply HQ; [by apply Hq|done]. Qed.
#[export] Instance still_absent path : Still (fun w => w_objects w !! path = None).
Proof. intros w w' Hn Hd. apply eq_None_not_Some. intros Hs%(di_objects _ _ Hd). rewrite Hn in Hs. by destruct Hs. Qed.
#[export] Instance still_uploaded path : Still (fun w => is_Some (w_uploaded w !! path)).
Proof. intros w w' Hu Hd. unfold w_uploaded. by rewrite (di_history _ _ Hd). Qed.

Definition no_row (rows : gmap ArtifactID CompileCacheEntry) (path : gostring) : Prop :=
  forall id e, rows !! id = Some e -> en_StoragePath e <> path.

Lemma no_row_at w path : no_row (w_rows w) path -> ~ row_at w path.
Proof. intros Hn (id & e & He & Hp). by eapply Hn. Qed.

Definition alone (locks : gmap gostring nat) (l : ledger) : service :=
  {| sv_locks := locks; sv_ledger := l; sv_hits := 0; sv_touches := ∅; sv_uploadAdmission := ∅; sv_uploadSlots := ∅; sv_inflight := ∅; sv_downloadSlots := ∅ |}.

Section start.
Context (limits : Limits) (t0 : Z) (up : gmap gostring gostring).

(** Where a start is: its locks, the ledger, its credit, the rows, which objects may be there
    without being queued for deletion, and what is true unless objects were changed. *)
Record stage (locks : gmap gostring nat) (l : ledger) (credits : gmap nat credit) (rows : gmap ArtifactID CompileCacheEntry)
    (todo : gostring -> Prop) (intact : Prop) (w : world) : Prop := {
  st_service : w_service w = alone locks l;
  st_staged : w_staged w = ∅;
  st_credits : w_credits w = credits;
  st_rows : w_rows w = rows;
  st_objects path : is_Some (w_objects w !! path) -> todo path \/ is_Some (w_deletions w !! path);
  st_intact : ou_tampered (w_outside w) = false -> intact;
  st_time : t0 <= w_now w;
  st_uploaded : w_uploaded w = up;
}.

#[export] Instance still_stage locks l credits rows todo intact : Still (stage locks l credits rows todo intact).
Proof.
  intros w w' [S G C R P I T E] [Hd Hs Hh Hn Ho Ht]. unfold w_staged, w_credits, w_rows, w_deletions, w_uploaded in *.
  split; unfold w_staged, w_credits, w_rows, w_deletions, w_uploaded; rewrite ?Hd, ?Hs, ?Hh; [done..| |by auto|lia|done]. intros path Hp. by apply P, Ho.
Qed.

Abbreviation start P m Q := (hoare (start_protocol limits) 0 P m Q).

Lemma still_steady P : Still P -> steady (start_protocol limits) 0 P.
Proof. intros HP w w' Hp Hd _. by eapply HP. Qed.

Lemma start_good w w' : crashed limits w' -> good (start_protocol limits) 0 w w'.
Proof. intros Hc. split; [done|]. by intros [|j] Hj. Qed.

Lemma start_return {A} (a : A) P (Q : A -> world -> Prop) : Still P -> (forall w, crashed limits w -> P w -> Q a w) -> start P (return_ a) Q.
Proof. intros HP HQ. apply hoare_return; [by apply still_steady|done]. Qed.

Lemma start_step {A} (f : world -> A * world) P Q :
  Still P -> (forall a, Still (Q a)) -> (forall w, crashed limits w -> P w -> crashed limits (f w).2 /\ Q (f w).1 (f w).2) ->
  start P (atomically f) Q.
Proof.
  intros HP HQ Hf. apply hoare_step; [by apply still_steady|intros a; by apply still_steady|]. intros w Hc Hp _.
  destruct (Hf w Hc Hp). split; [by apply start_good|done].
Qed.

(** One that only reads. *)
Lemma start_look {A} (f : world -> A) P Q :
  Still P -> (forall a, Still (Q a)) -> (forall w, crashed limits w -> P w -> Q (f w) w) -> start P (atomically (fun w => (f w, w))) Q.
Proof. intros HP HQ Hf. apply start_step; [done..|]. intros w Hc Hp. split; [done|by apply Hf]. Qed.

Lemma start_request {A} ready effectful (f : world -> A * world) P (Q : result A -> world -> Prop) :
  Still P -> (forall a, Still (Q a)) ->
  (forall w, crashed limits w -> P w -> ready w = true -> crashed limits (f w).2 /\ Q (Ok (f w).1) (f w).2 /\ (effectful = true -> forall e, Q (Err e) (f w).2)) ->
  (forall w e, crashed limits w -> P w -> Q (Err e) w) -> start P (request ready effectful f return_) Q.
Proof.
  intros HP HQ Hok He. apply hoare_request; [by apply still_steady|intros a; by apply still_steady| |done]. intros w Hc [Hp Hr] _.
  destruct (Hok w Hc Hp Hr) as (Hc' & Hq & Hqe). split; [by apply start_good|done].
Qed.

Lemma start_query {A} (f : world -> A) P (Q : result A -> world -> Prop) :
  Still P -> (forall a, Still (Q a)) -> (forall w, crashed limits w -> P w -> Q (Ok (f w)) w) ->
  (forall w e, crashed limits w -> P w -> Q (Err e) w) -> start P (query f) Q.
Proof. intros HP HQ Hok He. apply start_request; [done..| |done]. intros w Hc Hp _. split_and!; [done|by apply Hok|]. intros _ e. by apply He. Qed.

Lemma start_bind {A B} (m : program world A) (k : A -> program world B) P R Q :
  start P m R -> (forall a, start (R a) (k a) Q) -> start P (bind m k) Q.
Proof. apply hoare_bind. Qed.

(** *** The queue of deletions *)

Section queue.
Context (locks : gmap gostring nat) (l : ledger) (credits : gmap nat credit) (rows : gmap ArtifactID CompileCacheEntry) (todo : gostring -> Prop) (intact : Prop).

Abbreviation here := (stage locks l credits rows todo intact).

Lemma start_storage_Delete path :
  no_row rows path -> start here (storage_Delete path) (fun deleted w => here w /\ (deleted = Ok () -> w_objects w !! path = None)).
Proof.
  intros Hn. assert (forall w, here w -> here (set_objects (delete path (w_objects w)) w)) as Hs.
  { intros w [S G C R P I T E]. split; try done. intros path' Ho. change (is_Some (delete path (w_objects w) !! path')) in Ho.
    apply lookup_delete_is_Some in Ho as [_ Ho]. by apply P. }
  apply start_request; [apply _|apply _| |by intros w e _ Hw].
  intros w Hc Hw _. cbn [fst snd]. split_and!; [|by apply Hs|intros _; apply lookup_delete_eq|by intros _ e; split; [apply Hs|]].
  apply crashed_delete_object; [done|]. apply no_row_at. by rewrite (st_rows _ _ _ _ _ _ _ Hw).
Qed.

Lemma start_remove_marker path : start (fun w => here w /\ w_objects w !! path = None) (remove_marker path) (fun _ => here).
Proof.
  apply start_request; [apply _|apply _| |by intros w e _ [Hw _]].
  intros w Hc [Hw Ho] _. cbn [fst snd]. set (w' := set_deletions _ _ w). assert (here w') as Hw'.
  { destruct Hw as [S G C R P I T E]. split; try done. intros path' Hp.
    destruct (P path' Hp) as [?|Hd]; [by left|right]. change (is_Some (delete path (w_deletions w) !! path')).
    rewrite lookup_delete_ne; [done|]. intros ->. change (is_Some (w_objects w !! path')) in Hp. rewrite Ho in Hp. by destruct Hp. }
  split_and!; [by apply crashed_remove_marker|done|done].
Qed.

Lemma start_record_failure path e : start here (record_failure path e) (fun _ => here).
Proof.
  apply start_request; [apply _|apply _| |by intros w e' _ Hw].
  intros w Hc Hw _. cbn [fst snd]. set (f := fun d : CompileCacheDeletion => _). set (w' := set_deletions _ _ w). assert (here w') as Hw'.
  { destruct Hw as [S G C R P I T E]. split; try done. intros path' Hp.
    destruct (P path' Hp) as [?|Hd]; [by left|right]. by apply lookup_alter_is_Some. }
  split_and!; [by apply crashed_record_failure|done|done].
Qed.

Lemma start_processDeletionPath path : no_row rows path -> start here (processDeletionPath path) (fun _ => here).
Proof.
  intros Hn. unfold processDeletionPath. case_bool_decide; [by apply start_return; [apply _|]|].
  eapply start_bind; [by apply start_storage_Delete|]. intros [[]|e].
  - eapply (start_bind _ _ _ (fun _ => here)); [|intros a; by apply start_return; [apply _|]].
    eapply hoare_weaken; [apply (start_remove_marker path)| |done]. intros w _ [Hw Ho]. split; [done|by apply Ho].
  - eapply (start_bind _ _ _ (fun _ => here)); [|intros a; by apply start_return; [apply _|]].
    eapply hoare_weaken; [apply (start_record_failure path e)|by intros w _ [Hw _]|done].
Qed.

Lemma start_processDeletionPaths paths : Forall (no_row rows) paths -> start here (processDeletionPaths paths) (fun _ => here).
Proof.
  induction 1 as [|path paths Hp _ IH]; cbn [processDeletionPaths]; [by apply start_return; [apply _|]|].
  eapply start_bind; [by apply start_processDeletionPath|]. by intros u.
Qed.

Lemma start_now : start here now (fun time w => here w /\ t0 <= time).
Proof. apply start_look; [apply _|apply _|]. intros w _ Hw. split; [done|apply Hw]. Qed.

Lemma start_ctx_err : start here ctx_err (fun _ => here).
Proof. apply hoare_ctx_err; [apply still_steady; apply _|done]. Qed.

Lemma start_process_pending pending : Forall (fun d => no_row rows (cd_StoragePath d)) pending -> start here (process_pending pending) (fun _ => here).
Proof.
  induction 1 as [|d pending Hp _ IH]; cbn [process_pending]; [by apply start_return; [apply _|]|].
  eapply start_bind; [apply start_ctx_err|]. intros [e|]; [by apply start_return; [apply _|]|].
  eapply start_bind; [by apply start_processDeletionPath|]. by intros u.
Qed.

Lemma due_unused time limit w : crashed limits w -> Forall (fun d => no_row (w_rows w) (cd_StoragePath d)) (due_deletions time limit w).
Proof.
  intros Hc. apply Forall_forall. intros d Hd. unfold due_deletions in Hd. apply elem_of_take in Hd as (k & Hd & _).
  apply list_elem_of_lookup_2 in Hd. rewrite merge_sort_Permutation in Hd. apply list_elem_of_fmap in Hd as ([path d'] & -> & Hd).
  apply elem_of_map_to_list, map_lookup_filter_Some in Hd as [Hd _]. cbn. rewrite (in_named _ _ Hc _ _ Hd). intros id e He Hp.
  destruct (queued_path _ _ _ _ Hc Hd) as [Hr _]. apply Hr. by exists id, e.
Qed.

Lemma start_ProcessPendingDeletions limit : start here (ProcessPendingDeletions limit) (fun _ => here).
Proof.
  unfold ProcessPendingDeletions. eapply start_bind; [apply start_now|]. intros time.
  eapply start_bind; [apply (start_query _ _ (fun pending w => here w /\ match pending with Ok pending => Forall (fun d => no_row rows (cd_StoragePath d)) pending | Err _ => True end))|].
  - apply _.
  - intros [pending|e]; apply _.
  - intros w Hc [Hw _]. split; [done|]. rewrite <- (st_rows _ _ _ _ _ _ _ Hw). by apply due_unused.
  - by intros w e _ [Hw _].
  - intros [pending|e]; [|by apply start_return; [apply _|intros w _ [Hw _]]].
    apply (hoare_pre_pure _ _ (Forall (fun d => no_row rows (cd_StoragePath d)) pending)); [by intros w [_ Hp]|]. intros Hp.
    eapply hoare_weaken; [by apply start_process_pending|by intros w _ [Hw _]|done].
Qed.

End queue.

(** *** Entries that go *)

Section rows.
Context (locks : gmap gostring nat) (l : ledger) (credits : gmap nat credit) (rows : gmap ArtifactID CompileCacheEntry).

Lemma stage_mono (todo todo' : gostring -> Prop) (intact intact' : Prop) w :
  (forall path, todo path -> todo' path) -> (intact -> intact') ->
  stage locks l credits rows todo intact w -> stage locks l credits rows todo' intact' w.
Proof. intros Ht Hi [S G C R P I T E]. split; auto. intros path Hp. destruct (P path Hp); auto. Qed.

Lemma one_id w id e id' e' : crashed limits w -> w_rows w !! id = Some e -> w_rows w !! id' = Some e' -> (en_ID e' =? en_ID e) = true -> id' = id.
Proof.
  intros Hc He He' Hp%Z.eqb_eq. pose proof (id_of_row _ (restarted w) _ _ _ Hc He eq_refl). pose proof (id_of_row _ (restarted w) _ _ _ Hc He' Hp). congruence.
Qed.

Lemma start_delete_entry todo intact id e :
  rows !! id = Some e ->
  start (stage locks l credits rows todo intact) (delete_entry 0 e)
    (fun deleted => match deleted with
       | Ok _ => stage locks l (settle_credit 0 (en_Namespace e) (en_Size e) 1 credits) (delete id rows) (fun path => todo path /\ path <> en_StoragePath e) intact
       | Err _ => stage locks l credits rows todo intact
       end).
Proof.
  intros He. apply start_request; [apply _|intros [u|err]; apply _| |by intros w err _ Hw].
  intros w Hc Hw _. rewrite <- (st_rows _ _ _ _ _ _ _ Hw) in He. pose proof (row_identity _ (restarted w) _ _ Hc He) as Hid. cbn [fst snd].
  rewrite (drop_enqueue 0 _ id); [|done|done|by apply Z.eqb_refl|intros id' e' He'; by eapply one_id]. cbn [snd].
  split_and!; [by eapply crashed_drop| |done].
  assert (exists deletions next, enqueueDeletion (en_StoragePath e) (dropped 0 id e w) = set_deletions deletions next (dropped 0 id e w)
    /\ is_Some (deletions !! en_StoragePath e) /\ forall path, is_Some (w_deletions w !! path) -> is_Some (deletions !! path)) as (dl & n & -> & Hdl & Hdk).
  { destruct (enqueue_same (en_StoragePath e) (w_now w) (dropped 0 id e w)) as (dl & n & Heq').
    exists dl, n. split; [exact Heq'|].
    assert (en_StoragePath e <> []) as Hp by (eapply object_path_nonempty, (in_rows _ _ Hc _ _ He)).
    pose proof (enqueue_lookup (en_StoragePath e) (w_now w) (dropped 0 id e w)) as Hl. rewrite Heq' in Hl.
    change (w_deletions (set_deletions dl n (dropped 0 id e w))) with dl in Hl. split; [rewrite Hl by done; by rewrite decide_True|].
    intros path [d Hq]. rewrite Hl by done. case_decide; [by eexists|by exists d]. }
  destruct Hw as [S G C R P I T E]. split; try done.
  - change (settle_credit 0 (en_Namespace e) (en_Size e) 1 (w_credits w) = settle_credit 0 (en_Namespace e) (en_Size e) 1 credits). by rewrite C.
  - change (delete id (w_rows w) = delete id rows). by rewrite R.
  - intros path Hp. destruct (decide (path = en_StoragePath e)) as [->|Hne]; [by right|].
    destruct (P path Hp) as [?|?]; [left; by split|right; by apply Hdk].
Qed.

(** A row whose object is not there. *)
Lemma start_delete_row todo intact id e :
  rows !! id = Some e -> ~ todo (en_StoragePath e) ->
  start (stage locks l credits rows todo intact) (delete_row 0 e)
    (fun deleted => match deleted with
       | Ok _ => stage locks l (settle_credit 0 (en_Namespace e) (en_Size e) 1 credits) (delete id rows) todo intact
       | Err _ => stage locks l credits rows todo intact
       end).
Proof.
  intros He Hm. apply start_request; [apply _|intros [u|err]; apply _| |by intros w err _ Hw].
  intros w Hc Hw _. rewrite <- (st_rows _ _ _ _ _ _ _ Hw) in He. pose proof (row_identity _ (restarted w) _ _ Hc He) as Hid. cbn [fst snd].
  rewrite (drop_found 0 _ id); [|done|done|by apply Z.eqb_refl|intros id' e' He'; by eapply one_id]. cbn [snd].
  assert (w_objects w !! en_StoragePath e = None) as Ho.
  { apply eq_None_not_Some. intros Ho. destruct (st_objects _ _ _ _ _ _ _ Hw _ Ho) as [?|[d Hd]]; [done|].
    destruct (queued_path _ _ _ _ Hc Hd) as [Hr _]. apply Hr. by exists id, e. }
  split_and!; [by eapply crashed_drop_missing| |done]. destruct Hw as [S G C R P I T E]. split; try done.
  - change (settle_credit 0 (en_Namespace e) (en_Size e) 1 (w_credits w) = settle_credit 0 (en_Namespace e) (en_Size e) 1 credits). by rewrite C.
  - change (delete id (w_rows w) = delete id rows). by rewrite R.
Qed.

End rows.
End start.

(** ** The repair of the table *)

Lemma entry_nonneg limits w : inv limits w -> forall k scope, 0 <= tally (row_weight k scope) (w_rows w).
Proof.
  intros Hi k scope. apply tally_nonneg. intros id e He. apply weight_nonneg; [|lia].
  pose proof (entry_size _ _ _ (in_rows _ _ Hi _ _ He)). lia.
Qed.

(** The ledger of an entry more. *)
Lemma view_retained k scope e r :
  view k scope (rebuilt_ledger (retained e r)) = view k scope (rebuilt_ledger r) + row_weight k scope e.
Proof.
  unfold row_weight, weight. destruct scope as [n|]; cbn [in_scope view]; [|by destruct k].
  unfold usage_of, rebuilt_ledger, retained. cbn [lg_namespaceUsage re_rebuilt]. destruct (str_eqb (en_Namespace e) n) eqn:E.
  - apply str_eqb_eq in E as ->. rewrite lookup_insert_eq. by destruct k.
  - apply str_eqb_neq in E. rewrite lookup_insert_ne by done. destruct k; lia.
Qed.

Lemma retained_tidy e r :
  0 <= view Entries (Some (en_Namespace e)) (rebuilt_ledger r) -> tidy_ledger (rebuilt_ledger r) -> tidy_ledger (rebuilt_ledger (retained e r)).
Proof.
  intros Hn [_ Hz]. split; [done|]. cbn [rebuilt_ledger retained lg_namespaceUsage re_rebuilt] in *. apply map_Forall_insert_2; [|done].
  unfold view, usage_of in Hn. cbn [rebuilt_ledger lg_namespaceUsage] in Hn. unfold zero_usage. cbn [ru_Bytes ru_Entries].
  apply andb_false_iff. right. apply Z.eqb_neq. lia.
Qed.

(** The row is of a valid artifact, and its path one of the artifact's. *)
Lemma entry_valid w id e : entry_ok w id e -> valid_row e = true.
Proof.
  intros (Hv & _ & c & [Hid _ _ _ _ [g Hp]] & _). unfold valid_row. unfold validate in Hv. rewrite <- Hid in Hv. unfold identity_of in Hv.
  cbn [id_protocol id_namespace id_key] in Hv.
  destruct (NewArtifactID (en_Protocol e) (en_Namespace e) (en_Key e)) as [id'|err]; [|done]. case_bool_decide as Hid'; [|done].
  unfold objectPathMatchesArtifact. apply orb_true_iff. left. apply has_prefix_app. exists (hex_encode g). rewrite Hp. unfold object_path.
  by rewrite <- Hid, Hid'.
Qed.

(** What the rows of a table have. *)
Record proper_rows (R : gmap ArtifactID CompileCacheEntry) : Prop := {
  pr_identity : map_Forall (fun id e => identity_of e = id) R;
  pr_path id id' e e' : R !! id = Some e -> R !! id' = Some e' -> en_StoragePath e = en_StoragePath e' -> id = id';
  pr_id id id' e e' : R !! id = Some e -> R !! id' = Some e' -> en_ID e = en_ID e' -> id = id';
  pr_entry : map_Forall (fun _ e => 0 < en_Size e /\ 0 < en_ID e /\ valid_row e = true) R;
}.

Lemma rows_proper limits w : crashed limits w -> proper_rows (w_rows w).
Proof.
  intros Hc. split.
  - intros id e He. exact (row_identity _ (restarted w) _ _ Hc He).
  - intros id id' e e'. apply (in_distinct _ _ Hc).
  - intros id id' e e' He He' Heq. pose proof (id_of_row _ (restarted w) _ _ _ Hc He eq_refl) as H1.
    pose proof (id_of_row _ (restarted w) _ _ _ Hc He' (eq_sym Heq)) as H2. congruence.
  - intros id e He. pose proof (in_rows _ _ Hc _ _ He) as Hok. split; [by eapply entry_size|]. split; [|by eapply entry_valid].
    destruct Hok as (_ & _ & c & [_ Hid _ _ _ _] & _). by destruct (proj2 (in_ids _ _ Hc) _ _ Hid).
Qed.

Lemma proper_less R R' : R' ⊆ R -> proper_rows R -> proper_rows R'.
Proof.
  intros Hs [I P N E]. split.
  - intros id e He. apply I. by eapply lookup_weaken.
  - intros id id' e e' He He'. by apply P; eapply lookup_weaken.
  - intros id id' e e' He He'. by apply N; eapply lookup_weaken.
  - intros id e He. eapply E. by eapply lookup_weaken.
Qed.

#[export] Hint Extern 1 (Still _) => refine (still_stage _ _ _ _ _ _ _ _) : typeclass_instances.

Section repair.
Context (limits : Limits) (t0 : Z) (up : gmap gostring gostring) (modified : gostring -> Z) (rows0 : gmap ArtifactID CompileCacheEntry).

Abbreviation start P m Q := (hoare (start_protocol limits) 0 P m Q).
Abbreviation staged_at l c R todo intact := (stage t0 up ∅ l c R todo intact).

(** The rows up to the cursor that stay, those of the page that are ahead, and those beyond. *)
Record progress (cursor : Z) (ahead : list CompileCacheEntry) (R kept : gmap ArtifactID CompileCacheEntry) (r : reconciliation) : Prop := {
  pg_proper : proper_rows R;
  pg_kept : kept ⊆ R;
  pg_rest id e : R !! id = Some e -> kept !! id = Some e \/ e ∈ ahead \/ (cursor < en_ID e /\ Forall (fun a => en_ID a < en_ID e) ahead);
  pg_ahead : Forall (fun e => R !! identity_of e = Some e) ahead;
  pg_sorted : StronglySorted (fun e e' => en_ID e < en_ID e') ahead;
  pg_beyond : Forall (fun e => cursor < en_ID e) ahead;
  pg_behind : map_Forall (fun _ e => en_ID e <= cursor) kept;
  pg_balanced : balanced (rebuilt_ledger r) kept ∅ /\ tidy_ledger (rebuilt_ledger r);
  pg_queued : Forall (no_row R) (re_queued r);
  pg_objects path object : re_objects r !! path = Some object ->
    no_row kept path /\ is_Some (up !! path) /\ om_Key object = path /\ om_LastModified object = modified path;
}.

(** The objects that are of no row yet, or of one that stays. *)
Definition found (kept : gmap ArtifactID CompileCacheEntry) (r : reconciliation) (path : gostring) : Prop :=
  is_Some (re_objects r !! path) \/ exists id e, kept !! id = Some e /\ en_StoragePath e = path.

(** When nobody changes objects, no row goes. *)
Definition untouched (R kept : gmap ArtifactID CompileCacheEntry) (r : reconciliation) : Prop :=
  R = rows0 /\ forall id e, R !! id = Some e -> kept !! id = Some e \/ exists object, re_objects r !! en_StoragePath e = Some object /\ om_Size object = en_Size e.

Definition repairing (R kept : gmap ArtifactID CompileCacheEntry) (r : reconciliation) (w : world) : Prop :=
  exists l c, staged_at l c R (found kept r) (untouched R kept r) w /\ delete 0%nat c = ∅.

#[export] Instance still_repairing R kept r : Still (repairing R kept r).
Proof. unfold repairing. apply _. Qed.

Lemma no_row_less R R' path : R' ⊆ R -> no_row R path -> no_row R' path.
Proof. intros Hs Hn id e He. eapply Hn. by eapply lookup_weaken. Qed.

Lemma head_new cursor e ahead R kept r : progress cursor (e :: ahead) R kept r -> R !! identity_of e = Some e /\ kept !! identity_of e = None.
Proof.
  intros Hp. pose proof (pg_ahead _ _ _ _ _ Hp) as [Ae _]%Forall_cons. split; [done|]. apply eq_None_not_Some. intros [x Hx].
  pose proof (pg_beyond _ _ _ _ _ Hp) as [B _]%Forall_cons. pose proof (pg_behind _ _ _ _ _ Hp _ _ Hx) as Hb. cbv beta in *.
  pose proof (lookup_weaken _ _ _ _ Hx (pg_kept _ _ _ _ _ Hp)). assert (x = e) as -> by congruence. lia.
Qed.

Lemma ahead_other cursor e ahead R kept r x : progress cursor (e :: ahead) R kept r -> x ∈ ahead -> identity_of x <> identity_of e /\ en_ID e < en_ID x.
Proof.
  intros Hp Hx. pose proof (pg_ahead _ _ _ _ _ Hp) as [Ae A]%Forall_cons. pose proof (pg_sorted _ _ _ _ _ Hp) as [_ Sh]%StronglySorted_inv.
  pose proof (proj1 (Forall_forall _ _) A _ Hx) as Ax. pose proof (proj1 (Forall_forall _ _) Sh _ Hx) as Hlt. cbv beta in *.
  split; [|done]. intros Heq. rewrite Heq, Ae in Ax. injection Ax as <-. lia.
Qed.

(** The head of the page goes. *)
Lemma progress_gone cursor e ahead R kept r r' :
  progress cursor (e :: ahead) R kept r -> rebuilt_ledger r' = rebuilt_ledger r ->
  (forall path object, re_objects r' !! path = Some object -> re_objects r !! path = Some object) ->
  Forall (no_row (delete (identity_of e) R)) (re_queued r') ->
  progress (en_ID e) ahead (delete (identity_of e) R) kept r'.
Proof.
  intros Hp Hl Ho Hq. destruct (head_new _ _ _ _ _ _ Hp) as [Ae Hn]. pose proof (fun x => ahead_other _ _ _ _ _ _ x Hp) as Hother.
  destruct Hp as [Pr K S [_ A]%Forall_cons [So _]%StronglySorted_inv [B _]%Forall_cons Bh Bal Q O]. split; try done.
  - eapply proper_less; [|exact Pr]. apply delete_subseteq.
  - apply map_subseteq_spec. intros id x Hx. rewrite lookup_delete_ne; [by eapply lookup_weaken|]. intros <-. congruence.
  - intros id x [Hne Hx]%lookup_delete_Some. destruct (S id x Hx) as [?|[Hin|[Hc Hf]]]; [by left|right|right; right].
    + apply elem_of_cons in Hin as [->|Hin]; [|by left]. destruct Hne. by apply (pr_identity _ Pr).
    + by apply Forall_cons in Hf.
  - apply Forall_forall. intros x Hx. rewrite lookup_delete_ne; [by apply (proj1 (Forall_forall _ _) A)|]. intros Heq. by apply (Hother x Hx).
  - apply Forall_forall. intros x Hx. by apply Hother.
  - intros id x Hx. specialize (Bh _ _ Hx). cbv beta in *. lia.
  - by rewrite Hl.
  - intros path object Hp%Ho. by apply O.
Qed.

(** It stays. *)
Lemma progress_stays cursor e ahead R kept r :
  progress cursor (e :: ahead) R kept r -> progress (en_ID e) ahead R (<[identity_of e := e]> kept) (retained e r).
Proof.
  intros Hp. destruct (head_new _ _ _ _ _ _ Hp) as [Ae Hn]. pose proof (fun x => ahead_other _ _ _ _ _ _ x Hp) as Hother.
  destruct Hp as [Pr K S [_ A]%Forall_cons [So _]%StronglySorted_inv [B _]%Forall_cons Bh [Bal Ti] Q O].
  assert (forall k scope, view k scope (rebuilt_ledger r) = tally (row_weight k scope) kept) as Hview.
  { intros k scope. by rewrite (Bal k scope), tally_empty, Z.add_0_r. }
  split; try done.
  - by apply insert_subseteq_l.
  - intros id x Hx. destruct (S id x Hx) as [Hk|[Hin|[Hc Hf]]].
    + left. rewrite lookup_insert_ne; [done|]. intros <-. congruence.
    + apply elem_of_cons in Hin as [->|Hin]; [left|by right; left]. assert (identity_of e = id) as -> by by apply (pr_identity _ Pr). apply lookup_insert_eq.
    + right. right. by apply Forall_cons in Hf.
  - apply Forall_forall. intros x Hx. by apply Hother.
  - apply map_Forall_insert_2; [cbv beta; lia|]. intros id x Hx. specialize (Bh _ _ Hx). cbv beta in *. lia.
  - split.
    + intros k scope. rewrite view_retained, Hview, tally_fresh, tally_empty by done. lia.
    + apply retained_tidy; [|done]. rewrite Hview. apply tally_nonneg. intros id x Hx. apply weight_nonneg; [|lia].
      destruct (pr_entry _ Pr id x) as [? _]; [by eapply lookup_weaken|lia].
  - intros path object Ho. change (delete (en_StoragePath e) (re_objects r) !! path = Some object) in Ho. apply lookup_delete_Some in Ho as [Hne Ho].
    destruct (O path object Ho) as (Hk & ? & ? & ?). split_and!; [|done..].
    intros id x [(<- & <-)|[_ Hx]]%lookup_insert_Some; [done|by apply (Hk id)].
Qed.

Lemma settled_alone namespace bytes entries (c : gmap nat credit) : delete 0%nat c = ∅ -> delete 0%nat (settle_credit 0 namespace bytes entries c) = ∅.
Proof.
  intros Hc. apply map_eq. intros i. rewrite lookup_empty. destruct (decide (i = 0%nat)) as [->|Hi]; [apply lookup_delete_eq|].
  rewrite lookup_delete_ne, settle_lookup, decide_False by done. rewrite <- (lookup_delete_ne c 0%nat i) by done. by rewrite Hc, lookup_empty.
Qed.

Lemma repairing_gone R kept r r' l c e w :
  stage t0 up ∅ l (settle_credit 0 (en_Namespace e) (en_Size e) 1 c) (delete (identity_of e) R) (found kept r') (untouched R kept r) w ->
  delete 0%nat c = ∅ -> (untouched R kept r -> False) -> repairing (delete (identity_of e) R) kept r' w.
Proof.
  intros Hw Hc Hu. exists l, (settle_credit 0 (en_Namespace e) (en_Size e) 1 c). split; [|by apply settled_alone].
  eapply stage_mono; [done| |exact Hw]. by intros ?%Hu.
Qed.

Lemma start_reconcile_entry cursor e ahead R kept r :
  progress cursor (e :: ahead) R kept r ->
  start (repairing R kept r) (reconcile_entry 0 e r)
    (fun out w => match out with
       | Ok r' => exists R' kept', repairing R' kept' r' w /\ (progress (en_ID e) ahead R' kept' r' /\ R' ⊆ R)
       | Err err => err <> out_of_pages
       end).
Proof.
  intros Hp. destruct (head_new _ _ _ _ _ _ Hp) as [He Hn]. pose proof (pg_proper _ _ _ _ _ Hp) as Pr.
  destruct (pr_entry _ Pr _ _ He) as (Hs & _ & Hv). unfold reconcile_entry. rewrite Hv. cbn [negb].
  apply hoare_pre_ex. intros l. apply hoare_pre_ex. intros c.
  apply (hoare_pre_pure _ _ (delete 0%nat c = ∅)); [by intros w [_ Hc]|]. intros Hc.
  assert (forall path, no_row kept path -> ~ is_Some (re_objects r !! path) -> ~ found kept r path) as Hnf.
  { intros path Hk Hr [?|(id & x & Hx & Hpx)]; [done|by apply (Hk id x)]. }
  assert (no_row kept (en_StoragePath e)) as Hke.
  { intros id x Hx Hpx. pose proof (lookup_weaken _ _ _ _ Hx (pg_kept _ _ _ _ _ Hp)) as Hx'.
    assert (id = identity_of e) as -> by by eapply (pr_path _ Pr). congruence. }
  destruct (re_objects r !! en_StoragePath e) as [object|] eqn:Ho.
  - rewrite (proj2 (Z.leb_gt _ _)) by done. cbn [orb]. destruct (Z.eqb_spec (om_Size object) (en_Size e)) as [Hz|Hz]; cbn [negb].
    + apply start_return; [apply _|]. intros w _ [Hw _]. exists R, (<[identity_of e := e]> kept). split; [|split; [by eapply progress_stays|done]].
      exists l, c. split; [|done]. eapply stage_mono; [| |exact Hw].
      * intros path [Hpo|(id & x & Hx & Hpx)].
        -- destruct (decide (path = en_StoragePath e)) as [->|Hne]; [right; exists (identity_of e), e; by rewrite lookup_insert_eq|left].
           change (is_Some (delete (en_StoragePath e) (re_objects r) !! path)). by rewrite lookup_delete_ne.
        -- right. exists id, x. rewrite lookup_insert_ne; [done|]. intros <-. congruence.
      * intros [HR Hu]. split; [done|]. intros id x Hx. destruct (decide (id = identity_of e)) as [->|Hne].
        -- left. rewrite lookup_insert_eq. congruence.
        -- rewrite lookup_insert_ne by done. destruct (Hu id x Hx) as [?|(o & Hox & Hoz)]; [by left|right]. exists o. split; [|done].
           change (delete (en_StoragePath e) (re_objects r) !! en_StoragePath x = Some o). rewrite lookup_delete_ne; [done|]. intros Hpe.
           apply Hne. by eapply (pr_path _ Pr).
    + eapply start_bind; [eapply hoare_weaken; [apply (start_delete_entry limits t0 up ∅ l c R (found kept r) (untouched R kept r) (identity_of e) e He)|by intros w _ [Hw _]|done]|].
      intros [u|err]; apply start_return; [apply _| |apply _|by intros w _ _].
      intros w _ Hw. exists (delete (identity_of e) R), kept. split; [|split; [|apply delete_subseteq]].
      * eapply repairing_gone; [|done|].
        -- eapply stage_mono; [| |exact Hw]; [|done]. intros path [[Hpo|Hk] Hne]; [left|by right].
           change (is_Some (delete (en_StoragePath e) (re_objects r) !! path)). by rewrite lookup_delete_ne.
        -- intros [_ Hu]. destruct (Hu _ _ He) as [?|(o & Hox & Hoz)]; congruence.
      * eapply progress_gone; [exact Hp|done| |].
        { intros path o Hpo. change (delete (en_StoragePath e) (re_objects r) !! path = Some o) in Hpo. by apply lookup_delete_Some in Hpo as [_ Hpo]. }
         apply Forall_app. split; [|apply Forall_singleton].
        -- eapply Forall_impl; [exact (pg_queued _ _ _ _ _ Hp)|]. intros path. apply no_row_less, delete_subseteq.
        -- intros id x [Hne Hx]%lookup_delete_Some Hpx. apply Hne. symmetry. by eapply (pr_path _ Pr).
  - eapply start_bind; [eapply hoare_weaken; [apply (start_delete_row limits t0 up ∅ l c R (found kept r) (untouched R kept r) (identity_of e) e He)|by intros w _ [Hw _]|done]|].
    { apply Hnf; [done|]. rewrite Ho. by intros []. }
    intros [u|err]; apply start_return; [apply _| |apply _|by intros w _ _].
    intros w _ Hw. exists (delete (identity_of e) R), kept. split; [|split; [|apply delete_subseteq]].
    + eapply repairing_gone; [exact Hw|done|]. intros [_ Hu]. destruct (Hu _ _ He) as [?|(o & Hox & Hoz)]; congruence.
    + eapply progress_gone; [exact Hp|done|done|]. eapply Forall_impl; [exact (pg_queued _ _ _ _ _ Hp)|]. intros path. apply no_row_less, delete_subseteq.
Qed.

Definition behind (cursor : Z) (entries : list CompileCacheEntry) : Z := match last entries with Some e => en_ID e | None => cursor end.

Lemma behind_cons cursor e entries : behind (en_ID e) entries = behind cursor (e :: entries).
Proof. unfold behind. rewrite last_cons. by destruct (last entries). Qed.

Lemma start_reconcile_page entries cursor R kept r :
  progress cursor entries R kept r ->
  start (repairing R kept r) (reconcile_page 0 entries r)
    (fun out w => match out with
       | Ok r' => exists R' kept', repairing R' kept' r' w /\ (progress (behind cursor entries) [] R' kept' r' /\ R' ⊆ R)
       | Err err => err <> out_of_pages
       end).
Proof.
  revert cursor R kept r. induction entries as [|e entries IH]; intros cursor R kept r Hp; cbn [reconcile_page].
  - apply start_return; [apply _|]. intros w _ Hw. by exists R, kept.
  - eapply start_bind; [by apply (start_reconcile_entry cursor e entries)|]. intros [r'|err]; [|by apply start_return; [apply _|]].
    apply hoare_pre_ex. intros R'. apply hoare_pre_ex. intros kept'.
    apply (hoare_pre_pure _ _ (progress (en_ID e) entries R' kept' r' /\ R' ⊆ R)); [by intros w [_ ?]|]. intros [Hp' Hs].
    eapply hoare_weaken; [by apply IH|by intros w _ [Hw _]|]. intros [r2|err] w _; [|done]. intros (R2 & k2 & Hw & Hp2 & Hs2).
    rewrite (behind_cons cursor e entries) in Hp2. exists R2, k2. split_and!; [done|done|by etrans].
Qed.

(** *** Pages *)

Definition remaining (cursor : Z) (R : gmap ArtifactID CompileCacheEntry) : gmap ArtifactID CompileCacheEntry := filter (fun row => cursor < en_ID row.2) R.

Lemma rows_after_sorted cursor w : Sorted id_le (merge_sort id_le (filter (fun e => (en_ID e >? cursor) = true) (map_to_list (w_rows w)).*2)).
Proof. apply Sorted_merge_sort. intros x y. unfold id_le. lia. Qed.

Lemma rows_after_elem cursor w e :
  e ∈ merge_sort id_le (filter (fun e => (en_ID e >? cursor) = true) (map_to_list (w_rows w)).*2) <-> (exists id, w_rows w !! id = Some e) /\ cursor < en_ID e.
Proof.
  rewrite merge_sort_Permutation, list_elem_of_filter, list_elem_of_fmap. split.
  - intros [Hc ([id x] & -> & Hx)]. apply elem_of_map_to_list in Hx. split; [by exists id|]. cbn in *. lia.
  - intros [[id He] Hc]. split; [lia|]. exists (id, e). split; [done|]. by apply elem_of_map_to_list.
Qed.

Lemma page_progress cursor R kept r w :
  w_rows w = R -> progress cursor [] R kept r -> progress cursor (rows_after cursor w) R kept r.
Proof.
  intros HR [Pr K S _ _ _ Bh Bal Q O]. unfold rows_after. set (all := merge_sort _ _).
  assert (forall e, e ∈ take reconcile_batch all -> (exists id, R !! id = Some e) /\ cursor < en_ID e) as Hin.
  { intros e (k & He & _)%elem_of_take. apply list_elem_of_lookup_2, rows_after_elem in He. by rewrite <- HR. }
  assert (NoDup all) as Hnd.
  { unfold all. rewrite merge_sort_Permutation. apply NoDup_filter. apply NoDup_fmap_2_strong; [|apply NoDup_map_to_list].
    intros [id x] [id' x'] Hx Hx' Heq. cbn in Heq. subst x'. apply elem_of_map_to_list in Hx, Hx'. rewrite HR in Hx, Hx'.
    rewrite <- (pr_identity _ Pr _ _ Hx), <- (pr_identity _ Pr _ _ Hx'). done. }
  assert (StronglySorted (fun e e' => en_ID e < en_ID e') all) as Hss.
  { assert (StronglySorted id_le all) as Hle by (apply Sorted_StronglySorted; [intros x y z; unfold id_le; lia|apply rows_after_sorted]).
    assert (Forall (fun e => exists id, R !! id = Some e) all) as Hall.
    { apply Forall_forall. intros e He%rows_after_elem. rewrite <- HR. apply He. }
    clearbody all. clear Hin. induction Hle as [|e l Hl IH Hf]; [constructor|]. apply NoDup_cons in Hnd as [Hni Hnd]. apply Forall_cons in Hall as [[id He] Hall].
    constructor; [by apply IH|]. apply Forall_forall. intros x Hx. pose proof (proj1 (Forall_forall _ _) Hf _ Hx) as Hlt. unfold id_le in Hlt.
    destruct (proj1 (Forall_forall _ _) Hall _ Hx) as [id' Hx']. destruct (decide (en_ID e = en_ID x)) as [Heq|]; [|lia].
    assert (id = id') as -> by by eapply (pr_id _ Pr). congruence. }
  split; try done.
  - intros id e He. destruct (S id e He) as [?|[Hi|[Hc _]]]; [by left|by apply elem_of_nil in Hi|right].
    assert (e ∈ all) as Hea by (apply rows_after_elem; rewrite HR; by split; [exists id|]).
    rewrite <- (take_drop reconcile_batch all) in Hea, Hss. apply elem_of_app in Hea as [?|Hd]; [by left|right]. split; [done|].
    apply Forall_forall. intros x Hx. exact (StronglySorted_app_1_elem_of _ _ _ x e Hss Hx Hd).
  - apply Forall_forall. intros e [[id He] _]%Hin. by rewrite (pr_identity _ Pr _ _ He).
  - rewrite <- (take_drop reconcile_batch all) in Hss. by apply StronglySorted_app_1_l in Hss.
  - apply Forall_forall. intros e He. by apply Hin.
Qed.

Lemma behind_after cursor e entries R kept r : progress cursor (e :: entries) R kept r -> en_ID e <= behind cursor (e :: entries).
Proof.
  intros Hp. pose proof (pg_sorted _ _ _ _ _ Hp) as [_ Sh]%StronglySorted_inv. unfold behind. rewrite last_cons.
  destruct (last entries) as [x|] eqn:Hx; [|done]. apply last_Some_elem_of in Hx. pose proof (proj1 (Forall_forall _ _) Sh _ Hx) as Hlt. cbv beta in Hlt. lia.
Qed.

Lemma remaining_less cursor cursor' e R R' :
  R' ⊆ R -> R !! identity_of e = Some e -> cursor < en_ID e -> en_ID e <= cursor' -> (size (remaining cursor' R') < size (remaining cursor R))%nat.
Proof.
  intros Hs He Hc Hc'.
  assert (remaining cursor' R' ⊆ delete (identity_of e) (remaining cursor R)) as Hsub.
  { apply map_subseteq_spec. intros id x [Hx Hlt]%map_lookup_filter_Some. cbn in Hlt. pose proof (lookup_weaken _ _ _ _ Hx Hs) as HRx.
    rewrite lookup_delete_ne; [apply map_lookup_filter_Some; split; [done|cbn; lia]|]. intros <-. rewrite He in HRx. injection HRx as <-. lia. }
  apply map_subseteq_size in Hsub. rewrite map_size_delete in Hsub.
  assert (remaining cursor R !! identity_of e = Some e) as Hr by (apply map_lookup_filter_Some; split; [done|cbn; lia]).
  rewrite Hr in Hsub. cbn in Hsub. assert (size (remaining cursor R) <> 0%nat); [|lia]. intros Hz%map_size_empty_inv. by rewrite Hz, lookup_empty in Hr.
Qed.

Lemma last_page cursor R kept r w : w_rows w = R -> progress cursor [] R kept r -> rows_after cursor w = [] -> R = kept.
Proof.
  intros HR Hp Hn. apply map_eq. intros id. destruct (R !! id) as [e|] eqn:He.
  - symmetry. destruct (pg_rest _ _ _ _ _ Hp id e He) as [?|[Hi|[Hc _]]]; [done|by apply elem_of_nil in Hi|]. exfalso.
    assert (e ∈ merge_sort id_le (filter (fun e => (en_ID e >? cursor) = true) (map_to_list (w_rows w)).*2)) as Hin.
    { apply rows_after_elem. rewrite HR. by split; [exists id|]. }
    unfold rows_after in Hn. destruct (merge_sort _ _) as [|x l]; [by apply elem_of_nil in Hin|done].
  - symmetry. apply eq_None_not_Some. intros [x Hx]. pose proof (lookup_weaken _ _ _ _ Hx (pg_kept _ _ _ _ _ Hp)). congruence.
Qed.

Lemma start_reconcile_rows n cursor R kept r :
  progress cursor [] R kept r -> (size (remaining cursor R) < n)%nat ->
  start (repairing R kept r) (reconcile_rows 0 n cursor r)
    (fun out w => match out with
       | Ok r' => exists R' cursor', repairing R' R' r' w /\ (progress cursor' [] R' R' r' /\ R' ⊆ R)
       | Err err => err <> out_of_pages
       end).
Proof.
  revert cursor R kept r. induction n as [|n IH]; intros cursor R kept r Hp Hn; [lia|]. cbn [reconcile_rows].
  eapply start_bind; [apply (start_query limits (rows_after cursor) _ (fun entries w => repairing R kept r w /\ match entries with
    | Ok entries => exists w0, w_rows w0 = R /\ entries = rows_after cursor w0 | Err _ => True end))|].
  - apply _.
  - intros [entries|e]; apply _.
  - intros w _ Hw. split; [done|]. exists w. split; [|done]. destruct Hw as (l & c & Hw & _). apply Hw.
  - by intros w e _ Hw.
  - intros [entries|e]; [|by apply start_return; [apply _|intros w _ _]].
    apply (hoare_pre_pure _ _ (exists w0, w_rows w0 = R /\ entries = rows_after cursor w0)); [by intros w [_ ?]|]. intros (w0 & Hw0 & He).
    destruct entries as [|e entries].
    + apply start_return; [apply _|]. intros w _ [Hw _]. assert (R = kept) as <- by (by eapply (last_page cursor)). by exists R, cursor.
    + pose proof (page_progress _ _ _ _ _ Hw0 Hp) as Hpp. rewrite <- He in Hpp. fold (behind cursor (e :: entries)).
      eapply start_bind; [eapply hoare_weaken; [by apply (start_reconcile_page (e :: entries) cursor)|by intros w _ [Hw _]|done]|].
      intros [r'|err]; [|by apply start_return; [apply _|]].
      apply hoare_pre_ex. intros R'. apply hoare_pre_ex. intros kept'.
      apply (hoare_pre_pure _ _ (progress (behind cursor (e :: entries)) [] R' kept' r' /\ R' ⊆ R)); [by intros w [_ ?]|]. intros [Hp' Hs].
      pose proof (pg_ahead _ _ _ _ _ Hpp) as [Ae _]%Forall_cons. pose proof (pg_beyond _ _ _ _ _ Hpp) as [Be _]%Forall_cons.
      eapply hoare_weaken; [apply IH; [exact Hp'|]|by intros w _ [Hw _]|].
      * pose proof (remaining_less cursor (behind cursor (e :: entries)) e R R' Hs Ae Be ltac:(by eapply behind_after)). lia.
      * intros [r2|err] w _; [|done]. intros (R2 & c2 & Hw & Hp2 & Hs2). exists R2, c2. split_and!; [done|done|by etrans].
Qed.

(** *** The listing *)

Lemma by_path_lookup (objects : list ObjectMeta) (m : gmap gostring ObjectMeta) path object :
  fold_left (fun m object => if has_prefix (om_Key object) (bs "v1/") then <[om_Key object := object]> m else m) objects m !! path = Some object ->
  m !! path = Some object \/ (object ∈ objects /\ om_Key object = path /\ has_prefix path (bs "v1/") = true).
Proof.
  revert m. induction objects as [|o objects IH]; intros m; cbn [fold_left]; [by left|]. intros [Hm|(Hin & ? & ?)]%IH; [|right; split_and!; [by right|done..]].
  destruct (has_prefix (om_Key o) (bs "v1/")) eqn:Ep; [|by left]. apply lookup_insert_Some in Hm as [(<- & <-)|[_ Hm]]; [|by left].
  right. split_and!; [by left|done..].
Qed.

Lemma by_path_found (objects : list ObjectMeta) (m : gmap gostring ObjectMeta) path :
  is_Some (m !! path) \/ (exists object, object ∈ objects /\ om_Key object = path /\ has_prefix path (bs "v1/") = true) ->
  is_Some (fold_left (fun m object => if has_prefix (om_Key object) (bs "v1/") then <[om_Key object := object]> m else m) objects m !! path).
Proof.
  revert m. induction objects as [|o objects IH]; intros m; cbn [fold_left]; [intros [?|(o & Hin & _)]; [done|by apply elem_of_nil in Hin]|].
  intros Hp. apply IH. destruct Hp as [Hm|(object & [->|Hin]%elem_of_cons & <- & Hpre)].
  - left. case_match; [|done]. apply lookup_insert_is_Some'. by right.
  - left. rewrite Hpre. rewrite lookup_insert_eq. by eexists.
  - right. by exists object.
Qed.

Lemma under_v1 limits' w path : crashed limits' w -> is_Some (w_objects w !! path) -> has_prefix path (bs "v1/") = true.
Proof.
  intros Hc Ho. destruct (in_objects _ _ Hc path Ho) as [[content Hu] _]. pose proof (in_uploaded _ _ Hc _ _ Hu) as Hp. cbv beta in Hp.
  destruct (is_probe path) eqn:E.
  - unfold is_probe in E. apply has_prefix_app in E as [r ->]. apply has_prefix_app. by exists (bs "probes/" ++ r).
  - destruct Hp as (id & g & _ & _ & ->). apply has_prefix_app. unfold object_path, object_prefix. by eexists.
Qed.

Lemma shorter_prefix path : has_prefix path (bs "v1/") = true -> has_prefix path (bs "v1") = true.
Proof. intros [r ->]%has_prefix_app. apply has_prefix_app. by exists (bs "/" ++ r). Qed.

(** What the storage listed. *)
Record listing (objects : list ObjectMeta) : Prop := {
  li_objects path object : by_path objects !! path = Some object -> is_Some (up !! path) /\ om_Key object = path /\ om_LastModified object = modified path;
  li_proper : proper_rows rows0;
}.

Definition all_listed (objects : list ObjectMeta) : Prop :=
  forall id e, rows0 !! id = Some e -> exists object, by_path objects !! en_StoragePath e = Some object /\ om_Size object = en_Size e.

Definition sees (w : world) : list ObjectMeta :=
  map (fun object : gostring * gostring => {| om_Key := object.1; om_Size := len object.2; om_LastModified := modified object.1 |})
    (map_to_list (filter (fun object : gostring * gostring => has_prefix object.1 (bs "v1") = true) (w_objects w))).

Lemma sees_object w path object :
  by_path (sees w) !! path = Some object ->
  exists content, w_objects w !! path = Some content /\ object = {| om_Key := path; om_Size := len content; om_LastModified := modified path |}.
Proof.
  intros [Hn|(Hin & <- & _)]%by_path_lookup; [by rewrite lookup_empty in Hn|]. unfold sees in Hin.
  apply list_elem_of_fmap in Hin as ([key content] & -> & Hin). apply elem_of_map_to_list, map_lookup_filter_Some in Hin as [Hin _]. by exists content.
Qed.

Lemma sees_found w path content : crashed limits w -> w_objects w !! path = Some content -> is_Some (by_path (sees w) !! path).
Proof.
  intros Hc Ho. assert (has_prefix path (bs "v1/") = true) as Hp by (by eapply under_v1; [exact Hc|eexists]).
  apply by_path_found. right. exists {| om_Key := path; om_Size := len content; om_LastModified := modified path |}. split_and!; [|done|done].
  apply list_elem_of_fmap. exists (path, content). split; [done|]. apply elem_of_map_to_list, map_lookup_filter_Some. split; [done|]. by apply shorter_prefix.
Qed.

Lemma start_list_objects l :
  start (staged_at l ∅ rows0 (fun _ => True) True) (list_objects modified)
    (fun listed w => match listed with
       | Ok objects => staged_at l ∅ rows0 (fun path => is_Some (by_path objects !! path)) (all_listed objects) w /\ listing objects
       | Err _ => staged_at l ∅ rows0 (fun _ => True) True w
       end).
Proof.
  apply start_query; [apply still_stage|intros [objects|e]; [apply still_and; [apply still_stage|apply still_pure]|apply still_stage]| |by intros w e _ Hw].
  intros w Hc Hw. fold (sees w). pose proof (st_rows _ _ _ _ _ _ _ _ _ Hw) as HR. pose proof (st_uploaded _ _ _ _ _ _ _ _ _ Hw) as HU. split; [|split].
  - destruct Hw as [S G C R P I T E]. split; try done.
    + intros path [content Ho]. left. by eapply sees_found.
    + intros Ht id e He. destruct (in_intact _ _ Hc Ht) as [Hup Hrow]. rewrite <- R in He.
      destruct (Hrow (en_StoragePath e)) as [content Ho]; [by exists id, e|]. destruct (sees_found w _ content Hc Ho) as [object Hob].
      exists object. split; [done|]. destruct (sees_object _ _ _ Hob) as (c & Hoc & ->). cbn [om_Size].
      destruct (in_rows _ _ Hc _ _ He) as (_ & _ & c' & [_ _ Hu [Hsz _] _ _] & _). pose proof (Hup _ _ Hoc). congruence.
  - intros path object (content & Ho & ->)%sees_object. split_and!; [|done|done]. rewrite <- HU. by apply (in_objects _ _ Hc path); eexists.
  - rewrite <- HR. by eapply rows_proper.
Qed.

(** *** After the rows *)

Lemma start_replace_ledger l l' c R todo intact :
  delete 0%nat c = ∅ -> start (staged_at l c R todo intact) (replace_ledger 0 l') (fun _ => staged_at l' ∅ R todo intact).
Proof.
  intros Hc. apply start_step; [apply _|apply _|]. intros w Hcr Hw. cbn [fst snd]. split; [exact Hcr|].
  destruct Hw as [S G C Rw P I T E]. split; try done.
  - change (w_service (set_ledger l' w) = alone ∅ l'). unfold set_ledger. by rewrite S.
  - change (delete 0%nat (w_credits w) = ∅). by rewrite C.
Qed.

Lemma start_queue_object path l c R todo intact :
  no_row R path -> is_Some (up !! path) ->
  start (staged_at l c R todo intact) (queue_probe path)
    (fun queued w => match queued with Ok _ => staged_at l c R (fun p => todo p /\ p <> path) intact w | Err _ => True end).
Proof.
  intros Hn Hu. apply start_request; [apply _|intros [u|e]; apply _| |done]. intros w Hc Hw _. cbn [fst snd].
  pose proof (st_uploaded _ _ _ _ _ _ _ _ _ Hw) as HU.
  assert (path <> []) as Hp.
  { destruct Hu as [content Hu]. rewrite <- HU in Hu. pose proof (in_uploaded _ _ Hc _ _ Hu) as Ho. cbv beta in Ho.
    destruct (is_probe path) eqn:E; [by intros ->|by apply object_path_nonempty]. }
  split_and!; [|..|done].
  - apply crashed_enqueue; [done|apply no_row_at; by rewrite (st_rows _ _ _ _ _ _ _ _ _ Hw)|by rewrite HU].
  - unfold enqueueDeletion. destruct (enqueue_same path (w_now w) w) as (dl & n & Heq). pose proof (enqueue_lookup path (w_now w) w) as Hl. rewrite Heq in *.
    change (w_deletions (set_deletions dl n w)) with dl in Hl. destruct Hw as [S G C Rw P I T E]. split; try done.
    intros p Hpo. change (w_deletions (set_deletions dl n w)) with dl. rewrite (Hl p Hp). case_decide as Hd; [by right; eexists|].
    destruct (P p Hpo); [by left|by right].
Qed.

(** The objects no row has and the pass has still to look at, those of rows, and those that
    are too new. *)
Definition unreclaimed (R : gmap ArtifactID CompileCacheEntry) (objects : list ObjectMeta) (path : gostring) : Prop :=
  (exists id e, R !! id = Some e /\ en_StoragePath e = path) \/ t0 < modified path \/ path ∈ om_Key <$> objects.

Definition orphan (R : gmap ArtifactID CompileCacheEntry) (object : ObjectMeta) : Prop :=
  no_row R (om_Key object) /\ is_Some (up !! om_Key object) /\ om_LastModified object = modified (om_Key object).

Lemma start_reclaim_orphans cutoff objects l c R intact :
  t0 <= cutoff -> Forall (orphan R) objects ->
  start (staged_at l c R (unreclaimed R objects) intact) (reclaim_orphans cutoff objects)
    (fun err w => match err with None => staged_at l c R (unreclaimed R []) intact w | Some e => e <> out_of_pages end).
Proof.
  intros Ht. induction 1 as [|object objects (Hn & Hu & Hm) _ IH]; cbn [reclaim_orphans]; [by apply start_return; [apply _|]|].
  destruct (Z.gtb_spec (om_LastModified object) cutoff) as [Hlt|Hle].
  - eapply hoare_weaken; [exact IH| |done]. intros w _. apply stage_mono; [|done]. intros path [?|[?|Hp]]; [by left|by right; left|right].
    rewrite fmap_cons in Hp. apply elem_of_cons in Hp as [->|?]; [left; lia|by right].
  - eapply start_bind; [by apply start_queue_object|]. intros [u|e]; [|by apply start_return; [apply _|]].
    eapply start_bind; [by apply start_processDeletionPath|]. intros u'. eapply hoare_weaken; [exact IH| |done].
    intros w _. apply stage_mono; [|done]. intros path [[?|[?|Hp]] Hne]; [by left|by right; left|right; right].
    rewrite fmap_cons in Hp. by apply elem_of_cons in Hp as [?|?].
Qed.

(** What the repair leaves. *)
Definition repaired (l : ledger) (R : gmap ArtifactID CompileCacheEntry) (w : world) : Prop :=
  staged_at l ∅ R (unreclaimed R []) (R = rows0) w /\ (balanced l R ∅ /\ tidy_ledger l /\ R ⊆ rows0).

Lemma start_Reconcile arrange l :
  (forall objects, arrange objects ≡ₚ objects) ->
  start (staged_at l ∅ rows0 (fun _ => True) True) (Reconcile 0 modified arrange 0)
    (fun err w => match err with None => exists l' R, repaired l' R w | Some e => e <> out_of_pages end).
Proof.
  intros Harr. unfold Reconcile. eapply start_bind; [apply start_list_objects|]. intros [objects|e]; [|by apply start_return; [apply _|]].
  apply (hoare_pre_pure _ _ (listing objects)); [by intros w [_ ?]|]. intros [Hl Pr].
  set (r0 := {| re_objects := by_path objects; re_queued := []; re_rebuilt := ∅; re_size := 0; re_entries := 0 |}).
  assert (progress 0 [] rows0 ∅ r0) as Hp0.
  { split; [exact Pr|apply map_empty_subseteq| |constructor|constructor|constructor|apply map_Forall_empty| |constructor|].
    - intros id e He. right. right. split; [|done]. by destruct (pr_entry _ Pr _ _ He) as (_ & ? & _).
    - split; [|by split; [|apply map_Forall_empty]]. intros k scope. rewrite !tally_empty. by destruct k, scope.
    - intros path object Ho. destruct (Hl path object Ho) as (? & ? & ?). split; [|done]. intros id e He. by rewrite lookup_empty in He. }
  assert (forall w, staged_at l ∅ rows0 (fun path => is_Some (by_path objects !! path)) (all_listed objects) w -> repairing rows0 ∅ r0 w) as Hr0.
  { intros w Hw. exists l, ∅. split; [|by apply delete_empty]. eapply stage_mono; [| |exact Hw]; [by left|]. intros Ha. split; [done|]. intros id e He.
    right. by apply (Ha id e). }
  eapply start_bind; [apply (start_look limits _ _ (fun n w => repairing rows0 ∅ r0 w /\ n = S (size rows0))); [apply _|apply _|]|].
  { intros w _ [Hw _]. split; [by apply Hr0|]. by rewrite (st_rows _ _ _ _ _ _ _ _ _ Hw). }
  intros n. apply (hoare_pre_pure _ _ (n = S (size rows0))); [by intros w [_ ?]|]. intros ->.
  eapply start_bind; [eapply hoare_weaken; [apply (start_reconcile_rows _ _ _ _ _ Hp0)|by intros w _ [Hw _]|done]|].
  { assert (size (remaining 0 rows0) <= size rows0)%nat; [|lia]. apply map_subseteq_size, map_filter_subseteq. }
  intros [r|err]; [|by apply start_return; [apply _|]].
  apply hoare_pre_ex. intros R. apply hoare_pre_ex. intros cursor.
  apply (hoare_pre_pure _ _ (progress cursor [] R R r /\ R ⊆ rows0)); [by intros w [_ ?]|]. intros [Hp Hs].
  eapply (hoare_weaken _ _ _ (repairing R R r)); [|by intros w _ [Hw _]|intros a w _ Hq; exact Hq].
  apply hoare_pre_ex. intros l1. apply hoare_pre_ex. intros c1. apply (hoare_pre_pure _ _ (delete 0%nat c1 = ∅)); [by intros w [_ ?]|]. intros Hc1.
  eapply start_bind; [eapply hoare_weaken; [by apply (start_replace_ledger l1 (rebuilt_ledger r) c1 R)|by intros w _ [Hw _]|done]|]. intros u.
  eapply start_bind; [apply start_processDeletionPaths; apply Hp|]. intros u'. eapply start_bind; [apply start_now|]. intros time.
  apply (hoare_pre_pure _ _ (t0 <= time)); [by intros w [_ ?]|]. intros Ht.
  eapply hoare_weaken; [apply (start_reclaim_orphans (time - Z.max 0 0) (arrange (map_to_list (re_objects r)).*2) (rebuilt_ledger r) ∅ R (R = rows0))| |].
  - lia.
  - apply Forall_forall. intros object. rewrite Harr. intros ([path object'] & -> & Hin)%list_elem_of_fmap. apply elem_of_map_to_list in Hin. cbn.
    destruct (pg_objects _ _ _ _ _ Hp _ _ Hin) as (Hk & Hu & Hkey & Hm). unfold orphan. by rewrite Hkey.
  - intros w _ [Hw _]. eapply stage_mono; [| |exact Hw].
    + intros path [[object Ho]|Hk]; [right; right|by left]. rewrite Harr. apply list_elem_of_fmap. exists object.
      destruct (pg_objects _ _ _ _ _ Hp _ _ Ho) as (_ & _ & Hkey & _). split; [done|]. apply list_elem_of_fmap. exists (path, object).
      split; [done|]. by apply elem_of_map_to_list.
    + by intros [? _].
  - intros [e|] w _ Hw; [done|]. exists (rebuilt_ledger r), R. split; [done|]. destruct (pg_balanced _ _ _ _ _ Hp). by split_and!.
Qed.

End repair.

(** ** The limits of the process that starts *)

Lemma no_tally k n (R : gmap ArtifactID CompileCacheEntry) :
  map_Forall (fun _ e => en_Namespace e <> n) R -> tally (row_weight k (Some n)) R = 0.
Proof.
  induction R as [|id e R He IH] using map_ind; intros Hn; [apply tally_empty|].
  apply map_Forall_insert in Hn as [Hn Hr]; [|done]. rewrite tally_fresh, IH by done.
  unfold row_weight, weight, in_scope. apply str_eqb_neq in Hn. by rewrite Hn.
Qed.

Lemma valid_namespace e : valid_row e = true -> en_Namespace e <> [].
Proof.
  unfold valid_row. destruct (NewArtifactID _ _ _) as [id|] eqn:E; [|done]. intros _ Hn. rewrite Hn in E. revert E. unfold NewArtifactID.
  by repeat case_match.
Qed.

(** A namespace with usage is one of a row. *)
Lemma used_namespace l (R : gmap ArtifactID CompileCacheEntry) n :
  balanced l R ∅ -> tidy_ledger l -> proper_rows R -> n ∈ dom (lg_namespaceUsage l) -> n <> [].
Proof.
  intros Hb [_ Hz] Hp [u Hu]%elem_of_dom ->. specialize (Hz _ _ Hu). cbv beta in Hz.
  assert (forall k, view k (Some []) l = 0) as Hv.
  { intros k. rewrite Hb, tally_empty, no_tally; [done|]. intros id e He. apply valid_namespace. by eapply (pr_entry _ Hp). }
  pose proof (Hv Bytes) as Hbytes. pose proof (Hv Entries) as Hentries. unfold view, usage_of in *. rewrite Hu in *. cbn in *.
  unfold zero_usage in Hz. by rewrite Hbytes, Hentries in Hz.
Qed.

(** What a pass over the candidates looks at: a namespace, or all. *)
Definition scope_of (scopeNamespace : gostring) : option gostring := if bool_decide (scopeNamespace = []) then None else Some scopeNamespace.

Section trim.
Context (old limits : Limits) (t0 : Z) (up : gmap gostring gostring) (modified : gostring -> Z) (intact : Prop).
Context (R0 : gmap ArtifactID CompileCacheEntry) (l0 : ledger).

Abbreviation start P m Q := (hoare (start_protocol old) 0 P m Q).
Abbreviation at_rows locks l R := (stage t0 up locks l ∅ R (unreclaimed t0 modified R []) intact).

(** Entries go only when a limit is exceeded; [met] are the scopes that are within theirs. *)
Record trimmed (met : option gostring -> Prop) (paths : list gostring) (l : ledger) (R : gmap ArtifactID CompileCacheEntry) : Prop := {
  tr_balanced : balanced l R ∅;
  tr_tidy : tidy_ledger l;
  tr_proper : proper_rows R;
  tr_rows : R ⊆ R0;
  tr_kept : within limits l0 -> R = R0;
  tr_less k scope : view k scope l <= view k scope l0;
  tr_met k scope : met scope -> view k scope l <= limit_of limits k scope;
  tr_paths : Forall (no_row R) paths;
}.

Definition trimming (locks : gmap gostring nat) (met : option gostring -> Prop) (paths : list gostring) (w : world) : Prop :=
  exists l R, at_rows locks l R w /\ trimmed met paths l R.

#[export] Instance still_trimming locks met paths : Still (trimming locks met paths).
Proof. unfold trimming. apply _. Qed.

Lemma trimming_mono locks (met met' : option gostring -> Prop) paths w :
  (forall scope, met' scope -> met scope) -> trimming locks met paths w -> trimming locks met' paths w.
Proof. intros Hm (l & R & Hw & []). exists l, R. split; [done|]. split; auto. Qed.

Lemma trimming_paths locks met paths paths' w :
  paths' ⊆ paths -> trimming locks met paths w -> trimming locks met paths' w.
Proof.
  intros Hp (l & R & Hw & []). exists l, R. split; [done|]. split; auto. apply Forall_forall. intros path Hpath.
  eapply Forall_forall; [done|]. by apply Hp.
Qed.

Lemma start_trimmed {A} locks met paths (m : program world A) Q :
  (forall l R, trimmed met paths l R -> start (at_rows locks l R) m Q) -> start (trimming locks met paths) m Q.
Proof.
  intros Hm. apply hoare_pre_ex. intros l. apply hoare_pre_ex. intros R. apply (hoare_pre_pure _ _ (trimmed met paths l R)); [by intros w [_ ?]|].
  intros Ht. eapply hoare_weaken; [by apply Hm|by intros w _ [Hw _]|done].
Qed.

Lemma start_tryLock k met paths :
  start (trimming ∅ met paths) (tryLock 0 k) (fun locked => trimming (if locked then {[k := 0%nat]} else ∅) met paths).
Proof.
  apply start_step; [apply _|intros locked; apply _|]. intros w Hc (l & R & Hw & Ht).
  assert (w_locks w = ∅) as Hl by (unfold w_locks; by rewrite (st_service _ _ _ _ _ _ _ _ _ Hw)).
  rewrite decide_True by (by rewrite Hl, lookup_empty). cbn [fst snd]. split; [exact Hc|]. exists l, R. split; [|done].
  rewrite Hl. destruct Hw as [S G C Rw P I T E]. split; try done. unfold set_locks. by rewrite S.
Qed.

Lemma start_unlock k met paths : start (trimming {[k := 0%nat]} met paths) (unlock k) (fun _ => trimming ∅ met paths).
Proof.
  apply start_step; [apply _|apply _|]. intros w Hc (l & R & Hw & Ht). cbn [fst snd]. split; [exact Hc|]. exists l, R. split; [|done].
  destruct Hw as [S G C Rw P I T E]. split; try done. unfold set_locks, w_locks. rewrite S. cbn. by rewrite delete_singleton_eq.
Qed.

Lemma start_find_by_id n locks l R :
  proper_rows R -> start (at_rows locks l R) (find_by_id n)
    (fun row w => at_rows locks l R w /\ match row with Ok (Some live) => R !! identity_of live = Some live | _ => True end).
Proof.
  intros Hp. apply start_query; [apply _|intros [[live|]|e]; apply _| |by intros w e _ Hw]. intros w Hc Hw. split; [done|].
  destruct (head _) as [live|] eqn:Hh; [|done]. apply head_Some_elem_of in Hh. unfold rows_with_id in Hh.
  apply list_elem_of_fmap in Hh as ([id e] & -> & Hin). apply elem_of_map_to_list, map_lookup_filter_Some in Hin as [He _]. cbn.
  rewrite (st_rows _ _ _ _ _ _ _ _ _ Hw) in He. by rewrite (pr_identity _ Hp _ _ He).
Qed.

(** An entry that goes takes what it counted. *)
Lemma trimmed_drop met paths l R id e :
  trimmed met paths l R -> R !! id = Some e -> ~ within limits l0 ->
  trimmed met (paths ++ [en_StoragePath e]) (addCapacityLocked (en_Namespace e) (- en_Size e) (- (1)) l) (delete id R).
Proof.
  intros [B T P S K L M Q] He Hn. destruct (pr_entry _ P _ _ He) as (Hsz & _ & _).
  assert (forall k scope, view k scope (addCapacityLocked (en_Namespace e) (- en_Size e) (- (1)) l) <= view k scope l) as Hless.
  { intros k scope. rewrite view_add, weight_neg. pose proof (weight_nonneg k scope (en_Namespace e) (en_Size e) 1). lia. }
  assert (delete id R ⊆ R) as Hsub by apply delete_subseteq. split.
  - intros k scope. rewrite view_add, weight_neg, tally_delete, He, B. unfold row_weight. lia.
  - by apply add_tidy.
  - by eapply proper_less.
  - by etrans.
  - done.
  - intros k scope. specialize (Hless k scope). specialize (L k scope). lia.
  - intros k scope Hs. specialize (Hless k scope). specialize (M k scope Hs). lia.
  - apply Forall_app. split; [eapply Forall_impl; [exact Q|]; intros path; by apply no_row_less|]. apply Forall_singleton.
    intros id' e' [Hne He']%lookup_delete_Some Hpath. apply Hne. by eapply (pr_path _ P).
Qed.

Lemma start_release_dropped locks met paths l R id e :
  trimmed met paths l R -> R !! id = Some e -> ~ within limits l0 ->
  start (stage t0 up locks l (settle_credit 0 (en_Namespace e) (en_Size e) 1 ∅) (delete id R)
           (fun path => unreclaimed t0 modified R [] path /\ path <> en_StoragePath e) intact)
    (releaseCapacity 0 (en_Namespace e) (en_Size e) 1) (fun _ => trimming locks met (paths ++ [en_StoragePath e])).
Proof.
  intros Ht He Hn. pose proof (trimmed_drop _ _ _ _ _ _ Ht He Hn) as Ht'. unfold releaseCapacity. rewrite andb_false_r.
  apply start_step; [apply _|apply _|]. intros w Hc Hw. cbn [fst snd]. split; [exact Hc|]. eexists _, _. split; [|exact Ht'].
  destruct Hw as [S G C Rw P I T E]. split; try done.
  - unfold set_ledger, w_ledger. cbn. by rewrite S.
  - change (delete 0%nat (w_credits w) = ∅). rewrite C. unfold settle_credit. rewrite andb_false_r. by rewrite insert_empty, delete_singleton_eq.
  - intros path Hp. destruct (P path Hp) as [[[(id' & e' & He' & Hpath)|[?|?]] Hne]|?]; [left; left| by left; right; left|by left; right; right|by right].
    exists id', e'. split; [|done]. rewrite lookup_delete_ne; [done|]. intros <-. congruence.
Qed.

Lemma start_evict_candidate candidate met paths :
  ~ within limits l0 ->
  start (trimming ∅ met paths) (evict_candidate 0 candidate)
    (fun out => match out with Ok (Some live) => trimming ∅ met (paths ++ [en_StoragePath live]) | _ => trimming ∅ met paths end).
Proof.
  intros Hn. unfold evict_candidate. set (k := cacheIdentity (identity_of candidate)).
  assert (forall paths' (out : result (option CompileCacheEntry)), start (trimming {[k := 0%nat]} met paths') (_ <~ unlock k; return_ out) (fun out' w => out' = out /\ trimming ∅ met paths' w)) as Hgive.
  { intros paths' out. eapply start_bind; [apply start_unlock|]. intros u. by apply start_return; [apply _|]. }
  eapply start_bind; [apply start_tryLock|]. intros [|]; cbn [negb]; [|by apply start_return; [apply _|]].
  apply start_trimmed. intros l R Ht.
  assert (forall w, at_rows {[k := 0%nat]} l R w -> trimming {[k := 0%nat]} met paths w) as Hback by (intros w Hw; by exists l, R).
  eapply start_bind; [by apply start_find_by_id, Ht|]. intros [[live|]|e].
  - apply (hoare_pre_pure _ _ (R !! identity_of live = Some live)); [by intros w [_ ?]|]. intros Hlive.
    destruct (_ || _); [by eapply hoare_weaken; [apply Hgive|intros w _ [Hw _]; by apply Hback|intros out w _ [-> Hw]]|].
    eapply start_bind; [eapply hoare_weaken; [by apply (start_delete_entry old t0 up {[k := 0%nat]} l ∅ R (unreclaimed t0 modified R []) intact (identity_of live) live)|by intros w _ [Hw _]|done]|].
    intros [u|e]; [|by eapply hoare_weaken; [apply Hgive|intros w _ Hw; by apply Hback|intros out w _ [-> Hw]]].
    eapply start_bind; [by eapply start_release_dropped|]. intros u'.
    by eapply hoare_weaken; [apply Hgive|intros w _ Hw; exact Hw|intros out w _ [-> Hw]].
  - by eapply hoare_weaken; [apply Hgive|intros w _ [Hw _]; by apply Hback|intros out w _ [-> Hw]].
  - by eapply hoare_weaken; [apply Hgive|intros w _ [Hw _]; by apply Hback|intros out w _ [-> Hw]].
Qed.

(** *** A scope *)

Section cleanup.
Context (scopeNamespace : gostring) (exclude : option ArtifactID) (before : list gostring).
Abbreviation scope := (scope_of scopeNamespace).
Abbreviation targetBytes := (limit_of limits Bytes scope).
Abbreviation targetEntries := (limit_of limits Entries scope).
Abbreviation also met := (fun s => met s \/ s = scope).

Lemma start_exceeds met paths :
  start (trimming ∅ met paths) (exceeds targetBytes targetEntries scopeNamespace)
    (fun over w => trimming ∅ met paths w /\ if over then ~ within limits l0 else trimming ∅ (also met) paths w).
Proof.
  apply start_look; [apply _|intros [|]; apply _|]. intros w Hc (l & R & Hw & Ht). split; [by exists l, R|].
  assert (w_ledger w = l) as -> by (unfold w_ledger; by rewrite (st_service _ _ _ _ _ _ _ _ _ Hw)).
  set (usage := if bool_decide _ then _ else _).
  assert (ru_Bytes usage = view Bytes scope l /\ ru_Entries usage = view Entries scope l) as [-> ->].
  { unfold usage, scope_of. by case_bool_decide. }
  destruct (_ || _) eqn:Eo.
  - intros Hin. pose proof (tr_less _ _ _ _ Ht Bytes scope). pose proof (tr_less _ _ _ _ Ht Entries scope).
    pose proof (Hin Bytes scope). pose proof (Hin Entries scope). lia.
  - exists l, R. split; [done|]. destruct Ht. split; auto. intros k s [Hs| ->]; [by auto|]. destruct k; lia.
Qed.

Abbreviation swept met r := (trimming ∅ met (before ++ cl_deletionPaths r)).

Lemma start_evict_page met candidates cursor r :
  start (swept met r) (evict_page 0 targetBytes targetEntries scopeNamespace exclude candidates cursor r) (fun out => swept met out.1.1).
Proof.
  revert cursor r. induction candidates as [|candidate candidates IH]; intros cursor r; cbn [evict_page]; [by apply start_return; [apply _|]|].
  eapply start_bind; [apply start_exceeds|]. intros [|]; cbn [negb]; [|by apply start_return; [apply _|intros w _ [Hw _]]].
  apply (hoare_pre_pure _ _ (~ within limits l0)); [by intros w [_ ?]|]. intros Hn. eapply hoare_weaken; [|by intros w _ [Hw _]|intros a w _ Hq; exact Hq].
  destruct (excluded _ _); [by apply IH|]. eapply start_bind; [by apply start_evict_candidate|].
  intros [[live|]|e]; [|by apply IH|by apply start_return; [apply _|]].
  rewrite <- app_assoc. exact (IH _ (evicted live r)).
Qed.

Lemma start_evict_pages n met cursor r :
  start (swept met r) (evict_pages 0 targetBytes targetEntries scopeNamespace exclude n cursor r) (fun out => swept met out.1).
Proof.
  revert cursor r. induction n as [|n IH]; intros cursor r; cbn [evict_pages]; [by apply start_return; [apply _|]|].
  eapply start_bind; [apply start_exceeds|]. intros [|]; cbn [negb]; [|by apply start_return; [apply _|intros w _ [Hw _]]].
  eapply (start_bind _ _ _ _ (fun _ => swept met r)); [apply start_query; [apply _|intros; apply _|by intros w _ [Hw _]|by intros w e _ [Hw _]]|].
  intros [[|c candidates]|e]; [by apply start_return; [apply _|]| |by apply start_return; [apply _|]].
  eapply start_bind; [apply start_evict_page|]. intros [[r' cursor'] [e|]]; [by apply start_return; [apply _|]|]. apply IH.
Qed.

Lemma start_measure_result r met paths :
  start (trimming ∅ met paths) (measure_result r) (fun r' w => trimming ∅ met paths w /\ cl_deletionPaths r' = cl_deletionPaths r).
Proof. apply start_look; [apply _|intros; apply _|done]. Qed.

Lemma start_cleanupToLocked pages met :
  start (trimming ∅ met before) (cleanupToLocked pages 0 targetBytes targetEntries scopeNamespace exclude)
    (fun out w => swept met out.1 w /\ (out.2 = None -> swept (also met) out.1 w)).
Proof.
  unfold cleanupToLocked. eapply start_bind; [apply start_measure_result|]. intros r.
  apply (hoare_pre_pure _ _ (cl_deletionPaths r = [])); [by intros w [_ ?]|]. intros Hr.
  destruct (_ || _); [apply start_return; [apply _|]; intros w _ [Hw _]; cbn [fst snd]; by rewrite Hr, app_nil_r|].
  eapply (hoare_weaken _ _ _ (swept met r)); [|intros w _ [Hw _]; by rewrite Hr, app_nil_r|intros a w _ Hq; exact Hq].
  eapply start_bind; [apply (start_evict_pages pages met None r)|]. intros [r' [e|]]; [by apply start_return; [apply _|]|]. cbn [fst].
  eapply start_bind; [apply start_measure_result|]. intros r2. apply (hoare_pre_pure _ _ (cl_deletionPaths r2 = cl_deletionPaths r')); [by intros w [_ ?]|].
  intros <-. eapply start_bind; [eapply hoare_weaken; [apply start_exceeds|by intros w _ [Hw _]|done]|]. intros over.
  apply start_return; [destruct over; apply _|]. intros w _ [Hw Ho]. split; [done|]. by destruct over.
Qed.

End cleanup.

(** *** All scopes *)

Abbreviation swept met r := (trimming ∅ met (cl_deletionPaths r)).

Lemma scope_named n : n <> [] -> scope_of n = Some n.
Proof. intros Hn. unfold scope_of. by rewrite bool_decide_eq_false_2. Qed.

Lemma start_namespace_usage n met paths :
  start (trimming ∅ met paths) (atomically (fun w => (usage_of (w_ledger w) n, w)))
    (fun usage w => trimming ∅ met paths w
       /\ ((ru_Bytes usage <=? namespaceMaxBytes limits) && (ru_Entries usage <=? namespaceMaxEntries limits) = true ->
           trimming ∅ (fun s => met s \/ s = Some n) paths w)).
Proof.
  apply start_look; [apply _|intros usage; apply _|]. intros w Hc (l & R & Hw & Ht). split; [by exists l, R|]. intros Hu.
  assert (w_ledger w = l) as Hl by (unfold w_ledger; by rewrite (st_service _ _ _ _ _ _ _ _ _ Hw)). rewrite Hl in Hu.
  exists l, R. split; [done|]. destruct Ht. split; auto. intros k s [Hs| ->]; [by auto|]. unfold view, limit_of. destruct k; lia.
Qed.

Lemma start_enforce_namespaces pages namespaces met r :
  Forall (fun n => n <> []) namespaces ->
  start (swept met r) (enforce_namespaces limits pages 0 namespaces r)
    (fun out w => swept met out.1 w /\ (out.2 = None -> swept (fun s => met s \/ exists n, n ∈ namespaces /\ s = Some n) out.1 w)).
Proof.
  intros Hn. revert met r. induction Hn as [|n namespaces Hn _ IH]; intros met r; cbn [enforce_namespaces].
  { apply start_return; [apply _|]. intros w _ Hw. split; [done|]. intros _. eapply trimming_mono; [|exact Hw].
    intros s [Hs|(n & Hin & _)]; [done|by apply elem_of_nil in Hin]. }
  assert (forall r', start (swept (fun s => met s \/ s = Some n) r') (enforce_namespaces limits pages 0 namespaces r')
    (fun out w => swept met out.1 w /\ (out.2 = None -> swept (fun s => met s \/ exists n', n' ∈ n :: namespaces /\ s = Some n') out.1 w))) as Hrest.
  { intros r'. eapply hoare_weaken; [apply IH|done|]. intros out w _ [Hw Ho]. split; [eapply trimming_mono; [|exact Hw]; by left|].
    intros He. eapply trimming_mono; [|by apply Ho]. intros s [Hs|(n' & [->|Hin]%elem_of_cons & ->)]; [by left; left|by left; right|right; by exists n']. }
  eapply start_bind; [apply start_namespace_usage|]. intros usage. destruct (_ && _) eqn:Ew.
  - eapply hoare_weaken; [apply Hrest|intros w _ [_ Hw]; by apply Hw|done].
  - pose proof (scope_named n Hn) as Hs. pose proof (start_cleanupToLocked n None (cl_deletionPaths r) pages met) as Hclean. rewrite Hs in Hclean.
    eapply start_bind; [eapply hoare_weaken; [exact Hclean|by intros w _ [Hw _]|done]|]. intros [partial err]. cbn [fst snd].
    destruct err as [e|].
    + apply start_return; [apply _|]. by intros w _ [Hw _].
    + eapply hoare_weaken; [apply Hrest|intros w _ [_ Hw]; by apply Hw|done].
Qed.

Lemma start_over_total met paths :
  start (trimming ∅ met paths) (over_total limits 0 0)
    (fun over w => trimming ∅ met paths w /\ (over = false -> trimming ∅ (fun s => met s \/ s = None) paths w)).
Proof.
  apply start_look; [apply _|intros over; apply _|]. intros w Hc (l & R & Hw & Ht). split; [by exists l, R|]. intros Hu.
  assert (w_ledger w = l) as Hl by (unfold w_ledger; by rewrite (st_service _ _ _ _ _ _ _ _ _ Hw)). rewrite Hl in Hu.
  exists l, R. split; [done|]. destruct Ht. split; auto. intros k s [Hs| ->]; [by auto|]. unfold view, limit_of. destruct k; lia.
Qed.

Definition all_met (namespaces : list gostring) (scope : option gostring) : Prop :=
  (exists n, n ∈ namespaces /\ scope = Some n) \/ scope = None.

Definition named (namespaces : list gostring) (scope : option gostring) : Prop := False \/ exists n, n ∈ namespaces /\ scope = Some n.

(** Unless there was an error, the namespaces are within their limits, and so is the whole,
    if it is not over. *)
Definition enforced (namespaces : list gostring) (r : CleanupResult) (err : option error) (over : bool) (w : world) : Prop :=
  swept (fun _ => False) r w /\ (err = None -> swept (named namespaces) r w /\ (over = false -> swept (all_met namespaces) r w)).

#[export] Instance still_enforced namespaces r err over : Still (enforced namespaces r err over).
Proof. unfold enforced. apply _. Qed.

Lemma start_check_total namespaces r err :
  start (fun w => swept (fun _ => False) r w /\ (err = None -> swept (named namespaces) r w)) (over_total limits 0 0)
    (fun over => enforced namespaces r err over).
Proof.
  destruct err as [e|].
  - by eapply hoare_weaken; [apply (start_over_total (fun _ => False))|intros w _ [Hw _]|intros over w _ [Hw _]].
  - eapply hoare_weaken; [apply (start_over_total (named namespaces))|intros w _ [_ Hw]; by apply Hw|]. intros over w _ [Hw Ho].
    split; [eapply trimming_mono; [|exact Hw]; by intros|]. intros _. split; [done|]. intros Hf. eapply trimming_mono; [|by apply Ho].
    intros s [Hs| ->]; [left; by right|by right].
Qed.

Lemma start_enforce_total pages namespaces r err over :
  start (enforced namespaces r err over)
    (if match err with None => over | Some _ => false end
     then '(partial, err) <~ cleanupToLocked pages 0 (MaxBytes limits) (MaxEntries limits) [] None; return_ (mergeCleanupResult r partial, err)
     else return_ (r, err))
    (fun out w => swept (fun _ => False) out.1 w /\ (out.2 = None -> swept (all_met namespaces) out.1 w)).
Proof.
  destruct err as [e|]; [by apply start_return; [apply _|intros w _ [Hw _]]|]. destruct over.
  - eapply start_bind; [eapply hoare_weaken; [apply (start_cleanupToLocked [] None (cl_deletionPaths r) pages (named namespaces))|intros w _ [_ Hw]; by apply Hw|done]|].
    intros [partial err]. cbn [fst snd]. apply start_return; [apply _|]. intros w _ [Hw Ho]. cbn [fst snd].
    split; [eapply trimming_mono; [|exact Hw]; by intros|]. intros He. eapply trimming_mono; [|by apply Ho].
    intros s [Hs| ->]; [left; by right|by right].
  - apply start_return; [apply _|]. intros w _ [Hw Ho]. cbn [fst snd]. split; [done|]. intros _. by apply Ho.
Qed.

Lemma met_within namespaces paths l R :
  (forall k scope, 0 <= limit_of limits k scope) -> (forall n, n ∈ dom (lg_namespaceUsage l0) -> n ∈ namespaces) ->
  trimmed (all_met namespaces) paths l R -> within limits l.
Proof.
  intros Hl Hn Ht k scope. destruct scope as [n|]; [|apply (tr_met _ _ _ _ Ht); by right].
  destruct (decide (n ∈ dom (lg_namespaceUsage l0))) as [Hin|Hout]; [apply (tr_met _ _ _ _ Ht); left; exists n; auto|].
  pose proof (tr_less _ _ _ _ Ht k (Some n)) as Hless. pose proof (Hl k (Some n)). apply not_elem_of_dom in Hout.
  assert (view k (Some n) l0 = 0) as Hz by (unfold view, usage_of; rewrite Hout; by destruct k). lia.
Qed.

Lemma start_EnforceLimits pages :
  (forall k scope, 0 <= limit_of limits k scope) -> balanced l0 R0 ∅ -> tidy_ledger l0 -> proper_rows R0 ->
  start (at_rows ∅ l0 R0) (EnforceLimits limits pages 0)
    (fun out w => out.2 = None -> exists l R, at_rows ∅ l R w /\ (trimmed (fun _ => False) [] l R /\ within limits l)).
Proof.
  intros Hl Hb Ht Hp. unfold EnforceLimits.
  eapply start_bind; [apply (start_look _ _ _ (fun r w => at_rows ∅ l0 R0 w /\ cl_deletionPaths r = [])); [apply _|apply _|done]|]. intros r.
  apply (hoare_pre_pure _ _ (cl_deletionPaths r = [])); [by intros w [_ ?]|]. intros Hr.
  eapply start_bind; [apply (start_look _ _ _ (fun namespaces w => at_rows ∅ l0 R0 w /\ namespaces = merge_sort bytes_le (elements (dom (lg_namespaceUsage l0)))));
    [apply _|apply _|]|].
  { intros w _ [Hw _]. split; [done|]. unfold w_ledger. by rewrite (st_service _ _ _ _ _ _ _ _ _ Hw). }
  intros namespaces. set (all := merge_sort _ _). apply (hoare_pre_pure _ _ (namespaces = all)); [by intros w [_ ?]|]. intros ->.
  assert (forall n, n ∈ all <-> n ∈ dom (lg_namespaceUsage l0)) as Hall.
  { intros n. unfold all. by rewrite merge_sort_Permutation, elem_of_elements. }
  assert (Forall (fun n => n <> []) all) as Hne by (apply Forall_forall; intros n Hin%Hall; by eapply used_namespace).
  eapply start_bind; [eapply hoare_weaken; [apply (start_enforce_namespaces pages all (fun _ => False) r Hne)| |done]|].
  { intros w _ [Hw _]. exists l0, R0. split; [done|]. rewrite Hr. by split. }
  intros [r1 err]. cbn [fst snd]. eapply start_bind; [apply start_check_total|]. intros over.
  eapply start_bind; [apply start_enforce_total|]. intros [r2 err2]. cbn [fst snd].
  eapply start_bind; [apply (start_look _ _ _ (fun r3 w => (swept (fun _ => False) r2 w /\ (err2 = None -> swept (all_met all) r2 w))
    /\ cl_deletionPaths r3 = cl_deletionPaths r2)); [apply _|apply _|done]|]. intros r3.
  apply (hoare_pre_pure _ _ (cl_deletionPaths r3 = cl_deletionPaths r2)); [by intros w [_ ?]|]. intros ->.
  eapply (start_bind _ _ _ _ (fun _ w => err2 = None -> exists l R, at_rows ∅ l R w /\ (trimmed (fun _ => False) [] l R /\ within limits l))).
  - destruct err2 as [e|].
    + eapply (hoare_weaken _ _ _ (swept (fun _ => False) r2)); [|by intros w _ [[Hw _] _]|intros u w _ Hw; exact Hw].
      apply start_trimmed. intros l R Ht'. eapply hoare_weaken; [apply start_processDeletionPaths, Ht'|by intros w _ Hw|by intros u w _ Hw].
    + eapply (hoare_weaken _ _ _ (swept (all_met all) r2)); [|intros w _ [[_ Hw] _]; by apply Hw|intros u w _ Hw; exact Hw].
      apply start_trimmed. intros l R Ht'. eapply hoare_weaken; [apply start_processDeletionPaths, Ht'|by intros w _ Hw|]. intros u w _ Hw _.
      exists l, R. split; [done|]. split; [|by eapply (met_within all); [done|apply Hall|]]. destruct Ht'. by split.
  - intros u. apply start_return; [apply _|]. intros w _ Hw He. by apply Hw.
Qed.

End trim.

(** ** The start *)

(** What a process that serves has made of what it found. *)
Record recovered (limits : Limits) (modified : gostring -> Z) (w0 w : world) : Prop := {
  rv_consistent : consistent limits w;
  rv_rows : w_rows w ⊆ w_rows w0;
  rv_kept : ou_tampered (w_outside w) = false -> (forall k scope, tally (row_weight k scope) (w_rows w0) <= limit_of limits k scope) ->
    w_rows w = w_rows w0;
  rv_objects path : is_Some (w_objects w !! path) -> row_at w path \/ is_Some (w_deletions w !! path) \/ w_now w0 < modified path;
}.

Lemma limits_ok limits : limits_error limits = None -> forall k scope, 0 <= limit_of limits k scope.
Proof.
  unfold limits_error. intros Hl k scope. repeat (case_match; try done).
  repeat match goal with H : _ || _ = false |- _ => apply orb_false_iff in H as [? ?] end.
  destruct scope, k; unfold limit_of, namespaceMaxBytes, namespaceMaxEntries; lia.
Qed.

Lemma limits_slots limits l : limits_error limits = None -> slots_ok limits (fresh_service l).
Proof.
  unfold limits_error. intros Hl. repeat (case_match; try done).
  repeat match goal with H : _ || _ = false |- _ => apply orb_false_iff in H as [? ?] end. apply empty_slots; lia.
Qed.

(** A world as it was found, with a service whose ledger is right. *)
Lemma crashed_consistent old limits l w :
  limits_error limits = None -> crashed old w -> w_service w = alone ∅ l -> w_staged w = ∅ -> w_credits w = ∅ ->
  balanced l (w_rows w) ∅ -> tidy_ledger l -> within limits l -> consistent limits w.
Proof.
  intros Hl Hc Hs Hst Hcr Hb Ht Hw. assert (w_ledger w = l) as Hle by (unfold w_ledger; by rewrite Hs).
  assert (idle w) as Hidle by (unfold idle, w_locks; rewrite Hs, Hcr; by split_and!). split; [|done].
  split; try (by destruct Hc).
  - intros path Hf. destruct (in_fresh _ _ Hc path Hf) as (? & _ & ? & ?). rewrite Hst. by split_and!.
  - rewrite Hst. apply map_Forall_empty.
  - intros path d Hd. destruct (in_queue _ _ Hc path d Hd). split; [done|]. rewrite Hst. intros s Hls. by rewrite lookup_empty in Hls.
  - rewrite Hs. apply map_Forall_empty.
  - rewrite Hcr. apply map_Forall_empty.
  - by rewrite Hle, Hcr.
  - by rewrite Hle.
  - by rewrite Hle.
  - rewrite Hs. by apply limits_slots.
Qed.

Section startup.
Context (old limits : Limits) (pages : nat) (modified : gostring -> Z) (arrange : list ObjectMeta -> list ObjectMeta) (w0 : world).
Hypothesis limits_valid : limits_error limits = None.
Hypothesis w0_crashed : crashed old w0.
Hypothesis arranged : forall objects, arrange objects ≡ₚ objects.

Abbreviation start P m Q := (hoare (start_protocol old) 0 P m Q).
Abbreviation rows0 := (w_rows w0).
Abbreviation up := (w_uploaded w0).
Abbreviation t0 := (w_now w0).

Definition begun (w : world) : Prop := stage t0 up ∅ (measured rows0) ∅ rows0 (fun _ => True) True w.

Lemma restarted_begun : begun (restarted w0).
Proof. split; try done. intros path _. by left. Qed.

Definition started_with (err : option error) (w : world) : Prop :=
  match err with None => recovered limits modified w0 w | Some e => e <> Errorf "reconcile compiler cache: %w" [out_of_pages] end.

Lemma trimmed_recovered l' R' l R w :
  crashed old w -> balanced l' R' ∅ -> R' ⊆ rows0 -> stage t0 up ∅ l ∅ R (unreclaimed t0 modified R []) (R' = rows0) w ->
  trimmed limits R' l' (fun _ => False) [] l R -> within limits l -> recovered limits modified w0 w.
Proof.
  intros Hc Hb Hs [S G C Rw P I T E] Ht Hw. split.
  - apply (crashed_consistent old limits l); try done; [rewrite Rw; by apply (tr_balanced _ _ _ _ _ _ _ Ht)|by apply (tr_tidy _ _ _ _ _ _ _ Ht)].
  - rewrite Rw. etrans; [apply (tr_rows _ _ _ _ _ _ _ Ht)|done].
  - intros Hno Hfit. rewrite Rw. specialize (I Hno). rewrite <- I. apply (tr_kept _ _ _ _ _ _ _ Ht). intros k scope.
    rewrite Hb, tally_empty, I. specialize (Hfit k scope). lia.
  - intros path Ho. destruct (P path Ho) as [[Hr|[Hm|Hn]]|Hd]; [left| by right; right| |by right; left].
    + destruct Hr as (id & e & He & Hp). exists id, e. by rewrite Rw.
    + by apply elem_of_nil in Hn.
Qed.

Lemma start_startup : start begun (startup limits pages 0 modified arrange) started_with.
Proof.
  unfold startup. eapply start_bind; [apply start_ProcessPendingDeletions|]. intros [e|]; [by apply start_return; [apply _|]|].
  eapply start_bind; [by apply start_Reconcile|]. intros [e|].
  { apply start_return; [apply _|]. intros w _ He [= Heq]. by apply He. }
  apply hoare_pre_ex. intros l'. apply hoare_pre_ex. intros R'.
  apply (hoare_pre_pure _ _ (balanced l' R' ∅ /\ tidy_ledger l' /\ R' ⊆ rows0)); [by intros w [_ ?]|]. intros (Hb & Ht & Hs).
  eapply start_bind; [eapply hoare_weaken; [apply (start_EnforceLimits old limits t0 up modified (R' = rows0) R' l' pages)|by intros w _ [Hw _]|done]|].
  - by apply limits_ok.
  - done.
  - done.
  - eapply proper_less; [exact Hs|by eapply rows_proper].
  - intros [out [e|]]; cbn [fst snd]; (apply start_return; [apply _|]); [done|]. intros w Hc Hw. destruct (Hw eq_refl) as (l & R & Hst & Htr & Hwi).
    by eapply trimmed_recovered.
Qed.

End startup.

(** *** What happens meanwhile *)

Inductive disturbance :=
  | passes (time : Z)
  | changes (path : gostring) (content : option gostring).

Definition disturb (d : disturbance) : program world (option error) :=
  match d with
  | passes time => _ <~ tick time; return_ None
  | changes path content => _ <~ tamper path content; return_ None
  end.

Definition start_pool (limits : Limits) (pages : nat) (modified : gostring -> Z) (arrange : list ObjectMeta -> list ObjectMeta)
    (meanwhile : list disturbance) : list (program world (option error)) :=
  startup limits pages 0 modified arrange :: (disturb <$> meanwhile).

(** The process starts on what another one left. *)
Definition start_to (limits : Limits) (pages : nat) (modified : gostring -> Z) (w0 : world) (meanwhile : list disturbance)
    (ps : list (program world (option error))) (w : world) : Prop :=
  exists arrange, (forall objects, arrange objects ≡ₚ objects)
    /\ rtc (pool_step (fun _ => True)) (start_pool limits pages modified arrange meanwhile, restarted w0) (ps, w).

Section interference.
Context (old : Limits).

Lemma disturbing_step (f : world -> world) i (k : unit -> program world (option error)) w (Q : option error -> world -> Prop) :
  (forall w, crashed old w -> crashed old (f w) /\ disturbed w (f w)) -> (forall u w, crashed old w -> verified (start_protocol old) i Q (k u) w) ->
  verified (start_protocol old) i Q (bind (atomically (fun w => ((), f w))) k) w.
Proof.
  intros Hf Hk w' _ Hc _. cbn [fst snd]. destruct (Hf w' Hc) as [Hc' Hd]. split; [|by apply Hk]. split; [done|]. by intros [|j] Hj.
Qed.

Lemma disturb_verified d i w (Q : option error -> world -> Prop) : (forall err w, Q err w) -> verified (start_protocol old) i Q (disturb d) w.
Proof.
  intros HQ. destruct d as [time|path content]; cbn [disturb].
  - apply disturbing_step; [|by intros u w' _ w'' _ _]. intros w' Hc. split; [by apply (inv_ticked old time (restarted w'))|]. split; try done.
    change (w_now w' <= Z.max (w_now w') time). lia.
  - apply disturbing_step; [|by intros u w' _ w'' _ _]. intros w' Hc. destruct (ou_objects (w_outside w') !! path) as [c|] eqn:Ho; [|by split; [|apply disturbed_refl]].
    fold (w_objects w') in Ho |- *. change (set_outside _ w') with (tampered path content w'). split.
    + apply (inv_tampered old path content (restarted w')); [done|by exists c].
    + split; try done. intros path' Hs. eapply tampered_objects; [by exists c|exact Hs].
Qed.

Lemma start_sound limits pages modified w0 meanwhile ps w :
  limits_error limits = None -> crashed old w0 -> start_to limits pages modified w0 meanwhile ps w ->
  crashed old w /\ forall err, ps !! 0%nat = Some (return_ err) -> started_with limits modified w0 err w.
Proof.
  intros Hl Hc (arrange & Harr & Hr).
  assert (pool_verified (start_protocol old) (fun i err w => i = 0%nat -> started_with limits modified w0 err w) (ps, w)) as [Hi Hv].
  { eapply pool_sound; [|exact Hr]. split; [exact (inv_crashed _ _ Hc)|]. intros i p Hp. cbn [fst snd] in *. destruct i as [|i]; cbn in Hp.
    - injection Hp as <-. eapply (hoare_weaken _ _ _ (begun w0)); [by apply (start_startup old limits pages modified arrange w0)|done|done| |apply restarted_begun].
      exact (inv_crashed _ _ Hc).
    - apply list_lookup_fmap_Some in Hp as (d & -> & _). by apply disturb_verified. }
  split; [done|]. intros err Hp. by apply (Hv 0%nat _ Hp); [apply rely_refl| |].
Qed.

End interference.
