(* ===== verification/CompileSafety.v ===== *)
(** * What the compiler cache promises (CompileCache.v)

    Any number of goroutines upload, download, delete, evict and maintain, in any
    interleaving, whatever calls on the database and the storage fail, and with somebody
    else changing objects; and the process may die at any moment. *)

From stdpp Require Import gmap.
From S2P Require Export CompileRecovery.

(** ** Goroutines *)

Inductive task :=
  | task_put (id : ArtifactID) (u : upload) (size : Z)
  | task_download (id : ArtifactID) (reads : gostring -> source) (sizes : list nat)
  | task_stat (id : ArtifactID)
  | task_delete (id : ArtifactID)
  | task_flush
  | task_pending (limit : Z)
  | task_cleanup
  | task_enforce
  | task_check_writable
  | task_tick (time : Z)
  | task_tamper (path : gostring) (content : option gostring).

Inductive answer :=
  | answer_put (r : result PutResult)
  | answer_download (r : result (gostring * option error))
  | answer_other.

Section pool.
Context (limits : Limits) (stops : bool) (pages : nat) (base : list event).

Definition run_task (me : nat) (t : task) : program world answer :=
  match t with
  | task_put id u size => r <~ Put limits stops pages me id u size; return_ (answer_put r)
  | task_download id reads sizes => r <~ download limits me id reads sizes; return_ (answer_download r)
  | task_stat id => _ <~ Stat limits me id; return_ answer_other
  | task_delete id => _ <~ Delete me id; return_ answer_other
  | task_flush => _ <~ FlushTouches me; return_ answer_other
  | task_pending limit => _ <~ ProcessPendingDeletions limit; return_ answer_other
  | task_cleanup => _ <~ Cleanup limits pages me; return_ answer_other
  | task_enforce => _ <~ EnforceLimits limits pages me; return_ answer_other
  | task_check_writable => _ <~ CheckWritable limits me; return_ answer_other
  | task_tick time => _ <~ tick time; return_ answer_other
  | task_tamper path content => _ <~ tamper path content; return_ answer_other
  end.

Definition pool_of (tasks : list task) : list (program world answer) := imap run_task tasks.

Definition told (me : nat) (t : task) (a : answer) (w : world) : Prop :=
  match t, a with
  | task_put id u size, answer_put r => acknowledged stops id u size r w
  | task_download id _ _, answer_download r => download_ok me base id r w
  | _, _ => True
  end.

Definition answers (tasks : list task) (me : nat) (a : answer) (w : world) : Prop :=
  mine me nothing w /\ forall t, tasks !! me = Some t -> told me t a w.

Lemma task_verified tasks me t w :
  tasks !! me = Some t -> inv limits w -> mine me nothing w -> since base w -> verified (compile_protocol limits) me (answers tasks me) (run_task me t) w.
Proof.
  intros Ht Hi Hm Hb. assert (knows me nothing (since base) w) as Hk by done.
  assert (forall {A} (m : program world A) (answer_of : A -> answer) (F : A -> world -> Prop), (forall a, Firm me ∅ (F a)) ->
    hoare (compile_protocol limits) me (knows me nothing (since base)) m (fun a => knows me nothing (F a)) ->
    (forall a w, F a w -> told me t (answer_of a) w) ->
    verified (compile_protocol limits) me (answers tasks me) (a <~ m; return_ (answer_of a)) w) as Hrun.
  { intros A m answer_of F HF Hs Ha. eapply hoare_bind; [exact Hs| |exact Hi|exact Hk]. intros a. apply (spec_return limits me (F a) nothing _ _ (HF a)).
    intros w' _ [Hm' Hf]. split; [done|]. intros t' Ht'. rewrite Ht in Ht'. injection Ht' as <-. by apply Ha. }
  destruct t; cbn [run_task].
  - apply (Hrun _ _ _ (acknowledged stops id u size)); [apply _|apply spec_forget, spec_Put|done].
  - apply (Hrun _ _ _ (download_ok me base id)); [apply _|apply spec_download|done].
  - apply (Hrun _ _ (fun _ => answer_other) (fun _ _ => True)); [apply _|apply spec_forget, spec_Stat|done].
  - apply (Hrun _ _ (fun _ => answer_other) (fun _ _ => True)); [apply _|apply spec_forget, spec_Delete|done].
  - apply (Hrun _ _ (fun _ => answer_other) (fun _ _ => True)); [apply _|apply spec_forget, spec_FlushTouches|done].
  - apply (Hrun _ _ (fun _ => answer_other) (fun _ _ => True)); [apply _|apply spec_forget, spec_ProcessPendingDeletions|done].
  - apply (Hrun _ _ (fun _ => answer_other) (fun _ _ => True)); [apply _|by apply spec_forget, spec_Cleanup|done].
  - apply (Hrun _ _ (fun _ => answer_other) (fun _ _ => True)); [apply _|by apply spec_forget, spec_EnforceLimits|done].
  - apply (Hrun _ _ (fun _ => answer_other) (fun _ _ => True)); [apply _|apply spec_forget, spec_CheckWritable|done].
  - apply (Hrun _ _ (fun _ => answer_other) (fun _ _ => True)); [apply _|apply spec_forget, spec_tick; apply _|done].
  - apply (Hrun _ _ (fun _ => answer_other) (fun _ _ => True)); [apply _|apply spec_forget, spec_tamper; apply _|done].
Qed.

Lemma pool_initially tasks w : consistent limits w -> base = w_log w -> pool_verified (compile_protocol limits) (answers tasks) (pool_of tasks, w).
Proof.
  intros [Hi Hd] Hb. split; [done|]. intros i p Hp. cbn [fst snd] in *. unfold pool_of in Hp.
  rewrite list_lookup_imap in Hp. destruct (tasks !! i) as [t|] eqn:Ht; [|done]. injection Hp as <-.
  apply task_verified; [done|done|by apply idle_mine|]. unfold since. by rewrite Hb.
Qed.

Definition run_to (w0 : world) (tasks : list task) (ps : list (program world answer)) (w : world) : Prop :=
  rtc (pool_step (fun _ => True)) (pool_of tasks, w0) (ps, w).

Lemma run_verified w0 tasks ps w : consistent limits w0 -> base = w_log w0 -> run_to w0 tasks ps w -> pool_verified (compile_protocol limits) (answers tasks) (ps, w).
Proof. intros Hc Hb Hr. eapply pool_sound; [by apply pool_initially|exact Hr]. Qed.

Definition all_returned (ps : list (program world answer)) : Prop := forall i p, ps !! i = Some p -> exists a, p = return_ a.

Lemma run_length w0 tasks ps w : run_to w0 tasks ps w -> length ps = length tasks.
Proof.
  intros Hr. unfold run_to in Hr. rewrite <- (length_imap run_task tasks).
  remember (pool_of tasks, w0) as s eqn:Es. remember (ps, w) as s' eqn:Es'. change (length (imap run_task tasks)) with (length (pool_of tasks)).
  replace ps with s'.1 by by subst. replace (pool_of tasks) with s.1 by by subst. clear Es Es'.
  induction Hr as [s|s s1 s2 (i & m & m' & _ & _ & _ & Hps) _ IH]; [done|]. by rewrite IH, Hps, length_insert.
Qed.

(** When all have returned, nobody holds anything. *)
Lemma returned_idle w0 tasks ps w : consistent limits w0 -> base = w_log w0 -> run_to w0 tasks ps w -> all_returned ps -> idle w.
Proof.
  intros Hc Hb Hr Hret. pose proof (run_verified _ _ _ _ Hc Hb Hr) as Hv.
  assert (forall j, mine j nothing w) as Hm.
  { intros j. destruct (decide (j < length ps)%nat) as [Hj|Hj].
    - destruct (lookup_lt_is_Some_2 ps j Hj) as [p Hp]. destruct (Hret _ _ Hp) as [a ->].
      by destruct (pool_returned (compile_protocol limits) _ _ j a Hv Hp).
    - eapply mine_same; [apply idle_mine, Hc|].
      assert (others j w0 w) as [Hh _]; [|exact Hh].
      eapply (pool_outside (compile_protocol limits) (answers tasks) (pool_of tasks, w0) (ps, w)); [by apply pool_initially|exact Hr|].
      cbn. unfold pool_of. rewrite length_imap, <- (run_length _ _ _ _ Hr). lia. }
  split_and!.
  - apply map_empty. intros k. apply eq_None_not_Some. intros [j Hj]. apply (mi_locks _ _ _ (Hm j)) in Hj. set_solver.
  - apply map_empty. intros j. apply (mi_credit _ _ _ (Hm j)).
  - apply set_eq. intros j. pose proof (mi_admission _ _ _ (Hm j)) as Hj. cbn in Hj. set_solver.
  - apply set_eq. intros j. pose proof (mi_upload _ _ _ (Hm j)) as Hj. cbn in Hj. set_solver.
  - apply map_empty. intros j. apply (mi_lease _ _ _ (Hm j)).
  - apply set_eq. intros j. pose proof (mi_download _ _ _ (Hm j)) as Hj. cbn in Hj. set_solver.
Qed.

End pool.

(** ** Properties *)

(** A process that started, whatever happened meanwhile. *)
Definition started (limits : Limits) (pages : nat) (w0 w : world) : Prop :=
  exists modified meanwhile ps, start_to limits pages modified w0 meanwhile ps w /\ ps !! 0%nat = Some (return_ None).

(** What processes leave, each with limits of its own, that died while they started or while
    they served. *)
Inductive left_behind (stops : bool) (pages : nat) : world -> Prop :=
  | left_new entropy : NoDup entropy -> Forall generation entropy -> left_behind stops pages (empty_compile_cache entropy)
  | left_starting limits modified w0 meanwhile ps w : limits_error limits = None -> left_behind stops pages w0 ->
      start_to limits pages modified w0 meanwhile ps w -> left_behind stops pages w
  | left_serving limits w0 w1 tasks ps w : limits_error limits = None -> left_behind stops pages w0 -> started limits pages w0 w1 ->
      run_to limits stops pages w1 tasks ps w -> left_behind stops pages w.

(** The worlds a process serves from. *)
Definition reached (limits : Limits) (stops : bool) (pages : nat) (w : world) : Prop := exists w0, left_behind stops pages w0 /\ started limits pages w0 w.

Lemma empty_consistent limits entropy :
  limits_error limits = None -> NoDup entropy -> Forall generation entropy -> consistent limits (empty_compile_cache entropy).
Proof.
  intros Hl Hn Hg. assert (forall path, ~ row_at (empty_compile_cache entropy) path) as Hrow.
  { intros path (id & e & He & _). change ((∅ : gmap ArtifactID CompileCacheEntry) !! id = Some e) in He. by rewrite lookup_empty in He. }
  split; [|by split_and!]. split; try (by apply map_Forall_empty); try done.
  - intros path [c Hc]. change ((∅ : gmap gostring gostring) !! path = Some c) in Hc. by rewrite lookup_empty in Hc.
  - intros _. split; [|by intros path Hr%Hrow]. intros path c Hc. change ((∅ : gmap gostring gostring) !! path = Some c) in Hc. by rewrite lookup_empty in Hc.
  - intros k scope. change (view k scope empty_ledger = tally (row_weight k scope) (∅ : gmap ArtifactID _) + tally (credit_weight k scope) (∅ : gmap nat _)). by rewrite !tally_empty, view_empty.
  - intros k scope. change (view k scope empty_ledger <= limit_of limits k scope). rewrite view_empty. by apply limits_ok.
  - by apply limits_slots.
Qed.

Definition some_limits : Limits :=
  {| MaxBytes := 100; MaxEntries := 4; MaxEntryBytes := 50; NamespaceMaxBytes := 60; NamespaceMaxEntries := 2; MaxConcurrentUploads := 2;
     MaxQueuedUploads := 1; MaxInflightUploadBytes := 80; UploadTimeout := 60 * second; MaxConcurrentDownloads := 2; DownloadTimeout := 60 * second;
     HighWatermarkPercent := 90 |}.

Lemma started_consistent old limits pages w0 w :
  limits_error limits = None -> crashed old w0 -> started limits pages w0 w -> consistent limits w.
Proof.
  intros Hl Hc (modified & meanwhile & ps & Hs & Hp). destruct (start_sound old limits pages modified w0 meanwhile ps w Hl Hc Hs) as [_ Hr].
  exact (rv_consistent _ _ _ _ (Hr None Hp)).
Qed.

Lemma left_crashed stops pages w : left_behind stops pages w -> exists old, crashed old w.
Proof.
  induction 1 as [entropy Hn Hg|limits modified w0 meanwhile ps w Hl _ [old Hc] Hs|limits w0 w1 tasks ps w Hl _ [old Hc] Hs Hr].
  - exists some_limits. apply inv_crashed. by apply empty_consistent.
  - exists old. by eapply start_sound.
  - exists limits. apply inv_crashed. pose proof (started_consistent _ _ _ _ _ Hl Hc Hs) as H1.
    by destruct (run_verified limits stops pages (w_log w1) w1 tasks ps w H1 eq_refl Hr).
Qed.

(** What the table, the queue and the storage say of each other. *)
Record sound (w : world) : Prop := {
  so_entry id e : w_rows w !! id = Some e -> validate id = None /\ identity_of e = id /\ exists content,
    current_upload (w_log w) id = Some content /\ en_Size e = len content /\ en_Checksum e = checksum_of content
    /\ (ou_tampered (w_outside w) = false -> w_objects w !! en_StoragePath e = Some content);
  so_miss id : w_rows w !! id = None -> current_upload (w_log w) id = None;
  so_apart id id' e e' : w_rows w !! id = Some e -> w_rows w !! id' = Some e' -> en_StoragePath e = en_StoragePath e' -> id = id';
  so_object path : is_Some (w_objects w !! path) -> is_probe path = true \/ row_at w path \/ is_Some (w_deletions w !! path);
  so_queue path : is_Some (w_deletions w !! path) -> ~ row_at w path;
}.

Lemma inv_sound limits w : inv limits w -> sound w.
Proof.
  intros Hi. split.
  - intros id e He. destruct (in_rows _ _ Hi _ _ He) as (Hv & Ho & c & [Hid _ Hu [Hs _] Hc] & Hcur). split; [done|]. split; [done|].
    exists c. split_and!; [done..|]. intros Ht. destruct (in_intact _ _ Hi Ht) as [Huo Hob].
    destruct (Hob (en_StoragePath e)) as [c' Hc']; [by exists id, e|]. pose proof (Huo _ _ Hc'). congruence.
  - apply (in_gone _ _ Hi).
  - intros id id' e e'. apply (in_distinct _ _ Hi).
  - apply (in_objects _ _ Hi).
  - intros path [d Hd]. by destruct (in_queue _ _ Hi _ _ Hd).
Qed.

Section properties.
Context (limits : Limits) (stops : bool) (pages : nat).

Lemma reached_consistent w : limits_error limits = None -> reached limits stops pages w -> consistent limits w.
Proof. intros Hl (w0 & [old Hc]%left_crashed & Hs). by eapply started_consistent. Qed.

Lemma run_inv w0 tasks ps w : limits_error limits = None -> reached limits stops pages w0 -> run_to limits stops pages w0 tasks ps w -> inv limits w.
Proof.
  intros Hl H0 Hr. by destruct (run_verified limits stops pages (w_log w0) w0 tasks ps w (reached_consistent _ Hl H0) eq_refl Hr).
Qed.


(** C9: the ledger of capacity never exceeds a limit, of all namespaces or of one, in bytes or
    in entries, and the entries never exceed the ledger, at any moment of any interleaving;
    uploads, queued uploads, staged bytes and downloads stay within theirs.  When all
    goroutines have returned, the ledger is the sum of the entries again, it counts the
    namespaces that have some, and no lock, slot or lease is left behind; and so it is after
    a restart. *)
Theorem capacity_kept w0 tasks ps w :
  limits_error limits = None -> reached limits stops pages w0 -> run_to limits stops pages w0 tasks ps w ->
  (forall k scope, tally (row_weight k scope) (w_rows w) <= view k scope (w_ledger w) <= limit_of limits k scope)
  /\ slots_ok limits (w_service w)
  /\ forall w', (w' = w /\ all_returned ps) \/ w' = restarted w ->
       idle w' /\ (forall k scope, view k scope (w_ledger w') = tally (row_weight k scope) (w_rows w'))
       /\ lg_namespaces (w_ledger w') = Z.of_nat (size (lg_namespaceUsage (w_ledger w'))).
Proof.
  intros Hl H0 Hr. pose proof (run_inv _ _ _ _ Hl H0 Hr) as Hi. split_and!.
  - intros k scope. split; [by eapply rows_below|apply (in_within _ _ Hi)].
  - apply (in_slots _ _ Hi).
  - intros w' Hw. assert (consistent limits w') as [Hi' Hd].
    { destruct Hw as [[-> Hret]| ->]; [|by apply restarted_consistent]. split; [done|].
      by apply (returned_idle limits stops pages (w_log w0) w0 tasks ps w (reached_consistent _ Hl H0) eq_refl Hr). }
    split_and!; [done| |apply (in_tidy _ _ Hi')]. intros k scope. destruct Hd as (_ & Hc & _).
    by rewrite (in_balanced _ _ Hi' k scope), Hc, tally_empty, Z.add_0_r.
Qed.

(** C8: an upload that was acknowledged has put there, whole, as many bytes as it declared.
    A download that reaches the end of its body was given the bytes of an upload of its
    artifact, the last one when the download looked it up, after it began: never bytes of
    another artifact, of another generation, or that somebody else changed or cut short -
    or else two contents with the same SHA-256 are known. *)
Theorem answers_authentic w0 tasks ps w :
  limits_error limits = None -> reached limits stops pages w0 -> run_to limits stops pages w0 tasks ps w ->
  (forall me id u size res, tasks !! me = Some (task_put id u size) -> ps !! me = Some (return_ (answer_put (Ok res))) ->
     pu_Size res = size /\ exists content, ev_put id content ∈ w_log w /\ len content = size
       /\ (content = up_content u \/ (stops = true /\ content = take (Z.to_nat size) (up_content u))))
  /\ forall me id reads sizes data, tasks !! me = Some (task_download id reads sizes) ->
       ps !! me = Some (return_ (answer_download (Ok (data, Some EOF)))) ->
       exists newer older content, w_log w = newer ++ ev_opened me id :: older /\ w_log w0 `suffix_of` older
         /\ current_upload older id = Some content /\ (data = content \/ (data <> content /\ sha256 data = sha256 content)).
Proof.
  intros Hl H0 Hr. pose proof (run_verified limits stops pages (w_log w0) w0 tasks ps w (reached_consistent _ Hl H0) eq_refl Hr) as Hv. split.
  - intros me id u size res Ht Hp. destruct (pool_returned (compile_protocol limits) _ _ me _ Hv Hp) as [_ Ha]. by apply (Ha _ Ht).
  - intros me id reads sizes data Ht Hp. destruct (pool_returned (compile_protocol limits) _ _ me _ Hv Hp) as [_ Ha].
    destruct (Ha _ Ht data eq_refl) as (newer & older & c & Hlog & Hb & Hc & Hs). exists newer, older, c. split_and!; [done..|].
    destruct (decide (data = c)) as [->|Hne]; [by left|right]. split; [done|]. unfold checksum_of in Hs.
    apply hex_encode_inj in Hs; [done|apply sha256_digest..].
Qed.

(** C10: a process may start on whatever processes before it left - with other limits, that died
    while they served or while they started, at any moment - while somebody else changes
    objects and calls fail.  If it dies before it serves, what it leaves is as sound as what it
    found.  If it starts, then the ledger is the sum of the entries and within the limits, and
    nobody holds anything; an entry may have gone, but none is new or changed; all are still
    there, if nobody ever changed objects and they were within the limits; and every object is
    that of an entry, or queued for deletion, or younger than the start.  The pass over the
    entries always reaches their end. *)
Theorem startup_recovers modified w0 meanwhile ps w :
  limits_error limits = None -> left_behind stops pages w0 -> start_to limits pages modified w0 meanwhile ps w ->
  sound (restarted w)
  /\ forall err, ps !! 0%nat = Some (return_ err) ->
       match err with
       | None => recovered limits modified w0 w /\ sound w
       | Some e => e <> Errorf "reconcile compiler cache: %w" [out_of_pages]
       end.
Proof.
  intros Hl [old Hc]%left_crashed Hs. destruct (start_sound old limits pages modified w0 meanwhile ps w Hl Hc Hs) as [Hc' He].
  split; [by apply (inv_sound old)|]. intros [e|] Hp; [by apply (He (Some e))|]. pose proof (He None Hp) as Hr. split; [done|].
  apply (inv_sound limits), (rv_consistent _ _ _ _ Hr).
Qed.

End properties.

(** ** Schedules *)

Section schedules.

(** Goroutine [i] makes [n] steps, none of which fails. *)
Definition turns (i n : nat) : list (nat * option (bool * error)) := replicate n (i, None).

Definition an_artifact : ArtifactID :=
  {| id_protocol := ProtocolCCache; id_namespace := bs "team"; id_key := bs "0123456789abcdef0123456789abcdef01234567" |}.
Definition two_generations : list gostring := [bs "0123456789abcdef"; bs "fedcba9876543210"].
Definition an_upload : upload := {| up_content := bs "object"; up_broken := None |}.

Definition put_and_get : list task :=
  [task_put an_artifact an_upload 6; task_download an_artifact (fun content => [(content, None)]) [4; 4; 4]%nat].

(** A schedule that ends with this answer of goroutine [i]. *)
Definition plays (tasks : list task) (schedule : list (nat * option (bool * error))) (i : nat) (check : answer -> world -> bool) : bool :=
  match outcome (fun _ => true) schedule (pool_of some_limits false 1 tasks, empty_compile_cache two_generations) i with
  | Some (a, w) => check a w
  | None => false
  end.

Lemma plays_sound tasks schedule i check :
  plays tasks schedule i check = true ->
  exists ps w a, run_to some_limits false 1 (empty_compile_cache two_generations) tasks ps w /\ ps !! i = Some (return_ a) /\ check a w = true.
Proof.
  unfold plays. destruct (outcome _ _ _ _) as [[a w]|] eqn:E; [|done]. intros Hc.
  destruct (outcome_reached (fun _ => true) (fun _ => True) _ _ _ _ _ ltac:(done) E) as (ps & Hs & Hp). by exists ps, w, a.
Qed.

Lemma two_generations_left : left_behind false 1 (empty_compile_cache two_generations).
Proof.
  apply left_new.
  - apply (bool_decide_unpack _). by vm_compute.
  - repeat constructor; by vm_compute.
Qed.

(** A start that nothing disturbs, of [n] steps. *)
Definition boot (n : nat) (w : world) : option (option error * world) :=
  outcome (fun _ => true) (turns 0 n) (start_pool some_limits 1 (fun _ => 0) id [], restarted w) 0.

Lemma boot_sound n w err w' :
  boot n w = Some (err, w') -> exists ps, start_to some_limits 1 (fun _ => 0) w [] ps w' /\ ps !! 0%nat = Some (return_ err).
Proof.
  intros Hb. apply (outcome_reached (fun _ => true) (fun _ => True)) in Hb as (ps & Hs & Hp); [|done]. exists ps. split; [|done]. by exists id.
Qed.

Lemma two_generations_reached : reached some_limits false 1 (empty_compile_cache two_generations).
Proof.
  exists (empty_compile_cache two_generations). split; [apply two_generations_left|].
  destruct (boot_sound 11 (empty_compile_cache two_generations) None (empty_compile_cache two_generations)) as (ps & Hs & Hp); [by vm_compute|].
  by exists (fun _ => 0), [], ps.
Qed.

Definition has_entry (w : world) : bool := match w_rows w !! an_artifact with Some e => en_Size e =? 6 | None => false end.
Definition got (bytes : gostring) (a : answer) : bool :=
  match a with answer_download (Ok (data, Some (Sentinel eof))) => str_eqb data bytes && String.eqb eof "EOF" | _ => false end.


Lemma capacity_kept_witness : exists ps w,
  run_to some_limits false 1 (empty_compile_cache two_generations) [task_put an_artifact an_upload 6] ps w
  /\ view Bytes None (w_ledger w) = 6 /\ idle w
  /\ forall k scope, tally (row_weight k scope) (w_rows w) <= view k scope (w_ledger w) <= limit_of some_limits k scope.
Proof.
  destruct (plays_sound [task_put an_artifact an_upload 6] (turns 0 19) 0 (fun _ w => view Bytes None (w_ledger w) =? 6) ltac:(by vm_compute))
    as (ps & w & a & Hr & Hp & Hw%Z.eqb_eq).
  exists ps, w. destruct (capacity_kept some_limits false 1 _ _ _ _ eq_refl two_generations_reached Hr) as (Hl & _ & Hq).
  split; [done|]. split; [done|]. split; [|done]. apply (Hq w). left. split; [done|]. intros i p Hi.
  pose proof (run_length _ _ _ _ _ _ _ Hr) as Hlen. apply lookup_lt_Some in Hi as Hlt. rewrite Hlen in Hlt. cbn in Hlt.
  assert (i = 0%nat) as -> by lia. rewrite Hp in Hi. injection Hi as <-. by exists a.
Defined.

(** A download that follows the upload. *)
Lemma answers_authentic_witness : exists ps w,
  run_to some_limits false 1 (empty_compile_cache two_generations) put_and_get ps w
  /\ ps !! 1%nat = Some (return_ (answer_download (Ok (bs "object", Some EOF))))
  /\ exists newer older content, w_log w = newer ++ ev_opened 1 an_artifact :: older
       /\ w_log (empty_compile_cache two_generations) `suffix_of` older /\ current_upload older an_artifact = Some content
       /\ (bs "object" = content \/ (bs "object" <> content /\ sha256 (bs "object") = sha256 content)).
Proof.
  destruct (plays_sound put_and_get (turns 0 19 ++ turns 1 8) 1 (fun a _ => got (bs "object") a) ltac:(by vm_compute)) as (ps & w & a & Hr & Hp & Hw).
  exists ps, w. split; [done|].
  assert (a = answer_download (Ok (bs "object", Some EOF))) as ->.
  { unfold got in Hw. destruct a as [|[[data [[eof|]|]]|]|]; try done. apply andb_prop in Hw as [->%str_eqb_eq ->%String.eqb_eq]. done. }
  split; [done|]. by apply (proj2 (answers_authentic some_limits false 1 _ _ _ _ eq_refl two_generations_reached Hr) 1%nat an_artifact _ _ _ eq_refl Hp).
Defined.

(** An upload, whose object somebody removes, and the process dies: the next one removes the
    entry. *)
Definition lose_object : list task := [task_put an_artifact an_upload 6; task_tamper (object_path an_artifact (bs "0123456789abcdef")) None].

(** A run, and a start on what it left. *)
Definition restarts (tasks : list task) (schedule : list (nat * option (bool * error))) (n : nat) (before after : world -> bool) : bool :=
  match outcome (fun _ => true) schedule (pool_of some_limits false 1 tasks, empty_compile_cache two_generations) 0 with
  | Some (_, w0) => before w0 && match boot n w0 with Some (None, w) => after w | _ => false end
  | None => false
  end.

Lemma restarts_sound tasks schedule n before after :
  restarts tasks schedule n before after = true ->
  exists w0 ps w, left_behind false 1 w0 /\ before w0 = true /\ start_to some_limits 1 (fun _ => 0) w0 [] ps w
    /\ ps !! 0%nat = Some (return_ None) /\ after w = true.
Proof.
  unfold restarts. destruct (outcome _ _ _ _) as [[a w0]|] eqn:E; [|done]. destruct (boot n w0) as [[[e|] w]|] eqn:Eb; rewrite ?andb_false_r; [done| |done].
  intros [Hb Ha]%andb_prop. destruct (outcome_reached (fun _ => true) (fun _ => True) _ _ _ _ _ ltac:(done) E) as (ps0 & Hs0 & _).
  destruct (boot_sound n w0 None w Eb) as (ps & Hs & Hp). exists w0, ps, w. split; [|done].
  destruct two_generations_reached as (w1 & Hl & Hst). by eapply (left_serving false 1 some_limits w1 (empty_compile_cache two_generations)).
Qed.

Lemma startup_recovers_witness : exists w0 ps w,
  left_behind false 1 w0 /\ has_entry w0 = true /\ start_to some_limits 1 (fun _ => 0) w0 [] ps w
  /\ has_entry w = false /\ recovered some_limits (fun _ => 0) w0 w /\ sound w.
Proof.
  destruct (restarts_sound lose_object (turns 0 19 ++ turns 1 1) 13 has_entry (fun w => negb (has_entry w)) ltac:(by vm_compute))
    as (w0 & ps & w & Hl & Hb & Hs & Hp & Ha%negb_true_iff).
  exists w0, ps, w. split; [done|]. split; [done|]. split; [done|]. split; [done|].
  exact (proj2 (startup_recovers some_limits false 1 _ _ _ _ _ eq_refl Hl Hs) None Hp).
Defined.

End schedules.
